(* ===== verification/_CoqProject ===== *)
-Q . S2P
Prelude.v
Bytes.v
Crc.v
Chunk.v
Volume.v
LogTail.v
Journal.v
JournalCrash.v
Cache.v
BlockGateway.v
Resolver.v
Bitmap.v
Wildcard.v
StdText.v
Policy.v
ChunkedDecode.v
RaftLog.v
RaftLogRefine.v
Stamp.v
PgEpochs.v
Requests.v
Scope.v
Authz.v
AuthzSpec.v
OrdMap.v
DiskIndex.v
DiskIndexSpec.v
MetaTypes.v
MetaWal.v
MetaStore.v
MetaStoreInv.v
F64.v
JumpHash.v
Topology.v
TopologySpec.v
Crush.v
CrushSpec.v
Copyset.v
CopysetSpec.v
CopysetPool.v
CopysetFill.v
CopysetPoolSpec.v
CopysetShuffle.v
ErasureBackend.v
Erasure.v
CombinationsSpec.v
Stripes.v
Xor.v
XorCode.v
ErasureSpec.v
LrcSpec.v
CodecSpec.v
VerifiedDecode.v
MetaState.v
MetaStateSpec.v
MetaSnapshot.v
MetaNode.v
PgMembers.v
PgMembersSpec.v
PgCommit.v
StripeWrite.v
Durability.v
Recovery.v
RecoverySpec.v
Balancer.v
BalancerSpec.v
PgLife.v
Liveness.v
