(* ===== verification/Prelude.v ===== *)
(** * IOLake: a verification library of the storage system's core logic

    IOLake (crates/ and bin/ under src/) is an object store with block
    volumes: a gateway speaks S3 and checks policies, a metadata service
    replicates tables over Raft, storage daemons keep erasure-coded shards on
    raw devices, and a block gateway serves volumes over NBD from a write
    cache and a journal. This library models the parts of it whose
    correctness is logic rather than I/O, as executable definitions
    translated function by function, and proves what each of them promises.

    ** Which file models what

    - [Prelude]: Rust outcomes ([Ok], [Err], [Panic]), machine integers with
      their wrap-around, slices and copies with their bounds, and the lemmas
      on lists and integers the components share.
    - [Bytes]: byte strings, little-endian codecs, UTF-8.
    - [Crc]: the class [Crc32c] (a 32-bit checksum of bytes, all the journal
      relies on) and Castagnoli's polynomial as an instance.
    - [Chunk]: block/src/chunk.rs, how a volume's bytes are cut into chunks.
    - [Volume]: block/src/volume.rs, [VolumeManager] as a record of maps with
      one state-passing function per method; error.rs.
    - [LogTail]: common/src/log_tail.rs, the windowed search for a whole
      record after damage.
    - [Journal]: block/src/journal.rs, entries and their bytes, the file,
      open, scan, append, rotate, group commit, recovery.
    - [JournalCrash]: the journal as a step relation: appends, failures,
      rotations, and fsyncs that run while entries are appended; a crash
      keeps the stable bytes of the file.
    - [Cache]: block/src/cache.rs, [WriteCache]: dirty, clean and pending
      chunks, versions, flush bookkeeping, over [Journal] and [Chunk].
    - [BlockGateway]: the tasks of block-gateway/src (write, load, merge,
      flush, journal reset, open, restart) as a step relation over the cache
      and what meta and the storage daemons hold; a flush takes its chunks
      before the flush lock or after, as the code does.
    - [Resolver]: block-gateway/src/resolve.rs and flush.rs, reads through
      the cache, zero writes, and [flush_volume] cut at its lock.
    - [Bitmap]: storage/src/block.rs, extents, the block bitmap and the
      allocator with its rollback and its on-disk image.
    - [Wildcard]: auth/src/policy.rs, [wildcard_match].
    - [StdText]: what policy.rs uses of the standard library's text
      functions: prefixes, case, trimming, the number and IP parsers.
    - [Policy]: the rest of auth/src/policy.rs from the parsed form on.
    - [ChunkedDecode]: gateway/src/chunked_decode.rs, the incremental decoder
      of signed chunked bodies and the streamed body around it.
    - [RaftLog], [RaftLogRefine]: meta-store/src/raft_log.rs on the bytes of
      its segments, and its refinement of a list of entries.
    - [Stamp]: common/src/stamp.rs, the hybrid clock, and the processes of a
      cluster that read each other's stamps.
    - [PgEpochs]: osd/src/pg_epochs.rs, the fence against stale epochs, in
      the steps around its question to meta.
    - [Requests]: gateway/src/authz.rs, [classify], beside the dispatch of
      gateway/src/s3.rs and s3/: what is authorized and what is run.
    - [Scope]: auth/src/scope.rs and gateway/src/origin.rs.
    - [Authz], [AuthzSpec]: the rest of gateway/src/authz.rs, the cache, the
      loads from meta and [authorize], over [Policy], [Scope] and [Requests].
    - [OrdMap]: [BTreeMap]s on byte keys as sorted lists of entries.
    - [DiskIndex], [DiskIndexSpec]: storage/src/metadata/disk_index.rs and
      the paging of index.rs, over redb as a class.
    - [MetaTypes]: storage/src/metadata/types.rs, keys and operations.
    - [MetaWal]: storage/src/metadata/wal.rs on the bytes of its file.
    - [MetaStore], [MetaStoreInv]: storage/src/metadata/store.rs, the log in
      front of the index, as interleaved events with power cuts, writes of
      one key at once among them, and the invariant of its runs.

    - [F64]: doubles, and the casts to and from them.
    - [JumpHash]: placement/src/jump_hash.rs, and the placement group of a key.
    - [Topology], [TopologySpec]: placement/src/topology.rs and what meta does
      to the topology.
    - [Crush], [CrushSpec]: placement/src/crush2.rs.
    - [Copyset], [CopysetPool]: placement/src/copyset.rs, rules and the pools
      built by them; [CopysetSpec] says what a rule means, [CopysetFill],
      [CopysetPoolSpec] and [CopysetShuffle] that what is built keeps it.
    - [ErasureBackend], [Erasure]: erasure/src, the schemes, the backends over
      the coding libraries, the codec. [CombinationsSpec], [Stripes], [Xor],
      [ErasureSpec] and [LrcSpec] are the lemmas, [ErasureSpec.Codes] the
      interface between a backend and the codec; [CodecSpec] and
      [VerifiedDecode] the theorems; [XorCode] an instance of the libraries.
    - [MetaState]: meta-store/src/raft.rs and raft_storage.rs, the replicated
      state machine; [MetaStateSpec], [MetaSnapshot], [MetaNode]: replicas,
      snapshots, and a node that crashes.
    - [PgMembers], [PgMembersSpec]: meta/src/service/pgs.rs, pools, rules,
      acting sets and stand-ins; [PgCommit]: their commits through [MetaState].
    - [StripeWrite]: proto/src/stripe.rs, targets, quorums, the write; the
      coder of gateway/src/stripe.rs and the read of copies of s3/get.rs.
    - [Recovery], [RecoverySpec]: meta/src/service/recovery.rs, which groups
      move where, in what order, on which OSDs' slots.
    - [Balancer], [BalancerSpec]: meta/src/balancer.rs. [Liveness]:
      meta/src/liveness.rs, with what else meta/src/service/cluster.rs does to
      the topology between sweeps.
    - [PgLife]: all that changes a placement group, together.
    - [Durability]: what [StripeWrite], [Erasure], [Copyset] and [PgMembers]
      promise together.

    State is passed explicitly: a method is a function from the old state to
    the new one and a result. Locks are the atomicity of a step. What the
    code reads from outside (the clock, new UUIDs, the outcome of a disk or
    network operation) is an argument. Maps are [gmap]; a [BTreeMap] whose
    iteration order matters is the list of its entries in key order.

    ** What the theorems show

    - Durability. [synced_survives_crash]: entries the journal acknowledged
      are recovered in order after any crash. [torn_journal_opens],
      [open_recover], [entry_roundtrip] and [whole_record_after_correct]: what
      a file with a torn end opens to, and what its bytes mean.
      [append_fail_stop]: errors never leave a half-written journal in use.
    - The block gateway. [write_refines_array], [read_gives_view],
      [covers_exact]: the cache refines a flat array of bytes.
      [gateway_volume_is_array]: in every interleaving of the tasks each
      volume is the array of its applied writes, as long as no flush waits
      for the lock with bytes older than those another has flushed since
      ([early_flush_loses_write] is what happens otherwise).
      [restart_keeps_writes]: replaying the journal gives it back. [resolver_read_correct] and
      [write_zeroes_correct]: reads and zero writes through the resolver.
    - Volumes. [run_wf], [snapshot_immutable], [clone_isolated] and their
      neighbours: the manager's maps stay consistent, snapshots and clones
      keep what they were taken from. [byte_range_to_chunks_tiles] and
      [byte_range_to_chunks_bounds]: the cutting of byte ranges.
    - Space. [bitmap_run_wf], [allocate_correct], [allocate_extent_correct],
      [allocate_multiple_all_or_nothing], [allocator_sync_roundtrip].
    - The metadata store, when it syncs each write. [acknowledged_survive]: an
      acknowledged write is in the log after any power cut.
      [store_reads_log]: what is read of a key is what the log's operations
      make, unless two writes of it were ever under way at once
      ([overtaken_write_flips]). [store_opens], [open_keeps_whole],
      [open_torn]: a torn log opens and keeps its whole records.
      [reads_contents], [paged_scan_whole], [get_linearizable]: the index is
      one ordered map, also for a reader beside a checkpoint.
      [object_keys_exact]: a scan's prefix finds the versions of one key.
    - The Raft log. [raft_log_refines], [crash_keeps_log],
      [torn_append_opens]: it is a list of entries, before and after a crash.
    - Order. [stamps_follow_order]: what happens after is stamped after.
      [stale_epoch_fenced]: a request of a stale epoch is not served.
    - Request bodies. [decode_accepts_framed], [push_in_pieces],
      [streamed_body_agrees]: the decoder accepts what is framed and signed,
      however the bytes are cut into pieces.
    - Access. [run_means_authorized]: an operation a handler runs was
      authorized under its own action. [authorize_admits]: the chain of
      checks as one statement. [dispatch_agrees], [scope_admits],
      [client_ip_unforged], [wildcard_match_correct], [evaluate_decides],
      [public_grants_split], [unknown_operator_never_allows],
      [canonical_arn_one_spelling], [cidr_contains_prefix],
      [explanation_agrees].
    - Placement. [jump_moves_to_new], [pg_of_key_in_range]: the group of a
      key. [topology_refines_map], [topology_filed], [distance_ultrametric]:
      the topology. [select_placement_exact]: a stripe is placed exactly when
      there are OSDs enough. [build_exact], [build_keeps_rule],
      [shuffle_keeps_rule], [admits_exact], [slots_partition]: a pool is built
      exactly when the rule fits, and copysets, shuffles and stand-ins keep it.
    - Erasure codes, from what the coding libraries promise. [encode_decode],
      [lrc_rebuilds_exact], [encode_one_stripe], [reconstruct_exact]: what
      comes back from which shards. [decode_verified_sound],
      [decode_verified_finds], [combinations_exact]: the verified decode.
    - The state machine. [replicas_agree], [multi_cas_exact]: what a log
      makes does not depend on how it is cut into batches.
      [follower_catches_up], [truncated_snapshot_refused]: snapshots, and when
      a follower numbers config entries as its leader does.
      [node_recovers]: a crash loses nothing the log does not give back.
    - Placement groups. [stand_in_safe], [stand_in_stuck]: one pass over a
      group. [remap_safe], [balance_sound]: moves, and plans to move.
      [tasks_keep_groups]: all of the leader's tasks, their commits
      interleaved in any way. They are of topologies that have each OSD once,
      where it matters; one that moves is in the topology twice
      ([moved_osd_twice]). [reservations_exact], [round_exact],
      [lrc_groups_agree]: recovery's slots, rounds and local groups.
      [liveness_exact]: which OSDs are down, in the topology and in CRUSH.
    - Across components. [acked_survives_osd]: an acknowledged stripe is read
      after any one OSD is lost, unless its pool has a single copy. [domain_loss_readable]: a pool said to
      tolerate the loss of a domain does.
    - Defects, each a theorem on a concrete run:
      [early_flush_loses_write], [extent_across_hint_missed],
      [free_multiple_partial_not_synced], [wildcard_star_in_value],
      [unknown_operator_misses_deny], [pinned_if_exists_is_public],
      [escaped_subresource_unchecked], [second_subresource_unchecked],
      [invalidate_overtaken], [empty_segment_kept],
      [unsynced_open_then_refused], [overtaken_write_flips],
      [scan_error_is_silent], [nul_key_versions_mixed],
      [lrc_domain_loss_unreadable], [bad_counter_stops_nodes],
      [install_loses_version], [remap_breaks_rule], [balance_flips],
      [removed_stays_in_crush].

    ** Fuel and bounds

    Loops that are not structural carry fuel that is shown to be enough:
    [utf8_chars], [push_loop] and the scans of the three logs take one unit per
    byte, [windows] one per byte of the log, [match_loop] [rounds], which
    [match_loop_enough] proves sufficient; [jump_consistent_hash] one per
    bucket; a snapshot's rows and tables one per byte left, of which each
    takes some. A verified decode's budget of attempts is the code's own.
    Unsigned integers are [Z] with [wadd64] and the like where the code can
    wrap; theorems ask for arguments in range. A chunk at the very end of the
    64-bit byte space is left out by such a premise.

    ** What is not modelled

    serde's JSON, chrono, UUIDs, crc32c, xxHash, redb, prost, SHA-256 and
    HMAC, ISA-L, reed-solomon-simd, the random generators, axum's query
    extractor are library code: parameters or classes with an instance, or
    left out where only they matter. Metrics, tracing, task handles and the
    tonic, axum and openraft layers are left out. An evaluation of a policy
    reads the clock once; the removals, renames and directory syncs of the
    Raft log, whose failure stops the node, succeed. Of the placement groups,
    making the default pool, pushing epochs to the OSDs, peering and the
    copying of recovery are left out; of the state machine, the files
    snapshots are kept in, backups and the typed accessors of store.rs.

    The gateway's handlers past their dispatch, the osd's services, repair and
    kms are mostly calls between services and to devices: what they decide by
    themselves is small beside what they call. The on-disk layout of storage,
    CORS and lifecycle rules, the canonical request of auth and the NBD
    requests are logic of their own, and are not modelled here. The catalogs,
    the console, the SDKs and the binaries' startup are outside this library. *)

From stdpp Require Export base list gmap strings fin_maps sorting.
From Stdlib Require Export ZArith Lia Ascii.

#[global] Open Scope Z_scope.

(** ** Outcomes of Rust code

    [Ok] and [Err] are [Result]'s; [Panic] is a panic (a slice index out of
    range, a failed [assert!]), kept apart from the errors the code returns
    so that its absence can be stated. *)
Inductive outcome (E A : Type) : Type :=
| Ok (a : A)
| Err (e : E)
| Panic.
Arguments Ok {E A} a.
Arguments Err {E A} e.
Arguments Panic {E A}.

#[global] Instance outcome_ret E : MRet (outcome E) := fun _ a => Ok a.
#[global] Instance outcome_bind E : MBind (outcome E) := fun _ _ f m =>
  match m with Ok a => f a | Err e => Err e | Panic => Panic end.
#[global] Instance outcome_fmap E : FMap (outcome E) := fun _ _ f m =>
  match m with Ok a => Ok (f a) | Err e => Err e | Panic => Panic end.

Definition map_err {E F A} (f : E -> F) (m : outcome E A) : outcome F A :=
  match m with Ok a => Ok a | Err e => Err (f e) | Panic => Panic end.

Definition ok_or {E A} (o : option A) (e : E) : outcome E A :=
  match o with Some a => Ok a | None => Err e end.

Definition or_panic {E A} (o : option A) : outcome E A :=
  match o with Some a => Ok a | None => Panic end.

Definition is_ok {E A} (m : outcome E A) : bool :=
  match m with Ok _ => true | _ => false end.

Definition get_ok {E A} (m : outcome E A) : option A :=
  match m with Ok a => Some a | _ => None end.

Lemma outcome_bind_ok {E A B} (m : outcome E A) (f : A -> outcome E B) b :
  (m ≫= f) = Ok b <-> exists a, m = Ok a /\ f a = Ok b.
Proof. split; [destruct m; cbn; eauto; done|intros (a & -> & ?); done]. Qed.

Lemma ok_or_ok {E A} (o : option A) (e : E) a : ok_or o e = Ok a <-> o = Some a.
Proof. destruct o; cbn; naive_solver. Qed.

(** ** Machine integers

    Unsigned integers are [Z]; a release build wraps, written out. *)
Definition two64 : Z := 2 ^ 64.
Definition u64_max : Z := two64 - 1.
Definition u32_max : Z := 2 ^ 32 - 1.
Definition u16_max : Z := 2 ^ 16 - 1.

Definition is_u64 (z : Z) : Prop := 0 <= z < two64.
Definition is_u32 (z : Z) : Prop := 0 <= z < 2 ^ 32.

Definition wrap64 (z : Z) : Z := z mod two64.
Definition wadd64 (a b : Z) : Z := wrap64 (a + b).
Definition wsub64 (a b : Z) : Z := wrap64 (a - b).
Definition wmul64 (a b : Z) : Z := wrap64 (a * b).
Definition wshl64 (a n : Z) : Z := wrap64 (Z.shiftl a n).
Definition saturating_add64 (a b : Z) : Z := Z.min u64_max (a + b).
Definition saturating_sub (a b : Z) : Z := Z.max 0 (a - b).
Definition checked_add64 (a b : Z) : option Z :=
  if a + b <? two64 then Some (a + b) else None.
(** [u64::div_ceil]. *)
Definition div_ceil (a b : Z) : Z :=
  let q := a / b in if 0 <? a mod b then q + 1 else q.

(** [usize::div_ceil], on counts. *)
Definition div_ceil_nat (a b : nat) : nat :=
  (a / b + if Nat.ltb 0 (a mod b) then 1 else 0)%nat.

Lemma wrap64_small z : is_u64 z -> wrap64 z = z.
Proof. unfold wrap64, is_u64. intros. by apply Z.mod_small. Qed.

Lemma wrap64_u64 z : is_u64 (wrap64 z).
Proof. unfold wrap64, is_u64. apply Z.mod_pos_bound. by vm_compute. Qed.

Lemma wadd64_small a b : 0 <= a -> 0 <= b -> a + b < two64 -> wadd64 a b = a + b.
Proof. intros. apply wrap64_small. unfold is_u64. lia. Qed.

Lemma wmul64_small a b : 0 <= a -> 0 <= b -> a * b < two64 -> wmul64 a b = a * b.
Proof. intros. apply wrap64_small. unfold is_u64. nia. Qed.

Lemma div_ceil_spec a b : 0 <= a -> 0 < b ->
  a <= div_ceil a b * b < a + b.
Proof.
  intros Ha Hb. unfold div_ceil.
  pose proof (Z.div_mod a b ltac:(lia)). pose proof (Z.mod_pos_bound a b Hb).
  destruct (Z.ltb_spec 0 (a mod b)); nia.
Qed.

(** ** Automation

    [case_if] splits on a boolean test and turns it into the comparison it
    decides; [inv_ok] peels a bind that succeeded. *)
Ltac bool_to_prop :=
  repeat match goal with
  | H : (_ <? _) = true |- _ => apply Z.ltb_lt in H
  | H : (_ <? _) = false |- _ => apply Z.ltb_ge in H
  | H : (_ <=? _) = true |- _ => apply Z.leb_le in H
  | H : (_ <=? _) = false |- _ => apply Z.leb_gt in H
  | H : (_ =? _) = true |- _ => apply Z.eqb_eq in H
  | H : (_ =? _) = false |- _ => apply Z.eqb_neq in H
  | H : negb _ = true |- _ => apply negb_true_iff in H
  | H : negb _ = false |- _ => apply negb_false_iff in H
  | H : (_ && _) = true |- _ => apply andb_true_iff in H as [? ?]
  | H : (_ || _) = false |- _ => apply orb_false_iff in H as [? ?]
  end.

Ltac case_if :=
  match goal with
  | |- context [if ?b then _ else _] =>
      match type of b with bool => destruct b eqn:? end
  | H : context [if ?b then _ else _] |- _ =>
      match type of b with bool => destruct b eqn:? end
  end; bool_to_prop.

Ltac case_match_goal :=
  match goal with
  | |- context [match ?x with _ => _ end] => destruct x eqn:?
  end; simplify_eq.

Ltac inv_ok :=
  repeat match goal with
  | H : (_ ≫= _) = Ok _ |- _ => apply outcome_bind_ok in H as (? & ? & ?)
  | H : ok_or _ _ = Ok _ |- _ => apply ok_or_ok in H
  | H : Ok _ = Ok _ |- _ => injection H as H; subst
  | H : Err _ = Ok _ |- _ => discriminate H
  | H : Panic = Ok _ |- _ => discriminate H
  | H : match ?x with (_, _) => _ end = Ok _ |- _ => destruct x
  end.

Create HintDb iolake.
#[export] Hint Resolve wrap64_u64 : iolake.

(** ** Lists indexed by integers *)
Definition lenZ {A} (l : list A) : Z := Z.of_nat (length l).

#[global] Arguments lenZ : simpl never.

Lemma lenZ_nonneg {A} (l : list A) : 0 <= lenZ l.
Proof. unfold lenZ. lia. Qed.

Lemma lenZ_app {A} (l k : list A) : lenZ (l ++ k) = lenZ l + lenZ k.
Proof. unfold lenZ. rewrite length_app. lia. Qed.

Lemma lenZ_cons {A} (x : A) l : lenZ (x :: l) = 1 + lenZ l.
Proof. unfold lenZ. cbn [length]. lia. Qed.

Lemma lenZ_nil_inv {A} (l : list A) : lenZ l = 0 -> l = [].
Proof. unfold lenZ. destruct l; cbn; [done|lia]. Qed.

(** [start..end] as a list. *)
Definition rangeZ (lo hi : Z) : list Z := seqZ lo (hi - lo).

(** [&l[off..off + n]]: [None] where indexing panics. *)
Definition slice {A} (off n : nat) (l : list A) : option (list A) :=
  if (off + n <=? length l)%nat then Some (take n (drop off l)) else None.

(** [l[off..off + src.len()].copy_from_slice(src)]: [None] where it panics. *)
Definition copy_into {A} (off : nat) (src l : list A) : option (list A) :=
  if (off + length src <=? length l)%nat
  then Some (take off l ++ src ++ drop (off + length src) l) else None.

(** [Vec::resize]. *)
Definition resize_to {A} (n : nat) (x : A) (l : list A) : list A :=
  take n l ++ replicate (n - length l) x.

Lemma slice_some {A} off n (l : list A) :
  (off + n <= length l)%nat -> slice off n l = Some (take n (drop off l)).
Proof. intros H. unfold slice. by rewrite (proj2 (Nat.leb_le _ _) H). Qed.

Lemma slice_lookup {A} off n (l k : list A) i :
  slice off n l = Some k -> k !! i = (if (i <? n)%nat then l !! (off + i)%nat else None).
Proof.
  unfold slice. case_match; intros; simplify_eq.
  destruct (Nat.ltb_spec i n).
  - rewrite lookup_take_lt by lia. by rewrite lookup_drop.
  - by rewrite lookup_take_ge by lia.
Qed.

Lemma slice_length {A} off n (l k : list A) : slice off n l = Some k -> length k = n.
Proof.
  unfold slice. case_match eqn:E; intros; simplify_eq.
  apply Nat.leb_le in E. rewrite length_take, length_drop. lia.
Qed.

Lemma copy_into_some {A} off (src l : list A) :
  (off + length src <= length l)%nat ->
  copy_into off src l = Some (take off l ++ src ++ drop (off + length src) l).
Proof. intros H. unfold copy_into. by rewrite (proj2 (Nat.leb_le _ _) H). Qed.

Lemma copy_into_length {A} off (src l k : list A) :
  copy_into off src l = Some k -> length k = length l.
Proof.
  unfold copy_into. case_match eqn:E; intros; simplify_eq.
  apply Nat.leb_le in E. rewrite !length_app, length_take, length_drop. lia.
Qed.

Lemma copy_into_lookup {A} off (src l k : list A) i :
  copy_into off src l = Some k ->
  k !! i = (if ((off <=? i) && (i <? off + length src))%nat
            then src !! (i - off)%nat else l !! i).
Proof.
  unfold copy_into. case_match eqn:E; intros; simplify_eq.
  apply Nat.leb_le in E.
  destruct (Nat.leb_spec off i); rewrite ?andb_true_l, ?andb_false_l.
  - rewrite lookup_app_r, length_take by (rewrite length_take; lia).
    replace (off `min` length l)%nat with off by lia.
    destruct (Nat.ltb_spec i (off + length src)).
    + by rewrite lookup_app_l by lia.
    + rewrite lookup_app_r by lia. rewrite lookup_drop. f_equal. lia.
  - rewrite lookup_app_l by (rewrite length_take; lia).
    by rewrite lookup_take_lt by lia.
Qed.

Lemma resize_to_length {A} n (x : A) l : length (resize_to n x l) = n.
Proof. unfold resize_to. rewrite length_app, length_take, length_replicate. lia. Qed.

Lemma resize_to_lookup {A} n (x : A) l i :
  resize_to n x l !! i =
  (if (i <? n)%nat then Some (default x (l !! i)) else None).
Proof.
  unfold resize_to. destruct (Nat.ltb_spec i n).
  - destruct (Nat.lt_ge_cases i (length l)).
    + rewrite lookup_app_l by (rewrite length_take; lia).
      rewrite lookup_take_lt by lia.
      destruct (lookup_lt_is_Some_2 l i) as [y Hy]; [lia|]. by rewrite Hy.
    + rewrite lookup_app_r by (rewrite length_take; lia).
      rewrite (lookup_ge_None_2 l i) by lia. cbn.
      apply lookup_replicate_2. rewrite length_take. lia.
  - apply lookup_ge_None_2. rewrite length_app, length_take, length_replicate. lia.
Qed.

Lemma resize_to_same {A} n (x : A) l : length l = n -> resize_to n x l = l.
Proof.
  intros <-. unfold resize_to. rewrite Nat.sub_diag. cbn. rewrite app_nil_r.
  by apply take_ge.
Qed.

Create Rewrite HintDb iolake_len.
#[export] Hint Rewrite @resize_to_length @length_app @length_take @length_drop
  @length_replicate : iolake_len.

(** Solve an equation or inequation between list lengths. *)
Ltac len := autorewrite with iolake_len in *; lia.

(** ** Ranges of integers *)
Lemma seqZ_cons_1 s n : 0 < n -> seqZ s n = s :: seqZ (s + 1) (n - 1).
Proof. intros. by rewrite seqZ_cons, <- Z.add_1_r, <- Z.sub_1_r by lia. Qed.

Lemma seqZ_split s n m : 0 <= n -> 0 <= m -> seqZ s (n + m) = seqZ s n ++ seqZ (s + n) m.
Proof. intros. by apply seqZ_app. Qed.

Lemma NoDup_fmap_filter {A B} (f : A -> B) (P : A -> Prop) `{forall x, Decision (P x)} (l : list A) :
  NoDup (f <$> l) -> NoDup (f <$> filter P l).
Proof.
  induction l as [|x l IH]; [done|]. rewrite fmap_cons, NoDup_cons, filter_cons. intros [Hx Hl].
  case_decide; [|by apply IH]. rewrite fmap_cons, NoDup_cons. split; [|by apply IH].
  intros (y & Hf & [_ Hy]%list_elem_of_filter)%list_elem_of_fmap. apply Hx.
  rewrite Hf. apply list_elem_of_fmap. eauto.
Qed.

Lemma NoDup_fmap_elem {A B} (f : A -> B) (l : list A) x y :
  NoDup (f <$> l) -> x ∈ l -> y ∈ l -> f x = f y -> x = y.
Proof.
  intros Hl [i Hi]%list_elem_of_lookup [j Hj]%list_elem_of_lookup Hf.
  assert (i = j) as <-; [|congruence]. eapply NoDup_lookup; [exact Hl| |].
  - rewrite list_lookup_fmap, Hi. done.
  - rewrite list_lookup_fmap, Hj. cbn. by rewrite Hf.
Qed.

Lemma filter_ext_in {A} (P Q : A -> Prop) `{forall x, Decision (P x)} `{forall x, Decision (Q x)} (l : list A) :
  (forall x, x ∈ l -> P x <-> Q x) -> filter P l = filter Q l.
Proof.
  induction l as [|x l IH]; intros Hl; [done|]. rewrite !filter_cons.
  rewrite IH by (intros y Hy; apply Hl; by right).
  destruct (Hl x ltac:(by left)). repeat case_decide; naive_solver.
Qed.

Lemma filter_none {A} (P : A -> Prop) `{forall x, Decision (P x)} (l : list A) : Forall (fun x => ~ P x) l -> filter P l = [].
Proof. induction 1 as [|x l Hx _ IH]; [done|]. by rewrite filter_cons_False. Qed.

Lemma mapM_ok {E A B} (f : A -> outcome E B) l k :
  mapM f l = Ok k <-> Forall2 (fun x y => f x = Ok y) l k.
Proof.
  revert k. induction l as [|x l IH]; intros k; cbn [mapM].
  - split; [by intros [= <-]|by intros ->%Forall2_nil_inv_l].
  - rewrite outcome_bind_ok. split.
    + intros (y & Hy & (ys & Hys & [= <-])%outcome_bind_ok). constructor; [done|]. by apply IH.
    + intros (y & ys & Hy & Hys & ->)%Forall2_cons_inv_l. exists y. split; [done|].
      apply outcome_bind_ok. exists ys. split; [by apply IH|done].
Qed.

Lemma flat_map_ext_in {A B} (f g : A -> list B) l :
  (forall x, x ∈ l -> f x = g x) -> flat_map f l = flat_map g l.
Proof.
  induction l as [|a l IH]; intros H; cbn; [done|].
  rewrite (H a), IH; [done| |]; intros; try apply H; set_solver.
Qed.

(** A list is split in one way at the last occurrence of a separator. *)
Lemma app_last_sep_inj {A} (x : A) a1 a2 b1 b2 :
  x ∉ b1 -> x ∉ b2 -> a1 ++ x :: b1 = a2 ++ x :: b2 -> a1 = a2 /\ b1 = b2.
Proof.
  revert a2. induction a1 as [|y a1 IH]; intros [|z a2] H1 H2 H; cbn in H; simplify_eq.
  - done.
  - set_solver.
  - set_solver.
  - destruct (IH a2) as [-> ->]; auto.
Qed.
