(* ===== verification/Bytes.v ===== *)
(** * Bytes, little-endian integers, readers and UTF-8

    What the storage formats use of Rust's standard library:
    [uN::to_le_bytes] / [from_le_bytes], [Read::read_exact] over a byte
    cursor, [String::as_bytes] / [from_utf8], and [str::chars]. A Rust
    [String] is a [string] read as its bytes. *)

From coqutil Require Export Byte Word.LittleEndianList.
From S2P Require Import Prelude.

Abbreviation byte := Init.Byte.byte.
Abbreviation bytes := (list Init.Byte.byte).

#[global] Instance byte_eq_dec : EqDecision byte := Byte.byte_eq_dec.
#[global] Program Instance byte_countable : Countable byte :=
  inj_countable Byte.to_N Byte.of_N _.
Next Obligation. intros b. apply Byte.of_to_N. Qed.

(** ** Little-endian integers *)
Definition to_le (n : nat) (z : Z) : bytes := le_split n z.
Definition from_le (bs : bytes) : Z := le_combine bs.

Lemma to_le_length n z : length (to_le n z) = n.
Proof. apply length_le_split. Qed.

Lemma lenZ_to_le n z : lenZ (to_le n z) = Z.of_nat n.
Proof. unfold lenZ. by rewrite to_le_length. Qed.

Lemma from_to_le n z : 0 <= z < 2 ^ (Z.of_nat n * 8) -> from_le (to_le n z) = z.
Proof. intros. unfold from_le, to_le. rewrite le_combine_split. by apply Z.mod_small. Qed.

Lemma to_from_le n bs : length bs = n -> to_le n (from_le bs) = bs.
Proof. apply split_le_combine'. Qed.

Lemma from_le_bound bs : 0 <= from_le bs < 2 ^ (8 * lenZ bs).
Proof. apply le_combine_bound. Qed.

(** ** Reading from a cursor

    [read_exact n] takes the next [n] bytes of what is left, or fails with
    [UnexpectedEof]. *)
Definition read_exact (n : nat) (rest : bytes) : option (bytes * bytes) :=
  if (n <=? length rest)%nat then Some (take n rest, drop n rest) else None.

Lemma read_exact_app bs rest : read_exact (length bs) (bs ++ rest) = Some (bs, rest).
Proof.
  unfold read_exact. rewrite length_app.
  destruct (Nat.leb_spec (length bs) (length bs + length rest)); [|lia].
  by rewrite take_app_length, drop_app_length.
Qed.

Lemma read_exact_app_eq n bs rest :
  length bs = n -> read_exact n (bs ++ rest) = Some (bs, rest).
Proof. intros <-. apply read_exact_app. Qed.

Lemma read_exact_some n l a r :
  read_exact n l = Some (a, r) -> l = a ++ r /\ length a = n.
Proof.
  unfold read_exact. case_match eqn:E; intros; simplify_eq.
  apply Nat.leb_le in E. rewrite take_drop, length_take. split; [done|lia].
Qed.

Lemma read_exact_none n l : read_exact n l = None <-> (length l < n)%nat.
Proof.
  unfold read_exact. destruct (Nat.leb_spec n (length l)); split; (done || lia).
Qed.

(** [read_exact] into an [n]-byte array, then [from_le_bytes]. *)
Definition read_le (n : nat) (rest : bytes) : option (Z * bytes) :=
  '(b, r) ← read_exact n rest; Some (from_le b, r).

Lemma read_le_app n z rest :
  0 <= z < 2 ^ (Z.of_nat n * 8) -> read_le n (to_le n z ++ rest) = Some (z, rest).
Proof.
  intros. unfold read_le.
  rewrite read_exact_app_eq by apply to_le_length. cbn.
  by rewrite from_to_le.
Qed.

Lemma read_le_some n l z r :
  read_le n l = Some (z, r) -> l = to_le n z ++ r /\ 0 <= z < 2 ^ (Z.of_nat n * 8).
Proof.
  unfold read_le. destruct (read_exact n l) as [[b r']|] eqn:E; cbn; intros; simplify_eq.
  apply read_exact_some in E as [-> Hl]. rewrite to_from_le by done. split; [done|].
  pose proof (from_le_bound b) as Hb. unfold lenZ in Hb. rewrite Hl in Hb.
  by rewrite Z.mul_comm.
Qed.

Lemma read_u8 t r : 0 <= t < 256 -> read_le 1 (byte.of_Z t :: r) = Some (t, r).
Proof. apply (read_le_app 1). Qed.
Lemma read_u16 z r : 0 <= z < 2 ^ 16 -> read_le 2 (to_le 2 z ++ r) = Some (z, r).
Proof. apply (read_le_app 2). Qed.
Lemma read_u32 z r : 0 <= z < 2 ^ 32 -> read_le 4 (to_le 4 z ++ r) = Some (z, r).
Proof. apply (read_le_app 4). Qed.
Lemma read_u64 z r : is_u64 z -> read_le 8 (to_le 8 z ++ r) = Some (z, r).
Proof. apply (read_le_app 8). Qed.

Lemma read_u8_some l t r :
  read_le 1 l = Some (t, r) -> l = byte.of_Z t :: r /\ 0 <= t < 256.
Proof. apply (read_le_some 1). Qed.

(** ** Strings as bytes *)
Definition as_bytes (s : string) : bytes := String.list_byte_of_string s.
Definition of_bytes (b : bytes) : string := String.string_of_list_byte b.

#[global] Arguments as_bytes : simpl never.
#[global] Arguments of_bytes : simpl never.
#[global] Arguments to_le : simpl never.
#[global] Arguments from_le : simpl never.
#[global] Arguments read_exact : simpl never.
#[global] Arguments read_le : simpl never.

Lemma of_as_bytes s : of_bytes (as_bytes s) = s.
Proof. apply String.string_of_list_byte_of_string. Qed.

Lemma as_bytes_inj s t : as_bytes s = as_bytes t -> s = t.
Proof. intros H. by rewrite <- (of_as_bytes s), H, of_as_bytes. Qed.

Lemma as_of_bytes b : as_bytes (of_bytes b) = b.
Proof. apply String.list_byte_of_string_of_list_byte. Qed.

Lemma as_bytes_length s : length (as_bytes s) = String.length s.
Proof.
  unfold as_bytes, String.list_byte_of_string. rewrite length_map.
  induction s; cbn; auto.
Qed.

Definition bval (b : byte) : Z := byte.unsigned b.

Definition in_rng (lo hi : Z) (b : byte) : bool := (lo <=? bval b) && (bval b <=? hi).

(** ** UTF-8

    One step of [str]'s decoder: the first character of [b] and what follows
    it, by the table of well-formed sequences (no overlong form, no
    surrogate, nothing above U+10FFFF). *)
Definition utf8_step (b : bytes) : option (Z * bytes) :=
  match b with
  | [] => None
  | b0 :: r0 =>
    if bval b0 <? 0x80 then Some (bval b0, r0)
    else match r0 with
    | [] => None
    | b1 :: r1 =>
      if in_rng 0xC2 0xDF b0 then
        if in_rng 0x80 0xBF b1
        then Some ((bval b0 - 0xC0) * 0x40 + (bval b1 - 0x80), r1) else None
      else match r1 with
      | [] => None
      | b2 :: r2 =>
        let c3 := (bval b0 - 0xE0) * 0x1000 + (bval b1 - 0x80) * 0x40 + (bval b2 - 0x80) in
        if in_rng 0xE0 0xEF b0 then
          let lo := if bval b0 =? 0xE0 then 0xA0 else 0x80 in
          let hi := if bval b0 =? 0xED then 0x9F else 0xBF in
          if in_rng lo hi b1 && in_rng 0x80 0xBF b2 then Some (c3, r2) else None
        else match r2 with
        | [] => None
        | b3 :: r3 =>
          if in_rng 0xF0 0xF4 b0 then
            let lo := if bval b0 =? 0xF0 then 0x90 else 0x80 in
            let hi := if bval b0 =? 0xF4 then 0x8F else 0xBF in
            if in_rng lo hi b1 && in_rng 0x80 0xBF b2 && in_rng 0x80 0xBF b3
            then Some ((bval b0 - 0xF0) * 0x40000 + (bval b1 - 0x80) * 0x1000
                       + (bval b2 - 0x80) * 0x40 + (bval b3 - 0x80), r3)
            else None
          else None
        end
      end
    end
  end.

(** The characters of [b], [None] if it is not UTF-8. One unit of fuel per
    byte is enough: every step consumes at least one. *)
Fixpoint utf8_chars (fuel : nat) (b : bytes) : option (list Z) :=
  match fuel with
  | O => match b with [] => Some [] | _ => None end
  | S fuel' =>
    match b with
    | [] => Some []
    | _ => '(c, r) ← utf8_step b; cs ← utf8_chars fuel' r; Some (c :: cs)
    end
  end.

Definition decode_utf8 (b : bytes) : option (list Z) := utf8_chars (length b) b.

(** [String::from_utf8]. *)
Definition from_utf8 (b : bytes) : option string :=
  match decode_utf8 b with Some _ => Some (of_bytes b) | None => None end.

(** Every Rust [String] is UTF-8. *)
Definition rust_string (s : string) : Prop := is_Some (decode_utf8 (as_bytes s)).

(** [s.chars().collect()]. *)
Definition chars (s : string) : list Z := default [] (decode_utf8 (as_bytes s)).

Lemma from_utf8_of_string s : rust_string s -> from_utf8 (as_bytes s) = Some s.
Proof. intros [cs H]. unfold from_utf8. rewrite H. by rewrite of_as_bytes. Qed.

Lemma from_utf8_some b s : from_utf8 b = Some s -> b = as_bytes s /\ rust_string s.
Proof.
  unfold from_utf8, rust_string. case_match eqn:E; intros; simplify_eq.
  rewrite as_of_bytes. split; [done|]. by rewrite E.
Qed.

Lemma bval_inj x y : bval x = bval y -> x = y.
Proof. unfold bval. apply byte.unsigned_inj. Qed.

Lemma utf8_step_shorter b c r : utf8_step b = Some (c, r) -> (length r < length b)%nat.
Proof.
  unfold utf8_step. repeat case_match; intros; simplify_eq; cbn; lia.
Qed.

(** An ASCII string is its own characters. *)
Definition ascii_only (s : string) : bool :=
  forallb (fun b => bval b <? 0x80) (as_bytes s).

Lemma utf8_chars_ascii b fuel :
  (length b <= fuel)%nat ->
  forallb (fun x => bval x <? 0x80) b = true -> utf8_chars fuel b = Some (map bval b).
Proof.
  revert fuel. induction b as [|x b IH]; intros [|fuel] Hf H; cbn in *; try done; [lia|].
  apply andb_true_iff in H as [Hx Hb]. rewrite Hx. cbn.
  rewrite IH; [done|lia|done].
Qed.

Lemma chars_ascii s : ascii_only s = true -> chars s = map bval (as_bytes s).
Proof.
  intros H. unfold chars, decode_utf8. by rewrite utf8_chars_ascii.
Qed.

Lemma ascii_rust_string s : ascii_only s = true -> rust_string s.
Proof.
  intros H. unfold rust_string, decode_utf8. rewrite utf8_chars_ascii by done. eauto.
Qed.
