(* ===== verification/Crc.v ===== *)
(** * CRC32C

    The repository takes CRC32C from the crate [crc32c]. The formats that
    carry a checksum rely on it being a function of the bytes with [u32]
    values: the class [Crc32c]. [castagnoli] is the bitwise algorithm the
    crate documents, used where a concrete checksum is computed. *)

From S2P Require Import Prelude Bytes.

Class Crc32c := {
  crc32c : bytes -> Z;
  crc32c_u32 : forall b, 0 <= crc32c b < 2 ^ 32;
}.

Fixpoint crc_bits (n : nat) (c : Z) : Z :=
  match n with
  | O => c
  | S n' =>
    crc_bits n' (if Z.odd c then Z.lxor (Z.shiftr c 1) 0x82F63B78 else Z.shiftr c 1)
  end.

Definition castagnoli_value (bs : bytes) : Z :=
  Z.lxor (foldl (fun c b => crc_bits 8 (Z.lxor c (bval b))) 0xFFFFFFFF bs) 0xFFFFFFFF
  mod 2 ^ 32.

#[refine] Definition castagnoli : Crc32c := {| crc32c := castagnoli_value |}.
Proof. intros b. unfold castagnoli_value. by apply Z.mod_pos_bound. Defined.

(** The algorithm's published check value. *)
Example castagnoli_check : castagnoli_value (as_bytes "123456789") = 0xE3069283.
Proof. by vm_compute. Qed.
