(* ===== verification/Chunk.v ===== *)
(** * Chunk mapping of a block volume (crates/block/src/chunk.rs)

    A volume's byte space is divided into fixed-size chunks, each stored as
    one object. [Chunk.byte_range_to_chunks] cuts a byte range at the chunk
    borders; everything that reads or writes a volume goes through it. *)

From S2P Require Import Prelude Bytes.

Module Chunk.

(** crates/block/src/lib.rs *)
Definition DEFAULT_CHUNK_SIZE : Z := 4 * 1024 * 1024.
Definition LBA_SIZE : Z := 512.

Abbreviation ChunkId := Z.

Record ChunkRange := mkChunkRange {
  chunk_id : ChunkId;
  offset_in_chunk : Z;
  length : Z;
}.

Record ChunkMapper := mkChunkMapper { chunk_size : Z }.

Definition is_power_of_two (n : Z) : bool := (0 <? n) && (n =? 2 ^ Z.log2 n).

(** [ChunkMapper::new]: both assertions panic. *)
Definition new {E} (cs : Z) : outcome E ChunkMapper :=
  if 0 <? cs then
    if is_power_of_two cs then Ok (mkChunkMapper cs) else Panic
  else Panic.

Definition lbas_per_chunk (m : ChunkMapper) : Z := chunk_size m / LBA_SIZE.

Definition byte_offset_to_chunk_id (m : ChunkMapper) (byte_offset : Z) : ChunkId :=
  byte_offset / chunk_size m.

Definition lba_to_chunk_id (m : ChunkMapper) (lba : Z) : ChunkId :=
  byte_offset_to_chunk_id m (wmul64 lba LBA_SIZE).

(** The body of the loop over [start_chunk..=end_chunk]. *)
Definition range_of_chunk (m : ChunkMapper) (start_byte end_byte cid : Z) : ChunkRange :=
  let chunk_start := wmul64 cid (chunk_size m) in
  let chunk_end := wadd64 chunk_start (chunk_size m) in
  let range_start := Z.max start_byte chunk_start in
  let range_end := Z.min end_byte chunk_end in
  mkChunkRange cid (wsub64 range_start chunk_start) (wsub64 range_end range_start).

Definition byte_range_to_chunks (m : ChunkMapper) (start_byte len : Z) : list ChunkRange :=
  if len =? 0 then []
  else
    let end_byte := wadd64 start_byte len in
    let start_chunk := start_byte / chunk_size m in
    let end_chunk := wsub64 end_byte 1 / chunk_size m in
    map (range_of_chunk m start_byte end_byte) (rangeZ start_chunk (end_chunk + 1)).

Definition lba_range_to_chunks (m : ChunkMapper) (start_lba lba_count : Z) : list ChunkRange :=
  byte_range_to_chunks m (wmul64 start_lba LBA_SIZE) (wmul64 lba_count LBA_SIZE).

(** [{:08x}]: lowercase hex, no sign, padded with zeros to eight digits. *)
Definition hex_digit (d : Z) : ascii :=
  ascii_of_N (Z.to_N (if d <? 10 then 48 + d else 87 + d)).

Fixpoint hex_rev (fuel : nat) (n : Z) : list ascii :=
  match fuel with
  | O => []
  | S f => if n =? 0 then [] else hex_digit (n mod 16) :: hex_rev f (n / 16)
  end.

(** A [u64] has at most sixteen digits. *)
Definition hex08 (n : Z) : list ascii :=
  let ds := hex_rev 16 n in rev (ds ++ replicate (8 - List.length ds) "0"%char).

Definition chunk_key (volume_id : string) (cid : ChunkId) : string :=
  String.string_of_list_ascii
    (String.list_ascii_of_string "vol_" ++ String.list_ascii_of_string volume_id
     ++ String.list_ascii_of_string "/chunk_" ++ hex08 cid).

Definition block_bucket : string := "__block__".

Definition chunks_for_size (m : ChunkMapper) (size_bytes : Z) : Z :=
  div_ceil size_bytes (chunk_size m).

Definition aligned_size (m : ChunkMapper) (size_bytes : Z) : Z :=
  wmul64 (chunks_for_size m size_bytes) (chunk_size m).

(** ** Cutting a range at the chunk borders *)

(** A mapper as [new] makes it. *)
Definition wf (m : ChunkMapper) : Prop := 0 < chunk_size m < two64.

(** The volume bytes a chunk range stands for. *)
Definition bytes_of (m : ChunkMapper) (r : ChunkRange) : list Z :=
  seqZ (chunk_id r * chunk_size m + offset_in_chunk r) (length r).

(** No arithmetic of the mapping wraps: the range ends a chunk short of the
    end of the 64-bit space. *)
Definition in_space (m : ChunkMapper) (start len : Z) : Prop :=
  0 <= start /\ 0 <= len /\ start + len <= two64 - chunk_size m.

Section pieces.
Context (cs e : Z) (Hcs : 0 < cs).

Definition piece (s c : Z) : list Z :=
  seqZ (Z.max s (c * cs)) (Z.min e ((c + 1) * cs) - Z.max s (c * cs)).

Lemma pieces_tile (n : nat) : forall s c,
  c * cs <= s < (c + 1) * cs -> s < e -> (e - 1) / cs = c + Z.of_nat n ->
  flat_map (piece s) (seqZ c (Z.of_nat n + 1)) = seqZ s (e - s).
Proof.
  induction n as [|n IH]; intros s c Hs He Hd.
  - rewrite seqZ_cons_1 by lia. cbn. rewrite app_nil_r. unfold piece.
    assert (e <= (c + 1) * cs).
    { pose proof (Z.mod_pos_bound (e - 1) cs Hcs). pose proof (Z.div_mod (e - 1) cs). nia. }
    f_equal; lia.
  - rewrite seqZ_cons_1 by lia. cbn [flat_map].
    replace (Z.of_nat (S n) + 1 - 1) with (Z.of_nat n + 1) by lia.
    assert ((c + 1) * cs < e).
    { pose proof (Z.mod_pos_bound (e - 1) cs Hcs). pose proof (Z.div_mod (e - 1) cs). nia. }
    rewrite (flat_map_ext_in _ (piece ((c + 1) * cs))).
    2:{ intros x Hx%elem_of_seqZ. unfold piece.
        replace (Z.max s (x * cs)) with (Z.max ((c + 1) * cs) (x * cs)) by nia. done. }
    rewrite IH by (nia || lia).
    unfold piece. replace (Z.max s (c * cs)) with s by lia.
    replace (Z.min e ((c + 1) * cs)) with ((c + 1) * cs) by lia.
    replace (e - s) with (((c + 1) * cs - s) + (e - (c + 1) * cs)) by lia.
    rewrite seqZ_split by lia. do 2 f_equal; lia.
Qed.
End pieces.

Section mapper.
Context (m : ChunkMapper) (Hm : wf m).

Lemma range_of_chunk_small s e c :
  0 <= s -> s < e -> e <= two64 - chunk_size m ->
  s / chunk_size m <= c <= (e - 1) / chunk_size m ->
  range_of_chunk m s e c =
    mkChunkRange c (Z.max s (c * chunk_size m) - c * chunk_size m)
      (Z.min e ((c + 1) * chunk_size m) - Z.max s (c * chunk_size m)) /\
  Z.max s (c * chunk_size m) < Z.min e ((c + 1) * chunk_size m).
Proof.
  destruct Hm as [Hp Hq]. intros Hs He Hb [H1 H2].
  pose proof (Z.div_mod s (chunk_size m) ltac:(lia)).
  pose proof (Z.mod_pos_bound s (chunk_size m) Hp).
  pose proof (Z.div_mod (e - 1) (chunk_size m) ltac:(lia)).
  pose proof (Z.mod_pos_bound (e - 1) (chunk_size m) Hp).
  assert (0 <= s / chunk_size m) by (apply Z.div_pos; lia).
  assert (c * chunk_size m <= e - 1) by nia.
  assert (s < (c + 1) * chunk_size m) by nia.
  unfold range_of_chunk.
  rewrite (wmul64_small c) by nia.
  rewrite (wadd64_small (c * chunk_size m)) by nia.
  replace (c * chunk_size m + chunk_size m) with ((c + 1) * chunk_size m) by lia.
  unfold wsub64. rewrite !wrap64_small by (unfold is_u64; nia).
  split; [done|nia].
Qed.

Lemma byte_range_unfold s n :
  in_space m s n -> 0 < n ->
  byte_range_to_chunks m s n =
    map (range_of_chunk m s (s + n))
      (seqZ (s / chunk_size m) ((s + n - 1) / chunk_size m - s / chunk_size m + 1)).
Proof.
  destruct Hm. intros (H1 & H2 & H3) Hn. unfold byte_range_to_chunks.
  destruct (Z.eqb_spec n 0); [lia|].
  rewrite (wadd64_small s n) by lia.
  unfold wsub64. rewrite wrap64_small by (unfold is_u64; lia).
  unfold rangeZ. do 2 f_equal. lia.
Qed.

Lemma byte_range_in s n r :
  in_space m s n -> r ∈ byte_range_to_chunks m s n ->
  0 <= chunk_id r /\ 0 <= offset_in_chunk r /\ 0 < length r /\
  offset_in_chunk r + length r <= chunk_size m /\
  s <= chunk_id r * chunk_size m + offset_in_chunk r /\
  chunk_id r * chunk_size m + offset_in_chunk r + length r <= s + n.
Proof.
  destruct Hm as [Hp Hq]. intros Hsp Hr.
  destruct (Z.eq_dec n 0) as [->|Hn].
  { unfold byte_range_to_chunks in Hr. cbn in Hr. set_solver. }
  pose proof Hsp as (H1 & H2 & H3).
  rewrite byte_range_unfold in Hr by (done || lia).
  apply list_elem_of_fmap in Hr as (c & -> & Hc%elem_of_seqZ).
  destruct (range_of_chunk_small s (s + n) c) as [-> Hlt]; [lia..|].
  assert (0 <= s / chunk_size m) by (apply Z.div_pos; lia).
  cbn. nia.
Qed.

End mapper.

Lemma byte_range_flat (m : ChunkMapper) (start len : Z) :
  wf m -> in_space m start len ->
  flat_map (bytes_of m) (byte_range_to_chunks m start len) = seqZ start len.
Proof.
  intros Hm Hsp. destruct (Z.eq_dec len 0) as [->|Hn]; [done|].
  pose proof Hsp as (H1 & H2 & H3). pose proof Hm as [Hp Hq].
  rewrite byte_range_unfold by (done || lia).
  rewrite flat_map_concat_map, map_map, <- flat_map_concat_map.
  rewrite (flat_map_ext_in _ (piece (chunk_size m) (start + len) start)).
  2:{ intros c Hc%elem_of_seqZ.
      destruct (range_of_chunk_small m Hm start (start + len) c) as [-> Hlt]; [lia..|].
      unfold bytes_of, piece. cbn. f_equal. lia. }
  assert (start / chunk_size m <= (start + len - 1) / chunk_size m)
    by (apply Z.div_le_mono; lia).
  pose proof (Z.div_mod start (chunk_size m) ltac:(lia)).
  pose proof (Z.mod_pos_bound start (chunk_size m) Hp).
  rewrite <- (Z2Nat.id ((start + len - 1) / chunk_size m - start / chunk_size m)) by lia.
  rewrite pieces_tile; [f_equal; lia|done|nia|lia|lia].
Qed.

(** Cutting a byte range at the chunk borders loses nothing, repeats
    nothing and keeps the order: the volume bytes of the pieces, one after
    the other, are exactly [start], [start + 1], ..., [start + len - 1]. *)
Theorem byte_range_to_chunks_tiles (m : ChunkMapper) (start len : Z) :
  wf m -> in_space m start len ->
  flat_map (bytes_of m) (byte_range_to_chunks m start len) = seqZ start len.
Proof. apply byte_range_flat. Qed.

Lemma byte_range_to_chunks_tiles_witness :
  flat_map (bytes_of (mkChunkMapper 4)) (byte_range_to_chunks (mkChunkMapper 4) 3 7)
  = seqZ 3 7.
Proof.
  apply byte_range_to_chunks_tiles; unfold wf, in_space, two64; simpl; lia.
Defined.

(** ** Object keys of chunks *)

Lemma hex_digit_inj a b :
  0 <= a < 16 -> 0 <= b < 16 -> hex_digit a = hex_digit b -> a = b.
Proof.
  intros Ha Hb H. apply (f_equal N_of_ascii) in H. unfold hex_digit in H.
  rewrite !N_ascii_embedding in H by (case_if; lia).
  repeat case_if; lia.
Qed.

Lemma hex_digit_not_slash a : 0 <= a < 16 -> hex_digit a <> "/"%char.
Proof.
  intros Ha H. apply (f_equal N_of_ascii) in H. unfold hex_digit in H.
  rewrite N_ascii_embedding in H by (case_if; lia). cbn in H. case_if; lia.
Qed.

Definition hex_undigit (c : ascii) : Z :=
  let v := Z.of_N (N_of_ascii c) in if v <? 58 then v - 48 else v - 87.

Lemma hex_undigit_digit a : 0 <= a < 16 -> hex_undigit (hex_digit a) = a.
Proof.
  intros Ha. unfold hex_undigit, hex_digit.
  rewrite N_ascii_embedding by (case_if; lia). repeat case_if; lia.
Qed.

(** The value of digits, the lowest first. *)
Fixpoint hex_val (l : list ascii) : Z :=
  match l with [] => 0 | c :: l' => hex_undigit c + 16 * hex_val l' end.

Lemma hex_val_zeros k : hex_val (replicate k "0"%char) = 0.
Proof. induction k as [|k IH]; [done|]. cbn [replicate hex_val]. rewrite IH. done. Qed.

Lemma hex_val_rev f n k :
  0 <= n < 16 ^ Z.of_nat f -> hex_val (hex_rev f n ++ replicate k "0"%char) = n.
Proof.
  revert n. induction f as [|f IH]; intros n Hn; cbn [hex_rev].
  - cbn in Hn. rewrite app_nil_l, hex_val_zeros. lia.
  - destruct (Z.eqb_spec n 0) as [->|]; [by rewrite app_nil_l, hex_val_zeros|].
    cbn [app hex_val]. pose proof (Z.mod_pos_bound n 16 ltac:(lia)).
    pose proof (Z.div_mod n 16 ltac:(lia)).
    rewrite hex_undigit_digit by done. rewrite IH; [lia|].
    rewrite Nat2Z.inj_succ, Z.pow_succ_r in Hn by lia.
    split; [apply Z.div_pos; lia|apply Z.div_lt_upper_bound; lia].
Qed.

Lemma hex08_inj a b : is_u64 a -> is_u64 b -> hex08 a = hex08 b -> a = b.
Proof.
  intros Ha Hb H. unfold hex08 in H. apply (f_equal (@rev _)) in H.
  rewrite !rev_involutive in H. apply (f_equal hex_val) in H.
  rewrite !hex_val_rev in H; done.
Qed.

Lemma hex_rev_no_slash f n : "/"%char ∉ hex_rev f n.
Proof.
  revert n. induction f as [|f IH]; intros n; cbn; [set_solver|].
  case_if; [set_solver|]. intros [E|E]%elem_of_cons; [|by apply IH in E].
  by eapply hex_digit_not_slash; [apply (Z.mod_pos_bound n 16)|].
Qed.

Lemma hex08_no_slash n : "/"%char ∉ hex08 n.
Proof.
  unfold hex08. intros H. apply list_elem_of_In, in_rev, list_elem_of_In in H.
  apply elem_of_app in H as [H|H]; [by apply hex_rev_no_slash in H|].
  apply elem_of_replicate in H as [H _]. done.
Qed.

Lemma key_tail_no_slash n : "/"%char ∉ String.list_ascii_of_string "chunk_" ++ hex08 n.
Proof.
  intros [E|E]%elem_of_app; [|by apply hex08_no_slash in E].
  cbn in E. repeat (apply elem_of_cons in E as [E|E]; [done|]). by apply elem_of_nil in E.
Qed.

(** Two chunks share an object key only if they are the same chunk of
    the same volume, whatever the volume ids contain. *)
Theorem chunk_key_inj (v1 v2 : string) (c1 c2 : ChunkId) :
  is_u64 c1 -> is_u64 c2 -> chunk_key v1 c1 = chunk_key v2 c2 -> v1 = v2 /\ c1 = c2.
Proof.
  intros H1 H2 H. unfold chunk_key in H.
  apply (f_equal String.list_ascii_of_string) in H.
  rewrite !String.list_ascii_of_string_of_list_ascii in H.
  apply app_inv_head in H.
  change (String.list_ascii_of_string "/chunk_")
    with ("/"%char :: String.list_ascii_of_string "chunk_") in H.
  cbn [app] in H. apply app_last_sep_inj in H as [Hv Hc].
  - apply app_inv_head in Hc. split; [|by apply hex08_inj].
    rewrite <- (String.string_of_list_ascii_of_string v1), Hv.
    apply String.string_of_list_ascii_of_string.
  - apply key_tail_no_slash.
  - apply key_tail_no_slash.
Qed.

Lemma chunk_key_inj_witness :
  chunk_key "a" 10 = "vol_a/chunk_0000000a" /\ "a" = "a" /\ 10 = 10.
Proof.
  split; [by vm_compute|].
  apply (chunk_key_inj "a" "a" 10 10); [unfold is_u64, two64; lia..|done].
Defined.

(** ** Sizes *)

(** Every piece of a cut range is non-empty and lies inside its chunk and
    inside the range, so the slice [offset .. offset + length] of a chunk
    buffer of [chunk_size] bytes is always in bounds. *)
Theorem byte_range_to_chunks_bounds (m : ChunkMapper) (start len : Z) (r : ChunkRange) :
  wf m -> in_space m start len -> r ∈ byte_range_to_chunks m start len ->
  0 <= offset_in_chunk r /\ 0 < length r /\
  offset_in_chunk r + length r <= chunk_size m /\
  start <= chunk_id r * chunk_size m + offset_in_chunk r /\
  chunk_id r * chunk_size m + offset_in_chunk r + length r <= start + len.
Proof. intros Hm Hs Hr. pose proof (byte_range_in m Hm start len r Hs Hr). tauto. Qed.

Lemma byte_range_to_chunks_bounds_witness :
  0 <= 3 /\ 0 < 1 /\ 3 + 1 <= 4 /\ 3 <= 0 * 4 + 3 /\ 0 * 4 + 3 + 1 <= 3 + 7.
Proof.
  apply (byte_range_to_chunks_bounds (mkChunkMapper 4) 3 7 (mkChunkRange 0 3 1));
    [unfold wf, two64; simpl; lia|unfold in_space, two64; simpl; lia|].
  replace (byte_range_to_chunks (mkChunkMapper 4) 3 7)
    with [mkChunkRange 0 3 1; mkChunkRange 1 0 4; mkChunkRange 2 0 2] by (by vm_compute).
  by apply list_elem_of_here.
Defined.

Lemma new_wf {E} cs m : cs < two64 -> @new E cs = Ok m -> wf m /\ chunk_size m = cs.
Proof. unfold new, wf. intros. repeat case_if; simplify_eq. cbn. lia. Qed.

(** The chunks of a volume hold it, with less than one chunk to spare. *)
Lemma aligned_size_spec m size :
  wf m -> 0 <= size <= two64 - chunk_size m ->
  aligned_size m size = chunks_for_size m size * chunk_size m /\
  size <= aligned_size m size < size + chunk_size m.
Proof.
  intros [Hp Hq] Hs. unfold aligned_size, chunks_for_size.
  pose proof (div_ceil_spec size (chunk_size m) ltac:(lia) Hp).
  unfold wmul64. rewrite wrap64_small by (unfold is_u64; lia). lia.
Qed.

End Chunk.
