(* ===== verification/Volume.v ===== *)
(** * Volumes and snapshots of block storage (crates/block/src/volume.rs)

    [VolumeManager] keeps five maps in step: volumes by id, ids by name,
    snapshots by id, the snapshots of each volume, and the allocated chunks
    of each volume. Its operations are state-passing functions; a random
    UUID and the clock are arguments ([id], [now]), since both come from
    outside the repository. The maps are behind one lock each; the model
    takes an operation as one step. *)

From S2P Require Import Prelude Bytes Chunk.

(** crates/block/src/error.rs. An error's text is kept as its cause. *)
Inductive IoError : Type :=
| UnexpectedEof
| NotFound
| OutOfSpace
| OtherIo.

Inductive JournalCause : Type :=
| JIo (e : IoError)
| JInvalidMagic
| JUnsupportedVersion (v : Z)
| JInvalidVolumeId
| JInvalidEntryType (t : Z)
| JUnknownEntryType (sequence t : Z)
| JDamaged (bad found at_ : Z)
| JNotWhole (at_ : Z)
| JTooLarge
| JClosed
| JFailed
| JFailedEarlier.

Inductive BlockError : Type :=
| VolumeNotFound (s : string)
| VolumeExists (s : string)
| VolumeAttached (s : string)
| VolumeHasSnapshots (s : string)
| SnapshotNotFound (s : string)
| InvalidSize
| CannotShrink (from to : Z)
| Io (e : IoError)
| OutOfBounds (offset length size : Z)
| Cache
| Journal (c : JournalCause)
| Backend
| Grpc
| Internal.

Module Volume.
Import Chunk.

Inductive VolumeState : Type :=
| Creating
| Available
| Attached
| Error
| Deleting.

#[global] Instance VolumeState_eq_dec : EqDecision VolumeState.
Proof. solve_decision. Defined.

Definition VolumeState_from_i32 (value : Z) : VolumeState :=
  if value =? 1 then Creating
  else if value =? 2 then Available
  else if value =? 3 then Attached
  else if value =? 4 then Error
  else if value =? 5 then Deleting
  else Available.

Definition VolumeState_to_i32 (state : VolumeState) : Z :=
  match state with
  | Creating => 1
  | Available => 2
  | Attached => 3
  | Error => 4
  | Deleting => 5
  end.

Record Volume := mkVolume {
  volume_id : string;
  name : string;
  size_bytes : Z;
  used_bytes : Z;
  pool : string;
  state : VolumeState;
  created_at : Z;
  updated_at : Z;
  parent_snapshot_id : option string;
  vol_chunk_size : Z;
  metadata : gmap string string;
}.

(** [Volume::new], the id and the clock's reading given. *)
Definition Volume_new (id : string) (now : Z) (nm : string) (size : Z) (pl : string) : Volume :=
  mkVolume id nm size 0 pl Creating now now None DEFAULT_CHUNK_SIZE ∅.

Definition chunk_count (v : Volume) : Z := div_ceil (size_bytes v) (vol_chunk_size v).
Definition can_modify (v : Volume) : bool := bool_decide (state v = Available).
Definition can_attach (v : Volume) : bool := bool_decide (state v = Available).
Definition can_delete (v : Volume) : bool := bool_decide (state v = Available).

Definition set_state (st : VolumeState) (now : Z) (v : Volume) : Volume :=
  mkVolume (volume_id v) (name v) (size_bytes v) (used_bytes v) (pool v) st
    (created_at v) now (parent_snapshot_id v) (vol_chunk_size v) (metadata v).

Definition set_size (size now : Z) (v : Volume) : Volume :=
  mkVolume (volume_id v) (name v) size (used_bytes v) (pool v) (state v)
    (created_at v) now (parent_snapshot_id v) (vol_chunk_size v) (metadata v).

Record ChunkRef := mkChunkRef { object_key : string; etag : string; size : Z }.

Record Snapshot := mkSnapshot {
  snapshot_id : string;
  snap_volume_id : string;
  snap_name : string;
  snap_size_bytes : Z;
  unique_bytes : Z;
  snap_created_at : Z;
  snap_metadata : gmap string string;
  chunk_refs : gmap ChunkId ChunkRef;
}.

Record VolumeManager := mkVM {
  volumes : gmap string Volume;
  volume_names : gmap string string;
  snapshots : gmap string Snapshot;
  volume_snapshots : gmap string (gset string);
  volume_chunks : gmap string (gmap ChunkId ChunkRef);
  chunk_mapper : ChunkMapper;
}.

(** ** Operations *)

Definition VolumeManager_new : VolumeManager :=
  mkVM ∅ ∅ ∅ ∅ ∅ (mkChunkMapper DEFAULT_CHUNK_SIZE).

Definition with_chunk_size (cs : Z) : outcome BlockError VolumeManager :=
  m ← Chunk.new cs; Ok (mkVM ∅ ∅ ∅ ∅ ∅ m).

Definition create_volume (id : string) (now : Z) (nm : string) (size : Z) (pl : string)
    (vm : VolumeManager) : outcome BlockError (VolumeManager * Volume) :=
  if size =? 0 then Err InvalidSize
  else if bool_decide (is_Some (volume_names vm !! nm)) then Err (VolumeExists nm)
  else
    let v0 := Volume_new id now nm size pl in
    let volume :=
      mkVolume (volume_id v0) (name v0) (size_bytes v0) (used_bytes v0) (pool v0) Available
        (created_at v0) (updated_at v0) (parent_snapshot_id v0)
        (chunk_size (chunk_mapper vm)) (metadata v0) in
    Ok (mkVM (<[id := volume]> (volumes vm))
             (<[nm := id]> (volume_names vm))
             (snapshots vm)
             (<[id := ∅]> (volume_snapshots vm))
             (<[id := ∅]> (volume_chunks vm))
             (chunk_mapper vm), volume).

Definition restore_volume (volume : Volume) (vm : VolumeManager)
    : outcome BlockError VolumeManager :=
  if bool_decide (is_Some (volume_names vm !! name volume)) then Err (VolumeExists (name volume))
  else
    let id := volume_id volume in
    Ok (mkVM (<[id := volume]> (volumes vm))
             (<[name volume := id]> (volume_names vm))
             (snapshots vm)
             (<[id := ∅]> (volume_snapshots vm))
             (<[id := ∅]> (volume_chunks vm))
             (chunk_mapper vm)).

Definition get_volume (id : string) (vm : VolumeManager) : outcome BlockError Volume :=
  ok_or (volumes vm !! id) (VolumeNotFound id).

Definition get_volume_by_name (nm : string) (vm : VolumeManager) : outcome BlockError Volume :=
  id ← ok_or (volume_names vm !! nm) (VolumeNotFound nm);
  get_volume id vm.

(** The order of [HashMap::values] is unspecified; the model's is the map's. *)
Definition list_volumes (vm : VolumeManager) : list Volume := (map_to_list (volumes vm)).*2.

Definition delete_volume (id : string) (force : bool) (vm : VolumeManager)
    : outcome BlockError VolumeManager :=
  volume ← get_volume id vm;
  if bool_decide (state volume = Attached) && negb force then Err (VolumeAttached id)
  else
    let has_snapshots :=
      match volume_snapshots vm !! id with
      | Some s => negb (bool_decide (s = ∅))
      | None => false
      end in
    if has_snapshots && negb force then Err (VolumeHasSnapshots id)
    else
      Ok (mkVM (delete id (volumes vm))
               (delete (name volume) (volume_names vm))
               (snapshots vm)
               (delete id (volume_snapshots vm))
               (delete id (volume_chunks vm))
               (chunk_mapper vm)).

Definition resize_volume (now : Z) (id : string) (new_size : Z) (vm : VolumeManager)
    : outcome BlockError (VolumeManager * Volume) :=
  volume ← ok_or (volumes vm !! id) (VolumeNotFound id);
  if negb (can_modify volume) then Err (VolumeAttached id)
  else if new_size <? size_bytes volume then Err (CannotShrink (size_bytes volume) new_size)
  else
    let v' := set_size new_size now volume in
    Ok (mkVM (<[id := v']> (volumes vm)) (volume_names vm) (snapshots vm)
             (volume_snapshots vm) (volume_chunks vm) (chunk_mapper vm), v').

Definition set_volume_state (now : Z) (id : string) (st : VolumeState) (vm : VolumeManager)
    : outcome BlockError VolumeManager :=
  volume ← ok_or (volumes vm !! id) (VolumeNotFound id);
  Ok (mkVM (<[id := set_state st now volume]> (volumes vm)) (volume_names vm)
           (snapshots vm) (volume_snapshots vm) (volume_chunks vm) (chunk_mapper vm)).

Definition get_chunk (id : string) (cid : ChunkId) (vm : VolumeManager) : option ChunkRef :=
  chunks ← volume_chunks vm !! id; chunks !! cid.

Definition set_chunk (id : string) (cid : ChunkId) (ref : ChunkRef) (vm : VolumeManager)
    : VolumeManager :=
  match volume_chunks vm !! id with
  | Some chunks =>
      mkVM (volumes vm) (volume_names vm) (snapshots vm) (volume_snapshots vm)
           (<[id := <[cid := ref]> chunks]> (volume_chunks vm)) (chunk_mapper vm)
  | None => vm
  end.

Definition is_chunk_allocated (id : string) (cid : ChunkId) (vm : VolumeManager) : bool :=
  match volume_chunks vm !! id with
  | Some chunks => bool_decide (is_Some (chunks !! cid))
  | None => false
  end.

Definition get_allocated_chunks (id : string) (vm : VolumeManager) : list ChunkId :=
  match volume_chunks vm !! id with
  | Some chunks => (map_to_list chunks).*1
  | None => []
  end.

Definition create_snapshot (sid : string) (now : Z) (id : string) (nm : string)
    (vm : VolumeManager) : outcome BlockError (VolumeManager * Snapshot) :=
  volume ← get_volume id vm;
  let refs := default ∅ (volume_chunks vm !! id) in
  let snapshot := mkSnapshot sid id nm (size_bytes volume) 0 now ∅ refs in
  let snaps :=
    match volume_snapshots vm !! id with
    | Some s => <[id := s ∪ {[sid]}]> (volume_snapshots vm)
    | None => volume_snapshots vm
    end in
  Ok (mkVM (volumes vm) (volume_names vm) (<[sid := snapshot]> (snapshots vm)) snaps
           (volume_chunks vm) (chunk_mapper vm), snapshot).

Definition get_snapshot (sid : string) (vm : VolumeManager) : outcome BlockError Snapshot :=
  ok_or (snapshots vm !! sid) (SnapshotNotFound sid).

Definition list_snapshots (id : string) (vm : VolumeManager) : list Snapshot :=
  let ids := default ∅ (volume_snapshots vm !! id) in
  omap (fun i => snapshots vm !! i) (elements ids).

Definition delete_snapshot (sid : string) (vm : VolumeManager)
    : outcome BlockError VolumeManager :=
  snapshot ← get_snapshot sid vm;
  let id := snap_volume_id snapshot in
  let snaps :=
    match volume_snapshots vm !! id with
    | Some s => <[id := s ∖ {[sid]}]> (volume_snapshots vm)
    | None => volume_snapshots vm
    end in
  Ok (mkVM (volumes vm) (volume_names vm) (delete sid (snapshots vm)) snaps
           (volume_chunks vm) (chunk_mapper vm)).

Definition clone_from_snapshot (id : string) (now : Z) (sid : string) (nm : string)
    (pl : option string) (vm : VolumeManager) : outcome BlockError (VolumeManager * Volume) :=
  snapshot ← get_snapshot sid vm;
  if bool_decide (is_Some (volume_names vm !! nm)) then Err (VolumeExists nm)
  else
    let volume :=
      mkVolume id nm (snap_size_bytes snapshot) (unique_bytes snapshot)
        (default "default" pl) Available now now (Some sid)
        (chunk_size (chunk_mapper vm)) ∅ in
    Ok (mkVM (<[id := volume]> (volumes vm))
             (<[nm := id]> (volume_names vm))
             (snapshots vm)
             (<[id := ∅]> (volume_snapshots vm))
             (<[id := chunk_refs snapshot]> (volume_chunks vm))
             (chunk_mapper vm), volume).

(** ** The invariant

    The five maps describe one set of volumes: every volume is stored under
    its own id and found by its name, every name leads to a volume of that
    name, every volume has its chunk map and its snapshot set, and a
    volume's snapshot set is exactly the stored snapshots taken of it. *)
Record wf (vm : VolumeManager) : Prop := mkwf {
  wf_id : forall id v, volumes vm !! id = Some v -> volume_id v = id;
  wf_name : forall id v, volumes vm !! id = Some v -> volume_names vm !! name v = Some id;
  wf_named : forall nm id, volume_names vm !! nm = Some id ->
    exists v, volumes vm !! id = Some v /\ name v = nm;
  wf_chunks : dom (volume_chunks vm) = dom (volumes vm);
  wf_snaps : dom (volume_snapshots vm) = dom (volumes vm);
  wf_snap_id : forall sid s, snapshots vm !! sid = Some s -> snapshot_id s = sid;
  wf_snap_in : forall id ss sid, volume_snapshots vm !! id = Some ss -> sid ∈ ss ->
    exists s, snapshots vm !! sid = Some s /\ snap_volume_id s = id;
  wf_snap_of : forall sid s ss, snapshots vm !! sid = Some s ->
    volume_snapshots vm !! snap_volume_id s = Some ss -> sid ∈ ss;
}.

(** What a random UUID is relied on for: it names nothing yet. *)
Definition fresh_volume (id : string) (vm : VolumeManager) : Prop :=
  volumes vm !! id = None /\
  forall sid s, snapshots vm !! sid = Some s -> snap_volume_id s <> id.

Definition fresh_snapshot (sid : string) (vm : VolumeManager) : Prop :=
  snapshots vm !! sid = None.

(** A volume added under a fresh id and a free name, with chunks [cs]. *)
Definition add_volume (v : Volume) (cs : gmap ChunkId ChunkRef) (vm : VolumeManager)
    : VolumeManager :=
  mkVM (<[volume_id v := v]> (volumes vm)) (<[name v := volume_id v]> (volume_names vm))
       (snapshots vm) (<[volume_id v := ∅]> (volume_snapshots vm))
       (<[volume_id v := cs]> (volume_chunks vm)) (chunk_mapper vm).

Lemma wf_add v cs vm :
  wf vm -> fresh_volume (volume_id v) vm -> volume_names vm !! name v = None ->
  wf (add_volume v cs vm).
Proof.
  intros W [F1 F2] Hn. destruct W. split; cbn.
  - intros id w. rewrite lookup_insert. case_decide; naive_solver.
  - intros id w. rewrite lookup_insert. case_decide as E; intros; simplify_eq.
    + by rewrite lookup_insert_eq.
    + rewrite lookup_insert_ne; [auto|]. intros E'.
      apply wf_name0 in H. congruence.
  - intros nm id. rewrite lookup_insert. case_decide as E; intros; simplify_eq.
    + exists v. by rewrite lookup_insert_eq.
    + apply wf_named0 in H as (w & Hw & <-). exists w. split; [|done].
      rewrite lookup_insert_ne; [done|]. congruence.
  - by rewrite !dom_insert_L, wf_chunks0.
  - by rewrite !dom_insert_L, wf_snaps0.
  - eauto.
  - intros id ss sid. rewrite lookup_insert. case_decide; intros; simplify_eq; [set_solver|].
    eauto.
  - intros sid s ss Hs. rewrite lookup_insert_ne by (intros E; by eapply F2). eauto.
Qed.

(** Replacing a volume by one of the same id and name. *)
Lemma wf_update id v w vm :
  wf vm -> volumes vm !! id = Some v -> volume_id w = volume_id v -> name w = name v ->
  wf (mkVM (<[id := w]> (volumes vm)) (volume_names vm) (snapshots vm)
        (volume_snapshots vm) (volume_chunks vm) (chunk_mapper vm)).
Proof.
  intros W Hv Hi Hn. destruct W.
  assert (dom (<[id := w]> (volumes vm)) = dom (volumes vm)) as Hd.
  { rewrite dom_insert_L. apply elem_of_dom_2 in Hv. set_solver. }
  split; cbn; rewrite ?Hd; eauto.
  - intros i u. rewrite lookup_insert. case_decide; intros; simplify_eq; [|eauto].
    rewrite Hi. eauto.
  - intros i u. rewrite lookup_insert. case_decide; intros; simplify_eq; [|eauto].
    rewrite Hn. eauto.
  - intros nm i H. apply wf_named0 in H as (u & Hu & <-).
    destruct (decide (i = id)) as [->|].
    + rewrite lookup_insert_eq. simplify_eq. eauto.
    + rewrite lookup_insert_ne by done. eauto.
Qed.

Lemma wf_delete_volume id force vm vm' :
  wf vm -> delete_volume id force vm = Ok vm' -> wf vm'.
Proof.
  intros W H. unfold delete_volume, get_volume in H. inv_ok.
  repeat case_if; inv_ok; try done. rename x into v. clear Heqb Heqb0. destruct W.
  split; cbn.
  - intros i u [??]%lookup_delete_Some. eauto.
  - intros i u [Hi Hu]%lookup_delete_Some. rewrite lookup_delete_ne; [eauto|].
    intros E. apply wf_name0 in Hu, H. congruence.
  - intros nm i [Hi Hu]%lookup_delete_Some. apply wf_named0 in Hu as (u & Hu & <-).
    exists u. split; [|done]. rewrite lookup_delete_ne; [done|]. intros ->. congruence.
  - by rewrite !dom_delete_L, wf_chunks0.
  - by rewrite !dom_delete_L, wf_snaps0.
  - eauto.
  - intros i ss sid [??]%lookup_delete_Some. eauto.
  - intros sid s ss Hs [??]%lookup_delete_Some. eauto.
Qed.

Lemma wf_set_chunk id cid ref vm : wf vm -> wf (set_chunk id cid ref vm).
Proof.
  intros W. unfold set_chunk. case_match eqn:E; [|done]. destruct W.
  split; cbn; eauto. rewrite dom_insert_L. apply elem_of_dom_2 in E. set_solver.
Qed.

Lemma wf_create_snapshot sid now id nm vm vm' s :
  wf vm -> fresh_snapshot sid vm -> create_snapshot sid now id nm vm = Ok (vm', s) -> wf vm'.
Proof.
  intros W F H. unfold create_snapshot, get_volume in H. inv_ok.
  destruct W. unfold fresh_snapshot in F.
  assert (exists ss, volume_snapshots vm !! id = Some ss) as [ss Hss].
  { apply elem_of_dom. rewrite wf_snaps0. by eapply elem_of_dom_2. }
  rewrite Hss in *. simplify_eq. split; cbn; eauto.
  - rewrite dom_insert_L. apply elem_of_dom_2 in Hss. set_solver.
  - intros i t. rewrite lookup_insert. case_decide; intros; simplify_eq; eauto.
  - intros i ts t. rewrite lookup_insert. case_decide; intros; simplify_eq.
    + destruct (decide (t = sid)) as [->|].
      * rewrite lookup_insert_eq. eauto.
      * rewrite lookup_insert_ne by done. eapply wf_snap_in0; [done|set_solver].
    + destruct (wf_snap_in0 i ts t) as (u & Hu & <-); [done..|].
      rewrite lookup_insert_ne; [eauto|congruence].
  - intros i t ts. rewrite lookup_insert. case_decide; intros; simplify_eq; cbn in *.
    + rewrite lookup_insert_eq in *. simplify_eq. set_solver.
    + rewrite lookup_insert in *. case_decide; simplify_eq; [|eauto].
      apply elem_of_union_l. eauto.
Qed.

Lemma wf_delete_snapshot sid vm vm' :
  wf vm -> delete_snapshot sid vm = Ok vm' -> wf vm'.
Proof.
  intros W H. unfold delete_snapshot, get_snapshot in H. inv_ok. rename x into s.
  destruct W. split; cbn; eauto.
  - case_match eqn:E; [|done]. rewrite dom_insert_L. apply elem_of_dom_2 in E. set_solver.
  - intros i t [??]%lookup_delete_Some. eauto.
  - intros i ts t Hts Ht.
    assert (t <> sid /\ exists ss, volume_snapshots vm !! i = Some ss /\ t ∈ ss)
      as (Hne & ss & Hss & Hin).
    { case_match eqn:E; rewrite ?lookup_insert in Hts.
      - case_decide; simplify_eq; [set_solver|]. split; [|eauto]. intros ->.
        destruct (wf_snap_in0 i ts sid) as (u & Hu & <-); [done..|]. congruence.
      - split; [|eauto]. intros ->.
        destruct (wf_snap_in0 i ts sid) as (u & Hu & <-); [done..|]. congruence. }
    rewrite lookup_delete_ne by done. eauto.
  - intros i t ts [Hi Ht]%lookup_delete_Some. case_match eqn:E; [|eauto].
    rewrite lookup_insert. case_decide; [|eauto]. intros; simplify_eq.
    apply elem_of_difference. split; [|set_solver].
    eapply wf_snap_of0; [done|congruence].
Qed.

(** ** Sequences of operations *)

Inductive op : Type :=
| OCreate (id : string) (now : Z) (nm : string) (size : Z) (pl : string)
| ORestore (v : Volume)
| ODelete (id : string) (force : bool)
| OResize (now : Z) (id : string) (size : Z)
| OSetState (now : Z) (id : string) (st : VolumeState)
| OSetChunk (id : string) (cid : ChunkId) (ref : ChunkRef)
| OSnapshot (sid : string) (now : Z) (id nm : string)
| ODeleteSnapshot (sid : string)
| OClone (id : string) (now : Z) (sid nm : string) (pl : option string).

(** The state an operation leaves: a failed one leaves it as it was. *)
Definition after {A} (vm : VolumeManager) (r : outcome BlockError (VolumeManager * A)) :=
  match r with Ok (vm', _) => vm' | _ => vm end.
Definition after1 (vm : VolumeManager) (r : outcome BlockError VolumeManager) :=
  match r with Ok vm' => vm' | _ => vm end.

Definition apply_op (o : op) (vm : VolumeManager) : VolumeManager :=
  match o with
  | OCreate id now nm size pl => after vm (create_volume id now nm size pl vm)
  | ORestore v => after1 vm (restore_volume v vm)
  | ODelete id force => after1 vm (delete_volume id force vm)
  | OResize now id size => after vm (resize_volume now id size vm)
  | OSetState now id st => after1 vm (set_volume_state now id st vm)
  | OSetChunk id cid ref => set_chunk id cid ref vm
  | OSnapshot sid now id nm => after vm (create_snapshot sid now id nm vm)
  | ODeleteSnapshot sid => after1 vm (delete_snapshot sid vm)
  | OClone id now sid nm pl => after vm (clone_from_snapshot id now sid nm pl vm)
  end.

(** The ids an operation brings in are new. *)
Definition op_fresh (o : op) (vm : VolumeManager) : Prop :=
  match o with
  | OCreate id _ _ _ _ | OClone id _ _ _ _ => fresh_volume id vm
  | ORestore v => fresh_volume (volume_id v) vm
  | OSnapshot sid _ _ _ => fresh_snapshot sid vm
  | _ => True
  end.

Inductive run : VolumeManager -> list op -> VolumeManager -> Prop :=
| run_nil vm : run vm [] vm
| run_cons vm o os vm' :
    op_fresh o vm -> run (apply_op o vm) os vm' -> run vm (o :: os) vm'.

(** A property every operation keeps holds at the end of a sequence. *)
Lemma run_ind_inv (P : VolumeManager -> Prop) (Q : op -> Prop) vm os vm' :
  (forall o x, Q o -> op_fresh o x -> P x -> P (apply_op o x)) ->
  Forall Q os -> run vm os vm' -> P vm -> P vm'.
Proof.
  intros Hstep HQ H. revert HQ. induction H as [|vm o os vm' Hf Hr IH]; [done|].
  intros [??]%Forall_cons ?. auto.
Qed.

(** The operations that add a volume do it as [add_volume]. *)
Lemma create_volume_ok id now nm size pl vm vm' v :
  create_volume id now nm size pl vm = Ok (vm', v) ->
  size <> 0 /\ volume_names vm !! nm = None /\ vm' = add_volume v ∅ vm /\
  volume_id v = id /\ name v = nm /\ size_bytes v = size /\ state v = Available /\
  vol_chunk_size v = chunk_size (chunk_mapper vm).
Proof.
  unfold create_volume. intros. repeat case_if; inv_ok; try done.
  simplify_eq. apply bool_decide_eq_false, eq_None_not_Some in Heqb0. done.
Qed.

Lemma restore_volume_ok v vm vm' :
  restore_volume v vm = Ok vm' -> volume_names vm !! name v = None /\ vm' = add_volume v ∅ vm.
Proof.
  unfold restore_volume. intros. case_if; inv_ok; try done.
  apply bool_decide_eq_false, eq_None_not_Some in Heqb. done.
Qed.

Lemma clone_ok id now sid nm pl vm vm' v :
  clone_from_snapshot id now sid nm pl vm = Ok (vm', v) ->
  exists s, snapshots vm !! sid = Some s /\ volume_names vm !! nm = None /\
    vm' = add_volume v (chunk_refs s) vm /\ volume_id v = id /\ name v = nm /\
    size_bytes v = snap_size_bytes s /\ parent_snapshot_id v = Some sid.
Proof.
  unfold clone_from_snapshot, get_snapshot. intros. inv_ok. case_if; inv_ok; try done.
  simplify_eq. apply bool_decide_eq_false, eq_None_not_Some in Heqb. eauto 10.
Qed.

Lemma wf_apply_op o vm : op_fresh o vm -> wf vm -> wf (apply_op o vm).
Proof.
  intros F W. destruct o; cbn in *.
  - destruct create_volume as [[? v]|?|] eqn:E; cbn; try done.
    apply create_volume_ok in E as (_ & Hn & -> & <- & <- & _). by apply wf_add.
  - destruct restore_volume as [?|?|] eqn:E; cbn; try done.
    apply restore_volume_ok in E as (Hn & ->). by apply wf_add.
  - destruct delete_volume as [?|?|] eqn:E; cbn; try done. by eapply wf_delete_volume.
  - unfold resize_volume. destruct (volumes vm !! id) eqn:E; cbn; [|done].
    repeat case_if; cbn; try done. by eapply wf_update.
  - unfold set_volume_state. destruct (volumes vm !! id) eqn:E; cbn; [|done].
    by eapply wf_update.
  - by apply wf_set_chunk.
  - destruct create_snapshot as [[? s]|?|] eqn:E; cbn; try done.
    by eapply wf_create_snapshot.
  - destruct delete_snapshot as [?|?|] eqn:E; cbn; try done. by eapply wf_delete_snapshot.
  - destruct clone_from_snapshot as [[? v]|?|] eqn:E; cbn; try done.
    apply clone_ok in E as (s & Hs & Hn & -> & <- & <- & _). by apply wf_add.
Qed.

Lemma wf_empty m : wf (mkVM ∅ ∅ ∅ ∅ ∅ m).
Proof. by split. Qed.

(** Whatever operations run on a new manager, in whatever order and
    whichever of them fail, its five maps stay consistent: names and ids
    agree both ways, and the chunk maps and snapshot sets are exactly those
    of the existing volumes. *)
Theorem run_wf (m : ChunkMapper) (os : list op) (vm : VolumeManager) :
  run (mkVM ∅ ∅ ∅ ∅ ∅ m) os vm -> wf vm.
Proof.
  intros H. apply (run_ind_inv wf (fun _ => True) _ os vm) in H;
    eauto using wf_empty, wf_apply_op. by apply Forall_true.
Qed.

Lemma run_wf_witness :
  wf (apply_op (ODelete "u1" false)
       (apply_op (OCreate "u1" 7 "disk" 100 "p") (mkVM ∅ ∅ ∅ ∅ ∅ (mkChunkMapper 4)))).
Proof.
  apply (run_wf (mkChunkMapper 4) [OCreate "u1" 7 "disk" 100 "p"; ODelete "u1" false]).
  repeat constructor. intros sid s H. cbn in H. done.
Defined.

(** ** Creating and finding *)

(** A volume just created is found by its name with the size asked for,
    available and in the manager's chunk size; every other name resolves as
    before. *)
Theorem create_volume_found (id nm pl : string) (now size : Z) (vm vm' : VolumeManager)
    (v : Volume) :
  wf vm -> fresh_volume id vm -> create_volume id now nm size pl vm = Ok (vm', v) ->
  get_volume_by_name nm vm' = Ok v /\ size_bytes v = size /\ size <> 0 /\
  state v = Available /\ vol_chunk_size v = chunk_size (chunk_mapper vm) /\
  (forall nm', nm' <> nm -> get_volume_by_name nm' vm' = get_volume_by_name nm' vm).
Proof.
  intros W [F _] H. apply create_volume_ok in H as (Hs & Hn & -> & Hi & Hnm & ? & ? & ?).
  unfold get_volume_by_name, get_volume. cbn. rewrite Hi, Hnm.
  split; [by rewrite !lookup_insert_eq; cbn; rewrite lookup_insert_eq|].
  do 4 (split; [done|]). intros nm' Hne. rewrite lookup_insert_ne by done.
  destruct (volume_names vm !! nm') as [i|] eqn:E; [|done]. cbn.
  apply (wf_named vm W) in E as (w & Hw & _).
  rewrite lookup_insert_ne; [done|congruence].
Qed.

Lemma create_volume_found_witness :
  let vm := VolumeManager_new in
  let v := mkVolume "u1" "disk" 100 0 "p" Available 7 7 None DEFAULT_CHUNK_SIZE ∅ in
  get_volume_by_name "disk" (add_volume v ∅ vm) = Ok v /\ size_bytes v = 100 /\ 100 <> 0 /\
  state v = Available /\ vol_chunk_size v = chunk_size (chunk_mapper vm) /\
  (forall nm', nm' <> "disk" ->
     get_volume_by_name nm' (add_volume v ∅ vm) = get_volume_by_name nm' vm).
Proof.
  apply (create_volume_found "u1" "disk" "p" 7 100); [apply wf_empty| |by vm_compute].
  by split.
Defined.

(** ** Deleting *)

(** A delete that is not forced succeeds exactly on an existing volume
    that is neither attached nor has a snapshot; it then removes the volume
    from every map, frees its name, and leaves no snapshot of it behind. *)
Theorem delete_volume_unforced (id : string) (vm vm' : VolumeManager) :
  wf vm ->
  (delete_volume id false vm = Ok vm' ->
     (exists v, volumes vm !! id = Some v /\ state v <> Attached /\
        volume_names vm' !! name v = None) /\
     volumes vm' !! id = None /\ volume_chunks vm' !! id = None /\
     volume_snapshots vm' !! id = None /\
     (forall sid s, snapshots vm' !! sid = Some s -> snap_volume_id s <> id)) /\
  (is_ok (delete_volume id false vm) = true <->
     exists v, volumes vm !! id = Some v /\ state v <> Attached /\
       volume_snapshots vm !! id = Some ∅).
Proof.
  intros W. unfold delete_volume, get_volume.
  destruct (volumes vm !! id) as [v|] eqn:Hv; cbn; [|naive_solver].
  assert (exists ss, volume_snapshots vm !! id = Some ss) as [ss Hss].
  { apply elem_of_dom. rewrite (wf_snaps vm W). by eapply elem_of_dom_2. }
  rewrite Hss. rewrite !andb_true_r.
  destruct (bool_decide (state v = Attached)) eqn:Ea;
    [apply bool_decide_eq_true in Ea; naive_solver|apply bool_decide_eq_false in Ea].
  destruct (bool_decide (ss = ∅)) eqn:Es; cbn;
    [apply bool_decide_eq_true in Es as ->|apply bool_decide_eq_false in Es; naive_solver].
  split; [|naive_solver].
  intros H. simplify_eq. cbn. rewrite !lookup_delete_eq. split_and!; try done.
  - exists v. by rewrite lookup_delete_eq.
  - intros sid s Hs <-. pose proof (wf_snap_of vm W sid s ∅ Hs Hss). set_solver.
Qed.

Lemma delete_volume_unforced_witness :
  let vm := apply_op (OCreate "u1" 7 "disk" 100 "p") VolumeManager_new in
  let vm' := apply_op (ODelete "u1" false) vm in
  (delete_volume "u1" false vm = Ok vm' ->
     (exists v, volumes vm !! "u1" = Some v /\ state v <> Attached /\
        volume_names vm' !! name v = None) /\
     volumes vm' !! "u1" = None /\ volume_chunks vm' !! "u1" = None /\
     volume_snapshots vm' !! "u1" = None /\
     (forall sid s, snapshots vm' !! sid = Some s -> snap_volume_id s <> "u1")) /\
  (is_ok (delete_volume "u1" false vm) = true <->
     exists v, volumes vm !! "u1" = Some v /\ state v <> Attached /\
       volume_snapshots vm !! "u1" = Some ∅).
Proof.
  apply delete_volume_unforced.
  apply wf_apply_op; [by split|apply wf_empty].
Defined.

(** ** Snapshots and clones *)

Lemma snapshots_apply_op o vm sid s :
  op_fresh o vm -> o <> ODeleteSnapshot sid ->
  snapshots vm !! sid = Some s -> snapshots (apply_op o vm) !! sid = Some s.
Proof.
  intros F Hne Hs. destruct o; cbn in *.
  - unfold create_volume. repeat case_if; done.
  - unfold restore_volume. repeat case_if; done.
  - unfold delete_volume. destruct get_volume; cbn; try done. repeat case_if; done.
  - unfold resize_volume. destruct (volumes vm !! id); cbn; [|done]. repeat case_if; done.
  - unfold set_volume_state. by destruct (volumes vm !! id).
  - unfold set_chunk. by case_match.
  - unfold create_snapshot. destruct get_volume; cbn; try done.
    rewrite lookup_insert_ne; [done|]. unfold fresh_snapshot in F. congruence.
  - unfold delete_snapshot. destruct get_snapshot; cbn; try done.
    rewrite lookup_delete_ne; [done|]. congruence.
  - unfold clone_from_snapshot. destruct get_snapshot; cbn; try done. repeat case_if; done.
Qed.

(** A snapshot never changes: after any operations that do not delete
    it (writes to its volume, resizes, other snapshots and clones, a forced
    delete of the volume itself), it is read back as it was taken. *)
Theorem snapshot_immutable (sid : string) (s : Snapshot) (os : list op)
    (vm vm' : VolumeManager) :
  get_snapshot sid vm = Ok s -> ODeleteSnapshot sid ∉ os -> run vm os vm' ->
  get_snapshot sid vm' = Ok s.
Proof.
  unfold get_snapshot. intros Hs%ok_or_ok Hn H. apply ok_or_ok.
  apply (run_ind_inv (fun x => snapshots x !! sid = Some s)
           (fun o => o <> ODeleteSnapshot sid) vm os vm') in H; auto.
  - intros. by apply snapshots_apply_op.
  - apply Forall_forall. intros o Ho ->. done.
Qed.

Definition ex_ref (k : string) : ChunkRef := mkChunkRef k "e" 4.
Definition ex_base : VolumeManager :=
  apply_op (OSnapshot "s1" 9 "u1" "snap")
    (apply_op (OSetChunk "u1" 0 (ex_ref "k0"))
      (apply_op (OCreate "u1" 7 "disk" 100 "p") VolumeManager_new)).
Definition ex_snap : Snapshot :=
  mkSnapshot "s1" "u1" "snap" 100 0 9 ∅ {[ 0 := ex_ref "k0" ]}.

Lemma snapshot_immutable_witness :
  get_snapshot "s1"
    (apply_op (ODelete "u1" true) (apply_op (OSetChunk "u1" 0 (ex_ref "k1")) ex_base))
  = Ok ex_snap.
Proof.
  apply (snapshot_immutable "s1" ex_snap
           [OSetChunk "u1" 0 (ex_ref "k1"); ODelete "u1" true] ex_base);
    [by vm_compute|set_solver|repeat constructor].
Defined.

(** What leaves a volume's chunk map alone. *)
Lemma chunks_apply_op o vm id cs :
  op_fresh o vm -> dom (volume_chunks vm) = dom (volumes vm) ->
  (forall cid ref, o <> OSetChunk id cid ref) -> (forall force, o <> ODelete id force) ->
  volume_chunks vm !! id = Some cs -> volume_chunks (apply_op o vm) !! id = Some cs.
Proof.
  intros F Hd H1 H2 Hc.
  assert (forall i, volumes vm !! i = None -> i <> id) as Hne.
  { intros i Hi ->. apply not_elem_of_dom in Hi. rewrite <- Hd in Hi.
    apply not_elem_of_dom in Hi. congruence. }
  destruct o as [i ????|v|i ?|??|??|i ??|????|?|i ????]; cbn in *.
  - destruct F as [F _]. unfold create_volume. repeat case_if; try done. cbn.
    rewrite lookup_insert_ne; auto.
  - destruct F as [F _]. unfold restore_volume. repeat case_if; try done. cbn.
    rewrite lookup_insert_ne; auto.
  - unfold delete_volume. destruct get_volume; cbn; try done. repeat case_if; try done.
    cbn. rewrite lookup_delete_ne; [done|]. intros ->. naive_solver.
  - unfold resize_volume. destruct (volumes vm !! id0); cbn; [|done]. repeat case_if; done.
  - unfold set_volume_state. by destruct (volumes vm !! id0).
  - unfold set_chunk. case_match; [|done]. cbn. rewrite lookup_insert_ne; [done|].
    intros ->. naive_solver.
  - unfold create_snapshot. by destruct get_volume.
  - unfold delete_snapshot. by destruct get_snapshot.
  - destruct F as [F _]. unfold clone_from_snapshot. destruct get_snapshot; cbn; try done.
    repeat case_if; try done. cbn. rewrite lookup_insert_ne; auto.
Qed.

(** A clone starts with the snapshot's size and chunks and is its own
    volume from then on: after any operations that neither write to it nor
    delete it, its chunks are still the snapshot's, whatever was done to the
    snapshot and to the volume it was taken of. *)
Theorem clone_isolated (id sid nm : string) (now : Z) (pl : option string) (s : Snapshot)
    (v : Volume) (os : list op) (vm vm1 vm2 : VolumeManager) :
  wf vm -> fresh_volume id vm -> get_snapshot sid vm = Ok s ->
  clone_from_snapshot id now sid nm pl vm = Ok (vm1, v) ->
  (forall cid ref, OSetChunk id cid ref ∉ os) -> (forall force, ODelete id force ∉ os) ->
  run vm1 os vm2 ->
  size_bytes v = snap_size_bytes s /\
  forall cid, get_chunk id cid vm2 = chunk_refs s !! cid.
Proof.
  intros W F Hs H H1 H2 Hr. unfold get_snapshot in Hs. apply ok_or_ok in Hs.
  apply clone_ok in H as (s' & Hs' & Hn & -> & Hi & Hnm & Hsz & _).
  simplify_eq. split; [done|]. intros cid.
  set (P x := wf x /\ volume_chunks x !! volume_id v = Some (chunk_refs s)).
  assert (P vm2) as [_ Hc].
  { apply (run_ind_inv P (fun o => (forall c r, o <> OSetChunk (volume_id v) c r) /\
             forall f, o <> ODelete (volume_id v) f)) in Hr; [done|..].
    - intros o x [Q1 Q2] Fo [Wx Hx]. split; [by apply wf_apply_op|].
      apply chunks_apply_op; auto. by apply wf_chunks.
    - apply Forall_forall. intros o Ho. split; intros; intros ->; naive_solver.
    - split; [by apply wf_add|]. cbn. by rewrite lookup_insert_eq. }
  unfold get_chunk. rewrite Hc. done.
Qed.

Lemma ex_base_wf : wf ex_base.
Proof.
  apply wf_apply_op; [by vm_compute|]. apply wf_apply_op; [done|].
  apply wf_apply_op; [by split|apply wf_empty].
Qed.

Lemma clone_isolated_witness :
  let v := mkVolume "u2" "copy" 100 0 "default" Available 11 11 (Some "s1")
             DEFAULT_CHUNK_SIZE ∅ in
  let os := [OSetChunk "u1" 0 (ex_ref "k1"); ODeleteSnapshot "s1"; ODelete "u1" false] in
  let vm1 := apply_op (OClone "u2" 11 "s1" "copy" None) ex_base in
  size_bytes v = snap_size_bytes ex_snap /\
  forall cid, get_chunk "u2" cid (foldl (fun x o => apply_op o x) vm1 os)
              = chunk_refs ex_snap !! cid.
Proof.
  intros v os vm1.
  apply (clone_isolated "u2" "s1" "copy" 11 None ex_snap v os ex_base vm1).
  - apply ex_base_wf.
  - split; [by vm_compute|]. intros sid s E.
    change (snapshots ex_base) with ({["s1" := ex_snap]} : gmap string Snapshot) in E.
    apply lookup_singleton_Some in E as [_ <-]. done.
  - by vm_compute.
  - by vm_compute.
  - intros cid ref E. repeat (apply elem_of_cons in E as [E|E]; [done|]). by apply elem_of_nil in E.
  - intros force E. repeat (apply elem_of_cons in E as [E|E]; [done|]). by apply elem_of_nil in E.
  - repeat constructor.
Defined.

(** ** Resizing *)

Lemma size_apply_op o vm id v v' :
  op_fresh o vm -> volumes vm !! id = Some v -> volumes (apply_op o vm) !! id = Some v' ->
  size_bytes v <= size_bytes v' /\ vol_chunk_size v' = vol_chunk_size v.
Proof.
  intros F Hv.
  assert (forall i, fresh_volume i vm -> i <> id) as Hne by (intros i [??] ->; congruence).
  destruct o as [i ????|w|i ?|?? sz|??|i ??|????|?|i ????]; cbn in *.
  - apply Hne in F. unfold create_volume. repeat case_if; cbn; rewrite ?lookup_insert_ne by done;
      intros; simplify_eq; done.
  - apply Hne in F. unfold restore_volume. repeat case_if; cbn; rewrite ?lookup_insert_ne by done;
      intros; simplify_eq; done.
  - unfold delete_volume. destruct get_volume; cbn; try (intros; simplify_eq; done).
    repeat case_if; cbn; [intros; simplify_eq; done..|].
    intros [_ ?]%lookup_delete_Some. simplify_eq. done.
  - unfold resize_volume. destruct (volumes vm !! id0) eqn:E; cbn; [|intros; simplify_eq; done].
    repeat case_if; cbn; try (intros; simplify_eq; done).
    rewrite lookup_insert. case_decide; intros; simplify_eq; cbn; [lia|done].
  - unfold set_volume_state. destruct (volumes vm !! id0) eqn:E; cbn; [|intros; simplify_eq; done].
    rewrite lookup_insert. case_decide; intros; simplify_eq; done.
  - unfold set_chunk. case_match; cbn; intros; simplify_eq; done.
  - unfold create_snapshot. destruct get_volume; cbn; intros; simplify_eq; done.
  - unfold delete_snapshot. destruct get_snapshot; cbn; intros; simplify_eq; done.
  - apply Hne in F. unfold clone_from_snapshot. destruct get_snapshot; cbn;
      try (intros; simplify_eq; done).
    repeat case_if; cbn; rewrite ?lookup_insert_ne by done; intros; simplify_eq; done.
Qed.

(** A volume never shrinks and never changes its chunk size in place:
    no operation on a state that holds it, of whatever outcome, leaves it
    smaller, so the chunks it was written in stay within it. *)
Theorem volume_never_shrinks (o : op) (vm : VolumeManager) (id : string) (v v' : Volume) :
  op_fresh o vm -> get_volume id vm = Ok v -> get_volume id (apply_op o vm) = Ok v' ->
  size_bytes v <= size_bytes v' /\ vol_chunk_size v' = vol_chunk_size v.
Proof.
  unfold get_volume. intros F H%ok_or_ok H'%ok_or_ok. by eapply size_apply_op.
Qed.

Lemma volume_never_shrinks_witness :
  let v := mkVolume "u1" "disk" 100 0 "p" Available 7 7 None DEFAULT_CHUNK_SIZE ∅ in
  size_bytes v <= size_bytes (set_size 150 8 v) /\
  vol_chunk_size (set_size 150 8 v) = vol_chunk_size v.
Proof.
  intros v. apply (volume_never_shrinks (OResize 8 "u1" 150) ex_base "u1");
    [done|by vm_compute..].
Defined.

(** The states round-trip through their wire numbers. *)
Lemma VolumeState_roundtrip st : VolumeState_from_i32 (VolumeState_to_i32 st) = st.
Proof. by destruct st. Qed.

End Volume.
