(* ===== verification/LogTail.v ===== *)
(** * Telling a log's torn tail from damage (crates/common/src/log_tail.rs)

    [whole_record_after] looks for a whole record that starts after a bad
    one. It reads the log a window at a time and probes every offset; the
    theorem is that the windows do not show: the answer is that of the
    search that reads the log directly. *)

From S2P Require Import Prelude Bytes.

Module LogTail.

(** [ReadAt::read_exact_at] on a log's bytes. *)
Inductive ReadError : Type := EndOfLog.

Definition read_exact_at (src : bytes) (n offset : Z) : outcome ReadError bytes :=
  ok_or (slice (Z.to_nat offset) (Z.to_nat n) src) EndOfLog.

Definition WINDOW : Z := 2 ^ 20.

Section search.
(** [probe] and [whole] as the caller gives them. What [whole] notes in a
    captured variable when it answers [true] is the [Some] it returns. *)
Context {X : Type} (probe_len : Z) (probe : Z -> bytes -> option Z)
        (whole : Z -> bytes -> option X).

(** One candidate, at [start + i]: [Some] if a whole record starts there. *)
Definition candidate (src : bytes) (len start : Z) (window : bytes) (i : Z)
    : outcome ReadError (option X) :=
  let at_ := start + i in
  let head_end := Z.min (lenZ window) (i + probe_len) in
  match slice (Z.to_nat i) (Z.to_nat (head_end - i)) window with
  | None => Panic
  | Some head =>
    match probe at_ head with
    | None => Ok None
    | Some record_len =>
      if (record_len =? 0) || (len - at_ <? record_len) then Ok None
      else if i + record_len <=? lenZ window then
        record ← or_panic (slice (Z.to_nat i) (Z.to_nat record_len) window);
        Ok (whole at_ record)
      else
        record ← read_exact_at src record_len at_;
        Ok (whole at_ record)
    end
  end.

(** [for i in 0..candidates]. *)
Fixpoint candidates_from (src : bytes) (len start : Z) (window : bytes) (idx : list Z)
    : outcome ReadError (option (Z * X)) :=
  match idx with
  | [] => Ok None
  | i :: rest =>
    r ← candidate src len start window i;
    match r with
    | Some x => Ok (Some (start + i, x))
    | None => candidates_from src len start window rest
    end
  end.

(** [while start < len]: each round moves [start] on by at least one, so
    [len - start] rounds are enough. *)
Fixpoint windows (fuel : nat) (src : bytes) (len start : Z)
    : outcome ReadError (option (Z * X)) :=
  match fuel with
  | O => Ok None
  | S fuel' =>
    if start <? len then
      let have := len - start in
      window ← read_exact_at src (Z.min have (WINDOW + probe_len)) start;
      let cands := Z.min have WINDOW in
      r ← candidates_from src len start window (rangeZ 0 cands);
      match r with
      | Some found => Ok (Some found)
      | None => windows fuel' src len (start + cands)
      end
    else Ok None
  end.

Definition whole_record_after (src : bytes) (bad len : Z) : outcome ReadError (option (Z * X)) :=
  let start := saturating_add64 bad 1 in
  windows (Z.to_nat (len - start)) src len start.

(** ** The search without windows *)

(** The record that would start at [at_], by the log's own bytes. *)
Definition direct (src : bytes) (len at_ : Z) : option X :=
  let rest := drop (Z.to_nat at_) (take (Z.to_nat len) src) in
  match probe at_ (take (Z.to_nat probe_len) rest) with
  | None => None
  | Some n =>
    if (n =? 0) || (len - at_ <? n) then None
    else whole at_ (take (Z.to_nat n) rest)
  end.

Fixpoint first_direct (src : bytes) (len : Z) (ats : list Z) : option (Z * X) :=
  match ats with
  | [] => None
  | a :: rest =>
    match direct src len a with
    | Some x => Some (a, x)
    | None => first_direct src len rest
    end
  end.

Definition search (src : bytes) (bad len : Z) : option (Z * X) :=
  first_direct src len (rangeZ (bad + 1) len).

Lemma first_direct_app src len l k :
  first_direct src len (l ++ k) =
  match first_direct src len l with Some r => Some r | None => first_direct src len k end.
Proof.
  induction l as [|a l IH]; cbn; [done|]. by destruct (direct src len a).
Qed.

Context (Hprobe_len : 0 <= probe_len).
(** A record length is unsigned. *)
Context (Hprobe : forall a h n, probe a h = Some n -> 0 <= n).

Lemma window_slice (src : bytes) len start w i n :
  0 <= start -> 0 <= i -> 0 <= n -> len <= lenZ src ->
  start + w <= len -> i + n <= w ->
  slice (Z.to_nat i) (Z.to_nat n) (take (Z.to_nat w) (drop (Z.to_nat start) src)) =
  Some (take (Z.to_nat n) (drop (Z.to_nat (start + i)) (take (Z.to_nat len) src))).
Proof.
  unfold lenZ. intros. rewrite slice_some by len. f_equal.
  rewrite skipn_firstn_comm, take_take, drop_drop.
  rewrite (skipn_firstn_comm (Z.to_nat (start + i))), take_take. f_equal; [lia|].
  f_equal. lia.
Qed.

Lemma candidate_direct (src : bytes) len start i w :
  0 <= start -> 0 <= i -> start + i < len -> len <= lenZ src ->
  w = Z.min (len - start) (WINDOW + probe_len) -> i < WINDOW ->
  candidate src len start (take (Z.to_nat w) (drop (Z.to_nat start) src)) i =
  Ok (direct src len (start + i)).
Proof.
  intros Hs Hi Hlt Hl Hw Hiw. unfold candidate, direct.
  assert (lenZ (take (Z.to_nat w) (drop (Z.to_nat start) src)) = w) as Hlen
    by (unfold lenZ in *; len).
  rewrite Hlen.
  rewrite (window_slice src len) by (unfold WINDOW in *; lia).
  assert (take (Z.to_nat (w `min` (i + probe_len) - i))
            (drop (Z.to_nat (start + i)) (take (Z.to_nat len) src))
          = take (Z.to_nat probe_len)
            (drop (Z.to_nat (start + i)) (take (Z.to_nat len) src))) as ->.
  { destruct (Z.le_gt_cases (i + probe_len) w); [f_equal; lia|].
    rewrite (take_ge _ (Z.to_nat (_ - i))), (take_ge _ (Z.to_nat probe_len));
      [done|unfold lenZ in *; rewrite length_drop, length_take; lia..]. }
  destruct probe as [n|] eqn:En; [|done]. apply Hprobe in En.
  destruct ((n =? 0) || (len - (start + i) <? n)) eqn:E; [done|]. bool_to_prop.
  destruct (Z.leb_spec (i + n) w).
  - rewrite (window_slice src len) by (unfold WINDOW in *; lia). done.
  - unfold read_exact_at. rewrite slice_some by (unfold lenZ in *; lia). cbn.
    do 2 f_equal. rewrite (skipn_firstn_comm (Z.to_nat (start + i))), take_take.
    f_equal. lia.
Qed.

Lemma candidates_direct src len start w idx :
  0 <= start -> len <= lenZ src ->
  w = Z.min (len - start) (WINDOW + probe_len) ->
  Forall (fun i => 0 <= i < WINDOW /\ start + i < len) idx ->
  candidates_from src len start (take (Z.to_nat w) (drop (Z.to_nat start) src)) idx =
  Ok (first_direct src len (map (Z.add start) idx)).
Proof.
  intros Hs Hl Hw. induction 1 as [|i idx [Hi ?] _ IH]; [done|].
  cbn [candidates_from first_direct map]. rewrite candidate_direct by (done || lia). cbn.
  destruct direct; [done|]. apply IH.
Qed.

Lemma map_add_rangeZ start n : map (Z.add start) (rangeZ 0 n) = rangeZ start (start + n).
Proof.
  unfold rangeZ. rewrite Z.sub_0_r. replace (start + n - start) with n by lia.
  change (map (Z.add start) (seqZ 0 n)) with (Z.add start <$> seqZ 0 n).
  rewrite fmap_add_seqZ. by rewrite Z.add_0_r.
Qed.

Lemma windows_direct src len fuel : forall start,
  0 <= start -> len <= lenZ src -> len - start <= Z.of_nat fuel ->
  windows fuel src len start = Ok (first_direct src len (rangeZ start len)).
Proof.
  induction fuel as [|fuel IH]; intros start Hs Hl Hf.
  { unfold rangeZ. by rewrite seqZ_nil by lia. }
  cbn [windows]. destruct (Z.ltb_spec start len).
  2:{ unfold rangeZ. by rewrite seqZ_nil by lia. }
  unfold read_exact_at. rewrite slice_some by (unfold lenZ in *; lia). cbn [ok_or mbind outcome_bind].
  rewrite candidates_direct; [|done..|].
  2:{ apply Forall_forall. intros i Hi. unfold rangeZ in Hi. apply elem_of_seqZ in Hi.
      unfold WINDOW in *. lia. }
  rewrite map_add_rangeZ. cbn [mbind outcome_bind].
  rewrite IH by (unfold WINDOW; lia).
  assert (rangeZ start len =
    rangeZ start (start + Z.min (len - start) WINDOW) ++
    rangeZ (start + Z.min (len - start) WINDOW) len) as ->.
  { unfold rangeZ. replace (len - start) with
      (start + Z.min (len - start) WINDOW - start + (len - (start + Z.min (len - start) WINDOW)))
      at 1 by lia.
    rewrite seqZ_split by (unfold WINDOW; lia). do 2 f_equal; lia. }
  rewrite first_direct_app. by destruct first_direct.
Qed.

Lemma whole_record_after_search src bad len :
  0 <= bad < u64_max -> len <= lenZ src ->
  whole_record_after src bad len = Ok (search src bad len).
Proof.
  intros Hb Hl. unfold whole_record_after, search, saturating_add64.
  replace (Z.min u64_max (bad + 1)) with (bad + 1) by lia.
  apply windows_direct; lia.
Qed.

End search.

(** The windowed search of a log answers exactly as a search that probes
    every offset after the bad record on the log's own bytes: the first
    offset where a plausible header is followed by a whole record, and none
    if there is none. It never reads past the log and always returns. *)
Theorem whole_record_after_correct {X} (probe_len : Z) (probe : Z -> bytes -> option Z)
    (whole : Z -> bytes -> option X) (src : bytes) (bad len : Z) :
  0 <= probe_len -> (forall a h n, probe a h = Some n -> 0 <= n) ->
  0 <= bad < u64_max -> len <= lenZ src ->
  whole_record_after probe_len probe whole src bad len =
  Ok (search probe_len probe whole src bad len).
Proof. intros. by apply whole_record_after_search. Qed.

Lemma whole_record_after_correct_witness :
  let probe (_ : Z) (h : bytes) := match h with b :: _ => Some (bval b) | [] => None end in
  let whole (_ : Z) (r : bytes) := if bool_decide (last r = Some Byte.xff) then Some tt else None in
  let log := [Byte.x01; Byte.x09; Byte.x02; Byte.xff; Byte.x00] in
  whole_record_after 1 probe whole log 0 5 = Ok (Some (2, tt)).
Proof.
  intros probe whole log.
  rewrite (whole_record_after_correct 1 probe whole log 0 5);
    [by vm_compute|lia| |unfold u64_max, two64; lia|by vm_compute].
  intros a [|b h] n H; subst probe; cbn in H; simplify_eq. unfold bval. pose proof (byte.unsigned_range b). lia.
Defined.

End LogTail.
