(* ===== verification/Journal.v ===== *)
(** * The block gateway's write-ahead journal (crates/block/src/journal.rs)

    One file: a header, then entries, each ended by a CRC32C. The journal's
    state is a record with the file's bytes as the operating system has them
    and how many of those are on stable storage; disk failures are arguments
    of the operations that meet them. A crash leaves the stable bytes and,
    after them, anything.

    [crc32c] is a third-party crate: the class [Crc32c] is what the journal
    relies on of it (a checksum is a [u32]). *)

From S2P Require Import Prelude Bytes Crc Chunk Volume LogTail.

Module Journal.
Abbreviation ChunkId := Chunk.ChunkId.

Definition JOURNAL_MAGIC : Z := 0x4F424A5F4A524E4C.
Definition JOURNAL_VERSION : Z := 1.

Inductive EntryType : Type :=
| Write
| Flush
| Checkpoint.

#[global] Instance EntryType_eq_dec : EqDecision EntryType.
Proof. solve_decision. Defined.

Definition EntryType_u8 (t : EntryType) : Z :=
  match t with Write => 1 | Flush => 2 | Checkpoint => 3 end.

Definition EntryType_try_from (value : Z) : outcome BlockError EntryType :=
  if value =? 1 then Ok Write
  else if value =? 2 then Ok Flush
  else if value =? 3 then Ok Checkpoint
  else Err (Journal (JInvalidEntryType value)).

Record JournalEntry := mkEntry {
  sequence : Z;
  entry_type : EntryType;
  volume_id : string;
  entry_chunk_id : ChunkId;
  offset : Z;
  data : option bytes;
  checksum : Z;
}.

Definition with_type (t : EntryType) (e : JournalEntry) : JournalEntry :=
  mkEntry (sequence e) t (volume_id e) (entry_chunk_id e) (offset e) (data e) (checksum e).
Definition with_checksum (c : Z) (e : JournalEntry) : JournalEntry :=
  mkEntry (sequence e) (entry_type e) (volume_id e) (entry_chunk_id e) (offset e) (data e) c.

Section entries.
Context {CRC : Crc32c}.

(** What the checksum covers: every field, the type byte given. *)
Definition checksum_bytes (e : JournalEntry) (t : Z) : bytes :=
  to_le 8 (sequence e) ++ [byte.of_Z t] ++ as_bytes (volume_id e)
  ++ to_le 8 (entry_chunk_id e) ++ to_le 8 (offset e)
  ++ match data e with Some d => d | None => [] end.

Definition checksum_with_type (e : JournalEntry) (t : Z) : Z := crc32c (checksum_bytes e t).

Definition compute_checksum (e : JournalEntry) : Z :=
  checksum_with_type e (EntryType_u8 (entry_type e)).

Definition verify (e : JournalEntry) : bool := checksum e =? compute_checksum e.

Definition entry_write (seq : Z) (vol : string) (cid : ChunkId) (off : Z) (d : bytes)
    : JournalEntry :=
  let entry := mkEntry seq Write vol cid off (Some d) 0 in
  with_checksum (compute_checksum entry) entry.

Definition entry_flush (seq : Z) (vol : string) (cid : ChunkId) : JournalEntry :=
  let entry := mkEntry seq Flush vol cid 0 None 0 in
  with_checksum (compute_checksum entry) entry.

Definition entry_checkpoint (seq : Z) : JournalEntry :=
  let entry := mkEntry seq Checkpoint "" 0 0 None 0 in
  with_checksum (compute_checksum entry) entry.

(** [as u16] and [as u32] cut the lengths to their low bits. *)
Definition serialize (e : JournalEntry) : bytes :=
  to_le 8 (sequence e)
  ++ [byte.of_Z (EntryType_u8 (entry_type e))]
  ++ to_le 2 (lenZ (as_bytes (volume_id e)))
  ++ as_bytes (volume_id e)
  ++ to_le 8 (entry_chunk_id e)
  ++ to_le 8 (offset e)
  ++ match data e with
     | Some d => to_le 4 (lenZ d) ++ d
     | None => to_le 4 0
     end
  ++ to_le 4 (checksum e).

Definition eof {A} (o : option A) : outcome BlockError A :=
  ok_or o (Journal (JIo UnexpectedEof)).

(** Reads from a cursor over [r]; also gives back what it left. *)
Definition read_raw (r : bytes) : outcome BlockError (Z * JournalEntry * bytes) :=
  '(seq, r) ← eof (read_le 8 r);
  '(t, r) ← eof (read_le 1 r);
  '(vol_len, r) ← eof (read_le 2 r);
  '(vol_buf, r) ← eof (read_exact (Z.to_nat vol_len) r);
  vol ← ok_or (from_utf8 vol_buf) (Journal JInvalidVolumeId);
  '(cid, r) ← eof (read_le 8 r);
  '(off, r) ← eof (read_le 8 r);
  '(data_len, r) ← eof (read_le 4 r);
  '(d, r) ← (if 0 <? data_len
             then '(b, r) ← eof (read_exact (Z.to_nat data_len) r); Ok (Some b, r)
             else Ok (None, r));
  '(crc, r) ← eof (read_le 4 r);
  Ok (t, mkEntry seq Write vol cid off d crc, r).

Definition deserialize (r : bytes) : outcome BlockError (JournalEntry * bytes) :=
  '(t, e, r) ← read_raw r;
  t' ← EntryType_try_from t;
  Ok (with_type t' e, r).

Definition HEADER_LEN : Z := 8 + 4 + 8 + 8.
Definition ENTRY_PREFIX : Z := 8 + 1 + 2.
Definition ENTRY_MIDDLE : Z := 8 + 8 + 4.
Definition MIN_ENTRY : Z := ENTRY_PREFIX + ENTRY_MIDDLE + 4.
Definition MAX_ENTRY_DATA : Z := Z.shiftl 64 20.
Definition PROBE_LEN : Z := ENTRY_PREFIX + u16_max + ENTRY_MIDDLE.

Definition entry_len_at (src : bytes) (off remaining : Z)
    : outcome LogTail.ReadError (option Z) :=
  if remaining <? MIN_ENTRY then Ok None
  else
    prefix ← LogTail.read_exact_at src ENTRY_PREFIX off;
    let vol_len := from_le (take 2 (drop 9 prefix)) in
    let data_len_at := ENTRY_PREFIX + ENTRY_MIDDLE - 4 + vol_len in
    if remaining <? data_len_at + 8 then Ok None
    else
      dl ← LogTail.read_exact_at src 4 (off + data_len_at);
      let data_len := from_le dl in
      if MAX_ENTRY_DATA <? data_len then Ok None
      else
        let total := data_len_at + 4 + data_len + 4 in
        Ok (if total <=? remaining then Some total else None).

(** ** Round trip of an entry *)

(** An entry as the journal takes it: what [append] checks, on values of
    their Rust types. *)
Record entry_ok (e : JournalEntry) : Prop := mkok {
  ok_seq : is_u64 (sequence e);
  ok_chunk : is_u64 (entry_chunk_id e);
  ok_off : is_u64 (offset e);
  ok_crc : 0 <= checksum e < 2 ^ 32;
  ok_vol : rust_string (volume_id e);
  ok_vol_len : lenZ (as_bytes (volume_id e)) <= u16_max;
  ok_data : forall d, data e = Some d -> lenZ d <= MAX_ENTRY_DATA;
}.

(** An entry with empty data reads back as one with none. *)
Definition norm (e : JournalEntry) : JournalEntry :=
  mkEntry (sequence e) (entry_type e) (volume_id e) (entry_chunk_id e) (offset e)
    (match data e with Some [] => None | d => d end) (checksum e).

Lemma EntryType_try_from_u8 t : EntryType_try_from (EntryType_u8 t) = Ok t.
Proof. by destruct t. Qed.

Ltac next := cbn [eof ok_or mbind outcome_bind].

Lemma read_raw_serialize e rest :
  entry_ok e ->
  read_raw (serialize e ++ rest) =
    Ok (EntryType_u8 (entry_type e), with_type Write (norm e), rest).
Proof.
  intros [? ? ? ? Hv Hvl Hd]. unfold read_raw, serialize.
  rewrite <- !app_assoc. pose proof (lenZ_nonneg (as_bytes (volume_id e))).
  rewrite read_u64 by done. next.
  cbn [app]. rewrite read_u8 by (by destruct (entry_type e)). next.
  rewrite read_u16 by (unfold u16_max in *; lia). next.
  rewrite read_exact_app_eq by (unfold lenZ; lia). next.
  rewrite from_utf8_of_string by done. next.
  rewrite !read_u64 by done. next. rewrite !read_u64 by done. next.
  unfold norm, with_type.
  destruct (data e) as [[|b d]|] eqn:Ed; rewrite <- ?app_assoc.
  - rewrite read_u32 by done. next. change (0 <? lenZ (@nil byte)) with false. next.
    rewrite app_nil_l, read_u32 by done. done.
  - pose proof (Hd _ eq_refl) as Hl. change MAX_ENTRY_DATA with 67108864 in Hl.
    assert (0 < lenZ (b :: d)) by (unfold lenZ; cbn; lia).
    rewrite read_u32 by lia. next.
    destruct (Z.ltb_spec 0 (lenZ (b :: d))); [|lia].
    rewrite read_exact_app_eq by (unfold lenZ; lia). next.
    rewrite read_u32 by done. done.
  - rewrite read_u32 by done. next. change (0 <? 0) with false. next.
    rewrite read_u32 by done. done.
Qed.

(** The other way: what [read_raw] takes is the serialization of what it
    gives, the type byte aside. *)
Lemma read_raw_inv r t e rest :
  read_raw r = Ok (t, e, rest) ->
  entry_type e = Write /\ data e <> Some [] /\ 0 <= t < 256 /\
  is_u64 (sequence e) /\ is_u64 (entry_chunk_id e) /\ is_u64 (offset e) /\
  0 <= checksum e < 2 ^ 32 /\ rust_string (volume_id e) /\
  lenZ (as_bytes (volume_id e)) <= u16_max /\
  (forall d, data e = Some d -> lenZ d < 2 ^ 32) /\
  r = to_le 8 (sequence e) ++ [byte.of_Z t] ++ to_le 2 (lenZ (as_bytes (volume_id e)))
      ++ as_bytes (volume_id e) ++ to_le 8 (entry_chunk_id e) ++ to_le 8 (offset e)
      ++ match data e with Some d => to_le 4 (lenZ d) ++ d | None => to_le 4 0 end
      ++ to_le 4 (checksum e) ++ rest.
Proof.
  unfold read_raw, eof. intros Hr. inv_ok. simplify_eq. cbn.
  repeat match goal with
  | H : read_le 1 _ = Some _ |- _ => apply read_u8_some in H as [-> ?]
  | H : read_le _ _ = Some _ |- _ => apply read_le_some in H as [-> ?]
  | H : read_exact _ _ = Some _ |- _ => apply read_exact_some in H as [-> ?]
  | H : from_utf8 _ = Some _ |- _ => apply from_utf8_some in H as [-> ?]
  end.
  assert (z1 = lenZ (as_bytes x)) as -> by (unfold lenZ; lia).
  destruct (Z.ltb_spec 0 z4); inv_ok; simplify_eq.
  - match goal with
    | E : read_exact _ _ = Some (?b, _) |- _ =>
        apply read_exact_some in E as [-> Hlen]; assert (z4 = lenZ b) as -> by (unfold lenZ; lia)
    end.
    unfold u16_max. split_and!; try done; try lia.
    + intros [= ->]. unfold lenZ in *. cbn in *. lia.
    + intros d [= ->]. lia.
  - unfold u16_max. split_and!; try done; try lia.
    replace z4 with 0 by lia. done.
Qed.

(** ** The file *)

Definition jio {A} (m : outcome LogTail.ReadError A) : outcome BlockError A :=
  map_err (fun _ => Journal (JIo UnexpectedEof)) m.

(** [write_header], as the bytes it writes. *)
Definition header (seq checkpoint : Z) : bytes :=
  to_le 8 JOURNAL_MAGIC ++ to_le 4 JOURNAL_VERSION ++ to_le 8 seq ++ to_le 8 checkpoint.

Definition read_header (file : bytes) : outcome BlockError (Z * Z) :=
  '(magic, r) ← eof (read_le 8 file);
  if negb (magic =? JOURNAL_MAGIC) then Err (Journal JInvalidMagic)
  else
    '(version, r) ← eof (read_le 4 r);
    if negb (version =? JOURNAL_VERSION) then Err (Journal (JUnsupportedVersion version))
    else
      '(seq, r) ← eof (read_le 8 r);
      '(checkpoint, r) ← eof (read_le 8 r);
      Ok (seq, checkpoint).

(** The loop of [scan] from [off], with the entries it gives to its closure
    in order, and where it stops. Every entry is at least a byte, so
    [len - off] rounds are enough: with no fuel left [off >= len]. *)
Fixpoint scan_from (fuel : nat) (file : bytes) (len off : Z)
    : outcome BlockError (list JournalEntry * Z) :=
  match fuel with
  | O => Ok ([], Z.min off len)
  | S fuel' =>
    if off <? len then
      l ← jio (entry_len_at file off (len - off));
      match l with
      | None => Ok ([], Z.min off len)
      | Some entry_len =>
        b ← jio (LogTail.read_exact_at file entry_len off);
        match read_raw b with
        | Ok (t, entry, _) =>
          if negb (checksum entry =? checksum_with_type entry t) then Ok ([], Z.min off len)
          else
            match EntryType_try_from t with
            | Ok t' =>
              '(es, stop) ← scan_from fuel' file len (off + entry_len);
              Ok (with_type t' entry :: es, stop)
            | _ => Err (Journal (JUnknownEntryType (sequence entry) t))
            end
        | _ => Ok ([], Z.min off len)
        end
      end
    else Ok ([], Z.min off len)
  end.

Definition scan (file : bytes) (len : Z) : outcome BlockError (list JournalEntry * Z) :=
  scan_from (Z.to_nat (len - HEADER_LEN)) file len HEADER_LEN.

Definition damage_probe (len seq most at_ : Z) (head : bytes) : option Z :=
  if (length head <? 8)%nat then None
  else
    let s := from_le (take 8 head) in
    if (s <? seq) || (most <? s) then None
    else match entry_len_at head 0 (len - at_) with Ok r => r | _ => None end.

Definition damage_whole (_ : Z) (b : bytes) : option Z :=
  match read_raw b with
  | Ok (t, entry, _) =>
      if checksum entry =? checksum_with_type entry t then Some (sequence entry) else None
  | _ => None
  end.

Definition refuse_damage (file : bytes) (bad len seq : Z) : outcome BlockError () :=
  let most := saturating_add64 seq (len / MIN_ENTRY) in
  after ← jio (LogTail.whole_record_after PROBE_LEN (damage_probe len seq most)
                 damage_whole file bad len);
  match after with
  | None => Ok ()
  | Some (at_, found) => Err (Journal (JDamaged bad found at_))
  end.

(** The writes after the last checkpoint, in file order: the closure of
    [recover]. *)
Definition recover_step (acc : list JournalEntry) (e : JournalEntry) : list JournalEntry :=
  match entry_type e with
  | Checkpoint => []
  | Write => acc ++ [e]
  | Flush => acc
  end.

Definition replay (es : list JournalEntry) : list JournalEntry := foldl recover_step [] es.

(** ** The journal *)

(** [file] is what the operating system holds under the journal's name;
    its first [stable] bytes are on stable storage. The handles ([writer],
    [syncer]) are always open; the file is written at its end. *)
Record WriteJournal := mkJournal {
  file : bytes;
  stable : Z;
  j_sequence : Z;
  synced : Z;
  fsyncs : Z;
  last_checkpoint : Z;
  max_size : Z;
  current_size : Z;
  failed : bool;
}.

(** The journal file as a process finds it. *)
Record Disk := mkDisk { d_file : bytes; d_stable : Z }.

Definition open (disk : option Disk) (max : Z) : outcome BlockError WriteJournal :=
  let create :=
    Ok (mkJournal (header 0 0) HEADER_LEN 0 0 0 0 max HEADER_LEN false) in
  match disk with
  | None => create
  | Some d =>
    let len := lenZ (d_file d) in
    if 0 <? len then
      '(seq, checkpoint) ← read_header (d_file d);
      '(_, stop) ← scan (d_file d) len;
      if stop <? len then
        _ ← refuse_damage (d_file d) stop len seq;
        (* set_len(end), then sync_all *)
        Ok (mkJournal (take (Z.to_nat stop) (d_file d)) stop seq seq 0 checkpoint max stop false)
      else
        Ok (mkJournal (d_file d) (d_stable d) seq seq 0 checkpoint max stop false)
    else create
  end.

(** How a write, a sync or a rotation meets the disk. A write fails after
    [after] bytes; what it left may fail to be cut off. *)
Inductive disk_write : Type :=
| WDone
| WFails (after : nat) (e : IoError) (cut_fails : bool).
Inductive disk_sync : Type := SDone | SFails.
Inductive disk_rotate : Type :=
| RDone
| RFailsBefore
| RFailsDirSync.

Definition set_file (f : bytes) (j : WriteJournal) : WriteJournal :=
  mkJournal f (stable j) (j_sequence j) (synced j) (fsyncs j) (last_checkpoint j)
    (max_size j) (current_size j) (failed j).
Definition set_failed (j : WriteJournal) : WriteJournal :=
  mkJournal (file j) (stable j) (j_sequence j) (synced j) (fsyncs j) (last_checkpoint j)
    (max_size j) (current_size j) true.

(** [fail]: the journal takes no write after this. *)
Definition fail {A} (j : WriteJournal) : WriteJournal * outcome BlockError A :=
  (set_failed j, Err (Journal JFailed)).

Definition write_failed (start : Z) (e : IoError) (cut_fails : bool) (j : WriteJournal)
    : WriteJournal * outcome BlockError Z :=
  match e with
  | OutOfSpace =>
    if (lenZ (file j) <? start) || cut_fails then fail j
    else (set_file (take (Z.to_nat start) (file j)) j, Err (Io OutOfSpace))
  | _ => fail j
  end.

Definition too_large (e : JournalEntry) : bool :=
  match data e with Some d => MAX_ENTRY_DATA <? lenZ d | None => false end
  || (u16_max <? lenZ (as_bytes (volume_id e))).

Definition append (w : disk_write) (entry : JournalEntry) (j : WriteJournal)
    : WriteJournal * outcome BlockError Z :=
  if too_large entry then (j, Err (Journal JTooLarge))
  else
    let d := serialize entry in
    if failed j then (j, Err (Journal JFailedEarlier))
    else
      match w with
      | WFails n e cut_fails =>
        write_failed (current_size j) e cut_fails (set_file (file j ++ take n d) j)
      | WDone =>
        (mkJournal (file j ++ d) (stable j) (wadd64 (j_sequence j) 1) (synced j) (fsyncs j)
           (last_checkpoint j) (max_size j) (wadd64 (current_size j) (lenZ d)) false,
         Ok (j_sequence j))
      end.

Definition log_write (w : disk_write) (vol : string) (cid : ChunkId) (off : Z) (d : bytes)
    (j : WriteJournal) : WriteJournal * outcome BlockError Z :=
  append w (entry_write (j_sequence j) vol cid off d) j.

Definition log_flush (w : disk_write) (vol : string) (cid : ChunkId) (j : WriteJournal)
    : WriteJournal * outcome BlockError Z :=
  append w (entry_flush (j_sequence j) vol cid) j.

Definition checkpoint (w : disk_write) (j : WriteJournal) : WriteJournal * outcome BlockError Z :=
  let seq := j_sequence j in
  match append w (entry_checkpoint seq) j with
  | (j', Ok r) =>
    (mkJournal (file j') (stable j') (j_sequence j') (synced j') (fsyncs j') seq
       (max_size j') (current_size j') (failed j'), Ok r)
  | r => r
  end.

Definition recover (j : WriteJournal) : outcome BlockError (list JournalEntry) :=
  let len := current_size j in
  '(es, stop) ← scan (file j) len;
  if stop <? len then Err (Journal (JNotWhole stop)) else Ok (replay es).

Definition needs_rotation (j : WriteJournal) : bool := max_size j <? current_size j.

(** Up to the rename the old journal stays. Once renamed, the journal is
    the new file; until its directory is synced a power cut can bring the
    old one back, so nothing of it counts as stable then. *)
Definition rotate (r : disk_rotate) (j : WriteJournal) : WriteJournal * outcome BlockError () :=
  if failed j then (j, Err (Journal JFailedEarlier))
  else
    let seq := j_sequence j in
    let fresh st := mkJournal (header seq seq) st seq (synced j) (fsyncs j) seq
                      (max_size j) HEADER_LEN false in
    match r with
    | RFailsBefore => (j, Err (Journal (JIo OtherIo)))
    | RFailsDirSync => fail (fresh 0)
    | RDone => (fresh HEADER_LEN, Ok ())
    end.

(** The second half of [sync_to]: the fsync that was started when the next
    sequence was [target] and the file had [covers] bytes, and what follows
    it. Appends may have run in between. *)
Definition sync_finish (target covers : Z) (d : disk_sync) (j : WriteJournal)
    : WriteJournal * outcome BlockError () :=
  match d with
  | SFails => fail j
  | SDone =>
    (mkJournal (file j) (Z.max (stable j) covers) (j_sequence j) (Z.max (synced j) target)
       (wadd64 (fsyncs j) 1) (last_checkpoint j) (max_size j) (current_size j) (failed j), Ok ())
  end.

Definition sync_to (d : disk_sync) (upto : Z) (j : WriteJournal)
    : WriteJournal * outcome BlockError () :=
  if upto <=? synced j then (j, Ok ())
  else if failed j then (j, Err (Journal JFailedEarlier))
  else sync_finish (j_sequence j) (lenZ (file j)) d j.

Definition sync (d : disk_sync) (j : WriteJournal) : WriteJournal * outcome BlockError () :=
  if failed j then (j, Err (Journal JFailedEarlier)) else sync_to d (j_sequence j) j.

(** ** Reading back what was written *)

(** An entry the journal itself made. *)
Definition good (e : JournalEntry) : Prop := entry_ok e /\ checksum e = compute_checksum e.

Definition entries_bytes (es : list JournalEntry) : bytes := concat (map serialize es).

Lemma read_exact_at_app pre mid rest :
  LogTail.read_exact_at (pre ++ mid ++ rest) (lenZ mid) (lenZ pre) = Ok mid.
Proof.
  unfold LogTail.read_exact_at, lenZ. rewrite !Nat2Z.id.
  rewrite slice_some by (rewrite !length_app; lia).
  by rewrite drop_app_length, take_app_length.
Qed.

Lemma read_exact_at_app_eq src n off pre mid rest :
  src = pre ++ mid ++ rest -> n = lenZ mid -> off = lenZ pre ->
  LogTail.read_exact_at src n off = Ok mid.
Proof. intros -> -> ->. apply read_exact_at_app. Qed.

Definition data_bytes (e : JournalEntry) : bytes :=
  match data e with Some d => d | None => [] end.

(** An entry's bytes with any type byte. *)
Definition layout (t : Z) (e : JournalEntry) : bytes :=
  (to_le 8 (sequence e) ++ [byte.of_Z t] ++ to_le 2 (lenZ (as_bytes (volume_id e)))) ++
  as_bytes (volume_id e) ++ (to_le 8 (entry_chunk_id e) ++ to_le 8 (offset e)) ++
  to_le 4 (lenZ (data_bytes e)) ++ data_bytes e ++ to_le 4 (checksum e).

Lemma serialize_layout e : serialize e = layout (EntryType_u8 (entry_type e)) e.
Proof.
  unfold serialize, layout, data_bytes. destruct (data e); by rewrite <- ?app_assoc.
Qed.

Lemma layout_length t e :
  lenZ (layout t e) = MIN_ENTRY + lenZ (as_bytes (volume_id e)) + lenZ (data_bytes e).
Proof.
  unfold layout. rewrite !lenZ_app, !lenZ_to_le.
  change (lenZ [_]) with 1. change MIN_ENTRY with 35. lia.
Qed.

Lemma entry_len_at_layout t pre e rest remaining :
  lenZ (as_bytes (volume_id e)) <= u16_max -> lenZ (data_bytes e) < 2 ^ 32 ->
  lenZ (layout t e) <= remaining ->
  entry_len_at (pre ++ layout t e ++ rest) (lenZ pre) remaining =
    Ok (if MAX_ENTRY_DATA <? lenZ (data_bytes e) then None else Some (lenZ (layout t e))).
Proof.
  intros Hvl Hd Hrem. rewrite (layout_length t e) in *.
  pose proof (lenZ_nonneg (as_bytes (volume_id e))). pose proof (lenZ_nonneg (data_bytes e)).
  unfold entry_len_at. destruct (Z.ltb_spec remaining MIN_ENTRY); [lia|].
  unfold layout.
  set (P := to_le 8 (sequence e) ++ _ ++ _). set (v := as_bytes (volume_id e)) in *.
  assert (lenZ P = ENTRY_PREFIX) as HP.
  { unfold P. by rewrite !lenZ_app, !lenZ_to_le. }
  erewrite (read_exact_at_app_eq _ _ _ pre P); [|by rewrite <- !app_assoc|done|done].
  cbn [mbind outcome_bind].
  assert (from_le (take 2 (drop 9 P)) = lenZ v) as ->.
  { unfold P. rewrite (app_assoc (to_le 8 _)).
    rewrite drop_app_length' by (by rewrite length_app, to_le_length).
    rewrite take_ge by (by rewrite to_le_length).
    apply from_to_le. unfold u16_max, v in *. lia. }
  destruct (Z.ltb_spec remaining (ENTRY_PREFIX + ENTRY_MIDDLE - 4 + lenZ v + 8));
    [unfold MIN_ENTRY in *; lia|].
  set (m := to_le 8 (entry_chunk_id e) ++ to_le 8 (offset e)).
  erewrite (read_exact_at_app_eq _ _ _ (pre ++ P ++ v ++ m) (to_le 4 (lenZ (data_bytes e))));
    [|by rewrite <- !app_assoc|by rewrite lenZ_to_le|].
  2:{ rewrite !lenZ_app, HP. unfold m. rewrite !lenZ_app, !lenZ_to_le.
      unfold ENTRY_MIDDLE. lia. }
  cbn [mbind outcome_bind]. rewrite from_to_le by lia.
  destruct (Z.ltb_spec MAX_ENTRY_DATA (lenZ (data_bytes e))); [done|].
  destruct (Z.leb_spec (ENTRY_PREFIX + ENTRY_MIDDLE - 4 + lenZ v + 4 + lenZ (data_bytes e) + 4)
              remaining); [|unfold MIN_ENTRY in *; lia].
  do 2 f_equal. unfold MIN_ENTRY. lia.
Qed.

Lemma serialize_pos e : 35 <= lenZ (serialize e).
Proof.
  rewrite serialize_layout, layout_length. pose proof (lenZ_nonneg (as_bytes (volume_id e))).
  pose proof (lenZ_nonneg (data_bytes e)). change MIN_ENTRY with 35. lia.
Qed.

Lemma entry_len_at_serialize pre e rest remaining :
  entry_ok e -> lenZ (serialize e) <= remaining ->
  entry_len_at (pre ++ serialize e ++ rest) (lenZ pre) remaining =
    Ok (Some (lenZ (serialize e))).
Proof.
  intros Hok Hrem. rewrite serialize_layout in *.
  assert (lenZ (data_bytes e) <= MAX_ENTRY_DATA) as Hd.
  { unfold data_bytes. destruct (data e) eqn:E; [by apply (ok_data e Hok)|done]. }
  rewrite entry_len_at_layout; [|by apply ok_vol_len| |done].
  - by destruct (Z.ltb_spec MAX_ENTRY_DATA (lenZ (data_bytes e))); [lia|].
  - change MAX_ENTRY_DATA with 67108864 in Hd. lia.
Qed.

Lemma checksum_norm e t : checksum_with_type (with_type Write (norm e)) t = checksum_with_type e t.
Proof.
  unfold checksum_with_type, checksum_bytes. cbn. by destruct (data e) as [[]|].
Qed.

Lemma scan_from_entry fuel pre e rest len :
  good e -> lenZ pre + lenZ (serialize e) <= len ->
  scan_from (S fuel) (pre ++ serialize e ++ rest) len (lenZ pre) =
    '(es, stop) ← scan_from fuel (pre ++ serialize e ++ rest) len
                    (lenZ (pre ++ serialize e));
    Ok (norm e :: es, stop).
Proof.
  intros [Hok Hc] Hlen. cbn [scan_from].
  pose proof (serialize_pos e) as Hpos.
  destruct (Z.ltb_spec (lenZ pre) len); [|lia].
  rewrite entry_len_at_serialize by (done || lia). cbn [jio map_err mbind outcome_bind].
  rewrite read_exact_at_app. cbn [jio map_err mbind outcome_bind].
  pose proof (read_raw_serialize e [] Hok) as Hraw. rewrite app_nil_r in Hraw.
  rewrite Hraw.
  rewrite checksum_norm. cbn [checksum with_type norm].
  rewrite Hc. unfold compute_checksum. rewrite Z.eqb_refl. cbn [negb].
  rewrite EntryType_try_from_u8. rewrite lenZ_app. done.
Qed.

Lemma scan_from_entries es : forall fuel pre rest len,
  Forall good es -> (length es <= fuel)%nat ->
  lenZ pre + lenZ (entries_bytes es) <= len ->
  scan_from fuel (pre ++ entries_bytes es ++ rest) len (lenZ pre) =
    '(es', stop) ← scan_from (fuel - length es) (pre ++ entries_bytes es ++ rest) len
                     (lenZ (pre ++ entries_bytes es));
    Ok (map norm es ++ es', stop).
Proof.
  induction es as [|e es IH]; intros fuel pre rest len Hg Hf Hl.
  - cbn. rewrite Nat.sub_0_r, !app_nil_r. destruct scan_from as [[]|?|]; done.
  - apply Forall_cons in Hg as [He Hg]. cbn [length] in Hf.
    destruct fuel as [|fuel]; [lia|].
    unfold entries_bytes in *. cbn [map concat] in *. rewrite lenZ_app in Hl.
    rewrite <- !app_assoc. pose proof (lenZ_nonneg (concat (map serialize es))).
    rewrite scan_from_entry by (done || lia).
    rewrite !(app_assoc pre (serialize e)).
    rewrite IH; [|done|lia|rewrite lenZ_app; lia].
    cbn [length Nat.sub map]. rewrite <- (app_assoc pre).
    destruct scan_from as [[]|?|]; done.
Qed.

Lemma scan_from_end fuel f len off : len <= off -> scan_from fuel f len off = Ok ([], len).
Proof.
  intros. destruct fuel; cbn [scan_from].
  - by rewrite Z.min_r by lia.
  - destruct (Z.ltb_spec off len); [lia|]. by rewrite Z.min_r by lia.
Qed.

Lemma entries_bytes_length es : Z.of_nat (length es) <= lenZ (entries_bytes es).
Proof.
  induction es as [|e es IH]; [done|]. unfold entries_bytes in *. cbn [map concat length].
  rewrite lenZ_app. pose proof (serialize_pos e). lia.
Qed.

Lemma entries_bytes_app a b : entries_bytes (a ++ b) = entries_bytes a ++ entries_bytes b.
Proof. unfold entries_bytes. by rewrite map_app, concat_app. Qed.

Lemma header_length s c : lenZ (header s c) = HEADER_LEN.
Proof. unfold header. by rewrite !lenZ_app, !lenZ_to_le. Qed.

Lemma read_header_header s c rest :
  is_u64 s -> is_u64 c -> read_header (header s c ++ rest) = Ok (s, c).
Proof.
  intros. unfold read_header, header. rewrite <- !app_assoc.
  rewrite read_u64 by (by vm_compute). next. rewrite Z.eqb_refl. cbn [negb].
  rewrite read_u32 by (by vm_compute). next. rewrite Z.eqb_refl. cbn [negb].
  rewrite read_u64 by done. next. rewrite read_u64 by done. done.
Qed.

(** A scan of a journal gives its entries, then what the tail holds. *)
Lemma scan_entries hd es tail len :
  lenZ hd = HEADER_LEN -> Forall good es -> HEADER_LEN + lenZ (entries_bytes es) <= len ->
  exists fuel, scan (hd ++ entries_bytes es ++ tail) len =
    '(es', stop) ← scan_from fuel (hd ++ entries_bytes es ++ tail) len
                     (HEADER_LEN + lenZ (entries_bytes es));
    Ok (map norm es ++ es', stop).
Proof.
  intros Hh Hg Hl. unfold scan. pose proof (entries_bytes_length es).
  pose proof (scan_from_entries es (Z.to_nat (len - HEADER_LEN)) hd tail len Hg
    ltac:(lia) ltac:(lia)) as E.
  rewrite lenZ_app, Hh in E. rewrite E. eauto.
Qed.

Lemma scan_whole hd es tail len :
  lenZ hd = HEADER_LEN -> Forall good es -> len = HEADER_LEN + lenZ (entries_bytes es) ->
  scan (hd ++ entries_bytes es ++ tail) len = Ok (map norm es, len).
Proof.
  intros Hh Hg Hl. destruct (scan_entries hd es tail len Hh Hg ltac:(lia)) as [fuel ->].
  rewrite scan_from_end by lia. cbn. by rewrite app_nil_r.
Qed.

(** ** Only what was written is read back *)

Lemma entry_len_at_some f off remaining n :
  entry_len_at f off remaining = Ok (Some n) -> 35 <= n <= remaining.
Proof.
  unfold entry_len_at. case_if; [done|]. intros Hn. inv_ok. case_if; [done|]. inv_ok.
  case_if; [done|]. case_if; inv_ok; simplify_eq.
  pose proof (from_le_bound (take 2 (drop 9 x))). pose proof (from_le_bound x0).
  unfold ENTRY_PREFIX, ENTRY_MIDDLE in *. lia.
Qed.

Lemma read_exact_at_some src n off b :
  0 <= off -> 0 <= n -> LogTail.read_exact_at src n off = Ok b ->
  exists pre rest, src = pre ++ b ++ rest /\ lenZ pre = off /\ lenZ b = n.
Proof.
  unfold LogTail.read_exact_at. intros Ho Hn E%ok_or_ok.
  pose proof (slice_length _ _ _ _ E) as Hl. unfold slice in E. case_match eqn:Hle; [|done].
  apply Nat.leb_le in Hle. simplify_eq.
  exists (take (Z.to_nat off) src), (drop (Z.to_nat n) (drop (Z.to_nat off) src)).
  rewrite take_drop, take_drop. unfold lenZ. rewrite !length_take, length_drop.
  split_and!; [done|lia..].
Qed.

Lemma EntryType_try_from_ok t t' : EntryType_try_from t = Ok t' -> t = EntryType_u8 t'.
Proof. unfold EntryType_try_from. repeat case_if; intros; simplify_eq; done. Qed.

Lemma jio_ok {A} (m : outcome LogTail.ReadError A) a : jio m = Ok a <-> m = Ok a.
Proof. destruct m; cbn; naive_solver. Qed.

(** One entry [scan] takes, at [lenZ pre]. *)
Lemma scanned_entry f off len n b t e r t' :
  0 <= off -> entry_len_at f off (len - off) = Ok (Some n) ->
  LogTail.read_exact_at f n off = Ok b -> read_raw b = Ok (t, e, r) ->
  checksum e = checksum_with_type e t -> EntryType_try_from t = Ok t' ->
  good (with_type t' e) /\ norm (with_type t' e) = with_type t' e /\
  n = lenZ (serialize (with_type t' e)) /\
  exists pre rest, f = pre ++ serialize (with_type t' e) ++ rest /\ lenZ pre = off.
Proof.
  intros Ho Hn Hb Hr Hc Ht. pose proof (entry_len_at_some _ _ _ _ Hn) as Hnb.
  apply read_exact_at_some in Hb as (pre & rest & -> & Hpre & Hbl); [|lia..].
  apply EntryType_try_from_ok in Ht as ->.
  apply read_raw_inv in Hr as (Hw & Hne & Ht & ? & ? & ? & ? & ? & Hvl & Hdl & Hb).
  assert (b = layout (EntryType_u8 t') e ++ r) as ->.
  { rewrite Hb. unfold layout, data_bytes. destruct (data e); by rewrite <- ?app_assoc. }
  clear Hb. rewrite lenZ_app in Hbl. pose proof (lenZ_nonneg r).
  assert (lenZ (data_bytes e) < 2 ^ 32) as Hd32.
  { unfold data_bytes. destruct (data e) eqn:E; [by apply Hdl|done]. }
  rewrite <- Hpre in Hn at 1. rewrite <- app_assoc in Hn.
  rewrite entry_len_at_layout in Hn by (done || lia).
  destruct (Z.ltb_spec MAX_ENTRY_DATA (lenZ (data_bytes e))); simplify_eq.
  assert (r = []) as -> by (apply lenZ_nil_inv; lia).
  assert (serialize (with_type t' e) = layout (EntryType_u8 t') e) as Hs
    by (rewrite serialize_layout; done).
  rewrite Hs. split_and!; try done.
  - split; [|done]. split; try done. cbn. intros d Ed. unfold data_bytes in *.
    rewrite Ed in *. lia.
  - unfold norm, with_type. cbn. by destruct (data e) as [[]|].
  - exists pre, rest. by rewrite app_nil_r.
Qed.

Lemma scan_from_canonical fuel f len : forall off es stop,
  0 <= off <= len -> scan_from fuel f len off = Ok (es, stop) ->
  Forall good es /\ map norm es = es /\
  off <= stop <= len /\ stop = off + lenZ (entries_bytes es) /\
  (es <> [] -> exists pre rest, f = pre ++ entries_bytes es ++ rest /\ lenZ pre = off).
Proof.
  assert (forall off, 0 <= off <= len ->
    Forall good [] /\ map norm [] = [] /\ off <= Z.min off len <= len /\
    Z.min off len = off + lenZ (entries_bytes []) /\
    (@nil JournalEntry <> [] -> exists pre rest, f = pre ++ entries_bytes [] ++ rest /\ lenZ pre = off))
    as Hnil.
  { intros off Ho. split_and!; try done; try lia. unfold entries_bytes, lenZ. cbn. lia. }
  induction fuel as [|fuel IH]; intros off es stop Ho H; cbn [scan_from] in H.
  { simplify_eq. by apply Hnil. }
  case_if; [|simplify_eq; by apply Hnil].
  inv_ok. apply jio_ok in H. destruct x as [n|]; [|simplify_eq; by apply Hnil].
  inv_ok. apply jio_ok in H0.
  destruct (read_raw x) as [[[t e] r]|?|] eqn:Er; [|simplify_eq; by apply Hnil..].
  case_if; [simplify_eq; by apply Hnil|].
  destruct (EntryType_try_from t) as [t'|?|] eqn:Et; try done. inv_ok. simplify_eq.
  destruct (scanned_entry f off len n x t e r t') as (Hg & Hnm & -> & pre & rest & -> & <-);
    [lia|done..|].
  pose proof (entry_len_at_some _ _ _ _ H).
  apply IH in H1 as (Hgs & Hns & Hb & -> & Hsplit); [|lia].
  split_and!; [by constructor|cbn; by rewrite Hnm, Hns|lia|lia| |].
  - unfold entries_bytes. cbn [map concat]. rewrite lenZ_app. lia.
  - intros _. unfold entries_bytes in *. cbn [map concat].
    destruct l as [|e' l'].
    + exists pre, rest. cbn. by rewrite app_nil_r.
    + destruct Hsplit as (pre' & rest' & Hf & Hl'); [done|].
      exists pre, rest'. split; [|done]. rewrite Hf.
      assert (pre' = pre ++ serialize (with_type t' e)) as ->.
      { rewrite app_assoc in Hf. apply app_inj_1 in Hf as [-> _]; [done|].
        unfold lenZ in Hl'. rewrite length_app. unfold lenZ in *. lia. }
      by rewrite <- !app_assoc.
Qed.

Lemma recover_whole j hd es junk :
  lenZ hd = HEADER_LEN -> Forall good es -> file j = hd ++ entries_bytes es ++ junk ->
  current_size j = HEADER_LEN + lenZ (entries_bytes es) ->
  recover j = Ok (replay (map norm es)).
Proof.
  intros Hh Hg Hf Hc. unfold recover. rewrite Hf.
  rewrite (scan_whole hd es junk) by done. cbn [mbind outcome_bind].
  by rewrite Z.ltb_irrefl.
Qed.

(** What an open that succeeds leaves: a header, whole entries and nothing
    after them; [recover] then gives the writes of those entries. *)
Lemma open_canonical d max j :
  0 < lenZ (d_file d) -> open (Some d) max = Ok j ->
  exists hd es, lenZ hd = HEADER_LEN /\ Forall good es /\ map norm es = es /\
    file j = hd ++ entries_bytes es /\ current_size j = lenZ (file j) /\
    scan (d_file d) (lenZ (d_file d)) = Ok (es, current_size j) /\
    recover j = Ok (replay es).
Proof.
  intros Hl Ho. unfold open in Ho. destruct (Z.ltb_spec 0 (lenZ (d_file d))); [|lia].
  apply outcome_bind_ok in Ho as ([seq ck] & Hr & Ho).
  apply outcome_bind_ok in Ho as ([es stop] & Hs & Ho).
  assert (HEADER_LEN <= lenZ (d_file d)) as Hh.
  { clear Ho Hs. unfold read_header, eof in Hr. inv_ok. case_if; [done|]. inv_ok.
    case_if; [done|]. inv_ok.
    repeat match goal with H : read_le _ _ = Some _ |- _ => apply read_le_some in H as [? _] end.
    subst. match goal with H : d_file d = _ |- _ => rewrite H end.
    rewrite !lenZ_app, !lenZ_to_le. pose proof (lenZ_nonneg l2). unfold HEADER_LEN. lia. }
  pose proof Hs as Hs'. unfold scan in Hs'.
  apply scan_from_canonical in Hs' as (Hg & Hn & Hb & Hstop & Hsplit);
    [|unfold HEADER_LEN in *; lia].
  assert (exists hd, lenZ hd = HEADER_LEN /\
    take (Z.to_nat stop) (d_file d) = hd ++ entries_bytes es) as (hd & Hhd & Htake).
  { destruct es as [|e es'].
    - exists (take (Z.to_nat HEADER_LEN) (d_file d)).
      unfold lenZ, HEADER_LEN in *. rewrite length_take. cbn in Hstop. split; [lia|].
      cbn. rewrite app_nil_r. f_equal. lia.
    - destruct Hsplit as (pre & rest & Hf & Hp); [done|]. exists pre. split; [done|].
      rewrite Hf, app_assoc. apply take_app_length'.
      unfold lenZ, HEADER_LEN in *. rewrite length_app. lia. }
  exists hd, es. destruct (Z.ltb_spec stop (lenZ (d_file d))); inv_ok; cbn [file current_size].
  - split_and!; try done; [by rewrite Htake, lenZ_app, Hhd|].
    erewrite (recover_whole _ hd es []); [by rewrite Hn|done|done| |done].
    cbn [file]. by rewrite Htake, app_nil_r.
  - rewrite take_ge in Htake by (unfold lenZ in *; lia).
    split_and!; try done; [by rewrite Htake, lenZ_app, Hhd|].
    erewrite (recover_whole _ hd es []); [by rewrite Hn|done|done| |done].
    cbn [file]. by rewrite Htake, app_nil_r.
Qed.

(** A journal entry's bytes read back as the entry, whatever follows
    them (empty data reads back as none); and whatever bytes are read as an
    entry are exactly the bytes that entry serializes to. *)
Theorem entry_roundtrip (e : JournalEntry) (r rest : bytes) :
  (entry_ok e -> deserialize (serialize e ++ rest) = Ok (norm e, rest)) /\
  (deserialize r = Ok (e, rest) -> r = serialize e ++ rest).
Proof.
  split.
  - intros Hok. unfold deserialize. rewrite read_raw_serialize by done.
    cbn [mbind outcome_bind]. by rewrite EntryType_try_from_u8.
  - unfold deserialize. intros E. apply outcome_bind_ok in E as ([[t e'] r'] & Hr & E).
    apply outcome_bind_ok in E as (t' & Ht & E). simplify_eq.
    apply EntryType_try_from_ok in Ht as ->.
    apply read_raw_inv in Hr as (_ & _ & _ & _ & _ & _ & _ & _ & _ & _ & ->).
    rewrite serialize_layout. unfold layout, data_bytes. cbn.
    destruct (data e'); by rewrite <- ?app_assoc.
Qed.

(** A journal that opens holds a header and whole, checksummed entries,
    byte for byte, and nothing after them; recovery then succeeds and gives
    the writes since the last checkpoint among exactly those entries, in
    file order. *)
Theorem open_recover (d : Disk) (max : Z) (j : WriteJournal) :
  0 < lenZ (d_file d) -> open (Some d) max = Ok j ->
  exists hd es, lenZ hd = HEADER_LEN /\ Forall good es /\
    file j = hd ++ entries_bytes es /\ current_size j = lenZ (file j) /\
    file j = take (length (file j)) (d_file d) /\ recover j = Ok (replay es).
Proof.
  intros Hl Ho.
  destruct (open_canonical d max j Hl Ho) as (hd & es & Hh & Hg & _ & Hf & Hc & Hs & Hr).
  exists hd, es. split_and!; try done.
  unfold open in Ho. destruct (Z.ltb_spec 0 (lenZ (d_file d))); [|lia].
  apply outcome_bind_ok in Ho as ([seq ck] & _ & Ho). rewrite Hs in Ho.
  cbn [mbind outcome_bind] in Ho.
  destruct (Z.ltb_spec (current_size j) (lenZ (d_file d))).
  - apply outcome_bind_ok in Ho as (_ & _ & Ho). injection Ho as Hj.
    rewrite <- Hj at 1. cbn [file]. f_equal. rewrite Hc. unfold lenZ. lia.
  - injection Ho as <-. cbn [file]. by rewrite take_ge.
Qed.

End entries.

Definition ex_entry : JournalEntry := @entry_write castagnoli 5 "vol" 2 100 [Byte.x61; Byte.x62].

Lemma ex_entry_good : @good castagnoli ex_entry.
Proof.
  split; [|by vm_compute].
  split; cbn [sequence entry_chunk_id offset checksum volume_id data ex_entry entry_write
              with_checksum].
  - by vm_compute.
  - by vm_compute.
  - by vm_compute.
  - apply (@crc32c_u32 castagnoli).
  - by apply ascii_rust_string.
  - by vm_compute.
  - intros d [= <-]. by vm_compute.
Qed.

Lemma entry_roundtrip_witness :
  (entry_ok ex_entry -> deserialize (serialize ex_entry ++ [Byte.x00]) =
     Ok (norm ex_entry, [Byte.x00])) /\
  (deserialize (serialize ex_entry) = Ok (ex_entry, []) ->
     serialize ex_entry = serialize ex_entry ++ []) /\
  deserialize (serialize ex_entry) = Ok (ex_entry, []) /\ entry_ok ex_entry.
Proof.
  split; [apply (entry_roundtrip ex_entry [] [Byte.x00])|].
  split; [apply (entry_roundtrip ex_entry (serialize ex_entry) [])|].
  split; [by vm_compute|apply ex_entry_good].
Defined.

(** A journal of one entry with a torn tail, and what its open leaves. *)
Definition ex_torn : Disk :=
  mkDisk (header 5 5 ++ serialize ex_entry ++ [Byte.x01; Byte.x02]) 0.
Definition ex_opened : WriteJournal :=
  mkJournal (header 5 5 ++ serialize ex_entry) 68 5 5 0 5 1000 68 false.

Lemma open_recover_witness :
  exists hd es, lenZ hd = HEADER_LEN /\ Forall (@good castagnoli) es /\
    file ex_opened = hd ++ entries_bytes es /\
    current_size ex_opened = lenZ (file ex_opened) /\
    file ex_opened = take (length (file ex_opened)) (d_file ex_torn) /\
    @recover castagnoli ex_opened = Ok (replay es).
Proof. apply (@open_recover castagnoli ex_torn 1000 ex_opened); by vm_compute. Defined.

(** ** Errors *)

(** Fail-stop. A failed append on a journal whose size counter is its
    file's length leaves the journal exactly as it was (too large an entry,
    no space, a journal failed before) or marks it failed; and a failed
    journal refuses every append, rotation and sync of an entry not yet
    synced, and never changes. *)
Theorem append_fail_stop (w : disk_write) (e : JournalEntry) (j j' : WriteJournal) (x : BlockError) :
  current_size j = lenZ (file j) -> append w e j = (j', Err x) ->
  (failed j' = false -> j' = j /\ (too_large e = true \/ x = Io OutOfSpace)) /\
  (failed j' = true ->
     (forall w2 e2, exists y, append w2 e2 j' = (j', Err y)) /\
     (forall d, exists y, rotate d j' = (j', Err y)) /\
     (forall d upto, sync_to d upto j' =
        (j', if upto <=? synced j' then Ok () else Err (Journal JFailedEarlier)))).
Proof.
  intros Hc Ha. split; intros Hf.
  - unfold append in Ha. destruct (too_large e); [simplify_eq; auto|].
    destruct (failed j) eqn:Ef; [simplify_eq; congruence|].
    destruct w as [|k ie cf]; [done|]. unfold write_failed, fail in Ha.
    destruct ie; simplify_eq; try (cbn in Hf; congruence).
    destruct (_ || cf); simplify_eq. split; [|by right].
    cbn. rewrite Hc. unfold lenZ. rewrite Nat2Z.id, take_app_length.
    unfold set_file. destruct j; cbn in *. by rewrite Ef.
  - split_and!.
    + intros w2 e2. unfold append. rewrite Hf. destruct (too_large e2); eauto.
    + intros d. unfold rotate. rewrite Hf. eauto.
    + intros d upto. unfold sync_to. rewrite Hf. by case_if.
Qed.

Lemma append_fail_stop_witness :
  exists j', append (WFails 5 OutOfSpace false) ex_entry ex_opened = (j', Err (Io OutOfSpace))
    /\ j' = ex_opened.
Proof.
  eexists. split; [by vm_compute|].
  refine (proj1 (proj1 (append_fail_stop (WFails 5 OutOfSpace false) ex_entry ex_opened _
    (Io OutOfSpace) _ _) _)); by vm_compute.
Defined.

End Journal.
