(* ===== verification/JournalCrash.v ===== *)
(** * Durability of the journal across crashes

    The journal's operations as steps of a state machine, with disk failures
    at any step and a group-commit fsync that runs while entries are
    appended (crates/block/src/journal.rs, [append] / [sync_to] / [rotate]).
    A crash keeps the stable bytes of the file and puts anything after them.
    The invariant is that an entry numbered below [synced] lies in the
    stable bytes. *)

From S2P Require Import Prelude Bytes Crc Chunk Volume LogTail Journal.

Module JournalCrash.
Import Journal.

Section machine.
Context {CRC : Crc32c}.

#[local] Arguments entries_bytes : simpl never.

(** The journal, with the header and the entries of its current file, how
    far an entry's index in the file is ahead of its number ([skew]), and
    the fsync under way, as (its target, the bytes it covers). *)
Record jstate := mkJS {
  jr : WriteJournal;
  hd : bytes;
  written : list JournalEntry;
  skew : Z;
  inflight : option (Z * Z);
}.

(** Bytes of the file up to and with its [n]th entry. *)
Definition size_upto (s : jstate) (n : nat) : Z :=
  HEADER_LEN + lenZ (entries_bytes (take n (written s))).

(** An entry as a caller hands it over, numbered by the journal. *)
Definition numbered (e : JournalEntry) (j : WriteJournal) : Prop :=
  sequence e = j_sequence j /\ is_u64 (entry_chunk_id e) /\ is_u64 (offset e) /\
  rust_string (volume_id e) /\ checksum e = compute_checksum e.

(** The counters are 64 bits wide and do not run out. *)
Definition counters_fit (e : JournalEntry) (j : WriteJournal) : Prop :=
  j_sequence j + 1 < two64 /\ current_size j + lenZ (serialize e) < two64.

(** Whether a rotation gets as far as putting the new file in place. *)
Definition renames (d : disk_rotate) (j : WriteJournal) : bool :=
  negb (failed j) && match d with RFailsBefore => false | _ => true end.

Inductive jstep : jstate -> jstate -> Prop :=
| step_append s w e j' r :
    numbered e (jr s) -> counters_fit e (jr s) ->
    append w e (jr s) = (j', r) ->
    jstep s (mkJS j' (hd s) (if is_ok r then written s ++ [e] else written s)
               (skew s) (inflight s))
| step_rotate s d j' r :
    inflight s = None -> rotate d (jr s) = (j', r) ->
    jstep s (if renames d (jr s)
             then mkJS j' (header (j_sequence (jr s)) (j_sequence (jr s))) []
                    (- j_sequence (jr s)) None
             else mkJS j' (hd s) (written s) (skew s) None)
| step_sync_start s upto :
    inflight s = None -> synced (jr s) < upto -> failed (jr s) = false ->
    jstep s (mkJS (jr s) (hd s) (written s) (skew s)
               (Some (j_sequence (jr s), lenZ (file (jr s)))))
| step_sync_finish s d t c j' r :
    inflight s = Some (t, c) -> sync_finish t c d (jr s) = (j', r) ->
    jstep s (mkJS j' (hd s) (written s) (skew s) None).

(** ** The invariant *)

Record jinv (s : jstate) : Prop := mkinv {
  inv_hd : lenZ (hd s) = HEADER_LEN;
  inv_good : Forall good (written s);
  inv_seq_u64 : is_u64 (j_sequence (jr s));
  inv_file : exists junk, file (jr s) = hd s ++ entries_bytes (written s) ++ junk /\
               (failed (jr s) = false -> junk = []);
  inv_size : current_size (jr s) = HEADER_LEN + lenZ (entries_bytes (written s));
  inv_seq : j_sequence (jr s) + skew s = Z.of_nat (length (written s));
  inv_synced_le : synced (jr s) <= j_sequence (jr s);
  inv_synced : forall n, 0 < Z.of_nat n <= synced (jr s) + skew s ->
                 size_upto s n <= stable (jr s);
  inv_flight : forall t c, inflight s = Some (t, c) ->
                 t <= j_sequence (jr s) /\
                 forall n, 0 < Z.of_nat n <= t + skew s -> size_upto s n <= c;
}.

Lemma size_upto_mono s n m : (n <= m)%nat -> size_upto s n <= size_upto s m.
Proof.
  intros Hnm. unfold size_upto.
  assert (take m (written s) = take n (written s) ++ drop n (take m (written s))) as E.
  { rewrite <- (take_drop n (take m (written s))) at 1. f_equal.
    rewrite take_take. f_equal. lia. }
  rewrite E, entries_bytes_app, lenZ_app. pose proof (lenZ_nonneg (entries_bytes
    (drop n (take m (written s))))). lia.
Qed.

Lemma good_append e j :
  numbered e j -> is_u64 (j_sequence j) -> too_large e = false -> good e.
Proof.
  intros (Hs & Hc & Ho & Hv & Hk) Hu Ht. unfold too_large in Ht. bool_to_prop.
  split; [|done]. split; try done.
  - by rewrite Hs.
  - rewrite Hk. apply crc32c_u32.
  - intros d Hd. rewrite Hd in *. by bool_to_prop.
Qed.

(** What an append leaves, by how it ends. *)
Lemma append_cases w e j j' r :
  counters_fit e j -> 0 <= j_sequence j -> 0 <= current_size j ->
  append w e j = (j', r) ->
  (is_ok r = true /\ too_large e = false /\ failed j = false /\
     r = Ok (j_sequence j) /\ file j' = file j ++ serialize e /\ failed j' = false /\
     j_sequence j' = j_sequence j + 1 /\ current_size j' = current_size j + lenZ (serialize e)
     /\ synced j' = synced j /\ stable j' = stable j) \/
  (is_ok r = false /\ j_sequence j' = j_sequence j /\ current_size j' = current_size j /\
     synced j' = synced j /\ stable j' = stable j /\
     (file j' = file j /\ failed j' = failed j \/
      failed j = false /\ exists k,
        file j' = file j ++ take k (serialize e) /\ failed j' = true \/
        file j' = take (Z.to_nat (current_size j)) (file j ++ take k (serialize e)) /\
          failed j' = false)).
Proof.
  intros [Hc1 Hc2] Hs Hz H. unfold append in H.
  pose proof (lenZ_nonneg (serialize e)).
  destruct (too_large e) eqn:Et; [simplify_eq; right; cbn; naive_solver|].
  destruct (failed j) eqn:Ef; [simplify_eq; right; cbn; naive_solver|].
  destruct w as [|k ie cf]; simplify_eq; cbn.
  - left. rewrite !wadd64_small by lia. done.
  - right. unfold write_failed, fail in H.
    destruct ie; [..|destruct (_ || cf)|]; simplify_eq; cbn; eauto 15.
Qed.

Lemma entries_bytes_snoc es e : entries_bytes (es ++ [e]) = entries_bytes es ++ serialize e.
Proof. rewrite entries_bytes_app. unfold entries_bytes at 2. cbn. by rewrite app_nil_r. Qed.

Lemma jinv_append s w e j' r :
  jinv s -> numbered e (jr s) -> counters_fit e (jr s) -> append w e (jr s) = (j', r) ->
  jinv (mkJS j' (hd s) (if is_ok r then written s ++ [e] else written s)
          (skew s) (inflight s)).
Proof.
  intros I Hn Hc Ha. destruct I as [Ihd Ig Iu [junk [If Ij]] Isz Isq Isl Isy Ifl].
  pose proof (lenZ_nonneg (entries_bytes (written s))).
  pose proof Hc as [Hc1 Hc2].
  destruct (append_cases w e (jr s) j' r Hc) as [Hok|Herr]; [destruct Iu; lia| |done|..].
  { rewrite Isz. unfold HEADER_LEN. lia. }
  - destruct Hok as (-> & Htl & Hf & -> & Hfile & Hf' & Hq & Hcs & Hsy & Hst).
    rewrite (Ij Hf), app_nil_r in If.
    assert (forall n, Z.of_nat n <= Z.of_nat (length (written s)) ->
      take n (written s ++ [e]) = take n (written s)) as Htake
      by (intros; rewrite take_app_le; [done|lia]).
    split; cbn; rewrite ?Hq, ?Hcs, ?Hsy, ?Hst; try done.
    + apply Forall_app. split; [done|]. apply Forall_singleton. by eapply good_append.
    + destruct Iu. unfold is_u64 in *. lia.
    + exists []. by rewrite Hfile, If, entries_bytes_snoc, !app_nil_r, <- app_assoc.
    + rewrite Isz, entries_bytes_snoc, lenZ_app. lia.
    + rewrite length_app. cbn. lia.
    + lia.
    + intros n Hn'. unfold size_upto in *. cbn. rewrite Htake by lia. by apply Isy.
    + intros t c Hi. destruct (Ifl t c Hi) as [Ht Hcov]. split; [lia|].
      intros n Hn'. unfold size_upto in *. cbn. rewrite Htake by lia. by apply Hcov.
  - destruct Herr as (-> & Hq & Hcs & Hsy & Hst & Hcase).
    split; cbn; rewrite ?Hq, ?Hcs, ?Hsy, ?Hst; try done.
    destruct Hcase as [[-> ->]|(Hf & k & [[-> ->]|[-> ->]])]; [eauto|..].
    + exists (junk ++ take k (serialize e)). rewrite If, <- !app_assoc. done.
    + exists []. split; [|done]. rewrite (Ij Hf), app_nil_r in If. rewrite app_nil_r.
      rewrite If, take_app_length'; [done|]. rewrite Isz, length_app.
      unfold lenZ in *. lia.
Qed.

Lemma jinv_rotate s d j' r :
  jinv s -> inflight s = None -> rotate d (jr s) = (j', r) ->
  jinv (if renames d (jr s)
        then mkJS j' (header (j_sequence (jr s)) (j_sequence (jr s))) []
               (- j_sequence (jr s)) None
        else mkJS j' (hd s) (written s) (skew s) None).
Proof.
  intros I Hi Hr. destruct s as [j h ws sk fl]; cbn in *. subst fl.
  unfold rotate, renames, fail in *. pose proof I as [Ihd Ig Iu If Isz Isq Isl Isy Ifl]; cbn in *.
  destruct (failed j) eqn:Ef; [by simplify_eq|].
  destruct d; cbn in *; simplify_eq; cbn in *; [| |]; try done.
  all: split; cbn; try done.
  all: try apply header_length.
  all: try (by constructor).
  all: try (exists []; by rewrite ?app_nil_r).
  all: try lia.
Qed.

Lemma jinv_sync_start s upto :
  jinv s -> synced (jr s) < upto -> failed (jr s) = false ->
  jinv (mkJS (jr s) (hd s) (written s) (skew s) (Some (j_sequence (jr s), lenZ (file (jr s))))).
Proof.
  intros I Hu Hf. pose proof I as [Ihd Ig Iu [junk [If Ij]] Isz Isq Isl Isy Ifl].
  split; cbn; eauto. intros t c [= <- <-]. split; [lia|]. intros n Hn.
  transitivity (size_upto s (length (written s))).
  - apply (size_upto_mono s). lia.
  - unfold size_upto. rewrite firstn_all. rewrite If, !lenZ_app, Ihd.
    pose proof (lenZ_nonneg junk). lia.
Qed.

Lemma jinv_sync_finish s d t c j' r :
  jinv s -> inflight s = Some (t, c) -> sync_finish t c d (jr s) = (j', r) ->
  jinv (mkJS j' (hd s) (written s) (skew s) None).
Proof.
  intros I Hi Hr. pose proof I as [Ihd Ig Iu [junk [If Ij]] Isz Isq Isl Isy Ifl].
  destruct (Ifl t c Hi) as [Ht Hc].
  unfold sync_finish, fail in Hr. destruct d; simplify_eq; split; cbn; eauto; try done.
  - lia.
  - intros n Hn. unfold size_upto in *. cbn in *.
    destruct (Z.le_gt_cases (Z.of_nat n) (t + skew s)); [specialize (Hc n)|specialize (Isy n)]; lia.
  - exists junk. split; [done|]. done.
Qed.

Lemma jinv_step s s' : jinv s -> jstep s s' -> jinv s'.
Proof.
  intros I H. destruct H.
  - by eapply jinv_append.
  - by eapply jinv_rotate.
  - by eapply jinv_sync_start.
  - by eapply jinv_sync_finish.
Qed.

Lemma jinv_steps s s' : rtc jstep s s' -> jinv s -> jinv s'.
Proof. induction 1; eauto using jinv_step. Qed.

(** ** A journal that was just opened *)

(** The state of a process that opened its journal: everything [open] keeps
    counts as appended before this session's first entry. *)
Definition start (j : WriteJournal) : jstate :=
  let es := match scan (file j) (current_size j) with Ok (es, _) => es | _ => [] end in
  mkJS j (take (Z.to_nat HEADER_LEN) (file j)) es
    (Z.of_nat (length es) - j_sequence j) None.

(** What the machine holds after a restart is on stable storage. *)
Definition restarted (disk : option Disk) : Prop :=
  match disk with Some d => lenZ (d_file d) <= d_stable d | None => True end.

Lemma read_header_u64 f s c : read_header f = Ok (s, c) -> is_u64 s.
Proof.
  unfold read_header, eof. intros H. inv_ok. case_if; [done|]. inv_ok.
  case_if; [done|]. inv_ok. simplify_eq.
  match goal with H : read_le 8 _ = Some (s, _) |- _ => apply read_le_some in H as [_ Hb] end.
  unfold is_u64, two64 in *. cbn in Hb. lia.
Qed.

Lemma start_file j h es :
  lenZ h = HEADER_LEN -> Forall good es -> map norm es = es ->
  file j = h ++ entries_bytes es -> current_size j = lenZ (file j) ->
  start j = mkJS j h es (Z.of_nat (length es) - j_sequence j) None.
Proof.
  intros Hh Hg Hn Hf Hc. unfold start.
  pose proof (scan_whole h es [] (current_size j) Hh Hg) as Hs.
  rewrite app_nil_r, <- Hf, Hn in Hs.
  rewrite Hs by (by rewrite Hc, Hf, lenZ_app, Hh).
  rewrite Hf, take_app_length' by (unfold lenZ in *; lia). done.
Qed.

Lemma jinv_opened j h es :
  lenZ h = HEADER_LEN -> Forall good es -> map norm es = es ->
  file j = h ++ entries_bytes es -> current_size j = lenZ (file j) ->
  is_u64 (j_sequence j) -> synced j = j_sequence j -> lenZ (file j) <= stable j ->
  jinv (start j).
Proof.
  intros Hh Hg Hn Hf Hc Hu Hs Hst. rewrite (start_file j h es) by done.
  split; cbn; try done; try lia.
  - exists []. by rewrite app_nil_r.
  - by rewrite Hc, Hf, lenZ_app, Hh.
  - intros n [_ Hle]. transitivity (size_upto (start j) (length es)).
    + rewrite (start_file j h es) by done. unfold size_upto at 1 2. cbn.
      apply (size_upto_mono (mkJS j h es 0 None)). lia.
    + rewrite (start_file j h es) by done. unfold size_upto. cbn. rewrite firstn_all.
      by rewrite <- Hh, <- lenZ_app, <- Hf.
Qed.

Lemma jinv_start disk max j : restarted disk -> open disk max = Ok j -> jinv (start j).
Proof.
  intros Hr Ho.
  assert (open None max = Ok j -> jinv (start j)) as Hnone.
  { intros [= <-]. by apply (jinv_opened _ (header 0 0) []). }
  destruct disk as [d|]; [|by apply Hnone].
  destruct (Z.ltb_spec 0 (lenZ (d_file d))) as [Hl|Hl].
  2:{ apply Hnone. unfold open in *. by rewrite (proj2 (Z.ltb_ge _ _)) in Ho. }
  destruct (open_canonical d max j Hl Ho) as (h & es & Hh & Hg & Hn & Hf & Hc & Hs & _).
  unfold open in Ho. rewrite (proj2 (Z.ltb_lt _ _) Hl) in Ho.
  apply outcome_bind_ok in Ho as ([seq ck] & Hrh & Ho). apply read_header_u64 in Hrh.
  rewrite Hs in Ho. cbn [mbind outcome_bind] in Ho.
  assert (is_u64 (j_sequence j) /\ synced j = j_sequence j /\ lenZ (file j) <= stable j)
    as (? & ? & ?); [|by apply (jinv_opened j h es)].
  destruct (Z.ltb_spec (current_size j) (lenZ (d_file d)));
    [apply outcome_bind_ok in Ho as (_ & _ & Ho)|];
    injection Ho as Ho; pose proof (f_equal stable Ho); pose proof (f_equal synced Ho);
    pose proof (f_equal j_sequence Ho); pose proof (f_equal file Ho); cbn in *;
    split_and!; try congruence; try lia; by subst seq.
Qed.

(** ** After a crash *)

(** What the next process may find: the stable bytes of the file, and after
    them whatever the crash left. *)
Definition crashed (j : WriteJournal) (tail : bytes) : Disk :=
  let f := take (Z.to_nat (stable j)) (file j) ++ tail in mkDisk f (lenZ f).

(** How many entries of the file a completed [sync_to] has covered. *)
Definition acked (s : jstate) : nat := Z.to_nat (synced (jr s) + skew s).

Lemma stable_prefix s :
  jinv s -> (0 < acked s)%nat ->
  exists rest, take (Z.to_nat (stable (jr s))) (file (jr s)) =
    hd s ++ entries_bytes (take (acked s) (written s)) ++ rest.
Proof.
  intros [Ihd Ig Iu [junk [If Ij]] Isz Isq Isl Isy Ifl] Hn.
  specialize (Isy (acked s) ltac:(unfold acked in *; lia)). unfold size_upto in Isy.
  set (a := take (acked s) (written s)) in *.
  assert (written s = a ++ drop (acked s) (written s)) as Hw
    by (symmetry; apply take_drop).
  rewrite If, Hw, entries_bytes_app, <- app_assoc.
  pose proof (lenZ_nonneg (entries_bytes a)). unfold lenZ, HEADER_LEN in *.
  rewrite take_app_ge, take_app_ge by lia. eauto.
Qed.

Lemma crash_recovers s tail max j' :
  jinv s -> open (Some (crashed (jr s) tail)) max = Ok j' ->
  exists more, recover j' = Ok (replay (map norm (take (acked s) (written s)) ++ more)).
Proof.
  intros I Ho. destruct (acked s) as [|n] eqn:En.
  - cbn. destruct (Z.ltb_spec 0 (lenZ (d_file (crashed (jr s) tail)))) as [Hl|Hl].
    + apply open_canonical in Ho as (h & es & _ & _ & _ & _ & _ & _ & ->); eauto.
    + unfold open in Ho. rewrite (proj2 (Z.ltb_ge _ _)) in Ho by done.
      injection Ho as <-. exists []. by rewrite (recover_whole _ (header 0 0) [] []).
  - destruct (stable_prefix s I) as [rest Hf]; [lia|]. rewrite En in Hf.
    pose proof I as [Ihd Ig _ _ _ _ _ _ _].
    set (a := take (S n) (written s)) in *.
    assert (Forall good a) as Ha by (by apply Forall_take).
    assert (d_file (crashed (jr s) tail) = hd s ++ entries_bytes a ++ rest ++ tail) as Hd
      by (cbn; by rewrite Hf, <- !app_assoc).
    assert (HEADER_LEN + lenZ (entries_bytes a) <= lenZ (d_file (crashed (jr s) tail))) as Hl.
    { rewrite Hd, !lenZ_app, Ihd. pose proof (lenZ_nonneg rest).
      pose proof (lenZ_nonneg tail). lia. }
    apply open_canonical in Ho as (h & es & _ & _ & _ & _ & _ & Hs & ->).
    2:{ pose proof (lenZ_nonneg (entries_bytes a)). unfold HEADER_LEN in *. lia. }
    destruct (scan_entries (hd s) a (rest ++ tail) _ Ihd Ha Hl) as [fuel Hsc].
    rewrite Hd in Hs, Hsc. rewrite Hs in Hsc. symmetry in Hsc.
    apply outcome_bind_ok in Hsc as ([es' stop] & _ & Hsc). injection Hsc as <- _. eauto.
Qed.

(** Entries of this session ([first] and on) are numbered by their place. *)
Record numbering (first : Z) (s : jstate) : Prop := mknum {
  num_first : first <= synced (jr s);
  num_seq : forall i e, written s !! i = Some e -> first <= Z.of_nat i - skew s ->
    sequence e = Z.of_nat i - skew s;
}.

Lemma numbering_step first s s' :
  jinv s -> numbering first s -> jstep s s' -> numbering first s'.
Proof.
  intros I [Hf Hn] H. destruct H as [s w e j' r Hnum Hc Ha|s d j' r Hi Hr|s u|s d t c j' r Hi Hs].
  - destruct I as [_ _ [Iu _] _ Isz Isq _ _ _].
    destruct (append_cases w e (jr s) j' r Hc Iu) as [Hok|Herr]; [|done|..].
    { rewrite Isz. pose proof (lenZ_nonneg (entries_bytes (written s))).
      unfold HEADER_LEN. lia. }
    + destruct Hok as (-> & _ & _ & _ & _ & _ & _ & _ & Hsy & _). split; cbn; [by rewrite Hsy|].
      intros i e' Hl Hge. apply lookup_app_Some in Hl as [Hl|[Hge' Hl]]; [by eapply Hn|].
      apply list_lookup_singleton_Some in Hl as [Hi <-]. destruct Hnum as [-> _]. lia.
    + destruct Herr as (-> & _ & _ & Hsy & _). split; cbn; [by rewrite Hsy|done].
  - unfold rotate, renames, fail in *. destruct (failed (jr s)), d; simplify_eq; cbn;
      split; cbn; done.
  - split; cbn; done.
  - unfold sync_finish, fail in *. destruct d; simplify_eq; split; cbn; try done. lia.
Qed.

Lemma numbering_steps first s s' :
  rtc jstep s s' -> jinv s -> numbering first s -> numbering first s'.
Proof. induction 1; eauto using jinv_step, numbering_step. Qed.

Lemma numbering_start disk max j : open disk max = Ok j -> numbering (j_sequence j) (start j).
Proof.
  intros Ho. split.
  - cbn. unfold open in Ho. destruct disk as [d|]; [case_if|]; [|by simplify_eq..].
    inv_ok. case_if; inv_ok; by simplify_eq.
  - intros i e Hl Hge. apply lookup_lt_Some in Hl. cbn in *. lia.
Qed.

Lemma acked_below_synced first s e :
  numbering first s -> e ∈ written s -> sequence e < synced (jr s) ->
  e ∈ take (acked s) (written s).
Proof.
  intros [Hf Hn] [i Hi]%list_elem_of_lookup Hlt. apply list_elem_of_lookup. exists i.
  rewrite lookup_take_lt; [done|]. unfold acked. specialize (Hn i e Hi). lia.
Qed.

(** C7. Group commit keeps what it acknowledged. Take any journal opened
    after a restart, any sequence of appends, failed appends, rotations and
    overlapping fsyncs, and then a crash that keeps only the stable bytes of
    the file and puts any bytes after them. The entries numbered below
    [synced] are a prefix of those in the file; and if the journal opens
    again, they are all recovered, in order and first: recovery is the
    replay of exactly that prefix and whatever whole entries follow. *)
Theorem synced_survives_crash (disk : option Disk) (max max' : Z) (j j' : WriteJournal)
    (s : jstate) (tail : bytes) :
  restarted disk -> open disk max = Ok j -> rtc jstep (start j) s ->
  open (Some (crashed (jr s) tail)) max' = Ok j' ->
  (forall e, e ∈ written s -> sequence e < synced (jr s) -> e ∈ take (acked s) (written s)) /\
  exists more, recover j' = Ok (replay (map norm (take (acked s) (written s)) ++ more)).
Proof.
  intros Hr Ho Hs Ho'. pose proof (jinv_start disk max j Hr Ho) as I. split.
  - intros e. apply (acked_below_synced (j_sequence j)).
    eauto using numbering_steps, numbering_start.
  - apply (crash_recovers s tail max'); [|done]. by eapply jinv_steps.
Qed.

(** ** A torn last entry *)

Lemma read_exact_at_take src n off k :
  0 <= off -> 0 <= n -> off + n <= k -> k <= lenZ src ->
  LogTail.read_exact_at (take (Z.to_nat k) src) n off = LogTail.read_exact_at src n off.
Proof.
  unfold lenZ. intros. unfold LogTail.read_exact_at.
  rewrite !slice_some by (rewrite ?length_take; lia). f_equal. f_equal.
  rewrite skipn_firstn_comm, take_take. f_equal. lia.
Qed.

(** What an entry's length looks like when the log ends early. *)
Lemma entry_len_at_cut src off rem rem' n :
  0 <= off -> 0 <= rem <= rem' -> off + rem' <= lenZ src ->
  entry_len_at src off rem' = Ok (Some n) -> rem < n ->
  entry_len_at (take (Z.to_nat (off + rem)) src) off rem = Ok None.
Proof.
  unfold entry_len_at. intros Ho Hr Hl Hn Hlt.
  change MIN_ENTRY with 35 in *. change ENTRY_PREFIX with 11 in *.
  change (11 + ENTRY_MIDDLE - 4) with 27 in *.
  destruct (Z.ltb_spec rem 35); [done|].
  destruct (Z.ltb_spec rem' 35); [done|].
  rewrite read_exact_at_take by lia.
  apply outcome_bind_ok in Hn as (prefix & -> & Hn). cbn [mbind outcome_bind].
  pose proof (from_le_bound (take 2 (drop 9 prefix))).
  match goal with |- context [if ?c then _ else _] => destruct c eqn:E1 end; [done|].
  destruct (_ <? _) in Hn; [done|]. bool_to_prop.
  rewrite read_exact_at_take by lia.
  apply outcome_bind_ok in Hn as (dl & -> & Hn). cbn [mbind outcome_bind].
  destruct (MAX_ENTRY_DATA <? from_le dl); [done|].
  destruct (_ <=? rem') in Hn; simplify_eq. f_equal.
  by rewrite (proj2 (Z.leb_gt _ _)).
Qed.

Lemma scan_torn hd es e k :
  lenZ hd = HEADER_LEN -> Forall good es -> good e -> 0 <= k < lenZ (serialize e) ->
  let f := hd ++ entries_bytes es ++ take (Z.to_nat k) (serialize e) in
  scan f (lenZ f) = Ok (map norm es, HEADER_LEN + lenZ (entries_bytes es)).
Proof.
  intros Hh Hg He Hk f. set (tail := take (Z.to_nat k) (serialize e)) in *.
  assert (lenZ tail = k) as Ht by (unfold tail, lenZ in *; rewrite length_take; lia).
  assert (lenZ f = HEADER_LEN + lenZ (entries_bytes es) + k) as Hf
    by (unfold f; rewrite !lenZ_app, Hh; lia).
  destruct (scan_entries hd es tail (lenZ f) Hh Hg ltac:(lia)) as [fuel Hsc].
  fold f in Hsc. rewrite Hsc. clear Hsc. set (off := HEADER_LEN + lenZ (entries_bytes es)) in *.
  assert (0 <= off) by (unfold off, HEADER_LEN; pose proof (lenZ_nonneg (entries_bytes es)); lia).
  assert (scan_from fuel f (lenZ f) off = Ok ([], off)) as ->; [|cbn; by rewrite app_nil_r].
  destruct fuel as [|fuel]; cbn [scan_from]; [by rewrite Z.min_l by lia|].
  destruct (Z.ltb_spec off (lenZ f)); [|by rewrite Z.min_l by lia].
  destruct He as [Hok _].
  pose proof (entry_len_at_serialize (hd ++ entries_bytes es) e [] (lenZ (serialize e)) Hok
    ltac:(lia)) as Hn.
  rewrite app_nil_r, lenZ_app, Hh in Hn. fold off in Hn.
  assert (f = take (Z.to_nat (off + k)) ((hd ++ entries_bytes es) ++ serialize e)) as Hft.
  { unfold f, tail. rewrite take_app_ge, app_assoc; [f_equal; f_equal|]; rewrite length_app;
      unfold off, lenZ in *; lia. }
  rewrite Hft at 1. rewrite Hf.
  replace (off + k - off) with k by lia.
  rewrite (entry_len_at_cut _ off k (lenZ (serialize e)) (lenZ (serialize e)));
    try done; try lia.
  - cbn. by rewrite Z.min_l by lia.
  - rewrite lenZ_app, lenZ_app, Hh. unfold off. lia.
Qed.

(** No whole entry lies inside the torn bytes: the search that [open] makes
    past them, by its specification, finds nothing. *)
Definition nothing_after (f : bytes) (bad seq : Z) : Prop :=
  LogTail.search PROBE_LEN
    (damage_probe (lenZ f) seq (saturating_add64 seq (lenZ f / MIN_ENTRY)))
    damage_whole f bad (lenZ f) = None.

Lemma damage_probe_nonneg len seq most a h n : damage_probe len seq most a h = Some n -> 0 <= n.
Proof.
  unfold damage_probe. case_if; [done|]. case_if; [done|].
  destruct (entry_len_at h 0 (len - a)) as [[m|]|?|] eqn:E; intros; simplify_eq.
  apply entry_len_at_some in E. lia.
Qed.

(** A journal whose last entry was cut short anywhere always opens, with
    that entry's bytes cut off and every entry before it kept, unless the
    torn bytes hold a whole entry of their own; recovery then gives the
    writes of the whole entries. *)
Theorem torn_journal_opens (seq ck : Z) (es : list JournalEntry) (e : JournalEntry) (k max st : Z) :
  let f := header seq ck ++ entries_bytes es ++ take (Z.to_nat k) (serialize e) in
  let whole := header seq ck ++ entries_bytes es in
  is_u64 seq -> is_u64 ck -> Forall good es -> good e -> 0 < k < lenZ (serialize e) ->
  lenZ f < u64_max -> nothing_after f (lenZ whole) seq ->
  exists j, open (Some (mkDisk f st)) max = Ok j /\ file j = whole /\
    stable j = lenZ whole /\ j_sequence j = seq /\ last_checkpoint j = ck /\
    recover j = Ok (replay (map norm es)).
Proof.
  intros f whole Hs Hc Hg He Hk Hl Hna.
  pose proof (header_length seq ck) as Hh.
  assert (lenZ whole = HEADER_LEN + lenZ (entries_bytes es)) as Hw
    by (unfold whole; by rewrite lenZ_app, Hh).
  pose proof (lenZ_nonneg (entries_bytes es)).
  assert (lenZ f = lenZ whole + k) as Hf.
  { unfold f. rewrite !lenZ_app, Hw, Hh. unfold lenZ in *. rewrite length_take. lia. }
  pose proof (scan_torn (header seq ck) es e k Hh Hg He ltac:(lia)) as Hsc.
  cbn zeta in Hsc. fold f in Hsc. rewrite <- Hw in Hsc.
  assert (refuse_damage f (lenZ whole) (lenZ f) seq = Ok ()) as Hrd.
  { unfold refuse_damage. rewrite LogTail.whole_record_after_search.
    - unfold nothing_after in Hna. by rewrite Hna.
    - by vm_compute.
    - intros ???. apply damage_probe_nonneg.
    - unfold HEADER_LEN in *. lia.
    - done. }
  eexists. unfold open. cbn [d_file]. rewrite (proj2 (Z.ltb_lt 0 (lenZ f)))
    by (unfold HEADER_LEN in *; lia).
  assert (read_header f = Ok (seq, ck)) as -> by (by apply read_header_header). cbn [mbind outcome_bind].
  rewrite Hsc. cbn [mbind outcome_bind].
  rewrite (proj2 (Z.ltb_lt _ _)) by lia. rewrite Hrd. cbn [mbind outcome_bind].
  assert (take (Z.to_nat (lenZ whole)) f = whole) as Htk.
  { unfold f. rewrite app_assoc. fold whole. unfold lenZ. by rewrite Nat2Z.id, take_app_length. }
  split; [done|]. cbn. split_and!; try done.
  apply (recover_whole _ (header seq ck) es []); try done. cbn. by rewrite Htk, app_nil_r.
Qed.

End machine.

(** ** Witnesses *)

(** One write, synced; a second one appended during the fsync, and the crash
    leaves two bytes of it. *)
Definition ex_j0 : WriteJournal := mkJournal (header 0 0) 28 0 0 0 0 1000 28 false.
Definition ex_e0 : JournalEntry := @entry_write castagnoli 0 "vol" 2 100 [Byte.x61].
Definition ex_e1 : JournalEntry := @entry_write castagnoli 1 "vol" 2 101 [Byte.x62].
Definition ex_j1 : WriteJournal := (append WDone ex_e0 ex_j0).1.
Definition ex_j2 : WriteJournal := (append WDone ex_e1 ex_j1).1.
Definition ex_j3 : WriteJournal := (sync_finish 1 (lenZ (file ex_j1)) SDone ex_j2).1.
Definition ex_s3 : jstate := mkJS ex_j3 (header 0 0) [ex_e0; ex_e1] 0 None.
Definition ex_j4 : WriteJournal :=
  mkJournal (file ex_j1) (lenZ (file ex_j1)) 0 0 0 0 1000 (lenZ (file ex_j1)) false.

Lemma ex_reaches : rtc (@jstep castagnoli) (@start castagnoli ex_j0) ex_s3.
Proof.
  eapply rtc_l.
  { eapply (step_append _ WDone ex_e0 ex_j1 (Ok 0)); [|by vm_compute|by vm_compute].
    repeat split; try by vm_compute. by apply ascii_rust_string. }
  eapply rtc_l; [by apply (step_sync_start _ 1)|].
  eapply rtc_l.
  { eapply (step_append _ WDone ex_e1 ex_j2 (Ok 1)); [|by vm_compute|by vm_compute].
    repeat split; try by vm_compute. by apply ascii_rust_string. }
  eapply rtc_l; [by eapply (step_sync_finish _ SDone 1 (lenZ (file ex_j1)) ex_j3 (Ok ()))|].
  apply reflexive_eq. by vm_compute.
Qed.

Lemma synced_survives_crash_witness :
  (forall e, e ∈ written ex_s3 -> sequence e < synced (jr ex_s3) ->
     e ∈ take (acked ex_s3) (written ex_s3)) /\
  exists more, @recover castagnoli ex_j4 =
    Ok (replay (map norm (take (acked ex_s3) (written ex_s3)) ++ more)).
Proof.
  apply (@synced_survives_crash castagnoli None 1000 1000 ex_j0 ex_j4 ex_s3
           [Byte.x01; Byte.x00]).
  - done.
  - by vm_compute.
  - apply ex_reaches.
  - by vm_compute.
Defined.

Lemma torn_journal_opens_witness :
  let f := header 0 0 ++ entries_bytes [ex_entry] ++ take (Z.to_nat 20) (serialize ex_entry) in
  exists j, @open castagnoli (Some (mkDisk f 0)) 1000 = Ok j /\
    file j = header 0 0 ++ entries_bytes [ex_entry] /\
    stable j = lenZ (header 0 0 ++ entries_bytes [ex_entry]) /\ j_sequence j = 0 /\
    last_checkpoint j = 0 /\ @recover castagnoli j = Ok (replay (map norm [ex_entry])).
Proof.
  refine (@torn_journal_opens castagnoli 0 0 [ex_entry] ex_entry 20 1000 0 _ _ _ _ _ _ _).
  - by vm_compute.
  - by vm_compute.
  - apply Forall_singleton, ex_entry_good.
  - apply ex_entry_good.
  - by vm_compute.
  - by vm_compute.
  - vm_compute. reflexivity.
Defined.

End JournalCrash.
