(* ===== verification/Cache.v ===== *)
(** * The write cache (crates/block/src/cache.rs)

    [WriteCache] over the chunk mapping and the journal: a write is logged,
    applied to the dirty chunks it touches, and synced. A chunk the cache
    did not hold is [pending]: only the ranges written count until
    [resolve] merges its stored bytes in. [view] is the volume a cache and
    the stored chunks stand for together; the theorems say that a write
    changes it as a write to a flat array does and that nothing else
    changes it. *)

From S2P Require Import Prelude Bytes Crc Chunk Volume LogTail Journal.

Abbreviation ChunkId := Z.

Module Cache.

(** [DirtyChunk]; an [Instant] is nanoseconds. *)
Record DirtyChunk := mkDirty {
  data : bytes;
  dirty_since : Z;
  last_modified : Z;
  version : Z;
  pending : option (list (Z * Z));
}.

(** [CacheConfig], the fields the operations below read. *)
Record CacheConfig := mkConfig { max_cache_bytes : Z; max_dirty_age : Z }.

Record VolumeCache := mkVC {
  vc_dirty : gmap Z DirtyChunk;
  vc_clean : gmap Z bytes;
  dirty_bytes : Z;
  clean_bytes : Z;
  next_version : Z;
  mapper : Chunk.ChunkMapper;
}.

Definition VolumeCache_new (m : Chunk.ChunkMapper) : VolumeCache := mkVC ∅ ∅ 0 0 0 m.

Record WriteCache := mkCache {
  caches : gmap string VolumeCache;
  chunk_mapper : Chunk.ChunkMapper;
  config : CacheConfig;
  total_dirty_bytes : Z;
  journal : option Journal.WriteJournal;
}.

Definition set_caches (cs : gmap string VolumeCache) (c : WriteCache) : WriteCache :=
  mkCache cs (chunk_mapper c) (config c) (total_dirty_bytes c) (journal c).
Definition set_total (t : Z) (c : WriteCache) : WriteCache :=
  mkCache (caches c) (chunk_mapper c) (config c) t (journal c).
Definition set_journal (j : option Journal.WriteJournal) (c : WriteCache) : WriteCache :=
  mkCache (caches c) (chunk_mapper c) (config c) (total_dirty_bytes c) j.

(** A BTreeMap's entries in the order of its keys. *)
Definition by_key {A} (p q : Z * A) : Prop := p.1 <= q.1.
#[global] Instance by_key_dec {A} : RelDecision (@by_key A).
Proof. intros p q. unfold by_key. apply _. Defined.
Definition entries {A} (m : gmap Z A) : list (Z * A) := merge_sort by_key (map_to_list m).

(** ** Ranges of a pending chunk *)

Definition wrap32 (z : Z) : Z := z mod 2 ^ 32.

(** The order of [sort_unstable] on pairs. *)
Definition pair_le (p q : Z * Z) : Prop := p.1 < q.1 \/ (p.1 = q.1 /\ p.2 <= q.2).
#[global] Instance pair_le_dec : RelDecision pair_le.
Proof. intros p q. unfold pair_le. apply _. Defined.

(** One round of the merge; [merged] is kept last first. *)
Definition merge_range (merged : list (Z * Z)) (r : Z * Z) : list (Z * Z) :=
  let '(off, l) := r in
  match merged with
  | (lo, ll) :: rest =>
    if off <=? wrap32 (lo + ll)
    then (lo, Z.max ll (wrap32 (wrap32 (off + l) - lo))) :: rest
    else (off, l) :: merged
  | [] => [(off, l)]
  end.

(** [covers]: the answer, and what the ranges are merged into. *)
Definition covers (ranges : list (Z * Z)) (len : Z) : bool * list (Z * Z) :=
  let merged := rev (foldl merge_range [] (merge_sort pair_le ranges)) in
  (match merged with [(o, l)] => (o =? 0) && (l =? wrap32 len) | _ => false end, merged).

(** ** Volumes *)

Definition init_volume_sized {E} (vol : string) (chunk_size : Z) (c : WriteCache)
    : outcome E WriteCache :=
  match caches c !! vol with
  | Some _ => Ok c
  | None =>
    m ← Chunk.new chunk_size;
    Ok (set_caches (<[vol := VolumeCache_new m]> (caches c)) c)
  end.

Definition init_volume {E} (vol : string) (c : WriteCache) : outcome E WriteCache :=
  init_volume_sized vol (Chunk.chunk_size (chunk_mapper c)) c.

Definition mapper_of (vol : string) (c : WriteCache) : option Chunk.ChunkMapper :=
  mapper <$> caches c !! vol.

Definition remove_volume (vol : string) (c : WriteCache) : WriteCache :=
  match caches c !! vol with
  | Some vc => set_total (saturating_sub (total_dirty_bytes c) (dirty_bytes vc))
                 (set_caches (delete vol (caches c)) c)
  | None => c
  end.

Definition should_flush (c : WriteCache) : bool :=
  wmul64 (max_cache_bytes (config c)) 80 / 100 <=? total_dirty_bytes c.

(** ** Writes *)

(** The chunk's current bytes, since when it is dirty and its pending
    ranges; the cache without it. *)
Definition take_chunk (cid : ChunkId) (vc : VolumeCache)
    : option bytes * option Z * option (list (Z * Z)) * VolumeCache :=
  match vc_dirty vc !! cid with
  | Some d =>
    (Some (data d), Some (dirty_since d), pending d,
     mkVC (delete cid (vc_dirty vc)) (vc_clean vc) (dirty_bytes vc) (clean_bytes vc)
       (next_version vc) (mapper vc))
  | None =>
    match vc_clean vc !! cid with
    | Some clean =>
      (Some clean, None, None,
       mkVC (vc_dirty vc) (delete cid (vc_clean vc)) (dirty_bytes vc)
         (saturating_sub (clean_bytes vc) (lenZ clean)) (next_version vc) (mapper vc))
    | None => (None, None, None, vc)
    end
  end.

Definition next_pending (existing : option bytes) (pending_of : option (list (Z * Z)))
    (offset_in_chunk range_len chunk_size : Z) : option (list (Z * Z)) :=
  let this := (wrap32 offset_in_chunk, wrap32 range_len) in
  match existing, pending_of with
  | Some _, Some ranges =>
    let '(all, merged) := covers (ranges ++ [this]) chunk_size in
    if all then None else Some merged
  | Some _, None => None
  | None, _ =>
    if (offset_in_chunk =? 0) && (range_len =? chunk_size) then None else Some [this]
  end.

(** One round of the loop of [apply]; the caches' total is [total]. *)
Definition apply_range {E} (now : Z) (src : bytes) (data_offset : Z) (r : Chunk.ChunkRange)
    (vc : VolumeCache) (total : Z) : outcome E (VolumeCache * Z) :=
  let chunk_size := Chunk.chunk_size (mapper vc) in
  let cid := Chunk.chunk_id r in
  let range_len := Chunk.length r in
  let '(existing, since, pending_of, vc1) := take_chunk cid vc in
  let pend := next_pending existing pending_of (Chunk.offset_in_chunk r) range_len chunk_size in
  let chunk_data :=
    match existing with
    | Some b => b
    | None => replicate (Z.to_nat chunk_size) Byte.x00
    end in
  let chunk_data :=
    if lenZ chunk_data <? chunk_size
    then resize_to (Z.to_nat chunk_size) Byte.x00 chunk_data else chunk_data in
  piece ← or_panic (slice (Z.to_nat data_offset) (Z.to_nat range_len) src);
  chunk_data ← or_panic (copy_into (Z.to_nat (Chunk.offset_in_chunk r)) piece chunk_data);
  let v := wadd64 (next_version vc1) 1 in
  let d := mkDirty chunk_data (default now since) now v pend in
  let '(db, total) :=
    match since with
    | Some _ => (dirty_bytes vc1, total)
    | None => (wadd64 (dirty_bytes vc1) chunk_size, wadd64 total chunk_size)
    end in
  Ok (mkVC (<[cid := d]> (vc_dirty vc1)) (vc_clean vc1) db (clean_bytes vc1) v (mapper vc1),
      total).

Fixpoint apply_ranges {E} (now : Z) (src : bytes) (data_offset : Z)
    (ranges : list Chunk.ChunkRange) (vc : VolumeCache) (total : Z)
    : outcome E (VolumeCache * Z) :=
  match ranges with
  | [] => Ok (vc, total)
  | r :: rest =>
    '(vc, total) ← apply_range now src data_offset r vc total;
    apply_ranges now src (data_offset + Chunk.length r) rest vc total
  end.

(** The checks at its end only log. *)
Definition apply (now : Z) (vol : string) (offset : Z) (src : bytes) (c : WriteCache)
    : outcome BlockError WriteCache :=
  vc ← ok_or (caches c !! vol) (VolumeNotFound vol);
  let ranges := Chunk.byte_range_to_chunks (mapper vc) offset (lenZ src) in
  '(vc, total) ← apply_ranges now src 0 ranges vc (total_dirty_bytes c);
  Ok (set_total total (set_caches (<[vol := vc]> (caches c)) c)).

Definition replay (now : Z) (vol : string) (offset : Z) (src : bytes) (c : WriteCache)
    : outcome BlockError WriteCache :=
  if lenZ src =? 0 then Ok c else apply now vol offset src c.

Section writes.
Context {CRC : Crc32c}.

(** [write]: the cache after it, also where it fails; [w] and [d] are how
    the journal's append and fsync meet the disk. *)
Definition write (now : Z) (w : Journal.disk_write) (d : Journal.disk_sync) (vol : string)
    (offset : Z) (src : bytes) (c : WriteCache) : WriteCache * outcome BlockError () :=
  if lenZ src =? 0 then (c, Ok ())
  else
    match caches c !! vol with
    | None => (c, Err (VolumeNotFound vol))
    | Some vc =>
      let m := mapper vc in
      let '(c, logged) :=
        match journal c with
        | Some j =>
          let '(j, r) := Journal.log_write w vol (Chunk.byte_offset_to_chunk_id m offset)
                           (offset mod Chunk.chunk_size m) src j in
          (set_journal (Some j) c, Some <$> r)
        | None => (c, Ok None)
        end in
      match logged with
      | Ok logged =>
        match apply now vol offset src c with
        | Ok c =>
          match journal c, logged with
          | Some j, Some seq =>
            let '(j, r) := Journal.sync_to d (wadd64 seq 1) j in (set_journal (Some j) c, r)
          | _, _ => (c, Ok ())
          end
        | Err e => (c, Err e)
        | Panic => (c, Panic)
        end
      | Err e => (c, Err e)
      | Panic => (c, Panic)
      end
    end.

(** [write_zeroes]: pieces of at most [ZERO_PIECE] while [at < end]. *)
Definition ZERO_PIECE : Z := 4 * 1024 * 1024.

(** Its loop; [ds] is how the journal meets the disk at each piece. Every
    round but the last writes a whole piece, so [div_ceil length ZERO_PIECE]
    rounds are enough: with no fuel left [at >= end]. *)
Fixpoint zero_pieces (fuel : nat) (ds : list (Journal.disk_write * Journal.disk_sync)) (now : Z)
    (vol : string) (at_ end_ : Z) (c : WriteCache) : WriteCache * outcome BlockError () :=
  match fuel with
  | O => (c, Ok ())
  | S fuel =>
    if at_ <? end_ then
      let '(w, d) := default (Journal.WDone, Journal.SDone) (head ds) in
      let piece := Z.min (end_ - at_) ZERO_PIECE in
      match write now w d vol at_ (replicate (Z.to_nat piece) Byte.x00) c with
      | (c, Ok ()) => zero_pieces fuel (tail ds) now vol (at_ + piece) end_ c
      | r => r
      end
    else (c, Ok ())
  end.

Definition write_zeroes (ds : list (Journal.disk_write * Journal.disk_sync)) (now : Z)
    (vol : string) (offset len : Z) (c : WriteCache) : WriteCache * outcome BlockError () :=
  match checked_add64 offset len with
  | None => (c, Err InvalidSize)
  | Some end_ =>
    zero_pieces (Z.to_nat (div_ceil len ZERO_PIECE)) ds now vol offset end_ c
  end.

End writes.
(** ** Reads *)

(** One round of the loop of [read]: the bytes of one range, [None] for a
    chunk the cache does not hold whole. *)
Definition read_range {E} (vc : VolumeCache) (r : Chunk.ChunkRange) : outcome E (option bytes) :=
  let piece b := Some <$> or_panic (slice (Z.to_nat (Chunk.offset_in_chunk r))
                                      (Z.to_nat (Chunk.length r)) b) in
  match vc_dirty vc !! Chunk.chunk_id r with
  | Some d => match pending d with None => piece (data d) | Some _ => Ok None end
  | None =>
    match vc_clean vc !! Chunk.chunk_id r with
    | Some clean => piece clean
    | None => Ok None
    end
  end.

Fixpoint read_ranges {E} (vc : VolumeCache) (rs : list Chunk.ChunkRange) (result : bytes)
    : outcome E (option bytes) :=
  match rs with
  | [] => Ok (Some result)
  | r :: rs =>
    o ← read_range vc r;
    match o with Some b => read_ranges vc rs (result ++ b) | None => Ok None end
  end.

Definition read {E} (vol : string) (offset len : Z) (c : WriteCache) : outcome E (option bytes) :=
  if len =? 0 then Ok (Some [])
  else
    match caches c !! vol with
    | None => Ok None
    | Some vc => read_ranges vc (Chunk.byte_range_to_chunks (mapper vc) offset len) []
    end.

Definition chunk_of (vc : VolumeCache) (cid : ChunkId) : option bytes :=
  match vc_dirty vc !! cid with
  | Some d => match pending d with None => Some (data d) | Some _ => None end
  | None => vc_clean vc !! cid
  end.

Definition chunk (vol : string) (cid : ChunkId) (c : WriteCache) : option bytes :=
  vc ← caches c !! vol; chunk_of vc cid.

Definition holds_chunk (vol : string) (cid : ChunkId) (c : WriteCache) : bool :=
  match chunk vol cid c with Some _ => true | None => false end.

Definition pending_in (vc : VolumeCache) (cid : ChunkId) : bool :=
  match vc_dirty vc !! cid with
  | Some d => match pending d with Some _ => true | None => false end
  | None => false
  end.

Definition is_pending (vol : string) (cid : ChunkId) (c : WriteCache) : bool :=
  match caches c !! vol with Some vc => pending_in vc cid | None => false end.

Definition pending_chunks (vol : string) (c : WriteCache) : list ChunkId :=
  match caches c !! vol with
  | Some vc =>
    map fst (List.filter (fun e => match pending e.2 with Some _ => true | None => false end)
               (entries (vc_dirty vc)))
  | None => []
  end.

(** ** Merging stored bytes in *)

Fixpoint copy_ranges {E} (ranges : list (Z * Z)) (src whole : bytes) : outcome E bytes :=
  match ranges with
  | [] => Ok whole
  | (off, len) :: rest =>
    piece ← or_panic (slice (Z.to_nat off) (Z.to_nat len) src);
    whole ← or_panic (copy_into (Z.to_nat off) piece whole);
    copy_ranges rest src whole
  end.

Definition resolve_vc {E} (cid : ChunkId) (base : bytes) (vc : VolumeCache)
    : outcome E VolumeCache :=
  let chunk_size := Z.to_nat (Chunk.chunk_size (mapper vc)) in
  let next := wadd64 (next_version vc) 1 in
  match vc_dirty vc !! cid with
  | None => Ok vc
  | Some d =>
    match pending d with
    | None => Ok vc
    | Some ranges =>
      let whole := resize_to chunk_size Byte.x00 (take (min (length base) chunk_size) base) in
      whole ← copy_ranges ranges (data d) whole;
      Ok (mkVC (<[cid := mkDirty whole (dirty_since d) (last_modified d) next None]>
                  (vc_dirty vc))
            (vc_clean vc) (dirty_bytes vc) (clean_bytes vc) next (mapper vc))
    end
  end.

Definition resolve {E} (vol : string) (cid : ChunkId) (base : bytes) (c : WriteCache)
    : outcome E WriteCache :=
  match caches c !! vol with
  | None => Ok c
  | Some vc => vc ← resolve_vc cid base vc; Ok (set_caches (<[vol := vc]> (caches c)) c)
  end.

Definition add_clean_vc (cid : ChunkId) (b : bytes) (vc : VolumeCache) : VolumeCache :=
  match vc_dirty vc !! cid, vc_clean vc !! cid with
  | None, None =>
    mkVC (vc_dirty vc) (<[cid := b]> (vc_clean vc)) (dirty_bytes vc)
      (wadd64 (clean_bytes vc) (lenZ b)) (next_version vc) (mapper vc)
  | _, _ => vc
  end.

Definition add_clean (vol : string) (cid : ChunkId) (b : bytes) (c : WriteCache) : WriteCache :=
  match caches c !! vol with
  | None => c
  | Some vc => set_caches (<[vol := add_clean_vc cid b vc]> (caches c)) c
  end.

(** ** Flushing *)

Definition whole_entries (vc : VolumeCache) : list (Z * DirtyChunk) :=
  List.filter (fun e => match pending e.2 with None => true | Some _ => false end)
    (entries (vc_dirty vc)).

Definition flush_item (e : Z * DirtyChunk) : ChunkId * bytes * Z :=
  (e.1, data e.2, version e.2).

Definition get_chunks_to_flush (now : Z) (vol : string) (c : WriteCache)
    : list (ChunkId * bytes * Z) :=
  match caches c !! vol with
  | None => []
  | Some vc =>
    map flush_item
      (List.filter (fun e => (max_dirty_age (config c) <=? saturating_sub now (dirty_since e.2))
                             || should_flush c)
         (whole_entries vc))
  end.

Definition dirty_chunks (vol : string) (c : WriteCache) : list (ChunkId * bytes * Z) :=
  match caches c !! vol with None => [] | Some vc => map flush_item (whole_entries vc) end.

Definition mark_one (st : VolumeCache * Z) (f : ChunkId * Z) : VolumeCache * Z :=
  let '(vc, total) := st in
  let '(cid, ver) := f in
  match vc_dirty vc !! cid with
  | Some d =>
    if version d =? ver then
      let chunk_size := lenZ (data d) in
      (mkVC (delete cid (vc_dirty vc)) (<[cid := data d]> (vc_clean vc))
         (saturating_sub (dirty_bytes vc) chunk_size) (wadd64 (clean_bytes vc) chunk_size)
         (next_version vc) (mapper vc), wsub64 total chunk_size)
    else st
  | None => st
  end.

Definition mark_flushed (vol : string) (flushed : list (ChunkId * Z)) (c : WriteCache)
    : WriteCache :=
  match caches c !! vol with
  | None => c
  | Some vc =>
    let '(vc, total) := foldl mark_one (vc, total_dirty_bytes c) flushed in
    set_total total (set_caches (<[vol := vc]> (caches c)) c)
  end.

(** ** The journal *)

Definition reset_journal_if_clean (d : Journal.disk_rotate) (c : WriteCache)
    : WriteCache * outcome BlockError bool :=
  match journal c with
  | None => (c, Ok false)
  | Some j =>
    if bool_decide (map_Forall (fun _ vc => vc_dirty vc = ∅) (caches c)) then
      let '(j, r) := Journal.rotate d j in (set_journal (Some j) c, (fun _ => true) <$> r)
    else (c, Ok false)
  end.

Definition sync (d : Journal.disk_sync) (c : WriteCache) : WriteCache * outcome BlockError () :=
  match journal c with
  | None => (c, Ok ())
  | Some j => let '(j, r) := Journal.sync d j in (set_journal (Some j) c, r)
  end.

Definition checkpoint {CRC : Crc32c} (w : Journal.disk_write) (c : WriteCache)
    : WriteCache * outcome BlockError () :=
  match journal c with
  | None => (c, Ok ())
  | Some j =>
    let '(j, r) := Journal.checkpoint w j in (set_journal (Some j) c, (fun _ => ()) <$> r)
  end.

Definition recovered_writes (es : list Journal.JournalEntry) : list (string * ChunkId * Z * bytes) :=
  omap (fun e => (fun d => (Journal.volume_id e, Journal.entry_chunk_id e, Journal.offset e, d))
                   <$> Journal.data e) es.

Definition recover {CRC : Crc32c} (c : WriteCache)
    : outcome BlockError (list (string * ChunkId * Z * bytes)) :=
  match journal c with
  | None => Ok []
  | Some j => es ← Journal.recover j; Ok (recovered_writes es)
  end.

Record CacheStats := mkStats {
  volume_count : Z; s_dirty_bytes : Z; s_clean_bytes : Z; s_dirty_chunks : Z; s_clean_chunks : Z;
}.

Definition stats (c : WriteCache) : CacheStats :=
  map_fold (fun _ vc s =>
    mkStats (volume_count s) (wadd64 (s_dirty_bytes s) (dirty_bytes vc))
      (wadd64 (s_clean_bytes s) (clean_bytes vc))
      (wadd64 (s_dirty_chunks s) (Z.of_nat (size (vc_dirty vc))))
      (wadd64 (s_clean_chunks s) (Z.of_nat (size (vc_clean vc)))))
    (mkStats (Z.of_nat (size (caches c))) 0 0 0 0) (caches c).

(** ** Merging ranges *)

Definition in_range (o : Z) (r : Z * Z) : bool := (r.1 <=? o) && (o <? r.1 + r.2).
Definition in_ranges (rs : list (Z * Z)) (o : Z) : bool := existsb (in_range o) rs.
#[global] Arguments in_ranges : simpl never.

Lemma in_ranges_cons r rs o : in_ranges (r :: rs) o = in_range o r || in_ranges rs o.
Proof. done. Qed.

(** A written range of a chunk of [cs] bytes. *)
Definition range_ok (cs : Z) (r : Z * Z) : Prop := 0 <= r.1 /\ 0 < r.2 /\ r.1 + r.2 <= cs.

(** Merged ranges, last first: a gap between each two. *)
Fixpoint separated (acc : list (Z * Z)) : Prop :=
  match acc with
  | (lo, _) :: ((lo2, ll2) :: _) as t => lo2 + ll2 < lo /\ separated t
  | _ => True
  end.

Lemma wrap32_small z : 0 <= z < 2 ^ 32 -> wrap32 z = z.
Proof. apply Z.mod_small. Qed.

Lemma in_range_true o r : in_range o r = true <-> r.1 <= o < r.1 + r.2.
Proof. unfold in_range. rewrite andb_true_iff, Z.leb_le, Z.ltb_lt. lia. Qed.

Lemma in_ranges_app a b o : in_ranges (a ++ b) o = in_ranges a o || in_ranges b o.
Proof. apply existsb_app. Qed.

Lemma in_ranges_perm a b o : Permutation a b -> in_ranges a o = in_ranges b o.
Proof.
  unfold in_ranges. induction 1; cbn; [done|by rewrite IHPermutation| |by etrans].
  rewrite !orb_assoc. f_equal. apply orb_comm.
Qed.

Lemma in_ranges_rev a o : in_ranges (rev a) o = in_ranges a o.
Proof. apply in_ranges_perm. symmetry. apply Permutation_rev. Qed.

Section merging.
Context (cs : Z) (Hcs : 0 < cs < 2 ^ 32).

Lemma merge_range_step acc r :
  Forall (range_ok cs) acc -> separated acc -> range_ok cs r ->
  (forall h t, acc = h :: t -> h.1 <= r.1) ->
  let m := merge_range acc r in
  Forall (range_ok cs) m /\ separated m /\
  (forall h t, m = h :: t -> h.1 <= r.1) /\
  (forall o, in_ranges m o = in_ranges acc o || in_range o r).
Proof.
  intros Hok Hsep Hr Hle. destruct r as [off l]. destruct acc as [|[lo ll] rest]; cbn.
  { split_and!; [by constructor|done|naive_solver lia|].
    intros. by rewrite in_ranges_cons, orb_comm. }
  apply Forall_cons in Hok as [Hh Hok]. specialize (Hle _ _ eq_refl). cbn in Hle.
  unfold range_ok in Hh, Hr. cbn in Hh, Hr.
  rewrite (wrap32_small (lo + ll)), (wrap32_small (off + l)), (wrap32_small (off + l - lo)) by lia.
  destruct (Z.leb_spec off (lo + ll)).
  - split_and!.
    + constructor; [|done]. unfold range_ok. cbn. lia.
    + destruct rest as [|[lo2 ll2] rest]; done.
    + intros h t [= <- <-]. cbn. lia.
    + intros o. apply eq_true_iff_eq. rewrite !in_ranges_cons.
      rewrite !orb_true_iff, !in_range_true. cbn.
      assert (lo <= o < lo + Z.max ll (off + l - lo) <->
              lo <= o < lo + ll \/ off <= o < off + l) as -> by lia. tauto.
  - split_and!.
    + constructor; [|by constructor]. unfold range_ok. cbn. lia.
    + done.
    + intros h t [= <- <-]. cbn. lia.
    + intros o. by rewrite in_ranges_cons, orb_comm.
Qed.

Lemma merge_fold rs : forall acc,
  Forall (range_ok cs) rs -> StronglySorted pair_le rs ->
  Forall (range_ok cs) acc -> separated acc ->
  (forall h t r, acc = h :: t -> r ∈ rs -> h.1 <= r.1) ->
  let m := foldl merge_range acc rs in
  Forall (range_ok cs) m /\ separated m /\
  (forall o, in_ranges m o = in_ranges acc o || in_ranges rs o).
Proof.
  induction rs as [|r rs IH]; intros acc Hok Hs Ha Hsep Hle; cbn.
  { split_and!; [done..|intros; by rewrite orb_false_r]. }
  apply Forall_cons in Hok as [Hr Hok]. inversion_clear Hs as [|?? Hs' Hall].
  destruct (merge_range_step acc r Ha Hsep Hr) as (H1 & H2 & H3 & H4).
  { intros h t ->. apply (Hle h t); set_solver. }
  destruct (IH (merge_range acc r)) as (I1 & I2 & I3); try done.
  { intros h t r' E Hin. specialize (H3 h t E).
    rewrite Forall_forall in Hall. specialize (Hall _ Hin). unfold pair_le in Hall. lia. }
  split_and!; try done. intros o. by rewrite I3, H4, in_ranges_cons, orb_assoc.
Qed.

Lemma separated_covered acc :
  Forall (range_ok cs) acc -> separated acc ->
  (forall o, 0 <= o < cs -> in_ranges acc o = true) -> acc = [(0, cs)].
Proof.
  intros Hok Hsep Hcov. destruct acc as [|[lo ll] rest].
  { specialize (Hcov 0 ltac:(lia)). done. }
  apply Forall_cons in Hok as [Hh Hok]. unfold range_ok in Hh. cbn in Hh.
  (* every other range ends before the head *)
  assert (forall r, r ∈ rest -> r.1 + r.2 < lo) as Hbefore.
  { clear Hcov Hh. revert lo ll Hsep Hok. induction rest as [|[lo2 ll2] rest IH]; [set_solver|].
    intros lo ll [Hlt Hsep] Hok r [->|Hr]%elem_of_cons; [done|].
    apply Forall_cons in Hok as [H2 Hok]. unfold range_ok in H2. cbn in H2.
    specialize (IH lo2 ll2 Hsep Hok r Hr). lia. }
  assert (lo = 0) as ->.
  { destruct (Z.eq_dec lo 0); [done|]. exfalso.
    specialize (Hcov (lo - 1) ltac:(lia)). unfold in_ranges in Hcov.
    apply existsb_exists in Hcov as (r & Hin & Ho%in_range_true).
    apply list_elem_of_In, elem_of_cons in Hin as [->|Hin]; [cbn in Ho; lia|].
    specialize (Hbefore r Hin). lia. }
  assert (rest = []) as ->.
  { destruct rest as [|r rest]; [done|]. exfalso. apply Forall_cons in Hok as [Hr _].
    specialize (Hbefore r ltac:(set_solver)). unfold range_ok in Hr. lia. }
  specialize (Hcov (cs - 1) ltac:(lia)). rewrite in_ranges_cons, orb_false_r in Hcov.
  apply in_range_true in Hcov. cbn in Hcov. do 2 f_equal. lia.
Qed.

Lemma covers_spec rs :
  Forall (range_ok cs) rs ->
  Forall (range_ok cs) (covers rs cs).2 /\
  (forall o, in_ranges (covers rs cs).2 o = in_ranges rs o) /\
  ((covers rs cs).1 = true <-> forall o, 0 <= o < cs -> in_ranges rs o = true).
Proof.
  intros Hok. unfold covers. cbn.
  pose proof (merge_sort_Permutation pair_le rs) as Hp.
  assert (Total pair_le) by (intros p q; unfold pair_le; lia).
  assert (Transitive pair_le) by (intros p q r; unfold pair_le; lia).
  destruct (merge_fold (merge_sort pair_le rs) []) as (H1 & H2 & H3); try done.
  { by rewrite Hp. }
  { by apply StronglySorted_merge_sort. }
  set (m := foldl merge_range [] (merge_sort pair_le rs)) in *.
  assert (forall o, in_ranges m o = in_ranges rs o) as Hin
    by (intros; rewrite H3; cbn; by apply in_ranges_perm).
  split_and!.
  - by apply Forall_rev.
  - intros o. by rewrite in_ranges_rev.
  - rewrite wrap32_small by lia. split.
    + destruct (rev m) as [|[o1 l1] [|]] eqn:Em; try done. intros Ho o Hlt. bool_to_prop. subst.
      rewrite <- Hin, <- in_ranges_rev, Em, in_ranges_cons, orb_false_r. by apply in_range_true.
    + intros Hall. rewrite (separated_covered m); [|done..|].
      * cbn. by rewrite Z.eqb_refl.
      * intros o Ho. rewrite Hin. by apply Hall.
Qed.

End merging.

(** ** What a cache stands for *)

Definition csize (vc : VolumeCache) : Z := Chunk.chunk_size (mapper vc).

Record wf_chunk (cs : Z) (d : DirtyChunk) : Prop := mkwfc {
  wfc_len : lenZ (data d) = cs;
  wfc_pending : forall rs, pending d = Some rs -> Forall (range_ok cs) rs;
}.

(** Chunks are whole buffers, dirty or clean and not both, and no chunk is
    4 GiB or more (a range's offset and length are 32 bits). *)
Record wf (vc : VolumeCache) : Prop := mkwf {
  wf_cs : 0 < csize vc < 2 ^ 32;
  wf_dirty : forall c d, vc_dirty vc !! c = Some d -> wf_chunk (csize vc) d;
  wf_clean : forall c b, vc_clean vc !! c = Some b -> lenZ b = csize vc;
  wf_apart : forall c d, vc_dirty vc !! c = Some d -> vc_clean vc !! c = None;
}.

Definition byte_at (l : bytes) (o : Z) : byte := default Byte.x00 (l !! Z.to_nat o).

(** Byte [o] of chunk [c]; [store] is what the OSDs hold of each chunk. *)
Definition chunk_byte (store : Z -> bytes) (vc : VolumeCache) (c o : Z) : byte :=
  match vc_dirty vc !! c with
  | Some d =>
    match pending d with
    | None => byte_at (data d) o
    | Some rs => if in_ranges rs o then byte_at (data d) o else byte_at (store c) o
    end
  | None =>
    match vc_clean vc !! c with
    | Some b => byte_at b o
    | None => byte_at (store c) o
    end
  end.

(** Byte [b] of the volume. *)
Definition view (store : Z -> bytes) (vc : VolumeCache) (b : Z) : byte :=
  chunk_byte store vc (b / csize vc) (b mod csize vc).

Lemma byte_at_copy off (src l k : bytes) o :
  0 <= off -> 0 <= o -> copy_into (Z.to_nat off) src l = Some k ->
  byte_at k o = if in_range o (off, lenZ src) then byte_at src (o - off) else byte_at l o.
Proof.
  intros Ho Hoo H. unfold byte_at, in_range. rewrite (copy_into_lookup _ _ _ _ _ H).
  cbn [fst snd].
  unfold lenZ.
  destruct (Nat.leb_spec (Z.to_nat off) (Z.to_nat o)), (Z.leb_spec off o); try lia; [|done].
  destruct (Nat.ltb_spec (Z.to_nat o) (Z.to_nat off + length src)),
    (Z.ltb_spec o (off + Z.of_nat (length src))); try lia; [|done].
  cbn. do 2 f_equal. lia.
Qed.

Lemma byte_at_slice off n (l k : bytes) o :
  0 <= off -> 0 <= o < n -> slice (Z.to_nat off) (Z.to_nat n) l = Some k ->
  byte_at k o = byte_at l (off + o).
Proof.
  intros Ho Hn H. unfold byte_at. rewrite (slice_lookup _ _ _ _ _ H).
  destruct (Nat.ltb_spec (Z.to_nat o) (Z.to_nat n)); [|lia]. do 2 f_equal. lia.
Qed.

(** ** One range of a write *)

(** What [take_chunk] finds. *)
Lemma take_chunk_spec store cid vc ex since pend vc1 :
  wf vc -> take_chunk cid vc = (ex, since, pend, vc1) ->
  wf vc1 /\ mapper vc1 = mapper vc /\ next_version vc1 = next_version vc /\
  vc_dirty vc1 = delete cid (vc_dirty vc) /\ vc_clean vc1 = delete cid (vc_clean vc) /\
  (ex = None -> pend = None) /\
  (forall b, ex = Some b -> lenZ b = csize vc) /\
  (forall rs, pend = Some rs -> Forall (range_ok (csize vc)) rs) /\
  (forall o, chunk_byte store vc cid o =
    match ex, pend with
    | Some b, Some rs => if in_ranges rs o then byte_at b o else byte_at (store cid) o
    | Some b, None => byte_at b o
    | None, _ => byte_at (store cid) o
    end).
Proof.
  intros [Hcs Hd Hc Ha] H. unfold take_chunk, chunk_byte in *.
  assert (forall d, vc_dirty vc !! cid = Some d -> delete cid (vc_clean vc) = vc_clean vc) as Hdc.
  { intros d E. apply delete_id. by eapply Ha. }
  destruct (vc_dirty vc !! cid) as [d|] eqn:Ed.
  - simplify_eq. cbn. rewrite (Hdc d) by done. destruct (Hd _ _ Ed). split_and!; try done.
    + split; cbn; try done.
      * intros c d'. rewrite lookup_delete_Some. intros [_ ?]. by eapply Hd.
      * intros c d'. rewrite lookup_delete_Some. intros [_ ?]. by eapply Ha.
    + by intros b [= <-].
  - rewrite (delete_id (vc_dirty vc)) by done.
    destruct (vc_clean vc !! cid) as [b|] eqn:Ec; simplify_eq; cbn;
      rewrite ?(delete_id (vc_clean vc1)) by done; split_and!; try done.
    + split; cbn; try done.
      * intros c b'. rewrite lookup_delete_Some. intros [_ ?]. by eapply Hc.
      * intros c d' E. rewrite lookup_delete_None. right. by eapply Ha.
    + intros b' [= <-]. by eapply Hc.
Qed.

(** The new pending ranges: the bytes that count are the old ones and this
    range, all of them once nothing is pending. *)
Lemma next_pending_spec cs ex pend oic n :
  0 < cs < 2 ^ 32 -> range_ok cs (oic, n) ->
  (forall rs, pend = Some rs -> Forall (range_ok cs) rs) ->
  let p := next_pending ex pend oic n cs in
  (forall rs, p = Some rs -> Forall (range_ok cs) rs) /\
  forall o, 0 <= o < cs ->
    match p with Some rs => in_ranges rs o | None => true end =
    match ex, pend with
    | Some _, None => true
    | Some _, Some rs => in_ranges rs o || in_range o (oic, n)
    | None, _ => in_range o (oic, n)
    end.
Proof.
  intros Hcs Hr Hrs. unfold next_pending. pose proof Hr as (H1 & H2 & H3). cbn in H1, H2, H3.
  rewrite !wrap32_small by lia. destruct ex as [b|]; [destruct pend as [rs|]|].
  - destruct (covers_spec cs Hcs (rs ++ [(oic, n)])) as (C1 & C2 & C3).
    { apply Forall_app. split; [by apply Hrs|by constructor]. }
    destruct (covers (rs ++ [(oic, n)]) cs) as [all merged]. cbn in *.
    assert (forall o, in_ranges (rs ++ [(oic, n)]) o = in_ranges rs o || in_range o (oic, n))
      as Happ by (intros; by rewrite in_ranges_app, in_ranges_cons, orb_false_r).
    destruct all; (split; [by intros ? [= <-]|]); intros o Ho; rewrite <- Happ; [|by rewrite C2].
    symmetry. by apply C3.
  - done.
  - destruct (Z.eqb_spec oic 0), (Z.eqb_spec n cs); cbn -[in_range];
      (split; [intros rs' [= <-]; by constructor|]); intros o Ho;
      rewrite ?in_ranges_cons, ?orb_false_r; try done.
    symmetry. apply in_range_true. cbn. lia.
Qed.

(** A dirty chunk put where the cache holds none. *)
Lemma put_dirty store cid d db v vc vc1 :
  wf vc -> wf vc1 -> mapper vc1 = mapper vc -> vc_dirty vc1 = delete cid (vc_dirty vc) ->
  vc_clean vc1 = delete cid (vc_clean vc) -> wf_chunk (csize vc) d ->
  let vc' := mkVC (<[cid := d]> (vc_dirty vc1)) (vc_clean vc1) db (clean_bytes vc1) v
               (mapper vc1) in
  wf vc' /\
  forall c o, chunk_byte store vc' c o =
    if c =? cid then
      match pending d with
      | None => byte_at (data d) o
      | Some rs => if in_ranges rs o then byte_at (data d) o else byte_at (store cid) o
      end
    else chunk_byte store vc c o.
Proof.
  intros Hwf [Hcs Hd Hc Ha] Hm Hd1 Hc1 Hdw vc'.
  assert (csize vc' = csize vc) as Hcs' by (unfold csize, vc'; cbn; by rewrite Hm).
  assert (csize vc1 = csize vc) as Hcs1 by (unfold csize; by rewrite Hm).
  split.
  - split; cbn; rewrite ?Hcs', <- ?Hcs1; try done.
    + intros c d'. rewrite lookup_insert_Some. intros [[<- <-]|[_ ?]]; [by rewrite Hcs1|].
      by eapply Hd.
    + intros c d'. rewrite lookup_insert_Some. intros [[<- <-]|[_ ?]]; [|by eapply Ha].
      by rewrite Hc1, lookup_delete_eq.
  - intros c o. unfold chunk_byte. cbn. destruct (Z.eqb_spec c cid) as [->|Hne].
    + by rewrite lookup_insert_eq.
    + by rewrite lookup_insert_ne, Hd1, Hc1, !lookup_delete_ne by done.
Qed.

(** The chunk's bytes once the range is copied in. *)
Lemma new_bytes ex pend (b0 b1 piece src : bytes) doff oic n p (stored : byte) o :
  0 <= oic -> 0 <= o -> 0 <= doff -> 0 <= n ->
  slice (Z.to_nat doff) (Z.to_nat n) src = Some piece ->
  copy_into (Z.to_nat oic) piece b0 = Some b1 ->
  (forall b, ex = Some b -> b0 = b) ->
  match p with Some rs => in_ranges rs o | None => true end =
    match ex, pend with
    | Some _, None => true
    | Some _, Some rs => in_ranges rs o || in_range o (oic, n)
    | None, _ => in_range o (oic, n)
    end ->
  match p with
  | None => byte_at b1 o
  | Some rs => if in_ranges rs o then byte_at b1 o else stored
  end = if in_range o (oic, n) then byte_at src (doff + (o - oic)) else
    match ex, pend with
    | Some b, Some rs => if in_ranges rs o then byte_at b o else stored
    | Some b, None => byte_at b o
    | None, _ => stored
    end.
Proof.
  intros Hoic Ho Hdo Hn Hs Hc Hb0 Hp.
  assert (lenZ piece = n) as Hpl by (unfold lenZ; rewrite (slice_length _ _ _ _ Hs); lia).
  assert (byte_at b1 o = if in_range o (oic, n) then byte_at src (doff + (o - oic))
                         else byte_at b0 o) as ->.
  { rewrite (byte_at_copy oic piece b0 b1 o), Hpl by done.
    destruct (in_range o (oic, n)) eqn:Ei; [|done]. apply in_range_true in Ei. cbn in Ei.
    apply (byte_at_slice doff n); [done|lia|done]. }
  replace (match p with None => _ | Some rs => _ end) with
    (if match p with Some rs => in_ranges rs o | None => true end
     then if in_range o (oic, n) then byte_at src (doff + (o - oic)) else byte_at b0 o
     else stored) by (by destruct p).
  rewrite Hp. destruct ex as [b|]; [rewrite (Hb0 b) by done; destruct pend as [rs|]|];
    destruct (in_range o (oic, n)); try destruct (in_ranges rs o); done.
Qed.

Lemma apply_range_spec {E} store now src doff r vc total :
  wf vc -> range_ok (csize vc) (Chunk.offset_in_chunk r, Chunk.length r) ->
  0 <= doff -> doff + Chunk.length r <= lenZ src ->
  exists vc' total', apply_range (E:=E) now src doff r vc total = Ok (vc', total') /\
    wf vc' /\ mapper vc' = mapper vc /\ next_version vc' = wadd64 (next_version vc) 1 /\
    (forall c o, 0 <= o < csize vc -> chunk_byte store vc' c o =
      if (c =? Chunk.chunk_id r) && in_range o (Chunk.offset_in_chunk r, Chunk.length r)
      then byte_at src (doff + (o - Chunk.offset_in_chunk r)) else chunk_byte store vc c o).
Proof.
  intros Hwf Hr Hdo Hsrc. unfold apply_range. fold (csize vc). pose proof (wf_cs _ Hwf) as Hcs.
  set (cid := Chunk.chunk_id r). set (oic := Chunk.offset_in_chunk r) in *.
  set (n := Chunk.length r) in *. pose proof Hr as (Hr1 & Hr2 & Hr3). cbn in Hr1, Hr2, Hr3.
  destruct (take_chunk cid vc) as [[[ex since] pend] vc1] eqn:Et.
  destruct (take_chunk_spec store cid vc ex since pend vc1 Hwf Et)
    as (Hwf1 & Hm & Hv & Hd1 & Hc1 & Hexp & Hlen & Hrs & Hcb).
  destruct (next_pending_spec (csize vc) ex pend oic n Hcs Hr Hrs) as [Hp1 Hp2].
  set (p := next_pending ex pend oic n (csize vc)) in *.
  set (b0 := match ex with Some b => b | None => replicate (Z.to_nat (csize vc)) Byte.x00 end).
  assert (lenZ b0 = csize vc) as Hb0.
  { unfold b0. destruct ex; [by apply Hlen|]. unfold lenZ. rewrite length_replicate. lia. }
  rewrite Hb0, Z.ltb_irrefl. unfold lenZ in Hsrc, Hb0.
  rewrite slice_some by lia. cbn [or_panic mbind outcome_bind].
  set (piece := take (Z.to_nat n) (drop (Z.to_nat doff) src)).
  assert (length piece = Z.to_nat n) as Hpl by (unfold piece; len).
  rewrite copy_into_some by lia. cbn [or_panic mbind outcome_bind].
  set (b1 := take _ b0 ++ _).
  assert (copy_into (Z.to_nat oic) piece b0 = Some b1) as Hb1 by (apply copy_into_some; lia).
  assert (lenZ b1 = csize vc) as Hb1l by (apply copy_into_length in Hb1; unfold lenZ; lia).
  set (d := mkDirty b1 (default now since) now (wadd64 (next_version vc1) 1) p).
  assert (wf_chunk (csize vc) d) as Hdw by done.
  assert (forall o, 0 <= o < csize vc ->
    match pending d with
    | None => byte_at (data d) o
    | Some rs => if in_ranges rs o then byte_at (data d) o else byte_at (store cid) o
    end = if in_range o (oic, n) then byte_at src (doff + (o - oic))
          else chunk_byte store vc cid o) as Hbytes.
  { intros o Ho. rewrite Hcb. apply (new_bytes _ _ b0 b1 piece src); try done; try lia.
    - apply slice_some. lia.
    - intros b ->. done.
    - by apply Hp2. }
  destruct since; cbn zeta beta iota;
    match goal with |- context [mkVC _ _ ?db _ ?v _] =>
      destruct (put_dirty store cid d db v vc vc1) as [Hw Hcb']; try done;
      eexists _, _; split; [done|split_and!; try done] end.
  all: try (cbn; by rewrite Hv).
  all: intros c o Ho; rewrite Hcb'; destruct (Z.eqb_spec c cid) as [->|]; [by apply Hbytes|done].
Qed.

(** ** A whole write *)

(** Ranges that follow each other from byte [at_] on, [n] bytes in all. *)
Fixpoint tiles (cs at_ n : Z) (rs : list Chunk.ChunkRange) : Prop :=
  match rs with
  | [] => n = 0
  | r :: rest =>
    Chunk.chunk_id r * cs + Chunk.offset_in_chunk r = at_ /\
    range_ok cs (Chunk.offset_in_chunk r, Chunk.length r) /\
    tiles cs (at_ + Chunk.length r) (n - Chunk.length r) rest
  end.

Lemma tiles_nonneg cs rs : forall at_ n, tiles cs at_ n rs -> 0 <= n.
Proof.
  induction rs as [|r rs IH]; intros at_ n H; cbn in H; [lia|].
  destruct H as (_ & Hr & H). apply IH in H. unfold range_ok in Hr. cbn in Hr. lia.
Qed.

Lemma seqZ_app_inv s k s' n (t : list Z) :
  0 < k -> seqZ s k ++ t = seqZ s' n -> s = s' /\ k <= n /\ t = seqZ (s' + k) (n - k).
Proof.
  intros Hk H. assert (k <= n) as Hkn.
  { apply (f_equal length) in H. rewrite length_app, !length_seqZ in H. lia. }
  assert (s = s') as ->.
  { assert ((seqZ s k ++ t) !! 0%nat = seqZ s' n !! 0%nat) as E by (by rewrite H).
    rewrite lookup_app_l in E by (rewrite length_seqZ; lia).
    rewrite !lookup_seqZ_lt in E by lia. injection E as E. lia. }
  split_and!; try done. replace n with (k + (n - k)) in H by lia.
  rewrite seqZ_split in H by lia. by apply app_inv_head in H.
Qed.

Lemma tiles_of_flat m rs : forall s n,
  0 <= n ->
  Forall (fun r => range_ok (Chunk.chunk_size m) (Chunk.offset_in_chunk r, Chunk.length r)) rs ->
  flat_map (Chunk.bytes_of m) rs = seqZ s n -> tiles (Chunk.chunk_size m) s n rs.
Proof.
  induction rs as [|r rs IH]; intros s n Hn Hok H; cbn in *.
  - destruct (Z.eq_dec n 0); [done|]. rewrite seqZ_cons_1 in H by lia. done.
  - apply Forall_cons in Hok as [Hr Hok]. pose proof Hr as (_ & Hl & _). cbn in Hl.
    apply seqZ_app_inv in H as (H1 & H2 & H3); [|done].
    split_and!; try done. apply IH; [lia|done|done].
Qed.

Lemma byte_range_tiles m s n :
  Chunk.wf m -> Chunk.in_space m s n ->
  tiles (Chunk.chunk_size m) s n (Chunk.byte_range_to_chunks m s n).
Proof.
  intros Hm Hin. apply tiles_of_flat.
  - by destruct Hin as (_ & ? & _).
  - apply Forall_forall. intros r Hr.
    destruct (Chunk.byte_range_in m Hm s n r Hin Hr) as (_ & ? & ? & ? & _). done.
  - by apply Chunk.byte_range_flat.
Qed.

(** Where byte [b] of the volume falls in a range. *)
Lemma in_tile cs b cid oic n :
  0 < cs -> range_ok cs (oic, n) ->
  (b / cs =? cid) && in_range (b mod cs) (oic, n) = in_range b (cid * cs + oic, n) /\
  (in_range b (cid * cs + oic, n) = true -> b mod cs - oic = b - (cid * cs + oic)).
Proof.
  intros Hcs (H1 & H2 & H3). cbn in H1, H2, H3.
  pose proof (Z.div_mod b cs ltac:(lia)) as Hb. pose proof (Z.mod_pos_bound b cs Hcs) as Ho.
  set (q := b / cs) in *. set (o := b mod cs) in *.
  assert (cid * cs + oic <= b < cid * cs + oic + n -> q = cid) as Hq.
  { intros Hin. destruct (Z.lt_trichotomy q cid) as [Hlt|[|Hlt]]; [|done|]; exfalso; nia. }
  split.
  - apply eq_true_iff_eq. rewrite andb_true_iff, !in_range_true, Z.eqb_eq. cbn. split.
    + intros [-> ?]. lia.
    + intros Hin. specialize (Hq Hin). subst cid. lia.
  - rewrite in_range_true. cbn. intros Hin. specialize (Hq Hin). subst cid. lia.
Qed.

Lemma apply_ranges_spec {E} store now src rs : forall doff at_ n vc total,
  wf vc -> tiles (csize vc) at_ n rs -> 0 <= doff -> doff + n <= lenZ src ->
  exists vc' total', apply_ranges (E:=E) now src doff rs vc total = Ok (vc', total') /\
    wf vc' /\ mapper vc' = mapper vc /\
    forall b, view store vc' b =
      if in_range b (at_, n) then byte_at src (doff + (b - at_)) else view store vc b.
Proof.
  induction rs as [|r rs IH]; intros doff at_ n vc total Hwf Ht Hd Hn; cbn [apply_ranges].
  - cbn in Ht. subst n. eexists _, _. split_and!; try done. intros b.
    destruct (in_range b (at_, 0)) eqn:Eb; [|done]. apply in_range_true in Eb. cbn in Eb. lia.
  - cbn [tiles] in Ht. destruct Ht as (Hat & Hr & Ht). pose proof (tiles_nonneg _ _ _ _ Ht).
    destruct (apply_range_spec (E:=E) store now src doff r vc total)
      as (vc1 & t1 & -> & Hwf1 & Hm1 & _ & Hb1); [done..|lia|].
    assert (csize vc1 = csize vc) as Hcs1 by (unfold csize; by rewrite Hm1).
    pose proof Hr as (_ & Hl & _). cbn in Hl.
    destruct (IH (doff + Chunk.length r) (at_ + Chunk.length r) (n - Chunk.length r) vc1 t1)
      as (vc2 & t2 & E2 & Hwf2 & Hm2 & Hb2); [done|by rewrite Hcs1|lia|lia|].
    exists vc2, t2. split_and!; [done|done|by rewrite Hm2|].
    intros b. rewrite Hb2. unfold view. rewrite Hcs1. pose proof (wf_cs _ Hwf).
    rewrite Hb1 by (apply Z.mod_pos_bound; lia).
    destruct (in_tile (csize vc) b (Chunk.chunk_id r) (Chunk.offset_in_chunk r) (Chunk.length r))
      as [-> Hoff]; [lia|done|]. rewrite Hat in *.
    destruct (in_range b (at_ + Chunk.length r, n - Chunk.length r)) eqn:E1,
      (in_range b (at_, Chunk.length r)) eqn:E3, (in_range b (at_, n)) eqn:E4;
      rewrite <- ?not_true_iff_false, ?in_range_true in *; cbn in *; try lia; try done.
    + f_equal. lia.
    + f_equal. rewrite Hoff by lia. lia.
Qed.

(** ** Reads *)

Definition held (vc : VolumeCache) (cid : ChunkId) : bool :=
  match chunk_of vc cid with Some _ => true | None => false end.

Lemma chunk_of_len vc cid b : wf vc -> chunk_of vc cid = Some b -> lenZ b = csize vc.
Proof.
  intros [_ Hd Hc _]. unfold chunk_of. destruct (vc_dirty vc !! cid) as [d|] eqn:E; [|by eauto].
  destruct (pending d); [done|]. intros [= <-]. by destruct (Hd _ _ E).
Qed.

Lemma chunk_of_byte store vc cid b o :
  chunk_of vc cid = Some b -> chunk_byte store vc cid o = byte_at b o.
Proof.
  unfold chunk_of, chunk_byte. destruct (vc_dirty vc !! cid) as [d|].
  - destruct (pending d); [done|]. by intros [= ->].
  - by intros ->.
Qed.

(** A piece of a chunk is that piece of the volume. *)
Lemma piece_view store vc r at_ b :
  wf vc -> range_ok (csize vc) (Chunk.offset_in_chunk r, Chunk.length r) ->
  Chunk.chunk_id r * csize vc + Chunk.offset_in_chunk r = at_ -> lenZ b = csize vc ->
  (forall o, 0 <= o < csize vc -> byte_at b o = chunk_byte store vc (Chunk.chunk_id r) o) ->
  take (Z.to_nat (Chunk.length r)) (drop (Z.to_nat (Chunk.offset_in_chunk r)) b) =
  map (view store vc) (seqZ at_ (Chunk.length r)).
Proof.
  intros Hwf Hr Hat Hb Hby. pose proof Hr as (H1 & H2 & H3). cbn in H1, H2, H3.
  pose proof (wf_cs _ Hwf). apply list_eq. intros i.
  change (map (view store vc)) with (fmap (M:=list) (view store vc)). rewrite list_lookup_fmap.
  destruct (decide (i < Z.to_nat (Chunk.length r))%nat) as [Hi|Hi].
  2:{ rewrite lookup_take_ge by lia. symmetry. apply fmap_None, lookup_ge_None_2.
      rewrite length_seqZ. lia. }
  rewrite lookup_take_lt, lookup_drop, lookup_seqZ_lt by lia. cbn. unfold view.
  destruct (in_tile (csize vc) (at_ + Z.of_nat i) (Chunk.chunk_id r)
    (Chunk.offset_in_chunk r) (Chunk.length r)) as [Hq Ho]; [lia|done|].
  rewrite Hat in Hq, Ho. assert (in_range (at_ + Z.of_nat i) (at_, Chunk.length r) = true)
    as Hin by (apply in_range_true; cbn; lia).
  rewrite Hin in Hq. apply andb_true_iff in Hq as [->%Z.eqb_eq _]. specialize (Ho Hin).
  rewrite <- Hby by (apply Z.mod_pos_bound; lia). unfold byte_at.
  replace (Z.to_nat ((at_ + Z.of_nat i) mod csize vc))
    with (Z.to_nat (Chunk.offset_in_chunk r) + i)%nat by lia.
  unfold lenZ in Hb.
  by destruct (lookup_lt_is_Some_2 b (Z.to_nat (Chunk.offset_in_chunk r) + i)) as [x ->]; [lia|].
Qed.

Lemma read_range_spec {E} store vc r at_ :
  wf vc -> range_ok (csize vc) (Chunk.offset_in_chunk r, Chunk.length r) ->
  Chunk.chunk_id r * csize vc + Chunk.offset_in_chunk r = at_ ->
  read_range (E:=E) vc r =
    Ok (if held vc (Chunk.chunk_id r) then Some (map (view store vc) (seqZ at_ (Chunk.length r)))
        else None).
Proof.
  intros Hwf Hr Hat. pose proof Hr as (H1 & H2 & H3). cbn in H1, H2, H3.
  assert (forall b, chunk_of vc (Chunk.chunk_id r) = Some b ->
    slice (Z.to_nat (Chunk.offset_in_chunk r)) (Z.to_nat (Chunk.length r)) b =
    Some (map (view store vc) (seqZ at_ (Chunk.length r)))) as Hs.
  { intros b Hb. pose proof (chunk_of_len _ _ _ Hwf Hb) as Hl.
    rewrite slice_some by (unfold lenZ in Hl; lia). f_equal.
    apply piece_view; try done. intros o Ho. symmetry. by apply chunk_of_byte. }
  unfold read_range, held, chunk_of in *.
  destruct (vc_dirty vc !! Chunk.chunk_id r) as [d|].
  - destruct (pending d); [done|]. by rewrite (Hs _ eq_refl).
  - destruct (vc_clean vc !! Chunk.chunk_id r); [by rewrite (Hs _ eq_refl)|done].
Qed.

Lemma read_ranges_spec {E} store vc rs : forall at_ n result,
  wf vc -> tiles (csize vc) at_ n rs ->
  read_ranges (E:=E) vc rs result =
    Ok (if forallb (fun r => held vc (Chunk.chunk_id r)) rs
        then Some (result ++ map (view store vc) (seqZ at_ n)) else None).
Proof.
  induction rs as [|r rs IH]; intros at_ n result Hwf Ht; cbn [read_ranges forallb tiles] in *.
  - subst n. cbn. by rewrite app_nil_r.
  - destruct Ht as (Hat & Hr & Ht). pose proof (tiles_nonneg _ _ _ _ Ht).
    pose proof Hr as (_ & Hl & _). cbn in Hl.
    rewrite (read_range_spec store vc r at_) by done. cbn [mbind outcome_bind].
    destruct (held vc (Chunk.chunk_id r)); [|done]. cbn [andb].
    rewrite (IH (at_ + Chunk.length r) (n - Chunk.length r)) by done.
    destruct (forallb _ rs); [|done]. do 2 f_equal.
    rewrite <- app_assoc, <- map_app, <- seqZ_split by lia. do 3 f_equal. lia.
Qed.

(** ** Stored bytes *)

Lemma copy_ranges_spec {E} cs src rs : forall whole,
  Forall (range_ok cs) rs -> lenZ src = cs -> lenZ whole = cs ->
  exists w, copy_ranges (E:=E) rs src whole = Ok w /\ lenZ w = cs /\
    forall o, 0 <= o -> byte_at w o = if in_ranges rs o then byte_at src o else byte_at whole o.
Proof.
  induction rs as [|[off n] rs IH]; intros whole Hrs Hs Hw; cbn [copy_ranges].
  { eauto. }
  apply Forall_cons in Hrs as [(H1 & H2 & H3) Hrs]. cbn in H1, H2, H3.
  assert (slice (Z.to_nat off) (Z.to_nat n) src =
    Some (take (Z.to_nat n) (drop (Z.to_nat off) src))) as Hsl
    by (apply slice_some; unfold lenZ in *; lia).
  set (piece := take (Z.to_nat n) (drop (Z.to_nat off) src)) in *.
  assert (lenZ piece = n) as Hp by (unfold lenZ; rewrite (slice_length _ _ _ _ Hsl); lia).
  rewrite Hsl. cbn [or_panic mbind outcome_bind].
  assert (copy_into (Z.to_nat off) piece whole =
    Some (take (Z.to_nat off) whole ++ piece ++ drop (Z.to_nat off + length piece) whole)) as Hc
    by (apply copy_into_some; unfold lenZ in *; lia).
  set (w1 := take (Z.to_nat off) whole ++ _) in Hc. rewrite Hc. cbn [or_panic mbind outcome_bind].
  destruct (IH w1 Hrs Hs) as (w & -> & Hlw & Hbw).
  { apply copy_into_length in Hc. unfold lenZ in *. lia. }
  eexists. split_and!; [done|done|]. intros o Ho. rewrite Hbw, in_ranges_cons by done.
  rewrite (byte_at_copy off piece whole w1 o), Hp by done.
  destruct (in_ranges rs o); [by rewrite orb_true_r|]. rewrite orb_false_r.
  destruct (in_range o (off, n)) eqn:Ei; [|done]. apply in_range_true in Ei. cbn in Ei.
  rewrite (byte_at_slice off n src piece) by (done || lia). f_equal. lia.
Qed.

(** ** How a cache grows

    Versions only go up, a chunk held whole stays held whole, and a chunk
    that is dirty and whole stays so, as it is or with a new version; what
    is dirty afterwards was so before or has a new version. *)
Record grown (vc vc' : VolumeCache) : Prop := mkgrown {
  g_next : next_version vc <= next_version vc';
  g_held : forall c, held vc c = true -> held vc' c = true;
  g_dirty : forall c d, vc_dirty vc !! c = Some d -> pending d = None ->
    exists d', vc_dirty vc' !! c = Some d' /\ pending d' = None /\
      (d' = d \/ next_version vc < version d');
  g_fresh : forall c d', vc_dirty vc' !! c = Some d' ->
    vc_dirty vc !! c = Some d' \/ next_version vc < version d';
}.

Definition versioned (vc : VolumeCache) : Prop :=
  forall c d, vc_dirty vc !! c = Some d -> version d <= next_version vc.

#[global] Instance grown_refl : Reflexive grown.
Proof. intros vc. split; eauto. lia. Qed.

#[global] Instance grown_trans : Transitive grown.
Proof.
  intros a b c [N1 H1 D1 F1] [N2 H2 D2 F2]. split; [lia|auto| |].
  - intros k d Hd Hp. destruct (D1 k d Hd Hp) as (d1 & Hd1 & Hp1 & Hv1).
    destruct (D2 k d1 Hd1 Hp1) as (d2 & Hd2 & Hp2 & Hv2). exists d2. split_and!; try done.
    destruct Hv1 as [->|], Hv2 as [->|]; auto; right; lia.
  - intros k d Hd. destruct (F2 k d Hd) as [Hd1|]; [by apply F1|right; lia].
Qed.

Lemma next_pending_whole b oic n cs : next_pending (Some b) None oic n cs = None.
Proof. done. Qed.

(** What a range of a write does to the maps. *)
Lemma apply_range_grows {E} now src doff r vc total vc' total' :
  wf vc -> 0 <= next_version vc -> next_version vc + 1 < two64 ->
  apply_range (E:=E) now src doff r vc total = Ok (vc', total') ->
  grown vc vc' /\ (versioned vc -> versioned vc') /\
  next_version vc' = next_version vc + 1 /\
  (forall c b, vc_clean vc' !! c = Some b -> vc_clean vc !! c = Some b) /\
  is_Some (vc_dirty vc' !! Chunk.chunk_id r).
Proof.
  intros Hwf Hn0 Hn H. unfold apply_range in H. set (cid := Chunk.chunk_id r) in *.
  destruct (take_chunk cid vc) as [[[ex since] pend] vc1] eqn:Et.
  destruct (take_chunk_spec (fun _ => []) cid vc ex since pend vc1 Hwf Et)
    as (_ & Hm & Hv & Hd1 & Hc1 & _).
  apply outcome_bind_ok in H as (piece & _ & H). apply outcome_bind_ok in H as (b1 & _ & H).
  rewrite Hv, (wadd64_small (next_version vc) 1) in H by lia.
  set (d := mkDirty b1 _ _ _ _) in H.
  assert (exists db, vc' = mkVC (<[cid := d]> (vc_dirty vc1)) (vc_clean vc1) db (clean_bytes vc1)
    (next_version vc + 1) (mapper vc1)) as [db ->] by (destruct since; simplify_eq; eauto).
  assert (held vc cid = true -> pending d = None) as Hwhole.
  { unfold held, chunk_of, take_chunk in *.
    destruct (vc_dirty vc !! cid) as [d0|]; [by destruct (pending d0); simplify_eq|].
    by destruct (vc_clean vc !! cid); simplify_eq. }
  split_and!; cbn; try done.
  - split; cbn; [lia|..].
    + intros c. unfold held, chunk_of in *. cbn. rewrite Hd1, Hc1.
      destruct (decide (c = cid)) as [->|Hne].
      * rewrite lookup_insert_eq. intros Hh. by rewrite (Hwhole Hh).
      * by rewrite lookup_insert_ne, !lookup_delete_ne by done.
    + intros c d0 Hd0 Hp. rewrite Hd1. destruct (decide (c = cid)) as [->|Hne].
      * rewrite lookup_insert_eq. eexists. split_and!; [done| |cbn; right; lia].
        apply Hwhole. unfold held, chunk_of. by rewrite Hd0, Hp.
      * rewrite lookup_insert_ne, lookup_delete_ne by done. eauto.
    + intros c d0. rewrite lookup_insert_Some, Hd1, lookup_delete_Some.
      intros [[<- <-]|[_ [_ Hd0]]]; [right; cbn; lia|by left].
  - intros Hver c d0. cbn. rewrite lookup_insert_Some, Hd1, lookup_delete_Some.
    intros [[<- <-]|[_ [_ Hd0]]]; [cbn; lia|]. apply Hver in Hd0. lia.
  - intros c b. rewrite Hc1, lookup_delete_Some. naive_solver.
  - rewrite lookup_insert_eq. eauto.
Qed.

Lemma apply_ranges_grows {E} now src rs : forall doff at_ n vc total vc' total',
  wf vc -> tiles (csize vc) at_ n rs -> 0 <= doff -> doff + n <= lenZ src ->
  0 <= next_version vc -> next_version vc + n < two64 ->
  apply_ranges (E:=E) now src doff rs vc total = Ok (vc', total') ->
  grown vc vc' /\ (versioned vc -> versioned vc') /\
  next_version vc' <= next_version vc + n /\
  (forall c b, vc_clean vc' !! c = Some b -> vc_clean vc !! c = Some b).
Proof.
  induction rs as [|r rs IH]; intros doff at_ n vc total vc' total' Hwf Ht Hd Hn H0 Hv H;
    cbn [apply_ranges tiles] in *.
  { simplify_eq. split_and!; auto; [done|lia]. }
  destruct Ht as (Hat & Hr & Ht). pose proof (tiles_nonneg _ _ _ _ Ht).
  pose proof Hr as (_ & Hl & _). cbn in Hl.
  destruct (apply_range_spec (E:=E) (fun _ => []) now src doff r vc total)
    as (vc1 & t1 & E1 & Hwf1 & Hm1 & _); [done..|lia|].
  destruct (apply_range_grows (E:=E) now src doff r vc total vc1 t1)
    as (G1 & V1 & N1 & C1 & _); [done|done|lia|done|].
  rewrite E1 in H. cbn [mbind outcome_bind] in H.
  apply (IH _ (at_ + Chunk.length r) (n - Chunk.length r)) in H as (G2 & V2 & N2 & C2);
    [|done|unfold csize in *; by rewrite Hm1|lia..].
  split_and!; [by etrans|auto|lia|auto].
Qed.

(** [base] is what the OSDs hold of chunk [cid]. *)
Definition loaded (store : Z -> bytes) (cs cid : Z) (base : bytes) : Prop :=
  forall o, 0 <= o < cs -> byte_at base o = byte_at (store cid) o.

Lemma byte_at_resize n (l : bytes) o :
  0 <= o < Z.of_nat n -> byte_at (resize_to n Byte.x00 (take (min (length l) n) l)) o = byte_at l o.
Proof.
  intros Ho. unfold byte_at. rewrite resize_to_lookup.
  destruct (Nat.ltb_spec (Z.to_nat o) n); [|lia]. cbn.
  destruct (Nat.lt_ge_cases (Z.to_nat o) (length l)).
  - by rewrite lookup_take_lt by lia.
  - by rewrite !lookup_ge_None_2 by (rewrite ?length_take; lia).
Qed.

(** Merging a chunk's stored bytes in changes nothing the cache stands for,
    and the chunk is whole. *)
Lemma resolve_vc_spec {E} store cid base vc :
  wf vc -> 0 <= next_version vc -> next_version vc + 1 < two64 ->
  (held vc cid = false -> loaded store (csize vc) cid base) ->
  exists vc', resolve_vc (E:=E) cid base vc = Ok vc' /\ wf vc' /\ mapper vc' = mapper vc /\
    grown vc vc' /\ (versioned vc -> versioned vc') /\ vc_clean vc' = vc_clean vc /\
    pending_in vc' cid = false /\
    next_version vc' <= next_version vc + 1 /\
    (forall c o, 0 <= o < csize vc -> chunk_byte store vc' c o = chunk_byte store vc c o).
Proof.
  intros Hwf H0 H1 Hl. unfold resolve_vc. rewrite wadd64_small by lia. fold (csize vc).
  assert (pending_in vc cid = false -> exists vc', Ok vc = Ok (E:=E) vc' /\ wf vc' /\
    mapper vc' = mapper vc /\ grown vc vc' /\ (versioned vc -> versioned vc') /\
    vc_clean vc' = vc_clean vc /\ pending_in vc' cid = false /\
    next_version vc' <= next_version vc + 1 /\
    (forall c o, 0 <= o < csize vc -> chunk_byte store vc' c o = chunk_byte store vc c o)) as Hsame.
  { intros Hp. exists vc. split_and!; try done. lia. }
  unfold pending_in in Hsame.
  destruct (vc_dirty vc !! cid) as [d|] eqn:Ed; [|by apply Hsame].
  destruct (pending d) as [rs|] eqn:Ep; [|by apply Hsame]. clear Hsame.
  pose proof Hwf as [Hcs Hd Hc Ha]. destruct (Hd _ _ Ed) as [Hdl Hdp].
  destruct (copy_ranges_spec (E:=E) (csize vc) (data d) rs
    (resize_to (Z.to_nat (csize vc)) Byte.x00 (take (min (length base) (Z.to_nat (csize vc))) base)))
    as (w & -> & Hwl & Hwb); [by apply Hdp|done|unfold lenZ; rewrite resize_to_length; lia|].
  specialize (Hl ltac:(unfold held, chunk_of; by rewrite Ed, Ep)).
  cbn [mbind outcome_bind]. eexists. split; [done|]. split_and!; cbn; try done; try lia.
  - split; cbn; try done.
    + intros c d'. rewrite lookup_insert_Some. intros [[<- <-]|[_ ?]]; [done|by eapply Hd].
    + intros c d'. rewrite lookup_insert_Some. intros [[<- <-]|[_ ?]]; by eapply Ha.
  - split; cbn; [lia|..].
    + intros c. unfold held, chunk_of. cbn. destruct (decide (c = cid)) as [->|Hne].
      * by rewrite lookup_insert_eq.
      * by rewrite lookup_insert_ne by done.
    + intros c d0 Hd0 Hp0. destruct (decide (c = cid)) as [->|Hne]; [congruence|].
      rewrite lookup_insert_ne by done. eauto.
    + intros c d'. rewrite lookup_insert_Some. intros [[<- <-]|[_ Hd']]; [right; cbn; lia|by left].
  - intros Hv c d'. cbn. rewrite lookup_insert_Some. intros [[<- <-]|[_ Hd']]; [cbn; lia|].
    apply Hv in Hd'. lia.
  - unfold pending_in. cbn. by rewrite lookup_insert_eq.
  - intros c o Ho. unfold chunk_byte. cbn. destruct (decide (c = cid)) as [->|Hne].
    + rewrite lookup_insert_eq, Ed, Ep. cbn. rewrite Hwb by lia.
      destruct (in_ranges rs o); [done|]. rewrite byte_at_resize by lia. by apply Hl.
    + by rewrite lookup_insert_ne by done.
Qed.

Lemma resolve_vc_held {E} cid base vc vc' :
  resolve_vc (E:=E) cid base vc = Ok vc' -> pending_in vc cid = true -> held vc' cid = true.
Proof.
  unfold resolve_vc, pending_in. destruct (vc_dirty vc !! cid) as [d|]; [|done].
  destruct (pending d); [|done]. intros (w & _ & [= <-])%outcome_bind_ok _.
  unfold held, chunk_of. cbn. by rewrite lookup_insert_eq.
Qed.

(** So does a clean copy of what the OSDs hold. *)
Lemma add_clean_vc_spec store cid b vc :
  wf vc -> lenZ b = csize vc -> (held vc cid = false -> loaded store (csize vc) cid b) ->
  let vc' := add_clean_vc cid b vc in
  wf vc' /\ mapper vc' = mapper vc /\ grown vc vc' /\ (versioned vc -> versioned vc') /\
  next_version vc' = next_version vc /\
  (forall c b', vc_clean vc' !! c = Some b' -> vc_clean vc !! c = Some b' \/
     c = cid /\ b' = b /\ held vc cid = false) /\
  (forall c o, 0 <= o < csize vc -> chunk_byte store vc' c o = chunk_byte store vc c o).
Proof.
  intros Hwf Hb Hl. unfold add_clean_vc. pose proof Hwf as [Hcs Hd Hc Ha].
  destruct (vc_dirty vc !! cid) as [d|] eqn:Ed; [by cbn; split_and!; auto|].
  destruct (vc_clean vc !! cid) as [b0|] eqn:Ec; [by cbn; split_and!; auto|].
  assert (held vc cid = false) as Hnh by (unfold held, chunk_of; by rewrite Ed, Ec).
  specialize (Hl Hnh). cbn. split_and!; try done.
  - split; cbn; try done.
    + intros c b'. rewrite lookup_insert_Some. intros [[<- <-]|[_ ?]]; [done|by eapply Hc].
    + intros c d' Hd'. rewrite lookup_insert_ne by congruence. by eapply Ha.
  - split; cbn; [lia| |by eauto|by eauto]. intros c. unfold held, chunk_of. cbn.
    destruct (vc_dirty vc !! c); [done|]. destruct (decide (c = cid)) as [->|Hne].
    + by rewrite lookup_insert_eq.
    + by rewrite lookup_insert_ne by done.
  - intros c b'. rewrite lookup_insert_Some. naive_solver.
  - intros c o Ho. unfold chunk_byte. cbn. destruct (decide (c = cid)) as [->|Hne].
    + rewrite Ed, Ec, lookup_insert_eq. by apply Hl.
    + by rewrite lookup_insert_ne by done.
Qed.

(** Marking a chunk flushed changes nothing the cache stands for. A chunk
    whose version moved on is left alone. *)
Lemma mark_one_spec store cid ver vc total :
  wf vc -> (forall d, vc_dirty vc !! cid = Some d -> version d = ver -> pending d = None) ->
  let vc' := (mark_one (vc, total) (cid, ver)).1 in
  wf vc' /\ mapper vc' = mapper vc /\ next_version vc' = next_version vc /\
  (forall c, held vc' c = held vc c) /\
  (forall c, vc_dirty vc' !! c = if decide (c = cid) then
     match vc_dirty vc !! cid with
     | Some d => if version d =? ver then None else Some d | None => None end
     else vc_dirty vc !! c) /\
  (forall c b, vc_clean vc' !! c = Some b -> vc_clean vc !! c = Some b \/
     c = cid /\ exists d, vc_dirty vc !! cid = Some d /\ version d = ver /\ data d = b) /\
  (forall c o, chunk_byte store vc' c o = chunk_byte store vc c o).
Proof.
  intros Hwf Hp. unfold mark_one. pose proof Hwf as [Hcs Hd Hc Ha].
  destruct (vc_dirty vc !! cid) as [d|] eqn:Ed; cbn.
  2:{ split_and!; auto. intros c. by case_decide; subst. }
  destruct (Z.eqb_spec (version d) ver) as [Hv|Hv]; cbn.
  2:{ split_and!; auto. intros c. by case_decide; subst. }
  specialize (Hp d eq_refl Hv). split_and!; try done.
  - split; cbn; try done.
    + intros c d'. rewrite lookup_delete_Some. intros [_ ?]. by eapply Hd.
    + intros c b. rewrite lookup_insert_Some. intros [[<- <-]|[_ ?]]; [|by eapply Hc].
      by destruct (Hd _ _ Ed).
    + intros c d'. rewrite lookup_delete_Some. intros [? ?].
      rewrite lookup_insert_ne by done. by eapply Ha.
  - intros c. unfold held, chunk_of. cbn. destruct (decide (c = cid)) as [->|Hne].
    + by rewrite lookup_delete_eq, lookup_insert_eq, Ed, Hp.
    + by rewrite lookup_delete_ne, lookup_insert_ne by done.
  - intros c. case_decide; subst; [by rewrite lookup_delete_eq|by rewrite lookup_delete_ne].
  - intros c b. rewrite lookup_insert_Some. naive_solver.
  - intros c o. unfold chunk_byte. cbn. destruct (decide (c = cid)) as [->|Hne].
    + by rewrite lookup_delete_eq, lookup_insert_eq, Ed, Hp.
    + by rewrite lookup_delete_ne, lookup_insert_ne by done.
Qed.

(** ** The cache's operations *)

(** An open volume of the cache. *)
Definition volume (c : WriteCache) (vol : string) (vc : VolumeCache) : Prop :=
  caches c !! vol = Some vc /\ wf vc.

Lemma wf_mapper vc : wf vc -> Chunk.wf (mapper vc).
Proof. intros [Hcs _ _ _]. unfold csize in Hcs. unfold Chunk.wf, two64. lia. Qed.

Lemma apply_spec store now vol offset src c vc :
  volume c vol vc -> Chunk.in_space (mapper vc) offset (lenZ src) ->
  exists vc' t, apply now vol offset src c =
      Ok (set_total t (set_caches (<[vol := vc']> (caches c)) c)) /\
    wf vc' /\ mapper vc' = mapper vc /\
    (forall b, view store vc' b =
      if in_range b (offset, lenZ src) then byte_at src (b - offset) else view store vc b) /\
    (0 <= next_version vc -> next_version vc + lenZ src < two64 ->
      grown vc vc' /\ (versioned vc -> versioned vc') /\
      next_version vc' <= next_version vc + lenZ src /\
      (forall k b, vc_clean vc' !! k = Some b -> vc_clean vc !! k = Some b)).
Proof.
  intros [Hc Hwf] Hin. unfold apply. rewrite Hc. cbn [ok_or mbind outcome_bind].
  pose proof (byte_range_tiles (mapper vc) offset (lenZ src) (wf_mapper vc Hwf) Hin) as Ht.
  destruct (apply_ranges_spec (E:=BlockError) store now src
    (Chunk.byte_range_to_chunks (mapper vc) offset (lenZ src)) 0 offset (lenZ src) vc
    (total_dirty_bytes c)) as (vc' & t & Ha & Hwf' & Hm & Hb); [done|done|lia|lia|].
  rewrite Ha. cbn [mbind outcome_bind]. exists vc', t. split_and!; try done.
  intros H0 H1. by eapply (apply_ranges_grows now src _ 0 offset (lenZ src)); try done; lia.
Qed.

(** C26. A write to the cache is a write to a flat array of bytes: it never
    fails or panics on an open volume, the bytes written are the bytes that
    were given, and every other byte of the volume is what it was, whether
    its chunk is dirty, clean, half-known or not cached at all, and whatever
    the OSDs hold. *)
Theorem write_refines_array (store : Z -> bytes) (now : Z) (vol : string) (offset : Z)
    (src : bytes) (c : WriteCache) (vc : VolumeCache) :
  volume c vol vc -> Chunk.in_space (mapper vc) offset (lenZ src) ->
  exists c' vc', apply now vol offset src c = Ok c' /\ volume c' vol vc' /\
    (forall v, v <> vol -> caches c' !! v = caches c !! v) /\
    forall b, view store vc' b =
      if in_range b (offset, lenZ src) then byte_at src (b - offset) else view store vc b.
Proof.
  intros Hv Hin. destruct (apply_spec store now vol offset src c vc Hv Hin)
    as (vc' & t & -> & Hwf & _ & Hb & _).
  eexists _, vc'. split_and!; [done|split; [|done]|intros v Hne|done]; cbn.
  - apply lookup_insert_eq.
  - by apply lookup_insert_ne.
Qed.

(** A read gives exactly the volume's bytes or nothing: nothing only when
    a chunk it touches is not held whole, and it never panics. *)
Theorem read_gives_view (store : Z -> bytes) (vol : string) (offset len : Z)
    (c : WriteCache) (vc : VolumeCache) :
  volume c vol vc -> Chunk.in_space (mapper vc) offset len ->
  read (E:=BlockError) vol offset len c =
    Ok (if forallb (fun r => held vc (Chunk.chunk_id r))
             (Chunk.byte_range_to_chunks (mapper vc) offset len)
        then Some (map (view store vc) (seqZ offset len)) else None).
Proof.
  intros [Hc Hwf] Hin. unfold read. destruct (Z.eqb_spec len 0) as [->|Hn]; [done|].
  rewrite Hc. apply (read_ranges_spec store vc _ offset len []); [done|].
  apply byte_range_tiles; [by apply wf_mapper|done].
Qed.

(** [covers] is exact: the ranges it merges hold the same bytes as the
    ranges it was given, and it answers yes exactly when they are all of
    the chunk. *)
Theorem covers_exact (cs : Z) (rs : list (Z * Z)) :
  0 < cs < 2 ^ 32 -> Forall (range_ok cs) rs ->
  (forall o, in_ranges (covers rs cs).2 o = in_ranges rs o) /\
  ((covers rs cs).1 = true <-> forall o, 0 <= o < cs -> in_ranges rs o = true).
Proof. intros Hcs Hrs. by destruct (covers_spec cs Hcs rs Hrs) as (_ & ? & ?). Qed.

(** ** Witnesses *)

Definition ex_vc : VolumeCache := VolumeCache_new (Chunk.mkChunkMapper 4).
Definition ex_cache : WriteCache :=
  mkCache {["v" := ex_vc]} (Chunk.mkChunkMapper 4) (mkConfig 100 10) 0 None.
Definition ex_store (_ : Z) : bytes := [Byte.x11; Byte.x12; Byte.x13; Byte.x14].
Definition ex_src : bytes := [Byte.x61; Byte.x62; Byte.x63].

Lemma ex_volume : volume ex_cache "v" ex_vc.
Proof. split; [done|]. split; by vm_compute. Qed.

Lemma write_refines_array_witness :
  exists c' vc', apply 7 "v" 2 ex_src ex_cache = Ok c' /\ volume c' "v" vc' /\
    (forall v, v <> "v" -> caches c' !! v = caches ex_cache !! v) /\
    forall b, view ex_store vc' b =
      if in_range b (2, lenZ ex_src) then byte_at ex_src (b - 2) else view ex_store ex_vc b.
Proof. apply (write_refines_array ex_store 7 "v" 2 ex_src); [apply ex_volume|by vm_compute]. Defined.

Lemma read_gives_view_witness :
  read (E:=BlockError) "v" 2 3 ex_cache = Ok None.
Proof.
  rewrite (read_gives_view ex_store "v" 2 3 ex_cache ex_vc);
    [by vm_compute|apply ex_volume|by vm_compute].
Defined.

Lemma covers_exact_witness : (covers [(2, 2); (0, 3)] 4).1 = true.
Proof.
  apply (covers_exact 4 [(2, 2); (0, 3)]); [lia|by repeat constructor; vm_compute|].
  intros o Ho. assert (o = 0 \/ o = 1 \/ o = 2 \/ o = 3) as [->|[->|[->| ->]]] by lia; done.
Defined.

End Cache.
