(* ===== verification/BlockGateway.v ===== *)
(** * The block gateway (crates/block-gateway/src)

    The tasks of the gateway around the write cache, as steps that interleave
    in any order: client writes, loads of stored chunks that end in a
    [resolve] or an [add_clean], flushes that take their chunks before they
    have the flush lock ([flush_volume]) or after ([flush_volume_all]),
    journal resets (resolve.rs, flush.rs), and a restart that replays the
    journal (lib.rs). What meta and the OSDs hold is a map from chunks to bytes
    ([Stripes]); how a commit ends is an argument.

    The theorems: in every state of a run in which no flush waits for the
    lock with bytes older than those another has flushed since, each volume
    reads as the array of its applied writes, and a restart from there gives
    that array again. *)

From S2P Require Import Prelude Bytes Crc Chunk Volume LogTail Journal JournalCrash Cache.

Module BlockGateway.
Import Cache.

(** The bytes of the stripe meta records for each chunk of each volume, as
    [read_stripe] decodes them. *)
Abbreviation Stripes := (gmap (string * Z) bytes).

(** A chunk's bytes: zeros if it was never written. *)
Definition read_chunk (st : Stripes) (vol : string) (cid : ChunkId) (chunk_size : Z) : bytes :=
  match st !! (vol, cid) with
  | Some b => b
  | None => replicate (Z.to_nat chunk_size) Byte.x00
  end.

(** How [store_chunk] ends: recorded in meta, refused (the chunk changed
    meanwhile), or an error that may hide that it was recorded. *)
Inductive commit : Type := Done | Conflict | Failed (recorded : bool).

Definition store_chunk (st : Stripes) (vol : string) (cid : ChunkId) (b : bytes) (r : commit)
    : Stripes * bool :=
  match r with
  | Done => (<[(vol, cid) := b]> st, true)
  | Conflict => (st, false)
  | Failed recorded => (if recorded then <[(vol, cid) := b]> st else st, false)
  end.

Definition item : Type := ChunkId * bytes * Z.

(** The loop of [flush_chunks_locked]; [rs] is how each commit ends. *)
Fixpoint flush_loop (st : Stripes) (vol : string) (chunks : list item) (rs : list commit)
    (flushed : list (ChunkId * Z)) : Stripes * list (ChunkId * Z) :=
  match chunks with
  | [] => (st, flushed)
  | (cid, b, ver) :: rest =>
    let '(st, ok) := store_chunk st vol cid b (default Done (head rs)) in
    flush_loop st vol rest (tail rs) (if ok then flushed ++ [(cid, ver)] else flushed)
  end.

Definition flush_chunks_locked (vol : string) (chunks : list item) (rs : list commit)
    (st : Stripes) (c : WriteCache) : Stripes * WriteCache * nat :=
  let '(st, flushed) := flush_loop st vol chunks rs [] in
  (st, mark_flushed vol flushed c, length flushed).

(** [replay_journal]: each recovered write onto its volume. *)
Fixpoint replay_writes (now : Z) (vm : Volume.VolumeManager)
    (writes : list (string * ChunkId * Z * bytes)) (c : WriteCache)
    : outcome BlockError WriteCache :=
  match writes with
  | [] => Ok c
  | (vol, cid, offset_in_chunk, d) :: rest =>
    if negb (is_ok (Volume.get_volume vol vm)) then replay_writes now vm rest c
    else
      match mapper_of vol c with
      | None => replay_writes now vm rest c
      | Some m =>
        let offset := wadd64 (wmul64 cid (Chunk.chunk_size m)) offset_in_chunk in
        c ← Cache.replay now vol offset d c;
        replay_writes now vm rest c
      end
  end.

Definition replay_journal {CRC : Crc32c} (now : Z) (vm : Volume.VolumeManager) (c : WriteCache)
    : outcome BlockError WriteCache :=
  writes ← Cache.recover c;
  replay_writes now vm writes c.

(** ** The machine *)

(** [abs] is the array each volume is, by its applied writes; [jlog] the
    writes the journal file holds; [loads] the stored bytes tasks have read
    and not used yet; [flight] the flush that holds the lock, as the chunks
    still to store and those stored; [waiting] the flushes that have taken
    their chunks and not the lock. *)
Record gw := mkGw {
  cache : WriteCache;
  stripes : Stripes;
  abs : string -> Z -> byte;
  jlog : list (string * ChunkId * Z * bytes);
  loads : list (string * ChunkId * bytes);
  flight : option (string * list item * list item);
  waiting : list (string * list item);
}.

(** How many bytes a list of writes writes. *)
Definition log_bytes (l : list (string * ChunkId * Z * bytes)) : Z :=
  foldr (fun w n => lenZ w.2 + n) 0 l.

Definition marks (l : list item) : list (ChunkId * Z) := map (fun i => (i.1.1, i.2)) l.

(** The array after a write. *)
Definition abs_write (a : string -> Z -> byte) (vol : string) (offset : Z) (src : bytes)
    (v : string) (b : Z) : byte :=
  if bool_decide (v = vol) && in_range b (offset, lenZ src) then byte_at src (b - offset)
  else a v b.

Definition abs_open (a : string -> Z -> byte) (st : Stripes) (vol : string) (cs : Z)
    (v : string) (b : Z) : byte :=
  if bool_decide (v = vol) then byte_at (read_chunk st vol (b / cs) cs) (b mod cs) else a v b.

(** ** One volume

    What holds of a volume's cache: [store] is what the OSDs hold, [a] the
    array of its writes, [lg] what the journal would write to each byte,
    [lds] its loads, [todo] and [stored] its part of the flush in flight. *)

(** A chunk a flush took: still dirty and whole, as it was taken or newer;
    or the OSDs hold just what was taken. *)
Definition item_dirty (vc : VolumeCache) (i : item) : Prop :=
  exists d, vc_dirty vc !! i.1.1 = Some d /\ pending d = None /\
    i.2 <= version d /\ (version d = i.2 -> data d = i.1.2).

Definition item_kept (store : Z -> bytes) (vc : VolumeCache) (i : item) : Prop :=
  store i.1.1 = i.1.2 /\ forall d, vc_dirty vc !! i.1.1 = Some d -> i.2 < version d.

Record item_ok (store : Z -> bytes) (a : Z -> byte) (lg : Z -> option byte) (vc : VolumeCache)
    (i : item) : Prop := mkItemOk {
  it_version : i.2 <= next_version vc;
  it_state : item_dirty vc i \/ item_kept store vc i;
  it_len : lenZ i.1.2 = csize vc;
  it_bytes : forall o, 0 <= o < csize vc -> lg (i.1.1 * csize vc + o) = None ->
    byte_at i.1.2 o = a (i.1.1 * csize vc + o);
}.

Record vol_inv (store : Z -> bytes) (a : Z -> byte) (lg : Z -> option byte) (vc : VolumeCache)
    (lds : list (ChunkId * bytes)) (todo stored : list item) : Prop := mkVolInv {
  v_wf : wf vc;
  v_ver : versioned vc;
  v_next : 0 <= next_version vc;
  v_store : forall cid, lenZ (store cid) = csize vc;
  v_view : forall b, view store vc b = a b;
  v_clean : forall cid b, vc_clean vc !! cid = Some b -> loaded store (csize vc) cid b;
  v_log : forall b, a b = default (byte_at (store (b / csize vc)) (b mod csize vc)) (lg b);
  v_load : forall cid base, (cid, base) ∈ lds ->
    lenZ base = csize vc /\ (held vc cid = false -> loaded store (csize vc) cid base);
  v_nodup : NoDup (map (fun i : item => i.1.1) (stored ++ todo));
  v_item : forall i, i ∈ stored ++ todo -> item_ok store a lg vc i;
  v_stored : forall i, i ∈ stored -> store i.1.1 = i.1.2;
}.

(** A flush in flight outlives anything that only grows the cache. *)
Lemma item_ok_grown store a lg vc a' lg' vc' i :
  csize vc' = csize vc -> grown vc vc' ->
  (forall b, lg' b = None -> lg b = None /\ a' b = a b) ->
  item_ok store a lg vc i -> item_ok store a' lg' vc' i.
Proof.
  intros Hcs [Hn Hh Hd Hf] Hlg [Hv Hs Hl Hb]. split.
  - lia.
  - destruct Hs as [(d & Hdi & Hp & Hle & Heq)|[Hs Hlt]].
    + left. destruct (Hd _ _ Hdi Hp) as (d' & Hd' & Hp' & [->|Hlt]); [by exists d|].
      exists d'. split_and!; try done; lia.
    + right. split; [done|]. intros d' Hd'. destruct (Hf _ _ Hd') as [Hd0|]; [by apply Hlt|lia].
  - by rewrite Hcs.
  - rewrite Hcs. intros o Ho Hno. destruct (Hlg _ Hno) as [Hno' ->]. by apply Hb.
Qed.

(** A chunk taken by one flush while another stores what it took. *)
Lemma item_ok_stored store a lg vc i j :
  item_ok store a lg vc i -> item_ok store a lg vc j ->
  item_ok (fun c => if decide (c = i.1.1) then i.1.2 else store c) a lg vc j.
Proof.
  intros [_ Hi _ _] [Hv Hj Hl Hb]. split; [done| |done|done].
  destruct Hj as [Hj|[Hj Hlt]]; [by left|]. destruct (decide (j.1.1 = i.1.1)) as [E|Hne].
  - destruct Hi as [(d & Hd & Hp & _ & _)|[Hi _]].
    + left. rewrite <- E in Hd. specialize (Hlt d Hd). exists d. split_and!; try done; lia.
    + right. split; [|done]. rewrite decide_True by done. by rewrite <- Hi, <- Hj, E.
  - right. split; [|done]. by rewrite decide_False.
Qed.

Lemma held_loaded store cs vc cid o b :
  chunk_of vc cid = Some b -> loaded store cs cid b -> 0 <= o < cs ->
  chunk_byte store vc cid o = byte_at (store cid) o.
Proof. intros Hc Hl Ho. rewrite (chunk_of_byte _ _ _ b) by done. by apply Hl. Qed.

Section volume.
Context (store : Z -> bytes) (a : Z -> byte) (lg : Z -> option byte) (vc : VolumeCache)
        (lds : list (ChunkId * bytes)) (todo stored : list item).
Context (I : vol_inv store a lg vc lds todo stored).

(** A step that grows the cache and leaves the view. *)
Lemma vol_inv_grown vc' :
  wf vc' -> mapper vc' = mapper vc -> grown vc vc' -> (versioned vc -> versioned vc') ->
  (forall cid b, vc_clean vc' !! cid = Some b -> loaded store (csize vc) cid b) ->
  (forall c o, 0 <= o < csize vc -> chunk_byte store vc' c o = chunk_byte store vc c o) ->
  vol_inv store a lg vc' lds todo stored.
Proof.
  intros Hwf Hm Hg Hv Hc Hb. destruct I as [Iwf Iv In Is Ivi Ic Il Ild Ind Iit Ist].
  assert (csize vc' = csize vc) as Hcs by (unfold csize; by rewrite Hm).
  split; rewrite ?Hcs; auto.
  - destruct Hg. lia.
  - intros b. rewrite <- Ivi. unfold view. rewrite Hcs. apply Hb. apply Z.mod_pos_bound.
    destruct (wf_cs _ Iwf). lia.
  - intros cid base Hin. destruct (Ild _ _ Hin) as [? Hl]. split; [done|]. intros Hh. apply Hl.
    destruct (held vc cid) eqn:E; [|done]. apply (g_held _ _ Hg) in E. congruence.
  - intros i Hi. apply (item_ok_grown store a lg vc); eauto.
Qed.

Lemma vol_inv_write vc' offset (src : bytes) :
  wf vc' -> mapper vc' = mapper vc -> grown vc vc' -> (versioned vc -> versioned vc') ->
  (forall cid b, vc_clean vc' !! cid = Some b -> vc_clean vc !! cid = Some b) ->
  (forall b, view store vc' b =
     if in_range b (offset, lenZ src) then byte_at src (b - offset) else view store vc b) ->
  vol_inv store
    (fun b => if in_range b (offset, lenZ src) then byte_at src (b - offset) else a b)
    (fun b => if in_range b (offset, lenZ src) then Some (byte_at src (b - offset)) else lg b)
    vc' lds todo stored.
Proof.
  intros Hwf Hm Hg Hv Hc Hb. destruct I as [Iwf Iv In Is Ivi Ic Il Ild Ind Iit Ist].
  assert (csize vc' = csize vc) as Hcs by (unfold csize; by rewrite Hm).
  split; rewrite ?Hcs; auto.
  - destruct Hg. lia.
  - intros b. rewrite Hb, Ivi. done.
  - intros b. destruct (in_range b _); [done|]. apply Il.
  - intros cid base Hin. destruct (Ild _ _ Hin) as [? Hl]. split; [done|]. intros Hh. apply Hl.
    destruct (held vc cid) eqn:E; [|done]. apply (g_held _ _ Hg) in E. congruence.
  - intros i Hi. apply (item_ok_grown store a lg vc); eauto.
    intros b. by destruct (in_range b _).
Qed.

Lemma vol_inv_load cid :
  vol_inv store a lg vc ((cid, store cid) :: lds) todo stored.
Proof.
  destruct I as [Iwf Iv In Is Ivi Ic Il Ild Ind Iit Ist]. split; auto.
  intros c base [E|Hin]%elem_of_cons; [|by apply Ild]. simplify_eq. split; [apply Is|done].
Qed.

Lemma entries_in {A} (m : gmap Z A) (k : Z) (x : A) : (k, x) ∈ entries m <-> m !! k = Some x.
Proof.
  unfold entries. rewrite <- elem_of_map_to_list. by rewrite (merge_sort_Permutation by_key).
Qed.

Lemma flush_items_in (c : WriteCache) vol i :
  caches c !! vol = Some vc -> i ∈ dirty_chunks vol c ->
  exists d, vc_dirty vc !! i.1.1 = Some d /\ pending d = None /\ i = (i.1.1, data d, version d).
Proof.
  intros Hc Hi. unfold dirty_chunks, whole_entries in Hi. rewrite Hc in Hi.
  apply list_elem_of_In, in_map_iff in Hi as ([k d] & <- & Hf).
  apply filter_In in Hf as [Hin Hp]. apply list_elem_of_In, entries_in in Hin. cbn in *.
  exists d. destruct (pending d); done.
Qed.

Lemma filter_nodup_keys {A} (f : Z * A -> bool) (l : list (Z * A)) :
  NoDup (l.*1) -> NoDup ((List.filter f l).*1).
Proof.
  induction l as [|x l IH]; cbn; [done|]. rewrite NoDup_cons. intros [Hx Hl].
  destruct (f x); cbn; [|by apply IH]. rewrite NoDup_cons. split; [|by apply IH].
  intros Hin. apply Hx. apply list_elem_of_fmap in Hin as (y & E & Hy).
  apply list_elem_of_fmap. exists y. split; [done|].
  apply list_elem_of_In, filter_In in Hy as [Hy _]. by apply list_elem_of_In.
Qed.

Lemma flush_items_nodup (c : WriteCache) vol :
  caches c !! vol = Some vc -> NoDup (map (fun i : item => i.1.1) (dirty_chunks vol c)).
Proof.
  intros Hc. unfold dirty_chunks, whole_entries. rewrite Hc, map_map.
  apply (filter_nodup_keys (A:=DirtyChunk)). unfold entries.
  rewrite (merge_sort_Permutation by_key). apply NoDup_fst_map_to_list.
Qed.

(** A flush that starts. *)
Lemma vol_inv_take (c : WriteCache) vol :
  caches c !! vol = Some vc -> vol_inv store a lg vc lds (dirty_chunks vol c) [].
Proof.
  intros Hc. destruct I as [Iwf Iv In Is Ivi Ic Il Ild Ind Iit Ist]. split; auto.
  - by apply flush_items_nodup.
  - intros i Hi. destruct (flush_items_in c vol i Hc Hi) as (d & Hd & Hp & E).
    split.
    + rewrite E. cbn. by apply (Iv i.1.1).
    + left. exists d. rewrite E. cbn. split_and!; try done.
    + rewrite E. cbn. by destruct (wf_dirty _ Iwf _ _ Hd).
    + intros o Ho _. rewrite E. cbn. rewrite <- Ivi. unfold view. pose proof (wf_cs _ Iwf).
      rewrite Z.div_add_l, Z.div_small, Z.add_0_r by lia.
      rewrite (Z.add_comm (_ * _)), Z.mod_add, Z.mod_small by lia.
      unfold chunk_byte. by rewrite Hd, Hp.
  - set_solver.
Qed.

End volume.

Section flushing.
Context (store : Z -> bytes) (a : Z -> byte) (lg : Z -> option byte) (vc : VolumeCache)
        (lds : list (ChunkId * bytes)) (todo stored : list item).

Lemma vol_inv_drop i :
  vol_inv store a lg vc lds (i :: todo) stored -> vol_inv store a lg vc lds todo stored.
Proof.
  intros [Iwf Iv In Is Ivi Ic Il Ild Ind Iit Ist]. split; auto.
  - rewrite map_app in *. cbn in Ind. rewrite NoDup_app in *.
    destruct Ind as (? & Hd & Hn). apply NoDup_cons in Hn as [_ Hn]. split_and!; try done.
    intros x Hx Hx'. apply (Hd x Hx). set_solver.
  - intros j Hj. apply Iit. set_solver.
Qed.

(** One chunk of the flush reaches the OSDs. *)
Lemma vol_inv_store i :
  vol_inv store a lg vc lds (i :: todo) stored ->
  vol_inv (fun c => if decide (c = i.1.1) then i.1.2 else store c) a lg vc lds todo
    (stored ++ [i]).
Proof.
  intros [Iwf Iv In Is Ivi Ic Il Ild Ind Iit Ist]. pose proof (wf_cs _ Iwf) as Hcs.
  pose proof (Iit i ltac:(set_solver)) as Hi. pose proof Hi as [_ Hst Hlen Hby].
  assert (forall c, store c = (if decide (c = i.1.1) then i.1.2 else store c) \/
    c = i.1.1 /\ exists d, vc_dirty vc !! c = Some d /\ pending d = None) as Hcase.
  { intros c. case_decide as Hc; [|by left]. subst c.
    destruct Hst as [(d & Hd & Hp & _)|[Hk _]]; [right; eauto|by left]. }
  split; auto.
  - intros cid. by case_decide.
  - intros b. rewrite <- Ivi. unfold view, chunk_byte.
    destruct (Hcase (b / csize vc)) as [<-|(_ & d & -> & Hp)]; [done|]. by rewrite Hp.
  - intros cid b Hcl o Ho. destruct (Hcase cid) as [<-|(_ & d & Hd & _)]; [by apply (Ic cid)|].
    rewrite (wf_apart _ Iwf _ _ Hd) in Hcl. done.
  - intros b. case_decide as Hc; [|apply Il]. rewrite Il. destruct (lg b) eqn:El; [done|]. cbn.
    pose proof (Z.div_mod b (csize vc) ltac:(lia)) as Hb. rewrite Hc, Z.mul_comm in Hb.
    specialize (Hby (b mod csize vc)). rewrite <- Hb in Hby.
    rewrite Hby by (done || apply Z.mod_pos_bound; lia). by rewrite Il, El, Hc.
  - intros cid base Hin. destruct (Ild _ _ Hin) as [? Hl]. split; [done|]. intros Hnh o Ho.
    destruct (Hcase cid) as [<-|(_ & d & Hd & Hp)]; [by apply Hl|].
    unfold held, chunk_of in Hnh. by rewrite Hd, Hp in Hnh.
  - by rewrite <- app_assoc.
  - intros j Hj. apply item_ok_stored; [done|]. apply Iit. set_solver.
  - intros j Hj. apply elem_of_app in Hj as [Hj|Hj].
    + case_decide as Hc; [|by apply Ist]. exfalso. rewrite map_app, NoDup_app in Ind.
      destruct Ind as (_ & Hdis & _). apply (Hdis j.1.1); [|cbn; rewrite Hc; set_solver].
      apply list_elem_of_fmap. eauto.
    + apply list_elem_of_singleton in Hj as ->. by rewrite decide_True.
Qed.

(** A stored chunk whose commit's answer was lost is not marked. *)
Lemma vol_inv_unmark i :
  vol_inv store a lg vc lds todo (stored ++ [i]) -> vol_inv store a lg vc lds todo stored.
Proof.
  intros [Iwf Iv In Is Ivi Ic Il Ild Ind Iit Ist]. split; auto.
  - rewrite <- app_assoc, !map_app, !NoDup_app in *. cbn in Ind.
    destruct Ind as (? & Hd & _ & _ & Hn). split_and!; try done.
    intros x Hx Hx'. apply (Hd x Hx). set_solver.
  - intros j Hj. apply Iit. set_solver.
  - intros j Hj. apply Ist. set_solver.
Qed.

(** A mark leaves the chunks of other items. *)
Lemma item_ok_mark cid ver total i :
  wf vc -> (forall d, vc_dirty vc !! cid = Some d -> version d = ver -> pending d = None) ->
  item_ok store a lg vc i -> i.1.1 <> cid ->
  item_ok store a lg (mark_one (vc, total) (cid, ver)).1 i.
Proof.
  intros Hwf Hp [Hv Hs Hl Hb] Hne.
  destruct (mark_one_spec store cid ver vc total Hwf Hp) as (_ & M & N & _ & D & _ & _).
  set (vc' := (mark_one (vc, total) (cid, ver)).1) in *.
  assert (csize vc' = csize vc) as Hcs by (unfold csize; by rewrite M).
  split; rewrite ?Hcs; [by rewrite N| |done|done].
  destruct Hs as [(d & Hd & ?)|[Hk Hlt]].
  - left. exists d. by rewrite D, decide_False.
  - right. split; [done|]. intros d. rewrite D, decide_False by done. apply Hlt.
Qed.

(** A stored chunk is marked. *)
Lemma vol_inv_mark i total :
  vol_inv store a lg vc lds todo (i :: stored) ->
  vol_inv store a lg (mark_one (vc, total) (i.1.1, i.2)).1 lds todo stored.
Proof.
  intros [Iwf Iv In Is Ivi Ic Il Ild Ind Iit Ist]. cbn in Ind.
  apply NoDup_cons in Ind as [Hni Ind].
  destruct (Iit i ltac:(set_solver)) as [_ Hst Hlen Hby].
  assert (forall d, vc_dirty vc !! i.1.1 = Some d -> version d = i.2 ->
    pending d = None /\ data d = i.1.2) as Hsame.
  { intros d Hd Hv. destruct Hst as [(d' & Hd' & Hp & _ & Heq)|[_ Hlt]].
    - rewrite Hd in Hd'. injection Hd' as <-. auto.
    - specialize (Hlt d Hd). lia. }
  destruct (mark_one_spec store i.1.1 i.2 vc total Iwf) as (W & M & N & H & D & C & B).
  { intros d Hd Hv. by apply Hsame. }
  assert (forall j, j ∈ stored ++ todo ->
    item_ok store a lg (mark_one (vc, total) (i.1.1, i.2)).1 j) as Hitems.
  { intros j Hj. apply item_ok_mark; [done|intros d Hd Hv; by apply Hsame|apply Iit; set_solver|].
    intros E. apply Hni. rewrite <- E. apply list_elem_of_fmap. eauto. }
  set (vc' := (mark_one (vc, total) (i.1.1, i.2)).1) in *.
  assert (csize vc' = csize vc) as Hcs by (unfold csize; by rewrite M).
  split; rewrite ?Hcs; auto.
  - intros c d0 Hd0. rewrite N. rewrite D in Hd0. case_decide; [|by apply Iv in Hd0].
    subst c. destruct (vc_dirty vc !! i.1.1) as [d|] eqn:Hd; [|done].
    destruct (_ =? _); simplify_eq. by apply Iv in Hd.
  - by rewrite N.
  - intros b. rewrite <- Ivi. unfold view. rewrite Hcs. apply B.
  - intros cid b Hcl. apply C in Hcl as [Hcl|(-> & d0 & Hd0 & Hv & <-)]; [by apply Ic|].
    destruct (Hsame d0 Hd0 Hv) as [_ ->]. unfold loaded. by rewrite Ist by set_solver.
  - intros cid base Hin. rewrite H. by apply Ild.
  - intros j Hj. apply Ist. set_solver.
Qed.

(** The journal can be emptied when nothing is dirty: the OSDs hold it all. *)
Lemma vol_inv_reset :
  vol_inv store a lg vc lds todo stored -> vc_dirty vc = ∅ ->
  vol_inv store a (fun _ => None) vc lds todo stored.
Proof.
  intros [Iwf Iv In Is Ivi Ic Il Ild Ind Iit Ist] He. pose proof (wf_cs _ Iwf).
  assert (forall b, a b = byte_at (store (b / csize vc)) (b mod csize vc)) as Hall.
  { intros b. rewrite <- Ivi. unfold view, chunk_byte. rewrite He, lookup_empty.
    destruct (vc_clean vc !! (b / csize vc)) eqn:E; [|done].
    eapply Ic; [done|]. apply Z.mod_pos_bound. lia. }
  split; auto. intros i Hi. destruct (Iit i Hi) as [Hv [(d & Hd & _)|Hk] Hl Hb].
  - by rewrite He, lookup_empty in Hd.
  - split; [done|by right|done|]. intros o Ho _. rewrite Hall, Z.div_add_l, Z.div_small, Z.add_0_r by lia.
    rewrite (Z.add_comm (_ * _)), Z.mod_add, Z.mod_small by lia. by destruct Hk as [-> _].
Qed.

End flushing.

Lemma vol_inv_marks store a lg lds todo stored : forall vc total,
  vol_inv store a lg vc lds todo stored ->
  vol_inv store a lg (foldl mark_one (vc, total) (marks stored)).1 lds todo [].
Proof.
  induction stored as [|i l IH]; intros vc total I; [done|]. cbn [marks map foldl].
  destruct (mark_one (vc, total) (i.1.1, i.2)) as [vc' t'] eqn:E.
  apply IH. replace vc' with (mark_one (vc, total) (i.1.1, i.2)).1 by (by rewrite E).
  by apply vol_inv_mark.
Qed.

Section machine.
Context {CRC : Crc32c}.

(** Whether a write gets past the journal. *)
Definition accepted (w : Journal.disk_write) (vol : string) (offset : Z) (src : bytes)
    (c : WriteCache) (vc : VolumeCache) : bool :=
  match journal c with
  | None => true
  | Some j =>
    is_ok (Journal.log_write w vol (Chunk.byte_offset_to_chunk_id (mapper vc) offset)
             (offset mod csize vc) src j).2
  end.

(** Nothing, or the bytes of an entry whose append was cut short. *)
Definition torn_entry (torn : bytes) : Prop :=
  torn = [] \/ exists e k, Journal.good e /\ 0 <= k < lenZ (Journal.serialize e) /\
    torn = take (Z.to_nat k) (Journal.serialize e).

(** The cache of a gateway that just started: the journal opened, and every
    volume open again with nothing cached. *)
Definition reopened (c : WriteCache) (j' : Journal.WriteJournal) (c0 : WriteCache) : Prop :=
  caches c0 = (fun vc => VolumeCache_new (mapper vc)) <$> caches c /\ journal c0 = Some j'.

Definition known (vm : Volume.VolumeManager) (c : WriteCache) : Prop :=
  forall vol, is_Some (caches c !! vol) -> is_ok (Volume.get_volume vol vm) = true.

Inductive step : gw -> gw -> Prop :=
(** A client's write, however the journal meets the disk. *)
| s_write s now w d vol offset src vc c' r :
    caches (cache s) !! vol = Some vc -> Chunk.in_space (mapper vc) offset (lenZ src) ->
    src <> [] -> rust_string vol ->
    next_version vc + lenZ src < two64 ->
    (forall j, journal (cache s) = Some j ->
       JournalCrash.counters_fit (Journal.entry_write (Journal.j_sequence j) vol
         (Chunk.byte_offset_to_chunk_id (mapper vc) offset) (offset mod csize vc) src) j) ->
    write now w d vol offset src (cache s) = (c', r) ->
    step s (if accepted w vol offset src (cache s) vc
            then mkGw c' (stripes s) (abs_write (abs s) vol offset src)
                   (jlog s ++ [(vol, Chunk.byte_offset_to_chunk_id (mapper vc) offset,
                                offset mod csize vc, src)]) (loads s) (flight s) (waiting s)
            else mkGw c' (stripes s) (abs s) (jlog s) (loads s) (flight s) (waiting s))
(** A task reads a chunk's stored bytes, *)
| s_load s vol cid vc :
    caches (cache s) !! vol = Some vc ->
    step s (mkGw (cache s) (stripes s) (abs s) (jlog s)
              ((vol, cid, read_chunk (stripes s) vol cid (csize vc)) :: loads s) (flight s) (waiting s))
(** and later merges them in or keeps them as a clean chunk. *)
| s_resolve s vol cid base vc c' :
    (vol, cid, base) ∈ loads s -> caches (cache s) !! vol = Some vc ->
    next_version vc + 1 < two64 ->
    resolve (E:=BlockError) vol cid base (cache s) = Ok c' ->
    step s (mkGw c' (stripes s) (abs s) (jlog s) (loads s) (flight s) (waiting s))
| s_add_clean s vol cid base :
    (vol, cid, base) ∈ loads s ->
    step s (mkGw (add_clean vol cid base (cache s)) (stripes s) (abs s) (jlog s) (loads s)
              (flight s) (waiting s))
(** [flush_volume] takes the chunks that are due before it has the lock, *)
| s_due s now vol :
    get_chunks_to_flush now vol (cache s) <> [] ->
    step s (mkGw (cache s) (stripes s) (abs s) (jlog s) (loads s) (flight s)
              ((vol, get_chunks_to_flush now vol (cache s)) :: waiting s))
(** and gets it some time later, in any order. *)
| s_lock s w l1 l2 :
    flight s = None -> waiting s = l1 ++ w :: l2 ->
    step s (mkGw (cache s) (stripes s) (abs s) (jlog s) (loads s) (Some (w, [])) (l1 ++ l2))
(** [flush_volume_all] takes the lock and then the dirty chunks. *)
| s_take s vol :
    flight s = None ->
    step s (mkGw (cache s) (stripes s) (abs s) (jlog s) (loads s)
              (Some (vol, dirty_chunks vol (cache s), [])) (waiting s))
(** Under the lock the chunks are stored one by one and those stored are
    marked. *)
| s_store s vol i todo stored r st ok :
    flight s = Some (vol, i :: todo, stored) ->
    store_chunk (stripes s) vol i.1.1 i.1.2 r = (st, ok) ->
    step s (mkGw (cache s) st (abs s) (jlog s) (loads s)
              (Some (vol, todo, if ok then stored ++ [i] else stored)) (waiting s))
| s_mark s vol stored :
    flight s = Some (vol, [], stored) ->
    step s (mkGw (mark_flushed vol (marks stored) (cache s)) (stripes s) (abs s) (jlog s)
              (loads s) None (waiting s))
(** The journal is emptied if nothing is dirty. *)
| s_reset s d c' r :
    reset_journal_if_clean d (cache s) = (c', r) ->
    step s (mkGw c' (stripes s) (abs s)
              (if bool_decide (map_Forall (fun _ vc => vc_dirty vc = ∅) (caches (cache s)))
                  && match journal (cache s) with
                     | Some j => JournalCrash.renames d j | None => false end
               then [] else jlog s) (loads s) (flight s) (waiting s))
(** A volume never opened before is opened. *)
| s_open s vol cs c' :
    caches (cache s) !! vol = None -> cs < 2 ^ 32 ->
    (forall w, w ∈ jlog s -> w.1.1.1 <> vol) -> (forall l, l ∈ loads s -> l.1.1 <> vol) ->
    (forall f, flight s = Some f -> f.1.1 <> vol) -> (forall w, w ∈ waiting s -> w.1 <> vol) ->
    (forall cid b, stripes s !! (vol, cid) = Some b -> lenZ b = cs) ->
    init_volume_sized (E:=BlockError) vol cs (cache s) = Ok c' ->
    step s (mkGw c' (stripes s) (abs_open (abs s) (stripes s) vol cs) (jlog s) (loads s)
              (flight s) (waiting s))
(** The process dies, maybe in the middle of an append, and starts again. *)
| s_restart s now vm st max j torn j' c0 c' :
    journal (cache s) = Some j -> Journal.failed j = false -> torn_entry torn ->
    Journal.open (Some (Journal.mkDisk (Journal.file j ++ torn) st)) max = Ok j' ->
    reopened (cache s) j' c0 -> known vm (cache s) -> log_bytes (jlog s) < two64 ->
    replay_journal now vm c0 = Ok c' ->
    step s (mkGw c' (stripes s) (abs s) (jlog s) [] None []).

(** ** The invariant *)

(** The last write of the journal to byte [b], if any. *)
Definition log_step (vol : string) (cs b : Z) (acc : option byte)
    (w : string * ChunkId * Z * bytes) : option byte :=
  let '(v, cid, oic, d) := w in
  if bool_decide (v = vol) && in_range b (cid * cs + oic, lenZ d)
  then Some (byte_at d (b - (cid * cs + oic))) else acc.

Definition logged (vol : string) (cs : Z) (log : list (string * ChunkId * Z * bytes)) (b : Z)
    : option byte := foldl (log_step vol cs b) None log.

Definition loads_of (vol : string) (l : list (string * ChunkId * bytes)) : list (ChunkId * bytes) :=
  omap (fun '(v, c, b) => if decide (v = vol) then Some (c, b) else None) l.

#[local] Arguments loads_of : simpl never.

Definition todo_of (vol : string) (f : option (string * list item * list item)) : list item :=
  match f with Some (v, t, _) => if decide (v = vol) then t else [] | None => [] end.
Definition stored_of (vol : string) (f : option (string * list item * list item)) : list item :=
  match f with Some (v, _, d) => if decide (v = vol) then d else [] | None => [] end.

Definition inv (s : gw) : Prop := forall vol vc, caches (cache s) !! vol = Some vc ->
  vol_inv (fun cid => read_chunk (stripes s) vol cid (csize vc)) (abs s vol)
    (logged vol (csize vc) (jlog s)) vc (loads_of vol (loads s)) (todo_of vol (flight s))
    (stored_of vol (flight s)).

Lemma item_ok_ext store store' a a' lg lg' vc i :
  (forall c, store' c = store c) -> (forall b, a' b = a b) -> (forall b, lg' b = lg b) ->
  item_ok store a lg vc i -> item_ok store' a' lg' vc i.
Proof.
  intros Hs Ha Hl [Hv Hst Hlen Hb]. split; try done.
  - unfold item_kept in *. by rewrite Hs.
  - intros o Ho. rewrite Hl, Ha. by apply Hb.
Qed.

Lemma vol_inv_ext store store' a a' lg lg' vc lds todo stored :
  (forall c, store' c = store c) -> (forall b, a' b = a b) -> (forall b, lg' b = lg b) ->
  vol_inv store a lg vc lds todo stored -> vol_inv store' a' lg' vc lds todo stored.
Proof.
  intros Hs Ha Hl [Iwf Iv In Is Ivi Ic Il Ild Ind Iit Ist].
  assert (forall cs cid b, loaded store cs cid b -> loaded store' cs cid b) as Hlo.
  { unfold loaded. intros cs cid b H o Ho. rewrite Hs. by apply H. }
  split; auto.
  - intros cid. by rewrite Hs.
  - intros b. rewrite Ha, <- Ivi. unfold view, chunk_byte. by rewrite Hs.
  - intros b. by rewrite Ha, Hl, Hs.
  - intros cid base Hin. destruct (Ild _ _ Hin). split; [done|]. intros. apply Hlo. auto.
  - intros i Hi. by apply (item_ok_ext store store' a a' lg), Iit.
  - intros i Hi. rewrite Hs. by apply Ist.
Qed.

(** The volume with another flush in place of the one in flight. *)
Lemma vol_inv_items store a lg vc lds todo stored items :
  vol_inv store a lg vc lds todo stored -> NoDup (map (fun i : item => i.1.1) items) ->
  (forall i, i ∈ items -> item_ok store a lg vc i) -> vol_inv store a lg vc lds items [].
Proof. intros [Iwf Iv In Is Ivi Ic Il Ild Ind Iit Ist] Hn Hi. split; auto. set_solver. Qed.

Lemma logged_snoc vol cs log w b :
  logged vol cs (log ++ [w]) b = log_step vol cs b (logged vol cs log b) w.
Proof. unfold logged. by rewrite foldl_app. Qed.

(** What a client's write does to the cache. *)
Lemma write_cases now w d vol offset src c vc c' r :
  caches c !! vol = Some vc -> wf vc -> Chunk.in_space (mapper vc) offset (lenZ src) ->
  src <> [] -> write now w d vol offset src c = (c', r) ->
  (accepted w vol offset src c vc = false -> caches c' = caches c) /\
  (accepted w vol offset src c vc = true -> exists c0 c1, caches c0 = caches c /\
     apply now vol offset src c0 = Ok c1 /\ caches c' = caches c1).
Proof.
  intros Hc Hwf Hin Hne H. unfold write in H.
  destruct (Z.eqb_spec (lenZ src) 0) as [E|_]; [by apply lenZ_nil_inv in E|].
  rewrite Hc in H. unfold accepted. fold (csize vc) in H.
  assert (forall c0, caches c0 = caches c -> exists c1, apply now vol offset src c0 = Ok c1)
    as Happ.
  { intros c0 E. destruct (apply_spec (fun _ => []) now vol offset src c0 vc)
      as (vc' & t & -> & _); [by split; [rewrite E|]|done|eauto]. }
  destruct (journal c) as [j|] eqn:Ej.
  - destruct (Journal.log_write w vol _ _ src j) as [j1 lr] eqn:El. cbn [snd].
    destruct lr as [seq|e|]; cbn in H; [|by simplify_eq..]. split; [done|]. intros _.
    destruct (Happ (set_journal (Some j1) c) eq_refl) as [c1 Ha]. rewrite Ha in H.
    exists (set_journal (Some j1) c), c1. split_and!; [done..|].
    destruct (journal c1); [destruct (Journal.sync_to _ _ _)|]; by simplify_eq.
  - split; [done|]. intros _. destruct (Happ c eq_refl) as [c1 Ha]. rewrite Ha in H.
    exists c, c1. split_and!; [done..|]. destruct (journal c1); by simplify_eq.
Qed.

Lemma inv_write s now w d vol offset src vc c' r :
  inv s -> caches (cache s) !! vol = Some vc -> Chunk.in_space (mapper vc) offset (lenZ src) ->
  src <> [] -> next_version vc + lenZ src < two64 ->
  write now w d vol offset src (cache s) = (c', r) ->
  inv (if accepted w vol offset src (cache s) vc
       then mkGw c' (stripes s) (abs_write (abs s) vol offset src)
              (jlog s ++ [(vol, Chunk.byte_offset_to_chunk_id (mapper vc) offset,
                           offset mod csize vc, src)]) (loads s) (flight s) (waiting s)
       else mkGw c' (stripes s) (abs s) (jlog s) (loads s) (flight s) (waiting s)).
Proof.
  intros I Hc Hin Hne Hv H. pose proof (I vol vc Hc) as Iv. pose proof (v_wf _ _ _ _ _ _ _ Iv) as Hwf.
  destruct (write_cases _ _ _ _ _ _ _ _ _ _ Hc Hwf Hin Hne H) as [Hno Hyes].
  destruct (accepted _ _ _ _ _ _).
  2:{ intros v vc0. cbn. rewrite Hno by done. apply I. }
  destruct Hyes as (c0 & c1 & E0 & Ha & E1); [done|].
  destruct (apply_spec (fun cid => read_chunk (stripes s) vol cid (csize vc)) now vol offset src c0
    vc) as (vc' & t & Ha' & Hwf' & Hm & Hvw & Hg); [by split; [rewrite E0|]|done|].
  destruct (Hg (v_next _ _ _ _ _ _ _ Iv) Hv) as (G & V & _ & C).
  rewrite Ha in Ha'. injection Ha' as ->. cbn in E1. rewrite E0 in E1.
  assert (csize vc' = csize vc) as Hcs by (unfold csize; by rewrite Hm).
  assert (Chunk.byte_offset_to_chunk_id (mapper vc) offset * csize vc + offset mod csize vc = offset)
    as Hoff.
  { pose proof (wf_cs _ Hwf). unfold Chunk.byte_offset_to_chunk_id. fold (csize vc).
    pose proof (Z.div_mod offset (csize vc) ltac:(lia)). lia. }
  intros v vc0. cbn. rewrite E1. intros Hl. apply lookup_insert_Some in Hl as [[<- <-]|[Hne' Hl]].
  - rewrite Hcs. eapply vol_inv_ext, (vol_inv_write _ _ _ _ _ _ _ Iv vc' offset src); try done.
    + intros b. unfold abs_write. by rewrite bool_decide_true.
    + intros b. rewrite logged_snoc. cbn. rewrite bool_decide_true, Hoff by done. done.
  - eapply vol_inv_ext; [done| | |by apply I].
    + intros b. unfold abs_write. by rewrite bool_decide_false.
    + intros b. rewrite logged_snoc. cbn. by rewrite bool_decide_false.
Qed.

Lemma loads_of_in vol cid base l : (vol, cid, base) ∈ l -> (cid, base) ∈ loads_of vol l.
Proof.
  intros H. unfold loads_of. apply list_elem_of_omap. exists (vol, cid, base).
  by rewrite decide_True.
Qed.

Lemma loads_of_cons v vol cid b l :
  loads_of v ((vol, cid, b) :: l) =
  if decide (vol = v) then (cid, b) :: loads_of v l else loads_of v l.
Proof. unfold loads_of. cbn. by case_decide. Qed.

Lemma inv_load s vol cid vc :
  inv s -> caches (cache s) !! vol = Some vc ->
  inv (mkGw (cache s) (stripes s) (abs s) (jlog s)
         ((vol, cid, read_chunk (stripes s) vol cid (csize vc)) :: loads s) (flight s) (waiting s)).
Proof.
  intros I Hc v vc0 Hl. cbn in *. specialize (I v vc0 Hl). rewrite loads_of_cons. case_decide as E; [|done]. subst v.
  rewrite Hc in Hl. injection Hl as ->. exact (vol_inv_load _ _ _ _ _ _ _ I cid).
Qed.

Lemma inv_resolve s vol cid base vc c' :
  inv s -> (vol, cid, base) ∈ loads s -> caches (cache s) !! vol = Some vc ->
  next_version vc + 1 < two64 -> resolve (E:=BlockError) vol cid base (cache s) = Ok c' ->
  inv (mkGw c' (stripes s) (abs s) (jlog s) (loads s) (flight s) (waiting s)).
Proof.
  intros I Hin Hc Hn H. pose proof (I vol vc Hc) as Iv.
  unfold resolve in H. rewrite Hc in H.
  destruct (v_load _ _ _ _ _ _ _ Iv cid base (loads_of_in _ _ _ _ Hin)) as [_ Hl].
  destruct (resolve_vc_spec (E:=BlockError)
    (fun cid => read_chunk (stripes s) vol cid (csize vc)) cid base vc)
    as (vc' & E & W & M & G & V & C & _ & _ & B);
    [apply Iv|apply Iv|done|done|]. rewrite E in H. cbn in H. simplify_eq.
  assert (csize vc' = csize vc) as Hcs by (unfold csize; by rewrite M).
  intros v vc0. cbn. rewrite lookup_insert_Some. intros [[<- <-]|[_ ?]]; [|by apply I].
  rewrite Hcs. apply (vol_inv_grown _ _ _ vc); try done. rewrite C. apply Iv.
Qed.

Lemma inv_add_clean s vol cid base :
  inv s -> (vol, cid, base) ∈ loads s ->
  inv (mkGw (add_clean vol cid base (cache s)) (stripes s) (abs s) (jlog s) (loads s) (flight s) (waiting s)).
Proof.
  intros I Hin. unfold add_clean. destruct (caches (cache s) !! vol) as [vc|] eqn:Hc; [|done].
  pose proof (I vol vc Hc) as Iv.
  destruct (v_load _ _ _ _ _ _ _ Iv cid base (loads_of_in _ _ _ _ Hin)) as [Hlen Hl].
  destruct (add_clean_vc_spec (fun cid => read_chunk (stripes s) vol cid (csize vc)) cid base vc)
    as (W & M & G & V & _ & C & B); [apply Iv|done|done|].
  set (vc' := add_clean_vc cid base vc) in *.
  assert (csize vc' = csize vc) as Hcs by (unfold csize; by rewrite M).
  intros v vc0. cbn. rewrite lookup_insert_Some. intros [[<- <-]|[_ ?]]; [|by apply I].
  rewrite Hcs. apply (vol_inv_grown _ _ _ vc); try done.
  intros c b Hb. apply C in Hb as [Hb|(-> & -> & Hh)]; [by apply Iv|by apply Hl].
Qed.

Lemma inv_take s vol :
  inv s -> flight s = None ->
  inv (mkGw (cache s) (stripes s) (abs s) (jlog s) (loads s)
         (Some (vol, dirty_chunks vol (cache s), [])) (waiting s)).
Proof.
  intros I Hf v vc Hl. cbn in *. specialize (I v vc Hl). rewrite Hf in I.
  case_decide as E; [|done]. subst v. by eapply vol_inv_take.
Qed.

Lemma read_chunk_store st vol cid b c cs :
  read_chunk (<[(vol, cid) := b]> st) vol c cs =
  if decide (c = cid) then b else read_chunk st vol c cs.
Proof.
  unfold read_chunk. case_decide as E.
  - subst. by rewrite lookup_insert_eq.
  - by rewrite lookup_insert_ne by congruence.
Qed.

Lemma read_chunk_other st vol cid b v c cs :
  v <> vol -> read_chunk (<[(vol, cid) := b]> st) v c cs = read_chunk st v c cs.
Proof. intros. unfold read_chunk. by rewrite lookup_insert_ne by congruence. Qed.

Lemma inv_store s vol i todo stored r st ok :
  inv s -> flight s = Some (vol, i :: todo, stored) ->
  store_chunk (stripes s) vol i.1.1 i.1.2 r = (st, ok) ->
  inv (mkGw (cache s) st (abs s) (jlog s) (loads s)
         (Some (vol, todo, if ok then stored ++ [i] else stored)) (waiting s)).
Proof.
  intros I Hf Hs v vc Hl. cbn in *. specialize (I v vc Hl). rewrite Hf in I. cbn in I.
  case_decide as E; [subst v|].
  - assert (vol_inv (fun c => read_chunk (<[(vol, i.1.1) := i.1.2]> (stripes s)) vol c (csize vc))
      (abs s vol) (logged vol (csize vc) (jlog s)) vc (loads_of vol (loads s)) todo
      (stored ++ [i])) as I'.
    { eapply vol_inv_ext, vol_inv_store; [|done|done|done]. intros c. apply read_chunk_store. }
    destruct r as [| |[]]; cbn in Hs; simplify_eq; [done|by eapply vol_inv_drop| |].
    + by eapply vol_inv_unmark.
    + by eapply vol_inv_drop.
  - eapply vol_inv_ext; [|done|done|done]. intros c.
    destruct r as [| |[]]; cbn in Hs; simplify_eq; try done; by apply read_chunk_other.
Qed.

Lemma inv_mark s vol stored :
  inv s -> flight s = Some (vol, [], stored) ->
  inv (mkGw (mark_flushed vol (marks stored) (cache s)) (stripes s) (abs s) (jlog s) (loads s)
         None (waiting s)).
Proof.
  intros I Hf. unfold mark_flushed. destruct (caches (cache s) !! vol) as [vc|] eqn:Hc.
  2:{ intros v vc0 Hl. cbn in *. specialize (I v vc0 Hl). rewrite Hf in I. cbn in I.
      case_decide; [by subst; rewrite Hc in Hl|done]. }
  pose proof (I vol vc Hc) as Iv. rewrite Hf in Iv. cbn in Iv. rewrite !decide_True in Iv by done.
  pose proof (vol_inv_marks _ _ _ _ _ _ vc (total_dirty_bytes (cache s)) Iv) as Im.
  assert (mapper (foldl mark_one (vc, total_dirty_bytes (cache s)) (marks stored)).1 = mapper vc)
    as Hm.
  { clear. generalize (total_dirty_bytes (cache s)). generalize vc. induction (marks stored) as [|m l IH];
      intros vc0 t; [done|]. cbn [foldl]. destruct (mark_one (vc0, t) m) as [vc1 t1] eqn:E.
    rewrite IH. unfold mark_one in E. destruct m as [cid ver].
    destruct (vc_dirty vc0 !! cid); [destruct (_ =? _)|]; by simplify_eq. }
  destruct (foldl mark_one _ _) as [vc' t']. cbn in Im, Hm.
  assert (csize vc' = csize vc) as Hcs by (unfold csize; by rewrite Hm).
  intros v vc0. cbn. rewrite lookup_insert_Some. intros [[<- <-]|[Hne Hl]]; [by rewrite Hcs|].
  specialize (I v vc0 Hl). rewrite Hf in I. cbn in I. by rewrite !decide_False in I.
Qed.

Lemma reset_caches d c c' r : reset_journal_if_clean d c = (c', r) -> caches c' = caches c.
Proof.
  unfold reset_journal_if_clean. destruct (journal c) as [j|]; [|by intros; simplify_eq].
  case_bool_decide; [destruct (Journal.rotate d j)|]; by intros; simplify_eq.
Qed.

Lemma inv_reset s d c' r b :
  inv s -> reset_journal_if_clean d (cache s) = (c', r) ->
  inv (mkGw c' (stripes s) (abs s)
         (if bool_decide (map_Forall (fun _ vc => vc_dirty vc = ∅) (caches (cache s))) && b
          then [] else jlog s) (loads s) (flight s) (waiting s)).
Proof.
  intros I Hr%reset_caches v vc Hl. cbn in *. rewrite Hr in Hl. pose proof (I v vc Hl) as Iv.
  case_bool_decide as Hd; cbn; [|done]. destruct b; [|done].
  eapply vol_inv_ext, vol_inv_reset; [done..| |by eapply Hd]. done.
Qed.

Lemma logged_other vol cs log b : (forall w, w ∈ log -> w.1.1.1 <> vol) -> logged vol cs log b = None.
Proof.
  unfold logged. induction log as [|w log IH] using rev_ind; intros H; [done|].
  rewrite foldl_app. cbn. rewrite IH by set_solver. destruct w as [[[v cid] oic] d]. cbn.
  rewrite bool_decide_false; [done|]. apply (H (v, cid, oic, d)). set_solver.
Qed.

Lemma loads_of_other vol l : (forall w : string * ChunkId * bytes, w ∈ l -> w.1.1 <> vol) ->
  loads_of vol l = [].
Proof.
  induction l as [|[[v c] b] l IH]; intros H; [done|]. rewrite loads_of_cons.
  rewrite decide_False; [|apply (H (v, c, b)); set_solver]. apply IH. set_solver.
Qed.

Lemma inv_open s vol cs c' :
  inv s -> caches (cache s) !! vol = None -> cs < 2 ^ 32 ->
  (forall w, w ∈ jlog s -> w.1.1.1 <> vol) -> (forall l, l ∈ loads s -> l.1.1 <> vol) ->
  (forall f, flight s = Some f -> f.1.1 <> vol) ->
  (forall cid b, stripes s !! (vol, cid) = Some b -> lenZ b = cs) ->
  init_volume_sized (E:=BlockError) vol cs (cache s) = Ok c' ->
  inv (mkGw c' (stripes s) (abs_open (abs s) (stripes s) vol cs) (jlog s) (loads s) (flight s) (waiting s)).
Proof.
  intros I Hn Hcs Hj Hlo Hf Hst H. unfold init_volume_sized in H. rewrite Hn in H.
  apply outcome_bind_ok in H as (m & Hm & H). injection H as <-.
  assert (Chunk.chunk_size m = cs /\ 0 < cs) as [Hmc Hpos].
  { unfold Chunk.new in Hm. case_if; [|done]. case_if; [|done]. by injection Hm as <-. }
  assert (todo_of vol (flight s) = [] /\ stored_of vol (flight s) = []) as [Ht Hd].
  { destruct (flight s) as [[[v t] d]|]; [|done]. cbn. specialize (Hf _ eq_refl). cbn in Hf.
    by rewrite !decide_False. }
  intros v vc0. cbn. rewrite lookup_insert_Some. intros [[<- <-]|[Hne Hl]].
  - rewrite Ht, Hd, loads_of_other by done. unfold csize at 1 2. cbn. rewrite Hmc.
    assert (csize (VolumeCache_new m) = cs) as Hcv by done.
    split; rewrite ?Hcv; try done; try set_solver.
    + split; cbn; rewrite ?Hcv; try done; lia.
    + intros cid. unfold read_chunk. destruct (stripes s !! (vol, cid)) eqn:E; [by eapply Hst|].
      unfold lenZ. rewrite length_replicate. lia.
    + intros b. unfold view, chunk_byte, abs_open. rewrite Hcv. cbn.
      by rewrite bool_decide_true.
    + intros b. rewrite logged_other by done. cbn. unfold abs_open. by rewrite bool_decide_true.
    + constructor.
  - eapply vol_inv_ext; [done| |done|by apply I]. intros b. unfold abs_open.
    by rewrite bool_decide_false.
Qed.

(** ** The journal's part

    The entries [ws] are what the journal's file holds. *)
Record holds (j : Journal.WriteJournal) (ws : list Journal.JournalEntry) : Prop := mkHolds {
  h_file : exists hd junk, lenZ hd = Journal.HEADER_LEN /\
    Journal.file j = hd ++ Journal.entries_bytes ws ++ junk /\
    (Journal.failed j = false -> junk = []);
  h_good : Forall Journal.good ws;
  h_size : Journal.current_size j = Journal.HEADER_LEN + lenZ (Journal.entries_bytes ws);
  h_seq : is_u64 (Journal.j_sequence j);
}.

Lemma holds_append w e j ws j' r :
  holds j ws -> JournalCrash.numbered e j -> JournalCrash.counters_fit e j ->
  Journal.append w e j = (j', r) -> holds j' (if is_ok r then ws ++ [e] else ws).
Proof.
  intros [(hd & junk & Hh & Hf & Hj) Hg Hs Hq] Hn Hc Ha. pose proof Hc as [Hc1 Hc2].
  pose proof (lenZ_nonneg (Journal.entries_bytes ws)).
  destruct (JournalCrash.append_cases w e j j' r Hc) as [Hok|Herr]; [destruct Hq; lia| |done|..].
  { rewrite Hs. unfold Journal.HEADER_LEN. lia. }
  - destruct Hok as (-> & Ht & Hfl & -> & Hf' & Hfl' & Hq' & Hs' & _).
    rewrite (Hj Hfl), app_nil_r in Hf. split.
    + exists hd, []. split_and!; [done| |done].
      by rewrite Hf', Hf, JournalCrash.entries_bytes_snoc, app_nil_r, <- app_assoc.
    + apply Forall_app. split; [done|]. apply Forall_singleton. by eapply JournalCrash.good_append.
    + rewrite Hs', Hs, JournalCrash.entries_bytes_snoc, lenZ_app. lia.
    + rewrite Hq'. destruct Hq. unfold is_u64. lia.
  - destruct Herr as (-> & Hq' & Hs' & _ & _ & Hcase). split; [|done|by rewrite Hs'|by rewrite Hq'].
    destruct Hcase as [[-> ->]|(Hfl & k & [[-> ->]|[-> ->]])].
    + eauto.
    + exists hd, (junk ++ take k (Journal.serialize e)). by rewrite Hf, <- !app_assoc.
    + exists hd, []. split_and!; [done| |done]. rewrite (Hj Hfl), app_nil_r in Hf.
      rewrite Hf, app_nil_r, take_app_length'; [done|]. rewrite Hs, length_app.
      unfold lenZ in *. lia.
Qed.

Lemma holds_sync d upto j ws : holds j ws -> holds (Journal.sync_to d upto j).1 ws.
Proof.
  intros [(hd & junk & Hh & Hf & Hj) Hg Hs Hq]. unfold Journal.sync_to, Journal.sync_finish, Journal.fail.
  case_if; [by split; eauto 10|]. destruct (Journal.failed j) eqn:Ef.
  { split; cbn; eauto 10. }
  destruct d; cbn; split; cbn; eauto 10.
Qed.

Lemma holds_rotate d j ws :
  holds j ws -> holds (Journal.rotate d j).1 (if JournalCrash.renames d j then [] else ws).
Proof.
  intros [(hd & junk & Hh & Hf & Hj) Hg Hs Hq]. unfold Journal.rotate, JournalCrash.renames, Journal.fail.
  destruct (Journal.failed j) eqn:Ef; cbn [negb andb fst].
  { split; eauto 10. }
  destruct d; cbn [fst].
  2:{ split; eauto 10. }
  all: split; cbn; try done; try (by constructor).
  all: eexists _, []; (split; [apply Journal.header_length|]); (split; [|done]);
    cbn; by rewrite ?app_nil_r.
Qed.

Lemma holds_recover j ws : holds j ws -> Journal.recover j = Ok (Journal.replay (map Journal.norm ws)).
Proof.
  intros [(hd & junk & Hh & Hf & _) Hg Hs _]. by apply (Journal.recover_whole j hd ws junk).
Qed.

Lemma open_u64 disk max j : Journal.open disk max = Ok j -> is_u64 (Journal.j_sequence j).
Proof.
  unfold Journal.open. destruct disk as [d|]; [|by intros [= <-]].
  case_if; [|by intros [= <-]]. intros H. inv_ok.
  match goal with H : Journal.read_header _ = Ok _ |- _ => apply JournalCrash.read_header_u64 in H end.
  case_if; inv_ok; by cbn.
Qed.

Lemma holds_open_new max j : Journal.open None max = Ok j -> holds j [].
Proof.
  intros [= <-]. split; cbn; try done.
  exists (Journal.header 0 0), []. by rewrite Journal.header_length.
Qed.

(** A journal that did not fail reads back as it was. *)
Lemma holds_reopen j ws torn st max j' :
  holds j ws -> Journal.failed j = false -> torn_entry torn ->
  Journal.open (Some (Journal.mkDisk (Journal.file j ++ torn) st)) max = Ok j' ->
  holds j' (map Journal.norm ws).
Proof.
  intros [(hd & junk & Hh & Hf & Hj) Hg Hs Hq] Hfl Ht Ho. pose proof (open_u64 _ _ _ Ho) as Hu.
  rewrite (Hj Hfl), app_nil_r in Hf.
  pose proof (lenZ_nonneg (Journal.entries_bytes ws)). pose proof (lenZ_nonneg torn).
  assert (exists stop, Journal.scan (Journal.file j ++ torn) (lenZ (Journal.file j ++ torn)) =
    Ok (map Journal.norm ws, stop)) as [stop Hsc].
  { rewrite Hf, <- app_assoc. destruct Ht as [->|(e & k & He & Hk & ->)].
    - rewrite Journal.scan_whole; [eauto|done|done|]. by rewrite app_nil_r, lenZ_app, Hh.
    - rewrite (JournalCrash.scan_torn hd ws e k) by done. eauto. }
  apply Journal.open_canonical in Ho as (hd' & es & Hh' & Hg' & Hn & Hf' & Hc & Hsc' & _).
  2:{ cbn. rewrite Hf, !lenZ_app, Hh. unfold Journal.HEADER_LEN. lia. }
  cbn in Hsc'. rewrite Hsc' in Hsc. injection Hsc as -> _. split; [|done| |done].
  - exists hd', []. by rewrite app_nil_r.
  - by rewrite Hc, Hf', lenZ_app, Hh'.
Qed.

(** ** Replaying the journal *)

Lemma log_fold vol cs b log : forall acc,
  foldl (log_step vol cs b) acc log =
  match logged vol cs log b with Some x => Some x | None => acc end.
Proof.
  unfold logged. induction log as [|w log IH]; intros acc; [done|]. cbn [foldl].
  rewrite IH, (IH (log_step vol cs b None w)). destruct (foldl _ None log); [done|].
  destruct w as [[[v cid] oic] d]. cbn. by destruct (_ && _).
Qed.

Lemma log_bytes_nonneg l : 0 <= log_bytes l.
Proof.
  induction l as [|w l IH]; [done|]. change (log_bytes (w :: l)) with (lenZ w.2 + log_bytes l).
  pose proof (lenZ_nonneg w.2). lia.
Qed.

(** A logged write fits its volume. *)
Definition fits (m : Chunk.ChunkMapper) (w : string * ChunkId * Z * bytes) : Prop :=
  let '(_, cid, oic, d) := w in
  0 <= cid /\ 0 <= oic /\ d <> [] /\
  Chunk.in_space m (cid * Chunk.chunk_size m + oic) (lenZ d).

(** A cache with nothing clean, as replay leaves it. *)
Record unflushed (vc : VolumeCache) : Prop := mkUnflushed {
  u_wf : wf vc;
  u_ver : versioned vc;
  u_next : 0 <= next_version vc;
  u_clean : vc_clean vc = ∅;
}.

Definition replayed (vol : string) (log : list (string * ChunkId * Z * bytes))
    (vc vc' : VolumeCache) : Prop :=
  unflushed vc' /\ mapper vc' = mapper vc /\
  forall store b, view store vc' b = default (view store vc b) (logged vol (csize vc) log b).

Lemma replay_one now vol cid oic d c vc :
  caches c !! vol = Some vc -> unflushed vc -> fits (mapper vc) (vol, cid, oic, d) ->
  next_version vc + lenZ d < two64 ->
  exists c' vc', Cache.replay now vol
      (wadd64 (wmul64 cid (Chunk.chunk_size (mapper vc))) oic) d c = Ok c' /\
    caches c' = <[vol := vc']> (caches c) /\ journal c' = journal c /\
    replayed vol [(vol, cid, oic, d)] vc vc' /\ next_version vc' <= next_version vc + lenZ d.
Proof.
  intros Hc [Hwf Hv Hn Hcl] (Hcid & Hoic & Hne & Hin) Hfit.
  pose proof Hin as (_ & Hl & Hsp). pose proof (wf_mapper _ Hwf) as [Hm _].
  unfold Cache.replay. destruct (Z.eqb_spec (lenZ d) 0) as [E|_]; [by apply lenZ_nil_inv in E|].
  rewrite wmul64_small, wadd64_small by nia.
  set (off := cid * Chunk.chunk_size (mapper vc) + oic) in *.
  destruct (apply_spec (fun _ => []) now vol off d c vc) as (vc' & t & Ha & _ & _ & _ & Hg);
    [done|done|]. rewrite Ha.
  destruct (Hg Hn Hfit) as (G & V & N & C).
  exists (set_total t (set_caches (<[vol := vc']> (caches c)) c)), vc'.
  assert (forall store, wf vc' /\ mapper vc' = mapper vc /\ forall b, view store vc' b =
    if in_range b (off, lenZ d) then byte_at d (b - off) else view store vc b) as Hs.
  { intros store. destruct (apply_spec store now vol off d c vc) as (vc2 & t2 & Ha2 & W & M & B & _);
      [done|done|]. rewrite Ha in Ha2. injection Ha2 as E _.
    apply (f_equal (lookup vol)) in E. rewrite !lookup_insert_eq in E. by injection E as ->. }
  destruct (Hs (fun _ => [])) as (W & M & _). split_and!; try done.
  split_and!; [|done|].
  - split; [done|by apply V|destruct G; lia|]. apply map_empty. intros i.
    destruct (vc_clean vc' !! i) eqn:E; [|done]. apply C in E. by rewrite Hcl in E.
  - intros store b. destruct (Hs store) as (_ & _ & ->). unfold logged. cbn.
    rewrite bool_decide_true by done. cbn. fold (csize vc) in off. fold off.
    by destruct (in_range b (off, lenZ d)).
Qed.

Lemma logged_cons vol cs w log b :
  logged vol cs (w :: log) b =
  match logged vol cs log b with Some x => Some x | None => log_step vol cs b None w end.
Proof. unfold logged at 1. cbn [foldl]. by rewrite log_fold. Qed.

Lemma replayed_skip vol w log vc vc' :
  w.1.1.1 <> vol -> replayed vol log vc vc' -> replayed vol (w :: log) vc vc'.
Proof.
  intros Hne (U & M & B). split_and!; try done. intros store b. rewrite B, logged_cons.
  destruct (logged vol (csize vc) log b); [done|]. destruct w as [[[v cid] oic] d].
  cbn in *. by rewrite bool_decide_false.
Qed.

Lemma replayed_cons vol w log vc vc1 vc' :
  replayed vol [w] vc vc1 -> replayed vol log vc1 vc' -> replayed vol (w :: log) vc vc'.
Proof.
  intros (_ & M1 & B1) (U & M & B). split_and!; [done|congruence|]. intros store b.
  assert (csize vc1 = csize vc) as Hcs by (unfold csize; by rewrite M1).
  rewrite B, B1, Hcs, (logged_cons _ _ w log). destruct (logged vol (csize vc) log b); done.
Qed.

Lemma replay_writes_spec now vm log : forall c,
  (forall vol vc, caches c !! vol = Some vc ->
     unflushed vc /\ next_version vc + log_bytes log < two64) ->
  known vm c ->
  (forall w vc, w ∈ log -> caches c !! w.1.1.1 = Some vc -> fits (mapper vc) w) ->
  exists c', replay_writes now vm log c = Ok c' /\ journal c' = journal c /\
    forall vol, option_Forall2 (replayed vol log) (caches c !! vol) (caches c' !! vol).
Proof.
  induction log as [|w log IH]; intros c Hu Hk Hf; cbn [replay_writes].
  { exists c. split_and!; try done. intros vol. destruct (caches c !! vol) as [vc|] eqn:E; [|constructor].
    constructor. split_and!; [by eapply Hu|done|done]. }
  destruct w as [[[v cid] oic] d].
  change (log_bytes ((v, cid, oic, d) :: log)) with (lenZ d + log_bytes log) in Hu.
  pose proof (lenZ_nonneg d). pose proof (log_bytes_nonneg log).
  assert (caches c !! v = None -> exists c', replay_writes now vm log c = Ok c' /\
    journal c' = journal c /\ forall vol,
      option_Forall2 (replayed vol ((v, cid, oic, d) :: log)) (caches c !! vol) (caches c' !! vol))
    as Hskip.
  { intros Hn. destruct (IH c) as (c' & -> & Hj & Hr).
    - intros vol vc E. destruct (Hu vol vc E). split; [done|lia].
    - done.
    - intros w vc Hw. apply Hf. set_solver.
    - exists c'. split_and!; try done. intros vol. specialize (Hr vol).
      destruct (decide (v = vol)) as [->|Hne].
      + rewrite Hn in *. by inversion Hr; constructor.
      + destruct Hr; constructor. by apply replayed_skip. }
  unfold mapper_of. destruct (caches c !! v) as [vc|] eqn:Hc; cbn.
  2:{ destruct (is_ok _); by apply Hskip. }
  rewrite (Hk v) by (rewrite Hc; eauto). cbn [negb].
  destruct (Hu v vc Hc) as [Huv Hnv].
  destruct (replay_one now v cid oic d c vc) as (c1 & vc1 & -> & Hc1 & Hj1 & Hr1 & Hn1);
    [done|done|by apply (Hf (v, cid, oic, d)); [set_solver|]|lia|].
  cbn [mbind outcome_bind]. destruct (IH c1) as (c' & -> & Hj & Hr).
  - intros vol vc0. rewrite Hc1, lookup_insert_Some. intros [[<- <-]|[_ E]].
    + split; [apply Hr1|lia].
    + destruct (Hu vol vc0 E). split; [done|lia].
  - intros vol. rewrite Hc1. intros [x Hx]. apply lookup_insert_Some in Hx as [[<- _]|[_ Hx]];
      apply Hk; eauto.
  - intros w vc0 Hw. rewrite Hc1, lookup_insert_Some. intros [[E <-]|[_ E]].
    + destruct Hr1 as (_ & -> & _). apply Hf; [set_solver|by rewrite <- E].
    + apply Hf; [set_solver|done].
  - exists c'. split_and!; [done|congruence|]. intros vol. specialize (Hr vol). rewrite Hc1 in Hr.
    destruct (decide (v = vol)) as [->|Hne].
    + rewrite lookup_insert_eq in Hr. rewrite Hc. inversion Hr; subst. constructor.
      by eapply replayed_cons.
    + rewrite lookup_insert_ne in Hr by done. destruct Hr; constructor.
      by apply replayed_skip.
Qed.

(** ** The log and the journal agree *)

Definition entry_of (e : Journal.JournalEntry) (w : string * ChunkId * Z * bytes) : Prop :=
  Journal.entry_type e = Journal.Write /\ Journal.volume_id e = w.1.1.1 /\
  Journal.entry_chunk_id e = w.1.1.2 /\ Journal.offset e = w.1.2 /\
  Journal.data e = Some w.2 /\ w.2 <> [].

Record log_inv (s : gw) : Prop := mkLogInv {
  l_fits : forall w m, w ∈ jlog s -> mapper_of w.1.1.1 (cache s) = Some m -> fits m w;
  l_journal : forall j, journal (cache s) = Some j ->
    exists ws, holds j ws /\ Forall2 entry_of ws (jlog s);
}.

Lemma entry_of_norm e w : entry_of e w -> Journal.norm e = e.
Proof.
  intros (_ & _ & _ & _ & Hd & Hne). unfold Journal.norm. destruct e; cbn in *. subst.
  by destruct w.2.
Qed.

Lemma norm_all ws log : Forall2 entry_of ws log -> map Journal.norm ws = ws.
Proof. induction 1; cbn; [done|]. f_equal; [by eapply entry_of_norm|done]. Qed.

Lemma recovered_log ws log :
  Forall2 entry_of ws log -> recovered_writes (Journal.replay (map Journal.norm ws)) = log.
Proof.
  intros H. rewrite (norm_all ws log H). unfold Journal.replay.
  assert (forall acc, Forall2 entry_of ws log ->
    foldl Journal.recover_step acc ws = acc ++ ws) as ->.
  { clear H. intros acc H. revert acc. induction H as [|e w ws log He H IH]; intros acc; cbn.
    - by rewrite app_nil_r.
    - rewrite IH. unfold Journal.recover_step. destruct He as (-> & _). by rewrite <- app_assoc. }
  2: done. unfold recovered_writes. cbn [app].
  induction H as [|e [[[v cid] oic] d] ws log He H IH]; [done|]. cbn.
  destruct He as (_ & Hv & Hc & Ho & -> & _). cbn in *. by rewrite Hv, Hc, Ho, IH.
Qed.

Lemma mapper_of_insert vol vc vc' (c : WriteCache) t v :
  caches c !! vol = Some vc -> mapper vc' = mapper vc ->
  mapper_of v (set_total t (set_caches (<[vol := vc']> (caches c)) c)) = mapper_of v c.
Proof.
  intros Hc Hm. unfold mapper_of. cbn. destruct (decide (v = vol)) as [->|Hne].
  - rewrite lookup_insert_eq, Hc. cbn. by rewrite Hm.
  - by rewrite lookup_insert_ne.
Qed.

(** A step that leaves the volumes' mappers and the journal. *)
Lemma log_inv_frame s c' st a lds fl wt :
  log_inv s -> (forall v, mapper_of v c' = mapper_of v (cache s)) ->
  journal c' = journal (cache s) -> log_inv (mkGw c' st a (jlog s) lds fl wt).
Proof.
  intros [Hf Hj] Hm Hjr. split; cbn.
  - intros w m Hw. rewrite Hm. by apply Hf.
  - rewrite Hjr. apply Hj.
Qed.

Lemma write_journal now w d vol offset src c vc c' r :
  caches c !! vol = Some vc -> wf vc -> Chunk.in_space (mapper vc) offset (lenZ src) ->
  src <> [] -> write now w d vol offset src c = (c', r) ->
  (forall v, mapper_of v c' = mapper_of v c) /\
  match journal c with
  | None => journal c' = None
  | Some j => exists upto,
    let '(j1, lr) := Journal.log_write w vol (Chunk.byte_offset_to_chunk_id (mapper vc) offset)
                       (offset mod csize vc) src j in
    journal c' = Some (if is_ok lr then (Journal.sync_to d upto j1).1 else j1)
  end.
Proof.
  intros Hc Hwf Hin Hne H. unfold write in H.
  destruct (Z.eqb_spec (lenZ src) 0) as [E|_]; [by apply lenZ_nil_inv in E|].
  rewrite Hc in H. fold (csize vc) in H.
  assert (forall c0, caches c0 = caches c -> exists c1, apply now vol offset src c0 = Ok c1 /\
    journal c1 = journal c0 /\ (forall v, mapper_of v c1 = mapper_of v c)) as Happ.
  { intros c0 E. destruct (apply_spec (fun _ => []) now vol offset src c0 vc)
      as (vc' & t & -> & _ & M & _); [by split; [rewrite E|]|done|].
    eexists. split_and!; [done..|]. intros v.
    rewrite (mapper_of_insert vol vc) by (by rewrite ?E). unfold mapper_of. by rewrite E. }
  destruct (journal c) as [j|] eqn:Ej.
  - destruct (Journal.log_write w vol _ _ src j) as [j1 lr] eqn:El.
    destruct lr as [seq|e|]; cbn in H; [|by simplify_eq; split; [done|exists 0]..].
    destruct (Happ (set_journal (Some j1) c) eq_refl) as (c1 & Ha & Hj & Hm). rewrite Ha, Hj in H.
    cbn in H. destruct (Journal.sync_to d (wadd64 seq 1) j1) as [j2 r2] eqn:Es. simplify_eq.
    split; [exact Hm|]. exists (wadd64 seq 1). cbn. by rewrite Es.
  - destruct (Happ c eq_refl) as (c1 & Ha & Hj & Hm). rewrite Ha, Hj, Ej in H. simplify_eq.
    split; [done|congruence].
Qed.

Lemma log_inv_write s now w d vol offset src vc c' r :
  inv s -> log_inv s -> caches (cache s) !! vol = Some vc ->
  Chunk.in_space (mapper vc) offset (lenZ src) -> src <> [] -> rust_string vol ->
  (forall j, journal (cache s) = Some j ->
     JournalCrash.counters_fit (Journal.entry_write (Journal.j_sequence j) vol
       (Chunk.byte_offset_to_chunk_id (mapper vc) offset) (offset mod csize vc) src) j) ->
  write now w d vol offset src (cache s) = (c', r) ->
  log_inv (if accepted w vol offset src (cache s) vc
           then mkGw c' (stripes s) (abs_write (abs s) vol offset src)
                  (jlog s ++ [(vol, Chunk.byte_offset_to_chunk_id (mapper vc) offset,
                               offset mod csize vc, src)]) (loads s) (flight s) (waiting s)
           else mkGw c' (stripes s) (abs s) (jlog s) (loads s) (flight s) (waiting s)).
Proof.
  intros I [Hf Hj] Hc Hin Hne Hrs Hfit H. pose proof (v_wf _ _ _ _ _ _ _ (I vol vc Hc)) as Hwf.
  destruct (write_journal _ _ _ _ _ _ _ _ _ _ Hc Hwf Hin Hne H) as [Hm Hjr].
  pose proof (wf_cs _ Hwf) as Hcs. pose proof Hin as (Ho & _ & Hsp).
  pose proof (lenZ_nonneg src). fold (csize vc) in Hsp.
  set (cid := Chunk.byte_offset_to_chunk_id (mapper vc) offset) in *.
  set (oic := offset mod csize vc) in *.
  assert (0 <= oic < csize vc) as Hoic by (apply Z.mod_pos_bound; lia).
  assert (cid * csize vc + oic = offset) as Hoff.
  { pose proof (Z.div_mod offset (csize vc) ltac:(lia)). unfold cid, Chunk.byte_offset_to_chunk_id.
    fold (csize vc). lia. }
  assert (0 <= cid <= offset) as Hcid by nia.
  assert (forall j, journal (cache s) = Some j -> exists ws, holds j ws /\
    Forall2 entry_of ws (jlog s) /\ holds (Journal.log_write w vol cid oic src j).1
      (if is_ok (Journal.log_write w vol cid oic src j).2
       then ws ++ [Journal.entry_write (Journal.j_sequence j) vol cid oic src] else ws)) as Hlog.
  { intros j Ej. destruct (Hj j Ej) as (ws & Hh & Hws). exists ws. split_and!; try done.
    unfold Journal.log_write. destruct (Journal.append _ _ _) as [j1 lr] eqn:Ea. cbn.
    eapply holds_append; [done| |by apply Hfit|done].
    split_and!; try done; unfold is_u64; cbn; lia. }
  assert (forall w m, w ∈ jlog s ++ [(vol, cid, oic, src)] ->
    mapper_of w.1.1.1 c' = Some m -> fits m w) as Hfits.
  { intros w0 m [Hw|Hw]%elem_of_app Hmv; rewrite Hm in Hmv; [by apply Hf|].
    apply list_elem_of_singleton in Hw. subst w0. unfold mapper_of in Hmv. cbn in Hmv.
    rewrite Hc in Hmv. injection Hmv as <-. cbn. fold (csize vc). rewrite Hoff.
    split_and!; [lia|lia|done|done]. }
  unfold accepted. destruct (journal (cache s)) as [j|] eqn:Ej.
  - destruct Hjr as [upto Hjr]. destruct (Hlog j eq_refl) as (ws & _ & Hws & Hh). clear Hlog.
    fold cid oic. destruct (Journal.log_write w vol cid oic src j) as [j1 lr]. cbn in *.
    destruct (is_ok lr); split; cbn.
    + done.
    + intros j' Ej'. rewrite Hjr in Ej'. injection Ej' as <-. eexists. split; [by apply holds_sync|].
      apply Forall2_app; [done|]. constructor; [|constructor]. done.
    + intros w' m Hw'. rewrite Hm. by apply Hf.
    + intros j' Ej'. rewrite Hjr in Ej'. injection Ej' as <-. eauto.
  - split; cbn; [done|by rewrite Hjr].
Qed.

Lemma mapper_of_put vol vc vc' (c : WriteCache) v :
  caches c !! vol = Some vc -> mapper vc' = mapper vc ->
  mapper_of v (set_caches (<[vol := vc']> (caches c)) c) = mapper_of v c.
Proof. apply (mapper_of_insert vol vc vc' c (total_dirty_bytes c) v). Qed.

Lemma resolve_frame vol cid base c c' :
  resolve (E:=BlockError) vol cid base c = Ok c' ->
  (forall v, mapper_of v c' = mapper_of v c) /\ journal c' = journal c.
Proof.
  unfold resolve. destruct (caches c !! vol) as [vc|] eqn:Hc; [|by intros [= <-]].
  intros (vc' & Hr & [= <-])%outcome_bind_ok. split; [|done]. intros v.
  apply (mapper_of_put vol vc); [done|]. unfold resolve_vc in Hr.
  destruct (vc_dirty vc !! cid) as [d|]; [|by simplify_eq].
  destruct (pending d); [|by simplify_eq]. by apply outcome_bind_ok in Hr as (w & _ & [= <-]).
Qed.

Lemma add_clean_frame vol cid b c :
  (forall v, mapper_of v (add_clean vol cid b c) = mapper_of v c) /\
  journal (add_clean vol cid b c) = journal c.
Proof.
  unfold add_clean. destruct (caches c !! vol) as [vc|] eqn:Hc; [|done]. split; [|done].
  intros v. apply (mapper_of_put vol vc); [done|]. unfold add_clean_vc.
  by destruct (vc_dirty vc !! cid), (vc_clean vc !! cid).
Qed.

Lemma mark_mapper l : forall vc t, mapper (foldl mark_one (vc, t) l).1 = mapper vc.
Proof.
  induction l as [|m l IH]; intros vc t; [done|]. cbn [foldl].
  destruct (mark_one (vc, t) m) as [vc1 t1] eqn:E.
  rewrite IH. unfold mark_one in E. destruct m as [cid ver].
  destruct (vc_dirty vc !! cid); [destruct (_ =? _)|]; by simplify_eq.
Qed.

Lemma mark_frame vol l c :
  (forall v, mapper_of v (mark_flushed vol l c) = mapper_of v c) /\
  journal (mark_flushed vol l c) = journal c.
Proof.
  unfold mark_flushed. destruct (caches c !! vol) as [vc|] eqn:Hc; [|done].
  pose proof (mark_mapper l vc (total_dirty_bytes c)) as Hm.
  destruct (foldl mark_one _ l) as [vc' t]. split; [|done].
  intros v. by apply (mapper_of_insert vol vc).
Qed.

Lemma log_inv_reset s d c' r :
  log_inv s -> reset_journal_if_clean d (cache s) = (c', r) ->
  log_inv (mkGw c' (stripes s) (abs s)
    (if bool_decide (map_Forall (fun _ vc => vc_dirty vc = ∅) (caches (cache s)))
        && match journal (cache s) with
           | Some j => JournalCrash.renames d j | None => false end
     then [] else jlog s) (loads s) (flight s) (waiting s)).
Proof.
  intros L H. pose proof L as [Hf Hj]. pose proof (reset_caches _ _ _ _ H) as Hc.
  assert (forall v, mapper_of v c' = mapper_of v (cache s)) as Hm
    by (intros; unfold mapper_of; by rewrite Hc).
  unfold reset_journal_if_clean in H. destruct (journal (cache s)) as [j|] eqn:Ej.
  2:{ simplify_eq. rewrite andb_false_r. by apply log_inv_frame. }
  case_bool_decide; cbn [andb].
  2:{ simplify_eq. by apply log_inv_frame. }
  destruct (Hj j eq_refl) as (ws & Hh & Hws). apply (holds_rotate d) in Hh.
  destruct (Journal.rotate d j) as [j1 r1]. simplify_eq. cbn in *.
  destruct (JournalCrash.renames d j); split; cbn.
  - by intros w m Hw%not_elem_of_nil.
  - intros j0 [= <-]. by exists [].
  - done.
  - intros j0 [= <-]. eauto.
Qed.

Lemma log_inv_open s vol cs c' :
  log_inv s -> caches (cache s) !! vol = None -> (forall w, w ∈ jlog s -> w.1.1.1 <> vol) ->
  init_volume_sized (E:=BlockError) vol cs (cache s) = Ok c' ->
  log_inv (mkGw c' (stripes s) (abs_open (abs s) (stripes s) vol cs) (jlog s) (loads s) (flight s) (waiting s)).
Proof.
  intros [Hf Hj] Hn Hw H. unfold init_volume_sized in H. rewrite Hn in H.
  apply outcome_bind_ok in H as (m & _ & [= <-]). split; cbn; [|done].
  intros w m' Hin Hm. apply Hf; [done|]. unfold mapper_of in *. cbn in Hm.
  by rewrite lookup_insert_ne in Hm by (by apply not_eq_sym, Hw).
Qed.

(** ** A restart *)

Lemma VolumeCache_new_unflushed vc : wf vc -> unflushed (VolumeCache_new (mapper vc)).
Proof.
  intros [Hcs _ _ _]. split; try done.
Qed.

Lemma restart_replays s now vm st max j torn j' c0 :
  inv s -> log_inv s -> journal (cache s) = Some j -> Journal.failed j = false ->
  torn_entry torn ->
  Journal.open (Some (Journal.mkDisk (Journal.file j ++ torn) st)) max = Ok j' ->
  reopened (cache s) j' c0 -> known vm (cache s) -> log_bytes (jlog s) < two64 ->
  exists c' ws, replay_journal now vm c0 = Ok c' /\ journal c' = Some j' /\ holds j' ws /\
    Forall2 entry_of ws (jlog s) /\
    forall vol, option_Forall2 (fun vc vc' =>
        replayed vol (jlog s) (VolumeCache_new (mapper vc)) vc')
      (caches (cache s) !! vol) (caches c' !! vol).
Proof.
  intros I L Hjr Hfl Ht Ho [Hc0 Hj0] Hk Hb. destruct (l_journal _ L j Hjr) as (ws & Hh & Hws).
  pose proof (holds_reopen _ _ _ _ _ _ Hh Hfl Ht Ho) as Hh'.
  rewrite (norm_all ws (jlog s) Hws) in Hh'.
  assert (forall vol vc0, caches c0 !! vol = Some vc0 -> exists vc,
    caches (cache s) !! vol = Some vc /\ vc0 = VolumeCache_new (mapper vc)) as Hback.
  { intros vol vc0. rewrite Hc0, lookup_fmap_Some. intros (vc & <- & ?). eauto. }
  destruct (replay_writes_spec now vm (jlog s) c0) as (c' & Hr & Hj' & Hv).
  - intros vol vc0 (vc & Hc & ->)%Hback. split; [|done].
    apply VolumeCache_new_unflushed. apply (I vol vc Hc).
  - intros vol [vc0 (vc & Hc & _)%Hback]. apply Hk. eauto.
  - intros w vc0 Hw (vc & Hc & ->)%Hback. apply (l_fits _ L); [done|].
    unfold mapper_of. by rewrite Hc.
  - exists c', ws. unfold replay_journal, Cache.recover. rewrite Hj0, (holds_recover _ _ Hh').
    cbn [mbind outcome_bind]. rewrite (recovered_log ws (jlog s)) by done.
    split_and!; try done; [congruence|]. intros vol. specialize (Hv vol).
    rewrite Hc0, lookup_fmap in Hv. destruct (caches (cache s) !! vol); cbn in Hv;
      inversion Hv; subst; by constructor.
Qed.

Lemma inv_restart s now vm st max j torn j' c0 c' :
  inv s -> log_inv s -> journal (cache s) = Some j -> Journal.failed j = false ->
  torn_entry torn ->
  Journal.open (Some (Journal.mkDisk (Journal.file j ++ torn) st)) max = Ok j' ->
  reopened (cache s) j' c0 -> known vm (cache s) -> log_bytes (jlog s) < two64 ->
  replay_journal now vm c0 = Ok c' ->
  let s' := mkGw c' (stripes s) (abs s) (jlog s) [] None [] in inv s' /\ log_inv s'.
Proof.
  intros I L Hj Hfl Ht Ho Hre Hk Hb Hr.
  destruct (restart_replays s now vm st max j torn j' c0) as (c2 & ws & Hr2 & Hj2 & Hh & Hws & Hv);
    try done. rewrite Hr in Hr2. injection Hr2 as <-. split.
  - intros vol vc' Hc'. cbn in *. specialize (Hv vol). rewrite Hc' in Hv.
    inversion Hv as [vc ? ([Uw Uv Un Uc] & M & B) Hc|]; subst. symmetry in Hc.
    assert (csize vc' = csize vc) as Hcs by (unfold csize; by rewrite M).
    destruct (I vol vc Hc) as [Iwf Iv In Is Ivi Ic Il Ild Ind Iit Ist].
    rewrite Hcs. split; rewrite ?Hcs.
    + done.
    + done.
    + done.
    + apply Is.
    + intros b. by rewrite B, Il.
    + intros cid b. by rewrite Uc, lookup_empty.
    + apply Il.
    + by intros cid base Hin%not_elem_of_nil.
    + constructor.
    + by intros i Hin%not_elem_of_nil.
    + by intros i Hin%not_elem_of_nil.
  - split; cbn.
    + intros w m Hw. unfold mapper_of. specialize (Hv w.1.1.1). inversion Hv as [vc vc' (_ & M & _) Hc Hc'|].
      2: done. cbn. intros [= <-]. rewrite M. apply (l_fits _ L); [done|].
      unfold mapper_of. by rewrite <- Hc.
    + intros j0. rewrite Hj2. intros [= <-]. eauto.
Qed.

(** ** Flushes that wait *)

Definition set_flight (f : option (string * list item * list item)) (s : gw) : gw :=
  mkGw (cache s) (stripes s) (abs s) (jlog s) (loads s) f (waiting s).

(** The chunks a waiting flush took are as a flush in flight needs them. *)
Definition taken_ok (s : gw) (w : string * list item) : Prop :=
  forall vc, caches (cache s) !! w.1 = Some vc ->
    NoDup (map (fun i : item => i.1.1) w.2) /\
    forall i, i ∈ w.2 -> item_ok (fun cid => read_chunk (stripes s) w.1 cid (csize vc)) (abs s w.1)
      (logged w.1 (csize vc) (jlog s)) vc i.

Lemma taken_inv s w : inv s -> taken_ok s w -> inv (set_flight (Some (w, [])) s).
Proof.
  intros I T v vc Hl. cbn in *. specialize (I v vc Hl). destruct w as [vol items]. cbn.
  case_decide as E.
  - subst v. destruct (T vc Hl). by eapply vol_inv_items.
  - eapply vol_inv_items; [done|constructor|set_solver].
Qed.

Lemma inv_taken s w : inv (set_flight (Some (w, [])) s) -> taken_ok s w.
Proof.
  intros I vc Hl. specialize (I w.1 vc Hl). destruct w as [vol items]. cbn in *.
  rewrite !decide_True in I by done. split; [apply (v_nodup _ _ _ _ _ _ _ I)|].
  intros i Hi. by apply (v_item _ _ _ _ _ _ _ I).
Qed.

Definition inv_all (s : gw) : Prop :=
  inv s /\ forall w, w ∈ waiting s -> inv (set_flight (Some (w, [])) s).

(** A waiting flush holds nothing older than what another has stored since:
    each chunk it took is still dirty, or the OSDs hold the bytes it took. *)
Definition undisturbed (s : gw) : Prop :=
  forall w i vc, w ∈ waiting s -> i ∈ w.2 -> caches (cache s) !! w.1 = Some vc ->
    is_Some (vc_dirty vc !! i.1.1) \/ read_chunk (stripes s) w.1 i.1.1 (csize vc) = i.1.2.

Definition quiet_step (s s' : gw) : Prop := step s s' /\ undisturbed s'.

Lemma due_items now vol c i : i ∈ get_chunks_to_flush now vol c -> i ∈ dirty_chunks vol c.
Proof.
  unfold get_chunks_to_flush, dirty_chunks. destruct (caches c !! vol); [|done].
  rewrite !list_elem_of_In, !in_map_iff. intros (e & <- & [He _]%filter_In). eauto.
Qed.

Lemma due_nodup now vol c : NoDup (map (fun i : item => i.1.1) (get_chunks_to_flush now vol c)).
Proof.
  unfold get_chunks_to_flush, whole_entries. destruct (caches c !! vol); [|constructor].
  rewrite map_map. do 2 apply (filter_nodup_keys (A:=DirtyChunk)). unfold entries.
  rewrite (merge_sort_Permutation by_key). apply NoDup_fst_map_to_list.
Qed.

Lemma taken_due s now vol : inv s -> taken_ok s (vol, get_chunks_to_flush now vol (cache s)).
Proof.
  intros I vc Hl. cbn [fst snd] in *. split; [apply due_nodup|]. intros i Hi%due_items.
  pose proof (vol_inv_take _ _ _ _ _ _ _ (I vol vc Hl) (cache s) vol Hl) as It.
  by apply (v_item _ _ _ _ _ _ _ It).
Qed.

Lemma taken_store s vol i todo stored r st ok w :
  inv s -> flight s = Some (vol, i :: todo, stored) ->
  store_chunk (stripes s) vol i.1.1 i.1.2 r = (st, ok) -> taken_ok s w ->
  taken_ok (mkGw (cache s) st (abs s) (jlog s) (loads s)
    (Some (vol, todo, if ok then stored ++ [i] else stored)) (waiting s)) w.
Proof.
  intros I Hf Hs T vc Hl. cbn in *. destruct (T vc Hl) as [Hn Hi]. split; [done|].
  intros j Hj. specialize (Hi j Hj).
  assert (st = stripes s \/ st = <[(vol, i.1.1) := i.1.2]> (stripes s)) as [->| ->]
    by (destruct r as [| |[]]; cbn in Hs; simplify_eq; auto); [done|].
  destruct (decide (w.1 = vol)) as [E|Hne].
  - rewrite E in *. specialize (I vol vc Hl). rewrite Hf in I. cbn in I.
    rewrite !decide_True in I by done.
    eapply item_ok_ext, item_ok_stored; [|done|done| |exact Hi].
    + intros c. apply read_chunk_store.
    + apply (v_item _ _ _ _ _ _ _ I). set_solver.
  - eapply item_ok_ext; [|done|done|exact Hi]. intros c. by apply read_chunk_other.
Qed.

Lemma marks_keep l : forall vc t,
  let vc' := (foldl mark_one (vc, t) l).1 in
  next_version vc' = next_version vc /\
  forall c d, vc_dirty vc' !! c = Some d -> vc_dirty vc !! c = Some d.
Proof.
  induction l as [|[cid ver] l IH]; intros vc t; [done|]. cbn [foldl].
  destruct (mark_one (vc, t) (cid, ver)) as [vc1 t1] eqn:E. cbn in IH. specialize (IH vc1 t1).
  destruct IH as [-> Hd]. unfold mark_one in E.
  destruct (vc_dirty vc !! cid) as [d0|] eqn:Ed; [|by simplify_eq].
  destruct (_ =? _); simplify_eq; [|done]. split; [done|]. intros c d Hc. apply Hd in Hc. cbn in Hc.
  by apply lookup_delete_Some in Hc as [_ ?].
Qed.

Lemma taken_mark s vol stored w :
  let s' := mkGw (mark_flushed vol (marks stored) (cache s)) (stripes s) (abs s) (jlog s)
              (loads s) None (waiting s) in
  undisturbed s' -> w ∈ waiting s -> taken_ok s w -> taken_ok s' w.
Proof.
  intros s' Hu Hw T vc' Hl'. pose proof (fun i Hi => Hu w i vc' Hw Hi Hl') as Hu'. clear Hu.
  subst s'. cbn [cache stripes abs jlog] in *. unfold mark_flushed in Hl'.
  destruct (caches (cache s) !! vol) as [vc|] eqn:Hc; [|by apply T].
  destruct (marks_keep (marks stored) vc (total_dirty_bytes (cache s))) as [Hn Hd].
  pose proof (mark_mapper (marks stored) vc (total_dirty_bytes (cache s))) as Hm.
  destruct (foldl mark_one _ _) as [vc1 t1]. cbn in Hl', Hn, Hd, Hm.
  apply lookup_insert_Some in Hl' as [[E ->]|[_ Hl']]; [|by apply T].
  subst vol. destruct (T vc Hc) as [Hnd Hi]. split; [done|]. intros i Hin.
  assert (csize vc' = csize vc) as Hcs by (unfold csize; by rewrite Hm).
  rewrite Hcs in *. destruct (Hi i Hin) as [Hv Hst Hl Hb]. split; rewrite ?Hcs; [lia| |done|done].
  destruct (vc_dirty vc' !! i.1.1) as [d|] eqn:Ed.
  - pose proof (Hd _ _ Ed) as Ed0. destruct Hst as [(d0 & Hd0 & ?)|[Hk Hlt]].
    + left. exists d. rewrite Ed0 in Hd0. by injection Hd0 as ->.
    + right. split; [done|]. intros d1. rewrite Ed. intros [= <-]. by apply Hlt.
  - right. destruct (Hu' i Hin) as [[? ?]|Hk]; [congruence|]. split; [done|]. by rewrite Ed.
Qed.

(** ** Every step *)

Lemma log_inv_step s s' : inv s -> log_inv s -> step s s' -> log_inv s'.
Proof.
  intros I L H. destruct H; try (by apply log_inv_frame).
  - by eapply log_inv_write.
  - apply (log_inv_frame _ _ _ _ _ _ _ L); by eapply resolve_frame.
  - apply (log_inv_frame _ _ _ _ _ _ _ L); by apply add_clean_frame.
  - apply (log_inv_frame _ _ _ _ _ _ _ L); by apply mark_frame.
  - by eapply log_inv_reset.
  - by apply log_inv_open.
  - by eapply inv_restart.
Qed.

(** A step of the cache and the journal is the same step whatever flush is in
    flight. *)
Lemma inv_step s s' : inv_all s -> log_inv s -> quiet_step s s' -> inv_all s'.
Proof.
  intros [I W] L [H U]. destruct H.
  - split; [by eapply inv_write|]. intros wt Hw.
    assert (wt ∈ waiting s) as Hw' by by destruct (accepted _ _ _ _ _ _).
    pose proof (inv_write (set_flight (Some (wt, [])) s) now w d vol offset src vc c' r (W wt Hw')) as Iw.
    cbn in Iw. specialize (Iw H H0 H1 H3 H5). by destruct (accepted _ _ _ _ _ _).
  - split; [by apply inv_load|]. intros w Hw. by apply (inv_load (set_flight (Some (w, [])) s)), H; apply W.
  - split; [by eapply inv_resolve|]. intros w Hw.
    by eapply (inv_resolve (set_flight (Some (w, [])) s)); [by apply W|..].
  - split; [by apply inv_add_clean|]. intros w Hw.
    by apply (inv_add_clean (set_flight (Some (w, [])) s)); [apply W|].
  - split; [done|]. intros w [->|Hw]%elem_of_cons; [|by apply W].
    exact (taken_inv s _ I (taken_due s now vol I)).
  - rewrite H0 in W. split; [apply (W w); set_solver|]. intros w' Hw. apply (W w'). cbn in Hw. set_solver.
  - split; [by apply inv_take|]. intros w Hw. by apply W.
  - assert (inv (mkGw (cache s) st (abs s) (jlog s) (loads s)
      (Some (vol, todo, if ok then stored ++ [i] else stored)) (waiting s))) as I' by by eapply inv_store.
    split; [done|]. intros w Hw. apply taken_inv; [done|]. eapply taken_store; [done..|].
    by apply inv_taken, W.
  - assert (inv (mkGw (mark_flushed vol (marks stored) (cache s)) (stripes s) (abs s) (jlog s)
      (loads s) None (waiting s))) as I' by by apply inv_mark.
    split; [done|]. intros w Hw. apply taken_inv; [done|]. apply taken_mark; [done..|].
    by apply inv_taken, W.
  - split; [by eapply inv_reset|]. intros w Hw. by eapply (inv_reset (set_flight (Some (w, [])) s)); [apply W|].
  - split; [by apply inv_open|]. intros w Hw. apply (inv_open (set_flight (Some (w, [])) s)); try done.
    + by apply W.
    + intros f [= <-]. by apply H4.
  - split; [by eapply inv_restart|]. by intros w Hw%not_elem_of_nil.
Qed.

Lemma inv_steps s s' : rtc quiet_step s s' -> inv_all s -> log_inv s -> inv s' /\ log_inv s'.
Proof.
  induction 1 as [|x y z Hq _ IH]; intros I L; [by destruct I|]. apply IH.
  - by eapply inv_step.
  - destruct I as [I _], Hq as [Hs _]. by eapply log_inv_step.
Qed.

(** A gateway with an empty journal and no volume open yet. *)
Definition fresh (s : gw) : Prop :=
  caches (cache s) = ∅ /\ jlog s = [] /\ loads s = [] /\ flight s = None /\ waiting s = [] /\
  exists max j, Journal.open None max = Ok j /\ journal (cache s) = Some j.

Lemma fresh_inv s : fresh s -> inv_all s /\ log_inv s.
Proof.
  intros (Hc & Hj & Hl & Hf & Hwt & max & j & Ho & Hjr). split.
  - split; [|rewrite Hwt; by intros w ?%not_elem_of_nil]. intros vol vc. by rewrite Hc, lookup_empty.
  - split; rewrite Hj; [by intros w m Hw%not_elem_of_nil|].
    intros j0. rewrite Hjr. intros [= <-]. exists []. split; [by eapply holds_open_new|done].
Qed.

(** C9. Whatever the gateway's tasks do, in any interleaving — client writes,
    loads, merges, clean copies, flushes that take their chunks before or
    after the lock, fail, or whose answer is lost, journal resets, volumes
    opened, restarts — as long as no flush waits for the lock with bytes
    older than those another has flushed since ([undisturbed], of every state
    of the run), every open volume reads as the array of the writes applied
    to it: a read served from the cache gives exactly those bytes, and the
    cache with what the OSDs hold stands for exactly that array. Without that
    condition a write is lost ([Resolver.early_flush_loses_write]). *)
Theorem gateway_volume_is_array (s0 s : gw) (vol : string) (vc : VolumeCache) (offset len : Z)
    (r : bytes) :
  fresh s0 -> rtc quiet_step s0 s -> caches (cache s) !! vol = Some vc ->
  (forall b, view (fun cid => read_chunk (stripes s) vol cid (csize vc)) vc b = abs s vol b) /\
  (Chunk.in_space (mapper vc) offset len ->
   read (E:=BlockError) vol offset len (cache s) = Ok (Some r) ->
   r = map (abs s vol) (seqZ offset len)).
Proof.
  intros [I0 L0]%fresh_inv Hs Hc. destruct (inv_steps s0 s Hs I0 L0) as [I _].
  pose proof (I vol vc Hc) as Iv. split; [apply Iv|]. intros Hin Hr.
  assert (volume (cache s) vol vc) as Hv by (split; [done|apply Iv]).
  unfold read in Hr. destruct (Z.eqb_spec len 0) as [->|Hn]; [by simplify_eq|]. rewrite Hc in Hr.
  rewrite (read_ranges_spec (fun cid => read_chunk (stripes s) vol cid (csize vc)) vc _ offset len)
    in Hr; [|apply Iv|apply byte_range_tiles; [by apply wf_mapper, Iv|done]].
  destruct (forallb _ _); [|done]. injection Hr as <-. cbn. apply map_ext. apply Iv.
Qed.

(** C8. No applied write is lost by a restart: from every state reached by
    any such run, no flush waiting with bytes older than those flushed since
    ([undisturbed]), if the journal has not failed, also when the process
    died in the middle of an append, and the journal opens, its volumes are
    known and it holds fewer than 2^64 bytes of writes, then replaying it
    succeeds, and the fresh cache with what the OSDs hold stands for the same
    array, for every volume that was open. *)
Theorem restart_keeps_writes (s0 s : gw) (now : Z) (vm : Volume.VolumeManager) (st max : Z)
    (j j' : Journal.WriteJournal) (torn : bytes) (c0 : WriteCache) :
  fresh s0 -> rtc quiet_step s0 s ->
  journal (cache s) = Some j -> Journal.failed j = false -> torn_entry torn ->
  Journal.open (Some (Journal.mkDisk (Journal.file j ++ torn) st)) max = Ok j' ->
  reopened (cache s) j' c0 -> known vm (cache s) -> log_bytes (jlog s) < two64 ->
  exists c', replay_journal now vm c0 = Ok c' /\
    forall vol vc, caches (cache s) !! vol = Some vc -> exists vc', caches c' !! vol = Some vc' /\
      forall b, view (fun cid => read_chunk (stripes s) vol cid (csize vc)) vc' b = abs s vol b.
Proof.
  intros [I0 L0]%fresh_inv Hs Hj Hfl Ht Ho Hre Hk Hb.
  destruct (inv_steps s0 s Hs I0 L0) as [I L].
  destruct (restart_replays s now vm st max j torn j' c0) as (c' & ws & Hr & _ & _ & _ & Hv);
    try done. exists c'. split; [done|]. intros vol vc Hc. specialize (Hv vol). rewrite Hc in Hv.
  inversion Hv as [? vc' (U & M & B)|]; subst. exists vc'. split; [done|]. intros b.
  rewrite B. by rewrite (v_log _ _ _ _ _ _ _ (I vol vc Hc)).
Qed.

End machine.
(** ** Witnesses *)

(** A volume of 4-byte chunks is opened and one chunk is written; a flush
    takes it and waits for the lock; then the gateway restarts. *)
Definition ex_chunk : bytes := as_bytes "abcd".
Definition ex_j0 : Journal.WriteJournal :=
  Journal.mkJournal (Journal.header 0 0) 28 0 0 0 0 1000 28 false.
Definition ex_m : Chunk.ChunkMapper := Chunk.mkChunkMapper 4.
Definition ex_c0 : WriteCache := mkCache ∅ ex_m (mkConfig 100 10) 0 (Some ex_j0).
Definition ex_zero (_ : string) (_ : Z) : byte := Byte.x00.
Definition ex_g0 : gw := mkGw ex_c0 ∅ ex_zero [] [] None [].
Definition ex_c1 : WriteCache := set_caches {["v" := VolumeCache_new ex_m]} ex_c0.
Definition ex_g1 : gw := mkGw ex_c1 ∅ (abs_open ex_zero ∅ "v" 4) [] [] None [].
Definition ex_write : WriteCache * outcome BlockError () :=
  write (CRC:=castagnoli) 7 Journal.WDone Journal.SDone "v" 4 ex_chunk ex_c1.
Definition ex_abs : string -> Z -> byte := abs_write (abs_open ex_zero ∅ "v" 4) "v" 4 ex_chunk.
Definition ex_g2 : gw := mkGw ex_write.1 ∅ ex_abs [("v", 1, 0, ex_chunk)] [] None [].

Definition ex_due : list item := get_chunks_to_flush 1000 "v" ex_write.1.
Definition ex_g3 : gw :=
  mkGw ex_write.1 ∅ ex_abs [("v", 1, 0, ex_chunk)] [] None [("v", ex_due)].

Lemma ex_fresh : fresh (CRC:=castagnoli) ex_g0.
Proof. split_and!; try done. by exists 1000, ex_j0. Qed.

Lemma ex_run : rtc (quiet_step (CRC:=castagnoli)) ex_g0 ex_g3.
Proof.
  apply (rtc_l _ _ ex_g1).
  { split; [|by intros w i vc Hw%not_elem_of_nil]. apply (s_open ex_g0 "v" 4 ex_c1); try done; by intros ? ?%not_elem_of_nil. }
  apply (rtc_l _ _ ex_g2).
  2:{ apply rtc_once. split; [by apply (s_due ex_g2 1000 "v")|].
      intros w i vc ->%list_elem_of_singleton Hi [= <-]. left.
      assert (ex_due = [(1, ex_chunk, 1)]) as E by (vm_compute; reflexivity).
      cbn [snd] in Hi. rewrite E in Hi. apply list_elem_of_singleton in Hi as ->.
      by apply (bool_decide_eq_true_1 (is_Some _)); vm_compute. }
  split; [|by intros w i vc Hw%not_elem_of_nil].
  refine (s_write ex_g1 7 Journal.WDone Journal.SDone "v" 4 ex_chunk (VolumeCache_new ex_m)
    ex_write.1 ex_write.2 _ _ _ _ _ _ _).
  - done.
  - by vm_compute.
  - done.
  - by apply ascii_rust_string.
  - by vm_compute.
  - intros j [= <-]. by vm_compute.
  - exact (surjective_pairing ex_write).
Qed.

Definition ex_vc2 : VolumeCache := default (VolumeCache_new ex_m) (caches ex_write.1 !! "v").

Lemma gateway_volume_is_array_witness :
  (forall b, view (fun cid => read_chunk ∅ "v" cid (csize ex_vc2)) ex_vc2 b = ex_abs "v" b) /\
  (Chunk.in_space (mapper ex_vc2) 4 4 ->
   read (E:=BlockError) "v" 4 4 ex_write.1 = Ok (Some ex_chunk) ->
   ex_chunk = map (ex_abs "v") (seqZ 4 4)).
Proof.
  apply (gateway_volume_is_array (CRC:=castagnoli) ex_g0 ex_g3 "v" ex_vc2 4 4 ex_chunk).
  - apply ex_fresh.
  - apply ex_run.
  - vm_compute. reflexivity.
Defined.

Definition ex_j2 : Journal.WriteJournal := default ex_j0 (journal ex_write.1).
Definition ex_j3 : Journal.WriteJournal :=
  Journal.mkJournal (Journal.file ex_j2) 0 0 0 0 0 1000 (lenZ (Journal.file ex_j2)) false.
Definition ex_c3 : WriteCache :=
  mkCache {["v" := VolumeCache_new ex_m]} ex_m (mkConfig 100 10) 0 (Some ex_j3).
Definition ex_vm : Volume.VolumeManager :=
  Volume.mkVM {["v" := Volume.mkVolume "v" "n" 64 0 "p" Volume.Available 0 0 None 4 ∅]}
    ∅ ∅ ∅ ∅ ex_m.

Lemma restart_keeps_writes_witness :
  exists c', replay_journal (CRC:=castagnoli) 9 ex_vm ex_c3 = Ok c' /\
    forall vol vc, caches (cache ex_g3) !! vol = Some vc ->
      exists vc', caches c' !! vol = Some vc' /\
      forall b, view (fun cid => read_chunk (stripes ex_g3) vol cid (csize vc)) vc' b =
        abs ex_g3 vol b.
Proof.
  apply (restart_keeps_writes (CRC:=castagnoli) ex_g0 ex_g3 9 ex_vm 0 1000 ex_j2 ex_j3 [] ex_c3).
  - apply ex_fresh.
  - apply ex_run.
  - vm_compute. reflexivity.
  - vm_compute. reflexivity.
  - by left.
  - vm_compute. reflexivity.
  - split; vm_compute; reflexivity.
  - intros vol [vc Hvc]. destruct (decide (vol = "v")) as [->|Hne]; [by vm_compute|].
    exfalso. assert (caches (cache ex_g3) = {["v" := ex_vc2]}) as E by (vm_compute; reflexivity).
    rewrite E, lookup_singleton_ne in Hvc by done. done.
  - vm_compute. reflexivity.
Defined.

End BlockGateway.
