(* ===== verification/Resolver.v ===== *)
(** * Reads and flushes of the block gateway as they run alone
    (crates/block-gateway/src/resolve.rs, flush.rs)

    [Resolver::read] makes every chunk a read touches whole first; a flush
    makes pending chunks whole, stores the dirty ones and empties the
    journal. Loads are a function of the chunk, and may fail. The theorems:
    a read gives the volume's bytes; a full flush leaves the OSDs with the
    volume. Last, the one schedule of two flushes that loses a write. *)

From S2P Require Import Prelude Bytes Crc Chunk Volume LogTail Journal JournalCrash Cache.
From S2P Require Import BlockGateway.

Module Resolver.
Import Cache BlockGateway.

(** What a load of a chunk's stored bytes gives. *)
Definition loader : Type := ChunkId -> outcome BlockError bytes.

(** [Resolver::resolve]: make a chunk whole if it is pending. *)
Definition resolve_chunk (load : loader) (vol : string) (cid : ChunkId) (c : WriteCache)
    : outcome BlockError WriteCache :=
  if is_pending vol cid c then
    base ← load cid;
    Cache.resolve vol cid base c
  else Ok c.

(** [resolve_volume]: every pending chunk; how many could not be. *)
Fixpoint resolve_each (load : loader) (vol : string) (cids : list ChunkId) (c : WriteCache)
    (failed : Z) : outcome BlockError (WriteCache * Z) :=
  match cids with
  | [] => Ok (c, failed)
  | cid :: rest =>
    match resolve_chunk load vol cid c with
    | Ok c => resolve_each load vol rest c failed
    | Err _ => resolve_each load vol rest c (failed + 1)
    | Panic => Panic
    end
  end.

Definition resolve_volume (load : loader) (vol : string) (c : WriteCache)
    : outcome BlockError (WriteCache * Z) :=
  resolve_each load vol (pending_chunks vol c) c 0.

(** The loop of [whole_chunk], [rounds] left. *)
Fixpoint whole_chunk_loop (rounds : nat) (load : loader) (vol : string) (cid : ChunkId)
    (c : WriteCache) : outcome BlockError (WriteCache * bytes) :=
  match rounds with
  | O => Err Internal
  | S rounds =>
    match chunk vol cid c with
    | Some b => Ok (c, b)
    | None =>
      if is_pending vol cid c then
        c ← resolve_chunk load vol cid c;
        whole_chunk_loop rounds load vol cid c
      else
        stored ← load cid;
        let c := add_clean vol cid stored c in
        Ok (c, default stored (chunk vol cid c))
    end
  end.

Definition whole_chunk (load : loader) (vol : string) (cid : ChunkId) (c : WriteCache)
    : outcome BlockError (WriteCache * bytes) := whole_chunk_loop 4 load vol cid c.

(** The part of a chunk a range covers; past its end it reads as zeros. *)
Definition piece_of (chunk : bytes) (oic n : Z) : outcome BlockError bytes :=
  let start := Z.min oic (lenZ chunk) in
  let end_ := Z.min (start + n) (lenZ chunk) in
  p ← or_panic (slice (Z.to_nat start) (Z.to_nat (end_ - start)) chunk);
  Ok (p ++ replicate (Z.to_nat (n - (end_ - start))) Byte.x00).

Fixpoint read_pieces (load : loader) (vol : string) (rs : list Chunk.ChunkRange) (c : WriteCache)
    (out : bytes) : outcome BlockError (WriteCache * bytes) :=
  match rs with
  | [] => Ok (c, out)
  | r :: rs =>
    '(c, chunk) ← whole_chunk load vol (Chunk.chunk_id r) c;
    p ← piece_of chunk (Chunk.offset_in_chunk r) (Chunk.length r);
    read_pieces load vol rs c (out ++ p)
  end.

Definition read (load : loader) (vol : string) (offset len : Z) (c : WriteCache)
    : outcome BlockError (WriteCache * bytes) :=
  if len =? 0 then Ok (c, [])
  else
    cached ← Cache.read vol offset len c;
    match cached with
    | Some b => Ok (c, b)
    | None =>
      match mapper_of vol c with
      | None => Err Internal
      | Some m => read_pieces load vol (Chunk.byte_range_to_chunks m offset len) c []
      end
    end.

(** [flush_volume_all_locked]: how many chunks are still dirty. *)
Definition flush_volume_all_locked (load : loader) (vol : string) (rs : list commit)
    (d : Journal.disk_rotate) (st : Stripes) (c : WriteCache)
    : outcome BlockError (Stripes * WriteCache * Z) :=
  '(c, unresolved) ← resolve_volume load vol c;
  let chunks := dirty_chunks vol c in
  let '(st, c, n) := flush_chunks_locked vol chunks rs st c in
  let c := (reset_journal_if_clean d c).1 in
  Ok (st, c, lenZ chunks - Z.of_nat n + unresolved).

(** [flush_volume], up to the lock and after it: the chunks due are taken
    first. *)
Definition flush_volume_take (load : loader) (now : Z) (vol : string) (c : WriteCache)
    : outcome BlockError (WriteCache * list item) :=
  '(c, _) ← resolve_volume load vol c;
  Ok (c, get_chunks_to_flush now vol c).

Definition flush_volume_locked (vol : string) (chunks : list item) (rs : list commit)
    (st : Stripes) (c : WriteCache) : Stripes * WriteCache :=
  let '(st, c, _) := flush_chunks_locked vol chunks rs st c in (st, c).

(** ** Reading *)

Section reading.
Context (store : Z -> bytes) (vol : string).

(** The OSDs answer with what they hold. *)
Definition answers : loader := fun cid => Ok (store cid).

(** A volume whose versions do not run out during [n] more changes. *)
Definition ready (c : WriteCache) (vc : VolumeCache) (n : Z) : Prop :=
  volume c vol vc /\ 0 <= next_version vc /\ next_version vc + n < two64 /\
  forall cid, lenZ (store cid) = csize vc.

Definition same_view (vc vc' : VolumeCache) : Prop :=
  mapper vc' = mapper vc /\ next_version vc' <= next_version vc + 1 /\
  (forall c, held vc c = true -> held vc' c = true) /\
  forall c o, 0 <= o < csize vc -> chunk_byte store vc' c o = chunk_byte store vc c o.

Lemma held_chunk vc cid : held vc cid = true -> exists b, chunk_of vc cid = Some b.
Proof. unfold held. destruct (chunk_of vc cid); [eauto|done]. Qed.

Lemma chunk_volume c vc cid : volume c vol vc -> chunk vol cid c = chunk_of vc cid.
Proof. intros [Hc _]. unfold chunk. by rewrite Hc. Qed.

(** What reading a whole chunk gives, with the cache after it. *)
Definition gives (vc : VolumeCache) (cid : ChunkId) (r : outcome BlockError (WriteCache * bytes))
    : Prop :=
  exists c' vc' b, r = Ok (c', b) /\ volume c' vol vc' /\ 0 <= next_version vc' /\
    same_view vc vc' /\ lenZ b = csize vc /\
    (forall o, 0 <= o < csize vc -> byte_at b o = chunk_byte store vc cid o).

Lemma gives_held vc vc' c' cid b :
  volume c' vol vc' -> 0 <= next_version vc' -> same_view vc vc' -> chunk_of vc' cid = Some b ->
  gives vc cid (Ok (c', b)).
Proof.
  intros Hv Hn Hs Hb. exists c', vc', b. destruct Hs as (M & ? & ? & B).
  assert (csize vc' = csize vc) as Hcs by (unfold csize; by rewrite M).
  split_and!; try done.
  - rewrite <- Hcs. apply (chunk_of_len vc' cid); [apply Hv|done].
  - intros o Ho. rewrite <- B by done. symmetry. by apply chunk_of_byte.
Qed.

Lemma whole_chunk_spec cid c vc : ready c vc 1 -> gives vc cid (whole_chunk answers vol cid c).
Proof.
  intros (Hv & H0 & H1 & Hst). pose proof Hv as [Hc Hwf]. unfold whole_chunk.
  cbn [whole_chunk_loop]. rewrite (chunk_volume c vc cid Hv).
  destruct (chunk_of vc cid) as [b|] eqn:Eb.
  { apply (gives_held vc vc); try done. unfold same_view. split_and!; try done. lia. }
  assert (held vc cid = false) as Hnh by (unfold held; by rewrite Eb).
  unfold resolve_chunk, is_pending. rewrite Hc. destruct (pending_in vc cid) eqn:Ep.
  - change (answers cid) with (Ok (E:=BlockError) (store cid)).
    cbn [mbind outcome_bind]. unfold Cache.resolve. rewrite ?Hc.
    destruct (resolve_vc_spec (E:=BlockError) store cid (store cid) vc)
      as (vc' & Er & W & M & G & _ & _ & _ & N & B); [done..|].
    destruct (held_chunk vc' cid (resolve_vc_held _ _ _ _ Er Ep)) as [b Hb].
    rewrite Er. cbn [mbind outcome_bind]. set (c' := set_caches _ c).
    assert (volume c' vol vc') as Hv' by (split; [unfold c'; cbn; apply lookup_insert_eq|done]).
    rewrite (chunk_volume c' vc' cid Hv'), Hb.
    apply (gives_held vc vc'); try done; [destruct G; lia|].
    unfold same_view. split_and!; try done. apply G.
  - unfold answers. cbn [mbind outcome_bind].
    destruct (add_clean_vc_spec store cid (store cid) vc)
      as (W & M & G & _ & N & _ & B); [done..|]. unfold add_clean. rewrite Hc.
    set (vc' := add_clean_vc cid (store cid) vc) in *. set (c' := set_caches _ c).
    assert (volume c' vol vc') as Hv' by (split; [unfold c'; cbn; apply lookup_insert_eq|done]).
    assert (chunk_of vc' cid = Some (store cid)) as Hb.
    { unfold vc', add_clean_vc, chunk_of, pending_in in *.
      destruct (vc_dirty vc !! cid) as [d|] eqn:Ed; [by destruct (pending d)|].
      rewrite Eb. cbn. by rewrite Ed, lookup_insert_eq. }
    rewrite (chunk_volume c' vc' cid Hv'), Hb. cbn.
    apply (gives_held vc vc'); try done; [lia|].
    unfold same_view. split_and!; try done; [lia|apply G].
Qed.

Lemma piece_of_spec b oic n cs :
  range_ok cs (oic, n) -> lenZ b = cs ->
  piece_of b oic n = Ok (take (Z.to_nat n) (drop (Z.to_nat oic) b)).
Proof.
  intros (H1 & H2 & H3) Hb. cbn in *. unfold piece_of. rewrite Hb.
  rewrite (Z.min_l oic), (Z.min_l (oic + n)) by lia.
  replace (oic + n - oic) with n by lia. unfold lenZ in Hb.
  rewrite slice_some by lia. cbn. by rewrite Z.sub_diag, app_nil_r.
Qed.

Lemma read_pieces_spec rs : forall at_ n c vc out,
  ready c vc (lenZ rs) -> tiles (csize vc) at_ n rs ->
  exists c' vc', read_pieces answers vol rs c out =
      Ok (c', out ++ map (view store vc) (seqZ at_ n)) /\
    volume c' vol vc' /\ forall b, view store vc' b = view store vc b.
Proof.
  induction rs as [|r rs IH]; intros at_ n c vc out Hrd Ht; cbn [read_pieces tiles] in *.
  { subst n. exists c, vc. cbn. rewrite app_nil_r. by destruct Hrd as [? _]. }
  destruct Ht as (Hat & Hr & Ht). pose proof (tiles_nonneg _ _ _ _ Ht).
  pose proof Hr as (_ & Hl & _). cbn in Hl. pose proof (lenZ_nonneg rs).
  assert (lenZ (r :: rs) = 1 + lenZ rs) as Hlen by (unfold lenZ; cbn; lia).
  destruct Hrd as (Hv & Hn0 & Hn2 & Hst). pose proof Hv as [_ Hwf]. pose proof (wf_cs _ Hwf).
  destruct (whole_chunk_spec (Chunk.chunk_id r) c vc) as (c1 & vc1 & b & -> & Hv1 & Hn1 & Hs & Hb & Hby).
  { split_and!; try done. lia. }
  destruct Hs as (M & N & _ & B).
  assert (csize vc1 = csize vc) as Hcs by (unfold csize; by rewrite M).
  assert (forall x, view store vc1 x = view store vc x) as Hview.
  { intros x. unfold view. rewrite Hcs. apply B. apply Z.mod_pos_bound. lia. }
  cbn [mbind outcome_bind]. rewrite (piece_of_spec b _ _ (csize vc)) by done.
  cbn [mbind outcome_bind]. rewrite (piece_view store vc r at_ b) by done.
  destruct (IH (at_ + Chunk.length r) (n - Chunk.length r) c1 vc1
    (out ++ map (view store vc) (seqZ at_ (Chunk.length r)))) as (c' & vc' & -> & Hv' & Hb').
  { split_and!; try done; [lia|by rewrite Hcs]. }
  { by rewrite Hcs. }
  exists c', vc'. split_and!; [|done|].
  - rewrite (map_ext _ _ Hview), <- app_assoc, <- map_app, <- seqZ_split by lia.
    by replace (Chunk.length r + (n - Chunk.length r)) with n by lia.
  - intros x. by rewrite Hb', Hview.
Qed.

End reading.

(** A read through the gateway gives the volume's bytes: whatever part of
    the range is dirty, clean, half-known or not cached, with the OSDs
    answering, it succeeds with exactly the bytes the volume stands for,
    and changes nothing it stands for. *)
Theorem resolver_read_correct (store : Z -> bytes) (vol : string) (c : WriteCache)
    (vc : VolumeCache) (offset len : Z) :
  ready store vol c vc (lenZ (Chunk.byte_range_to_chunks (mapper vc) offset len)) ->
  Chunk.in_space (mapper vc) offset len ->
  exists c' vc', read (answers store) vol offset len c =
      Ok (c', map (view store vc) (seqZ offset len)) /\
    volume c' vol vc' /\ forall b, view store vc' b = view store vc b.
Proof.
  intros Hrd Hin. pose proof Hrd as (Hv & _). pose proof Hv as [Hc Hwf].
  pose proof (byte_range_tiles _ offset len (wf_mapper _ Hwf) Hin) as Ht.
  unfold read. destruct (Z.eqb_spec len 0) as [->|Hn]; [by exists c, vc|].
  unfold Cache.read. rewrite (proj2 (Z.eqb_neq len 0) Hn), Hc.
  rewrite (read_ranges_spec store vc _ offset len) by done. cbn [mbind outcome_bind app].
  destruct (forallb _ _); [by exists c, vc|].
  unfold mapper_of. rewrite Hc. cbn [fmap option_fmap option_map].
  apply (read_pieces_spec store vol _ offset len c vc []); done.
Qed.

(** ** Zeroing a range *)

Section zeroing.
Context {CRC : Crc32c} (store : Z -> bytes) (now : Z) (vol : string).

(** What a range of zeros leaves, from [vc] to [vc']. *)
Definition zeroed (at_ n : Z) (vc vc' : VolumeCache) : Prop :=
  mapper vc' = mapper vc /\ 0 <= next_version vc' <= next_version vc + n /\
  forall b, view store vc' b = if in_range b (at_, n) then Byte.x00 else view store vc b.

Lemma zeroed_nothing at_ vc : 0 <= next_version vc -> zeroed at_ 0 vc vc.
Proof.
  intros H0. split; [done|]. split; [lia|]. intros b.
  destruct (in_range b (at_, 0)) eqn:E; [|done]. apply in_range_true in E. cbn in E. lia.
Qed.

Lemma write_ok_view w d offset src c vc c' :
  volume c vol vc -> Chunk.in_space (mapper vc) offset (lenZ src) -> src <> [] ->
  0 <= next_version vc -> next_version vc + lenZ src < two64 ->
  write now w d vol offset src c = (c', Ok ()) ->
  exists vc', volume c' vol vc' /\ mapper vc' = mapper vc /\
    0 <= next_version vc' <= next_version vc + lenZ src /\
    forall b, view store vc' b =
      if in_range b (offset, lenZ src) then byte_at src (b - offset) else view store vc b.
Proof.
  intros Hv Hin Hne H0 Hn H. pose proof Hv as [Hc Hwf].
  destruct (write_cases _ _ _ _ _ _ _ _ _ _ Hc Hwf Hin Hne H) as [_ Hyes].
  assert (accepted w vol offset src c vc = true) as Hacc.
  { unfold accepted, write in *.
    destruct (Z.eqb_spec (lenZ src) 0) as [E|_]; [by apply lenZ_nil_inv in E|].
    rewrite Hc in H. fold (csize vc) in H. destruct (journal c) as [j|]; [|done].
    destruct (Journal.log_write _ _ _ _ _ _) as [j1 [seq|e|]]; cbn in *; by simplify_eq. }
  destruct (Hyes Hacc) as (c0 & c1 & E0 & Ha & E1).
  destruct (apply_spec store now vol offset src c0 vc) as (vc' & t & Ha' & W & M & B & G);
    [by split; [rewrite E0|]|done|].
  rewrite Ha in Ha'. injection Ha' as ->. cbn in E1. rewrite E0 in E1.
  destruct (G H0 Hn) as ([Gn _ _] & _ & N & _).
  exists vc'. split_and!; try done; [|lia].
  split; [|done]. rewrite E1. apply lookup_insert_eq.
Qed.

Lemma byte_at_zeros n o : byte_at (replicate n Byte.x00) o = Byte.x00.
Proof.
  unfold byte_at. destruct (replicate n Byte.x00 !! Z.to_nat o) eqn:E; [|done].
  by apply lookup_replicate in E as [-> _].
Qed.

Lemma zero_pieces_spec fuel : forall ds at_ n c vc c',
  volume c vol vc -> Chunk.in_space (mapper vc) at_ n -> n <= Z.of_nat fuel * ZERO_PIECE ->
  0 <= next_version vc -> next_version vc + n < two64 ->
  zero_pieces fuel ds now vol at_ (at_ + n) c = (c', Ok ()) ->
  exists vc', volume c' vol vc' /\ zeroed at_ n vc vc'.
Proof.
  induction fuel as [|fuel IH]; intros ds at_ n c vc c' Hv (Ho & Hn & Hsp) Hf H0 H1 H;
    cbn [zero_pieces] in H.
  { assert (n = 0) as -> by lia. injection H as <-. eauto using zeroed_nothing. }
  destruct (Z.ltb_spec at_ (at_ + n)) as [Hlt|Hge].
  2:{ assert (n = 0) as -> by lia. injection H as <-. eauto using zeroed_nothing. }
  destruct (default _ (head ds)) as [w d].
  replace (at_ + n - at_) with n in H by lia. set (p := Z.min n ZERO_PIECE) in *.
  assert (0 < p <= n) as Hp by (unfold p, ZERO_PIECE; lia).
  set (zs := replicate (Z.to_nat p) Byte.x00) in *.
  assert (lenZ zs = p) as Hz by (unfold lenZ, zs; rewrite length_replicate; lia).
  destruct (write now w d vol at_ zs c) as [c1 [[]|e|]] eqn:Ew; [|by simplify_eq..].
  destruct (write_ok_view w d at_ zs c vc c1) as (vc1 & Hv1 & M1 & N1 & B1); try done.
  { rewrite Hz. unfold Chunk.in_space. lia. }
  { intros E. rewrite E in Hz. unfold lenZ in Hz. cbn in Hz. lia. }
  { lia. }
  replace (at_ + n) with (at_ + p + (n - p)) in H by lia.
  destruct (IH (tail ds) (at_ + p) (n - p) c1 vc1 c') as (vc' & Hv' & M & N & B); try done.
  { rewrite M1. unfold Chunk.in_space. lia. }
  { unfold p, ZERO_PIECE in *. lia. }
  { lia. }
  { lia. }
  exists vc'. split; [done|]. split; [congruence|]. split; [lia|]. intros b.
  rewrite B, B1, Hz. unfold zs. rewrite byte_at_zeros.
  destruct (in_range b (at_ + p, n - p)) eqn:E1, (in_range b (at_, p)) eqn:E2,
    (in_range b (at_, n)) eqn:E3;
    rewrite <- ?not_true_iff_false, ?in_range_true in *; cbn in *; try lia; done.
Qed.

End zeroing.

(** A trim zeroes its range and nothing else: if [write_zeroes] succeeds,
    every byte of the range reads as zero and every other byte is what it
    was, whatever the range's size; the loop's pieces cover it all. *)
Theorem write_zeroes_correct {CRC : Crc32c} (store : Z -> bytes) (now : Z) (vol : string)
    (ds : list (Journal.disk_write * Journal.disk_sync)) (offset len : Z) (c c' : WriteCache)
    (vc : VolumeCache) :
  volume c vol vc -> Chunk.in_space (mapper vc) offset len ->
  0 <= next_version vc -> next_version vc + len < two64 ->
  write_zeroes ds now vol offset len c = (c', Ok ()) ->
  exists vc', volume c' vol vc' /\ zeroed store offset len vc vc'.
Proof.
  intros Hv Hin H0 H1 H. pose proof Hin as (Ho & Hn & Hsp).
  pose proof (wf_cs _ (proj2 Hv)) as Hcs. fold (csize vc) in Hsp.
  unfold write_zeroes, checked_add64 in H.
  rewrite (proj2 (Z.ltb_lt (offset + len) two64)) in H by lia.
  pose proof (div_ceil_spec len ZERO_PIECE Hn ltac:(by vm_compute)) as Hdc.
  apply (zero_pieces_spec store now vol _ ds offset len c vc c') in H; try done.
  rewrite Z2Nat.id; [lia|]. unfold ZERO_PIECE in *. lia.
Qed.

(** ** Two flushes of one chunk

    [flush_volume] takes the chunks due before it waits for the flush lock.
    Here it takes chunk 0 as first written; the client writes it again; a
    flush of everything, holding the lock, stores the second write, marks
    the chunk clean and empties the journal; then the first flush gets the
    lock and stores the bytes it took. *)
Definition race_a : bytes := [Byte.x61; Byte.x61; Byte.x61; Byte.x61].
Definition race_b : bytes := [Byte.x62; Byte.x62; Byte.x62; Byte.x62].

Definition race : outcome BlockError (Stripes * WriteCache) :=
  let zeros : loader := fun _ => Ok (replicate 4 Byte.x00) in
  let j := Journal.mkJournal (Journal.header 0 0) 28 0 0 0 0 1000 28 false in
  let c := set_journal (Some j) ex_cache in
  let '(c, r1) := @write castagnoli 0 Journal.WDone Journal.SDone "v" 0 race_a c in
  _ ← r1;
  '(c, due) ← flush_volume_take zeros 100 "v" c;
  let '(c, r2) := @write castagnoli 101 Journal.WDone Journal.SDone "v" 0 race_b c in
  _ ← r2;
  '(st, c, _) ← flush_volume_all_locked zeros "v" [] Journal.RDone ∅ c;
  Ok (flush_volume_locked "v" due [] st c).

(** Both writes are acknowledged, and the flush of everything leaves
    nothing dirty; yet the OSDs end with the first write, the journal holds
    nothing, and the chunk counts as clean: after a restart the second,
    acknowledged write is gone. *)
Theorem early_flush_loses_write :
  match race with
  | Ok (st, c) =>
    Cache.read (E:=BlockError) "v" 0 4 c = Ok (Some race_b) /\
    dirty_chunks "v" c = [] /\ read_chunk st "v" 0 4 = race_a /\
    Journal.recover (CRC:=castagnoli) <$> journal c = Some (Ok [])
  | _ => False
  end.
Proof. vm_compute. split_and!; reflexivity. Qed.

(** ** Witnesses *)

Lemma ex_ready : ready ex_store "v" ex_cache ex_vc 2.
Proof. split; [apply ex_volume|]. split_and!; by vm_compute. Qed.

Lemma resolver_read_correct_witness :
  exists c' vc', read (answers ex_store) "v" 2 3 ex_cache =
      Ok (c', map (view ex_store ex_vc) (seqZ 2 3)) /\
    volume c' "v" vc' /\ forall b, view ex_store vc' b = view ex_store ex_vc b.
Proof. apply (resolver_read_correct ex_store "v" ex_cache ex_vc 2 3); [apply ex_ready|by vm_compute]. Defined.

Lemma write_zeroes_correct_witness :
  exists vc', volume (write_zeroes (CRC:=castagnoli) [] 0 "v" 2 3 ex_cache).1 "v" vc' /\
    zeroed ex_store 2 3 ex_vc vc'.
Proof.
  apply (write_zeroes_correct (CRC:=castagnoli) ex_store 0 "v" [] 2 3 ex_cache);
    [apply ex_volume|by vm_compute..|vm_compute; reflexivity].
Defined.

End Resolver.
