(* ===== verification/Bitmap.v ===== *)
(** * Block allocation (crates/storage/src/block.rs)

    [Extent], [BlockBitmap] and [BlockAllocator]: a bit per block in a
    vector of bytes, a cached count of free blocks and a search hint. The
    theorems say the bits are a set of blocks and each operation is the
    operation on that set; the count is always its size. *)

From S2P Require Import Prelude Bytes.

Module Block.

(** ** Extents *)

Record Extent := mkExtent { start : Z; len : Z }.

Definition ext_end (e : Extent) : Z := wadd64 (start e) (len e).
Definition contains (e : Extent) (block : Z) : bool :=
  (start e <=? block) && (block <? ext_end e).
Definition overlaps (e o : Extent) : bool :=
  (start e <? ext_end o) && (start o <? ext_end e).
Definition try_merge (e o : Extent) : option Extent :=
  if ext_end e =? start o then Some (mkExtent (start e) (wadd64 (len e) (len o)))
  else if ext_end o =? start e then Some (mkExtent (start o) (wadd64 (len e) (len o)))
  else None.

(** ** The bitmap *)

Inductive StorageError : Type :=
| OutOfRange (block : Z)
| NotAllocated (block : Z)
| DiskFull
| IoFailed.

Record BlockBitmap := mkBitmap {
  data : list Z;
  total_blocks : Z;
  free_blocks : Z;
  search_hint : Z;
}.

(** A byte index past the end panics: [None]. *)
Definition is_set_in_slice (d : list Z) (block : Z) : option bool :=
  x ← d !! Z.to_nat (block / 8);
  Some (negb (Z.land x (Z.shiftl 1 (block mod 8)) =? 0)).

Definition set_in_slice (d : list Z) (block : Z) : option (list Z) :=
  x ← d !! Z.to_nat (block / 8);
  Some (<[Z.to_nat (block / 8) := Z.lor x (Z.shiftl 1 (block mod 8))]> d).

(** [!] of a byte is the other bits of 255. *)
Definition clear_in_slice (d : list Z) (block : Z) : option (list Z) :=
  x ← d !! Z.to_nat (block / 8);
  Some (<[Z.to_nat (block / 8) := Z.land x (Z.lxor 255 (Z.shiftl 1 (block mod 8)))]> d).

Definition new (total : Z) : BlockBitmap :=
  mkBitmap (replicate (Z.to_nat (div_ceil total 8)) 0) total total 0.

Fixpoint count_clear (d : list Z) (blocks : list Z) : option Z :=
  match blocks with
  | [] => Some 0
  | b :: rest =>
    s ← is_set_in_slice d b;
    n ← count_clear d rest;
    Some (if (s : bool) then n else wadd64 n 1)
  end.

Definition from_bytes (bs : list Z) (total : Z) : outcome StorageError BlockBitmap :=
  let zeroed := replicate (Z.to_nat (div_ceil total 8)) 0 in
  let copy_len := min (length zeroed) (length bs) in
  d ← or_panic (copy_into 0 (take copy_len bs) zeroed);
  free ← or_panic (count_clear d (rangeZ 0 total));
  Ok (mkBitmap d total free 0).

Definition to_bytes (m : BlockBitmap) : list Z := data m.

Definition is_allocated (m : BlockBitmap) (block : Z) : outcome StorageError bool :=
  if total_blocks m <=? block then Ok true else or_panic (is_set_in_slice (data m) block).

(** [find] over a range; [None] is a panic. *)
Fixpoint find_clear (d : list Z) (blocks : list Z) : option (option Z) :=
  match blocks with
  | [] => Some None
  | b :: rest =>
    s ← is_set_in_slice d b;
    if (s : bool) then find_clear d rest else Some (Some b)
  end.

Definition find_free_in_range (m : BlockBitmap) (lo hi : Z) : option (option Z) :=
  find_clear (data m) (rangeZ lo (Z.min hi (total_blocks m))).

(** The loop of [find_free_extent_in_range]. *)
Fixpoint find_run (d : list Z) (count : Z) (blocks : list Z) (run_start run_len : Z)
    : option (option Extent) :=
  match blocks with
  | [] => Some None
  | b :: rest =>
    s ← is_set_in_slice d b;
    if (s : bool) then find_run d count rest (b + 1) 0
    else if count <=? run_len + 1 then Some (Some (mkExtent run_start count))
    else find_run d count rest run_start (run_len + 1)
  end.

Definition find_free_extent_in_range (m : BlockBitmap) (lo hi count : Z)
    : option (option Extent) :=
  find_run (data m) count (rangeZ lo (Z.min hi (total_blocks m))) lo 0.

Definition taken (d : list Z) (hint n : Z) (m : BlockBitmap) : BlockBitmap :=
  mkBitmap d (total_blocks m) (wsub64 (free_blocks m) n) hint.

Definition take_block (b : Z) (m : BlockBitmap) : outcome StorageError (BlockBitmap * option Z) :=
  d ← or_panic (set_in_slice (data m) b);
  Ok (taken d (wadd64 b 1) 1 m, Some b).

Definition allocate (m : BlockBitmap) : outcome StorageError (BlockBitmap * option Z) :=
  let hint := search_hint m in
  r ← or_panic (find_free_in_range m hint (total_blocks m));
  match r with
  | Some b => take_block b m
  | None =>
    if 0 <? hint then
      r ← or_panic (find_free_in_range m 0 hint);
      match r with Some b => take_block b m | None => Ok (m, None) end
    else Ok (m, None)
  end.

Fixpoint set_all (d : list Z) (blocks : list Z) : option (list Z) :=
  match blocks with [] => Some d | b :: rest => d ← set_in_slice d b; set_all d rest end.

Fixpoint clear_all (d : list Z) (blocks : list Z) : option (list Z) :=
  match blocks with [] => Some d | b :: rest => d ← clear_in_slice d b; clear_all d rest end.

Definition mark_extent_used (d : list Z) (e : Extent) : option (list Z) :=
  set_all d (rangeZ (start e) (ext_end e)).

Definition take_extent (e : Extent) (count : Z) (m : BlockBitmap)
    : outcome StorageError (BlockBitmap * option Extent) :=
  d ← or_panic (mark_extent_used (data m) e);
  Ok (taken d (ext_end e) count m, Some e).

Definition allocate_extent (count : Z) (m : BlockBitmap)
    : outcome StorageError (BlockBitmap * option Extent) :=
  if count =? 0 then Ok (m, None)
  else if count =? 1 then
    '(m, b) ← allocate m; Ok (m, option_map (fun b => mkExtent b 1) b)
  else
    let hint := search_hint m in
    r ← or_panic (find_free_extent_in_range m hint (total_blocks m) count);
    match r with
    | Some e => take_extent e count m
    | None =>
      if 0 <? hint then
        r ← or_panic (find_free_extent_in_range m 0 hint count);
        match r with Some e => take_extent e count m | None => Ok (m, None) end
      else Ok (m, None)
    end.

Definition mark_used (block : Z) (m : BlockBitmap) : outcome StorageError BlockBitmap :=
  if total_blocks m <=? block then Err (OutOfRange block)
  else
    s ← or_panic (is_set_in_slice (data m) block);
    if (s : bool) then Ok m
    else
      d ← or_panic (set_in_slice (data m) block);
      Ok (mkBitmap d (total_blocks m) (wsub64 (free_blocks m) 1) (search_hint m)).

Definition freed (d : list Z) (first n : Z) (m : BlockBitmap) : BlockBitmap :=
  mkBitmap d (total_blocks m) (wadd64 (free_blocks m) n)
    (if first <? search_hint m then first else search_hint m).

Definition free (block : Z) (m : BlockBitmap) : outcome StorageError BlockBitmap :=
  if total_blocks m <=? block then Err (OutOfRange block)
  else
    s ← or_panic (is_set_in_slice (data m) block);
    if negb s then Err (NotAllocated block)
    else
      d ← or_panic (clear_in_slice (data m) block);
      Ok (freed d block 1 m).

Definition free_extent (e : Extent) (m : BlockBitmap) : outcome StorageError BlockBitmap :=
  if total_blocks m <? ext_end e then Err (OutOfRange (ext_end e))
  else
    let blocks := rangeZ (start e) (ext_end e) in
    f ← or_panic (find_clear (data m) blocks);
    match f with
    | Some b => Err (NotAllocated b)
    | None =>
      d ← or_panic (clear_all (data m) blocks);
      Ok (freed d (start e) (len e) m)
    end.

Definition free_count (m : BlockBitmap) : Z := free_blocks m.
Definition total_count (m : BlockBitmap) : Z := total_blocks m.
Definition allocated_count (m : BlockBitmap) : Z := wsub64 (total_blocks m) (free_blocks m).

(** ** The allocator on disk *)

Definition ALIGNMENT : Z := 4096.

(** An [AlignedBuffer] of [size] bytes with [src] copied in, zeros after. *)
Definition aligned_size (size : Z) : Z := div_ceil size ALIGNMENT * ALIGNMENT.
Definition buffer_from (size : Z) (src : list Z) : list Z :=
  resize_to (Z.to_nat (aligned_size size)) 0 (take (Z.to_nat (aligned_size size)) src).

(** [file] is what the disk holds from [bitmap_offset] on. *)
Record BlockAllocator := mkAllocator {
  bitmap : BlockBitmap;
  file : option (list Z);
  bitmap_size : Z;
  dirty : bool;
}.

Definition BlockAllocator_new (total : Z) : BlockAllocator := mkAllocator (new total) None 0 false.

Definition with_file (f : list Z) (size total : Z) : outcome StorageError BlockAllocator :=
  buf ← ok_or (slice 0 (Z.to_nat (aligned_size size)) f) IoFailed;
  m ← from_bytes buf total;
  Ok (mkAllocator m (Some f) size false).

Definition init (f : list Z) (size total : Z) : outcome StorageError BlockAllocator :=
  f ← ok_or (copy_into 0 (replicate (Z.to_nat (aligned_size size)) 0) f) IoFailed;
  Ok (mkAllocator (new total) (Some f) size false).

Definition set_bitmap (m : BlockBitmap) (a : BlockAllocator) : BlockAllocator :=
  mkAllocator m (file a) (bitmap_size a) (dirty a).
Definition mark_dirty (a : BlockAllocator) : BlockAllocator :=
  mkAllocator (bitmap a) (file a) (bitmap_size a) true.

Definition a_allocate (a : BlockAllocator) : outcome StorageError (BlockAllocator * Z) :=
  '(m, b) ← allocate (bitmap a);
  b ← ok_or b DiskFull;
  Ok (mark_dirty (set_bitmap m a), b).

(** The rollback of [allocate_multiple]; errors are dropped. *)
Fixpoint rollback (blocks : list Z) (m : BlockBitmap) : outcome StorageError BlockBitmap :=
  match blocks with
  | [] => Ok m
  | b :: rest =>
    match free b m with
    | Ok m => rollback rest m
    | Err _ => rollback rest m
    | Panic => Panic
    end
  end.

(** The loop of [allocate_multiple]: the bitmap after it, and the blocks,
    or none if the disk was full. *)
Fixpoint allocate_loop (n : nat) (blocks : list Z) (m : BlockBitmap)
    : outcome StorageError (BlockBitmap * option (list Z)) :=
  match n with
  | O => Ok (m, Some blocks)
  | S n =>
    '(m, b) ← allocate m;
    match b with
    | Some b => allocate_loop n (blocks ++ [b]) m
    | None => m ← rollback blocks m; Ok (m, None)
    end
  end.

(** The allocator after it, also where the disk was full. *)
Definition allocate_multiple (count : Z) (a : BlockAllocator)
    : outcome StorageError (BlockAllocator * outcome StorageError (list Z)) :=
  '(m, r) ← allocate_loop (Z.to_nat count) [] (bitmap a);
  match r with
  | Some blocks => Ok (mark_dirty (set_bitmap m a), Ok blocks)
  | None => Ok (set_bitmap m a, Err DiskFull)
  end.

Definition a_allocate_extent (count : Z) (a : BlockAllocator)
    : outcome StorageError (BlockAllocator * Extent) :=
  '(m, e) ← allocate_extent count (bitmap a);
  e ← ok_or e DiskFull;
  Ok (mark_dirty (set_bitmap m a), e).

Definition a_free (block : Z) (a : BlockAllocator) : outcome StorageError BlockAllocator :=
  m ← free block (bitmap a);
  Ok (mark_dirty (set_bitmap m a)).

Definition a_free_extent (e : Extent) (a : BlockAllocator) : outcome StorageError BlockAllocator :=
  m ← free_extent e (bitmap a);
  Ok (mark_dirty (set_bitmap m a)).

(** [free_multiple]: the allocator after it, also where it stops early. *)
Fixpoint free_multiple (blocks : list Z) (a : BlockAllocator)
    : BlockAllocator * outcome StorageError () :=
  match blocks with
  | [] => (mark_dirty a, Ok ())
  | b :: rest =>
    match free b (bitmap a) with
    | Ok m => free_multiple rest (set_bitmap m a)
    | Err e => (a, Err e)
    | Panic => (a, Panic)
    end
  end.

(** [io] is whether the write and the sync succeed. *)
Definition a_sync (io : bool) (a : BlockAllocator) : outcome StorageError BlockAllocator :=
  if negb (dirty a) then Ok a
  else
    match file a with
    | None => Ok a
    | Some f =>
      if io then
        f ← ok_or (copy_into 0 (buffer_from (bitmap_size a) (to_bytes (bitmap a))) f) IoFailed;
        Ok (mkAllocator (bitmap a) (Some f) (bitmap_size a) false)
      else Err IoFailed
    end.

(** ** The set of blocks in use *)

Definition bit (d : list Z) (b : Z) : bool :=
  match d !! Z.to_nat (b / 8) with Some x => Z.testbit x (b mod 8) | None => false end.

Definition in_slice (d : list Z) (b : Z) : Prop := 0 <= b < 8 * lenZ d.

Lemma in_slice_lookup d b : in_slice d b -> exists x, d !! Z.to_nat (b / 8) = Some x.
Proof.
  intros [Hb Hl]. apply lookup_lt_is_Some_2. unfold lenZ in Hl.
  assert (b / 8 < Z.of_nat (length d)) by (apply Z.div_lt_upper_bound; lia). lia.
Qed.

Lemma land_bit x n : 0 <= n -> negb (Z.land x (Z.shiftl 1 n) =? 0) = Z.testbit x n.
Proof.
  intros Hn. rewrite Z.shiftl_1_l. destruct (Z.testbit x n) eqn:E.
  - apply negb_true_iff, Z.eqb_neq. intros H. apply (f_equal (fun y => Z.testbit y n)) in H.
    rewrite Z.land_spec, Z.pow2_bits_true, E, Z.bits_0 in H by done. done.
  - apply negb_false_iff, Z.eqb_eq. apply Z.bits_inj'. intros k Hk.
    rewrite Z.land_spec, Z.bits_0. destruct (Z.eq_dec n k) as [->|Hne].
    + by rewrite E.
    + by rewrite Z.pow2_bits_false, andb_false_r.
Qed.

Lemma is_set_bit d b : in_slice d b -> is_set_in_slice d b = Some (bit d b).
Proof.
  intros Hb. unfold is_set_in_slice, bit. destruct (in_slice_lookup d b Hb) as [x ->]. cbn.
  rewrite land_bit; [done|]. apply Z.mod_pos_bound. lia.
Qed.

(** A byte of the slice replaced by one that differs in one bit. *)
Lemma bit_insert d b c x y v :
  in_slice d b -> 0 <= c -> d !! Z.to_nat (b / 8) = Some x ->
  (forall k, 0 <= k < 8 -> Z.testbit y k = if k =? b mod 8 then v else Z.testbit x k) ->
  bit (<[Z.to_nat (b / 8) := y]> d) c = if c =? b then v else bit d c.
Proof.
  intros [Hb Hl] Hc Hx Hy. unfold bit.
  pose proof (Z.mod_pos_bound b 8 ltac:(lia)). pose proof (Z.mod_pos_bound c 8 ltac:(lia)).
  pose proof (Z.div_mod b 8 ltac:(lia)). pose proof (Z.div_mod c 8 ltac:(lia)).
  assert (0 <= b / 8 /\ 0 <= c / 8) as [? ?] by (split; apply Z.div_pos; lia).
  destruct (decide (Z.to_nat (c / 8) = Z.to_nat (b / 8))) as [E|E].
  - rewrite E, list_lookup_insert_eq by (by eapply lookup_lt_Some). rewrite Hx.
    rewrite Hy by done. destruct (Z.eqb_spec (c mod 8) (b mod 8)), (Z.eqb_spec c b); try done; lia.
  - rewrite list_lookup_insert_ne by done. destruct (Z.eqb_spec c b); [subst; done|done].
Qed.

Lemma set_in_slice_spec d b :
  in_slice d b -> exists d', set_in_slice d b = Some d' /\ length d' = length d /\
    forall c, 0 <= c -> bit d' c = (c =? b) || bit d c.
Proof.
  intros Hb. destruct (in_slice_lookup d b Hb) as [x Hx]. unfold set_in_slice. rewrite Hx. cbn.
  eexists. split_and!; [done|by rewrite length_insert|]. intros c Hc.
  rewrite (bit_insert d b c x _ true); try done.
  intros k Hk. rewrite Z.lor_spec, Z.shiftl_1_l.
  pose proof (Z.mod_pos_bound b 8 ltac:(lia)).
  destruct (Z.eqb_spec k (b mod 8)) as [->|Hne].
  - by rewrite Z.pow2_bits_true, orb_true_r by lia.
  - by rewrite Z.pow2_bits_false, orb_false_r by lia.
Qed.

Lemma clear_in_slice_spec d b :
  in_slice d b -> exists d', clear_in_slice d b = Some d' /\ length d' = length d /\
    forall c, 0 <= c -> bit d' c = negb (c =? b) && bit d c.
Proof.
  intros Hb. destruct (in_slice_lookup d b Hb) as [x Hx]. unfold clear_in_slice. rewrite Hx. cbn.
  eexists. split_and!; [done|by rewrite length_insert|]. intros c Hc.
  rewrite (bit_insert d b c x _ false); try done; [by destruct (c =? b)|].
  intros k Hk. rewrite Z.land_spec, Z.lxor_spec, Z.shiftl_1_l.
  pose proof (Z.mod_pos_bound b 8 ltac:(lia)).
  assert (Z.testbit 255 k = true) as ->.
  { change 255 with (Z.ones 8). apply Z.ones_spec_low. lia. }
  destruct (Z.eqb_spec k (b mod 8)) as [->|Hne].
  - by rewrite Z.pow2_bits_true, andb_false_r by lia.
  - by rewrite Z.pow2_bits_false, andb_true_r by lia.
Qed.

(** ** Counting *)

Definition clear_count (d : list Z) (l : list Z) : Z :=
  lenZ (List.filter (fun b => negb (bit d b)) l).

(** The lists of blocks the operations walk. *)
Definition within (d : list Z) (l : list Z) : Prop := forall b, b ∈ l -> in_slice d b.

Lemma filter_upd (f g : Z -> bool) (b : Z) l :
  NoDup l -> b ∈ l -> f b = true -> g b = false ->
  (forall c, c ∈ l -> c <> b -> f c = g c) ->
  lenZ (List.filter f l) = lenZ (List.filter g l) + 1.
Proof.
  assert (forall l', b ∉ l' -> (forall c, c ∈ l' -> c <> b -> f c = g c) ->
    List.filter f l' = List.filter g l') as Hsame.
  { induction l' as [|x l' IH]; intros Hni Heq; [done|]. cbn.
    rewrite Heq by set_solver. rewrite IH by set_solver. done. }
  induction l as [|x l IH]; intros Hnd Hin Hf Hg Heq; [set_solver|].
  apply NoDup_cons in Hnd as [Hx Hnd]. cbn. destruct (decide (x = b)) as [->|Hne].
  - rewrite Hf, Hg, (Hsame l) by set_solver. unfold lenZ. cbn. lia.
  - rewrite (Heq x) by set_solver.
    assert (lenZ (List.filter f l) = lenZ (List.filter g l) + 1) as E by (apply IH; set_solver).
    destruct (g x); unfold lenZ in *; cbn; lia.
Qed.

Lemma clear_count_set d d' b l :
  NoDup l -> b ∈ l -> (forall c, c ∈ l -> 0 <= c) -> bit d b = false ->
  (forall c, 0 <= c -> bit d' c = (c =? b) || bit d c) -> clear_count d' l = clear_count d l - 1.
Proof.
  intros Hnd Hin Hp Hb Hd'. unfold clear_count.
  rewrite (filter_upd (fun c => negb (bit d c)) (fun c => negb (bit d' c)) b l); try done.
  - lia.
  - by rewrite Hb.
  - by rewrite Hd', Z.eqb_refl by (by apply Hp).
  - intros c Hc Hne. rewrite Hd' by (by apply Hp). by rewrite (proj2 (Z.eqb_neq c b) Hne).
Qed.

Lemma clear_count_clear d d' b l :
  NoDup l -> b ∈ l -> (forall c, c ∈ l -> 0 <= c) -> bit d b = true ->
  (forall c, 0 <= c -> bit d' c = negb (c =? b) && bit d c) ->
  clear_count d' l = clear_count d l + 1.
Proof.
  intros Hnd Hin Hp Hb Hd'. unfold clear_count.
  rewrite (filter_upd (fun c => negb (bit d' c)) (fun c => negb (bit d c)) b l); try done.
  - by rewrite Hd', Z.eqb_refl by (by apply Hp).
  - by rewrite Hb.
  - intros c Hc Hne. rewrite Hd' by (by apply Hp). by rewrite (proj2 (Z.eqb_neq c b) Hne).
Qed.

Lemma within_length d d' l : length d' = length d -> within d l -> within d' l.
Proof. unfold within, in_slice, lenZ. intros ->. done. Qed.

(** Setting and clearing a list of blocks, with the count over [u]. *)
Lemma set_all_spec u l : forall d,
  within d l -> NoDup l -> NoDup u -> (forall c, c ∈ u -> 0 <= c) ->
  (forall b, b ∈ l -> b ∈ u /\ bit d b = false) ->
  exists d', set_all d l = Some d' /\ length d' = length d /\
    (forall c, 0 <= c -> bit d' c = bool_decide (c ∈ l) || bit d c) /\
    clear_count d' u = clear_count d u - lenZ l.
Proof.
  induction l as [|b l IH]; intros d Hw Hnd Hu Hp Hl; cbn [set_all].
  { exists d. split_and!; [done..|]. unfold lenZ. cbn. lia. }
  apply NoDup_cons in Hnd as [Hb Hnd]. destruct (Hl b) as [Hbu Hbf]; [set_solver|].
  destruct (set_in_slice_spec d b) as (d1 & -> & Hl1 & Hb1); [apply Hw; set_solver|]. cbn.
  destruct (IH d1) as (d' & -> & Hl' & Hb' & Hc'); try done.
  { apply (within_length d); [done|]. intros c Hc. apply Hw. set_solver. }
  { intros c Hc. destruct (Hl c) as [? Hf]; [set_solver|]. split; [done|].
    rewrite Hb1 by (by apply Hp). rewrite Hf, orb_false_r. apply Z.eqb_neq. set_solver. }
  exists d'. split_and!; [done|congruence| |].
  - intros c Hc. rewrite Hb', Hb1 by done. rewrite orb_assoc. f_equal.
    destruct (Z.eqb_spec c b); repeat case_bool_decide; set_solver.
  - rewrite Hc', (clear_count_set d d1 b u) by done. unfold lenZ. cbn. lia.
Qed.

Lemma clear_all_spec u l : forall d,
  within d l -> NoDup l -> NoDup u -> (forall c, c ∈ u -> 0 <= c) ->
  (forall b, b ∈ l -> b ∈ u /\ bit d b = true) ->
  exists d', clear_all d l = Some d' /\ length d' = length d /\
    (forall c, 0 <= c -> bit d' c = negb (bool_decide (c ∈ l)) && bit d c) /\
    clear_count d' u = clear_count d u + lenZ l.
Proof.
  induction l as [|b l IH]; intros d Hw Hnd Hu Hp Hl; cbn [clear_all].
  { exists d. split_and!; [done..|]. unfold lenZ. cbn. lia. }
  apply NoDup_cons in Hnd as [Hb Hnd]. destruct (Hl b) as [Hbu Hbf]; [set_solver|].
  destruct (clear_in_slice_spec d b) as (d1 & -> & Hl1 & Hb1); [apply Hw; set_solver|]. cbn.
  destruct (IH d1) as (d' & -> & Hl' & Hb' & Hc'); try done.
  { apply (within_length d); [done|]. intros c Hc. apply Hw. set_solver. }
  { intros c Hc. destruct (Hl c) as [? Hf]; [set_solver|]. split; [done|].
    rewrite Hb1 by (by apply Hp). rewrite Hf, andb_true_r. apply negb_true_iff, Z.eqb_neq.
    set_solver. }
  exists d'. split_and!; [done|congruence| |].
  - intros c Hc. rewrite Hb', Hb1 by done. rewrite andb_assoc. f_equal.
    destruct (Z.eqb_spec c b); repeat case_bool_decide; set_solver.
  - rewrite Hc', (clear_count_clear d d1 b u) by done. unfold lenZ. cbn. lia.
Qed.

Lemma find_clear_spec d l :
  within d l -> exists r, find_clear d l = Some r /\
    match r with
    | Some b => b ∈ l /\ bit d b = false
    | None => forall b, b ∈ l -> bit d b = true
    end.
Proof.
  induction l as [|b l IH]; intros Hw; cbn [find_clear].
  { exists None. split; [done|]. set_solver. }
  rewrite is_set_bit by (apply Hw; set_solver). cbn.
  destruct (bit d b) eqn:Eb; [|exists (Some b); split; [done|set_solver]].
  destruct IH as (r & -> & Hr); [intros c Hc; apply Hw; set_solver|]. exists r. split; [done|].
  destruct r; set_solver.
Qed.

Lemma count_clear_spec d l :
  within d l -> lenZ l < two64 -> count_clear d l = Some (clear_count d l).
Proof.
  unfold clear_count. induction l as [|b l IH]; intros Hw Hl; [done|]. cbn [count_clear].
  rewrite is_set_bit by (apply Hw; set_solver). cbn.
  assert (lenZ (b :: l) = lenZ l + 1) as E by (unfold lenZ; cbn; lia).
  rewrite IH by (lia || intros c Hc; apply Hw; set_solver). cbn. f_equal.
  destruct (bit d b); [done|]. cbn.
  pose proof (lenZ_nonneg (List.filter (fun b => negb (bit d b)) l)).
  assert (lenZ (List.filter (fun b => negb (bit d b)) l) <= lenZ l)
    by (unfold lenZ; apply inj_le, List.filter_length_le).
  rewrite wadd64_small by lia. unfold lenZ. cbn. lia.
Qed.

(** A run of free blocks. *)
Definition free_run (d : list Z) (s n : Z) : Prop := forall b, s <= b < s + n -> bit d b = false.

(** The loop over [at_, at_ + k): the run so far is [rs, at_). It finds a
    run if there is one from [rs] on, and only then. *)
Lemma find_run_spec d count (k : nat) : forall at_ rs,
  within d (seqZ at_ (Z.of_nat k)) -> 1 <= count -> rs <= at_ -> at_ - rs < count ->
  free_run d rs (at_ - rs) ->
  exists r, find_run d count (seqZ at_ (Z.of_nat k)) rs (at_ - rs) = Some r /\
    match r with
    | Some e => len e = count /\ rs <= start e /\ start e + count <= at_ + Z.of_nat k /\
                free_run d (start e) count
    | None => forall s, rs <= s -> s + count <= at_ + Z.of_nat k -> ~ free_run d s count
    end.
Proof.
  induction k as [|k IH]; intros at_ rs Hw Hc Hle Hlt Hrun.
  { cbn. exists None. split; [done|]. intros s Hs He. lia. }
  rewrite seqZ_cons_1 in * by lia. cbn [find_run].
  replace (Z.of_nat (S k) - 1) with (Z.of_nat k) in * by lia.
  rewrite is_set_bit by (apply Hw; set_solver). cbn [mbind option_bind].
  assert (within d (seqZ (at_ + 1) (Z.of_nat k))) as Hw' by (intros b Hb; apply Hw; set_solver).
  destruct (bit d at_) eqn:Eb.
  - destruct (IH (at_ + 1) (at_ + 1)) as (r & Hr & Hspec); [done|lia|lia|lia| |].
    { intros b Hb. lia. }
    replace (at_ + 1 - (at_ + 1)) with 0 in Hr by lia. rewrite Hr. exists r. split; [done|].
    destruct r as [e|].
    + destruct Hspec as (? & ? & ? & ?). split_and!; try done; lia.
    + intros s Hs He Hfree. destruct (Z.le_gt_cases (at_ + 1) s) as [Hgt|Hle'].
      * apply (Hspec s); [lia|lia|done].
      * rewrite (Hfree at_) in Eb by lia. done.
  - assert (free_run d rs (at_ + 1 - rs)) as Hrun'.
    { intros b Hb. destruct (Z.eq_dec b at_) as [->|]; [done|]. apply Hrun. lia. }
    destruct (Z.leb_spec count (at_ - rs + 1)).
    + eexists. split; [done|]. cbn. split_and!; [done|lia|lia|].
      intros b Hb. apply Hrun'. lia.
    + destruct (IH (at_ + 1) rs) as (r & Hr & Hspec); [done|lia|lia|lia|done|].
      replace (at_ + 1 - rs) with (at_ - rs + 1) in Hr by lia. rewrite Hr. exists r.
      split; [done|]. destruct r as [e|].
      * destruct Hspec as (? & ? & ? & ?). split_and!; try done; lia.
      * intros s Hs He. apply Hspec; lia.
Qed.

(** ** The bitmap as a set of blocks *)

Definition blocks (m : BlockBitmap) : list Z := seqZ 0 (total_blocks m).

Record wf (m : BlockBitmap) : Prop := mkwf {
  wf_len : lenZ (data m) = div_ceil (total_blocks m) 8;
  wf_total : 0 <= total_blocks m < two64;
  wf_free : free_blocks m = clear_count (data m) (blocks m);
  wf_hint : 0 <= search_hint m <= total_blocks m;
}.

Definition used (m : BlockBitmap) (b : Z) : bool := bit (data m) b.

Definition is_block (m : BlockBitmap) (b : Z) : Prop := 0 <= b < total_blocks m.

Lemma wf_within m lo hi : wf m -> 0 <= lo -> hi <= total_blocks m -> within (data m) (rangeZ lo hi).
Proof.
  intros [Hl [Ht _] _ _] Hlo Hhi b Hb%elem_of_seqZ. unfold in_slice. rewrite Hl.
  pose proof (div_ceil_spec (total_blocks m) 8 Ht ltac:(lia)). lia.
Qed.

Lemma blocks_nodup m : NoDup (blocks m).
Proof. apply NoDup_seqZ. Qed.

Lemma blocks_in m b : b ∈ blocks m <-> is_block m b.
Proof. unfold blocks, is_block. rewrite elem_of_seqZ. lia. Qed.

Lemma clear_count_bound d l : 0 <= clear_count d l <= lenZ l.
Proof.
  unfold clear_count. split; [apply lenZ_nonneg|]. unfold lenZ.
  apply inj_le, List.filter_length_le.
Qed.

Lemma blocks_len m : wf m -> lenZ (blocks m) = total_blocks m.
Proof. intros [_ Ht _ _]. unfold lenZ, blocks. rewrite length_seqZ. lia. Qed.

(** Blocks taken: the bitmap after [taken]. *)
Lemma taken_wf m d hint n :
  wf m -> length d = length (data m) -> 0 <= n ->
  clear_count d (blocks m) = clear_count (data m) (blocks m) - n ->
  0 <= hint <= total_blocks m -> wf (taken d hint n m).
Proof.
  intros Hwf Hl Hn Hc Hh. pose proof Hwf as [Hlen Ht Hf _]. split; cbn; try done.
  - unfold lenZ in *. by rewrite Hl.
  - unfold wsub64. pose proof (clear_count_bound d (blocks m)).
    pose proof (clear_count_bound (data m) (blocks m)). rewrite (blocks_len m Hwf) in *.
    unfold blocks in *. cbn in *. rewrite wrap64_small by (unfold is_u64; lia). lia.
Qed.

Lemma freed_wf m d first n :
  wf m -> length d = length (data m) -> 0 <= n ->
  clear_count d (blocks m) = clear_count (data m) (blocks m) + n ->
  0 <= first -> wf (freed d first n m).
Proof.
  intros Hwf Hl Hn Hc Hh. pose proof Hwf as [Hlen Ht Hf Hhi]. split; cbn; try done.
  - unfold lenZ in *. by rewrite Hl.
  - pose proof (clear_count_bound d (blocks m)). pose proof (clear_count_bound (data m) (blocks m)).
    rewrite (blocks_len m Hwf) in *. unfold blocks in *. cbn in *.
    rewrite wadd64_small by lia. lia.
  - case_if; lia.
Qed.

(** One operation as the operation on the set: what is used after it. *)
Definition becomes (m m' : BlockBitmap) (u : Z -> bool) : Prop :=
  wf m' /\ total_blocks m' = total_blocks m /\ forall b, is_block m b -> used m' b = u b.

Lemma take_block_spec m b :
  wf m -> is_block m b -> used m b = false ->
  exists m', take_block b m = Ok (m', Some b) /\ becomes m m' (fun c => (c =? b) || used m c).
Proof.
  intros Hwf Hb Hf. unfold take_block. pose proof (wf_total _ Hwf).
  assert (in_slice (data m) b) as Hin.
  { apply (wf_within m 0 (total_blocks m)); [done|lia|lia|]. apply elem_of_seqZ.
    unfold is_block in Hb. lia. }
  destruct (set_in_slice_spec (data m) b Hin) as (d' & -> & Hl & Hbit). cbn.
  eexists. split; [done|]. split_and!; [|done|].
  - unfold is_block in Hb. rewrite wadd64_small by (unfold two64 in *; lia).
    apply taken_wf; try done; try lia.
    apply (clear_count_set (data m) d' b); try done.
    + apply blocks_nodup.
    + by apply blocks_in.
    + intros c Hc%blocks_in. unfold is_block in Hc. lia.
  - intros c Hc. apply Hbit. unfold is_block in Hc. lia.
Qed.

Lemma find_free_spec m lo hi :
  wf m -> 0 <= lo -> exists r, find_free_in_range m lo hi = Some r /\
    match r with
    | Some b => lo <= b < hi /\ is_block m b /\ used m b = false
    | None => forall b, is_block m b -> lo <= b < hi -> used m b = true
    end.
Proof.
  intros Hwf Hlo. unfold find_free_in_range.
  destruct (find_clear_spec (data m) (rangeZ lo (Z.min hi (total_blocks m)))) as (r & -> & Hr).
  { apply wf_within; [done|lia|lia]. }
  exists r. split; [done|]. destruct r as [b|].
  - destruct Hr as [Hb%elem_of_seqZ Hf]. unfold is_block. split_and!; [lia|lia|lia|lia|done].
  - intros b Hb Hin. apply Hr, elem_of_seqZ. unfold is_block in Hb. lia.
Qed.

Lemma allocate_spec m :
  wf m -> exists m' r, allocate m = Ok (m', r) /\
    match r with
    | Some b => is_block m b /\ used m b = false /\
                becomes m m' (fun c => (c =? b) || used m c)
    | None => m' = m /\ forall b, is_block m b -> used m b = true
    end.
Proof.
  intros Hwf. pose proof (wf_hint _ Hwf) as Hh. unfold allocate.
  destruct (find_free_spec m (search_hint m) (total_blocks m) Hwf) as (r & -> & Hr); [lia|].
  cbn [or_panic mbind outcome_bind]. destruct r as [b|].
  { destruct Hr as (_ & Hb & Hf). destruct (take_block_spec m b Hwf Hb Hf) as (m' & -> & Hm').
    by exists m', (Some b). }
  destruct (Z.ltb_spec 0 (search_hint m)) as [Hpos|Hz].
  - destruct (find_free_spec m 0 (search_hint m) Hwf) as (r & -> & Hr'); [lia|].
    cbn [or_panic mbind outcome_bind]. destruct r as [b|].
    { destruct Hr' as (_ & Hb & Hf). destruct (take_block_spec m b Hwf Hb Hf) as (m' & -> & Hm').
      by exists m', (Some b). }
    exists m, None. split_and!; try done. intros b Hb. pose proof Hb as Hb'. unfold is_block in Hb'.
    destruct (Z.lt_ge_cases b (search_hint m)); [apply Hr'; [done|lia]|apply Hr; [done|lia]].
  - exists m, None. split_and!; try done. intros b Hb. pose proof Hb as Hb'. unfold is_block in Hb'.
    apply Hr; [done|lia].
Qed.

Definition in_extent (e : Extent) (b : Z) : bool := (start e <=? b) && (b <? start e + len e).

Lemma in_extent_range e b : bool_decide (b ∈ rangeZ (start e) (start e + len e)) = in_extent e b.
Proof.
  unfold in_extent, rangeZ. apply eq_bool_prop_intro. rewrite bool_decide_spec, elem_of_seqZ.
  rewrite Is_true_true, andb_true_iff, Z.leb_le, Z.ltb_lt. lia.
Qed.

Lemma find_extent_spec m lo hi count :
  wf m -> 0 <= lo <= hi -> hi <= total_blocks m -> 1 <= count ->
  exists r, find_free_extent_in_range m lo hi count = Some r /\
    match r with
    | Some e => len e = count /\ lo <= start e /\ start e + count <= hi /\
                free_run (data m) (start e) count
    | None => forall s, lo <= s -> s + count <= hi -> ~ free_run (data m) s count
    end.
Proof.
  intros Hwf Hlo Hhi Hc. unfold find_free_extent_in_range. rewrite Z.min_l by done.
  pose proof (wf_within m lo hi Hwf ltac:(lia) Hhi) as Hw. unfold rangeZ in *.
  rewrite <- (Z2Nat.id (hi - lo)) in * by lia.
  destruct (find_run_spec (data m) count (Z.to_nat (hi - lo)) lo lo Hw Hc) as (r & Hr & Hspec);
    [lia|lia|intros b Hb; lia|]. rewrite Z.sub_diag in Hr. rewrite Hr. exists r. split; [done|].
  rewrite Z2Nat.id in Hspec by lia. replace (lo + (hi - lo)) with hi in Hspec by lia. done.
Qed.

Lemma take_extent_spec m e count :
  wf m -> len e = count -> 1 <= count -> 0 <= start e -> start e + count <= total_blocks m ->
  free_run (data m) (start e) count ->
  exists m', take_extent e count m = Ok (m', Some e) /\
    becomes m m' (fun c => in_extent e c || used m c).
Proof.
  intros Hwf Hl Hc Hs He Hrun. pose proof (wf_total _ Hwf) as Ht. unfold take_extent, mark_extent_used.
  assert (ext_end e = start e + len e) as Hend
    by (unfold ext_end; rewrite wadd64_small; lia).
  rewrite Hend. destruct (set_all_spec (blocks m) (rangeZ (start e) (start e + len e)) (data m))
    as (d' & -> & Hlen & Hbit & Hcount).
  - apply wf_within; [done|lia|lia].
  - apply NoDup_seqZ.
  - apply blocks_nodup.
  - intros c Hc'%blocks_in. unfold is_block in Hc'. lia.
  - intros b Hb%elem_of_seqZ. rewrite blocks_in. unfold is_block. split; [lia|]. apply Hrun. lia.
  - cbn. eexists. split; [done|]. split_and!; [|done|].
    + apply taken_wf; try done; try lia. rewrite Hcount. unfold rangeZ, lenZ.
      rewrite length_seqZ. lia.
    + intros c Hc'. unfold used. cbn. rewrite Hbit by (unfold is_block in Hc'; lia).
      by rewrite in_extent_range.
Qed.

Lemma allocate_extent_spec m count :
  wf m -> 1 <= count -> exists m' r, allocate_extent count m = Ok (m', r) /\
    match r with
    | Some e => len e = count /\ 0 <= start e /\ start e + count <= total_blocks m /\
                free_run (data m) (start e) count /\
                becomes m m' (fun c => in_extent e c || used m c)
    | None => m' = m /\ forall s, 0 <= s -> s + count <= total_blocks m ->
                (s + count <= search_hint m \/ search_hint m <= s) -> ~ free_run (data m) s count
    end.
Proof.
  intros Hwf Hc. pose proof (wf_hint _ Hwf) as Hh. unfold allocate_extent.
  rewrite (proj2 (Z.eqb_neq count 0)) by lia. destruct (Z.eqb_spec count 1) as [->|Hne].
  { destruct (allocate_spec m Hwf) as (m' & r & -> & Hr). cbn [mbind outcome_bind].
    eexists _, _. split; [done|]. destruct r as [b|]; cbn.
    - destruct Hr as (Hb & Hf & W & T & U). unfold is_block in Hb. split_and!; try done; try lia.
      + intros c Hcb. replace c with b by lia. done.
      + split_and!; try done. intros c Hcb. rewrite U by done. unfold in_extent. cbn. f_equal.
        destruct (Z.eqb_spec c b), (Z.leb_spec b c), (Z.ltb_spec c (b + 1)); try done; lia.
    - destruct Hr as [-> Hall]. split; [done|]. intros s Hs He _ Hrun.
      specialize (Hall s ltac:(unfold is_block; lia)). unfold used in Hall.
      rewrite Hrun in Hall by lia. done. }
  destruct (find_extent_spec m (search_hint m) (total_blocks m) count Hwf) as (r & -> & Hr);
    [lia|lia|lia|]. cbn [or_panic mbind outcome_bind]. destruct r as [e|].
  { destruct Hr as (Hl & Hs & He & Hrun).
    destruct (take_extent_spec m e count) as (m' & -> & Hm'); try done; [lia|].
    eexists _, _. split; [done|]. cbn. split_and!; try done; lia. }
  destruct (Z.ltb_spec 0 (search_hint m)) as [Hpos|Hz].
  - destruct (find_extent_spec m 0 (search_hint m) count Hwf) as (r & -> & Hr'); [lia|lia|lia|].
    cbn [or_panic mbind outcome_bind]. destruct r as [e|].
    { destruct Hr' as (Hl & Hs & He & Hrun).
      destruct (take_extent_spec m e count) as (m' & -> & Hm'); try done; [lia|].
      eexists _, _. split; [done|]. cbn. split_and!; try done; lia. }
    exists m, None. split_and!; try done. intros s Hs He [Hlow|Hhigh]; [by apply Hr'|by apply Hr].
  - exists m, None. split_and!; try done. intros s Hs He Hwhere. apply Hr; lia.
Qed.

Lemma block_in_slice m b : wf m -> is_block m b -> in_slice (data m) b.
Proof.
  intros Hwf Hb. unfold is_block in Hb.
  apply (wf_within m 0 (total_blocks m)); [done|lia|lia|]. apply elem_of_seqZ. lia.
Qed.

Lemma free_spec m b :
  wf m -> 0 <= b ->
  (is_block m b -> used m b = true ->
     exists m', free b m = Ok m' /\ becomes m m' (fun c => negb (c =? b) && used m c)) /\
  (is_block m b -> used m b = false -> free b m = Err (NotAllocated b)) /\
  (total_blocks m <= b -> free b m = Err (OutOfRange b)).
Proof.
  intros Hwf Hb0. unfold free. split_and!.
  - intros Hb Hu. pose proof Hb as Hb'. unfold is_block in Hb'.
    rewrite (proj2 (Z.leb_gt _ _)) by lia. pose proof (block_in_slice m b Hwf Hb) as Hin.
    rewrite is_set_bit by done. fold (used m b). rewrite Hu. cbn [or_panic mbind outcome_bind negb].
    destruct (clear_in_slice_spec (data m) b Hin) as (d' & -> & Hl & Hbit). cbn.
    eexists. split; [done|]. split_and!; [|done|].
    + apply freed_wf; try done. apply (clear_count_clear (data m) d' b); try done.
      * apply blocks_nodup.
      * by apply blocks_in.
      * intros c Hc%blocks_in. unfold is_block in Hc. lia.
    + intros c Hc. apply Hbit. unfold is_block in Hc. lia.
  - intros Hb Hu. pose proof Hb as Hb'. unfold is_block in Hb'.
    rewrite (proj2 (Z.leb_gt _ _)) by lia. rewrite is_set_bit by (by apply block_in_slice).
    fold (used m b). by rewrite Hu.
  - intros Hge. by rewrite (proj2 (Z.leb_le _ _)).
Qed.

Lemma mark_used_spec m b :
  wf m -> is_block m b ->
  exists m', mark_used b m = Ok m' /\ becomes m m' (fun c => (c =? b) || used m c).
Proof.
  intros Hwf Hb. pose proof Hb as Hb'. unfold is_block in Hb'. unfold mark_used.
  rewrite (proj2 (Z.leb_gt _ _)) by lia. pose proof (block_in_slice m b Hwf Hb) as Hin.
  rewrite is_set_bit by done. fold (used m b). cbn [or_panic mbind outcome_bind].
  destruct (used m b) eqn:Hu.
  { exists m. split; [done|]. split_and!; try done. intros c Hc.
    destruct (Z.eqb_spec c b); [subst; done|done]. }
  destruct (set_in_slice_spec (data m) b Hin) as (d' & -> & Hl & Hbit). cbn.
  eexists. split; [done|]. split_and!; [|done|].
  - apply (taken_wf m d' (search_hint m) 1); try done; [|apply Hwf].
    apply (clear_count_set (data m) d' b); try done.
    + apply blocks_nodup.
    + by apply blocks_in.
    + intros c Hc%blocks_in. unfold is_block in Hc. lia.
  - intros c Hc. apply Hbit. unfold is_block in Hc. lia.
Qed.

(** An extent within the device. *)
Definition ext_ok (m : BlockBitmap) (e : Extent) : Prop :=
  0 <= start e /\ 0 <= len e /\ start e + len e <= total_blocks m.

Lemma free_extent_spec m e :
  wf m -> ext_ok m e ->
  ((forall b, in_extent e b = true -> used m b = true) ->
     exists m', free_extent e m = Ok m' /\ becomes m m' (fun c => negb (in_extent e c) && used m c)) /\
  ((exists b, in_extent e b = true /\ used m b = false) ->
     exists b, free_extent e m = Err (NotAllocated b) /\ used m b = false).
Proof.
  intros Hwf (Hs & Hn & He). pose proof (wf_total _ Hwf) as Ht.
  assert (ext_end e = start e + len e) as Hend by (unfold ext_end; rewrite wadd64_small; lia).
  unfold free_extent. rewrite Hend, (proj2 (Z.ltb_ge _ _)) by lia.
  assert (forall b, in_extent e b = true <-> b ∈ rangeZ (start e) (start e + len e)) as Hin.
  { intros b. rewrite <- in_extent_range. apply bool_decide_eq_true. }
  pose proof (wf_within m (start e) (start e + len e) Hwf Hs He) as Hw.
  destruct (find_clear_spec _ _ Hw) as (r & -> & Hr). cbn [or_panic mbind outcome_bind]. split.
  - intros Hall. destruct r as [b|].
    { destruct Hr as [Hb Hf]. specialize (Hall b (proj2 (Hin b) Hb)). unfold used in Hall. congruence. }
    destruct (clear_all_spec (blocks m) (rangeZ (start e) (start e + len e)) (data m))
      as (d' & -> & Hl & Hbit & Hcount); [done|apply NoDup_seqZ|apply blocks_nodup|..].
    { intros c Hc%blocks_in. unfold is_block in Hc. lia. }
    { intros b Hb. split; [|by apply Hr]. apply blocks_in. apply elem_of_seqZ in Hb.
      unfold is_block. lia. }
    cbn. eexists. split; [done|]. split_and!; [|done|].
    + apply freed_wf; try done. rewrite Hcount. unfold rangeZ, lenZ. rewrite length_seqZ. lia.
    + intros c Hc. unfold used. cbn. rewrite Hbit by (unfold is_block in Hc; lia).
      by rewrite in_extent_range.
  - intros (b & Hb & Hu). destruct r as [b'|]; [exists b'; split; [done|apply Hr]|].
    unfold used in Hu. rewrite Hr in Hu; [done|]. by apply Hin.
Qed.

Lemma bitmap_new_wf total : 0 <= total < two64 -> wf (new total).
Proof.
  intros Ht. pose proof (div_ceil_spec total 8 ltac:(lia) ltac:(lia)).
  assert (forall b, bit (replicate (Z.to_nat (div_ceil total 8)) 0) b = false) as Hb.
  { intros b. unfold bit. destruct (replicate _ 0 !! _) eqn:E; [|done].
    apply lookup_replicate in E as [-> _]. apply Z.bits_0. }
  split; cbn; try done; try lia.
  - unfold lenZ. rewrite length_replicate. lia.
  - unfold clear_count, blocks. cbn.
    replace (List.filter _ (seqZ 0 total)) with (seqZ 0 total).
    + unfold lenZ. rewrite length_seqZ. lia.
    + induction (seqZ 0 total) as [|x l IH]; [done|]. cbn. by rewrite Hb, <- IH.
Qed.

(** Bytes written out and read back are the same bitmap. *)
Lemma from_bytes_spec m tail :
  wf m -> from_bytes (to_bytes m ++ tail) (total_blocks m) =
    Ok (mkBitmap (data m) (total_blocks m) (free_blocks m) 0).
Proof.
  intros Hwf. pose proof Hwf as [Hl Ht Hf Hh]. unfold from_bytes, to_bytes.
  pose proof (lenZ_nonneg (data m)). unfold lenZ in Hl.
  rewrite length_replicate, length_app.
  replace (Z.to_nat (div_ceil (total_blocks m) 8)) with (length (data m)) by lia.
  replace (length (data m) `min` (length (data m) + length tail))%nat
    with (length (data m)) by lia.
  rewrite take_app_length. rewrite copy_into_some by (rewrite length_replicate; lia).
  cbn [or_panic mbind outcome_bind take]. rewrite app_nil_l.
  rewrite drop_ge, app_nil_r by (rewrite length_replicate; lia).
  rewrite count_clear_spec.
  - cbn. do 2 f_equal. rewrite Hf. unfold blocks, rangeZ. by rewrite Z.sub_0_r.
  - apply wf_within; [done|lia|lia].
  - unfold rangeZ, lenZ. rewrite length_seqZ. lia.
Qed.

(** ** Sequences of operations *)

Inductive op : Type :=
| OAllocate
| OAllocateExtent (count : Z)
| OMarkUsed (b : Z)
| OFree (b : Z)
| OFreeExtent (e : Extent).

(** One operation of the bitmap; one that fails leaves it as it was. *)
Definition run_op (o : op) (m : BlockBitmap) : outcome StorageError BlockBitmap :=
  match o with
  | OAllocate => '(m, _) ← allocate m; Ok m
  | OAllocateExtent n => '(m, _) ← allocate_extent n m; Ok m
  | OMarkUsed b => mark_used b m
  | OFree b => free b m
  | OFreeExtent e => free_extent e m
  end.

Fixpoint run (os : list op) (m : BlockBitmap) : outcome StorageError BlockBitmap :=
  match os with
  | [] => Ok m
  | o :: os =>
    match run_op o m with
    | Ok m => run os m
    | Err _ => run os m
    | Panic => Panic
    end
  end.

(** Arguments that are u64s; an extent's end does not overflow. *)
Definition op_ok (o : op) : Prop :=
  match o with
  | OAllocate => True
  | OAllocateExtent n => 0 <= n
  | OMarkUsed b | OFree b => 0 <= b
  | OFreeExtent e => 0 <= start e /\ 0 <= len e /\ start e + len e < two64
  end.

Lemma run_op_wf o m :
  wf m -> op_ok o ->
  (exists m', run_op o m = Ok m' /\ wf m' /\ total_blocks m' = total_blocks m) \/
  (exists e, run_op o m = Err e).
Proof.
  intros Hwf Ho. destruct o as [|n|b|b|e]; cbn in *.
  - left. destruct (allocate_spec m Hwf) as (m' & r & -> & Hr). cbn. eexists. split; [done|].
    destruct r as [b|]; [by destruct Hr as (_ & _ & W & T & _)|by destruct Hr as [-> _]].
  - left. destruct (Z.eq_dec n 0) as [->|Hn]; [by exists m|].
    destruct (allocate_extent_spec m n Hwf) as (m' & r & -> & Hr); [lia|]. cbn.
    eexists. split; [done|].
    destruct r as [b|]; [by destruct Hr as (_ & _ & _ & _ & W & T & _)|by destruct Hr as [-> _]].
  - destruct (Z.lt_ge_cases b (total_blocks m)).
    + left. destruct (mark_used_spec m b Hwf) as (m' & -> & W & T & _); [done|]. eauto.
    + right. unfold mark_used. rewrite (proj2 (Z.leb_le _ _)) by done. eauto.
  - destruct (free_spec m b Hwf Ho) as (H1 & H2 & H3).
    destruct (Z.lt_ge_cases b (total_blocks m)) as [Hlt|Hge]; [|right; eauto].
    destruct (used m b) eqn:Hu; [|right; rewrite H2 by done; eauto].
    left. destruct H1 as (m' & -> & W & T & _); [done|done|]. eauto.
  - destruct Ho as (Hs & Hn & He). destruct (Z.lt_ge_cases (total_blocks m) (start e + len e)).
    { right. unfold free_extent, ext_end. rewrite wadd64_small by lia.
      rewrite (proj2 (Z.ltb_lt _ _)) by done. eauto. }
    destruct (free_extent_spec m e Hwf) as [H1 H2]; [done|].
    destruct (decide (Forall (fun b => used m b = true) (rangeZ (start e) (start e + len e)))) as [Hall|Hex].
    + left. destruct H1 as (m' & -> & W & T & _); [|by eauto]. intros b Hb.
      rewrite Forall_forall in Hall. apply Hall. by rewrite <- in_extent_range, bool_decide_eq_true in Hb.
    + right. destruct H2 as (b & -> & _); [|by eauto].
      apply not_Forall_Exists, Exists_exists in Hex as (b & Hb & Hu); [|apply _].
      exists b. rewrite <- in_extent_range, bool_decide_eq_true. split; [done|].
      by apply not_true_is_false.
Qed.

(** From a new bitmap, any sequence of allocations, frees, marks and
    extent operations, also ones that fail, keeps it consistent and never
    panics: the cached count of free blocks is exactly the number of clear
    bits and the hint stays on the device. *)
Theorem bitmap_run_wf (total : Z) (os : list op) :
  0 <= total < two64 -> Forall op_ok os ->
  exists m, run os (new total) = Ok m /\ wf m /\ total_blocks m = total.
Proof.
  intros Ht Hos. pose proof (bitmap_new_wf total Ht) as Hwf.
  assert (forall m, wf m -> exists m', run os m = Ok m' /\ wf m' /\ total_blocks m' = total_blocks m)
    as H; [|destruct (H _ Hwf) as (m & ? & ? & ?); eauto].
  clear Hwf. induction Hos as [|o os Ho Hos IH]; intros m Hm; cbn; [eauto|].
  destruct (run_op_wf o m Hm Ho) as [(m1 & -> & W & T)|[e ->]]; [|by apply IH].
  destruct (IH m1 W) as (m' & -> & ? & ?). exists m'. split_and!; try done. congruence.
Qed.

(** A single-block allocation finds a free block whenever there is one,
    takes exactly that block and no other, and fails only on a device with
    every block in use. *)
Theorem allocate_correct (m : BlockBitmap) :
  wf m -> exists m' r, allocate m = Ok (m', r) /\
    match r with
    | Some b => is_block m b /\ used m b = false /\
                becomes m m' (fun c => (c =? b) || used m c)
    | None => m' = m /\ forall b, is_block m b -> used m b = true
    end.
Proof. apply allocate_spec. Qed.

(** An extent allocation takes [count] consecutive blocks that were all
    free and no other; it fails only when no run of [count] free blocks
    lies on one side of the search hint. *)
Theorem allocate_extent_correct (m : BlockBitmap) (count : Z) :
  wf m -> 1 <= count -> exists m' r, allocate_extent count m = Ok (m', r) /\
    match r with
    | Some e => len e = count /\ 0 <= start e /\ start e + count <= total_blocks m /\
                free_run (data m) (start e) count /\
                becomes m m' (fun c => in_extent e c || used m c)
    | None => m' = m /\ forall s, 0 <= s -> s + count <= total_blocks m ->
                (s + count <= search_hint m \/ search_hint m <= s) -> ~ free_run (data m) s count
    end.
Proof. apply allocate_extent_spec. Qed.

(** A run of free blocks on both sides of the hint is not found: eight
    blocks, four taken as an extent, block 5 taken, two more as an extent,
    block 5 freed. Blocks 4 and 5 are free, and an extent of two fails. *)
Theorem extent_across_hint_missed :
  match run [OAllocateExtent 4; OMarkUsed 5; OAllocateExtent 2; OFree 5] (new 8) with
  | Ok m => used m 4 = false /\ used m 5 = false /\ allocate_extent 2 m = Ok (m, None)
  | _ => False
  end.
Proof. vm_compute. done. Qed.

(** ** The allocator *)

Lemma rollback_spec l : forall m,
  wf m -> NoDup l -> (forall b, b ∈ l -> is_block m b /\ used m b = true) ->
  exists m', rollback l m = Ok m' /\
    becomes m m' (fun c => negb (bool_decide (c ∈ l)) && used m c).
Proof.
  induction l as [|b l IH]; intros m Hwf Hnd Hl; cbn [rollback].
  { exists m. split; [done|]. by split_and!. }
  apply NoDup_cons in Hnd as [Hb Hnd]. destruct (Hl b) as [Hbb Hbu]; [set_solver|].
  destruct (free_spec m b Hwf) as (H1 & _ & _); [unfold is_block in Hbb; lia|].
  destruct H1 as (m1 & -> & W & T & U); [done|done|].
  destruct (IH m1 W Hnd) as (m' & -> & W' & T' & U').
  { intros c Hc. destruct (Hl c) as [Hcb Hcu]; [set_solver|]. unfold is_block in *. rewrite T.
    split; [done|]. rewrite U by done. rewrite Hcu, andb_true_r. apply negb_true_iff, Z.eqb_neq.
    set_solver. }
  exists m'. split; [done|]. split_and!; [done|congruence|]. intros c Hc.
  rewrite U' by (unfold is_block in *; by rewrite T). rewrite U by done. rewrite andb_assoc. f_equal.
  destruct (Z.eqb_spec c b); repeat case_bool_decide; set_solver.
Qed.

(** From [m0], with the blocks [acc] taken so far. *)
Lemma allocate_loop_spec m0 n : forall acc m,
  wf m -> total_blocks m = total_blocks m0 -> NoDup acc ->
  (forall b, b ∈ acc -> is_block m0 b /\ used m0 b = false) ->
  (forall c, is_block m0 c -> used m c = bool_decide (c ∈ acc) || used m0 c) ->
  exists m' r, allocate_loop n acc m = Ok (m', r) /\
    match r with
    | Some l => length l = (length acc + n)%nat /\ NoDup l /\
                (forall b, b ∈ l -> is_block m0 b /\ used m0 b = false) /\
                becomes m0 m' (fun c => bool_decide (c ∈ l) || used m0 c)
    | None => becomes m0 m' (used m0)
    end.
Proof.
  induction n as [|n IH]; intros acc m Hwf Ht Hnd Hacc Hu; cbn [allocate_loop].
  { exists m, (Some acc). split; [done|]. split_and!; try done; by rewrite Nat.add_0_r. }
  destruct (allocate_spec m Hwf) as (m1 & r & -> & Hr). cbn [mbind outcome_bind].
  destruct r as [b|].
  - destruct Hr as (Hb & Hf & W & T & U). assert (is_block m0 b) as Hb0.
    { unfold is_block in *. by rewrite <- Ht. }
    rewrite Hu in Hf by done. apply orb_false_iff in Hf as [Hni Hf].
    apply bool_decide_eq_false in Hni.
    destruct (IH (acc ++ [b]) m1) as (m' & r & -> & Hr).
    + done.
    + congruence.
    + apply NoDup_app. split_and!; [done|set_solver|apply NoDup_singleton].
    + intros c [Hc|Hc]%elem_of_app; [by apply Hacc|].
      by apply list_elem_of_singleton in Hc as ->.
    + intros c Hc. rewrite U by (unfold is_block in *; by rewrite Ht). rewrite Hu by done.
      rewrite orb_assoc. f_equal. destruct (Z.eqb_spec c b); repeat case_bool_decide; set_solver.
    + exists m', r. split; [done|]. destruct r as [l|]; [|done].
      destruct Hr as (Hlen & ? & ? & ?). rewrite length_app in Hlen. cbn in Hlen.
      split_and!; try done. lia.
  - destruct Hr as [-> _].
    destruct (rollback_spec acc m Hwf Hnd) as (m' & -> & W & T & U).
    { intros b Hb. destruct (Hacc b Hb) as [Hbb _]. unfold is_block in *. rewrite Ht.
      split; [done|]. rewrite Hu by done. by rewrite bool_decide_true. }
    cbn. exists m', None. split; [done|]. split_and!; [done|congruence|]. intros c Hc.
    rewrite U by (unfold is_block in *; by rewrite Ht). rewrite Hu by done.
    case_bool_decide as Hin; [|done]. cbn. by destruct (Hacc c Hin) as [_ ->].
Qed.

(** Allocating several blocks is all or nothing: it gives [count]
    different blocks that were free, and exactly those become used; or the
    disk is full and exactly the blocks in use before are in use after. *)
Theorem allocate_multiple_all_or_nothing (a : BlockAllocator) (count : Z) :
  wf (bitmap a) -> 0 <= count ->
  exists a' r, allocate_multiple count a = Ok (a', r) /\
    match r with
    | Ok l => lenZ l = count /\ NoDup l /\
              (forall b, b ∈ l -> is_block (bitmap a) b /\ used (bitmap a) b = false) /\
              becomes (bitmap a) (bitmap a') (fun c => bool_decide (c ∈ l) || used (bitmap a) c) /\
              dirty a' = true
    | Err e => e = DiskFull /\ becomes (bitmap a) (bitmap a') (used (bitmap a))
    | Panic => False
    end.
Proof.
  intros Hwf Hc. unfold allocate_multiple.
  destruct (allocate_loop_spec (bitmap a) (Z.to_nat count) [] (bitmap a)) as (m' & r & -> & Hr);
    try done; [constructor|set_solver|]. cbn [mbind outcome_bind].
  destruct r as [l|]; cbn.
  - destruct Hr as (Hl & Hnd & Hin & Hb). eexists _, _. split; [done|]. cbn.
    split_and!; try done. unfold lenZ. cbn in Hl. lia.
  - eexists _, _. split; [done|]. done.
Qed.

Lemma buffer_from_data size d :
  0 <= size -> lenZ d <= size -> exists zs, buffer_from size d = d ++ zs /\
    lenZ (buffer_from size d) = aligned_size size.
Proof.
  intros Hs Hd. pose proof (div_ceil_spec size ALIGNMENT Hs ltac:(by vm_compute)) as Ha.
  fold (aligned_size size) in Ha. unfold buffer_from, resize_to, lenZ in *.
  rewrite (take_ge d), take_ge by (rewrite ?length_take; lia). eexists. split; [done|].
  rewrite length_app, length_replicate. lia.
Qed.

(** C38. A synced allocator comes back from disk as it was: the same blocks in
    use and the same count of free blocks. *)
Theorem allocator_sync_roundtrip (a : BlockAllocator) (f : list Z) :
  wf (bitmap a) -> file a = Some f -> dirty a = true ->
  lenZ (data (bitmap a)) <= bitmap_size a -> aligned_size (bitmap_size a) <= lenZ f ->
  exists a' f' a'', a_sync true a = Ok a' /\ file a' = Some f' /\
    with_file f' (bitmap_size a) (total_blocks (bitmap a)) = Ok a'' /\
    data (bitmap a'') = data (bitmap a) /\ free_blocks (bitmap a'') = free_blocks (bitmap a) /\
    wf (bitmap a'').
Proof.
  intros Hwf Hf Hd Hs Hl. pose proof (lenZ_nonneg (data (bitmap a))).
  destruct (buffer_from_data (bitmap_size a) (data (bitmap a))) as (zs & Hb & Hbl); [lia|done|].
  unfold a_sync. rewrite Hd, Hf. cbn [negb]. unfold to_bytes.
  set (buf := buffer_from (bitmap_size a) (data (bitmap a))) in *.
  rewrite copy_into_some by (unfold lenZ in *; lia). cbn [ok_or mbind outcome_bind].
  rewrite take_0, app_nil_l. eexists _, _, _. split; [done|]. split; [done|].
  unfold with_file. rewrite slice_some by (unfold lenZ in *; rewrite length_app; lia).
  cbn [ok_or mbind outcome_bind]. rewrite drop_0.
  rewrite take_app_length' by (unfold lenZ in *; lia). rewrite Hb.
  rewrite from_bytes_spec by done. cbn. split; [done|]. cbn. split_and!; try done.
  destruct Hwf. split; cbn; try done. lia.
Qed.

(** [free_multiple] stops at a block that is not allocated with the
    blocks before it freed but the allocator not marked dirty: the next
    sync writes nothing, and the blocks come back allocated from disk. *)
Theorem free_multiple_partial_not_synced :
  let a := mkAllocator (mkBitmap [7] 8 5 3) (Some (7 :: replicate 4095 0)) 1 false in
  let '(a', r) := free_multiple [0; 6; 1] a in
  r = Err (NotAllocated 6) /\ used (bitmap a) 0 = true /\ used (bitmap a') 0 = false /\
  a_sync true a' = Ok a' /\ file a' = file a.
Proof. vm_compute. split_and!; reflexivity. Qed.

(** ** Witnesses *)

Lemma new8_wf : wf (new 8).
Proof. by apply bitmap_new_wf. Qed.

Lemma bitmap_run_wf_witness :
  exists m, run [OAllocate; OAllocateExtent 3; OFree 0; OFree 0; OMarkUsed 7] (new 8) = Ok m /\
    wf m /\ total_blocks m = 8.
Proof. apply bitmap_run_wf; [done|]. repeat (constructor; [done|]). constructor. Defined.

Lemma allocate_correct_witness : exists m' r, allocate (new 8) = Ok (m', r) /\
    match r with
    | Some b => is_block (new 8) b /\ used (new 8) b = false /\
                becomes (new 8) m' (fun c => (c =? b) || used (new 8) c)
    | None => m' = new 8 /\ forall b, is_block (new 8) b -> used (new 8) b = true
    end.
Proof. apply (allocate_correct (new 8)), new8_wf. Defined.

Lemma allocate_extent_correct_witness : exists m' r, allocate_extent 3 (new 8) = Ok (m', r) /\
    match r with
    | Some e => len e = 3 /\ 0 <= start e /\ start e + 3 <= 8 /\
                free_run (data (new 8)) (start e) 3 /\
                becomes (new 8) m' (fun c => in_extent e c || used (new 8) c)
    | None => m' = new 8 /\ forall s, 0 <= s -> s + 3 <= 8 ->
                (s + 3 <= 0 \/ 0 <= s) -> ~ free_run (data (new 8)) s 3
    end.
Proof. apply (allocate_extent_correct (new 8) 3); [apply new8_wf|lia]. Defined.

Lemma allocate_multiple_all_or_nothing_witness :
  exists a', allocate_multiple 2 (BlockAllocator_new 8) = Ok (a', Ok [0; 1]) /\ dirty a' = true.
Proof.
  destruct (allocate_multiple_all_or_nothing (BlockAllocator_new 8) 2 new8_wf)
    as (a' & r & H & Hr); [done|]. vm_compute in H. injection H as <- <-.
  eexists. split; [by vm_compute|]. apply Hr.
Defined.

Definition ex_alloc : BlockAllocator :=
  mkAllocator (new 8) (Some (replicate 4096 255)) 1 true.

Lemma allocator_sync_roundtrip_witness :
  exists a' f' a'', a_sync true ex_alloc = Ok a' /\ file a' = Some f' /\
    with_file f' 1 8 = Ok a'' /\ data (bitmap a'') = data (new 8) /\
    free_blocks (bitmap a'') = 8 /\ wf (bitmap a'').
Proof.
  apply (allocator_sync_roundtrip ex_alloc (replicate 4096 255));
    [apply new8_wf|done|done|by vm_compute|by vm_compute].
Defined.

End Block.
