(* ===== verification/Wildcard.v ===== *)
(** * IAM wildcard patterns

    [wildcard_match] of crates/auth/src/policy.rs: the loop over the pattern
    and the value with one backtrack point, the last [*]. [glob] is the
    meaning of a pattern as IAM documents it: [*] is any run of characters,
    [?] any one character, everything else itself. The loop is proved to
    terminate and to decide [glob] on every value without a [*] in it; on a
    value that has one it does not, which is shown too. *)

From S2P Require Import Prelude Bytes.

Module Wildcard.

Definition STAR : Z := 42.
Definition ANY : Z := 63.

(** ** The loop

    One unit of fuel is one round; [None] is out of fuel. *)
Fixpoint match_loop (fuel : nat) (p v : list Z) (i j : nat) (star : option (nat * nat))
    : option bool :=
  match fuel with
  | O => None
  | S fuel =>
    match v !! j with
    | None => Some (forallb (Z.eqb STAR) (drop i p))
    | Some c =>
      let literal := match p !! i with Some x => (x =? ANY) || (x =? c) | None => false end in
      let wild := match p !! i with Some x => x =? STAR | None => false end in
      if literal then match_loop fuel p v (S i) (S j) star
      else if wild then match_loop fuel p v (S i) j (Some (i, j))
      else match star with
           | Some (si, sj) => match_loop fuel p v (S si) (S sj) (Some (si, S sj))
           | None => Some false
           end
    end
  end.

(** Every backtrack moves the last [*]'s position in the value on, and
    between two backtracks every round moves on in the pattern. *)
Definition rounds (p v : list Z) : nat := (length v + 1) * (length p + 2) + 1.

Definition wildcard_match (pattern value : string) : bool :=
  let p := chars pattern in
  let v := chars value in
  default false (match_loop (rounds p v) p v 0 0 None).

(** ** What a pattern means *)
Inductive glob : list Z -> list Z -> Prop :=
| glob_nil : glob [] []
| glob_any p v c : glob p v -> glob (ANY :: p) (c :: v)
| glob_lit p v c : c <> STAR -> glob p v -> glob (c :: p) (c :: v)
| glob_star p u v : glob p v -> glob (STAR :: p) (u ++ v).

(** ** Termination *)

(** What is left of the loop: rounds in the pattern before the next
    backtrack, and whole passes for the backtracks left. *)
Definition left_over (p v : list Z) (i : nat) (star : option (nat * nat)) : nat :=
  (match star with
   | Some (_, sj) => (length v - sj) * (length p + 2)
   | None => length v * (length p + 2)
   end + (length p + 1 - i))%nat.

Lemma match_loop_total fuel p v i j star :
  (i <= length p)%nat ->
  (match star with Some (si, sj) => si < length p /\ sj <= j /\ sj <= length v | None => True end)%nat ->
  (left_over p v i star < fuel)%nat ->
  is_Some (match_loop fuel p v i j star).
Proof.
  revert i j star. induction fuel as [|fuel IH]; intros i j star Hi Hs Hf; [lia|].
  cbn [match_loop]. destruct (v !! j) as [c|] eqn:Ec; [|eauto].
  apply lookup_lt_Some in Ec.
  destruct (p !! i) as [x|] eqn:Ex.
  - apply lookup_lt_Some in Ex. unfold left_over in *.
    destruct (_ || _); [|destruct (x =? STAR)].
    + apply IH; [lia| |destruct star as [[]|]; lia]. destruct star as [[]|]; lia.
    + apply IH; [lia|lia|]. destruct star as [[si sj]|]; nia.
    + destruct star as [[si sj]|]; [|eauto]. apply IH; [lia|lia|].
      assert (length v - sj = S (length v - S sj))%nat by lia. nia.
  - destruct star as [[si sj]|]; [|eauto]. unfold left_over in *.
    apply IH; [lia|lia|].
    assert (length v - sj = S (length v - S sj))%nat by lia. nia.
Qed.

Lemma match_loop_enough p v : is_Some (match_loop (rounds p v) p v 0 0 None).
Proof. apply match_loop_total; [lia|done|]. unfold left_over, rounds. nia. Qed.

(** ** Correctness *)

(** One pattern character other than [*], on one character. *)
Definition fits (x c : Z) : Prop := x <> STAR /\ (x = ANY \/ x = c).

Lemma glob_fits x c p v : fits x c -> glob (x :: p) (c :: v) <-> glob p v.
Proof.
  intros [Hx Hc]. split.
  - inversion 1; subst; done.
  - intros Hg. destruct Hc as [-> | ->]; [by apply glob_any|by apply glob_lit].
Qed.

Lemma glob_misfit x c p v : x <> STAR -> ~ fits x c -> ~ glob (x :: p) (c :: v).
Proof. intros Hx Hf. inversion 1; subst; try done; apply Hf; split; auto. Qed.

Lemma glob_seg seg w p v : Forall2 fits seg w -> glob (seg ++ p) (w ++ v) <-> glob p v.
Proof. induction 1; cbn; [done|]. by rewrite glob_fits. Qed.

Lemma glob_seg_inv seg p u :
  Forall (fun x => x <> STAR) seg -> glob (seg ++ p) u ->
  exists w v, u = w ++ v /\ length w = length seg /\ glob p v.
Proof.
  intros Hs. revert u. induction Hs as [|x seg Hx Hs IH]; intros u Hg; cbn in Hg.
  - by exists [], u.
  - inversion Hg; subst; try done;
      destruct (IH _ ltac:(eassumption)) as (w & v' & -> & Hl & Hg'); 
      (eexists (_ :: w), v'; cbn; split_and!; [done|lia|done]).
Qed.

Lemma fits_no_star seg w : Forall2 fits seg w -> Forall (fun x => x <> STAR) seg.
Proof. induction 1 as [|??? ? [? _]]; auto. Qed.

Lemma glob_star_inv p u : glob (STAR :: p) u <-> exists x y, u = x ++ y /\ glob p y.
Proof.
  split.
  - inversion 1; subst; try done. eauto.
  - intros (x & y & -> & Hg). by apply glob_star.
Qed.

(** The value [w ++ u] read as the pattern's [seg] somewhere and then [p]:
    [seg] takes as many characters as [w], so it leaves an end of [u]. *)
Lemma glob_star_seg_inv seg w p u :
  Forall2 fits seg w -> glob (STAR :: seg ++ p) (w ++ u) -> exists x y, u = x ++ y /\ glob p y.
Proof.
  intros Hf (x & y & Hu & Hg)%glob_star_inv.
  destruct (glob_seg_inv _ _ _ (fits_no_star _ _ Hf) Hg) as (w' & z & -> & Hl & Hz).
  apply Forall2_length in Hf. exists (drop (length w) (x ++ w')), z. split; [|done].
  rewrite <- (drop_app_length w u), Hu, app_assoc, drop_app_le; [done|].
  rewrite length_app. lia.
Qed.

Lemma glob_star_star seg w p u :
  Forall2 fits seg w -> glob (STAR :: seg ++ STAR :: p) (w ++ u) <-> glob (STAR :: p) u.
Proof.
  intros Hf. split.
  - intros (x & y & -> & (x' & y' & -> & Hg)%glob_star_inv)%(glob_star_seg_inv _ _ _ _ Hf).
    rewrite app_assoc. by apply glob_star.
  - intros Hg. apply (glob_star _ []). by apply glob_seg.
Qed.

Lemma glob_star_step p c u : glob (STAR :: p) (c :: u) <-> glob p (c :: u) \/ glob (STAR :: p) u.
Proof.
  rewrite !glob_star_inv. split.
  - intros ([|c' x] & y & Hu & Hg); cbn in Hu; simplify_eq; eauto 6.
  - intros [Hg|(x & y & -> & Hg)]; [by exists [], (c :: u)|by exists (c :: x), y].
Qed.

Lemma glob_end p : glob p [] <-> forallb (Z.eqb STAR) p = true.
Proof.
  induction p as [|x p IH]; cbn [forallb]; [split; auto using glob_nil|].
  rewrite andb_true_iff, <- IH, Z.eqb_eq. split.
  - inversion 1 as [| | |? u v Hg Hp Hv]; subst. apply app_eq_nil in Hv as [-> ->]. done.
  - intros [<- Hg]. by apply (glob_star _ []).
Qed.

Lemma glob_seg_end seg w q :
  Forall2 fits seg w -> glob (STAR :: seg ++ q) w <-> glob q [].
Proof.
  intros Hf. split.
  - intros Hg. rewrite <- (app_nil_r w) in Hg.
    by destruct (glob_star_seg_inv _ _ _ _ Hf Hg) as ([|] & [|] & ? & ?).
  - intros Hg. apply (glob_star _ []). rewrite <- (app_nil_r w). by apply glob_seg.
Qed.

(** Where the loop is: what the pattern holds since its last [*] has fitted
    the value since the character that [*] took last, and that [*] and what
    follows it decide the match. *)
Definition here (p v : list Z) (i j : nat) (star : option (nat * nat)) : Prop :=
  exists seg w, Forall2 fits seg w /\
  match star with
  | None => p = seg ++ drop i p /\ v = w ++ drop j v
  | Some (si, sj) =>
    drop si p = STAR :: seg ++ drop i p /\ drop sj v = w ++ drop j v /\
    (glob p v <-> glob (drop si p) (drop sj v))
  end.

Lemma here_fit p v i j star x c :
  here p v i j star -> p !! i = Some x -> v !! j = Some c -> fits x c ->
  here p v (S i) (S j) star.
Proof.
  intros (seg & w & Hf & Hs) Hx Hc Hfit. exists (seg ++ [x]), (w ++ [c]).
  split; [by apply Forall2_app; auto|].
  rewrite (drop_S _ _ _ Hx), (drop_S _ _ _ Hc) in Hs. by rewrite <- !app_assoc.
Qed.

Lemma here_star p v i j star :
  here p v i j star -> p !! i = Some STAR -> here p v (S i) j (Some (i, j)).
Proof.
  intros (seg & w & Hf & Hs) Hx. exists [], []. split; [done|].
  rewrite (drop_S _ _ _ Hx) in Hs. split_and!; [by apply drop_S|done|].
  rewrite (drop_S _ _ _ Hx). destruct star as [[si sj]|].
  - destruct Hs as (Hp & Hv & ->). rewrite Hp, Hv. by apply glob_star_star.
  - destruct Hs as (Hp & Hv). rewrite Hp at 1. rewrite Hv at 1. by rewrite glob_seg.
Qed.

(** Nothing to be matched at [i] takes the character at [j]. *)
Definition stuck (p v : list Z) (i j : nat) : Prop := ~ glob (drop i p) (drop j v).

Lemma here_back p v i j si sj c :
  here p v i j (Some (si, sj)) -> v !! j = Some c -> stuck p v i j ->
  here p v (S si) (S sj) (Some (si, S sj)).
Proof.
  intros (seg & w & Hf & Hp & Hv & Hg) Hc Hst. exists [], []. split; [done|].
  assert (Hsi : p !! si = Some STAR).
  { rewrite <- (Nat.add_0_r si), <- lookup_drop, Hp. done. }
  assert (exists c', v !! sj = Some c') as [c' Hc'].
  { rewrite <- (Nat.add_0_r sj), <- lookup_drop, Hv, (drop_S _ _ _ Hc).
    destruct w; cbn; eauto. }
  split_and!; [by apply drop_S|done|]. rewrite Hg.
  rewrite (drop_S v _ _ Hc') at 1. rewrite Hp, glob_star_step.
  split; [|by right]. intros [Hm|]; [|done]. exfalso. apply Hst.
  rewrite <- (drop_S v _ _ Hc'), Hv in Hm. by apply glob_seg in Hm.
Qed.

Lemma here_end p v i j star :
  here p v i j star -> v !! j = None -> (forallb (Z.eqb STAR) (drop i p) = true <-> glob p v).
Proof.
  intros (seg & w & Hf & Hs) Hj%lookup_ge_None. rewrite <- glob_end.
  rewrite (drop_ge v j Hj), app_nil_r in Hs. destruct star as [[si sj]|].
  - destruct Hs as (Hp & Hv & ->). rewrite Hp, Hv. by rewrite glob_seg_end.
  - destruct Hs as (Hp & Hv). rewrite Hp at 2. rewrite Hv.
    rewrite <- (app_nil_r w). by rewrite glob_seg.
Qed.

Lemma here_none p v i j : here p v i j None -> stuck p v i j -> ~ glob p v.
Proof.
  intros (seg & w & Hf & Hp & Hv) Hst Hg. apply Hst. rewrite Hp, Hv in Hg.
  by apply glob_seg in Hg.
Qed.

Lemma stuck_misfit p v i j c :
  v !! j = Some c ->
  match p !! i with Some x => (x =? ANY) || (x =? c) | None => false end = false ->
  match p !! i with Some x => x =? STAR | None => false end = false -> stuck p v i j.
Proof.
  intros Hc Hl Hw. unfold stuck. rewrite (drop_S _ _ _ Hc).
  destruct (p !! i) as [x|] eqn:Ex.
  - rewrite (drop_S _ _ _ Ex). apply orb_false_iff in Hl as [? ?].
    apply glob_misfit; [lia|intros [_ [-> | ->]]; lia].
  - rewrite drop_ge by by apply lookup_ge_None. inversion 1.
Qed.

Lemma match_loop_glob fuel p v i j star b :
  Forall (fun c => c <> STAR) v -> here p v i j star ->
  match_loop fuel p v i j star = Some b -> b = true <-> glob p v.
Proof.
  intros Hv. revert i j star. induction fuel as [|fuel IH]; intros i j star Hh Hm; [done|].
  cbn [match_loop] in Hm. destruct (v !! j) as [c|] eqn:Ec.
  2:{ simplify_eq. by eapply here_end. }
  pose proof (Forall_lookup_1 _ _ _ _ Hv Ec) as Hc.
  destruct (match p !! i with Some x => (x =? ANY) || (x =? c) | None => false end) eqn:El.
  - destruct (p !! i) as [x|] eqn:Ex; [|done]. eapply IH; [|done]. eapply here_fit; eauto.
    unfold fits, ANY, STAR in *. lia.
  - destruct (match p !! i with Some x => x =? STAR | None => false end) eqn:Ew.
    + destruct (p !! i) as [x|] eqn:Ex; [|done]. eapply IH; [|done].
      apply Z.eqb_eq in Ew as ->. by eapply here_star.
    + pose proof (stuck_misfit _ _ _ _ _ Ec El Ew) as Hst.
      destruct star as [[si sj]|]; [by eapply IH, Hm; eapply here_back|].
      simplify_eq. split; [done|]. intros Hg. by destruct (here_none _ _ _ _ Hh Hst).
Qed.

(** ** The matcher *)

(** C28. [wildcard_match] decides the documented meaning of a pattern, [glob],
    for every pattern and every value that has no [*] in it; its loop ends
    within [rounds]. *)
Theorem wildcard_match_correct (pattern value : string) :
  Forall (fun c => c <> STAR) (chars value) ->
  is_Some (match_loop (rounds (chars pattern) (chars value))
             (chars pattern) (chars value) 0 0 None) /\
  (wildcard_match pattern value = true <-> glob (chars pattern) (chars value)).
Proof.
  intros Hv. split; [apply match_loop_enough|]. unfold wildcard_match.
  destruct (match_loop_enough (chars pattern) (chars value)) as [b Hb].
  rewrite Hb. cbn. eapply match_loop_glob; [done| |done]. by exists [], [].
Qed.

(** A [*] in the value is taken by the pattern's [*] as itself, without a
    backtrack point: the pattern [*] does not match the value [*a], and a
    bucket's [arn:obio:s3:::b/*] matches every key but one that begins with
    [*], although [glob] holds of both. *)
Theorem wildcard_star_in_value :
  wildcard_match "*" "*a" = false /\ glob (chars "*") (chars "*a") /\
  wildcard_match "arn:obio:s3:::b/*" "arn:obio:s3:::b/x" = true /\
  wildcard_match "arn:obio:s3:::b/*" "arn:obio:s3:::b/*x" = false /\
  glob (chars "arn:obio:s3:::b/*") (chars "arn:obio:s3:::b/*x").
Proof.
  split_and!; [by vm_compute| |by vm_compute|by vm_compute|].
  - apply (glob_star [] [42; 97] []), glob_nil.
  - vm_compute chars. repeat (apply glob_lit; [done|]).
    apply (glob_star [] [42; 120] []), glob_nil.
Qed.

Lemma wildcard_match_correct_witness :
  wildcard_match "s3:*Object?" "s3:GetObjects" = true /\
  glob (chars "s3:*Object?") (chars "s3:GetObjects").
Proof.
  assert (Forall (fun c => c <> STAR) (chars "s3:GetObjects")) as Hv
    by (vm_compute; repeat constructor; done).
  destruct (wildcard_match_correct "s3:*Object?" "s3:GetObjects" Hv) as [_ H].
  assert (wildcard_match "s3:*Object?" "s3:GetObjects" = true) as E by by vm_compute.
  split; [exact E|]. by apply H.
Defined.

End Wildcard.
