(* ===== verification/StdText.v ===== *)
(** * Text of the standard library's types

    What crates/auth/src/policy.rs uses of Rust's [str], [f64], integers and
    [IpAddr]: prefixes and suffixes, ASCII case, trimming, splitting, the
    decimal parsers and the parser and printer of IP addresses. *)

From Stdlib Require Import SpecFloat.
From S2P Require Import Prelude Bytes.

(** ** Strings *)
Fixpoint strip_prefix (pre s : string) : option string :=
  match pre, s with
  | EmptyString, _ => Some s
  | String a pre', String b s' => if Ascii.eqb a b then strip_prefix pre' s' else None
  | _, EmptyString => None
  end.

Fixpoint strip_suffix (suf s : string) : option string :=
  if String.eqb s suf then Some EmptyString
  else match s with
       | EmptyString => None
       | String a s' => String a <$> strip_suffix suf s'
       end.

Definition starts_with (pre s : string) : bool := bool_decide (is_Some (strip_prefix pre s)).
Definition ends_with (suf s : string) : bool := bool_decide (is_Some (strip_suffix suf s)).

(** [s.trim_end_matches(suf)], for a non-empty [suf]: every round strips at
    least one byte. *)
Fixpoint trim_end_loop (fuel : nat) (suf s : string) : string :=
  match fuel with
  | O => s
  | S fuel => match strip_suffix suf s with Some s' => trim_end_loop fuel suf s' | None => s end
  end.
Definition trim_end_matches (suf s : string) : string := trim_end_loop (String.length s) suf s.

Fixpoint contains_char (a : ascii) (s : string) : bool :=
  match s with EmptyString => false | String b s' => Ascii.eqb a b || contains_char a s' end.

(** [s.split_once(a)], for an ASCII [a]. *)
Fixpoint split_once (a : ascii) (s : string) : option (string * string) :=
  match s with
  | EmptyString => None
  | String b s' =>
    if Ascii.eqb a b then Some (EmptyString, s')
    else '(x, y) ← split_once a s'; Some (String b x, y)
  end.

(** ** ASCII case *)
Definition lower (a : ascii) : ascii :=
  let n := N_of_ascii a in
  if (65 <=? n)%N && (n <=? 90)%N then ascii_of_N (n + 32) else a.
Fixpoint to_ascii_lowercase (s : string) : string :=
  match s with EmptyString => EmptyString | String a s' => String (lower a) (to_ascii_lowercase s') end.
Definition eq_ignore_ascii_case (s t : string) : bool :=
  String.eqb (to_ascii_lowercase s) (to_ascii_lowercase t).

(** ** Characters *)

(** [char::is_whitespace]: Unicode's [White_Space]. *)
Definition is_whitespace (c : Z) : bool :=
  (9 <=? c) && (c <=? 13) || (c =? 32) || (c =? 0x85) || (c =? 0xA0) || (c =? 0x1680)
  || (0x2000 <=? c) && (c <=? 0x200A) || (c =? 0x2028) || (c =? 0x2029) || (c =? 0x202F)
  || (c =? 0x205F) || (c =? 0x3000).

Fixpoint drop_while (f : Z -> bool) (l : list Z) : list Z :=
  match l with [] => [] | c :: l' => if f c then drop_while f l' else l end.
Definition trim (l : list Z) : list Z :=
  rev (drop_while is_whitespace (rev (drop_while is_whitespace l))).

Definition digit (radix c : Z) : option Z :=
  let d := if (48 <=? c) && (c <=? 57) then c - 48
           else if (97 <=? c) && (c <=? 122) then c - 87
           else if (65 <=? c) && (c <=? 90) then c - 55 else radix in
  if d <? radix then Some d else None.

(** The characters of a string, each with its bytes. *)
Fixpoint char_bytes (fuel : nat) (b : bytes) : list (Z * bytes) :=
  match fuel with
  | O => []
  | S fuel' =>
    match utf8_step b with
    | Some (c, r) => (c, take (length b - length r) b) :: char_bytes fuel' r
    | None => []
    end
  end.

Fixpoint drop_spaces (l : list (Z * bytes)) : list (Z * bytes) :=
  match l with [] => [] | (c, b) :: l' => if is_whitespace c then drop_spaces l' else l end.

(** [str::trim]. *)
Definition trim_str (s : string) : string :=
  let l := char_bytes (String.length s) (as_bytes s) in
  of_bytes (concat (map snd (rev (drop_spaces (rev (drop_spaces l)))))).

(** [str::split] at an ASCII character. *)
Fixpoint split_char (a : ascii) (s : string) : list string :=
  match s with
  | EmptyString => [EmptyString]
  | String b s' =>
    if Ascii.eqb a b then EmptyString :: split_char a s'
    else match split_char a s' with
         | x :: l => String b x :: l
         | [] => [String b EmptyString]
         end
  end.

(** [String::from_utf8_lossy]: every longest beginning of a character that
    is cut short or wrong becomes one U+FFFD. *)
Definition cont (b : option byte) : bool :=
  match b with Some b => in_rng 0x80 0xBF b | None => false end.

Definition second_ok (b0 : Z) (b : option byte) : bool :=
  match b with
  | Some b =>
    in_rng (if b0 =? 0xE0 then 0xA0 else if b0 =? 0xF0 then 0x90 else 0x80)
           (if b0 =? 0xED then 0x9F else if b0 =? 0xF4 then 0x8F else 0xBF) b
  | None => false
  end.

Definition invalid_len (b : bytes) : nat :=
  match b with
  | b0 :: r =>
    if in_rng 0xE0 0xEF b0 then if second_ok (bval b0) (r !! 0%nat) then 2 else 1
    else if in_rng 0xF0 0xF4 b0 then
      if second_ok (bval b0) (r !! 0%nat) then if cont (r !! 1%nat) then 3 else 2 else 1
    else 1
  | [] => 1
  end%nat.

Definition REPLACEMENT : bytes := [Byte.xef; Byte.xbf; Byte.xbd].

Fixpoint lossy_loop (fuel : nat) (b : bytes) : bytes :=
  match fuel with
  | O => []
  | S fuel' =>
    match b with
    | [] => []
    | _ =>
      match utf8_step b with
      | Some (_, r) => take (length b - length r) b ++ lossy_loop fuel' r
      | None => REPLACEMENT ++ lossy_loop fuel' (drop (invalid_len b) b)
      end
    end
  end.
Definition from_utf8_lossy (b : bytes) : string := of_bytes (lossy_loop (length b) b).

(** ** Integers

    [from_str] of an integer type with the values [lo .. hi]: a [+] is
    taken, a [-] only by a signed type, and a value out of range is an
    error. *)
Fixpoint digits_value (radix acc : Z) (l : list Z) : option Z :=
  match l with
  | [] => Some acc
  | c :: l' => d ← digit radix c; digits_value radix (radix * acc + d) l'
  end.

Definition parse_int (radix lo hi : Z) (l : list Z) : option Z :=
  let '(neg, ds) := match l with
                    | 43 :: ds => (false, ds)
                    | 45 :: ds => if lo <? 0 then (true, ds) else (false, l)
                    | _ => (false, l)
                    end in
  match ds with
  | [] => None
  | _ => n ← digits_value radix 0 ds;
         let z := if neg : bool then - n else n in
         if (lo <=? z) && (z <=? hi) then Some z else None
  end.

Definition parse_i64 : list Z -> option Z := parse_int 10 (- 2 ^ 63) (2 ^ 63 - 1).
Definition parse_u32 : list Z -> option Z := parse_int 10 0 (2 ^ 32 - 1).
(** [u64::from_str_radix(_, 16)]. *)
Definition parse_hex_u64 : list Z -> option Z := parse_int 16 0 (2 ^ 64 - 1).

Lemma parse_int_bounds radix lo hi l z : parse_int radix lo hi l = Some z -> lo <= z <= hi.
Proof.
  unfold parse_int. destruct (match l with 43 :: ds => _ | _ => _ end) as [neg [|c ds]]; [done|].
  destruct (digits_value radix 0 (c :: ds)) as [n|]; cbn; [|done].
  case_match; intros; simplify_eq; lia.
Qed.

(** [Display] of an unsigned integer, which has at most 20 digits. *)
Fixpoint dec_rev (fuel : nat) (n : Z) : list byte :=
  match fuel with
  | O => []
  | S fuel =>
    byte.of_Z (48 + n mod 10) :: (if n / 10 =? 0 then [] else dec_rev fuel (n / 10))
  end.
Definition show_u64 (n : Z) : string := of_bytes (rev (dec_rev 20 n)).

Lemma bval_digit d : 0 <= d < 10 -> bval (byte.of_Z (48 + d)) = 48 + d.
Proof. intros H. unfold bval. rewrite byte.unsigned_of_Z. unfold byte.wrap. rewrite Z.mod_small; lia. Qed.

Lemma digit_dec d : 0 <= d < 10 -> digit 10 (48 + d) = Some d.
Proof.
  intros H. unfold digit.
  replace ((48 <=? 48 + d) && (48 + d <=? 57)) with true by lia.
  replace (48 + d - 48) with d by lia. by rewrite (proj2 (Z.ltb_lt _ _)) by lia.
Qed.

Lemma digits_value_snoc radix acc l c :
  digits_value radix acc (l ++ [c]) =
  v ← digits_value radix acc l; d ← digit radix c; Some (radix * v + d).
Proof.
  revert acc. induction l as [|x l IH]; intros acc; cbn; [by destruct (digit radix c)|].
  destruct (digit radix x); cbn; [apply IH|done].
Qed.

Lemma dec_rev_value fuel n :
  0 <= n < 10 ^ Z.of_nat fuel ->
  digits_value 10 0 (map bval (rev (dec_rev fuel n))) = Some n.
Proof.
  revert n. induction fuel as [|fuel IH]; intros n Hn; [cbn in Hn; cbn; f_equal; lia|].
  rewrite Nat2Z.inj_succ, Z.pow_succ_r in Hn by lia.
  pose proof (Z.mod_pos_bound n 10). pose proof (Z.div_mod n 10).
  cbn [dec_rev rev]. rewrite map_app. cbn [map]. rewrite bval_digit, digits_value_snoc by lia.
  rewrite digit_dec by lia. destruct (Z.eqb_spec (n / 10) 0) as [E|E].
  - cbn. f_equal. lia.
  - rewrite IH; [cbn; f_equal; lia|]. split; [apply Z.div_pos; lia|apply Z.div_lt_upper_bound; lia].
Qed.

Lemma dec_rev_ascii fuel n : 0 <= n -> Forall (fun b => 48 <= bval b <= 57) (dec_rev fuel n).
Proof.
  revert n. induction fuel as [|fuel IH]; intros n Hn; cbn; [done|].
  pose proof (Z.mod_pos_bound n 10). rewrite Forall_cons. split; [rewrite bval_digit; lia|].
  case_match; [done|]. apply IH, Z.div_pos; lia.
Qed.

Lemma chars_show_u64 n : 0 <= n -> chars (show_u64 n) = map bval (rev (dec_rev 20 n)) /\
  ascii_only (show_u64 n) = true.
Proof.
  intros Hn. assert (ascii_only (show_u64 n) = true) as Ha.
  { unfold ascii_only, show_u64. rewrite as_of_bytes. apply forallb_forall. intros b Hb.
    apply in_rev in Hb. pose proof (dec_rev_ascii 20 n Hn) as Hf.
    rewrite List.Forall_forall in Hf. specialize (Hf b Hb). lia. }
  split; [|done]. rewrite chars_ascii by done. unfold show_u64. by rewrite as_of_bytes.
Qed.

Lemma parse_show_u64 n : is_u64 n -> parse_int 10 0 u64_max (chars (show_u64 n)) = Some n.
Proof.
  unfold is_u64, two64. intros Hn. rewrite (proj1 (chars_show_u64 n ltac:(lia))).
  pose proof (dec_rev_value 20 n ltac:(cbn; lia)) as Hv.
  assert (Hf : Forall (fun c => 48 <= c <= 57) (map bval (rev (dec_rev 20 n)))).
  { apply Forall_fmap, Forall_rev, dec_rev_ascii. lia. }
  assert (Hne : map bval (rev (dec_rev 20 n)) <> []).
  { intros E%map_eq_nil. cbn [dec_rev rev] in E. by apply app_eq_nil in E as [_ ?]. }
  destruct (map bval (rev (dec_rev 20 n))) as [|c l]; [done|]. inversion Hf as [|? ? Hc _]; subst.
  unfold parse_int.
  assert (match c :: l with 43 :: ds => (false, ds) | 45 :: ds => if 0 <? 0 then (true, ds) else (false, c :: l) | _ => (false, c :: l) end = (false, c :: l)) as ->.
  { destruct (Z.eqb_spec c 43), (Z.eqb_spec c 45); try lia. repeat case_match; simplify_eq; done. }
  rewrite Hv. cbn [mbind option_bind]. unfold u64_max, two64.
  replace ((0 <=? n) && (n <=? 2 ^ 64 - 1)) with true by lia. done.
Qed.

(** ** [f64]

    A finite number is its sign, mantissa and binary exponent, rounded to
    nearest even as IEEE 754 does: [spec_float] at precision 53. *)
Definition f64 : Type := spec_float.
Definition prec : Z := 53.
Definition emax : Z := 1024.
Definition f64_lt : f64 -> f64 -> bool := SFltb.
Definition f64_le : f64 -> f64 -> bool := SFleb.
Definition f64_sub : f64 -> f64 -> f64 := SFsub prec emax.
Definition f64_abs : f64 -> f64 := SFabs.
Definition EPSILON : f64 := S754_finite false (2 ^ 52) (- 104).

(** [(-1)^neg * m * 10^e], rounded once. *)
Definition f64_of_decimal (neg : bool) (m e : Z) : f64 :=
  if m =? 0 then S754_zero neg
  else if 0 <=? e then binary_round prec emax neg (Z.to_pos (m * 10 ^ e)) 0
  else let '(q, e', l) := SFdiv_core_binary prec emax m 0 (10 ^ (- e)) 0 in
       binary_round_aux prec emax neg q e' l.

Fixpoint take_digits (acc n : Z) (l : list Z) : Z * Z * list Z :=
  match l with
  | c :: l' => match digit 10 c with
               | Some d => take_digits (10 * acc + d) (n + 1) l'
               | None => (acc, n, l)
               end
  | [] => (acc, n, [])
  end.

(** The exponent's digits; the parser stops growing it at 65536. *)
Fixpoint exponent_value (acc : Z) (l : list Z) : option Z :=
  match l with
  | [] => Some acc
  | c :: l' => d ← digit 10 c;
               exponent_value (if acc <? 65536 then 10 * acc + d else acc) l'
  end.

Definition exponent (l : list Z) : option Z :=
  match l with
  | [] => Some 0
  | c :: l' =>
    if (c =? 101) || (c =? 69) then
      let '(neg, ds) := match l' with
                        | 43 :: ds => (false, ds)
                        | 45 :: ds => (true, ds)
                        | _ => (false, l')
                        end in
      match ds with
      | [] => None
      | _ => e ← exponent_value 0 ds; Some (if neg : bool then - e else e)
      end
    else None
  end.

Definition lower_code (c : Z) : Z := if (65 <=? c) && (c <=? 90) then c + 32 else c.

Definition parse_inf_nan (neg : bool) (l : list Z) : option f64 :=
  let l := map lower_code l in
  if bool_decide (l = chars "inf" \/ l = chars "infinity") then Some (S754_infinity neg)
  else if bool_decide (l = chars "nan") then Some S754_nan
  else None.

Definition parse_f64 (l : list Z) : option f64 :=
  let '(neg, l) := match l with
                   | 43 :: r => (false, r)
                   | 45 :: r => (true, r)
                   | _ => (false, l)
                   end in
  let '(ip, ni, r) := take_digits 0 0 l in
  let '(m, n, r) := match r with
                    | 46 :: r' => take_digits ip ni r'
                    | _ => (ip, ni, r)
                    end in
  if n =? 0 then parse_inf_nan neg l
  else match exponent r with
       | Some e => Some (f64_of_decimal neg m (e - (n - ni)))
       | None => None
       end.

(** ** IP addresses, as [u32] and [u128] *)
Inductive IpAddr : Type :=
| V4 (a : Z)
| V6 (a : Z).

#[global] Instance IpAddr_eq_dec : EqDecision IpAddr.
Proof. solve_decision. Defined.

(** [read_number]: digits to the end of their run, a value at most [max],
    at most [width] of them. *)
Fixpoint read_digits (radix max : Z) (width n acc : Z) (l : list Z) : option (Z * Z * list Z) :=
  match l with
  | c :: l' =>
    match digit radix c with
    | Some d =>
      let acc := radix * acc + d in
      if (acc <=? max) && (n + 1 <=? width)
      then read_digits radix max width (n + 1) acc l' else None
    | None => Some (acc, n, l)
    end
  | [] => Some (acc, n, [])
  end.

Definition read_number (radix max width : Z) (zero_prefix : bool) (l : list Z)
    : option (Z * list Z) :=
  '(z, n, r) ← read_digits radix max width 0 0 l;
  if n =? 0 then None
  else if negb zero_prefix && bool_decide (head l = Some 48) && (1 <? n) then None
  else Some (z, r).

(** [read_separator]: the separator before every item but the first. *)
Definition read_sep (sep : Z) (first : bool) (l : list Z) : option (list Z) :=
  if first then Some l
  else match l with c :: l' => if c =? sep then Some l' else None | [] => None end.

Definition read_octet (first : bool) (l : list Z) : option (Z * list Z) :=
  l' ← read_sep 46 first l; read_number 10 255 3 false l'.

Definition read_ipv4 (l : list Z) : option (Z * list Z) :=
  '(a, l) ← read_octet true l; '(b, l) ← read_octet false l;
  '(c, l) ← read_octet false l; '(d, l) ← read_octet false l;
  Some (a * 2 ^ 24 + b * 2 ^ 16 + c * 2 ^ 8 + d, l).

(** [read_groups]: up to [limit] groups of four hexadecimal digits; the last
    two may be an IPv4 address. Gives the groups and whether it was one. *)
Fixpoint read_groups (limit : nat) (first : bool) (l : list Z) : list Z * bool * list Z :=
  match limit with
  | O => ([], false, l)
  | S limit' =>
    let v4 := if bool_decide (limit' = O) then None else (l' ← read_sep 58 first l; read_ipv4 l') in
    match v4 with
    | Some (a, r) => ([Z.shiftr a 16; a mod 2 ^ 16], true, r)
    | None =>
      match l' ← read_sep 58 first l; read_number 16 65535 4 true l' with
      | Some (g, r) => let '(gs, b, r) := read_groups limit' false r in (g :: gs, b, r)
      | None => ([], false, l)
      end
    end
  end.

Definition of_groups (gs : list Z) : Z := fold_left (fun acc g => acc * 65536 + g) gs 0.

Definition read_ipv6 (l : list Z) : option (Z * list Z) :=
  let '(head, v4, r) := read_groups 8 true l in
  if bool_decide (length head = 8%nat) then Some (of_groups head, r)
  else if v4 : bool then None
  else match r with
       | 58 :: 58 :: r =>
         let '(tail, _, r) := read_groups (8 - (length head + 1)) true r in
         Some (of_groups (head ++ replicate (8 - length head - length tail) 0 ++ tail), r)
       | _ => None
       end.

Definition parse_ip (l : list Z) : option IpAddr :=
  let r := match read_ipv4 l with
           | Some (a, r) => Some (V4 a, r)
           | None => match read_ipv6 l with Some (a, r) => Some (V6 a, r) | None => None end
           end in
  match r with Some (ip, []) => Some ip | _ => None end.

(** [Display]: dotted decimal; hexadecimal groups with the first longest run
    of two or more zero groups as [::], a mapped IPv4 address in its own
    form. *)
Definition octets (a : Z) : list Z :=
  [Z.shiftr a 24 mod 256; Z.shiftr a 16 mod 256; Z.shiftr a 8 mod 256; a mod 256].
Definition segments (a : Z) : list Z :=
  map (fun k => Z.shiftr a (16 * k) mod 65536) [7; 6; 5; 4; 3; 2; 1; 0].

Definition to_ipv4_mapped (a : Z) : option Z :=
  if Z.shiftr a 32 =? 0xFFFF then Some (a mod 2 ^ 32) else None.

Definition to_canonical (ip : IpAddr) : IpAddr :=
  match ip with
  | V4 a => V4 a
  | V6 a => match to_ipv4_mapped a with Some v => V4 v | None => V6 a end
  end.

Definition dec_digit (d : Z) : ascii := ascii_of_N (Z.to_N (48 + d)).
Definition dec_octet (o : Z) : string :=
  if o <? 10 then String (dec_digit o) EmptyString
  else if o <? 100 then String (dec_digit (o / 10)) (String (dec_digit (o mod 10)) EmptyString)
  else String (dec_digit (o / 100)) (String (dec_digit (o / 10 mod 10))
         (String (dec_digit (o mod 10)) EmptyString)).

Definition hex_digit (d : Z) : ascii :=
  ascii_of_N (Z.to_N (if d <? 10 then 48 + d else 87 + d)).
Definition hex_group (g : Z) : string :=
  let d k := hex_digit (Z.shiftr g (4 * k) mod 16) in
  let s0 := String (d 0) EmptyString in
  let s1 := String (d 1) s0 in
  let s2 := String (d 2) s1 in
  if g <? 0x10 then s0 else if g <? 0x100 then s1 else if g <? 0x1000 then s2
  else String (d 3) s2.

Definition show_ipv4 (a : Z) : string := String.concat "." (map dec_octet (octets a)).

(** The first longest run of zeros: (start, length). *)
Fixpoint longest_zeros (i : nat) (gs : list Z) (cur best : nat * nat) : nat * nat :=
  match gs with
  | [] => best
  | g :: gs' =>
    if g =? 0 then
      let cur := if bool_decide (cur.2 = O) then (i, 1)%nat else (cur.1, S cur.2) in
      longest_zeros (S i) gs' cur (if (best.2 <? cur.2)%nat then cur else best)
    else longest_zeros (S i) gs' (0, 0)%nat best
  end.

Definition show_groups (gs : list Z) : string := String.concat ":" (map hex_group gs).

Definition show_ipv6 (a : Z) : string :=
  match to_ipv4_mapped a with
  | Some v => "::ffff:" +:+ show_ipv4 v
  | None =>
    let gs := segments a in
    let '(start, n) := longest_zeros 0 gs (0, 0)%nat (0, 0)%nat in
    if (1 <? n)%nat
    then show_groups (take start gs) +:+ "::" +:+ show_groups (drop (start + n) gs)
    else show_groups gs
  end.

Definition show_ip (ip : IpAddr) : string :=
  match ip with V4 a => show_ipv4 a | V6 a => show_ipv6 a end.

(** ** Examples *)
Example ip_texts :
  show_ip (V4 0x0A010203) = "10.1.2.3"%string /\
  show_ip (V6 (Z.lor (Z.shiftl 0xFD00 112) 1)) = "fd00::1"%string /\
  show_ip (V6 0xFFFF0A010203) = "::ffff:10.1.2.3"%string /\
  parse_ip (chars "10.1.2.3") = Some (V4 0x0A010203) /\
  parse_ip (chars "10.01.2.3") = None /\
  parse_ip (chars "::") = Some (V6 0) /\
  parse_ip (chars "fd00::1") = Some (V6 (Z.lor (Z.shiftl 0xFD00 112) 1)) /\
  parse_ip (chars "::ffff:10.1.2.3") = Some (V6 0xFFFF0A010203) /\
  parse_ip (chars "1:2:3:4:5:6:7:8:9") = None.
Proof. by vm_compute. Qed.

Example f64_texts :
  parse_f64 (chars "1") = Some (S754_finite false (2 ^ 52) (- 52)) /\
  parse_f64 (chars "-.5e1") = Some (S754_finite true 5629499534213120 (- 50)) /\
  parse_f64 (chars "0.1") = Some (S754_finite false 7205759403792794 (- 56)) /\
  parse_f64 (chars "1e400") = Some (S754_infinity false) /\
  parse_f64 (chars ".") = None /\ parse_f64 (chars "1e") = None.
Proof. by vm_compute. Qed.

(** ** Lemmas on prefixes and splits *)
#[global] Arguments Ascii.eqb : simpl never.

Lemma append_cons a x y : String a x +:+ y = String a (x +:+ y).
Proof. done. Qed.

Lemma strip_prefix_app pre s : strip_prefix pre (pre +:+ s) = Some s.
Proof. induction pre as [|a pre IH]; [done|]. rewrite append_cons. cbn. by rewrite Ascii.eqb_refl. Qed.

Lemma strip_prefix_some pre s r : strip_prefix pre s = Some r -> s = pre +:+ r.
Proof.
  revert s. induction pre as [|a pre IH]; intros s H; cbn in H; [by simplify_eq|].
  destruct s as [|b s]; [done|]. destruct (Ascii.eqb_spec a b) as [->|]; [|done].
  rewrite append_cons. f_equal. by apply IH.
Qed.

Lemma split_once_some a s x y :
  split_once a s = Some (x, y) -> s = x +:+ String a y /\ contains_char a x = false.
Proof.
  revert x. induction s as [|b s IH]; intros x H; cbn in H; [done|].
  destruct (Ascii.eqb_spec a b) as [->|Hn]; [by simplify_eq|].
  destruct (split_once a s) as [[x' y']|]; cbn in H; simplify_eq.
  destruct (IH x' eq_refl) as [-> Hx]. split; [done|]. cbn.
  by apply Ascii.eqb_neq in Hn as ->.
Qed.

Lemma split_once_app a x y :
  contains_char a x = false -> split_once a (x +:+ String a y) = Some (x, y).
Proof.
  induction x as [|b x IH]; intros H.
  { change (EmptyString +:+ ?t) with t. cbn. by rewrite Ascii.eqb_refl. }
  rewrite append_cons. cbn in *. apply orb_false_iff in H as [-> Hx]. by rewrite IH.
Qed.

(** The first piece of [split] is what [split_once] has before the
    separator. *)
Lemma split_char_hd a s :
  hd EmptyString (split_char a s) = (default (s, EmptyString) (split_once a s)).1.
Proof.
  induction s as [|b s IH]; [done|]. cbn. destruct (Ascii.eqb a b); [done|].
  destruct (split_char a s) as [|x l] eqn:E.
  { destruct s as [|c s']; cbn in E; [done|]. destruct (Ascii.eqb _ _); [done|].
    by destruct (split_char _ _). }
  cbn in *. subst x. by destruct (split_once a s) as [[k v]|].
Qed.
