(* ===== verification/Policy.v ===== *)
(** * Bucket and IAM policies

    The data and the evaluator of crates/auth/src/policy.rs: statements,
    principals, conditions and their operators, ARN spellings, CIDR ranges
    and [PolicyEvaluator]. A policy is modelled from its parsed form on: the
    JSON layer is serde's. [Conditions] is a [BTreeMap], so it is the list of
    its entries in key order; a request's variables are maps. What chrono
    gives (the clock and the RFC 3339 parser) is the class [Chrono]; the
    clock stands still during one evaluation. *)

From stdpp Require Import pretty.
From S2P Require Import Prelude Bytes StdText Wildcard.
Import Wildcard.

Module Policy.

(** ** Data *)
Inductive Effect : Type := Allow | Deny.
#[global] Instance Effect_eq_dec : EqDecision Effect.
Proof. solve_decision. Defined.

Inductive Principal : Type :=
| PWildcard
| OBIO (arns : list string).

Inductive StringOrList : Type :=
| Single (s : string)
| List_ (l : list string).

Definition as_vec (v : StringOrList) : list string :=
  match v with Single s => [s] | List_ l => l end.

(** Operator, condition key, values. *)
Definition Conditions : Type := list (string * list (string * StringOrList)).

Record PolicyStatement : Type := mkStatement {
  sid : option string;
  effect : Effect;
  principal : Principal;
  not_principal : option Principal;
  action : list string;
  resource : list string;
  condition : option Conditions;
}.

Record BucketPolicy : Type := mkPolicy {
  version : string;
  id : option string;
  statements : list PolicyStatement;
}.

Definition default_version : string := "2012-10-17".
Definition BucketPolicy_new : BucketPolicy := mkPolicy default_version None [].
Definition add_statement (st : PolicyStatement) (p : BucketPolicy) : BucketPolicy :=
  mkPolicy (version p) (id p) (statements p ++ [st]).

(** [Principal::is_everyone]. *)
Definition is_everyone (p : Principal) : bool :=
  match p with
  | PWildcard => true
  | OBIO arns => existsb (String.eqb "*") arns
  end.

(** ** ARNs *)
Definition SYSTEM_ACCOUNT : string := "objectio".

Definition colon : ascii := ":".

(** The four fields of [rest.splitn(4, ':')], when there are four. *)
Definition split4 (rest : string) : option (string * string * string * string) :=
  '(service, r) ← split_once colon rest;
  '(region, r) ← split_once colon r;
  '(account, res) ← split_once colon r;
  Some (service, region, account, res).

Definition arn_rest (arn : string) : option string :=
  match strip_prefix "arn:aws:" arn with
  | Some r => Some r
  | None => match strip_prefix "arn:obio:" arn with
            | Some r => Some r
            | None => strip_prefix "arn:objectio:" arn
            end
  end.

Definition canonical_arn (arn : string) : string :=
  match arn_rest arn with
  | None => arn
  | Some rest =>
    match strip_prefix "iam::user/" rest with
    | Some user => "arn:obio:iam::" +:+ SYSTEM_ACCOUNT +:+ ":user/" +:+ user
    | None =>
      match split4 rest with
      | None => "arn:obio:" +:+ rest
      | Some (service, region, account, res) =>
        let system := String.eqb account "" && (String.eqb service "iam" || String.eqb service "sts") in
        if starts_with "arn:obio:" arn && negb system then arn
        else
          let account := if system then SYSTEM_ACCOUNT else account in
          "arn:obio:" +:+ service +:+ ":" +:+ region +:+ ":" +:+ account +:+ ":" +:+ res
      end
    end
  end.

(** ** Operators *)
Definition CONDITION_OPERATORS : list string :=
  ["StringEquals"; "StringNotEquals"; "StringEqualsIgnoreCase"; "StringNotEqualsIgnoreCase";
   "StringLike"; "StringNotLike"; "NumericEquals"; "NumericNotEquals"; "NumericLessThan";
   "NumericLessThanEquals"; "NumericGreaterThan"; "NumericGreaterThanEquals"; "DateEquals";
   "DateNotEquals"; "DateLessThan"; "DateLessThanEquals"; "DateGreaterThan";
   "DateGreaterThanEquals"; "Bool"; "BinaryEquals"; "IpAddress"; "NotIpAddress"; "ArnEquals";
   "ArnLike"; "ArnNotEquals"; "ArnNotLike"; "Null"]%string.

Record Operator : Type := mkOperator { base : string; if_exists : bool; for_all : bool }.

Definition one_of (s : string) (l : list string) : bool := existsb (String.eqb s) l.

Definition Operator_parse (name : string) : option Operator :=
  let '(all, rest) :=
    match strip_prefix "ForAllValues:" name with
    | Some r => (true, r)
    | None => match strip_prefix "ForAnyValue:" name with
              | Some r => (false, r)
              | None => (false, name)
              end
    end in
  let '(b, ife) :=
    match strip_suffix "IfExists" rest with
    | Some b => if String.eqb b "Null" then (rest, false) else (b, true)
    | None => (rest, false)
    end in
  if one_of b CONDITION_OPERATORS then Some (mkOperator b ife all) else None.

Definition negated (op : Operator) : bool :=
  one_of (base op)
    ["StringNotEquals"; "StringNotEqualsIgnoreCase"; "StringNotLike"; "NumericNotEquals";
     "DateNotEquals"; "NotIpAddress"; "ArnNotEquals"; "ArnNotLike"]%string.

(** [Conditions::unknown_operator]. *)
Fixpoint unknown_operator (c : Conditions) : option string :=
  match c with
  | [] => None
  | (op, _) :: c' => match Operator_parse op with None => Some op | Some _ => unknown_operator c' end
  end.

(** ** Public policies *)
Definition PINNING_KEYS : list string :=
  ["aws:sourcearn"; "aws:sourcevpc"; "aws:sourcevpce"; "aws:sourceaccount"; "aws:sourceowner";
   "aws:principalorgid"; "aws:principalaccount"; "aws:principalarn"; "aws:userid";
   "aws:username"; "aws:sourceip"]%string.

Definition pins_value (key v : string) : bool :=
  negb (contains_char "*" v)
  && negb (String.eqb key "aws:sourceip" && (ends_with "/0" v || String.eqb v "")).

Definition pins_key (kv : string * StringOrList) : bool :=
  let key := to_ascii_lowercase (fst kv) in
  one_of key PINNING_KEYS && forallb (pins_value key) (as_vec (snd kv)).

Definition pins (entry : string * list (string * StringOrList)) : bool :=
  let op := trim_end_matches "IfExists" (fst entry) in
  (one_of op ["StringEquals"; "StringEqualsIgnoreCase"; "ArnEquals"; "IpAddress"]%string
   || (String.eqb op "ArnLike" || String.eqb op "StringLike"))
  && existsb pins_key (snd entry).

Definition is_pinned (st : PolicyStatement) : bool :=
  match condition st with Some c => existsb pins c | None => false end.

Definition is_allow (st : PolicyStatement) : bool := bool_decide (effect st = Allow).
Definition is_deny (st : PolicyStatement) : bool := bool_decide (effect st = Deny).

Definition is_public (p : BucketPolicy) : bool :=
  existsb (fun st => is_allow st && is_everyone (principal st) && negb (is_pinned st)) (statements p).

Definition keep (f : PolicyStatement -> bool) (p : BucketPolicy) : BucketPolicy :=
  mkPolicy (version p) (id p) (List.filter f (statements p)).

Definition for_anonymous (p : BucketPolicy) : BucketPolicy :=
  keep (fun st => is_deny st || is_everyone (principal st)) p.
Definition without_public_grants (p : BucketPolicy) : BucketPolicy :=
  keep (fun st => is_deny st || negb (is_everyone (principal st))) p.

(** ** The builder *)
Record PolicyStatementBuilder : Type := mkBuilder {
  b_effect : Effect;
  b_sid : option string;
  b_principal : option Principal;
  b_actions : list string;
  b_resources : list string;
  b_conditions : option Conditions;
}.
Definition Builder_new (e : Effect) : PolicyStatementBuilder := mkBuilder e None None [] [] None.
Definition allow : PolicyStatementBuilder := Builder_new Allow.
Definition deny : PolicyStatementBuilder := Builder_new Deny.
Definition with_sid (s : string) (b : PolicyStatementBuilder) : PolicyStatementBuilder :=
  mkBuilder (b_effect b) (Some s) (b_principal b) (b_actions b) (b_resources b) (b_conditions b).
Definition with_principal (p : Principal) (b : PolicyStatementBuilder) : PolicyStatementBuilder :=
  mkBuilder (b_effect b) (b_sid b) (Some p) (b_actions b) (b_resources b) (b_conditions b).
Definition principal_any : PolicyStatementBuilder -> PolicyStatementBuilder :=
  with_principal PWildcard.
Definition principal_obio (arns : list string) : PolicyStatementBuilder -> PolicyStatementBuilder :=
  with_principal (OBIO arns).
Definition actions (l : list string) (b : PolicyStatementBuilder) : PolicyStatementBuilder :=
  mkBuilder (b_effect b) (b_sid b) (b_principal b) (b_actions b ++ l) (b_resources b) (b_conditions b).
Definition resources (l : list string) (b : PolicyStatementBuilder) : PolicyStatementBuilder :=
  mkBuilder (b_effect b) (b_sid b) (b_principal b) (b_actions b) (b_resources b ++ l) (b_conditions b).
Definition with_condition (c : Conditions) (b : PolicyStatementBuilder) : PolicyStatementBuilder :=
  mkBuilder (b_effect b) (b_sid b) (b_principal b) (b_actions b) (b_resources b) (Some c).
Definition build (b : PolicyStatementBuilder) : PolicyStatement :=
  mkStatement (b_sid b) (b_effect b) (default PWildcard (b_principal b)) None
    (b_actions b) (b_resources b) (b_conditions b).

(** ** Requests *)
Record RequestContext : Type := mkContext {
  user_arn : string;
  req_action : string;
  req_resource : string;
  source_ip : option IpAddr;
  variables : gmap string string;
  multi_variables : gmap string (list string);
}.
Definition RequestContext_new (user act res : string) : RequestContext :=
  mkContext user act res None ∅ ∅.
Definition with_source_ip (ip : IpAddr) (c : RequestContext) : RequestContext :=
  mkContext (user_arn c) (req_action c) (req_resource c) (Some ip) (variables c) (multi_variables c).
Definition with_variable (k v : string) (c : RequestContext) : RequestContext :=
  mkContext (user_arn c) (req_action c) (req_resource c) (source_ip c)
    (<[k := v]> (variables c)) (multi_variables c).
Definition with_multi_variable (k : string) (vs : list string) (c : RequestContext) : RequestContext :=
  mkContext (user_arn c) (req_action c) (req_resource c) (source_ip c)
    (variables c) (<[k := vs]> (multi_variables c)).

(** ** CIDR ranges *)

(** [T::MAX.checked_shl(n).unwrap_or(0)] on [w] bits. *)
Definition high_mask (w n : Z) : Z :=
  if n <? w then Z.land (Z.shiftl (2 ^ w - 1) n) (2 ^ w - 1) else 0.

Definition in_prefix (w prefix_len addr net : Z) : bool :=
  if prefix_len =? 0 then true
  else if w <? prefix_len then false
  else let mask := high_mask w (w - prefix_len) in Z.land addr mask =? Z.land net mask.

Definition cidr_parse (cidr : string) : option (Z * IpAddr) :=
  '(network, prefix) ← split_once "/" cidr;
  prefix_len ← parse_u32 (chars prefix);
  network_ip ← parse_ip (chars network);
  Some (prefix_len, network_ip).

Definition cidr_contains (cidr : string) (ip : IpAddr) : bool :=
  let ip := to_canonical ip in
  match cidr_parse cidr with
  | Some (prefix_len, network_ip) =>
    match ip, network_ip with
    | V4 addr, V4 net => in_prefix 32 prefix_len addr net
    | V6 addr, V6 net => in_prefix 128 prefix_len addr net
    | _, _ => false
    end
  | None =>
    match parse_ip (chars cidr) with Some cidr_ip => bool_decide (ip = cidr_ip) | None => false end
  end.

(** ** The evaluator *)
Inductive PolicyDecision : Type := DAllow | DDeny | ImplicitDeny.
#[global] Instance PolicyDecision_eq_dec : EqDecision PolicyDecision.
Proof. solve_decision. Defined.

(** What the code takes from chrono: RFC 3339 text as a Unix timestamp, and
    the time now as both. *)
Class Chrono : Type := {
  parse_from_rfc3339 : string -> option Z;
  now_rfc3339 : string;
  now_timestamp : Z;
}.

Definition matches_pattern (pattern value : string) : bool := wildcard_match pattern value.

Definition matches_principal (p : Principal) (user : string) : bool :=
  match p with
  | PWildcard => true
  | OBIO arns =>
    existsb (fun arn => if String.eqb arn "*" then true
                        else matches_pattern (canonical_arn arn) (canonical_arn user)) arns
  end.

Definition matches_action (acts : list string) (request : string) : bool :=
  let request := to_ascii_lowercase request in
  existsb (fun a => String.eqb a "*" || matches_pattern (to_ascii_lowercase a) request) acts.

Definition matches_resource (ress : list string) (request : string) : bool :=
  existsb (fun r => matches_pattern (canonical_arn r) (canonical_arn request)) ress.

Section evaluator.
Context {CHRONO : Chrono}.

Definition number (v : string) : option f64 := parse_f64 (trim (chars v)).
Definition date (v : string) : option Z :=
  match parse_from_rfc3339 v with Some t => Some t | None => parse_i64 (trim (chars v)) end.

Definition cmp {A} (conv : string -> option A) (f : A -> A -> bool) (expected actual : string) : bool :=
  match conv actual, conv expected with Some a, Some e => f a e | _, _ => false end.

Definition condition_value_matches (b expected actual : string) : bool :=
  if one_of b ["StringEquals"; "StringNotEquals"; "ArnEquals"; "ArnNotEquals"; "BinaryEquals"]%string
  then String.eqb actual expected
  else if one_of b ["StringEqualsIgnoreCase"; "StringNotEqualsIgnoreCase"]%string
  then eq_ignore_ascii_case actual expected
  else if one_of b ["StringLike"; "StringNotLike"; "ArnLike"; "ArnNotLike"]%string
  then matches_pattern expected actual
  else if String.eqb b "Bool" then eq_ignore_ascii_case actual expected
  else if one_of b ["NumericEquals"; "NumericNotEquals"]%string
  then cmp number (fun a e => f64_lt (f64_abs (f64_sub a e)) EPSILON) expected actual
  else if String.eqb b "NumericLessThan" then cmp number f64_lt expected actual
  else if String.eqb b "NumericLessThanEquals" then cmp number f64_le expected actual
  else if String.eqb b "NumericGreaterThan" then cmp number (fun a e => f64_lt e a) expected actual
  else if String.eqb b "NumericGreaterThanEquals" then cmp number (fun a e => f64_le e a) expected actual
  else if one_of b ["DateEquals"; "DateNotEquals"]%string then cmp date Z.eqb expected actual
  else if String.eqb b "DateLessThan" then cmp date Z.ltb expected actual
  else if String.eqb b "DateLessThanEquals" then cmp date Z.leb expected actual
  else if String.eqb b "DateGreaterThan" then cmp date Z.gtb expected actual
  else if String.eqb b "DateGreaterThanEquals" then cmp date Z.geb expected actual
  else if one_of b ["IpAddress"; "NotIpAddress"]%string
  then match parse_ip (chars actual) with Some ip => cidr_contains expected ip | None => false end
  else false.

Definition get_condition_value (key : string) (ctx : RequestContext) : option string :=
  if String.eqb key "aws:SourceIp" then show_ip <$> source_ip ctx
  else if String.eqb key "aws:username" then Some (user_arn ctx)
  else if String.eqb key "s3:prefix" then variables ctx !! "s3:prefix"%string
  else if String.eqb key "obio:CurrentTime" || String.eqb key "aws:CurrentTime" then Some now_rfc3339
  else if String.eqb key "aws:EpochTime" then Some (pretty now_timestamp)
  else variables ctx !! key.

Definition get_condition_values (key : string) (ctx : RequestContext) : list string :=
  match multi_variables ctx !! key with
  | Some values => values
  | None => option_list (get_condition_value key ctx)
  end.

Definition matches_condition (op : Operator) (key : string) (expected : list string)
    (ctx : RequestContext) : bool :=
  let actuals := get_condition_values key ctx in
  if String.eqb (base op) "Null" then
    let want_absent := existsb (fun e => eq_ignore_ascii_case e "true") expected in
    Bool.eqb (bool_decide (actuals = [])) want_absent
  else if bool_decide (actuals = []) then if_exists op || negated op || for_all op
  else
    let one actual := existsb (fun e => condition_value_matches (base op) e actual) expected in
    if negated op then
      if for_all op then forallb (fun a => negb (one a)) actuals else negb (existsb one actuals)
    else if for_all op then forallb one actuals else existsb one actuals.

Fixpoint conditions_loop (c : Conditions) (ctx : RequestContext) (e : Effect) : bool :=
  match c with
  | [] => true
  | (name, keys) :: c' =>
    match Operator_parse name with
    | None => bool_decide (e = Deny)
    | Some op =>
      if forallb (fun kv => matches_condition op (fst kv) (as_vec (snd kv)) ctx) keys
      then conditions_loop c' ctx e else false
    end
  end.

Definition matches_conditions (c : option Conditions) (ctx : RequestContext) (e : Effect) : bool :=
  match c with None => true | Some c => conditions_loop c ctx e end.

(** The guards of the loops of [evaluate] and [evaluate_with_explanation]. *)
Definition principal_applies (st : PolicyStatement) (ctx : RequestContext) : bool :=
  match not_principal st with
  | Some excepted => negb (matches_principal excepted (user_arn ctx))
  | None => matches_principal (principal st) (user_arn ctx)
  end.

Definition applies (ctx : RequestContext) (st : PolicyStatement) : bool :=
  if negb (principal_applies st ctx) then false
  else if negb (matches_action (action st) (req_action ctx)) then false
  else if negb (matches_resource (resource st) (req_resource ctx)) then false
  else matches_conditions (condition st) ctx (effect st).

Definition evaluate_step (ctx : RequestContext) (f : bool * bool) (st : PolicyStatement) : bool * bool :=
  if applies ctx st then
    match effect st with Deny => (true, snd f) | Allow => (fst f, true) end
  else f.

Definition evaluate (p : BucketPolicy) (ctx : RequestContext) : PolicyDecision :=
  let '(explicit_deny, explicit_allow) :=
    fold_left (evaluate_step ctx) (statements p) (false, false) in
  if explicit_deny : bool then DDeny else if explicit_allow : bool then DAllow else ImplicitDeny.

Record MatchedStatement : Type := mkMatched {
  m_sid : option string; m_effect : Effect; m_source : string
}.
Record PolicyExplanation : Type := mkExplanation {
  decision : PolicyDecision; matched_statement : option MatchedStatement
}.

Definition first_of {A} (o : option A) (a : A) : option A :=
  match o with None => Some a | Some _ => o end.

Definition explain_step (ctx : RequestContext)
    (f : option PolicyStatement * option PolicyStatement) (st : PolicyStatement) :=
  if applies ctx st then
    match effect st with
    | Deny => (first_of (fst f) st, snd f)
    | Allow => (fst f, first_of (snd f) st)
    end
  else f.

Definition evaluate_with_explanation (p : BucketPolicy) (ctx : RequestContext) (source : string)
    : PolicyExplanation :=
  let '(deny_stmt, allow_stmt) := fold_left (explain_step ctx) (statements p) (None, None) in
  match deny_stmt, allow_stmt with
  | Some st, _ => mkExplanation DDeny (Some (mkMatched (sid st) Deny source))
  | None, Some st => mkExplanation DAllow (Some (mkMatched (sid st) Allow source))
  | None, None => mkExplanation ImplicitDeny None
  end.

(** ** What the loops compute *)
Definition denies (ctx : RequestContext) (st : PolicyStatement) : bool := applies ctx st && is_deny st.
Definition allows (ctx : RequestContext) (st : PolicyStatement) : bool := applies ctx st && is_allow st.

Lemma evaluate_fold ctx l d a :
  fold_left (evaluate_step ctx) l (d, a) = (d || existsb (denies ctx) l, a || existsb (allows ctx) l).
Proof.
  revert d a. induction l as [|st l IH]; intros d a; cbn [fold_left existsb].
  - by rewrite !orb_false_r.
  - unfold denies at 1, allows at 1, is_deny, is_allow, evaluate_step at 2.
    destruct (applies ctx st); [|by rewrite IH].
    destruct (effect st); cbn [fst snd]; rewrite IH;
      by repeat (rewrite ?orb_true_r, ?orb_assoc, ?orb_false_r; cbn).
Qed.

Lemma evaluate_flags p ctx :
  evaluate p ctx = if existsb (denies ctx) (statements p) then DDeny
                   else if existsb (allows ctx) (statements p) then DAllow else ImplicitDeny.
Proof. unfold evaluate. by rewrite evaluate_fold. Qed.

Lemma explain_fold ctx l d a :
  fold_left (explain_step ctx) l (d, a) =
  (match d with Some _ => d | None => find (denies ctx) l end,
   match a with Some _ => a | None => find (allows ctx) l end).
Proof.
  revert d a. induction l as [|st l IH]; intros d a; cbn [fold_left find].
  - by destruct d, a.
  - unfold denies at 1, allows at 1, is_deny, is_allow, explain_step at 2.
    destruct (applies ctx st); [|by rewrite IH].
    destruct (effect st); cbn [fst snd]; rewrite IH; destruct d, a; cbn; done.
Qed.

Lemma find_existsb {A} (f : A -> bool) l : is_Some (find f l) <-> existsb f l = true.
Proof.
  induction l as [|x l IH]; cbn; [split; [intros []|]; done|].
  destruct (f x); cbn; [split; eauto|done].
Qed.

Lemma find_none_existsb {A} (f : A -> bool) l : find f l = None <-> existsb f l = false.
Proof. rewrite eq_None_not_Some, find_existsb. by destruct (existsb f l). Qed.

Lemma existsb_perm {A} (f : A -> bool) l k : l ≡ₚ k -> existsb f l = existsb f k.
Proof. induction 1; cbn; try congruence. by destruct (f x), (f y). Qed.

Lemma existsb_keep {A} (f g : A -> bool) l :
  existsb f (List.filter g l) = existsb (fun x => g x && f x) l.
Proof. induction l as [|x l IH]; cbn; [done|]. destruct (g x); cbn; by rewrite IH. Qed.

Lemma existsb_ext_in {A} (f g : A -> bool) l : (forall x, f x = g x) -> existsb f l = existsb g l.
Proof. intros H. induction l; cbn; congruence. Qed.

Lemma existsb_orb {A} (f g : A -> bool) l :
  existsb (fun x => f x || g x) l = existsb f l || existsb g l.
Proof.
  induction l as [|x l IH]; cbn; [done|]. rewrite IH.
  by destruct (f x), (g x), (existsb f l).
Qed.

Lemma denied_in p ctx :
  existsb (denies ctx) (statements p) = true <->
  exists st, st ∈ statements p /\ applies ctx st = true /\ effect st = Deny.
Proof.
  rewrite existsb_exists. unfold denies, is_deny. split; intros (st & Hin & H); exists st;
    rewrite list_elem_of_In in *; rewrite andb_true_iff, bool_decide_eq_true in *; tauto.
Qed.

Lemma allowed_in p ctx :
  existsb (allows ctx) (statements p) = true <->
  exists st, st ∈ statements p /\ applies ctx st = true /\ effect st = Allow.
Proof.
  rewrite existsb_exists. unfold allows, is_allow. split; intros (st & Hin & H); exists st;
    rewrite list_elem_of_In in *; rewrite andb_true_iff, bool_decide_eq_true in *; tauto.
Qed.

Lemma denied_keep f p ctx :
  (forall st, effect st = Deny -> f st = true) ->
  existsb (denies ctx) (statements (keep f p)) = existsb (denies ctx) (statements p).
Proof.
  intros Hf. cbn. rewrite existsb_keep. apply existsb_ext_in. intros st.
  unfold denies, is_deny. destruct (decide (effect st = Deny)) as [E|E].
  - by rewrite (Hf _ E).
  - rewrite (bool_decide_eq_false_2 _ E). by rewrite !andb_false_r.
Qed.

Lemma evaluate_keep f p ctx :
  (forall st, effect st = Deny -> f st = true) ->
  evaluate (keep f p) ctx =
  if existsb (denies ctx) (statements p) then DDeny
  else if existsb (allows ctx) (statements (keep f p)) then DAllow else ImplicitDeny.
Proof. intros Hf. by rewrite evaluate_flags, denied_keep. Qed.

Lemma evaluate_anonymous p ctx :
  evaluate (for_anonymous p) ctx =
  if existsb (denies ctx) (statements p) then DDeny
  else if existsb (allows ctx) (statements (for_anonymous p)) then DAllow else ImplicitDeny.
Proof. apply evaluate_keep. intros st E. unfold is_deny. by rewrite E. Qed.

Lemma evaluate_named p ctx :
  evaluate (without_public_grants p) ctx =
  if existsb (denies ctx) (statements p) then DDeny
  else if existsb (allows ctx) (statements (without_public_grants p)) then DAllow else ImplicitDeny.
Proof. apply evaluate_keep. intros st E. unfold is_deny. by rewrite E. Qed.

Lemma allowed_split p ctx :
  existsb (allows ctx) (statements p) =
  existsb (allows ctx) (statements (for_anonymous p))
  || existsb (allows ctx) (statements (without_public_grants p)).
Proof.
  cbn. rewrite !existsb_keep, <- existsb_orb. apply existsb_ext_in. intros st.
  unfold allows, is_allow, is_deny.
  destruct (effect st), (is_everyone (principal st)), (applies ctx st); done.
Qed.

Lemma unknown_operator_loop c ctx :
  unknown_operator c <> None -> conditions_loop c ctx Allow = false.
Proof.
  induction c as [|[name keys] c IH]; cbn; [done|].
  destruct (Operator_parse name); [|done]. intros H. case_match; auto.
Qed.

(** ** Decisions *)

(** C27. [evaluate] denies exactly when some statement that applies denies,
    allows exactly when some statement applies and every one that does
    allows, and never depends on the order of the statements: an explicit
    deny wins wherever it stands. *)
Theorem evaluate_decides (p : BucketPolicy) (ctx : RequestContext) :
  (evaluate p ctx = DDeny <->
     exists st, st ∈ statements p /\ applies ctx st = true /\ effect st = Deny) /\
  (evaluate p ctx = DAllow <->
     (exists st, st ∈ statements p /\ applies ctx st = true) /\
     (forall st, st ∈ statements p -> applies ctx st = true -> effect st = Allow)) /\
  (forall q, statements q ≡ₚ statements p -> evaluate q ctx = evaluate p ctx).
Proof.
  rewrite evaluate_flags, <- denied_in. split_and!.
  - by destruct (existsb (denies ctx) (statements p)), (existsb (allows ctx) (statements p)).
  - destruct (existsb (denies ctx) _) eqn:Ed.
    + apply denied_in in Ed as (st & Hin & Ha & He). split; [done|].
      intros [_ H]. rewrite (H _ Hin Ha) in He. done.
    + assert (Hn : forall st, st ∈ statements p -> applies ctx st = true -> effect st = Allow).
      { intros st Hin Ha. destruct (effect st) eqn:E; [done|].
        assert (existsb (denies ctx) (statements p) = true) by (apply denied_in; eauto).
        congruence. }
      destruct (existsb (allows ctx) _) eqn:Ea.
      * apply allowed_in in Ea as (st & Hin & Ha & He). naive_solver.
      * split; [done|]. intros [(st & Hin & Ha) H].
        assert (existsb (allows ctx) (statements p) = true) by (apply allowed_in; eauto).
        congruence.
  - intros q Hq. rewrite evaluate_flags.
    by rewrite !(existsb_perm _ _ _ Hq).
Qed.

(** [evaluate_with_explanation] decides as [evaluate] does, and names the
    first statement that applies with the effect that decided. *)
Theorem explanation_agrees (p : BucketPolicy) (ctx : RequestContext) (source : string) :
  decision (evaluate_with_explanation p ctx source) = evaluate p ctx /\
  match evaluate p ctx with
  | DDeny => exists st, find (denies ctx) (statements p) = Some st /\
      matched_statement (evaluate_with_explanation p ctx source) =
        Some (mkMatched (sid st) Deny source)
  | DAllow => exists st, find (allows ctx) (statements p) = Some st /\
      matched_statement (evaluate_with_explanation p ctx source) =
        Some (mkMatched (sid st) Allow source)
  | ImplicitDeny => matched_statement (evaluate_with_explanation p ctx source) = None
  end.
Proof.
  rewrite evaluate_flags. unfold evaluate_with_explanation. rewrite explain_fold.
  destruct (find (denies ctx) _) as [st|] eqn:Ed.
  - assert (existsb (denies ctx) (statements p) = true) as -> by (apply find_existsb; eauto).
    eauto.
  - apply find_none_existsb in Ed as ->.
    destruct (find (allows ctx) _) as [st|] eqn:Ea.
    + assert (existsb (allows ctx) (statements p) = true) as -> by (apply find_existsb; eauto).
      eauto.
    + apply find_none_existsb in Ea as ->. done.
Qed.

(** A policy is cut into its public part and the rest without losing or
    adding anything: [for_anonymous] and [without_public_grants] both deny
    exactly what the policy denies, one of them allows exactly what it
    allows, and what [for_anonymous] allows a statement naming everyone
    allows. *)
Theorem public_grants_split (p : BucketPolicy) (ctx : RequestContext) :
  (evaluate (for_anonymous p) ctx = DDeny <-> evaluate p ctx = DDeny) /\
  (evaluate (without_public_grants p) ctx = DDeny <-> evaluate p ctx = DDeny) /\
  (evaluate p ctx = DAllow <->
     evaluate (for_anonymous p) ctx = DAllow \/ evaluate (without_public_grants p) ctx = DAllow) /\
  (evaluate (for_anonymous p) ctx = DAllow ->
     exists st, st ∈ statements p /\ applies ctx st = true /\ effect st = Allow /\
       is_everyone (principal st) = true).
Proof.
  rewrite (evaluate_flags p), evaluate_anonymous, evaluate_named, (allowed_split p).
  destruct (existsb (denies ctx) (statements p)); [intuition congruence|].
  destruct (existsb (allows ctx) (statements (for_anonymous p))) eqn:Ea.
  2:{ destruct (existsb (allows ctx) (statements (without_public_grants p)));
      cbn; intuition congruence. }
  split; [done|]. split; [by case_match|]. split; [by split; auto|].
  intros _. apply allowed_in in Ea as (st & Hin & Ha & He). exists st.
  cbn in Hin. apply list_elem_of_In, filter_In in Hin as [Hin Hk].
  rewrite <- list_elem_of_In in Hin. unfold is_deny in Hk. rewrite He in Hk. done.
Qed.

(** A statement with an operator the evaluator does not know can only
    deny: an Allow under it never applies, whatever the request. *)
Theorem unknown_operator_never_allows (st : PolicyStatement) (c : Conditions) (ctx : RequestContext) :
  effect st = Allow -> condition st = Some c -> unknown_operator c <> None ->
  applies ctx st = false.
Proof.
  intros He Hc Hu. unfold applies, matches_conditions. rewrite He, Hc.
  rewrite unknown_operator_loop by done. by repeat case_match.
Qed.

End evaluator.

(** ** ARNs *)
Definition arn_fields (service region account res : string) : string :=
  service +:+ String colon (region +:+ String colon (account +:+ String colon res)).

Definition field (s : string) : Prop := contains_char colon s = false.

Lemma split4_some rest s r a t :
  split4 rest = Some (s, r, a, t) ->
  rest = arn_fields s r a t /\ field s /\ field r /\ field a.
Proof.
  unfold split4. intros H.
  destruct (split_once colon rest) as [[s' x]|] eqn:E1; cbn in H; [|done].
  destruct (split_once colon x) as [[r' y]|] eqn:E2; cbn in H; [|done].
  destruct (split_once colon y) as [[a' t']|] eqn:E3; cbn in H; [|done].
  simplify_eq. apply split_once_some in E1 as [-> ?], E2 as [-> ?], E3 as [-> ?]. done.
Qed.

Lemma split4_fields s r a t :
  field s -> field r -> field a -> split4 (arn_fields s r a t) = Some (s, r, a, t).
Proof.
  intros Hs Hr Ha. unfold split4, arn_fields.
  rewrite split_once_app by done. cbn. rewrite split_once_app by done. cbn.
  by rewrite split_once_app.
Qed.

(** An ARN of the canonical partition with four fields and no empty system
    account is its own canonical spelling. *)
Lemma canonical_fixed s r a t :
  field s -> field r -> field a ->
  strip_prefix "iam::user/" (arn_fields s r a t) = None ->
  String.eqb a "" && (String.eqb s "iam" || String.eqb s "sts") = false ->
  canonical_arn ("arn:obio:" +:+ arn_fields s r a t) = "arn:obio:" +:+ arn_fields s r a t.
Proof.
  intros Hs Hr Ha Hu Hsys. unfold canonical_arn.
  change (arn_rest ("arn:obio:" +:+ ?x)) with (Some x). cbv beta iota.
  rewrite Hu, split4_fields, Hsys by done.
  unfold starts_with. rewrite strip_prefix_app. by rewrite bool_decide_true by eauto.
Qed.

Lemma system_account_no_user s r t :
  field r -> s = "iam"%string \/ s = "sts"%string ->
  strip_prefix "iam::user/" (arn_fields s r SYSTEM_ACCOUNT t) = None.
Proof.
  intros Hr [-> | ->]; [|done]. destruct r as [|c r]; [done|].
  unfold field in Hr. cbn in Hr. apply orb_false_iff in Hr as [Hc _].
  transitivity (if Ascii.eqb colon c
    then strip_prefix "user/" (r +:+ String colon (SYSTEM_ACCOUNT +:+ String colon t))
    else None); [done|by rewrite Hc].
Qed.

Lemma canonical_rest arn rest :
  arn_rest arn = Some rest -> canonical_arn arn = canonical_arn ("arn:obio:" +:+ rest).
Proof.
  intros Hr. unfold canonical_arn at 1. rewrite Hr.
  unfold canonical_arn. change (arn_rest ("arn:obio:" +:+ rest)) with (Some rest). cbv beta iota.
  destruct (strip_prefix "iam::user/" rest); [done|].
  destruct (split4 rest) as [[[[s r] a] t]|] eqn:E; [|done].
  apply split4_some in E as (-> & _).
  unfold starts_with at 2. rewrite strip_prefix_app, (bool_decide_true (is_Some (Some _))) by eauto.
  destruct (String.eqb a "" && _); cbn [negb andb]; [by rewrite andb_false_r|].
  destruct (starts_with "arn:obio:" arn) eqn:Es; [|done]. cbn [andb].
  unfold starts_with in Es. apply bool_decide_eq_true in Es as [x Hx].
  pose proof (strip_prefix_some _ _ _ Hx) as ->.
  change (arn_rest ("arn:obio:" +:+ x)) with (Some x) in Hr. by injection Hr as ->.
Qed.

Lemma canonical_idempotent arn : canonical_arn (canonical_arn arn) = canonical_arn arn.
Proof.
  destruct (arn_rest arn) as [rest|] eqn:Hr.
  2:{ assert (canonical_arn arn = arn) as E by (unfold canonical_arn; by rewrite Hr).
      by rewrite !E. }
  rewrite (canonical_rest _ _ Hr). clear arn Hr. set (arn := "arn:obio:" +:+ rest).
  unfold canonical_arn at 2 3. change (arn_rest arn) with (Some rest). cbv beta iota.
  destruct (strip_prefix "iam::user/" rest) as [user|] eqn:Hu; [done|].
  destruct (split4 rest) as [[[[s r] a] t]|] eqn:E.
  2:{ unfold canonical_arn. change (arn_rest ("arn:obio:" +:+ rest)) with (Some rest).
      cbv beta iota. by rewrite Hu, E. }
  apply split4_some in E as (-> & Hs & Hrg & Ha).
  destruct (String.eqb a "" && _) eqn:Esys; cbn [negb andb].
  - rewrite andb_false_r. apply canonical_fixed; try done. apply system_account_no_user; [done|].
    apply andb_true_iff in Esys as [_ Esys].
    by apply orb_true_iff in Esys as [?%String.eqb_eq|?%String.eqb_eq]; auto.
  - unfold starts_with, arn. rewrite strip_prefix_app, bool_decide_true by eauto.
    cbn [andb]. by apply canonical_fixed.
Qed.

(** [canonical_arn] gives one spelling: it changes nothing it gave, the
    partitions [aws], [obio] and [objectio] of the same ARN have the same
    one, and so have the three spellings of a system user. *)
Theorem canonical_arn_one_spelling (arn rest user : string) :
  canonical_arn (canonical_arn arn) = canonical_arn arn /\
  canonical_arn ("arn:aws:" +:+ rest) = canonical_arn ("arn:obio:" +:+ rest) /\
  canonical_arn ("arn:objectio:" +:+ rest) = canonical_arn ("arn:obio:" +:+ rest) /\
  canonical_arn ("arn:objectio:iam::user/" +:+ user) =
    canonical_arn ("arn:aws:iam:::user/" +:+ user) /\
  canonical_arn ("arn:aws:iam:::user/" +:+ user) =
    canonical_arn ("arn:obio:iam::objectio:user/" +:+ user).
Proof.
  split; [apply canonical_idempotent|].
  split; [by apply canonical_rest|]. split; [by apply canonical_rest|]. done.
Qed.

(** ** CIDR ranges *)
Lemma high_mask_bit w n i :
  0 <= n < w -> 0 <= i -> Z.testbit (high_mask w n) i = (n <=? i) && (i <? w).
Proof.
  intros Hn Hi. unfold high_mask. rewrite (proj2 (Z.ltb_lt n w)) by lia.
  change (2 ^ w - 1) with (Z.pred (2 ^ w)). rewrite <- !Z.ones_equiv, Z.land_spec.
  rewrite Z.shiftl_spec by lia.
  destruct (Z.leb_spec n i), (Z.ltb_spec i w); cbn [andb];
    rewrite ?(Z.testbit_ones_nonneg w i), ?(Z.testbit_ones_nonneg w (i - n)) by lia;
    try (rewrite (Z.testbit_neg_r _ (i - n)) by lia); lia.
Qed.

(** Masked addresses agree when their leading bits do. *)
Lemma in_prefix_bits w n addr net :
  0 < w -> 0 <= n ->
  in_prefix w n addr net = true <->
  n <= w /\ (forall i, w - n <= i < w -> Z.testbit addr i = Z.testbit net i).
Proof.
  intros Hw Hn. unfold in_prefix.
  destruct (Z.eqb_spec n 0) as [->|Hz]; [split; [|done]; split; [lia|]; intros; lia|].
  destruct (Z.ltb_spec w n); [split; [done|lia]|]. rewrite Z.eqb_eq. split.
  - intros Hm. split; [lia|]. intros i Hi.
    apply (f_equal (fun z => Z.testbit z i)) in Hm. rewrite !Z.land_spec in Hm.
    rewrite (high_mask_bit w (w - n) i) in Hm by lia.
    replace ((w - n <=? i) && (i <? w)) with true in Hm by lia.
    by rewrite !andb_true_r in Hm.
  - intros [_ Hb]. apply Z.bits_inj'. intros i Hi. rewrite !Z.land_spec.
    rewrite (high_mask_bit w (w - n) i) by lia.
    destruct ((w - n <=? i) && (i <? w)) eqn:E; [|by rewrite !andb_false_r].
    rewrite !andb_true_r. apply Hb. lia.
Qed.

Lemma cidr_parse_nonneg cidr n net : cidr_parse cidr = Some (n, net) -> 0 <= n.
Proof.
  unfold cidr_parse. intros H.
  destruct (split_once "/" cidr) as [[a b]|]; cbn in H; [|done].
  destruct (parse_u32 (chars b)) as [k|] eqn:Ek; cbn in H; [|done].
  destruct (parse_ip _); cbn in H; simplify_eq.
  by apply parse_int_bounds in Ek as [? _].
Qed.

(** An address is in a CIDR range exactly when it is of the range's
    family (an IPv4 address seen as IPv6 counts as IPv4) and its leading
    [prefix] bits are the network's. *)
Theorem cidr_contains_prefix (cidr : string) (ip net : IpAddr) (n : Z) :
  cidr_parse cidr = Some (n, net) ->
  cidr_contains cidr ip = true <->
  match to_canonical ip, net with
  | V4 a, V4 b => n <= 32 /\ (forall i, 32 - n <= i < 32 -> Z.testbit a i = Z.testbit b i)
  | V6 a, V6 b => n <= 128 /\ (forall i, 128 - n <= i < 128 -> Z.testbit a i = Z.testbit b i)
  | _, _ => False
  end.
Proof.
  intros Hc. pose proof (cidr_parse_nonneg _ _ _ Hc). unfold cidr_contains. rewrite Hc.
  destruct (to_canonical ip), net; try done; by apply in_prefix_bits.
Qed.

(** ** What the conditions let through *)

(** [Conditions] promises that a Deny under an unknown operator always
    matches. It does not when an operator before it in the map does not
    hold: this Deny is skipped and the request allowed. *)
Theorem unknown_operator_misses_deny (CHRONO : Chrono) :
  let grant := build (resources ["*"] (actions ["s3:*"] allow))%string in
  let conditions := [("Bool", [("aws:SecureTransport", Single "true")]);
                     ("StringMatches", [("aws:username", Single "x")])]%string in
  let refusal := build (with_condition conditions (resources ["*"] (actions ["s3:*"] deny)))%string in
  let p := add_statement refusal (add_statement grant BucketPolicy_new) in
  let ctx := RequestContext_new "arn:obio:iam::objectio:user/u" "s3:GetObject" "arn:obio:s3:::b/k" in
  unknown_operator conditions = Some "StringMatches"%string /\
  applies ctx refusal = false /\ evaluate p ctx = DAllow.
Proof. by vm_compute. Qed.

(** An [IfExists] condition on a pinning key counts as pinning, so
    [is_public] says no, yet it holds for every request without the key:
    this policy lets anyone read. *)
Theorem pinned_if_exists_is_public (CHRONO : Chrono) :
  let conditions := [("StringEqualsIfExists", [("aws:SourceVpc", Single "vpc-1")])]%string in
  let grant := build (with_condition conditions
    (resources ["arn:aws:s3:::b/*"] (actions ["s3:GetObject"] (principal_any allow))))%string in
  let p := add_statement grant BucketPolicy_new in
  is_public p = false /\
  evaluate (for_anonymous p)
    (RequestContext_new "anonymous" "s3:GetObject" "arn:obio:s3:::b/k") = DAllow.
Proof. by vm_compute. Qed.

(** ** Examples *)
Definition ex_chrono : Chrono :=
  {| parse_from_rfc3339 := fun _ => None;
     now_rfc3339 := "2026-01-01T00:00:00+00:00"; now_timestamp := 1767225600 |}.

Definition ex_user : string := "arn:obio:iam::objectio:user/ann".
Definition ex_named : PolicyStatement :=
  build (principal_obio [ex_user] (resources ["arn:aws:s3:::b/*"] (actions ["s3:*"] allow)))%string.
Definition ex_lan : PolicyStatement :=
  build (with_condition [("NotIpAddress", [("aws:SourceIp", Single "10.0.0.0/8")])]
    (resources ["arn:aws:s3:::b/*"] (actions ["s3:*"] deny)))%string.
Definition ex_policy : BucketPolicy :=
  add_statement ex_lan (add_statement ex_named BucketPolicy_new).
Definition ex_ctx : RequestContext :=
  with_source_ip (V4 0x0A010203) (RequestContext_new ex_user "s3:GetObject" "arn:obio:s3:::b/k").

Lemma evaluate_decides_witness :
  @evaluate ex_chrono ex_policy ex_ctx = DAllow /\
  forall st, st ∈ statements ex_policy -> @applies ex_chrono ex_ctx st = true -> effect st = Allow.
Proof.
  assert (@evaluate ex_chrono ex_policy ex_ctx = DAllow) as E by by vm_compute.
  split; [exact E|].
  exact (proj2 (proj1 (proj1 (proj2 (@evaluate_decides ex_chrono ex_policy ex_ctx))) E)).
Defined.

Lemma public_grants_split_witness :
  @evaluate ex_chrono (without_public_grants ex_policy) ex_ctx = DAllow /\
  @evaluate ex_chrono ex_policy ex_ctx = DAllow.
Proof.
  assert (@evaluate ex_chrono (without_public_grants ex_policy) ex_ctx = DAllow) as E
    by by vm_compute.
  split; [exact E|].
  exact (proj2 (proj1 (proj2 (proj2 (@public_grants_split ex_chrono ex_policy ex_ctx))))
    (or_intror E)).
Defined.

Lemma unknown_operator_never_allows_witness :
  let st := build (with_condition [("StringMatches", [("k", Single "x")])]
    (resources ["*"] (actions ["*"] allow)))%string in
  @applies ex_chrono ex_ctx st = false.
Proof.
  apply (@unknown_operator_never_allows ex_chrono _ [("StringMatches", [("k", Single "x")])]%string);
    by vm_compute.
Defined.

Lemma cidr_contains_prefix_witness : cidr_contains "10.0.0.0/8" (V6 0xFFFF0A010203) = true.
Proof.
  apply (cidr_contains_prefix "10.0.0.0/8" (V6 0xFFFF0A010203) (V4 0x0A000000) 8); [by vm_compute|].
  change (to_canonical (V6 0xFFFF0A010203)) with (V4 0x0A010203).
  split; [lia|]. intros i Hi.
  assert (i = 24 \/ i = 25 \/ i = 26 \/ i = 27 \/ i = 28 \/ i = 29 \/ i = 30 \/ i = 31) as Hc by lia.
  by destruct Hc as [-> | [-> | [-> | [-> | [-> | [-> | [-> | ->]]]]]]].
Defined.

End Policy.
