(* ===== verification/ChunkedDecode.v ===== *)
(** * AWS-chunked bodies

    crates/gateway/src/chunked_decode.rs: the incremental decoder of
    [aws-chunked] request bodies with its chain of chunk signatures, the
    checks of the decoded body against its request, and the streamed body
    around it. SHA-256 and HMAC are the class [Crypto]; a hasher is the bytes
    fed to it. What the http crate accepts as a header name and value is the
    class [Http]. *)

From S2P Require Import Prelude Bytes StdText.

Module ChunkedDecode.

Definition CR : byte := Byte.x0d.
Definition LF : byte := Byte.x0a.

Definition EMPTY_SHA256 : string :=
  "e3b0c44298fc1c149afbf4c8996fb92427ae41e4649b934ca495991b7852b855".
Definition TRAILER_SIGNATURE : string := "x-amz-trailer-signature".
Definition MAX_LINE : Z := 4096.
Definition MAX_TRAILERS : Z := 64 * 1024.

(** ** Errors: [Malformed] carries its message's kind. *)
Inductive malformed : Type :=
| LineTooLong | NoCrlfAfterSize | InvalidUtf8 | InvalidSize
| NoCrlfAfterData (offset : Z) | TrailersTooLong | NoTerminalChunk.

Inductive signed_part : Type := AChunk | ATrailer.

Inductive DecodeError : Type :=
| Malformed (m : malformed)
| NoSignature (what : signed_part)
| WrongSignature (what : signed_part)
| MissingTrailers (names : list string)
| Length (expected got : Z)
| TooLarge (max : Z).

(** ** Trailers *)
Definition trim_end_cr (s : string) : string := trim_end_matches (String "013" EmptyString) s.

Definition trailer_lines (raw : bytes) : list string :=
  List.filter (fun line => negb (String.eqb (trim_str line) ""))
    (map trim_end_cr (split_char "010" (from_utf8_lossy raw))).

Definition is_signature_line (line : string) : bool :=
  match split_once ":" line with
  | Some (name, _) => eq_ignore_ascii_case (trim_str name) TRAILER_SIGNATURE
  | None => false
  end.

Definition newline : string := String "010" EmptyString.

Definition signed_trailer_text (raw : bytes) : string :=
  String.concat "" (map (fun line => line +:+ newline)
    (List.filter (fun line => negb (is_signature_line line)) (trailer_lines raw))).

Definition parse_trailer (line : string) : option (string * string) :=
  '(name, value) ← split_once ":" line;
  Some (to_ascii_lowercase (trim_str name), trim_str value).

Definition parse_trailers (raw : bytes) : list (string * string) :=
  omap parse_trailer (trailer_lines raw).

(** ** The chain of signatures *)
Class Crypto : Type := {
  hex_sha256 : bytes -> string;
  hex_hmac_sha256 : bytes -> bytes -> string;
}.

Record ChunkSigningSeed : Type := mkSeed {
  signing_key : bytes; seed_date : string; seed_scope : string; seed_signature : string
}.

Record ChunkVerifier : Type := mkVerifier {
  seed : ChunkSigningSeed; previous : string; signs_trailer : bool
}.

Definition ChunkVerifier_new (s : ChunkSigningSeed) (trailer : bool) : ChunkVerifier :=
  mkVerifier s (seed_signature s) trailer.

(** The loop of [constant_time_eq]. *)
Fixpoint xor_all (acc : Z) (a b : bytes) : Z :=
  match a, b with
  | x :: a', y :: b' => xor_all (Z.lor acc (Z.lxor (bval x) (bval y))) a' b'
  | _, _ => acc
  end.

Definition constant_time_eq (a b : string) : bool :=
  if negb (lenZ (as_bytes a) =? lenZ (as_bytes b)) then false
  else xor_all 0 (as_bytes a) (as_bytes b) =? 0.

Section decoder.
Context {CRYPTO : Crypto}.

Definition calculate_signature_v4 (key : bytes) (string_to_sign : string) : string :=
  hex_hmac_sha256 key (as_bytes string_to_sign).

Definition advance (string_to_sign : string) (provided : option string) (what : signed_part)
    (v : ChunkVerifier) : outcome DecodeError ChunkVerifier :=
  match provided with
  | None => Err (NoSignature what)
  | Some provided =>
    let expected := calculate_signature_v4 (signing_key (seed v)) string_to_sign in
    if negb (constant_time_eq expected provided) then Err (WrongSignature what)
    else Ok (mkVerifier (seed v) expected (signs_trailer v))
  end.

Definition chunk_string_to_sign (v : ChunkVerifier) (data_sha256 : string) : string :=
  "AWS4-HMAC-SHA256-PAYLOAD" +:+ newline +:+ seed_date (seed v) +:+ newline
  +:+ seed_scope (seed v) +:+ newline +:+ previous v +:+ newline
  +:+ EMPTY_SHA256 +:+ newline +:+ data_sha256.

Definition verify_chunk (data_sha256 : string) (provided : option string) (v : ChunkVerifier)
    : outcome DecodeError ChunkVerifier :=
  advance (chunk_string_to_sign v data_sha256) provided AChunk v.

Definition verify_trailers (raw : bytes) (provided : option string) (v : ChunkVerifier)
    : outcome DecodeError ChunkVerifier :=
  advance ("AWS4-HMAC-SHA256-TRAILER" +:+ newline +:+ seed_date (seed v) +:+ newline
           +:+ seed_scope (seed v) +:+ newline +:+ previous v +:+ newline
           +:+ hex_sha256 (as_bytes (signed_trailer_text raw))) provided ATrailer v.

(** ** The decoder *)
Definition signature_of (ext : string) : option string :=
  '(name, value) ← split_once "=" ext;
  if eq_ignore_ascii_case (trim_str name) "chunk-signature" then Some (trim_str value) else None.

Fixpoint find_map {A B} (f : A -> option B) (l : list A) : option B :=
  match l with [] => None | x :: l' => match f x with Some b => Some b | None => find_map f l' end end.

Definition chunk_signature (extensions : string) : option string :=
  find_map signature_of (split_char ";" extensions).

Inductive State : Type := Size | Data (due : Z) | DataCr | DataLf | Trailers.

Record Decoder : Type := mkDecoder {
  state : State;
  line : bytes;
  trailer : bytes;
  verifier : option ChunkVerifier;
  chunk : option (bytes * option string);
  decoded : Z;
}.

Definition Decoder_new (v : option ChunkVerifier) : Decoder := mkDecoder Size [] [] v None 0.

Definition set_state (s : State) (d : Decoder) : Decoder :=
  mkDecoder s (line d) (trailer d) (verifier d) (chunk d) (decoded d).
Definition set_line (l : bytes) (d : Decoder) : Decoder :=
  mkDecoder (state d) l (trailer d) (verifier d) (chunk d) (decoded d).

Definition strip_crlf (b : bytes) : option bytes :=
  let n := (length b - 2)%nat in
  if bool_decide (drop n b = [CR; LF]) then Some (take n b) else None.

(** A chunk-size line: its size and its signature. *)
Definition parse_header (l : bytes) : outcome DecodeError (Z * option string) :=
  l ← ok_or (strip_crlf l) (Malformed NoCrlfAfterSize);
  text ← ok_or (from_utf8 l) (Malformed InvalidUtf8);
  let '(hex_part, extensions) := default (text, ""%string) (split_once ";" text) in
  size ← ok_or (parse_hex_u64 (chars (trim_str hex_part))) (Malformed InvalidSize);
  Ok (size, chunk_signature extensions).

Definition chunk_header (d : Decoder) : outcome DecodeError Decoder :=
  '(size, signature) ← parse_header (line d);
  let d := set_line [] d in
  if size =? 0 then
    v ← match verifier d with
        | Some v => v' ← verify_chunk EMPTY_SHA256 signature v; Ok (Some v')
        | None => Ok None
        end;
    Ok (mkDecoder Trailers (line d) (trailer d) v (chunk d) (decoded d))
  else
    Ok (mkDecoder (Data size) (line d) (trailer d) (verifier d)
          (match verifier d with Some _ => Some ([], signature) | None => None end) (decoded d)).

Definition end_chunk (d : Decoder) : outcome DecodeError Decoder :=
  match verifier d, chunk d with
  | Some v, Some (hashed, signature) =>
    v ← verify_chunk (hex_sha256 hashed) signature v;
    Ok (mkDecoder (state d) (line d) (trailer d) (Some v) None (decoded d))
  | _, _ => Ok (mkDecoder (state d) (line d) (trailer d) (verifier d) None (decoded d))
  end.

(** [memchr(b'\n', input)]: where the first line feed is. *)
Fixpoint memchr_lf (b : bytes) : option nat :=
  match b with
  | [] => None
  | x :: b' => if decide (x = LF) then Some O else S <$> memchr_lf b'
  end.

Definition hashed_with (piece : bytes) (c : option (bytes * option string))
    : option (bytes * option string) :=
  match c with Some (h, s) => Some (h ++ piece, s) | None => None end.

(** The loop of [push]: the pieces handed to [out] so far, and the decoder or
    the error. Every round takes at least one byte of a non-empty input or
    ends a chunk that is due none, so twice the input's length is enough;
    [Panic] stands for fuel run out. *)
Fixpoint push_loop (fuel : nat) (d : Decoder) (input : bytes) (out : list bytes)
    : list bytes * outcome DecodeError Decoder :=
  match input with
  | [] => (out, Ok d)
  | b :: input' =>
    match fuel with
    | O => (out, Panic)
    | S fuel =>
      match state d with
      | Size =>
        let end_ := memchr_lf input in
        let n := match end_ with Some i => S i | None => length input end in
        if MAX_LINE <? lenZ (line d) + Z.of_nat n then (out, Err (Malformed LineTooLong))
        else
          let d := set_line (line d ++ take n input) d in
          let input := drop n input in
          match end_ with
          | Some _ => match chunk_header d with
                      | Ok d => push_loop fuel d input out
                      | Err e => (out, Err e)
                      | Panic => (out, Panic)
                      end
          | None => push_loop fuel d input out
          end
      | Data due =>
        let n := Z.to_nat (Z.min due (lenZ input)) in
        let piece := take n input in
        let input := drop n input in
        let d := mkDecoder (state d) (line d) (trailer d) (verifier d)
                   (hashed_with piece (chunk d)) (wadd64 (decoded d) (Z.of_nat n)) in
        let out := out ++ [piece] in
        let due := due - Z.of_nat n in
        if due =? 0 then
          match end_chunk d with
          | Ok d => push_loop fuel (set_state DataCr d) input out
          | Err e => (out, Err e)
          | Panic => (out, Panic)
          end
        else push_loop fuel (set_state (Data due) d) input out
      | DataCr =>
        if decide (b = CR) then push_loop fuel (set_state DataLf d) input' out
        else (out, Err (Malformed (NoCrlfAfterData (decoded d))))
      | DataLf =>
        if decide (b = LF) then push_loop fuel (set_state Size d) input' out
        else (out, Err (Malformed (NoCrlfAfterData (decoded d))))
      | Trailers =>
        if MAX_TRAILERS <? lenZ (trailer d) + lenZ input
        then (out, Err (Malformed TrailersTooLong))
        else (out, Ok (mkDecoder (state d) (line d) (trailer d ++ input) (verifier d)
                         (chunk d) (decoded d)))
      end
    end
  end.

Definition push (d : Decoder) (input : bytes) : list bytes * outcome DecodeError Decoder :=
  push_loop (2 * length input) d input [].

Definition finish (d : Decoder) : outcome DecodeError (list (string * string)) :=
  match state d with
  | Trailers =>
    let trailers := parse_trailers (trailer d) in
    match verifier d with
    | Some v =>
      if signs_trailer v then
        let provided := snd <$> find (fun t => String.eqb (fst t) TRAILER_SIGNATURE) trailers in
        _ ← verify_trailers (trailer d) provided v; Ok trailers
      else Ok trailers
    | None => Ok trailers
    end
  | _ => Err (Malformed NoTerminalChunk)
  end.

(** A body fed in pieces. *)
Fixpoint push_all (d : Decoder) (pieces : list bytes) : list bytes * outcome DecodeError Decoder :=
  match pieces with
  | [] => ([], Ok d)
  | p :: pieces =>
    match push d p with
    | (o, Ok d) => let '(o', r) := push_all d pieces in (o ++ o', r)
    | r => r
    end
  end.

(** ** The decoded body against its request *)
Class Http : Type := {
  header_name : string -> option string;
  header_value : string -> option string;
}.
Context {HTTP : Http}.

Definition HeaderMap : Type := gmap string string.

Definition add_trailer (trusted : bool) (out : HeaderMap) (t : string * string) : HeaderMap :=
  if negb trusted || negb (starts_with "x-amz-checksum-" (fst t)) then out
  else match header_name (fst t), header_value (snd t) with
       | Some name, Some value => <[name := value]> out
       | _, _ => out
       end.

Definition accepted_trailers (trailers : list (string * string)) (decoded : Z)
    (expected : option Z) (announced : list string) (trusted : bool)
    : outcome DecodeError HeaderMap :=
  let missing := List.filter
    (fun name => negb (existsb (fun t => String.eqb (fst t) name) trailers)) announced in
  match missing with
  | _ :: _ => Err (MissingTrailers missing)
  | [] =>
    let ok := Ok (fold_left (add_trailer trusted) trailers ∅) in
    match expected with
    | Some e => if negb (e =? decoded) then Err (Length e decoded) else ok
    | None => ok
    end
  end.

Record Framing : Type := mkFraming {
  f_decoded : option Z; f_announced : list string; f_trusted : bool; f_max : Z
}.

Definition accept (f : Framing) (d : Decoder) : outcome DecodeError HeaderMap :=
  t ← finish d; accepted_trailers t (decoded d) (f_decoded f) (f_announced f) (f_trusted f).

(** A body read whole: the closure [decode] of [s3_chunked_decode_layer]. *)
Definition decode (f : Framing) (v : option ChunkVerifier) (raw : bytes)
    : outcome DecodeError (bytes * HeaderMap) :=
  match push (Decoder_new v) raw with
  | (pieces, Ok d) =>
    t ← finish d;
    if f_max f <? decoded d then Err (TooLarge (f_max f))
    else t ← accepted_trailers t (decoded d) (f_decoded f) (f_announced f) (f_trusted f);
         Ok (concat pieces, t)
  | (_, Err e) => Err e
  | (_, Panic) => Panic
  end.

(** ** The streamed body *)

(** A frame of the inner body that is ready, a read error, and what
    [poll_frame] answers; [None] in [PError] is the inner body's error. *)
Inductive inner_frame : Type := FData (b : bytes) | FTrailers | FError.
Inductive polled : Type :=
| PData (b : bytes) | PTrailers (t : HeaderMap) | PError (e : option DecodeError) | PEnd.

Record DecodingBody : Type := mkBody {
  inner : list inner_frame; decoder : option Decoder; framing : Framing;
  out : list bytes; trailers : option HeaderMap
}.

(** The top of the loop of [poll_frame] when a piece or the end is at hand. *)
Definition answer (b : DecodingBody) : polled * DecodingBody :=
  match out b with
  | piece :: q => (PData piece, mkBody (inner b) (decoder b) (framing b) q (trailers b))
  | [] => match trailers b with
          | Some t => (PTrailers t, mkBody (inner b) (decoder b) (framing b) [] None)
          | None => (PEnd, b)
          end
  end.

Definition fail (e : DecodeError) (inner : list inner_frame) (b : DecodingBody)
    : polled * DecodingBody :=
  (PError (Some e), mkBody inner None (framing b) [] (trailers b)).

(** The loop, on what is ready of the inner body. ([Panic] is never an
    answer of [push] or [finish].) *)
Fixpoint poll_loop (frames : list inner_frame) (b : DecodingBody) : polled * DecodingBody :=
  match out b, decoder b with
  | [], Some d =>
    match frames with
    | [] =>
      let b := mkBody [] None (framing b) [] (trailers b) in
      match accept (framing b) d with
      | Ok t => answer (mkBody [] None (framing b) []
                          (if decide (t = ∅) then None else Some t))
      | Err e => fail e [] b
      | Panic => fail (Malformed NoTerminalChunk) [] b
      end
    | FError :: frames => (PError None, mkBody frames None (framing b) [] (trailers b))
    | FTrailers :: frames => poll_loop frames (mkBody frames (Some d) (framing b) [] (trailers b))
    | FData data :: frames =>
      match push d data with
      | (pieces, Ok d) =>
        if f_max (framing b) <? decoded d then fail (TooLarge (f_max (framing b))) frames b
        else poll_loop frames (mkBody frames (Some d) (framing b) pieces (trailers b))
      | (_, Err e) => fail e frames b
      | (_, Panic) => fail (Malformed NoTerminalChunk) frames b
      end
    end
  | _, _ => answer b
  end.

Definition poll_frame (b : DecodingBody) : polled * DecodingBody := poll_loop (inner b) b.

Definition is_end_stream (b : DecodingBody) : bool :=
  match decoder b, out b, trailers b with None, [], None => true | _, _, _ => false end.

(** The body of a request in the pieces it arrives in. *)
Definition streamed (f : Framing) (v : option ChunkVerifier) (pieces : list bytes) : DecodingBody :=
  mkBody (map FData pieces) (Some (Decoder_new v)) f [] None.

(** What a reader that polls to the end gets: the data, and the trailers or
    the error the body ends in. *)
Inductive reads : DecodingBody -> bytes -> outcome (option DecodeError) HeaderMap -> Prop :=
| reads_end b b' : poll_frame b = (PEnd, b') -> reads b [] (Ok ∅)
| reads_trailers b b' t : poll_frame b = (PTrailers t, b') -> is_end_stream b' = true ->
    reads b [] (Ok t)
| reads_error b b' e : poll_frame b = (PError e, b') -> reads b [] (Err e)
| reads_data b b' p o r : poll_frame b = (PData p, b') -> reads b' o r -> reads b (p ++ o) r.

(** ** Content-Encoding *)
Definition names_aws_chunked (content_encoding : option string) : bool :=
  match content_encoding with
  | Some v => existsb (fun c => eq_ignore_ascii_case (trim_str c) "aws-chunked") (split_char "," v)
  | None => false
  end.

Definition without_aws_chunked (value : string) : string :=
  String.concat ", "
    (List.filter (fun c => negb (String.eqb c "") && negb (eq_ignore_ascii_case c "aws-chunked"))
       (map trim_str (split_char "," value))).

Definition is_s3_chunked (content_sha256 content_encoding decoded_length : option string) : bool :=
  match content_sha256 with Some v => starts_with "STREAMING-" v | None => false end
  || (names_aws_chunked content_encoding && bool_decide (is_Some decoded_length)).

Definition announced_trailers (x_amz_trailer : list string) : list string :=
  List.filter (fun name => negb (String.eqb name ""))
    (map (fun name => to_ascii_lowercase (trim_str name)) (flat_map (split_char ",") x_amz_trailer)).

(** ** The decoder byte by byte

    What [push] does on one byte: the definition [push] is compared with. *)
Definition feed (d : Decoder) (b : byte) : bytes * outcome DecodeError Decoder :=
  match state d with
  | Size =>
    if MAX_LINE <? lenZ (line d) + 1 then ([], Err (Malformed LineTooLong))
    else let d := set_line (line d ++ [b]) d in
         ([], if decide (b = LF) then chunk_header d else Ok d)
  | Data due =>
    let d := mkDecoder (state d) (line d) (trailer d) (verifier d)
               (hashed_with [b] (chunk d)) (wadd64 (decoded d) 1) in
    ([b], if due - 1 =? 0 then set_state DataCr <$> end_chunk d
          else Ok (set_state (Data (due - 1)) d))
  | DataCr =>
    ([], if decide (b = CR) then Ok (set_state DataLf d)
         else Err (Malformed (NoCrlfAfterData (decoded d))))
  | DataLf =>
    ([], if decide (b = LF) then Ok (set_state Size d)
         else Err (Malformed (NoCrlfAfterData (decoded d))))
  | Trailers =>
    ([], if MAX_TRAILERS <? lenZ (trailer d) + 1 then Err (Malformed TrailersTooLong)
         else Ok (mkDecoder (state d) (line d) (trailer d ++ [b]) (verifier d)
                    (chunk d) (decoded d)))
  end.

Fixpoint feed_all (d : Decoder) (input : bytes) : bytes * outcome DecodeError Decoder :=
  match input with
  | [] => ([], Ok d)
  | b :: input =>
    match feed d b with
    | (o, Ok d) => let '(o', r) := feed_all d input in (o ++ o', r)
    | r => r
    end
  end.

(** ** Feeding runs of bytes *)

(** Sequencing of what is handed on and what comes next. *)
Definition andthen (r : bytes * outcome DecodeError Decoder)
    (f : Decoder -> bytes * outcome DecodeError Decoder) : bytes * outcome DecodeError Decoder :=
  match r with
  | (o, Ok d) => let '(o', r') := f d in (o ++ o', r')
  | _ => r
  end.

Lemma andthen_nil d f : andthen ([], Ok d) f = f d.
Proof. cbn. by destruct (f d). Qed.

Lemma andthen_assoc r f g : andthen (andthen r f) g = andthen r (fun d => andthen (f d) g).
Proof.
  destruct r as [o [d| |]]; cbn; try done. destruct (f d) as [o' [d'| |]]; cbn; try done.
  destruct (g d') as [o'' r'']. by rewrite app_assoc.
Qed.

Lemma feed_all_cons d b w : feed_all d (b :: w) = andthen (feed d b) (fun d => feed_all d w).
Proof. cbn. by destruct (feed d b) as [o [| |]]. Qed.

Lemma feed_all_app d a w : feed_all d (a ++ w) = andthen (feed_all d a) (fun d => feed_all d w).
Proof.
  revert d. induction a as [|b a IH]; intros d; [cbn; by destruct (feed_all d w)|].
  cbn [app]. rewrite !feed_all_cons, andthen_assoc.
  destruct (feed d b) as [o [d'| |]]; cbn [andthen]; [by rewrite IH|done|done].
Qed.

Lemma feed_line d w :
  state d = Size -> LF ∉ w ->
  feed_all d w = if MAX_LINE <? lenZ (line d) + lenZ w then
                   if decide (w = []) then ([], Ok d) else ([], Err (Malformed LineTooLong))
                 else ([], Ok (set_line (line d ++ w) d)).
Proof.
  revert d. induction w as [|b w IH]; intros d Hs Hn.
  - rewrite app_nil_r. case_match; destruct d; done.
  - rewrite feed_all_cons, lenZ_cons. apply not_elem_of_cons in Hn as [Hb Hn].
    pose proof (lenZ_nonneg w). unfold feed. rewrite Hs.
    destruct (Z.ltb_spec MAX_LINE (lenZ (line d) + 1)) as [Hl|Hl].
    + rewrite (proj2 (Z.ltb_lt _ _)) by lia. done.
    + rewrite decide_False by done. rewrite andthen_nil, IH by done. cbn [set_line line].
      rewrite lenZ_app, lenZ_cons. change (lenZ []) with 0.
      replace (lenZ (line d) + (1 + 0) + lenZ w) with (lenZ (line d) + (1 + lenZ w)) by lia.
      rewrite <- app_assoc. destruct (Z.ltb_spec MAX_LINE (lenZ (line d) + (1 + lenZ w))); [|done].
      destruct (decide (w = [])) as [->|]; [|done]. change (lenZ []) with 0 in *. lia.
Qed.

Lemma wadd64_add x a b : wadd64 (wadd64 x a) b = wadd64 x (a + b).
Proof. unfold wadd64, wrap64. rewrite Zplus_mod_idemp_l. f_equal. lia. Qed.

Lemma hashed_with_app a b c : hashed_with b (hashed_with a c) = hashed_with (a ++ b) c.
Proof. destruct c as [[h s]|]; cbn; [by rewrite app_assoc|done]. Qed.

(** The decoder after [p] more bytes of its chunk's data. *)
Definition with_data (p : bytes) (d : Decoder) : Decoder :=
  mkDecoder (state d) (line d) (trailer d) (verifier d)
    (hashed_with p (chunk d)) (wadd64 (decoded d) (lenZ p)).

Definition after_data (due : Z) (d : Decoder) : outcome DecodeError Decoder :=
  if due =? 0 then set_state DataCr <$> end_chunk d else Ok (set_state (Data due) d).

Lemma end_chunk_state s d : set_state DataCr <$> end_chunk (set_state s d) = set_state DataCr <$> end_chunk d.
Proof.
  unfold end_chunk, set_state. cbn. destruct (verifier d), (chunk d) as [[]|]; cbn; try done.
  by destruct (verify_chunk _ _ _).
Qed.

Lemma feed_data d p due :
  state d = Data due -> p <> [] -> lenZ p <= due ->
  feed_all d p = (p, after_data (due - lenZ p) (with_data p d)).
Proof.
  revert d due. induction p as [|b p IH]; intros d due Hs Hp Hl; [done|].
  rewrite feed_all_cons. rewrite lenZ_cons in *. unfold feed. rewrite Hs.
  destruct (decide (p = [])) as [->|Hne].
  - unfold after_data, with_data. rewrite Hs. change (lenZ [b]) with 1. change (lenZ []) with 0 in *.
    replace (due - (1 + 0)) with (due - 1) by lia.
    destruct (due - 1 =? 0); [|done].
    destruct (set_state DataCr <$> end_chunk _); done.
  - pose proof (lenZ_nil_inv p) as Hz. pose proof (lenZ_nonneg p).
    assert (lenZ p <> 0) by (intros E; by apply Hne, Hz).
    destruct (Z.eqb_spec (due - 1) 0); [lia|]. cbn [andthen].
    rewrite (IH _ (due - 1)) by (done || lia). cbn [app]. f_equal.
    replace (due - 1 - lenZ p) with (due - (1 + lenZ p)) by lia.
    unfold after_data, with_data. cbn [set_state state line trailer verifier chunk decoded].
    rewrite hashed_with_app, wadd64_add, lenZ_cons. cbn [app].
    destruct (_ =? 0); [|done].
    match goal with |- set_state DataCr <$> end_chunk ?x = _ =>
      rewrite <- (end_chunk_state (state d) x) end. done.
Qed.

Lemma feed_trailers d p :
  state d = Trailers ->
  feed_all d p = if MAX_TRAILERS <? lenZ (trailer d) + lenZ p then
                   if decide (p = []) then ([], Ok d) else ([], Err (Malformed TrailersTooLong))
                 else ([], Ok (mkDecoder (state d) (line d) (trailer d ++ p) (verifier d)
                                 (chunk d) (decoded d))).
Proof.
  revert d. induction p as [|b p IH]; intros d Hs.
  - rewrite app_nil_r. case_match; destruct d; done.
  - rewrite feed_all_cons, lenZ_cons. pose proof (lenZ_nonneg p). unfold feed. rewrite Hs.
    destruct (Z.ltb_spec MAX_TRAILERS (lenZ (trailer d) + 1)) as [Hl|Hl].
    + rewrite (proj2 (Z.ltb_lt _ _)) by lia. done.
    + rewrite andthen_nil, IH by done. cbn [trailer state line verifier chunk decoded].
      rewrite lenZ_app, lenZ_cons. change (lenZ []) with 0.
      replace (lenZ (trailer d) + (1 + 0) + lenZ p) with (lenZ (trailer d) + (1 + lenZ p)) by lia.
      rewrite <- app_assoc.
      destruct (Z.ltb_spec MAX_TRAILERS (lenZ (trailer d) + (1 + lenZ p))); [|done].
      destruct (decide (p = [])) as [->|]; [|done]. change (lenZ []) with 0 in *. lia.
Qed.

(** ** [push] and the bytes *)

Definition wf (d : Decoder) : Prop := match state d with Data due => 0 < due | _ => True end.

Lemma parse_header_nonneg l size sig : parse_header l = Ok (size, sig) -> 0 <= size.
Proof.
  unfold parse_header. intros H.
  apply outcome_bind_ok in H as (l' & _ & H). apply outcome_bind_ok in H as (text & _ & H).
  destruct (default _ _) as [hex ext]. apply outcome_bind_ok in H as (z & Hz & H).
  simplify_eq. apply ok_or_ok, parse_int_bounds in Hz. lia.
Qed.

Lemma chunk_header_wf d d' : chunk_header d = Ok d' -> wf d'.
Proof.
  unfold chunk_header. intros H. apply outcome_bind_ok in H as ([size sig] & Hp & H).
  destruct (Z.eqb_spec size 0).
  - apply outcome_bind_ok in H as (v & _ & H). by simplify_eq.
  - apply parse_header_nonneg in Hp. simplify_eq. unfold wf. cbn. lia.
Qed.

Lemma after_data_wf due d d' : 0 <= due -> after_data due d = Ok d' -> wf d'.
Proof.
  unfold after_data. intros Hd H. destruct (Z.eqb_spec due 0).
  - destruct (end_chunk d); cbn in H; by simplify_eq.
  - simplify_eq. unfold wf. cbn. lia.
Qed.

Lemma memchr_spec b :
  match memchr_lf b with
  | Some i => exists w r, (LF ∉ w) /\ b = w ++ LF :: r /\ length w = i
  | None => LF ∉ b
  end.
Proof.
  induction b as [|x b IH]; cbn; [apply not_elem_of_nil|].
  destruct (decide (x = LF)) as [->|Hx].
  - exists [], b. split_and!; [apply not_elem_of_nil|done|done].
  - destruct (memchr_lf b) as [i|]; cbn.
    + destruct IH as (w & r & Hw & -> & <-). exists (x :: w), r.
      split_and!; [|done|done]. apply not_elem_of_cons. split; [congruence|done].
    + apply not_elem_of_cons. split; [congruence|done].
Qed.

Definition prepend (out : bytes) (r : bytes * outcome DecodeError Decoder) :=
  (out ++ fst r, snd r).

Lemma prepend_nil r : prepend [] r = r.
Proof. by destruct r. Qed.

Lemma prepend_stop out r : prepend out ([], r) = (out, r).
Proof. unfold prepend. cbn. by rewrite app_nil_r. Qed.

Lemma prepend_andthen out o d f :
  prepend out (andthen (o, Ok d) f) = prepend (out ++ o) (f d).
Proof. unfold prepend. cbn. destruct (f d). cbn. by rewrite app_assoc. Qed.

(** A line that ends in [LF], at once and byte by byte. *)
Lemma feed_line_end d w r :
  state d = Size -> LF ∉ w ->
  feed_all d (w ++ LF :: r) =
  if MAX_LINE <? lenZ (line d) + Z.of_nat (S (length w)) then ([], Err (Malformed LineTooLong))
  else andthen ([], chunk_header (set_line (line d ++ w ++ [LF]) d)) (fun d => feed_all d r).
Proof.
  intros Hs Hw. rewrite feed_all_app, feed_line by done.
  replace (Z.of_nat (S (length w))) with (lenZ w + 1) by (unfold lenZ; lia).
  destruct (Z.ltb_spec MAX_LINE (lenZ (line d) + lenZ w)) as [Hl|Hl].
  - rewrite (proj2 (Z.ltb_lt MAX_LINE (lenZ (line d) + (lenZ w + 1)))) by lia.
    destruct (decide (w = [])) as [->|]; [|done].
    rewrite andthen_nil, feed_all_cons. unfold feed. rewrite Hs.
    change (lenZ []) with 0 in *. rewrite (proj2 (Z.ltb_lt _ _)) by lia. done.
  - rewrite andthen_nil, feed_all_cons. unfold feed. cbn [set_line state line]. rewrite Hs.
    rewrite lenZ_app, <- Z.add_assoc.
    destruct (Z.ltb_spec MAX_LINE (lenZ (line d) + (lenZ w + 1))); [done|].
    rewrite decide_True by done. by rewrite <- app_assoc.
Qed.

(** Pieces, taken together. *)
Definition flat (r : list bytes * outcome DecodeError Decoder) : bytes * outcome DecodeError Decoder :=
  (concat (fst r), snd r).

Lemma flat_stop out r : flat (out, r) = prepend (concat out) ([], r).
Proof. by rewrite prepend_stop. Qed.

Lemma concat_snoc (out : list bytes) p : concat (out ++ [p]) = concat out ++ p.
Proof. rewrite concat_app. cbn. by rewrite app_nil_r. Qed.

Lemma flat_last out p r : flat (out ++ [p], r) = prepend (concat out) (p, r).
Proof. unfold flat, prepend. cbn [fst snd]. by rewrite concat_snoc. Qed.

Lemma push_loop_feed fuel d input out :
  wf d -> (length input <= fuel)%nat ->
  flat (push_loop fuel d input out) = prepend (concat out) (feed_all d input).
Proof.
  revert d input out. induction fuel as [|fuel IH]; intros d input out Hwf Hf.
  { destruct input; [|cbn in Hf; lia]. apply flat_stop. }
  destruct input as [|b input]; [apply flat_stop|].
  cbn [push_loop]. destruct (state d) as [|due| | |] eqn:Hs.
  - pose proof (memchr_spec (b :: input)) as Hm.
    destruct (memchr_lf (b :: input)) as [i|].
    + destruct Hm as (w & r & Hw & Hb & <-). rewrite Hb in *. rewrite feed_line_end by done.
      destruct (_ <? _); [apply flat_stop|].
      assert (Ht : take (S (length w)) (w ++ LF :: r) = w ++ [LF]).
      { rewrite take_app_ge by lia. replace (S (length w) - length w)%nat with 1%nat by lia. done. }
      assert (Hd : drop (S (length w)) (w ++ LF :: r) = r).
      { rewrite drop_app_ge by lia. replace (S (length w) - length w)%nat with 1%nat by lia. done. }
      rewrite Ht, Hd. destruct (chunk_header _) as [d'| |] eqn:Eh; cbn [andthen].
      * rewrite IH; [|by eapply chunk_header_wf|rewrite length_app in Hf; cbn in Hf; lia].
        by destruct (feed_all d' r).
      * apply flat_stop.
      * apply flat_stop.
    + rewrite take_ge, drop_ge, feed_line by done.
      change (Z.of_nat (length (b :: input))) with (lenZ (b :: input)).
      rewrite decide_False by done. destruct (_ <? _); [apply flat_stop|]. rewrite IH by (done || cbn; lia).
      done.
  - unfold wf in Hwf. rewrite Hs in Hwf. pose proof (lenZ_nonneg input).
    set (n := Z.to_nat (Z.min due (lenZ (b :: input)))).
    assert (Hn : (1 <= n <= length (b :: input))%nat).
    { unfold n. rewrite lenZ_cons. cbn [length]. unfold lenZ. lia. }
    assert (Hp : lenZ (take n (b :: input)) = Z.of_nat n).
    { unfold lenZ. rewrite length_take. lia. }
    rewrite <- (take_drop n (b :: input)) at 5.
    rewrite feed_all_app, (feed_data d _ due); [|done| |rewrite Hp; unfold n; lia].
    2:{ intros E. rewrite E in Hp. change (lenZ []) with 0 in Hp. lia. }
    assert (Hl : (length (drop n (b :: input)) <= fuel)%nat) by (rewrite length_drop; cbn in *; lia).
    unfold with_data. rewrite Hp, Hs. set (d1 := mkDecoder (Data due) _ _ _ _ _).
    assert (0 <= due - Z.of_nat n) by (unfold n; lia).
    pose proof (after_data_wf (due - Z.of_nat n) d1) as Hw. unfold after_data in *.
    destruct (Z.eqb_spec (due - Z.of_nat n) 0).
    + destruct (end_chunk d1) as [d2| |]; cbn [fmap outcome_fmap] in *;
        [|apply flat_last|apply flat_last].
      rewrite IH, concat_snoc, prepend_andthen by (done || by apply Hw). done.
    + rewrite IH, concat_snoc, prepend_andthen by (done || by apply Hw). done.
  - rewrite feed_all_cons. unfold feed. rewrite Hs. case_decide; [|apply flat_stop].
    rewrite andthen_nil. apply IH; [done|cbn in Hf; lia].
  - rewrite feed_all_cons. unfold feed. rewrite Hs. case_decide; [|apply flat_stop].
    rewrite andthen_nil. apply IH; [done|cbn in Hf; lia].
  - rewrite feed_trailers, decide_False by done. destruct (_ <? _); rewrite flat_stop, ?Hs; done.
Qed.

Lemma push_feed d input : wf d -> flat (push d input) = feed_all d input.
Proof. intros Hd. unfold push. rewrite push_loop_feed by (done || lia). apply prepend_nil. Qed.

Lemma feed_wf d b o d' : wf d -> feed d b = (o, Ok d') -> wf d'.
Proof.
  unfold feed. intros Hw H. destruct (state d) as [|due| | |] eqn:Hs.
  - case_match; simplify_eq. case_decide; [by eapply chunk_header_wf|]. simplify_eq.
    unfold wf. cbn. by rewrite Hs.
  - injection H as _ H. unfold wf in Hw. rewrite Hs in Hw.
    eapply (after_data_wf (due - 1)); [lia|exact H].
  - case_decide; by simplify_eq.
  - case_decide; by simplify_eq.
  - case_match; simplify_eq. done.
Qed.

Lemma feed_all_wf d input o d' : wf d -> feed_all d input = (o, Ok d') -> wf d'.
Proof.
  revert d o. induction input as [|b input IH]; intros d o Hw H; [by cbn in H; simplify_eq|].
  rewrite feed_all_cons in H. destruct (feed d b) as [o1 [d1| |]] eqn:E; cbn in H; simplify_eq.
  destruct (feed_all d1 input) as [o2 r] eqn:E2. simplify_eq.
  eapply IH; [by eapply feed_wf|done].
Qed.

Lemma push_all_feed d pieces : wf d -> flat (push_all d pieces) = feed_all d (concat pieces).
Proof.
  revert d. induction pieces as [|p pieces IH]; intros d Hw; [done|].
  cbn [push_all concat]. rewrite feed_all_app, <- push_feed by done.
  pose proof (push_feed d p Hw) as Hp.
  destruct (push d p) as [o [d1| |]]; cbn [flat fst snd andthen] in *; try done.
  rewrite <- IH by (by eapply feed_all_wf).
  destruct (push_all d1 pieces). unfold flat. cbn [fst snd]. by rewrite concat_app.
Qed.

Lemma new_decoder_wf v : wf (Decoder_new v).
Proof. done. Qed.

(** ** What a signature has to be *)
Lemma xor_all_zero acc a b :
  0 <= acc -> length a = length b -> xor_all acc a b = 0 <-> acc = 0 /\ a = b.
Proof.
  revert acc b. induction a as [|x a IH]; intros acc b Ha Hl; destruct b as [|y b]; try done.
  - cbn. naive_solver.
  - cbn in Hl |- *. pose proof (byte.unsigned_range x). pose proof (byte.unsigned_range y).
    unfold bval. rewrite IH; [|apply Z.lor_nonneg; split; [done|apply Z.lxor_nonneg; lia]|lia].
    rewrite Z.lor_eq_0_iff, Z.lxor_eq_0_iff. split.
    + intros [[-> Hxy] ->]. split; [done|]. f_equal.
      rewrite <- (byte.of_Z_unsigned x), <- (byte.of_Z_unsigned y). by rewrite Hxy.
    + intros [-> [= -> ->]]. done.
Qed.

Lemma constant_time_eq_true a b : constant_time_eq a b = true <-> a = b.
Proof.
  unfold constant_time_eq, lenZ. destruct (Z.eqb_spec (Z.of_nat (length (as_bytes a)))
    (Z.of_nat (length (as_bytes b)))) as [E|E]; cbn [negb].
  - rewrite Z.eqb_eq, xor_all_zero by lia. split; [intros [_ H]; by apply as_bytes_inj|by intros ->].
  - split; [done|by intros ->].
Qed.

Lemma advance_ok sts provided what v v' :
  advance sts provided what v = Ok v' <->
  provided = Some (calculate_signature_v4 (signing_key (seed v)) sts) /\
  v' = mkVerifier (seed v) (calculate_signature_v4 (signing_key (seed v)) sts) (signs_trailer v).
Proof.
  unfold advance. destruct provided as [p|]; [|naive_solver].
  destruct (constant_time_eq _ p) eqn:E; cbn [negb].
  - apply constant_time_eq_true in E as <-. naive_solver.
  - split; [done|]. intros [[= ->] _]. by rewrite (proj2 (constant_time_eq_true _ _) eq_refl) in E.
Qed.

(** ** The framing as a grammar *)

(** The verifier moves on over a chunk: its signature is the HMAC of the
    chain so far and of the chunk's hash. *)
Definition signed (v : option ChunkVerifier) (data_sha256 : string) (sig : option string)
    (v' : option ChunkVerifier) : Prop :=
  match v with
  | None => v' = None
  | Some v =>
    let s := calculate_signature_v4 (signing_key (seed v)) (chunk_string_to_sign v data_sha256) in
    sig = Some s /\ v' = Some (mkVerifier (seed v) s (signs_trailer v))
  end.

(** A chunk-size line: one line of at most [MAX_LINE] bytes that says
    [size] and carries [sig]. *)
Definition size_line (l : bytes) (size : Z) (sig : option string) : Prop :=
  lenZ l <= MAX_LINE /\ (exists w, l = w ++ [LF] /\ LF ∉ w) /\ parse_header l = Ok (size, sig).

(** [framed v raw payload v' tr]: [raw] is chunks that hold [payload],
    signed in a chain from [v] to [v'], the terminal chunk, and [tr]. *)
Inductive framed : option ChunkVerifier -> bytes -> bytes -> option ChunkVerifier -> bytes -> Prop :=
| framed_end v v' l sig tr :
    size_line l 0 sig -> signed v EMPTY_SHA256 sig v' -> lenZ tr <= MAX_TRAILERS ->
    framed v (l ++ tr) [] v' tr
| framed_chunk v v1 v2 l sig data raw payload tr :
    size_line l (lenZ data) sig -> data <> [] -> signed v (hex_sha256 data) sig v1 ->
    framed v1 raw payload v2 tr ->
    framed v (l ++ data ++ CR :: LF :: raw) (data ++ payload) v2 tr.

Definition trailers_signed (v : option ChunkVerifier) (tr : bytes) : Prop :=
  match v with
  | Some v => signs_trailer v = true ->
      is_ok (verify_trailers tr
        (snd <$> find (fun t => String.eqb (fst t) TRAILER_SIGNATURE) (parse_trailers tr)) v) = true
  | None => True
  end.

(** The decoder between chunks, and after the terminal one. *)
Definition between (v : option ChunkVerifier) (n : Z) : Decoder := mkDecoder Size [] [] v None n.
Definition ended (v : option ChunkVerifier) (tr : bytes) (n : Z) : Decoder :=
  mkDecoder Trailers [] tr v None n.

Definition chain (v : option ChunkVerifier) (sha : string) (sig : option string)
    : outcome DecodeError (option ChunkVerifier) :=
  match v with Some v => v' ← verify_chunk sha sig v; Ok (Some v') | None => Ok None end.

Lemma chain_ok v sha sig v' : chain v sha sig = Ok v' <-> signed v sha sig v'.
Proof.
  destruct v as [v|]; cbn; [|naive_solver]. rewrite outcome_bind_ok. unfold verify_chunk. split.
  - intros (v1 & [-> ->]%advance_ok & H). by simplify_eq.
  - intros [-> ->]. eexists. rewrite advance_ok. split; [split; reflexivity|done].
Qed.

Lemma chunk_header_between l v n :
  chunk_header (set_line l (between v n)) =
  '(size, sig) ← parse_header l;
  if size =? 0 then v' ← chain v EMPTY_SHA256 sig; Ok (ended v' [] n)
  else Ok (mkDecoder (Data size) [] [] v (match v with Some _ => Some ([], sig) | None => None end) n).
Proof. done. Qed.

Lemma end_chunk_data v sig data s n :
  end_chunk (mkDecoder s [] [] v
    (hashed_with data (match v with Some _ => Some ([], sig) | None => None end)) n) =
  v' ← chain v (hex_sha256 data) sig; Ok (mkDecoder s [] [] v' None n).
Proof. destruct v; cbn; [|done]. by destruct (verify_chunk _ _ _). Qed.

Lemma feed_size_line v n w r :
  LF ∉ w ->
  feed_all (between v n) (w ++ LF :: r) =
  if MAX_LINE <? lenZ (w ++ [LF]) then ([], Err (Malformed LineTooLong))
  else andthen ([], chunk_header (set_line (w ++ [LF]) (between v n))) (fun d => feed_all d r).
Proof.
  intros Hw. rewrite feed_line_end by done. cbn [between line app].
  change (lenZ []) with 0. replace (0 + Z.of_nat (S (length w))) with (lenZ (w ++ [LF])); [done|].
  rewrite lenZ_app, lenZ_cons. unfold lenZ. cbn [length]. lia.
Qed.

(** The decoder in the data of a chunk that says [size] and [sig]. *)
Definition in_chunk (size : Z) (v : option ChunkVerifier) (sig : option string) (n : Z) : Decoder :=
  mkDecoder (Data size) [] [] v (match v with Some _ => Some ([], sig) | None => None end) n.

Lemma feed_chunk v n sig data r :
  data <> [] ->
  feed_all (in_chunk (lenZ data) v sig n) (data ++ r) =
  andthen (data, v' ← chain v (hex_sha256 data) sig;
                 Ok (mkDecoder DataCr [] [] v' None (wadd64 n (lenZ data))))
    (fun d => feed_all d r).
Proof.
  intros Hd. rewrite feed_all_app, (feed_data _ data (lenZ data)) by (done || lia).
  unfold after_data. rewrite Z.sub_diag. cbn [Z.eqb].
  unfold with_data. cbn [in_chunk state line trailer verifier chunk decoded].
  rewrite end_chunk_data. by destruct (chain _ _ _).
Qed.

Lemma feed_crlf v n r :
  feed_all (mkDecoder DataCr [] [] v None n) (CR :: LF :: r) = feed_all (between v n) r.
Proof.
  rewrite feed_all_cons. cbn [feed state]. rewrite decide_True by done.
  rewrite andthen_nil, feed_all_cons. cbn [feed state set_state]. rewrite decide_True by done.
  by rewrite andthen_nil.
Qed.

Lemma framed_feed v raw payload v' tr n :
  framed v raw payload v' tr -> is_u64 n ->
  feed_all (between v n) raw = (payload, Ok (ended v' tr (wadd64 n (lenZ payload)))).
Proof.
  intros Hf. revert n. induction Hf as [v v' l sig tr (Hm & (w & -> & Hw) & Hp) Hs Ht
    |v v1 v2 l sig data raw payload tr (Hm & (w & -> & Hw) & Hp) Hd Hs Hf IH]; intros n Hn.
  - rewrite <- app_assoc. cbn [app]. rewrite feed_size_line by done.
    rewrite (proj2 (Z.ltb_ge _ _)) by lia. rewrite chunk_header_between, Hp. cbn [mbind outcome_bind].
    cbn [Z.eqb]. apply chain_ok in Hs as ->. cbn [mbind outcome_bind].
    rewrite andthen_nil, feed_trailers by done. cbn [ended trailer state line verifier chunk decoded].
    change (lenZ [] + lenZ tr) with (lenZ tr). rewrite (proj2 (Z.ltb_ge _ _)) by lia.
    change (lenZ []) with 0. unfold is_u64 in Hn. rewrite wadd64_small by lia.
    by rewrite Z.add_0_r.
  - rewrite <- app_assoc. cbn [app]. rewrite feed_size_line by done.
    rewrite (proj2 (Z.ltb_ge _ _)) by lia. rewrite chunk_header_between, Hp. cbn [mbind outcome_bind].
    assert (lenZ data <> 0) by (intros E; by apply Hd, lenZ_nil_inv).
    rewrite (proj2 (Z.eqb_neq _ _)) by done. rewrite andthen_nil.
    fold (in_chunk (lenZ data) v sig n). rewrite feed_chunk by done.
    apply chain_ok in Hs as ->. cbn [mbind outcome_bind andthen].
    rewrite feed_crlf, IH by apply wrap64_u64. by rewrite wadd64_add, lenZ_app.
Qed.

Lemma feed_short_chunk d due r :
  state d = Data due -> lenZ r < due -> exists o d', feed_all d r = (o, Ok d') /\ exists k, state d' = Data k.
Proof.
  intros Hs Hl. destruct (decide (r = [])) as [->|Hr]; [cbn; eauto 6|].
  rewrite (feed_data _ _ due) by (done || lia). unfold after_data.
  rewrite (proj2 (Z.eqb_neq _ _)) by lia. eexists _, _. split; [done|]. cbn. eauto.
Qed.

Lemma feed_whole_chunk v n sig data r o d :
  data <> [] -> feed_all (in_chunk (lenZ data) v sig n) (data ++ r) = (o, Ok d) ->
  state d = Trailers ->
  exists v' r' o', signed v (hex_sha256 data) sig v' /\ r = CR :: LF :: r' /\ o = data ++ o' /\
    feed_all (between v' (wadd64 n (lenZ data))) r' = (o', Ok d).
Proof.
  intros Hd Hf Ht. rewrite feed_chunk in Hf by done.
  destruct (chain v (hex_sha256 data) sig) as [v'| |] eqn:Hc; cbn in Hf; try done.
  apply chain_ok in Hc. set (m := wadd64 n (lenZ data)) in *.
  destruct r as [|b1 r]; [cbn in Hf; simplify_eq; done|].
  destruct (decide (b1 = CR)) as [->|Hb].
  2:{ rewrite feed_all_cons in Hf. cbn [feed state] in Hf. by rewrite decide_False in Hf. }
  destruct r as [|b2 r]; [cbn in Hf; rewrite decide_True in Hf by done; by simplify_eq|].
  destruct (decide (b2 = LF)) as [->|Hb].
  2:{ rewrite feed_all_cons in Hf. cbn [feed state] in Hf. rewrite decide_True in Hf by done.
      rewrite andthen_nil, feed_all_cons in Hf. cbn [feed state set_state] in Hf.
      by rewrite decide_False in Hf. }
  rewrite feed_crlf in Hf. destruct (feed_all (between v' m) r) as [o' r'] eqn:E.
  simplify_eq. eauto 8.
Qed.

(** A body that decodes to its end is framed. *)
Lemma feed_framed k v n raw o d :
  (length raw <= k)%nat -> feed_all (between v n) raw = (o, Ok d) -> state d = Trailers ->
  exists v' tr, framed v raw o v' tr.
Proof.
  revert v n raw o. induction k as [|k IH]; intros v n raw o Hk Hf Hd.
  { destruct raw; [|cbn in Hk; lia]. cbn in Hf. by simplify_eq. }
  pose proof (memchr_spec raw) as Hm. destruct (memchr_lf raw) as [i|].
  2:{ rewrite feed_line in Hf by done. cbn [between line] in Hf.
      repeat case_match; simplify_eq; done. }
  destruct Hm as (w & r & Hw & -> & _). rewrite feed_size_line in Hf by done.
  destruct (Z.ltb_spec MAX_LINE (lenZ (w ++ [LF]))) as [|Hl]; [done|].
  rewrite chunk_header_between in Hf.
  destruct (parse_header (w ++ [LF])) as [[size sig]| |] eqn:Hp; cbn in Hf; try done.
  assert (Hsl : size_line (w ++ [LF]) size sig) by (split; [lia|split; [by exists w|done]]).
  replace (w ++ LF :: r) with ((w ++ [LF]) ++ r) in * by (by rewrite <- app_assoc).
  destruct (Z.eqb_spec size 0) as [->|Hz].
  - destruct (chain v EMPTY_SHA256 sig) as [v'| |] eqn:Hc; cbn in Hf; try done.
    apply chain_ok in Hc. rewrite feed_trailers in Hf by done. cbn [ended trailer] in Hf.
    change (lenZ [] + lenZ r) with (lenZ r) in Hf.
    destruct (Z.ltb_spec MAX_TRAILERS (lenZ r)) as [Hb|Hb].
    + destruct (decide (r = [])) as [->|]; [done|done].
    + simplify_eq. exists v', r. by eapply framed_end.
  - fold (in_chunk size v sig n) in Hf.
    destruct (Z.ltb_spec (lenZ r) size) as [Hsh|Hsh].
    { destruct (feed_short_chunk (in_chunk size v sig n) size r) as (o' & d' & E & ? & Hs); try done.
      rewrite E in Hf. simplify_eq. congruence. }
    apply parse_header_nonneg in Hp.
    assert (exists data rest, r = data ++ rest /\ size = lenZ data) as (data & rest & -> & ->).
    { exists (take (Z.to_nat size) r), (drop (Z.to_nat size) r). rewrite take_drop.
      unfold lenZ in *. rewrite length_take. split; [done|lia]. }
    assert (Hne : data <> []) by (by intros ->).
    destruct (feed_all (in_chunk (lenZ data) v sig n) (data ++ rest)) as [o' res] eqn:E.
    cbn in Hf. simplify_eq.
    destruct (feed_whole_chunk _ _ _ _ _ _ _ Hne E Hd) as (v' & r' & o'' & Hs & -> & -> & Hrest).
    destruct (IH v' _ r' _ ltac:(rewrite !length_app in Hk; cbn [length] in Hk; lia) Hrest Hd)
      as (v2 & tr & Hfr).
    exists v2, tr. by eapply framed_chunk.
Qed.

(** ** Totality and the count of decoded bytes *)
Lemma parse_header_no_panic l : parse_header l <> Panic.
Proof.
  unfold parse_header. destruct (strip_crlf l) as [l'|]; cbn; [|done].
  destruct (from_utf8 l') as [text|]; cbn; [|done].
  destruct (default _ _) as [hex ext]. by destruct (parse_hex_u64 _).
Qed.

Lemma chain_no_panic v sha sig : chain v sha sig <> Panic.
Proof.
  destruct v as [v|]; cbn; [|done]. unfold verify_chunk, advance.
  destruct sig; [|done]. by destruct (negb _).
Qed.

Lemma chunk_header_no_panic d : chunk_header d <> Panic.
Proof.
  unfold chunk_header. pose proof (parse_header_no_panic (line d)).
  destruct (parse_header (line d)) as [[size sig]| |]; cbn; try done.
  destruct (size =? 0); [|done].
  pose proof (chain_no_panic (verifier d) EMPTY_SHA256 sig) as Hc. unfold chain in Hc.
  by destruct (verifier d); cbn in *; [destruct (verify_chunk _ _ _)|].
Qed.

Lemma end_chunk_no_panic d : end_chunk d <> Panic.
Proof.
  unfold end_chunk. destruct (verifier d) as [v|], (chunk d) as [[h sig]|]; try done.
  pose proof (chain_no_panic (Some v) (hex_sha256 h) sig) as Hc. cbn in Hc.
  by destruct (verify_chunk _ _ _).
Qed.

Lemma chunk_header_decoded d d' : chunk_header d = Ok d' -> decoded d' = decoded d.
Proof.
  unfold chunk_header. intros H. apply outcome_bind_ok in H as ([size sig] & _ & H).
  destruct (size =? 0); [apply outcome_bind_ok in H as (v & _ & H)|]; by simplify_eq.
Qed.

Lemma end_chunk_decoded d d' : end_chunk d = Ok d' -> decoded d' = decoded d.
Proof.
  unfold end_chunk. destruct (verifier d), (chunk d) as [[]|]; intros H; try by simplify_eq.
  apply outcome_bind_ok in H as (v & _ & H). by simplify_eq.
Qed.

Lemma feed_total d b : snd (feed d b) <> Panic.
Proof.
  unfold feed. destruct (state d); cbn; repeat case_match; cbn; try done;
    try apply chunk_header_no_panic.
  match goal with |- set_state _ <$> end_chunk ?x <> _ => pose proof (end_chunk_no_panic x) end.
  by destruct (end_chunk _).
Qed.

Lemma feed_decoded d b o d' :
  is_u64 (decoded d) -> feed d b = (o, Ok d') ->
  decoded d' = wadd64 (decoded d) (lenZ o) /\ lenZ o <= 1.
Proof.
  intros Hu H. assert (Hz : decoded d = wadd64 (decoded d) (lenZ (A:=byte) [])).
  { change (lenZ []) with 0. unfold is_u64 in Hu. rewrite wadd64_small; lia. }
  unfold feed in H. destruct (state d) as [|due| | |].
  - case_match; simplify_eq. case_decide.
    + split; [|done]. rewrite (chunk_header_decoded _ _ H1). exact Hz.
    + simplify_eq. done.
  - injection H as <- H. split; [|done]. case_match; [|by simplify_eq].
    destruct (end_chunk _) as [d1| |] eqn:E; cbn in H; simplify_eq.
    apply (end_chunk_decoded _ _ E).
  - case_decide; by simplify_eq.
  - case_decide; by simplify_eq.
  - case_match; by simplify_eq.
Qed.

Lemma feed_all_total d input : snd (feed_all d input) <> Panic.
Proof.
  revert d. induction input as [|b input IH]; intros d; [done|]. rewrite feed_all_cons.
  pose proof (feed_total d b). destruct (feed d b) as [o [d1| |]]; cbn in *; try done.
  specialize (IH d1). by destruct (feed_all d1 input).
Qed.

Lemma feed_all_decoded d input o d' :
  is_u64 (decoded d) -> feed_all d input = (o, Ok d') ->
  decoded d' = wadd64 (decoded d) (lenZ o) /\ lenZ o <= lenZ input.
Proof.
  revert d o. induction input as [|b input IH]; intros d o Hu H.
  - cbn in H. simplify_eq. change (lenZ (A:=byte) []) with 0. unfold is_u64 in Hu.
    rewrite wadd64_small; lia.
  - rewrite feed_all_cons in H. destruct (feed d b) as [o1 [d1| |]] eqn:E; cbn in H; simplify_eq.
    destruct (feed_all d1 input) as [o2 r] eqn:E2. simplify_eq.
    destruct (feed_decoded _ _ _ _ Hu E) as [H1 Hl].
    destruct (IH d1 o2) as [H2 Hl2]; [rewrite H1; apply wrap64_u64|done|].
    rewrite H2, H1, wadd64_add, lenZ_app, lenZ_cons. split; [done|lia].
Qed.

(** ** Reading the streamed body *)

(** What a body decodes to, from what its bytes feed. *)
Definition judged (f : Framing) (x : bytes * outcome DecodeError Decoder)
    : outcome DecodeError (bytes * HeaderMap) :=
  match x with
  | (payload, Ok d) =>
    t ← finish d;
    if f_max f <? decoded d then Err (TooLarge (f_max f))
    else t ← accepted_trailers t (decoded d) (f_decoded f) (f_announced f) (f_trusted f);
         Ok (payload, t)
  | (_, Err e) => Err e
  | (_, Panic) => Panic
  end.

Lemma decode_judged f v raw : decode f v raw = judged f (feed_all (Decoder_new v) raw).
Proof.
  rewrite <- push_feed by apply new_decoder_wf. unfold decode.
  by destruct (push _ raw) as [pieces [d| |]].
Qed.

Lemma judged_too_large f o d r : f_max f < decoded d -> judged f (o, Ok d) <> Ok r.
Proof.
  intros Hm H. cbn in H. destruct (finish d); cbn in H; try done.
  by rewrite (proj2 (Z.ltb_lt _ _)) in H.
Qed.

Lemma judged_accept f o d :
  decoded d <= f_max f -> judged f (o, Ok d) = (t ← accept f d; Ok (o, t)).
Proof.
  intros Hm. unfold judged, accept. destruct (finish d); cbn; try done.
  by rewrite (proj2 (Z.ltb_ge _ _)).
Qed.

Lemma reads_poll b b' o r : poll_frame b = poll_frame b' -> reads b' o r -> reads b o r.
Proof.
  intros E H. inversion H; subst; rewrite <- E in *;
    [eapply reads_end|eapply reads_trailers|eapply reads_error|eapply reads_data]; eauto.
Qed.

Lemma reads_out frames d f ps tr o r :
  reads (mkBody frames d f [] tr) o r -> reads (mkBody frames d f ps tr) (concat ps ++ o) r.
Proof.
  intros H. induction ps as [|p ps IH]; [done|]. cbn [concat]. rewrite <- app_assoc.
  eapply reads_data; [|exact IH]. unfold poll_frame. cbn [inner]. by destruct frames.
Qed.

(** The end of the inner body. *)
Lemma reads_at_end d f :
  match accept f d with
  | Ok t => reads (mkBody [] (Some d) f [] None) [] (Ok t)
  | _ => exists e, reads (mkBody [] (Some d) f [] None) [] (Err e)
  end.
Proof.
  destruct (accept f d) as [t| |] eqn:E.
  - destruct (decide (t = ∅)) as [->|Ht].
    + eapply reads_end. unfold poll_frame. cbn. rewrite E. by rewrite decide_True by done.
    + eapply reads_trailers; [unfold poll_frame; cbn; rewrite E; by rewrite decide_False by done|].
      done.
  - eexists. eapply reads_error. unfold poll_frame. cbn. by rewrite E.
  - eexists. eapply reads_error. unfold poll_frame. cbn. by rewrite E.
Qed.

Definition agrees (x : outcome DecodeError (bytes * HeaderMap)) (o : bytes)
    (r : outcome (option DecodeError) HeaderMap) : Prop :=
  match x with Ok (payload, t) => o = payload /\ r = Ok t | _ => exists e, r = Err e end.

Lemma agrees_not_ok x o e : (forall r, x <> Ok r) -> agrees x o (Err e).
Proof. destruct x as [[]| |]; cbn; eauto. intros H. by destruct (H _ eq_refl). Qed.

Lemma agrees_prepend f p x o r :
  agrees (judged f x) o r -> agrees (judged f (prepend p x)) (p ++ o) r.
Proof.
  destruct x as [q [d| |]]; cbn; [|done|done].
  destruct (finish d); cbn; try done. destruct (_ <? _); [done|].
  destruct (accepted_trailers _ _ _ _ _); cbn; try done. by intros [-> ->].
Qed.

Lemma reads_streamed f pieces d :
  wf d -> is_u64 (decoded d) -> decoded d + lenZ (concat pieces) < two64 -> decoded d <= f_max f ->
  exists o r, reads (mkBody (map FData pieces) (Some d) f [] None) o r /\
    agrees (judged f (feed_all d (concat pieces))) o r.
Proof.
  revert d. induction pieces as [|p pieces IH]; intros d Hw Hu Hn Hm.
  - cbn [map concat feed_all]. rewrite judged_accept by done. pose proof (reads_at_end d f) as H.
    destruct (accept f d) as [t| |]; cbn; [eauto 8| |];
      destruct H as [x H]; exists [], (Err x); eauto.
  - cbn [map concat]. rewrite feed_all_app. pose proof (push_feed d p Hw) as Hp.
    assert (Hpoll : poll_frame (mkBody (FData p :: map FData pieces) (Some d) f [] None) =
      match push d p with
      | (ps, Ok d1) =>
        if f_max f <? decoded d1 then
          fail (TooLarge (f_max f)) (map FData pieces) (mkBody (FData p :: map FData pieces) (Some d) f [] None)
        else poll_frame (mkBody (map FData pieces) (Some d1) f ps None)
      | (_, Err e) => fail e (map FData pieces) (mkBody (FData p :: map FData pieces) (Some d) f [] None)
      | (_, Panic) => fail (Malformed NoTerminalChunk) (map FData pieces)
                        (mkBody (FData p :: map FData pieces) (Some d) f [] None)
      end) by done.
    destruct (push d p) as [ps [d1| |]]; unfold flat in Hp; cbn [fst snd] in Hp; rewrite <- Hp in *.
    2,3: eexists [], _; split; [eapply reads_error; rewrite Hpoll; reflexivity|by apply agrees_not_ok].
    destruct (feed_all_decoded _ _ _ _ Hu (eq_sym Hp)) as [Hd1 Hl].
    cbn [concat] in Hn. rewrite lenZ_app in Hn. unfold is_u64 in Hu.
    pose proof (lenZ_nonneg (concat pieces)). pose proof (lenZ_nonneg (concat ps)).
    rewrite wadd64_small in Hd1 by lia. cbn [andthen].
    destruct (Z.ltb_spec (f_max f) (decoded d1)) as [Hbig|Hbig].
    + eexists [], _. split; [eapply reads_error; rewrite Hpoll; reflexivity|].
      apply agrees_not_ok. intros r.
      destruct (feed_all d1 (concat pieces)) as [o2 [d2| |]] eqn:E2; try done.
      destruct (feed_all_decoded d1 (concat pieces) o2 d2) as [H2 Hl2]; [unfold is_u64; lia|done|].
      pose proof (lenZ_nonneg o2). rewrite wadd64_small in H2 by lia.
      apply judged_too_large. lia.
    + destruct (IH d1) as (o & r & Hr & Ha); [by eapply feed_all_wf|unfold is_u64; lia|lia|done|].
      exists (concat ps ++ o), r. split.
      * eapply reads_poll; [exact Hpoll|]. by apply reads_out.
      * apply (agrees_prepend _ (concat ps)) in Ha. unfold prepend in Ha.
        by destruct (feed_all d1 (concat pieces)).
Qed.

(** ** The decoder's contract *)

(** C40. Feeding a body in any pieces hands on the same payload and ends in the
    same decoder or the same error as feeding it whole; the loop always
    ends. *)
Theorem push_in_pieces (v : option ChunkVerifier) (pieces : list bytes) :
  flat (push_all (Decoder_new v) pieces) = flat (push (Decoder_new v) (concat pieces)) /\
  snd (push (Decoder_new v) (concat pieces)) <> Panic.
Proof.
  pose proof (push_feed (Decoder_new v) (concat pieces) (new_decoder_wf v)) as Hp.
  split; [by rewrite push_all_feed, Hp|].
  pose proof (feed_all_total (Decoder_new v) (concat pieces)) as Ht. by rewrite <- Hp in Ht.
Qed.

(** C39. A body is accepted exactly when it is framed: chunks of the declared
    sizes with their CRLFs, a terminal chunk and trailers, and, with a
    verifier, every chunk's signature the HMAC of the one before it and of
    that chunk's data, and the trailers' of them. The payload is the chunks'
    data. *)
Theorem decode_accepts_framed (v : option ChunkVerifier) (raw payload : bytes)
    (ts : list (string * string)) :
  (exists pieces d, push (Decoder_new v) raw = (pieces, Ok d) /\ concat pieces = payload /\
     finish d = Ok ts) <->
  (exists v' tr, framed v raw payload v' tr /\ trailers_signed v' tr /\ ts = parse_trailers tr).
Proof.
  pose proof (push_feed (Decoder_new v) raw (new_decoder_wf v)) as Hp.
  change (Decoder_new v) with (between v 0) in *.
  assert (Hfin : forall v' tr n, finish (ended v' tr n) = Ok ts <->
    trailers_signed v' tr /\ ts = parse_trailers tr).
  { intros v' tr n. unfold finish, trailers_signed. cbn. destruct v' as [w|]; [|naive_solver].
    destruct (signs_trailer w); [|naive_solver].
    destruct (verify_trailers _ _ _); cbn; naive_solver. }
  assert (Hfr : forall v' tr, framed v raw payload v' tr ->
    feed_all (between v 0) raw = (payload, Ok (ended v' tr (wadd64 0 (lenZ payload))))).
  { intros v' tr H. by apply framed_feed. }
  split.
  - intros (pieces & d & Hpush & Hc & Hf). rewrite Hpush in Hp. cbn in Hp.
    unfold flat in Hp. cbn [fst snd] in Hp. rewrite Hc in Hp.
    assert (Hst : state d = Trailers) by (unfold finish in Hf; by destruct (state d)).
    destruct (feed_framed (length raw) v 0 raw payload d) as (v' & tr & H); [lia|done|done|].
    exists v', tr. split; [done|]. rewrite (Hfr _ _ H) in Hp. simplify_eq. by apply Hfin in Hf.
  - intros (v' & tr & H & Hs). rewrite (Hfr _ _ H) in Hp.
    destruct (push (between v 0) raw) as [pieces r]. unfold flat in Hp. cbn in Hp. simplify_eq.
    eexists _, _. split; [done|]. split; [done|]. by apply Hfin.
Qed.

(** A streamed body, whatever pieces it arrives in, gives its reader the
    payload and the trailers that decoding it whole gives, and ends in an
    error exactly when decoding it whole fails. *)
Theorem streamed_body_agrees (f : Framing) (v : option ChunkVerifier) (pieces : list bytes) :
  lenZ (concat pieces) < two64 -> 0 <= f_max f ->
  exists o r, reads (streamed f v pieces) o r /\
    match decode f v (concat pieces) with
    | Ok (payload, t) => o = payload /\ r = Ok t
    | _ => exists e, r = Err e
    end.
Proof.
  intros Hl Hm. rewrite decode_judged.
  by apply (reads_streamed f pieces (Decoder_new v)).
Qed.

End decoder.

(** ** Examples *)
Definition ex_crypto : Crypto :=
  {| hex_sha256 := fun b => of_bytes b;
     hex_hmac_sha256 := fun _ b => if Nat.even (length b) then "aa"%string else "bb"%string |}.
Definition ex_http : Http := {| header_name := Some; header_value := Some |}.
Definition ex_verifier : ChunkVerifier :=
  ChunkVerifier_new (mkSeed [] "20130524T000000Z" "scope" "cc") false.
Definition ex_framing : Framing := mkFraming (Some 5) [] true 1000.

Definition crlf (s : string) : bytes := as_bytes s ++ [CR; LF].
Definition ex_body : list bytes :=
  [crlf "5;chunk-signature=bb"; as_bytes "hel"; crlf "lo"; crlf "0;chunk-signature=aa"; crlf ""].

Example ex_body_decodes :
  @decode ex_crypto ex_http ex_framing (Some ex_verifier) (concat ex_body) =
  Ok (as_bytes "hello", ∅).
Proof. vm_compute. reflexivity. Qed.

Lemma streamed_body_agrees_witness :
  exists o r, @reads ex_crypto ex_http
      (streamed ex_framing (Some ex_verifier) ex_body) o r /\
    o = as_bytes "hello" /\ r = Ok ∅.
Proof.
  destruct (@streamed_body_agrees ex_crypto ex_http ex_framing (Some ex_verifier) ex_body)
    as (o & r & Hr & H); [by vm_compute|by vm_compute|].
  exists o, r. split; [exact Hr|]. by rewrite ex_body_decodes in H.
Defined.

End ChunkedDecode.
