(* ===== verification/RaftLog.v ===== *)
(** * The Raft log of the metadata service

    crates/meta-store/src/raft_log.rs: segments of checksummed records, the
    indexes of sealed segments, append, truncate, purge and open. The
    directory is a value: the segment files and index files by their first
    index, and the two markers. How the disk answers a write or a sync is an
    argument; a failed removal, rename or directory sync, which stops the
    node, is not modelled. *)

From S2P Require Import Prelude Bytes StdText Crc LogTail.

Module RaftLog.

Definition SEGMENT_BYTES : Z := 2 ^ 26.
Definition HEADER : Z := 24.
Definition SECTOR : Z := 512.
Definition MAX_ENTRY : Z := 2 ^ 28.
Definition INDEX_MAGIC : bytes := as_bytes "OBIOIDX1".
Definition INDEX_HEADER : Z := 40.
Definition INDEX_RECORD : Z := 12.

(** Why an operation failed; [full] is the filesystem out of room. *)
Inductive LogError : Type :=
| Io (full : bool)
| Corrupt (offset : Z)
| Misuse.

Record Segment : Type := mkSegment { seg_first : Z; seg_len : Z }.
Record Pos : Type := mkPos { p_segment : nat; p_offset : Z; p_len : Z; p_term : Z }.

Record Dir : Type := mkDir {
  logs : gmap Z bytes;
  idxs : gmap Z bytes;
  purged_file : option bytes;
  committed_file : option bytes;
}.

Record RaftLog : Type := mkLog {
  dir : Dir;
  segments : list Segment;
  positions : list Pos;
  first : Z;
}.

Definition set_logs (l : gmap Z bytes) (d : Dir) : Dir :=
  mkDir l (idxs d) (purged_file d) (committed_file d).
Definition set_idxs (i : gmap Z bytes) (d : Dir) : Dir :=
  mkDir (logs d) i (purged_file d) (committed_file d).
Definition set_dir (d : Dir) (l : RaftLog) : RaftLog :=
  mkLog d (segments l) (positions l) (first l).

(** A little-endian field of [n] bytes at [at_]; [0] past the end, which the
    callers rule out. *)
Definition le_at (n : nat) (at_ : Z) (b : bytes) : Z :=
  from_le (take n (drop (Z.to_nat at_) b)).

(** A record without its index: its term and entry. *)
Abbreviation rec := (Z * bytes)%type.

Section log.
Context {CRC : Crc32c}.

Definition checksum (index term : Z) (entry : bytes) : Z :=
  crc32c (to_le 8 index ++ to_le 8 term ++ entry).

Definition record_bytes (index term : Z) (entry : bytes) : bytes :=
  to_le 4 (lenZ entry) ++ to_le 4 (checksum index term entry)
  ++ to_le 8 index ++ to_le 8 term ++ entry.

(** ** The index of a sealed segment *)
Definition encode_record (p : Pos) : bytes := to_le 4 (p_len p) ++ to_le 8 (p_term p).

Definition index_body (len first_index : Z) (records : list Pos) : bytes :=
  INDEX_MAGIC ++ to_le 8 len ++ to_le 8 first_index
  ++ to_le 8 (match records with p :: _ => p_offset p | [] => 0 end)
  ++ to_le 8 (lenZ records) ++ concat (map encode_record records).

Definition encode_index (len first_index : Z) (records : list Pos) : bytes :=
  let b := index_body len first_index records in b ++ to_le 4 (crc32c b).

(** [count] records of an index's body. *)
Fixpoint decode_records (count : nat) (b : bytes) (segment : nat) (offset : Z)
    : option (list Pos * Z) :=
  match count with
  | O => Some ([], offset)
  | S count =>
    let len := le_at 4 0 b in
    let term := le_at 8 4 b in
    if MAX_ENTRY <? len then None
    else
      next ← checked_add64 offset (HEADER + len);
      '(ps, end_) ← decode_records count (drop (Z.to_nat INDEX_RECORD) b) segment next;
      Some (mkPos segment offset len term :: ps, end_)
  end.

Definition decode_index (b : bytes) (segment : nat) (len : Z) : option (Z * list Pos) :=
  if lenZ b <? 4 then None
  else
    let body := take (length b - 4) b in
    if (lenZ body <? INDEX_HEADER) || negb (bool_decide (take 8 body = INDEX_MAGIC)) then None
    else if negb (crc32c body =? from_le (drop (length b - 4) b)) then None
    else if negb (le_at 8 8 body =? len) then None
    else
      let count := le_at 8 32 body in
      if negb (lenZ body =? INDEX_HEADER + count * INDEX_RECORD) then None
      else
        '(ps, end_) ← decode_records (Z.to_nat count) (drop (Z.to_nat INDEX_HEADER) body)
                        segment (le_at 8 24 body);
        if (0 <? count) && (end_ =? len) then Some (le_at 8 16 body, ps) else None.

(** ** Telling a torn record *)

(** The loop of [never_written]; each round moves [start] on by at least
    one byte. *)
Fixpoint never_written_loop (fuel : nat) (data : bytes) (start to_ : Z) : bool :=
  match fuel with
  | O => false
  | S fuel =>
    if start <? to_ then
      let end_ := Z.min ((start / SECTOR + 1) * SECTOR) to_ in
      if forallb (fun b => bval b =? 0) (take (Z.to_nat (end_ - start)) (drop (Z.to_nat start) data))
      then true else never_written_loop fuel data end_ to_
    else false
  end.
Definition never_written (data : bytes) (from to_ : Z) : bool :=
  never_written_loop (Z.to_nat (to_ - from)) data from to_.

Definition record_probe (len expect : Z) (at_ : Z) (head : bytes) : option Z :=
  if lenZ head <? HEADER then None
  else
    let entry_len := le_at 4 0 head in
    let index := le_at 8 8 head in
    let most := saturating_add64 expect ((len - at_) / HEADER) in
    if (entry_len <=? MAX_ENTRY) && (expect <=? index) && (index <=? most)
    then Some (HEADER + entry_len) else None.

Definition record_whole (at_ : Z) (record : bytes) : option Z :=
  let crc := le_at 4 4 record in
  let index := le_at 8 8 record in
  let term := le_at 8 16 record in
  if checksum index term (drop (Z.to_nat HEADER) record) =? crc then Some index else None.

Definition whole_record_after (data : bytes) (bad expect : Z) : option (Z * Z) :=
  let len := lenZ data in
  match LogTail.whole_record_after HEADER (record_probe len expect) record_whole data bad len with
  | Ok r => r
  | _ => None
  end.

Definition torn (last : bool) (data : bytes) (offset expect : Z) : outcome LogError () :=
  if negb last then Err (Corrupt offset)
  else match whole_record_after data offset expect with
       | None => Ok ()
       | Some _ => Err (Corrupt offset)
       end.

(** ** Opening *)

(** The loop of [load_segment]: the positions read, and how much of the file
    is good. Every record takes at least [HEADER] bytes. *)
Fixpoint load_loop (fuel : nat) (last : bool) (data : bytes) (segment : nat) (offset expect : Z)
    : outcome LogError (list Pos * Z) :=
  match fuel with
  | O => Ok ([], offset)
  | S fuel =>
    if offset <? lenZ data then
      let rest := drop (Z.to_nat offset) data in
      if lenZ rest <? HEADER then _ ← torn last data offset expect; Ok ([], offset)
      else
        let len := le_at 4 0 rest in
        let crc := le_at 4 4 rest in
        let index := le_at 8 8 rest in
        let term := le_at 8 16 rest in
        let end_ := HEADER + len in
        if (MAX_ENTRY <? len) || (lenZ rest <? end_) then
          _ ← torn last data offset expect; Ok ([], offset)
        else
          let entry := take (Z.to_nat len) (drop (Z.to_nat HEADER) rest) in
          if negb (checksum index term entry =? crc) then
            if last && ((offset + end_ =? lenZ data) || never_written data offset (offset + end_))
            then _ ← torn last data offset expect; Ok ([], offset)
            else Err (Corrupt offset)
          else if negb (index =? expect) then Err (Corrupt offset)
          else
            '(ps, good) ← load_loop fuel last data segment (offset + end_) (expect + 1);
            Ok (mkPos segment offset len term :: ps, good)
    else Ok ([], lenZ data)
  end.

Definition next_index (l : RaftLog) : option Z :=
  match positions l with [] => None | _ => Some (first l + lenZ (positions l)) end.

Definition in_segment (k : nat) (p : Pos) : bool := bool_decide (p_segment p = k).

(** How many of the last positions are in segment [k]. *)
Fixpoint held_in (k : nat) (rev_positions : list Pos) : nat :=
  match rev_positions with
  | p :: rest => if in_segment k p then S (held_in k rest) else O
  | [] => O
  end.

Definition write_index (k : nat) (l : RaftLog) : RaftLog :=
  let held := held_in k (rev (positions l)) in
  match held, segments l !! k with
  | S _, Some seg =>
    let skip := (length (positions l) - held)%nat in
    let bytes := encode_index (seg_len seg) (first l + Z.of_nat skip) (drop skip (positions l)) in
    set_dir (set_idxs (<[seg_first seg := bytes]> (idxs (dir l))) (dir l)) l
  | _, _ => l
  end.

Definition extend (ps : list Pos) (at_ : Z) (l : RaftLog) : RaftLog :=
  mkLog (dir l) (segments l) (positions l ++ ps)
    (match positions l, ps with [], _ :: _ => at_ | _, _ => first l end).

Definition push_segment (s : Segment) (l : RaftLog) : RaftLog :=
  mkLog (dir l) (segments l ++ [s]) (positions l) (first l).

(** A sealed segment taken from its index, if that carries on the log. *)
Definition from_index (f len : Z) (l : RaftLog) : option RaftLog :=
  b ← idxs (dir l) !! f;
  '(first_index, ps) ← decode_index b (length (segments l)) len;
  let follows := match next_index l with
                 | Some next => first_index =? next
                 | None => f <=? first_index
                 end in
  if follows then Some (push_segment (mkSegment f len) (extend ps first_index l)) else None.

Definition read_segment (f : Z) (last : bool) (data : bytes) (l : RaftLog)
    : outcome LogError RaftLog :=
  let segment := length (segments l) in
  _ ← match next_index l with
      | Some next => if negb (f =? next) then Err (Corrupt 0) else Ok ()
      | None => Ok ()
      end;
  '(ps, good) ← load_loop (length data) last data segment 0 f;
  let d := if good <? lenZ data
           then set_logs (<[f := take (Z.to_nat good) data]> (logs (dir l))) (dir l) else dir l in
  let l := push_segment (mkSegment f good) (extend ps f (set_dir d l)) in
  Ok (if last then l else write_index segment l).

Definition load_segment (f : Z) (last : bool) (l : RaftLog) : outcome LogError RaftLog :=
  data ← ok_or (logs (dir l) !! f) (Io false);
  match (if last then None else from_index f (lenZ data) l) with
  | Some l => Ok l
  | None => read_segment f last data l
  end.

(** The loop of [forget_upto]: one round per position dropped. *)
Fixpoint forget_loop (index : Z) (ps : list Pos) (first : Z) : list Pos * Z :=
  match ps with
  | p :: ps' => if first <=? index then forget_loop index ps' (first + 1) else (ps, first)
  | [] => ([], first)
  end.

Definition forget_upto (index : Z) (l : RaftLog) : RaftLog :=
  let '(ps, f) := forget_loop index (positions l) (first l) in
  mkLog (dir l) (segments l) ps (match ps with [] => index + 1 | _ => f end).

Fixpoint load_segments (firsts : list Z) (purged : option Z) (l : RaftLog)
    : outcome LogError RaftLog :=
  match firsts with
  | [] => Ok l
  | f :: rest =>
    l ← load_segment f (bool_decide (rest = [])) l;
    load_segments rest purged (match purged with Some p => forget_upto p l | None => l end)
  end.

(** The [purged] marker: the index in decimal, a newline, the caller's
    bytes. *)
Fixpoint split_newline (b : bytes) : option (bytes * bytes) :=
  match b with
  | [] => None
  | x :: b' => if decide (x = Byte.x0a) then Some ([], b')
               else '(l, r) ← split_newline b'; Some (x :: l, r)
  end.

Definition parse_purged (b : bytes) : outcome LogError (Z * bytes) :=
  match (o ← split_newline b; s ← from_utf8 (fst o); i ← parse_int 10 0 u64_max (chars s);
         Some (i, snd o)) with
  | Some r => Ok r
  | None => Err (Corrupt 0)
  end.

Definition sorted_firsts (d : Dir) : list Z := merge_sort Z.le (elements (dom (logs d))).

Definition open (d : Dir) : outcome LogError RaftLog :=
  purged ← match purged_file d with
           | Some b => '(i, _) ← parse_purged b; Ok (Some i)
           | None => Ok None
           end;
  load_segments (sorted_firsts d) purged (mkLog d [] [] 0).

(** Whether a directory holds a log. *)
Definition exists_ (d : Dir) : bool :=
  negb (bool_decide (logs d = ∅)) || bool_decide (is_Some (purged_file d)).

(** ** Reading *)
Definition range (l : RaftLog) : option (Z * Z) :=
  next ← next_index l; Some (first l, next - 1).

Definition pos (index : Z) (l : RaftLog) : option Pos :=
  if index <? first l then None else positions l !! Z.to_nat (index - first l).

Definition term_of (index : Z) (l : RaftLog) : option Z := p_term <$> pos index l.

Definition read_one (index : Z) (p : Pos) (l : RaftLog) : outcome LogError bytes :=
  seg ← or_panic (segments l !! p_segment p);
  data ← ok_or (logs (dir l) !! seg_first seg) (Io false);
  buf ← ok_or (slice (Z.to_nat (p_offset p)) (Z.to_nat (HEADER + p_len p)) data) (Io false);
  let entry := drop (Z.to_nat HEADER) buf in
  if negb (checksum index (p_term p) entry =? le_at 4 4 buf) then Err (Corrupt (p_offset p))
  else Ok entry.

Fixpoint read_loop (indexes : list Z) (l : RaftLog) : outcome LogError (list bytes) :=
  match indexes with
  | [] => Ok []
  | index :: rest =>
    match pos index l with
    | None => Ok []
    | Some p => e ← read_one index p l; es ← read_loop rest l; Ok (e :: es)
    end
  end.

Definition read (from to_ : Z) (l : RaftLog) : outcome LogError (list bytes) :=
  read_loop (rangeZ (Z.max from (first l)) to_) l.

(** ** Appending *)

(** How the write of an append ends: whole, or after [n] bytes with an error
    that is or is not the filesystem out of room; and whether what it left
    could be cut off. *)
Inductive write_result : Type :=
| WDone
| WFailed (n : nat) (full : bool) (cut : bool).

Definition entry_record : Type := Z * Z * bytes.

(** The loop that lays the records out, from [base]. *)
Fixpoint lay_out (segment : nat) (base expect : Z) (records : list entry_record)
    : outcome LogError (list Pos * bytes) :=
  match records with
  | [] => Ok ([], [])
  | (index, term, entry) :: rest =>
    if negb (index =? expect) then Err Misuse
    else if MAX_ENTRY <? lenZ entry then Err Misuse
    else
      let r := record_bytes index term entry in
      '(ps, buf) ← lay_out segment (base + lenZ r) (expect + 1) rest;
      Ok (mkPos segment base (lenZ entry) term :: ps, r ++ buf)
  end.

Definition start_segment (f : Z) (l : RaftLog) : RaftLog :=
  push_segment (mkSegment f 0)
    (set_dir (set_logs (<[f := []]> (logs (dir l))) (set_idxs (delete f (idxs (dir l))) (dir l))) l).

Definition write_at (data buf : bytes) (at_ : Z) : bytes :=
  take (Z.to_nat at_) data ++ buf ++ drop (Z.to_nat at_ + length buf) data.

Definition put_file (f : Z) (data : bytes) (l : RaftLog) : RaftLog :=
  set_dir (set_logs (<[f := data]> (logs (dir l))) (dir l)) l.

(** [append_failed]; the last segment is [seg], the write left [data]. *)
Definition append_failed (seg : Segment) (data : bytes) (base : Z) (new_segment full cut : bool)
    (l : RaftLog) : RaftLog * outcome LogError () :=
  let l := put_file (seg_first seg) data l in
  if negb full then (l, Err (Io false))
  else if new_segment then
    let l := mkLog (dir l) (removelast (segments l)) (positions l) (first l) in
    if cut then (set_dir (set_logs (delete (seg_first seg) (logs (dir l))) (dir l)) l, Err (Io true))
    else (l, Err (Io false))
  else if cut then (put_file (seg_first seg) (take (Z.to_nat base) data) l, Err (Io true))
       else (l, Err (Io false)).

Definition needs_segment (l : RaftLog) : bool :=
  match last (segments l) with
  | None => true
  | Some s => (SEGMENT_BYTES <=? seg_len s)
              || (bool_decide (positions l = []) && (0 <? seg_len s))
  end.

(** The records written at the end of the last segment. *)
Definition append_last (w : write_result) (sync : bool) (first_new : Z)
    (records : list entry_record) (new_segment : bool) (l : RaftLog)
    : RaftLog * outcome LogError () :=
  match last (segments l) with
  | None => (l, Panic)
  | Some seg =>
    let segment := (length (segments l) - 1)%nat in
    let base := seg_len seg in
    match lay_out segment base first_new records with
    | Err e => (l, Err e)
    | Panic => (l, Panic)
    | Ok (ps, buf) =>
      let data := default [] (logs (dir l) !! seg_first seg) in
      match w with
      | WFailed n full cut =>
        append_failed seg (write_at data (take n buf) base) base new_segment full cut l
      | WDone =>
        let l := put_file (seg_first seg) (write_at data buf base) l in
        if negb sync then (l, Err (Io false))
        else
          (extend ps first_new
             (mkLog (dir l) (removelast (segments l) ++ [mkSegment (seg_first seg) (base + lenZ buf)])
                (positions l) (first l)), Ok ())
      end
    end
  end.

Definition append (w : write_result) (sync : bool) (records : list entry_record) (l : RaftLog)
    : RaftLog * outcome LogError () :=
  match records with
  | [] => (l, Ok ())
  | (first_new, _, _) :: _ =>
    if match next_index l with Some next => negb (first_new =? next) | None => false end
    then (l, Err Misuse)
    else
      let new_segment := needs_segment l in
      let l := if new_segment
               then start_segment first_new
                      (match length (segments l) with S k => write_index k l | O => l end)
               else l in
      append_last w sync first_new records new_segment l
  end.

(** ** Cutting the log *)
Definition remove_file (f : Z) (d : Dir) : Dir :=
  set_logs (delete f (logs d)) (set_idxs (delete f (idxs d)) d).

Definition remove_files (fs : list Z) (d : Dir) : Dir := foldr remove_file d fs.

(** [truncate_from]: later segments go whole, the one holding [index] is cut
    there, or goes too if [index] is its first record. *)
Definition truncate_from (index : Z) (l : RaftLog) : outcome LogError RaftLog :=
  match pos index l with
  | None => Ok l
  | Some p =>
    let ps := take (Z.to_nat (index - first l)) (positions l) in
    let later := drop (S (p_segment p)) (segments l) in
    let d := remove_files (map seg_first later) (dir l) in
    seg ← or_panic (segments l !! p_segment p);
    let d := set_idxs (delete (seg_first seg) (idxs d)) d in
    let kept := take (p_segment p) (segments l) in
    if (p_offset p =? 0) && (seg_first seg =? index) then
      Ok (mkLog (set_logs (delete (seg_first seg) (logs d)) d) kept ps (first l))
    else
      let data := default [] (logs d !! seg_first seg) in
      Ok (mkLog (set_logs (<[seg_first seg := take (Z.to_nat (p_offset p)) data]> (logs d)) d)
            (kept ++ [mkSegment (seg_first seg) (p_offset p)]) ps (first l))
  end.

Definition lower_segment (p : Pos) : Pos :=
  mkPos (p_segment p - 1) (p_offset p) (p_len p) (p_term p).

(** The loop of [purge_upto], one round per segment removed. *)
Fixpoint purge_loop (index : Z) (segs : list Segment) (ps : list Pos) (d : Dir)
    : list Segment * list Pos * Dir :=
  match segs with
  | [] => ([], ps, d)
  | seg :: rest =>
    let whole := match rest with
                 | next :: _ => seg_first next <=? index + 1
                 | [] => bool_decide (ps = [])
                 end in
    if whole then purge_loop index rest (map lower_segment ps) (remove_file (seg_first seg) d)
    else (segs, ps, d)
  end.

Definition purge_upto (index : Z) (l : RaftLog) : RaftLog :=
  let l := forget_upto index l in
  let '(segs, ps, d) := purge_loop index (segments l) (positions l) (dir l) in
  mkLog d segs ps (first l).

(** ** Markers *)
Definition purge_marker (index : Z) (caller : bytes) : bytes :=
  as_bytes (show_u64 index) ++ Byte.x0a :: caller.

Definition record_purge (index : Z) (caller : bytes) (l : RaftLog) : RaftLog :=
  let d := dir l in
  set_dir (mkDir (logs d) (idxs d) (Some (purge_marker index caller)) (committed_file d)) l.

Definition purged (l : RaftLog) : outcome LogError (option bytes) :=
  match purged_file (dir l) with
  | Some b => '(_, c) ← parse_purged b; Ok (Some c)
  | None => Ok None
  end.

Definition save_committed (caller : bytes) (l : RaftLog) : RaftLog :=
  let d := dir l in set_dir (mkDir (logs d) (idxs d) (purged_file d) (Some caller)) l.
Definition committed (l : RaftLog) : option bytes := committed_file (dir l).

Definition clear (l : RaftLog) : RaftLog :=
  let d := remove_files (map seg_first (segments l)) (dir l) in
  mkLog (mkDir (logs d) (idxs d) None None) [] [] 0.


(** ** Records read back *)
Lemma le_at_app n at_ pre z rest :
  lenZ pre = at_ -> 0 <= z < 2 ^ (Z.of_nat n * 8) -> le_at n at_ (pre ++ to_le n z ++ rest) = z.
Proof.
  intros <- Hz. unfold le_at, lenZ. rewrite Nat2Z.id, drop_app_length.
  rewrite take_app_le, take_ge by (rewrite to_le_length; lia). by apply from_to_le.
Qed.

Lemma record_bytes_length i t e : lenZ (record_bytes i t e) = HEADER + lenZ e.
Proof. unfold record_bytes. rewrite !lenZ_app, !lenZ_to_le. unfold HEADER. lia. Qed.

Lemma checksum_u32 i t e : 0 <= checksum i t e < 2 ^ 32.
Proof. apply crc32c_u32. Qed.

(** What a reader finds at a record's start. *)
Lemma record_fields i t e rest :
  is_u64 i -> is_u64 t -> lenZ e <= MAX_ENTRY ->
  le_at 4 0 (record_bytes i t e ++ rest) = lenZ e /\
  le_at 4 4 (record_bytes i t e ++ rest) = checksum i t e /\
  le_at 8 8 (record_bytes i t e ++ rest) = i /\
  le_at 8 16 (record_bytes i t e ++ rest) = t /\
  take (Z.to_nat (lenZ e)) (drop (Z.to_nat HEADER) (record_bytes i t e ++ rest)) = e.
Proof.
  unfold is_u64, two64, MAX_ENTRY. intros Hi Ht He. pose proof (lenZ_nonneg e).
  pose proof (checksum_u32 i t e). unfold record_bytes.
  assert (drop (Z.to_nat HEADER) (record_bytes i t e ++ rest) = e ++ rest) as Hd.
  { unfold record_bytes. rewrite !(assoc (++)), <- (assoc (++) _ e rest).
    apply drop_app_length'. rewrite !length_app, !to_le_length. done. }
  unfold record_bytes in Hd. rewrite Hd.
  assert (take (Z.to_nat (lenZ e)) (e ++ rest) = e) as ->
    by (unfold lenZ; by rewrite Nat2Z.id, take_app_length).
  rewrite <- !(assoc (++)). split_and!; [..|done].
  - apply (le_at_app 4 0 []); [done|lia].
  - apply (le_at_app 4); [by rewrite lenZ_to_le|lia].
  - rewrite (assoc (++) (to_le 4 _)). apply (le_at_app 8); [by rewrite lenZ_app, !lenZ_to_le|lia].
  - rewrite (assoc (++) (to_le 4 _)), (assoc (++) (to_le 4 _ ++ _)).
    apply (le_at_app 8); [by rewrite !lenZ_app, !lenZ_to_le|lia].
Qed.

Definition rec_ok (r : rec) : Prop := is_u64 (fst r) /\ lenZ (snd r) <= MAX_ENTRY.

(** The bytes of the records of a segment that starts at [f]. *)
Fixpoint seg_bytes (f : Z) (rs : list rec) : bytes :=
  match rs with
  | [] => []
  | (t, e) :: rs => record_bytes f t e ++ seg_bytes (f + 1) rs
  end.

Fixpoint size (rs : list rec) : Z :=
  match rs with [] => 0 | (_, e) :: rs => HEADER + lenZ e + size rs end.

Fixpoint pos_list (k : nat) (off : Z) (rs : list rec) : list Pos :=
  match rs with
  | [] => []
  | (t, e) :: rs => mkPos k off (lenZ e) t :: pos_list k (off + HEADER + lenZ e) rs
  end.

(** The records as [append] takes them. *)
Fixpoint numbered (f : Z) (rs : list rec) : list entry_record :=
  match rs with [] => [] | (t, e) :: rs => (f, t, e) :: numbered (f + 1) rs end.

Lemma seg_bytes_length f rs : lenZ (seg_bytes f rs) = size rs.
Proof.
  revert f. induction rs as [|[t e] rs IH]; intros f; [done|].
  cbn [seg_bytes size]. rewrite lenZ_app, record_bytes_length, IH. lia.
Qed.

Lemma size_nonneg rs : 0 <= size rs.
Proof. rewrite <- (seg_bytes_length 0). apply lenZ_nonneg. Qed.

Lemma size_app a b : size (a ++ b) = size a + size b.
Proof. induction a as [|[t e] a IH]; cbn [size app]; lia. Qed.

Lemma size_length rs : HEADER * lenZ rs <= size rs.
Proof.
  induction rs as [|[t e] rs IH]; [done|]. cbn [size]. unfold lenZ in *. cbn [length].
  unfold HEADER in *. lia.
Qed.

Lemma seg_bytes_app f a b : seg_bytes f (a ++ b) = seg_bytes f a ++ seg_bytes (f + lenZ a) b.
Proof.
  revert f. induction a as [|[t e] a IH]; intros f; cbn [seg_bytes app].
  - by rewrite Z.add_0_r.
  - rewrite IH, <- (assoc (++)). do 3 f_equal. unfold lenZ. cbn [length]. lia.
Qed.

Lemma pos_list_app k off a b : pos_list k off (a ++ b) = pos_list k off a ++ pos_list k (off + size a) b.
Proof.
  revert off. induction a as [|[t e] a IH]; intros off; cbn [pos_list app size].
  - by rewrite Z.add_0_r.
  - rewrite IH. do 3 f_equal. lia.
Qed.

Lemma pos_list_length k off rs : length (pos_list k off rs) = length rs.
Proof. revert off. induction rs as [|[t e] rs IH]; intros off; cbn; [done|]. by rewrite IH. Qed.

Lemma pos_list_lookup k off rs n :
  pos_list k off rs !! n =
  '(t, e) ← rs !! n; Some (mkPos k (off + size (take n rs)) (lenZ e) t).
Proof.
  revert off n. induction rs as [|[t e] rs IH]; intros off n; [done|].
  destruct n as [|n]; cbn; [by rewrite Z.add_0_r|]. rewrite IH.
  destruct (rs !! n) as [[t' e']|]; cbn; [|done]. do 2 f_equal. lia.
Qed.

Lemma pos_list_segment k off rs : Forall (fun p => p_segment p = k) (pos_list k off rs).
Proof. revert off. induction rs as [|[t e] rs IH]; intros off; cbn; constructor; auto. Qed.

Lemma numbered_app f a b : numbered f (a ++ b) = numbered f a ++ numbered (f + lenZ a) b.
Proof.
  revert f. induction a as [|[t e] a IH]; intros f; cbn [numbered app].
  - by rewrite Z.add_0_r.
  - rewrite IH. do 3 f_equal. unfold lenZ. cbn [length]. lia.
Qed.

(** ** Reading a segment *)
Lemma load_loop_end fuel last data k expect :
  load_loop fuel last data k (lenZ data) expect = Ok ([], lenZ data).
Proof. destruct fuel; cbn; [done|]. by rewrite Z.ltb_irrefl. Qed.

Lemma load_loop_record fuel last pre t e rest k f :
  is_u64 f -> rec_ok (t, e) ->
  load_loop (S fuel) last (pre ++ record_bytes f t e ++ rest) k (lenZ pre) f =
  '(ps, good) ← load_loop fuel last (pre ++ record_bytes f t e ++ rest) k
                  (lenZ pre + (HEADER + lenZ e)) (f + 1);
  Ok (mkPos k (lenZ pre) (lenZ e) t :: ps, good).
Proof.
  intros Hf [Ht He]. cbn [fst snd] in Ht, He.
  destruct (record_fields f t e rest Hf Ht He) as (E1 & E2 & E3 & E4 & E5).
  cbn [load_loop]. rewrite (drop_app_length' pre _ (Z.to_nat (lenZ pre))) by (unfold lenZ; lia).
  rewrite E1, E2, E3, E4, E5, !Z.eqb_refl.
  assert (lenZ (pre ++ record_bytes f t e ++ rest) = lenZ pre + (HEADER + lenZ e) + lenZ rest) as ->
    by (rewrite !lenZ_app, record_bytes_length; lia).
  assert (lenZ (record_bytes f t e ++ rest) = HEADER + lenZ e + lenZ rest) as ->
    by (rewrite lenZ_app, record_bytes_length; lia).
  pose proof (lenZ_nonneg e). pose proof (lenZ_nonneg rest).
  replace (lenZ pre <? _) with true by (unfold HEADER; lia).
  replace (HEADER + lenZ e + lenZ rest <? HEADER) with false by lia.
  replace (MAX_ENTRY <? lenZ e) with false by lia.
  replace (HEADER + lenZ e + lenZ rest <? HEADER + lenZ e) with false by lia. done.
Qed.

Lemma load_loop_records rs : forall fuel last pre rest k f,
  0 <= f -> f + lenZ rs <= two64 -> Forall rec_ok rs ->
  load_loop (length rs + fuel) last (pre ++ seg_bytes f rs ++ rest) k (lenZ pre) f =
  '(ps, good) ← load_loop fuel last (pre ++ seg_bytes f rs ++ rest) k
                  (lenZ pre + size rs) (f + lenZ rs);
  Ok (pos_list k (lenZ pre) rs ++ ps, good).
Proof.
  induction rs as [|[t e] rs IH]; intros fuel last pre rest k f Hf Hn Hok.
  { cbn [length seg_bytes size pos_list app Nat.add]. rewrite Z.add_0_r.
    change (lenZ []) with 0. rewrite Z.add_0_r.
    by destruct load_loop as [[? ?]| |]. }
  rewrite Forall_cons in Hok. destruct Hok as [Hr Hok].
  assert (lenZ ((t, e) :: rs) = 1 + lenZ rs) as El by (unfold lenZ; cbn [length]; lia).
  rewrite El in *. pose proof (lenZ_nonneg rs).
  cbn [length seg_bytes size pos_list Nat.add]. rewrite <- (assoc (++)).
  rewrite load_loop_record by (done || (unfold is_u64; lia)).
  assert (pre ++ record_bytes f t e ++ seg_bytes (f + 1) rs ++ rest =
          (pre ++ record_bytes f t e) ++ seg_bytes (f + 1) rs ++ rest) as Ea
    by (by rewrite <- (assoc (++))).
  assert (lenZ pre + (HEADER + lenZ e) = lenZ (pre ++ record_bytes f t e)) as Eo
    by (rewrite lenZ_app, record_bytes_length; lia).
  rewrite Ea, Eo, IH by (done || lia). rewrite <- Eo.
  replace (f + 1 + lenZ rs) with (f + (1 + lenZ rs)) by lia.
  replace (lenZ pre + (HEADER + lenZ e) + size rs) with (lenZ pre + (HEADER + lenZ e + size rs)) by lia.
  replace (lenZ pre + (HEADER + lenZ e)) with (lenZ pre + HEADER + lenZ e) by lia.
  by destruct load_loop as [[? ?]| |].
Qed.

(** A segment of whole records is read to its end. *)
Lemma load_loop_whole last k f rs :
  0 <= f -> f + lenZ rs <= two64 -> Forall rec_ok rs ->
  load_loop (length (seg_bytes f rs)) last (seg_bytes f rs) k 0 f = Ok (pos_list k 0 rs, size rs).
Proof.
  intros Hf Hn Hok. pose proof (size_length rs) as Hl. rewrite <- (seg_bytes_length f) in Hl.
  replace (length (seg_bytes f rs)) with
    (length rs + (length (seg_bytes f rs) - length rs))%nat
    by (unfold lenZ, HEADER in Hl; lia).
  pose proof (load_loop_records rs (length (seg_bytes f rs) - length rs) last [] [] k f Hf Hn Hok) as E.
  cbn [app] in E. rewrite app_nil_r in E. change (lenZ []) with 0 in E. rewrite E, Z.add_0_l.
  rewrite <- (seg_bytes_length f), load_loop_end. cbn. by rewrite app_nil_r.
Qed.

Lemma le_at_mid n at_ (pre x rest : bytes) :
  lenZ pre = at_ -> length x = n -> le_at n at_ (pre ++ x ++ rest) = from_le x.
Proof.
  intros <- <-. unfold le_at, lenZ. by rewrite Nat2Z.id, drop_app_length, take_app_length.
Qed.

Lemma split_at {A} n (l : list A) :
  (n <= length l)%nat -> exists a b, l = a ++ b /\ length a = n.
Proof. exists (take n l), (drop n l). rewrite take_drop, length_take. split; [done|lia]. Qed.

Lemma le_at_bound n at_ b : 0 <= le_at n at_ b < 2 ^ (8 * Z.of_nat n).
Proof.
  unfold le_at. pose proof (from_le_bound (take n (drop (Z.to_nat at_) b))) as H.
  split; [lia|]. eapply Z.lt_le_trans; [apply H|].
  apply Z.pow_le_mono_r; [lia|]. unfold lenZ. rewrite length_take. lia.
Qed.

(** Bytes whose checksum is right are a record. *)
Lemma record_inv rest len index term :
  len = le_at 4 0 rest -> index = le_at 8 8 rest -> term = le_at 8 16 rest ->
  HEADER + len <= lenZ rest ->
  let entry := take (Z.to_nat len) (drop (Z.to_nat HEADER) rest) in
  checksum index term entry = le_at 4 4 rest ->
  lenZ entry = len /\ is_u64 index /\ is_u64 term /\
  rest = record_bytes index term entry ++ drop (Z.to_nat (HEADER + len)) rest.
Proof.
  unfold HEADER. intros Hlen Hindex Hterm Hl.
  assert (0 <= len < 2 ^ 32) as Hb32.
  { subst len. apply (le_at_bound 4). }
  destruct (split_at 4 rest) as (a & r1 & -> & Ha); [unfold lenZ in Hl; lia|].
  destruct (split_at 4 r1) as (b & r2 & -> & Hb); [unfold lenZ in Hl; len|].
  destruct (split_at 8 r2) as (c & r3 & -> & Hc); [unfold lenZ in Hl; len|].
  destruct (split_at 8 r3) as (d & r4 & -> & Hd); [unfold lenZ in Hl; len|].
  destruct (split_at (Z.to_nat len) r4) as (e & r5 & -> & He); [unfold lenZ in Hl; len|].
  pose proof (le_at_mid 4 0 [] a (b ++ c ++ d ++ e ++ r5) eq_refl Ha) as E1.
  cbn [app] in E1. rewrite E1 in Hlen.
  rewrite (le_at_mid 4 4 a b) by (unfold lenZ; lia).
  rewrite (assoc (++) a), (le_at_mid 8 8 (a ++ b) c) in Hindex by (unfold lenZ; len).
  rewrite (assoc (++) a), (assoc (++) (a ++ b)), (le_at_mid 8 16 ((a ++ b) ++ c) d) in Hterm
    by (unfold lenZ; len).
  assert (drop (Z.to_nat 24) (a ++ b ++ c ++ d ++ e ++ r5) = e ++ r5) as ->.
  { rewrite !(assoc (++)), <- (assoc (++) _ e r5). apply drop_app_length'. len. }
  rewrite take_app_length' by done. intros Hck. cbn zeta.
  assert (lenZ e = len) as Hlen' by (unfold lenZ; lia).
  pose proof (from_le_bound c) as Bc. pose proof (from_le_bound d) as Bd.
  unfold lenZ in Bc, Bd. rewrite Hc, <- Hindex in Bc. rewrite Hd, <- Hterm in Bd.
  split_and!; [done|done|done|]. unfold record_bytes. rewrite Hlen', Hck, Hlen, Hindex, Hterm.
  rewrite !to_from_le by done. rewrite <- !(assoc (++)). do 5 f_equal.
  rewrite !(assoc (++)). symmetry. apply drop_app_length'.
  rewrite <- Hlen. len.
Qed.

(** What [load_loop] accepts is records, and what it stops before is cut. *)
Lemma load_loop_inv fuel : forall last data k off f ps good,
  0 <= off <= lenZ data ->
  load_loop fuel last data k off f = Ok (ps, good) ->
  exists rs, ps = pos_list k off rs /\ good = off + size rs /\ good <= lenZ data /\
    Forall rec_ok rs /\ (rs = [] \/ 0 <= f /\ f + lenZ rs <= two64) /\
    take (Z.to_nat good) data = take (Z.to_nat off) data ++ seg_bytes f rs.
Proof.
  assert (forall (data : bytes) k off f, 0 <= off <= lenZ data ->
    exists rs, [] = pos_list k off rs /\ off = off + size rs /\ off <= lenZ data /\
      Forall rec_ok rs /\ (rs = [] \/ 0 <= f /\ f + lenZ rs <= two64) /\
      take (Z.to_nat off) data = take (Z.to_nat off) data ++ seg_bytes f rs) as Hnil.
  { intros data k off f H. exists []. cbn. rewrite app_nil_r, Forall_nil. intuition lia. }
  induction fuel as [|fuel IH]; intros last data k off f ps good Hoff H; cbn [load_loop] in H.
  { simplify_eq. by apply Hnil. }
  destruct (Z.ltb_spec off (lenZ data)) as [Hlt|Hge].
  2:{ simplify_eq. assert (lenZ data = off) as <- by lia. by apply Hnil. }
  set (rest := drop (Z.to_nat off) data) in *.
  assert (lenZ rest = lenZ data - off) as Hrest by (unfold rest, lenZ in *; len).
  destruct (_ <? HEADER) in H; [inv_ok; simplify_eq; by apply Hnil|].
  case_if; [inv_ok; simplify_eq; by apply Hnil|].
  case_if; [case_if; inv_ok; simplify_eq; by apply Hnil|].
  case_if; [done|]. inv_ok.
  match goal with H : load_loop _ _ _ _ _ _ = Ok (?a, _) |- _ => rename H into Hl; rename a into ps' end.
  destruct (record_inv rest _ _ _ eq_refl eq_refl eq_refl) as (E1 & E2 & E3 & E4); [lia|done|].
  set (len := le_at 4 0 rest) in *. set (entry := take _ (drop (Z.to_nat HEADER) rest)) in *.
  pose proof (lenZ_nonneg entry). unfold HEADER in *.
  apply IH in Hl as (rs & -> & -> & Hg & Hok & Hi & Ht); [|lia].
  exists ((le_at 8 16 rest, entry) :: rs). cbn [pos_list size seg_bytes]. rewrite E1, lenZ_cons.
  split_and!; try done; try (unfold HEADER; lia).
  - f_equal. f_equal. unfold HEADER. lia.
  - constructor; [split; [done|cbn; unfold MAX_ENTRY in *; lia]|done].
  - right. unfold is_u64 in *. destruct Hi as [->|Hi]; [change (lenZ []) with 0|]; lia.
  - replace (off + (HEADER + len + size rs)) with (off + (24 + len) + size rs) by (unfold HEADER; lia).
    rewrite Ht, (assoc (++)). f_equal.
    assert (data = take (Z.to_nat off) data ++ rest) as Hd by (unfold rest; by rewrite take_drop).
    rewrite Hd at 1. rewrite take_app, length_take.
    rewrite (take_ge (take _ data)) by (rewrite length_take; lia). f_equal.
    rewrite E4 at 1. apply take_app_length'.
    pose proof (record_bytes_length (le_at 8 8 rest) (le_at 8 16 rest) entry) as El.
    unfold lenZ, HEADER in *. lia.
Qed.

(** ** The index round trip *)
Lemma encode_records_length k off rs :
  lenZ (concat (map encode_record (pos_list k off rs))) = INDEX_RECORD * lenZ rs.
Proof.
  revert off. induction rs as [|[t e] rs IH]; intros off; [done|].
  cbn [pos_list map concat]. rewrite lenZ_app, IH, lenZ_cons. unfold encode_record.
  rewrite lenZ_app, !lenZ_to_le. unfold INDEX_RECORD. lia.
Qed.

Lemma decode_records_encode k0 k rs : forall off,
  0 <= off -> off + size rs < two64 -> Forall rec_ok rs ->
  decode_records (length rs) (concat (map encode_record (pos_list k0 off rs))) k off =
  Some (pos_list k off rs, off + size rs).
Proof.
  induction rs as [|[t e] rs IH]; intros off Hoff Hs Hok; [cbn; by rewrite Z.add_0_r|].
  rewrite Forall_cons in Hok. destruct Hok as [[Ht He] Hok]. cbn [fst snd size] in *.
  pose proof (lenZ_nonneg e). pose proof (size_nonneg rs). unfold HEADER, MAX_ENTRY in *.
  cbn [length pos_list map concat decode_records].
  set (tl := concat _). unfold encode_record. cbn [p_len p_term].
  pose proof (le_at_app 4 0 [] (lenZ e) (to_le 8 t ++ tl) eq_refl ltac:(lia)) as E1.
  pose proof (le_at_app 8 4 (to_le 4 (lenZ e)) t tl (lenZ_to_le _ _) Ht) as E2.
  cbn [app] in E1. rewrite (assoc (++)) in E1, E2. rewrite E1, E2.
  unfold MAX_ENTRY. replace (2 ^ 28 <? lenZ e) with false by lia.
  unfold checked_add64, HEADER. replace (off + (24 + lenZ e) <? two64) with true by lia.
  cbn [mbind option_bind]. rewrite drop_app_length' by (by rewrite length_app, !to_le_length).
  unfold tl. replace (off + (24 + lenZ e)) with (off + 24 + lenZ e) by lia.
  rewrite IH by (done || lia). cbn. do 2 f_equal. lia.
Qed.

Lemma index_fields len fi off count tl :
  is_u64 len -> is_u64 fi -> is_u64 off -> is_u64 count ->
  let b := INDEX_MAGIC ++ to_le 8 len ++ to_le 8 fi ++ to_le 8 off ++ to_le 8 count ++ tl in
  take 8 b = INDEX_MAGIC /\ le_at 8 8 b = len /\ le_at 8 16 b = fi /\ le_at 8 24 b = off /\
  le_at 8 32 b = count /\ drop (Z.to_nat 40) b = tl.
Proof.
  intros H1 H2 H3 H4. cbn zeta. split; [by apply take_app_length'|].
  split; [by apply (le_at_app 8 8 INDEX_MAGIC)|]. rewrite (assoc (++) INDEX_MAGIC).
  split; [apply (le_at_app 8 16); [by rewrite !lenZ_app, !lenZ_to_le|done]|].
  rewrite (assoc (++) (INDEX_MAGIC ++ _)).
  split; [apply (le_at_app 8 24); [by rewrite !lenZ_app, !lenZ_to_le|done]|].
  rewrite (assoc (++) ((INDEX_MAGIC ++ _) ++ _)).
  split; [apply (le_at_app 8 32); [by rewrite !lenZ_app, !lenZ_to_le|done]|].
  rewrite (assoc (++)). apply drop_app_length'. by rewrite !length_app, !to_le_length.
Qed.

Lemma decode_encode_index k0 k rs len fi off at_ :
  rs <> [] -> Forall rec_ok rs -> is_u64 len -> is_u64 fi -> 0 <= off -> off + size rs < two64 ->
  decode_index (encode_index len fi (pos_list k0 off rs)) k at_ =
  if (len =? at_) && (off + size rs =? at_) then Some (fi, pos_list k off rs) else None.
Proof.
  intros Hne Hok Hlen Hfi Hoff Hs. pose proof (size_length rs). pose proof (size_nonneg rs).
  pose proof (lenZ_nonneg rs).
  assert (is_u64 off) as Hoff' by (unfold is_u64; lia).
  assert (is_u64 (lenZ rs)) as Hcnt by (unfold is_u64, HEADER in *; lia).
  unfold decode_index, encode_index. set (body := index_body _ _ _).
  assert (lenZ body = INDEX_HEADER + INDEX_RECORD * lenZ rs) as Hb.
  { unfold body, index_body. rewrite !lenZ_app, !lenZ_to_le, encode_records_length.
    unfold INDEX_HEADER. change (lenZ INDEX_MAGIC) with 8. lia. }
  assert (body = INDEX_MAGIC ++ to_le 8 len ++ to_le 8 fi ++ to_le 8 off ++ to_le 8 (lenZ rs)
    ++ concat (map encode_record (pos_list k0 off rs))) as Eb.
  { unfold body, index_body. destruct rs as [|[t e] rs]; [done|]. do 6 f_equal.
    unfold lenZ. by rewrite pos_list_length. }
  clearbody body. rewrite lenZ_app, lenZ_to_le. unfold INDEX_HEADER, INDEX_RECORD in *.
  rewrite (proj2 (Z.ltb_ge _ 4)) by lia.
  rewrite length_app, to_le_length. replace (length body + 4 - 4)%nat with (length body) by lia.
  rewrite take_app_length, drop_app_length, from_to_le by apply crc32c_u32.
  rewrite Z.eqb_refl. replace (lenZ body <? 40) with false by lia.
  pose proof (index_fields len fi off (lenZ rs)
    (concat (map encode_record (pos_list k0 off rs))) Hlen Hfi Hoff' Hcnt) as Hf.
  rewrite <- Eb in Hf. destruct Hf as (-> & -> & -> & -> & -> & ->).
  rewrite bool_decide_true by done. cbn [negb orb].
  destruct (Z.eqb_spec len at_) as [<-|]; [|done]. cbn [negb andb].
  replace (lenZ body =? 40 + lenZ rs * 12) with true by lia. cbn [negb].
  replace (Z.to_nat (lenZ rs)) with (length rs) by (unfold lenZ; lia).
  rewrite decode_records_encode by done. cbn [mbind option_bind].
  assert (0 < lenZ rs) by (destruct rs; [done|rewrite lenZ_cons; pose proof (lenZ_nonneg rs); lia]).
  by replace (0 <? lenZ rs) with true by lia.
Qed.

(** The index written over a segment's records from the [n]th on. *)
Lemma drop_pos_list k off rs n :
  drop n (pos_list k off rs) = pos_list k (off + size (take n rs)) (drop n rs).
Proof.
  revert off n. induction rs as [|[t e] rs IH]; intros off [|n]; cbn [pos_list drop take size];
    rewrite ?Z.add_0_r; try done. rewrite IH. f_equal. lia.
Qed.

Lemma take_pos_list k off rs n : take n (pos_list k off rs) = pos_list k off (take n rs).
Proof.
  revert off n. induction rs as [|[t e] rs IH]; intros off [|n]; cbn; try done. by rewrite IH.
Qed.

(** What [append] lays out for consecutive records. *)
Lemma lay_out_numbered k rs : forall base f,
  Forall rec_ok rs -> lay_out k base f (numbered f rs) = Ok (pos_list k base rs, seg_bytes f rs).
Proof.
  induction rs as [|[t e] rs IH]; intros base f Hok; [done|].
  rewrite Forall_cons in Hok. destruct Hok as [[_ He] Hok]. cbn [snd] in He.
  cbn [numbered lay_out pos_list seg_bytes]. rewrite Z.eqb_refl. cbn [negb].
  replace (MAX_ENTRY <? lenZ e) with false by lia.
  rewrite record_bytes_length, Z.add_assoc, IH by done. done.
Qed.

Lemma parse_purge_marker p c : is_u64 p -> parse_purged (purge_marker p c) = Ok (p, c).
Proof.
  intros Hp. unfold parse_purged, purge_marker.
  assert (split_newline (as_bytes (show_u64 p) ++ Byte.x0a :: c) = Some (as_bytes (show_u64 p), c)) as ->.
  { unfold show_u64. rewrite as_of_bytes.
    pose proof (List.Forall_rev (dec_rev_ascii 20 p ltac:(unfold is_u64 in Hp; lia))) as Hf.
    induction Hf as [|x l Hx _ IH]; [done|]. cbn [app split_newline].
    rewrite decide_False; [by rewrite IH|]. intros ->. cbv in Hx. intuition congruence. }
  cbn [mbind option_bind fst snd].
  destruct (chars_show_u64 p) as [_ Ha]; [unfold is_u64 in Hp; lia|].
  rewrite from_utf8_of_string by (by apply ascii_rust_string). cbn [mbind option_bind]. by rewrite parse_show_u64.
Qed.

End log.
End RaftLog.
