(* ===== verification/RaftLogRefine.v ===== *)
(** * The Raft log against its specification

    crates/meta-store/src/raft_log.rs. A log stands for the index [p] it was
    purged up to and the entries from [p + 1] on. [rep] relates that to the
    segments, positions, index files and marker; every operation keeps it
    and does to the entries what its name says, and opening the directory
    again gives the same entries back. *)

From S2P Require Import Prelude Bytes StdText Crc LogTail RaftLog.

Module RaftLogRefine.
Import RaftLog.

(** A segment file: its first index and its records. *)
Abbreviation seg := (Z * list rec)%type.

(** What a log stands for: the index purged up to ([-1]: none) and the entries
    after it. *)
Abbreviation spec := (Z * list rec)%type.

Definition recs (L : list seg) : list rec := concat (map snd L).

(** Segments [L] carry on from one another, the first from [b]. *)
Fixpoint starts (b : Z) (L : list seg) : Prop :=
  match L with [] => True | (f, rs) :: L => f = b /\ starts (b + lenZ rs) L end.

(** Segments in order, none empty, all before [b]. *)
Fixpoint below (b : Z) (D : list seg) : Prop :=
  match D with
  | [] => True
  | (f, rs) :: D =>
    0 <= f /\ rs <> [] /\ f + lenZ rs <= match D with (f', _) :: _ => f' | [] => b end /\ below b D
  end.

Fixpoint poss (k : nat) (L : list seg) : list Pos :=
  match L with [] => [] | (_, rs) :: L => pos_list k 0 rs ++ poss (S k) L end.

Definition seg_of (s : seg) : Segment := mkSegment (fst s) (size (snd s)).

(** ** Lists of segments *)
Lemma recs_app A B : recs (A ++ B) = recs A ++ recs B.
Proof. unfold recs. by rewrite map_app, concat_app. Qed.

Lemma recs_cons f rs L : recs ((f, rs) :: L) = rs ++ recs L.
Proof. done. Qed.

Lemma starts_app A B : forall b, starts b (A ++ B) <-> starts b A /\ starts (b + lenZ (recs A)) B.
Proof.
  induction A as [|[f rs] A IH]; intros b; cbn [app starts].
  - change (lenZ (recs [])) with 0. rewrite Z.add_0_r. tauto.
  - rewrite IH, recs_cons, lenZ_app, Z.add_assoc. tauto.
Qed.

Lemma poss_app k A B : poss k (A ++ B) = poss k A ++ poss (k + length A) B.
Proof.
  revert k. induction A as [|[f rs] A IH]; intros k; cbn [app poss length].
  - by rewrite Nat.add_0_r.
  - rewrite IH, (assoc (++)). do 2 f_equal. lia.
Qed.

Lemma poss_length k L : length (poss k L) = length (recs L).
Proof.
  revert k. induction L as [|[f rs] L IH]; intros k; [done|].
  cbn [poss]. rewrite recs_cons, !length_app, pos_list_length, IH. done.
Qed.

Lemma poss_lookup L : forall k b n p,
  starts b L -> poss k L !! n = Some p ->
  exists j f rs m t e,
    L !! j = Some (f, rs) /\ rs !! m = Some (t, e) /\ f + Z.of_nat m = b + Z.of_nat n /\
    p = mkPos (k + j) (size (take m rs)) (lenZ e) t /\
    take n (recs L) = recs (take j L) ++ take m rs /\
    take n (poss k L) = poss k (take j L) ++ pos_list (k + j) 0 (take m rs) /\
    recs L !! n = Some (t, e).
Proof.
  induction L as [|[f rs] L IH]; intros k b n p Hs Hp; [done|].
  destruct Hs as [-> Hs]. cbn [poss] in *. rewrite !recs_cons.
  destruct (Nat.lt_ge_cases n (length rs)) as [Hn|Hn].
  - rewrite lookup_app_l, pos_list_lookup in Hp by (by rewrite pos_list_length).
    destruct (rs !! n) as [[t e]|] eqn:E; cbn in Hp; simplify_eq.
    exists 0%nat, b, rs, n, t, e. rewrite Nat.add_0_r, Z.add_0_l. cbn [take lookup list_lookup].
    rewrite lookup_app_l, !take_app_le, take_pos_list by (rewrite ?pos_list_length; lia).
    by split_and!.
  - rewrite lookup_app_r, pos_list_length in Hp by (by rewrite pos_list_length).
    destruct (IH (S k) _ _ _ Hs Hp) as (j & f' & rs' & m & t & e & E1 & E2 & E3 & -> & E4 & E5 & E6).
    exists (S j), f', rs', m, t, e. cbn [take lookup list_lookup poss]. rewrite recs_cons.
    rewrite lookup_app_r, !take_app_ge, pos_list_length, E4, E5 by (rewrite ?pos_list_length; lia).
    rewrite !(assoc (++)), !Nat.add_succ_r. unfold lenZ in E3. split_and!; try done. lia.
Qed.

Lemma starts_first b L j f rs :
  starts b L -> L !! j = Some (f, rs) -> f = b + lenZ (recs (take j L)).
Proof.
  intros Hs Hj. rewrite <- (take_drop_middle _ _ _ Hj) in Hs.
  apply starts_app in Hs as [_ Hs]. cbn in Hs. destruct Hs as [-> _]. done.
Qed.

(** First indices grow from segment to segment. *)
Lemma starts_sorted L : forall b,
  starts b L -> Forall (fun s => snd s <> []) (removelast L) ->
  StronglySorted Z.lt (map fst L) /\ Forall (Z.le b) (map fst L).
Proof.
  induction L as [|[f rs] L IH]; intros b Hs Hne; [by split; constructor|].
  destruct Hs as [-> Hs]. destruct L as [|s L].
  { cbn. split; repeat constructor. lia. }
  change (removelast ((b, rs) :: s :: L)) with ((b, rs) :: removelast (s :: L)) in Hne.
  rewrite Forall_cons in Hne. destruct Hne as [Hrs Hne]. cbn [snd] in Hrs.
  destruct (IH _ Hs Hne) as [Hsort Hge].
  assert (0 < lenZ rs) by (destruct rs; [done|rewrite lenZ_cons; pose proof (lenZ_nonneg rs); lia]).
  split; constructor; try done; eapply Forall_impl; try exact Hge; cbn; intros; lia.
Qed.

Lemma below_sorted D X : forall b,
  below b D -> StronglySorted Z.lt (map fst X) -> Forall (Z.le b) (map fst X) ->
  StronglySorted Z.lt (map fst (D ++ X)) /\
  Forall (Z.le (match D with (f, _) :: _ => f | [] => b end)) (map fst (D ++ X)).
Proof.
  intros b. induction D as [|[f rs] D IH]; intros Hb Hs Hx; [done|].
  destruct Hb as (Hf & Hrs & Hend & Hb). destruct (IH Hb Hs Hx) as [Hsort Hge].
  assert (0 < lenZ rs) by (destruct rs; [done|rewrite lenZ_cons; pose proof (lenZ_nonneg rs); lia]).
  cbn [app map]. split; constructor; try done; cbn [fst];
    (eapply Forall_impl; [exact Hge|]; cbn; intros; lia).
Qed.

Lemma below_end D : forall b f rs,
  below b D -> (f, rs) ∈ D -> 0 <= f /\ rs <> [] /\ f + lenZ rs <= b.
Proof.
  induction D as [|[f' rs'] D IH]; intros b f rs Hb Hin; [by apply elem_of_nil in Hin|].
  destruct Hb as (Hf & Hrs & Hend & Hb). apply elem_of_cons in Hin as [[= -> ->]|Hin]; [|by eapply IH].
  split_and!; try done. destruct D as [|[f2 rs2] D]; [done|].
  destruct (IH b f2 rs2 Hb) as (? & ? & ?); [by left|]. pose proof (lenZ_nonneg rs2). lia.
Qed.

Section refine.
Context {CRC : Crc32c}.

(** ** The representation *)
Definition file (s : seg) : Z * bytes := (fst s, seg_bytes (fst s) (snd s)).
Definition files (D : list seg) : gmap Z bytes := list_to_map (map file D).

(** An index file of the segment [rs] at [f] that cannot mislead a reader of a
    log purged to [p]: it does not decode, or it is that of the segment as it
    was at some time, perhaps without its first records, all purged. *)
Definition good_idx (p f : Z) (rs : list rec) (x : bytes) : Prop :=
  (forall k at_, decode_index x k at_ = None) \/
  exists m n, (n < m <= length rs)%nat /\ Z.of_nat n <= Z.max 0 (p + 1 - f) /\
    forall k, x = encode_index (size (take m rs)) (f + Z.of_nat n) (drop n (pos_list k 0 (take m rs))).

(** [dead] are segments wholly purged whose files are still there. *)
Record shape (p b : Z) (dead L : list seg) : Prop := mkShape {
  s_low : -1 <= p;
  s_base : 0 <= b <= p + 1;
  s_high : p + 1 <= b + lenZ (recs L) < two64;
  s_starts : starts b L;
  s_below : below b dead;
  s_sealed : Forall (fun s => snd s <> []) (removelast L);
  s_ok : Forall (fun s => Forall rec_ok (snd s) /\ size (snd s) < two64) (dead ++ L);
}.

Definition marker (p : Z) (file : option bytes) : Prop :=
  if decide (p = -1) then file = None else exists c, file = Some (purge_marker p c).

Record disk (p : Z) (D : list seg) (d : Dir) : Prop := mkDisk {
  d_logs : logs d = files D;
  d_idxs : forall f rs x, (f, rs) ∈ D -> idxs d !! f = Some x -> good_idx p f rs x;
  d_mark : marker p (purged_file d);
}.

Record rep (p b : Z) (dead L : list seg) (l : RaftLog) : Prop := mkRep {
  r_shape : shape p b dead L;
  r_disk : disk p (dead ++ L) (dir l);
  r_segs : segments l = map seg_of (dead ++ L);
  r_pos : positions l = drop (Z.to_nat (p + 1 - b)) (poss (length dead) L);
  r_first : positions l <> [] -> first l = p + 1;
}.

(** The log of entries a directory and its cursor stand for. *)
Definition live (p b : Z) (L : list seg) : list rec := drop (Z.to_nat (p + 1 - b)) (recs L).
Definition log_is (p : Z) (es : list rec) (l : RaftLog) : Prop :=
  exists b dead L, rep p b dead L l /\ es = live p b L.

Lemma shape_sorted p b dead L :
  shape p b dead L -> StronglySorted Z.lt (map fst (dead ++ L)).
Proof.
  intros []. destruct (starts_sorted L b) as [H1 H2]; [done..|]. by apply (below_sorted dead L b).
Qed.

Lemma sorted_NoDup (l : list Z) : StronglySorted Z.lt l -> NoDup l.
Proof.
  induction 1 as [|x l _ IH Hx]; constructor; [|done]. intros Hin.
  rewrite Forall_forall in Hx. specialize (Hx x Hin). lia.
Qed.

Lemma shape_NoDup p b dead L : shape p b dead L -> NoDup (map fst (dead ++ L)).
Proof. intros H. by apply sorted_NoDup, (shape_sorted p b). Qed.

Lemma map_fst_file D : (map file D).*1 = map fst D.
Proof. induction D as [|s D IH]; cbn; [done|]. by f_equal. Qed.

Lemma files_lookup D f rs :
  NoDup (map fst D) -> (f, rs) ∈ D -> files D !! f = Some (seg_bytes f rs).
Proof.
  intros Hnd Hin. apply elem_of_list_to_map_1; [by rewrite map_fst_file|].
  apply list_elem_of_In, in_map_iff. exists (f, rs). split; [done|]. by apply list_elem_of_In.
Qed.

Lemma files_snoc D f rs :
  f ∉ map fst D -> files (D ++ [(f, rs)]) = <[f := seg_bytes f rs]> (files D).
Proof.
  intros Hf. unfold files. rewrite map_app. apply list_to_map_snoc. by rewrite map_fst_file.
Qed.

Lemma files_none D f : f ∉ map fst D -> files D !! f = None.
Proof. intros Hf. apply not_elem_of_list_to_map_1. by rewrite map_fst_file. Qed.

Lemma files_delete_last D f rs : f ∉ map fst D -> delete f (files (D ++ [(f, rs)])) = files D.
Proof. intros Hf. rewrite files_snoc by done. apply delete_insert_id. by apply files_none. Qed.

Lemma files_delete_first D f rs : f ∉ map fst D -> delete f (files ((f, rs) :: D)) = files D.
Proof. intros Hf. apply delete_insert_id. by apply files_none. Qed.

Lemma files_dom D : dom (files D) = list_to_set (map fst D).
Proof. unfold files. by rewrite dom_list_to_map_L, map_fst_file. Qed.

Lemma sorted_firsts_files p b dead L d :
  shape p b dead L -> logs d = files (dead ++ L) -> sorted_firsts d = map fst (dead ++ L).
Proof.
  intros Hs Hl. unfold sorted_firsts. rewrite Hl, files_dom.
  apply (StronglySorted_unique Z.le).
  - apply (StronglySorted_merge_sort Z.le); apply _.
  - pose proof (shape_sorted _ _ _ _ Hs) as H. induction H as [|x l _ IH Hx]; constructor; [done|].
    eapply Forall_impl; [done|]. cbn. lia.
  - rewrite merge_sort_Permutation. apply elements_list_to_set. by eapply shape_NoDup.
Qed.

(** ** Reading *)
Lemma shape_seg p b dead L f rs :
  shape p b dead L -> (f, rs) ∈ dead ++ L ->
  0 <= f /\ f + lenZ rs < two64 /\ Forall rec_ok rs /\ size rs < two64.
Proof.
  intros [] Hin. rewrite Forall_forall in s_ok0. destruct (s_ok0 _ Hin) as [Hok Hsz].
  apply elem_of_app in Hin as [Hin|Hin].
  - destruct (below_end _ _ _ _ s_below0 Hin) as (? & ? & ?). pose proof (lenZ_nonneg (recs L)).
    split_and!; try done. lia.
  - apply list_elem_of_lookup in Hin as [j Hj]. pose proof (starts_first _ _ _ _ _ s_starts0 Hj) as ->.
    pose proof (take_drop_middle _ _ _ Hj) as E.
    assert (lenZ (recs L) = lenZ (recs (take j L)) + lenZ rs + lenZ (recs (drop (S j) L))) as Hl.
    { rewrite <- E at 1. rewrite recs_app, recs_cons, !lenZ_app. lia. }
    pose proof (lenZ_nonneg (recs (take j L))). pose proof (lenZ_nonneg (recs (drop (S j) L))).
    split_and!; try done; lia.
Qed.

Lemma live_length p b dead L : shape p b dead L -> lenZ (live p b L) = b + lenZ (recs L) - (p + 1).
Proof. intros []. unfold live, lenZ in *. rewrite length_drop. lia. Qed.

Lemma positions_length p b dead L l :
  rep p b dead L l -> lenZ (positions l) = lenZ (live p b L).
Proof. intros []. rewrite r_pos0. unfold lenZ, live. by rewrite !length_drop, poss_length. Qed.

Lemma positions_nil p b dead L l : rep p b dead L l -> positions l = [] <-> live p b L = [].
Proof.
  intros Hr. pose proof (positions_length _ _ _ _ _ Hr) as E.
  split; intros H; rewrite H in E; apply lenZ_nil_inv; done.
Qed.

Lemma next_index_rep p b dead L l :
  rep p b dead L l ->
  next_index l = if decide (live p b L = []) then None else Some (b + lenZ (recs L)).
Proof.
  intros Hr. unfold next_index. pose proof (positions_nil _ _ _ _ _ Hr) as Hn.
  pose proof (positions_length _ _ _ _ _ Hr) as Hl.
  rewrite (live_length _ _ _ _ (r_shape _ _ _ _ _ Hr)) in Hl.
  pose proof (r_first _ _ _ _ _ Hr) as Hf.
  destruct (positions l) as [|q ps]; case_decide; try (intuition done).
  rewrite Hf by done. f_equal. lia.
Qed.

Lemma pos_rep p b dead L l i :
  rep p b dead L l ->
  pos i l = if decide (p + 1 <= i) then poss (length dead) L !! Z.to_nat (i - b) else None.
Proof.
  intros [[] _ _ Hp Hf]. unfold pos.
  destruct (positions l) as [|q ps] eqn:E.
  - assert (length (poss (length dead) L) <= Z.to_nat (p + 1 - b))%nat as Hle.
    { apply (f_equal length) in Hp. rewrite length_drop in Hp. cbn in Hp. lia. }
    rewrite lookup_nil. case_decide; [|by case_if]. rewrite lookup_ge_None_2 by lia. by case_if.
  - rewrite Hf by done. destruct (Z.ltb_spec i (p + 1)); case_decide; try lia; [done|].
    rewrite Hp, lookup_drop. f_equal. lia.
Qed.

(** Where the record of a live index is. *)
Lemma pos_some p b dead L l i q :
  rep p b dead L l -> pos i l = Some q ->
  exists j f rs m t e,
    L !! j = Some (f, rs) /\ rs !! m = Some (t, e) /\ f + Z.of_nat m = i /\ p + 1 <= i /\
    q = mkPos (length dead + j) (size (take m rs)) (lenZ e) t /\
    take (Z.to_nat (i - b)) (recs L) = recs (take j L) ++ take m rs /\
    take (Z.to_nat (i - b)) (poss (length dead) L) =
      poss (length dead) (take j L) ++ pos_list (length dead + j) 0 (take m rs) /\
    live p b L !! Z.to_nat (i - (p + 1)) = Some (t, e).
Proof.
  intros Hr Hq. rewrite (pos_rep _ _ _ _ _ _ Hr) in Hq. case_decide; [|done].
  destruct Hr as [[] _ _ _ _].
  destruct (poss_lookup _ _ _ _ _ s_starts0 Hq) as (j & f & rs & m & t & e & E1 & E2 & E3 & E4 & E5 & E6 & E7).
  exists j, f, rs, m, t, e. split_and!; try done; [lia|].
  unfold live. rewrite lookup_drop, <- E7. f_equal. lia.
Qed.

Lemma pos_none p b dead L l i :
  rep p b dead L l -> pos i l = None -> i < p + 1 \/ live p b L !! Z.to_nat (i - (p + 1)) = None.
Proof.
  intros Hr Hq. rewrite (pos_rep _ _ _ _ _ _ Hr) in Hq. case_decide; [|lia]. right.
  destruct Hr as [[] _ _ _ _]. apply lookup_ge_None in Hq. rewrite poss_length in Hq.
  unfold live. apply lookup_ge_None. rewrite length_drop. lia.
Qed.

Lemma seg_bytes_middle f rs m t e :
  rs !! m = Some (t, e) ->
  seg_bytes f rs = seg_bytes f (take m rs) ++ record_bytes (f + Z.of_nat m) t e
                   ++ seg_bytes (f + Z.of_nat m + 1) (drop (S m) rs).
Proof.
  intros Hm. pose proof (lookup_lt_Some _ _ _ Hm).
  rewrite <- (take_drop_middle _ _ _ Hm) at 1. rewrite seg_bytes_app. cbn [seg_bytes].
  unfold lenZ. by rewrite length_take, Nat.min_l by lia.
Qed.

Lemma read_one_rep p b dead L l i q :
  rep p b dead L l -> pos i l = Some q ->
  exists t e, live p b L !! Z.to_nat (i - (p + 1)) = Some (t, e) /\ p_term q = t /\
              read_one i q l = Ok e.
Proof.
  intros Hr Hq. destruct (pos_some _ _ _ _ _ _ _ Hr Hq)
    as (j & f & rs & m & t & e & Hj & Hm & Hi & _ & -> & _ & _ & Hlive).
  exists t, e. split_and!; [done..|]. unfold read_one. cbn [p_segment p_offset p_len p_term].
  destruct Hr as [Hs [Hlogs _ _] Hsegs _ _].
  assert ((dead ++ L) !! (length dead + j)%nat = Some (f, rs)) as HD
    by (rewrite lookup_app_r by lia; by replace (length dead + j - length dead)%nat with j by lia).
  rewrite Hsegs. change (map seg_of (dead ++ L)) with (seg_of <$> (dead ++ L)).
  rewrite list_lookup_fmap, HD. cbn [fmap option_fmap option_map or_panic mbind outcome_bind seg_of seg_first fst snd].
  assert ((f, rs) ∈ dead ++ L) as Hin by (by eapply list_elem_of_lookup_2).
  rewrite Hlogs, (files_lookup _ f rs) by (done || by eapply shape_NoDup).
  destruct (shape_seg _ _ _ _ _ _ Hs Hin) as (? & ? & Hok & _).
  pose proof (lookup_lt_Some _ _ _ Hm) as Hlt. unfold lenZ in *.
  rewrite Forall_forall in Hok. destruct (Hok (t, e)) as [Ht He]; [by eapply list_elem_of_lookup_2|].
  cbn [ok_or mbind outcome_bind]. rewrite (seg_bytes_middle f rs m t e) by done.
  set (tl := seg_bytes (f + Z.of_nat m + 1) _).
  pose proof (seg_bytes_length f (take m rs)) as L1. pose proof (record_bytes_length (f + Z.of_nat m) t e) as L2.
  unfold lenZ in *. cbn [fst snd] in *.
  rewrite slice_some by (rewrite !length_app; lia). cbn [ok_or mbind outcome_bind].
  rewrite drop_app_length', take_app_length' by lia.
  destruct (record_fields (f + Z.of_nat m) t e []) as (_ & E2 & _ & _ & E5);
    [unfold is_u64; lia|done|unfold lenZ; lia|]. rewrite app_nil_r in E2, E5.
  rewrite Hi in *. rewrite E2. unfold lenZ in E5.
  rewrite take_ge in E5 by (rewrite length_drop; lia). rewrite E5, Z.eqb_refl. done.
Qed.

Lemma read_loop_rep p b dead L l n : forall lo,
  rep p b dead L l -> p + 1 <= lo ->
  read_loop (seqZ lo (Z.of_nat n)) l =
  Ok (map snd (take n (drop (Z.to_nat (lo - (p + 1))) (live p b L)))).
Proof.
  induction n as [|n IH]; intros lo Hr Hlo; [done|].
  rewrite seqZ_cons_1 by lia. replace (Z.of_nat (S n) - 1) with (Z.of_nat n) by lia.
  cbn [read_loop]. destruct (pos lo l) as [q|] eqn:E.
  - destruct (read_one_rep _ _ _ _ _ _ _ Hr E) as (t & e & Hl & _ & ->).
    cbn [mbind outcome_bind]. rewrite IH by (done || lia). cbn [mbind outcome_bind].
    rewrite (drop_S _ _ _ Hl). cbn [take map snd]. do 5 f_equal. lia.
  - destruct (pos_none _ _ _ _ _ _ Hr E) as [?|Hn]; [lia|]. apply lookup_ge_None in Hn.
    by rewrite drop_ge by lia.
Qed.

Lemma read_rep p b dead L l from to_ :
  rep p b dead L l ->
  read from to_ l =
  Ok (map snd (take (Z.to_nat (to_ - Z.max from (p + 1)))
                 (drop (Z.to_nat (from - (p + 1))) (live p b L)))).
Proof.
  intros Hr. unfold read, rangeZ.
  destruct (decide (positions l = [])) as [E|E].
  - rewrite (proj1 (positions_nil _ _ _ _ _ Hr) E). rewrite drop_nil, take_nil. cbn [map].
    destruct (seqZ _ _) as [|i s]; cbn [read_loop]; [done|].
    unfold pos. rewrite E, lookup_nil. by case_if.
  - rewrite (r_first _ _ _ _ _ Hr E).
    destruct (Z.le_gt_cases to_ (Z.max from (p + 1))).
    + by rewrite seqZ_nil, Z2Nat.nonpos by lia.
    + replace (to_ - Z.max from (p + 1)) with (Z.of_nat (Z.to_nat (to_ - Z.max from (p + 1)))) at 1 by lia.
      rewrite (read_loop_rep p b dead L) by (done || lia). do 4 f_equal. lia.
Qed.

Lemma term_of_rep p b dead L l i :
  rep p b dead L l ->
  term_of i l = if decide (p + 1 <= i) then fst <$> live p b L !! Z.to_nat (i - (p + 1)) else None.
Proof.
  intros Hr. unfold term_of. destruct (pos i l) as [q|] eqn:E.
  - destruct (read_one_rep _ _ _ _ _ _ _ Hr E) as (t & e & -> & <- & _).
    destruct (pos_some _ _ _ _ _ _ _ Hr E) as (? & ? & ? & ? & ? & ? & _ & _ & _ & ? & _). by rewrite decide_True.
  - destruct (pos_none _ _ _ _ _ _ Hr E) as [? | ->]; cbn; case_decide; done || lia.
Qed.

Lemma range_rep p b dead L l :
  rep p b dead L l ->
  range l = if decide (live p b L = []) then None else Some (p + 1, p + lenZ (live p b L)).
Proof.
  intros Hr. unfold range. rewrite (next_index_rep _ _ _ _ _ Hr).
  case_decide as Hn; [done|]. cbn. rewrite (r_first _ _ _ _ _ Hr), (live_length _ _ dead _);
    [|by apply Hr|by rewrite (positions_nil _ _ _ _ _ Hr)].
  do 2 f_equal. lia.
Qed.

(** ** Index files *)
Lemma encode_index_segment len fi k k' off rs :
  encode_index len fi (pos_list k off rs) = encode_index len fi (pos_list k' off rs).
Proof.
  assert (index_body len fi (pos_list k off rs) = index_body len fi (pos_list k' off rs)) as E.
  { unfold index_body. unfold lenZ. rewrite !pos_list_length. do 3 f_equal.
    f_equal; [by destruct rs as [|[t e] rs]|]. f_equal. f_equal.
    revert off. induction rs as [|[t e] rs IH]; intros off; cbn; [done|]. by rewrite IH. }
  unfold encode_index. by rewrite E.
Qed.

Lemma held_in_app k A B :
  Forall (fun q => p_segment q = k) B -> Forall (fun q => p_segment q <> k) A ->
  held_in k (rev (A ++ B)) = length B.
Proof.
  intros HB%Forall_rev HA%Forall_rev. rewrite rev_app_distr, <- length_rev.
  induction HB as [|q B' Hq _ IH]; cbn [app held_in length].
  - destruct HA as [|q A' Hq _]; [done|]. cbn [held_in]. unfold in_segment.
    by rewrite bool_decide_false.
  - unfold in_segment. rewrite bool_decide_true by done. by rewrite IH.
Qed.

(** What [write_index] writes over the records of [rs] from the [n]th on. *)
Lemma write_index_good p k l f rs n A :
  segments l !! k = Some (mkSegment f (size rs)) ->
  positions l = A ++ drop n (pos_list k 0 rs) -> Forall (fun q => p_segment q <> k) A ->
  Z.of_nat n <= Z.max 0 (p + 1 - f) ->
  ((n < length rs)%nat -> first l + lenZ A = f + Z.of_nat n) ->
  write_index k l = l \/
  exists x, good_idx p f rs x /\ write_index k l = set_dir (set_idxs (<[f := x]> (idxs (dir l))) (dir l)) l.
Proof.
  intros Hseg Hpos HA Hn Hfirst. unfold write_index.
  assert (held_in k (rev (positions l)) = length rs - n)%nat as ->.
  { rewrite Hpos, held_in_app, length_drop, pos_list_length;
      [done|apply Forall_drop, pos_list_segment|done]. }
  destruct (length rs - n)%nat as [|h] eqn:Eh; [by left|]. rewrite Hseg. cbn [seg_len seg_first].
  right. eexists. split; [|reflexivity]. right. exists (length rs), n. rewrite (take_ge rs) by lia.
  split_and!; [lia..|]. intros k'. rewrite Hpos, length_app, length_drop, pos_list_length.
  replace (length A + (length rs - n) - S h)%nat with (length A) by lia.
  change (Z.of_nat (length A)) with (lenZ A).
  rewrite drop_app_length, Hfirst by lia. rewrite !drop_pos_list. apply encode_index_segment.
Qed.

Definition idx_good (p : Z) (D : list seg) (d : Dir) : Prop :=
  forall f rs x, (f, rs) ∈ D -> idxs d !! f = Some x -> good_idx p f rs x.

Lemma idx_good_set p D d f rs x :
  NoDup (map fst D) -> (f, rs) ∈ D -> good_idx p f rs x ->
  idx_good p D d -> idx_good p D (set_idxs (<[f := x]> (idxs d)) d).
Proof.
  intros Hnd Hin Hx Hi f' rs' x' Hin' Hlk. cbn in Hlk.
  apply lookup_insert_Some in Hlk as [[<- <-]|[_ Hlk]]; [|by eapply Hi].
  replace rs' with rs; [done|].
  apply list_elem_of_lookup in Hin as [i Hi1]. apply list_elem_of_lookup in Hin' as [j Hj1].
  assert (i = j) as ->; [|congruence].
  eapply (NoDup_lookup (map fst D)); [done| |]; change (map fst D) with (D.*1);
    rewrite list_lookup_fmap; [by rewrite Hi1|by rewrite Hj1].
Qed.

Lemma disk_set_idx p D d f rs x :
  NoDup (map fst D) -> (f, rs) ∈ D -> good_idx p f rs x ->
  disk p D d -> disk p D (set_idxs (<[f := x]> (idxs d)) d).
Proof.
  intros Hnd Hin Hx [Hl Hi Hm]. constructor; cbn; [done| |done].
  by apply (idx_good_set p D d f rs x).
Qed.

Lemma poss_segment k L : Forall (fun q => k <= p_segment q < k + length L)%nat (poss k L).
Proof.
  revert k. induction L as [|[f rs] L IH]; intros k; cbn [poss length]; [done|].
  apply Forall_app. split.
  - eapply Forall_impl; [apply pos_list_segment|]. cbn. intros q ->. lia.
  - eapply Forall_impl; [apply IH|]. cbn. lia.
Qed.

(** [write_index] of the last segment. *)
Lemma write_index_rep p b dead L l :
  rep p b dead L l -> rep p b dead L (write_index (length (segments l) - 1) l).
Proof.
  intros Hr. assert (Hr' := Hr). destruct Hr' as [Hs Hd Hsegs Hpos Hf].
  destruct L as [|s0 L0 _] using rev_ind.
  { unfold write_index. rewrite Hpos. cbn [poss]. by rewrite drop_nil. }
  destruct s0 as [f rs]. set (k := (length dead + length L0)%nat).
  assert (length (segments l) - 1 = k)%nat as ->.
  { rewrite Hsegs, length_map, !length_app. cbn. lia. }
  assert (Hpos0 := Hpos). rewrite poss_app in Hpos. cbn [poss] in Hpos.
  rewrite app_nil_r, drop_app, poss_length in Hpos. set (n0 := Z.to_nat (p + 1 - b)) in *. fold k in Hpos.
  pose proof Hs as Hs'. destruct Hs'. apply starts_app in s_starts0 as [_ [Ef _]].
  destruct (write_index_good p k l f rs (n0 - length (recs L0)) (drop n0 (poss (length dead) L0)))
    as [->|(x & Hx & ->)]; try done.
  - rewrite Hsegs, (assoc (++)). change (map seg_of ?x) with (seg_of <$> x).
    rewrite list_lookup_fmap, lookup_app_r by (rewrite length_app; lia). rewrite length_app.
    replace (k - (length dead + length L0))%nat with 0%nat by lia. done.
  - apply Forall_drop. eapply Forall_impl; [apply poss_segment|]. cbn. lia.
  - unfold lenZ in Ef. lia.
  - intros Hlt. rewrite Hf.
    + unfold lenZ in *. rewrite length_drop, poss_length. lia.
    + rewrite Hpos. intros [_ E]%app_eq_nil. apply (f_equal length) in E.
      rewrite length_drop, pos_list_length in E. cbn in E. lia.
  - constructor; try done; cbn.
    apply (disk_set_idx p _ _ f rs); try done; [by eapply shape_NoDup|]. set_solver.
Qed.

(** ** Appending *)
Lemma removelast_snoc {A} (l : list A) x : removelast (l ++ [x]) = l.
Proof. apply removelast_last. Qed.

Lemma sealed_all {A} (P : A -> Prop) l x : Forall P (removelast (l ++ [x])) <-> Forall P l.
Proof. by rewrite removelast_snoc. Qed.

Lemma shape_snoc p b dead L :
  shape p b dead L -> Forall (fun s => snd s <> []) L ->
  shape p b dead (L ++ [(b + lenZ (recs L), [])]).
Proof.
  intros [] Hne. constructor; try done.
  - by rewrite recs_app, app_nil_r.
  - apply starts_app. split; [done|]. cbn. done.
  - by rewrite removelast_snoc.
  - rewrite (assoc (++)), Forall_app. split; [done|]. repeat constructor.
Qed.

Lemma snoc_fresh (D : list seg) f rs : NoDup (map fst (D ++ [(f, rs)])) -> f ∉ map fst D.
Proof.
  rewrite map_app, NoDup_app. intros (_ & Hn & _) Hin. apply (Hn f Hin). cbn. by left.
Qed.

Lemma start_segment_rep p b dead L l :
  rep p b dead L l -> Forall (fun s => snd s <> []) L ->
  rep p b dead (L ++ [(b + lenZ (recs L), [])]) (start_segment (b + lenZ (recs L)) l).
Proof.
  intros [Hs [Hl Hi Hm] Hsegs Hpos Hf] Hne. set (next := b + lenZ (recs L)).
  pose proof (shape_snoc _ _ _ _ Hs Hne) as Hs'. fold next in Hs'.
  pose proof (shape_NoDup _ _ _ _ Hs') as Hnd. rewrite (assoc (++)) in Hnd.
  apply snoc_fresh in Hnd. constructor; cbn; try done.
  - rewrite (assoc (++)). constructor; cbn; [by rewrite files_snoc, Hl|..|done].
    intros f rs x Hin Hx. apply lookup_delete_Some in Hx as [Hne' Hx].
    apply elem_of_app in Hin as [Hin|Hin]; [by eapply Hi|].
    apply list_elem_of_singleton in Hin. congruence.
  - rewrite Hsegs, (assoc (++)). symmetry. apply map_app.
  - rewrite Hpos, poss_app. cbn. by rewrite app_nil_r.
Qed.

Lemma good_idx_grow p f rs new x : good_idx p f rs x -> good_idx p f (rs ++ new) x.
Proof.
  intros [H|(m & n & Hmn & Hn & Hx)]; [by left|]. right. exists m, n.
  rewrite length_app. split_and!; try lia. intros k. by rewrite take_app_le by lia.
Qed.

Lemma shape_grow p b dead L f rs new :
  shape p b dead (L ++ [(f, rs)]) -> Forall rec_ok new ->
  b + lenZ (recs (L ++ [(f, rs)])) + lenZ new < two64 -> size rs + size new < two64 ->
  shape p b dead (L ++ [(f, rs ++ new)]).
Proof.
  intros [] Hok Hn Hsz. rewrite recs_app, recs_cons, app_nil_r, !lenZ_app in *.
  pose proof (lenZ_nonneg new). constructor; try done.
  - rewrite recs_app, recs_cons, app_nil_r, !lenZ_app. lia.
  - apply starts_app. apply starts_app in s_starts0 as [? [? _]]. by split.
  - by rewrite removelast_snoc in *.
  - rewrite (assoc (++)), Forall_app in *. destruct s_ok0 as [Ho1 Ho2]. split; [done|].
    rewrite Forall_singleton in *. cbn [snd] in *. rewrite Forall_app, size_app. intuition.
Qed.

Lemma last_segment p b dead L f rs l :
  rep p b dead (L ++ [(f, rs)]) l ->
  segments l = map seg_of (dead ++ L) ++ [mkSegment f (size rs)] /\
  last (segments l) = Some (mkSegment f (size rs)) /\
  (length (segments l) - 1 = length dead + length L)%nat /\
  logs (dir l) !! f = Some (seg_bytes f rs).
Proof.
  intros [Hs [Hl _ _] Hsegs _ _].
  assert (segments l = map seg_of (dead ++ L) ++ [mkSegment f (size rs)]) as E
    by (rewrite Hsegs, (assoc (++)); apply map_app).
  rewrite E, last_snoc, length_app, length_map, length_app. cbn [length]. split_and!; try done; [lia|].
  rewrite Hl. apply files_lookup; [by eapply shape_NoDup|]. set_solver.
Qed.

Lemma write_at_end f rs buf : write_at (seg_bytes f rs) buf (size rs) = seg_bytes f rs ++ buf.
Proof.
  unfold write_at. rewrite <- (seg_bytes_length f). unfold lenZ. rewrite Nat2Z.id.
  rewrite take_ge, drop_ge, app_nil_r by lia. done.
Qed.

Lemma disk_put_last p D f rs rs' d :
  NoDup (map fst (D ++ [(f, rs)])) -> disk p (D ++ [(f, rs)]) d ->
  (forall x, good_idx p f rs x -> good_idx p f rs' x) ->
  disk p (D ++ [(f, rs')]) (set_logs (<[f := seg_bytes f rs']> (logs d)) d).
Proof.
  intros Hnd [Hl Hi Hm] Hg. apply snoc_fresh in Hnd. constructor; cbn; [|..|done].
  - by rewrite Hl, !files_snoc, insert_insert_eq by done.
  - intros f' rs2 x Hin Hx. apply elem_of_app in Hin as [Hin|Hin].
    + apply (Hi f' rs2); [set_solver|done].
    + apply list_elem_of_singleton in Hin as [= -> ->]. apply Hg, (Hi f); [set_solver|done].
Qed.

(** An append that succeeds, once the segment it goes to is there. *)
Lemma append_last_rep p b dead L f rs l new ns :
  rep p b dead (L ++ [(f, rs)]) l -> Forall rec_ok new -> new <> [] ->
  let next := b + lenZ (recs (L ++ [(f, rs)])) in
  next + lenZ new < two64 -> size rs + size new < two64 ->
  exists l', append_last WDone true next (numbered next new) ns l = (l', Ok ()) /\
    rep p b dead (L ++ [(f, rs ++ new)]) l'.
Proof.
  intros Hr Hok Hne next Hn Hsz. destruct (last_segment _ _ _ _ _ _ _ Hr) as (Hsegs & Hlast & Hk & Hf).
  unfold append_last. rewrite Hlast, Hk. cbn [seg_len seg_first]. rewrite Hf. cbn [from_option id].
  rewrite lay_out_numbered, write_at_end by done. cbn [negb].
  eexists. split; [reflexivity|]. pose proof Hr as [Hs Hd _ Hpos Hfirst].
  pose proof (shape_grow _ _ _ _ _ _ _ Hs Hok Hn Hsz) as Hs'.
  pose proof (live_length _ _ _ _ Hs) as Hll. fold next in Hll.
  assert (f + lenZ rs = next) as Ef.
  { destruct Hs. apply starts_app in s_starts0 as [_ [-> _]].
    unfold next. rewrite recs_app, recs_cons, app_nil_r, lenZ_app. lia. }
  assert (positions l ++ pos_list (length dead + length L) (size rs) new =
    drop (Z.to_nat (p + 1 - b)) (poss (length dead) (L ++ [(f, rs ++ new)]))) as Hp'.
  { rewrite Hpos, !poss_app. cbn [poss]. rewrite !app_nil_r, pos_list_app, (assoc (++)).
    rewrite (drop_app_le (poss _ L ++ _)), Z.add_0_l; [done|].
    destruct Hs. rewrite recs_app, recs_cons, app_nil_r, lenZ_app in s_high0.
    rewrite length_app, poss_length, pos_list_length. unfold lenZ in *. lia. }
  constructor; cbn [dir segments positions first extend put_file set_dir].
  - done.
  - rewrite (assoc (++)), <- Ef, <- seg_bytes_app.
    rewrite (assoc (++)) in Hd. apply (disk_put_last p (dead ++ L) f rs); [|done|].
    + rewrite <- (assoc (++)). by eapply shape_NoDup.
    + apply good_idx_grow.
  - rewrite Hsegs, removelast_snoc, (assoc (++)), seg_bytes_length, <- size_app.
    symmetry. apply map_app.
  - done.
  - intros _. destruct (positions l) as [|q ps] eqn:Ep; [|by apply Hfirst].
    apply (positions_nil _ _ _ _ _ Hr) in Ep. rewrite Ep in Hll. change (lenZ []) with 0 in Hll.
    destruct new as [|[t e] new]; [done|]. cbn [pos_list]. lia.
Qed.

Lemma size_pos rs : rs <> [] -> 0 < size rs.
Proof. destruct rs as [|[t e] rs]; [done|]. intros _. cbn [size]. pose proof (lenZ_nonneg e).
  pose proof (size_nonneg rs). unfold HEADER. lia. Qed.

Lemma needs_segment_false p b dead L l :
  rep p b dead L l -> needs_segment l = false ->
  exists L0 f rs, L = L0 ++ [(f, rs)] /\ size rs < SEGMENT_BYTES.
Proof.
  intros Hr Hn. destruct L as [|[f rs] L0 _] using rev_ind.
  - exfalso. pose proof Hr as [[] _ Hsegs Hpos _]. cbn [poss] in Hpos. rewrite drop_nil in Hpos.
    unfold needs_segment in Hn. rewrite Hsegs, app_nil_r, Hpos in Hn.
    destruct dead as [|[f rs] dead' _] using rev_ind; [done|].
    rewrite map_app in Hn. cbn [map] in Hn. rewrite last_snoc in Hn.
    cbn [seg_of seg_len snd] in Hn.
    destruct (below_end _ _ f rs s_below0) as (_ & Hne & _); [set_solver|].
    apply size_pos in Hne. rewrite bool_decide_true in Hn by done.
    replace (0 <? size rs) with true in Hn by lia. by rewrite orb_true_r in Hn.
  - exists L0, f, rs. split; [done|]. destruct (last_segment _ _ _ _ _ _ _ Hr) as (_ & Hl & _).
    unfold needs_segment in Hn. rewrite Hl in Hn. cbn [seg_len] in Hn. bool_to_prop. lia.
Qed.

Lemma needs_segment_true p b dead L l :
  rep p b dead L l -> needs_segment l = true -> Forall (fun s => snd s <> []) L.
Proof.
  intros Hr Hn. destruct L as [|[f rs] L0 _] using rev_ind; [done|].
  destruct (last_segment _ _ _ _ _ _ _ Hr) as (_ & Hl & _). pose proof Hr as [[] _ _ _ _].
  rewrite removelast_snoc in s_sealed0. apply Forall_app. split; [done|]. repeat constructor.
  cbn [snd]. intros ->. unfold needs_segment in Hn. rewrite Hl in Hn. cbn [seg_len size] in Hn.
  rewrite andb_false_r in Hn. done.
Qed.

(** Where the records of an append go. *)
Lemma append_rep_form p b dead L l new w sync :
  rep p b dead L l -> new <> [] ->
  let next := b + lenZ (recs L) in
  exists L0 f rs l1,
    append w sync (numbered next new) l = append_last w sync next (numbered next new) (needs_segment l) l1 /\
    rep p b dead (L0 ++ [(f, rs)]) l1 /\ recs (L0 ++ [(f, rs)]) = recs L /\ size rs < SEGMENT_BYTES /\
    ((needs_segment l = false /\ L = L0 ++ [(f, rs)]) \/
     (needs_segment l = true /\ L = L0 /\ rs = [] /\
      exists l0, rep p b dead L l0 /\ l1 = start_segment f l0)).
Proof.
  intros Hr Hne next. destruct new as [|[t e] new]; [done|].
  unfold append. cbn [numbered]. rewrite (next_index_rep _ _ _ _ _ Hr). fold next.
  assert (match (if decide (live p b L = []) then None else Some next) with
          | Some n => negb (next =? n) | None => false end = false) as ->.
  { case_decide; [done|]. by rewrite Z.eqb_refl. }
  destruct (needs_segment l) eqn:En.
  - pose proof (needs_segment_true _ _ _ _ _ Hr En) as Hall.
    pose proof (write_index_rep _ _ _ _ _ Hr) as Hw.
    set (l0 := match length (segments l) with O => l | S k => write_index k l end).
    assert (rep p b dead L l0) as Hr0.
    { unfold l0. destruct (length (segments l)) as [|k]; [done|]. cbn [Nat.sub] in Hw.
      by rewrite Nat.sub_0_r in Hw. }
    exists L, next, [], (start_segment next l0). split_and!; try done.
    + by apply start_segment_rep.
    + by rewrite recs_app, app_nil_r.
    + right. split_and!; try done. by exists l0.
  - destruct (needs_segment_false _ _ _ _ _ Hr En) as (L0 & f & rs & -> & Hsz).
    exists L0, f, rs, l. split_and!; try done. by left.
Qed.

Lemma append_rep p b dead L l new :
  rep p b dead L l -> Forall rec_ok new ->
  let next := b + lenZ (recs L) in
  next + lenZ new < two64 -> size new < 2 ^ 63 ->
  exists l' L', append WDone true (numbered next new) l = (l', Ok ()) /\
    rep p b dead L' l' /\ recs L' = recs L ++ new.
Proof.
  intros Hr Hok next Hn Hsz. destruct (decide (new = [])) as [->|Hne].
  { exists l, L. by rewrite app_nil_r. }
  destruct (append_rep_form _ _ _ _ _ new WDone true Hr Hne) as (L0 & f & rs & l1 & E & Hr1 & HL & Hrs & _).
  fold next in E. rewrite E. unfold next in *. rewrite <- HL in *.
  destruct (append_last_rep _ _ _ _ _ _ _ new (needs_segment l) Hr1 Hok Hne Hn) as (l' & E' & Hr').
  { unfold SEGMENT_BYTES, two64 in *. lia. }
  exists l', (L0 ++ [(f, rs ++ new)]). split_and!; [done..|].
  by rewrite !recs_app, !recs_cons, !app_nil_r, (assoc (++)).
Qed.

(** An append the filesystem has no room for is undone. *)
Lemma append_full_rep p b dead L l new n sync :
  rep p b dead L l -> Forall rec_ok new -> new <> [] ->
  exists l', append (WFailed n true true) sync (numbered (b + lenZ (recs L)) new) l = (l', Err (Io true)) /\
    rep p b dead L l'.
Proof.
  intros Hr Hok Hne.
  destruct (append_rep_form _ _ _ _ _ new (WFailed n true true) sync Hr Hne)
    as (L0 & f & rs & l1 & E & Hr1 & HL & Hrs & Hc).
  rewrite E. destruct (last_segment _ _ _ _ _ _ _ Hr1) as (Hsegs & Hlast & Hk & Hf).
  unfold append_last. rewrite Hlast, Hk. cbn [seg_len seg_first]. rewrite Hf. cbn [from_option id].
  rewrite lay_out_numbered, write_at_end by done.
  destruct Hc as [[-> ->]|(-> & <- & -> & l0 & Hr0 & ->)]; unfold append_failed; cbn [negb].
  - eexists. split; [reflexivity|]. cbn [seg_first]. rewrite <- (seg_bytes_length f rs).
    unfold lenZ. rewrite Nat2Z.id, take_app_length. pose proof Hr1 as [Hs Hd Hsg Hp Hfi].
    constructor; [done| |exact Hsg|exact Hp|exact Hfi]. cbn. rewrite insert_insert_eq.
    pose proof (shape_NoDup _ _ _ _ Hs) as Hnd. rewrite (assoc (++)) in Hd, Hnd |- *.
    pose proof (disk_put_last p (dead ++ L0) f rs rs _ Hnd Hd) as Hd'. by apply Hd'.
  - eexists. split; [reflexivity|]. pose proof Hr0 as [Hs [Hl Hi Hm] Hsg Hp Hfi].
    pose proof (shape_NoDup _ _ _ _ (r_shape _ _ _ _ _ Hr1)) as Hnd.
    rewrite (assoc (++)) in Hnd. apply snoc_fresh in Hnd.
    constructor; cbn; try done; [|by rewrite removelast_snoc].
    constructor; cbn; [|..|done].
    + rewrite insert_insert_eq, delete_insert_id; [done|]. rewrite Hl. by apply files_none.
    + intros f' rs' x Hin Hx. apply lookup_delete_Some in Hx as [_ Hx]. by eapply Hi.
Qed.

(** ** Truncating *)
Lemma remove_files_logs B : forall A d,
  NoDup (map fst (A ++ B)) -> logs d = files (A ++ B) ->
  logs (remove_files (map fst B) d) = files A.
Proof.
  induction B as [|[f rs] B IH]; intros A d Hnd Hl; [by rewrite app_nil_r in Hl|].
  cbn [map remove_files foldr fst]. fold (remove_files (map fst B) d).
  change ((f, rs) :: B) with ([(f, rs)] ++ B) in Hnd, Hl. rewrite (assoc (++)) in Hnd, Hl.
  cbn [remove_file set_logs set_idxs logs]. rewrite (IH (A ++ [(f, rs)])) by done.
  apply files_delete_last, (snoc_fresh A f rs). rewrite map_app in Hnd.
  by apply NoDup_app in Hnd as (Hnd & _ & _).
Qed.

Lemma remove_files_rest fs d :
  purged_file (remove_files fs d) = purged_file d /\
  forall f x, idxs (remove_files fs d) !! f = Some x -> idxs d !! f = Some x /\ f ∉ fs.
Proof.
  induction fs as [|g fs [IH1 IH2]]; [set_solver|].
  cbn [remove_files foldr]. fold (remove_files fs d). split; [done|]. intros f x Hx.
  cbn [remove_file set_logs set_idxs idxs] in Hx. apply lookup_delete_Some in Hx as [Hne Hx].
  apply IH2 in Hx. set_solver.
Qed.

Lemma Forall_removelast {A} (P : A -> Prop) l : Forall P l -> Forall P (removelast l).
Proof.
  intros H. induction l as [|x l _] using rev_ind; [done|]. rewrite removelast_snoc.
  by apply Forall_app in H as [? _].
Qed.

Lemma sealed_take {A} (P : A -> Prop) l j x :
  l !! j = Some x -> Forall P (removelast l) -> Forall P (take j l).
Proof.
  intros Hj H. rewrite <- (take_drop_middle _ _ _ Hj), removelast_app in H by done.
  by apply Forall_app in H as [? _].
Qed.

(** The segments a truncation keeps: those before the [j]th, and the first [m]
    records of that one. *)
Definition cut_segs (L : list seg) (j m : nat) (f : Z) (rs : list rec) : list seg :=
  take j L ++ match m with O => [] | _ => [(f, take m rs)] end.

Lemma cut_segs_recs L j m f rs : recs (cut_segs L j m f rs) = recs (take j L) ++ take m rs.
Proof.
  unfold cut_segs. rewrite recs_app. f_equal. destruct m; [done|].
  by rewrite recs_cons, app_nil_r.
Qed.

Lemma cut_segs_poss k L j m f rs :
  (j <= length L)%nat ->
  poss k (cut_segs L j m f rs) = poss k (take j L) ++ pos_list (k + j) 0 (take m rs).
Proof.
  intros Hj. unfold cut_segs. rewrite poss_app, length_take, Nat.min_l by done. f_equal.
  destruct m; [done|]. cbn [poss]. by rewrite app_nil_r.
Qed.

Lemma shape_cut p b dead L j m f rs t e :
  shape p b dead L -> L !! j = Some (f, rs) -> rs !! m = Some (t, e) ->
  p + 1 <= f + Z.of_nat m -> shape p b dead (cut_segs L j m f rs).
Proof.
  intros Hs Hj Hm Hp. pose proof (lookup_lt_Some _ _ _ Hm).
  destruct (shape_seg _ _ _ _ f rs Hs) as (_ & Hend & _).
  { apply elem_of_app. right. by eapply list_elem_of_lookup_2. }
  destruct Hs. pose proof (starts_first _ _ _ _ _ s_starts0 Hj) as Hf.
  pose proof s_starts0 as Hst. pose proof s_ok0 as Hok.
  rewrite <- (take_drop_middle _ _ _ Hj) in Hst. apply starts_app in Hst as [Hst1 Hst2].
  constructor; try done.
  - rewrite cut_segs_recs, lenZ_app. unfold lenZ in *. rewrite length_take. lia.
  - unfold cut_segs. apply starts_app. split; [done|]. destruct m; [done|]. cbn in *. tauto.
  - pose proof (sealed_take _ _ _ _ Hj s_sealed0). unfold cut_segs.
    destruct m; [rewrite app_nil_r; by apply Forall_removelast|by rewrite removelast_snoc].
  - rewrite <- (take_drop_middle _ _ _ Hj) in Hok. rewrite !Forall_app, Forall_cons in Hok.
    unfold cut_segs. rewrite !Forall_app. split_and!; try tauto. destruct m as [|m]; [done|].
    rewrite Forall_singleton. cbn [snd] in *. destruct Hok as (_ & _ & (Ho1 & Ho2) & _).
    split; [by apply Forall_take|]. pose proof (size_app (take (S m) rs) (drop (S m) rs)) as E.
    rewrite take_drop in E. pose proof (size_nonneg (drop (S m) rs)). lia.
Qed.

(** The files after the later segments are gone and the [f]th is cut. *)
Lemma disk_cut p dead L j m f rs d :
  NoDup (map fst (dead ++ L)) -> L !! j = Some (f, rs) -> (m <= length rs)%nat ->
  disk p (dead ++ L) d ->
  let d1 := remove_files (map fst (drop (S j) L)) d in
  let d2 := set_idxs (delete f (idxs d1)) d1 in
  let logs' := match m with
               | O => delete f (logs d2)
               | _ => <[f := take (Z.to_nat (size (take m rs))) (default [] (logs d2 !! f))]> (logs d2)
               end in
  disk p (dead ++ cut_segs L j m f rs) (set_logs logs' d2).
Proof.
  intros Hnd Hj Hm [Hl Hi Hmk]. cbn zeta.
  assert (dead ++ L = (dead ++ take j L ++ [(f, rs)]) ++ drop (S j) L) as E.
  { rewrite <- !(assoc (++)). f_equal. symmetry. by apply take_drop_middle. }
  assert (Hnd' := Hnd). rewrite E in Hl, Hnd'.
  pose proof (remove_files_logs _ _ _ Hnd' Hl) as Hl1.
  destruct (remove_files_rest (map fst (drop (S j) L)) d) as [Hp1 Hi1].
  set (d1 := remove_files _ d) in *. cbn [set_idxs logs idxs].
  rewrite map_app in Hnd'. apply NoDup_app in Hnd' as (Hnd1 & _ & _).
  pose proof (files_lookup _ f rs Hnd1 ltac:(set_solver)) as Hlf. rewrite <- Hl1 in Hlf.
  rewrite (assoc (++)) in Hnd1, Hl1. assert (Hfr := snoc_fresh _ _ _ Hnd1).
  constructor; cbn [set_logs set_idxs logs idxs purged_file]; [|..|by rewrite Hp1].
  - rewrite Hlf, Hl1. cbn [from_option id]. unfold cut_segs. destruct m as [|m].
    + rewrite app_nil_r. by apply files_delete_last.
    + rewrite (assoc (++)), !files_snoc, insert_insert_eq by done. f_equal.
      rewrite <- (take_drop (S m) rs) at 2. rewrite seg_bytes_app.
      apply take_app_length'. pose proof (seg_bytes_length f (take (S m) rs)) as El.
      unfold lenZ in El. lia.
  - intros f' rs' x Hin Hx. apply lookup_delete_Some in Hx as [Hne Hx].
    apply Hi1 in Hx as [Hx _]. apply (Hi f' rs'); [|done]. unfold cut_segs in Hin.
    apply elem_of_app in Hin as [Hin|Hin]; [set_solver|]. apply elem_of_app in Hin as [Hin|Hin].
    + apply elem_of_take in Hin as (i & Hin & _). apply elem_of_app. right.
      by eapply list_elem_of_lookup_2.
    + destruct m; [by apply elem_of_nil in Hin|]. apply list_elem_of_singleton in Hin. congruence.
Qed.

Lemma map_fst_seg_of D : map seg_first (map seg_of D) = map fst D.
Proof. rewrite map_map. apply map_ext. done. Qed.

Lemma segments_at dead L j f rs :
  L !! j = Some (f, rs) ->
  drop (S (length dead + j)) (map seg_of (dead ++ L)) = map seg_of (drop (S j) L) /\
  take (length dead + j) (map seg_of (dead ++ L)) = map seg_of (dead ++ take j L) /\
  map seg_of (dead ++ L) !! (length dead + j)%nat = Some (mkSegment f (size rs)).
Proof.
  intros Hj. change (map seg_of ?x) with (seg_of <$> x).
  rewrite list_lookup_fmap, lookup_app_r, <- fmap_drop, <- fmap_take by lia.
  rewrite drop_app_ge, take_app_ge by lia.
  replace (S (length dead + j) - length dead)%nat with (S j) by lia.
  replace (length dead + j - length dead)%nat with j by lia. by rewrite Hj.
Qed.

Lemma cut_rep p b dead L l i j m f rs t e d segs :
  rep p b dead L l -> L !! j = Some (f, rs) -> rs !! m = Some (t, e) -> f + Z.of_nat m = i ->
  p + 1 <= i -> positions l <> [] ->
  take (Z.to_nat (i - b)) (poss (length dead) L) =
    poss (length dead) (take j L) ++ pos_list (length dead + j) 0 (take m rs) ->
  disk p (dead ++ cut_segs L j m f rs) d ->
  segs = map seg_of (dead ++ cut_segs L j m f rs) ->
  rep p b dead (cut_segs L j m f rs)
    (mkLog d segs (take (Z.to_nat (i - first l)) (positions l)) (first l)).
Proof.
  intros [Hs _ _ Hpos Hf] Hj Hm Hi Hp Hne Eposs Hd ->. specialize (Hf Hne).
  pose proof (lookup_lt_Some _ _ _ Hj). constructor; cbn; try done.
  - eapply shape_cut; try done. lia.
  - rewrite cut_segs_poss, <- Eposs, Hpos, Hf by lia. rewrite skipn_firstn_comm. f_equal.
    destruct Hs. lia.
Qed.

Lemma truncate_rep p b dead L l i :
  rep p b dead L l ->
  exists l' L', truncate_from i l = Ok l' /\ rep p b dead L' l' /\
    live p b L' = if decide (p + 1 <= i) then take (Z.to_nat (i - (p + 1))) (live p b L)
                  else live p b L.
Proof.
  intros Hr. unfold truncate_from. destruct (pos i l) as [q|] eqn:Eq.
  2:{ exists l, L. split_and!; [done..|]. case_decide; [|done].
      destruct (pos_none _ _ _ _ _ _ Hr Eq) as [?|Hn]; [lia|]. apply lookup_ge_None in Hn.
      by rewrite take_ge by lia. }
  destruct (pos_some _ _ _ _ _ _ _ Hr Eq)
    as (j & f & rs & m & t & e & Hj & Hm & Hi & Hpi & -> & Etake & Eposs & _).
  assert (positions l <> []) as Hpne by (intros E; unfold pos in Eq; rewrite E in Eq; by case_if).
  pose proof (lookup_lt_Some _ _ _ Hm) as Hmlt. pose proof Hr as [Hs Hd Hsegs _ _].
  assert (live p b (cut_segs L j m f rs) = take (Z.to_nat (i - (p + 1))) (live p b L)) as Hlive.
  { unfold live. rewrite cut_segs_recs, <- Etake, skipn_firstn_comm. f_equal. destruct Hs. lia. }
  destruct (segments_at dead L j f rs Hj) as (D1 & D2 & D3).
  pose proof (disk_cut p dead L j m f rs _ (shape_NoDup _ _ _ _ Hs) Hj ltac:(lia) Hd) as Hd'.
  cbn [p_segment p_offset]. rewrite Hsegs, D1, D2, D3, map_fst_seg_of.
  cbn [or_panic mbind outcome_bind seg_first]. rewrite decide_True by done.
  destruct m as [|m].
  - cbn [take size]. replace (f =? i) with true by lia. cbn [Z.eqb andb].
    eexists _, (cut_segs L j 0 f rs). split; [reflexivity|]. split; [|done].
    eapply cut_rep; try done. unfold cut_segs. by rewrite app_nil_r.
  - assert (0 < size (take (S m) rs)) by (apply size_pos; by destruct rs).
    replace (size (take (S m) rs) =? 0) with false by lia. cbn [andb].
    eexists _, (cut_segs L j (S m) f rs). split; [reflexivity|]. split; [|done].
    eapply cut_rep; try done. unfold cut_segs. by rewrite (assoc (++)), (map_app _ _ [_]).
Qed.

(** ** Purging *)
Lemma good_idx_purge p q f rs x : p <= q -> good_idx p f rs x -> good_idx q f rs x.
Proof.
  intros Hq [H|(m & n & Hmn & Hn & Hx)]; [by left|]. right. exists m, n. split_and!; try done; lia.
Qed.

Lemma forget_loop_spec q ps : forall f,
  f <= q + 1 -> forget_loop q ps f =
    (drop (Z.to_nat (q + 1 - f)) ps, Z.min (q + 1) (f + lenZ ps)).
Proof.
  induction ps as [|x ps IH]; intros f Hf; cbn [forget_loop].
  - rewrite drop_nil. change (lenZ []) with 0. f_equal. lia.
  - rewrite lenZ_cons. pose proof (lenZ_nonneg ps). destruct (Z.leb_spec f q).
    + rewrite IH by lia. replace (Z.to_nat (q + 1 - f)) with (S (Z.to_nat (q + 1 - (f + 1)))) by lia.
      cbn [drop]. f_equal. lia.
    + replace (q + 1 - f) with 0 by lia. cbn [drop Z.to_nat]. f_equal. lia.
Qed.

(** What [forget_upto] leaves of positions that start at [f]. *)
Lemma forget_upto_spec q l f X n :
  positions l = drop n X -> (positions l <> [] -> first l = f) -> f <= q + 1 ->
  positions (forget_upto q l) = drop (n + Z.to_nat (q + 1 - f)) X /\
  first (forget_upto q l) = q + 1 /\
  segments (forget_upto q l) = segments l /\ dir (forget_upto q l) = dir l.
Proof.
  intros Hp Hf Hle. unfold forget_upto. destruct (positions l) as [|x ps] eqn:E.
  - cbn. split_and!; try done. rewrite <- drop_drop, <- Hp. by rewrite drop_nil.
  - rewrite Hf, forget_loop_spec by done. cbn [positions first segments dir].
    rewrite Hp, drop_drop. split_and!; try done. case_match eqn:Ed; [done|].
    apply (f_equal length) in Ed. rewrite length_drop in Ed. cbn [length] in Ed.
    unfold lenZ. rewrite length_drop. lia.
Qed.

Lemma disk_remove_first p D f rs d :
  NoDup (map fst ((f, rs) :: D)) -> disk p ((f, rs) :: D) d -> disk p D (remove_file f d).
Proof.
  intros Hnd [Hl Hi Hm]. cbn [map fst] in Hnd. apply NoDup_cons in Hnd as [Hf Hnd].
  constructor; cbn; [by rewrite Hl, files_delete_first|..|done].
  intros f' rs' x Hin Hx. apply lookup_delete_Some in Hx as [_ Hx]. apply (Hi f' rs'); [set_solver|done].
Qed.

Lemma poss_lower k L : map lower_segment (poss (S k) L) = poss k L.
Proof.
  revert k. induction L as [|[f rs] L IH]; intros k; cbn [poss]; [done|].
  rewrite map_app, IH. f_equal. generalize 0. induction rs as [|[t e] rs IHr]; intros off; cbn; [done|].
  unfold lower_segment at 1. cbn. rewrite IHr. do 2 f_equal. lia.
Qed.

Lemma map_drop {A B} (f : A -> B) n l : map f (drop n l) = drop n (map f l).
Proof. apply fmap_drop. Qed.

Lemma purge_dead q b L n dead : forall d,
  below b dead -> starts b L -> b <= q + 1 -> NoDup (map fst (dead ++ L)) -> disk q (dead ++ L) d ->
  exists d', disk q L d' /\
    purge_loop q (map seg_of (dead ++ L)) (drop n (poss (length dead) L)) d =
    purge_loop q (map seg_of L) (drop n (poss 0 L)) d'.
Proof.
  induction dead as [|[f rs] dead IH]; intros d Hb Hs Hq Hnd Hd; [by exists d|].
  destruct Hb as (_ & _ & Hend & Hb). cbn [app map length purge_loop] in *.
  apply (disk_remove_first q) in Hd; [|done]. apply NoDup_cons in Hnd as [_ Hnd].
  destruct (IH _ Hb Hs Hq Hnd Hd) as (d' & Hd' & E). exists d'. split; [done|]. rewrite <- E.
  rewrite map_drop, poss_lower. pose proof (lenZ_nonneg rs).
  destruct dead as [|[f2 rs2] dead].
  - destruct L as [|[f2 rs2] L]; cbn [app map poss length seg_of seg_first fst].
    + rewrite !drop_nil. by rewrite bool_decide_true.
    + destruct Hs as [-> _]. by replace (b <=? q + 1) with true by lia.
  - destruct (below_end _ _ f2 rs2 Hb) as (_ & _ & ?); [by left|]. pose proof (lenZ_nonneg rs2).
    cbn [app map seg_of seg_first fst]. by replace (f2 <=? q + 1) with true by lia.
Qed.

(** [L'] is what is left of segments [L] from [b] purged up to [q]. *)
Definition purges (q b : Z) (L : list seg) (r : list Segment * list Pos * Dir) : Prop :=
  exists A L' b' d',
    L = A ++ L' /\ starts b' L' /\ b <= b' <= q + 1 /\ q + 1 <= b' + lenZ (recs L') /\
    (L' = [] \/ b' + lenZ (recs L') = b + lenZ (recs L)) /\ (L' = [] -> b' = q + 1) /\
    drop (Z.to_nat (q + 1 - b)) (recs L) = drop (Z.to_nat (q + 1 - b')) (recs L') /\
    disk q L' d' /\ r = (map seg_of L', drop (Z.to_nat (q + 1 - b')) (poss 0 L'), d').

Lemma purges_none q b d :
  b <= q + 1 -> disk q [] d -> purges q b [] ([], [], d).
Proof.
  intros Hq Hd. exists [], [], (q + 1), d. change (lenZ (recs [])) with 0. cbn. rewrite !drop_nil.
  split_and!; try done; try lia. by left.
Qed.

Lemma purges_all q b L d :
  starts b L -> L <> [] -> b <= q + 1 -> q + 1 <= b + lenZ (recs L) -> disk q L d ->
  purges q b L (map seg_of L, drop (Z.to_nat (q + 1 - b)) (poss 0 L), d).
Proof. intros. exists [], L, b, d. split_and!; try done; lia. Qed.

Lemma purges_cons q b rs L r :
  b + lenZ rs <= q + 1 -> purges q (b + lenZ rs) L r -> purges q b ((b, rs) :: L) r.
Proof.
  intros Hle (A & L' & b' & d' & -> & H1 & H2 & H3 & H4 & H5 & H6 & H7 & ->).
  pose proof (lenZ_nonneg rs). exists ((b, rs) :: A), L', b', d'.
  rewrite recs_cons, lenZ_app. split_and!; try done; try lia; [destruct H4; [by left|right; lia]|].
  rewrite drop_app_ge by (unfold lenZ in *; lia). rewrite <- H6. f_equal. unfold lenZ. lia.
Qed.

Lemma purge_live q L : forall b d,
  starts b L -> b <= q + 1 -> NoDup (map fst L) -> disk q L d ->
  purges q b L (purge_loop q (map seg_of L) (drop (Z.to_nat (q + 1 - b)) (poss 0 L)) d).
Proof.
  induction L as [|[f rs] L IH]; intros b d Hs Hq Hnd Hd.
  { cbn. rewrite drop_nil. by apply purges_none. }
  assert (Hs0 := Hs). destruct Hs as [-> Hs]. pose proof (lenZ_nonneg rs).
  assert (disk q L (remove_file b d)) as Hd' by (by apply (disk_remove_first q _ b rs)).
  assert (b + lenZ rs <= q + 1 ->
    map lower_segment (drop (Z.to_nat (q + 1 - b)) (poss 0 ((b, rs) :: L))) =
    drop (Z.to_nat (q + 1 - (b + lenZ rs))) (poss 0 L)) as Hps.
  { intros Hle. rewrite map_drop. cbn [poss]. rewrite map_app, poss_lower.
    unfold lenZ in *. rewrite drop_app_ge by (rewrite length_map, pos_list_length; lia).
    f_equal. rewrite length_map, pos_list_length. lia. }
  assert (q + 1 <= b + lenZ (recs ((b, rs) :: L)) -> purges q b ((b, rs) :: L)
    (map seg_of ((b, rs) :: L), drop (Z.to_nat (q + 1 - b)) (poss 0 ((b, rs) :: L)), d)) as Hall
    by (intros; by apply purges_all).
  rewrite recs_cons, lenZ_app in Hall. pose proof (lenZ_nonneg (recs L)).
  cbn [map purge_loop]. change (seg_of (b, rs) :: map seg_of L) with (map seg_of ((b, rs) :: L)) in *.
  destruct L as [|[f1 rs1] L1].
  - cbn [map]. assert (lenZ (poss 0 [(b, rs)]) = lenZ rs) as Hl
      by (unfold lenZ; by rewrite poss_length, recs_cons, app_nil_r).
    case_bool_decide as E; [|apply Hall].
    + assert (b + lenZ rs <= q + 1) as Hle.
      { apply (f_equal length) in E. rewrite length_drop in E. unfold lenZ in *. cbn [length] in E. lia. }
      apply purges_cons; [done|]. cbn [purge_loop]. rewrite Hps by done. cbn [poss].
      rewrite drop_nil. by apply purges_none.
    + destruct (Z.le_gt_cases (q + 1) (b + lenZ rs)); [lia|]. exfalso. apply E, drop_ge.
      unfold lenZ in *. lia.
  - destruct Hs as [-> Hs]. cbn [map seg_of seg_first fst].
    destruct (Z.leb_spec (b + lenZ rs) (q + 1)) as [Hle|]; [|apply Hall; lia].
    apply purges_cons; [done|]. rewrite Hps by done.
    apply (IH (b + lenZ rs)); try done. by apply NoDup_cons in Hnd as [_ Hnd].
Qed.

Lemma disk_record_purge p q c D d :
  p <= q -> 0 <= q -> disk p D d ->
  disk q D (mkDir (logs d) (idxs d) (Some (purge_marker q c)) (committed_file d)).
Proof.
  intros Hp Hq [Hl Hi Hm]. constructor; cbn; [done| |].
  - intros f rs x Hin Hx. apply (good_idx_purge p q f rs x Hp). by apply Hi.
  - unfold marker. rewrite decide_False by lia. by exists c.
Qed.

Lemma shape_suffix p q b b' dead A L' :
  shape p b dead (A ++ L') -> p <= q -> 0 <= b' -> b' <= q + 1 -> q + 1 <= b' + lenZ (recs L') ->
  b' + lenZ (recs L') < two64 -> starts b' L' -> shape q b' [] L'.
Proof.
  intros [] Hp Hb0 Hb Hq Hn Hs. constructor; try done; try lia.
  - destruct L' as [|s L']; [done|]. rewrite removelast_app in s_sealed0 by done.
    by apply Forall_app in s_sealed0 as [_ ?].
  - rewrite !Forall_app in s_ok0. tauto.
Qed.

Lemma purge_rep p b dead L l q c :
  rep p b dead L l -> p <= q -> 0 <= q -> q + 1 < two64 ->
  exists b' L', rep q b' [] L' (purge_upto q (record_purge q c l)) /\
    live q b' L' = drop (Z.to_nat (q - p)) (live p b L).
Proof.
  intros Hr Hp Hq Hn. set (l1 := record_purge q c l). pose proof Hr as [Hs Hd Hsegs Hpos Hf].
  pose proof (disk_record_purge p q c _ _ Hp Hq Hd) as Hd1. pose proof (shape_NoDup _ _ _ _ Hs) as Hnd.
  pose proof Hs as [].
  destruct (forget_upto_spec q l1 (p + 1) (poss (length dead) L) (Z.to_nat (p + 1 - b)))
    as (F1 & F2 & F3 & F4); [done|done|lia|].
  replace (Z.to_nat (p + 1 - b) + Z.to_nat (q + 1 - (p + 1)))%nat with (Z.to_nat (q + 1 - b)) in F1 by lia.
  unfold purge_upto. rewrite F1, F3, F4, F2. cbn [segments dir l1 record_purge set_dir]. rewrite Hsegs.
  destruct (purge_dead q b L (Z.to_nat (q + 1 - b)) dead _ s_below0 s_starts0 ltac:(lia) Hnd Hd1)
    as (d2 & Hd2 & ->).
  rewrite map_app in Hnd. apply NoDup_app in Hnd as (_ & _ & Hnd).
  destruct (purge_live q L b d2 s_starts0 ltac:(lia) Hnd Hd2)
    as (A & L' & b' & d' & HL & H1 & H2 & H3 & H4 & H5 & H6 & H7 & ->).
  exists b', L'. assert (shape q b' [] L') as Hs'.
  { subst L. apply (shape_suffix p q b b' dead A L'); try done; try lia.
    destruct H4 as [->|H4]; [rewrite H5 by done; change (lenZ (recs [])) with 0; lia|lia]. }
  split; [by constructor|]. unfold live. rewrite <- H6, drop_drop. f_equal. lia.
Qed.

Lemma starts_below x L : forall b,
  starts b L -> Forall (fun s => snd s <> []) L -> 0 <= b -> b + lenZ (recs L) <= x -> below x L.
Proof.
  induction L as [|[f rs] L IH]; intros b Hs Hne Hb Hx; [done|].
  destruct Hs as [-> Hs]. apply Forall_cons in Hne as [Hrs Hne].
  rewrite recs_cons, lenZ_app in Hx. pose proof (lenZ_nonneg rs). pose proof (lenZ_nonneg (recs L)).
  cbn [below]. split_and!; try done; [|apply (IH (b + lenZ rs)); try done; lia].
  destruct L as [|[f' rs'] L]; [lia|]. destruct Hs as [-> _]. lia.
Qed.

Lemma below_app b x D L :
  below b D -> starts b L -> Forall (fun s => snd s <> []) L -> 0 <= b -> b + lenZ (recs L) <= x ->
  below x (D ++ L).
Proof.
  intros HD Hs Hne Hb Hx. induction D as [|[f rs] D IH]; cbn [app below]; [by apply (starts_below x L b)|].
  destruct HD as (H1 & H2 & H3 & H4). split_and!; try done; [|by apply IH].
  destruct D as [|[f' rs'] D]; [|done]. cbn [app]. pose proof (lenZ_nonneg (recs L)).
  destruct L as [|[f' rs'] L]; [lia|]. destruct Hs as [-> _]. lia.
Qed.

(** The segments of a log whose purge to [q] was only recorded. *)
Lemma shape_recorded p q b dead L :
  shape p b dead L -> p <= q -> q + 1 < two64 ->
  q + 1 <= b + lenZ (recs L) \/ Forall (fun s => snd s <> []) L ->
  exists b' dead' L', dead' ++ L' = dead ++ L /\ shape q b' dead' L' /\
    live q b' L' = drop (Z.to_nat (q - p)) (live p b L).
Proof.
  intros Hs Hp Hq Hc. pose proof Hs as [].
  destruct (Z.le_gt_cases (q + 1) (b + lenZ (recs L))) as [Hle|Hgt].
  - exists b, dead, L. split_and!; [done|constructor; try done; lia|].
    unfold live. rewrite drop_drop. f_equal. lia.
  - destruct Hc as [?|Hne]; [lia|]. exists (q + 1), (dead ++ L), [].
    rewrite app_nil_r. split_and!; [done| |].
    + constructor; try done; try lia; [change (lenZ (recs [])) with 0; lia| |by rewrite app_nil_r].
      apply (below_app b); try done; lia.
    + unfold live. cbn [recs map concat]. rewrite !drop_nil, drop_drop, drop_ge; [done|]. unfold lenZ in *. lia.
Qed.

(** ** Opening *)
Lemma size_take_full m rs : size (take m rs) = size rs -> (length rs <= m)%nat.
Proof.
  intros E. pose proof (size_app (take m rs) (drop m rs)) as H. rewrite take_drop in H.
  destruct (Nat.le_gt_cases (length rs) m); [done|].
  assert (drop m rs <> []) as Hne%size_pos; [|lia].
  intros E0. apply (f_equal length) in E0. rewrite length_drop in E0. cbn in E0. lia.
Qed.

(** What a good index file of a segment says of it. *)
Lemma good_idx_decode p f rs x k :
  0 <= f -> f + lenZ rs < two64 -> Forall rec_ok rs -> size rs < two64 -> good_idx p f rs x ->
  decode_index x k (size rs) = None \/
  exists n, (n < length rs)%nat /\ Z.of_nat n <= Z.max 0 (p + 1 - f) /\
    decode_index x k (size rs) = Some (f + Z.of_nat n, drop n (pos_list k 0 rs)).
Proof.
  intros Hf Hn Hok Hsz [H|(m & n & Hmn & Hle & Hx)]; [by left|]. rewrite (Hx 0%nat).
  pose proof (size_app (take m rs) (drop m rs)) as E1. rewrite take_drop in E1.
  pose proof (size_app (take n (take m rs)) (drop n (take m rs))) as E2. rewrite take_drop in E2.
  pose proof (size_nonneg (drop m rs)). pose proof (size_nonneg (drop n (take m rs))).
  pose proof (size_nonneg (take n (take m rs))). pose proof (size_nonneg (take m rs)).
  rewrite drop_pos_list, decode_encode_index.
  - destruct (_ && _) eqn:E; [|by left]. right. bool_to_prop.
    assert (length rs <= m)%nat as Hm by (by apply size_take_full).
    rewrite (take_ge rs m) in * by lia. exists n. split_and!; [lia|done|].
    by rewrite drop_pos_list.
  - intros E. apply (f_equal length) in E. rewrite length_drop, length_take in E. cbn in E. lia.
  - by apply Forall_drop, Forall_take.
  - unfold is_u64. lia.
  - unfold is_u64, lenZ in *. lia.
  - lia.
  - lia.
Qed.

(** What loading the segment [rs] at [f] does to a log: positions from the
    [n]th record on, those before it purged. *)
Definition reads (p f : Z) (rs : list rec) (l l' : RaftLog) : Prop :=
  exists n, (n <= length rs)%nat /\ Z.of_nat n <= Z.max 0 (p + 1 - f) /\
    segments l' = segments l ++ [mkSegment f (size rs)] /\
    positions l' = positions l ++ drop n (pos_list (length (segments l)) 0 rs) /\
    first l' = match positions l, drop n rs with [], _ :: _ => f + Z.of_nat n | _, _ => first l end.

(** The directory while [open] reads it: only index files are written. *)
Definition opening (p : Z) (D : list seg) (d0 : Dir) (l : RaftLog) : Prop :=
  logs (dir l) = logs d0 /\ idx_good p D (dir l) /\ purged_file (dir l) = purged_file d0.

Definition loads (p : Z) (D : list seg) (f : Z) (rs : list rec) (l l' : RaftLog) : Prop :=
  opening p D (dir l) l' /\ reads p f rs l l'.

(** The log carries on at [f], and holds no position of a later segment. *)
Definition ready (p f : Z) (l : RaftLog) : Prop :=
  positions l = [] \/
  next_index l = Some f /\ p + 1 <= f /\ Forall (fun q => p_segment q < length (segments l))%nat (positions l).

Lemma first_extend (ps : list Pos) n k off rs (a b : Z) :
  match ps, drop n (pos_list k off rs) with [], _ :: _ => a | _, _ => b end =
  match ps, drop n rs with [], _ :: _ => a | _, _ => b end.
Proof.
  destruct ps; [|done]. rewrite drop_pos_list. by destruct (drop n rs) as [|[t e] ?].
Qed.

Lemma from_index_loads p D f rs l l' :
  idx_good p D (dir l) -> (f, rs) ∈ D -> 0 <= f -> f + lenZ rs < two64 -> Forall rec_ok rs ->
  size rs < two64 -> from_index f (size rs) l = Some l' -> loads p D f rs l l'.
Proof.
  intros Hi Hin Hf Hn Hok Hsz H. unfold from_index in H.
  destruct (idxs (dir l) !! f) as [x|] eqn:Ex; [|done]. cbn [mbind option_bind] in H.
  destruct (good_idx_decode p f rs x (length (segments l)) Hf Hn Hok Hsz (Hi _ _ _ Hin Ex))
    as [E|(n & Hn1 & Hn2 & E)]; rewrite E in H; [done|]. cbn [mbind option_bind] in H.
  case_if; simplify_eq. split; [done|]. exists n. cbn. split_and!; try done; [lia|]. apply first_extend.
Qed.

Lemma read_segment_loads p D f rs l last :
  idx_good p D (dir l) -> NoDup (map fst D) -> (f, rs) ∈ D -> ready p f l ->
  0 <= f -> f + lenZ rs < two64 -> Forall rec_ok rs ->
  exists l', read_segment f last (seg_bytes f rs) l = Ok l' /\ loads p D f rs l l'.
Proof.
  intros Hi Hnd Hin Hrd Hf Hn Hok. unfold read_segment.
  assert (match next_index l with
          | Some next => if negb (f =? next) then Err (Corrupt 0) else Ok ()
          | None => Ok () end = Ok ()) as ->.
  { destruct Hrd as [E|(-> & _)]; [by unfold next_index; rewrite E|]. by rewrite Z.eqb_refl. }
  cbn [mbind outcome_bind]. rewrite load_loop_whole by (done || lia). cbn [mbind outcome_bind].
  rewrite seg_bytes_length, Z.ltb_irrefl. eexists. split; [reflexivity|].
  set (l1 := push_segment _ _).
  assert (positions l1 = positions l ++ pos_list (length (segments l)) 0 rs /\
    first l1 = match positions l, drop 0 rs with [], _ :: _ => f + Z.of_nat 0 | _, _ => first l end) as [Hp1 Hf1].
  { unfold l1. cbn. split; [done|]. rewrite Z.add_0_r. apply (first_extend _ 0). }
  destruct last.
  { split; [done|]. exists 0%nat. split_and!; try done; lia. }
  destruct (write_index_good p (length (segments l)) l1 f rs 0 (positions l)) as [->|(x & Hx & ->)].
  - unfold l1. cbn [push_segment extend set_dir segments]. rewrite lookup_app_r by lia.
    by rewrite Nat.sub_diag.
  - done.
  - destruct Hrd as [->|(_ & _ & Hs)]; [done|]. eapply Forall_impl; [exact Hs|]. cbn. lia.
  - lia.
  - intros Hlt. rewrite Hf1. cbn [drop]. destruct Hrd as [E|(E & _ & _)].
    + rewrite E. destruct rs; [cbn in Hlt; lia|]. change (lenZ []) with 0. cbn. lia.
    + unfold next_index in E. destruct (positions l) as [|q ps]; [done|]. simplify_eq. lia.
  - split; [done|]. exists 0%nat. split_and!; try done; lia.
  - split; [split_and!; try done; by apply idx_good_set with (rs := rs)|].
    exists 0%nat. split_and!; try done; lia.
Qed.

Definition purged_of (p : Z) : option Z := if decide (p = -1) then None else Some p.
Definition forgotten (p : Z) (l : RaftLog) : RaftLog :=
  match purged_of p with Some p => forget_upto p l | None => l end.

Lemma load_one p D d0 f rs rest l :
  opening p D d0 l -> NoDup (map fst D) -> (f, rs) ∈ D -> logs d0 !! f = Some (seg_bytes f rs) ->
  ready p f l -> 0 <= f -> f + lenZ rs < two64 -> Forall rec_ok rs -> size rs < two64 ->
  exists l', loads p D f rs l l' /\ opening p D d0 (forgotten p l') /\
    load_segments (f :: rest) (purged_of p) l = load_segments rest (purged_of p) (forgotten p l').
Proof.
  intros (Ho1 & Ho2 & Ho3) Hnd Hin Hlog Hrd Hf Hn Hok Hsz. cbn [load_segments]. unfold load_segment.
  rewrite Ho1, Hlog. cbn [ok_or mbind outcome_bind]. rewrite seg_bytes_length.
  set (last := bool_decide (rest = [])).
  assert (exists l', loads p D f rs l l' /\
    match (if last then None else from_index f (size rs) l) with
    | Some l' => Ok l' | None => read_segment f last (seg_bytes f rs) l end = Ok l')
    as (l' & Hl & E).
  { destruct (if last then None else from_index f (size rs) l) as [l'|] eqn:E.
    - exists l'. split; [|done]. destruct last; [done|]. by eapply from_index_loads.
    - destruct (read_segment_loads p D f rs l last) as (l' & E1 & E2); try done. by exists l'. }
  rewrite E. cbn [mbind outcome_bind]. exists l'. split; [done|]. split; [|done].
  destruct Hl as [(H1 & H2 & H3) _].
  assert (dir (forgotten p l') = dir l') as Ed.
  { unfold forgotten, forget_upto. destruct (purged_of p); [|done]. by destruct forget_loop. }
  unfold opening. by rewrite Ed, H1, H3.
Qed.

(** A purged segment leaves nothing behind but its name. *)
Lemma forgotten_dead p f rs l l' :
  reads p f rs l l' -> positions l = [] -> 0 <= f -> rs <> [] -> f + lenZ rs <= p + 1 ->
  segments (forgotten p l') = segments l ++ [mkSegment f (size rs)] /\ positions (forgotten p l') = [].
Proof.
  intros (n & Hn1 & Hn2 & Hs & Hp & Hf) Hnil Hf0 Hne Hle. rewrite Hnil in *.
  cbn [app] in Hp. pose proof (lenZ_nonneg rs).
  assert (rs <> [] -> 0 < lenZ rs) as Hpos by (destruct rs; [done|rewrite lenZ_cons; pose proof (lenZ_nonneg rs); lia]).
  specialize (Hpos Hne). unfold forgotten, purged_of. rewrite decide_False by lia.
  destruct (forget_upto_spec p l' (f + Z.of_nat n) (pos_list (length (segments l)) 0 rs) n)
    as (F1 & _ & F3 & _); [done| |lia|].
  - intros Hpn. rewrite Hf. rewrite Hp, drop_pos_list in Hpn. by destruct (drop n rs).
  - rewrite F1, F3, Hs, drop_ge; [done|]. rewrite pos_list_length. unfold lenZ in *. lia.
Qed.

Lemma forgotten_live p b (dead L1 : list seg) f rs l l' :
  reads p f rs l l' -> -1 <= p -> 0 <= b <= p + 1 -> f = b + lenZ (recs L1) ->
  length (segments l) = (length dead + length L1)%nat ->
  positions l = drop (Z.to_nat (p + 1 - b)) (poss (length dead) L1) ->
  (positions l <> [] -> first l = p + 1) ->
  segments (forgotten p l') = segments l ++ [mkSegment f (size rs)] /\
  positions (forgotten p l') = drop (Z.to_nat (p + 1 - b)) (poss (length dead) (L1 ++ [(f, rs)])) /\
  (positions (forgotten p l') <> [] -> first (forgotten p l') = p + 1).
Proof.
  intros (n & Hn1 & Hn2 & Hs & Hp & Hf) Hlow Hb Ef Hk Hpos Hfirst.
  rewrite poss_app. cbn [poss]. rewrite app_nil_r, drop_app, poss_length, <- Hk.
  set (k := length (segments l)) in *.
  set (n0 := Z.to_nat (p + 1 - b)) in *.
  destruct (decide (positions l = [])) as [E|E].
  - rewrite E in *. cbn [app] in Hp. symmetry in Hpos. rewrite Hpos. cbn [app].
    apply (f_equal length) in Hpos. rewrite length_drop, poss_length in Hpos. cbn [length] in Hpos.
    assert (positions l' <> [] -> first l' = f + Z.of_nat n) as Hf'.
    { rewrite Hp, Hf, drop_pos_list. by destruct (drop n rs). }
    unfold forgotten, purged_of. unfold lenZ in *. case_decide.
    + assert (n = 0)%nat as -> by lia. rewrite Hp, Hs. split_and!; [done|f_equal; lia|]. 
      rewrite <- Hp. intros Hx. rewrite (Hf' Hx). lia.
    + destruct (forget_upto_spec p l' (f + Z.of_nat n) (pos_list k 0 rs) n) as (F1 & F2 & F3 & _);
        [done|done|lia|]. rewrite F1, F2, F3, Hs. split_and!; [done|f_equal; lia|done].
  - assert (n0 < length (poss (length dead) L1))%nat as Hlt.
    { destruct (Nat.lt_ge_cases n0 (length (poss (length dead) L1))); [done|].
      rewrite drop_ge in Hpos by lia. done. }
    rewrite poss_length in Hlt. unfold lenZ in *.
    assert (n = 0)%nat as -> by lia. rewrite <- Hpos.
    replace (n0 - length (recs L1))%nat with 0%nat by lia.
    assert (first l' = p + 1) as Hf' by (rewrite Hf; destruct (positions l); [done|by apply Hfirst]).
    unfold forgotten, purged_of. case_decide; [by rewrite Hs, Hp|].
    destruct (forget_upto_spec p l' (p + 1) (positions l') 0) as (F1 & F2 & F3 & _); [done|done|lia|].
    rewrite F1, F2, F3, Hs, Z.sub_diag. cbn [Z.to_nat Nat.add]. rewrite drop_0, Hp. done.
Qed.

Definition files_in (d : Dir) (D : list seg) : Prop :=
  forall f rs, (f, rs) ∈ D -> logs d !! f = Some (seg_bytes f rs).

Lemma load_dead p b dead L d0 rest :
  shape p b dead L -> files_in d0 dead ->
  forall dead2 dead1 l, dead = dead1 ++ dead2 -> opening p (dead ++ L) d0 l ->
    segments l = map seg_of dead1 -> positions l = [] ->
  exists l', load_segments (map fst dead2 ++ rest) (purged_of p) l = load_segments rest (purged_of p) l' /\
    opening p (dead ++ L) d0 l' /\ segments l' = map seg_of dead /\ positions l' = [].
Proof.
  intros Hs Hfiles. induction dead2 as [|[f rs] dead2 IH]; intros dead1 l HD Ho Hsegs Hpos.
  { rewrite app_nil_r in HD. subst dead1. by exists l. }
  assert ((f, rs) ∈ dead) as Hin by set_solver.
  destruct (below_end _ _ _ _ (s_below _ _ _ _ Hs) Hin) as (Hf0 & Hne & Hend).
  destruct (shape_seg _ _ _ _ f rs Hs) as (_ & Hn & Hok & Hsz); [set_solver|].
  pose proof (s_base _ _ _ _ Hs).
  destruct (load_one p (dead ++ L) d0 f rs (map fst dead2 ++ rest) l) as (l1 & Hl & Ho1 & E); try done.
  { by eapply shape_NoDup. } { set_solver. } { by apply Hfiles. } { by left. }
  destruct (forgotten_dead _ _ _ _ _ (proj2 Hl) Hpos Hf0 Hne) as [Hs1 Hp1]; [lia|].
  destruct (IH (dead1 ++ [(f, rs)]) (forgotten p l1)) as (l' & E' & H'); try done.
  { by rewrite <- (assoc (++)). }
  { by rewrite Hs1, Hsegs, map_app. }
  exists l'. cbn [map app fst]. by rewrite E, E'.
Qed.

Lemma ready_live p b (dead L1 : list seg) l f :
  0 <= b <= p + 1 -> f = b + lenZ (recs L1) ->
  length (segments l) = (length dead + length L1)%nat ->
  positions l = drop (Z.to_nat (p + 1 - b)) (poss (length dead) L1) ->
  (positions l <> [] -> first l = p + 1) -> ready p f l.
Proof.
  intros Hb -> Hk Hpos Hfirst. destruct (decide (positions l = [])) as [|Hne]; [by left|].
  right. assert (Hne' := Hne). rewrite Hpos in Hne'.
  assert (Z.to_nat (p + 1 - b) < length (recs L1))%nat as Hlt.
  { destruct (Nat.lt_ge_cases (Z.to_nat (p + 1 - b)) (length (recs L1))); [done|].
    rewrite drop_ge in Hne' by (by rewrite poss_length). done. }
  unfold lenZ. split_and!; [|lia|].
  - unfold next_index. specialize (Hfirst Hne). destruct (positions l) as [|q ps] eqn:E; [done|].
    rewrite Hfirst, Hpos. unfold lenZ. rewrite length_drop, poss_length. f_equal. lia.
  - rewrite Hpos. apply Forall_drop. eapply Forall_impl; [apply poss_segment|]. cbn. lia.
Qed.

Lemma load_live p b dead L d0 rest :
  shape p b dead L ->
  forall L2 L1 L3 l, L = L1 ++ L2 ++ L3 -> files_in d0 L2 -> opening p (dead ++ L) d0 l ->
    segments l = map seg_of (dead ++ L1) ->
    positions l = drop (Z.to_nat (p + 1 - b)) (poss (length dead) L1) ->
    (positions l <> [] -> first l = p + 1) ->
  exists l', load_segments (map fst L2 ++ rest) (purged_of p) l = load_segments rest (purged_of p) l' /\
    opening p (dead ++ L) d0 l' /\ segments l' = map seg_of (dead ++ L1 ++ L2) /\
    positions l' = drop (Z.to_nat (p + 1 - b)) (poss (length dead) (L1 ++ L2)) /\
    (positions l' <> [] -> first l' = p + 1).
Proof.
  intros Hs. induction L2 as [|[f rs] L2 IH]; intros L1 L3 l HL Hfiles Ho Hsegs Hpos Hfirst.
  { rewrite app_nil_r. by exists l. }
  assert ((f, rs) ∈ L) as Hin by set_solver.
  destruct (shape_seg _ _ _ _ f rs Hs) as (Hf0 & Hn & Hok & Hsz); [set_solver|].
  pose proof Hs as []. pose proof s_starts0 as Hst. rewrite HL in Hst. apply starts_app in Hst as [_ [Ef _]].
  assert (length (segments l) = (length dead + length L1)%nat) as Hk
    by (by rewrite Hsegs, length_map, length_app).
  destruct (load_one p (dead ++ L) d0 f rs (map fst L2 ++ rest) l) as (l1 & Hl & Ho1 & E); try done.
  { by eapply shape_NoDup. } { set_solver. } { apply Hfiles. by left. }
  { by eapply ready_live. }
  destruct (forgotten_live p b dead L1 f rs l l1 (proj2 Hl)) as (Hs1 & Hp1 & Hf1); try done.
  destruct (IH (L1 ++ [(f, rs)]) L3 (forgotten p l1)) as (l' & E' & H'); try done.
  { by rewrite HL, <- !(assoc (++)). }
  { intros ? ? ?. apply Hfiles. by right. }
  { rewrite Hs1, Hsegs, (assoc (++)). symmetry. apply map_app. }
  exists l'. cbn [map app fst]. rewrite E, E'. by rewrite <- (assoc (++)) in H'.
Qed.

Lemma open_marker p d : marker p (purged_file d) -> -1 <= p -> p + 1 < two64 ->
  open d = load_segments (sorted_firsts d) (purged_of p) (mkLog d [] [] 0).
Proof.
  intros Hm Hp Hq. unfold open, marker, purged_of in *. case_decide.
  - rewrite Hm. done.
  - destruct Hm as [c ->]. rewrite parse_purge_marker by (unfold is_u64; lia). done.
Qed.

(** Opening a directory gives the log that left it. *)
Lemma open_rep p b dead L d :
  shape p b dead L -> disk p (dead ++ L) d -> exists l, open d = Ok l /\ rep p b dead L l.
Proof.
  intros Hs [Hl Hi Hm]. pose proof Hs as [].
  rewrite (open_marker p) by (done || lia). rewrite (sorted_firsts_files _ _ _ _ _ Hs Hl).
  assert (files_in d (dead ++ L)) as Hfi.
  { intros f rs Hin. rewrite Hl. apply files_lookup; [by eapply shape_NoDup|done]. }
  destruct (load_dead p b dead L d (map fst L) Hs) with (dead2 := dead) (dead1 := @nil seg)
    (l := mkLog d [] [] 0) as (l1 & E1 & Ho1 & Hs1 & Hp1); try done.
  { intros f rs Hin. apply Hfi. set_solver. }
  destruct (load_live p b dead L d [] Hs L [] [] l1) as (l2 & E2 & (Ho2 & Ho3 & Ho4) & Hs2 & Hp2 & Hf2);
    try done.
  { by rewrite app_nil_r. }
  { intros f rs Hin. apply Hfi. set_solver. }
  { by rewrite app_nil_r. }
  { rewrite Hp1. cbn. by rewrite drop_nil. }
  rewrite map_app, E1. rewrite app_nil_r in E2. rewrite E2. cbn [load_segments]. exists l2. split; [done|].
  constructor; try done. constructor; [by rewrite Ho2|done|by rewrite Ho4].
Qed.

(** ** Opening after a crash in the middle of an append *)
Lemma load_loop_tail f rs t k last :
  0 <= f -> f + lenZ rs < two64 -> Forall rec_ok rs ->
  let data := seg_bytes f rs ++ t in
  exists fuel, (length t <= fuel)%nat /\
    load_loop (length data) last data k 0 f =
    '(ps, good) ← load_loop fuel last data k (size rs) (f + lenZ rs);
    Ok (pos_list k 0 rs ++ ps, good).
Proof.
  intros Hf Hn Hok data. pose proof (size_length rs) as Hl. rewrite <- (seg_bytes_length f) in Hl.
  unfold lenZ, HEADER in Hl. exists (length data - length rs)%nat.
  assert (length data = length (seg_bytes f rs) + length t)%nat as Hd by (unfold data; by rewrite length_app).
  split; [lia|].
  replace (length data) with (length rs + (length data - length rs))%nat at 1 by lia.
  apply (load_loop_records rs _ last [] t k f Hf); [lia|done].
Qed.

(** Records beyond those known are whole and carry on the log. *)
Lemma read_segment_tail p f rs t l l' :
  ready p f l -> 0 <= f -> f + lenZ rs + lenZ t < two64 -> Forall rec_ok rs ->
  logs (dir l) !! f = Some (seg_bytes f rs ++ t) ->
  read_segment f true (seg_bytes f rs ++ t) l = Ok l' ->
  exists rs' junk, t = seg_bytes (f + lenZ rs) rs' ++ junk /\ Forall rec_ok rs' /\
    reads p f (rs ++ rs') l l' /\
    logs (dir l') = <[f := seg_bytes f (rs ++ rs')]> (logs (dir l)) /\
    idxs (dir l') = idxs (dir l) /\ purged_file (dir l') = purged_file (dir l).
Proof.
  intros Hrd Hf Hn Hok Hlog H. unfold read_segment in H. inv_ok.
  pose proof (lenZ_nonneg t). set (data := seg_bytes f rs ++ t) in *.
  assert (lenZ data = size rs + lenZ t) as Hdl by (unfold data; by rewrite lenZ_app, seg_bytes_length).
  destruct (load_loop_tail f rs t (length (segments l)) true Hf ltac:(lia) Hok) as (fuel & Hfu & E).
  fold data in E. match goal with H : load_loop _ _ _ _ _ _ = Ok _ |- _ => rewrite E in H end.
  inv_ok. simplify_eq.
  match goal with H : load_loop _ _ _ _ _ _ = Ok _ |- _ => apply load_loop_inv in H as
    (rs' & -> & -> & Hg & Hok' & _ & Ht) end; [|pose proof (size_nonneg rs); lia].
  assert (take (Z.to_nat (size rs)) data = seg_bytes f rs) as E1.
  { apply take_app_length'. pose proof (seg_bytes_length f rs) as El. unfold lenZ in El. lia. }
  rewrite E1, <- seg_bytes_app in Ht. pose proof (size_nonneg rs'). pose proof (size_nonneg rs).
  exists rs', (drop (Z.to_nat (size rs + size rs')) data). split_and!; try done.
  - rewrite <- (take_drop (Z.to_nat (size rs + size rs')) data) in E1. unfold data at 1 in Ht.
    apply (app_inv_head (seg_bytes f rs)). rewrite (assoc (++)), <- seg_bytes_app, <- Ht.
    symmetry. apply take_drop.
  - exists 0%nat. cbn [push_segment extend set_dir segments positions first].
    rewrite pos_list_app, size_app, Z.add_0_l.
    split_and!; try done; try lia. rewrite <- (Z.add_0_l (size rs)), <- pos_list_app, Z.add_0_r.
    apply (first_extend _ 0).
  - cbn [push_segment extend set_dir dir]. rewrite Hdl. case_if; cbn [set_logs logs].
    + by rewrite Ht.
    + rewrite insert_id; [done|]. rewrite Hlog, <- Ht. f_equal. symmetry. apply take_ge.
      unfold lenZ in *. lia.
  - cbn [push_segment extend set_dir dir]. by case_if.
  - cbn [push_segment extend set_dir dir]. by case_if.
Qed.

(** A directory whose segment [f] has bytes [t] after those it should. *)
Definition left_after (f : Z) (t : bytes) (d : Dir) : Dir :=
  set_logs (alter (fun x => x ++ t) f (logs d)) d.

Lemma open_tail_form p b dead L f rs t d :
  shape p b dead (L ++ [(f, rs)]) -> disk p (dead ++ L ++ [(f, rs)]) d ->
  exists l1,
    open (left_after f t d) =
      (l2 ← read_segment f true (seg_bytes f rs ++ t) l1; Ok (forgotten p l2)) /\
    logs (dir l1) = <[f := seg_bytes f rs ++ t]> (files (dead ++ L)) /\
    idx_good p (dead ++ L ++ [(f, rs)]) (dir l1) /\ purged_file (dir l1) = purged_file d /\
    segments l1 = map seg_of (dead ++ L) /\
    positions l1 = drop (Z.to_nat (p + 1 - b)) (poss (length dead) L) /\
    (positions l1 <> [] -> first l1 = p + 1) /\ f = b + lenZ (recs L) /\ ready p f l1.
Proof.
  intros Hs [Hl Hi Hm]. pose proof Hs as []. set (d0 := left_after f t d).
  pose proof (shape_NoDup _ _ _ _ Hs) as Hnd. rewrite (assoc (++)) in Hnd.
  pose proof (snoc_fresh _ _ _ Hnd) as Hfr.
  assert (logs d0 = <[f := seg_bytes f rs ++ t]> (files (dead ++ L))) as Hl0.
  { unfold d0, left_after. cbn. rewrite Hl, (assoc (++)), files_snoc by done.
    by rewrite alter_insert_eq. }
  assert (files_in d0 (dead ++ L)) as Hfi.
  { intros g gs Hin. rewrite Hl0, lookup_insert_ne.
    - apply files_lookup; [|done]. rewrite map_app in Hnd. by apply NoDup_app in Hnd as (? & _).
    - intros ->. apply Hfr. apply list_elem_of_In, (in_map fst _ (g, gs)). by apply list_elem_of_In. }
  assert (sorted_firsts d0 = map fst (dead ++ L ++ [(f, rs)])) as Hsf.
  { rewrite <- (sorted_firsts_files _ _ _ _ d Hs Hl). unfold sorted_firsts. do 2 f_equal.
    rewrite Hl0, Hl, (assoc (++)), files_snoc, !dom_insert_L by done. done. }
  rewrite (open_marker p) by (done || lia). rewrite Hsf, !map_app.
  apply starts_app in s_starts0 as [Hst [Ef _]].
  destruct (load_dead p b dead (L ++ [(f, rs)]) d0 (map fst L ++ map fst [(f, rs)]) Hs)
    with (dead2 := dead) (dead1 := @nil seg) (l := mkLog d0 [] [] 0) as (l1 & E1 & Ho1 & Hs1 & Hp1); try done.
  { intros g gs Hin. apply Hfi. set_solver. }
  destruct (load_live p b dead (L ++ [(f, rs)]) d0 (map fst [(f, rs)]) Hs L [] [(f, rs)] l1)
    as (l2 & E2 & (Ho2 & Ho3 & Ho4) & Hs2 & Hp2 & Hf2); try done.
  { intros g gs Hin. apply Hfi. set_solver. }
  { by rewrite app_nil_r. }
  { rewrite Hp1. cbn. by rewrite drop_nil. }
  cbn [app] in Hs2, Hp2. exists l2. split_and!; try done.
  - rewrite E1, E2. cbn [map fst load_segments]. unfold load_segment.
    rewrite bool_decide_true, Ho2, Hl0, lookup_insert_eq by done. cbn [ok_or mbind outcome_bind].
    by destruct read_segment.
  - by rewrite Ho2, Hl0.
  - by rewrite Hs2, map_app.
  - eapply ready_live; try done. by rewrite Hs2, length_map, length_app.
Qed.

(** What opening finds after a crash: every record known to be there, and
    after them only records the tail holds whole. *)
Lemma open_tail_rep p b dead L f rs t d l :
  shape p b dead (L ++ [(f, rs)]) -> disk p (dead ++ L ++ [(f, rs)]) d ->
  b + lenZ (recs (L ++ [(f, rs)])) + lenZ t < two64 -> size rs + lenZ t < two64 ->
  open (left_after f t d) = Ok l ->
  exists rs' junk, t = seg_bytes (b + lenZ (recs (L ++ [(f, rs)]))) rs' ++ junk /\
    rep p b dead (L ++ [(f, rs ++ rs')]) l.
Proof.
  intros Hs Hd Hn Hsz H. destruct (open_tail_form p b dead L f rs t d Hs Hd)
    as (l1 & E & Hl1 & Hi1 & Hm1 & Hs1 & Hp1 & Hf1 & Ef & Hrd).
  rewrite E in H. apply outcome_bind_ok in H as (l2 & H2 & H). injection H as <-.
  destruct (shape_seg _ _ _ _ f rs Hs) as (Hf0 & _ & Hok & _); [set_solver|].
  rewrite recs_app, recs_cons, app_nil_r, lenZ_app in *. pose proof (lenZ_nonneg t).
  apply (read_segment_tail p) in H2 as (rs' & junk & Ht & Hok' & Hr & Hl2 & Hi2 & Hm2);
    try done; [|lia|by rewrite Hl1, lookup_insert_eq].
  assert (size rs' <= lenZ t) as Hszt
    by (rewrite Ht, lenZ_app, seg_bytes_length; pose proof (lenZ_nonneg junk); lia).
  pose proof (size_length rs') as Hlen. unfold HEADER in Hlen. pose proof (lenZ_nonneg rs').
  assert (shape p b dead (L ++ [(f, rs ++ rs')])) as Hs'.
  { apply shape_grow; try done; [|lia]. rewrite recs_app, recs_cons, app_nil_r, lenZ_app. lia. }
  exists rs', junk. rewrite Z.add_assoc, <- Ef. split; [done|].
  destruct (forgotten_live p b dead L f (rs ++ rs') l1 l2 Hr) as (F1 & F2 & F3); try done;
    try apply Hs; [by rewrite Hs1, length_map, length_app|].
  assert (dir (forgotten p l2) = dir l2) as Edir.
  { unfold forgotten, forget_upto. destruct (purged_of p); [|done]. by destruct forget_loop. }
  constructor; try done.
  - rewrite Edir. constructor; [| |by rewrite Hm2, Hm1; apply Hd].
    + rewrite Hl2, Hl1, insert_insert_eq, (assoc (++)), files_snoc; [done|].
      pose proof (shape_NoDup _ _ _ _ Hs) as Hnd. rewrite (assoc (++)) in Hnd. by eapply snoc_fresh.
    + intros g gs x Hin Hx. rewrite Hi2 in Hx. rewrite (assoc (++)) in Hin.
      apply elem_of_app in Hin as [Hin|Hin]; [apply (Hi1 g gs x); set_solver|].
      apply list_elem_of_singleton in Hin as [= -> ->]. apply good_idx_grow, (Hi1 f rs x); set_solver.
  - rewrite F1, Hs1, (assoc (++)). symmetry. apply map_app.
Qed.

(** A record whose write stopped short is cut, unless what follows its start
    holds a whole record. *)
Lemma load_loop_torn fuel pre u i t e n k expect :
  is_u64 i -> is_u64 t -> lenZ e <= MAX_ENTRY ->
  u = take n (record_bytes i t e) -> lenZ u < HEADER + lenZ e ->
  whole_record_after (pre ++ u) (lenZ pre) expect = None ->
  load_loop fuel true (pre ++ u) k (lenZ pre) expect = Ok ([], lenZ pre).
Proof.
  intros Hi Ht He -> Hlt Hw. destruct fuel as [|fuel]; [done|]. cbn [load_loop].
  destruct (Z.ltb_spec (lenZ pre) (lenZ (pre ++ take n (record_bytes i t e)))) as [|Hge].
  2:{ rewrite lenZ_app in *. pose proof (lenZ_nonneg (take n (record_bytes i t e))). do 2 f_equal. lia. }
  rewrite (drop_app_length' pre _ (Z.to_nat (lenZ pre))) by (unfold lenZ; lia).
  assert (torn true (pre ++ take n (record_bytes i t e)) (lenZ pre) expect = Ok ()) as ->
    by (unfold torn; by rewrite Hw). cbn [mbind outcome_bind].
  destruct (Z.ltb_spec (lenZ (take n (record_bytes i t e))) HEADER) as [|Hge']; [done|].
  assert (le_at 4 0 (take n (record_bytes i t e)) = lenZ e) as ->.
  { destruct (record_fields i t e [] Hi Ht He) as (E & _). rewrite app_nil_r in E. rewrite <- E.
    unfold le_at. change (drop (Z.to_nat 0) ?x) with x. rewrite take_take. do 2 f_equal.
    unfold lenZ, HEADER in Hge'. rewrite length_take in Hge'. lia. }
  by replace (_ || _) with true by lia.
Qed.

Lemma disk_left_whole p D f rs rs' d :
  NoDup (map fst (D ++ [(f, rs)])) -> disk p (D ++ [(f, rs)]) d ->
  disk p (D ++ [(f, rs ++ rs')]) (left_after f (seg_bytes (f + lenZ rs) rs') d).
Proof.
  intros Hnd Hd. pose proof (disk_put_last p D f rs (rs ++ rs') d Hnd Hd) as H.
  unfold left_after. destruct Hd as [Hl _ _].
  assert (alter (fun x => x ++ seg_bytes (f + lenZ rs) rs') f (logs d) =
          <[f := seg_bytes f (rs ++ rs')]> (logs d)) as ->; [|by apply H, good_idx_grow].
  rewrite Hl, files_snoc, alter_insert_eq, insert_insert_eq, seg_bytes_app by (by eapply snoc_fresh). done.
Qed.

Lemma left_after_app f a b d : left_after f b (left_after f a d) = left_after f (a ++ b) d.
Proof.
  unfold left_after, set_logs. cbn [logs idxs purged_file committed_file]. f_equal.
  apply map_eq. intros g. destruct (decide (f = g)) as [->|Hne].
  - rewrite !lookup_alter_eq. destruct (logs d !! g); cbn; [by rewrite (assoc (++))|done].
  - by rewrite !lookup_alter_ne.
Qed.

(** Opening after a write that stopped in the middle of a record. *)
Lemma open_torn_rep p b dead L f rs d i t e n :
  let u := take n (record_bytes i t e) in
  shape p b dead (L ++ [(f, rs)]) -> disk p (dead ++ L ++ [(f, rs)]) d ->
  b + lenZ (recs (L ++ [(f, rs)])) + lenZ u < two64 -> size rs + lenZ u < two64 ->
  is_u64 i -> is_u64 t -> lenZ e <= MAX_ENTRY -> lenZ u < HEADER + lenZ e ->
  whole_record_after (seg_bytes f rs ++ u) (size rs) (f + lenZ rs) = None ->
  exists l, open (left_after f u d) = Ok l /\ rep p b dead (L ++ [(f, rs)]) l.
Proof.
  intros u Hs Hd Hn Hsz Hi Ht He Hlt Hw.
  destruct (open_tail_form p b dead L f rs u d Hs Hd)
    as (l1 & E & Hl1 & Hi1 & Hm1 & Hs1 & Hp1 & Hf1 & Ef & Hrd).
  destruct (shape_seg _ _ _ _ f rs Hs) as (Hf0 & Hfn & Hok & _); [set_solver|].
  assert (exists l, open (left_after f u d) = Ok l /\
    last (segments l) = Some (mkSegment f (size rs))) as (l & Eo & Hlast).
  { rewrite E. unfold read_segment.
    assert (match next_index l1 with
            | Some next => if negb (f =? next) then Err (Corrupt 0) else Ok ()
            | None => Ok () end = Ok ()) as ->.
    { destruct Hrd as [E0|(-> & _)]; [by unfold next_index; rewrite E0|]. by rewrite Z.eqb_refl. }
    cbn [mbind outcome_bind].
    destruct (load_loop_tail f rs u (length (segments l1)) true Hf0 Hfn Hok) as (fuel & _ & ->).
    rewrite <- (seg_bytes_length f rs) in Hw |- *.
    rewrite (load_loop_torn fuel (seg_bytes f rs) u i t e n) by done. cbn [mbind outcome_bind].
    eexists. split; [reflexivity|]. unfold forgotten, forget_upto.
    destruct (purged_of p); [destruct forget_loop|]; cbn; rewrite last_snoc; by rewrite seg_bytes_length. }
  exists l. split; [done|].
  destruct (open_tail_rep p b dead L f rs u d l Hs Hd Hn Hsz Eo) as (rs' & junk & _ & Hr).
  destruct (last_segment _ _ _ _ _ _ _ Hr) as (_ & Hlast' & _). rewrite Hlast in Hlast'.
  injection Hlast' as Esz. rewrite size_app in Esz.
  destruct (decide (rs' = [])) as [->|Hne%size_pos]; [by rewrite app_nil_r in Hr|lia].
Qed.

(** ** The specification *)

Definition next_of (s : spec) : Z := fst s + 1 + lenZ (snd s).

(** What a caller does. [OFull] is an append the filesystem has no room for,
    after [n] bytes; [OPurgeCut] a purge that stops once it is recorded,
    before any file is removed. *)
Inductive op : Type :=
| OAppend (new : list rec)
| OFull (n : nat) (new : list rec)
| OTruncate (i : Z)
| OPurge (q : Z) (caller : bytes)
| OPurgeCut (q : Z) (caller : bytes)
| OCommit (caller : bytes)
| OReopen.

Definition spec_step (o : op) (s : spec) : spec :=
  match o with
  | OAppend new => (fst s, snd s ++ new)
  | OTruncate i => if decide (fst s + 1 <= i) then (fst s, take (Z.to_nat (i - (fst s + 1))) (snd s)) else s
  | OPurge q _ | OPurgeCut q _ => (q, drop (Z.to_nat (q - fst s)) (snd s))
  | OFull _ _ | OCommit _ | OReopen => s
  end.

Definition done_or_full (r : RaftLog * outcome LogError ()) : outcome LogError RaftLog :=
  match r with
  | (l, Ok _) | (l, Err (Io true)) => Ok l
  | (_, Err e) => Err e
  | (_, Panic) => Panic
  end.

Definition log_step (o : op) (s : spec) (l : RaftLog) : outcome LogError RaftLog :=
  match o with
  | OAppend new => done_or_full (append WDone true (numbered (next_of s) new) l)
  | OFull n new => done_or_full (append (WFailed n true true) true (numbered (next_of s) new) l)
  | OTruncate i => truncate_from i l
  | OPurge q c => Ok (purge_upto q (record_purge q c l))
  | OPurgeCut q c => open (dir (record_purge q c l))
  | OCommit c => Ok (save_committed c l)
  | OReopen => open (dir l)
  end.

Definition appendable (s : spec) (new : list rec) : Prop :=
  Forall rec_ok new /\ next_of s + size new < two64 /\ size new < 2 ^ 63.

Definition valid (o : op) (s : spec) : Prop :=
  match o with
  | OAppend new | OFull _ new => appendable s new
  | OPurge q _ => fst s <= q /\ 0 <= q /\ q + 1 < two64
  | OPurgeCut q _ => fst s <= q < next_of s /\ 0 <= q
  | _ => True
  end.

Fixpoint spec_run (os : list op) (s : spec) : spec :=
  match os with [] => s | o :: os => spec_run os (spec_step o s) end.
Fixpoint log_run (os : list op) (s : spec) (l : RaftLog) : outcome LogError RaftLog :=
  match os with [] => Ok l | o :: os => l' ← log_step o s l; log_run os (spec_step o s) l' end.
Fixpoint valid_run (os : list op) (s : spec) : Prop :=
  match os with [] => True | o :: os => valid o s /\ valid_run os (spec_step o s) end.

Lemma next_of_rep p b dead L : shape p b dead L -> next_of (p, live p b L) = b + lenZ (recs L).
Proof. intros Hs. unfold next_of. cbn [fst snd]. rewrite (live_length _ _ _ _ Hs). lia. Qed.

Lemma live_app p b dead L L' new :
  shape p b dead L -> recs L' = recs L ++ new -> live p b L' = live p b L ++ new.
Proof.
  intros [] E. unfold live. rewrite E. apply drop_app_le. unfold lenZ in *. lia.
Qed.

Lemma log_step_rep o s l :
  log_is (fst s) (snd s) l -> valid o s ->
  exists l', log_step o s l = Ok l' /\ log_is (fst (spec_step o s)) (snd (spec_step o s)) l'.
Proof.
  destruct s as [p es]. cbn [fst snd]. intros (b & dead & L & Hr & ->) Hv.
  pose proof (r_shape _ _ _ _ _ Hr) as Hs. pose proof (next_of_rep _ _ _ _ Hs) as Hnx.
  destruct o as [new|n new|i|q c|q c|c|]; cbn [log_step spec_step fst snd].
  - destruct Hv as (Hok & Hn & Hsz). rewrite Hnx in *.
    pose proof (size_length new). pose proof (lenZ_nonneg new). unfold HEADER in *.
    destruct (append_rep _ _ _ _ _ new Hr Hok ltac:(lia) Hsz) as (l' & L' & -> & Hr' & E).
    exists l'. split; [done|]. exists b, dead, L'. split; [done|]. by rewrite (live_app p b dead L L' new).
  - destruct Hv as (Hok & Hn & Hsz). rewrite Hnx. destruct (decide (new = [])) as [->|Hne].
    { exists l. split; [done|]. by exists b, dead, L. }
    destruct (append_full_rep _ _ _ _ _ new n true Hr Hok Hne) as (l' & -> & Hr').
    exists l'. split; [done|]. by exists b, dead, L.
  - destruct (truncate_rep _ _ _ _ _ i Hr) as (l' & L' & -> & Hr' & E). exists l'. split; [done|].
    case_decide; cbn [fst snd]; exists b, dead, L'; by rewrite E.
  - destruct Hv as (H1 & H2 & H3).
    destruct (purge_rep _ _ _ _ _ q c Hr H1 H2 H3) as (b' & L' & Hr' & E).
    eexists. split; [done|]. by exists b', [], L'.
  - cbn [valid fst] in Hv. rewrite Hnx in Hv. destruct Hv as [[H1 H2] H3].
    destruct (shape_recorded p q b dead L Hs) as (b' & dead' & L' & ED & Hs' & E); [lia|destruct Hs; lia|left; lia|].
    destruct (open_rep q b' dead' L' (dir (record_purge q c l))) as (l' & -> & Hr'); [done| |].
    { rewrite ED. apply (disk_record_purge p); try done. apply Hr. }
    exists l'. split; [done|]. by exists b', dead', L'.
  - eexists. split; [done|]. exists b, dead, L. split; [|done].
    destruct Hr as [_ [? ? ?] ? ? ?]. by constructor.
  - destruct (open_rep p b dead L (dir l)) as (l' & -> & Hr'); [done|apply Hr|].
    exists l'. split; [done|]. by exists b, dead, L.
Qed.

Lemma log_run_rep os : forall s l,
  log_is (fst s) (snd s) l -> valid_run os s ->
  exists l', log_run os s l = Ok l' /\ log_is (fst (spec_run os s)) (snd (spec_run os s)) l'.
Proof.
  induction os as [|o os IH]; intros s l Hl Hv; [by exists l|].
  destruct Hv as [Ho Hv]. cbn [log_run spec_run].
  destruct (log_step_rep o s l Hl Ho) as (l1 & -> & Hl1). by apply IH.
Qed.

Definition empty_dir : Dir := mkDir ∅ ∅ None None.

Lemma empty_log : exists l, open empty_dir = Ok l /\ log_is (-1) [] l.
Proof.
  destruct (open_rep (-1) 0 [] [] empty_dir) as (l & E & Hr); [by constructor..|].
  exists l. split; [done|]. by exists 0, [], [].
Qed.

(** ** Crashes *)

(** The directory once an append has the segment it writes to, and before it
    has written anything. *)
Definition before_write (s : spec) (new : list rec) (l : RaftLog) : Dir :=
  dir (fst (append (WFailed 0 false false) true (numbered (next_of s) new) l)).

Lemma before_write_rep p b dead L l new :
  rep p b dead L l -> new <> [] -> Forall rec_ok new ->
  exists L0 f rs, let d := before_write (p, live p b L) new l in
    shape p b dead (L0 ++ [(f, rs)]) /\ disk p (dead ++ L0 ++ [(f, rs)]) d /\
    recs (L0 ++ [(f, rs)]) = recs L /\ size rs < SEGMENT_BYTES /\
    last (sorted_firsts d) = Some f /\ f + lenZ rs = b + lenZ (recs L) /\
    logs d !! f = Some (seg_bytes f rs).
Proof.
  intros Hr Hne Hok. pose proof (next_of_rep _ _ _ _ (r_shape _ _ _ _ _ Hr)) as Hnx.
  destruct (append_rep_form _ _ _ _ _ new (WFailed 0 false false) true Hr Hne)
    as (L0 & f & rs & l1 & E & Hr1 & HL & Hsz & _).
  exists L0, f, rs. unfold before_write. rewrite Hnx, E.
  destruct (last_segment _ _ _ _ _ _ _ Hr1) as (Hsegs & Hlast & Hk & Hf).
  unfold append_last. rewrite Hlast, Hk. cbn [seg_len seg_first]. rewrite Hf. cbn [from_option id].
  rewrite lay_out_numbered, write_at_end by done. unfold append_failed. cbn [take negb seg_first fst].
  rewrite app_nil_r. pose proof Hr1 as [Hs Hd _ _ _]. cbn zeta.
  assert (dir (put_file f (seg_bytes f rs) l1) = set_logs (logs (dir l1)) (dir l1)) as ->.
  { cbn. by rewrite insert_id. }
  assert (disk p (dead ++ L0 ++ [(f, rs)]) (set_logs (logs (dir l1)) (dir l1))) as Hd'
    by (destruct Hd; by constructor).
  split_and!; try done.
  - rewrite (sorted_firsts_files _ _ _ _ _ Hs); [|by destruct Hd].
    rewrite (assoc (++)), map_app. cbn [map fst]. apply last_snoc.
  - destruct Hs. apply starts_app in s_starts0 as [_ [-> _]]. rewrite <- HL, recs_app, recs_cons, app_nil_r, lenZ_app.
    lia.
Qed.

Lemma record_bytes_inj i t e t' e' x y :
  is_u64 i -> rec_ok (t, e) -> rec_ok (t', e') ->
  record_bytes i t e ++ x = record_bytes i t' e' ++ y -> t = t' /\ e = e' /\ x = y.
Proof.
  intros Hi [Ht He] [Ht' He'] H. cbn [fst snd] in *.
  destruct (record_fields i t e x Hi Ht He) as (E1 & _ & _ & E4 & E5).
  destruct (record_fields i t' e' y Hi Ht' He') as (F1 & _ & _ & F4 & F5).
  rewrite H in E1, E4, E5. assert (t = t') as -> by congruence.
  assert (lenZ e = lenZ e') as El by congruence. rewrite El in E5.
  assert (e = e') as -> by congruence. split_and!; try done. by eapply app_inv_head.
Qed.

End refine.

(** ** The log as its callers see it *)
Section theorems.
Context {CRC : Crc32c}.

(** What is asked of the log is answered from the entries it stands for:
    the range of indices it holds, the term of any index, and any range of
    entries, clipped to those held and checked against their checksums. *)
Theorem log_answers (p : Z) (es : list rec) (l : RaftLog) :
  log_is p es l ->
  range l = (if decide (es = []) then None else Some (p + 1, p + lenZ es)) /\
  (forall i, term_of i l = if decide (p + 1 <= i) then fst <$> es !! Z.to_nat (i - (p + 1)) else None) /\
  (forall from to_, read from to_ l =
    Ok (map snd (take (Z.to_nat (to_ - Z.max from (p + 1))) (drop (Z.to_nat (from - (p + 1))) es)))).
Proof.
  intros (b & dead & L & Hr & ->). split_and!.
  - by apply range_rep with (dead := dead).
  - intros i. by apply term_of_rep with (dead := dead).
  - intros from to_. by apply read_rep with (dead := dead).
Qed.

(** C10. The Raft log refines a list of entries: starting from an empty
    directory, any run of appends, appends refused for want of room,
    truncations, purges, purges inside the log cut short by a crash, commit
    markers and reopenings, of records and indexes within their widths
    ([valid_run]), succeeds and leaves the log standing for the entries that
    the same run gives on the list. A purge past the end of the log that is
    cut short is left out. *)
Theorem raft_log_refines (os : list op) :
  valid_run os (-1, []) ->
  exists l l', open empty_dir = Ok l /\ log_run os (-1, []) l = Ok l' /\
    log_is (fst (spec_run os (-1, []))) (snd (spec_run os (-1, []))) l'.
Proof.
  intros Hv.
  destruct empty_log as (l & E & Hl). exists l. rewrite E.
  destruct (log_run_rep os (-1, []) l Hl Hv) as (l' & E' & Hl'). by exists l'.
Qed.

(** C11. A crash in the middle of an append loses nothing that was there before
    it and invents nothing: whatever bytes the write left after the last
    segment's synced ones, a log that opens again holds all the old entries,
    followed by records those bytes hold whole, in order from the next index. *)
Theorem crash_keeps_log (p : Z) (es : list rec) (new : list rec) (l l' : RaftLog) (f : Z) (t : bytes) :
  log_is p es l -> new <> [] -> Forall rec_ok new ->
  let d := before_write (p, es) new l in
  last (sorted_firsts d) = Some f -> p + 1 + lenZ es + lenZ t < two64 -> lenZ t < 2 ^ 63 ->
  open (left_after f t d) = Ok l' ->
  exists more junk, t = seg_bytes (p + 1 + lenZ es) more ++ junk /\ log_is p (es ++ more) l'.
Proof.
  intros (b & dead & L & Hr & ->) Hne Hok d Hf Hn Hsz Ho.
  destruct (before_write_rep _ _ _ _ _ new Hr Hne Hok) as (L0 & f' & rs & Hs & Hd & HL & Hsg & Hlast & Ef & _).
  fold d in Hd, Hlast. assert (f' = f) as -> by congruence.
  pose proof (live_length _ _ _ _ (r_shape _ _ _ _ _ Hr)) as Hll.
  destruct (open_tail_rep p b dead L0 f rs t d l' Hs Hd) as (more & junk & Et & Hr'); try done.
  { rewrite HL. lia. } { unfold SEGMENT_BYTES, two64 in *. lia. }
  rewrite HL in Et. exists more, junk. split; [rewrite Et; do 2 f_equal; lia|].
  exists b, dead, (L0 ++ [(f, rs ++ more)]). split; [done|]. symmetry.
  apply (live_app p b dead L); [apply Hr|].
  rewrite <- HL, !recs_app, !recs_cons, !app_nil_r. by rewrite (assoc (++)).
Qed.

(** A torn append does not stop the node: if the write stopped inside a
    record, the log opens with every old entry and the records written whole
    before that one, provided the torn bytes do not themselves hold a whole
    record, which is when the code takes them for damage instead. *)
Theorem torn_append_opens (p : Z) (es a c : list rec) (tm : Z) (e : bytes) (m : nat) (l : RaftLog) (f : Z) :
  log_is p es l ->
  let new := a ++ (tm, e) :: c in
  let next := p + 1 + lenZ es in
  let u := take m (record_bytes (next + lenZ a) tm e) in
  appendable (p, es) new -> Z.of_nat m < HEADER + lenZ e ->
  last (sorted_firsts (before_write (p, es) new l)) = Some f ->
  let d := left_after f (seg_bytes next a ++ u) (before_write (p, es) new l) in
  (forall data, logs d !! f = Some data ->
     whole_record_after data (lenZ data - lenZ u) (next + lenZ a) = None) ->
  exists l', open d = Ok l' /\ log_is p (es ++ a) l'.
Proof.
  intros (b & dead & L & Hr & ->) new next u (Hok & Hn & Hsz) Hm Hf d Hw.
  assert (new <> []) as Hne by (unfold new; by destruct a).
  destruct (before_write_rep _ _ _ _ _ new Hr Hne Hok)
    as (L0 & f' & rs & Hs & Hd & HL & Hsg & Hlast & Ef & Hlf).
  assert (f' = f) as -> by congruence. pose proof (r_shape _ _ _ _ _ Hr) as Hs0.
  rewrite (next_of_rep _ _ _ _ Hs0) in Hn. pose proof (live_length _ _ _ _ Hs0) as Hll.
  assert (next = f + lenZ rs) as Hnext by (unfold next; lia).
  unfold new in Hok, Hn, Hsz. rewrite Forall_app, Forall_cons in Hok. destruct Hok as (Hoka & [Ht He] & _).
  rewrite size_app in Hn, Hsz. cbn [size fst snd] in *.
  pose proof (size_nonneg c). pose proof (size_nonneg rs). pose proof (size_length a). pose proof (size_nonneg a).
  pose proof (lenZ_nonneg a). pose proof (lenZ_nonneg e). unfold HEADER in *.
  assert (lenZ u <= Z.of_nat m) as Hum by (unfold u, lenZ in *; rewrite length_take; lia).
  assert (shape p b dead (L0 ++ [(f, rs ++ a)])) as Hsa.
  { apply shape_grow; try done; [rewrite HL; lia|unfold SEGMENT_BYTES, two64 in *; lia]. }
  pose proof (shape_NoDup _ _ _ _ Hs) as Hnd. rewrite (assoc (++)) in Hnd, Hd.
  pose proof (disk_left_whole p (dead ++ L0) f rs a _ Hnd Hd) as Hda. rewrite <- (assoc (++)) in Hda.
  assert (d = left_after f u (left_after f (seg_bytes (f + lenZ rs) a) (before_write (p, live p b L) new l))) as Ed
    by (unfold d; by rewrite left_after_app, Hnext).
  assert (logs d !! f = Some (seg_bytes f (rs ++ a) ++ u)) as Hdl.
  { unfold d, left_after. cbn. rewrite lookup_alter_eq, Hlf. cbn. by rewrite Hnext, seg_bytes_app, (assoc (++)). }
  specialize (Hw _ Hdl). rewrite lenZ_app, seg_bytes_length, Z.add_simpl_r, Hnext, size_app in Hw.
  assert (recs (L0 ++ [(f, rs ++ a)]) = recs L ++ a) as Hra
    by (rewrite <- HL, !recs_app, !recs_cons, !app_nil_r; by rewrite (assoc (++))).
  rewrite Ed. destruct (open_torn_rep p b dead L0 f (rs ++ a) _ (next + lenZ a) tm e m Hsa Hda)
    as (l' & E & Hr'); fold u; rewrite ?Hra, ?size_app, ?lenZ_app, ?Z.add_assoc; try done;
    try (unfold is_u64, SEGMENT_BYTES, two64, HEADER in *; destruct Hs0; lia).
  exists l'. split; [done|]. exists b, dead, (L0 ++ [(f, rs ++ a)]). split; [done|]. symmetry.
  by apply (live_app p b dead L).
Qed.

End theorems.

(** ** Examples *)
Definition ex_ops : list op :=
  [OAppend [(1, as_bytes "a"); (1, as_bytes "b")]; OPurgeCut 0 (as_bytes "m");
   OFull 9 [(2, as_bytes "c")]; OReopen; OAppend [(2, as_bytes "x"); (2, as_bytes "y")]; OTruncate 3;
   OCommit (as_bytes "k")].

#[local] Existing Instance castagnoli.

Definition or_empty (r : outcome LogError RaftLog) : RaftLog :=
  match r with Ok l => l | _ => mkLog empty_dir [] [] 0 end.
Definition ex_log : RaftLog := or_empty (l ← open empty_dir; log_run ex_ops (-1, []) l).
Definition is_ok {E A} (r : outcome E A) : bool := match r with Ok _ => true | _ => false end.

Lemma is_ok_or_empty r : is_ok r = true -> r = Ok (or_empty r).
Proof. by destruct r. Qed.

(** Validity as a test. *)
Definition rec_okb (r : rec) : bool :=
  (0 <=? fst r) && (fst r <? two64) && (lenZ (snd r) <=? MAX_ENTRY).
Definition appendableb (s : spec) (new : list rec) : bool :=
  forallb rec_okb new && (next_of s + size new <? two64) && (size new <? 2 ^ 63).
Definition validb (o : op) (s : spec) : bool :=
  match o with
  | OAppend new | OFull _ new => appendableb s new
  | OPurge q _ => (fst s <=? q) && (0 <=? q) && (q + 1 <? two64)
  | OPurgeCut q _ => (fst s <=? q) && (q <? next_of s) && (0 <=? q)
  | _ => true
  end.
Fixpoint valid_runb (os : list op) (s : spec) : bool :=
  match os with [] => true | o :: os => validb o s && valid_runb os (spec_step o s) end.

Lemma appendableb_sound s new : appendableb s new = true -> appendable s new.
Proof.
  unfold appendableb, appendable. intros H. bool_to_prop. split_and!; try done.
  apply Forall_forall. intros r Hr.
  match goal with H : forallb _ _ = true |- _ => rewrite forallb_forall in H;
    specialize (H r (proj1 (list_elem_of_In _ _) Hr)); unfold rec_okb in H end.
  bool_to_prop. done.
Qed.

Lemma valid_runb_sound os : forall s, valid_runb os s = true -> valid_run os s.
Proof.
  induction os as [|o os IH]; intros s H; [done|]. cbn [valid_runb] in H. bool_to_prop.
  split; [|by apply IH]. destruct o; cbn [validb valid] in *; try by apply appendableb_sound.
  all: bool_to_prop; done.
Qed.

Lemma ex_valid : valid_run ex_ops (-1, []).
Proof. apply valid_runb_sound. by vm_compute. Qed.

Lemma ex_spec : spec_run ex_ops (-1, []) = (0, [(1, as_bytes "b"); (2, as_bytes "x")]).
Proof. by vm_compute. Qed.

Lemma ex_log_is : log_is 0 [(1, as_bytes "b"); (2, as_bytes "x")] ex_log.
Proof.
  destruct empty_log as (l & E & Hl). destruct (log_run_rep ex_ops (-1, []) l Hl ex_valid) as (l' & E' & Hl').
  unfold ex_log. rewrite E. cbn [mbind outcome_bind]. rewrite E'. rewrite ex_spec in Hl'. exact Hl'.
Qed.

Lemma raft_log_refines_witness :
  exists l l', open empty_dir = Ok l /\ log_run ex_ops (-1, []) l = Ok l' /\
    log_is 0 [(1, as_bytes "b"); (2, as_bytes "x")] l'.
Proof. pose proof (raft_log_refines ex_ops ex_valid) as H. rewrite ex_spec in H. exact H. Defined.

Lemma log_answers_witness :
  range ex_log = Some (1, 2) /\ term_of 2 ex_log = Some 2 /\ read 0 9 ex_log = Ok [as_bytes "b"; as_bytes "x"].
Proof.
  destruct (log_answers 0 [(1, as_bytes "b"); (2, as_bytes "x")] ex_log ex_log_is) as (E1 & E2 & E3).
  rewrite E1, (E2 2), (E3 0 9). split_and!; by vm_compute.
Defined.

(** A crash that wrote one record whole and part of the next. *)
Definition ex_new : list rec := [(5, as_bytes "z"); (5, as_bytes "w")].
Definition ex_tail : bytes := seg_bytes 3 [(5, as_bytes "z")] ++ take 11 (record_bytes 4 5 (as_bytes "w")).
Definition ex_crashed : Dir :=
  left_after 0 ex_tail (before_write (0, [(1, as_bytes "b"); (2, as_bytes "x")]) ex_new ex_log).

Lemma crash_keeps_log_witness :
  exists more junk, ex_tail = seg_bytes 3 more ++ junk /\
    log_is 0 ([(1, as_bytes "b"); (2, as_bytes "x")] ++ more) (or_empty (open ex_crashed)).
Proof.
  apply (crash_keeps_log 0 [(1, as_bytes "b"); (2, as_bytes "x")] ex_new ex_log
           (or_empty (open ex_crashed)) 0 ex_tail ex_log_is).
  - done.
  - apply (appendableb_sound (0, [])). by vm_compute.
  - by vm_compute.
  - by vm_compute.
  - by vm_compute.
  - apply is_ok_or_empty. by vm_compute.
Defined.

Lemma torn_append_opens_witness :
  exists l, open ex_crashed = Ok l /\
    log_is 0 ([(1, as_bytes "b"); (2, as_bytes "x")] ++ [(5, as_bytes "z")]) l.
Proof.
  apply (torn_append_opens 0 [(1, as_bytes "b"); (2, as_bytes "x")] [(5, as_bytes "z")] [] 5
           (as_bytes "w") 11 ex_log 0 ex_log_is).
  - apply appendableb_sound. by vm_compute.
  - by vm_compute.
  - by vm_compute.
  - intros data Hd.
    assert (logs ex_crashed !! 0 = Some (seg_bytes 0 [(1, as_bytes "a"); (1, as_bytes "b"); (2, as_bytes "x")]
              ++ ex_tail)) as E by (by vm_compute).
    change (logs ex_crashed !! 0 = Some data) in Hd. rewrite E in Hd. injection Hd as <-. by vm_compute.
Defined.

(** A log can acknowledge an append it cannot be opened with. A node
    whose first append was torn keeps an empty segment 0; if it then records
    a purge up to 5 (a snapshot arrived) and stops before removing files, it
    reopens, takes entry 6 into that segment, reads it back, and refuses to
    open again, since the segment is named for another index. *)
Theorem empty_segment_kept :
  let e := as_bytes "e" in
  let torn := left_after 0 (take 10 (record_bytes 0 1 e)) (before_write (-1, []) [(1, e)] (or_empty (open empty_dir))) in
  exists l1 l2 l3,
    open torn = Ok l1 /\ open (dir (record_purge 5 [] l1)) = Ok l2 /\
    append WDone true [(6, 2, e)] l2 = (l3, Ok ()) /\ read 6 7 l3 = Ok [e] /\
    open (dir l3) = Err (Corrupt 0).
Proof.
  intros e torn. exists (or_empty (open torn)). set (l1 := or_empty (open torn)).
  exists (or_empty (open (dir (record_purge 5 [] l1)))). set (l2 := or_empty _).
  exists (fst (append WDone true [(6, 2, e)] l2)).
  split; [apply is_ok_or_empty; by vm_compute|]. split; [apply is_ok_or_empty; by vm_compute|].
  split; [|split; by vm_compute].
  assert (snd (append WDone true [(6, 2, e)] l2) = Ok ()) as E by (by vm_compute).
  destruct (append WDone true [(6, 2, e)] l2) as [l3 r]. cbn in *. by rewrite E.
Qed.

End RaftLogRefine.
