(* ===== verification/Stamp.v ===== *)
(** * Stamps: the hybrid clock that orders writes to an object's metadata

    crates/common/src/stamp.rs. A clock is the last stamp it issued or
    observed; the wall clock is an argument. Besides one clock, the file
    models the processes of a cluster, each with its own clock, that read
    each other's stamps, and shows that what happens after is stamped
    after. *)

From S2P Require Import Prelude.

Module Stamp.

Definition COUNTER_BITS : Z := 16.
Definition COUNTER_MASK : Z := 2 ^ COUNTER_BITS - 1.

Definition millis (stamp : Z) : Z := Z.shiftr stamp COUNTER_BITS.

(** [Clock]: its [last]. *)
Definition Clock : Type := Z.
Definition new : Clock := 0.

(** The stamp [next_after] gives from [wall] milliseconds and what was issued
    or seen, [floor]. The shifts drop the bits past 64. *)
Definition stamp_above (wall floor : Z) : Z :=
  let wall := wshl64 wall COUNTER_BITS in
  if floor <? wall then wall
  else if Z.land floor COUNTER_MASK <? COUNTER_MASK then wadd64 floor 1
  else wshl64 (wadd64 (millis floor) 1) COUNTER_BITS.

Definition next_after (wall seen : Z) (last : Clock) : Z * Clock :=
  let stamp := stamp_above wall (Z.max last seen) in (stamp, stamp).

Definition now (wall : Z) (last : Clock) : Z * Clock := next_after wall 0 last.

Definition observe (seen : Z) (last : Clock) : Clock := Z.max last seen.

(** [wall_millis]: the milliseconds since the epoch, if the clock is past it,
    shifted by the test offset. *)
Definition wall_millis (since_epoch : option Z) (offset : Z) : Z :=
  let now := match since_epoch with
             | Some ms => if ms <? two64 then ms else Z.shiftr u64_max COUNTER_BITS
             | None => 0
             end in
  Z.max 0 (Z.min u64_max (now + offset)).

(** ** One clock *)
Lemma land_mask z : 0 <= z -> Z.land z COUNTER_MASK = z mod 2 ^ 16.
Proof. intros. change COUNTER_MASK with (Z.ones 16). by apply Z.land_ones. Qed.

Lemma millis_div z : millis z = z / 2 ^ 16.
Proof. by apply Z.shiftr_div_pow2. Qed.

Lemma wshl64_shift z : wshl64 z COUNTER_BITS = (z * 2 ^ 16) mod two64.
Proof. unfold wshl64, wrap64. by rewrite Z.shiftl_mul_pow2. Qed.

(** Unless every stamp there is has been used up, the next is above all. *)
Lemma stamp_above_spec wall floor :
  is_u64 floor -> floor < u64_max ->
  is_u64 (stamp_above wall floor) /\ floor < stamp_above wall floor /\
  millis (stamp_above wall floor) <= Z.max (wall mod 2 ^ 48) (millis floor + 1).
Proof.
  unfold is_u64, u64_max. intros Hf Hmax. unfold stamp_above.
  pose proof (wrap64_u64 (Z.shiftl wall COUNTER_BITS)) as Hw. unfold is_u64 in Hw.
  change (wrap64 (Z.shiftl wall COUNTER_BITS)) with (wshl64 wall COUNTER_BITS) in Hw.
  rewrite land_mask, !millis_div by lia.
  assert (wshl64 wall COUNTER_BITS / 2 ^ 16 = wall mod 2 ^ 48) as Ew.
  { rewrite wshl64_shift. change two64 with (2 ^ 48 * 2 ^ 16).
    rewrite Z.mul_mod_distr_r by lia. by apply Z.div_mul. }
  pose proof (Z.div_mod floor (2 ^ 16) ltac:(lia)) as Hd.
  pose proof (Z.mod_pos_bound floor (2 ^ 16) ltac:(lia)) as Hm.
  assert (0 <= floor / 2 ^ 16 < 2 ^ 48) as Hq.
  { split; [apply Z.div_pos; lia|]. apply Z.div_lt_upper_bound; [lia|]. unfold two64 in *. lia. }
  case_if; [by rewrite Ew; lia|]. case_if.
  - unfold COUNTER_MASK, COUNTER_BITS in *. rewrite wadd64_small by lia.
    split_and!; try lia.
    apply Z.max_le_iff. right. apply Z.div_le_upper_bound; lia.
  - unfold COUNTER_MASK, COUNTER_BITS in *.
    assert (floor / 2 ^ 16 + 1 < 2 ^ 48) as Hlt by (unfold two64 in *; lia).
    rewrite wadd64_small by (unfold two64; lia). rewrite wshl64_shift, Z.mod_small by (unfold two64; lia).
    rewrite Z.div_mul by lia. split_and!; lia.
Qed.

(** ** Processes *)

(** An event of process [i]: a stamp issued above [seen], or a stamp noted. *)
Inductive event : Type :=
| Issue (i : nat) (wall seen : Z)
| Note (i : nat) (seen : Z).

Definition clock_of (i : nat) (cs : gmap nat Clock) : Clock := default new (cs !! i).

(** What an event stamps, and the clocks after it. *)
Definition event_step (e : event) (cs : gmap nat Clock) : option Z * gmap nat Clock :=
  match e with
  | Issue i wall seen =>
    let '(s, c) := next_after wall seen (clock_of i cs) in (Some s, <[i := c]> cs)
  | Note i seen => (None, <[i := observe seen (clock_of i cs)]> cs)
  end.

Fixpoint run (es : list event) (cs : gmap nat Clock) : list (option Z) * gmap nat Clock :=
  match es with
  | [] => ([], cs)
  | e :: es =>
    let r := event_step e cs in
    let rs := run es (snd r) in (fst r :: fst rs, snd rs)
  end.

Definition stamps (es : list event) : list (option Z) := fst (run es ∅).

Definition proc (e : event) : nat := match e with Issue i _ _ | Note i _ => i end.
Definition seen_by (e : event) : Z := match e with Issue _ _ seen | Note _ seen => seen end.

(** The [j]th event happens before the [k]th: earlier at the same process, or
    its stamp is what the [k]th saw. *)
Inductive before (es : list event) : nat -> nat -> Prop :=
| before_process j k e e' :
    (j < k)%nat -> es !! j = Some e -> es !! k = Some e' -> proc e = proc e' -> before es j k
| before_message j k e s :
    (j < k)%nat -> stamps es !! j = Some (Some s) -> es !! k = Some e -> seen_by e = s -> before es j k
| before_trans j k m : before es j k -> before es k m -> before es j m.

(** Every stamp seen leaves room for another. *)
Definition room (es : list event) : Prop :=
  Forall (fun e => is_u64 (seen_by e) /\ seen_by e < u64_max) es /\
  Forall (fun s => match s with Some s => s < u64_max | None => True end) (stamps es).

(** ** What happens after is stamped after *)
Definition clocks (es : list event) : gmap nat Clock := snd (run es ∅).

Lemma run_app a b cs :
  run (a ++ b) cs = (fst (run a cs) ++ fst (run b (snd (run a cs))), snd (run b (snd (run a cs)))).
Proof.
  revert cs. induction a as [|e a IH]; intros cs; cbn [app run fst snd]; [by destruct (run b cs)|].
  by rewrite IH.
Qed.

Lemma run_length es cs : length (fst (run es cs)) = length es.
Proof. revert cs. induction es as [|e es IH]; intros cs; [done|]. cbn. by rewrite IH. Qed.

Lemma clocks_take es k e :
  es !! k = Some e -> clocks (take (S k) es) = snd (event_step e (clocks (take k es))).
Proof. intros He. unfold clocks. by rewrite (take_S_r _ _ _ He), run_app. Qed.

Lemma stamps_lookup es k e :
  es !! k = Some e -> stamps es !! k = Some (fst (event_step e (clocks (take k es)))).
Proof.
  intros He. pose proof (lookup_lt_Some _ _ _ He) as Hlt. unfold stamps, clocks.
  rewrite <- (take_drop_middle _ _ _ He) at 1. rewrite run_app. cbn [fst run].
  rewrite lookup_app_r; rewrite run_length, length_take; [|lia].
  by replace (k - k `min` length es)%nat with 0%nat by lia.
Qed.

Lemma clock_of_insert i j c cs :
  clock_of i (<[j := c]> cs) = if decide (i = j) then c else clock_of i cs.
Proof.
  unfold clock_of. case_decide as E; [subst; by rewrite lookup_insert_eq|].
  by rewrite lookup_insert_ne by congruence.
Qed.

Definition ok_clock (c : Clock) : Prop := is_u64 c /\ c < u64_max.

(** An event leaves every clock where it was or later, and its own above what
    it saw; one that stamps, strictly. *)
Lemma event_step_clock e cs i :
  ok_clock (clock_of i cs) -> ok_clock (clock_of (proc e) cs) -> ok_clock (seen_by e) ->
  clock_of i cs <= clock_of i (snd (event_step e cs)) /\
  Z.max (clock_of (proc e) cs) (seen_by e) <= clock_of (proc e) (snd (event_step e cs)) /\
  (forall s, fst (event_step e cs) = Some s ->
     s = clock_of (proc e) (snd (event_step e cs)) /\ Z.max (clock_of (proc e) cs) (seen_by e) < s).
Proof.
  intros _ Hp Hs. unfold ok_clock, is_u64 in *.
  assert (forall (c : Clock), clock_of (proc e) (<[proc e := c]> cs) = c /\
    (clock_of (proc e) cs <= c -> clock_of i cs <= clock_of i (<[proc e := c]> cs))) as Hset.
  { intros c. rewrite !clock_of_insert, decide_True by done. split; [done|]. intros Hc.
    case_decide as E; [by subst|done]. }
  destruct e as [j wall seen|j seen]; cbn [event_step next_after fst snd proc seen_by] in *.
  - destruct (stamp_above_spec wall (clock_of j cs `max` seen)) as (_ & Hlt & _); [unfold is_u64; lia|lia|].
    destruct (Hset (stamp_above wall (clock_of j cs `max` seen))) as [-> Hi].
    split_and!; [apply Hi; lia|lia|]. intros s [= <-]. lia.
  - unfold observe. destruct (Hset (clock_of j cs `max` seen)) as [-> Hi].
    split_and!; [apply Hi; lia|lia|done].
Qed.

Lemma room_take es k : room es -> room (take k es).
Proof.
  intros [Hs Hst]. split; [by apply Forall_take|]. apply Forall_lookup. intros j s Hj.
  assert (j < length (take k es))%nat as Hlt.
  { apply lookup_lt_Some in Hj. unfold stamps in Hj. by rewrite run_length in Hj. }
  destruct (lookup_lt_is_Some_2 _ _ Hlt) as [e He]. rewrite (stamps_lookup _ _ _ He) in Hj.
  rewrite take_take in Hj. rewrite length_take in Hlt. rewrite lookup_take_lt in He by lia.
  replace (j `min` k)%nat with j in Hj by lia. rewrite <- (stamps_lookup _ _ _ He) in Hj.
  rewrite Forall_lookup in Hst. by apply (Hst j).
Qed.

Lemma clocks_ok es : room es -> forall i, ok_clock (clock_of i (clocks es)).
Proof.
  induction es as [|e es IH] using rev_ind; intros Hr i; [by vm_compute|].
  assert (room es) as Hr' by (apply (room_take _ (length es)) in Hr; by rewrite take_app_length in Hr).
  specialize (IH Hr'). destruct Hr as [Hs Hst]. rewrite Forall_app, Forall_singleton in Hs.
  destruct Hs as [_ Hse]. unfold stamps in Hst. rewrite run_app in Hst. cbn [fst] in Hst.
  rewrite Forall_app in Hst. destruct Hst as [_ Hst]. cbn [run fst] in Hst.
  rewrite Forall_singleton in Hst. unfold clocks in IH |- *. rewrite run_app. cbn [run snd].
  set (cs := snd (run es ∅)) in *. pose proof (IH (proc e)) as Hp. unfold ok_clock, is_u64 in *.
  destruct e as [j wall seen|j seen]; cbn [event_step next_after fst snd proc seen_by] in *.
  all: rewrite clock_of_insert; case_decide as Hij; [subst i|apply IH].
  - destruct (stamp_above_spec wall (clock_of j cs `max` seen)) as ([? ?] & _ & _);
      [unfold is_u64; lia|lia|]. lia.
  - unfold observe. lia.
Qed.

(** The clock of the process of event [k] once it is over. *)
Definition after (es : list event) (k : nat) (e : event) : Z := clock_of (proc e) (clocks (take (S k) es)).

Lemma clock_grows es i j k : room es -> (j <= k)%nat ->
  clock_of i (clocks (take j es)) <= clock_of i (clocks (take k es)).
Proof.
  intros Hr. induction 1 as [|k Hle IH]; [lia|]. etrans; [exact IH|].
  destruct (es !! k) as [e|] eqn:He.
  - rewrite (clocks_take _ _ _ He). apply event_step_clock; try by apply clocks_ok, room_take.
    destruct Hr as [Hs _]. rewrite Forall_lookup in Hs. by apply (Hs k).
  - apply lookup_ge_None in He. by rewrite !take_ge by lia.
Qed.

Lemma before_clock es j k :
  room es -> before es j k -> forall e e', es !! j = Some e -> es !! k = Some e' ->
  after es j e <= after es k e' /\
  (forall s, stamps es !! k = Some (Some s) -> s = after es k e' /\ after es j e < s).
Proof.
  intros Hr Hb. induction Hb as [j k e1 e2 Hlt He1 He2 Hp|j k e2 s Hlt Hs He2 Hseen|j k m H1 IH1 H2 IH2].
  all: intros e e' He He'.
  1: assert (e1 = e) as -> by congruence.
  1, 2: assert (e2 = e') as -> by congruence.
  3:{ assert (is_Some (es !! k)) as [ek Hk].
      { clear -H2. apply lookup_lt_is_Some. induction H2; eauto using lookup_lt_Some.
        match goal with H : stamps _ !! _ = Some _ |- _ => apply lookup_lt_Some in H; unfold stamps in H;
          by rewrite run_length in H end. }
      destruct (IH1 _ _ He Hk) as [H1a _]. destruct (IH2 _ _ Hk He') as [H2a H2b].
      split; [lia|]. intros s Hst. destruct (H2b s Hst) as [-> ?]. split; [done|]. lia. }
  all: pose proof (event_step_clock e' (clocks (take k es)) (proc e')
    (clocks_ok _ (room_take _ _ Hr) _) (clocks_ok _ (room_take _ _ Hr) _)) as Hstep;
    destruct Hstep as (_ & H2 & H3);
    [destruct Hr as [Hs' _]; rewrite Forall_lookup in Hs'; by apply (Hs' k)|].
  all: unfold after; rewrite (clocks_take _ _ _ He'); rewrite (stamps_lookup _ _ _ He').
  - pose proof (clock_grows es (proc e) (S j) k Hr ltac:(lia)) as Hg. rewrite Hp in *.
    split; [lia|]. intros s [= Hst]. destruct (H3 s Hst) as [-> ?]. split; [done|]. lia.
  - rewrite (stamps_lookup _ _ _ He) in Hs. injection Hs as Hs.
    pose proof (event_step_clock e (clocks (take j es)) (proc e)
      (clocks_ok _ (room_take _ _ Hr) _) (clocks_ok _ (room_take _ _ Hr) _)) as Hj.
    destruct Hj as (_ & _ & Hj); [destruct Hr as [Hs' _]; rewrite Forall_lookup in Hs'; by apply (Hs' j)|].
    destruct (Hj _ Hs) as [Hsj _]. rewrite (clocks_take _ _ _ He), <- Hsj.
    split; [lia|]. intros s' [= Hst]. destruct (H3 s' Hst) as [-> ?]. split; [done|]. lia.
Qed.

(** C29. Stamps order writes as they happen: among processes that each take
    stamps from their own clock, whatever the wall clocks say, an event that
    comes after another (at the same process, or because it saw its stamp, or
    through others) gets a higher stamp, as long as no stamp seen or given is
    the last a [u64] holds. *)
Theorem stamps_follow_order (es : list event) (j k : nat) (s s' : Z) :
  room es -> before es j k ->
  stamps es !! j = Some (Some s) -> stamps es !! k = Some (Some s') -> s < s'.
Proof.
  intros Hr Hb Hj Hk.
  assert (forall n x, stamps es !! n = Some x -> is_Some (es !! n)) as Hin.
  { intros n x Hn. apply lookup_lt_is_Some. apply lookup_lt_Some in Hn. unfold stamps in Hn.
    by rewrite run_length in Hn. }
  destruct (Hin _ _ Hj) as [e He]. destruct (Hin _ _ Hk) as [e' He'].
  destruct (before_clock es j k Hr Hb e e' He He') as [_ H]. destruct (H s' Hk) as [_ Hlt].
  rewrite (stamps_lookup _ _ _ He) in Hj. injection Hj as Hj.
  destruct (event_step_clock e (clocks (take j es)) (proc e)) as (_ & _ & Hs);
    try by apply clocks_ok, room_take.
  { destruct Hr as [Hs' _]. rewrite Forall_lookup in Hs'. by apply (Hs' j). }
  destruct (Hs s Hj) as [Es _]. unfold after in Hlt. rewrite (clocks_take _ _ _ He), <- Es in Hlt. done.
Qed.

(** Two gateways with clocks an hour apart, the second updating what the first
    wrote. *)
Lemma stamps_follow_order_witness :
  let es := [Issue 0 7200000 0; Issue 1 3600000 471859200000; Note 0 5; Issue 1 3600000 0] in
  stamps es = [Some 471859200000; Some 471859200001; None; Some 471859200002] /\
  471859200000 < 471859200002.
Proof.
  intros es. split; [by vm_compute|].
  apply (stamps_follow_order es 0 3).
  - split; repeat constructor; by vm_compute.
  - apply (before_trans _ 0 1 3).
    + by eapply (before_message es 0 1 (Issue 1 3600000 471859200000)); [lia|vm_compute|..].
    + by eapply (before_process es 1 3); [lia|..].
  - by vm_compute.
  - by vm_compute.
Defined.

(** The last stamp a [u64] holds breaks the clock: a clock that has observed
    it next issues stamp 0, which means unstamped, and forgets every stamp it
    was to stay above, so that the one after orders before them. *)
Theorem last_stamp_resets_clock (wall : Z) (last : Clock) :
  is_u64 last -> next_after wall 0 (observe u64_max last) = (0, new).
Proof.
  unfold is_u64. intros Hl. unfold next_after, observe.
  replace (Z.max (Z.max last u64_max) 0) with u64_max by (unfold u64_max, two64 in *; lia).
  assert (stamp_above wall u64_max = 0) as ->; [|done].
  unfold stamp_above. pose proof (wrap64_u64 (Z.shiftl wall COUNTER_BITS)) as Hw. unfold is_u64 in Hw.
  change (wrap64 (Z.shiftl wall COUNTER_BITS)) with (wshl64 wall COUNTER_BITS) in Hw.
  replace (u64_max <? wshl64 wall COUNTER_BITS) with false by (unfold u64_max; lia). by vm_compute.
Qed.

Lemma last_stamp_resets_clock_witness :
  next_after 1700000000000 0 (observe u64_max 7) = (0, 0).
Proof. apply (last_stamp_resets_clock 1700000000000 7). by vm_compute. Defined.

End Stamp.
