(* ===== verification/PgEpochs.v ===== *)
(** * The epoch fence of an OSD

    crates/osd/src/pg_epochs.rs: the epochs of placement groups an OSD
    knows, and whether it serves a request placed under an epoch. [check]
    gives up its locks while it asks meta, so it is modelled in the steps
    between which others run: the arrival, meta's answer, what is learned
    from it, and the second decision. *)

From S2P Require Import Prelude.

Module PgEpochs.

Inductive Decision : Type := Accept | Refuse (current : Z) | Ask.

Definition decide_epoch (known : option Z) (requested : Z) : Decision :=
  if requested =? 0 then Accept
  else match known with
       | Some k => if requested <? k then Refuse k else if k =? requested then Accept else Ask
       | None => Ask
       end.

(** A placement group: its pool and number. *)
Abbreviation pg := (string * Z)%type.
Record PgRef : Type := mkRef { ref_pg : pg; ref_epoch : Z }.

(** [PgEpochs]: what is known. *)
Abbreviation epochs := (gmap pg Z).

Definition learn (p : pg) (epoch : Z) (known : epochs) : epochs :=
  <[p := Z.max (default 0 (known !! p)) epoch]> known.

(** ** The cluster around it *)

(** A check under way: waiting for meta, answered, or about to decide again. *)
Inductive checking : Type :=
| Asking (r : PgRef)
| Answered (r : PgRef) (current : Z)
| Learned (r : PgRef).

Inductive answer : Type := Served (r : option PgRef) | Stale (r : PgRef) (current : Z) | Unavailable (r : PgRef).

Record state : Type := mkState {
  known : epochs;
  meta : gmap pg Z;
  checks : gmap nat checking;
  answers : list answer;
}.

Definition init : state := mkState ∅ ∅ ∅ [].

Inductive action : Type :=
| Raise (p : pg) (epoch : Z)       (* meta changes a group's acting set *)
| Push (p : pg) (epoch : Z)        (* an epoch meta once had reaches the OSD *)
| Arrive (id : nat) (r : option PgRef)
| AskMeta (id : nat) (fails : bool)
| LearnAnswer (id : nat)
| DecideAgain (id : nat).

Definition meta_epoch (p : pg) (s : state) : Z := default 0 (meta s !! p).

Definition reply (a : answer) (s : state) : state :=
  mkState (known s) (meta s) (checks s) (a :: answers s).
Definition set_check (id : nat) (c : option checking) (s : state) : state :=
  mkState (known s) (meta s) (partial_alter (fun _ => c) id (checks s)) (answers s).

(** One step; [None] where the action cannot happen. *)
Definition step (a : action) (s : state) : option state :=
  match a with
  | Raise p e =>
    if meta_epoch p s <? e then Some (mkState (known s) (<[p := e]> (meta s)) (checks s) (answers s))
    else None
  | Push p e =>
    if (0 <? e) && (e <=? meta_epoch p s)
    then Some (mkState (learn p e (known s)) (meta s) (checks s) (answers s)) else None
  | Arrive id None => Some (reply (Served None) s)
  | Arrive id (Some r) =>
    match checks s !! id with
    | Some _ => None
    | None =>
      match decide_epoch (known s !! ref_pg r) (ref_epoch r) with
      | Accept => Some (reply (Served (Some r)) s)
      | Refuse k => Some (reply (Stale r k) s)
      | Ask => Some (set_check id (Some (Asking r)) s)
      end
    end
  | AskMeta id fails =>
    match checks s !! id with
    | Some (Asking r) =>
      if fails : bool then Some (reply (Unavailable r) (set_check id None s))
      else Some (set_check id (Some (Answered r (meta_epoch (ref_pg r) s))) s)
    | _ => None
    end
  | LearnAnswer id =>
    match checks s !! id with
    | Some (Answered r current) =>
      Some (set_check id (Some (Learned r))
              (mkState (learn (ref_pg r) current (known s)) (meta s) (checks s) (answers s)))
    | _ => None
    end
  | DecideAgain id =>
    match checks s !! id with
    | Some (Learned r) =>
      let s' := set_check id None s in
      Some (match decide_epoch (known s !! ref_pg r) (ref_epoch r) with
            | Refuse k => reply (Stale r k) s'
            | _ => reply (Served (Some r)) s'
            end)
    | _ => None
    end
  end.

Fixpoint run (acts : list action) (s : state) : option state :=
  match acts with [] => Some s | a :: acts => s' ← step a s; run acts s' end.

(** ** The fence *)
Lemma known_learn p q e m :
  learn p e m !! q = if decide (q = p) then Some (Z.max (default 0 (m !! p)) e) else m !! q.
Proof.
  unfold learn. case_decide as E; [subst; by rewrite lookup_insert_eq|].
  by rewrite lookup_insert_ne by congruence.
Qed.

(** What is known never goes down. *)
Definition at_least (p : pg) (k : Z) (m : epochs) : Prop :=
  exists k', m !! p = Some k' /\ k <= k'.

Lemma at_least_learn p k q e m : at_least p k m -> at_least p k (learn q e m).
Proof.
  intros (k' & E & H). unfold at_least. rewrite known_learn. case_decide as Eq; [|by exists k'].
  subst q. rewrite E. eexists. split; [done|]. cbn. lia.
Qed.

Lemma step_known a s s' p k : step a s = Some s' -> at_least p k (known s) -> at_least p k (known s').
Proof.
  intros H Hk. destruct a as [q e|q e|id [r|]|id f|id|id]; cbn in H; repeat case_match; simplify_eq; cbn;
    try done; by apply at_least_learn.
Qed.

(** An answer is right for what is known of its group. *)
Definition fenced (p : pg) (k : Z) (a : answer) : Prop :=
  match a with
  | Served (Some r) => ref_pg r = p -> ref_epoch r = 0 \/ k <= ref_epoch r
  | _ => True
  end.

Lemma decide_served known e p k :
  at_least p k known -> (forall c, decide_epoch (known !! p) e <> Refuse c) -> e = 0 \/ k <= e.
Proof.
  intros (k' & E & Hk) H. rewrite E in H. unfold decide_epoch in H.
  destruct (Z.eqb_spec e 0); [by left|]. right. destruct (Z.ltb_spec e k'); [|lia]. by destruct (H k').
Qed.

Lemma step_answers a s s' :
  step a s = Some s' ->
  answers s' = answers s \/
  exists x, answers s' = x :: answers s /\ forall p k, at_least p k (known s) -> fenced p k x.
Proof.
  intros H. destruct a as [q e|q e|id [r|]|id f|id|id]; cbn in H; repeat case_match; simplify_eq; cbn;
    try (by left); right; eexists; (split; [done|]); intros p k Hk; try done;
    cbn; intros <-; apply (decide_served (known s) _ (ref_pg r)); try done; congruence.
Qed.

(** What the OSD knows, and what a check was told, meta has had. *)
Record truthful (s : state) : Prop := mkTruthful {
  t_known : forall p k, known s !! p = Some k -> k <= meta_epoch p s;
  t_answered : forall id r c, checks s !! id = Some (Answered r c) -> c <= meta_epoch (ref_pg r) s;
  t_stale : forall r k, Stale r k ∈ answers s -> ref_epoch r < k <= meta_epoch (ref_pg r) s;
  t_meta : forall p, 0 <= meta_epoch p s;
}.

Lemma decide_refuse known e k :
  decide_epoch known e = Refuse k -> known = Some k /\ e < k.
Proof.
  unfold decide_epoch. destruct (e =? 0); [done|]. destruct known as [k'|]; [|done].
  destruct (Z.ltb_spec e k'); [intros; simplify_eq; done|]. by case_if.
Qed.

Lemma meta_grows a s s' p : step a s = Some s' -> meta_epoch p s <= meta_epoch p s'.
Proof.
  intros H. destruct a as [q e|q e|id [r|]|id f|id|id]; cbn in H; repeat case_match; simplify_eq;
    try done. unfold meta_epoch in *. cbn. bool_to_prop.
  destruct (decide (q = p)) as [->|Hne]; [rewrite lookup_insert_eq; cbn; lia|].
  by rewrite lookup_insert_ne.
Qed.

Lemma known_learn_le s p e q k :
  truthful s -> e <= meta_epoch p s -> learn p e (known s) !! q = Some k -> k <= meta_epoch q s.
Proof.
  intros [Hk _ _ Hm] He. rewrite known_learn. case_decide as E; [|apply Hk]. subst q. intros [= <-].
  specialize (Hm p). destruct (known s !! p) as [k'|] eqn:Ek; cbn; [|lia]. specialize (Hk _ _ Ek). lia.
Qed.

Lemma lookup_set_check id c s id' :
  checks (set_check id c s) !! id' = if decide (id' = id) then c else checks s !! id'.
Proof.
  unfold set_check. cbn. case_decide as E; [subst; by rewrite lookup_partial_alter_eq|].
  by rewrite lookup_partial_alter_ne.
Qed.

(** The cases of a step that happens. *)
Ltac step_cases H :=
  match type of H with step ?a _ = Some _ =>
    destruct a as [?q ?e|?q ?e|?id [?r|]|?id ?f|?id|?id]; cbn [step] in H;
    repeat case_match; simplify_eq; bool_to_prop; cbn [known meta checks answers reply set_check] in *
  end.

Lemma step_known_le a s s' p k :
  truthful s -> step a s = Some s' -> known s' !! p = Some k -> k <= meta_epoch p s'.
Proof.
  intros Ht H Hk. pose proof (meta_grows a s s' p H) as Hg.
  assert (k <= meta_epoch p s) as Hle; [|lia].
  pose proof Ht as [Hk0 Ha _ _]. step_cases H; try by apply Hk0.
  - by apply (known_learn_le s q e).
  - eapply (known_learn_le s _ _ p k Ht); [by eapply Ha|done].
Qed.

Lemma step_answered_le a s s' id r c :
  truthful s -> step a s = Some s' -> checks s' !! id = Some (Answered r c) -> c <= meta_epoch (ref_pg r) s'.
Proof.
  intros Ht H Hc. pose proof (meta_grows a s s' (ref_pg r) H) as Hg.
  assert (c <= meta_epoch (ref_pg r) s) as Hle; [|lia].
  pose proof Ht as [_ Ha _ _]. step_cases H; try (by eapply Ha);
    (destruct (decide (id = id0)) as [->|Hne];
      [rewrite lookup_partial_alter_eq in Hc; by simplify_eq
      |rewrite lookup_partial_alter_ne in Hc by congruence; by eapply Ha]).
Qed.

Lemma step_stale_le a s s' r k :
  truthful s -> step a s = Some s' -> Stale r k ∈ answers s' -> ref_epoch r < k <= meta_epoch (ref_pg r) s'.
Proof.
  intros Ht H Hin. pose proof (meta_grows a s s' (ref_pg r) H) as Hg.
  assert (ref_epoch r < k <= meta_epoch (ref_pg r) s) as Hle; [|lia].
  pose proof Ht as [Hk _ Hs _]. step_cases H; try (by apply Hs);
    (apply elem_of_cons in Hin as [[=]|Hin]; [..|by apply Hs]); subst;
    match goal with H : decide_epoch _ _ = Refuse _ |- _ => apply decide_refuse in H as [E ?] end;
    apply Hk in E; lia.
Qed.

Lemma step_truthful a s s' : truthful s -> step a s = Some s' -> truthful s'.
Proof.
  intros Ht H. constructor.
  - intros p k. by eapply step_known_le.
  - intros id r c. by eapply step_answered_le.
  - intros r k. by eapply step_stale_le.
  - intros p. pose proof (meta_grows a s s' p H). pose proof (t_meta _ Ht p). lia.
Qed.

Lemma init_truthful : truthful init.
Proof.
  constructor; try done; cbn [init answers]; intros r k H. by apply elem_of_nil in H.
Qed.

Lemma run_truthful acts : forall s s', truthful s -> run acts s = Some s' -> truthful s'.
Proof.
  induction acts as [|a acts IH]; intros s s' Ht H; cbn in H; [by simplify_eq|].
  destruct (step a s) as [s1|] eqn:E; cbn in H; [|done]. eapply IH; [|done]. by eapply step_truthful.
Qed.

Lemma run_fenced acts : forall s s' p k, run acts s = Some s' -> at_least p k (known s) ->
  exists new, answers s' = new ++ answers s /\ Forall (fenced p k) new.
Proof.
  induction acts as [|a acts IH]; intros s s' p k H Hk; cbn in H; [simplify_eq; by exists []|].
  destruct (step a s) as [s1|] eqn:E; cbn in H; [|done].
  destruct (IH s1 s' p k H (step_known _ _ _ _ _ E Hk)) as (new & En & Hn).
  destruct (step_answers _ _ _ E) as [E1|(x & E1 & Hx)]; rewrite E1 in En; [by exists new|].
  exists (new ++ [x]). rewrite <- (assoc (++)). split; [done|]. rewrite Forall_app, Forall_singleton.
  split; [done|]. by apply Hx.
Qed.

(** C30. The epoch fence holds in every interleaving of pushes, arrivals,
    questions to meta and their answers: from the moment an OSD has learned
    an epoch of a group it serves no request placed under an older one, not
    even one that arrived before and was waiting for meta; and it refuses a
    request only when the group's epoch, at meta, is really newer. *)
Theorem stale_epoch_fenced (pre post : list action) (s s' : state) (p : pg) (k : Z) :
  run pre init = Some s -> known s !! p = Some k -> run post s = Some s' ->
  exists new, answers s' = new ++ answers s /\ Forall (fenced p k) new /\
    forall r c, Stale r c ∈ answers s' -> ref_epoch r < c <= meta_epoch (ref_pg r) s'.
Proof.
  intros Hpre Hk Hpost. destruct (run_fenced post s s' p k Hpost) as (new & E & Hn); [by exists k|].
  exists new. split_and!; try done.
  apply (run_truthful post s); [|done]. by apply (run_truthful pre init); [apply init_truthful|].
Qed.

(** A write that arrived under epoch 3 and waited while the OSD learned 4. *)
Definition ex_pg : pg := ("pool"%string, 1).
Definition ex_pre : list action :=
  [Raise ex_pg 3; Arrive 7 (Some (mkRef ex_pg 3)); AskMeta 7 false; Raise ex_pg 4; Push ex_pg 4].
Definition ex_post : list action :=
  [Arrive 8 (Some (mkRef ex_pg 4)); LearnAnswer 7; DecideAgain 7; Arrive 9 (Some (mkRef ex_pg 3))].
Definition ex_s : state := default init (run ex_pre init).
Definition ex_s' : state := default init (run ex_post ex_s).

Lemma stale_epoch_fenced_witness :
  answers ex_s' = [Stale (mkRef ex_pg 3) 4; Stale (mkRef ex_pg 3) 4; Served (Some (mkRef ex_pg 4))] /\
  exists new, answers ex_s' = new ++ answers ex_s /\ Forall (fenced ex_pg 4) new /\
    forall r c, Stale r c ∈ answers ex_s' -> ref_epoch r < c <= meta_epoch (ref_pg r) ex_s'.
Proof.
  split; [by vm_compute|].
  apply (stale_epoch_fenced ex_pre ex_post ex_s ex_s' ex_pg 4); by vm_compute.
Defined.

End PgEpochs.
