(* ===== verification/Requests.v ===== *)
(** * S3 requests: what is authorized and what is run

    The authorization layer reads a request's method, path and raw query
    (crates/gateway/src/authz.rs, [classify]); the handler it goes on to
    reads the same query again, as axum's [Query] decodes it, and picks the
    operation to run (crates/gateway/src/s3.rs and s3/*.rs). This file holds
    both readings and compares them. axum's extractor and the
    percent-decoder are the classes [Query] and [Urlencoding]; [WebQuery] is
    an extractor that satisfies its class. *)

From S2P Require Import Prelude Bytes StdText.

Module Requests.

(** ** The request line *)
Inductive Method : Type := GET | HEAD | PUT | POST | DELETE | OtherMethod.
#[global] Instance Method_eq_dec : EqDecision Method.
Proof. solve_decision. Defined.

(** [urlencoding::decode]: [None] for bytes that are not UTF-8; only nothing
    decodes to nothing. *)
Class Urlencoding : Type := {
  url_decode : string -> option string;
  url_decode_empty s : url_decode s = Some EmptyString -> s = EmptyString;
}.

Inductive Authz : Type :=
| Skip
| DeferToHandler
| Check_ (action bucket : string) (key : option string).

#[global] Instance Authz_eq_dec : EqDecision Authz.
Proof. solve_decision. Defined.

Definition amp : ascii := "&".
Definition eq_sign : ascii := "=".
Definition slash : ascii := "/".

(** [pair.split('=').next().unwrap_or("")]. *)
Definition pair_name (pair : string) : string := hd EmptyString (split_char eq_sign pair).

Definition has (query name : string) : bool :=
  existsb (fun pair => String.eqb (pair_name pair) name) (split_char amp query).

(** A chain [if has(query, n1) { a1 } else if has(query, n2) { a2 } ...]. *)
Fixpoint pick {A} (present : string -> bool) (chain : list (string * A)) (otherwise : A) : A :=
  match chain with
  | [] => otherwise
  | (name, a) :: chain => if present name then a else pick present chain otherwise
  end.

Fixpoint trim_start_slash (s : string) : string :=
  match s with
  | String a s' => if Ascii.eqb slash a then trim_start_slash s' else s
  | EmptyString => EmptyString
  end.

(** ** The authorization layer's reading *)
Definition put_bucket_actions : list (string * string) :=
  [("policy", "s3:PutBucketPolicy"); ("versioning", "s3:PutBucketVersioning");
   ("object-lock", "s3:PutBucketObjectLockConfiguration");
   ("lifecycle", "s3:PutLifecycleConfiguration"); ("encryption", "s3:PutEncryptionConfiguration");
   ("acl", "s3:PutBucketAcl"); ("ownershipControls", "s3:PutBucketOwnershipControls");
   ("publicAccessBlock", "s3:PutBucketPublicAccessBlock"); ("cors", "s3:PutBucketCORS");
   ("tagging", "s3:PutBucketTagging"); ("replication", "s3:PutReplicationConfiguration");
   ("logging", "s3:PutBucketLogging")].

Definition delete_bucket_actions : list (string * string) :=
  [("policy", "s3:DeleteBucketPolicy"); ("lifecycle", "s3:PutLifecycleConfiguration");
   ("encryption", "s3:PutEncryptionConfiguration");
   ("publicAccessBlock", "s3:PutBucketPublicAccessBlock"); ("cors", "s3:PutBucketCORS");
   ("tagging", "s3:PutBucketTagging"); ("replication", "s3:PutReplicationConfiguration")].

Definition get_bucket_actions : list (string * string) :=
  [("policy", "s3:GetBucketPolicy"); ("versioning", "s3:GetBucketVersioning");
   ("object-lock", "s3:GetBucketObjectLockConfiguration");
   ("lifecycle", "s3:GetLifecycleConfiguration"); ("encryption", "s3:GetEncryptionConfiguration");
   ("acl", "s3:GetBucketAcl"); ("ownershipControls", "s3:GetBucketOwnershipControls");
   ("publicAccessBlock", "s3:GetBucketPublicAccessBlock");
   ("policyStatus", "s3:GetBucketPolicyStatus"); ("cors", "s3:GetBucketCORS");
   ("tagging", "s3:GetBucketTagging"); ("replication", "s3:GetReplicationConfiguration");
   ("logging", "s3:GetBucketLogging"); ("location", "s3:GetBucketLocation");
   ("versions", "s3:ListBucketVersions"); ("uploads", "s3:ListBucketMultipartUploads")].

Definition classify_bucket (m : Method) (bucket query : string) : Authz :=
  let check a := Check_ a bucket None in
  match m with
  | PUT => check (pick (has query) put_bucket_actions "s3:CreateBucket")
  | DELETE => check (pick (has query) delete_bucket_actions "s3:DeleteBucket")
  | HEAD => check "s3:ListBucket"
  | GET => check (pick (has query) get_bucket_actions "s3:ListBucket")
  | POST =>
    if has query "delete" then DeferToHandler
    else if has query "grep" then Check_ "s3:GetObject" bucket (Some "*")
    else Skip
  | OtherMethod => Skip
  end.

Definition put_object_actions : list (string * string) :=
  [("retention", "s3:PutObjectRetention"); ("legal-hold", "s3:PutObjectLegalHold");
   ("tagging", "s3:PutObjectTagging"); ("acl", "s3:PutObjectAcl")].
Definition get_object_actions : list (string * string) :=
  [("retention", "s3:GetObjectRetention"); ("legal-hold", "s3:GetObjectLegalHold");
   ("tagging", "s3:GetObjectTagging"); ("acl", "s3:GetObjectAcl");
   ("uploadId", "s3:ListMultipartUploadParts")].
Definition delete_object_actions : list (string * string) :=
  [("uploadId", "s3:AbortMultipartUpload"); ("tagging", "s3:DeleteObjectTagging")].

Definition classify_object (m : Method) (bucket key query : string) : Authz :=
  let check a := Check_ a bucket (Some key) in
  match m with
  | PUT => check (pick (has query) put_object_actions "s3:PutObject")
  | GET => check (pick (has query) get_object_actions "s3:GetObject")
  | HEAD => check "s3:GetObject"
  | DELETE => check (pick (has query) delete_object_actions "s3:DeleteObject")
  | POST => check (if has query "grep" || has query "select" then "s3:GetObject" else "s3:PutObject")
  | OtherMethod => Skip
  end.

Section Classify.
Context {URL : Urlencoding}.

Definition decode (segment : string) : string := default segment (url_decode segment).

(** The bucket, and the key if there is one, a path names; [None] for the
    service's own routes. *)
Definition target (path : string) : option (string * option string) :=
  let trimmed := trim_start_slash path in
  if String.eqb trimmed EmptyString || String.eqb trimmed "health" || String.eqb trimmed "_ready"
  then None
  else
    let '(raw_bucket, raw_key) := default (trimmed, EmptyString) (split_once slash trimmed) in
    Some (decode raw_bucket,
          if String.eqb raw_key EmptyString then None else Some (decode raw_key)).

Definition classify (m : Method) (path query : string) : Authz :=
  match target path with
  | None => Skip
  | Some (bucket, None) => classify_bucket m bucket query
  | Some (bucket, Some key) => classify_object m bucket key query
  end.

(** [extract_query_param]: the first pair with this name and a value. *)
Definition extract_query_param (query name : string) : option string :=
  head (omap (fun pair => '(k, v) ← split_once eq_sign pair;
                          if String.eqb k name then Some (decode v) else None)
             (split_char amp query)).

(** What the scope is checked against: the key, or the prefix asked for. *)
Definition scope_key (key : option string) (query : string) : string :=
  default (default EmptyString (extract_query_param query "prefix")) key.

End Classify.

(** ** The handlers' reading *)

(** What a handler runs: one constructor per function it can go on to. *)
Inductive Operation : Type :=
(* PUT /{bucket} *)
| SetBucketTagging | PutBucketAcl | PutOwnershipControls | PutPublicAccessBlock | PutBucketCors
| PutReplication | PutBucketLogging | PutBucketPolicy | PutBucketVersioning | PutObjectLockConfig
| PutLifecycle | PutBucketEncryption | CreateBucket
(* DELETE /{bucket} *)
| DeleteBucketTagging | DeleteBucketPolicy | DeleteLifecycle | DeleteBucketEncryption
| DeletePublicAccessBlock | DeleteBucketCors | DeleteReplication | DeleteBucket
(* GET and HEAD /{bucket} *)
| GetBucketLocation | GetBucketTagging | GetBucketAcl | GetOwnershipControls | GetPublicAccessBlock
| GetPolicyStatus | GetBucketCors | GetReplication | GetBucketLogging | GetBucketPolicy
| GetBucketVersioning | GetObjectLockConfig | GetLifecycle | GetBucketEncryption
| ListMultipartUploads | ListObjectVersions | ListObjects | HeadBucket
(* POST /{bucket} *)
| DeleteObjects | GrepPrefix
(* PUT /{bucket}/{key} *)
| UploadPartCopy | UploadPart | PutObjectAcl | PutObjectRetention | PutObjectLegalHold
| PutObjectTagging | PutObject
(* GET and HEAD /{bucket}/{key} *)
| ListParts | GetObjectRetention | GetObjectLegalHold | GetObjectTagging | GetObjectAttributes
| GetObjectAcl | GetObjectPart | GetObjectVersion | HeadObject
(* DELETE and POST /{bucket}/{key} *)
| AbortMultipartUpload | DeleteObjectTagging | DeleteObject
| InitiateMultipartUpload | CompleteMultipartUpload | GrepObject | SelectObjectContent.
#[global] Instance Operation_eq_dec : EqDecision Operation.
Proof. solve_decision. Defined.

Inductive Served : Type :=
| Run (op : Operation)
| Refused.

(** A request's parameters as a handler's [Query(params)] has them: the
    fields of [T] that are there, by their names in the query. [None] is
    axum's 400. [query_params strs ints query]: the string fields and the
    [u32] fields of [T]. *)
Definition query_chars (s : string) : bool :=
  forallb (fun b => (bval b <? 0x80) && negb (bval b =? 37) && negb (bval b =? 43)) (as_bytes s).

(** What the handlers rely on: a query with nothing to decode (no [%] or
    [+]) gives a field exactly when the query has its name. *)
Class Query : Type := {
  query_params : list string -> list string -> string -> option (gmap string string);
  query_plain strs ints query params name :
    query_chars query = true -> query_params strs ints query = Some params ->
    name ∈ strs ++ ints -> name <> EmptyString ->
    bool_decide (is_Some (params !! name)) = has query name;
}.

(** The rest of what the handlers decide on, read off the headers, the body,
    the identity and the answers of meta and the OSDs. *)
Record Rest : Type := mkRest {
  ownership_refused : bool;   (* x-amz-object-ownership is not BucketOwnerEnforced *)
  acl_refused : bool;         (* acl_header_refusal *)
  copy_source : bool;         (* x-amz-copy-source is there *)
  streamed : bool;            (* the Streamed extension *)
  body_read : bool;           (* whole(body) gives the body *)
  current : bool;             (* unless_current(.., version_id) is None *)
  anonymous : bool;           (* auth_mode is Anonymous *)
  overrides_valid : bool;     (* every response-* value is a header value *)
}.

Section Handlers.
Context {QUERY : Query}.

Notation "'params_of' q 'with' strs 'and' ints 'as' p ; k" :=
  (match query_params strs ints q with None => Refused | Some p => k end)
  (at level 10, p name, k at level 200).

Definition present (params : gmap string string) (name : string) : bool :=
  bool_decide (is_Some (params !! name)).

Definition put_bucket_fields : list string :=
  ["tagging"; "policy"; "versioning"; "object-lock"; "lifecycle"; "encryption"; "acl";
   "ownershipControls"; "publicAccessBlock"; "cors"; "replication"; "logging"].

Definition create_bucket (r : Rest) (query : string) : Served :=
  params_of query with put_bucket_fields and [] as params ;
  pick (present params)
    [("tagging", Run SetBucketTagging); ("acl", Run PutBucketAcl);
     ("ownershipControls", Run PutOwnershipControls);
     ("publicAccessBlock", Run PutPublicAccessBlock); ("cors", Run PutBucketCors);
     ("replication", Run PutReplication); ("logging", Run PutBucketLogging)]
    (if ownership_refused r then Refused
     else if acl_refused r then Refused
     else pick (present params)
       [("policy", Run PutBucketPolicy); ("versioning", Run PutBucketVersioning);
        ("object-lock", Run PutObjectLockConfig); ("lifecycle", Run PutLifecycle);
        ("encryption", Run PutBucketEncryption)]
       (Run CreateBucket)).

Definition delete_bucket_fields : list string :=
  ["tagging"; "policy"; "uploads"; "lifecycle"; "encryption"; "publicAccessBlock"; "cors";
   "replication"].

Definition delete_bucket (query : string) : Served :=
  params_of query with delete_bucket_fields and [] as params ;
  pick (present params)
    [("tagging", Run DeleteBucketTagging); ("policy", Run DeleteBucketPolicy);
     ("lifecycle", Run DeleteLifecycle); ("encryption", Run DeleteBucketEncryption);
     ("publicAccessBlock", Run DeletePublicAccessBlock); ("cors", Run DeleteBucketCors);
     ("replication", Run DeleteReplication)]
    (Run DeleteBucket).

Definition list_fields : list string :=
  ["tagging"; "prefix"; "delimiter"; "max-keys"; "continuation-token"; "marker"; "start-after";
   "list-type"; "encoding-type"; "fetch-owner"; "acl"; "location"; "ownershipControls";
   "publicAccessBlock"; "policyStatus"; "cors"; "replication"; "logging"; "policy"; "versions";
   "versioning"; "object-lock"; "lifecycle"; "encryption"; "uploads"; "key-marker";
   "version-id-marker"; "upload-id-marker"].
Definition list_ints : list string := ["max-uploads"].

(** [list_objects] on its parsed parameters. *)
Definition list_objects_with (params : gmap string string) : Served :=
  let max_keys := match params !! "max-keys" with
                  | None => true
                  | Some v => match parse_i64 (chars v) with Some n => 0 <=? n | None => false end
                  end in
  if negb max_keys then Refused
  else pick (present params)
    [("location", Run GetBucketLocation); ("tagging", Run GetBucketTagging);
     ("acl", Run GetBucketAcl); ("ownershipControls", Run GetOwnershipControls);
     ("publicAccessBlock", Run GetPublicAccessBlock); ("policyStatus", Run GetPolicyStatus);
     ("cors", Run GetBucketCors); ("replication", Run GetReplication);
     ("logging", Run GetBucketLogging); ("policy", Run GetBucketPolicy);
     ("versioning", Run GetBucketVersioning); ("object-lock", Run GetObjectLockConfig);
     ("lifecycle", Run GetLifecycle); ("encryption", Run GetBucketEncryption);
     ("uploads", Run ListMultipartUploads); ("versions", Run ListObjectVersions)]
    (Run ListObjects).

Definition list_objects (query : string) : Served :=
  params_of query with list_fields and list_ints as params ; list_objects_with params.

Definition post_bucket (query : string) : Served :=
  params_of query with ["delete"; "uploads"; "grep"] and [] as params ;
  pick (present params) [("delete", Run DeleteObjects); ("grep", Run GrepPrefix)] Refused.

Definition get_object_fields : list string :=
  ["uploadId"; "versionId"; "attributes"; "acl"; "retention"; "legal-hold"; "tagging";
   "response-content-type"; "response-content-language"; "response-expires";
   "response-cache-control"; "response-content-disposition"; "response-content-encoding"].
Definition get_object_ints : list string := ["max-parts"; "part-number-marker"; "partNumber"].

(** [response_overrides]: the [response-*] fields that are there. *)
Definition override_names : list string :=
  ["response-content-type"; "response-content-language"; "response-expires";
   "response-cache-control"; "response-content-disposition"; "response-content-encoding"].
Definition response_overrides (params : gmap string string) : list string :=
  filter (fun n => present params n) override_names.

(** A sub-resource of the current version only. *)
Definition if_current (r : Rest) (op : Operation) : Served := if current r then Run op else Refused.

Definition get_object_with_params (r : Rest) (key query : string) : Served :=
  params_of query with get_object_fields and get_object_ints as params ;
  if String.eqb key EmptyString then
    list_objects_with
      (match params !! "max-parts" with
       | Some v => {[ "max-keys" := show_u64 (default 0 (parse_u32 (chars v))) ]}
       | None => ∅
       end)
  else if present params "uploadId" then Run ListParts
  else if present params "retention" then if_current r GetObjectRetention
  else if present params "legal-hold" then if_current r GetObjectLegalHold
  else if present params "tagging" then if_current r GetObjectTagging
  else
    let read := Run (if present params "partNumber" then GetObjectPart else GetObjectVersion) in
    if negb (bool_decide (response_overrides params = [])) then
      if anonymous r then Refused
      else if overrides_valid r then read else Refused
    else if present params "attributes" then Run GetObjectAttributes
    else if present params "acl" then Run GetObjectAcl
    else read.

Definition put_object_fields : list string :=
  ["uploadId"; "retention"; "legal-hold"; "tagging"; "versionId"; "acl"].

(** The operation, once the body is read. *)
Definition with_body (r : Rest) (op : Operation) : Served := if body_read r then Run op else Refused.
Definition current_with_body (r : Rest) (op : Operation) : Served :=
  if current r then with_body r op else Refused.

Definition put_object_with_params (r : Rest) (query : string) : Served :=
  params_of query with put_object_fields and ["partNumber"] as params ;
  if present params "uploadId" && present params "partNumber" then
    if copy_source r then Run UploadPartCopy
    else if streamed r then Run UploadPart
    else with_body r UploadPart
  else if present params "acl" then with_body r PutObjectAcl
  else if acl_refused r then Refused
  else if present params "retention" then current_with_body r PutObjectRetention
  else if present params "legal-hold" then current_with_body r PutObjectLegalHold
  else if present params "tagging" then current_with_body r PutObjectTagging
  else if streamed r then Run PutObject
  else with_body r PutObject.

Definition delete_object_with_params (r : Rest) (query : string) : Served :=
  params_of query with ["uploadId"; "versionId"; "tagging"] and [] as params ;
  if present params "uploadId" then Run AbortMultipartUpload
  else if present params "tagging" then if_current r DeleteObjectTagging
  else Run DeleteObject.

Definition post_object (query : string) : Served :=
  params_of query with ["uploads"; "uploadId"; "grep"; "select"] and [] as params ;
  pick (present params)
    [("uploads", Run InitiateMultipartUpload); ("uploadId", Run CompleteMultipartUpload);
     ("grep", Run GrepObject); ("select", Run SelectObjectContent)]
    Refused.

Definition head_object (query : string) : Served :=
  params_of query with ["versionId"] and ["partNumber"] as params ; Run HeadObject.

(** The routes of [/{bucket}] and [/{bucket}/{*key}]. *)
Definition bucket_routes (m : Method) (r : Rest) (query : string) : Served :=
  match m with
  | PUT => create_bucket r query
  | DELETE => delete_bucket query
  | HEAD => Run HeadBucket
  | GET => list_objects query
  | POST => post_bucket query
  | OtherMethod => Refused
  end.

Definition object_routes (m : Method) (r : Rest) (key query : string) : Served :=
  match m with
  | PUT => put_object_with_params r query
  | GET => get_object_with_params r key query
  | HEAD => head_object query
  | DELETE => delete_object_with_params r query
  | POST => post_object query
  | OtherMethod => Refused
  end.

(** A request on its path's routes. *)
Definition serve {URL : Urlencoding} (m : Method) (r : Rest) (path query : string) : Served :=
  match target path with
  | None => Refused
  | Some (_, None) => bucket_routes m r query
  | Some (_, Some key) => object_routes m r key query
  end.

End Handlers.

(** ** What an operation needs *)

(** The S3 action of each operation. [DeleteObjects] authorizes each of its
    keys itself. *)
Definition required_action (op : Operation) : option string :=
  match op with
  | SetBucketTagging | DeleteBucketTagging => Some "s3:PutBucketTagging"
  | PutBucketAcl => Some "s3:PutBucketAcl"
  | PutOwnershipControls => Some "s3:PutBucketOwnershipControls"
  | PutPublicAccessBlock | DeletePublicAccessBlock => Some "s3:PutBucketPublicAccessBlock"
  | PutBucketCors | DeleteBucketCors => Some "s3:PutBucketCORS"
  | PutReplication | DeleteReplication => Some "s3:PutReplicationConfiguration"
  | PutBucketLogging => Some "s3:PutBucketLogging"
  | PutBucketPolicy => Some "s3:PutBucketPolicy"
  | PutBucketVersioning => Some "s3:PutBucketVersioning"
  | PutObjectLockConfig => Some "s3:PutBucketObjectLockConfiguration"
  | PutLifecycle | DeleteLifecycle => Some "s3:PutLifecycleConfiguration"
  | PutBucketEncryption | DeleteBucketEncryption => Some "s3:PutEncryptionConfiguration"
  | CreateBucket => Some "s3:CreateBucket"
  | DeleteBucketPolicy => Some "s3:DeleteBucketPolicy"
  | DeleteBucket => Some "s3:DeleteBucket"
  | GetBucketLocation => Some "s3:GetBucketLocation"
  | GetBucketTagging => Some "s3:GetBucketTagging"
  | GetBucketAcl => Some "s3:GetBucketAcl"
  | GetOwnershipControls => Some "s3:GetBucketOwnershipControls"
  | GetPublicAccessBlock => Some "s3:GetBucketPublicAccessBlock"
  | GetPolicyStatus => Some "s3:GetBucketPolicyStatus"
  | GetBucketCors => Some "s3:GetBucketCORS"
  | GetReplication => Some "s3:GetReplicationConfiguration"
  | GetBucketLogging => Some "s3:GetBucketLogging"
  | GetBucketPolicy => Some "s3:GetBucketPolicy"
  | GetBucketVersioning => Some "s3:GetBucketVersioning"
  | GetObjectLockConfig => Some "s3:GetBucketObjectLockConfiguration"
  | GetLifecycle => Some "s3:GetLifecycleConfiguration"
  | GetBucketEncryption => Some "s3:GetEncryptionConfiguration"
  | ListMultipartUploads => Some "s3:ListBucketMultipartUploads"
  | ListObjectVersions => Some "s3:ListBucketVersions"
  | ListObjects | HeadBucket => Some "s3:ListBucket"
  | DeleteObjects => None
  | UploadPartCopy | UploadPart | PutObject
  | InitiateMultipartUpload | CompleteMultipartUpload => Some "s3:PutObject"
  | PutObjectAcl => Some "s3:PutObjectAcl"
  | PutObjectRetention => Some "s3:PutObjectRetention"
  | PutObjectLegalHold => Some "s3:PutObjectLegalHold"
  | PutObjectTagging => Some "s3:PutObjectTagging"
  | ListParts => Some "s3:ListMultipartUploadParts"
  | GetObjectRetention => Some "s3:GetObjectRetention"
  | GetObjectLegalHold => Some "s3:GetObjectLegalHold"
  | GetObjectTagging => Some "s3:GetObjectTagging"
  | GetObjectAcl => Some "s3:GetObjectAcl"
  | GetObjectAttributes | GetObjectPart | GetObjectVersion | HeadObject
  | GrepPrefix | GrepObject | SelectObjectContent => Some "s3:GetObject"
  | AbortMultipartUpload => Some "s3:AbortMultipartUpload"
  | DeleteObjectTagging => Some "s3:DeleteObjectTagging"
  | DeleteObject => Some "s3:DeleteObject"
  end.

(** [az] covers [op]: the action checked is the one [op] needs, or [op]
    makes its own checks. *)
Definition covers (az : Authz) (op : Operation) : bool :=
  match az with
  | Check_ a _ _ => bool_decide (required_action op = Some a)
  | DeferToHandler => bool_decide (op = DeleteObjects)
  | Skip => false
  end.

(** Every sub-resource a request can name, by level and method, with its
    action; the rest ask for [base_action]. *)
Definition sub_resources (object : bool) (m : Method) : list (string * string) :=
  match object, m with
  | false, PUT => put_bucket_actions
  | false, DELETE => delete_bucket_actions
  | false, GET => get_bucket_actions
  | true, PUT => ("uploadId", "s3:PutObject") :: put_object_actions
  | true, GET =>
    get_object_actions ++
    map (fun n => (n, "s3:GetObject"))
      ["attributes"; "response-content-type"; "response-content-language"; "response-expires";
       "response-cache-control"; "response-content-disposition"; "response-content-encoding"]
  | true, DELETE => delete_object_actions
  | true, POST => [("uploads", "s3:PutObject"); ("uploadId", "s3:PutObject");
                   ("grep", "s3:GetObject"); ("select", "s3:GetObject")]
  | _, _ => []
  end.

(** The sub-resources a query names all need the same action. *)
Definition one_action (object : bool) (m : Method) (query : string) : bool :=
  let named := filter (fun na => has query na.1) (sub_resources object m) in
  forallb (fun na => forallb (fun nb => String.eqb na.2 nb.2) named) named.

(** ** Lemmas *)
Lemma pick_cases {A} p (chain : list (string * A)) d :
  (exists n, (n, pick p chain d) ∈ chain /\ p n = true)
  \/ ((forall n a, (n, a) ∈ chain -> p n = false) /\ pick p chain d = d).
Proof.
  induction chain as [|[n a] chain IH]; cbn.
  { right. split; [|done]. intros n a H. by apply elem_of_nil in H. }
  destruct (p n) eqn:E; [left; exists n; split; [left|done]|].
  destruct IH as [(n' & Hin & Hn')|[Hno ->]]; [left; exists n'; split; [by right|done]|].
  right. split; [|done]. intros n' a' [[= <- <-]|]%elem_of_cons; [done|by eapply Hno].
Qed.

(** [a] is the action of a sub-resource the query names; none it names has
    an action other than [d]. *)
Definition named (sub : list (string * string)) (query a : string) : Prop :=
  exists n, (n, a) ∈ sub /\ has query n = true.
Definition unnamed (sub : list (string * string)) (query d : string) : Prop :=
  forall n a, (n, a) ∈ sub -> has query n = true -> a = d.
Definition answers (sub : list (string * string)) (query d a : string) : Prop :=
  named sub query a \/ (a = d /\ unnamed sub query d).

Lemma one_action_named object m query a b :
  one_action object m query = true ->
  named (sub_resources object m) query a -> named (sub_resources object m) query b -> a = b.
Proof.
  unfold one_action. rewrite forallb_forall. intros H (n & Hn & Hq) (n' & Hn' & Hq').
  assert (In (n, a) (filter (fun na => has query na.1) (sub_resources object m))) as Ha.
  { apply list_elem_of_In, list_elem_of_filter. cbn. by rewrite Hq. }
  specialize (H _ Ha). rewrite forallb_forall in H.
  assert (In (n', b) (filter (fun na => has query na.1) (sub_resources object m))) as Hb.
  { apply list_elem_of_In, list_elem_of_filter. cbn. by rewrite Hq'. }
  by apply String.eqb_eq, (H _ Hb).
Qed.

Lemma answers_agree object m query d a b :
  one_action object m query = true ->
  answers (sub_resources object m) query d a -> answers (sub_resources object m) query d b -> a = b.
Proof.
  intros H [Ha|[-> Ha]] [Hb|[-> Hb]]; [by eapply one_action_named| | |done].
  - destruct Ha as (n & ? & ?). by eapply Hb.
  - destruct Hb as (n & ? & ?). symmetry. by eapply Ha.
Qed.

(** A chain of actions is part of [sub], and has all of [sub] but what needs
    [d] anyway. *)
Definition chain_of (chain sub : list (string * string)) (d : string) : bool :=
  forallb (fun na => bool_decide (na ∈ sub)) chain
  && forallb (fun na => String.eqb na.2 d || bool_decide (na ∈ chain)) sub.

Lemma pick_answers chain sub query d :
  chain_of chain sub d = true -> answers sub query d (pick (has query) chain d).
Proof.
  intros [H1 H2]%andb_true_iff. rewrite forallb_forall in H1. rewrite forallb_forall in H2.
  destruct (pick_cases (has query) chain d) as [(n & Hin & Hn)|[Hno Heq]].
  - left. exists n. split; [|done]. apply list_elem_of_In in Hin.
    exact (bool_decide_eq_true_1 _ (H1 _ Hin)).
  - right. split; [done|]. intros n a Hin Hq. apply list_elem_of_In in Hin. specialize (H2 _ Hin).
    apply orb_true_iff in H2 as [H2|H2]; [by apply String.eqb_eq in H2|].
    apply bool_decide_eq_true in H2. specialize (Hno _ _ H2). congruence.
Qed.

(** What a chain of operations runs needs the action of a name in [sub]. *)
Definition runs_of (chain : list (string * Served)) (sub : list (string * string)) : bool :=
  forallb (fun ns => match ns.2 with
                     | Run op => match required_action op with
                                 | Some a => bool_decide ((ns.1, a) ∈ sub)
                                 | None => false
                                 end
                     | Refused => false
                     end) chain.

Definition needs_named (sub : list (string * string)) (query : string) (op : Operation) : Prop :=
  exists a, required_action op = Some a /\ named sub query a.

Lemma pick_runs chain sub query p e op :
  (forall n s, (n, s) ∈ chain -> p n = has query n) ->
  runs_of chain sub = true -> pick p chain e = Run op ->
  needs_named sub query op
  \/ ((forall n s, (n, s) ∈ chain -> has query n = false) /\ e = Run op).
Proof.
  intros Hp Hr H. unfold runs_of in Hr. rewrite forallb_forall in Hr.
  destruct (pick_cases p chain e) as [(n & Hin & Hn)|[Hno Heq]].
  - left. rewrite H in Hin. rewrite (Hp _ _ Hin) in Hn. apply list_elem_of_In in Hin.
    specialize (Hr _ Hin). cbn in Hr. destruct (required_action op) as [a|] eqn:Ea; [|done].
    exists a. split; [done|]. exists n. split; [exact (bool_decide_eq_true_1 _ Hr)|done].
  - right. split; [|by rewrite <- Heq]. intros n s Hin. rewrite <- (Hp _ _ Hin). by eapply Hno.
Qed.

Section Agree.
Context {QUERY : Query}.

(** [params] is what the extractor made of a query with nothing to decode. *)
Definition reads (strs ints : list string) (query : string) (params : gmap string string) : Prop :=
  forall name, name ∈ strs ++ ints -> name <> EmptyString -> present params name = has query name.

Lemma params_read strs ints query params :
  query_chars query = true -> query_params strs ints query = Some params ->
  reads strs ints query params.
Proof. intros Hc Hp name Hn He. by eapply query_plain. Qed.

(** The names of a chain are among the fields. *)
Definition chain_fields {A} (chain : list (string * A)) (fields : list string) : bool :=
  forallb (fun ns => bool_decide (ns.1 ∈ fields) && negb (String.eqb ns.1 EmptyString)) chain.

Lemma chain_reads {A} (chain : list (string * A)) strs ints query params :
  reads strs ints query params -> chain_fields chain (strs ++ ints) = true ->
  forall n s, (n, s) ∈ chain -> present params n = has query n.
Proof.
  intros Hr Hc n s Hin. unfold chain_fields in Hc. rewrite forallb_forall in Hc.
  apply list_elem_of_In in Hin. specialize (Hc _ Hin). cbn in Hc.
  apply andb_true_iff in Hc as [Hc He]. apply Hr; [exact (bool_decide_eq_true_1 _ Hc)|].
  intros ->. done.
Qed.

(** A request at one level with one method: what it runs is covered by what
    is checked. *)
Definition needs (sub : list (string * string)) (query d : string) (op : Operation) : Prop :=
  exists a, required_action op = Some a /\ answers sub query d a.

Lemma covers_check object m query d a bucket key op :
  one_action object m query = true ->
  answers (sub_resources object m) query d a -> needs (sub_resources object m) query d op ->
  covers (Check_ a bucket key) op = true.
Proof.
  intros H1 Ha (b & Hop & Hb). cbn. rewrite Hop. apply bool_decide_eq_true. f_equal.
  symmetry. by eapply answers_agree.
Qed.

Lemma needs_of_named sub query d op : needs_named sub query op -> needs sub query d op.
Proof. intros (a & ? & ?). exists a. split; [done|by left]. Qed.

(** A chain whose names, all missing, leave only names that need [d]. *)
Lemma unnamed_of {A} (chain : list (string * A)) sub query d :
  forallb (fun na => String.eqb na.2 d || existsb (fun ns => String.eqb ns.1 na.1) chain) sub = true ->
  (forall n s, (n, s) ∈ chain -> has query n = false) -> unnamed sub query d.
Proof.
  intros Hs Hno n a Hin Hq. rewrite forallb_forall in Hs. apply list_elem_of_In in Hin.
  specialize (Hs _ Hin). cbn in Hs. apply orb_true_iff in Hs as [Hs|Hs]; [by apply String.eqb_eq in Hs|].
  apply existsb_exists in Hs as ([n' s] & Hc & Heq). cbn in Heq. apply String.eqb_eq in Heq as ->.
  apply list_elem_of_In in Hc. specialize (Hno _ _ Hc). congruence.
Qed.

Lemma list_needs query op :
  query_chars query = true -> list_objects query = Run op ->
  needs (sub_resources false GET) query "s3:ListBucket" op.
Proof.
  intros Hc. unfold list_objects. destruct (query_params _ _ _) as [params|] eqn:Hp; [|done].
  apply params_read in Hp; [|done]. unfold list_objects_with.
  destruct (negb _); [done|]. intros H.
  eapply pick_runs in H as [H|[Hno H]];
    [by apply needs_of_named| |eapply chain_reads; [exact Hp|by vm_compute]|by vm_compute].
  simplify_eq. exists "s3:ListBucket". split; [done|]. right. split; [done|].
  eapply unnamed_of; [|exact Hno]. by vm_compute.
Qed.

Lemma create_needs r query op :
  query_chars query = true -> create_bucket r query = Run op ->
  needs (sub_resources false PUT) query "s3:CreateBucket" op.
Proof.
  intros Hc. unfold create_bucket. destruct (query_params _ _ _) as [params|] eqn:Hp; [|done].
  apply params_read in Hp; [|done]. intros H.
  eapply pick_runs in H as [H|[Hno H]];
    [by apply needs_of_named| |eapply chain_reads; [exact Hp|by vm_compute]|by vm_compute].
  destruct (ownership_refused r); [done|]. destruct (acl_refused r); [done|].
  eapply pick_runs in H as [H|[Hno' H]];
    [by apply needs_of_named| |eapply chain_reads; [exact Hp|by vm_compute]|by vm_compute].
  simplify_eq. exists "s3:CreateBucket". split; [done|]. right. split; [done|].
  eapply unnamed_of; cycle 1.
  { intros n s [Hin|Hin]%elem_of_app; [by eapply Hno|by eapply Hno']. }
  by vm_compute.
Qed.

Lemma delete_needs query op :
  query_chars query = true -> delete_bucket query = Run op ->
  needs (sub_resources false DELETE) query "s3:DeleteBucket" op.
Proof.
  intros Hc. unfold delete_bucket. destruct (query_params _ _ _) as [params|] eqn:Hp; [|done].
  apply params_read in Hp; [|done]. intros H.
  eapply pick_runs in H as [H|[Hno H]];
    [by apply needs_of_named| |eapply chain_reads; [exact Hp|by vm_compute]|by vm_compute].
  simplify_eq. exists "s3:DeleteBucket". split; [done|]. right. split; [done|].
  eapply unnamed_of; [|exact Hno]. by vm_compute.
Qed.

(** A sub-resource found and its operation run. *)
Lemma needs_name sub query d op n a :
  required_action op = Some a -> (n, a) ∈ sub -> has query n = true -> needs sub query d op.
Proof. intros Ha Hn Hq. exists a. split; [done|]. left. by exists n. Qed.

(** None of [missing] is there, and the rest of [sub] needs [d]. *)
Lemma needs_default sub query d op missing :
  required_action op = Some d ->
  forallb (fun na => String.eqb na.2 d || existsb (String.eqb na.1) missing) sub = true ->
  Forall (fun n => has query n = false) missing -> needs sub query d op.
Proof.
  intros Ha Hs Hm. exists d. split; [done|]. right. split; [done|]. intros n a Hin Hq.
  rewrite forallb_forall in Hs. apply list_elem_of_In in Hin. specialize (Hs _ Hin). cbn in Hs.
  apply orb_true_iff in Hs as [Hs|Hs]; [by apply String.eqb_eq in Hs|].
  apply existsb_exists in Hs as (n' & Hn' & ->%String.eqb_eq).
  rewrite Forall_forall in Hm. apply list_elem_of_In, Hm in Hn'. congruence.
Qed.

Lemma overrides_named query params :
  reads get_object_fields get_object_ints query params -> response_overrides params <> [] ->
  named (sub_resources true GET) query "s3:GetObject".
Proof.
  intros Hr Ho. unfold response_overrides in Ho.
  destruct (filter _ _) as [|n l] eqn:E; [done|]. clear Ho.
  assert (n ∈ n :: l) as Hn by left. rewrite <- E in Hn. apply list_elem_of_filter in Hn as [Hp Hn].
  assert (forallb (fun n => bool_decide ((n, "s3:GetObject") ∈ sub_resources true GET)
                            && bool_decide (n ∈ get_object_fields ++ get_object_ints)
                            && negb (String.eqb n EmptyString)) override_names = true) as Hall
    by by vm_compute.
  rewrite forallb_forall in Hall. apply list_elem_of_In, Hall in Hn.
  apply andb_true_iff in Hn as [[H1 H2]%andb_true_iff H3]. exists n. split.
  - exact (bool_decide_eq_true_1 _ H1).
  - rewrite <- Hr; [by destruct (present params n)|exact (bool_decide_eq_true_1 _ H2)|].
    intros ->. done.
Qed.

Lemma reads_name strs ints query params n :
  reads strs ints query params ->
  existsb (String.eqb n) (strs ++ ints) && negb (String.eqb n EmptyString) = true ->
  present params n = has query n.
Proof.
  intros Hr [He Hn]%andb_true_iff. apply Hr; [|by intros ->].
  apply existsb_exists in He as (n' & Hin & ->%String.eqb_eq). by apply list_elem_of_In.
Qed.

(** Reading one name of the query off the parameters, and going on. *)
Ltac read_name Hr n :=
  rewrite (reads_name _ _ _ _ n Hr eq_refl); destruct (has _ n) eqn:?.
(** The operation of the name just found, or of no name found. *)
Ltac found n := intros; simplify_eq; by eapply (needs_name _ _ _ _ n); [done|set_solver|].

Lemma get_object_needs r key query op :
  query_chars query = true -> key <> EmptyString -> get_object_with_params r key query = Run op ->
  needs (sub_resources true GET) query "s3:GetObject" op.
Proof.
  intros Hc Hk. unfold get_object_with_params, if_current.
  destruct (query_params _ _ _) as [params|] eqn:Hp; [|done].
  apply params_read in Hp; [|done].
  destruct (String.eqb_spec key EmptyString) as [|_]; [done|].
  read_name Hp "uploadId"; [found "uploadId"|].
  read_name Hp "retention"; [destruct (current r); [found "retention"|done]|].
  read_name Hp "legal-hold"; [destruct (current r); [found "legal-hold"|done]|].
  read_name Hp "tagging"; [destruct (current r); [found "tagging"|done]|].
  set (read := if present params "partNumber" then GetObjectPart else GetObjectVersion).
  assert (required_action read = Some "s3:GetObject") as Hread by by destruct (present _ _).
  case_bool_decide as Ho; cbn.
  - read_name Hp "attributes"; [found "attributes"|]. read_name Hp "acl"; [found "acl"|].
    intros [= <-]. eapply (needs_default _ _ _ _ ["uploadId"; "retention"; "legal-hold"; "tagging"; "acl"]);
      [done|by vm_compute|by repeat constructor].
  - destruct (anonymous r); [done|]. destruct (overrides_valid r); [|done]. intros [= <-].
    exists "s3:GetObject". split; [done|]. left. by eapply overrides_named.
Qed.

Lemma put_object_needs r query op :
  query_chars query = true -> put_object_with_params r query = Run op ->
  needs (sub_resources true PUT) query "s3:PutObject" op.
Proof.
  intros Hc. unfold put_object_with_params, current_with_body, with_body.
  destruct (query_params _ _ _) as [params|] eqn:Hp; [|done].
  apply params_read in Hp; [|done].
  destruct (present params "uploadId" && present params "partNumber") eqn:Hpart.
  { apply andb_true_iff in Hpart as [Hup _]. rewrite (reads_name _ _ _ _ "uploadId" Hp eq_refl) in Hup.
    destruct (copy_source r), (streamed r), (body_read r); first [done|found "uploadId"]. }
  read_name Hp "acl"; [destruct (body_read r); [found "acl"|done]|].
  destruct (acl_refused r); [done|].
  read_name Hp "retention"; [destruct (current r), (body_read r); first [done|found "retention"]|].
  read_name Hp "legal-hold"; [destruct (current r), (body_read r); first [done|found "legal-hold"]|].
  read_name Hp "tagging"; [destruct (current r), (body_read r); first [done|found "tagging"]|].
  intros H. assert (op = PutObject) as -> by (destruct (streamed r), (body_read r); congruence).
  eapply (needs_default _ _ _ _ ["acl"; "retention"; "legal-hold"; "tagging"]);
    [done|by vm_compute|by repeat constructor].
Qed.

Lemma delete_object_needs r query op :
  query_chars query = true -> delete_object_with_params r query = Run op ->
  needs (sub_resources true DELETE) query "s3:DeleteObject" op.
Proof.
  intros Hc. unfold delete_object_with_params, if_current.
  destruct (query_params _ _ _) as [params|] eqn:Hp; [|done].
  apply params_read in Hp; [|done].
  read_name Hp "uploadId"; [found "uploadId"|].
  read_name Hp "tagging"; [destruct (current r); [found "tagging"|done]|].
  intros [= <-]. eapply (needs_default _ _ _ _ ["uploadId"; "tagging"]);
    [done|by vm_compute|by repeat constructor].
Qed.

Lemma post_object_needs query op :
  query_chars query = true -> post_object query = Run op ->
  needs_named (sub_resources true POST) query op.
Proof.
  intros Hc. unfold post_object. destruct (query_params _ _ _) as [params|] eqn:Hp; [|done].
  apply params_read in Hp; [|done]. intros H.
  eapply pick_runs in H as [H|[_ H]];
    [done|done|eapply chain_reads; [exact Hp|by vm_compute]|by vm_compute].
Qed.

(** [POST /{bucket}/{key}]: reading if [?grep] or [?select] is there. *)
Lemma post_object_covers bucket key query op :
  one_action true POST query = true -> needs_named (sub_resources true POST) query op ->
  covers (classify_object POST bucket key query) op = true.
Proof.
  intros H1 (a & Hop & Hn). cbn. rewrite Hop. apply bool_decide_eq_true. f_equal.
  assert (forall n b, (n, b) ∈ sub_resources true POST -> has query n = true -> a = b) as Hone.
  { intros n b Hin Hq. eapply one_action_named; [done..|]. by exists n. }
  destruct (has query "grep") eqn:Hg; [by apply (Hone "grep"); [set_solver|]|].
  destruct (has query "select") eqn:Hs; [by apply (Hone "select"); [set_solver|]|]. cbn.
  destruct Hn as (n & Hin & Hq). cbn in Hin.
  repeat (apply elem_of_cons in Hin as [[= -> ->]|Hin]; [congruence|]).
  by apply elem_of_nil in Hin.
Qed.

Lemma post_bucket_covers bucket query op :
  query_chars query = true -> post_bucket query = Run op ->
  covers (classify_bucket POST bucket query) op = true.
Proof.
  intros Hc. unfold post_bucket. destruct (query_params _ _ _) as [params|] eqn:Hp; [|done].
  apply params_read in Hp; [|done]. cbn -[has present].
  read_name Hp "delete"; [by intros [= <-]|]. by read_name Hp "grep"; [intros [= <-]|].
Qed.

(** The request at one level: what the layer checks, and what the routes
    run. *)
Definition checked (object : bool) (m : Method) (bucket key query : string) : Authz :=
  if object then classify_object m bucket key query else classify_bucket m bucket query.
Definition served (object : bool) (m : Method) (r : Rest) (key query : string) : Served :=
  if object then object_routes m r key query else bucket_routes m r query.

(** The lemma behind [dispatch_agrees], for the use of other files. *)
Lemma dispatch_covers object m r bucket key query op :
  query_chars query = true -> one_action object m query = true -> key <> EmptyString ->
  served object m r key query = Run op ->
  covers (checked object m bucket key query) op = true.
Proof.
  intros Hc H1 Hk Hs. destruct object, m; cbn [checked served object_routes bucket_routes] in *;
    try done.
  - eapply covers_check; [done|apply pick_answers; by vm_compute|by eapply get_object_needs].
  - unfold head_object in Hs. destruct (query_params _ _ _); by simplify_eq.
  - eapply covers_check; [done|apply pick_answers; by vm_compute|by eapply put_object_needs].
  - by eapply post_object_covers; [|apply post_object_needs].
  - eapply covers_check; [done|apply pick_answers; by vm_compute|by eapply delete_object_needs].
  - eapply covers_check; [done|apply pick_answers; by vm_compute|by eapply list_needs].
  - by simplify_eq.
  - eapply covers_check; [done|apply pick_answers; by vm_compute|by eapply create_needs].
  - by apply post_bucket_covers.
  - eapply covers_check; [done|apply pick_answers; by vm_compute|by eapply delete_needs].
Qed.


(** Whatever a handler runs was authorized as what it is: for a query
    with no escapes whose sub-resources all need one action, the operation
    the routes pick needs the action the authorization layer checked, or
    checks its keys itself (the batch delete). *)
Theorem dispatch_agrees object m r bucket key query op :
  query_chars query = true -> one_action object m query = true -> key <> EmptyString ->
  served object m r key query = Run op ->
  covers (checked object m bucket key query) op = true.
Proof. apply dispatch_covers. Qed.

End Agree.

(** ** An extractor: the query as the URL standard's form parser and serde
    read it. A field given twice, or a [u32] field that isn't a number, is
    refused. *)
Fixpoint percent_decode (b : bytes) : bytes :=
  match b with
  | [] => []
  | x :: r =>
    if bval x =? 37 then
      match r with
      | h :: l :: r' =>
        match digit 16 (bval h), digit 16 (bval l) with
        | Some h, Some l => byte.of_Z (16 * h + l) :: percent_decode r'
        | _, _ => x :: percent_decode r
        end
      | _ => x :: percent_decode r
      end
    else x :: percent_decode r
  end.

Definition form_decode (s : string) : string :=
  from_utf8_lossy
    (percent_decode (map (fun b => if bval b =? 43 then Byte.x20 else b) (as_bytes s))).

Definition form_pair (piece : string) : option (string * string) :=
  if String.eqb piece EmptyString then None
  else let '(n, v) := default (piece, EmptyString) (split_once eq_sign piece) in
       Some (form_decode n, form_decode v).

Definition form_parse (query : string) : list (string * string) :=
  omap form_pair (split_char amp query).

Definition web_params (strs ints : list string) (query : string) : option (gmap string string) :=
  let pairs := filter (fun nv => nv.1 ∈ strs ++ ints) (form_parse query) in
  if bool_decide (NoDup pairs.*1)
     && forallb (fun nv => negb (bool_decide (nv.1 ∈ ints))
                           || bool_decide (is_Some (parse_u32 (chars nv.2)))) pairs
  then Some (list_to_map pairs) else None.

Lemma query_chars_cons a s :
  query_chars (String a s) = true ->
  (bval (byte_of_ascii a) < 0x80 /\ bval (byte_of_ascii a) <> 37 /\ bval (byte_of_ascii a) <> 43)
  /\ query_chars s = true.
Proof.
  unfold query_chars. change (as_bytes (String a s)) with (byte_of_ascii a :: as_bytes s). cbn [forallb].
  intros [[[H1 H2]%andb_true_iff H3]%andb_true_iff H4]%andb_true_iff. split; [|done].
  split; [lia|]. split; intros E; rewrite E in *; done.
Qed.

Lemma query_chars_intro a s :
  query_chars (String a EmptyString) = true -> query_chars s = true -> query_chars (String a s) = true.
Proof.
  unfold query_chars. change (as_bytes (String a s)) with (byte_of_ascii a :: as_bytes s).
  change (as_bytes (String a EmptyString)) with [byte_of_ascii a]. cbn [forallb].
  rewrite andb_true_r. by intros -> ->.
Qed.

Lemma query_chars_head a s :
  query_chars (String a s) = true -> query_chars (String a EmptyString) = true.
Proof.
  unfold query_chars. change (as_bytes (String a s)) with (byte_of_ascii a :: as_bytes s).
  change (as_bytes (String a EmptyString)) with [byte_of_ascii a]. cbn [forallb].
  rewrite andb_true_r. by intros [H _]%andb_true_iff.
Qed.

Lemma query_chars_pieces c s :
  query_chars s = true -> Forall (fun p => query_chars p = true) (split_char c s).
Proof.
  induction s as [|a s IH]; intros H; cbn; [by repeat constructor|].
  pose proof (query_chars_head _ _ H) as Ha. apply query_chars_cons in H as [_ H]. specialize (IH H).
  destruct (Ascii.eqb c a); [by constructor|].
  destruct (split_char c s) as [|x l]; [by repeat constructor|].
  apply Forall_cons in IH as [Hx Hl]. constructor; [by apply query_chars_intro|done].
Qed.

Lemma percent_plain s :
  query_chars s = true ->
  percent_decode (map (fun b => if bval b =? 43 then Byte.x20 else b) (as_bytes s)) = as_bytes s
  /\ Forall (fun b => bval b < 0x80) (as_bytes s).
Proof.
  induction s as [|a s IH]; intros H; [done|].
  change (as_bytes (String a s)) with (byte_of_ascii a :: as_bytes s).
  apply query_chars_cons in H as [(H1 & H2 & H3) H]. destruct (IH H) as [Hd Hf]. cbn [map percent_decode].
  destruct (Z.eqb_spec (bval (byte_of_ascii a)) 43); [done|].
  destruct (Z.eqb_spec (bval (byte_of_ascii a)) 37); [done|].
  rewrite Hd. split; [done|by constructor].
Qed.

Lemma lossy_ascii fuel b :
  (length b <= fuel)%nat -> Forall (fun b => bval b < 0x80) b -> lossy_loop fuel b = b.
Proof.
  revert b. induction fuel as [|fuel IH]; intros [|x b] Hl Hf; try done; cbn in Hl; [lia|].
  apply Forall_cons in Hf as [Hx Hf]. cbn [lossy_loop utf8_step].
  rewrite (proj2 (Z.ltb_lt _ _) Hx). cbn [length].
  replace (S (length b) - length b)%nat with 1%nat by lia. cbn. f_equal. rewrite take_0.
  apply IH; [lia|done].
Qed.

Lemma form_decode_plain s : query_chars s = true -> form_decode s = s.
Proof.
  intros H. unfold form_decode. destruct (percent_plain s H) as [-> Hf].
  unfold from_utf8_lossy. rewrite lossy_ascii by done. apply of_as_bytes.
Qed.

Lemma form_pair_name piece :
  query_chars piece = true -> fst <$> form_pair piece
    = (if String.eqb piece EmptyString then None else Some (pair_name piece)).
Proof.
  intros H. unfold form_pair. destruct (String.eqb piece EmptyString); [done|].
  assert (query_chars (pair_name piece) = true) as Hn.
  { unfold pair_name. apply (query_chars_pieces eq_sign) in H.
    destruct (split_char eq_sign piece); [done|]. by apply Forall_cons in H as [? _]. }
  unfold pair_name in *. rewrite split_char_hd in *. destruct (default _ _) as [n v]. cbn in *. by rewrite form_decode_plain.
Qed.

Lemma form_parse_names query name :
  query_chars query = true -> name <> EmptyString ->
  name ∈ (form_parse query).*1 <-> has query name = true.
Proof.
  intros H Hne. unfold form_parse, has. rewrite existsb_exists.
  apply (query_chars_pieces amp) in H. revert H.
  induction (split_char amp query) as [|p l IH]; intros H.
  { cbn. rewrite elem_of_nil. split; [done|by intros (? & [] & _)]. }
  apply Forall_cons in H as [Hp Hl]. specialize (IH Hl). apply form_pair_name in Hp. cbn [omap list_omap].
  destruct (form_pair p) as [[n v]|]; cbn in Hp; destruct (String.eqb_spec p EmptyString) as [->|]; try done.
  - simplify_eq. cbn [fmap list_fmap fst]. rewrite elem_of_cons, IH. split.
    + intros [->|(x & ? & ?)]; [exists p; split; [by left|apply String.eqb_refl]|exists x; split; [by right|done]].
    + intros (x & [->|Hx] & Hn%String.eqb_eq); [by left|right; exists x; split; [done|by apply String.eqb_eq]].
  - rewrite IH. split; intros (x & Hx & Hn); exists x; (split; [|done]); [by right|].
    destruct Hx as [<-|]; [|done]. apply String.eqb_eq in Hn. by cbn in Hn.
Qed.

Lemma web_plain strs ints query params name :
  query_chars query = true -> web_params strs ints query = Some params ->
  name ∈ strs ++ ints -> name <> EmptyString ->
  bool_decide (is_Some (params !! name)) = has query name.
Proof.
  intros Hc Hp Hin Hne. unfold web_params in Hp. destruct (_ && _); [|done]. injection Hp as <-.
  apply eq_bool_prop_intro. rewrite bool_decide_spec, Is_true_true, <- (form_parse_names _ _ Hc Hne).
  rewrite <- not_eq_None_Some, <- not_elem_of_list_to_map. split.
  - intros Hn. apply dec_stable. intros Hno. apply Hn. intros (nv & -> & Hf)%list_elem_of_fmap.
    apply Hno. apply list_elem_of_filter in Hf as [_ ?]. by apply list_elem_of_fmap_2.
  - intros (nv & -> & Hf)%list_elem_of_fmap Hn. apply Hn. apply list_elem_of_fmap_2.
    by apply list_elem_of_filter.
Qed.

#[global] Instance WebQuery : Query := {| query_params := web_params; query_plain := web_plain |}.

Lemma percent_decode_nil b : percent_decode b = [] -> b = [].
Proof.
  destruct b as [|x r]; [done|]. cbn. destruct (bval x =? 37); [|done].
  destruct r as [|h [|l r']]; [done..|].
  by destruct (digit 16 (bval h)), (digit 16 (bval l)).
Qed.

Definition web_decode (s : string) : option string := from_utf8 (percent_decode (as_bytes s)).

Lemma web_decode_empty s : web_decode s = Some EmptyString -> s = EmptyString.
Proof.
  unfold web_decode. intros H. apply from_utf8_some in H as [H _]. apply percent_decode_nil in H.
  by destruct s.
Qed.

#[global] Instance WebUrl : Urlencoding :=
  {| url_decode := web_decode; url_decode_empty := web_decode_empty |}.

(** A request with nothing to refuse it. *)
Definition plain_rest : Rest := mkRest false false false false true true false true.

Lemma dispatch_agrees_witness :
  covers (checked false PUT "reports" "k" "policy") PutBucketPolicy = true
  /\ covers (checked true GET "reports" "q1.csv" "acl&versionId=3") GetObjectAcl = true.
Proof.
  split.
  - by apply (dispatch_agrees (QUERY := WebQuery) false PUT plain_rest "reports" "k" "policy");
      vm_compute.
  - by apply (dispatch_agrees (QUERY := WebQuery) true GET plain_rest "reports" "q1.csv" "acl&versionId=3");
      vm_compute.
Defined.

(** The layer compares names as they are written, the handler as they
    decode: [POST /{bucket}?%67rep] is let through unchecked and reads every
    object under a prefix, [PUT /{bucket}?%70olicy] is checked as creating a
    bucket and replaces the bucket's policy. *)
Theorem escaped_subresource_unchecked (bucket key : string) :
  checked false POST bucket key "%67rep" = Skip /\
  served (QUERY := WebQuery) false POST plain_rest key "%67rep" = Run GrepPrefix /\
  checked false PUT bucket key "%70olicy" = Check_ "s3:CreateBucket" bucket None /\
  served (QUERY := WebQuery) false PUT plain_rest key "%70olicy" = Run PutBucketPolicy.
Proof. by vm_compute. Qed.

(** With two sub-resources the two readings pick by different orders:
    each of these requests is checked for the first action and runs the
    operation of the other. Completing or starting a multipart upload, which
    writes the object, passes as reading it. *)
Theorem second_subresource_unchecked (bucket key : string) :
  (checked true POST bucket key "select&uploadId=u" = Check_ "s3:GetObject" bucket (Some key) /\
   served (QUERY := WebQuery) true POST plain_rest key "select&uploadId=u" = Run CompleteMultipartUpload) /\
  (checked true PUT bucket key "tagging&uploadId=u&partNumber=1"
     = Check_ "s3:PutObjectTagging" bucket (Some key) /\
   served (QUERY := WebQuery) true PUT plain_rest key "tagging&uploadId=u&partNumber=1" = Run UploadPart) /\
  (checked true GET bucket "k" "acl&response-expires=0" = Check_ "s3:GetObjectAcl" bucket (Some "k") /\
   served (QUERY := WebQuery) true GET plain_rest "k" "acl&response-expires=0" = Run GetObjectVersion) /\
  (checked false DELETE bucket key "policy&tagging" = Check_ "s3:DeleteBucketPolicy" bucket None /\
   served (QUERY := WebQuery) false DELETE plain_rest key "policy&tagging" = Run DeleteBucketTagging).
Proof. by vm_compute. Qed.

End Requests.
