(* ===== verification/Scope.v ===== *)
(** * Credential scopes and where a request came from

    The bucket and prefix a credential is held to (crates/auth/src/scope.rs)
    and the client's address behind trusted proxies
    (crates/gateway/src/origin.rs), both of which the authorization chain
    reads. *)

From S2P Require Import Prelude Bytes StdText Wildcard Policy.

Module Scope.

(** ** crates/auth/src/scope.rs *)
Inductive Operation : Type := ReadWrite | Read.
#[global] Instance Operation_eq_dec : EqDecision Operation.
Proof. solve_decision. Defined.

Definition as_token_str (o : Operation) : string := match o with Read => "R" | ReadWrite => "RW" end.

Definition from_token_str (s : string) : option Operation :=
  if String.eqb s "R" then Some Read else if String.eqb s "RW" then Some ReadWrite else None.

Definition Operation_parse (s : string) : option Operation :=
  let s := to_ascii_lowercase (trim_str s) in
  if existsb (String.eqb s) ["r"; "read"; "readonly"; "read-only"] then Some Read
  else if existsb (String.eqb s) ["rw"; "readwrite"; "read-write"] then Some ReadWrite
  else None.

Record CredentialScope : Type := mkScope { scope : string; operation : Operation }.

Definition unrestricted : CredentialScope := mkScope EmptyString ReadWrite.

Definition is_unrestricted (c : CredentialScope) : bool :=
  String.eqb (scope c) EmptyString && bool_decide (operation c = ReadWrite).

Definition upper (a : ascii) : ascii :=
  let n := N_of_ascii a in
  if (97 <=? n)%N && (n <=? 122)%N then ascii_of_N (n - 32) else a.
Fixpoint to_ascii_uppercase (s : string) : string :=
  match s with EmptyString => EmptyString | String a s' => String (upper a) (to_ascii_uppercase s') end.

Definition is_mutating_method (method : string) : bool :=
  existsb (String.eqb (to_ascii_uppercase method)) ["PUT"; "POST"; "DELETE"; "PATCH"].

Definition slash : ascii := "/".

Definition scope_allows (scope bucket key : string) : bool :=
  match strip_prefix "s3://" scope with
  | None => false
  | Some rest =>
    let '(scope_bucket, scope_prefix) := default (rest, EmptyString) (split_once slash rest) in
    if negb (String.eqb scope_bucket bucket) then false
    else starts_with scope_prefix key
  end.

Definition allows (c : CredentialScope) (bucket key method : string) : bool :=
  if bool_decide (operation c = Read) && is_mutating_method method then false
  else if String.eqb (scope c) EmptyString then true
  else scope_allows (scope c) bucket key.

(** [denial_reason]: which of its two texts. *)
Inductive Denial : Type := ReadOnly | OutOfScope (scope bucket key : string).
Definition denial_reason (c : CredentialScope) (bucket key method : string) : Denial :=
  if bool_decide (operation c = Read) && is_mutating_method method then ReadOnly
  else OutOfScope (scope c) bucket key.

Inductive ScopeError : Type := NoScheme | NoBucket | BadBucket (bucket : string).

(** [bucket.contains(['?', '#', '\\'])]. *)
Definition has_bad_char (bucket : string) : bool :=
  existsb (fun a => contains_char a bucket) ["?"%char; "#"%char; "\"%char].

Definition validate_scope (scope : string) : outcome ScopeError unit :=
  match strip_prefix "s3://" scope with
  | None => Err NoScheme
  | Some rest =>
    let bucket := hd EmptyString (split_char slash rest) in
    if String.eqb bucket EmptyString then Err NoBucket
    else if has_bad_char bucket then Err (BadBucket bucket)
    else Ok tt
  end.

(** The bucket a scope names (crates/gateway/src/authz.rs). *)
Definition scope_bucket (scope : string) : string :=
  hd EmptyString (split_char slash (default EmptyString (strip_prefix "s3://" scope))).

(** ** crates/gateway/src/origin.rs *)
Definition TrustedProxies : Type := list string.

Inductive ProxyError : Type := NotAnAddress (entry : string) | BadPrefix (entry : string).

Definition comma : ascii := ",".

Definition proxy_entry (entry : string) : outcome ProxyError string :=
  let '(addr, prefix) := default (entry, EmptyString) (split_once slash entry) in
  ip ← ok_or (parse_ip (chars addr)) (NotAnAddress entry);
  if String.eqb prefix EmptyString then Ok entry
  else
    let max := match ip with V4 _ => 32 | V6 _ => 128 end in
    match parse_u32 (chars prefix) with
    | Some p => if max <? p then Err (BadPrefix entry) else Ok entry
    | None => Err (BadPrefix entry)
    end.

Fixpoint parse_entries (l : list string) : outcome ProxyError TrustedProxies :=
  match l with
  | [] => Ok []
  | e :: l => e ← proxy_entry e; out ← parse_entries l; Ok (e :: out)
  end.

Definition TrustedProxies_parse (l : string) : outcome ProxyError TrustedProxies :=
  parse_entries (filter (fun e => e <> EmptyString) (map trim_str (split_char comma l))).

Definition contains (t : TrustedProxies) (ip : IpAddr) : bool :=
  existsb (fun cidr => Policy.cidr_contains cidr ip) t.

Definition trusts (t : TrustedProxies) (peer : IpAddr) : bool := contains t (to_canonical peer).

(** The walk of [client_ip] over the hops, the nearest first. *)
Fixpoint walk (t : TrustedProxies) (ip : IpAddr) (hops : list string) : IpAddr :=
  match hops with
  | [] => ip
  | hop :: hops =>
    match parse_ip (chars hop) with
    | None => ip
    | Some hop =>
      let ip := to_canonical hop in
      if contains t ip then walk t ip hops else ip
    end
  end.

(** [forwarded]: the values of [x-forwarded-for], in the request's order. *)
Definition hops_of (forwarded : list string) : list string :=
  map trim_str (flat_map (split_char comma) forwarded).

Definition client_ip (t : TrustedProxies) (peer : IpAddr) (forwarded : list string) : IpAddr :=
  let ip := to_canonical peer in
  if negb (contains t ip) then ip else walk t ip (rev (hops_of forwarded)).

(** ** Scopes *)
Lemma starts_with_app pre s : starts_with pre s = true <-> exists r, s = pre +:+ r.
Proof.
  unfold starts_with. rewrite bool_decide_eq_true. split.
  - intros [r Hr]. exists r. by apply strip_prefix_some.
  - intros [r ->]. exists r. apply strip_prefix_app.
Qed.

(** A scope that validates admits exactly the keys under its prefix in
    its bucket (all of them for an empty prefix): it can't match nothing, or
    be taken for no scope. A read-only credential admits no mutating method
    anywhere. *)
Theorem scope_admits (s bucket key method : string) (o : Operation) :
  validate_scope s = Ok tt ->
  let prefix := default EmptyString (snd <$> split_once slash (default EmptyString (strip_prefix "s3://" s))) in
  scope_bucket s <> EmptyString /\
  (allows (mkScope s o) bucket key method = true <->
   bucket = scope_bucket s /\ (exists r, key = prefix +:+ r) /\
   (o = Read -> is_mutating_method method = false)).
Proof.
  intros Hv prefix. unfold validate_scope in Hv. subst prefix. unfold scope_bucket, allows, scope_allows.
  cbn [scope operation].
  destruct (strip_prefix "s3://" s) as [rest|] eqn:Es; [|done]. cbn [default from_option id].
  destruct (String.eqb_spec (hd EmptyString (split_char slash rest)) EmptyString) as [|Hne]; [done|].
  split; [done|].
  destruct (String.eqb_spec s EmptyString) as [->|_]; [by vm_compute in Es|].
  rewrite split_char_hd in *.
  replace (from_option id EmptyString (snd <$> split_once slash rest))
    with (default (rest, EmptyString) (split_once slash rest)).2 by by destruct (split_once slash rest).
  destruct (default (rest, EmptyString) _) as [b p]. cbn [fst snd].
  destruct o; [rewrite bool_decide_eq_false_2 by done|rewrite bool_decide_eq_true_2 by done]; cbn [andb].
  - destruct (String.eqb_spec b bucket) as [<-|]; cbn; [rewrite starts_with_app|]; intuition congruence.
  - destruct (is_mutating_method method).
    { split; [done|]. intros (_ & _ & H). by specialize (H eq_refl). }
    destruct (String.eqb_spec b bucket) as [<-|]; cbn; [rewrite starts_with_app|]; intuition congruence.
Qed.

Lemma scope_admits_witness :
  allows (mkScope "s3://data/logs/" Read) "data" "logs/a" "GET" = true.
Proof.
  apply (scope_admits "s3://data/logs/" "data" "logs/a" "GET" Read); [by vm_compute|].
  split; [by vm_compute|]. split; [by exists "a"|]. intros _. by vm_compute.
Defined.

(** ** The client's address *)
Lemma walk_trusted t ip near far :
  Forall (fun h => exists a, parse_ip (chars h) = Some a /\ contains t (to_canonical a) = true) near ->
  walk t ip (near ++ far) =
  walk t (match last near with Some h => default ip (to_canonical <$> parse_ip (chars h)) | None => ip end) far.
Proof.
  revert ip. induction near as [|h near IH]; intros ip H; [done|].
  apply Forall_cons in H as [(a & Ha & Ht) H]. cbn [app walk]. rewrite Ha. cbn. rewrite Ht, IH by done.
  f_equal. destruct near as [|h' near]; cbn; [by rewrite Ha|].
  destruct (last_is_Some (h' :: near)) as [_ Hl]. destruct Hl as [h'' Hl]; [done|]. cbn in Hl. rewrite Hl.
  assert (h'' ∈ h' :: near) as Hin by (apply last_Some_elem_of; done).
  rewrite Forall_forall in H. destruct (H _ Hin) as (b & Hb & _). by rewrite Hb.
Qed.

(** The address policies see can't be forged: from a peer that isn't a
    trusted proxy it is the peer's, whatever was forwarded; from one that is,
    it is the nearest hop that isn't, whatever the hops before it claim. *)
Theorem client_ip_unforged (t : TrustedProxies) (peer : IpAddr) (forwarded : list string) :
  (trusts t peer = false -> client_ip t peer forwarded = to_canonical peer) /\
  (forall claimed hop near a,
     trusts t peer = true -> hops_of forwarded = claimed ++ hop :: near ->
     Forall (fun h => exists b, parse_ip (chars h) = Some b /\ trusts t b = true) near ->
     parse_ip (chars hop) = Some a -> trusts t a = false ->
     client_ip t peer forwarded = to_canonical a).
Proof.
  unfold client_ip, trusts. split; [by intros ->|]. intros claimed hop near a -> Hh Hn Ha Ht. cbn.
  rewrite Hh, rev_app_distr. cbn. rewrite <- app_assoc, walk_trusted.
  - cbn. by rewrite Ha, Ht.
  - rewrite Forall_forall in *. intros h Hin. apply Hn. by apply list_elem_of_In, in_rev, list_elem_of_In.
Qed.

Lemma client_ip_unforged_witness :
  client_ip ["10.0.0.0/8"] (V4 0x0A000001) ["1.2.3.4, 9.9.9.9"; "10.0.0.7"] = V4 0x09090909.
Proof.
  apply (proj2 (client_ip_unforged ["10.0.0.0/8"] (V4 0x0A000001) ["1.2.3.4, 9.9.9.9"; "10.0.0.7"])
           ["1.2.3.4"] "9.9.9.9" ["10.0.0.7"] (V4 0x09090909));
    [by vm_compute|by vm_compute| |by vm_compute|by vm_compute].
  apply Forall_singleton. exists (V4 0x0A000007). by vm_compute.
Defined.

(** A proxy listed by its IPv4-mapped address is accepted and never
    trusted: the peer is compared in its canonical form, the entry is not. *)
Lemma mapped_proxy_never_trusted peer :
  TrustedProxies_parse "::ffff:10.0.0.1" = Ok ["::ffff:10.0.0.1"] /\
  trusts ["::ffff:10.0.0.1"] peer = false.
Proof.
  split; [by vm_compute|]. unfold trusts, contains. cbn [existsb]. rewrite orb_false_r.
  unfold Policy.cidr_contains.
  replace (Policy.cidr_parse "::ffff:10.0.0.1") with (@None (Z * IpAddr)) by by vm_compute.
  replace (parse_ip (chars "::ffff:10.0.0.1")) with (Some (V6 0xFFFF0A000001)) by by vm_compute.
  apply bool_decide_eq_false_2. intros H.
  assert (forall a, to_canonical a <> V6 0xFFFF0A000001) as Hc; [|by eapply Hc].
  intros [a|a]; cbn; [done|]. unfold to_ipv4_mapped.
  destruct (Z.eqb_spec (Z.shiftr a 32) 0xFFFF) as [E|E]; [done|]. intros [= ->]. by apply E.
Qed.

End Scope.
