(* ===== verification/Authz.v ===== *)
(** * The authorization chain of the S3 gateway

    crates/gateway/src/authz.rs from a classified request on: the cache of
    buckets, identities and account documents, the loads through it, the
    policy context of a request and [authorize], and the layer that puts them
    in front of the handlers. With them the tags of a request
    (s3/tagging.rs), the condition variables of its headers (s3/sse.rs) and
    Block Public Access (public_access.rs). What meta and the OSDs answer is
    the record [Meta]; parsing a policy's JSON is the class [PolicyJson]. A
    response is modelled by its [Verdict]; the clock stands still during one
    request. *)

From S2P Require Import Prelude Bytes StdText Wildcard Policy Requests Scope.
Import Requests.

Module Authz.
Import Policy.

(** ** Tags *)
Inductive TagError : Type :=
| TooManyTags | BadTagKey (k : string) | BadTagValue (k : string) | ReservedTagKey (k : string)
| RepeatedTagKey (k : string).

Definition MAX_TAGS : nat := 10.
Definition MAX_BUCKET_TAGS : nat := 50.

Fixpoint tags_loop (pairs : list (string * string)) (tags : gmap string string)
  : outcome TagError (gmap string string) :=
  match pairs with
  | [] => Ok tags
  | (k, v) :: pairs =>
    if String.eqb k EmptyString || (128 <? lenZ (chars k)) then Err (BadTagKey k)
    else if 256 <? lenZ (chars v) then Err (BadTagValue k)
    else if starts_with "aws:" (to_ascii_lowercase k) then Err (ReservedTagKey k)
    else if bool_decide (is_Some (tags !! k)) then Err (RepeatedTagKey k)
    else tags_loop pairs (<[k := v]> tags)
  end.

Definition validate_tags (pairs : list (string * string)) (max : nat)
  : outcome TagError (gmap string string) :=
  if (max <? length pairs)%nat then Err TooManyTags else tags_loop pairs ∅.

(** [s.replace('+', " ")]. *)
Fixpoint plus_to_space (s : string) : string :=
  match s with
  | EmptyString => EmptyString
  | String a s' => String (if Ascii.eqb a "+" then " "%char else a) (plus_to_space s')
  end.

Definition parse_tagging {URL : Urlencoding} (value : string) : outcome TagError (gmap string string) :=
  let decode s := default s (url_decode (plus_to_space s)) in
  let pairs := map (fun p => let '(k, v) := default (p, EmptyString) (split_once eq_sign p) in
                             (decode k, decode v))
                   (filter (fun p => p <> EmptyString) (split_char amp value)) in
  validate_tags pairs MAX_TAGS.

(** ** Condition variables of the headers *)

(** The headers with a textual value, by lower-case name. *)
Abbreviation Headers := (gmap string string).

Definition CONDITION_HEADERS : list string :=
  ["x-amz-server-side-encryption"; "x-amz-server-side-encryption-aws-kms-key-id";
   "x-amz-server-side-encryption-customer-algorithm"; "x-amz-acl"; "x-amz-copy-source";
   "x-amz-metadata-directive"; "x-amz-storage-class"; "x-amz-content-sha256";
   "x-amz-object-lock-mode"; "x-amz-object-lock-legal-hold"].

Definition show_bool (b : bool) : string := if b then "true" else "false".

Definition header_vars (h : Headers) (vars : gmap string string) : gmap string string :=
  fold_left (fun vars name => match h !! name with
                              | Some v => <[ "s3:" +:+ name := v ]> vars
                              | None => vars
                              end) CONDITION_HEADERS vars.

(** The order of [str]: byte by byte. *)
Definition str_le (a b : string) : Prop := String.leb a b = true.
#[global] Instance str_le_dec : RelDecision str_le.
Proof. intros a b. unfold str_le. apply _. Defined.

Definition tag_vars (tags vars : gmap string string) : gmap string string :=
  let keys := merge_sort str_le (map fst (map_to_list tags)) in
  let vars := <[ "s3:RequestObjectTagKeys" := String.concat "," keys ]> vars in
  map_fold (fun k v vars => <[ "s3:RequestObjectTag/" +:+ k := v ]> vars) vars tags.

Definition sse_condition_vars {URL : Urlencoding} (headers : option Headers) : gmap string string :=
  match headers with
  | None => {[ "aws:SecureTransport" := "false" ]}
  | Some h =>
    let secure := match h !! "x-forwarded-proto" with
                  | Some p => eq_ignore_ascii_case p "https"
                  | None => false
                  end in
    let vars := header_vars h {[ "aws:SecureTransport" := show_bool secure ]} in
    match h !! "x-amz-tagging" with
    | Some tagging =>
      match parse_tagging tagging with Ok tags => tag_vars tags vars | _ => vars end
    | None => vars
    end
  end.

(** ** Block Public Access *)
Record PublicAccessBlock : Type := mkBlock {
  block_public_acls : bool;
  ignore_public_acls : bool;
  block_public_policy : bool;
  restrict_public_buckets : bool;
}.
Definition ALL : PublicAccessBlock := mkBlock true true true true.
Definition NO_BLOCK : PublicAccessBlock := mkBlock false false false false.

Definition union (a b : PublicAccessBlock) : PublicAccessBlock :=
  mkBlock (block_public_acls a || block_public_acls b)
          (ignore_public_acls a || ignore_public_acls b)
          (block_public_policy a || block_public_policy b)
          (restrict_public_buckets a || restrict_public_buckets b).

(** ** Managed policies (crates/auth/src/managed.rs) *)

(** The documents, their quotes written as apostrophes. *)
Fixpoint quoted (s : string) : string :=
  match s with
  | EmptyString => EmptyString
  | String a s' => String (if Ascii.eqb a "'" then ascii_of_N 34 else a) (quoted s')
  end.

Definition POLICIES : list (string * string) :=
  [("AmazonS3FullAccess",
    quoted "{'Version':'2012-10-17','Statement':[{'Effect':'Allow','Action':['s3:*','s3-object-lambda:*'],'Resource':'*'}]}");
   ("AmazonS3ReadOnlyAccess",
    quoted "{'Version':'2012-10-17','Statement':[{'Effect':'Allow','Action':['s3:Get*','s3:List*','s3:Describe*','s3-object-lambda:Get*','s3-object-lambda:List*'],'Resource':'*'}]}");
   ("IAMFullAccess",
    quoted "{'Version':'2012-10-17','Statement':[{'Effect':'Allow','Action':['iam:*'],'Resource':'*'}]}");
   ("IAMReadOnlyAccess",
    quoted "{'Version':'2012-10-17','Statement':[{'Effect':'Allow','Action':['iam:GenerateCredentialReport','iam:GenerateServiceLastAccessedDetails','iam:Get*','iam:List*','iam:SimulateCustomPolicy','iam:SimulatePrincipalPolicy'],'Resource':'*'}]}")].

Definition document (name : string) : option string :=
  snd <$> find (fun p => String.eqb p.1 name) POLICIES.

Definition attached (stored_name : string) : option string :=
  name ← strip_prefix "aws:" stored_name; document name.

(** ** What meta and the OSDs answer *)
Inductive Answer (A : Type) : Type := Answered (a : A) | NotFound | Failed.
Arguments Answered {A} a.
Arguments NotFound {A}.
Arguments Failed {A}.

Record BucketMeta : Type := mkMeta { m_owner : string; m_tenant : string }.
Record AttachedRequest : Type := mkAttached { of_user : string; of_group : string; of_role : string }.

Record Meta : Type := mkAnswers {
  get_bucket : string -> Answer (option BucketMeta);
  get_bucket_policy : string -> Answer (bool * string);
  get_bucket_setting : string -> string -> Answer (bool * string);
  get_config : string -> Answer (option string);
  list_attached_policies : AttachedRequest -> Answer (list string);
  get_policy : string -> Answer (bool * option string);
  list_inline_policies : string -> Answer (list (string * string));
  get_placement : string -> string -> Answer unit;
  get_object_meta_from_any : string -> string -> Answer (option (gmap string string));
}.

(** serde's part: a policy's document, a stored access block, and the
    documents of tenants and the cluster. *)
Class Serde : Type := {
  from_json : string -> option BucketPolicy;
  stored_block : string -> option PublicAccessBlock;
  Value : Type;
  empty_object : Value;
  from_slice : string -> option Value;
  to_value : PublicAccessBlock -> option Value;
  from_value : Value -> option PublicAccessBlock;
}.

(** ** The cache *)
Record BucketEntry : Type := mkEntry {
  policy : option BucketPolicy;
  owner : string;
  tenant : string;
  public_block : PublicAccessBlock;
  missing : bool;
}.

Abbreviation AttachedPolicies := (list (string * BucketPolicy)).

Section Chain.
Context {URL : Urlencoding} {SERDE : Serde} {CHRONO : Chrono}.

(** Each entry with the instant it was cached at, in milliseconds. *)
Record AuthzCache : Type := mkCache {
  buckets : gmap string (BucketEntry * Z);
  identities : gmap string (AttachedPolicies * Z);
  accounts : gmap string (option Value * Z);
  ttl : Z;
}.

Definition POLICY_CACHE_TTL_SECS : Z := 15.
Definition AuthzCache_new (ttl_secs : Z) : AuthzCache := mkCache ∅ ∅ ∅ (1000 * ttl_secs).
Definition AuthzCache_default : AuthzCache := AuthzCache_new POLICY_CACHE_TTL_SECS.

(** An entry still within its time to live. *)
Definition live {A} (c : AuthzCache) (now : Z) (e : option (A * Z)) : option A :=
  '(a, at_) ← e; if saturating_sub now at_ <? ttl c then Some a else None.

Definition bucket (c : AuthzCache) (now : Z) (b : string) : option BucketEntry :=
  live c now (buckets c !! b).
Definition put_bucket (b : string) (e : BucketEntry) (now : Z) (c : AuthzCache) : AuthzCache :=
  mkCache (<[b := (e, now)]> (buckets c)) (identities c) (accounts c) (ttl c).
Definition identity (c : AuthzCache) (now : Z) (p : string) : option AttachedPolicies :=
  live c now (identities c !! p).
Definition put_identity (p : string) (l : AttachedPolicies) (now : Z) (c : AuthzCache) : AuthzCache :=
  mkCache (buckets c) (<[p := (l, now)]> (identities c)) (accounts c) (ttl c).
Definition account (c : AuthzCache) (now : Z) (k : string) : option (option Value) :=
  live c now (accounts c !! k).
Definition put_account (k : string) (d : option Value) (now : Z) (c : AuthzCache) : AuthzCache :=
  mkCache (buckets c) (identities c) (<[k := (d, now)]> (accounts c)) (ttl c).
Definition invalidate (b : string) (c : AuthzCache) : AuthzCache :=
  mkCache (delete b (buckets c)) (identities c) (accounts c) (ttl c).
Definition invalidate_identity (p : string) (c : AuthzCache) : AuthzCache :=
  mkCache (buckets c) (delete p (identities c)) (accounts c) (ttl c).
Definition forget_account (k : string) (c : AuthzCache) : AuthzCache :=
  mkCache (buckets c) (identities c) (delete k (accounts c)) (ttl c).
Definition invalidate_all_identities (c : AuthzCache) : AuthzCache :=
  mkCache (buckets c) ∅ (accounts c) (ttl c).

(** ** Loads. [None] is [Unavailable]. *)
Definition bucket_policy_from (a : Answer (bool * string)) : option (option BucketPolicy) :=
  match a with
  | Answered (true, json) => match from_json json with Some p => Some (Some p) | None => None end
  | Answered (false, _) | NotFound => Some None
  | Failed => None
  end.

Definition bucket_meta_from (a : Answer (option BucketMeta)) : option (option BucketMeta) :=
  match a with Answered b => Some b | NotFound => Some None | Failed => None end.

Definition SETTING : string := "public-access-block".
Definition from_stored (value : string) : PublicAccessBlock := default ALL (stored_block value).

Definition bucket_block (m : Meta) (b : string) : option PublicAccessBlock :=
  match get_bucket_setting m b SETTING with
  | Answered (found, value) => if found then Some (from_stored value) else None
  | NotFound | Failed => Some ALL
  end.

Definition missing_entry : BucketEntry := mkEntry None EmptyString EmptyString ALL true.

(** What meta says of a bucket now; an entry to cache unless it is missing. *)
Definition fetch_bucket (m : Meta) (b : string) : option BucketEntry :=
  meta ← bucket_meta_from (get_bucket m b);
  match meta with
  | None => Some missing_entry
  | Some meta =>
    p ← bucket_policy_from (get_bucket_policy m b);
    Some (mkEntry p (m_owner meta) (m_tenant meta) (default NO_BLOCK (bucket_block m b)) false)
  end.

Definition load_bucket (m : Meta) (now : Z) (b : string) (c : AuthzCache)
  : option BucketEntry * AuthzCache :=
  match bucket c now b with
  | Some cached => (Some cached, c)
  | None =>
    match fetch_bucket m b with
    | None => (None, c)
    | Some e => (Some e, if missing e then c else put_bucket b e now c)
    end
  end.

Definition role_prefix : string := "role:".

Definition principal_key (principal_id : string) (is_group : bool) : string :=
  if starts_with role_prefix principal_id then principal_id
  else if is_group then "group:" +:+ principal_id else "user:" +:+ principal_id.

Definition attached_request (principal_id : string) (is_group : bool) : AttachedRequest :=
  match strip_prefix role_prefix principal_id with
  | Some role => mkAttached EmptyString EmptyString role
  | None => if is_group then mkAttached EmptyString principal_id EmptyString
            else mkAttached principal_id EmptyString EmptyString
  end.

(** The documents of the attached names: managed ones from the table, a
    deleted one is left out. *)
Fixpoint named_documents (m : Meta) (names : list string) : option (list (string * string)) :=
  match names with
  | [] => Some []
  | name :: names =>
    match attached name with
    | Some doc => docs ← named_documents m names; Some ((name, doc) :: docs)
    | None =>
      match get_policy m name with
      | Answered (found, p) =>
        docs ← named_documents m names;
        Some (match (if found : bool then p else None) with
              | Some json => (name, json) :: docs
              | None => docs
              end)
      | NotFound | Failed => None
      end
    end
  end.

Fixpoint parse_identity_policies (docs : list (string * string)) : option AttachedPolicies :=
  match docs with
  | [] => Some []
  | (name, json) :: docs =>
    p ← from_json json; l ← parse_identity_policies docs; Some ((name, p) :: l)
  end.

Definition fetch_identity (m : Meta) (principal_id : string) (is_group : bool) : option AttachedPolicies :=
  match list_attached_policies m (attached_request principal_id is_group) with
  | Answered names =>
    docs ← named_documents m names;
    match list_inline_policies m (principal_key principal_id is_group) with
    | Answered inline =>
      parse_identity_policies (docs ++ map (fun p => ("inline:" +:+ p.1, p.2)) inline)
    | NotFound | Failed => None
    end
  | NotFound | Failed => None
  end.

Definition load_identity_policies (m : Meta) (now : Z) (principal_id : string) (is_group : bool)
    (c : AuthzCache) : option AttachedPolicies * AuthzCache :=
  if String.eqb principal_id EmptyString then (Some [], c)
  else match identity c now principal_id with
       | Some cached => (Some cached, c)
       | None =>
         match fetch_identity m principal_id is_group with
         | Some l => (Some l, put_identity principal_id l now c)
         | None => (None, c)
         end
       end.

(** A tenant's or the cluster's stored document. *)
Definition account_doc (m : Meta) (now : Z) (key : string) (c : AuthzCache)
  : option Value * AuthzCache :=
  match account c now key with
  | Some doc => (doc, c)
  | None =>
    match get_config m key with
    | Answered entry =>
      let doc := (fun v => default empty_object (from_slice v)) <$> entry in
      (doc, put_account key doc now c)
    | NotFound | Failed => (to_value ALL, c)
    end
  end.

Definition doc_block (doc : option Value) : PublicAccessBlock :=
  default NO_BLOCK (d ← doc; from_value d).

Definition CLUSTER_KEY : string := "public-access-block/cluster".
Definition tenant_key (t : string) : string := "public-access-block/tenant/" +:+ t.

Definition effective (m : Meta) (now : Z) (bucket_tenant : string) (own : PublicAccessBlock)
    (c : AuthzCache) : PublicAccessBlock * AuthzCache :=
  let '(cluster, c) := account_doc m now CLUSTER_KEY c in
  let '(of_tenant, c) := if String.eqb bucket_tenant EmptyString then (NO_BLOCK, c)
                         else let '(d, c) := account_doc m now (tenant_key bucket_tenant) c in
                              (doc_block d, c) in
  (union (union own of_tenant) (doc_block cluster), c).

(** [existing_object_tags], and [tags_from] of its answer. *)
Definition existing_object_tags (m : Meta) (b key : string) : option (gmap string string) :=
  match get_placement m b key with
  | NotFound => Some ∅
  | Failed => None
  | Answered _ =>
    match get_object_meta_from_any m b key with
    | Answered meta => Some (default ∅ meta)
    | NotFound | Failed => None
    end
  end.

(** ** A request's context *)
Inductive AuthMode : Type := Permanent | Sts | Anonymous | AssumedRole | SessionToken.
#[global] Instance AuthMode_eq_dec : EqDecision AuthMode.
Proof. solve_decision. Defined.

Definition AuthMode_as_str (m : AuthMode) : string :=
  match m with
  | Permanent => "Permanent" | Sts => "STS" | Anonymous => "Anonymous"
  | AssumedRole => "AssumedRole" | SessionToken => "SessionToken"
  end.

Definition SYSTEM_ADMIN_USER_ARN : string := "arn:objectio:iam::user/admin".

Record AuthResult : Type := mkAuth {
  a_user_id : string;
  a_user_arn : string;
  a_group_ids : list string;
  a_tenant : string;
  a_mode : AuthMode;
  a_scope : option Scope.CredentialScope;
  a_source_ip : option IpAddr;
  a_source_endpoint : option string;
}.

Definition is_system_admin (auth : AuthResult) : bool :=
  String.eqb (a_user_arn auth) SYSTEM_ADMIN_USER_ARN.

Definition method_str (m : Method) : string :=
  match m with
  | GET => "GET" | HEAD => "HEAD" | PUT => "PUT" | POST => "POST" | DELETE => "DELETE"
  | OtherMethod => "OPTIONS"
  end.

Record AuthzRequest : Type := mkRequest {
  r_method : Method;
  r_action : string;
  r_bucket : string;
  r_key : option string;
  r_scope_key : string;
  r_headers : option Headers;
}.

Definition build_s3_arn (b : string) (key : option string) : string :=
  match key with
  | Some k => "arn:obio:s3:::" +:+ b +:+ "/" +:+ k
  | None => "arn:obio:s3:::" +:+ b
  end.

Definition with_credential_vars (ctx : RequestContext) (auth : AuthResult) : RequestContext :=
  let ctx := with_variable "obio:CredentialType" (AuthMode_as_str (a_mode auth)) ctx in
  match a_mode auth with
  | Sts | AssumedRole | SessionToken => with_variable "sts:authentication" "true" ctx
  | Permanent | Anonymous => ctx
  end.

(** [format!("{policy:?}").contains(pat)], for a [pat] that is not in the
    names of the fields: one of the policy's strings has it. *)
Fixpoint str_contains (pat s : string) : bool :=
  starts_with pat s || match s with String _ s' => str_contains pat s' | EmptyString => false end.

Definition principal_strings (p : Principal) : list string :=
  match p with PWildcard => [] | OBIO arns => arns end.
Definition condition_strings (c : Conditions) : list string :=
  flat_map (fun e => e.1 :: flat_map (fun kv => kv.1 :: as_vec kv.2) e.2) c.
Definition statement_strings (st : PolicyStatement) : list string :=
  option_list (sid st) ++ principal_strings (principal st)
  ++ default [] (principal_strings <$> not_principal st)
  ++ action st ++ resource st ++ default [] (condition_strings <$> condition st).
Definition policy_strings (p : BucketPolicy) : list string :=
  version p :: option_list (id p) ++ flat_map statement_strings (statements p).
Definition debug_contains (p : BucketPolicy) (pat : string) : bool :=
  existsb (str_contains pat) (policy_strings p).

Definition TAG_KEY : string := "s3:ExistingObjectTag/".

(** The context but for the object's own tags and the credential. *)
Definition base_context (auth : AuthResult) (req : AuthzRequest) : RequestContext :=
  let ctx := RequestContext_new (a_user_arn auth) (r_action req) (build_s3_arn (r_bucket req) (r_key req)) in
  let ctx := match a_source_ip auth with Some ip => with_source_ip ip ctx | None => ctx end in
  let ctx := match a_source_endpoint auth with
             | Some e => with_variable "aws:SourceVpce" e ctx
             | None => ctx
             end in
  let ctx := map_fold with_variable ctx (sse_condition_vars (r_headers req)) in
  if bool_decide (r_key req = None) && negb (String.eqb (r_scope_key req) EmptyString)
  then with_variable "s3:prefix" (r_scope_key req) ctx else ctx.

Definition request_context (m : Meta) (auth : AuthResult) (req : AuthzRequest) (entry : BucketEntry)
  : option RequestContext :=
  let ctx := base_context auth req in
  ctx ← match r_key req, policy entry with
        | Some key, Some p =>
          if debug_contains p TAG_KEY then
            tags ← existing_object_tags m (r_bucket req) key;
            Some (map_fold (fun k v ctx => with_variable (TAG_KEY +:+ k) v ctx) ctx tags)
          else Some ctx
        | _, _ => Some ctx
        end;
  Some (with_credential_vars ctx auth).

(** ** The chain *)
Inductive Verdict : Type :=
| Admit
| DenyScope (why : Scope.Denial)
| ServiceUnavailable
| NoSuchBucket
| AnonymousRefused
| DenyTenant
| DenyIdentity (name : string)
| DenyBucketPolicy
| NotGranted
| ListDenied
| BucketAlreadyExists.

Definition tenant_violation (caller_tenant bucket_tenant : string) : bool :=
  negb (String.eqb bucket_tenant EmptyString || String.eqb caller_tenant bucket_tenant).

(** One principal's policies: the first Deny's name, or whether any Allow
    was seen. *)
Fixpoint policies_loop (l : AttachedPolicies) (ctx : RequestContext) (any_allow : bool) : string + bool :=
  match l with
  | [] => inr any_allow
  | (name, p) :: l =>
    match evaluate p ctx with
    | DDeny => inl name
    | DAllow => policies_loop l ctx true
    | ImplicitDeny => policies_loop l ctx any_allow
    end
  end.

Fixpoint principals_loop (m : Meta) (now : Z) (ps : list (string * bool)) (ctx : RequestContext)
    (any_allow : bool) (c : AuthzCache) : (Verdict + bool) * AuthzCache :=
  match ps with
  | [] => (inr any_allow, c)
  | (p, is_group) :: ps =>
    let '(policies, c) := load_identity_policies m now p is_group c in
    match policies with
    | None => (inl ServiceUnavailable, c)
    | Some l =>
      match policies_loop l ctx any_allow with
      | inl name => (inl (DenyIdentity name), c)
      | inr any_allow => principals_loop m now ps ctx any_allow c
      end
    end
  end.

Definition principals (auth : AuthResult) : list (string * bool) :=
  (a_user_id auth, false) :: map (fun g => (g, true)) (a_group_ids auth).

(** The answer, once it is known whether public grants are shut off. *)
Definition anonymous_verdict (m : Meta) (auth : AuthResult) (req : AuthzRequest) (entry : BucketEntry)
    (p : BucketPolicy) (restricted : bool) : Verdict :=
  let anonymous := if restricted then without_public_grants (for_anonymous p) else for_anonymous p in
  match request_context m auth req entry with
  | None => ServiceUnavailable
  | Some ctx => match evaluate anonymous ctx with DAllow => Admit | _ => AnonymousRefused end
  end.

Definition authorize_anonymous (m : Meta) (now : Z) (auth : AuthResult) (req : AuthzRequest)
    (entry : BucketEntry) (c : AuthzCache) : Verdict * AuthzCache :=
  match policy entry with
  | None => (AnonymousRefused, c)
  | Some p =>
    let '(restricted, c) :=
      if is_public p then
        let '(b, c) := effective m now (tenant entry) (public_block entry) c in
        (restrict_public_buckets b, c)
      else (false, c) in
    (anonymous_verdict m auth req entry p restricted, c)
  end.

(** The bucket policy as it holds for this caller. *)
Definition policy_for (m : Meta) (now : Z) (auth : AuthResult) (entry : BucketEntry) (c : AuthzCache)
  : option BucketPolicy * AuthzCache :=
  match policy entry with
  | None => (None, c)
  | Some p =>
    if negb (String.eqb (a_tenant auth) (tenant entry)) && is_public p then
      let '(b, c) := effective m now (tenant entry) (public_block entry) c in
      (Some (if restrict_public_buckets b then without_public_grants p else p), c)
    else (Some p, c)
  end.

(** From the bucket policy's answer on. *)
Definition grant (auth : AuthResult) (req : AuthzRequest) (entry : BucketEntry) (any_allow : bool)
    (by_bucket : PolicyDecision) : Verdict :=
  match by_bucket with
  | DDeny => DenyBucketPolicy
  | _ =>
    if any_allow || bool_decide (by_bucket = DAllow) then Admit
    else if negb (String.eqb (owner entry) EmptyString) && String.eqb (owner entry) (a_user_id auth)
    then Admit
    else if String.eqb (r_action req) "s3:CreateBucket" then Admit
    else NotGranted
  end.

(** [authorize] from its stages on: of a signed caller inside the tenant, of
    a bucket read, and from the start. *)
Definition authorize_caller (m : Meta) (now : Z) (auth : AuthResult) (req : AuthzRequest)
    (entry : BucketEntry) (c : AuthzCache) : Verdict * AuthzCache :=
  match request_context m auth req entry with
  | None => (ServiceUnavailable, c)
  | Some ctx =>
    let '(found, c) := principals_loop m now (principals auth) ctx false c in
    match found with
    | inl v => (v, c)
    | inr any_allow =>
      let '(p, c) := policy_for m now auth entry c in
      (grant auth req entry any_allow
         (match p with Some p => evaluate p ctx | None => ImplicitDeny end), c)
    end
  end.

Definition authorize_in (m : Meta) (now : Z) (auth : AuthResult) (req : AuthzRequest)
    (entry : BucketEntry) (c : AuthzCache) : Verdict * AuthzCache :=
  if missing entry && negb (String.eqb (r_bucket req) EmptyString)
     && negb (String.eqb (r_action req) "s3:CreateBucket") then (NoSuchBucket, c)
  else if bool_decide (a_mode auth = Anonymous) then authorize_anonymous m now auth req entry c
  else if tenant_violation (a_tenant auth) (tenant entry) then (DenyTenant, c)
  else authorize_caller m now auth req entry c.

Definition authorize (m : Meta) (now : Z) (auth : AuthResult) (req : AuthzRequest) (c : AuthzCache)
  : Verdict * AuthzCache :=
  let method := method_str (r_method req) in
  let refused := match a_scope auth with
                 | Some s => negb (Scope.allows s (r_bucket req) (r_scope_key req) method)
                 | None => false
                 end in
  if refused then
    (DenyScope (Scope.denial_reason (default Scope.unrestricted (a_scope auth))
                  (r_bucket req) (r_scope_key req) method), c)
  else if is_system_admin auth then (Admit, snd (load_bucket m now (r_bucket req) c))
  else
    let '(entry, c) := load_bucket m now (r_bucket req) c in
    match entry with
    | None => (ServiceUnavailable, c)
    | Some entry => authorize_in m now auth req entry c
    end.

(** [identity_decision]: the same walk over the caller's principals;
    policies that can't be read are a Deny. *)
Definition identity_decision (m : Meta) (now : Z) (auth : AuthResult) (ctx : RequestContext)
    (c : AuthzCache) : PolicyDecision * AuthzCache :=
  let '(found, c) := principals_loop m now (principals auth) ctx false c in
  (match found with inl _ => DDeny | inr true => DAllow | inr false => ImplicitDeny end, c).

Definition list_buckets_denied (m : Meta) (now : Z) (auth : AuthResult) (c : AuthzCache)
  : bool * AuthzCache :=
  if is_system_admin auth || String.eqb (a_user_id auth) EmptyString then (false, c)
  else
    let ctx := RequestContext_new (a_user_arn auth) "s3:ListAllMyBuckets" "arn:obio:s3:::*" in
    let ctx := match a_source_ip auth with Some ip => with_source_ip ip ctx | None => ctx end in
    let '(d, c) := identity_decision m now auth (with_credential_vars ctx auth) c in
    (bool_decide (d = DDeny), c).

(** ** The layer *)
Record HttpRequest : Type := mkHttp {
  h_method : Method;
  h_path : string;
  h_query : string;                  (* empty when the URI has none *)
  h_headers : Headers;
  h_forwarded : list string;         (* the x-forwarded-for values *)
  h_peer : option IpAddr;
  h_endpoint : option string;
}.

(** The request goes on, with these headers and this identity, or is
    answered. *)
Inductive Layered : Type :=
| Next (headers : Headers) (auth : option AuthResult)
| Answer_ (v : Verdict).

(** [x-forwarded-proto] is believed from a trusted proxy only. *)
Definition believed_headers (t : Scope.TrustedProxies) (h : HttpRequest) : Headers :=
  match h_peer h with
  | Some peer => if Scope.trusts t peer then h_headers h else delete "x-forwarded-proto" (h_headers h)
  | None => h_headers h
  end.

Definition located (t : Scope.TrustedProxies) (h : HttpRequest) (auth : AuthResult) : AuthResult :=
  mkAuth (a_user_id auth) (a_user_arn auth) (a_group_ids auth) (a_tenant auth) (a_mode auth)
    (a_scope auth) ((fun p => Scope.client_ip t p (h_forwarded h)) <$> h_peer h) (h_endpoint h).

(** The request [authorize] is asked about. *)
Definition authz_request (h : HttpRequest) (headers : Headers) (action b : string) (key : option string)
  : AuthzRequest :=
  mkRequest (h_method h) action b key (scope_key key (h_query h)) (Some headers).

Definition authz_layer (m : Meta) (now : Z) (t : Scope.TrustedProxies) (h : HttpRequest)
    (auth : option AuthResult) (c : AuthzCache) : Layered * AuthzCache :=
  let headers := believed_headers t h in
  match auth with
  | None => (Next headers None, c)
  | Some auth =>
    let auth := located t h auth in
    let classification := classify (h_method h) (h_path h) (h_query h) in
    let anonymous := bool_decide (a_mode auth = Anonymous) in
    if anonymous && bool_decide (classification = Skip) then (Answer_ AnonymousRefused, c)
    else
      let '(denied, c) :=
        if String.eqb (h_path h) "/" && bool_decide (h_method h = GET) && negb anonymous
        then list_buckets_denied m now auth c else (false, c) in
      if denied : bool then (Answer_ ListDenied, c)
      else
        match classification with
        | Skip | DeferToHandler => (Next headers (Some auth), c)
        | Check_ action b key =>
          let '(v, c) := authorize m now auth (authz_request h headers action b key) c in
          match v with
          | Admit => (Next headers (Some auth), c)
          | v =>
            let '(taken, c) :=
              if String.eqb action "s3:CreateBucket" then
                let '(entry, c) := load_bucket m now b c in
                (match entry with
                 | Some e => negb (String.eqb (owner e) EmptyString)
                             && negb (String.eqb (owner e) (a_user_id auth))
                 | None => false
                 end, c)
              else (false, c) in
            (Answer_ (if taken : bool then BucketAlreadyExists else v), c)
          end
        end
  end.

(** The check each key of a batch delete goes through (s3/delete.rs,
    [delete_one]): whether it is refused. *)
Definition delete_one_refused (m : Meta) (now : Z) (auth : option AuthResult) (b key : string)
    (c : AuthzCache) : bool * AuthzCache :=
  match auth with
  | None => (false, c)
  | Some auth =>
    let '(v, c) := authorize m now auth (mkRequest DELETE "s3:DeleteObject" b (Some key) key None) c in
    (match v with Admit => false | _ => true end, c)
  end.

End Chain.

End Authz.
