(* ===== verification/AuthzSpec.v ===== *)
(** * What the authorization chain decides

    Theorems on [Authz]: a decision as a statement about what the caches and
    meta hold, its composition with the classification of requests and the
    handlers of [Requests], and what the cache does to it. *)

From S2P Require Import Prelude Bytes StdText Wildcard Policy Requests Scope Authz.
Import Requests Policy Authz.

Module AuthzSpec.

Section Views.
Context {URL : Urlencoding} {SERDE : Serde} {CHRONO : Chrono}.

(** ** What a load gives: the cached entry while it lives, else meta's answer. *)
Definition bucket_view (m : Meta) (now : Z) (c : AuthzCache) (b : string) : option BucketEntry :=
  match bucket c now b with Some e => Some e | None => fetch_bucket m b end.

Definition identity_view (m : Meta) (now : Z) (c : AuthzCache) (pg : string * bool)
  : option AttachedPolicies :=
  if String.eqb pg.1 EmptyString then Some []
  else match identity c now pg.1 with Some l => Some l | None => fetch_identity m pg.1 pg.2 end.

Definition account_view (m : Meta) (now : Z) (c : AuthzCache) (k : string) : option Value :=
  match account c now k with
  | Some d => d
  | None => match get_config m k with
            | Answered e => (fun v => default empty_object (from_slice v)) <$> e
            | NotFound | Failed => to_value ALL
            end
  end.

(** Whether public grants are shut off for a bucket. *)
Definition restricted_view (m : Meta) (now : Z) (c : AuthzCache) (e : BucketEntry) : bool :=
  restrict_public_buckets (public_block e)
  || (negb (String.eqb (tenant e) EmptyString)
      && restrict_public_buckets (doc_block (account_view m now c (tenant_key (tenant e)))))
  || restrict_public_buckets (doc_block (account_view m now c CLUSTER_KEY)).

Lemma load_bucket_view m now b c :
  fst (load_bucket m now b c) = bucket_view m now c b.
Proof. unfold load_bucket, bucket_view. destruct (bucket c now b); [done|]. by destruct (fetch_bucket m b). Qed.

Lemma load_bucket_rest m now b c :
  identities (snd (load_bucket m now b c)) = identities c
  /\ accounts (snd (load_bucket m now b c)) = accounts c /\ ttl (snd (load_bucket m now b c)) = ttl c.
Proof.
  unfold load_bucket. destruct (bucket c now b); [done|]. destruct (fetch_bucket m b) as [e|]; [|done].
  by destruct (missing e).
Qed.

Lemma identity_view_same m now c c' pg :
  identities c' = identities c -> ttl c' = ttl c -> identity_view m now c' pg = identity_view m now c pg.
Proof. intros H1 H2. unfold identity_view, identity, live. by rewrite H1, H2. Qed.

Lemma account_view_same m now c c' k :
  accounts c' = accounts c -> ttl c' = ttl c -> account_view m now c' k = account_view m now c k.
Proof. intros H1 H2. unfold account_view, account, live. by rewrite H1, H2. Qed.

Lemma restricted_view_same m now c c' e :
  accounts c' = accounts c -> ttl c' = ttl c -> restricted_view m now c' e = restricted_view m now c e.
Proof. intros H1 H2. unfold restricted_view. by rewrite !(account_view_same m now c c'). Qed.

Lemma live_now {A} (c : AuthzCache) now (a : A) :
  live c now (Some (a, now)) = if 0 <? ttl c then Some a else None.
Proof. unfold live, saturating_sub. cbn. by rewrite Z.sub_diag. Qed.

(** Loading a principal's policies gives their view and keeps the others'. *)
Lemma load_identity_view m now p g c :
  fst (load_identity_policies m now p g c) = identity_view m now c (p, g).
Proof.
  unfold load_identity_policies, identity_view. cbn. destruct (String.eqb p EmptyString); [done|].
  destruct (identity c now p); [done|]. by destruct (fetch_identity m p g).
Qed.

Lemma load_identity_keeps m now p g c pg :
  (pg.1 = p -> pg.2 = g) ->
  identity_view m now (snd (load_identity_policies m now p g c)) pg = identity_view m now c pg.
Proof.
  intros Hg. unfold load_identity_policies. destruct (String.eqb p EmptyString); [done|].
  destruct (identity c now p) as [l|] eqn:Ei; [done|].
  destruct (fetch_identity m p g) as [l|] eqn:Ef; [|done]. cbn.
  unfold identity_view. destruct (String.eqb pg.1 EmptyString); [done|].
  destruct (decide (pg.1 = p)) as [E|E].
  - rewrite E, (Hg E), Ei, Ef. unfold identity. cbn. rewrite lookup_insert_eq.
    change (live (put_identity p l now c) now) with (@live _ AttachedPolicies c now).
    rewrite live_now. by destruct (0 <? ttl c).
  - unfold identity. cbn. by rewrite lookup_insert_ne.
Qed.

Lemma load_identity_rest m now p g c :
  accounts (snd (load_identity_policies m now p g c)) = accounts c
  /\ ttl (snd (load_identity_policies m now p g c)) = ttl c.
Proof.
  unfold load_identity_policies. destruct (String.eqb p EmptyString); [done|].
  destruct (identity c now p); [done|]. by destruct (fetch_identity m p g).
Qed.

Lemma account_doc_view m now k c : fst (account_doc m now k c) = account_view m now c k.
Proof. unfold account_doc, account_view. destruct (account c now k); [done|]. by destruct (get_config m k). Qed.

Lemma account_doc_keeps m now k c k' :
  account_view m now (snd (account_doc m now k c)) k' = account_view m now c k'.
Proof.
  unfold account_doc. destruct (account c now k) as [d|] eqn:Ea; [done|].
  destruct (get_config m k) as [e| |] eqn:Eg; [|done..]. cbn. unfold account_view.
  destruct (decide (k' = k)) as [->|E].
  - rewrite Ea, Eg. unfold account. cbn. rewrite lookup_insert_eq.
    change (live (put_account _ _ _ _) now) with (@live _ (option Value) c now).
    rewrite live_now. by destruct (0 <? ttl c).
  - unfold account. cbn. by rewrite lookup_insert_ne.
Qed.

Lemma effective_view m now c e :
  restrict_public_buckets (fst (effective m now (tenant e) (public_block e) c)) = restricted_view m now c e.
Proof.
  unfold effective, restricted_view.
  destruct (account_doc m now CLUSTER_KEY c) as [cluster c1] eqn:E1.
  assert (cluster = account_view m now c CLUSTER_KEY) as ->.
  { rewrite <- account_doc_view. by rewrite E1. }
  destruct (String.eqb (tenant e) EmptyString); cbn; [done|].
  destruct (account_doc m now (tenant_key (tenant e)) c1) as [d c2] eqn:E2. cbn.
  do 5 f_equal. rewrite <- (account_doc_keeps m now CLUSTER_KEY), E1. cbn.
  by rewrite <- account_doc_view, E2.
Qed.

(** ** The walk over a caller's policies *)
Definition denied_by (ctx : RequestContext) (np : string * BucketPolicy) : bool :=
  existsb (denies ctx) (statements np.2).
Definition allowed_by (ctx : RequestContext) (np : string * BucketPolicy) : bool :=
  existsb (allows ctx) (statements np.2).

Lemma policies_loop_spec l ctx any :
  match policies_loop l ctx any with
  | inl _ => existsb (denied_by ctx) l = true
  | inr b => existsb (denied_by ctx) l = false /\ b = any || existsb (allowed_by ctx) l
  end.
Proof.
  revert any. induction l as [|[n p] l IH]; intros any; cbn; [by rewrite orb_false_r|].
  rewrite evaluate_flags. unfold denied_by, allowed_by in *. cbn.
  destruct (existsb (denies ctx) (statements p)); cbn; [done|].
  destruct (existsb (allows ctx) (statements p)); cbn.
  - specialize (IH true). destruct (policies_loop l ctx true); [done|]. cbn in IH. by rewrite orb_true_r.
  - apply IH.
Qed.

(** The policies of every principal, if all could be read. *)
Definition policies_view (m : Meta) (now : Z) (c : AuthzCache) (ps : list (string * bool))
  : option (list AttachedPolicies) := mapM (identity_view m now c) ps.

(** No two of [ps] share a name but not their kind. *)
Definition distinct_kinds (ps : list (string * bool)) : Prop :=
  forall p q, p ∈ ps -> q ∈ ps -> p.1 = q.1 -> p.2 = q.2.

Lemma mapM_ext_in {A B} (f g : A -> option B) l :
  (forall x, x ∈ l -> f x = g x) -> mapM f l = mapM g l.
Proof.
  induction l as [|x l IH]; intros H; [done|]. cbn. rewrite (H x) by left.
  rewrite IH; [done|]. intros y Hy. apply H. by right.
Qed.

Lemma principals_loop_spec m now ps ctx any c :
  distinct_kinds ps ->
  match fst (principals_loop m now ps ctx any c) with
  | inl v => v <> Admit /\ forall ls, policies_view m now c ps = Some ls ->
                                      existsb (denied_by ctx) (concat ls) = true
  | inr b => exists ls, policies_view m now c ps = Some ls /\
               existsb (denied_by ctx) (concat ls) = false /\
               b = any || existsb (allowed_by ctx) (concat ls)
  end.
Proof.
  revert any c. induction ps as [|[p g] ps IH]; intros any c Hd; cbn.
  { exists []. by rewrite orb_false_r. }
  destruct (load_identity_policies m now p g c) as [found c'] eqn:El.
  pose proof (load_identity_view m now p g c) as Hv. rewrite El in Hv. cbn in Hv.
  unfold policies_view. cbn [mapM]. rewrite <- Hv.
  destruct found as [l|]; cbn; [|split; [done|]; intros ls; by cbn].
  assert (mapM (identity_view m now c') ps = mapM (identity_view m now c) ps) as Hk.
  { apply mapM_ext_in. intros q Hq. replace c' with (snd (load_identity_policies m now p g c)) by by rewrite El.
    apply load_identity_keeps. intros E. by apply (Hd q (p, g)); [right|left|]. }
  pose proof (policies_loop_spec l ctx any) as Hl. destruct (policies_loop l ctx any) as [n|b].
  { split; [done|]. intros ls Hls. destruct (mapM (identity_view m now c) ps) as [ls'|]; [|done].
    injection Hls as <-. cbn. by rewrite existsb_app, Hl. }
  destruct Hl as [Hno ->]. specialize (IH (any || existsb (allowed_by ctx) l) c').
  assert (distinct_kinds ps) as Hd' by (intros ????; apply Hd; by right). specialize (IH Hd').
  unfold policies_view in IH. rewrite Hk in IH.
  destruct (fst (principals_loop m now ps ctx _ c')) as [v|b].
  - destruct IH as [Hv' IH]. split; [done|]. intros ls Hls. destruct (mapM (identity_view m now c) ps) as [ls'|]; [|done].
    injection Hls as <-. cbn.
    rewrite existsb_app, Hno. cbn. by apply IH.
  - destruct IH as (ls & -> & Hno' & ->). exists (l :: ls). split; [done|].
    cbn. rewrite !existsb_app, Hno. split; [done|]. by rewrite orb_assoc.
Qed.

Lemma principals_loop_rest m now ps ctx any c :
  accounts (snd (principals_loop m now ps ctx any c)) = accounts c
  /\ ttl (snd (principals_loop m now ps ctx any c)) = ttl c.
Proof.
  revert any c. induction ps as [|[p g] ps IH]; intros any c; cbn; [done|].
  destruct (load_identity_policies m now p g c) as [found c'] eqn:El.
  pose proof (load_identity_rest m now p g c) as [Ha Ht]. rewrite El in Ha, Ht. cbn in Ha, Ht.
  destruct found as [l|]; [|done]. destruct (policies_loop l ctx any) as [n|b]; [done|].
  destruct (IH b c') as [Ha' Ht']. by rewrite Ha', Ht', Ha, Ht.
Qed.

(** ** When a request is admitted *)

(** No statement of [p] denies; some statement of [p] that [f] keeps allows. *)
Definition no_deny (ctx : RequestContext) (p : BucketPolicy) : Prop :=
  forall st, st ∈ statements p -> effect st = Deny -> applies ctx st = false.
Definition some_allow (ctx : RequestContext) (p : BucketPolicy) : Prop :=
  exists st, st ∈ statements p /\ effect st = Allow /\ applies ctx st = true.

Lemma no_deny_flag ctx p : existsb (denies ctx) (statements p) = false <-> no_deny ctx p.
Proof.
  rewrite <- not_true_iff_false, denied_in. unfold no_deny. split.
  - intros H st Hin He. destruct (applies ctx st) eqn:E; [|done]. destruct H. by exists st.
  - intros H (st & Hin & Ha & He). by rewrite (H _ Hin He) in Ha.
Qed.

Lemma some_allow_flag ctx p : existsb (allows ctx) (statements p) = true <-> some_allow ctx p.
Proof. rewrite allowed_in. unfold some_allow. split; intros (st & ? & ? & ?); by exists st. Qed.

Section Decision.
Context (m : Meta) (now : Z) (auth : AuthResult) (req : AuthzRequest) (c : AuthzCache).

Definition in_scope : Prop :=
  match a_scope auth with
  | Some s => Scope.allows s (r_bucket req) (r_scope_key req) (method_str (r_method req)) = true
  | None => True
  end.

(** An unsigned caller: the policy's grants to everyone, unless the policy
    is public and public grants are shut off. *)
Definition anonymous_admitted (e : BucketEntry) : Prop :=
  exists p ctx, policy e = Some p /\ request_context m auth req e = Some ctx /\
    (is_public p && restricted_view m now c e = false) /\
    no_deny ctx p /\
    exists st, st ∈ statements p /\ effect st = Allow /\ is_everyone (principal st) = true /\
      applies ctx st = true.

(** The bucket's grants to this caller. *)
Definition bucket_grants (ctx : RequestContext) (e : BucketEntry) : Prop :=
  exists p, policy e = Some p /\
    some_allow ctx (if negb (String.eqb (a_tenant auth) (tenant e)) && is_public p
                       && restricted_view m now c e
                    then without_public_grants p else p).

(** A signed caller. *)
Definition caller_admitted (e : BucketEntry) : Prop :=
  (tenant e = EmptyString \/ a_tenant auth = tenant e) /\
  exists ctx ls, request_context m auth req e = Some ctx /\
    policies_view m now c (principals auth) = Some ls /\
    (forall np, np ∈ concat ls -> no_deny ctx np.2) /\
    (forall p, policy e = Some p -> no_deny ctx p) /\
    ((exists np, np ∈ concat ls /\ some_allow ctx np.2)
     \/ bucket_grants ctx e
     \/ (owner e <> EmptyString /\ owner e = a_user_id auth)
     \/ r_action req = "s3:CreateBucket").

Definition admissible : Prop :=
  in_scope /\
  (a_user_arn auth = SYSTEM_ADMIN_USER_ARN \/
   exists e, bucket_view m now c (r_bucket req) = Some e /\
     (missing e = true -> r_bucket req = EmptyString \/ r_action req = "s3:CreateBucket") /\
     if decide (a_mode auth = Anonymous) then anonymous_admitted e else caller_admitted e).

End Decision.

Lemma evaluate_allow p ctx : evaluate p ctx = DAllow <-> no_deny ctx p /\ some_allow ctx p.
Proof.
  rewrite evaluate_flags, <- no_deny_flag, <- some_allow_flag.
  destruct (existsb (denies ctx) _), (existsb (allows ctx) _); intuition congruence.
Qed.

Lemma evaluate_not_deny p ctx : evaluate p ctx <> DDeny <-> no_deny ctx p.
Proof.
  rewrite evaluate_flags, <- no_deny_flag. destruct (existsb (denies ctx) _); [intuition congruence|].
  destruct (existsb (allows ctx) _); intuition congruence.
Qed.

Lemma no_deny_keep ctx f p :
  (forall st, effect st = Deny -> f st = true) -> no_deny ctx (keep f p) <-> no_deny ctx p.
Proof. intros H. by rewrite <- !no_deny_flag, denied_keep. Qed.

Lemma some_allow_keep ctx f p :
  some_allow ctx (keep f p) <->
  exists st, st ∈ statements p /\ f st = true /\ effect st = Allow /\ applies ctx st = true.
Proof.
  unfold some_allow. cbn. split; intros (st & H).
  - destruct H as (Hin & He & Ha). apply list_elem_of_In, filter_In in Hin as [Hin Hf].
    exists st. by rewrite list_elem_of_In.
  - destruct H as (Hin & Hf & He & Ha). exists st. split; [|done].
    apply list_elem_of_In, filter_In. by rewrite <- list_elem_of_In.
Qed.

Lemma kept_denies (g : PolicyStatement -> bool) st : effect st = Deny -> (is_deny st || g st) = true.
Proof. intros E. unfold is_deny. by rewrite E. Qed.

Lemma for_anonymous_allow ctx p :
  evaluate (for_anonymous p) ctx = DAllow <->
  no_deny ctx p /\
  exists st, st ∈ statements p /\ effect st = Allow /\ is_everyone (principal st) = true /\
    applies ctx st = true.
Proof.
  rewrite evaluate_allow. unfold for_anonymous.
  rewrite (no_deny_keep ctx _ p (kept_denies _)), some_allow_keep.
  apply and_iff_compat_l. split; intros (st & H); exists st.
  - destruct H as (Hin & Hf & He & Ha). unfold is_deny in Hf. by rewrite He in Hf.
  - destruct H as (Hin & He & Hf & Ha). by rewrite Hf, orb_true_r.
Qed.

(** With public grants shut off nothing is left for an unsigned caller. *)
Lemma for_anonymous_restricted ctx p :
  evaluate (without_public_grants (for_anonymous p)) ctx <> DAllow.
Proof.
  intros [_ E]%evaluate_allow. apply some_allow_keep in E as (st & Hin & Hf & He & _).
  apply list_elem_of_In, filter_In in Hin as [_ Hg]. unfold is_deny in *. rewrite He in *. cbn in *.
  by destruct (is_everyone _).
Qed.

Lemma anonymous_spec m now auth req e c c' :
  accounts c' = accounts c -> ttl c' = ttl c ->
  fst (authorize_anonymous m now auth req e c') = Admit <-> anonymous_admitted m now auth req c e.
Proof.
  intros Hacc Httl. unfold authorize_anonymous, anonymous_admitted.
  destruct (policy e) as [p|]; [|split; [done|by intros (p & ctx & ? & _)]].
  rewrite <- (restricted_view_same m now c c' e Hacc Httl), <- effective_view.
  destruct (effective m now (tenant e) (public_block e) c') as [b c2]. cbn [fst].
  transitivity (anonymous_verdict m auth req e p (is_public p && restrict_public_buckets b) = Admit);
    [by destruct (is_public p)|].
  unfold anonymous_verdict.
  destruct (request_context m auth req e) as [ctx|]; [|split; [done|]; by intros (? & ? & _ & ? & _)].
  destruct (is_public p && restrict_public_buckets b) eqn:Er; cbn -[evaluate without_public_grants for_anonymous].
  - pose proof (for_anonymous_restricted ctx p).
    split; [by destruct (evaluate _ ctx)|intros (q & ? & [= <-] & _ & Hq & _); congruence].
  - transitivity (evaluate (for_anonymous p) ctx = DAllow); [by destruct (evaluate _ ctx)|].
    rewrite for_anonymous_allow. split.
    + intros [Hn Ha]. by exists p, ctx.
    + by intros (q & ctx' & [= <-] & [= <-] & _ & Hn & Ha).
Qed.

(** The bucket policy as it holds for the caller. *)
Definition policy_view (m : Meta) (now : Z) (auth : AuthResult) (c : AuthzCache) (e : BucketEntry)
    (p : BucketPolicy) : BucketPolicy :=
  if negb (String.eqb (a_tenant auth) (tenant e)) && is_public p && restricted_view m now c e
  then without_public_grants p else p.

Lemma policy_for_view m now auth e c c' :
  accounts c' = accounts c -> ttl c' = ttl c ->
  fst (policy_for m now auth e c') = policy_view m now auth c e <$> policy e.
Proof.
  intros Hacc Httl. unfold policy_for, policy_view. destruct (policy e) as [p|]; [|done]. cbn.
  destruct (negb _ && is_public p); [|done]. cbn.
  rewrite <- (restricted_view_same m now c c' e Hacc Httl), <- effective_view.
  by destruct (effective m now (tenant e) (public_block e) c').
Qed.

Lemma no_deny_view m now auth c e ctx p : no_deny ctx (policy_view m now auth c e p) <-> no_deny ctx p.
Proof.
  unfold policy_view. destruct (_ && _ && _); [|done]. apply no_deny_keep, kept_denies.
Qed.

Lemma grant_admits auth req e any d :
  grant auth req e any d = Admit <->
  d <> DDeny /\ (any = true \/ d = DAllow \/ (owner e <> EmptyString /\ owner e = a_user_id auth)
                 \/ r_action req = "s3:CreateBucket").
Proof.
  unfold grant.
  destruct (String.eqb_spec (owner e) EmptyString), (String.eqb_spec (owner e) (a_user_id auth)),
    (String.eqb_spec (r_action req) "s3:CreateBucket"), any, d; cbn;
    try case_bool_decide; intuition congruence.
Qed.

Lemma existsb_false_forall {A} (f : A -> bool) l :
  existsb f l = false <-> forall x, x ∈ l -> f x = false.
Proof.
  rewrite <- not_true_iff_false, existsb_exists. split.
  - intros H x Hx. destruct (f x) eqn:E; [|done]. destruct H. exists x. by rewrite <- list_elem_of_In.
  - intros H (x & Hx & E). rewrite <- list_elem_of_In in Hx. by rewrite (H x Hx) in E.
Qed.

Lemma concat_no_deny ctx (l : AttachedPolicies) :
  existsb (denied_by ctx) l = false <-> forall np, np ∈ l -> no_deny ctx np.2.
Proof. rewrite existsb_false_forall. by setoid_rewrite no_deny_flag. Qed.

Lemma concat_allow ctx (l : AttachedPolicies) :
  existsb (allowed_by ctx) l = true <-> exists np, np ∈ l /\ some_allow ctx np.2.
Proof.
  rewrite existsb_exists. unfold allowed_by.
  split; intros (np & H1 & H2); exists np; rewrite list_elem_of_In, some_allow_flag in *; done.
Qed.

Lemma bucket_decision m now auth c ctx e :
  let d := match policy_view m now auth c e <$> policy e with
           | Some p => evaluate p ctx
           | None => ImplicitDeny
           end in
  (d <> DDeny <-> forall p, policy e = Some p -> no_deny ctx p) /\
  (d = DAllow <-> (forall p, policy e = Some p -> no_deny ctx p) /\ bucket_grants m now auth c ctx e).
Proof.
  unfold bucket_grants. destruct (policy e) as [p|]; cbn -[evaluate].
  - rewrite evaluate_not_deny, evaluate_allow, no_deny_view. fold (policy_view m now auth c e).
    split; [split; [by intros ? ? [= <-]|eauto]|]. split.
    + intros [Hn Ha]. split; [by intros ? [= <-]|]. by exists p.
    + intros [Hn (q & [= <-] & Ha)]. split; [by apply Hn|done].
  - split; [by split|]. split; [done|]. by intros [_ (? & ? & _)].
Qed.

Lemma caller_spec m now auth req e c c' :
  distinct_kinds (principals auth) ->
  identities c' = identities c -> accounts c' = accounts c -> ttl c' = ttl c ->
  fst (authorize_caller m now auth req e c') = Admit
  <-> exists ctx ls, request_context m auth req e = Some ctx /\
    policies_view m now c (principals auth) = Some ls /\
    (forall np, np ∈ concat ls -> no_deny ctx np.2) /\
    (forall p, policy e = Some p -> no_deny ctx p) /\
    ((exists np, np ∈ concat ls /\ some_allow ctx np.2)
     \/ bucket_grants m now auth c ctx e
     \/ (owner e <> EmptyString /\ owner e = a_user_id auth)
     \/ r_action req = "s3:CreateBucket").
Proof.
  intros Hd Hid Hacc Httl. unfold authorize_caller.
  destruct (request_context m auth req e) as [ctx|]; [|split; [done|by intros (? & ? & ? & _)]].
  pose proof (principals_loop_spec m now (principals auth) ctx false c' Hd) as Hp.
  pose proof (principals_loop_rest m now (principals auth) ctx false c') as [Ha Ht].
  assert (policies_view m now c' (principals auth) = policies_view m now c (principals auth)) as Hv.
  { apply mapM_ext_in. intros pg _. by apply identity_view_same. }
  rewrite Hv in Hp. destruct (principals_loop _ _ _ _ _ _) as [found c2]. cbn [fst snd] in Hp, Ha, Ht.
  destruct found as [v|any].
  - destruct Hp as [Hne Hdeny]. split; [by cbn|]. intros (ctx' & ls & [= <-] & Hls & Hno & _).
    apply Hdeny in Hls. apply concat_no_deny in Hno. congruence.
  - destruct Hp as (ls & Hls & Hno & ->). cbn [orb].
    pose proof (policy_for_view m now auth e c c2) as Hpf.
    rewrite Ha, Ht in Hpf. specialize (Hpf Hacc Httl).
    destruct (policy_for m now auth e c2) as [p c3]. cbn [fst] in Hpf |- *. subst p.
    rewrite grant_admits, concat_allow. destruct (bucket_decision m now auth c ctx e) as [Hb1 Hb2].
    rewrite Hb1, Hb2. split.
    + intros [Hbp Hg]. exists ctx, ls. rewrite concat_no_deny in Hno. tauto.
    + intros (ctx' & ls' & [= <-] & Hls' & Hno' & Hbp & Hg). rewrite Hls in Hls'. injection Hls' as <-. tauto.
Qed.

Lemma principals_distinct auth : ~ a_user_id auth ∈ a_group_ids auth -> distinct_kinds (principals auth).
Proof.
  intros Hid.
  assert (forall p, p ∈ principals auth ->
            p = (a_user_id auth, false) \/ (p.1 ∈ a_group_ids auth /\ p.2 = true)) as Hcase.
  { intros p [->|Hp]%elem_of_cons; [by left|right]. apply list_elem_of_In, in_map_iff in Hp as (g & <- & Hg).
    by rewrite list_elem_of_In. }
  intros p q [->|[Hp Ep]]%Hcase [->|[Hq Eq]]%Hcase E; cbn in *; congruence.
Qed.

Lemma authorize_in_spec m now auth req e c c' :
  ~ a_user_id auth ∈ a_group_ids auth ->
  identities c' = identities c -> accounts c' = accounts c -> ttl c' = ttl c ->
  fst (authorize_in m now auth req e c') = Admit <->
  (missing e = true -> r_bucket req = EmptyString \/ r_action req = "s3:CreateBucket") /\
  if decide (a_mode auth = Anonymous) then anonymous_admitted m now auth req c e
  else caller_admitted m now auth req c e.
Proof.
  intros Hid Hi Ha Ht. unfold authorize_in.
  destruct (missing e && _ && _) eqn:Em.
  { apply andb_true_iff in Em as [[Hm Hb]%andb_true_iff Hc].
    rewrite negb_true_iff, String.eqb_neq in Hb, Hc.
    split; [done|]. intros [H _]. by destruct (H Hm). }
  assert (missing e = true -> r_bucket req = EmptyString \/ r_action req = "s3:CreateBucket") as Hm.
  { intros Hm. rewrite Hm in Em. cbn in Em.
    destruct (String.eqb_spec (r_bucket req) EmptyString); [by left|].
    destruct (String.eqb_spec (r_action req) "s3:CreateBucket"); [by right|done]. }
  case_bool_decide as Hanon; destruct (decide _) as [|]; try done.
  - rewrite (anonymous_spec m now auth req e c c' Ha Ht). tauto.
  - unfold caller_admitted, tenant_violation. rewrite <- (caller_spec m now auth req e c c'); try done;
      [|by apply principals_distinct].
    destruct (String.eqb_spec (tenant e) EmptyString), (String.eqb_spec (a_tenant auth) (tenant e));
      cbn [negb orb fst]; intuition congruence.
Qed.

Lemma authorize_spec (m : Meta) (now : Z) (auth : AuthResult) (req : AuthzRequest) (c : AuthzCache) :
  ~ a_user_id auth ∈ a_group_ids auth ->
  fst (authorize m now auth req c) = Admit <-> admissible m now auth req c.
Proof.
  intros Hid. unfold authorize, admissible, in_scope, is_system_admin.
  assert (fst (if String.eqb (a_user_arn auth) SYSTEM_ADMIN_USER_ARN
               then (Admit, snd (load_bucket m now (r_bucket req) c))
               else let '(entry, c) := load_bucket m now (r_bucket req) c in
                    match entry with
                    | None => (ServiceUnavailable, c)
                    | Some entry => authorize_in m now auth req entry c
                    end) = Admit <->
    (a_user_arn auth = SYSTEM_ADMIN_USER_ARN \/
     exists e, bucket_view m now c (r_bucket req) = Some e /\
       (missing e = true -> r_bucket req = EmptyString \/ r_action req = "s3:CreateBucket") /\
       if decide (a_mode auth = Anonymous) then anonymous_admitted m now auth req c e
       else caller_admitted m now auth req c e)) as Hrest.
  { destruct (String.eqb_spec (a_user_arn auth) SYSTEM_ADMIN_USER_ARN); [by intuition|].
    destruct (load_bucket_rest m now (r_bucket req) c) as (Hi & Ha & Ht).
    rewrite <- load_bucket_view. destruct (load_bucket _ _ _ _) as [[e|] c']; cbn [fst snd] in *.
    - rewrite (authorize_in_spec m now auth req e c c') by done.
      split; [right; by exists e|]. by intros [?|(e' & [= <-] & ?)].
    - split; [done|]. by intros [?|(? & ? & _)]. }
  destruct (a_scope auth) as [s|]; [destruct (Scope.allows s _ _ _); cbn [negb]|].
  - rewrite Hrest. tauto.
  - split; [done|by intros [? _]].
  - rewrite Hrest. tauto.
Qed.

(** C25. For a caller whose id is none of its groups', a request is admitted
    exactly when: it is inside the credential's scope, and the caller is the
    system admin, whatever any policy denies, or the bucket could be read and
    exists (or is being created) and either the caller is unsigned and a
    grant of the bucket's policy to everyone applies that isn't shut off, or
    the caller is inside the bucket's tenant, every policy of it and its
    groups could be read, no statement of these or of the bucket's policy
    denies, and one allows, or the caller owns the bucket or creates it. No
    policy takes part in the tenant's and the scope's conditions, so none
    can grant across them. Statements are judged on the context [authorize]
    builds, which has the object's tags only if the bucket's policy names
    them ([identity_tag_deny_missed]). The order the function's comment gives,
    a Deny first and terminal, is not the code's: the system admin is let in
    past it ([admin_past_deny]). *)
Theorem authorize_admits (m : Meta) (now : Z) (auth : AuthResult) (req : AuthzRequest) (c : AuthzCache) :
  ~ a_user_id auth ∈ a_group_ids auth ->
  fst (authorize m now auth req c) = Admit <-> admissible m now auth req c.
Proof. apply authorize_spec. Qed.

(** ** The layer and the handlers together *)
Lemma target_key path b k : target path = Some (b, Some k) -> k <> EmptyString.
Proof.
  unfold target. intros H. destruct (_ || _ || _); [done|].
  destruct (default _ _) as [rb rk]. destruct (String.eqb_spec rk EmptyString) as [|Hne]; [done|].
  injection H as _ <-. unfold decode. destruct (url_decode rk) as [s|] eqn:E; cbn; [|done].
  intros ->. by apply url_decode_empty in E.
Qed.

(** Whether a path names an object. *)
Definition is_object (path : string) : bool :=
  match target path with Some (_, Some _) => true | _ => false end.

Lemma layer_checked m now t h auth c headers auth' a b key :
  classify (h_method h) (h_path h) (h_query h) = Check_ a b key ->
  fst (authz_layer m now t h (Some auth) c) = Next headers auth' ->
  fst (authorize m now (located t h auth) (authz_request h (believed_headers t h) a b key) c) = Admit.
Proof.
  intros Hcl H. unfold authz_layer in H. rewrite Hcl in H.
  rewrite (bool_decide_eq_false_2 (Check_ a b key = Skip)), andb_false_r in H by done.
  destruct (String.eqb_spec (h_path h) "/") as [Ep|_]; [by rewrite Ep in Hcl|]. cbn [andb] in H.
  destruct (authorize _ _ _ _ _) as [v c']. cbn [fst]. destruct v; [done|exfalso; revert H..].
  all: by destruct (String.eqb a "s3:CreateBucket"); [destruct (load_bucket _ _ _ _)|].
Qed.

Lemma serve_covered `{QUERY : Query} h r op :
  query_chars (h_query h) = true -> one_action (is_object (h_path h)) (h_method h) (h_query h) = true ->
  serve (h_method h) r (h_path h) (h_query h) = Run op ->
  covers (classify (h_method h) (h_path h) (h_query h)) op = true.
Proof.
  unfold is_object, serve, classify. intros Hc H1 Hs.
  destruct (target (h_path h)) as [[b [k|]]|] eqn:Et; [| |done].
  - eapply (dispatch_covers true _ r b k); [done..|by eapply target_key|done].
  - by eapply (dispatch_covers false _ r b "k").
Qed.

(** C24. What the gateway runs was authorized: when a signed or unsigned
    caller's request passes the layer and its handler runs an operation, the
    operation is a batch delete, which asks for each key, or the request is
    admissible for the very action the operation needs. This is of requests
    whose query has no percent-escape ([query_chars]) and names sub-resources
    of one action only ([one_action]), and of callers whose id is none of
    their groups'; the layer reads other queries differently from the
    handlers ([escaped_subresource_unchecked], [second_subresource_unchecked]
    of [Requests]). *)
Theorem run_means_authorized `{QUERY : Query} (m : Meta) (now : Z) (t : Scope.TrustedProxies)
    (h : HttpRequest) (auth : AuthResult) (c : AuthzCache) (r : Rest) (op : Operation) headers auth' :
  ~ a_user_id auth ∈ a_group_ids auth ->
  query_chars (h_query h) = true -> one_action (is_object (h_path h)) (h_method h) (h_query h) = true ->
  fst (authz_layer m now t h (Some auth) c) = Next headers auth' ->
  serve (h_method h) r (h_path h) (h_query h) = Run op ->
  op = DeleteObjects \/
  exists a b key, required_action op = Some a /\
    classify (h_method h) (h_path h) (h_query h) = Check_ a b key /\
    admissible m now (located t h auth) (authz_request h (believed_headers t h) a b key) c.
Proof.
  intros Hid Hc H1 Hl Hs. pose proof (serve_covered h r op Hc H1 Hs) as Hcov.
  destruct (classify (h_method h) (h_path h) (h_query h)) as [| |a b key] eqn:Hcl; cbn in Hcov; [done| |].
  - left. by apply bool_decide_eq_true in Hcov.
  - right. apply bool_decide_eq_true in Hcov. exists a, b, key. split; [done|]. split; [done|].
    apply authorize_spec; [done|]. by eapply layer_checked.
Qed.

(** ** Change and the cache *)

(** [invalidate] drops what the cache has, not what is on its way to it.
    With no load in flight the next decision reads meta again; but a load
    that fetched the bucket before the change and caches it after
    [invalidate] (the two are separate steps) leaves the old entry, and every
    decision is made on it until its time to live is up, those of the writer
    that invalidated it included. *)
Theorem invalidate_overtaken (m m' : Meta) (b : string) (e : BucketEntry) (c : AuthzCache) (t t' : Z) :
  fetch_bucket m b = Some e -> missing e = false -> t <= t' < t + ttl c ->
  bucket_view m' t' (invalidate b c) b = fetch_bucket m' b /\
  bucket_view m' t' (put_bucket b e t (invalidate b c)) b = Some e.
Proof.
  intros Hf Hm Ht. unfold bucket_view, bucket. split.
  - cbn. by rewrite lookup_delete_eq.
  - cbn. rewrite lookup_insert_eq. cbn. unfold saturating_sub.
    by rewrite (proj2 (Z.ltb_lt _ _)) by lia.
Qed.

End Views.

(** ** A world to decide in *)
Definition deny_secret : PolicyStatement :=
  build (with_condition [("StringEquals", [("s3:ExistingObjectTag/class", Single "secret")])]
           (resources ["*"] (actions ["s3:GetObject"] deny))).
Definition deny_insecure : PolicyStatement :=
  build (with_condition [("Bool", [("aws:SecureTransport", Single "false")])]
           (resources ["*"] (actions ["s3:*"] deny))).
Definition policy_of (st : PolicyStatement) : BucketPolicy := add_statement st BucketPolicy_new.

(** Policies stored under these names instead of their documents. *)
Definition ex_serde : Serde := {|
  from_json s := if String.eqb s "deny-secret" then Some (policy_of deny_secret)
                 else if String.eqb s "deny-insecure" then Some (policy_of deny_insecure) else None;
  stored_block _ := None;
  Value := unit; empty_object := tt; from_slice _ := Some tt;
  to_value _ := Some tt; from_value _ := None;
|}.

(** One bucket of ann's, its policy [bucket_policy], ann's inline policies
    [inline], and every object tagged secret. *)
Definition ex_meta (bucket_policy : option string) (inline : list (string * string)) : Meta := {|
  get_bucket _ := Answered (Some (mkMeta "ann" EmptyString));
  get_bucket_policy _ := Answered (bool_decide (is_Some bucket_policy), default EmptyString bucket_policy);
  get_bucket_setting _ _ := Answered (false, EmptyString);
  get_config _ := Answered None;
  list_attached_policies _ := Answered [];
  get_policy _ := NotFound;
  list_inline_policies _ := Answered inline;
  get_placement _ _ := Answered tt;
  get_object_meta_from_any _ _ := Answered (Some {[ "class" := "secret" ]});
|}.

Definition ann : AuthResult :=
  mkAuth "ann" "arn:obio:iam::objectio:user/ann" [] EmptyString Permanent None None None.
Definition ex_get : AuthzRequest := mkRequest GET "s3:GetObject" "b" (Some "k") "k" (Some ∅).

Definition ex_cache : @AuthzCache ex_serde := @AuthzCache_default ex_serde.

(** What [authorize] says of ann's read, and the layer of a request. *)
Definition ex_decide (bucket_policy : option string) (inline : list (string * string)) : Verdict :=
  fst (@authorize WebUrl ex_serde ex_chrono (ex_meta bucket_policy inline) 0 ann ex_get ex_cache).
Definition ex_layer (m : Meta) (h : HttpRequest) : Layered :=
  fst (@authz_layer WebUrl ex_serde ex_chrono m 0 ["10.0.0.0/8"] h (Some ann) ex_cache).
Definition ex_refused (m : Meta) (auth : option AuthResult) (b key : string) : bool :=
  fst (@delete_one_refused WebUrl ex_serde ex_chrono m 0 auth b key ex_cache).

(** A Deny on an object's tags holds in a bucket policy and not in an
    identity's: the tags are read only if the bucket policy names them, and
    without them the condition does not hold. The same statement refuses the
    read of a secret object as the bucket's policy and admits it as the
    caller's own. *)
Theorem identity_tag_deny_missed :
  ex_decide (Some "deny-secret") [] = DenyBucketPolicy /\
  ex_decide None [("own", "deny-secret")] = Admit.
Proof. by vm_compute. Qed.

(** The system admin is past a Deny: the same read, of a bucket whose policy
    denies it to ann. *)
Definition admin : AuthResult :=
  mkAuth "admin" SYSTEM_ADMIN_USER_ARN [] EmptyString Permanent None None None.

Lemma admin_past_deny :
  ex_decide (Some "deny-secret") [] = DenyBucketPolicy /\
  fst (@authorize WebUrl ex_serde ex_chrono (ex_meta (Some "deny-secret") []) 0 admin ex_get ex_cache) = Admit.
Proof. by vm_compute. Qed.

Definition tls_delete : HttpRequest :=
  mkHttp DELETE "/b/k" EmptyString {[ "x-forwarded-proto" := "https" ]} [] (Some (V4 0x0A000001)) None.

(** Over TLS, a bucket that denies plain HTTP admits the delete of a key
    and refuses the same delete in a batch: the batch asks without the
    request's headers, which is read as plain HTTP. *)
Theorem batch_delete_insecure :
  match ex_layer (ex_meta (Some "deny-insecure") []) tls_delete with
  | Next _ auth => ex_refused (ex_meta (Some "deny-insecure") []) auth "b" "k" = true
  | Answer_ _ => False
  end.
Proof. by vm_compute. Qed.

(** The prefix a listing is for, as its handler reads it. *)
Definition list_prefix `{QUERY : Query} (query : string) : option string :=
  params ← query_params list_fields list_ints query; Some (default EmptyString (params !! "prefix")).

(** The prefix a listing is checked for is not always the one listed: a
    plus is a space to the handler only, so a credential held to [a+/] lists
    [a /]; and a prefix given under an escaped name is none to the check, so
    a policy's Deny on [s3:prefix] never sees it. *)
Theorem listing_prefix_differs :
  (Scope.allows (Scope.mkScope "s3://b/a+/" Scope.Read) "b"
     (@scope_key WebUrl None "prefix=a+/") "GET" = true /\
   @list_prefix WebQuery "prefix=a+/" = Some "a /") /\
  (@scope_key WebUrl None "%70refix=secret/" = EmptyString /\
   @list_prefix WebQuery "%70refix=secret/" = Some "secret/").
Proof. by vm_compute. Qed.

(** ** Witnesses *)
Lemma authorize_admits_witness :
  @admissible WebUrl ex_serde ex_chrono (ex_meta None []) 0 ann ex_get ex_cache.
Proof.
  apply (@authorize_admits WebUrl ex_serde ex_chrono (ex_meta None []) 0 ann ex_get ex_cache);
    [by intros ?%elem_of_nil|by vm_compute].
Defined.

Definition plain_get : HttpRequest := mkHttp GET "/b/k" "versionId=3" ∅ [] None None.

Lemma run_means_authorized_witness :
  GetObjectVersion = DeleteObjects \/
  exists a b key, required_action GetObjectVersion = Some a /\
    @classify WebUrl GET "/b/k" "versionId=3" = Check_ a b key /\
    @admissible WebUrl ex_serde ex_chrono (ex_meta None []) 0 (@located [] plain_get ann)
      (@authz_request WebUrl plain_get ∅ a b key) ex_cache.
Proof.
  apply (@run_means_authorized WebUrl ex_serde ex_chrono WebQuery (ex_meta None []) 0 [] plain_get ann
           ex_cache plain_rest GetObjectVersion ∅ (Some (@located [] plain_get ann)));
    [by intros ?%elem_of_nil|by vm_compute..].
Defined.

Lemma invalidate_overtaken_witness :
  @bucket_view ex_serde (ex_meta (Some "deny-insecure") []) 1000
    (put_bucket "b" (mkEntry None "ann" EmptyString NO_BLOCK false) 0 (invalidate "b" ex_cache)) "b"
  = Some (mkEntry None "ann" EmptyString NO_BLOCK false).
Proof.
  apply (@invalidate_overtaken ex_serde (ex_meta None []) (ex_meta (Some "deny-insecure") []) "b"
           (mkEntry None "ann" EmptyString NO_BLOCK false) ex_cache 0 1000);
    [by vm_compute|done|by vm_compute].
Defined.

End AuthzSpec.
