(* ===== verification/OrdMap.v ===== *)
(** * Ordered maps on byte keys

    The order of [[u8]] slices and [std::collections::BTreeMap] keyed by
    [Vec<u8>]: a map is its entries in strictly increasing key order, which is
    what iterating it yields. The operations are the ones the metadata index
    uses ([get], [insert], [remove], [extend], [split_off], [range]); the
    lemmas give each by what a lookup of the result answers, and
    [sorted_ext] says that lookups determine a map. *)
From stdpp Require Import base list option tactics.
From S2P Require Import Prelude Bytes.

Local Open Scope Z_scope.

Module OrdMap.

(** [Ord for [u8]]: lexicographic, a proper prefix first. *)
Fixpoint key_ltb (a b : bytes) : bool :=
  match a, b with
  | [], [] => false
  | [], _ :: _ => true
  | _ :: _, [] => false
  | x :: a', y :: b' =>
    (bval x <? bval y) || ((bval x =? bval y) && key_ltb a' b')
  end.

Definition key_lt (a b : bytes) : Prop := key_ltb a b = true.
#[global] Instance key_lt_dec a b : Decision (key_lt a b) := decide (key_ltb a b = true).

Definition key_leb (a b : bytes) : bool := negb (key_ltb b a).

(** [a.starts_with(p)]. *)
Fixpoint starts_with (a p : bytes) : bool :=
  match p, a with
  | [], _ => true
  | _ :: _, [] => false
  | y :: p', x :: a' => (bval x =? bval y) && starts_with a' p'
  end.

Lemma key_lt_irrefl a : ~ key_lt a a.
Proof.
  unfold key_lt. induction a as [|x a IH]; cbn; [done|].
  rewrite Z.ltb_irrefl, Z.eqb_refl. done.
Qed.

Lemma key_lt_trans a b c : key_lt a b -> key_lt b c -> key_lt a c.
Proof.
  unfold key_lt. revert b c. induction a as [|x a IH]; intros [|y b] [|z c]; cbn; try done.
  rewrite !orb_true_iff, !andb_true_iff, !Z.ltb_lt, !Z.eqb_eq.
  intros [?|[? ?]] [?|[? ?]]; [left; lia..|right]. split; [lia|]. by eapply IH.
Qed.

Lemma key_lt_total a b : key_lt a b \/ a = b \/ key_lt b a.
Proof.
  unfold key_lt. revert b. induction a as [|x a IH]; intros [|y b]; cbn; auto.
  rewrite !orb_true_iff, !andb_true_iff, !Z.ltb_lt, !Z.eqb_eq.
  destruct (Z.lt_trichotomy (bval x) (bval y)) as [?|[He|?]]; [auto| |auto].
  destruct (IH b) as [?|[->|?]]; [auto| |auto].
  apply bval_inj in He as ->. auto.
Qed.

Lemma key_lt_asym a b : key_lt a b -> ~ key_lt b a.
Proof. intros H1 H2. exact (key_lt_irrefl a (key_lt_trans _ _ _ H1 H2)). Qed.

Lemma key_ltb_false a b : key_ltb a b = false <-> a = b \/ key_lt b a.
Proof.
  split.
  - intros H. destruct (key_lt_total a b) as [?|?]; [|done]. unfold key_lt in *. congruence.
  - intros [->|H]; apply not_true_is_false; [apply key_lt_irrefl|by apply key_lt_asym].
Qed.

Lemma key_ltb_refl a : key_ltb a a = false.
Proof. apply key_ltb_false. by left. Qed.

Lemma key_leb_true a b : key_leb a b = true <-> a = b \/ key_lt a b.
Proof. unfold key_leb. rewrite negb_true_iff, key_ltb_false. naive_solver. Qed.

Lemma starts_with_spec a p : starts_with a p = true <-> exists r, a = p ++ r.
Proof.
  revert a. induction p as [|y p IH]; intros [|x a]; cbn.
  - split; [by exists []|done].
  - split; [by exists (x :: a)|done].
  - split; [done|by intros [r ?]].
  - rewrite andb_true_iff, Z.eqb_eq, IH. split.
    + intros [He%bval_inj [r ->]]. subst. by exists r.
    + intros [r [= -> ->]]. split; [done|by exists r].
Qed.

(** The keys under a prefix start at the prefix and lie together. *)
Lemma prefix_le_key p r : key_ltb (p ++ r) p = false.
Proof.
  induction p as [|x p IH]; cbn; [by destruct r|].
  by rewrite Z.ltb_irrefl, Z.eqb_refl, IH.
Qed.

Lemma prefix_convex p a b :
  key_ltb a p = false -> key_lt a b -> starts_with b p = true -> starts_with a p = true.
Proof.
  unfold key_lt. revert a b. induction p as [|y p IH]; intros [|x a] [|z b]; cbn; try done.
  rewrite orb_false_iff, orb_true_iff, !andb_true_iff, andb_false_iff.
  rewrite !Z.ltb_ge, !Z.ltb_lt, !Z.eqb_eq, !Z.eqb_neq.
  intros [? H] H2 [? ?]. destruct H2 as [?|[? ?]]; [lia|].
  destruct H as [?|?]; [lia|]. split; [lia|]. by eapply IH.
Qed.

Section map.
Context {A : Type}.

(** [BTreeMap<Vec<u8>, A>]: its entries in key order. *)
Definition btree : Type := list (bytes * A).

Fixpoint bt_get (m : btree) (k : bytes) : option A :=
  match m with
  | [] => None
  | (k', v) :: m' =>
    if key_ltb k k' then None else if key_ltb k' k then bt_get m' k else Some v
  end.

Fixpoint bt_insert (m : btree) (k : bytes) (v : A) : btree :=
  match m with
  | [] => [(k, v)]
  | (k', v') :: m' =>
    if key_ltb k k' then (k, v) :: m
    else if key_ltb k' k then (k', v') :: bt_insert m' k v
    else (k, v) :: m'
  end.

Fixpoint bt_remove (m : btree) (k : bytes) : btree :=
  match m with
  | [] => []
  | (k', v') :: m' =>
    if key_ltb k k' then m
    else if key_ltb k' k then (k', v') :: bt_remove m' k
    else m'
  end.

(** [extend]: one insert per entry, a later one over an earlier one. *)
Definition bt_extend (m : btree) (l : list (bytes * A)) : btree :=
  foldl (fun m kv => bt_insert m kv.1 kv.2) m l.

(** A strictly increasing list of entries. *)
Fixpoint sorted (m : btree) : Prop :=
  match m with
  | [] => True
  | (k, _) :: m' => Forall (fun e => key_lt k e.1) m' /\ sorted m'
  end.

Lemma sorted_get_above m k k0 :
  Forall (fun e => key_lt k0 e.1) m -> bt_get m k <> None -> key_lt k0 k.
Proof.
  induction m as [|[k' v] m IH]; cbn; [done|]. intros [H1 H2]%Forall_cons.
  destruct (key_ltb k k') eqn:E1; [done|]. destruct (key_ltb k' k) eqn:E2; [by apply IH|].
  intros _. apply key_ltb_false in E1 as [->|E1]; [done|]. unfold key_lt in *. congruence.
Qed.

Lemma get_elem m k v : sorted m -> bt_get m k = Some v <-> (k, v) ∈ m.
Proof.
  induction m as [|[k' v'] m IH]; cbn.
  { intros _. split; [done|]. by intros ?%not_elem_of_nil. }
  intros [Hall Hs]. rewrite elem_of_cons. rewrite Forall_forall in Hall.
  destruct (key_ltb k k') eqn:E1; [|destruct (key_ltb k' k) eqn:E2].
  - split; [done|]. intros [[= -> ->]|Hin].
    + by destruct (key_lt_irrefl k').
    + specialize (Hall _ Hin). by destruct (key_lt_asym _ _ E1).
  - rewrite IH by done. split; [auto|]. intros [[= -> ->]|?]; [|done].
    by destruct (key_lt_irrefl k').
  - apply key_ltb_false in E1 as [->|E1]; [|unfold key_lt in *; congruence].
    split; [intros [= ->]; by left|]. intros [[= ->]|Hin]; [done|].
    specialize (Hall _ Hin). by destruct (key_lt_irrefl k').
Qed.

Lemma sorted_insert m k v : sorted m -> sorted (bt_insert m k v).
Proof.
  induction m as [|[k' v'] m IH]; cbn; [done|]. intros [Hall Hs].
  destruct (key_ltb k k') eqn:E1; [|destruct (key_ltb k' k) eqn:E2]; cbn.
  - split_and!; [|done..]. constructor; [done|].
    eapply Forall_impl; [exact Hall|]. intros e He. by eapply key_lt_trans.
  - split; [|by apply IH]. clear IH Hs. revert Hall. induction m as [|[k2 v2] m IHm]; cbn.
    { intros _. by repeat constructor. }
    intros [? ?]%Forall_cons. cbn in *.
    destruct (key_ltb k k2); [by repeat constructor|].
    destruct (key_ltb k2 k); constructor; auto.
  - apply key_ltb_false in E1 as [->|E1]; [done|]. unfold key_lt in *. congruence.
Qed.

Lemma sorted_remove m k : sorted m -> sorted (bt_remove m k).
Proof.
  induction m as [|[k' v'] m IH]; cbn; [done|]. intros [Hall Hs].
  destruct (key_ltb k k'); [done|]. destruct (key_ltb k' k); [|done].
  split; [|by apply IH]. clear IH Hs. revert Hall. induction m as [|[k2 v2] m IHm]; cbn; [done|].
  intros [? ?]%Forall_cons. destruct (key_ltb k k2); [by constructor|].
  destruct (key_ltb k2 k); [constructor; auto|done].
Qed.

Lemma get_insert m k v k' : sorted m ->
  bt_get (bt_insert m k v) k' = if decide (k = k') then Some v else bt_get m k'.
Proof.
  induction m as [|[k0 v0] m IH]; cbn.
  { intros _. case_decide as Hd; [subst|].
    - by rewrite key_ltb_refl.
    - destruct (key_ltb k' k) eqn:E1; [done|]. destruct (key_ltb k k') eqn:E2; [done|].
      apply key_ltb_false in E1 as [->|E1]; [done|]. unfold key_lt in *. congruence. }
  intros [Hall Hs].
  destruct (key_ltb k k0) eqn:E1; [|destruct (key_ltb k0 k) eqn:E2]; cbn.
  - case_decide as Hd; [subst; by rewrite key_ltb_refl|].
    destruct (key_ltb k' k) eqn:E3.
    + by rewrite (key_lt_trans _ _ _ E3 E1 : key_ltb k' k0 = true).
    + destruct (key_ltb k k') eqn:E4; [done|].
      apply key_ltb_false in E3 as [->|E3]; [done|]. unfold key_lt in *. congruence.
  - rewrite IH by done. case_decide as Hd; [subst; by rewrite E1, E2|done].
  - apply key_ltb_false in E1 as [->|E1]; [|unfold key_lt in *; congruence].
    case_decide as Hd; [subst; by rewrite key_ltb_refl|].
    destruct (key_ltb k' k0) eqn:E3; [done|]. destruct (key_ltb k0 k') eqn:E4; [done|].
    apply key_ltb_false in E3 as [->|E3]; [done|]. unfold key_lt in *. congruence.
Qed.

Lemma get_below m k k0 : Forall (fun e => key_lt k0 e.1) m -> ~ key_lt k0 k -> bt_get m k = None.
Proof.
  intros Hall Hn. destruct (bt_get m k) eqn:E; [|done].
  destruct Hn. eapply sorted_get_above; [done|]. by rewrite E.
Qed.

Lemma get_remove m k k' : sorted m ->
  bt_get (bt_remove m k) k' = if decide (k = k') then None else bt_get m k'.
Proof.
  induction m as [|[k0 v0] m IH]; cbn; [by case_decide|]. intros [Hall Hs].
  destruct (key_ltb k k0) eqn:E1; [|destruct (key_ltb k0 k) eqn:E2]; cbn.
  - case_decide as Hd; [subst; by rewrite E1|done].
  - rewrite IH by done. case_decide as Hd; [subst; by rewrite E1, E2|done].
  - apply key_ltb_false in E1 as [->|E1]; [|unfold key_lt in *; congruence].
    case_decide as Hd.
    + subst. eapply get_below; [exact Hall|apply key_lt_irrefl].
    + destruct (key_ltb k' k0) eqn:E3.
      * eapply get_below; [exact Hall|by apply key_lt_asym].
      * destruct (key_ltb k0 k') eqn:E4; [done|].
        apply key_ltb_false in E3 as [->|E3]; [done|]. unfold key_lt in *. congruence.
Qed.

(** Lookups determine a sorted map. *)
Lemma sorted_ext m1 m2 :
  sorted m1 -> sorted m2 -> (forall k, bt_get m1 k = bt_get m2 k) -> m1 = m2.
Proof.
  revert m2. induction m1 as [|[k1 v1] m1 IH]; intros [|[k2 v2] m2] H1 H2 Hg.
  - done.
  - specialize (Hg k2). cbn in Hg. by rewrite key_ltb_refl in Hg.
  - specialize (Hg k1). cbn in Hg. by rewrite key_ltb_refl in Hg.
  - cbn in H1, H2. destruct H1 as [Ha1 Hs1], H2 as [Ha2 Hs2].
    pose proof (Hg k1) as G1. pose proof (Hg k2) as G2. cbn in G1, G2.
    rewrite key_ltb_refl in G1.
    rewrite key_ltb_refl in G2.
    assert (k1 = k2) as ->.
    { destruct (key_lt_total k1 k2) as [L|[L|L]]; [|done|].
      - by rewrite (L : key_ltb k1 k2 = true) in G1.
      - by rewrite (L : key_ltb k2 k1 = true) in G2. }
    rewrite key_ltb_refl in G1. injection G1 as ->.
    f_equal. apply IH; [done..|]. intros k. destruct (decide (key_lt k2 k)) as [L|L].
    + specialize (Hg k). cbn in Hg. rewrite (L : key_ltb k2 k = true) in Hg.
      by rewrite (proj2 (key_ltb_false k k2)) in Hg by auto.
    + by rewrite !(get_below _ k k2).
Qed.

Lemma get_cons k v m k' : Forall (fun e => key_lt k e.1) m ->
  bt_get ((k, v) :: m) k' = if decide (k = k') then Some v else bt_get m k'.
Proof.
  intros Hall. cbn. case_decide as Hd; [subst; by rewrite key_ltb_refl|].
  destruct (key_lt_total k k') as [L|[L|L]]; [|done|].
  - by rewrite (proj2 (key_ltb_false k' k) (or_intror L)), (L : key_ltb k k' = true).
  - rewrite (L : key_ltb k' k = true). symmetry. eapply get_below; [done|].
    by apply key_lt_asym.
Qed.

Lemma sorted_extend l m : sorted m -> sorted (bt_extend m l).
Proof.
  unfold bt_extend. revert m. induction l as [|[k v] l IH]; cbn; [done|].
  intros m Hs. by apply IH, sorted_insert.
Qed.

(** Extending by a sorted map: its entries over the first one's. *)
Lemma get_extend l m k : sorted m -> sorted l ->
  bt_get (bt_extend m l) k = match bt_get l k with Some v => Some v | None => bt_get m k end.
Proof.
  unfold bt_extend. revert m. induction l as [|[k' v'] l IH]; intros m Hm; [done|].
  cbn [foldl fst snd]. intros [Hall Hl]. rewrite IH by (try apply sorted_insert; done).
  rewrite get_insert, get_cons by done. case_decide as Hd; [|done]. subst.
  by rewrite (get_below _ _ _ Hall (key_lt_irrefl k)).
Qed.

(** Selecting entries by their key. *)
Lemma sorted_filter (P : bytes -> bool) m :
  sorted m -> sorted (List.filter (fun e => P e.1) m).
Proof.
  induction m as [|[k v] m IH]; cbn; [done|]. intros [Hall Hs].
  destruct (P k); cbn; [split|]; auto.
  rewrite Forall_forall in *. intros e [? _]%list_elem_of_In%filter_In.
  apply Hall. by apply list_elem_of_In.
Qed.

Lemma get_filter (P : bytes -> bool) m k : sorted m ->
  bt_get (List.filter (fun e => P e.1) m) k = if P k then bt_get m k else None.
Proof.
  induction m as [|[k' v] m IH]; [by destruct (P k)|]. intros [Hall Hs].
  pose proof (sorted_filter P ((k', v) :: m) (conj Hall Hs)) as Hsf. cbn [List.filter fst] in *.
  destruct (P k') eqn:E.
  - rewrite !get_cons, IH by (try done; by destruct Hsf). case_decide as Hd; [|done]. subst.
    by rewrite E.
  - rewrite IH, get_cons by done. case_decide; [subst; by rewrite E|done].
Qed.

Lemma sorted_app l1 l2 :
  sorted l1 -> sorted l2 -> (forall a b, a ∈ l1 -> b ∈ l2 -> key_lt a.1 b.1) -> sorted (l1 ++ l2).
Proof.
  induction l1 as [|[k v] l1 IH]; cbn; [done|]. intros [Hall Hs] Hs2 Hlt. split.
  - apply Forall_app. split; [done|]. apply Forall_forall. intros e He.
    apply (Hlt (k, v)); [left|done].
  - apply IH; [done..|]. intros. apply Hlt; [by right|done].
Qed.

Lemma sorted_app_inv l1 l2 : sorted (l1 ++ l2) ->
  sorted l1 /\ sorted l2 /\ forall a b, a ∈ l1 -> b ∈ l2 -> key_lt a.1 b.1.
Proof.
  induction l1 as [|[k v] l1 IH]; cbn.
  { intros. split_and!; [done..|]. by intros a b ?%not_elem_of_nil. }
  intros [[H1 H2]%Forall_app Hs]. destruct (IH Hs) as (?&?&H3). split_and!; [done..|].
  rewrite Forall_forall in H2. intros a b [->|Ha]%elem_of_cons Hb; [by apply H2|by apply H3].
Qed.

Lemma get_app l1 l2 k : sorted (l1 ++ l2) ->
  bt_get (l1 ++ l2) k = match bt_get l1 k with Some v => Some v | None => bt_get l2 k end.
Proof.
  induction l1 as [|[k' v] l1 IH]; [done|]. intros [Hall Hs]. cbn [app].
  rewrite !get_cons by (try done; by apply Forall_app in Hall as [? _]).
  case_decide; [done|]. by apply IH.
Qed.

(** [split_off k]: the entries below [k], and those from it on. *)
Definition bt_split_off (m : btree) (k : bytes) : btree * btree :=
  (List.filter (fun e => key_ltb e.1 k) m, List.filter (fun e => negb (key_ltb e.1 k)) m).

End map.
Arguments btree : clear implicits.

(** [std::ops::Bound] and [range]. *)
Inductive bound := Included (k : bytes) | Excluded (k : bytes) | Unbounded.

Definition above (lo : bound) (k : bytes) : bool :=
  match lo with
  | Included l => negb (key_ltb k l)
  | Excluded l => key_ltb l k
  | Unbounded => true
  end.

Definition below (hi : bound) (k : bytes) : bool :=
  match hi with
  | Included h => negb (key_ltb h k)
  | Excluded h => key_ltb k h
  | Unbounded => true
  end.

Definition bt_range {A} (m : btree A) (lo hi : bound) : btree A :=
  List.filter (fun e => above lo e.1 && below hi e.1) m.

(** [Iterator::take_while]. *)
Fixpoint take_while {A} (f : A -> bool) (l : list A) : list A :=
  match l with
  | [] => []
  | x :: l' => if f x then x :: take_while f l' else []
  end.

(** Where a scan of a prefix starts: at the prefix, or after a key. *)
Definition scan_start (prefix : bytes) (after : option bytes) : bound :=
  match after with None => Included prefix | Some a => Excluded a end.

(** The keys such a scan is for. *)
Definition in_scan (prefix : bytes) (after : option bytes) (k : bytes) : bool :=
  starts_with k prefix && match after with None => true | Some a => key_ltb a k end.

(** A cursor of the scan: nothing, or a key not below the prefix. *)
Definition cursor_ok (prefix : bytes) (after : option bytes) : Prop :=
  match after with None => True | Some a => key_ltb a prefix = false end.

Lemma cursor_in_scan prefix k : starts_with k prefix = true -> cursor_ok prefix (Some k).
Proof. intros [r ->]%starts_with_spec. apply prefix_le_key. Qed.

Lemma take_while_sorted_prefix {A} (l : btree A) prefix :
  sorted l -> Forall (fun e => key_ltb e.1 prefix = false) l ->
  take_while (fun e => starts_with e.1 prefix) l
  = List.filter (fun e => starts_with e.1 prefix) l.
Proof.
  induction l as [|[k v] l IH]; cbn; [done|]. intros [Hall Hs] [Hk Hge]%Forall_cons.
  destruct (starts_with k prefix) eqn:E; [by rewrite IH|].
  symmetry. rewrite Forall_forall in Hall. clear IH Hge Hs.
  induction l as [|[k' v'] l IH]; cbn; [done|].
  destruct (starts_with k' prefix) eqn:E'.
  - assert (key_lt k k') as L by (apply (Hall (k', v')); left).
    cbn in Hk. by rewrite (prefix_convex _ _ _ Hk L E') in E.
  - apply IH. intros x Hx. apply Hall. by right.
Qed.

(** A range from the start of a scan, taken while it is under the prefix,
    is every entry of the scan. *)
Lemma scan_range {A} (m : btree A) prefix after : sorted m -> cursor_ok prefix after ->
  take_while (fun e => starts_with e.1 prefix) (bt_range m (scan_start prefix after) Unbounded)
  = List.filter (fun e => in_scan prefix after e.1) m.
Proof.
  intros Hs Hc. set (P := fun k => above (scan_start prefix after) k && below Unbounded k).
  change (bt_range m _ _) with (List.filter (fun e => P e.1) m).
  rewrite take_while_sorted_prefix; [|by apply (sorted_filter P)|].
  - apply sorted_ext.
    + by apply (sorted_filter (fun k => starts_with k prefix)), (sorted_filter P).
    + by apply (sorted_filter (in_scan prefix after)).
    + intros k. rewrite (get_filter (fun k => starts_with k prefix))
        by (by apply (sorted_filter P)).
      rewrite (get_filter P), (get_filter (in_scan prefix after)) by done.
      unfold P, in_scan. destruct (starts_with k prefix) eqn:E; [|done].
      cbn. rewrite andb_true_r. destruct after; cbn; [done|].
      apply starts_with_spec in E as [r ->]. by rewrite prefix_le_key.
  - apply Forall_forall. intros e [_ He]%list_elem_of_In%filter_In. unfold P in He.
    rewrite andb_true_r in He. destruct after as [a|]; cbn in *.
    + apply key_ltb_false. apply key_ltb_false in Hc as [->|L]; [by right|].
      right. by eapply key_lt_trans.
    + by apply negb_true_iff.
Qed.

Create HintDb ordmap.
#[export] Hint Resolve sorted_insert sorted_remove sorted_extend sorted_filter : ordmap.

End OrdMap.
