(* ===== verification/DiskIndex.v ===== *)
(** * The OSD's metadata index

    Models [crates/storage/src/metadata/disk_index.rs]: recent changes in
    memtables (an active one, and one a checkpoint is writing), the rest in a
    redb file of three tables (entries, the tails of split values, the
    checkpoint's LSN). The memtables are shared ([Arc]), so they live in a
    store by identity and the index holds which are active and frozen. redb
    is a parameter ([Redb]) with its documented behaviour: ordered tables,
    and write transactions that commit whole.

    [contents] is what the index promises: one ordered map. Reads ([get],
    [for_each_prefix] through the windows of [Overlay], [snapshot], [len])
    are proved to read it, changes to change it, and a checkpoint
    ([freeze], [flush_frozen]) to leave it alone while it moves it to the
    file. *)
From stdpp Require Import base list option tactics gmap.
From S2P Require Import Prelude Bytes OrdMap.

Local Open Scope Z_scope.

Module DiskIndex.
Import OrdMap.

(** ** redb *)

(** A table of byte keys and values, as the index uses redb's: what it holds
    is an ordered map ([t_contents]), and each operation is that map's. *)
Class Redb := {
  table : Type;
  t_contents : table -> btree bytes;
  t_empty : table;
  t_get : table -> bytes -> option bytes;
  t_insert : table -> bytes -> bytes -> table;
  t_remove : table -> bytes -> table;
  t_range : table -> bound -> bound -> list (bytes * bytes);
  t_len : table -> Z;
  t_sorted : forall t, sorted (t_contents t);
  t_empty_spec : t_contents t_empty = [];
  t_get_spec : forall t k, t_get t k = bt_get (t_contents t) k;
  t_insert_spec : forall t k v, t_contents (t_insert t k v) = bt_insert (t_contents t) k v;
  t_remove_spec : forall t k, t_contents (t_remove t k) = bt_remove (t_contents t) k;
  t_range_spec : forall t lo hi, t_range t lo hi = bt_range (t_contents t) lo hi;
  t_len_spec : forall t, t_len t = lenZ (t_contents t);
}.

(** An ordered map is such a table. *)
#[refine] Instance MapRedb : Redb := {|
  table := { m : btree bytes | sorted m };
  t_contents t := `t;
  t_empty := exist _ [] I;
  t_get t k := bt_get (`t) k;
  t_insert t k v := exist _ (bt_insert (`t) k v) (sorted_insert _ k v (proj2_sig t));
  t_remove t k := exist _ (bt_remove (`t) k) (sorted_remove _ k (proj2_sig t));
  t_range t lo hi := bt_range (`t) lo hi;
  t_len t := lenZ (`t);
|}.
Proof. all: try done. by intros [m ?]. Defined.

(** ** Values split over a page *)

(** [usize::next_power_of_two], [usize::is_power_of_two]. *)
Definition next_power_of_two (n : Z) : Z := 2 ^ Z.log2_up n.
Definition is_power_of_two (n : Z) : bool := (0 <? n) && (n =? 2 ^ Z.log2 n).

Definition slack (key : bytes) : Z := lenZ key + 64.

Definition TAIL_MAX : Z := 1024.

(** The subtraction wraps: a key longer than the page makes [first] larger
    than any length. *)
Definition split_at (key : bytes) (len : Z) : option Z :=
  let page := next_power_of_two (len + slack key) / 2 in
  if page <? 4096 then None
  else
    let first := wsub64 page (slack key) in
    if (first <? len) && (len - first <=? TAIL_MAX) then Some first else None.

Definition may_be_split (key : bytes) (len : Z) : bool :=
  let full := len + slack key in
  (4096 <=? full) && is_power_of_two full.

Section index.
Context {redb : Redb}.

Definition whole (tails : table) (key value : bytes) : bytes :=
  if may_be_split key (lenZ value) then
    match t_get tails key with
    | Some rest => value ++ rest
    | None => value
    end
  else value.

(** ** Memtables *)

(** [Memtable]: changes not yet in the file, [None] a delete; and their size. *)
Record memtable := mk_memtable {
  map : btree (option bytes);
  mbytes : Z;
}.

Definition new_memtable : memtable := mk_memtable [] 0.

(** [Memtable::set]; the size is an atomic counter, which wraps. *)
Definition set (t : memtable) (key : bytes) (value : option bytes) : memtable :=
  let size := lenZ key + match value with Some v => lenZ v | None => 0 end + 64 in
  mk_memtable (bt_insert (map t) key value) (wadd64 (mbytes t) size).

Definition change : Type := bytes * option bytes.

(** [Memtable::range]. *)
Definition range (t : memtable) (prefix : bytes) (after : option bytes) (limit : nat)
  : list change * bool :=
  let r := take_while (fun e => starts_with e.1 prefix)
             (bt_range (map t) (scan_start prefix after) Unbounded) in
  let out := take limit r in
  let rest := drop limit r in
  (out, (length out <? limit)%nat || match rest with [] => true | _ => false end).

(** ** The memtables' entries, a window at a time *)

Record overlay := mk_overlay {
  otables : list memtable;
  oprefix : bytes;
  oafter : option bytes;
  window : list change;
  done : bool;
}.

Definition WINDOW : nat := Z.to_nat 1024.

Definition overlay_new (ts : list memtable) (prefix : bytes) (after : option bytes) : overlay :=
  mk_overlay ts prefix after [] false.

(** The loop of [Overlay::fill] over the memtables: the merged entries and
    the first key past which one was cut short. *)
Definition fill_step (prefix : bytes) (after : option bytes)
    (acc : btree (option bytes) * option bytes) (t : memtable)
  : btree (option bytes) * option bytes :=
  let '(merged, upto) := acc in
  let '(entries, all) := range t prefix after WINDOW in
  let upto' :=
    if negb all then
      match last entries with
      | Some (lst, _) =>
        match upto with
        | None => Some lst
        | Some u => if key_ltb lst u then Some lst else upto
        end
      | None => upto
      end
    else upto in
  (bt_extend merged entries, upto').

Definition fill (o : overlay) : overlay :=
  let '(merged, upto) :=
    foldl (fill_step (oprefix o) (oafter o)) ([], None) (otables o) in
  let merged :=
    match upto with
    | Some u =>
      let '(kept, later) := bt_split_off merged u in
      match bt_get later u with
      | Some v => bt_insert kept u v
      | None => kept
      end
    | None => merged
    end in
  mk_overlay (otables o) (oprefix o) upto merged
    match upto with None => true | Some _ => false end.

(** [Overlay::next]. A filled window is empty only when nothing is left, so
    the loop fills at most once more. *)
Fixpoint overlay_loop (fuel : nat) (o : overlay) : option change * overlay :=
  match window o with
  | e :: w => (Some e, mk_overlay (otables o) (oprefix o) (oafter o) w (done o))
  | [] =>
    if done o then (None, o)
    else match fuel with
         | O => (None, o)
         | S fuel' => overlay_loop fuel' (fill o)
         end
  end.

Definition overlay_next (o : overlay) : option change * overlay := overlay_loop 1 o.

(** Every entry the iterator yields, called [n] times. *)
Fixpoint overlay_collect (n : nat) (o : overlay) : list change :=
  match n with
  | O => []
  | S n' =>
    match overlay_next o with
    | (Some e, o') => e :: overlay_collect n' o'
    | (None, _) => []
    end
  end.

(** ** The index *)

(** The file's three tables; [db_lsn] is [STATE]'s entry, [None] before the
    first checkpoint. *)
Record db := mk_db {
  db_entries : table;
  db_tails : table;
  db_lsn : option Z;
}.

(** [DiskIndex]: the file, the memtables by identity, and which of them are
    active and frozen. *)
Record index := mk_index {
  file : db;
  mems : gmap nat memtable;
  active : nat;
  frozen : option nat;
}.

Definition mem_at (ms : gmap nat memtable) (i : nat) : memtable := default new_memtable (ms !! i).

(** [DiskIndex::open] on the file [d]; a new one has empty tables. *)
Definition new_db : db := mk_db t_empty t_empty None.
Definition open (d : db) : index := mk_index d {[0%nat := new_memtable]} 0 None.

Definition checkpoint_lsn (ix : index) : Z := default 0 (db_lsn (file ix)).

(** [put] and [delete]: [set] on the active memtable. *)
Definition set_active (ix : index) (key : bytes) (value : option bytes) : index :=
  mk_index (file ix) (<[active ix := set (mem_at (mems ix) (active ix)) key value]> (mems ix))
    (active ix) (frozen ix).

Definition put (ix : index) (key value : bytes) : index := set_active ix key (Some value).
Definition delete (ix : index) (key : bytes) : index := set_active ix key None.

Definition memtable_bytes (ix : index) : Z := mbytes (mem_at (mems ix) (active ix)).

(** [memtables]: the handles a reader takes. *)
Definition memtables (ix : index) : nat * option nat := (active ix, frozen ix).

(** The three reads of [get], each of the state it runs in: the active
    memtable's and the frozen one's by the handles taken, then the file. *)
Definition mem_get (ms : gmap nat memtable) (h : nat) (key : bytes) : option (option bytes) :=
  bt_get (map (mem_at ms h)) key.

Definition file_get (d : db) (key : bytes) : option bytes :=
  v ← t_get (db_entries d) key; Some (whole (db_tails d) key v).

Definition get_reads (in_active in_frozen : option (option bytes)) (in_file : option bytes)
  : option bytes :=
  match in_active with
  | Some v => v
  | None => match in_frozen with
            | Some v => v
            | None => in_file
            end
  end.

(** [get], when nothing runs beside it. *)
Definition get (ix : index) (key : bytes) : option bytes :=
  let '(a, f) := memtables ix in
  get_reads (mem_get (mems ix) a key) (f ← f; mem_get (mems ix) f key) (file_get (file ix) key).

(** The merge of [for_each_prefix] and [Snapshot::for_each]: the file's
    entries and the memtables', both in key order, the memtables' over the
    file's; [f] is called on each entry until it returns false. *)
Fixpoint merge_loop {S} (fuel : nat) (tails : table) (f : S -> bytes -> bytes -> S * bool)
    (fl : list (bytes * bytes)) (mem : list change) (s : S) : S :=
  match fuel with
  | O => s
  | Datatypes.S fuel' =>
    let take_mem :=
      match fl, mem with
      | [], [] => None
      | _ :: _, [] => Some false
      | [], _ :: _ => Some true
      | (fk, _) :: _, (mk, _) :: _ => Some (key_leb mk fk)
      end in
    match take_mem, fl, mem with
    | Some true, _, (k, v) :: mem' =>
      let fl' :=
        match fl with
        | (fk, _) :: rest => if decide (fk = k) then rest else fl
        | [] => fl
        end in
      match v with
      | Some v =>
        let '(s', more) := f s k v in
        if more then merge_loop fuel' tails f fl' mem' s' else s'
      | None => merge_loop fuel' tails f fl' mem' s
      end
    | Some false, (k, v) :: fl', _ =>
      let '(s', more) := f s k (whole tails k v) in
      if more then merge_loop fuel' tails f fl' mem s' else s'
    | _, _, _ => s
    end
  end.

(** [map_while(|r| r.ok())]: an iterator of the file gives its entries up to
    a read that fails, if one does, and then ends. *)
Definition until_error {A} (fails : option nat) (l : list A) : list A :=
  match fails with Some n => take n l | None => l end.

(** Enough for a memtable iterator: each call but the last yields an entry. *)
Definition overlay_fuel (ts : list memtable) : nat :=
  Datatypes.S (sum_list_with (fun t => length (map t)) ts).

Definition for_each_prefix {S} (fails : option nat) (ix : index) (prefix : bytes)
    (after : option bytes) (f : S -> bytes -> bytes -> S * bool) (s : S) : S :=
  let '(a, fz) := memtables ix in
  let ts := option_list (mem_at (mems ix) <$> fz) ++ [mem_at (mems ix) a] in
  let mem := overlay_collect (overlay_fuel ts) (overlay_new ts prefix after) in
  let fl := take_while (fun e => starts_with e.1 prefix)
              (until_error fails (t_range (db_entries (file ix)) (scan_start prefix after) Unbounded)) in
  merge_loop (length fl + length mem) (db_tails (file ix)) f fl mem s.

(** [scan_prefix]. *)
Definition collect (s : list (bytes * bytes)) (k v : bytes) : list (bytes * bytes) * bool :=
  (s ++ [(k, v)], true).

Definition scan_prefix (fails : option nat) (ix : index) (prefix : bytes) : list (bytes * bytes) :=
  for_each_prefix fails ix prefix None collect [].

(** [Snapshot]. *)
Record snap := mk_snap {
  s_entries : table;
  s_tails : table;
  s_mem : btree (option bytes);
  s_from : bytes;
  s_below : bytes;
}.

Definition snapshot (ix : index) (from below : bytes) : snap :=
  let ts := option_list (mem_at (mems ix) <$> frozen ix) ++ [mem_at (mems ix) (active ix)] in
  let mem := foldl (fun m t => bt_extend m (bt_range (map t) (Included from) (Excluded below))) [] ts in
  mk_snap (db_entries (file ix)) (db_tails (file ix)) mem from below.

Definition snap_for_each {S} (fails : option nat) (sn : snap) (f : S -> bytes -> bytes -> S * bool)
    (s : S) : S :=
  let fl := until_error fails (t_range (s_entries sn) (Included (s_from sn)) (Excluded (s_below sn))) in
  merge_loop (length fl + length (s_mem sn)) (s_tails sn) f fl (s_mem sn) s.

(** [len]. *)
Definition count_one (entries : table) (n : Z) (kp : bytes * bool) : Z :=
  let '(k, present) := kp in
  let in_file := bool_decide (is_Some (t_get entries k)) in
  match present, in_file with
  | true, false => n + 1
  | false, true => n - 1
  | _, _ => n
  end.

Definition len (ix : index) : Z :=
  let '(a, fz) := memtables ix in
  let ts := option_list (mem_at (mems ix) <$> fz) ++ [mem_at (mems ix) a] in
  let ov := foldl (fun o t =>
              foldl (fun o kv => bt_insert o kv.1 (bool_decide (is_Some kv.2))) o (map t)) [] ts in
  foldl (count_one (db_entries (file ix))) (t_len (db_entries (file ix))) ov.

(** ** Checkpoints *)

Definition freeze (ix : index) : index * bool :=
  match frozen ix with
  | Some _ => (ix, false)
  | None =>
    let new := fresh (dom (mems ix)) in
    (mk_index (file ix) (<[new := new_memtable]> (mems ix)) new (Some (active ix)), true)
  end.

(** One entry of the frozen memtable, in [flush_frozen]'s transaction. *)
Definition flush_one (et : table * table) (kv : change) : table * table :=
  let '(entries, tails) := et in
  let '(k, v) := kv in
  let tails := t_remove tails k in
  match v with
  | Some v =>
    match split_at k (lenZ v) with
    | Some at_ =>
      (t_insert entries k (take (Z.to_nat at_) v), t_insert tails k (drop (Z.to_nat at_) v))
    | None => (t_insert entries k v, tails)
    end
  | None => (t_remove entries k, tails)
  end.

Definition flush_db (d : db) (m : btree (option bytes)) (lsn : Z) : db :=
  let '(entries, tails) := foldl flush_one (db_entries d, db_tails d) m in
  mk_db entries tails (Some lsn).

(** [flush_frozen], in its two steps: the commit, and letting the memtable
    go. [commits] is whether the transaction committed. *)
Definition flush_commit (ix : index) (lsn : Z) : index :=
  match frozen ix with
  | Some fz => mk_index (flush_db (file ix) (map (mem_at (mems ix) fz)) lsn)
                 (mems ix) (active ix) (frozen ix)
  | None => ix
  end.

Definition let_go (ix : index) : index := mk_index (file ix) (mems ix) (active ix) None.

Definition flush_frozen (ix : index) (lsn : Z) (commits : bool) : index * bool :=
  match frozen ix with
  | None => (ix, true)
  | Some _ => if commits then (let_go (flush_commit ix lsn), true) else (ix, false)
  end.

Definition has_frozen (ix : index) : bool := bool_decide (is_Some (frozen ix)).

(** [apply_entry]: a change replayed from the log. *)
Definition apply_entry (ix : index) (e : change) : index := set_active ix e.1 e.2.

(** ** What the index holds *)

(** The file's entries, whole. *)
Definition file_map (d : db) : btree bytes :=
  fmap (fun e => (e.1, whole (db_tails d) e.1 e.2)) (t_contents (db_entries d)).

Definition apply_change (m : btree bytes) (e : change) : btree bytes :=
  match e.2 with Some v => bt_insert m e.1 v | None => bt_remove m e.1 end.

(** A map with changes applied to it, in their order. *)
Definition overlaid (m : btree bytes) (l : list change) : btree bytes := foldl apply_change m l.

Definition frozen_map (ix : index) : btree (option bytes) :=
  match frozen ix with Some f => map (mem_at (mems ix) f) | None => [] end.
Definition active_map (ix : index) : btree (option bytes) := map (mem_at (mems ix) (active ix)).

Definition contents (ix : index) : btree bytes :=
  overlaid (overlaid (file_map (file ix)) (frozen_map ix)) (active_map ix).

(** The size of an entry, which [set] computes, is a [usize]. *)
Definition fits (e : change) : Prop :=
  lenZ e.1 + match e.2 with Some v => lenZ v | None => 0 end + 64 < two64.

Definition mem_wf (t : memtable) : Prop := sorted (map t) /\ Forall fits (map t).

Record wf (ix : index) : Prop := {
  wf_mems : forall i t, mems ix !! i = Some t -> mem_wf t;
  wf_active : active ix ∈ dom (mems ix);
  wf_frozen : forall f, frozen ix = Some f -> f ∈ dom (mems ix) /\ f <> active ix;
}.

#[local] Hint Resolve t_sorted : ordmap.

(** ** Split values *)

Lemma next_power_of_two_half n :
  1 < n -> let page := next_power_of_two n / 2 in
  page < n <= 2 * page /\ exists e, 0 <= e /\ page = 2 ^ e.
Proof.
  intros Hn. cbn. unfold next_power_of_two.
  pose proof (Z.log2_up_spec n Hn) as [H1 H2]. pose proof (Z.log2_up_pos n Hn).
  assert (2 ^ Z.log2_up n / 2 = 2 ^ (Z.log2_up n - 1)) as ->.
  { replace (Z.log2_up n) with (Z.log2_up n - 1 + 1) at 1 by lia.
    rewrite Z.pow_add_r by lia. by apply Z.div_mul. }
  rewrite <- Z.sub_1_r in H1. split; [split; [done|]|exists (Z.log2_up n - 1); lia].
  replace (Z.log2_up n) with (Z.log2_up n - 1 + 1) in H2 by lia.
  rewrite Z.pow_add_r in H2 by lia. lia.
Qed.

(** A split leaves a first part that fills its page, and a rest. *)
Lemma split_at_some key len first :
  0 <= len -> len + slack key < two64 -> split_at key len = Some first ->
  0 <= first < len /\ len - first <= TAIL_MAX /\ may_be_split key first = true.
Proof.
  intros Hl Hfit. unfold split_at, slack, may_be_split in *. pose proof (lenZ_nonneg key).
  destruct (next_power_of_two_half (len + (lenZ key + 64)) ltac:(lia)) as [[H1 H2] (e & He & Hpage)].
  set (page := next_power_of_two (len + (lenZ key + 64)) / 2) in *.
  destruct (page <? 4096) eqn:C0; [done|]. destruct (_ && _) eqn:C; [|done]. intros [= <-].
  apply andb_true_iff in C as [C1 C2]. bool_to_prop. unfold wsub64, wrap64 in *.
  assert (0 <= page - (lenZ key + 64)) as Hge.
  { destruct (decide (0 <= page - (lenZ key + 64))) as [?|Hn]; [done|].
    rewrite <- (Z.mod_unique_pos (page - (lenZ key + 64)) two64 (-1)
                  (page - (lenZ key + 64) + two64)) in C1 by lia. lia. }
  unfold slack in *. rewrite Z.mod_small in * by lia.
  replace (page - (lenZ key + 64) + (lenZ key + 64)) with page by lia.
  split_and!; [lia..|]. unfold is_power_of_two.
  rewrite Hpage, Z.log2_pow2, Z.eqb_refl by lia. rewrite <- Hpage.
  rewrite !andb_true_iff. split_and!; [apply Z.leb_le; lia|apply Z.ltb_lt; lia|done].
Qed.

(** ** The file as a map *)

Lemma sorted_fmap {A B} (g : bytes * A -> B) (m : btree A) :
  sorted m -> sorted (fmap (fun e => (e.1, g e)) m).
Proof.
  induction m as [|[k v] m IH]; cbn; [done|]. intros [Hall Hs]. split; [|by apply IH].
  apply Forall_fmap. eapply Forall_impl; [exact Hall|done].
Qed.

Lemma get_fmap {A B} (g : bytes * A -> B) (m : btree A) k : sorted m ->
  bt_get (fmap (fun e => (e.1, g e)) m) k = (fun v => g (k, v)) <$> bt_get m k.
Proof.
  intros Hs. induction m as [|[k' v] m IH]; [done|]. cbn [fmap list_fmap fst].
  pose proof (sorted_fmap g _ Hs) as [Ha' _]. destruct Hs as [Hall Hs].
  rewrite !get_cons by done. case_decide; [by subst|by apply IH].
Qed.

Lemma file_map_sorted d : sorted (file_map d).
Proof. apply (sorted_fmap (fun e => whole (db_tails d) e.1 e.2)), t_sorted. Qed.

Lemma get_file_map d k : bt_get (file_map d) k = file_get d k.
Proof.
  unfold file_map, file_get. rewrite (get_fmap (fun e => whole (db_tails d) e.1 e.2)), t_get_spec
    by apply t_sorted. by destruct (bt_get _ k).
Qed.

Lemma sorted_overlaid m l : sorted m -> sorted (overlaid m l).
Proof.
  unfold overlaid. revert m. induction l as [|[k [v|]] l IH]; cbn; [done|..]; intros m Hm;
    apply IH; cbn; auto using sorted_insert, sorted_remove.
Qed.

Lemma get_apply_change m e k : sorted m ->
  bt_get (apply_change m e) k = if decide (e.1 = k) then e.2 else bt_get m k.
Proof.
  intros Hm. unfold apply_change. destruct e as [k' [v|]]; cbn.
  - by rewrite get_insert.
  - by rewrite get_remove.
Qed.

Lemma get_overlaid m l k : sorted m -> sorted l ->
  bt_get (overlaid m l) k = match bt_get l k with Some v => v | None => bt_get m k end.
Proof.
  unfold overlaid. revert m. induction l as [|e l IH]; [done|]. intros m Hm Hl.
  destruct e as [k' v]. destruct Hl as [Hall Hl]. cbn [foldl].
  assert (sorted (apply_change m (k', v))).
  { unfold apply_change. destruct v; cbn; auto using sorted_insert, sorted_remove. }
  rewrite IH, get_apply_change, get_cons by done. cbn. case_decide; [|done].
  subst. by rewrite (get_below _ _ _ Hall (key_lt_irrefl k)).
Qed.

(** Writing one change to the two tables: what is read there afterwards. *)
Lemma file_get_flush_one et e l k : fits e ->
  file_get (mk_db (flush_one et e).1 (flush_one et e).2 l) k
  = if decide (e.1 = k) then e.2 else file_get (mk_db et.1 et.2 l) k.
Proof.
  destruct et as [en ta], e as [k' [v|]]; unfold fits, file_get, whole; cbn; intros Hf.
  - destruct (split_at k' (lenZ v)) as [at_|] eqn:E; cbn;
      rewrite !t_get_spec, !t_insert_spec, !t_remove_spec, !get_insert by auto with ordmap.
    + apply split_at_some in E as (Hat & _ & Hmay); [|apply lenZ_nonneg|unfold slack; lia].
      rewrite get_remove by auto with ordmap.
      case_decide as Hd; [|done]. subst. cbn.
      assert (lenZ (take (Z.to_nat at_) v) = at_) as ->
        by (unfold lenZ in *; rewrite length_take; lia).
      by rewrite Hmay, take_drop.
    + rewrite get_remove by apply t_sorted. case_decide; [|done]. cbn. by case_match.
  - rewrite !t_get_spec, !t_remove_spec, !get_remove by apply t_sorted. by case_decide.
Qed.

Lemma file_get_flush m d lsn k : sorted m -> Forall fits m ->
  file_get (flush_db d m lsn) k = match bt_get m k with Some v => v | None => file_get d k end.
Proof.
  intros Hs Hf. unfold flush_db.
  assert (forall et, file_get (mk_db (foldl flush_one et m).1 (foldl flush_one et m).2 (Some lsn)) k
    = match bt_get m k with Some v => v | None => file_get (mk_db et.1 et.2 (Some lsn)) k end) as H.
  { revert Hs Hf. induction m as [|[k' v] m IH]; [done|].
    intros [Hall Hs] [Hf1 Hf]%Forall_cons et. cbn [foldl].
    rewrite IH, file_get_flush_one, get_cons by done. cbn. case_decide; [|done].
    subst. by rewrite (get_below _ _ _ Hall (key_lt_irrefl k)). }
  specialize (H (db_entries d, db_tails d)). destruct (foldl _ _ m). exact H.
Qed.

Lemma file_map_flush m d lsn : sorted m -> Forall fits m ->
  file_map (flush_db d m lsn) = overlaid (file_map d) m.
Proof.
  intros Hs Hf. apply sorted_ext; [apply file_map_sorted|apply sorted_overlaid, file_map_sorted|].
  intros k. rewrite get_overlaid, !get_file_map by (done || apply file_map_sorted).
  by apply file_get_flush.
Qed.

(** ** The overlay's windows *)

Lemma WINDOW_pos : (0 < WINDOW)%nat.
Proof. unfold WINDOW. lia. Qed.

(** The entries of memtables merged, each seen through [f], a later one's
    over an earlier one's. *)
Definition merged_by (f : memtable -> btree (option bytes)) (ts : list memtable)
  : btree (option bytes) := foldl (fun m t => bt_extend m (f t)) [] ts.

Definition merged (ts : list memtable) : btree (option bytes) := merged_by map ts.

Definition tables_ok (ts : list memtable) : Prop := Forall (fun t => sorted (map t)) ts.

(** The entries of one memtable a scan is for. *)
Definition scanned (prefix : bytes) (after : option bytes) (t : memtable) : btree (option bytes) :=
  List.filter (fun e => in_scan prefix after e.1) (map t).

Lemma sorted_merged_by f ts : sorted (merged_by f ts).
Proof.
  unfold merged_by. induction ts as [|t ts IH] using rev_ind; [done|].
  rewrite foldl_app. cbn. by apply sorted_extend.
Qed.

Lemma merged_by_snoc f ts t : merged_by f (ts ++ [t]) = bt_extend (merged_by f ts) (f t).
Proof. unfold merged_by. by rewrite foldl_app. Qed.

Lemma get_merged_by_snoc f ts t k : sorted (f t) ->
  bt_get (merged_by f (ts ++ [t])) k
  = match bt_get (f t) k with Some v => Some v | None => bt_get (merged_by f ts) k end.
Proof. intros. rewrite merged_by_snoc. apply get_extend; [apply sorted_merged_by|done]. Qed.

(** Two views that agree on a key merge to the same there. *)
Lemma get_merged_by_ext f g (b : bool) ts k :
  Forall (fun t => sorted (f t)) ts -> Forall (fun t => sorted (g t)) ts ->
  (forall t, t ∈ ts -> bt_get (f t) k = if b then bt_get (g t) k else None) ->
  bt_get (merged_by f ts) k = if b then bt_get (merged_by g ts) k else None.
Proof.
  induction ts as [|t ts IH] using rev_ind; intros Hf Hg Heq; [by destruct b|].
  apply Forall_app in Hf as [Hf1 [Hf2 _]%Forall_cons], Hg as [Hg1 [Hg2 _]%Forall_cons].
  rewrite !get_merged_by_snoc, Heq, IH by (done || set_solver). by destruct b.
Qed.

Lemma merged_by_whole f g ts : (forall t, t ∈ ts -> f t = g t) -> merged_by f ts = merged_by g ts.
Proof.
  induction ts as [|t ts IH] using rev_ind; intros Heq; [done|].
  rewrite !merged_by_snoc, IH, Heq by set_solver. done.
Qed.

Lemma merged_scanned prefix after ts : tables_ok ts ->
  merged_by (scanned prefix after) ts = List.filter (fun e => in_scan prefix after e.1) (merged ts).
Proof.
  intros Hok. apply sorted_ext.
  - apply sorted_merged_by.
  - apply sorted_filter, sorted_merged_by.
  - intros k. rewrite get_filter by apply sorted_merged_by. apply get_merged_by_ext.
    + eapply Forall_impl; [exact Hok|]. intros t ?. by apply sorted_filter.
    + done.
    + intros t Ht. unfold tables_ok in Hok. rewrite Forall_forall in Hok.
      apply get_filter. by apply Hok.
Qed.

Lemma range_spec t prefix after limit : sorted (map t) -> cursor_ok prefix after ->
  (0 < limit)%nat ->
  range t prefix after limit
  = (take limit (scanned prefix after t),
     match drop limit (scanned prefix after t) with [] => true | _ => false end).
Proof.
  intros Hs Hc Hl. unfold range. rewrite scan_range by done. fold (scanned prefix after t).
  set (r := scanned prefix after t). f_equal. destruct (drop limit r) eqn:E.
  - apply orb_true_r.
  - rewrite orb_false_r. apply Nat.ltb_ge. rewrite length_take.
    assert (length (drop limit r) = Datatypes.S (length l)) as Hd by (by rewrite E).
    rewrite length_drop in Hd. lia.
Qed.

(** What [fill]'s loop leaves: [upto] is a key of a window, and what a window
    left out of its memtable comes after it. *)
Definition cut_after (prefix : bytes) (after : option bytes) (ts : list memtable)
    (upto : option bytes) : Prop :=
  match upto with
  | None => forall t, t ∈ ts -> drop WINDOW (scanned prefix after t) = []
  | Some u =>
    (exists t v, t ∈ ts /\ (u, v) ∈ take WINDOW (scanned prefix after t)) /\
    forall t e, t ∈ ts -> e ∈ drop WINDOW (scanned prefix after t) -> key_lt u e.1
  end.

(** One more memtable, cut short after [lst]. *)
Lemma cut_after_snoc prefix after ts t upto lst v :
  cut_after prefix after ts upto ->
  (lst, v) ∈ take WINDOW (scanned prefix after t) ->
  (forall e, e ∈ drop WINDOW (scanned prefix after t) -> key_lt lst e.1) ->
  cut_after prefix after (ts ++ [t])
    match upto with
    | None => Some lst
    | Some u => if key_ltb lst u then Some lst else upto
    end.
Proof.
  intros Hcut Hin Hafter.
  assert ((forall t' e, t' ∈ ts -> e ∈ drop WINDOW (scanned prefix after t') -> key_lt lst e.1) ->
          cut_after prefix after (ts ++ [t]) (Some lst)) as Hlst.
  { intros Hts. split; [exists t, v; set_solver|].
    intros t' e [?| ->%list_elem_of_singleton]%elem_of_app He; [by eapply Hts|by apply Hafter]. }
  destruct upto as [u|]; cbn in Hcut.
  - destruct Hcut as [(t0 & v0 & ? & ?) Hc]. destruct (key_ltb lst u) eqn:E.
    + apply Hlst. intros t' e Ht' He. eapply key_lt_trans; [exact E|by eapply Hc].
    + split; [exists t0, v0; set_solver|].
      intros t' e [?| ->%list_elem_of_singleton]%elem_of_app He; [by eapply Hc|].
      apply key_ltb_false in E as [->|E]; [by apply Hafter|].
      eapply key_lt_trans; [exact E|by apply Hafter].
  - apply Hlst. intros t' e Ht' He. rewrite Hcut in He by done. by apply not_elem_of_nil in He.
Qed.

Lemma fill_loop prefix after ts : tables_ok ts -> cursor_ok prefix after ->
  exists upto, foldl (fill_step prefix after) ([], None) ts
    = (merged_by (fun t => take WINDOW (scanned prefix after t)) ts, upto)
    /\ cut_after prefix after ts upto.
Proof.
  intros Hok Hc. induction ts as [|t ts IH] using rev_ind.
  { exists None. split; [done|]. cbn. by intros t ?%not_elem_of_nil. }
  apply Forall_app in Hok as [Hok [Ht _]%Forall_cons]. destruct (IH Hok) as (upto & Hf & Hcut).
  rewrite foldl_app, Hf. cbn [foldl]. unfold fill_step at 1, change.
  rewrite range_spec, merged_by_snoc by (done || apply WINDOW_pos).
  set (r := scanned prefix after t) in *. destruct (drop WINDOW r) as [|e0 rest] eqn:Ed; cbn [negb].
  - exists upto. split; [done|]. destruct upto as [u|]; cbn in *.
    + destruct Hcut as [(t0 & v & ? & ?) Hc2]. split; [exists t0, v; set_solver|].
      intros t' e [?| ->%list_elem_of_singleton]%elem_of_app He; [by eapply Hc2|].
      fold r in He. rewrite Ed in He. by apply not_elem_of_nil in He.
    + intros t' [?| ->%list_elem_of_singleton]%elem_of_app; [by apply Hcut|done].
  - assert (sorted r) as Hr by by apply sorted_filter.
    assert (take WINDOW r <> []) as Hne.
    { destruct r; [by rewrite drop_nil in Ed|]. destruct WINDOW eqn:?; [|done].
      pose proof WINDOW_pos. lia. }
    destruct (last (take WINDOW r)) as [[lst v]|] eqn:Hlast; [|by apply last_None in Hlast].
    apply last_Some in Hlast as [l' Hl].
    assert (forall e, e ∈ e0 :: rest -> key_lt lst e.1) as Hafter.
    { rewrite <- (take_drop WINDOW r) in Hr. apply sorted_app_inv in Hr as (_ & _ & Hr).
      intros e He. apply (Hr (lst, v)); [rewrite Hl; set_solver|by rewrite Ed]. }
    eexists. split; [reflexivity|]. apply cut_after_snoc with (v := v); [done|..].
    + fold r. rewrite Hl. set_solver.
    + fold r. by rewrite Ed.
Qed.

(** What the iterator has still to yield. *)
Definition remaining (o : overlay) : list change :=
  window o ++
  if done o then []
  else List.filter (fun e => in_scan (oprefix o) (oafter o) e.1) (merged (otables o)).

Definition overlay_ok (o : overlay) : Prop :=
  tables_ok (otables o) /\ cursor_ok (oprefix o) (oafter o).

Lemma get_take_window (l : btree (option bytes)) u k : sorted l ->
  (forall e, e ∈ drop WINDOW l -> key_lt u e.1) -> key_ltb u k = false ->
  bt_get (take WINDOW l) k = bt_get l k.
Proof.
  intros Hs Hd Hk. rewrite <- (take_drop WINDOW l) at 2. rewrite get_app by by rewrite take_drop.
  rewrite (get_below (drop WINDOW l) k u); [by case_match|by apply Forall_forall|].
  unfold key_lt. by rewrite Hk.
Qed.

(** The window's entries through [upto] are the scan's. *)
Lemma window_through prefix after ts u k : tables_ok ts ->
  cut_after prefix after ts (Some u) -> key_ltb u k = false ->
  bt_get (merged_by (fun t => take WINDOW (scanned prefix after t)) ts) k
  = bt_get (merged_by (scanned prefix after) ts) k.
Proof.
  intros Hok [_ Hcut] Hk. unfold tables_ok in Hok. rewrite Forall_forall in Hok.
  assert (forall t, t ∈ ts -> sorted (scanned prefix after t)) as Hsc
    by (intros; by apply sorted_filter, Hok).
  apply (get_merged_by_ext _ _ true).
  - apply Forall_forall. intros t Ht. specialize (Hsc t Ht).
    rewrite <- (take_drop WINDOW (scanned prefix after t)) in Hsc. by apply sorted_app_inv in Hsc as [? _].
  - by apply Forall_forall.
  - intros t Ht. eapply get_take_window; eauto.
Qed.

(** Splitting a scan after one of its keys. *)
Lemma scan_split prefix after u (m : btree (option bytes)) : sorted m ->
  in_scan prefix after u = true ->
  List.filter (fun e => in_scan prefix after e.1) m
  = List.filter (fun e => in_scan prefix after e.1 && key_leb e.1 u) m
    ++ List.filter (fun e => in_scan prefix (Some u) e.1) m.
Proof.
  intros Hs Hu. set (P := fun k => in_scan prefix after k && key_leb k u).
  change (List.filter (fun e => _ && _) m) with (List.filter (fun e => P e.1) m).
  assert (sorted (List.filter (fun e => P e.1) m
                  ++ List.filter (fun e => in_scan prefix (Some u) e.1) m)) as Happ.
  { apply sorted_app; [by apply sorted_filter..|]. unfold P.
    intros a b [_ Ha]%list_elem_of_In%filter_In [_ Hb]%list_elem_of_In%filter_In.
    unfold in_scan in Hb. apply andb_true_iff in Ha as [_ [->|Ha]%key_leb_true],
      Hb as [_ Hb]; [done|by eapply key_lt_trans]. }
  apply sorted_ext; [by apply sorted_filter|done|]. intros k.
  rewrite get_app, !get_filter by done. unfold P, in_scan in *.
  destruct (starts_with k prefix) eqn:Ep; [|done]. cbn.
  apply andb_true_iff in Hu as [_ Hu]. unfold key_leb.
  destruct (key_ltb u k) eqn:E; cbn; rewrite ?andb_true_r, ?andb_false_r.
  - destruct after as [a|]; [|done]. by rewrite (key_lt_trans _ _ _ Hu E : key_ltb a k = true).
  - destruct (match after with Some a => key_ltb a k | None => true end); by destruct (bt_get m k).
Qed.

(** [split_off] and the key itself put back: the entries through it. *)
Lemma split_through (m : btree (option bytes)) u : sorted m ->
  match bt_get (bt_split_off m u).2 u with
  | Some v => bt_insert (bt_split_off m u).1 u v
  | None => (bt_split_off m u).1
  end = List.filter (fun e => key_leb e.1 u) m.
Proof.
  intros Hs. unfold bt_split_off. cbn [fst snd].
  rewrite (get_filter (fun k => negb (key_ltb k u))), key_ltb_refl by done. cbn [negb].
  assert (sorted (List.filter (fun e => key_ltb e.1 u) m)) as Hl
    by by apply (sorted_filter (fun k => key_ltb k u)).
  apply sorted_ext.
  - case_match; auto using sorted_insert.
  - by apply (sorted_filter (fun k => key_leb k u)).
  - intros k. rewrite (get_filter (fun k => key_leb k u)) by done.
    unfold key_leb. destruct (bt_get m u) eqn:E.
    + rewrite get_insert, (get_filter (fun k => key_ltb k u)) by done. case_decide as Hd.
      * subst. by rewrite key_ltb_refl, E.
      * destruct (key_lt_total k u) as [L|[L|L]]; [|done|].
        -- by rewrite (proj2 (key_ltb_false u k) (or_intror L)), (L : key_ltb k u = true).
        -- by rewrite (proj2 (key_ltb_false k u) (or_intror L)), (L : key_ltb u k = true).
    + rewrite (get_filter (fun k => key_ltb k u)) by done.
      destruct (key_lt_total k u) as [L|[L|L]].
      * by rewrite (proj2 (key_ltb_false u k) (or_intror L)), (L : key_ltb k u = true).
      * subst. by rewrite key_ltb_refl, E.
      * by rewrite (proj2 (key_ltb_false k u) (or_intror L)), (L : key_ltb u k = true).
Qed.

(** The window [fill] makes when some memtable was cut short. *)
Lemma window_is_scan prefix after ts u : tables_ok ts ->
  cut_after prefix after ts (Some u) ->
  List.filter (fun e => key_leb e.1 u)
    (merged_by (fun t => take WINDOW (scanned prefix after t)) ts)
  = List.filter (fun e => in_scan prefix after e.1 && key_leb e.1 u) (merged ts).
Proof.
  intros Hok Hcut. set (P := fun k => in_scan prefix after k && key_leb k u).
  change (List.filter (fun e => _ && _) (merged ts)) with (List.filter (fun e => P e.1) (merged ts)).
  apply sorted_ext.
  - apply (sorted_filter (fun k => key_leb k u)), sorted_merged_by.
  - apply sorted_filter, sorted_merged_by.
  - intros k. rewrite (get_filter (fun k => key_leb k u)), get_filter by apply sorted_merged_by.
    unfold P. destruct (key_leb k u) eqn:E; [|by rewrite andb_false_r].
    rewrite andb_true_r. unfold key_leb in E. apply negb_true_iff in E.
    rewrite (window_through _ _ _ u), merged_scanned, get_filter by (done || apply sorted_merged_by).
    done.
Qed.

Lemma window_key_in_scan prefix after ts u : cut_after prefix after ts (Some u) ->
  in_scan prefix after u = true.
Proof.
  intros [(t & v & _ & Hin) _]. apply list_elem_of_In in Hin.
  assert (In (u, v) (scanned prefix after t)) as H.
  { rewrite <- (take_drop WINDOW (scanned prefix after t)). apply in_or_app. auto. }
  by apply filter_In in H as [_ ?].
Qed.

Lemma get_merged_by_some f ts t k :
  Forall (fun t => sorted (f t)) ts -> t ∈ ts -> bt_get (f t) k <> None ->
  bt_get (merged_by f ts) k <> None.
Proof.
  induction ts as [|t' ts IH] using rev_ind; [by intros _ ?%not_elem_of_nil|].
  intros [Hf [Hf' _]%Forall_cons]%Forall_app Hin Hg. rewrite get_merged_by_snoc by done.
  apply elem_of_app in Hin as [Hin| ->%list_elem_of_singleton].
  - destruct (bt_get (f t') k); [done|]. by apply IH.
  - by destruct (bt_get (f t') k).
Qed.

Lemma windows_sorted prefix after ts : tables_ok ts ->
  Forall (fun t => sorted (take WINDOW (scanned prefix after t))) ts.
Proof.
  intros Hok. eapply Forall_impl; [exact Hok|]. intros t Ht.
  apply (sorted_filter (in_scan prefix after)) in Ht. fold (scanned prefix after t) in Ht.
  rewrite <- (take_drop WINDOW (scanned prefix after t)) in Ht. by apply sorted_app_inv in Ht as [? _].
Qed.

Lemma window_nonempty prefix after ts u : tables_ok ts -> cut_after prefix after ts (Some u) ->
  List.filter (fun e => in_scan prefix after e.1 && key_leb e.1 u) (merged ts) <> [].
Proof.
  intros Hok Hcut Hnil. rewrite <- window_is_scan in Hnil by done.
  destruct Hcut as [(t & v & Ht & Hin) _]. pose proof (windows_sorted prefix after ts Hok) as Hw.
  pose proof (get_filter (fun k => key_leb k u)
    (merged_by (fun t => take WINDOW (scanned prefix after t)) ts) u
    (sorted_merged_by _ _)) as Hg.
  cbn beta in Hg. rewrite Hnil in Hg. unfold key_leb in Hg. rewrite key_ltb_refl in Hg. symmetry in Hg.
  revert Hg. apply (get_merged_by_some _ _ t); [done..|].
  rewrite Forall_forall in Hw. apply get_elem in Hin; [congruence|by apply Hw].
Qed.

Lemma fill_spec o : overlay_ok o -> window o = [] -> done o = false ->
  overlay_ok (fill o) /\ remaining (fill o) = remaining o
  /\ (window (fill o) = [] -> done (fill o) = true).
Proof.
  destruct o as [ts prefix after w d]. intros [Hok Hc] Hw Hd. cbn in *. subst.
  destruct (fill_loop prefix after ts Hok Hc) as (upto & Hf & Hcut).
  unfold fill, remaining, overlay_ok. cbn -[foldl in_scan bt_split_off]. rewrite Hf.
  destruct upto as [u|].
  - rewrite (surjective_pairing (bt_split_off _ u)), split_through by apply sorted_merged_by.
    rewrite window_is_scan by done. pose proof (window_key_in_scan _ _ _ _ Hcut) as Hu.
    cbn -[in_scan]. split_and!; [done| | |].
    + apply cursor_in_scan. by apply andb_true_iff in Hu as [? _].
    + symmetry. by apply scan_split; [apply sorted_merged_by|].
    + intros Hnil. by apply window_nonempty in Hnil.
  - cbn -[in_scan]. split_and!; [done..| |done]. rewrite app_nil_r.
    rewrite <- merged_scanned by done. apply merged_by_whole. intros t Ht.
    specialize (Hcut t Ht). rewrite <- (take_drop WINDOW (scanned prefix after t)) at 2.
    by rewrite Hcut, app_nil_r.
Qed.

Lemma overlay_next_spec o : overlay_ok o ->
  exists o', overlay_next o = (head (remaining o), o') /\ overlay_ok o'
    /\ remaining o' = tail (remaining o).
Proof.
  intros Hok. unfold overlay_next, overlay_loop. unfold remaining at 1 3.
  destruct (window o) as [|e w] eqn:Ew.
  2: { eexists. split; [done|]. done. }
  destruct (done o) eqn:Ed; [exists o; unfold remaining; by rewrite Ew, Ed|].
  destruct (fill_spec o Hok Ew Ed) as (Hok' & Hrem & Hnil).
  unfold remaining in Hrem at 2. rewrite Ew, Ed in Hrem. rewrite <- Hrem. unfold remaining at 1 3.
  destruct (window (fill o)) as [|e w] eqn:Ew'.
  - rewrite (Hnil eq_refl). exists (fill o). unfold remaining. by rewrite Ew', (Hnil eq_refl).
  - eexists. split; [done|]. done.
Qed.

Lemma overlay_collect_spec n o : overlay_ok o -> (length (remaining o) < n)%nat ->
  overlay_collect n o = remaining o.
Proof.
  revert o. induction n as [|n IH]; intros o Hok Hl; [lia|]. cbn [overlay_collect].
  destruct (overlay_next_spec o Hok) as (o' & -> & Hok' & Hrem).
  destruct (remaining o) as [|e r]; [done|]. cbn in *. rewrite IH, Hrem; [done..|].
  rewrite Hrem. lia.
Qed.

(** ** Merging the memtables with the file *)

(** [f] called on each entry in turn until it returns false. *)
Fixpoint run_until {S} (f : S -> bytes -> bytes -> S * bool) (s : S) (l : list (bytes * bytes)) : S :=
  match l with
  | [] => s
  | (k, v) :: l' => let '(s', more) := f s k v in if more then run_until f s' l' else s'
  end.

Lemma overlaid_cons k v m l : Forall (fun e => key_lt k e.1) l ->
  overlaid ((k, v) :: m) l = (k, v) :: overlaid m l.
Proof.
  unfold overlaid. revert m. induction l as [|[k' ov] l IH]; intros m Hl; [done|].
  apply Forall_cons in Hl as [Hk Hl]. cbn in Hk. cbn [foldl].
  replace (apply_change ((k, v) :: m) (k', ov)) with ((k, v) :: apply_change m (k', ov)).
  { by apply IH. }
  unfold apply_change. pose proof (proj2 (key_ltb_false k' k) (or_intror Hk)) as Hn.
  destruct ov; cbn; by rewrite Hn, (Hk : key_ltb k k' = true).
Qed.

(** The file's entries once the memtables' next entry is taken. *)
Definition skip_same {A} (k : bytes) (fl : list (bytes * A)) : list (bytes * A) :=
  match fl with
  | (fk, _) :: rest => if decide (fk = k) then rest else fl
  | [] => fl
  end.

Lemma apply_change_first m k ov :
  match m with (fk, _) :: _ => key_leb k fk = true | [] => True end ->
  apply_change m (k, ov) = match ov with Some v => [(k, v)] | None => [] end ++ skip_same k m.
Proof.
  unfold apply_change. destruct m as [|[fk fv] m]; [by destruct ov|].
  intros [->|H]%key_leb_true; cbn.
  - rewrite key_ltb_refl, decide_True by done. by destruct ov.
  - rewrite (H : key_ltb k fk = true), decide_False; [by destruct ov|].
    intros ->. by apply key_lt_irrefl in H.
Qed.

Definition wholes (tails : table) (fl : list (bytes * bytes)) : list (bytes * bytes) :=
  fmap (fun e => (e.1, whole tails e.1 e.2)) fl.

Lemma merge_loop_spec {S} tails (f : S -> bytes -> bytes -> S * bool) fuel fl mem s :
  sorted fl -> sorted mem -> (length fl + length mem <= fuel)%nat ->
  merge_loop fuel tails f fl mem s = run_until f s (overlaid (wholes tails fl) mem).
Proof.
  revert fl mem s. induction fuel as [|fuel IH]; intros fl mem s Hfl Hmem Hlen.
  { destruct fl, mem; cbn in Hlen; (done || lia). }
  cbn [merge_loop].
  assert (forall k v fl', fl = (k, v) :: fl' -> Forall (fun e => key_lt k e.1) mem ->
    (let '(s', more) := f s k (whole tails k v) in
     if more then merge_loop fuel tails f fl' mem s' else s')
    = run_until f s (overlaid (wholes tails fl) mem)) as Hfile.
  { intros k v fl' -> Hlt. cbn [wholes fmap list_fmap fst snd]. rewrite overlaid_cons by done.
    cbn [run_until]. destruct (f s k (whole tails k v)) as [s' []]; [|done].
    apply IH; [by destruct Hfl|done|cbn in Hlen; lia]. }
  assert (forall k ov mem', mem = (k, ov) :: mem' ->
    match fl with (fk, _) :: _ => key_leb k fk = true | [] => True end ->
    match ov with
    | Some v => let '(s', more) := f s k v in
        if more then merge_loop fuel tails f (skip_same k fl) mem' s' else s'
    | None => merge_loop fuel tails f (skip_same k fl) mem' s
    end = run_until f s (overlaid (wholes tails fl) mem)) as Hm.
  { intros k ov mem' -> Hle. destruct Hmem as [Hall Hmem].
    assert (sorted (skip_same k fl) /\ (length (skip_same k fl) <= length fl)%nat) as [Hsk Hlk].
    { destruct fl as [|[fk fv] fl]; [done|]. cbn. case_decide; [|done].
      destruct Hfl. split; [done|lia]. }
    assert (skip_same k (wholes tails fl) = wholes tails (skip_same k fl)) as Hwk.
    { destruct fl as [|[fk fv] fl]; [done|]. cbn. by case_decide. }
    change (overlaid (wholes tails fl) ((k, ov) :: mem'))
      with (overlaid (apply_change (wholes tails fl) (k, ov)) mem').
    rewrite apply_change_first, Hwk by (destruct fl as [|[] ?]; done). cbn in Hlen.
    destruct ov as [v|]; cbn [app].
    - rewrite overlaid_cons by done. cbn [run_until]. destruct (f s k v) as [s' []]; [|done].
      apply IH; [done..|lia].
    - apply IH; [done..|lia]. }
  destruct fl as [|[fk fv] fl], mem as [|[k ov] mem]; [done|..].
  - by apply (Hm k ov mem).
  - by apply Hfile.
  - destruct (key_leb k fk) eqn:E; [by apply (Hm k ov mem)|]. apply Hfile; [done|].
    unfold key_leb in E. apply negb_false_iff in E. destruct Hmem as [Hall _].
    constructor; [done|]. eapply Forall_impl; [exact Hall|]. intros e He. by eapply key_lt_trans.
Qed.

(** ** Reads *)

Definition tables_of (ix : index) : list memtable :=
  option_list (mem_at (mems ix) <$> frozen ix) ++ [mem_at (mems ix) (active ix)].

Lemma wf_at ix i : wf ix -> mem_wf (mem_at (mems ix) i).
Proof.
  intros Hwf. unfold mem_at. destruct (mems ix !! i) eqn:E; cbn; [by eapply wf_mems|].
  split; [done|constructor].
Qed.

Lemma tables_of_ok ix : wf ix -> tables_ok (tables_of ix).
Proof.
  intros Hwf. unfold tables_ok, tables_of. destruct (frozen ix); cbn;
    repeat constructor; by apply wf_at.
Qed.

Lemma frozen_map_wf ix : wf ix -> sorted (frozen_map ix) /\ Forall fits (frozen_map ix).
Proof. intros. unfold frozen_map. case_match; [by apply wf_at|done]. Qed.

Lemma contents_sorted ix : sorted (contents ix).
Proof. by apply sorted_overlaid, sorted_overlaid, file_map_sorted. Qed.

Lemma get_contents ix k : wf ix -> bt_get (contents ix) k = get ix k.
Proof.
  intros Hwf. unfold contents. destruct (frozen_map_wf ix Hwf) as [Hf _].
  rewrite !get_overlaid, get_file_map; [|by auto using sorted_overlaid, file_map_sorted..|];
    [|by apply wf_at].
  unfold get, get_reads, memtables, mem_get, active_map, frozen_map.
  case_match; [done|]. by destruct (frozen ix).
Qed.

Lemma merged_tables_of ix k : wf ix ->
  bt_get (merged (tables_of ix)) k
  = match bt_get (active_map ix) k with Some v => Some v | None => bt_get (frozen_map ix) k end.
Proof.
  intros Hwf. unfold merged, tables_of, active_map.
  rewrite get_merged_by_snoc by by apply wf_at. unfold frozen_map. case_match; [done|].
  destruct (frozen ix); [|done]. unfold merged_by. cbn. rewrite get_extend by (done || by apply wf_at).
  by case_match.
Qed.

(** What the index holds, in one layer over the file. *)
Lemma contents_merged ix : wf ix -> contents ix = overlaid (file_map (file ix)) (merged (tables_of ix)).
Proof.
  intros Hwf. apply sorted_ext; [apply contents_sorted|apply sorted_overlaid, file_map_sorted|].
  intros k. unfold contents. destruct (frozen_map_wf ix Hwf) as [Hf _].
  rewrite !get_overlaid, merged_tables_of
    by (done || apply sorted_merged_by || by apply wf_at || auto using sorted_overlaid, file_map_sorted).
  by case_match.
Qed.

(** Selecting keys commutes with the overlay. *)
Lemma overlaid_filter (P : bytes -> bool) m l : sorted m -> sorted l ->
  overlaid (List.filter (fun e => P e.1) m) (List.filter (fun e => P e.1) l)
  = List.filter (fun e => P e.1) (overlaid m l).
Proof.
  intros Hm Hl. apply sorted_ext.
  - by apply sorted_overlaid, sorted_filter.
  - by apply sorted_filter, sorted_overlaid.
  - intros k. rewrite get_overlaid, !get_filter, get_overlaid
      by auto using sorted_filter, sorted_overlaid. by destruct (P k).
Qed.

Lemma wholes_filter (P : bytes -> bool) d :
  wholes (db_tails d) (List.filter (fun e => P e.1) (t_contents (db_entries d)))
  = List.filter (fun e => P e.1) (file_map d).
Proof.
  unfold wholes, file_map. induction (t_contents (db_entries d)) as [|[k v] l IH]; cbn; [done|].
  destruct (P k); cbn; by rewrite IH.
Qed.

Lemma merge_reads {S} ix (P : bytes -> bool) (f : S -> bytes -> bytes -> S * bool) fl mem s :
  wf ix -> fl = List.filter (fun e => P e.1) (t_contents (db_entries (file ix))) ->
  mem = List.filter (fun e => P e.1) (merged (tables_of ix)) ->
  merge_loop (length fl + length mem) (db_tails (file ix)) f fl mem s
  = run_until f s (List.filter (fun e => P e.1) (contents ix)).
Proof.
  intros Hwf -> ->. rewrite merge_loop_spec;
    [|apply sorted_filter, t_sorted|apply sorted_filter, sorted_merged_by|done].
  by rewrite wholes_filter, overlaid_filter, contents_merged
    by (done || apply sorted_merged_by || apply file_map_sorted).
Qed.

Lemma length_insert_le {A} (m : btree A) k v : (length (bt_insert m k v) <= Datatypes.S (length m))%nat.
Proof. induction m as [|[k' v'] m IH]; cbn; [lia|]. repeat case_match; cbn; lia. Qed.

Lemma length_merged ts : (length (merged ts) <= sum_list_with (fun t => length (map t)) ts)%nat.
Proof.
  assert (forall (l : btree (option bytes)) m, (length (bt_extend m l) <= length m + length l)%nat) as He.
  { unfold bt_extend. induction l as [|[k v] l IH]; intros m; cbn; [lia|].
    etrans; [apply IH|]. pose proof (length_insert_le m k v). lia. }
  unfold merged. induction ts as [|t ts IH] using rev_ind; [done|].
  rewrite merged_by_snoc, sum_list_with_app. cbn. specialize (He (map t) (merged_by map ts)). lia.
Qed.

Lemma length_filter_le {A} (P : A -> bool) l : (length (List.filter P l) <= length l)%nat.
Proof. induction l; cbn; [done|]. case_match; cbn; lia. Qed.

Lemma overlay_reads ix prefix after : wf ix -> cursor_ok prefix after ->
  overlay_collect (overlay_fuel (tables_of ix)) (overlay_new (tables_of ix) prefix after)
  = List.filter (fun e => in_scan prefix after e.1) (merged (tables_of ix)).
Proof.
  intros Hwf Hc. rewrite overlay_collect_spec; [done|split; [by apply tables_of_ok|done]|].
  unfold overlay_fuel, remaining, overlay_new.
  cbn [window done oprefix oafter otables app].
  eapply Nat.lt_succ_r, Nat.le_trans; [apply length_filter_le|apply length_merged].
Qed.

Lemma for_each_prefix_spec {S} ix prefix after (f : S -> bytes -> bytes -> S * bool) s :
  wf ix -> cursor_ok prefix after ->
  for_each_prefix None ix prefix after f s
  = run_until f s (List.filter (fun e => in_scan prefix after e.1) (contents ix)).
Proof.
  intros Hwf Hc. unfold for_each_prefix, memtables, until_error. fold (tables_of ix).
  apply (merge_reads ix (in_scan prefix after)); [done| |by apply overlay_reads].
  rewrite t_range_spec. apply scan_range; [apply t_sorted|done].
Qed.

Lemma merged_ranges ix lo hi : wf ix ->
  merged_by (fun t => bt_range (map t) lo hi) (tables_of ix)
  = List.filter (fun e => above lo e.1 && below hi e.1) (merged (tables_of ix)).
Proof.
  intros Hwf. set (P := fun k => above lo k && below hi k).
  change (List.filter _ (merged (tables_of ix))) with (List.filter (fun e => P e.1) (merged (tables_of ix))).
  pose proof (tables_of_ok ix Hwf) as Hok. apply sorted_ext.
  - apply sorted_merged_by.
  - apply sorted_filter, sorted_merged_by.
  - intros k. rewrite get_filter by apply sorted_merged_by. apply get_merged_by_ext; [|done|].
    + eapply Forall_impl; [exact Hok|]. intros t. apply (sorted_filter P).
    + unfold tables_ok in Hok. rewrite Forall_forall in Hok.
      intros t Ht. apply (get_filter P). by apply Hok.
Qed.

Lemma snap_for_each_spec {S} ix from till (f : S -> bytes -> bytes -> S * bool) s : wf ix ->
  snap_for_each None (snapshot ix from till) f s
  = run_until f s (bt_range (contents ix) (Included from) (Excluded till)).
Proof.
  intros Hwf. unfold snap_for_each, snapshot, until_error. cbn [s_entries s_tails s_mem s_from s_below].
  fold (tables_of ix).
  apply (merge_reads ix (fun k => above (Included from) k && below (Excluded till) k)); [done|..].
  - by rewrite t_range_spec.
  - by apply merged_ranges.
Qed.

(** ** Changes *)

Lemma set_wf t k v : mem_wf t -> fits (k, v) -> mem_wf (set t k v).
Proof.
  intros [Hs Hf] Hkv. split; cbn; [by apply sorted_insert|].
  clear Hs. induction (map t) as [|[k' v'] m IH]; cbn; [by constructor|].
  apply Forall_cons in Hf as [? ?]. repeat case_match; repeat constructor; auto.
Qed.

Lemma set_active_wf ix k v : wf ix -> fits (k, v) -> wf (set_active ix k v).
Proof.
  intros Hwf Hf. pose proof (wf_at ix (active ix) Hwf). destruct Hwf as [H1 H2 H3].
  split; cbn.
  - intros i t. rewrite lookup_insert_Some. intros [[<- <-]|[_ ?]]; [by apply set_wf|by eapply H1].
  - set_solver.
  - intros f Hfz. destruct (H3 f Hfz). split; [set_solver|done].
Qed.

Lemma active_set ix k v : active_map (set_active ix k v) = bt_insert (active_map ix) k v.
Proof. unfold active_map, mem_at. cbn. by rewrite lookup_insert_eq. Qed.

Lemma frozen_set ix k v : wf ix -> frozen_map (set_active ix k v) = frozen_map ix.
Proof.
  intros Hwf. unfold frozen_map, mem_at. cbn. destruct (frozen ix) as [f|] eqn:E; [|done].
  destruct (wf_frozen ix Hwf f E). by rewrite lookup_insert_ne.
Qed.

Lemma contents_set ix k v : wf ix -> fits (k, v) ->
  contents (set_active ix k v) = apply_change (contents ix) (k, v).
Proof.
  intros Hwf Hf. pose proof (wf_at ix (active ix) Hwf) as [Ha _].
  destruct (frozen_map_wf ix Hwf) as [Hz _]. fold (active_map ix) in Ha.
  pose proof (contents_sorted ix). apply sorted_ext; [apply contents_sorted|..].
  { unfold apply_change. destruct v; cbn; auto with ordmap. }
  intros k'. rewrite get_apply_change by done. unfold contents.
  rewrite frozen_set, active_set by done. cbn [file set_active].
  rewrite !get_overlaid, get_insert by (auto using sorted_insert, sorted_overlaid, file_map_sorted).
  cbn [fst snd]. by case_decide.
Qed.

Lemma fresh_new ix : fresh (dom (mems ix)) ∉ dom (mems ix).
Proof. apply is_fresh. Qed.

Lemma freeze_wf ix : wf ix -> wf (freeze ix).1.
Proof.
  intros Hwf. unfold freeze. destruct (frozen ix) eqn:E; [done|]. destruct Hwf as [H1 H2 H3].
  pose proof (fresh_new ix). split; cbn.
  - intros i t. rewrite lookup_insert_Some. intros [[_ <-]|[_ ?]]; [|by eapply H1].
    split; [done|constructor].
  - set_solver.
  - intros f [= <-]. split; [set_solver|]. intros Heq. by rewrite Heq in H2.
Qed.

(** A new checkpoint's memtable is the active one as it was. *)
Lemma freeze_maps ix : wf ix -> frozen ix = None ->
  frozen_map (freeze ix).1 = active_map ix /\ active_map (freeze ix).1 = [].
Proof.
  intros Hwf E. pose proof (fresh_new ix) as Hn. pose proof (wf_active ix Hwf) as Ha.
  unfold freeze. rewrite E. unfold frozen_map, active_map, mem_at. cbn.
  rewrite lookup_insert_eq, lookup_insert_ne by (intros Heq; by rewrite Heq in Hn). done.
Qed.

Lemma contents_freeze ix : wf ix -> contents (freeze ix).1 = contents ix.
Proof.
  intros Hwf. destruct (frozen ix) eqn:E; [unfold freeze; by rewrite E|].
  destruct (freeze_maps ix Hwf E) as [Hf Ha]. unfold contents. rewrite Hf, Ha.
  unfold freeze, frozen_map. by rewrite E.
Qed.

Lemma flush_commit_wf ix lsn : wf ix -> wf (flush_commit ix lsn).
Proof. intros [H1 H2 H3]. unfold flush_commit. destruct (frozen ix) eqn:E; split; cbn; rewrite ?E; auto. Qed.

Lemma let_go_wf ix : wf ix -> wf (let_go ix).
Proof. intros [H1 H2 H3]. by split. Qed.

Lemma file_flush_commit ix lsn : wf ix ->
  file_map (file (flush_commit ix lsn)) = overlaid (file_map (file ix)) (frozen_map ix).
Proof.
  intros Hwf. destruct (frozen_map_wf ix Hwf) as [Hs Hf]. unfold flush_commit, frozen_map in *.
  destruct (frozen ix); [|done]. by apply file_map_flush.
Qed.

Lemma overlaid_twice m l : sorted m -> sorted l -> overlaid (overlaid m l) l = overlaid m l.
Proof.
  intros Hm Hl. apply sorted_ext; [by auto using sorted_overlaid..|].
  intros k. rewrite !get_overlaid by auto using sorted_overlaid. by case_match.
Qed.

(** The commit leaves the reads as they were, and so does letting go. *)
Lemma contents_flush_commit ix lsn : wf ix -> contents (flush_commit ix lsn) = contents ix.
Proof.
  intros Hwf. destruct (frozen_map_wf ix Hwf) as [Hs _]. unfold contents.
  rewrite file_flush_commit by done.
  assert (frozen_map (flush_commit ix lsn) = frozen_map ix /\
          active_map (flush_commit ix lsn) = active_map ix) as [-> ->]
    by (unfold flush_commit, frozen_map; by destruct (frozen ix) eqn:E; cbn; rewrite ?E).
  by rewrite overlaid_twice by (done || apply file_map_sorted).
Qed.

Lemma contents_flushed ix lsn : wf ix -> contents (let_go (flush_commit ix lsn)) = contents ix.
Proof.
  intros Hwf. unfold contents. change (file (let_go ?x)) with (file x).
  rewrite file_flush_commit by done. change (frozen_map (let_go ?x)) with (@nil change). cbn.
  unfold flush_commit, frozen_map. by destruct (frozen ix).
Qed.

Lemma flush_frozen_spec ix lsn commits : wf ix ->
  wf (flush_frozen ix lsn commits).1 /\ contents (flush_frozen ix lsn commits).1 = contents ix.
Proof.
  intros Hwf. unfold flush_frozen. destruct (frozen ix) eqn:E; [|done]. destruct commits; [|done].
  split; [by apply let_go_wf, flush_commit_wf|by apply contents_flushed].
Qed.

End index.
End DiskIndex.
