(* ===== verification/DiskIndexSpec.v ===== *)
(** * What the metadata index promises its readers

    Theorems on the model of [DiskIndex]: every read is a read of the one
    ordered map the index holds ([reads_contents]), paging through a prefix
    ([PrefixIter] of [crates/storage/src/metadata/index.rs]) yields each of
    its entries once and in order ([paged_scan_whole]), and a [get] that runs
    beside changes and checkpoints answers what the key held at some moment
    between its start and its end ([get_linearizable]). *)
From stdpp Require Import base list option tactics gmap.
From S2P Require Import Prelude Bytes OrdMap DiskIndex.

Local Open Scope Z_scope.

Module DiskIndexSpec.
Import OrdMap DiskIndex.DiskIndex.

Section spec.
Context {redb : Redb}.

(** ** Counting *)

Lemma length_insert {A} (m : btree A) k v : sorted m ->
  lenZ (bt_insert m k v) = lenZ m + if bool_decide (is_Some (bt_get m k)) then 0 else 1.
Proof.
  induction m as [|[k' v'] m IH]; [done|]. intros [Hall Hs]. cbn [bt_insert bt_get].
  destruct (key_ltb k k') eqn:E1; [|destruct (key_ltb k' k) eqn:E2].
  - rewrite bool_decide_false by (by intros [? ?]). rewrite !lenZ_cons. lia.
  - rewrite !lenZ_cons, IH by done. lia.
  - rewrite bool_decide_true by eauto. rewrite !lenZ_cons. lia.
Qed.

Lemma length_remove {A} (m : btree A) k : sorted m ->
  lenZ (bt_remove m k) = lenZ m - if bool_decide (is_Some (bt_get m k)) then 1 else 0.
Proof.
  induction m as [|[k' v'] m IH]; [done|]. intros [Hall Hs]. cbn [bt_remove bt_get].
  destruct (key_ltb k k') eqn:E1; [|destruct (key_ltb k' k) eqn:E2].
  - rewrite bool_decide_false by (by intros [? ?]). lia.
  - rewrite !lenZ_cons, IH by done. lia.
  - rewrite bool_decide_true by eauto. rewrite !lenZ_cons. lia.
Qed.

(** [len]'s overlay: each changed key, and whether it is there. *)
Definition presence (m : btree (option bytes)) : btree bool :=
  fmap (fun e => (e.1, bool_decide (is_Some e.2))) m.

Lemma insert_presence m k (v : option bytes) :
  bt_insert (presence m) k (bool_decide (is_Some v)) = presence (bt_insert m k v).
Proof.
  induction m as [|[k' v'] m IH]; cbn; [done|]. repeat case_match; cbn; [done| |done].
  f_equal. exact IH.
Qed.

Lemma presence_fold m l :
  foldl (fun o kv => bt_insert o kv.1 (bool_decide (is_Some kv.2))) (presence m) l
  = presence (bt_extend m l).
Proof.
  unfold bt_extend. revert m. induction l as [|[k v] l IH]; intros m; [done|].
  cbn [foldl fst snd]. rewrite insert_presence. apply IH.
Qed.

Lemma presence_tables ts :
  foldl (fun o t => foldl (fun o kv => bt_insert o kv.1 (bool_decide (is_Some kv.2))) o (map t)) [] ts
  = presence (merged ts).
Proof.
  unfold merged, merged_by. change (@nil (bytes * bool)) with (presence []).
  generalize (@nil (bytes * option bytes)). induction ts as [|t ts IH]; intros m; [done|].
  cbn [foldl]. rewrite presence_fold. apply IH.
Qed.

(** Counting each changed key against the file counts the overlaid map, the
    keys being distinct. *)
Lemma count_overlaid entries m l : sorted m -> sorted l ->
  (forall k, k ∈ l.*1 -> bt_get m k = None <-> t_get entries k = None) ->
  foldl (count_one entries) (lenZ m) (presence l) = lenZ (overlaid m l).
Proof.
  unfold overlaid. revert m. induction l as [|[k v] l IH]; intros m Hm Hl Hk; [done|].
  destruct Hl as [Hall Hl]. cbn [presence fmap list_fmap foldl fst snd].
  assert (bool_decide (is_Some (t_get entries k)) = bool_decide (is_Some (bt_get m k))) as He.
  { apply bool_decide_ext. rewrite <- !not_eq_None_Some. specialize (Hk k ltac:(left)). tauto. }
  replace (count_one entries (lenZ m) (k, bool_decide (is_Some v)))
    with (lenZ (apply_change m (k, v))).
  - apply IH; [|done|].
    + unfold apply_change. destruct v; cbn; auto with ordmap.
    + intros k' Hk'. rewrite get_apply_change by done. cbn. rewrite decide_False.
      * apply Hk. by right.
      * apply list_elem_of_fmap in Hk' as ([k2 v2] & -> & Hin). intros ->.
        rewrite Forall_forall in Hall. by apply (key_lt_irrefl k2), (Hall (k2, v2)).
  - unfold count_one, apply_change. cbn [fst snd]. rewrite He.
    destruct v; cbn; rewrite ?length_insert, ?length_remove by done; repeat case_bool_decide; lia.
Qed.

Lemma len_contents ix : wf ix -> len ix = lenZ (contents ix).
Proof.
  intros Hwf. unfold len, memtables. fold (tables_of ix). rewrite presence_tables, t_len_spec.
  rewrite contents_merged by done.
  replace (lenZ (t_contents (db_entries (file ix)))) with (lenZ (file_map (file ix)))
    by (unfold file_map, lenZ; by rewrite length_fmap).
  apply count_overlaid; [apply file_map_sorted|apply sorted_merged_by|].
  intros k _. rewrite get_file_map. unfold file_get. by destruct (t_get _ k).
Qed.

(** C17. Every read of the metadata index is a read of one ordered map: [get]
    answers the map's lookup, a prefix scan calls its closure on the map's
    entries under the prefix and after the cursor, in key order and each
    once, a snapshot's scan on those in its range, and [len] counts them;
    whatever lies in the active memtable, the frozen one and the file, and
    however the overlay's windows fall. *)
Theorem reads_contents (ix : index) : wf ix ->
  (forall k, get ix k = bt_get (contents ix) k) /\
  (forall S prefix after (f : S -> bytes -> bytes -> S * bool) s, cursor_ok prefix after ->
     for_each_prefix None ix prefix after f s
     = run_until f s (List.filter (fun e => in_scan prefix after e.1) (contents ix))) /\
  (forall S from till (f : S -> bytes -> bytes -> S * bool) s,
     snap_for_each None (snapshot ix from till) f s
     = run_until f s (bt_range (contents ix) (Included from) (Excluded till))) /\
  len ix = lenZ (contents ix).
Proof.
  intros Hwf. split_and!; intros.
  - by rewrite get_contents.
  - by apply for_each_prefix_spec.
  - by apply snap_for_each_spec.
  - by apply len_contents.
Qed.

(** ** A page at a time *)

Record prefix_iter := mk_iter {
  it_prefix : bytes;
  it_after : option bytes;
  it_page : list (bytes * bytes);
  it_done : bool;
}.

Definition PAGE : nat := Z.to_nat 1024.

Definition iter_prefix (prefix : bytes) (after : option bytes) : prefix_iter :=
  mk_iter prefix after [] false.

(** The closure that fills a page. *)
Definition page_push (page : list (bytes * bytes)) (k v : bytes) : list (bytes * bytes) * bool :=
  let page := page ++ [(k, v)] in (page, (length page <? PAGE)%nat).

(** [PrefixIter::next]. *)
Definition iter_next (ix : index) (it : prefix_iter) : option (bytes * bytes) * prefix_iter :=
  match it_page it with
  | e :: p => (Some e, mk_iter (it_prefix it) (it_after it) p (it_done it))
  | [] =>
    if it_done it then (None, it)
    else
      let page := for_each_prefix None ix (it_prefix it) (it_after it) page_push [] in
      (head page, mk_iter (it_prefix it) (fst <$> last page) (tail page) (length page <? PAGE)%nat)
  end.

Fixpoint iter_collect (n : nat) (ix : index) (it : prefix_iter) : list (bytes * bytes) :=
  match n with
  | O => []
  | S n' =>
    match iter_next ix it with
    | (Some e, it') => e :: iter_collect n' ix it'
    | (None, _) => []
    end
  end.

Lemma PAGE_pos : (0 < PAGE)%nat.
Proof. unfold PAGE. lia. Qed.

Lemma run_page_push l page : (length page < PAGE)%nat ->
  run_until page_push page l = page ++ take (PAGE - length page) l.
Proof.
  revert page. induction l as [|[k v] l IH]; intros page Hl; cbn [run_until].
  { by rewrite take_nil, app_nil_r. }
  unfold page_push at 1. rewrite length_app. cbn [length].
  destruct (PAGE - length page)%nat as [|n] eqn:E; [lia|]. cbn [take].
  destruct (Nat.ltb_spec (length page + 1) PAGE).
  - rewrite IH by (rewrite length_app; cbn; lia). rewrite <- app_assoc, length_app. cbn.
    do 3 f_equal. lia.
  - replace n with 0%nat by lia. by rewrite take_0.
Qed.

(** What the iterator has still to yield. *)
Definition iter_rest (ix : index) (it : prefix_iter) : list (bytes * bytes) :=
  it_page it ++
  if it_done it then []
  else List.filter (fun e => in_scan (it_prefix it) (it_after it) e.1) (contents ix).

(** Past a page of a scan, the scan from the page's last key. *)
Lemma scan_rest (m : btree bytes) prefix after page k0 v0 rest : sorted m ->
  List.filter (fun e => in_scan prefix after e.1) m = (page ++ [(k0, v0)]) ++ rest ->
  List.filter (fun e => in_scan prefix (Some k0) e.1) m = rest /\ cursor_ok prefix (Some k0).
Proof.
  intros Hs Hl. assert (sorted ((page ++ [(k0, v0)]) ++ rest)) as Hsl
    by (rewrite <- Hl; by apply sorted_filter).
  assert (in_scan prefix after k0 = true) as Hk0.
  { assert (In (k0, v0) ((page ++ [(k0, v0)]) ++ rest)) as Hin
      by (apply list_elem_of_In; set_solver).
    rewrite <- Hl in Hin. by apply filter_In in Hin as [_ ?]. }
  unfold in_scan in Hk0. apply andb_true_iff in Hk0 as [Hp Ha].
  split; [|by apply cursor_in_scan].
  destruct (sorted_app_inv _ _ Hsl) as (Hs1 & Hs2 & Hlt). destruct (sorted_app_inv _ _ Hs1) as (_ & _ & Hlt1).
  apply sorted_ext; [by apply sorted_filter|done|]. intros k. rewrite get_filter by done.
  destruct (key_ltb k0 k) eqn:E.
  - pose proof (get_filter (in_scan prefix after) m k Hs) as Hg. cbn beta in Hg.
    rewrite Hl, get_app in Hg by done. destruct (bt_get (page ++ [(k0, v0)]) k) eqn:Ep.
    + apply get_elem in Ep; [|done]. exfalso. apply elem_of_app in Ep as [Ep|Ep].
      * eapply (key_lt_asym k0 k); [exact E|]. apply (Hlt1 _ (k0, v0) Ep). left.
      * apply list_elem_of_singleton in Ep as [= -> _]. by apply key_lt_irrefl in E.
    + rewrite Hg. unfold in_scan. rewrite E. destruct after as [a|]; [|done].
      by rewrite (key_lt_trans _ _ _ Ha E : key_ltb a k = true).
  - unfold in_scan. rewrite E, andb_false_r. symmetry. apply (get_below rest k k0).
    + apply Forall_forall. intros e He. apply (Hlt (k0, v0)); [set_solver|done].
    + unfold key_lt. by rewrite E.
Qed.

Lemma iter_next_spec ix it : wf ix -> cursor_ok (it_prefix it) (it_after it) ->
  exists it', iter_next ix it = (head (iter_rest ix it), it') /\
    cursor_ok (it_prefix it') (it_after it') /\ iter_rest ix it' = tail (iter_rest ix it).
Proof.
  intros Hwf Hc. destruct it as [prefix after page d]. unfold iter_next, iter_rest.
  cbn [it_prefix it_after it_page it_done] in *.
  destruct page as [|e page]; [|by eexists]. cbn [app].
  destruct d; [by eexists|]. rewrite for_each_prefix_spec, run_page_push by (done || apply PAGE_pos).
  cbn [length app]. rewrite Nat.sub_0_r. set (l := List.filter _ _).
  destruct (Nat.ltb_spec (length (take PAGE l)) PAGE) as [Hlt|Hge]; rewrite length_take in *.
  - rewrite take_ge by lia. eexists. split; [done|]. cbn. rewrite app_nil_r. split; [|done].
    destruct (last l) as [[k0 v0]|] eqn:El; [|done]. apply last_Some in El as [p El].
    apply (scan_rest (contents ix) prefix after p k0 v0 []); [apply contents_sorted|by rewrite app_nil_r].
  - pose proof PAGE_pos. destruct (last (take PAGE l)) as [[k0 v0]|] eqn:El.
    + apply last_Some in El as [p El].
      destruct (scan_rest (contents ix) prefix after p k0 v0 (drop PAGE l)) as [Hr Hc'];
        [apply contents_sorted|by rewrite <- El, take_drop|].
      exists (mk_iter prefix (Some k0) (tail (take PAGE l)) false). split_and!; [|exact Hc'|].
      * f_equal. clear -H. destruct PAGE; [lia|]. by destruct l.
      * cbn [it_page it_done it_prefix it_after]. rewrite Hr. clear -H. destruct PAGE; [lia|].
        destruct l; [done|]. cbn. by rewrite take_drop.
    + apply last_None in El. assert (length (take PAGE l) = 0%nat) as H0 by by rewrite El.
      rewrite length_take in H0. lia.
Qed.

(** Reading a prefix a page at a time ([iter_prefix], pages of 1024)
    yields every entry under it from after the cursor, each once, in key
    order, and then ends; a prefix of exactly a page, or of none, included. *)
Theorem paged_scan_whole ix prefix after n : wf ix -> cursor_ok prefix after ->
  (length (contents ix) < n)%nat ->
  iter_collect n ix (iter_prefix prefix after)
  = List.filter (fun e => in_scan prefix after e.1) (contents ix).
Proof.
  intros Hwf Hc Hn.
  assert (forall n it, cursor_ok (it_prefix it) (it_after it) -> (length (iter_rest ix it) < n)%nat ->
    iter_collect n ix it = iter_rest ix it) as H.
  { clear prefix after Hc n Hn. intros n. induction n as [|n IH]; intros it Hc Hn; [lia|]. cbn [iter_collect].
    destruct (iter_next_spec ix it Hwf Hc) as (it' & -> & Hc' & Hr).
    destruct (iter_rest ix it) as [|e r]; [done|]. cbn in *. rewrite IH, Hr; [done..|].
    rewrite Hr. lia. }
  apply H; [done|]. eapply Nat.le_lt_trans; [apply length_filter_le|exact Hn].
Qed.

(** ** Reads beside changes and checkpoints *)

(** One step of another thread. The second component says that the frozen
    memtable is in the file: [flush_frozen] lets it go only then, and one
    checkpoint runs at a time. *)
Inductive istep : index * bool -> index * bool -> Prop :=
  | step_set ix c k v : fits (k, v) -> istep (ix, c) (set_active ix k v, c)
  | step_freeze ix c : frozen ix = None -> istep (ix, c) ((freeze ix).1, false)
  | step_commit ix c lsn : is_Some (frozen ix) -> istep (ix, c) (flush_commit ix lsn, true)
  | step_let_go ix : istep (ix, true) (let_go ix, false).

(** A run, and the states it goes through. *)
Inductive run : index * bool -> list index -> index * bool -> Prop :=
  | run_refl s : run s [s.1] s
  | run_step s l s' s'' : run s l s' -> istep s' s'' -> run s (l ++ [s''.1]) s''.

Lemma istep_wf s s' : istep s s' -> wf s.1 -> wf s'.1.
Proof.
  destruct 1; cbn; auto using set_active_wf, freeze_wf, flush_commit_wf, let_go_wf.
Qed.

Lemma interleaving_wf s l s' : run s l s' -> wf s.1 -> wf s'.1.
Proof. induction 1; eauto using istep_wf. Qed.

Lemma run_last s l s' : run s l s' -> s'.1 ∈ l.
Proof. destruct 1; set_solver. Qed.

Lemma run_first s l s' : run s l s' -> s.1 ∈ l.
Proof. induction 1; set_solver. Qed.

(** The value under [k] of the frozen memtable over the file. *)
Definition below_active (ix : index) (k : bytes) : option bytes :=
  get_reads None (f ← frozen ix; mem_get (mems ix) f k) (file_get (file ix) k).

Lemma get_below_active ix k :
  get ix k = match mem_get (mems ix) (active ix) k with Some v => v | None => below_active ix k end.
Proof. unfold get, below_active, get_reads, memtables. by case_match. Qed.

(** Memtables are written only while active: one handed out keeps its
    changes, and one no longer active keeps still. *)
Lemma mem_get_set ix k v i k' : wf ix ->
  mem_get (mems (set_active ix k v)) i k'
  = if decide (i = active ix /\ k = k') then Some v else mem_get (mems ix) i k'.
Proof.
  intros Hwf. unfold mem_get, mem_at. cbn. destruct (decide (i = active ix)) as [->|Hi].
  - rewrite lookup_insert_eq. cbn. pose proof (wf_at ix (active ix) Hwf) as [Hs _].
    rewrite get_insert by done. destruct (decide (k = k')); [by rewrite decide_True|].
    rewrite decide_False by tauto. done.
  - rewrite lookup_insert_ne by done. by rewrite decide_False by tauto.
Qed.

Lemma mem_get_freeze ix i k : i ∈ dom (mems ix) ->
  mem_get (mems (freeze ix).1) i k = mem_get (mems ix) i k.
Proof.
  intros Hi. unfold freeze. destruct (frozen ix); [done|]. unfold mem_get, mem_at. cbn.
  rewrite lookup_insert_ne; [done|]. intros <-. by apply (fresh_new ix).
Qed.

Lemma mems_flush_commit ix lsn : mems (flush_commit ix lsn) = mems ix.
Proof. unfold flush_commit. by case_match. Qed.

Lemma file_get_commit ix lsn k : wf ix ->
  file_get (file (flush_commit ix lsn)) k = below_active ix k.
Proof.
  intros Hwf. rewrite <- get_file_map, file_flush_commit by done.
  destruct (frozen_map_wf ix Hwf) as [Hs _].
  rewrite get_overlaid, get_file_map by (done || apply file_map_sorted).
  unfold below_active, get_reads, frozen_map, mem_get. destruct (frozen ix); done.
Qed.

(** What a reader that took the handles of [s0] relies on at [s], for [k],
    given the values [seen] since. *)
Record tracked (s0 : index) (k : bytes) (seen : option bytes -> Prop) (s : index) : Prop := {
  tr_dom : dom (mems s0) ⊆ dom (mems s);
  tr_active : forall v, mem_get (mems s) (active s0) k = Some v -> seen v;
  tr_kept : mem_get (mems s) (active s0) k = None -> mem_get (mems s0) (active s0) k = None;
  tr_frozen : forall f, frozen s0 = Some f ->
    f <> active s /\ mem_get (mems s) f k = mem_get (mems s0) f k;
  tr_file : (f ← frozen s0; mem_get (mems s0) f k) = None ->
    let ok v := seen v \/ v = file_get (file s0) k in
    ok (file_get (file s) k) /\ ok (below_active s k);
}.

Lemma tracked_init s0 k (seen : option bytes -> Prop) :
  wf s0 -> seen (get s0 k) -> tracked s0 k seen s0.
Proof.
  intros Hwf Hseen. split; [done| |done| |].
  - intros v Hv. by rewrite get_below_active, Hv in Hseen.
  - intros f Hf. by destruct (wf_frozen s0 Hwf f Hf).
  - intros Hnone. cbn. unfold below_active. rewrite Hnone. auto.
Qed.

Lemma tracked_mono s0 k (seen seen' : option bytes -> Prop) s :
  (forall v, seen v -> seen' v) -> tracked s0 k seen s -> tracked s0 k seen' s.
Proof.
  intros Hsub [H1 H2 H3 H4 H5]. split; auto. intros Hn. destruct (H5 Hn). cbn. naive_solver.
Qed.

Lemma below_active_set ix k v k' : wf ix -> below_active (set_active ix k v) k' = below_active ix k'.
Proof.
  intros Hwf. unfold below_active. cbn [frozen file set_active]. destruct (frozen ix) as [f|] eqn:E; [|done].
  cbn [mbind option_bind]. rewrite mem_get_set by done.
  destruct (wf_frozen ix Hwf f E) as [_ ?]. by rewrite decide_False by naive_solver.
Qed.

Lemma below_active_freeze ix k : wf ix -> frozen ix = None -> below_active (freeze ix).1 k = get ix k.
Proof.
  intros Hwf E. unfold below_active.
  assert (frozen (freeze ix).1 = Some (active ix) /\ file (freeze ix).1 = file ix) as [-> ->]
    by (unfold freeze; by rewrite E).
  cbn [mbind option_bind]. rewrite mem_get_freeze by by apply wf_active.
  rewrite get_below_active. unfold below_active. by rewrite E.
Qed.

Lemma below_active_commit ix lsn k : wf ix ->
  below_active (flush_commit ix lsn) k = below_active ix k.
Proof.
  intros Hwf. unfold below_active at 1. rewrite file_get_commit, mems_flush_commit by done.
  assert (frozen (flush_commit ix lsn) = frozen ix) as ->
    by (unfold flush_commit; destruct (frozen ix) eqn:E; cbn; congruence).
  unfold below_active, get_reads. by case_match.
Qed.

Lemma tracked_step s0 k (seen : option bytes -> Prop) s c s' c' :
  wf s0 -> wf s -> istep (s, c) (s', c') -> seen (get s k) -> seen (get s' k) ->
  tracked s0 k seen s -> tracked s0 k seen s'.
Proof.
  intros Hwf0 Hwf Hstep Hs Hs' [H1 H2 H3 H4 H5]. pose proof (wf_active s0 Hwf0) as Ha0.
  inversion Hstep; subst.
  - split; [cbn; set_solver|..].
    + intros w. rewrite mem_get_set by done. case_decide as Hd; [|apply H2].
      intros [= <-]. destruct Hd as [Ha ->]. rewrite get_below_active in Hs'.
      cbn [active set_active] in Hs'. by rewrite mem_get_set, decide_True in Hs'.
    + rewrite mem_get_set by done. case_decide; [done|apply H3].
    + intros f Hf. destruct (H4 f Hf) as [? Hm]. split; [done|].
      rewrite mem_get_set by done. by rewrite decide_False by naive_solver.
    + intros Hn. rewrite below_active_set by done. apply (H5 Hn).
  - assert (dom (mems s) ⊆ dom (mems (freeze s).1)) as Hdom
      by (unfold freeze; destruct (frozen s); cbn; set_solver).
    split; [set_solver|..]; rewrite ?mem_get_freeze by set_solver; [done..| |].
    + intros f Hf. destruct (H4 f Hf) as [? Hm]. destruct (wf_frozen s0 Hwf0 f Hf) as [Hfd _].
      rewrite mem_get_freeze by set_solver. split; [|done]. pose proof (fresh_new s).
      unfold freeze. destruct (frozen s); [done|]. cbn. set_solver.
    + intros Hn. rewrite below_active_freeze by done. split; [|by left].
      assert (file (freeze s).1 = file s) as -> by (unfold freeze; by case_match). apply (H5 Hn).
  - split; rewrite ?mems_flush_commit; [done..| |].
    + intros f Hf. destruct (H4 f Hf). split; [|done]. unfold flush_commit. by case_match.
    + intros Hn. rewrite file_get_commit, below_active_commit by done. split; apply (H5 Hn).
  - split; [done..|]. intros Hn. split; apply (H5 Hn).
Qed.

Lemma tracked_run s0 c0 k l s' (seen : option bytes -> Prop) : wf s0 ->
  run (s0, c0) l s' -> (forall s, s ∈ l -> seen (get s k)) -> tracked s0 k seen s'.1.
Proof.
  intros Hwf Hrun. remember (s0, c0) as st eqn:Est. induction Hrun as [st|st l [s cs] [s' cs'] Hrun IH Hstep];
    intros Hl; subst.
  - apply tracked_init; [done|]. apply Hl. set_solver.
  - specialize (IH eq_refl ltac:(set_solver)). pose proof (interleaving_wf _ _ _ Hrun Hwf) as Hwf'.
    eapply tracked_step; [done|exact Hwf'|exact Hstep|..|exact IH].
    + apply Hl. apply run_last in Hrun. set_solver.
    + apply Hl. set_solver.
Qed.

Lemma run_trans s l1 s1 l2 s2 : run s l1 s1 -> run s1 l2 s2 ->
  exists l, run s l s2 /\ forall x, x ∈ l -> x ∈ l1 ++ l2.
Proof.
  intros H1 H2. induction H2 as [s1|s1 l2 s2 s3 H2 IH Hs]; [exists l1; set_solver|].
  destruct (IH H1) as (l & Hr & Hl). eexists. split; [by eapply run_step|]. set_solver.
Qed.

(** C16. A [get] that runs beside changes and checkpoints answers what the key
    held at some moment while it ran: it takes the memtables' handles in
    [s0], reads the active one in [s1], the frozen one in [s2] and the file
    in [s3], with any changes, freezes, commits and releases between, and
    its answer is the index's value in a state it went through; nothing
    falls between the memtables and the file. *)
Theorem get_linearizable s0 l1 s1 l2 s2 l3 s3 k : wf s0.1 ->
  run s0 l1 s1 -> run s1 l2 s2 -> run s2 l3 s3 ->
  let '(a, f) := memtables s0.1 in
  exists s, s ∈ l1 ++ l2 ++ l3 /\
    get_reads (mem_get (mems s1.1) a k) (f ← f; mem_get (mems s2.1) f k) (file_get (file s3.1) k)
    = get s k.
Proof.
  destruct s0 as [s0 c0]. cbn [fst]. intros Hwf R1 R2 R3.
  set (seen v := exists s, s ∈ l1 ++ l2 ++ l3 /\ v = get s k). cbn [memtables].
  destruct (run_trans _ _ _ _ _ R1 R2) as (l12 & R12 & S12).
  destruct (run_trans _ _ _ _ _ R12 R3) as (l13 & R13 & S13).
  assert (forall l s', run (s0, c0) l s' -> (forall x, x ∈ l -> x ∈ l1 ++ l2 ++ l3) ->
          tracked s0 k seen s'.1) as Htr.
  { intros l s' R Hl. eapply tracked_run; [done|exact R|]. intros s Hs. exists s. auto. }
  pose proof (Htr _ _ R1 ltac:(set_solver)) as T1. pose proof (Htr _ _ R12 ltac:(set_solver)) as T2.
  pose proof (Htr _ _ R13 ltac:(set_solver)) as T3. cbn [get_reads].
  assert (forall v, seen v -> exists s, s ∈ l1 ++ l2 ++ l3 /\ v = get s k) as Hout by done.
  apply Hout. unfold get_reads. destruct (mem_get (mems s1.1) (active s0) k) as [v|] eqn:Ea.
  { by eapply tr_active in T1. }
  apply (tr_kept _ _ _ _ T1) in Ea.
  assert ((f ← frozen s0; mem_get (mems s2.1) f k) = (f ← frozen s0; mem_get (mems s0) f k)) as ->.
  { destruct (frozen s0) as [f|] eqn:Ef; [|done]. by destruct (tr_frozen _ _ _ _ T2 f Ef). }
  assert (seen (get s0 k)) as Hs0 by (exists s0; split; [apply run_first in R1; set_solver|done]).
  rewrite get_below_active, Ea in Hs0. unfold below_active, get_reads in Hs0.
  destruct (f ← frozen s0; mem_get (mems s0) f k) as [v|] eqn:Ef; [done|].
  destruct (tr_file _ _ _ _ T3 Ef) as [[?| ->] _]; done.
Qed.

End spec.

(** ** Examples *)

Definition key_of (s : string) : bytes := as_bytes s.

(** Three entries in the file, one of them changed since and one deleted,
    the one change in the frozen memtable. *)
Definition ex_filed : index :=
  let_go (flush_commit (freeze (put (put (put (open new_db) (key_of "a1") (key_of "x"))
    (key_of "a2") (key_of "y")) (key_of "b1") (key_of "z"))).1 3).

Definition ex_index : index :=
  delete (freeze (put ex_filed (key_of "a1") (key_of "new"))).1 (key_of "b1").

Lemma fits_small (e : change) : lenZ e.1 + match e.2 with Some v => lenZ v | None => 0 end < 1000 -> fits e.
Proof. unfold fits, two64. lia. Qed.

Lemma open_wf (d : db) : wf (open d).
Proof.
  split; cbn.
  - intros i t [<- <-]%lookup_singleton_Some. split; [done|constructor].
  - set_solver.
  - done.
Qed.

Lemma ex_filed_wf : wf ex_filed.
Proof.
  apply let_go_wf, flush_commit_wf, freeze_wf. repeat apply set_active_wf; try apply open_wf;
    apply fits_small; by vm_compute.
Qed.

Lemma ex_index_wf : wf ex_index.
Proof.
  apply set_active_wf; [apply freeze_wf, set_active_wf; [apply ex_filed_wf|]|];
    apply fits_small; by vm_compute.
Qed.

Lemma reads_contents_witness :
  get ex_index (key_of "b1") = None /\
  scan_prefix None ex_index (key_of "a") = [(key_of "a1", key_of "new"); (key_of "a2", key_of "y")] /\
  len ex_index = 2.
Proof.
  destruct (reads_contents ex_index ex_index_wf) as (Hg & Hs & _ & Hl). split_and!.
  - rewrite Hg. by vm_compute.
  - unfold scan_prefix. rewrite (Hs _ _ None) by done. by vm_compute.
  - rewrite Hl. by vm_compute.
Defined.

Lemma paged_scan_whole_witness :
  iter_collect 10 ex_index (iter_prefix (key_of "a") (Some (key_of "a1"))) = [(key_of "a2", key_of "y")].
Proof.
  rewrite (paged_scan_whole ex_index (key_of "a") (Some (key_of "a1")) 10 ex_index_wf);
    [by vm_compute|by vm_compute|]. by apply Nat.ltb_lt; vm_compute.
Defined.

(** A [get] overtaken by a whole checkpoint: its handles are those of a
    memtable since flushed and let go. *)
Lemma get_linearizable_witness :
  let s0 := ex_filed in
  let s1 := put s0 (key_of "c") (key_of "w") in
  let s2 := let_go (flush_commit (freeze s1).1 4) in
  exists s, s ∈ [s0] ++ [s0; s1; (freeze s1).1; flush_commit (freeze s1).1 4; s2] ++ [s2] /\
    get_reads (mem_get (mems s0) (active s0) (key_of "c")) None (file_get (file s2) (key_of "c"))
    = get s (key_of "c").
Proof.
  intros s0 s1 s2.
  refine (get_linearizable (s0, false) [s0] (s0, false)
    [s0; s1; (freeze s1).1; flush_commit (freeze s1).1 4; s2] (s2, false) [s2] (s2, false) (key_of "c")
    ex_filed_wf (run_refl _) _ (run_refl _)).
  apply (run_step _ [s0; s1; (freeze s1).1; flush_commit (freeze s1).1 4] (flush_commit (freeze s1).1 4, true)
           (s2, false)); [|apply step_let_go].
  apply (run_step _ [s0; s1; (freeze s1).1] ((freeze s1).1, false)
           (flush_commit (freeze s1).1 4, true)); [|apply step_commit; by eexists].
  apply (run_step _ [s0; s1] (s1, false) ((freeze s1).1, false)); [|by apply step_freeze].
  apply (run_step _ [s0] (s0, false) (s1, false)); [apply run_refl|].
  apply step_set, fits_small. by vm_compute.
Defined.

(** A read of the file that fails while a prefix is scanned ends the scan as
    if the file ended there: the entries after it are left out and the scan
    succeeds, where a [get] of the same file would stop the process. *)
Lemma scan_error_is_silent :
  scan_prefix (Some 1%nat) ex_filed (key_of "a") = [(key_of "a1", key_of "x")] /\
  get ex_filed (key_of "a2") = Some (key_of "y").
Proof. split; by vm_compute. Qed.

End DiskIndexSpec.
