(* ===== verification/MetaTypes.v ===== *)
(** * Metadata keys and operations

    Models [crates/storage/src/metadata/types.rs]: how the OSD's keys are
    built and parsed, the operations of the metadata log, and how an
    operation is put in a protobuf message and taken out. The protobuf
    encoding itself (prost) is a parameter, [Prost]. *)
From stdpp Require Import base list option tactics strings.
From S2P Require Import Prelude Bytes OrdMap.

Local Open Scope Z_scope.

Module MetaTypes.
Import OrdMap.

(** ** Keys *)

Definition be_bytes (n : nat) (z : Z) : bytes := rev (to_le n z).

Definition nul : byte := Byte.x00.
Definition tag_b : byte := Byte.x62.
Definition tag_m : byte := Byte.x6d.
Definition tag_v : byte := Byte.x76.
Definition tag_t : byte := Byte.x74.

Definition block (block_num : Z) : bytes := tag_b :: be_bytes 8 block_num.

Definition object_meta (bucket key : string) : bytes :=
  tag_m :: as_bytes bucket ++ nul :: as_bytes key.

Definition object_meta_prefix (bucket : string) : bytes := tag_m :: as_bytes bucket ++ [nul].

Definition all_object_meta_prefix : bytes := [tag_m].

Definition object_version (bucket key version_id : string) : bytes :=
  tag_v :: as_bytes bucket ++ nul :: as_bytes key ++ nul :: as_bytes version_id.

Definition object_version_bucket_prefix (bucket : string) : bytes := tag_v :: as_bytes bucket ++ [nul].

Definition object_version_prefix (bucket key : string) : bytes :=
  tag_v :: as_bytes bucket ++ nul :: as_bytes key ++ [nul].

Definition tombstone (bucket key version_id : string) : bytes :=
  tag_t :: as_bytes bucket ++ nul :: as_bytes key ++ nul :: as_bytes version_id.

(** [rest.iter().position(|&b| b == 0)], and the parts around it. *)
Fixpoint split_nul (b : bytes) : option (bytes * bytes) :=
  match b with
  | [] => None
  | x :: b' =>
    if bval x =? 0 then Some ([], b')
    else '(l, r) ← split_nul b'; Some (x :: l, r)
  end.

Definition parse_object_meta (k : bytes) : option (string * string) :=
  match k with
  | [] => None
  | t :: rest =>
    if decide (t = tag_m) then
      '(b, r) ← split_nul rest;
      bucket ← from_utf8 b;
      key ← from_utf8 r;
      Some (bucket, key)
    else None
  end.

Definition parse_object_version (k : bytes) : option (string * string * string) :=
  match k with
  | [] => None
  | t :: rest =>
    if decide (t = tag_v) then
      '(b, after_bucket) ← split_nul rest;
      bucket ← from_utf8 b;
      '(k, r) ← split_nul after_bucket;
      key ← from_utf8 k;
      version_id ← from_utf8 r;
      Some (bucket, key, version_id)
    else None
  end.

(** [key_type]: the first byte, as a character. *)
Definition key_type (k : bytes) : option Z := bval <$> head k.

(** ** Operations *)

(** [MetadataOp]. *)
#[warnings="-register-all"] Inductive MetadataOp :=
  | Put (key value : bytes)
  | Delete (key : bytes)
  | Batch (ops : list MetadataOp).

(** [MetadataEntry]: what an operation logged at [lsn] makes of a key. *)
Record MetadataEntry := mk_entry {
  e_key : bytes;
  e_value : bytes;
  e_lsn : Z;
  e_deleted : bool;
}.

Definition new_entry (key value : bytes) (lsn : Z) : MetadataEntry := mk_entry key value lsn false.
Definition tombstone_entry (key : bytes) (lsn : Z) : MetadataEntry := mk_entry key [] lsn true.

(** [OpRecord]. *)
#[warnings="-register-all"] Inductive OpRecord := mk_op (kind : Z) (key value : bytes) (ops : list OpRecord).

(** [OpRecord::of]. *)
Fixpoint of_op (op : MetadataOp) : OpRecord :=
  match op with
  | Put key value => mk_op 1 key value []
  | Delete key => mk_op 2 key [] []
  | Batch ops => mk_op 3 [] [] (List.map of_op ops)
  end.

(** [collect::<Option<Vec<_>>>]. *)
Definition collect_opt {A B} (f : A -> option B) : list A -> option (list B) :=
  fix go l :=
    match l with
    | [] => Some []
    | x :: l' => y ← f x; ys ← go l'; Some (y :: ys)
    end.

(** [OpRecord::into_op]. *)
Fixpoint into_op (r : OpRecord) : option MetadataOp :=
  match r with
  | mk_op kind key value ops =>
    if kind =? 1 then Some (Put key value)
    else if kind =? 2 then Some (Delete key)
    else if kind =? 3 then ops ← collect_opt into_op ops; Some (Batch ops)
    else None
  end.

(** [prost::Message] for [OpRecord]: a message encoded decodes to itself. *)
Class Prost := {
  encode_to_vec : OpRecord -> bytes;
  op_decode : bytes -> option OpRecord;
  decode_encode : forall op, op_decode (encode_to_vec (of_op op)) = Some (of_op op);
}.

Section codec.
Context {prost : Prost}.

Definition to_bytes (op : MetadataOp) : bytes := encode_to_vec (of_op op).
Definition from_bytes (data : bytes) : option MetadataOp := r ← op_decode data; into_op r.

(** Induction on operations, through the operations of a batch. *)
Lemma op_ind' (P : MetadataOp -> Prop) :
  (forall k v, P (Put k v)) -> (forall k, P (Delete k)) ->
  (forall ops, Forall P ops -> P (Batch ops)) -> forall op, P op.
Proof.
  intros Hp Hd Hb. fix IH 1. intros [k v|k|ops]; [apply Hp|apply Hd|].
  apply Hb. induction ops as [|op ops IHops]; constructor; [apply IH|exact IHops].
Qed.

Lemma into_of op : into_op (of_op op) = Some op.
Proof.
  induction op as [k v|k|ops IH] using op_ind'; [done..|]. cbn.
  assert (collect_opt into_op (List.map of_op ops) = Some ops) as ->; [|done].
  induction IH as [|op ops Hop _ IHops]; [done|]. cbn. by rewrite Hop; cbn; rewrite IHops.
Qed.

Lemma from_to_bytes op : from_bytes (to_bytes op) = Some op.
Proof. unfold from_bytes, to_bytes. rewrite decode_encode. cbn. apply into_of. Qed.

End codec.

(** A codec: each length in unary, then the bytes. *)
Fixpoint unary (n : nat) : bytes :=
  match n with O => [Byte.x00] | S n' => Byte.x01 :: unary n' end.

Fixpoint read_unary (b : bytes) : option (nat * bytes) :=
  match b with
  | [] => None
  | x :: b' =>
    if bval x =? 0 then Some (O, b')
    else '(n, r) ← read_unary b'; Some (S n, r)
  end.

Definition read_block (b : bytes) : option (bytes * bytes) :=
  '(n, r) ← read_unary b; if (n <=? length r)%nat then Some (take n r, drop n r) else None.

Fixpoint plain_encode (r : OpRecord) : bytes :=
  match r with
  | mk_op kind key value ops =>
    unary (Z.to_nat kind) ++ unary (length key) ++ key ++ unary (length value) ++ value
    ++ unary (length ops) ++ List.concat (List.map plain_encode ops)
  end.

Definition read_many (read : bytes -> option (OpRecord * bytes)) : nat -> bytes -> option (list OpRecord * bytes) :=
  fix go n b :=
    match n with
    | O => Some ([], b)
    | S n' => '(r, b') ← read b; '(rs, b'') ← go n' b'; Some (r :: rs, b'')
    end.

Fixpoint plain_read (fuel : nat) (b : bytes) : option (OpRecord * bytes) :=
  match fuel with
  | O => None
  | S fuel' =>
    '(kind, b) ← read_unary b;
    '(key, b) ← read_block b;
    '(value, b) ← read_block b;
    '(n, b) ← read_unary b;
    '(ops, b) ← read_many (plain_read fuel') n b;
    Some (mk_op (Z.of_nat kind) key value ops, b)
  end.

Definition plain_decode (b : bytes) : option OpRecord := fst <$> plain_read (length b) b.

Lemma read_unary_app n b : read_unary (unary n ++ b) = Some (n, b).
Proof. induction n as [|n IH]; cbn; [done|]. by rewrite IH. Qed.

Lemma read_block_app k b : read_block (unary (length k) ++ k ++ b) = Some (k, b).
Proof.
  unfold read_block. rewrite read_unary_app. cbn. rewrite length_app.
  rewrite (proj2 (Nat.leb_le _ _)) by lia. by rewrite take_app_length, drop_app_length.
Qed.

Lemma unary_length n : (0 < length (unary n))%nat.
Proof. destruct n; cbn; lia. Qed.

Lemma plain_encode_length r : (0 < length (plain_encode r))%nat.
Proof.
  destruct r as [kind key value ops]. cbn [plain_encode]. rewrite length_app.
  pose proof (unary_length (Z.to_nat kind)). lia.
Qed.

Lemma plain_read_spec op fuel b : (length (plain_encode (of_op op)) <= fuel)%nat ->
  plain_read fuel (plain_encode (of_op op) ++ b) = Some (of_op op, b).
Proof.
  revert fuel b. induction op as [k v|k|ops IH] using op_ind'; intros [|fuel] b Hf;
    try (match type of Hf with (length (plain_encode ?r) <= _)%nat =>
           pose proof (plain_encode_length r) end; lia).
  - cbn [of_op plain_encode plain_read length List.map List.concat]. rewrite <- !app_assoc, read_unary_app.
    cbn [mbind option_bind]. rewrite read_block_app. cbn [mbind option_bind].
    rewrite read_block_app. cbn [mbind option_bind]. by rewrite read_unary_app.
  - cbn [of_op plain_encode plain_read length List.map List.concat]. rewrite <- !app_assoc, read_unary_app.
    cbn [mbind option_bind]. rewrite read_block_app. cbn [mbind option_bind].
    by rewrite (read_block_app []).
  - cbn [of_op plain_encode plain_read]. rewrite <- !app_assoc, read_unary_app.
    cbn [mbind option_bind]. rewrite (read_block_app []). cbn [mbind option_bind].
    rewrite (read_block_app []). cbn [mbind option_bind]. rewrite read_unary_app.
    cbn [mbind option_bind].
    assert (length (List.concat (List.map plain_encode (List.map of_op ops))) <= fuel)%nat as Hc.
    { cbn [of_op plain_encode] in Hf. rewrite !length_app in Hf.
      pose proof (unary_length (Z.to_nat 3)). lia. }
    assert (read_many (plain_read fuel) (length (List.map of_op ops))
              (List.concat (List.map plain_encode (List.map of_op ops)) ++ b)
            = Some (List.map of_op ops, b)) as ->; [|done].
    clear Hf. revert Hc. induction IH as [|op ops Hop _ IHops]; intros Hc; [done|].
    cbn [List.map List.concat length read_many] in *. rewrite length_app in Hc.
    rewrite <- app_assoc, Hop by lia. cbn [mbind option_bind]. by rewrite IHops by lia.
Qed.

#[refine] Instance PlainProst : Prost := {|
  encode_to_vec := plain_encode;
  op_decode := plain_decode;
|}.
Proof.
  intros op. unfold plain_decode. rewrite <- (app_nil_r (plain_encode (of_op op))) at 2.
  by rewrite plain_read_spec.
Defined.

(** ** Keys parse back, and prefixes select *)

Definition no_nul (s : string) : Prop := Forall (fun b => bval b <> 0) (as_bytes s).

Lemma split_nul_app l r : Forall (fun b => bval b <> 0) l -> split_nul (l ++ nul :: r) = Some (l, r).
Proof.
  induction 1 as [|x l Hx _ IH]; cbn; [done|]. apply Z.eqb_neq in Hx. by rewrite Hx, IH.
Qed.

(** Two names closed by a NUL, one a prefix of the other's bytes: the same. *)
Lemma nul_prefix (l l' r r' : bytes) :
  Forall (fun b => bval b <> 0) l -> Forall (fun b => bval b <> 0) l' ->
  l ++ nul :: r = l' ++ nul :: r' -> l = l' /\ r = r'.
Proof.
  intros H H' Heq. pose proof (split_nul_app l r H) as E1. rewrite Heq, split_nul_app in E1 by done.
  by simplify_eq.
Qed.

Lemma object_meta_prefix_exact bucket bucket' key : no_nul bucket -> no_nul bucket' ->
  starts_with (object_meta bucket key) (object_meta_prefix bucket') = true <-> bucket = bucket'.
Proof.
  intros Hb Hb'. rewrite starts_with_spec. unfold object_meta, object_meta_prefix. split.
  - intros [r Heq]. cbn in Heq. injection Heq as Heq. rewrite <- app_assoc in Heq. cbn in Heq.
    apply nul_prefix in Heq as [Heq _]; [by apply as_bytes_inj|done..].
  - intros ->. exists (as_bytes key). cbn. by rewrite <- app_assoc.
Qed.

Lemma object_version_prefix_exact bucket bucket' key key' v :
  no_nul bucket -> no_nul bucket' -> no_nul key -> no_nul key' ->
  starts_with (object_version bucket key v) (object_version_prefix bucket' key') = true
  <-> bucket = bucket' /\ key = key'.
Proof.
  intros Hb Hb' Hk Hk'. rewrite starts_with_spec. unfold object_version, object_version_prefix. split.
  - intros [r Heq]. cbn in Heq. injection Heq as Heq. rewrite <- app_assoc in Heq. cbn in Heq.
    apply nul_prefix in Heq as [Heq1 Heq]; [|done..]. rewrite <- app_assoc in Heq. cbn in Heq.
    apply nul_prefix in Heq as [Heq2 _]; [|done..]. split; by apply as_bytes_inj.
  - intros [-> ->]. exists (as_bytes v). cbn. by rewrite <- !app_assoc; cbn; rewrite <- app_assoc.
Qed.

Lemma parse_object_meta_back bucket key :
  rust_string bucket -> rust_string key -> no_nul bucket ->
  parse_object_meta (object_meta bucket key) = Some (bucket, key).
Proof.
  intros Hb Hk Hn. unfold parse_object_meta, object_meta. rewrite decide_True by done.
  rewrite split_nul_app by done. cbn. rewrite from_utf8_of_string by done. cbn.
  by rewrite from_utf8_of_string by done.
Qed.

Lemma parse_object_version_back bucket key v :
  rust_string bucket -> rust_string key -> rust_string v -> no_nul bucket -> no_nul key ->
  parse_object_version (object_version bucket key v) = Some (bucket, key, v).
Proof.
  intros Hb Hk Hv Hn Hn'. unfold parse_object_version, object_version. rewrite decide_True by done.
  rewrite split_nul_app by done. cbn. rewrite from_utf8_of_string by done. cbn.
  rewrite split_nul_app by done. cbn. rewrite from_utf8_of_string by done. cbn.
  by rewrite from_utf8_of_string by done.
Qed.

(** The OSD's object keys mean one object each: without a NUL in the
    names, a current-object key and a version key parse back to the names
    they were built from, the scan prefix of a bucket is a prefix of exactly
    its own objects' keys, and that of an object's versions of exactly its
    own versions' keys. *)
Theorem object_keys_exact bucket key v bucket' key' :
  rust_string bucket -> rust_string key -> rust_string v ->
  no_nul bucket -> no_nul key -> no_nul bucket' -> no_nul key' ->
  parse_object_meta (object_meta bucket key) = Some (bucket, key) /\
  parse_object_version (object_version bucket key v) = Some (bucket, key, v) /\
  (starts_with (object_meta bucket key) (object_meta_prefix bucket') = true <-> bucket = bucket') /\
  (starts_with (object_version bucket key v) (object_version_prefix bucket' key') = true
   <-> bucket = bucket' /\ key = key').
Proof.
  intros. auto using parse_object_meta_back, parse_object_version_back,
    object_meta_prefix_exact, object_version_prefix_exact.
Qed.

Definition ex_nul_key : string := of_bytes (as_bytes "k" ++ nul :: as_bytes "x").

Lemma object_keys_exact_witness :
  parse_object_version (object_version "bucket" "a/b" "v1") = Some ("bucket"%string, "a/b"%string, "v1"%string).
Proof.
  refine (proj1 (proj2 (object_keys_exact "bucket" "a/b" "v1" "bucket" "a/b" _ _ _ _ _ _ _)));
    try (by eexists; vm_compute); apply Forall_forall; intros x Hx;
    revert x Hx; apply Forall_forall; repeat (constructor; [by vm_compute|]); constructor.
Defined.

(** A key with a NUL in it: its versions are under the prefix of another
    object's versions, and parse as that object's. *)
Lemma nul_key_versions_mixed :
  starts_with (object_version "b" ex_nul_key "v1") (object_version_prefix "b" "k") = true /\
  (fst <$> parse_object_version (object_version "b" ex_nul_key "v1"))
    = Some ("b"%string, "k"%string).
Proof. split; by vm_compute. Qed.

End MetaTypes.
