(* ===== verification/MetaWal.v ===== *)
(** * The metadata log

    Models [crates/storage/src/metadata/wal.rs] on the bytes of its file:
    the record format, the scan that opens a log (replaying it, telling a
    torn tail from damage, and cutting the tail off), appends with the
    failures a write can meet, group commit, marks, and the truncation a
    checkpoint makes by copying the log's tail to a new file. The checksum
    and the encoding of an operation are parameters ([Crc32c], [Prost]).

    Theorems on opening: every record that was whole is replayed, whatever
    follows it ([open_keeps_whole]), and a log whose last append was cut
    short opens at its last whole record ([open_torn]). *)
From stdpp Require Import base list option tactics.
From S2P Require Import Prelude Bytes Crc LogTail OrdMap DiskIndex MetaTypes.

Local Open Scope Z_scope.

Module MetaWal.
Import MetaTypes.

Definition WAL_MAGIC : Z := 0x4D57414C.
Definition RECORD_HEADER_SIZE : Z := 16.
Definition RECORD_OVERHEAD : Z := RECORD_HEADER_SIZE + 4.

Inductive WalError :=
  | TooSmall | InvalidMagic | Truncated | CrcMismatch
  | RecordsMissing | Undecodable | Damaged | ReadFailed
  | TooLarge | Refused | OutOfSpace | WriteFailed | SyncFailed
  | StaleMark | TruncationFailed.

(** [WalRecord]. *)
Record WalRecord := mk_record {
  r_lsn : Z;
  r_data : bytes;
}.

Section wal.
Context {crc : Crc32c} {prost : Prost}.

(** [WalRecord::to_bytes]: the checksum covers everything before it. *)
Definition body_bytes (r : WalRecord) : bytes :=
  to_le 4 WAL_MAGIC ++ to_le 8 (r_lsn r) ++ to_le 4 (lenZ (r_data r)) ++ r_data r.

Definition record_bytes (r : WalRecord) : bytes :=
  body_bytes r ++ to_le 4 (crc32c (body_bytes r)).

(** [WalRecord::from_bytes]. *)
Definition parse_record (data : bytes) : outcome WalError (WalRecord * Z) :=
  if lenZ data <? RECORD_HEADER_SIZE + 4 then Err TooSmall
  else
    '(magic, r) ← or_panic (read_le 4 data);
    if negb (magic =? WAL_MAGIC) then Err InvalidMagic
    else
      '(lsn, r) ← or_panic (read_le 8 r);
      '(data_len, r) ← or_panic (read_le 4 r);
      let total_size := RECORD_HEADER_SIZE + data_len + 4 in
      if lenZ data <? total_size then Err Truncated
      else
        '(record_data, r) ← or_panic (read_exact (Z.to_nat data_len) r);
        '(stored_crc, _) ← or_panic (read_le 4 r);
        let computed_crc := crc32c (take (Z.to_nat (RECORD_HEADER_SIZE + data_len)) data) in
        if negb (computed_crc =? stored_crc) then Err CrcMismatch
        else Ok (mk_record lsn record_data, total_size).

(** [Records]: the reader's rest, the file's length and the end of the last
    whole record. *)
Record Records := mk_records {
  rest : bytes;
  rlen : Z;
  rend : Z;
}.

Definition new_records (file : bytes) : Records := mk_records file (lenZ file) 0.

(** [Records::next]. A read that fails leaves the reader anywhere; it is not
    read again. *)
Definition next (rs : Records) : option (WalRecord * Records) :=
  '(header, r) ← read_exact 16 (rest rs);
  '(magic, h) ← read_le 4 header;
  if negb (magic =? WAL_MAGIC) then None
  else
    '(_, h) ← read_le 8 h;
    '(data_len, _) ← read_le 4 h;
    let total := RECORD_HEADER_SIZE + data_len + 4 in
    if rlen rs <? rend rs + total then None
    else
      '(body, r) ← read_exact (Z.to_nat (total - RECORD_HEADER_SIZE)) r;
      match parse_record (header ++ body) with
      | Ok (record, size) => Some (record, mk_records r (rlen rs) (rend rs + size))
      | _ => None
      end.

(** ** Opening *)

(** [decode]. *)
Definition decode (r : WalRecord) : outcome WalError MetadataOp :=
  ok_or (from_bytes (r_data r)) Undecodable.

(** The loop of [scan_wal]: what it calls back with, and where it stopped. A
    record takes at least [RECORD_OVERHEAD] bytes, so one unit of fuel per
    byte is enough. *)
Fixpoint scan_loop (fuel : nat) (from_lsn : Z) (rs : Records) (last_lsn : Z)
  : outcome WalError (list (Z * MetadataOp) * Z * Records) :=
  match fuel with
  | O => Ok ([], last_lsn, rs)
  | S fuel' =>
    match next rs with
    | None => Ok ([], last_lsn, rs)
    | Some (record, rs') =>
      if (if last_lsn =? 0 then from_lsn <? r_lsn record
          else negb (r_lsn record =? last_lsn + 1))
      then Err RecordsMissing
      else if from_lsn <=? r_lsn record then
        op ← decode record;
        '(ops, last, rs'') ← scan_loop fuel' from_lsn rs' (r_lsn record);
        Ok ((r_lsn record, op) :: ops, last, rs'')
      else scan_loop fuel' from_lsn rs' (r_lsn record)
    end
  end.

(** The probe of the search for a whole record after the last one. *)
Definition tail_probe (len last_lsn : Z) (at_ : Z) (head : bytes) : option Z :=
  if lenZ head <? RECORD_HEADER_SIZE then None
  else
    '(magic, h) ← read_le 4 head;
    if negb (magic =? WAL_MAGIC) then None
    else
      '(lsn, h) ← read_le 8 h;
      let most := saturating_add64 last_lsn ((len - at_) / RECORD_OVERHEAD + 1) in
      if (0 <? last_lsn) && ((lsn <=? last_lsn) || (most <? lsn)) then None
      else
        '(data_len, _) ← read_le 4 h;
        Some (RECORD_OVERHEAD + data_len).

Definition tail_whole (at_ : Z) (b : bytes) : option Z :=
  match parse_record b with Ok (r, _) => Some (r_lsn r) | _ => None end.

Definition whole_after (file : bytes) (bad last_lsn : Z) : outcome LogTail.ReadError (option (Z * Z)) :=
  LogTail.whole_record_after RECORD_HEADER_SIZE (tail_probe (lenZ file) last_lsn) tail_whole
    file bad (lenZ file).

(** [scan_wal] on a file that exists. *)
Definition scan_wal (file : bytes) (from_lsn : Z)
  : outcome WalError (list (Z * MetadataOp) * Z * Z) :=
  '(ops, last_lsn, rs) ← scan_loop (length file) from_lsn (new_records file) 0;
  if rend rs <? rlen rs then
    after ← map_err (fun _ => ReadFailed) (whole_after file (rend rs) last_lsn);
    match after with
    | Some _ => Err Damaged
    | None => Ok (ops, last_lsn, rend rs)
    end
  else Ok (ops, last_lsn, rend rs).

(** [entries_of], with the changes it makes to the index. *)
Definition entry_of (lsn : Z) (op : MetadataOp) : list MetadataEntry :=
  match op with
  | Put key value => [new_entry key value lsn]
  | Delete key => [tombstone_entry key lsn]
  | Batch _ => []
  end.

Definition entries_of (lsn : Z) (op : MetadataOp) : list MetadataEntry :=
  match op with
  | Batch ops => concat (entry_of lsn <$> ops)
  | _ => entry_of lsn op
  end.

Definition change_of (e : MetadataEntry) : DiskIndex.change :=
  (e_key e, if e_deleted e then None else Some (e_value e)).

(** ** The log *)

Record WalConfig := mk_config {
  sync_on_write : bool;
  max_size_bytes : Z;
}.

(** [MetadataWal]: the file appends go to, and the log's counters. *)
Record wal := mk_wal {
  wfile : bytes;
  size : Z;
  next_lsn : Z;
  written_lsn : Z;
  synced_lsn : Z;
  generation : Z;
  failed : bool;
  config : WalConfig;
}.

(** [create] and [with_file]. *)
Definition with_file (file : bytes) (c : WalConfig) (last_lsn sz : Z) : wal :=
  mk_wal file sz (last_lsn + 1) last_lsn last_lsn 0 false c.

Definition create (c : WalConfig) : wal := with_file [] c 0 0.

(** [open_replaying]: the entries it calls back with, and the log, whose
    file ends with its last whole record. *)
Definition open_replaying (file : bytes) (c : WalConfig) (from_lsn : Z)
  : outcome WalError (list MetadataEntry * wal) :=
  '(ops, last_lsn, end_) ← scan_wal file from_lsn;
  let entries := concat ((fun lo => entries_of lo.1 lo.2) <$> ops) in
  let file := if end_ <? lenZ file then take (Z.to_nat end_) file else file in
  Ok (entries, with_file file c last_lsn end_).

Definition current_lsn (w : wal) : Z := saturating_sub (next_lsn w) 1.
Definition needs_compaction (w : wal) : bool := max_size_bytes (config w) <? size w.

Definition fail (w : wal) : wal :=
  mk_wal (wfile w) (size w) (next_lsn w) (written_lsn w) (synced_lsn w) (generation w) true (config w).

Definition set_file (f : bytes) (w : wal) : wal :=
  mk_wal f (size w) (next_lsn w) (written_lsn w) (synced_lsn w) (generation w) (failed w) (config w).

(** How a write of a record goes: whole; short of room after some bytes,
    the cut that follows done or not; or failed after some bytes. *)
Inductive write_result := Written | NoRoom (n : nat) (cut : bool) | WriteError (n : nat).

(** [append_failed] after a write short of room left [f] as the file. *)
Definition cut_back (f : bytes) (start : Z) (cut : bool) (w : wal) : wal * outcome WalError Z :=
  if (lenZ f <? start) || negb cut then (fail (set_file f w), Err WriteFailed)
  else (set_file (take (Z.to_nat start) f) w, Err OutOfSpace).

(** The part of [append] under the writer's lock. *)
Definition append_record (op : MetadataOp) (res : write_result) (w : wal) : wal * outcome WalError Z :=
  let data := to_bytes op in
  if u32_max <? lenZ data then (w, Err TooLarge)
  else if failed w then (w, Err Refused)
  else
    let lsn := next_lsn w in
    let b := record_bytes (mk_record lsn data) in
    let start := size w in
    match res with
    | Written =>
      (mk_wal (wfile w ++ b) (size w + lenZ b) (lsn + 1) lsn (synced_lsn w) (generation w) (failed w)
         (config w), Ok lsn)
    | NoRoom n cut => cut_back (wfile w ++ take n b) start cut w
    | WriteError n => (fail (set_file (wfile w ++ take n b) w), Err WriteFailed)
    end.

(** [sync_through], in two steps: [sync_sample], under the sync handle's
    lock, says how far the sync that follows reaches ([None] when it is not
    needed); [sync_done] publishes it. *)
Definition sync_sample (lsn : Z) (w : wal) : outcome WalError (option Z) :=
  if lsn <=? synced_lsn w then Ok None
  else if failed w then Err Refused
  else Ok (Some (written_lsn w)).

Definition sync_done (covered : Z) (ok : bool) (w : wal) : wal * outcome WalError () :=
  if ok then
    (mk_wal (wfile w) (size w) (next_lsn w) (written_lsn w) (Z.max (synced_lsn w) covered)
       (generation w) (failed w) (config w), Ok ())
  else (fail w, Err SyncFailed).

(** [WalMark]. *)
Record WalMark := mk_mark {
  m_lsn : Z;
  m_offset : Z;
  m_file : Z;
}.

(** [file_len]: the size is taken from the file. *)
Definition set_size (sz : Z) (w : wal) : wal :=
  mk_wal (wfile w) sz (next_lsn w) (written_lsn w) (synced_lsn w) (generation w) (failed w) (config w).

Definition file_len (w : wal) : Z * wal := (lenZ (wfile w), set_size (lenZ (wfile w)) w).

Definition mark (w : wal) : wal * outcome WalError WalMark :=
  if failed w then (w, Err Refused)
  else let '(len, w') := file_len w in (w', Ok (mk_mark (current_lsn w) len (generation w))).

(** [truncate_through]'s first pass: how much of the file it copies. *)
Definition truncate_first (m : WalMark) (w : wal) : wal * outcome WalError Z :=
  if failed w then (w, Err Refused)
  else
    let '(len, w') := file_len w in
    if negb (m_file m =? generation w) || (len <? m_offset m) then (w', Err StaleMark)
    else (w', Ok len).

(** The bytes [from, upto) of a file. *)
Definition copied (f : bytes) (from upto : Z) : bytes :=
  take (Z.to_nat (upto - from)) (drop (Z.to_nat from) f).

(** Its second pass, under both locks, up to the rename: the bytes copied in
    the first pass ([new]) and those since. [ok] is whether the copy, the
    sync and the rename succeeded. *)
Definition truncate_rename (m : WalMark) (first : Z) (new : bytes) (ok : bool) (w : wal)
  : wal * outcome WalError () :=
  if failed w then (w, Err Refused)
  else
    let '(len, w') := file_len w in
    if negb (m_file m =? generation w) || (len <? first) then (w', Err StaleMark)
    else if negb ok then (w', Err TruncationFailed)
    else
      let kept := new ++ copied (wfile w) first len in
      (mk_wal kept (lenZ kept) (next_lsn w) (written_lsn w) (synced_lsn w) (generation w + 1)
         (failed w) (config w), Ok ()).

(** And after it: the directory's sync. *)
Definition truncate_done (ok : bool) (w : wal) : wal * outcome WalError () :=
  if ok then
    (mk_wal (wfile w) (size w) (next_lsn w) (written_lsn w) (Z.max (synced_lsn w) (written_lsn w))
       (generation w) (failed w) (config w), Ok ())
  else (fail w, Err SyncFailed).

(** [advance_past]. *)
Definition advance_past (lsn : Z) (w : wal) : wal :=
  mk_wal (wfile w) (size w) (Z.max (next_lsn w) (lsn + 1)) (Z.max (written_lsn w) lsn)
    (Z.max (synced_lsn w) lsn) (generation w) (failed w) (config w).

(** [sync]: every record appended so far. *)
Definition sync (w : wal) : outcome WalError (option Z) :=
  if failed w then Err Refused else sync_sample (written_lsn w) w.

(** [replay] of an open log: the operations from [from_lsn], and the last LSN
    it read. *)
Fixpoint replay_loop (fuel : nat) (from_lsn : Z) (rs : Records) (last_lsn : Z)
  : outcome WalError (list (Z * MetadataOp) * Z) :=
  match fuel with
  | O => Ok ([], last_lsn)
  | S fuel' =>
    match next rs with
    | None => Ok ([], last_lsn)
    | Some (record, rs') =>
      if from_lsn <=? r_lsn record then
        op ← decode record;
        '(ops, last) ← replay_loop fuel' from_lsn rs' (r_lsn record);
        Ok ((r_lsn record, op) :: ops, last)
      else replay_loop fuel' from_lsn rs' (r_lsn record)
    end
  end.

Definition replay (w : wal) (from_lsn : Z) : outcome WalError (list (Z * MetadataOp) * Z) :=
  replay_loop (length (wfile w)) from_lsn (new_records (wfile w)) (saturating_sub from_lsn 1).

(** ** Records as bytes *)

Definition record_ok (r : WalRecord) : Prop := is_u64 (r_lsn r) /\ lenZ (r_data r) <= u32_max.

Lemma body_length r : lenZ (body_bytes r) = RECORD_HEADER_SIZE + lenZ (r_data r).
Proof. unfold body_bytes. rewrite !lenZ_app, !lenZ_to_le. unfold RECORD_HEADER_SIZE. lia. Qed.

Lemma record_length r : lenZ (record_bytes r) = RECORD_OVERHEAD + lenZ (r_data r).
Proof.
  unfold record_bytes. rewrite lenZ_app, body_length, lenZ_to_le. unfold RECORD_OVERHEAD. lia.
Qed.

Lemma take_lenZ_app (a b : bytes) n : n = lenZ a -> take (Z.to_nat n) (a ++ b) = a.
Proof. intros ->. unfold lenZ. by rewrite Nat2Z.id, take_app_length. Qed.

(** The fields of a record read back from its bytes. *)
Lemma record_read r t : record_ok r ->
  read_le 4 (record_bytes r ++ t)
    = Some (WAL_MAGIC, to_le 8 (r_lsn r) ++ to_le 4 (lenZ (r_data r)) ++ r_data r
                       ++ to_le 4 (crc32c (body_bytes r)) ++ t).
Proof.
  intros _. unfold record_bytes, body_bytes at 1. rewrite <- !app_assoc. apply read_u32.
  unfold WAL_MAGIC. lia.
Qed.

Lemma parse_record_app r t : record_ok r ->
  parse_record (record_bytes r ++ t) = Ok (r, RECORD_OVERHEAD + lenZ (r_data r)).
Proof.
  intros Hok. pose proof Hok as [Hl Hd]. unfold parse_record, RECORD_OVERHEAD.
  pose proof (lenZ_nonneg (r_data r)). pose proof (lenZ_nonneg t).
  assert (lenZ (record_bytes r ++ t) = RECORD_HEADER_SIZE + 4 + lenZ (r_data r) + lenZ t) as Hlen
    by (rewrite lenZ_app, record_length; unfold RECORD_OVERHEAD; lia).
  rewrite Hlen. destruct (Z.ltb_spec (RECORD_HEADER_SIZE + 4 + lenZ (r_data r) + lenZ t) (RECORD_HEADER_SIZE + 4)); [lia|].
  rewrite record_read by done. cbn [or_panic mbind outcome_bind]. rewrite Z.eqb_refl. cbn [negb].
  rewrite read_u64 by done. cbn [or_panic mbind outcome_bind].
  rewrite read_u32 by (unfold u32_max in *; lia). cbn [or_panic mbind outcome_bind].
  destruct (Z.ltb_spec (RECORD_HEADER_SIZE + 4 + lenZ (r_data r) + lenZ t)
              (RECORD_HEADER_SIZE + lenZ (r_data r) + 4)); [lia|].
  rewrite read_exact_app_eq by (unfold lenZ; lia). cbn [or_panic mbind outcome_bind].
  rewrite read_u32 by apply crc32c_u32. cbn [or_panic mbind outcome_bind].
  unfold record_bytes. rewrite <- app_assoc, take_lenZ_app by by rewrite body_length.
  rewrite Z.eqb_refl. cbn. by destruct r; do 2 f_equal; lia.
Qed.

Definition header_bytes (r : WalRecord) : bytes :=
  to_le 4 WAL_MAGIC ++ to_le 8 (r_lsn r) ++ to_le 4 (lenZ (r_data r)).

Lemma record_header_length r : length (header_bytes r) = 16%nat.
Proof. unfold header_bytes. by rewrite !length_app, !to_le_length. Qed.

Lemma record_split r :
  record_bytes r = header_bytes r ++ r_data r ++ to_le 4 (crc32c (body_bytes r)).
Proof. unfold record_bytes, body_bytes, header_bytes. by rewrite <- !app_assoc. Qed.

(** A header, read: the length it gives. *)
Lemma header_read r : record_ok r ->
  read_le 4 (header_bytes r) = Some (WAL_MAGIC, to_le 8 (r_lsn r) ++ to_le 4 (lenZ (r_data r))) /\
  read_le 8 (to_le 8 (r_lsn r) ++ to_le 4 (lenZ (r_data r))) = Some (r_lsn r, to_le 4 (lenZ (r_data r))) /\
  read_le 4 (to_le 4 (lenZ (r_data r))) = Some (lenZ (r_data r), []).
Proof.
  intros [Hl Hd]. pose proof (lenZ_nonneg (r_data r)). unfold header_bytes. split_and!.
  - apply read_u32. unfold WAL_MAGIC. lia.
  - by apply read_u64.
  - rewrite <- (app_nil_r (to_le 4 _)). apply read_u32. unfold u32_max in *. lia.
Qed.

Lemma next_record r t len e : record_ok r -> e + lenZ (record_bytes r) <= len ->
  next (mk_records (record_bytes r ++ t) len e)
  = Some (r, mk_records t len (e + lenZ (record_bytes r))).
Proof.
  intros Hok Hlen. destruct (header_read r Hok) as (H1 & H2 & H3). unfold next. cbn [rest rlen rend].
  pose proof (record_length r) as Hrl. unfold RECORD_OVERHEAD in Hrl.
  rewrite record_split at 1. rewrite <- app_assoc, read_exact_app_eq by apply record_header_length.
  cbn [mbind option_bind]. rewrite H1. cbn [mbind option_bind]. rewrite Z.eqb_refl. cbn [negb].
  rewrite H2. cbn [mbind option_bind]. rewrite H3. cbn [mbind option_bind].
  destruct (Z.ltb_spec len (e + (RECORD_HEADER_SIZE + lenZ (r_data r) + 4))); [lia|].
  rewrite read_exact_app_eq.
  2:{ rewrite length_app, to_le_length. unfold lenZ. lia. }
  cbn [mbind option_bind]. rewrite <- record_split, <- (app_nil_r (record_bytes r)).
  rewrite parse_record_app by done. rewrite app_nil_r, record_length. done.
Qed.

(** A record cut short is not read. *)
Lemma next_torn r j len e : record_ok r -> (j < length (record_bytes r))%nat ->
  len = e + Z.of_nat j ->
  next (mk_records (take j (record_bytes r)) len e) = None.
Proof.
  intros Hok Hj ->. destruct (header_read r Hok) as (H1 & H2 & H3). unfold next. cbn [rest rlen rend].
  pose proof (record_length r) as Hrl. unfold RECORD_OVERHEAD, lenZ in Hrl.
  destruct (decide (j < 16)%nat) as [Hs|Hs].
  { rewrite (proj2 (read_exact_none 16 _)); [done|]. rewrite length_take. lia. }
  rewrite record_split, take_app_ge by (rewrite record_header_length; lia).
  rewrite read_exact_app_eq by apply record_header_length.
  cbn [mbind option_bind]. rewrite H1. cbn [mbind option_bind]. rewrite Z.eqb_refl. cbn [negb].
  rewrite H2. cbn [mbind option_bind]. rewrite H3. cbn [mbind option_bind].
  destruct (Z.ltb_spec (e + Z.of_nat j) (e + (RECORD_HEADER_SIZE + lenZ (r_data r) + 4))); [done|].
  unfold lenZ in *. lia.
Qed.

(** ** A log of operations *)

(** The bytes of a log that holds [ops] numbered from [s + 1]. *)
Fixpoint log_bytes (s : Z) (ops : list MetadataOp) : bytes :=
  match ops with
  | [] => []
  | op :: ops' => record_bytes (mk_record (s + 1) (to_bytes op)) ++ log_bytes (s + 1) ops'
  end.

(** The operations from [from_lsn] on, with their numbers. *)
Fixpoint from (from_lsn s : Z) (ops : list MetadataOp) : list (Z * MetadataOp) :=
  match ops with
  | [] => []
  | op :: ops' =>
    (if from_lsn <=? s + 1 then [(s + 1, op)] else []) ++ from from_lsn (s + 1) ops'
  end.

(** An operation the log takes. *)
Definition op_ok (op : MetadataOp) : Prop := lenZ (to_bytes op) <= u32_max.

Lemma log_bytes_app s a b : log_bytes s (a ++ b) = log_bytes s a ++ log_bytes (s + lenZ a) b.
Proof.
  revert s. induction a as [|op a IH]; intros s; cbn [app log_bytes].
  - by rewrite Z.add_0_r.
  - rewrite IH, <- app_assoc, lenZ_cons. do 3 f_equal. lia.
Qed.

Lemma record_ok_op s op : 0 <= s -> s + 1 < two64 -> op_ok op -> record_ok (mk_record (s + 1) (to_bytes op)).
Proof. intros. split; cbn; [unfold is_u64; lia|done]. Qed.

Lemma log_bytes_length s ops : (length ops <= length (log_bytes s ops))%nat.
Proof.
  revert s. induction ops as [|op ops IH]; intros s; cbn [log_bytes]; [done|].
  rewrite length_app. pose proof (record_length (mk_record (s + 1) (to_bytes op))) as H.
  unfold lenZ, RECORD_OVERHEAD, RECORD_HEADER_SIZE in H. specialize (IH (s + 1)). cbn. lia.
Qed.

(** Scanning whole records: each is read and called back with, then the scan
    goes on after them. *)
Lemma scan_records ops fuel from_lsn s t len e last :
  0 <= s -> s + lenZ ops < two64 -> Forall op_ok ops ->
  (last = 0 /\ s + 1 <= from_lsn \/ last = s /\ 0 < s) ->
  e + lenZ (log_bytes s ops) <= len ->
  scan_loop (length ops + fuel) from_lsn (mk_records (log_bytes s ops ++ t) len e) last
  = '(more, last', rs) ← scan_loop fuel from_lsn (mk_records t len (e + lenZ (log_bytes s ops)))
       (if decide (ops = []) then last else s + lenZ ops);
    Ok (from from_lsn s ops ++ more, last', rs).
Proof.
  revert s e last. induction ops as [|op ops IH]; intros s e last Hs Hb Hok Hlast Hlen.
  { cbn [length log_bytes app from Nat.add]. rewrite Z.add_0_r, decide_True by done.
    by destruct scan_loop as [[[? ?] ?]| |]. }
  apply Forall_cons in Hok as [Hop Hok]. rewrite lenZ_cons in Hb. pose proof (lenZ_nonneg ops).
  cbn [length Nat.add scan_loop log_bytes] in *. rewrite lenZ_app in *.
  pose proof (lenZ_nonneg (log_bytes (s + 1) ops)).
  assert (record_ok (mk_record (s + 1) (to_bytes op))) as Hrec by (apply record_ok_op; (done || lia)).
  rewrite <- app_assoc, next_record by (done || lia). cbn [r_lsn].
  assert ((if last =? 0 then from_lsn <? s + 1 else negb (s + 1 =? last + 1)) = false) as ->.
  { destruct Hlast as [[-> ?]|[-> ?]]; cbn.
    - apply Z.ltb_ge. lia.
    - destruct (Z.eqb_spec s 0); [lia|]. by rewrite Z.eqb_refl. }
  rewrite IH by (done || lia). rewrite lenZ_cons. unfold decode. cbn [r_data].
  rewrite from_to_bytes. cbn [ok_or mbind outcome_bind from].
  rewrite (decide_False (P := op :: ops = [])) by done.
  replace (if decide (ops = []) then s + 1 else s + 1 + lenZ ops) with (s + (1 + lenZ ops))
    by (case_decide; subst; unfold lenZ; cbn [length]; lia).
  rewrite (Z.add_assoc e). destruct (from_lsn <=? s + 1); destruct scan_loop as [[[? ?] ?]| |]; done.
Qed.

Lemma scan_stop fuel from_lsn rs last : next rs = None ->
  scan_loop fuel from_lsn rs last = Ok ([], last, rs).
Proof. intros H. destruct fuel; cbn; [done|]. by rewrite H. Qed.

(** What a crash can leave of an append: part of its record. *)
Definition torn (t : bytes) : Prop :=
  exists r j, record_ok r /\ (j < length (record_bytes r))%nat /\ t = take j (record_bytes r).

(** No whole record starts inside the tail, where the search looks. *)
Definition quiet (file : bytes) (bad last_lsn : Z) : Prop :=
  LogTail.search RECORD_HEADER_SIZE (tail_probe (lenZ file) last_lsn) tail_whole file bad (lenZ file)
  = None.

Lemma tail_probe_nonneg len last a h n : tail_probe len last a h = Some n -> 0 <= n.
Proof.
  unfold tail_probe. case_if; [done|]. destruct (read_le 4 h) as [[m h1]|]; cbn; [|done].
  case_if; [done|]. destruct (read_le 8 h1) as [[l h2]|]; cbn; [|done].
  case_if; [done|]. destruct (read_le 4 h2) as [[d h3]|] eqn:E; cbn; [|done].
  apply read_le_some in E as [_ ?]. intros [= <-]. unfold RECORD_OVERHEAD, RECORD_HEADER_SIZE. lia.
Qed.

Lemma whole_after_quiet file bad last : 0 <= bad < u64_max -> quiet file bad last ->
  whole_after file bad last = Ok None.
Proof.
  intros Hb Hq. unfold whole_after. rewrite LogTail.whole_record_after_search; [by rewrite Hq|..].
  - unfold RECORD_HEADER_SIZE. lia.
  - apply tail_probe_nonneg.
  - done.
  - lia.
Qed.

Definition last_of (s : Z) (ops : list MetadataOp) : Z := if decide (ops = []) then 0 else s + lenZ ops.

Lemma next_torn_tail t len e : torn t -> len = e + lenZ t -> next (mk_records t len e) = None.
Proof.
  intros (r & j & Hr & Hj & ->) ->. apply next_torn; [done..|].
  unfold lenZ. rewrite length_take. lia.
Qed.

(** The scan of a log whose last append was cut short, or none. *)
Lemma scan_torn_log s ops t from_lsn : 0 <= s -> s + lenZ ops < two64 -> Forall op_ok ops ->
  s + 1 <= from_lsn -> torn t -> lenZ (log_bytes s ops ++ t) < u64_max ->
  quiet (log_bytes s ops ++ t) (lenZ (log_bytes s ops)) (last_of s ops) ->
  scan_wal (log_bytes s ops ++ t) from_lsn
  = Ok (from from_lsn s ops, last_of s ops, lenZ (log_bytes s ops)).
Proof.
  intros Hs Hb Hok Hfrom Ht Hlen Hq. unfold scan_wal, new_records. rewrite lenZ_app in *.
  pose proof (lenZ_nonneg (log_bytes s ops)). pose proof (lenZ_nonneg t).
  pose proof (log_bytes_length s ops).
  replace (length (log_bytes s ops ++ t)) with (length ops + (length (log_bytes s ops ++ t) - length ops))%nat
    by (rewrite length_app; lia).
  rewrite scan_records by (done || lia || tauto).
  rewrite scan_stop by (apply next_torn_tail; [done|lia]). cbn [mbind outcome_bind rend rlen].
  fold (last_of s ops). rewrite app_nil_r, Z.add_0_l.
  destruct (Z.ltb_spec (lenZ (log_bytes s ops)) (lenZ (log_bytes s ops) + lenZ t)); [|done].
  by rewrite whole_after_quiet by (done || lia).
Qed.

Definition entries (l : list (Z * MetadataOp)) : list MetadataEntry :=
  concat ((fun lo => entries_of lo.1 lo.2) <$> l).

Lemma open_torn_spec s ops t c from_lsn : 0 <= s -> s + lenZ ops < two64 -> Forall op_ok ops ->
  s + 1 <= from_lsn -> torn t -> lenZ (log_bytes s ops ++ t) < u64_max ->
  quiet (log_bytes s ops ++ t) (lenZ (log_bytes s ops)) (last_of s ops) ->
  open_replaying (log_bytes s ops ++ t) c from_lsn
  = Ok (entries (from from_lsn s ops),
        with_file (log_bytes s ops) c (last_of s ops) (lenZ (log_bytes s ops))).
Proof.
  intros. unfold open_replaying. rewrite scan_torn_log by done. cbn [mbind outcome_bind].
  do 3 f_equal. rewrite lenZ_app. pose proof (lenZ_nonneg t). case_if.
  - by apply take_lenZ_app.
  - assert (t = []) as -> by (apply lenZ_nil_inv; lia). apply app_nil_r.
Qed.

(** ** Whatever follows the whole records *)

Lemma parse_size data r n : parse_record data = Ok (r, n) -> 0 <= n.
Proof.
  unfold parse_record. case_if; [done|]. destruct (read_le 4 data) as [[m r1]|]; cbn; [|done].
  case_if; [done|]. destruct (read_le 8 r1) as [[l r2]|]; cbn; [|done].
  destruct (read_le 4 r2) as [[d r3]|] eqn:E; cbn; [|done]. apply read_le_some in E as [_ ?].
  case_if; [done|]. destruct (read_exact _ r3) as [[b r4]|]; cbn; [|done].
  destruct (read_le 4 r4) as [[c r5]|]; cbn; [|done]. case_if; [done|].
  intros [= _ <-]. unfold RECORD_HEADER_SIZE. lia.
Qed.

Lemma next_end rs r rs' : next rs = Some (r, rs') -> rend rs <= rend rs'.
Proof.
  unfold next. destruct (read_exact 16 (rest rs)) as [[h r1]|]; cbn; [|done].
  destruct (read_le 4 h) as [[m h1]|]; cbn; [|done]. case_if; [done|].
  destruct (read_le 8 h1) as [[l h2]|]; cbn; [|done].
  destruct (read_le 4 h2) as [[d h3]|]; cbn; [|done]. case_if; [done|].
  destruct (read_exact _ r1) as [[b r2]|]; cbn; [|done].
  destruct (parse_record (h ++ b)) as [[r' n]| |] eqn:E; try done. apply parse_size in E.
  intros [= <- <-]. cbn. lia.
Qed.

Lemma scan_grows fuel from_lsn rs last ops last' rs' :
  scan_loop fuel from_lsn rs last = Ok (ops, last', rs') ->
  rend rs <= rend rs' /\ (0 < last -> last <= last').
Proof.
  revert rs last ops. induction fuel as [|fuel IH]; intros rs last ops; cbn.
  { intros [= _ <- <-]. lia. }
  destruct (next rs) as [[r rs1]|] eqn:E; [|intros [= _ <- <-]; lia].
  apply next_end in E. destruct (if last =? 0 then _ else _) eqn:Eb; [done|].
  assert (0 < last -> last < r_lsn r) as Hl.
  { intros. destruct (Z.eqb_spec last 0); [lia|]. apply negb_false_iff, Z.eqb_eq in Eb. lia. }
  destruct (from_lsn <=? r_lsn r).
  - destruct (decode r); cbn; try done. destruct scan_loop as [[[ops1 last1] rs2]| |] eqn:E1; try done.
    cbn. intros [= _ <- <-]. apply IH in E1. lia.
  - intros H. apply IH in H. lia.
Qed.

(** Opening a metadata log loses no record that was whole, whatever bytes
    follow: if the open succeeds on a log of [ops] followed by anything at
    all (a torn append, several appends written out of order, garbage), it
    replays every one of them from the index's checkpoint on, in order and
    before anything else, keeps their bytes, and numbers the next record
    past them. *)
Theorem open_keeps_whole s ops t c from_lsn es w :
  0 <= s -> s + lenZ ops < two64 -> Forall op_ok ops -> s + 1 <= from_lsn ->
  open_replaying (log_bytes s ops ++ t) c from_lsn = Ok (es, w) ->
  (exists more, es = entries (from from_lsn s ops) ++ more) /\
  (exists more, wfile w = log_bytes s ops ++ more) /\
  (ops <> [] -> s + lenZ ops < next_lsn w).
Proof.
  intros Hs Hb Hok Hfrom. unfold open_replaying, scan_wal, new_records. rewrite !lenZ_app.
  pose proof (log_bytes_length s ops). pose proof (lenZ_nonneg t).
  replace (length (log_bytes s ops ++ t)) with (length ops + (length (log_bytes s ops ++ t) - length ops))%nat
    by (rewrite length_app; lia).
  rewrite scan_records by (done || lia || tauto).
  destruct scan_loop as [[[more last'] rs']| |] eqn:E; try done. apply scan_grows in E as [E1 E2].
  cbn [mbind outcome_bind rend] in *. rewrite Z.add_0_l in E1.
  assert (exists x, take (Z.to_nat (rend rs')) (log_bytes s ops ++ t) = log_bytes s ops ++ x) as [x Hx].
  { eexists. rewrite take_app_ge by (unfold lenZ in *; lia). done. }
  assert (ops <> [] -> s + lenZ ops <= last') as Hl.
  { intros. rewrite decide_False in E2 by done. destruct ops; [done|]. rewrite lenZ_cons in *.
    pose proof (lenZ_nonneg ops). apply E2. lia. }
  intros H'. case_if; [|].
  - destruct (whole_after _ _ _) as [[?|]| |]; cbn in H'; try done. inv_ok.
    split_and!; [|case_if; cbn; eauto|cbn; intros; specialize (Hl ltac:(done)); lia].
    eexists. unfold entries. by rewrite fmap_app, concat_app.
  - cbn in H'. inv_ok. split_and!; [|case_if; cbn; eauto|cbn; intros; specialize (Hl ltac:(done)); lia].
    eexists. unfold entries. by rewrite fmap_app, concat_app.
Qed.

(** A log whose last append a crash cut short opens at its last whole
    record: the records before it are replayed from the checkpoint on and
    nothing else is, the tail is cut off the file, and appends number on
    from the last record; provided no whole record starts inside the torn
    bytes, which the open takes for damage. *)
Theorem open_torn s ops t c from_lsn : 0 <= s -> s + lenZ ops < two64 -> Forall op_ok ops ->
  s + 1 <= from_lsn -> torn t -> lenZ (log_bytes s ops ++ t) < u64_max ->
  quiet (log_bytes s ops ++ t) (lenZ (log_bytes s ops)) (last_of s ops) ->
  open_replaying (log_bytes s ops ++ t) c from_lsn
  = Ok (entries (from from_lsn s ops),
        with_file (log_bytes s ops) c (last_of s ops) (lenZ (log_bytes s ops))).
Proof. exact (open_torn_spec s ops t c from_lsn). Qed.

(** Without knowing the tail: an open that succeeds gives the same. *)
Lemma open_torn_ok s ops t c from_lsn x : 0 <= s -> s + lenZ ops < two64 -> Forall op_ok ops ->
  s + 1 <= from_lsn -> torn t ->
  open_replaying (log_bytes s ops ++ t) c from_lsn = Ok x ->
  x = (entries (from from_lsn s ops),
       with_file (log_bytes s ops) c (last_of s ops) (lenZ (log_bytes s ops))).
Proof.
  intros Hs Hb Hok Hfrom Ht. unfold open_replaying, scan_wal, new_records. rewrite !lenZ_app.
  pose proof (lenZ_nonneg t). pose proof (log_bytes_length s ops).
  replace (length (log_bytes s ops ++ t)) with (length ops + (length (log_bytes s ops ++ t) - length ops))%nat
    by (rewrite length_app; lia).
  rewrite scan_records by (done || lia || tauto).
  rewrite scan_stop by (apply next_torn_tail; [done|lia]). cbn [mbind outcome_bind rend rlen].
  fold (last_of s ops). rewrite app_nil_r, Z.add_0_l. intros H'.
  assert (t = [] \/ 0 < lenZ t) as [->|Hlt].
  { destruct t; [by left|]. rewrite lenZ_cons. right. pose proof (lenZ_nonneg t). lia. }
  - change (lenZ []) with 0 in H'. rewrite Z.add_0_r, Z.ltb_irrefl in H'. cbn in H'.
    rewrite Z.ltb_irrefl in H'. inv_ok. by rewrite app_nil_r.
  - rewrite (proj2 (Z.ltb_lt _ _)) in H' by lia.
    destruct (whole_after _ _ _) as [[?|]| |]; cbn in H'; try done.
    rewrite (proj2 (Z.ltb_lt _ _)) in H' by lia. inv_ok. by rewrite take_lenZ_app.
Qed.

(** ** Prefixes of a log's bytes *)

Lemma torn_nil : torn [].
Proof.
  exists (mk_record 0 []), 0%nat. split_and!; [split; [unfold is_u64, two64; cbn; lia|by vm_compute]| |done].
  pose proof (record_length (mk_record 0 [])) as H.
  cbn [r_data] in H. change (lenZ []) with 0 in H. unfold lenZ, RECORD_OVERHEAD, RECORD_HEADER_SIZE in H.
  lia.
Qed.

Lemma torn_take t j : torn t -> torn (take j t).
Proof.
  intros (r & i & Hr & Hi & ->). exists r, (j `min` i)%nat. split_and!; [done|lia|].
  by rewrite take_take.
Qed.

Lemma torn_record r j : record_ok r -> (j < length (record_bytes r))%nat -> torn (take j (record_bytes r)).
Proof. intros. by exists r, j. Qed.

(** A prefix of a log ends in one of its records, or in the torn bytes. *)
Lemma log_prefix s ops t j : 0 <= s -> s + lenZ ops < two64 -> Forall op_ok ops -> torn t ->
  exists k t', take j (log_bytes s ops ++ t) = log_bytes s (take k ops) ++ t' /\ torn t' /\
    (k <= length ops)%nat /\
    forall i, (i <= length ops)%nat -> (length (log_bytes s (take i ops)) <= j)%nat -> (i <= k)%nat.
Proof.
  revert s j. induction ops as [|op ops IH]; intros s j Hs Hb Hok Ht.
  { exists 0%nat, (take j t). split_and!; [done|by apply torn_take|done|]. cbn. lia. }
  apply Forall_cons in Hok as [Hop Hok]. rewrite lenZ_cons in Hb. pose proof (lenZ_nonneg ops).
  assert (record_ok (mk_record (s + 1) (to_bytes op))) as Hrec by (apply record_ok_op; (done || lia)).
  cbn [log_bytes]. set (b := record_bytes (mk_record (s + 1) (to_bytes op))) in *.
  destruct (decide (j < length b)%nat) as [Hj|Hj].
  - exists 0%nat, (take j b). split_and!; [|by apply torn_record|lia|].
    + rewrite <- app_assoc, take_app_le by lia. done.
    + intros [|i] _; [lia|]. cbn [take log_bytes]. rewrite length_app. fold b. lia.
  - destruct (IH (s + 1) (j - length b)%nat ltac:(lia) ltac:(lia) Hok Ht) as (k & t' & Heq & Ht' & Hk & Hmax).
    exists (S k), t'. split_and!; [|done|cbn; lia|].
    + rewrite <- app_assoc, take_app_ge, Heq by lia. cbn [take log_bytes]. by rewrite app_assoc.
    + intros [|i] Hi; [lia|]. cbn [take log_bytes length] in *. rewrite length_app. fold b.
      intros Hl. apply le_n_S, Hmax; lia.
Qed.

End wal.

(** ** Examples *)

#[local] Existing Instance castagnoli.

Definition ex_config : WalConfig := mk_config true (64 * 1024 * 1024).

Definition ex_ops : list MetadataOp :=
  [Put (as_bytes "a") (as_bytes "1"); Batch [Put (as_bytes "b") (as_bytes "2"); Delete (as_bytes "a")]].

(** An append of a third record, cut short. *)
Definition ex_third : WalRecord := mk_record 3 (to_bytes (Put (as_bytes "c") (as_bytes "3"))).
Definition ex_torn : bytes := take 19 (record_bytes ex_third).

Definition ex_file : bytes := log_bytes 0 ex_ops ++ ex_torn.

Lemma ex_ops_ok : Forall op_ok ex_ops.
Proof. repeat constructor; by vm_compute. Qed.

Lemma ex_torn_torn : torn ex_torn.
Proof.
  exists ex_third, 19%nat. split_and!; [|by apply Nat.ltb_lt; vm_compute|reflexivity].
  split; [unfold is_u64, two64; cbn; lia|by vm_compute].
Qed.

Lemma open_torn_witness :
  open_replaying ex_file ex_config 2
  = Ok ([new_entry (as_bytes "b") (as_bytes "2") 2; tombstone_entry (as_bytes "a") 2],
        with_file (log_bytes 0 ex_ops) ex_config 2 (lenZ (log_bytes 0 ex_ops))).
Proof.
  unfold ex_file. rewrite (open_torn 0 ex_ops ex_torn ex_config 2);
    [by vm_compute|lia|by vm_compute|apply ex_ops_ok|lia|apply ex_torn_torn|by vm_compute|by vm_compute].
Defined.

Lemma open_keeps_whole_witness :
  exists es w, open_replaying ex_file ex_config 1 = Ok (es, w) /\ 2 < next_lsn w.
Proof.
  destruct (open_replaying ex_file ex_config 1) as [[es w]| |] eqn:E;
    [|exfalso; by vm_compute in E..].
  exists es, w. split; [done|].
  refine (proj2 (proj2 (open_keeps_whole 0 ex_ops ex_torn ex_config 1 es w _ _ ex_ops_ok _ E)) _);
    [lia|by vm_compute|lia|done].
Defined.

End MetaWal.
