(* ===== verification/MetaStore.v ===== *)
(** * The OSD's metadata store

    Models [crates/storage/src/metadata/store.rs]: the log of [MetaWal] in
    front of the index of [DiskIndex]. Writers, the group commit, the
    checkpoint and a power cut interleave as events ([exec]): a write is an
    append, a sync that covers it and its application to the memtable; a
    checkpoint is a mark and a freeze with no write between, a flush, a copy
    of the log's tail, a rename and the directory's sync, each of which may
    fail; a power cut leaves the index file as last committed and some
    prefix of the log that holds at least what was synced (of the file the
    rename replaced, while the rename is not durable), and the store opens
    again on them.

    What the state keeps besides the program's own is marked: [durable] and
    [old] say what a power cut can leave, [hist] is every operation in the
    log, [acked] the writes that returned. *)
From stdpp Require Import base list option tactics gmap.
From S2P Require Import Prelude Bytes Crc OrdMap DiskIndex MetaTypes MetaWal.

Local Open Scope Z_scope.

Module MetaStore.
Import OrdMap DiskIndex.DiskIndex MetaTypes.
Import MetaWal.MetaWal (WalConfig, sync_on_write, max_size_bytes, wal, WalError, WalMark, write_result,
  Written, NoRoom, WriteError, wfile, size, next_lsn, written_lsn, synced_lsn, generation, failed, config,
  m_lsn, m_offset, m_file, append_record, record_bytes, mk_record, sync_sample, sync_done, mark,
  truncate_first, truncate_rename, truncate_done, copied, advance_past, current_lsn, open_replaying,
  change_of, entries_of, entry_of, create, needs_compaction).

Section store.
Context {redb : Redb} {crc : Crc32c} {prost : Prost}.

(** ** Applying operations *)

(** [apply]. *)
Fixpoint apply_op (ix : index) (op : MetadataOp) : index :=
  match op with
  | Put key value => put ix key value
  | Delete key => delete ix key
  | Batch ops => fold_left apply_op ops ix
  end.

(** The operation each call of the store logs. *)
Definition put_op (key value : bytes) : MetadataOp := Put key value.
Definition delete_op (key : bytes) : MetadataOp := Delete key.
Definition write_op (ops : list MetadataOp) : option MetadataOp :=
  match ops with [] => None | _ => Some (Batch ops) end.
Definition batch_put_op (entries : list (bytes * bytes)) : option MetadataOp :=
  write_op ((fun e => Put e.1 e.2) <$> entries).
Definition batch_delete_op (keys : list bytes) : option MetadataOp := write_op (Delete <$> keys).

(** [checkpoint_due]. *)
Definition checkpoint_due (w : wal) (ix : index) (memtable_limit : Z) : bool :=
  (memtable_limit <=? memtable_bytes ix) || needs_compaction w || has_frozen ix.

(** [open], on the index file [d] and the log's bytes. *)
Definition open_store (d : db) (file : bytes) (c : WalConfig) : outcome WalError (index * wal) :=
  let ix := open d in
  let checkpoint := checkpoint_lsn ix in
  '(entries, w) ← open_replaying file c (checkpoint + 1);
  Ok (foldl apply_entry ix (change_of <$> entries), advance_past checkpoint w).

(** [create]. *)
Definition create_store (c : WalConfig) : index * wal := (open new_db, create c).

(** ** The store in use *)

(** Where a checkpoint is; [Copying] has the bytes its first pass copied. *)
Inductive phase :=
  | Idle
  | Marked (m : WalMark)
  | Flushed (m : WalMark)
  | Copying (m : WalMark) (first : Z) (new : bytes)
  | Renamed.

Record store := mk_store {
  ix : index;
  log : wal;
  (** Writes in the log and not in the index: appended and waiting for their
      sync or about to be applied, or failed. *)
  inflight : list (Z * MetadataOp);
  (** A sync under way: how far it reaches, and the file as it was sampled. *)
  syncing : option (Z * bytes);
  ckpt : phase;
  (** What of the log's file is on disk whatever happens; and of the file a
      rename replaced, with all of it, while the rename is not durable. *)
  durable : bytes;
  old : option (bytes * bytes);
  (** Every operation in the log, from LSN 1; and those acknowledged. *)
  hist : list MetadataOp;
  acked : list (Z * MetadataOp);
}.

Definition init (c : WalConfig) : store :=
  mk_store (open new_db) (create c) [] None Idle [] None [] [].

Definition set_ix (x : index) (st : store) : store :=
  mk_store x (log st) (inflight st) (syncing st) (ckpt st) (durable st) (old st) (hist st) (acked st).
Definition set_log (w : wal) (st : store) : store :=
  mk_store (ix st) w (inflight st) (syncing st) (ckpt st) (durable st) (old st) (hist st) (acked st).
Definition set_ckpt (p : phase) (st : store) : store :=
  mk_store (ix st) (log st) (inflight st) (syncing st) p (durable st) (old st) (hist st) (acked st).
Definition set_syncing (s : option (Z * bytes)) (st : store) : store :=
  mk_store (ix st) (log st) (inflight st) s (ckpt st) (durable st) (old st) (hist st) (acked st).
Definition set_disk (d : bytes) (o : option (bytes * bytes)) (st : store) : store :=
  mk_store (ix st) (log st) (inflight st) (syncing st) (ckpt st) d o (hist st) (acked st).

Inductive event :=
  | EAppend (op : MetadataOp) (res : write_result)
  | ESyncBegin (lsn : Z)
  | ESyncEnd (ok : bool)
  | EApply (lsn : Z)
  | ELeftover (ok : bool)
  | EMark
  | EFlush (ok : bool)
  | ECopy (ok : bool)
  | ERename (ok : bool)
  | EDirSync (ok : bool)
  | EPowerCut (back : bool) (more : nat).

(** A write the log takes: puts and deletes, alone or in one batch, of
    entries whose size a [usize] holds. *)
Definition plain (op : MetadataOp) : bool := match op with Batch _ => false | _ => true end.
Definition flat (op : MetadataOp) : bool :=
  match op with Batch ops => forallb plain ops | _ => true end.

(** The changes an operation makes, in order. *)
Definition changes (op : MetadataOp) : list change := change_of <$> entries_of 0 op.

Definition fitsb (e : change) : bool :=
  lenZ e.1 + match e.2 with Some v => lenZ v | None => 0 end + 64 <? two64.

(** A failed write whose bytes are all in the file, all the same. *)
Definition landed (op : MetadataOp) (res : write_result) (w : wal) : bool :=
  let b := record_bytes (mk_record (next_lsn w) (to_bytes op)) in
  negb (u32_max <? lenZ (to_bytes op)) && negb (failed w) &&
  match res with
  | WriteError n => (length b <=? n)%nat
  | NoRoom n cut => negb cut && (length b <=? n)%nat
  | Written => false
  end.

Definition do_append (op : MetadataOp) (res : write_result) (st : store) : store :=
  let '(w, r) := append_record op res (log st) in
  let logged := landed op res (log st) || is_ok r in
  mk_store (ix st) w
    (if logged then inflight st ++ [(next_lsn (log st), op)] else inflight st)
    (syncing st) (ckpt st) (durable st) (old st)
    (if logged then hist st ++ [op] else hist st) (acked st).

Definition is_renamed (p : phase) : bool := match p with Renamed => true | _ => false end.

(** The log a power cut leaves: what of it is on disk for sure, and all that
    was written of it. [back] has the directory come back as it was before a
    rename that is not durable. *)
Definition left_by_cut (st : store) (back : bool) : option (bytes * bytes) :=
  if back then old st else Some (durable st, wfile (log st)).

(** One event, [None] where the locks or the code's order forbid it: the
    truncation holds the writer's and the sync handle's locks from its
    rename to its return, and a sync holds the handle's. *)
Definition exec (st : store) (ev : event) : option store :=
  match ev with
  | EAppend op res =>
    if negb (is_renamed (ckpt st)) && flat op && forallb fitsb (changes op)
       && (next_lsn (log st) + 1 <? two64)
    then Some (do_append op res st) else None
  | ESyncBegin lsn =>
    if is_renamed (ckpt st) then None
    else match syncing st, sync_sample lsn (log st) with
         | None, Ok (Some covered) => Some (set_syncing (Some (covered, wfile (log st))) st)
         | _, _ => None
         end
  | ESyncEnd ok =>
    '(covered, sampled) ← syncing st;
    Some (set_syncing None
            (set_disk (if ok then sampled else durable st) (old st)
               (set_log (sync_done covered ok (log st)).1 st)))
  | EApply lsn =>
    p ← list_find (fun p : Z * MetadataOp => p.1 = lsn) (inflight st);
    if negb (sync_on_write (config (log st))) || (lsn <=? synced_lsn (log st)) then
      Some (mk_store (apply_op (ix st) p.2.2) (log st) (list_delete p.1 (inflight st))
              (syncing st) (ckpt st) (durable st) (old st) (hist st) (acked st ++ [p.2]))
    else None
  | ELeftover ok =>
    match ckpt st with
    | Idle =>
      if has_frozen (ix st)
      then Some (set_ix (flush_frozen (ix st) (checkpoint_lsn (ix st)) ok).1 st) else None
    | _ => None
    end
  | EMark =>
    match ckpt st, frozen (ix st), inflight st with
    | Idle, None, [] =>
      match mark (log st) with
      | (w, Ok m) => Some (set_ckpt (Marked m) (set_ix (freeze (ix st)).1 (set_log w st)))
      | (w, _) => Some (set_log w st)
      end
    | _, _, _ => None
    end
  | EFlush ok =>
    match ckpt st with
    | Marked m =>
      let '(x, r) := flush_frozen (ix st) (m_lsn m) ok in
      Some (set_ckpt (if r then Flushed m else Idle) (set_ix x st))
    | _ => None
    end
  | ECopy ok =>
    match ckpt st with
    | Flushed m =>
      match truncate_first m (log st) with
      | (w, Ok first) =>
        Some (set_ckpt (if ok then Copying m first (copied (wfile (log st)) (m_offset m) first) else Idle)
                (set_log w st))
      | (w, _) => Some (set_ckpt Idle (set_log w st))
      end
    | _ => None
    end
  | ERename ok =>
    match ckpt st, syncing st with
    | Copying m first new, None =>
      match truncate_rename m first new ok (log st) with
      | (w, Ok _) =>
        Some (set_ckpt Renamed
                (set_disk (wfile w) (Some (durable st, wfile (log st))) (set_log w st)))
      | (w, _) => Some (set_ckpt Idle (set_log w st))
      end
    | _, _ => None
    end
  | EDirSync ok =>
    match ckpt st with
    | Renamed =>
      Some (set_ckpt Idle
              (set_disk (durable st) (if ok then None else old st)
                 (set_log (truncate_done ok (log st)).1 st)))
    | _ => None
    end
  | EPowerCut back more =>
    '(on_disk, all) ← left_by_cut st back;
    let file_bytes := take (length on_disk + more) all in
    match open_store (file (ix st)) file_bytes (config (log st)) with
    | Ok (x, w) =>
      Some (mk_store x w [] None Idle (wfile w) None
              (take (Z.to_nat (current_lsn w)) (hist st)) (acked st))
    | _ => None
    end
  end.

(** ** Runs *)

(** The keys a new write shares with writes still under way. The gate is
    shared by writers, so nothing in the store keeps two writes of one key
    apart: they may be applied in the other order than they are logged. *)
Definition raced (st : store) (ev : event) : list bytes :=
  match ev with
  | EAppend op _ =>
    List.filter (fun k => existsb (fun p => bool_decide (k ∈ (changes p.2).*1)) (inflight st))
      (changes op).*1
  | _ => []
  end.

(** The runs of the store, with the keys of which two writes were ever under
    way at once. *)
Inductive reach (c : WalConfig) : list bytes -> store -> Prop :=
  | reach_init : reach c [] (init c)
  | reach_step K st ev st' :
      reach c K st -> exec st ev = Some st' -> reach c (raced st ev ++ K) st'.

Lemma not_raced st op res p k : p ∈ inflight st -> k ∈ (changes p.2).*1 ->
  k ∉ raced st (EAppend op res) -> k ∉ (changes op).*1.
Proof.
  intros Hp Hk Hr Hin. apply Hr. apply list_elem_of_In, filter_In.
  split; [by apply list_elem_of_In|]. apply existsb_exists. exists p.
  split; [by apply list_elem_of_In|by apply bool_decide_eq_true_2].
Qed.

(** ** Changes replayed *)

(** The last change to [k] in a list of changes. *)
Definition last_change (l : list change) (k : bytes) : option (option bytes) :=
  foldl (fun acc e => if decide (e.1 = k) then Some e.2 else acc) None l.

Lemma last_change_snoc l e k :
  last_change (l ++ [e]) k = if decide (e.1 = k) then Some e.2 else last_change l k.
Proof. unfold last_change. by rewrite foldl_app. Qed.

Lemma last_change_app a b k :
  last_change (a ++ b) k = match last_change b k with Some v => Some v | None => last_change a k end.
Proof.
  induction b as [|e b IH] using rev_ind; [by rewrite app_nil_r|].
  rewrite app_assoc, !last_change_snoc, IH. by case_decide.
Qed.

Lemma last_change_none l k : last_change l k = None <-> k ∉ l.*1.
Proof.
  induction l as [|e l IH] using rev_ind; [cbn; set_solver|].
  rewrite last_change_snoc, fmap_app. case_decide as Hd.
  - split; [done|]. subst. set_solver.
  - rewrite IH. cbn. set_solver.
Qed.

Lemma overlaid_app m a b : overlaid m (a ++ b) = overlaid (overlaid m a) b.
Proof. unfold overlaid. by rewrite foldl_app. Qed.

Lemma get_overlaid_last m l k : sorted m ->
  bt_get (overlaid m l) k = match last_change l k with Some v => v | None => bt_get m k end.
Proof.
  intros Hm. induction l as [|e l IH] using rev_ind; [done|].
  rewrite overlaid_app, last_change_snoc. cbn [overlaid foldl].
  rewrite get_apply_change by by apply sorted_overlaid. case_decide; [done|exact IH].
Qed.

Lemma overlaid_ext m m' l l' : sorted m -> sorted m' ->
  (forall k, match last_change l k with Some v => v | None => bt_get m k end
           = match last_change l' k with Some v => v | None => bt_get m' k end) ->
  overlaid m l = overlaid m' l'.
Proof.
  intros Hm Hm' Hk. apply sorted_ext; [by apply sorted_overlaid..|].
  intros k. by rewrite !get_overlaid_last.
Qed.

(** ** Maps that agree outside some keys *)

Definition same_off (K : list bytes) (m m' : btree bytes) : Prop :=
  forall k, k ∉ K -> bt_get m k = bt_get m' k.

#[export] Instance same_off_equiv K : Equivalence (same_off K).
Proof.
  split; [done|by intros m m' H k Hk; rewrite H|]. intros m1 m2 m3 H1 H2 k Hk. by rewrite H1, H2.
Qed.

Lemma same_off_weaken K K' m m' : K ⊆ K' -> same_off K m m' -> same_off K' m m'.
Proof. intros HK H k Hk. apply H. set_solver. Qed.

(** With no key left out they are one map. *)
Lemma same_off_eq m m' : sorted m -> sorted m' -> same_off [] m m' -> m = m'.
Proof. intros Hm Hm' H. apply sorted_ext; [done..|]. intros k. apply H. set_solver. Qed.

Lemma overlaid_off K m m' l l' : sorted m -> sorted m' -> same_off K m m' ->
  (forall k, k ∉ K -> last_change l k = last_change l' k) ->
  same_off K (overlaid m l) (overlaid m' l').
Proof.
  intros Hm Hm' H Hl k Hk. by rewrite !get_overlaid_last, Hl, H by done.
Qed.

(** Changes replayed over a map that has a prefix of them already. *)
Lemma overlaid_replay m a b : sorted m -> overlaid (overlaid m a) (a ++ b) = overlaid m (a ++ b).
Proof.
  intros Hm. apply overlaid_ext; [by apply sorted_overlaid|done|]. intros k.
  rewrite last_change_app, get_overlaid_last by done. by repeat case_match.
Qed.

(** Changes to other keys commute. *)
Lemma overlaid_swap K m a b : sorted m -> (forall k, k ∈ a.*1 -> k ∉ K -> k ∉ b.*1) ->
  same_off K (overlaid m (a ++ b)) (overlaid m (b ++ a)).
Proof.
  intros Hm Hd. apply overlaid_off; [done..|]. intros k HK. rewrite !last_change_app.
  destruct (last_change b k) eqn:Eb, (last_change a k) eqn:Ea; try done.
  assert (k ∈ a.*1) as Ha by (apply dec_stable; intros ?%last_change_none; congruence).
  apply Hd, last_change_none in Ha; [congruence|done].
Qed.

(** The changes of operations, in order. *)
Definition all_changes (ops : list MetadataOp) : list change := concat (changes <$> ops).

Lemma all_changes_app a b : all_changes (a ++ b) = all_changes a ++ all_changes b.
Proof. unfold all_changes. by rewrite fmap_app, concat_app. Qed.

(** What the store holds once the first [n] operations are in. *)
Definition upto (n : nat) (ops : list MetadataOp) : btree bytes := overlaid [] (all_changes (take n ops)).

(** Replaying from an earlier operation than the map has. *)
Lemma upto_replay ops c d n : (c <= d <= n)%nat ->
  overlaid (upto d ops) (all_changes (drop c (take n ops))) = upto n ops.
Proof.
  intros [Hcd Hdn]. unfold upto.
  assert (take d ops = take c ops ++ drop c (take d ops)) as Hd
    by (rewrite <- (take_drop c (take d ops)) at 1; rewrite take_take; f_equal; f_equal; lia).
  assert (drop c (take n ops) = drop c (take d ops) ++ drop d (take n ops)) as Hn.
  { rewrite <- (take_drop d (take n ops)) at 1. rewrite take_take, Nat.min_l by lia.
    destruct (decide (c <= length (take d ops))%nat) as [Hle|Hgt].
    - by rewrite drop_app_le.
    - rewrite length_take in Hgt. rewrite (take_ge ops d), (take_ge ops n), (drop_ge ops d) by lia.
      by rewrite !app_nil_r. }
  rewrite Hd, Hn, !all_changes_app, !overlaid_app. rewrite <- overlaid_app, overlaid_replay
    by by apply sorted_overlaid.
  rewrite overlaid_app, <- !overlaid_app, <- !all_changes_app. f_equal. f_equal.
  rewrite app_assoc, <- Hd. rewrite <- (take_drop d (take n ops)) at 2.
  by rewrite take_take, Nat.min_l by lia.
Qed.

(** The changes of the operations from LSN [i] on, those pending left out. *)
Fixpoint applied (i : Z) (ops : list MetadataOp) (pend : list Z) : list change :=
  match ops with
  | [] => []
  | op :: ops' => (if bool_decide (i ∈ pend) then [] else changes op) ++ applied (i + 1) ops' pend
  end.

Lemma applied_app i a b pend :
  applied i (a ++ b) pend = applied i a pend ++ applied (i + lenZ a) b pend.
Proof.
  revert i. induction a as [|op a IH]; intros i; cbn [app applied].
  - by rewrite Z.add_0_r.
  - rewrite IH, <- app_assoc, lenZ_cons. do 3 f_equal. lia.
Qed.

Lemma applied_ext i ops pend pend' :
  (forall j, i <= j < i + lenZ ops -> j ∈ pend <-> j ∈ pend') ->
  applied i ops pend = applied i ops pend'.
Proof.
  revert i. induction ops as [|op ops IH]; intros i Hp; [done|]. cbn [applied].
  rewrite lenZ_cons in Hp. pose proof (lenZ_nonneg ops). f_equal.
  - by rewrite (bool_decide_ext (i ∈ pend) (i ∈ pend')) by (apply Hp; lia).
  - apply IH. intros j Hj. apply Hp. lia.
Qed.

Lemma applied_none i ops : applied i ops [] = all_changes ops.
Proof.
  revert i. induction ops as [|op ops IH]; intros i; [done|]. cbn [applied].
  by rewrite bool_decide_false, IH by (by intros ?%not_elem_of_nil).
Qed.

Lemma applied_keys i ops pend k : k ∈ (applied i ops pend).*1 -> k ∈ (all_changes ops).*1.
Proof.
  revert i. induction ops as [|op ops IH]; intros i; [done|]. cbn [applied].
  unfold all_changes. cbn [fmap list_fmap concat]. rewrite !fmap_app, !elem_of_app.
  intros [H|H]; [left|right; by eapply IH]. by case_bool_decide; [apply not_elem_of_nil in H|].
Qed.

(** A write applied out of turn, past later ones of other keys. *)
Lemma applied_one K m a op b pend pend' : sorted m ->
  1 + lenZ a ∈ pend -> 1 + lenZ a ∉ pend' ->
  (forall j, j <> 1 + lenZ a -> j ∈ pend <-> j ∈ pend') ->
  (forall k, k ∈ (changes op).*1 -> k ∉ K -> k ∉ (all_changes b).*1) ->
  same_off K (overlaid m (applied 1 (a ++ op :: b) pend'))
    (overlaid (overlaid m (applied 1 (a ++ op :: b) pend)) (changes op)).
Proof.
  intros Hm Hin Hout Hp Hk. pose proof (lenZ_nonneg b). rewrite !applied_app. cbn [applied].
  rewrite bool_decide_false, bool_decide_true by done. cbn [app].
  rewrite (applied_ext 1 a pend' pend) by (intros j ?; symmetry; apply Hp; lia).
  rewrite (applied_ext _ b pend' pend) by (intros j ?; symmetry; apply Hp; lia).
  rewrite !overlaid_app, <- !overlaid_app.
  rewrite !overlaid_app, <- (overlaid_app _ (changes op)), <- (overlaid_app _ _ (changes op)).
  apply overlaid_swap; [by apply sorted_overlaid|]. intros k Hk1 HK Hk2.
  by apply (Hk k Hk1 HK), (applied_keys _ _ _ _ Hk2).
Qed.

(** ** Changes in the index *)

Record same_below (x y : index) : Prop := {
  sb_file : file y = file x;
  sb_frozen : frozen y = frozen x;
  sb_map : frozen_map y = frozen_map x;
}.

Lemma apply_entries x l : wf x -> Forall fits l ->
  wf (foldl apply_entry x l) /\ contents (foldl apply_entry x l) = overlaid (contents x) l /\
  same_below x (foldl apply_entry x l).
Proof.
  revert x. induction l as [|[k v] l IH]; intros x Hwf Hl; [done|].
  apply Forall_cons in Hl as [Hkv Hl]. cbn [foldl].
  pose proof (set_active_wf x k v Hwf Hkv) as Hwf'.
  destruct (IH (set_active x k v) Hwf' Hl) as (H1 & H2 & [H3 H4 H5]).
  unfold apply_entry at 2 4 6. cbn [fst snd]. split_and!; [done| |].
  - by rewrite H2, contents_set.
  - split; [done..|]. by rewrite H5, frozen_set.
Qed.

Lemma changes_batch ops : forallb plain ops = true ->
  changes (Batch ops) = concat (changes <$> ops).
Proof.
  unfold changes. cbn [entries_of]. induction ops as [|op ops IH]; [done|]. cbn [forallb fmap list_fmap concat].
  intros [Hp Hps]%andb_true_iff. rewrite fmap_app, IH by done. by destruct op.
Qed.

Lemma apply_op_changes x op : flat op = true -> apply_op x op = foldl apply_entry x (changes op).
Proof.
  destruct op as [k v|k|ops]; [done..|]. cbn [flat]. intros Hp. rewrite changes_batch by done.
  cbn [apply_op]. revert x. induction ops as [|op ops IH]; intros x; [done|].
  cbn [forallb] in Hp. apply andb_true_iff in Hp as [Hp Hps].
  cbn [fold_left fmap list_fmap concat]. rewrite foldl_app, IH by done. by destruct op.
Qed.

Lemma fitsb_fits l : forallb fitsb l = true -> Forall fits l.
Proof.
  induction l as [|e l IH]; [done|]. cbn [forallb]. intros [H1 H2]%andb_true_iff.
  constructor; [by apply Z.ltb_lt|by apply IH].
Qed.

(** What a log's entries from [c + 1] on change. *)
Lemma changes_entries lsn op : change_of <$> entries_of lsn op = changes op.
Proof.
  unfold changes. destruct op as [k v|k|ops]; [done..|]. cbn [entries_of].
  induction ops as [|op ops IH]; [done|]. cbn [fmap list_fmap concat].
  rewrite !fmap_app, IH. by destruct op.
Qed.

Lemma changes_from_all c s ops : (c <= s)%nat ->
  change_of <$> MetaWal.MetaWal.entries (MetaWal.MetaWal.from (Z.of_nat c + 1) (Z.of_nat s) ops)
  = all_changes ops.
Proof.
  unfold MetaWal.MetaWal.entries, all_changes. revert s. induction ops as [|op ops IH]; intros s Hs; [done|].
  cbn [MetaWal.MetaWal.from]. rewrite (proj2 (Z.leb_le _ _)) by lia. cbn [app fmap list_fmap concat].
  rewrite fmap_app, changes_entries. f_equal.
  replace (Z.of_nat s + 1) with (Z.of_nat (S s)) by lia. apply IH. lia.
Qed.

Lemma changes_from c s ops : (s <= c)%nat ->
  change_of <$> MetaWal.MetaWal.entries (MetaWal.MetaWal.from (Z.of_nat c + 1) (Z.of_nat s) ops)
  = all_changes (drop (c - s) ops).
Proof.
  revert s. induction ops as [|op ops IH]; intros s Hs; [by rewrite drop_nil|].
  destruct (decide (c = s)) as [->|Hne]; [rewrite Nat.sub_diag; by apply changes_from_all|].
  replace (c - s)%nat with (S (c - S s)) by lia. cbn [drop]. rewrite <- IH by lia.
  unfold MetaWal.MetaWal.entries. cbn [MetaWal.MetaWal.from].
  rewrite (proj2 (Z.leb_gt _ _)) by lia. by replace (Z.of_nat s + 1) with (Z.of_nat (S s)) by lia.
Qed.

End store.
End MetaStore.
