(* ===== verification/MetaStoreInv.v ===== *)
(** * The metadata store keeps what it acknowledged

    The invariant of the store's runs ([inv_at]) and its preservation by
    every event, up to the theorems: an acknowledged write is in the log and
    survives any power cut, and what the index reads is what the log's
    operations make ([acknowledged_survive], [store_reads_log]); a store
    whose log was torn by a power cut opens ([store_opens]). *)
From stdpp Require Import base list option tactics gmap.
From S2P Require Import Prelude Bytes Crc OrdMap DiskIndex MetaTypes MetaWal MetaStore.

Local Open Scope Z_scope.

Module MetaStoreInv.
Import OrdMap DiskIndex.DiskIndex MetaTypes MetaWal.MetaWal MetaStore.MetaStore.

Section inv.
Context {redb : Redb} {crc : Crc32c} {prost : Prost}.

(** ** Segments of the log *)

(** The bytes of the records [s + 1] to [n] of a history. *)
Definition seg (s n : nat) (H : list MetadataOp) : bytes := log_bytes (Z.of_nat s) (drop s (take n H)).

Lemma seg_nil s H : seg s s H = [].
Proof. unfold seg. rewrite drop_ge; [done|]. rewrite length_take. lia. Qed.

Lemma seg_app s m n H : (s <= m <= n)%nat -> (m <= length H)%nat ->
  seg s n H = seg s m H ++ seg m n H.
Proof.
  intros Hsm Hm. unfold seg.
  assert (drop s (take n H) = drop s (take m H) ++ drop m (take n H)) as ->.
  { rewrite <- (take_drop m (take n H)) at 1. rewrite take_take, Nat.min_l by lia.
    rewrite drop_app_le; [done|]. rewrite length_take. lia. }
  rewrite log_bytes_app. do 2 f_equal. unfold lenZ. rewrite length_drop, length_take. lia.
Qed.

Lemma seg_grow s n H x : (n <= length H)%nat -> seg s n (H ++ x) = seg s n H.
Proof. intros. unfold seg. by rewrite take_app_le. Qed.

Lemma seg_take s n k H : (n <= k)%nat -> seg s n (take k H) = seg s n H.
Proof. intros. unfold seg. by rewrite take_take, Nat.min_l. Qed.

Lemma seg_snoc s H op : (s <= length H)%nat ->
  seg s (S (length H)) (H ++ [op])
  = seg s (length H) H ++ record_bytes (mk_record (Z.of_nat (length H) + 1) (to_bytes op)).
Proof.
  intros Hs. rewrite (seg_app s (length H)) by (rewrite ?length_app; cbn; lia).
  rewrite seg_grow by done. f_equal. unfold seg.
  rewrite take_ge by (rewrite length_app; cbn; lia). rewrite drop_app_length.
  cbn [log_bytes]. apply app_nil_r.
Qed.

Lemma upto_grow n H x : (n <= length H)%nat -> upto n (H ++ x) = upto n H.
Proof. intros. unfold upto. by rewrite take_app_le. Qed.

Lemma upto_take n k H : (n <= k)%nat -> upto n (take k H) = upto n H.
Proof. intros. unfold upto. by rewrite take_take, Nat.min_l. Qed.

(** ** The invariant *)

Section off.
(** The keys of which two writes were ever under way at once. *)
Context (K : list bytes).

Definition good_op (op : MetadataOp) : Prop :=
  op_ok op /\ flat op = true /\ Forall fits (changes op).

(** A write in the log and not in the index: no later one touches its keys,
    those of [K] apart. *)
Definition pending_ok (H : list MetadataOp) (p : Z * MetadataOp) : Prop :=
  1 <= p.1 <= lenZ H /\ H !! Z.to_nat (p.1 - 1) = Some p.2 /\
  forall k, k ∈ (changes p.2).*1 -> k ∉ K -> k ∉ (all_changes (drop (Z.to_nat p.1) H)).*1.

Definition mark_ok (s : nat) (w : wal) (H : list MetadataOp) (m : WalMark) : Prop :=
  exists k, (s <= k <= length H)%nat /\ m_lsn m = Z.of_nat k /\
    m_offset m = lenZ (seg s k H) /\ m_file m = generation w.

Definition ckpt_ok (s c : nat) (st : store) : Prop :=
  match ckpt st with
  | Idle => True
  | Marked m => is_Some (frozen (ix st)) /\ mark_ok s (log st) (hist st) m
  | Flushed m => mark_ok s (log st) (hist st) m /\ m_lsn m = Z.of_nat c
  | Copying m first new =>
    mark_ok s (log st) (hist st) m /\ m_lsn m = Z.of_nat c /\
    exists k, (c <= k <= length (hist st))%nat /\ first = lenZ (seg s k (hist st)) /\
      new = seg c k (hist st)
  | Renamed => failed (log st) = false /\ syncing st = None /\ durable st = wfile (log st)
  end.

(** The log's file holds the records after [s]; the index file is labelled
    [c] and holds the changes through [d]; the log is on disk through [n].
    What the maps hold is said of the keys outside [K]. *)
Record inv_at (s c d n : nat) (st : store) : Prop := {
  iv_order : (s <= c <= d)%nat /\ Z.of_nat d <= synced_lsn (log st) <= Z.of_nat n /\
             (n <= length (hist st))%nat /\ Z.of_nat (length (hist st)) + 1 < two64;
  iv_wf : wf (ix st);
  iv_ops : Forall good_op (hist st);
  iv_file : exists t, wfile (log st) = seg s (length (hist st)) (hist st) ++ t /\ torn t /\
            (failed (log st) = false -> t = []);
  iv_counts : failed (log st) = false ->
    next_lsn (log st) = lenZ (hist st) + 1 /\ written_lsn (log st) = lenZ (hist st) /\
    size (log st) = lenZ (wfile (log st));
  iv_config : sync_on_write (config (log st)) = true;
  iv_durable : durable st = seg s n (hist st);
  iv_syncing : forall cov snap, syncing st = Some (cov, snap) ->
    exists k, (n <= k <= length (hist st))%nat /\ cov <= Z.of_nat k /\ snap = seg s k (hist st);
  iv_label : checkpoint_lsn (ix st) = Z.of_nat c;
  iv_filemap : same_off K (file_map (file (ix st))) (upto d (hist st));
  iv_frozen : is_Some (frozen (ix st)) ->
    exists f, (d <= f)%nat /\ Z.of_nat f <= synced_lsn (log st) /\
      same_off K (overlaid (file_map (file (ix st))) (frozen_map (ix st))) (upto f (hist st)) /\
      forall m, ckpt st = Marked m -> m_lsn m = Z.of_nat f;
  iv_contents : same_off K (contents (ix st)) (overlaid [] (applied 1 (hist st) (inflight st).*1));
  iv_pending : Forall (pending_ok (hist st)) (inflight st);
  iv_nodup : NoDup (inflight st).*1;
  iv_waiting : failed (log st) = false ->
    forall i, synced_lsn (log st) < i <= lenZ (hist st) -> i ∈ (inflight st).*1;
  iv_acked : forall i op, (i, op) ∈ acked st ->
    1 <= i <= synced_lsn (log st) /\ hist st !! Z.to_nat (i - 1) = Some op;
  iv_ckpt : ckpt_ok s c st;
  iv_old : forall o f, old st = Some (o, f) ->
    (ckpt st = Renamed \/ failed (log st) = true) /\ syncing st = None /\
    exists s0 n0, (s0 <= c)%nat /\ (n0 <= length (hist st))%nat /\
      synced_lsn (log st) <= Z.of_nat n0 /\
      o = seg s0 n0 (hist st) /\ f = seg s0 (length (hist st)) (hist st);
}.

Definition inv (st : store) : Prop := exists s c d n, inv_at s c d n st.

Lemma file_map_new : file_map new_db = [].
Proof. unfold file_map, new_db. cbn [db_entries]. by rewrite t_empty_spec. Qed.

Lemma init_inv c : sync_on_write c = true -> inv (init c).
Proof.
  intros Hc. exists 0%nat, 0%nat, 0%nat, 0%nat. split; cbn; try done.
  - split; cbn.
    + intros i t [<- <-]%lookup_singleton_Some. split; [done|constructor].
    + set_solver.
    + done.
  - exists []. split_and!; [done|apply torn_nil|done].
  - by rewrite file_map_new.
  - unfold contents. cbn. by rewrite file_map_new.
  - constructor.
  - intros _ i. unfold lenZ. cbn. lia.
  - by intros i op ?%not_elem_of_nil.
Qed.

(** ** A write applied *)

Lemma pending_split H i op : pending_ok H (i, op) ->
  exists a b, H = a ++ op :: b /\ i = 1 + lenZ a /\
    forall k, k ∈ (changes op).*1 -> k ∉ K -> k ∉ (all_changes b).*1.
Proof.
  intros (Hi & Hl & Hk). cbn [fst snd] in *. exists (take (Z.to_nat (i - 1)) H), (drop (Z.to_nat i) H).
  apply lookup_lt_Some in Hl as Hlt. split_and!; [|unfold lenZ; rewrite length_take; lia|done].
  replace (Z.to_nat i) with (S (Z.to_nat (i - 1))) by lia. symmetry. by apply take_drop_middle.
Qed.

Lemma good_at H i op : Forall good_op H -> H !! i = Some op -> good_op op.
Proof. intros Hall Hl. by eapply Forall_lookup_1. Qed.

Lemma inflight_delete (l : list (Z * MetadataOp)) i p : l !! i = Some p -> NoDup l.*1 ->
  NoDup (list_delete i l).*1 /\ (p.1 ∉ (list_delete i l).*1) /\
  (forall j, j <> p.1 -> (j ∈ l.*1) <-> (j ∈ (list_delete i l).*1)) /\
  (forall q, q ∈ list_delete i l -> q ∈ l).
Proof.
  intros Hl Hnd. change (list_delete i l) with (base.delete i l).
  destruct (list_elem_of_split_length _ _ _ Hl) as (l1 & l2 & -> & ->). rewrite delete_middle.
  rewrite !fmap_app, !fmap_cons in *. apply NoDup_app in Hnd as (H1 & H2 & [H3 H4]%NoDup_cons).
  split_and!.
  - apply NoDup_app. set_solver.
  - set_solver.
  - set_solver.
  - set_solver.
Qed.

Lemma apply_inv s c d n st lsn st' :
  inv_at s c d n st -> exec st (EApply lsn) = Some st' -> inv_at s c d n st'.
Proof.
  intros I He. cbn [exec] in He.
  destruct (list_find (fun p : Z * MetadataOp => p.1 = lsn) (inflight st)) as [[i [lsn' op]]|] eqn:Ef; [|done].
  apply list_find_Some in Ef as (Hl & Hlsn & _). cbn [fst] in Hlsn. subst lsn'.
  cbn [mbind option_bind fst snd] in He. rewrite (iv_config _ _ _ _ _ I) in He. cbn [negb orb] in He.
  destruct (Z.leb_spec lsn (synced_lsn (log st))) as [Hs|]; [|done]. injection He as <-.
  pose proof (proj1 (Forall_lookup _ _) (iv_pending _ _ _ _ _ I) _ _ Hl) as Hp.
  destruct (pending_split _ _ _ Hp) as (a & b & HH & Hi & Hk).
  destruct (inflight_delete _ _ _ Hl (iv_nodup _ _ _ _ _ I)) as (D1 & D2 & D3 & D4). cbn [fst] in *.
  destruct Hp as (Hr & Hat & _). cbn [fst snd] in *.
  destruct (good_at _ _ _ (iv_ops _ _ _ _ _ I) Hat) as (_ & Hflat & Hfit).
  destruct (apply_entries (ix st) (changes op) (iv_wf _ _ _ _ _ I) Hfit) as (Hwf & Hc & [B1 B2 B3]).
  rewrite <- apply_op_changes in * by done.
  destruct I as [I1 I2 I3 I4 I5 I6 I7 I8 I9 I10 I11 I12 I13 I14 I15 I16 I17 I18].
  split; cbn [ix log inflight syncing ckpt durable old hist acked]; rewrite ?B1, ?B2, ?B3; auto.
  - unfold checkpoint_lsn in *. by rewrite B1.
  - rewrite Hc, HH in *. transitivity (overlaid (overlaid [] (applied 1 (a ++ op :: b) (inflight st).*1)) (changes op)).
    { apply overlaid_off; [apply contents_sorted|by apply sorted_overlaid|done..]. }
    symmetry. apply applied_one; [done| |by rewrite <- Hi| |done].
    + rewrite <- Hi. apply list_elem_of_fmap. exists (lsn, op). split; [done|].
      by eapply list_elem_of_lookup_2.
    + rewrite <- Hi. exact D3.
  - apply Forall_forall. intros q Hq. rewrite Forall_forall in I13. by apply I13, D4.
  - intros Hf j Hj. apply D3; [|by apply I15]. lia.
  - intros j op' [Hin|Hin%list_elem_of_singleton]%elem_of_app; [by apply I16|]. simplify_eq. split; [lia|done].
  - unfold ckpt_ok in *. cbn [ix log hist ckpt syncing]. by rewrite B2.
Qed.

(** ** An append *)

Lemma pending_grow H op p : pending_ok H p ->
  (forall k, k ∈ (changes p.2).*1 -> k ∉ K -> k ∉ (changes op).*1) -> pending_ok (H ++ [op]) p.
Proof.
  intros (H1 & H2 & H3) Hs. pose proof (lenZ_nonneg H). unfold pending_ok. rewrite lenZ_app.
  split_and!; [unfold lenZ in *; cbn; lia..|by apply lookup_app_l_Some|].
  intros k Hk HK. rewrite drop_app_le by (unfold lenZ in *; lia).
  rewrite all_changes_app, fmap_app. apply not_elem_of_app. split; [by apply H3|].
  unfold all_changes. cbn. rewrite app_nil_r. by apply Hs.
Qed.

Lemma pending_new H op : pending_ok (H ++ [op]) (lenZ H + 1, op).
Proof.
  pose proof (lenZ_nonneg H). unfold pending_ok. cbn [fst snd]. rewrite lenZ_app.
  split_and!; [lia|unfold lenZ; cbn; lia| |].
  - rewrite lookup_app_r by (unfold lenZ; lia).
    replace (Z.to_nat (lenZ H + 1 - 1) - length H)%nat with 0%nat by (unfold lenZ; lia). done.
  - intros k _ _. rewrite drop_ge; [set_solver|]. rewrite length_app. unfold lenZ. cbn. lia.
Qed.

Lemma mark_ok_grow s w w' H x m : generation w' = generation w -> mark_ok s w H m -> mark_ok s w' (H ++ x) m.
Proof.
  intros Hg (k & Hk & H1 & H2 & H3). exists k. rewrite length_app, Hg. rewrite seg_grow by lia.
  split_and!; [lia..|done|done].
Qed.

Lemma ckpt_ok_grow s c st w inf d o x a : generation w = generation (log st) ->
  is_renamed (ckpt st) = false -> ckpt_ok s c st ->
  ckpt_ok s c (mk_store (ix st) w inf (syncing st) (ckpt st) d o (hist st ++ x) a).
Proof.
  intros Hg Hr. unfold ckpt_ok. cbn [ix log ckpt hist syncing].
  destruct (ckpt st) as [|m|m|m first new|]; [done|..|done].
  - intros [? ?]. split; [done|by eapply mark_ok_grow].
  - intros [? ?]. split; [by eapply mark_ok_grow|done].
  - intros (? & ? & k & Hk & Hf & Hn). split_and!; [by eapply mark_ok_grow|done|].
    exists k. rewrite length_app, !seg_grow by lia. split_and!; [lia..|done|done].
Qed.

(** A new write's keys are not those of writes under way, [K]'s apart. *)
Definition apart (op : MetadataOp) (st : store) : Prop :=
  forall p, p ∈ inflight st -> forall k, k ∈ (changes p.2).*1 -> k ∉ K -> k ∉ (changes op).*1.

(** The log's file with one more record, whether or not the log noticed. *)
Lemma logged_inv s c d n st op w :
  inv_at s c d n st -> failed (log st) = false -> is_renamed (ckpt st) = false -> good_op op ->
  lenZ (hist st) + 2 < two64 -> apart op st ->
  wfile w = wfile (log st) ++ record_bytes (mk_record (lenZ (hist st) + 1) (to_bytes op)) ->
  synced_lsn w = synced_lsn (log st) -> generation w = generation (log st) -> config w = config (log st) ->
  (failed w = false -> next_lsn w = lenZ (hist st) + 2 /\ written_lsn w = lenZ (hist st) + 1 /\
     size w = lenZ (wfile w)) ->
  inv_at s c d n (mk_store (ix st) w (inflight st ++ [(lenZ (hist st) + 1, op)]) (syncing st) (ckpt st)
    (durable st) (old st) (hist st ++ [op]) (acked st)).
Proof.
  intros [I1 I2 I3 I4 I5 I6 I7 I8 I9 I10 I11 I12 I13 I14 I15 I16 I17 I18] Hfail Hren Hop Hb Hcf Wf Ws Wg Wc Wn.
  destruct I1 as (O1 & O2 & O3 & O4). pose proof (lenZ_nonneg (hist st)).
  assert (old st = None) as Hold.
  { destruct (old st) as [[o f]|] eqn:E; [|done]. destruct (I18 o f eq_refl) as [[Hr|Hr] _]; [|congruence].
    by rewrite Hr in Hren. }
  split; cbn [ix log inflight syncing ckpt durable old hist acked]; rewrite ?Ws, ?Wc, ?Wg; auto.
  - split_and!; [lia..|rewrite length_app; cbn; lia|]. rewrite length_app. unfold lenZ in *. cbn. lia.
  - apply Forall_app. split; [done|by constructor].
  - destruct I4 as (t & Hf & _ & Ht). rewrite (Ht Hfail), app_nil_r in Hf. exists [].
    split_and!; [|apply torn_nil|done]. rewrite app_nil_r, Wf, Hf, length_app. cbn [length].
    rewrite Nat.add_1_r, seg_snoc by lia. done.
  - intros Hw. rewrite lenZ_app. cbn. destruct (Wn Hw) as (-> & -> & ->). unfold lenZ. cbn. split_and!; lia.
  - by rewrite seg_grow.
  - intros cov snap Hs. destruct (I8 cov snap Hs) as (k & Hk & Hc & ->). exists k.
    rewrite seg_grow, length_app by lia. cbn. split_and!; [lia..|done].
  - rewrite upto_grow by lia. done.
  - intros Hz. destruct (I11 Hz) as (f & F1 & F2 & F3 & F4). exists f.
    rewrite upto_grow by lia. done.
  - rewrite I12. apply reflexive_eq. rewrite applied_app, fmap_app. cbn [applied fmap list_fmap fst app].
    rewrite bool_decide_true by (rewrite elem_of_app; right; apply list_elem_of_singleton; lia).
    rewrite app_nil_r. f_equal. apply applied_ext. intros j Hj. rewrite elem_of_app, list_elem_of_singleton.
    split; [by left|]. intros [?|?]; [done|lia].
  - apply Forall_app. split; [|constructor; [apply pending_new|constructor]].
    apply Forall_forall. intros p Hp. rewrite Forall_forall in I13.
    apply pending_grow; [by apply I13|by apply Hcf].
  - rewrite fmap_app. apply NoDup_app. split_and!; [done| |apply NoDup_singleton].
    intros j Hj Hj'. cbn in Hj'. apply list_elem_of_singleton in Hj' as ->.
    apply list_elem_of_fmap in Hj as (p & Hp1 & Hp2). rewrite Forall_forall in I13.
    destruct (I13 p Hp2) as (Hr & _). lia.
  - intros _ j. rewrite lenZ_app, fmap_app, elem_of_app. unfold lenZ at 2. cbn. intros Hj.
    destruct (decide (j = lenZ (hist st) + 1)) as [->|]; [right; apply list_elem_of_singleton; done|].
    left. apply I15; [done|lia].
  - intros j op' Hin. destruct (I16 j op' Hin) as [? Hl]. split; [done|by apply lookup_app_l_Some].
  - apply ckpt_ok_grow; done.
  - by rewrite Hold.
Qed.

(** Events that leave the history and the index alone, and the log's records
    and marks: what they have to keep. *)
Lemma log_only_inv s c d n st w :
  inv_at s c d n st -> is_renamed (ckpt st) = false ->
  synced_lsn w = synced_lsn (log st) -> generation w = generation (log st) -> config w = config (log st) ->
  (failed w = false -> failed (log st) = false) ->
  (exists t, wfile w = seg s (length (hist st)) (hist st) ++ t /\ torn t /\ (failed w = false -> t = [])) ->
  (failed w = false -> next_lsn w = lenZ (hist st) + 1 /\ written_lsn w = lenZ (hist st) /\
     size w = lenZ (wfile w)) ->
  inv_at s c d n (set_log w st).
Proof.
  intros [I1 I2 I3 I4 I5 I6 I7 I8 I9 I10 I11 I12 I13 I14 I15 I16 I17 I18] Hren Ws Wg Wc Wf Wt Wn.
  split; cbn [ix log inflight syncing ckpt durable old hist acked set_log]; rewrite ?Ws, ?Wc; auto.
  - unfold ckpt_ok, mark_ok in *. cbn [ix log inflight syncing ckpt hist set_log]. rewrite Wg.
    by destruct (ckpt st).
  - intros o f Ho. destruct (I18 o f Ho) as [[Hr|Hr] ?]; [by rewrite Hr in Hren|]. split; [|done].
    right. destruct (failed w); [done|]. by rewrite Wf in Hr.
Qed.

Lemma eta_inv s c d n st st' : inv_at s c d n st ->
  ix st' = ix st -> log st' = log st -> inflight st' = inflight st -> syncing st' = syncing st ->
  ckpt st' = ckpt st -> durable st' = durable st -> old st' = old st -> hist st' = hist st ->
  acked st' = acked st -> inv_at s c d n st'.
Proof. intros I. destruct st, st'. cbn. intros; by subst. Qed.

(** A failed write that left part of its record. *)
Lemma torn_inv s c d n st op k :
  inv_at s c d n st -> failed (log st) = false -> is_renamed (ckpt st) = false ->
  op_ok op -> lenZ (hist st) + 2 < two64 ->
  (k < length (record_bytes (mk_record (lenZ (hist st) + 1) (to_bytes op))))%nat ->
  inv_at s c d n (set_log (fail (set_file
    (wfile (log st) ++ take k (record_bytes (mk_record (lenZ (hist st) + 1) (to_bytes op)))) (log st))) st).
Proof.
  intros I Hf Hr Hop Hb Hk. apply log_only_inv; try done.
  destruct (iv_file _ _ _ _ _ I) as (t & Hw & _ & Ht). rewrite (Ht Hf), app_nil_r in Hw.
  cbn [wfile fail set_file failed]. rewrite Hw. eexists. split_and!; [done| |done].
  apply torn_record; [|done]. pose proof (lenZ_nonneg (hist st)). apply record_ok_op; (done || lia).
Qed.

(** A failed write, whatever it left. *)
Lemma write_failed_inv s c d n st op k :
  inv_at s c d n st -> failed (log st) = false -> is_renamed (ckpt st) = false -> good_op op ->
  lenZ (hist st) + 2 < two64 -> apart op st ->
  let b := record_bytes (mk_record (next_lsn (log st)) (to_bytes op)) in
  let w := fail (set_file (wfile (log st) ++ take k b) (log st)) in
  let whole := (length b <=? k)%nat in
  inv_at s c d n (mk_store (ix st) w
    (if whole then inflight st ++ [(next_lsn (log st), op)] else inflight st)
    (syncing st) (ckpt st) (durable st) (old st)
    (if whole then hist st ++ [op] else hist st) (acked st)).
Proof.
  intros I Hf Hr Hop Hb Hcf b w whole. destruct (iv_counts _ _ _ _ _ I Hf) as (Hn & _).
  subst b w whole. rewrite Hn. destruct (Nat.leb_spec (length (record_bytes (mk_record (lenZ (hist st) + 1) (to_bytes op)))) k).
  - apply logged_inv; try done. cbn [wfile fail set_file]. by rewrite take_ge by lia.
  - eapply eta_inv; [apply (torn_inv s c d n st op k); try done; by destruct Hop|done..].
Qed.

Lemma append_inv s c d n st op res st' :
  inv_at s c d n st -> apart op st -> exec st (EAppend op res) = Some st' ->
  inv_at s c d n st'.
Proof.
  intros I Hcf He. cbn [exec] in *.
  destruct (negb (is_renamed (ckpt st)) && flat op && forallb fitsb (changes op)
            && (next_lsn (log st) + 1 <? two64)) eqn:Eg; [|done]. injection He as <-.
  rewrite !andb_true_iff, negb_true_iff in Eg. destruct Eg as [[[Hr Hflat] Hfit%fitsb_fits] Hb%Z.ltb_lt].
  unfold do_append, append_record, landed.
  destruct (Z.ltb_spec u32_max (lenZ (to_bytes op))) as [|Hop]; [by eapply eta_inv|].
  destruct (failed (log st)) eqn:Hf; [by eapply eta_inv|]. cbn [negb andb].
  destruct (iv_counts _ _ _ _ _ I Hf) as (Hn & Hw & Hsz).
  assert (good_op op) as Hgood by done. assert (lenZ (hist st) + 2 < two64) by lia.
  destruct res as [|k cut|k]; cbn [is_ok orb].
  - rewrite Hn. apply logged_inv; try done. cbn [next_lsn written_lsn size wfile failed]. intros _.
    rewrite lenZ_app, Hsz. split_and!; [lia|done|done].
  - unfold cut_back. rewrite lenZ_app, Hsz.
    match goal with |- context [lenZ ?x + lenZ ?y <? lenZ ?x] =>
      pose proof (lenZ_nonneg y); rewrite (proj2 (Z.ltb_ge (lenZ x + lenZ y) (lenZ x))) by lia end.
    cbn [orb]. destruct cut; cbn [negb andb is_ok orb].
    + eapply eta_inv; [exact I|try done..]. cbn [log]. rewrite take_lenZ_app by done.
      by destruct (log st).
    + rewrite orb_false_r. by apply write_failed_inv.
  - rewrite orb_false_r. by apply write_failed_inv.
Qed.

(** ** Syncs *)

Lemma sync_begin_inv s c d n st lsn st' :
  inv_at s c d n st -> exec st (ESyncBegin lsn) = Some st' -> inv_at s c d n st'.
Proof.
  intros I He. cbn [exec] in He. destruct (is_renamed (ckpt st)) eqn:Hr; [done|].
  destruct (syncing st) eqn:Es; [done|]. unfold sync_sample in He.
  destruct (lsn <=? synced_lsn (log st)); [done|]. destruct (failed (log st)) eqn:Hf; [done|].
  injection He as <-. destruct I as [I1 I2 I3 I4 I5 I6 I7 I8 I9 I10 I11 I12 I13 I14 I15 I16 I17 I18].
  split; cbn [ix log inflight syncing ckpt durable old hist acked set_syncing]; auto.
  - intros cov snap [= <- <-]. destruct I1 as (_ & _ & ? & _). exists (length (hist st)).
    destruct (I5 Hf) as (_ & Hw & _). destruct I4 as (t & Hfile & _ & Ht).
    rewrite (Ht Hf), app_nil_r in Hfile. rewrite Hw. split_and!; [lia|lia|unfold lenZ; lia|done].
  - unfold ckpt_ok in *. cbn [ix log ckpt hist syncing set_syncing]. by destruct (ckpt st).
  - intros o f Ho. destruct (I18 o f Ho) as [[Hr'|Hr'] ?]; [by rewrite Hr' in Hr|congruence].
Qed.

Lemma sync_end_inv s c d n st ok st' :
  inv_at s c d n st -> exec st (ESyncEnd ok) = Some st' -> exists n', inv_at s c d n' st'.
Proof.
  intros I He. cbn [exec] in He. destruct (syncing st) as [[cov snap]|] eqn:Es; [|done].
  cbn [mbind option_bind] in He. injection He as <-.
  destruct (iv_syncing _ _ _ _ _ I cov snap Es) as (k & Hk & Hcov & ->).
  destruct I as [I1 I2 I3 I4 I5 I6 I7 I8 I9 I10 I11 I12 I13 I14 I15 I16 I17 I18].
  destruct I1 as (O1 & O2 & O3 & O4). unfold sync_done.
  assert (old st = None) as Hold.
  { destruct (old st) as [[o f]|] eqn:E; [|done]. destruct (I18 o f eq_refl) as (_ & Hs & _). congruence. }
  exists (if ok then k else n).
  destruct ok; split; cbn [ix log inflight syncing ckpt durable old hist acked set_syncing set_disk set_log fst
    wfile size next_lsn written_lsn synced_lsn generation failed config fail]; auto; rewrite ?Hold; try done.
  - split_and!; [lia..|done].
  - intros Hz. destruct (I11 Hz) as (f & F1 & F2 & F3 & F4). exists f. split_and!; [done|lia|done|done].
  - intros Hf i Hi. apply I15; [done|lia].
  - intros i op Hin. destruct (I16 i op Hin) as [? ?]. split; [lia|done].
  - unfold ckpt_ok in *. cbn. destruct (ckpt st); try done. destruct I17 as (_ & ? & _). congruence.
  - destruct I4 as (t & ? & ? & ?). by exists t.
  - unfold ckpt_ok in *. cbn. destruct (ckpt st); try done. destruct I17 as (_ & ? & _). congruence.
Qed.

(** ** Checkpoints *)

Lemma flush_maps x lsn : wf x -> is_Some (frozen x) ->
  let y := (flush_frozen x lsn true).1 in
  wf y /\ contents y = contents x /\ frozen y = None /\ checkpoint_lsn y = lsn /\
  file_map (file y) = overlaid (file_map (file x)) (frozen_map x).
Proof.
  intros Hwf [f Hf]. cbn. destruct (flush_frozen_spec x lsn true Hwf) as [H1 H2].
  pose proof (file_flush_commit x lsn Hwf) as H3. unfold flush_frozen in *. rewrite Hf in *.
  cbn [fst] in *. split_and!; [done..| |done].
  unfold checkpoint_lsn, flush_commit, flush_db. rewrite Hf. cbn. by destruct (foldl _ _ _).
Qed.

Lemma flush_fails x lsn : is_Some (frozen x) -> flush_frozen x lsn false = (x, false).
Proof. intros [f Hf]. unfold flush_frozen. by rewrite Hf. Qed.

Lemma flush_ok x lsn : is_Some (frozen x) -> (flush_frozen x lsn true).2 = true.
Proof. intros [f Hf]. unfold flush_frozen. by rewrite Hf. Qed.

(** The frozen memtable goes into the file, under the label [lsn]. *)
Lemma flushed_inv s c d n st lsn c' p :
  inv_at s c d n st -> is_Some (frozen (ix st)) -> lsn = Z.of_nat c' -> (c <= c')%nat ->
  (forall f, Z.of_nat f <= synced_lsn (log st) -> (d <= f)%nat ->
     same_off K (overlaid (file_map (file (ix st))) (frozen_map (ix st))) (upto f (hist st)) ->
     (forall m, ckpt st = Marked m -> m_lsn m = Z.of_nat f) -> (c' <= f)%nat) ->
  (forall st', ckpt st' = p -> log st' = log st -> hist st' = hist st -> ckpt_ok s c' st') ->
  ckpt st <> Renamed ->
  exists d', inv_at s c' d' n (set_ckpt p (set_ix (flush_frozen (ix st) lsn true).1 st)).
Proof.
  intros I Hz Hlsn Hcc Hle Hck Hren.
  destruct (flush_maps (ix st) lsn (iv_wf _ _ _ _ _ I) Hz) as (M1 & M2 & M3 & M4 & M5).
  destruct (iv_frozen _ _ _ _ _ I Hz) as (f & F1 & F2 & F3 & F4). specialize (Hle f F2 F1 F3 F4).
  destruct I as [I1 I2 I3 I4 I5 I6 I7 I8 I9 I10 I11 I12 I13 I14 I15 I16 I17 I18].
  exists f. split; cbn [ix log inflight syncing ckpt durable old hist acked set_ckpt set_ix]; auto.
  - lia.
  - by rewrite M4.
  - by rewrite M5.
  - rewrite M3. by intros [? ?].
  - by rewrite M2.
  - intros o f' Ho. destruct (I18 o f' Ho) as [[Hr|Hr] (? & s0 & n0 & ? & ? & ? & ? & ?)]; [done|].
    split_and!; [by right|done|]. exists s0, n0. split_and!; [lia|done..].
Qed.

Lemma set_ix_same st : set_ix (ix st) st = st.
Proof. by destruct st. Qed.

Lemma set_ckpt_same st p : ckpt st = p -> set_ckpt p st = st.
Proof. destruct st. cbn. by intros ->. Qed.

Lemma leftover_inv s c d n st ok st' :
  inv_at s c d n st -> exec st (ELeftover ok) = Some st' -> exists d', inv_at s c d' n st'.
Proof.
  intros I He. cbn [exec] in He. destruct (ckpt st) eqn:Ec; try done.
  destruct (has_frozen (ix st)) eqn:Ez; [|done]. apply bool_decide_eq_true_1 in Ez. injection He as <-.
  destruct ok; [|rewrite flush_fails by done; cbn [fst]; rewrite set_ix_same; by exists d].
  rewrite <- (set_ckpt_same (set_ix _ st) Idle) by done.
  apply (flushed_inv s c d n st); try done.
  - apply I.
  - intros f _ Hf _ _. destruct (iv_order _ _ _ _ _ I). lia.
  - intros st' Hc _ _. unfold ckpt_ok. by rewrite Hc.
  - congruence.
Qed.

Lemma mark_ok_now s c d n st : inv_at s c d n st -> failed (log st) = false ->
  mark_ok s (log st) (hist st)
    (mk_mark (current_lsn (log st)) (lenZ (wfile (log st))) (generation (log st))).
Proof.
  intros I Hf. destruct (iv_counts _ _ _ _ _ I Hf) as (Hn & _ & _).
  destruct (iv_file _ _ _ _ _ I) as (t & Hfile & _ & Ht). rewrite (Ht Hf), app_nil_r in Hfile.
  destruct (iv_order _ _ _ _ _ I). exists (length (hist st)). cbn [m_lsn m_offset m_file].
  unfold current_lsn, saturating_sub. rewrite Hn, Hfile. unfold lenZ. split_and!; [lia..|done|done].
Qed.

Lemma set_size_same w : size w = lenZ (wfile w) -> set_size (lenZ (wfile w)) w = w.
Proof. destruct w. cbn. intros <-. done. Qed.

Lemma mark_inv s c d n st st' :
  inv_at s c d n st -> exec st EMark = Some st' -> inv_at s c d n st'.
Proof.
  intros I He. cbn [exec] in He. destruct (ckpt st) eqn:Ec; try done.
  destruct (frozen (ix st)) eqn:Ez; [done|]. destruct (inflight st) eqn:Ei; [|done].
  unfold mark, file_len in He. destruct (failed (log st)) eqn:Hf; injection He as <-.
  { eapply eta_inv; [exact I|done..]. }
  pose proof (mark_ok_now _ _ _ _ _ I Hf) as Hm. destruct (iv_counts _ _ _ _ _ I Hf) as (Hn & _ & Hsz).
  rewrite set_size_same by done.
  destruct I as [I1 I2 I3 I4 I5 I6 I7 I8 I9 I10 I11 I12 I13 I14 I15 I16 I17 I18].
  assert (synced_lsn (log st) = lenZ (hist st)) as Hall.
  { destruct I1 as (_ & ? & ? & _).
    destruct (decide (synced_lsn (log st) < lenZ (hist st))) as [Hlt|]; [|unfold lenZ in *; lia].
    specialize (I15 Hf (lenZ (hist st)) ltac:(lia)). rewrite Ei in I15. by apply not_elem_of_nil in I15. }
  destruct (freeze_maps (ix st) I2 Ez) as [Z1 Z2].
  assert (file (freeze (ix st)).1 = file (ix st) /\ frozen (freeze (ix st)).1 = Some (active (ix st))) as [Z3 Z4]
    by (unfold freeze; by rewrite Ez).
  split; cbn [ix log inflight syncing ckpt durable old hist acked set_ckpt set_ix set_log]; auto.
  - by apply freeze_wf.
  - unfold checkpoint_lsn in *. by rewrite Z3.
  - by rewrite Z3.
  - intros _. exists (length (hist st)). destruct I1 as (? & ? & ? & ?). rewrite Z1, Z3.
    split_and!; [unfold lenZ in *; lia|unfold lenZ in *; lia| |].
    + unfold upto. rewrite take_ge by done. rewrite Ei in I12. cbn in I12. rewrite applied_none in I12.
      rewrite <- I12. unfold contents. unfold frozen_map. by rewrite Ez.
    + intros m [= <-]. cbn [m_lsn]. unfold current_lsn, saturating_sub. rewrite Hn. unfold lenZ. lia.
  - rewrite contents_freeze by done. done.
  - unfold ckpt_ok. cbn [ix log ckpt hist set_ckpt set_ix set_log]. split; [by rewrite Z4|done].
  - intros o f Ho. destruct (I18 o f Ho) as [[?|?] ?]; congruence.
Qed.

(** A checkpoint that stops before its rename. *)
Lemma idle_inv s c d n st : inv_at s c d n st -> ckpt st <> Renamed -> inv_at s c d n (set_ckpt Idle st).
Proof.
  intros [I1 I2 I3 I4 I5 I6 I7 I8 I9 I10 I11 I12 I13 I14 I15 I16 I17 I18] Hr.
  split; cbn [ix log inflight syncing ckpt durable old hist acked set_ckpt]; auto.
  - intros Hz'. destruct (I11 Hz') as (f & F1 & F2 & F3 & F4). by exists f.
  - done.
  - intros o f Ho. destruct (I18 o f Ho) as [[?|?] ?]; [congruence|]. split; [by right|done].
Qed.

Lemma flush_inv s c d n st ok st' :
  inv_at s c d n st -> exec st (EFlush ok) = Some st' -> exists c' d', inv_at s c' d' n st'.
Proof.
  intros I He. cbn [exec] in He. destruct (ckpt st) as [|m| | |] eqn:Ec; try done.
  pose proof (iv_ckpt _ _ _ _ _ I) as Hck. unfold ckpt_ok in Hck. rewrite Ec in Hck.
  destruct Hck as [Hz Hm]. destruct (flush_frozen (ix st) (m_lsn m) ok) as [x r] eqn:Ef.
  injection He as <-. destruct ok.
  - assert (r = true) as -> by (pose proof (flush_ok (ix st) (m_lsn m) Hz); by rewrite Ef in *).
    destruct (iv_frozen _ _ _ _ _ I Hz) as (f & F1 & F2 & F3 & F4). pose proof (F4 m Ec) as Hmf.
    destruct (flushed_inv s c d n st (m_lsn m) f (Flushed m)) as [d' Hd']; try done.
    + destruct (iv_order _ _ _ _ _ I). lia.
    + intros g _ _ _ Hg. specialize (Hg m Ec). lia.
    + intros st' Hc Hl Hh. unfold ckpt_ok. rewrite Hc, Hl, Hh. done.
    + congruence.
    + exists f, d'. by rewrite Ef in Hd'.
  - rewrite flush_fails in Ef by done. injection Ef as <- <-. exists c, d.
    rewrite set_ix_same. apply idle_inv; [done|congruence].
Qed.

Lemma copied_mid (a b x : bytes) lo hi : lo = lenZ a -> hi = lenZ (a ++ b) ->
  copied (a ++ b ++ x) lo hi = b.
Proof.
  intros -> ->. unfold copied, lenZ. rewrite length_app, Nat2Z.id, drop_app_length.
  replace (Z.to_nat (Z.of_nat (length a + length b) - Z.of_nat (length a))) with (length b) by lia.
  by rewrite take_app_length.
Qed.

Lemma copied_seg s m k H : (s <= m <= k)%nat -> (k <= length H)%nat ->
  copied (seg s (length H) H) (lenZ (seg s m H)) (lenZ (seg s k H)) = seg m k H.
Proof.
  intros. rewrite (seg_app s m (length H)), (seg_app m k (length H)) by lia.
  apply copied_mid; [done|]. by rewrite <- seg_app by lia.
Qed.

Lemma seg_length_le s m k H : (s <= m <= k)%nat -> (m <= length H)%nat ->
  lenZ (seg s m H) <= lenZ (seg s k H).
Proof.
  intros. rewrite (seg_app s m k) by lia. rewrite lenZ_app. pose proof (lenZ_nonneg (seg m k H)). lia.
Qed.

Lemma set_log_same st : set_log (log st) st = st.
Proof. by destruct st. Qed.

(** A log in use holds its records and nothing else. *)
Lemma live_file s c d n st : inv_at s c d n st -> failed (log st) = false ->
  wfile (log st) = seg s (length (hist st)) (hist st) /\ set_size (lenZ (wfile (log st))) (log st) = log st.
Proof.
  intros I Hf. destruct (iv_file _ _ _ _ _ I) as (t & Hfile & _ & Ht).
  rewrite (Ht Hf), app_nil_r in Hfile. split; [done|]. apply set_size_same. by apply I.
Qed.

Lemma copy_inv s c d n st ok st' :
  inv_at s c d n st -> exec st (ECopy ok) = Some st' -> inv_at s c d n st'.
Proof.
  intros I He. cbn [exec] in He. destruct (ckpt st) as [| |m| |] eqn:Ec; try done.
  assert (inv_at s c d n (set_ckpt Idle st)) as Hidle by (apply idle_inv; [done|congruence]).
  pose proof (iv_ckpt _ _ _ _ _ I) as Hck. unfold ckpt_ok in Hck. rewrite Ec in Hck.
  destruct Hck as [Hm Hmc]. pose proof Hm as (k & Hk & Hl & Ho & Hg).
  unfold truncate_first, file_len in He. destruct (failed (log st)) eqn:Hf.
  { injection He as <-. by rewrite set_log_same. }
  destruct (live_file _ _ _ _ _ I Hf) as [Hfile Hsame].
  rewrite Hsame, Hg, Z.eqb_refl, Ho, Hfile in He. cbn [negb orb] in He.
  pose proof (seg_length_le s k (length (hist st)) (hist st)) as Hle.
  rewrite (proj2 (Z.ltb_ge _ _)) in He by lia. injection He as <-. rewrite set_log_same.
  destruct ok; [|done]. rewrite copied_seg by lia. assert (k = c) as -> by lia.
  destruct I as [I1 I2 I3 I4 I5 I6 I7 I8 I9 I10 I11 I12 I13 I14 I15 I16 I17 I18].
  split; cbn [ix log inflight syncing ckpt durable old hist acked set_ckpt]; auto.
  - intros Hz'. destruct (I11 Hz') as (f & F1 & F2 & F3 & F4). by exists f.
  - unfold ckpt_ok. cbn [ix log ckpt hist set_ckpt]. split_and!; [done..|].
    exists (length (hist st)). split_and!; [lia..|done|done].
  - intros o f Hof. destruct (I18 o f Hof) as [[?|?] ?]; congruence.
Qed.

Lemma rename_inv s c d n st ok st' :
  inv_at s c d n st -> exec st (ERename ok) = Some st' -> exists s' n', inv_at s' c d n' st'.
Proof.
  intros I He. cbn [exec] in He. destruct (ckpt st) as [| | |m first new|] eqn:Ec; try done.
  destruct (syncing st) eqn:Es; [done|].
  assert (inv_at s c d n (set_ckpt Idle st)) as Hidle by (apply idle_inv; [done|congruence]).
  pose proof (iv_ckpt _ _ _ _ _ I) as Hck. unfold ckpt_ok in Hck. rewrite Ec in Hck.
  destruct Hck as ((k & Hk & Hl & Ho & Hg) & Hmc & j & Hj & -> & ->).
  unfold truncate_rename, file_len in He. destruct (failed (log st)) eqn:Hf.
  { injection He as <-. rewrite set_log_same. by exists s, n. }
  destruct (live_file _ _ _ _ _ I Hf) as [Hfile Hsame].
  rewrite Hsame, Hg, Z.eqb_refl, Hfile in He. cbn [negb orb] in He.
  pose proof (iv_order _ _ _ _ _ I) as Hord.
  pose proof (seg_length_le s j (length (hist st)) (hist st)) as Hle.
  rewrite (proj2 (Z.ltb_ge _ _)) in He by lia.
  destruct ok; cbn [negb] in He; injection He as <-; [|rewrite set_log_same; by exists s, n].
  rewrite copied_seg, <- (seg_app c j) by lia. exists c, (length (hist st)).
  destruct I as [I1 I2 I3 I4 I5 I6 I7 I8 I9 I10 I11 I12 I13 I14 I15 I16 I17 I18].
  destruct (I5 Hf) as (Hn & Hw & Hsz).
  split; cbn [ix log inflight syncing ckpt durable old hist acked set_ckpt set_disk set_log
    wfile size next_lsn written_lsn synced_lsn generation failed config]; auto.
  - lia.
  - exists []. split_and!; [by rewrite app_nil_r|apply torn_nil|done].
  - intros cov snap Hs. congruence.
  - intros Hz. destruct (I11 Hz) as (f & F1 & F2 & F3 & F4). by exists f.
  - unfold ckpt_ok. cbn. done.
  - intros o f [= <- <-]. split_and!; [by left|done|]. exists s, n. split_and!; [lia..|done|done].
Qed.

Lemma dir_sync_inv s c d n st ok st' :
  inv_at s c d n st -> exec st (EDirSync ok) = Some st' -> inv_at s c d (length (hist st)) st'.
Proof.
  intros I He. cbn [exec] in He. destruct (ckpt st) eqn:Ec; try done. injection He as <-.
  pose proof (iv_ckpt _ _ _ _ _ I) as Hck. unfold ckpt_ok in Hck. rewrite Ec in Hck.
  destruct Hck as (Hf & Hs & Hd). destruct (live_file _ _ _ _ _ I Hf) as [Hfile _].
  rewrite Hfile in Hd. destruct I as [I1 I2 I3 I4 I5 I6 I7 I8 I9 I10 I11 I12 I13 I14 I15 I16 I17 I18].
  destruct (I5 Hf) as (Hn & Hw & Hsz). destruct I1 as (O1 & O2 & O3 & O4). unfold truncate_done.
  destruct ok; split; cbn [ix log inflight syncing ckpt durable old hist acked set_ckpt set_disk set_log fst
    wfile size next_lsn written_lsn synced_lsn generation failed config fail]; auto; try done;
    try (intros cov snap Hsn; congruence).
  - split_and!; [lia|lia|lia|unfold lenZ in *; lia|lia|done].
  - intros Hz. destruct (I11 Hz) as (f & F1 & F2 & F3 & F4). exists f. split_and!; [done|lia|done|done].
  - intros _ i Hi. apply I15; [done|]. lia.
  - intros i op Hin. destruct (I16 i op Hin) as [? ?]. split; [lia|done].
  - split_and!; [lia..|done].
  - destruct I4 as (t & ? & ? & ?). by exists t.
  - intros Hz. destruct (I11 Hz) as (f & F1 & F2 & F3 & F4). by exists f.
  - intros o f Ho. destruct (I18 o f Ho) as (_ & ?). split; [by right|done].
Qed.

(** ** A power cut *)

Lemma seg_take_drop s k H : log_bytes (Z.of_nat s) (take k (drop s H)) = seg s (s + k) H.
Proof. unfold seg. by rewrite skipn_firstn_comm, Nat.add_comm, Nat.add_sub. Qed.

Lemma good_ops_ok H : Forall good_op H -> Forall op_ok H.
Proof. intros Hall. eapply Forall_impl; [exact Hall|]. by intros op [? _]. Qed.

(** Part of a log that holds at least the records through [n]: its whole
    records, and a torn one. *)
Lemma seg_prefix s n H t more : Forall good_op H -> (s <= n <= length H)%nat ->
  Z.of_nat (length H) < two64 -> torn t ->
  exists n' t', take (length (seg s n H) + more) (seg s (length H) H ++ t) = seg s n' H ++ t' /\
    torn t' /\ (n <= n' <= length H)%nat.
Proof.
  intros Hgood Hn Hb Ht. unfold seg at 2. rewrite (take_ge H) by done.
  destruct (log_prefix (Z.of_nat s) (drop s H) t (length (seg s n H) + more)) as (k & t' & He & Ht' & Hk & Hmax);
    [lia|unfold lenZ; rewrite length_drop; lia|by apply Forall_drop, good_ops_ok|done|].
  rewrite length_drop in *. exists (s + k)%nat, t'. rewrite He, seg_take_drop. split_and!; [done..| |lia].
  specialize (Hmax (n - s)%nat ltac:(lia)). rewrite seg_take_drop in Hmax.
  replace (s + (n - s))%nat with n in Hmax by lia. lia.
Qed.

Lemma contents_open x : wf (open x) /\ contents (open x) = file_map x.
Proof.
  split; [|done]. split; cbn.
  - intros i t [<- <-]%lookup_singleton_Some. split; [done|constructor].
  - set_solver.
  - done.
Qed.

Lemma good_changes H : Forall good_op H -> Forall fits (all_changes H).
Proof.
  induction 1 as [|op H (_ & _ & Hf) _ IH]; [constructor|]. unfold all_changes. cbn. by apply Forall_app.
Qed.

(** Opening the store on an index file labelled [c] that holds the changes
    through [d], and on the log's records from [s + 1] to [n]. *)
Lemma open_store_spec s c d n H t x cfg y w :
  Forall good_op H -> (s <= c <= d)%nat -> (d <= n <= length H)%nat -> Z.of_nat (length H) < two64 ->
  torn t -> default 0 (db_lsn x) = Z.of_nat c -> same_off K (file_map x) (upto d H) ->
  open_store x (seg s n H ++ t) cfg = Ok (y, w) ->
  wf y /\ same_off K (contents y) (upto n H) /\ frozen y = None /\ file y = x /\
  wfile w = seg s n H /\ next_lsn w = Z.of_nat n + 1 /\ written_lsn w = Z.of_nat n /\
  synced_lsn w = Z.of_nat n /\ failed w = false /\ size w = lenZ (wfile w) /\ config w = cfg.
Proof.
  intros Hgood Hc Hn Hb Ht Hlab Hmap Ho. unfold open_store in Ho.
  change (checkpoint_lsn (open x)) with (default 0 (db_lsn x)) in Ho. rewrite Hlab in Ho.
  destruct (open_replaying (seg s n H ++ t) cfg (Z.of_nat c + 1)) as [[es w0]| |] eqn:Er; try done.
  cbn in Ho. injection Ho as <- <-. unfold seg in Er.
  assert (lenZ (drop s (take n H)) = Z.of_nat n - Z.of_nat s) as Hlen
    by (unfold lenZ; rewrite length_drop, length_take; lia).
  apply open_torn_ok in Er; [|lia|lia|by apply Forall_drop, Forall_take, good_ops_ok|lia|done].
  injection Er as -> ->. rewrite changes_from, drop_drop by lia.
  replace (s + (c - s))%nat with c by lia. destruct (contents_open x) as [Hwf Hcon].
  destruct (apply_entries (open x) (all_changes (drop c (take n H))) Hwf) as (H1 & H2 & [H3 H4 _]).
  { by apply good_changes, Forall_drop, Forall_take. }
  assert (same_off K (contents (foldl apply_entry (open x) (all_changes (drop c (take n H))))) (upto n H)) as Hoff.
  { rewrite H2, Hcon, <- (upto_replay H c d n) by lia.
    apply overlaid_off; [apply file_map_sorted|by apply sorted_overlaid|done..]. }
  rewrite H3, H4. split_and!; try done; cbn;
    unfold last_of; case_decide as Hnil; rewrite ?Hlen; try lia;
    assert (n = s) as -> by (apply (f_equal length) in Hnil; rewrite length_drop, length_take in Hnil; cbn in Hnil; lia); lia.
Qed.

(** What a power cut leaves of the log. *)
Lemma cut_disk s c d n st back on_disk all : inv_at s c d n st ->
  left_by_cut st back = Some (on_disk, all) ->
  exists s0 n0 t, (s0 <= c)%nat /\ (n0 <= length (hist st))%nat /\ synced_lsn (log st) <= Z.of_nat n0 /\
    on_disk = seg s0 n0 (hist st) /\ all = seg s0 (length (hist st)) (hist st) ++ t /\ torn t.
Proof.
  intros I Hd. destruct (iv_order _ _ _ _ _ I) as (O1 & O2 & O3 & O4). unfold left_by_cut in Hd. destruct back.
  - destruct (old st) as [[o f]|] eqn:E; [|done]. injection Hd as <- <-.
    destruct (iv_old _ _ _ _ _ I o f E) as (_ & _ & s0 & n0 & ? & ? & ? & ? & ?).
    exists s0, n0, []. rewrite app_nil_r. split_and!; [done..|apply torn_nil].
  - injection Hd as <- <-. destruct (iv_file _ _ _ _ _ I) as (t & ? & ? & _).
    exists s, n, t. split_and!; [lia..|apply I|done|done].
Qed.

(** A power cut and the open after it: the history is cut to a prefix that
    holds every synced record, and the index reads exactly that. *)
Lemma power_cut_spec s c d n st back more st' :
  inv_at s c d n st -> exec st (EPowerCut back more) = Some st' ->
  exists n' s', synced_lsn (log st) <= Z.of_nat n' /\ (n' <= length (hist st))%nat /\
    hist st' = take n' (hist st) /\ same_off K (contents (ix st')) (upto n' (hist st)) /\
    acked st' = acked st /\ inflight st' = [] /\ inv_at s' c d n' st'.
Proof.
  intros I He. cbn [exec] in He.
  destruct (left_by_cut st back) as [[on_disk all]|] eqn:Ed; [|done]. cbn [mbind option_bind] in He.
  destruct (cut_disk _ _ _ _ _ _ _ _ I Ed) as (s0 & n0 & t & Hs0 & Hn0 & Hsy & -> & -> & Ht).
  destruct (iv_order _ _ _ _ _ I) as (O1 & O2 & O3 & O4).
  destruct (seg_prefix s0 n0 (hist st) t more) as (n' & t' & Hb & Ht' & Hn');
    [apply I|lia|lia|done|]. rewrite Hb in He.
  destruct (open_store _ _ _) as [[y w]| |] eqn:Eo; try done. injection He as <-.
  apply (open_store_spec s0 c d n' (hist st)) in Eo as (W1 & W2 & W3 & W4 & W5 & W6 & W7 & W8 & W9 & W10 & W11);
    [|apply I|lia|lia|lia|done|apply (iv_label _ _ _ _ _ I)|apply I].
  assert (current_lsn w = Z.of_nat n') as Hcur by (unfold current_lsn, saturating_sub; lia).
  rewrite Hcur, Nat2Z.id.
  assert (length (take n' (hist st)) = n') as Hlen by (rewrite length_take; lia).
  exists n', s0. split_and!; try done; [lia..|].
  destruct I as [I1 I2 I3 I4 I5 I6 I7 I8 I9 I10 I11 I12 I13 I14 I15 I16 I17 I18].
  split; cbn [ix log inflight syncing ckpt durable old hist acked]; rewrite ?Hlen, ?W8, ?W11; auto; try done.
  - split_and!; lia.
  - by apply Forall_take.
  - exists []. rewrite app_nil_r, seg_take by lia. split_and!; [done|apply torn_nil|done].
  - intros _. unfold lenZ at 1 2. rewrite Hlen. split_and!; lia.
  - by rewrite seg_take by lia.
  - unfold checkpoint_lsn in *. by rewrite W4.
  - rewrite W4, upto_take by lia. done.
  - rewrite W3. by intros [? ?].
  - rewrite W2. cbn. by rewrite applied_none.
  - constructor.
  - intros _ i. unfold lenZ. rewrite Hlen. lia.
  - intros i op Hin. destruct (I16 i op Hin) as [? ?]. split; [lia|]. by rewrite lookup_take_lt by lia.
Qed.

End off.

(** ** Every event *)

Lemma inv_weaken K K' st : K ⊆ K' -> inv K st -> inv K' st.
Proof.
  intros HK (s & c & d & n & [I1 I2 I3 I4 I5 I6 I7 I8 I9 I10 I11 I12 I13 I14 I15 I16 I17 I18]).
  exists s, c, d, n. split; auto.
  - by eapply same_off_weaken.
  - intros Hz. destruct (I11 Hz) as (f & F1 & F2 & F3 & F4). exists f.
    split_and!; [done..|by eapply same_off_weaken|done].
  - by eapply same_off_weaken.
  - eapply Forall_impl; [exact I13|]. intros p (P1 & P2 & P3). split_and!; [apply P1..|done|].
    intros k Hk Hn. apply P3; [done|]. set_solver.
Qed.

Lemma exec_inv K st ev st' : inv K st -> exec st ev = Some st' -> inv (raced st ev ++ K) st'.
Proof.
  intros HI He. apply (inv_weaken _ (raced st ev ++ K)) in HI as (s & c & d & n & I); [|set_solver].
  destruct ev as [op res|lsn|ok|lsn|ok| |ok|ok|ok|ok|back more].
  - exists s, c, d, n. eapply append_inv; [done| |done].
    intros p Hp k Hk Hn. apply (not_raced st op res p); [done..|]. set_solver.
  - exists s, c, d, n. by eapply sync_begin_inv.
  - destruct (sync_end_inv _ _ _ _ _ _ _ _ I He) as [n' ?]. by exists s, c, d, n'.
  - exists s, c, d, n. by eapply apply_inv.
  - destruct (leftover_inv _ _ _ _ _ _ _ _ I He) as [d' ?]. by exists s, c, d', n.
  - exists s, c, d, n. by eapply mark_inv.
  - destruct (flush_inv _ _ _ _ _ _ _ _ I He) as (c' & d' & ?). by exists s, c', d', n.
  - exists s, c, d, n. by eapply copy_inv.
  - destruct (rename_inv _ _ _ _ _ _ _ _ I He) as (s' & n' & ?). by exists s', c, d, n'.
  - exists s, c, d, (length (hist st)). by eapply dir_sync_inv.
  - destruct (power_cut_spec _ _ _ _ _ _ _ _ _ I He) as (n' & s' & _ & _ & _ & _ & _ & _ & ?).
    by exists s', c, d, n'.
Qed.

Lemma reach_inv cfg K st : sync_on_write cfg = true -> reach cfg K st -> inv K st.
Proof. intros Hc. induction 1; [by apply init_inv|by eapply exec_inv]. Qed.

(** What a [get] reads of a map known outside [K], and the whole of it when
    nothing is left out. *)
Lemma reads_off K x m : wf x -> sorted m -> same_off K (contents x) m ->
  (forall k, k ∉ K -> get x k = bt_get m k) /\ (K = [] -> contents x = m).
Proof.
  intros Hwf Hm H. split.
  - intros k Hk. by rewrite <- get_contents, H.
  - intros ->. apply same_off_eq; [apply contents_sorted|done..].
Qed.

(** C5. The metadata store, configured to sync each write
    ([sync_on_write], the default), keeps every acknowledged write over any
    power cut. In any run of concurrent writes, group commits that succeed or
    fail, writes short of room or failed in the middle, checkpoints stopped
    at any step, and earlier power cuts, when the power is cut and the store
    opens again (on any prefix of the log that holds what was synced, or,
    while a checkpoint's rename is not durable, on the file it replaced), its
    log is the log of before up to some LSN, whole operations in order, and
    every acknowledged write is in it; and every key outside [K], the keys of
    which two writes were ever under way at once, reads exactly as the log's
    operations in LSN order leave it. Where [K] is empty the store holds that
    map and nothing else. A key of [K] may read as the overtaken write
    ([overtaken_write_flips]). *)
Theorem acknowledged_survive cfg K st back more st' :
  sync_on_write cfg = true -> reach cfg K st -> exec st (EPowerCut back more) = Some st' ->
  exists n, hist st' = take n (hist st) /\
    (forall i op, (i, op) ∈ acked st ->
       1 <= i <= Z.of_nat n /\ hist st' !! Z.to_nat (i - 1) = Some op) /\
    (forall k, k ∉ K -> get (ix st') k = bt_get (overlaid [] (all_changes (hist st'))) k) /\
    (K = [] -> contents (ix st') = overlaid [] (all_changes (hist st'))).
Proof.
  intros Hc Hr He. destruct (reach_inv _ _ _ Hc Hr) as (s & c & d & n & I).
  destruct (power_cut_spec _ _ _ _ _ _ _ _ _ I He) as (n' & s' & Hsy & Hle & Hh & Hcon & _ & _ & I').
  exists n'. rewrite Hh. split_and!; [done| |apply reads_off; [apply I'|by apply sorted_overlaid|done]..].
  intros i op Hin. destruct (iv_acked _ _ _ _ _ _ I i op Hin) as [? ?].
  split; [lia|]. by rewrite lookup_take_lt by lia.
Qed.

(** C6. While it runs, the store, configured to sync each write, reads its
    log: at any moment of such a run every acknowledged write is in the log,
    and every key of which no two writes were ever under way at once reads as
    the operations of the log in LSN order leave it, those still under way
    (or whose append failed) left out, though writes are applied in any
    order. Where no key was raced the store holds that map and nothing
    else. *)
Theorem store_reads_log cfg K st : sync_on_write cfg = true -> reach cfg K st ->
  (forall i op, (i, op) ∈ acked st -> hist st !! Z.to_nat (i - 1) = Some op) /\
  (forall k, k ∉ K ->
     get (ix st) k = bt_get (overlaid [] (applied 1 (hist st) (inflight st).*1)) k) /\
  (K = [] -> contents (ix st) = overlaid [] (applied 1 (hist st) (inflight st).*1)) /\
  (inflight st = [] -> forall k, k ∉ K ->
     get (ix st) k = bt_get (overlaid [] (all_changes (hist st))) k).
Proof.
  intros Hc Hr. destruct (reach_inv _ _ _ Hc Hr) as (s & c & d & n & I).
  pose proof (iv_contents _ _ _ _ _ _ I) as Hcon.
  apply reads_off in Hcon as [Hk He]; [|apply I|by apply sorted_overlaid]. split_and!; [|done..|].
  - intros i op Hin. by apply (iv_acked _ _ _ _ _ _ I).
  - intros Hi k HK. by rewrite Hk, Hi, applied_none.
Qed.

(** After a power cut the store opens: when the log a power cut left ends
    in a torn append that holds no whole record inside it, or in none, the
    open succeeds, wherever the checkpoints and their failures left the log
    and the index file; the log starts no later than the index needs it and
    has no gap. *)
Theorem store_opens cfg K st back more on_disk all : sync_on_write cfg = true -> reach cfg K st ->
  left_by_cut st back = Some (on_disk, all) -> lenZ all < u64_max ->
  (forall s ops t, take (length on_disk + more) all = log_bytes s ops ++ t -> torn t ->
     quiet (log_bytes s ops ++ t) (lenZ (log_bytes s ops)) (last_of s ops)) ->
  is_Some (exec st (EPowerCut back more)).
Proof.
  intros Hc Hr Hd Hlen Hq. destruct (reach_inv _ _ _ Hc Hr) as (s & c & d & n & I).
  destruct (cut_disk _ _ _ _ _ _ _ _ _ I Hd) as (s0 & n0 & t & Hs0 & Hn0 & Hsy & -> & -> & Ht).
  destruct (iv_order _ _ _ _ _ _ I) as (O1 & O2 & O3 & O4).
  destruct (seg_prefix s0 n0 (hist st) t more) as (n' & t' & Hb & Ht' & Hn'); [apply I|lia|lia|done|].
  cbn [exec]. rewrite Hd. cbn [mbind option_bind]. specialize (Hq _ _ _ Hb Ht'). rewrite Hb.
  unfold open_store. change (checkpoint_lsn (open (file (ix st)))) with (checkpoint_lsn (ix st)).
  rewrite (iv_label _ _ _ _ _ _ I). unfold seg in *. rewrite open_torn_spec; [by eexists|lia| | |lia|done| |done].
  - unfold lenZ. rewrite length_drop, length_take. lia.
  - apply Forall_drop, Forall_take, good_ops_ok, I.
  - rewrite <- Hb. eapply Z.le_lt_trans; [|exact Hlen]. unfold lenZ. rewrite length_take. lia.
Qed.

(** Runs given by their events. *)
Fixpoint run (st : store) (evs : list event) : option store :=
  match evs with
  | [] => Some st
  | ev :: evs' => st' ← exec st ev; run st' evs'
  end.

(** The keys raced along the way. *)
Fixpoint run_raced (st : store) (evs : list event) (K : list bytes) : list bytes :=
  match evs with
  | [] => K
  | ev :: evs' =>
    match exec st ev with Some st' => run_raced st' evs' (raced st ev ++ K) | None => K end
  end.

Lemma run_reach cfg K st evs st' : reach cfg K st -> run st evs = Some st' ->
  reach cfg (run_raced st evs K) st'.
Proof.
  revert K st. induction evs as [|ev evs IH]; intros K st Hr; cbn; [by intros [= <-]|].
  destruct (exec st ev) as [st1|] eqn:E; [|done]. cbn. apply IH. by eapply reach_step.
Qed.

End inv.

(** ** Examples *)

#[local] Existing Instance castagnoli.

Definition ka : bytes := as_bytes "a".
Definition kb : bytes := as_bytes "b".
Definition v1 : bytes := as_bytes "1".
Definition v2 : bytes := as_bytes "2".

(** Two writes under one sync, applied in the other order, then a checkpoint
    whose truncation has renamed the log and not yet synced the directory, with
    two writes of one key under way. *)
Definition ex_events : list event :=
  [EAppend (Put ka v1) Written; EAppend (Batch [Put kb v2; Delete kb]) Written; ESyncBegin 1;
   ESyncEnd true; EApply 2; EApply 1; EMark; EFlush true; ECopy true;
   EAppend (Put kb v1) Written; EAppend (Put kb v2) Written; ERename true].

Definition ex_store : store := default (init ex_config) (run (init ex_config) ex_events).

Lemma ex_store_reach : reach ex_config [kb] ex_store.
Proof.
  assert (run_raced (init ex_config) ex_events [] = [kb]) as <- by by vm_compute.
  apply (run_reach _ _ (init ex_config)); [apply reach_init|]. unfold ex_store.
  destruct (run (init ex_config) ex_events) eqn:E; [done|]. exfalso.
  assert (bool_decide (is_Some (run (init ex_config) ex_events)) = true) as H by by vm_compute.
  by rewrite E in H.
Qed.

(** The old log comes back, and with it part of the appends since. *)
Lemma acknowledged_survive_witness :
  exists st', exec ex_store (EPowerCut true 7) = Some st' /\
    acked ex_store = [(2, Batch [Put kb v2; Delete kb]); (1, Put ka v1)] /\
    exists n, hist st' = take n (hist ex_store) /\
      (forall i op, (i, op) ∈ acked ex_store ->
         1 <= i <= Z.of_nat n /\ hist st' !! Z.to_nat (i - 1) = Some op) /\
      (forall k, k ∉ [kb] -> get (ix st') k = bt_get (overlaid [] (all_changes (hist st'))) k) /\
      ([kb] = [] -> contents (ix st') = overlaid [] (all_changes (hist st'))).
Proof.
  destruct (exec ex_store (EPowerCut true 7)) as [st'|] eqn:E.
  - exists st'. split_and!; [done|by vm_compute|].
    exact (acknowledged_survive ex_config [kb] ex_store true 7 st' eq_refl ex_store_reach E).
  - exfalso. assert (bool_decide (is_Some (exec ex_store (EPowerCut true 7))) = true) as H by by vm_compute.
    by rewrite E in H.
Defined.

Lemma store_reads_log_witness :
  get (ix ex_store) ka = Some v1 /\
  get (ix ex_store) ka = bt_get (overlaid [] (applied 1 (hist ex_store) (inflight ex_store).*1)) ka.
Proof.
  split; [by vm_compute|].
  refine (proj1 (proj2 (store_reads_log ex_config [kb] ex_store eq_refl ex_store_reach)) ka _).
  by apply (bool_decide_eq_true_1 _); vm_compute.
Defined.

(** The new log is whole: nothing is torn. *)
Lemma store_opens_witness : is_Some (exec (init ex_config) (EPowerCut false 0)).
Proof.
  refine (store_opens ex_config [] (init ex_config) false 0 [] [] eq_refl (reach_init ex_config) eq_refl _ _).
  - by vm_compute.
  - intros s ops t Heq _. symmetry in Heq. apply app_eq_nil in Heq as [Hl ->].
    rewrite Hl. by vm_compute.
Defined.

(** Two writes of one key under way at once: both are acknowledged, the
    second in the log is applied first, and the key reads as the first until
    a power cut, and as the second after it. *)
Definition ex_overtaken : store :=
  default (init ex_config) (run (init ex_config)
    [EAppend (Put ka v1) Written; EAppend (Put ka v2) Written; ESyncBegin 2; ESyncEnd true;
     EApply 2; EApply 1]).

Lemma overtaken_write_flips :
  acked ex_overtaken = [(2, Put ka v2); (1, Put ka v1)] /\
  get (ix ex_overtaken) ka = Some v1 /\
  (st' ← exec ex_overtaken (EPowerCut false 0); get (ix st') ka) = Some v2.
Proof. split_and!; by vm_compute. Qed.

(** A process killed between an append's write and its sync: the store that
    opens next finds the record in the page cache and counts it as synced. *)
Definition ex_before_kill : store :=
  default (init ex_config) (run (init ex_config)
    [EAppend (Put ka v1) Written; ESyncBegin 1; ESyncEnd true; EApply 1; EAppend (Put kb v1) Written]).

Definition ex_killed : option store :=
  match open_store (file (ix ex_before_kill)) (wfile (log ex_before_kill)) ex_config with
  | Ok (x, w) => Some (mk_store x w [] None Idle (durable ex_before_kill) None
                         (hist ex_before_kill) (acked ex_before_kill))
  | _ => None
  end.

Definition ex_gap : store :=
  default (init ex_config) (st0 ← ex_killed;
    run st0 [EMark; EFlush true; EPowerCut false 0;
             EAppend (Put ka v2) Written; ESyncBegin 3; ESyncEnd true; EApply 3]).

(** A checkpoint then labels the index file past what the log has on disk.
    After a power cut before the truncation the store opens, and numbers its
    next record past the gap; that write is acknowledged, and the log is
    refused at the open after it. *)
Lemma unsynced_open_then_refused :
  acked ex_gap = [(1, Put ka v1); (3, Put ka v2)] /\
  durable ex_gap = wfile (log ex_gap) /\
  (match open_store (file (ix ex_gap)) (wfile (log ex_gap)) ex_config with
   | Err e => Some e | _ => None end) = Some RecordsMissing.
Proof. split_and!; by vm_compute. Qed.

End MetaStoreInv.
