(* ===== verification/F64.v ===== *)
(** * Double-precision numbers

    Rust's [f64] over the Standard Library's specification of IEEE 754
    arithmetic ([SpecFloat], 53 bits of mantissa, exponents to 1024), with
    the casts [as f64], [as i64] and [as u64]: a cast from a float drops the
    fraction, saturates, and makes a NaN 0. The lemmas bound a rounded
    result from below: rounding never takes a value below a whole number it
    was above. *)
From S2P Require Import Prelude.
From Stdlib Require Import SpecFloat.

Module F64.

Definition f64 : Type := spec_float.

Definition mul (a b : f64) : f64 := SFmul 53 1024 a b.
Definition div (a b : f64) : f64 := SFdiv 53 1024 a b.
Definition add (a b : f64) : f64 := SFadd 53 1024 a b.
Definition sub (a b : f64) : f64 := SFsub 53 1024 a b.
Definition abs (a : f64) : f64 := SFabs a.
Definition ltb (a b : f64) : bool := SFltb a b.
Definition leb (a b : f64) : bool := SFleb a b.

(** [i as f64], to the nearest. *)
Definition of_Z (z : Z) : f64 := binary_normalize 53 1024 z 0 false.

(** The value without its fraction. *)
Definition trunc (s : bool) (m : positive) (e : Z) : Z :=
  let v := if 0 <=? e then Zpos m * 2 ^ e else Zpos m / 2 ^ (- e) in
  if s then - v else v.

Definition saturate (lo hi : Z) (x : f64) : Z :=
  match x with
  | S754_zero _ | S754_nan => 0
  | S754_infinity s => if s then lo else hi
  | S754_finite s m e => Z.max lo (Z.min hi (trunc s m e))
  end.

(** [x as i64], [x as u64]. *)
Definition as_i64 : f64 -> Z := saturate (- 2 ^ 63) (2 ^ 63 - 1).
Definition as_u64 : f64 -> Z := saturate 0 u64_max.

(** ** Lower bounds

    [ge x m e]: the integer [x] is at most [m * 2^e]. *)
Definition ge (x m e : Z) : Prop :=
  forall a, 0 <= a -> 0 <= a + e -> x * 2 ^ a <= m * 2 ^ (a + e).

Lemma ge_neg x m e : e <= 0 -> ge x m e <-> x * 2 ^ (- e) <= m.
Proof.
  intros He. split; intros H.
  - specialize (H (- e) ltac:(lia) ltac:(lia)). by rewrite Z.add_opp_diag_l, Z.mul_1_r in H.
  - intros a Ha Hae. replace a with (- e + (a + e)) at 1 by lia.
    rewrite Z.pow_add_r, Z.mul_assoc by lia. apply Z.mul_le_mono_nonneg_r; [lia|done].
Qed.

Lemma ge_pos x m e : 0 <= e -> ge x m e <-> x <= m * 2 ^ e.
Proof.
  intros He. split; intros H.
  - specialize (H 0 ltac:(lia) ltac:(lia)). by rewrite Z.pow_0_r, Z.mul_1_r, Z.add_0_l in H.
  - intros a Ha _. rewrite (Z.add_comm a e), Z.pow_add_r, Z.mul_assoc by lia.
    apply Z.mul_le_mono_nonneg_r; [lia|done].
Qed.

Lemma ge_mono x m m' e : ge x m e -> m <= m' -> ge x m' e.
Proof.
  intros H Hm a Ha Hae. specialize (H a Ha Hae).
  pose proof (Z.pow_nonneg 2 (a + e)). nia.
Qed.

Lemma ge_mantissa x m e : 1 <= x -> ge x m e -> 0 < m.
Proof.
  intros Hx H. specialize (H (Z.abs e) ltac:(lia) ltac:(lia)).
  pose proof (Z.pow_pos_nonneg 2 (Z.abs e)). pose proof (Z.pow_pos_nonneg 2 (Z.abs e + e)). nia.
Qed.

Lemma ge_trunc x m e : 0 <= x -> ge x (Zpos m) e -> x <= trunc false m e.
Proof.
  intros Hx H. unfold trunc. destruct (Z.leb_spec 0 e).
  - by apply ge_pos.
  - apply ge_neg in H; [|lia]. apply Z.div_le_lower_bound; [by apply Z.pow_pos_nonneg; lia|lia].
Qed.

(** ** Rounding *)
Lemma digits2_pos_spec p : 2 ^ (Zpos (digits2_pos p) - 1) <= Zpos p < 2 ^ Zpos (digits2_pos p).
Proof.
  induction p as [p IH|p IH|]; cbn [digits2_pos]; [..|done];
    rewrite Pos2Z.inj_succ, Z.pow_succ_r by lia;
    replace (Z.succ (Zpos (digits2_pos p)) - 1) with (Z.succ (Zpos (digits2_pos p) - 1)) by lia;
    rewrite Z.pow_succ_r by lia; lia.
Qed.

Lemma shr_1_m r : 0 <= shr_m r -> shr_m (shr_1 r) = shr_m r / 2.
Proof.
  destruct r as [[|[p|p|]|p] r s]; intros H; cbn in *; try lia; try done.
  - rewrite (Pos2Z.inj_xI p). replace (2 * Zpos p + 1) with (1 + Zpos p * 2) by lia.
    by rewrite Z.div_add by lia.
  - rewrite (Pos2Z.inj_xO p). by rewrite (Z.mul_comm 2), Z.div_mul by lia.
Qed.

Lemma shr_iter_m n : forall r, 0 <= shr_m r -> shr_m (iter_pos shr_1 n r) = shr_m r / 2 ^ Zpos n.
Proof.
  assert (Hpos : forall a q, 0 <= a -> 0 <= a / 2 ^ Zpos q) by (intros; apply Z.div_pos; lia).
  induction n as [n IH|n IH|]; intros r Hr; cbn [iter_pos].
  - assert (0 <= shr_m (shr_1 r)) by (rewrite shr_1_m by done; apply Z.div_pos; lia).
    rewrite IH by (rewrite IH by done; by apply Hpos). rewrite IH, shr_1_m by done.
    rewrite !Z.div_div, (Pos2Z.inj_xI n) by lia.
    replace (2 * Zpos n + 1) with (1 + (Zpos n + Zpos n)) by lia.
    by rewrite !Z.pow_add_r by lia.
  - rewrite IH by (rewrite IH by done; by apply Hpos). rewrite IH by done.
    rewrite Z.div_div, (Pos2Z.inj_xO n) by lia.
    replace (2 * Zpos n) with (Zpos n + Zpos n) by lia. by rewrite Z.pow_add_r by lia.
  - by apply shr_1_m.
Qed.

Lemma shr_of_loc_m m l : shr_m (shr_record_of_loc m l) = m.
Proof. by destruct l as [|[]]. Qed.

(** A shift to 53 bits keeps a whole bound below [2^53]. *)
Lemma shr_fexp_ge x m e l : 1 <= x < 2 ^ 53 -> ge x m e ->
  let '(r, e') := shr_fexp 53 1024 m e l in ge x (shr_m r) e'.
Proof.
  intros Hx H. pose proof (ge_mantissa _ _ _ (proj1 Hx) H) as Hm.
  unfold shr_fexp, shr. destruct (fexp 53 1024 (Zdigits2 m + e) - e) as [|n|n] eqn:En; try (by rewrite shr_of_loc_m).
  rewrite shr_iter_m; rewrite shr_of_loc_m; [|lia].
  destruct m as [|m|m]; try lia. cbn [Zdigits2] in *. pose proof (digits2_pos_spec m) as Hd.
  unfold fexp, emin in En. destruct (Z.le_gt_cases (e + Zpos n) 0) as [He|He].
  - apply ge_neg; [lia|]. apply ge_neg in H; [|lia].
    apply Z.div_le_lower_bound; [by apply Z.pow_pos_nonneg; lia|].
    rewrite Z.mul_comm, <- Z.mul_assoc, <- Z.pow_add_r by lia.
    by replace (- (e + Zpos n) + Zpos n) with (- e) by lia.
  - apply ge_pos; [lia|]. assert (2 ^ 52 <= Zpos m / 2 ^ Zpos n) as Hq.
    { apply Z.div_le_lower_bound; [by apply Z.pow_pos_nonneg; lia|].
      rewrite <- Z.pow_add_r by lia.
      replace (Zpos n + 52) with (Zpos (digits2_pos m) - 1) by lia. apply Hd. }
    assert (2 ^ 1 <= 2 ^ (e + Zpos n)) by (apply Z.pow_le_mono_r; lia).
    change (2 ^ 1) with 2 in *. change (2 ^ 53) with (2 * 2 ^ 52) in Hx. nia.
Qed.

Lemma round_nearest_even_ge m l : m <= round_nearest_even m l.
Proof. destruct l as [|[]]; cbn; try lia. case_match; lia. Qed.

(** The sign and lower bound of a rounded positive value. *)
Definition at_least (x : Z) (f : f64) : Prop :=
  match f with
  | S754_infinity false => True
  | S754_finite false m e => ge x (Zpos m) e
  | _ => False
  end.

Lemma round_at_least x m e l : 1 <= x < 2 ^ 53 -> ge x m e ->
  at_least x (binary_round_aux 53 1024 false m e l).
Proof.
  intros Hx H. unfold binary_round_aux. pose proof (shr_fexp_ge x m e l Hx H) as H1.
  destruct (shr_fexp 53 1024 m e l) as [r1 e1].
  pose proof (shr_fexp_ge x _ e1 loc_Exact Hx (ge_mono _ _ _ _ H1 (round_nearest_even_ge _ (loc_of_shr_record r1)))) as H2.
  destruct (shr_fexp 53 1024 _ e1 loc_Exact) as [r2 e2].
  pose proof (ge_mantissa _ _ _ (proj1 Hx) H2) as Hm.
  destruct (shr_m r2) as [|m2|]; try lia. by destruct (e2 <=? 1024 - 53).
Qed.

(** ** Whole numbers *)
Lemma iter_xO p k : Zpos (Pos.iter xO p k) = Zpos p * 2 ^ Zpos k.
Proof.
  induction k as [|k IH] using Pos.peano_ind; [cbn; lia|].
  rewrite Pos.iter_succ, (Pos2Z.inj_xO (Pos.iter _ _ _)), IH, Pos2Z.inj_succ, Z.pow_succ_r by lia. lia.
Qed.

Lemma digits2_pos_unique p d : 2 ^ (d - 1) <= Zpos p < 2 ^ d -> Zpos (digits2_pos p) = d.
Proof.
  intros [H1 H2]. pose proof (digits2_pos_spec p) as [H3 H4].
  assert (0 < d) by (destruct (Z.le_gt_cases d 0); [|done];
    destruct (Z.eq_dec d 0) as [->|]; [cbn in H2; lia|]; rewrite (Z.pow_neg_r 2 d) in H2 by lia; lia).
  assert (d - 1 < Zpos (digits2_pos p)) by (apply (Z.pow_lt_mono_r_iff 2); lia).
  assert (Zpos (digits2_pos p) - 1 < d) by (apply (Z.pow_lt_mono_r_iff 2); lia). lia.
Qed.

(** A whole number below [2^53] is exact. *)
Lemma of_Z_exact z : 0 < z < 2 ^ 53 -> exists m e, of_Z z = S754_finite false m e /\
  - 52 <= e <= 0 /\ Zpos m = z * 2 ^ (- e) /\ Zpos (digits2_pos m) = 53.
Proof.
  intros Hz. destruct z as [|p|]; try lia. cbn [of_Z binary_normalize].
  pose proof (digits2_pos_spec p) as Hd. set (d := Zpos (digits2_pos p)) in *.
  assert (Hd53 : d <= 53).
  { assert (d - 1 < 53); [|lia]. apply (Z.pow_lt_mono_r_iff 2); lia. }
  set (e := d - 53). assert (exists m, shl_align p 0 (fexp 53 1024 (d + 0)) = (m, e) /\
    Zpos m = Zpos p * 2 ^ (- e)) as (m & Hm & Hv).
  { unfold shl_align, fexp, emin.
    replace ((d + 0 - 53) `max` (3 - 1024 - 53) - 0) with e by lia.
    destruct e as [|k|k] eqn:Ee; [|lia|].
    - exists p. split; [done|cbn; lia].
    - exists (Pos.iter xO p k). rewrite iter_xO. split; [f_equal; lia|done]. }
  assert (Hdm : Zpos (digits2_pos m) = 53).
  { apply digits2_pos_unique. rewrite Hv. change (53 - 1) with 52.
    replace 52 with (d - 1 + - e) by lia. replace 53 with (d + - e) by lia.
    rewrite !Z.pow_add_r by lia. pose proof (Z.pow_pos_nonneg 2 (- e)). nia. }
  exists m, e. split; [|repeat split; [lia|lia|done|done]].
  unfold of_Z, binary_normalize, binary_round. fold d. rewrite Hm.
  assert (Hsh : shr_fexp 53 1024 (Zpos m) e loc_Exact = (Build_shr_record (Zpos m) false false, e)).
  { unfold shr_fexp, fexp, emin. cbn [Zdigits2 shr_record_of_loc]. rewrite Hdm.
    by replace ((53 + e - 53) `max` (3 - 1024 - 53) - e) with 0 by lia. }
  unfold binary_round_aux. rewrite Hsh. cbn [shr_m loc_of_shr_record round_nearest_even]. rewrite Hsh.
  cbn [shr_m]. by destruct (Z.leb_spec e (1024 - 53)); [|lia].
Qed.

Lemma at_least_of_Z x : 1 <= x < 2 ^ 53 -> at_least x (of_Z x).
Proof.
  intros Hx. destruct (of_Z_exact x ltac:(lia)) as (m & e & -> & He & Hm & _).
  cbn [at_least]. apply ge_neg; lia.
Qed.

(** A whole number times something of at least 1 is at least itself. *)
Lemma mul_at_least x f : 1 <= x < 2 ^ 53 -> at_least 1 f -> at_least x (mul (of_Z x) f).
Proof.
  intros Hx Hf. destruct (of_Z_exact x ltac:(lia)) as (m & e & -> & He & Hm & _).
  destruct f as [| [] | | [] my ey]; try done. cbn [mul SFmul xorb].
  apply round_at_least; [done|]. intros a Ha Hae. rewrite Pos2Z.inj_mul, Hm.
  specialize (Hf a Ha ltac:(lia)). replace (a + (e + ey)) with (e + (a + ey)) in * by lia.
  transitivity (x * (Zpos my * 2 ^ (a + ey))); [nia|]. apply Z.eq_le_incl.
  replace (a + ey) with (- e + (e + (a + ey))) at 1 by lia. rewrite Z.pow_add_r by lia. lia.
Qed.

(** A quotient of whole numbers, the dividend no smaller, is at least 1. *)
Lemma div_at_least n s : 0 < s <= n -> n < 2 ^ 53 -> at_least 1 (div (of_Z n) (of_Z s)).
Proof.
  intros Hs Hn. destruct (of_Z_exact n ltac:(lia)) as (m1 & e1 & -> & He1 & Hm1 & Hd1).
  destruct (of_Z_exact s ltac:(lia)) as (m2 & e2 & -> & He2 & Hm2 & Hd2).
  cbn [div SFdiv xorb]. unfold SFdiv_core_binary, fexp, emin. cbn [Zdigits2]. rewrite Hd1, Hd2.
  replace (_ `min` (e1 - e2)) with (e1 - e2 - 53) by lia.
  replace (e1 - e2 - (e1 - e2 - 53)) with 53 by lia.
  destruct (Z.div_eucl (Z.shiftl (Zpos m1) 53) (Zpos m2)) as [q r] eqn:Eq.
  assert (Hq : q = Zpos m1 * 2 ^ 53 / Zpos m2).
  { unfold Z.div. rewrite <- Z.shiftl_mul_pow2, Eq by lia. done. }
  apply round_at_least; [lia|]. apply ge_neg; [lia|]. rewrite Hq, Z.mul_1_l.
  apply Z.div_le_lower_bound; [lia|]. rewrite Hm1, Hm2, <- !Z.mul_assoc, <- !Z.pow_add_r by lia.
  replace (- e2 + - (e1 - e2 - 53)) with (- e1 + 53) by lia.
  apply Z.mul_le_mono_nonneg_r; lia.
Qed.

Lemma as_i64_at_least x f : 0 <= x < 2 ^ 63 -> at_least x f -> x <= as_i64 f.
Proof.
  intros Hx Hf. unfold as_i64, saturate. destruct f as [| [] | | [] m e]; try done; [lia|].
  pose proof (ge_trunc x m e ltac:(lia) Hf). lia.
Qed.

(** ** Sums *)
Lemma shl_align_ge x m e e' : ge x (Zpos m) e ->
  let '(m', f) := shl_align m e e' in ge x (Zpos m') f.
Proof.
  intros H. unfold shl_align. destruct (e' - e) as [|d|d] eqn:E; [done|done|].
  intros a Ha Hae. rewrite iter_xO, <- Z.mul_assoc, <- Z.pow_add_r by lia.
  replace (Zpos d + (a + e')) with (a + e) by lia. apply H; lia.
Qed.

Lemma shl_align_min m e ez : ez <= e -> Zpos (fst (shl_align m e ez)) = Zpos m * 2 ^ (e - ez).
Proof.
  intros H. unfold shl_align. destruct (ez - e) as [|d|d] eqn:E; [|lia|].
  - replace (e - ez) with 0 by lia. cbn. lia.
  - cbn [fst]. rewrite iter_xO. do 2 f_equal. lia.
Qed.

(** Adding a positive number does not take a sum below a whole number. *)
Lemma add_at_least x f h : 1 <= x < 2 ^ 53 -> at_least x f -> at_least 1 h -> at_least x (add f h).
Proof.
  intros Hx Hf Hh. destruct f as [| [] | | [] m e]; try done; [by destruct h as [| [] | | []]|].
  destruct h as [| [] | | [] m' e']; try done. cbn [add SFadd cond_Zopp].
  pose proof (shl_align_min m e (Z.min e e') ltac:(lia)) as Hm.
  set (p := fst (shl_align m e (Z.min e e'))) in *. set (q := fst (shl_align m' e' (Z.min e e'))).
  change (at_least x (binary_round 53 1024 false (p + q) (Z.min e e'))). unfold binary_round.
  assert (Hge : ge x (Zpos (p + q)) (Z.min e e')).
  { apply (ge_mono x (Zpos p)); [|lia]. intros a Ha Hae. rewrite Hm, <- Z.mul_assoc, <- Z.pow_add_r by lia.
    replace (e - Z.min e e' + (a + Z.min e e')) with (a + e) by lia. apply Hf; lia. }
  apply (shl_align_ge x _ _ (fexp 53 1024 (Zpos (digits2_pos (p + q)) + Z.min e e'))) in Hge.
  destruct (shl_align (p + q) _ _) as [mz ez]. by apply round_at_least.
Qed.

Lemma at_least_positive x f : at_least x f -> leb f (of_Z 0) = false.
Proof. by destruct f as [| [] | | []]. Qed.

End F64.
