(* ===== verification/JumpHash.v ===== *)
(** * Which placement group a key is in

    [jump_consistent_hash] of crates/placement/src/jump_hash.rs, on [i64]s
    that wrap and doubles that round, and its use by
    crates/meta/src/service/pgs.rs ([pg_of_key]). xxHash is a library: the
    class [Xxh64]. *)
From S2P Require Import Prelude Bytes F64.
Import F64(f64).

Module JumpHash.

Class Xxh64 := xxh64 : bytes -> Z -> Z.

(** ** Arithmetic of [i64] *)
Definition wrap_i64 (z : Z) : Z := (z + 2 ^ 63) mod two64 - 2 ^ 63.
Definition i32_max : Z := 2 ^ 31 - 1.

(** The congruential step, and the bucket it jumps to from [b]. *)
Definition next_key (k : Z) : Z := wrap_i64 (wrap_i64 (k * 2862933555777941757) + 1).

Definition next_jump (b k : Z) : Z :=
  let shifted := Z.land (Z.shiftr k 33) 2147483647 + 1 in
  let ratio := F64.div (F64.of_Z (Z.shiftl 1 31)) (F64.of_Z shifted) in
  F64.as_i64 (F64.mul (F64.of_Z (b + 1)) ratio).

(** The loop. Each round leaves [j] larger, so [num_buckets] rounds are
    enough ([jump_loop_ends]). *)
Fixpoint jump_loop (fuel : nat) (num_buckets b j k : Z) : option Z :=
  if j <? num_buckets then
    match fuel with
    | O => None
    | S fuel =>
        let b := j in
        let k := next_key k in
        jump_loop fuel num_buckets b (next_jump b k) k
    end
  else Some b.

Definition jump_consistent_hash (key num_buckets : Z) : Z :=
  if num_buckets <=? 0 then 0
  else default (- 1) (jump_loop (Z.to_nat num_buckets) num_buckets (- 1) 0 (wrap_i64 key)).

(** ** The jumps go up *)
Lemma shifted_range k : 1 <= Z.land (Z.shiftr k 33) 2147483647 + 1 <= 2 ^ 31.
Proof.
  change 2147483647 with (Z.ones 31). rewrite Z.land_ones by lia.
  pose proof (Z.mod_pos_bound (Z.shiftr k 33) (2 ^ 31)). lia.
Qed.

Lemma next_jump_up b k : 0 <= b < i32_max -> b < next_jump b k.
Proof.
  intros Hb. unfold i32_max in Hb. unfold next_jump. pose proof (shifted_range k) as Hs.
  assert (b + 1 <= F64.as_i64 (F64.mul (F64.of_Z (b + 1)) (F64.div (F64.of_Z (Z.shiftl 1 31))
    (F64.of_Z (Z.land (Z.shiftr k 33) 2147483647 + 1))))); [|lia].
  apply F64.as_i64_at_least; [lia|]. apply F64.mul_at_least; [lia|].
  apply F64.div_at_least; [|done]. change (Z.shiftl 1 31) with (2 ^ 31). lia.
Qed.

(** The loop ends, at a bucket that is the old one or at or after [j]. *)
Lemma jump_loop_ends n b j k fuel : n <= i32_max -> 0 <= j -> n - j <= Z.of_nat fuel ->
  exists r, jump_loop fuel n b j k = Some r /\ (r = b /\ n <= j \/ j <= r < n).
Proof.
  intros Hn. revert b j k. induction fuel as [|fuel IH]; intros b j k Hj Hf; cbn [jump_loop];
    destruct (Z.ltb_spec j n) as [Hjn|Hjn]; try lia; try (exists b; split; [done|lia]).
  pose proof (next_jump_up j (next_key k) ltac:(lia)).
  destruct (IH j (next_jump j (next_key k)) (next_key k)) as (r & -> & Hr); [lia..|].
  exists r. split; [done|lia].
Qed.

(** With more buckets the loop takes the same jumps and may go on. *)
Lemma jump_loop_grows m n b j k fuel fuel' r : m <= n <= i32_max -> 0 <= j ->
  n - j <= Z.of_nat fuel' -> jump_loop fuel m b j k = Some r ->
  exists r', jump_loop fuel' n b j k = Some r' /\ (r' = r \/ m <= r' < n).
Proof.
  intros Hmn. revert b j k fuel'. induction fuel as [|fuel IH]; intros b j k fuel' Hj Hf;
    cbn [jump_loop]; destruct (Z.ltb_spec j m) as [Hjm|Hjm]; try done.
  1, 3: intros [= <-]; destruct (jump_loop_ends n b j k fuel') as (r' & Hr' & Ho); [lia..|];
    exists r'; split; [done|lia].
  intros H. destruct fuel' as [|fuel']; [lia|]. cbn [jump_loop].
  destruct (Z.ltb_spec j n); [|lia]. pose proof (next_jump_up j (next_key k) ltac:(lia)).
  apply IH; [lia|lia|done].
Qed.

Lemma jump_in_range key n : 0 < n <= i32_max -> 0 <= jump_consistent_hash key n < n.
Proof.
  intros Hn. unfold jump_consistent_hash. destruct (Z.leb_spec n 0); [lia|].
  destruct (jump_loop_ends n (- 1) 0 (wrap_i64 key) (Z.to_nat n)) as (r & -> & Hr); [lia..|].
  cbn. lia.
Qed.

(** A published value of the algorithm. *)
Lemma jump_256_1024 : jump_consistent_hash 256 1024 = 520.
Proof. by vm_compute. Qed.

(** Growing from [m] buckets to [n], a key stays where it was or goes to a
    new bucket. *)
Theorem jump_moves_to_new key m n : 0 < m <= n -> n <= i32_max ->
  jump_consistent_hash key n = jump_consistent_hash key m \/
  m <= jump_consistent_hash key n < n.
Proof.
  intros Hm Hn. unfold jump_consistent_hash.
  destruct (Z.leb_spec n 0); [lia|]. destruct (Z.leb_spec m 0); [lia|].
  destruct (jump_loop_ends m (- 1) 0 (wrap_i64 key) (Z.to_nat m)) as (r & Hr & _); [lia..|].
  destruct (jump_loop_grows m n (- 1) 0 (wrap_i64 key) (Z.to_nat m) (Z.to_nat n) r)
    as (r' & -> & Ho); [lia..|done|]. by rewrite Hr.
Qed.

Lemma jump_moves_to_new_witness :
  (jump_consistent_hash 42 33, jump_consistent_hash 42 34) = (22, 33) /\
  (jump_consistent_hash 42 34 = jump_consistent_hash 42 33 \/
   33 <= jump_consistent_hash 42 34 < 34).
Proof.
  split; [by vm_compute|]. apply (jump_moves_to_new 42 33 34); unfold i32_max; lia.
Defined.

(** ** The placement group of a key *)
Section pg_of_key.
Context `{Xxh64}.

(** [i32::try_from(n).unwrap_or(i32::MAX)]. *)
Definition as_buckets (pg_count : Z) : Z := if pg_count <=? i32_max then pg_count else i32_max.

Definition pg_of_key (bucket key : string) (pg_count : Z) : Z :=
  let hash := xxh64 (as_bytes (bucket +:+ "/" +:+ key)) 0 in
  jump_consistent_hash hash (as_buckets pg_count) mod 2 ^ 32.

(** Every key has a placement group of its pool: the group's number is
    below the pool's count, for any count a [u32] holds but 0. *)
Theorem pg_of_key_in_range bucket key pg_count : is_u32 pg_count -> pg_count <> 0 ->
  0 <= pg_of_key bucket key pg_count < pg_count.
Proof.
  intros Hu H0. unfold is_u32 in Hu. unfold pg_of_key, as_buckets.
  set (n := if pg_count <=? i32_max then pg_count else i32_max).
  assert (0 < n <= i32_max /\ n <= pg_count) as [Hn Hle].
  { unfold n, i32_max. case_if; lia. }
  pose proof (jump_in_range (xxh64 (as_bytes (bucket +:+ "/" +:+ key)) 0) n Hn) as Hj.
  unfold i32_max in Hn. rewrite Z.mod_small by lia. lia.
Qed.

End pg_of_key.

(** A hash for examples: the sum of the bytes and the seed. *)
Definition sum_hash : Xxh64 := fun b seed =>
  wrap64 (foldr (fun x acc => byte.unsigned x + acc) seed b).

Lemma pg_of_key_in_range_witness :
  @pg_of_key sum_hash "photos" "cat.jpg" 256 = 152 /\
  0 <= @pg_of_key sum_hash "photos" "cat.jpg" 256 < 256.
Proof.
  split; [by vm_compute|]. apply (@pg_of_key_in_range sum_hash "photos" "cat.jpg" 256); [|done].
  unfold is_u32. lia.
Defined.

End JumpHash.
