(* ===== verification/Topology.v ===== *)
(** * The cluster's topology

    crates/placement/src/topology.rs: nodes filed by region, datacenter and
    rack, the distance between failure domains; the identifiers and statuses
    it uses from crates/common/src/types.rs; and what meta does to the
    topology (crates/meta/src/service/cluster.rs, service.rs): entries made
    from registrations, status changes, removals.

    A [HashMap] is a [gmap] whose iteration order is any permutation of its
    entries: the class [HashOrder]. *)
From S2P Require Import Prelude Bytes F64.
Import F64(f64).

Module Topology.

(** ** Iteration of a [HashMap] *)
Class HashOrder := {
  iter : forall {K} `{Countable K} {V}, gmap K V -> list (K * V);
  iter_perm : forall {K} `{Countable K} {V} (m : gmap K V), iter m ≡ₚ map_to_list m;
}.

#[refine] Instance entry_order : HashOrder := {|
  iter := fun K _ _ V m => map_to_list m;
|}.
Proof. done. Defined.

#[refine] Instance reverse_order : HashOrder := {|
  iter := fun K _ _ V m => reverse (map_to_list m);
|}.
Proof. intros. apply reverse_Permutation. Defined.

(** ** Identifiers and statuses *)
Definition NodeId := bytes.
Definition DiskId := bytes.

Inductive FailureDomain := Disk | Node | Host | Rack | Datacenter | Zone | Region.
Inductive NodeStatus := Active | Draining | Down | Decommissioning.
Inductive OsdAdminState := In | Out | AdminDraining.
Inductive DiskStatus := Healthy | Degraded | Failed | Rebuilding.

#[global] Instance FailureDomain_eq_dec : EqDecision FailureDomain.
Proof. solve_decision. Defined.
#[global] Instance NodeStatus_eq_dec : EqDecision NodeStatus.
Proof. solve_decision. Defined.
#[global] Instance OsdAdminState_eq_dec : EqDecision OsdAdminState.
Proof. solve_decision. Defined.
#[global] Instance DiskStatus_eq_dec : EqDecision DiskStatus.
Proof. solve_decision. Defined.

Record DiskInfo := mkDisk {
  disk_id : DiskId;
  disk_path : string;
  disk_total_capacity : Z;
  disk_used_capacity : Z;
  disk_status : DiskStatus;
  disk_weight : f64;
}.

Record FailureDomainInfo := new_full {
  region : string;
  zone : string;
  datacenter : string;
  rack : string;
  host : string;
}.

#[global] Instance FailureDomainInfo_eq_dec : EqDecision FailureDomainInfo.
Proof. solve_decision. Defined.

Definition new_domain (region datacenter rack : string) : FailureDomainInfo :=
  new_full region "" datacenter rack "".

Definition at_level (fd : FailureDomainInfo) (level : FailureDomain) : string :=
  match level with
  | Disk | Node => ""
  | Host => host fd
  | Rack => rack fd
  | Datacenter => datacenter fd
  | Zone => zone fd
  | Region => region fd
  end.

Record NodeInfo := mkNode {
  id : NodeId;
  name : string;
  address : string;
  failure_domain : FailureDomainInfo;
  status : NodeStatus;
  disks : list DiskInfo;
  weight : f64;
  last_heartbeat : Z;
}.

Definition with_status (s : NodeStatus) (n : NodeInfo) : NodeInfo :=
  mkNode (id n) (name n) (address n) (failure_domain n) s (disks n) (weight n) (last_heartbeat n).

(** ** Capacities *)
Definition sum64 (l : list Z) : Z := foldl wadd64 0 l.
Definition total_capacity (n : NodeInfo) : Z := sum64 (disk_total_capacity <$> disks n).
Definition used_capacity (n : NodeInfo) : Z := sum64 (disk_used_capacity <$> disks n).
Definition available_capacity (n : NodeInfo) : Z := saturating_sub (total_capacity n) (used_capacity n).
Definition has_capacity (n : NodeInfo) (size : Z) : bool := size <=? available_capacity n.
Definition healthy_disks (n : NodeInfo) : list DiskInfo :=
  filter (fun d => disk_status d = Healthy) (disks n).
Definition disk_available_capacity (d : DiskInfo) : Z :=
  saturating_sub (disk_total_capacity d) (disk_used_capacity d).

(** ** The tree *)
Record RackInfo := mkRack { rack_name : string; nodes : gmap NodeId NodeInfo }.
Record DatacenterInfo := mkDatacenter { dc_name : string; racks : gmap string RackInfo }.
Record RegionInfo := mkRegion { region_name : string; datacenters : gmap string DatacenterInfo }.
Record ClusterTopology := mkTopology { version : Z; regions : gmap string RegionInfo }.

Definition new_rack (name : string) : RackInfo := mkRack name ∅.
Definition new_datacenter (name : string) : DatacenterInfo := mkDatacenter name ∅.
Definition new_region (name : string) : RegionInfo := mkRegion name ∅.
Definition new : ClusterTopology := mkTopology 0 ∅.

Definition upsert_node (node : NodeInfo) (t : ClusterTopology) : ClusterTopology :=
  let fd := failure_domain node in
  let r := default (new_region (region fd)) (regions t !! region fd) in
  let dc := default (new_datacenter (datacenter fd)) (datacenters r !! datacenter fd) in
  let rk := default (new_rack (rack fd)) (racks dc !! rack fd) in
  let rk := mkRack (rack_name rk) (<[id node := node]> (nodes rk)) in
  let dc := mkDatacenter (dc_name dc) (<[rack fd := rk]> (racks dc)) in
  let r := mkRegion (region_name r) (<[datacenter fd := dc]> (datacenters r)) in
  mkTopology (wadd64 (version t) 1) (<[region fd := r]> (regions t)).

Section iteration.
Context `{HashOrder}.

Definition values {K} `{Countable K} {V} (m : gmap K V) : list V := (iter m).*2.

Definition rack_nodes (r : RackInfo) : list NodeInfo := values (nodes r).
Definition dc_nodes (d : DatacenterInfo) : list NodeInfo := values (racks d) ≫= rack_nodes.
Definition region_nodes (r : RegionInfo) : list NodeInfo := values (datacenters r) ≫= dc_nodes.
Definition all_nodes (t : ClusterTopology) : list NodeInfo := values (regions t) ≫= region_nodes.

Definition get_node (node_id : NodeId) (t : ClusterTopology) : option NodeInfo :=
  snd <$> list_find (fun n => id n = node_id) (all_nodes t).

Definition active_nodes (t : ClusterTopology) : list NodeInfo :=
  filter (fun n => status n = Active) (all_nodes t).

(** The first entry [f] takes a node from, with the entry it leaves. *)
Fixpoint remove_first {K V} (f : V -> option (NodeInfo * V)) (l : list (K * V)) :
    option (NodeInfo * (K * V)) :=
  match l with
  | [] => None
  | (k, v) :: l =>
      match f v with
      | Some (n, v') => Some (n, (k, v'))
      | None => remove_first f l
      end
  end.

Definition remove_rack (node_id : NodeId) (r : RackInfo) : option (NodeInfo * RackInfo) :=
  (fun n => (n, mkRack (rack_name r) (base.delete node_id (nodes r)))) <$> nodes r !! node_id.

Definition remove_dc (node_id : NodeId) (d : DatacenterInfo) : option (NodeInfo * DatacenterInfo) :=
  '(n, (k, r)) ← remove_first (remove_rack node_id) (iter (racks d));
  Some (n, mkDatacenter (dc_name d) (<[k := r]> (racks d))).

Definition remove_region (node_id : NodeId) (r : RegionInfo) : option (NodeInfo * RegionInfo) :=
  '(n, (k, d)) ← remove_first (remove_dc node_id) (iter (datacenters r));
  Some (n, mkRegion (region_name r) (<[k := d]> (datacenters r))).

Definition remove_node (node_id : NodeId) (t : ClusterTopology) :
    option NodeInfo * ClusterTopology :=
  match remove_first (remove_region node_id) (iter (regions t)) with
  | Some (n, (k, r)) => (Some n, mkTopology (wadd64 (version t) 1) (<[k := r]> (regions t)))
  | None => (None, t)
  end.

End iteration.

(** ** Where nodes are filed *)
Definition place : Type := string * string * string * NodeId.

Definition place_of (n : NodeInfo) : place :=
  (region (failure_domain n), datacenter (failure_domain n), rack (failure_domain n), id n).

Definition find_at (t : ClusterTopology) (p : place) : option NodeInfo :=
  let '(r, d, k, i) := p in
  ri ← regions t !! r; di ← datacenters ri !! d; ki ← racks di !! k; nodes ki !! i.

(** Every node is under its own region, datacenter, rack and id, and every
    level carries the name it is filed under. *)
Definition wf_rack (r d k : string) (ki : RackInfo) : Prop :=
  rack_name ki = k /\ map_Forall (fun i n => place_of n = (r, d, k, i)) (nodes ki).
Definition wf_dc (r d : string) (di : DatacenterInfo) : Prop :=
  dc_name di = d /\ map_Forall (wf_rack r d) (racks di).
Definition wf_region (r : string) (ri : RegionInfo) : Prop :=
  region_name ri = r /\ map_Forall (wf_dc r) (datacenters ri).
Definition wf (t : ClusterTopology) : Prop := map_Forall wf_region (regions t).

Lemma wf_find_at t p n : wf t -> find_at t p = Some n -> place_of n = p.
Proof.
  destruct p as [[[r d] k] i]. intros Hwf H. cbn in H.
  destruct (regions t !! r) as [ri|] eqn:E1; [|done]. cbn in H. apply Hwf in E1 as [_ Hr].
  destruct (datacenters ri !! d) as [di|] eqn:E2; [|done]. cbn in H. apply Hr in E2 as [_ Hd].
  destruct (racks di !! k) as [ki|] eqn:E3; [|done]. apply Hd in E3 as [_ Hk].
  by apply Hk in H.
Qed.

Lemma wf_default {V} (P : string -> V -> Prop) (m : gmap string V) k v :
  map_Forall P m -> P k v -> P k (default v (m !! k)).
Proof. intros Hm Hv. destruct (m !! k) eqn:E; [by apply Hm|done]. Qed.

Lemma wf_new : wf new.
Proof. apply map_Forall_empty. Qed.

Lemma wf_upsert n t : wf t -> wf (upsert_node n t).
Proof.
  intros Hwf. unfold wf, upsert_node. cbn [regions].
  set (fd := failure_domain n). set (r := default _ (regions t !! _)).
  assert (wf_region (region fd) r) as [Hrn Hr]
    by (apply wf_default; [done|split; [done|apply map_Forall_empty]]).
  set (d := default _ (datacenters r !! _)).
  assert (wf_dc (region fd) (datacenter fd) d) as [Hdn Hd]
    by (apply wf_default; [done|split; [done|apply map_Forall_empty]]).
  set (k := default _ (racks d !! _)).
  assert (wf_rack (region fd) (datacenter fd) (rack fd) k) as [Hkn Hk]
    by (apply wf_default; [done|split; [done|apply map_Forall_empty]]).
  repeat (apply map_Forall_insert_2; [split; [done|]|done]). by apply map_Forall_insert_2.
Qed.

Lemma upsert_find n t p :
  find_at (upsert_node n t) p = if decide (p = place_of n) then Some n else find_at t p.
Proof.
  destruct p as [[[r d] k] i]. unfold find_at, upsert_node, place_of. cbn [regions].
  destruct (failure_domain n) as [rn zn dn kn hn]; cbn [region datacenter rack].
  destruct (decide (r = rn)) as [->|]; [|rewrite lookup_insert_ne by done; by rewrite decide_False by congruence].
  rewrite lookup_insert_eq. cbn [mbind option_bind datacenters].
  set (ri := default _ (regions t !! rn)).
  destruct (decide (d = dn)) as [->|]; [|rewrite lookup_insert_ne, decide_False by congruence;
    unfold ri; destruct (regions t !! rn); cbn; [done|by rewrite lookup_empty]].
  rewrite lookup_insert_eq. cbn [mbind option_bind racks].
  set (di := default _ (datacenters ri !! dn)).
  assert (Hdi : forall q, (ki ← racks di !! q; nodes ki !! i) =
    (ri ← regions t !! rn; di ← datacenters ri !! dn; ki ← racks di !! q; nodes ki !! i)).
  { intros q. unfold di, ri. destruct (regions t !! rn); cbn; [|by rewrite !lookup_empty].
    destruct (_ !! dn); cbn; [done|by rewrite !lookup_empty]. }
  destruct (decide (k = kn)) as [->|]; [|rewrite lookup_insert_ne, decide_False by congruence; apply Hdi].
  rewrite lookup_insert_eq. cbn [mbind option_bind nodes].
  destruct (decide (i = id n)) as [->|]; [by rewrite lookup_insert_eq, decide_True by done|].
  rewrite lookup_insert_ne, decide_False, <- Hdi by congruence.
  destruct (racks di !! kn); cbn; [done|by rewrite lookup_empty].
Qed.

(** ** Iterating over the tree *)
Section walks.
Context `{HashOrder}.

Lemma elem_of_iter {K} `{Countable K} {V} (m : gmap K V) k v : (k, v) ∈ iter m <-> m !! k = Some v.
Proof. rewrite iter_perm. apply elem_of_map_to_list. Qed.

Lemma NoDup_iter {K} `{Countable K} {V} (m : gmap K V) : NoDup (iter m).
Proof. rewrite iter_perm. apply NoDup_map_to_list. Qed.

(** The nodes with their places, in the order [all_nodes] yields them. *)
Definition entries (t : ClusterTopology) : list (place * NodeInfo) :=
  '(r, ri) ← iter (regions t); '(d, di) ← iter (datacenters ri);
  '(k, ki) ← iter (racks di); '(i, n) ← iter (nodes ki); [((r, d, k, i), n)].

Lemma snd_bind {A K V} (f : V -> list A) (g : K * V -> list (place * A)) l :
  (forall x, (g x).*2 = f x.2) -> (l ≫= g).*2 = l.*2 ≫= f.
Proof. intros Hg. induction l as [|x l IH]; csimpl; [done|]. by rewrite fmap_app, Hg, IH. Qed.

Lemma all_nodes_entries t : all_nodes t = (entries t).*2.
Proof.
  symmetry. apply snd_bind. intros [r ri]. apply snd_bind. intros [d di]. apply snd_bind.
  intros [k ki]. unfold rack_nodes, values. cbn [snd].
  induction (iter (nodes ki)) as [|[i n] l IH]; csimpl; [done|]. by rewrite IH.
Qed.

Lemma elem_of_entries t p n : (p, n) ∈ entries t <-> find_at t p = Some n.
Proof.
  destruct p as [[[r d] k] i]. unfold entries, find_at. rewrite list_elem_of_bind. split.
  - intros ([r' ri] & Hin & Hr). apply list_elem_of_bind in Hin as ([d' di] & Hin & Hd).
    apply list_elem_of_bind in Hin as ([k' ki] & Hin & Hk).
    apply list_elem_of_bind in Hin as ([i' n'] & Hin & Hn).
    apply list_elem_of_singleton in Hin. simplify_eq.
    apply elem_of_iter in Hn, Hk, Hd, Hr. by rewrite Hr; cbn; rewrite Hd; cbn; rewrite Hk.
  - intros (ri & Hr & (di & Hd & (ki & Hk & Hn)%bind_Some)%bind_Some)%bind_Some.
    exists (r, ri). rewrite elem_of_iter, list_elem_of_bind. split; [|done].
    exists (d, di). rewrite elem_of_iter, list_elem_of_bind. split; [|done].
    exists (k, ki). rewrite elem_of_iter, list_elem_of_bind. split; [|done].
    exists (i, n). rewrite elem_of_iter. split; [by left|done].
Qed.

Lemma NoDup_entries t : NoDup (entries t).
Proof.
  assert (Hs : forall (A B : Type) (l : list A) (f : A -> list B), NoDup l ->
    (forall x, NoDup (f x)) -> (forall x y z, x ∈ l -> y ∈ l -> z ∈ f x -> z ∈ f y -> x = y) ->
    NoDup (l ≫= f)) by (intros; by apply NoDup_bind).
  assert (Hk : forall (K V : Type) (Hq : EqDecision K) (Hc : Countable K) (m : gmap K V) (x y : K * V),
    x ∈ iter m -> y ∈ iter m -> x.1 = y.1 -> x = y).
  { intros K V ? ? m [k v] [k' v'] Hx Hy. cbn. intros <-. apply elem_of_iter in Hx, Hy. congruence. }
  unfold entries. apply Hs; [apply NoDup_iter|intros [r ri]|].
  { apply Hs; [apply NoDup_iter|intros [d di]|].
    { apply Hs; [apply NoDup_iter|intros [k ki]|].
      { apply Hs; [apply NoDup_iter|intros [i n]; apply NoDup_singleton|].
        intros [i n] [i' n'] z Hx Hy Hz1 Hz2. apply (Hk _ _ _ _ (nodes ki)); [done|done|].
        set_solver. }
      intros [k ki] [k' ki'] z Hx Hy Hz1 Hz2. apply (Hk _ _ _ _ (racks di)); [done|done|].
      apply list_elem_of_bind in Hz1 as ([] & ?%list_elem_of_singleton & _).
      apply list_elem_of_bind in Hz2 as ([] & ?%list_elem_of_singleton & _). cbn. congruence. }
    intros [d di] [d' di'] z Hx Hy Hz1 Hz2. apply (Hk _ _ _ _ (datacenters ri)); [done|done|].
    apply list_elem_of_bind in Hz1 as ([] & ([] & ?%list_elem_of_singleton & _)%list_elem_of_bind & _).
    apply list_elem_of_bind in Hz2 as ([] & ([] & ?%list_elem_of_singleton & _)%list_elem_of_bind & _).
    cbn. congruence. }
  intros [r ri] [r' ri'] z Hx Hy Hz1 Hz2. apply (Hk _ _ _ _ (regions t)); [done|done|].
  apply list_elem_of_bind in Hz1 as ([] & ([] & ([] & ?%list_elem_of_singleton & _)%list_elem_of_bind & _)%list_elem_of_bind & _).
  apply list_elem_of_bind in Hz2 as ([] & ([] & ([] & ?%list_elem_of_singleton & _)%list_elem_of_bind & _)%list_elem_of_bind & _).
  cbn. congruence.
Qed.

Lemma elem_of_all_nodes t n : n ∈ all_nodes t <-> exists p, find_at t p = Some n.
Proof.
  rewrite all_nodes_entries, list_elem_of_fmap. split.
  - intros ([p n'] & -> & Hp). exists p. by apply elem_of_entries.
  - intros [p Hp]. exists (p, n). by rewrite elem_of_entries.
Qed.

(** ** Removal *)
Lemma remove_first_some {K V} (f : V -> option (NodeInfo * V)) (l : list (K * V)) n k v' :
  remove_first f l = Some (n, (k, v')) -> exists v, (k, v) ∈ l /\ f v = Some (n, v').
Proof.
  induction l as [|[k0 v0] l IH]; [done|]. cbn. destruct (f v0) as [[n0 v0']|] eqn:E.
  - intros [= -> -> ->]. exists v0. split; [by left|done].
  - intros (v & Hv & Hf)%IH. exists v. split; [by right|done].
Qed.

Lemma remove_first_none {K V} (f : V -> option (NodeInfo * V)) (l : list (K * V)) k v :
  remove_first f l = None -> (k, v) ∈ l -> f v = None.
Proof.
  induction l as [|[k0 v0] l IH]; [by intros _ ?%not_elem_of_nil|]. cbn.
  destruct (f v0) as [[]|] eqn:E; [done|]. intros Hn [[= -> ->]|Hin]%elem_of_cons; auto.
Qed.

(** [f] takes away one node that [g] finds at a key in [hit], or there is
    none. *)
Definition removes {V A} `{EqDecision A} (f : V -> option (NodeInfo * V))
    (g : V -> A -> option NodeInfo) (hit : A -> Prop) : Prop :=
  forall v, match f v with
    | Some (n, v') => exists a, hit a /\ g v a = Some n /\
        forall b, g v' b = if decide (b = a) then None else g v b
    | None => forall a, hit a -> g v a = None
    end.

(** From one level of the tree to the level above. *)
Lemma remove_level {V A} `{EqDecision A} (f : V -> option (NodeInfo * V)) (g : V -> A -> option NodeInfo)
    (hit : A -> Prop) (m : gmap string V) : removes f g hit ->
  match remove_first f (iter m) with
  | Some (n, (k, v')) => exists a, hit a /\ (v ← m !! k; g v a) = Some n /\
      forall k' b, (v ← <[k := v']> m !! k'; g v b) =
        if decide ((k', b) = (k, a)) then None else v ← m !! k'; g v b
  | None => forall k a, hit a -> (v ← m !! k; g v a) = None
  end.
Proof.
  intros Hf. destruct (remove_first f (iter m)) as [[n [k v']]|] eqn:E.
  - apply remove_first_some in E as (v & Hv%elem_of_iter & Ev). specialize (Hf v). rewrite Ev in Hf.
    destruct Hf as (a & Ha & Hga & Hb). exists a. rewrite Hv. split_and!; [done|done|].
    intros k' b. destruct (decide (k' = k)) as [->|Hk].
    + rewrite lookup_insert_eq, Hv. cbn. rewrite Hb.
      destruct (decide (b = a)) as [->|]; [by rewrite decide_True by done|by rewrite decide_False by congruence].
    + by rewrite lookup_insert_ne, decide_False by congruence.
  - intros k a Ha. destruct (m !! k) as [v|] eqn:Em; [|done]. cbn.
    apply elem_of_iter in Em. specialize (Hf v). rewrite (remove_first_none _ _ _ _ E Em) in Hf. by apply Hf.
Qed.

Definition in_rack (ki : RackInfo) (j : NodeId) : option NodeInfo := nodes ki !! j.
Definition in_dc (di : DatacenterInfo) (a : string * NodeId) : option NodeInfo :=
  ki ← racks di !! a.1; in_rack ki a.2.
Definition in_region (ri : RegionInfo) (a : string * (string * NodeId)) : option NodeInfo :=
  di ← datacenters ri !! a.1; in_dc di a.2.

Lemma rack_removes i : removes (remove_rack i) in_rack (fun a => a = i).
Proof.
  intros ki. unfold remove_rack, in_rack. destruct (nodes ki !! i) as [n|] eqn:E; cbn.
  - exists i. split_and!; [done|done|]. intros b. cbn.
    destruct (decide (b = i)) as [->|]; [by rewrite lookup_delete_eq|by rewrite lookup_delete_ne].
  - by intros a ->.
Qed.

Lemma dc_removes i : removes (remove_dc i) in_dc (fun a => a.2 = i).
Proof.
  intros di. pose proof (remove_level _ _ _ (racks di) (rack_removes i)) as Hk.
  unfold remove_dc. destruct (remove_first (remove_rack i) _) as [[n [k ki]]|]; cbn.
  - destruct Hk as (a & -> & Hn & Hb). exists (k, i). split_and!; [done|done|]. intros [k' b]. apply Hb.
  - intros [k a]. cbn. intros ->. by apply Hk.
Qed.

Lemma region_removes i : removes (remove_region i) in_region (fun a => a.2.2 = i).
Proof.
  intros ri. pose proof (remove_level _ _ _ (datacenters ri) (dc_removes i)) as Hd.
  unfold remove_region. destruct (remove_first (remove_dc i) _) as [[n [d di]]|]; cbn.
  - destruct Hd as (a & Ha & Hn & Hb). exists (d, a). split_and!; [done|done|]. intros [d' b]. apply Hb.
  - intros [d a]. cbn. intros Ha. by apply Hd.
Qed.

Lemma remove_find i t :
  match remove_node i t with
  | (Some n, t') => exists p, p.2 = i /\ find_at t p = Some n /\
      forall q, find_at t' q = if decide (q = p) then None else find_at t q
  | (None, t') => t' = t /\ forall p, p.2 = i -> find_at t p = None
  end.
Proof.
  pose proof (remove_level _ _ _ (regions t) (region_removes i)) as Hr.
  unfold remove_node. destruct (remove_first (remove_region i) _) as [[n [r ri]]|].
  - destruct Hr as ([d [k j]] & Ha & Hn & Hb). exists (r, d, k, j). split_and!; [done|done|].
    intros [[[r' d'] k'] j']. specialize (Hb r' (d', (k', j'))).
    transitivity (if decide ((r', (d', (k', j'))) = (r, (d, (k, j)))) then None
      else find_at t (r', d', k', j')); [exact Hb|].
    destruct (decide ((r', (d', (k', j'))) = (r, (d, (k, j))))); destruct (decide _); congruence.
  - split; [done|]. intros [[[r d] k] j] Hj. exact (Hr r (d, (k, j)) Hj).
Qed.

Lemma wf_remove_first {V} (P : string -> V -> Prop) (f : V -> option (NodeInfo * V)) (m : gmap string V) n k v :
  (forall k v n v', P k v -> f v = Some (n, v') -> P k v') -> map_Forall P m ->
  remove_first f (iter m) = Some (n, (k, v)) -> map_Forall P (<[k := v]> m).
Proof.
  intros Hf Hm (v0 & Hv0%elem_of_iter & Ef)%remove_first_some. apply map_Forall_insert_2; [|done].
  eapply Hf; [by apply Hm|done].
Qed.

Lemma wf_remove i t : wf t -> wf (remove_node i t).2.
Proof.
  intros Hwf. unfold remove_node. destruct (remove_first _ _) as [[n [r ri]]|] eqn:E; [|done].
  cbn. unfold wf. cbn [regions]. eapply wf_remove_first; [|done|done].
  clear -H. intros r ri n ri' [Hn Hd] E. unfold remove_region in E.
  destruct (remove_first _ _) as [[n' [d di]]|] eqn:E'; [|done]. cbn in E. simplify_eq.
  split; [done|]. cbn [datacenters]. eapply wf_remove_first; [|done|done].
  clear -H. intros d di n di' [Hn Hk] E. unfold remove_dc in E.
  destruct (remove_first _ _) as [[n' [k ki]]|] eqn:E'; [|done]. cbn in E. simplify_eq.
  split; [done|]. cbn [racks]. eapply wf_remove_first; [|done|done].
  clear -H. intros k ki n ki' [Hn Hi] E. unfold remove_rack in E.
  destruct (nodes ki !! i); [|done]. cbn in E. simplify_eq. split; [done|].
  cbn [nodes]. by apply map_Forall_delete.
Qed.

(** ** The topology as a map from ids to nodes *)
Definition rep (t : ClusterTopology) (m : gmap NodeId NodeInfo) : Prop :=
  wf t /\ forall i n, m !! i = Some n <-> id n = i /\ find_at t (place_of n) = Some n.

Lemma rep_new : rep new ∅.
Proof. split; [apply wf_new|]. intros i n. split; [by rewrite lookup_empty|by intros [_ ?]]. Qed.

Lemma rep_find t m p n : rep t m -> find_at t p = Some n -> m !! id n = Some n /\ p = place_of n.
Proof. intros [Hwf Hm] Hp. pose proof (wf_find_at _ _ _ Hwf Hp). subst p. by rewrite Hm. Qed.

Lemma rep_upsert t m n : rep t m -> (forall n', m !! id n = Some n' -> place_of n' = place_of n) ->
  rep (upsert_node n t) (<[id n := n]> m).
Proof.
  intros [Hwf Hm] Hsame. split; [by apply wf_upsert|]. intros i n'. rewrite upsert_find.
  destruct (decide (id n = i)) as [<-|Hi].
  - rewrite lookup_insert_eq. split; [intros [= <-]; by rewrite decide_True by done|].
    intros [Hid H']. destruct (decide (place_of n' = place_of n)) as [|Hne]; [congruence|].
    exfalso. apply Hne, Hsame. by apply Hm.
  - rewrite lookup_insert_ne, Hm by done.
    destruct (decide (place_of n' = place_of n)) as [[= _ _ _ Hid]|]; [|done].
    split; intros [? _]; congruence.
Qed.

Lemma rep_remove t m i : rep t m ->
  (remove_node i t).1 = m !! i /\ rep (remove_node i t).2 (base.delete i m).
Proof.
  intros [Hwf Hm]. pose proof (wf_remove i t Hwf) as Hwf'. pose proof (remove_find i t) as Hr.
  destruct (remove_node i t) as [[n|] t']; cbn [fst snd] in *.
  - destruct Hr as (p & Hp & Hn & Hq). destruct (rep_find _ _ _ _ (conj Hwf Hm) Hn) as [Hmn ->].
    cbn in Hp. subst i. split; [done|]. split; [done|]. intros i n'. rewrite Hq.
    destruct (decide (id n = i)) as [<-|Hi].
    + rewrite lookup_delete_eq. split; [done|]. intros [Hid H']. case_decide as Hd; [done|].
      assert (m !! id n = Some n') by (by apply Hm). congruence.
    + rewrite lookup_delete_ne, Hm by done.
      case_decide as Hd; [|done]. injection Hd. split; intros [? _]; congruence.
  - destruct Hr as [-> Hno].
    assert (m !! i = None) as Hi.
    { destruct (m !! i) as [n|] eqn:E; [|done]. apply Hm in E as [Hid E]. by rewrite Hno in E. }
    split; [done|]. split; [done|]. by rewrite delete_id.
Qed.

Lemma rep_nodup t m : rep t m -> NoDup (id <$> all_nodes t).
Proof.
  intros Hrep. rewrite all_nodes_entries, <- list_fmap_compose.
  apply NoDup_fmap_2_strong; [|apply NoDup_entries].
  intros [p n] [q n'] Hp%elem_of_entries Hq%elem_of_entries Hid. cbn in Hid.
  destruct (rep_find _ _ _ _ Hrep Hp) as [H1 ->]. destruct (rep_find _ _ _ _ Hrep Hq) as [H2 ->].
  rewrite Hid in H1. congruence.
Qed.

Lemma rep_elem_of t m n : rep t m -> n ∈ all_nodes t <-> m !! id n = Some n.
Proof.
  intros Hrep. rewrite elem_of_all_nodes. split.
  - intros [p Hp]. by eapply rep_find.
  - intros Hn. apply Hrep in Hn as [_ Hn]. eauto.
Qed.

Lemma rep_get t m i : rep t m -> get_node i t = m !! i.
Proof.
  intros Hrep. unfold get_node. destruct (list_find _ _) as [[j n]|] eqn:E; cbn.
  - apply list_find_Some in E as (Hj & <- & _).
    symmetry. apply (rep_elem_of _ _ _ Hrep). by eapply list_elem_of_lookup_2.
  - destruct (m !! i) as [n|] eqn:En; [|done]. exfalso. pose proof En as En'.
    apply Hrep in En' as [Hid _]. rewrite <- Hid in En. apply (rep_elem_of _ _ _ Hrep) in En.
    apply list_find_None in E. rewrite Forall_forall in E. by apply (E n).
Qed.

Lemma rep_all t m : rep t m -> all_nodes t ≡ₚ (map_to_list m).*2.
Proof.
  intros Hrep. apply NoDup_Permutation.
  - eapply NoDup_fmap_1, rep_nodup, Hrep.
  - apply (NoDup_fmap_2_strong snd); [|apply NoDup_map_to_list].
    intros [i n] [j n'] Hi%elem_of_map_to_list Hj%elem_of_map_to_list. cbn. intros <-.
    apply Hrep in Hi as [<- _], Hj as [<- _]. done.
  - intros n. rewrite (rep_elem_of _ _ _ Hrep), list_elem_of_fmap. split.
    + intros Hn. exists (id n, n). by rewrite elem_of_map_to_list.
    + intros ([i n'] & -> & Hn%elem_of_map_to_list). pose proof Hn as Hn'.
      by apply Hrep in Hn' as [<- _].
Qed.

End walks.

End Topology.
