(* ===== verification/TopologySpec.v ===== *)
(** * What the topology promises

    Theorems on [Topology]: a cluster whose nodes keep their places is a map
    from ids to nodes, whatever order its hash maps are walked in
    ([topology_refines_map]); every node is filed under its own names
    ([topology_filed]). And the distance between failure domains of
    crates/placement/src/topology.rs, which is an ultrametric where regions
    are named ([distance_ultrametric]). *)
From S2P Require Import Prelude Bytes F64 Topology.
Import Topology.

Module TopologySpec.

(** ** Runs of changes, each with its own iteration order *)
Inductive op :=
| Upsert (n : NodeInfo)
| Remove (ord : HashOrder) (i : NodeId).

Definition step (t : ClusterTopology) (o : op) : ClusterTopology :=
  match o with
  | Upsert n => upsert_node n t
  | Remove ord i => (@remove_node ord i t).2
  end.

Definition run (ops : list op) : ClusterTopology := foldl step new ops.

(** The map the changes describe. *)
Definition spec_step (m : gmap NodeId NodeInfo) (o : op) : gmap NodeId NodeInfo :=
  match o with
  | Upsert n => <[id n := n]> m
  | Remove _ i => base.delete i m
  end.

Definition spec_run (ops : list op) : gmap NodeId NodeInfo := foldl spec_step ∅ ops.

(** No node is filed in two places. *)
Definition settled (ops : list op) : Prop := forall n n',
  Upsert n ∈ ops -> Upsert n' ∈ ops -> id n = id n' -> place_of n = place_of n'.

Lemma spec_run_from ops i n : spec_run ops !! i = Some n -> Upsert n ∈ ops /\ id n = i.
Proof.
  unfold spec_run. induction ops as [|o ops IH] using rev_ind; cbn [foldl]; [by rewrite lookup_empty|].
  rewrite foldl_app. cbn [foldl]. rewrite elem_of_app. destruct o as [n'|ord j]; cbn [spec_step].
  - intros [[<- <-]|[_ H]]%lookup_insert_Some; [set_solver|]. naive_solver.
  - intros [_ H]%lookup_delete_Some. naive_solver.
Qed.

Lemma run_rep ops : settled ops -> rep (run ops) (spec_run ops).
Proof.
  induction ops as [|o ops IH] using rev_ind; intros Hs; [apply rep_new|].
  assert (IH' : rep (run ops) (spec_run ops)) by (apply IH; intros ????; apply Hs; set_solver).
  unfold run, spec_run. rewrite !foldl_app. cbn [foldl]. fold (run ops) (spec_run ops).
  destruct o as [n|ord i]; cbn [step spec_step].
  - apply rep_upsert; [done|]. intros n' [Hin Hid]%spec_run_from. apply Hs; set_solver.
  - by apply rep_remove.
Qed.

(** In a cluster whose nodes keep their places, the topology is a map: a
    lookup by id answers the node last filed under it and not removed
    since, a walk yields each such node once, and a removal gives back the
    node it takes, in whatever order the hash maps are walked. *)
Theorem topology_refines_map ops : settled ops -> forall (ord : HashOrder) i,
  get_node i (run ops) = spec_run ops !! i /\
  (remove_node i (run ops)).1 = spec_run ops !! i /\
  all_nodes (run ops) ≡ₚ (map_to_list (spec_run ops)).*2.
Proof.
  intros Hs ord i. pose proof (run_rep ops Hs) as Hrep.
  split_and!; [by apply rep_get|by apply rep_remove|by apply rep_all].
Qed.

(** Whatever is registered or removed, moved nodes included, every node is
    filed under its own region, datacenter, rack and id, and every level
    carries the name it is filed under. *)
Theorem topology_filed ops : wf (run ops).
Proof.
  unfold run. induction ops as [|o ops IH] using rev_ind; [apply wf_new|].
  rewrite foldl_app. cbn [foldl]. destruct o; [by apply wf_upsert|by apply wf_remove].
Qed.

(** Nodes for examples. *)
Definition node_in (i : byte) (rack host : string) (s : NodeStatus) : NodeInfo :=
  mkNode [i] "osd" "10.0.0.1:9200" (new_full "r" "z" "dc" rack host) s [] (F64.of_Z 1) 0.

Definition n1 := node_in Byte.x01 "rack1" "h1" Active.
Definition n1_down := node_in Byte.x01 "rack1" "h1" Down.
Definition n2 := node_in Byte.x02 "rack2" "h2" Active.
Definition sample_ops : list op :=
  [Upsert n1; Upsert n2; Upsert n1_down; Remove reverse_order [Byte.x02]].

Lemma sample_settled : settled sample_ops.
Proof.
  assert (Hp : forall n, Upsert n ∈ sample_ops -> n = n1 \/ n = n2 \/ n = n1_down).
  { intros n Hn. unfold sample_ops in Hn. set_solver. }
  intros n n' [->|[->| ->]]%Hp [->|[->| ->]]%Hp; done.
Qed.

Lemma topology_refines_map_witness :
  status <$> spec_run sample_ops !! [Byte.x01] = Some Down /\
  @get_node entry_order [Byte.x01] (run sample_ops) = spec_run sample_ops !! [Byte.x01].
Proof.
  split; [by vm_compute|].
  apply (topology_refines_map sample_ops sample_settled entry_order [Byte.x01]).
Defined.

(** ** Distance *)
Inductive TopologyDistance :=
| SameHost | SameRack | SameDatacenter | SameZone | SameRegion | Remote | Unknown.

(** The discriminant, which orders distances. *)
Definition rank (d : TopologyDistance) : Z :=
  match d with
  | SameHost => 0 | SameRack => 1 | SameDatacenter => 2 | SameZone => 3
  | SameRegion => 4 | Remote => 5 | Unknown => 6
  end.

Definition as_str (d : TopologyDistance) : string :=
  match d with
  | SameHost => "same-host" | SameRack => "same-rack" | SameDatacenter => "same-datacenter"
  | SameZone => "same-zone" | SameRegion => "same-region" | Remote => "remote"
  | Unknown => "unknown"
  end.

Definition is_local (d : TopologyDistance) : bool :=
  match d with SameHost | SameRack | SameDatacenter => true | _ => false end.

Definition is_empty (s : string) : bool := String.eqb s "".

Definition field_match (a b : string) : bool :=
  (is_empty a && is_empty b) || String.eqb a b.

Definition distance (a b : FailureDomainInfo) : TopologyDistance :=
  if is_empty (region a) && is_empty (region b) then Unknown
  else if negb (String.eqb (region a) (region b)) then Remote
  else if negb (field_match (zone a) (zone b)) then SameRegion
  else if negb (field_match (datacenter a) (datacenter b)) then SameZone
  else if negb (field_match (rack a) (rack b)) then SameDatacenter
  else if negb (field_match (host a) (host b)) then SameRack
  else if is_empty (host a) && is_empty (host b) then SameRack
  else SameHost.

Lemma field_match_eqb a b : field_match a b = String.eqb a b.
Proof.
  unfold field_match, is_empty.
  destruct (String.eqb_spec a ""), (String.eqb_spec b ""), (String.eqb_spec a b); subst; done.
Qed.

Lemma distance_sym a b : distance a b = distance b a.
Proof.
  unfold distance. rewrite !field_match_eqb.
  rewrite (String.eqb_sym (region b)), (String.eqb_sym (zone b)), (String.eqb_sym (datacenter b)),
    (String.eqb_sym (rack b)), (String.eqb_sym (host b)).
  by rewrite (andb_comm (is_empty (region b))), (andb_comm (is_empty (host b))).
Qed.

(** What two domains share that are within a rank of each other. *)
Definition shares (n : Z) (a b : FailureDomainInfo) : Prop :=
  (n < 5 -> region a = region b) /\ (n < 4 -> zone a = zone b) /\
  (n < 3 -> datacenter a = datacenter b) /\ (n < 2 -> rack a = rack b) /\
  (n < 1 -> host a = host b /\ host a <> "").

Lemma shares_trans n a b c : shares n a b -> shares n b c -> shares n a c.
Proof.
  intros (A1 & A2 & A3 & A4 & A5) (B1 & B2 & B3 & B4 & B5).
  split_and!; intros Hn; [rewrite A1, B1|rewrite A2, B2|rewrite A3, B3|rewrite A4, B4|
    destruct (A5 Hn), (B5 Hn); split; congruence]; done.
Qed.

Ltac shares_at k n :=
  split; [intros; split_and!; intros; try lia; by auto|
    intros (Hr & Hz & Hd & Hk & Hh); destruct (Z.le_gt_cases k n); [done|exfalso];
    first [lia|naive_solver lia]].

Lemma distance_rank a b n : region a <> "" -> 0 <= n -> rank (distance a b) <= n <-> shares n a b.
Proof.
  intros Ha. unfold distance. rewrite !field_match_eqb. unfold is_empty.
  destruct (String.eqb_spec (region a) ""); [done|]. cbn [andb].
  intros Hn. unfold shares.
  destruct (String.eqb_spec (region a) (region b)) as [E1|E1]; cbn [negb rank]; [|shares_at 5 n].
  destruct (String.eqb_spec (zone a) (zone b)) as [E2|E2]; cbn [negb rank]; [|shares_at 4 n].
  destruct (String.eqb_spec (datacenter a) (datacenter b)) as [E3|E3]; cbn [negb rank]; [|shares_at 3 n].
  destruct (String.eqb_spec (rack a) (rack b)) as [E4|E4]; cbn [negb rank]; [|shares_at 2 n].
  destruct (String.eqb_spec (host a) (host b)) as [E5|E5]; cbn [negb rank]; [rewrite <- E5|shares_at 1 n].
  destruct (String.eqb_spec (host a) ""); cbn [andb rank]; [shares_at 1 n|shares_at 0 n].
Qed.

(** Distances order peers by what they share: symmetric, and no route is
    shorter than the farther of its halves, where the first region is
    named. *)
Theorem distance_ultrametric a b c : region a <> "" ->
  distance a b = distance b a /\
  rank (distance a c) <= Z.max (rank (distance a b)) (rank (distance b c)).
Proof.
  intros Ha. split; [apply distance_sym|].
  set (n := Z.max _ _). assert (Hn : forall x y, 0 <= rank (distance x y)) by (intros x y; by destruct (distance x y)).
  pose proof (Hn a b). destruct (decide (region a = region b)) as [Hr|Hr].
  - apply distance_rank; [done|lia|]. apply (shares_trans _ _ b); apply distance_rank; try lia; congruence.
  - apply distance_rank; [done|lia|]. assert (~ rank (distance a b) <= 4)
      by (rewrite distance_rank by lia || done; intros [H' _]; by apply Hr, H').
    unfold shares. split_and!; intros; lia.
Qed.

Lemma distance_ultrametric_witness :
  let a := new_full "us" "z1" "dc1" "r1" "h1" in
  let b := new_full "us" "z1" "dc1" "r2" "h2" in
  let c := new_full "us" "z1" "dc2" "r2" "h2" in
  (distance a b, distance b c, distance a c) = (SameDatacenter, SameZone, SameZone) /\
  rank (distance a c) <= Z.max (rank (distance a b)) (rank (distance b c)).
Proof. intros a b c. split; [by vm_compute|]. by apply (distance_ultrametric a b c). Defined.

End TopologySpec.
