(* ===== verification/Crush.v ===== *)
(** * CRUSH 2.0 placement

    crates/placement/src/crush2.rs: templates of erasure-coded stripes, the
    stripe groups of an engine, rendezvous hashing, and [select_placement],
    which gives every shard of a stripe an OSD of its own. The order in
    which a hash map is walked is the class [HashOrder], xxHash the class
    [Xxh64], the text of a UUID the class [UuidText]. *)
From stdpp Require Import pretty.
From S2P Require Import Prelude Bytes F64 JumpHash Topology.
Import F64(f64) JumpHash(Xxh64, xxh64) Topology.

Module Crush.

(** The text of an identifier: the [uuid] crate's [Display]. *)
Class UuidText := uuid_text : bytes -> string.

(** ** Templates *)
Inductive ShardRole := Data | LocalParity | GlobalParity.

Record TemplateShard := mkShard {
  position : Z;
  role : ShardRole;
  local_group : option Z;
  domain_slot : Z;
}.

Record PlacementTemplate := mkTemplate {
  template_name : string;
  data_shards : Z;
  local_parity : Z;
  global_parity : Z;
  shards : list TemplateShard;
  domain_slots : Z;
  shards_per_slot : Z;
}.

(** [u8] arithmetic. *)
Definition wrap8 (z : Z) : Z := z mod 256.

Definition mds (k m : Z) : PlacementTemplate :=
  let total := wrap8 (k + m) in
  let shards := (fun i => mkShard i (if i <? k then Data else GlobalParity) None i) <$> seqZ 0 total in
  mkTemplate ("mds_" +:+ pretty k +:+ "_" +:+ pretty m) k 0 m shards total 1.

(** One local group: its data shards, then its parity, from [position]. *)
Definition lrc_group (group_size group_idx position : Z) : list TemplateShard :=
  ((fun i => mkShard (wrap8 (position + i)) Data (Some group_idx) group_idx) <$> seqZ 0 group_size) ++
  [mkShard (wrap8 (position + group_size)) LocalParity (Some group_idx) group_idx].

Definition lrc (k l g : Z) : outcome string PlacementTemplate :=
  if l =? 0 then Panic
  else
    let group_size := k / l in
    let groups := (fun group_idx => lrc_group group_size group_idx (group_idx * (group_size + 1))) in
    let global_domain_start := l in
    let position := l * (group_size + 1) in
    let globals := (fun gp_idx => mkShard (wrap8 (position + gp_idx)) GlobalParity None
      (wrap8 (global_domain_start + gp_idx / 2))) <$> seqZ 0 g in
    let domain_slots := wrap8 (l + div_ceil (wrap8 (g + 1)) 2) in
    Ok (mkTemplate ("lrc_" +:+ pretty k +:+ "_" +:+ pretty l +:+ "_" +:+ pretty g) k l g
      ((seqZ 0 l ≫= groups) ++ globals) domain_slots (wrap8 (group_size + 1))).

Definition total_shards (t : PlacementTemplate) : Z :=
  wrap8 (wrap8 (data_shards t + local_parity t) + global_parity t).

Definition mds_4_2 := mds 4 2.
Definition mds_8_4 := mds 8 4.
Definition lrc_6_2_2 := lrc 6 2 2.
Definition lrc_12_2_2 := lrc 12 2 2.
Definition lrc_8_2_2 := lrc 8 2 2.

(** ** The engine *)
Record StripeGroup := mkGroup { group_id : Z; domains : list string }.

Record TooFewOsds := mkTooFew { needed : Z; usable : Z }.

Record HrwPlacement := mkPlacement {
  p_position : Z;
  p_node_id : NodeId;
  p_role : ShardRole;
  p_local_group : option Z;
  p_score : Z;
}.

Record Crush2 := mkCrush {
  topology : ClusterTopology;
  stripe_groups : list StripeGroup;
  num_groups : Z;
}.

Section engine.
Context `{HashOrder} `{Xxh64} `{UuidText}.

Definition get_domain_key (node : NodeInfo) (level : FailureDomain) : string :=
  let fd := failure_domain node in
  match level with
  | Disk => uuid_text (id node) +:+ ":disk"
  | Node => uuid_text (id node)
  | Host => region fd +:+ ":" +:+ zone fd +:+ ":" +:+ datacenter fd +:+ ":" +:+ rack fd +:+ ":" +:+ host fd
  | Rack => region fd +:+ ":" +:+ zone fd +:+ ":" +:+ datacenter fd +:+ ":" +:+ rack fd
  | Datacenter => region fd +:+ ":" +:+ zone fd +:+ ":" +:+ datacenter fd
  | Zone => region fd +:+ ":" +:+ zone fd
  | Region => region fd
  end.

(** [groups.entry(key).or_default().push(node)] for each node. *)
Definition group_nodes (level : FailureDomain) (ns : list NodeInfo) : gmap string (list NodeInfo) :=
  foldl (fun groups node =>
    let key := get_domain_key node level in
    <[key := default [] (groups !! key) ++ [node]]> groups) ∅ ns.

Definition group_nodes_by_domain (t : ClusterTopology) (level : FailureDomain) :
    gmap string (list NodeInfo) := group_nodes level (active_nodes t).

Definition rotate_left {A} (n : nat) (l : list A) : list A := drop n l ++ take n l.

Definition rebuild_stripe_groups (t : ClusterTopology) (num_groups : Z) : list StripeGroup :=
  let domain_keys := (iter (group_nodes_by_domain t Rack)).*1 in
  if decide (domain_keys = []) then []
  else (fun group_id =>
    mkGroup group_id (rotate_left (Z.to_nat (group_id mod lenZ domain_keys)) domain_keys))
    <$> seqZ 0 num_groups.

Definition new_crush (t : ClusterTopology) (num_groups : Z) : Crush2 :=
  mkCrush t (rebuild_stripe_groups t num_groups) num_groups.

Definition update_topology (t : ClusterTopology) (c : Crush2) : Crush2 :=
  mkCrush t (rebuild_stripe_groups t (num_groups c)) (num_groups c).

Definition hash_object (object_id : bytes) : Z := xxh64 object_id 0.

Definition hrw_score (object_id : bytes) (node : NodeInfo) : Z :=
  let node_hash := xxh64 (id node) (hash_object object_id) in
  let weight_factor := F64.as_u64 (F64.mul (weight node) (F64.of_Z 1000)) in
  wmul64 node_hash weight_factor.

(** [Iterator::max_by_key]: the last of the largest. *)
Definition max_by_key {A} (key : A -> Z) (l : list A) : option A :=
  foldl (fun best x =>
    match best with
    | Some b => if key x <? key b then Some b else Some x
    | None => Some x
    end) None l.

Definition hrw_pick (object_id : bytes) (ns : list NodeInfo) (exclude : list NodeId) :
    option (NodeId * Z) :=
  max_by_key snd
    ((fun n => (id n, hrw_score object_id n)) <$> filter (fun n => id n ∉ exclude) ns).

(** How many positions may go to OSDs that are down. *)
Definition down_allowed (t : PlacementTemplate) : Z :=
  if local_parity t =? 0 then saturating_sub (global_parity t) 1 else 0.

Definition down_nodes (t : ClusterTopology) : list NodeInfo :=
  filter (fun n => status n = Down) (all_nodes t).

(** The domain a shard's slot maps to. *)
Definition shard_domain (sg : list string) (shard : TemplateShard) : string :=
  let domain_idx := domain_slot shard mod Z.max 1 (lenZ sg) in
  default "" (sg !! Z.to_nat domain_idx).

(** An OSD of the domain, of anywhere, or one that is down; with how many
    down ones may still be used. *)
Definition pick (object_id : bytes) (own all down : list NodeInfo) (used : list NodeId)
    (allowed : Z) : option (NodeId * Z * Z) :=
  match hrw_pick object_id own used with
  | Some (i, s) => Some (i, s, allowed)
  | None =>
      match hrw_pick object_id all used with
      | Some (i, s) => Some (i, s, allowed)
      | None =>
          if 0 <? allowed then
            '(i, s) ← hrw_pick object_id down used; Some (i, s, allowed - 1)
          else None
      end
  end.

Fixpoint place_shards (object_id : bytes) (own : TemplateShard -> list NodeInfo)
    (all down : list NodeInfo) (too_few : TooFewOsds) (shards : list TemplateShard)
    (used : list NodeId) (allowed : Z) : outcome TooFewOsds (list HrwPlacement) :=
  match shards with
  | [] => Ok []
  | shard :: shards =>
      '(node_id, score, allowed) ← ok_or (pick object_id (own shard) all down used allowed) too_few;
      placements ← place_shards object_id own all down too_few shards (used ++ [node_id]) allowed;
      Ok (mkPlacement (position shard) node_id (role shard) (local_group shard) score :: placements)
  end.

Definition stripe_group_of (c : Crush2) (object_id : bytes) : option (Z * option StripeGroup) :=
  if num_groups c =? 0 then None
  else
    let group_idx := (hash_object object_id mod 2 ^ 32) mod num_groups c in
    Some (group_idx, stripe_groups c !! Z.to_nat group_idx).

Definition select_placement (c : Crush2) (object_id : bytes) (t : PlacementTemplate) :
    outcome TooFewOsds (list HrwPlacement) :=
  '(group_idx, found) ← or_panic (stripe_group_of c object_id);
  let stripe_group := default (mkGroup group_idx []) found in
  let domain_nodes := group_nodes_by_domain (topology c) Rack in
  let all := active_nodes (topology c) in
  let down := down_nodes (topology c) in
  let too_few := mkTooFew (lenZ (shards t)) (lenZ all + Z.min (lenZ down) (down_allowed t)) in
  if usable too_few <? needed too_few then Err too_few
  else
    place_shards object_id
      (fun shard => default [] (domain_nodes !! shard_domain (domains stripe_group) shard))
      all down too_few (shards t) [] (down_allowed t).

Definition get_stripe_group (c : Crush2) (object_id : bytes) : outcome TooFewOsds (option StripeGroup) :=
  '(_, g) ← or_panic (stripe_group_of c object_id); Ok g.

(** A stable sort, highest score first. *)
Fixpoint insert_desc (x : NodeId * Z) (l : list (NodeId * Z)) : list (NodeId * Z) :=
  match l with
  | [] => [x]
  | y :: l' => if x.2 <? y.2 then y :: insert_desc x l' else x :: l
  end.

Definition sort_desc (l : list (NodeId * Z)) : list (NodeId * Z) := foldr insert_desc [] l.

Definition hrw_select_n (object_id : bytes) (ns : list NodeInfo) (count : nat) : list (NodeId * Z) :=
  take count (sort_desc ((fun n => (id n, hrw_score object_id n)) <$> ns)).

Record PlacementFeasibilityReport := mkReport {
  r_level : FailureDomain;
  available_domains : list string;
}.

Record PlacementFeasibility := InsufficientDomainSpread {
  required_level : FailureDomain;
  required_count : Z;
  available_count : Z;
}.

Definition validate_placement_feasibility (c : Crush2) (level : FailureDomain) (required_count : Z) :
    outcome PlacementFeasibility PlacementFeasibilityReport :=
  let domains := group_nodes_by_domain (topology c) level in
  let available_count := lenZ (iter domains) in
  if available_count <? required_count
  then Err (InsufficientDomainSpread level required_count available_count)
  else Ok (mkReport level (iter domains).*1).

End engine.

End Crush.
