(* ===== verification/CrushSpec.v ===== *)
(** * What CRUSH placement promises

    Theorems on [Crush]: a stripe is placed exactly when there are OSDs
    enough, each shard on an OSD of its own ([select_placement_exact]);
    templates number their shards from 0 without gaps ([lrc_layout]); and
    examples of what depends on a hash map's order and of a template's
    count of slots. *)
From S2P Require Import Prelude Bytes F64 JumpHash Topology TopologySpec Crush.
Import F64(f64) JumpHash(Xxh64, xxh64) Topology Crush.

Module CrushSpec.

Section placement.
Context {Ord : HashOrder} {Xx : Xxh64} {Ut : UuidText}.

(** ** Picking *)
Lemma max_by_key_spec {A} (key : A -> Z) l :
  match max_by_key key l with
  | Some x => x ∈ l /\ forall y, y ∈ l -> key y <= key x
  | None => l = []
  end.
Proof.
  unfold max_by_key. induction l as [|z l IH] using rev_ind; [done|].
  rewrite foldl_app. cbn [foldl]. destruct (foldl _ None l) as [b|].
  - destruct IH as [Hb Hm]. destruct (Z.ltb_spec (key z) (key b)) as [Hz|Hz];
      (split; [set_solver|intros y [Hy|Hy]%elem_of_app;
        [specialize (Hm y Hy)|apply list_elem_of_singleton in Hy as ->]; lia]).
  - subst l. split; [set_solver|]. intros y Hy. apply list_elem_of_singleton in Hy as ->. lia.
Qed.

(** The highest score among the nodes not excluded, if there is one. *)
Lemma hrw_pick_spec o ns ex :
  match hrw_pick o ns ex with
  | Some (i, s) => (i ∉ ex) /\ (exists n, n ∈ ns /\ id n = i /\ hrw_score o n = s) /\
      forall n, n ∈ ns -> id n ∉ ex -> hrw_score o n <= s
  | None => forall n, n ∈ ns -> id n ∈ ex
  end.
Proof.
  unfold hrw_pick. pose proof (max_by_key_spec snd ((fun n => (id n, hrw_score o n)) <$>
    filter (fun n => id n ∉ ex) ns)) as Hm.
  destruct (max_by_key _ _) as [[i s]|].
  - destruct Hm as [(n & [= -> ->] & [Hex Hn]%list_elem_of_filter)%list_elem_of_fmap Hmax].
    split_and!; [done|eauto|]. intros n' Hn' Hex'.
    apply (Hmax (id n', hrw_score o n')). apply list_elem_of_fmap. exists n'.
    by rewrite list_elem_of_filter.
  - intros n Hn. destruct (decide (id n ∈ ex)) as [|Hex]; [done|]. exfalso.
    assert (n ∈ filter (fun n => id n ∉ ex) ns) by (by apply list_elem_of_filter).
    apply fmap_nil_inv in Hm. rewrite Hm in *. by eapply not_elem_of_nil.
Qed.

(** A pick is an unused node of the domain; or the domain has none and it is
    an unused active node; or there is none of those and it is a down one. *)
Lemma pick_spec o own all down used allowed :
  match pick o own all down used allowed with
  | Some (i, s, allowed') => (i ∉ used) /\
      ((exists n, n ∈ own /\ id n = i) /\ allowed' = allowed \/
       (forall n, n ∈ own -> id n ∈ used) /\ (exists n, n ∈ all /\ id n = i) /\ allowed' = allowed \/
       (forall n, n ∈ own -> id n ∈ used) /\ (forall n, n ∈ all -> id n ∈ used) /\
       (exists n, n ∈ down /\ id n = i) /\ 0 < allowed /\ allowed' = allowed - 1)
  | None => (forall n, n ∈ own -> id n ∈ used) /\ (forall n, n ∈ all -> id n ∈ used) /\
      (0 < allowed -> forall n, n ∈ down -> id n ∈ used)
  end.
Proof.
  unfold pick. pose proof (hrw_pick_spec o own used) as H1.
  destruct (hrw_pick o own used) as [[i s]|]; [destruct H1 as (? & (n & ? & ? & _) & _); split; eauto 6|].
  pose proof (hrw_pick_spec o all used) as H2.
  destruct (hrw_pick o all used) as [[i s]|]; [destruct H2 as (? & (n & ? & ? & _) & _); split; eauto 8|].
  destruct (Z.ltb_spec 0 allowed); [|split_and!; [done|done|lia]].
  pose proof (hrw_pick_spec o down used) as H3.
  destruct (hrw_pick o down used) as [[i s]|]; cbn; [|done].
  destruct H3 as (? & (n & ? & ? & _) & _). split; [done|]. right; right. eauto 8.
Qed.

Lemma group_nodes_spec level ns k :
  default [] (group_nodes level ns !! k) = filter (fun n => get_domain_key n level = k) ns.
Proof.
  unfold group_nodes. induction ns as [|n ns IH] using rev_ind; [done|].
  rewrite foldl_app, filter_app. cbn [foldl]. rewrite filter_cons, filter_nil.
  destruct (decide (get_domain_key n level = k)) as [<-|Hk].
  - rewrite lookup_insert_eq. cbn. by rewrite IH.
  - rewrite lookup_insert_ne by done. by rewrite IH, app_nil_r.
Qed.

(** ** The loop over a template's shards *)
Section loop.
Context (o : bytes) (own : TemplateShard -> list NodeInfo) (all down : list NodeInfo) (tf : TooFewOsds).
Hypothesis own_all : forall s n, n ∈ own s -> n ∈ all.

Definition in_all (i : NodeId) : Prop := i ∈ id <$> all.

#[local] Instance in_all_dec i : Decision (in_all i).
Proof. unfold in_all. apply _. Defined.

(** What is known of the placements [ps] of [ss] after [used]. *)
Record placed (ss : list TemplateShard) (used : list NodeId) (allowed : Z) (ps : list HrwPlacement) : Prop := {
  placed_positions : p_position <$> ps = position <$> ss;
  placed_roles : p_role <$> ps = role <$> ss;
  placed_groups : p_local_group <$> ps = local_group <$> ss;
  placed_distinct : NoDup (used ++ (p_node_id <$> ps));
  placed_known : Forall (fun p => exists n, (n ∈ all \/ n ∈ down) /\ id n = p_node_id p) ps;
  placed_down : lenZ (filter (fun p => ~ in_all (p_node_id p)) ps) <= allowed;
  placed_own : forall j s p, ss !! j = Some s -> ps !! j = Some p ->
    (exists n, n ∈ own s /\ id n = p_node_id p) \/
    (forall n, n ∈ own s -> id n ∈ used ++ take j (p_node_id <$> ps));
}.

Lemma place_shards_placed ss : forall used allowed ps, NoDup used -> 0 <= allowed ->
  place_shards o own all down tf ss used allowed = Ok ps -> placed ss used allowed ps.
Proof.
  induction ss as [|s ss IH]; intros used allowed ps Hnd Ha; cbn [place_shards].
  { intros [= <-]. split; try done; rewrite ?app_nil_r; done. }
  pose proof (pick_spec o (own s) all down used allowed) as Hp.
  destruct (pick _ _ _ _ _ _) as [[[i sc] allowed']|]; cbn [ok_or mbind outcome_bind]; [|done].
  destruct Hp as [Hi Hp]. destruct (place_shards _ _ _ _ _ _ _ _) as [ps'| |] eqn:E; try done.
  cbn. intros [= <-]. assert (NoDup (used ++ [i])) as Hnd'.
  { apply NoDup_app. split_and!; [done|set_solver|apply NoDup_singleton]. }
  assert (0 <= allowed') as Ha' by (destruct Hp as [?|[?|?]]; lia).
  destruct (IH _ _ _ Hnd' Ha' E) as [H1 H2 H3 H4 H5 H6 H7]. split; csimpl.
  - by rewrite H1.
  - by rewrite H2.
  - by rewrite H3.
  - by rewrite <- app_assoc in H4.
  - constructor; [|done]. cbn. destruct Hp as [[(n & ? & ?) _]|[(_ & (n & ? & ?) & _)|(_ & _ & (n & ? & ?) & _)]]; eauto.
  - rewrite filter_cons. case_decide as Hin; cbn [p_node_id] in Hin; [|destruct Hp as [?|[?|?]]; lia].
    rewrite lenZ_cons. destruct Hp as [[(n & Hn & <-) _]|[(_ & (n & Hn & <-) & _)|(_ & _ & _ & _ & ->)]]; [| |lia];
      exfalso; apply Hin, list_elem_of_fmap; eauto.
  - intros [|j] s' p Hs Hp'; cbn in Hs, Hp'; simplify_eq; cbn [take].
    + cbn. rewrite app_nil_r. destruct Hp as [[? _]|[[? _]|[? _]]]; auto.
    + destruct (H7 j s' p Hs Hp') as [|Hall]; [by left|right]. intros n Hn.
      specialize (Hall n Hn). by rewrite <- app_assoc in Hall.
Qed.

(** With the nodes' ids distinct, the loop places every shard there is an
    OSD for. *)
Hypothesis all_ids : NoDup (id <$> all).
Hypothesis down_ids : NoDup (id <$> down).
Hypothesis down_not_all : forall n, n ∈ down -> ~ in_all (id n).

Definition on_down (used : list NodeId) : Z := lenZ (filter (fun i => ~ in_all i) used).

Lemma used_all_split used : NoDup used -> (forall n, n ∈ all -> id n ∈ used) ->
  lenZ used = lenZ all + on_down used.
Proof.
  intros Hnd Hall. unfold on_down, lenZ.
  rewrite <- (length_fmap id all), <- Nat2Z.inj_add, <- length_app. f_equal. apply Permutation_length.
  rewrite <- (filter_app_complement in_all used) at 1. apply Permutation_app; [|done].
  apply NoDup_Permutation; [by apply NoDup_filter|done|]. intros i. rewrite list_elem_of_filter.
  unfold in_all. split; [naive_solver|]. intros Hi. split; [done|].
  apply list_elem_of_fmap in Hi as (n & -> & Hn). by apply Hall.
Qed.

Lemma used_down_all used : (forall n, n ∈ down -> id n ∈ used) -> lenZ down <= on_down used.
Proof.
  intros Hd. unfold on_down, lenZ. rewrite <- (length_fmap id down). apply inj_le.
  apply submseteq_length, NoDup_submseteq; [done|]. intros i (n & -> & Hn)%list_elem_of_fmap.
  apply list_elem_of_filter. auto.
Qed.

Lemma place_shards_total allowed0 ss : forall used allowed, NoDup used ->
  on_down used + allowed = allowed0 ->
  lenZ used + lenZ ss <= lenZ all + Z.min (lenZ down) allowed0 ->
  exists ps, place_shards o own all down tf ss used allowed = Ok ps.
Proof.
  induction ss as [|s ss IH]; intros used allowed Hnd Ha Hlen; cbn [place_shards]; [by eexists|].
  rewrite lenZ_cons in Hlen. pose proof (lenZ_nonneg ss). pose proof (pick_spec o (own s) all down used allowed) as Hp.
  destruct (pick _ _ _ _ _ _) as [[[i sc] allowed']|]; cbn [ok_or mbind outcome_bind].
  - destruct Hp as [Hi Hp]. edestruct (IH (used ++ [i]) allowed') as [ps ->]; [| | |by eexists].
    + apply NoDup_app. split_and!; [done|set_solver|apply NoDup_singleton].
    + unfold on_down in *. rewrite filter_app, lenZ_app, filter_cons, filter_nil.
      destruct Hp as [[(n & Hn & <-) ->]|[(_ & (n & Hn & <-) & ->)|(_ & _ & (n & Hn & <-) & _ & ->)]].
      * rewrite decide_False; [change (lenZ (A:=NodeId) []) with 0; lia|]. intros Hx. apply Hx, list_elem_of_fmap. eauto.
      * rewrite decide_False; [change (lenZ (A:=NodeId) []) with 0; lia|]. intros Hx. apply Hx, list_elem_of_fmap. eauto.
      * rewrite decide_True, lenZ_cons by auto. change (lenZ (A:=NodeId) []) with 0. lia.
    + rewrite lenZ_app, lenZ_cons. change (lenZ (A:=NodeId) []) with 0. lia.
  - exfalso. destruct Hp as (_ & Hall & Hdown). pose proof (used_all_split used Hnd Hall).
    destruct (Z.lt_ge_cases 0 allowed) as [Hpos|Hpos]; [|lia].
    pose proof (used_down_all used (Hdown Hpos)). lia.
Qed.

End loop.

(** The racks of an object's stripe group, and the active OSDs of the one a
    shard's slot maps to. *)
Definition stripe_domains (c : Crush2) (o : bytes) : list string :=
  match stripe_group_of c o with Some (_, Some g) => domains g | _ => [] end.

Definition rack_of (c : Crush2) (o : bytes) (s : TemplateShard) : list NodeInfo :=
  filter (fun n => get_domain_key n Rack = shard_domain (stripe_domains c o) s) (active_nodes (topology c)).

Lemma select_placement_unfold c o t : num_groups c <> 0 ->
  select_placement c o t =
  let all := active_nodes (topology c) in
  let down := down_nodes (topology c) in
  let too_few := mkTooFew (lenZ (shards t)) (lenZ all + Z.min (lenZ down) (down_allowed t)) in
  if usable too_few <? needed too_few then Err too_few
  else place_shards o (rack_of c o) all down too_few (shards t) [] (down_allowed t).
Proof.
  intros Hn. unfold select_placement. unfold rack_of, stripe_domains, stripe_group_of.
  destruct (Z.eqb_spec (num_groups c) 0); [done|]. cbn [or_panic mbind outcome_bind].
  set (found := stripe_groups c !! _). set (down := down_nodes _). set (all := active_nodes _).
  case_match; [done|]. assert (forall f g ss used allowed, (forall s, f s = g s) ->
    place_shards o f all down (mkTooFew (lenZ (shards t)) (lenZ all + Z.min (lenZ down) (down_allowed t))) ss used allowed =
    place_shards o g all down (mkTooFew (lenZ (shards t)) (lenZ all + Z.min (lenZ down) (down_allowed t))) ss used allowed) as Hext.
  { clear. intros f g ss used allowed Hfg. revert used allowed.
    induction ss as [|s ss IH]; intros used allowed; [done|]. cbn [place_shards]. rewrite Hfg.
    destruct (pick _ _ _ _ _ _) as [[[i sc] al]|]; cbn; [|done]. by rewrite IH. }
  apply Hext. intros s. unfold group_nodes_by_domain. rewrite group_nodes_spec. by destruct found.
Qed.

(** C19. In a topology that has each OSD once, with a stripe group at least, a
    stripe is placed exactly when there are OSDs enough: the active ones,
    and of those that are down as many as a write may do without. Placed, it
    has every position of the template in order, each on an OSD of its own
    that is active or down, no more of them down than a write may do
    without; and a shard is outside its slot's rack only when every active
    OSD of that rack holds a shard already. Otherwise it is refused, with
    the count of OSDs that can take a shard. *)
Theorem select_placement_exact c o t :
  num_groups c <> 0 -> NoDup (id <$> all_nodes (topology c)) ->
  let all := active_nodes (topology c) in
  let down := down_nodes (topology c) in
  let usable := lenZ all + Z.min (lenZ down) (down_allowed t) in
  if lenZ (shards t) <=? usable
  then exists ps, select_placement c o t = Ok ps /\
    placed (rack_of c o) all down (shards t) [] (down_allowed t) ps
  else select_placement c o t = Err (mkTooFew (lenZ (shards t)) usable).
Proof.
  intros Hn Hnd all down us. rewrite (select_placement_unfold c o t Hn). cbn zeta.
  fold all down us. cbn [Crush.usable Crush.needed].
  destruct (Z.leb_spec (lenZ (shards t)) us), (Z.ltb_spec us (lenZ (shards t))); try lia; [|done].
  assert (Hown : forall s n, n ∈ rack_of c o s -> n ∈ all) by (intros s n [_ Hin]%list_elem_of_filter; done).
  assert (Hda : 0 <= down_allowed t) by (unfold down_allowed, saturating_sub; case_match; lia).
  destruct (place_shards_total o (rack_of c o) all down
    (mkTooFew (lenZ (shards t)) us) Hown) with (allowed0 := down_allowed t) (ss := shards t)
    (used := @nil NodeId) (allowed := down_allowed t) as [ps Hps].
  - by apply NoDup_fmap_filter.
  - by apply NoDup_fmap_filter.
  - intros n [Hd Hn1]%list_elem_of_filter (n' & Hid & [Ha Hn2]%list_elem_of_filter)%list_elem_of_fmap.
    rewrite (NoDup_fmap_elem id _ _ _ Hnd Hn1 Hn2 Hid) in Hd. congruence.
  - apply NoDup_nil_2.
  - done.
  - done.
  - exists ps. split; [done|]. eapply place_shards_placed; eauto. apply NoDup_nil_2.
Qed.

End placement.
(** ** An example: six OSDs in one rack, one of them down *)
Definition plain_text : UuidText := of_bytes.

Definition osd (i : byte) (rack : string) (s : NodeStatus) : NodeInfo := TopologySpec.node_in i rack "" s.

Definition six_osds : ClusterTopology := foldr upsert_node new
  [osd Byte.x01 "r1" Active; osd Byte.x02 "r1" Active; osd Byte.x03 "r1" Down;
   osd Byte.x04 "r1" Active; osd Byte.x05 "r1" Active; osd Byte.x06 "r1" Active].

Definition six_crush : Crush2 := @new_crush entry_order plain_text six_osds 16.

Lemma select_placement_exact_witness :
  exists ps, @select_placement entry_order JumpHash.sum_hash plain_text six_crush [Byte.x2a] mds_4_2 = Ok ps /\
    p_position <$> ps = [0; 1; 2; 3; 4; 5] /\ NoDup (p_node_id <$> ps).
Proof.
  pose proof (@select_placement_exact entry_order JumpHash.sum_hash plain_text six_crush [Byte.x2a] mds_4_2) as H.
  destruct H as (ps & Hps & Hpl); [done|by apply (bool_decide_unpack _); vm_compute|].
  exists ps. split; [exact Hps|]. split; [by rewrite (placed_positions _ _ _ _ _ _ _ Hpl); vm_compute|].
  exact (placed_distinct _ _ _ _ _ _ _ Hpl).
Defined.

(** ** Templates *)
Lemma seqZ_shift pos n : seqZ pos n = Z.add pos <$> seqZ 0 n.
Proof. rewrite fmap_add_seqZ. f_equal. lia. Qed.

Lemma lrc_group_positions q i pos : 0 <= q -> 0 <= pos -> pos + q < 256 ->
  position <$> lrc_group q i pos = seqZ pos (q + 1).
Proof.
  intros Hq Hp Hlt. unfold lrc_group. rewrite fmap_app, <- list_fmap_compose.
  rewrite (seqZ_app pos q 1), fmap_cons by lia. f_equal.
  - rewrite (seqZ_shift pos q). apply list_fmap_ext.
    intros j z Hz%lookup_seqZ. cbn. unfold wrap8. rewrite Z.mod_small by lia. lia.
  - cbn. unfold wrap8. by rewrite Z.mod_small by lia.
Qed.

Lemma lrc_groups_positions q n : 0 <= q -> Z.of_nat n * (q + 1) < 256 ->
  position <$> (seqZ 0 (Z.of_nat n) ≫= fun i => lrc_group q i (i * (q + 1))) = seqZ 0 (Z.of_nat n * (q + 1)).
Proof.
  intros Hq. induction n as [|n IH]; intros Hlt; [done|].
  rewrite Nat2Z.inj_succ in *. unfold Z.succ in *.
  rewrite (seqZ_app 0 (Z.of_nat n) 1), bind_app, fmap_app, IH by lia.
  change (seqZ (0 + Z.of_nat n) 1) with [0 + Z.of_nat n]. cbn [mbind list_bind]. rewrite app_nil_r.
  rewrite lrc_group_positions by nia. rewrite Z.add_0_l.
  replace ((Z.of_nat n + 1) * (q + 1)) with (Z.of_nat n * (q + 1) + (q + 1)) by lia.
  rewrite (seqZ_app 0) by nia. by rewrite Z.add_0_l.
Qed.

(** A template for groups of one size numbers its shards from 0 without
    gaps, as many as it says, and a local group has a slot to itself. *)
Theorem lrc_layout k l g : 0 < l -> 0 <= g -> 0 <= k -> k mod l = 0 -> k + l + g < 256 ->
  exists t, lrc k l g = Ok t /\
    position <$> shards t = seqZ 0 (k + l + g) /\ lenZ (shards t) = total_shards t /\
    Forall (fun s => local_group s = if domain_slot s <? l then Some (domain_slot s) else None) (shards t).
Proof.
  intros Hl Hg Hk Hm Hlt. unfold lrc. destruct (Z.eqb_spec l 0); [lia|]. eexists. split; [done|].
  assert (Hkl : l * (k / l + 1) = k + l) by (pose proof (Z.div_mod k l); lia).
  assert (Hq : 0 <= k / l) by (apply Z.div_pos; lia). cbn [shards].
  assert (position <$> (seqZ 0 l ≫= (fun group_idx => lrc_group (k / l) group_idx (group_idx * (k / l + 1)))) ++
    ((fun gp_idx => mkShard (wrap8 (l * (k / l + 1) + gp_idx)) GlobalParity None (wrap8 (l + gp_idx / 2))) <$> seqZ 0 g)
    = seqZ 0 (k + l + g)) as Hpos.
  { rewrite fmap_app, <- list_fmap_compose. rewrite (seqZ_app 0 (k + l) g) by lia. f_equal.
    - rewrite <- Hkl. rewrite <- (Z2Nat.id l) by lia. rewrite lrc_groups_positions; rewrite ?Z2Nat.id; lia || done.
    - rewrite (seqZ_shift (0 + (k + l)) g). apply list_fmap_ext.
      intros j z Hz%lookup_seqZ. cbn. unfold wrap8. rewrite Hkl, Z.mod_small by lia. lia. }
  split; [done|]. split.
  - unfold lenZ. rewrite <- (length_fmap position), Hpos, length_seqZ. unfold total_shards, wrap8.
    cbn [data_shards local_parity global_parity]. rewrite !Z.mod_small by (rewrite ?Z.mod_small; lia). lia.
  - apply Forall_app. split.
    + apply Forall_bind, Forall_forall. intros i Hi%elem_of_seqZ. unfold lrc_group. apply Forall_app.
      assert ((i <? l) = true) as Hil by lia. split.
      * apply Forall_fmap, Forall_forall. intros j _. cbn. by rewrite Hil.
      * apply Forall_singleton. cbn. by rewrite Hil.
    + apply Forall_fmap, Forall_forall. intros j Hj%elem_of_seqZ. cbn. unfold wrap8.
      assert (0 <= j / 2 <= j) by (split; [apply Z.div_pos; lia|apply Z.div_le_upper_bound; lia]).
      rewrite Z.mod_small by lia. destruct (Z.ltb_spec (l + j / 2) l); [lia|done].
Qed.

Lemma lrc_layout_witness : exists t, lrc 6 2 2 = Ok t /\ position <$> shards t = seqZ 0 10.
Proof.
  destruct (lrc_layout 6 2 2) as (t & Ht & Hp & _); [lia|lia|lia|done|lia|]. by exists t.
Defined.

(** ** Slots, orders and weights *)

(** The template of LRC 6+2+2 uses slots 0, 1 and 2 and says it needs 4. *)
Lemma lrc_slots_overcounted : exists t, lrc_6_2_2 = Ok t /\
  domain_slots t = 4 /\ Forall (fun s => domain_slot s < 3) (shards t).
Proof.
  eexists. split; [by vm_compute|]. split; [done|].
  apply (bool_decide_unpack _). by vm_compute.
Qed.

(** Two engines on one topology place an object's shards differently, when
    the hash maps they grouped its racks in are walked differently. *)
Definition two_racks : ClusterTopology :=
  foldr upsert_node new [osd Byte.x01 "r1" Active; osd Byte.x02 "r2" Active].

Definition placed_by (order : HashOrder) : outcome TooFewOsds (list NodeId) :=
  fmap (M := outcome TooFewOsds) (fmap (M := list) p_node_id)
    (@select_placement entry_order JumpHash.sum_hash plain_text
      (@new_crush order plain_text two_racks 16) [Byte.x2a] (mds 1 1)).

Lemma placement_depends_on_order :
  placed_by entry_order = Ok [[Byte.x01]; [Byte.x02]] /\
  placed_by reverse_order = Ok [[Byte.x02]; [Byte.x01]].
Proof. by vm_compute. Qed.

(** An odd weight factor permutes the scores: a node of any such weight
    outscores a bar with as many hashes as another. *)
Lemma odd_weight_injective w a b : Z.odd w = true -> is_u64 a -> is_u64 b ->
  wmul64 a w = wmul64 b w -> a = b.
Proof.
  unfold wmul64, wrap64, is_u64. intros Hw Ha Hb E.
  assert (H : (two64 | (a - b) * w)).
  { rewrite Z.mul_sub_distr_r. apply Z.mod_divide; [done|]. by rewrite Zminus_mod, E, Z.sub_diag. }
  rewrite Z.mul_comm in H. apply Z.gauss in H as [c Hc].
  - assert (c = 0) as ->; [|lia]. unfold two64 in *. nia.
  - apply Z.coprime_pow_l; [lia|]. apply Z.bezout_1_gcd. exists (- (w / 2)), 1.
    pose proof (Z.div_mod w 2). rewrite Zmod_odd, Hw in *. lia.
Qed.

(** The same hash gives a node of weight 2 less than one of weight 1. *)
Definition high_hash : Xxh64 := fun _ _ => 2 ^ 54.

Lemma heavier_scores_lower :
  let light := osd Byte.x01 "r1" Active in
  let heavy := mkNode [Byte.x01] "osd" "10.0.0.1:9200" (failure_domain light) Active [] (F64.of_Z 2) 0 in
  @hrw_score high_hash [] heavy < @hrw_score high_hash [] light.
Proof. by vm_compute. Qed.

End CrushSpec.
