(* ===== verification/Copyset.v ===== *)
(** * Placement rules and copysets

    crates/placement/src/copyset.rs: the rule a pool's copies are spread by
    ([PlacementRule]), its slots, its checks, the shuffle within it and the
    test of a stand-in ([admits]); the pool of copysets built from a
    topology ([build_with_rule]). A [usize] that counts or numbers positions
    is a [nat]. The [rand] crate is the class [Rng]: a generator is passed
    along, [shuffle] permutes, [choose_multiple] picks as many as there are. *)
From S2P Require Import Prelude Bytes F64 Topology Crush.
Import F64(f64) Topology Crush(UuidText, uuid_text).

Module Copyset.

(** ** Rules *)
Record PlacementRule := mkRule {
  level : FailureDomain;
  copy_count : nat;
  rule_domains : nat;
  per_domain : nat;
  together : list (list nat);
}.

(** What [InvalidRule]'s message says. *)
Inductive RuleFault :=
| NoCopiesPerDomain
| OsdIsItsDomain
| AnEmptyGroup
| BadGroupPosition (p : nat)
| GroupTooLarge (len per : nat)
| FewerDomainsThanGroups (domains groups : nat)
| DomainsWithNothing (free : nat)
| NoDomainLeft (singles : nat)
| DomainsForCopies (domains copies : nat)
| TooManyInOne (singles free each per : nat).

Inductive CopysetError :=
| ZeroCopyCount
| InsufficientGroups (have need : nat)
| EmptyTopology
| InvalidRule (why : RuleFault)
| Infeasible (need have : list nat).

Definition spread (level : FailureDomain) (copy_count : nat) : PlacementRule :=
  mkRule level copy_count copy_count 1 [].

Definition hosts_distinct (r : PlacementRule) : bool :=
  match level r with Rack | Datacenter | Zone | Region => true | _ => false end.

(** [position]: the index of the first group that contains it. *)
Definition group_of (r : PlacementRule) (position : nat) : option nat :=
  fst <$> list_find (fun g => position ∈ g) (together r).

Definition singles (r : PlacementRule) : list nat :=
  filter (fun p => group_of r p = None) (seq 0 (copy_count r)).

(** [it.by_ref().take(n)] for each of the domains left. *)
Fixpoint deal (free d each extra : nat) (it : list nat) : list (list nat) :=
  match free with
  | O => []
  | S free =>
      let n := (each + if Nat.ltb d extra then 1 else 0)%nat in
      take n it :: deal free (S d) each extra (drop n it)
  end.

Definition slots (r : PlacementRule) : list (list nat) :=
  let out := together r in
  let singles := singles r in
  let free := (rule_domains r - length (together r))%nat in
  if Nat.eqb free 0 || bool_decide (singles = []) then out
  else out ++ deal free 0 (length singles / free) (length singles mod free) singles.

Definition bad {A} (why : RuleFault) : outcome CopysetError A := Err (InvalidRule why).

Fixpoint check_positions (copies : nat) (g : list nat) (seen : list nat) : outcome CopysetError (list nat) :=
  match g with
  | [] => Ok seen
  | p :: g =>
      if Nat.leb copies p || bool_decide (p ∈ seen) then bad (BadGroupPosition p)
      else check_positions copies g (p :: seen)
  end.

Fixpoint check_groups (copies per : nat) (gs : list (list nat)) (seen : list nat) :
    outcome CopysetError (list nat) :=
  match gs with
  | [] => Ok seen
  | g :: gs =>
      if bool_decide (g = []) then bad AnEmptyGroup
      else
        seen ← check_positions copies g seen;
        if Nat.ltb per (length g) then bad (GroupTooLarge (length g) per)
        else check_groups copies per gs seen
  end.

Definition validate (r : PlacementRule) : outcome CopysetError () :=
  if Nat.eqb (copy_count r) 0 then Err ZeroCopyCount
  else if Nat.eqb (per_domain r) 0 then bad NoCopiesPerDomain
  else if (match level r with Node | Disk => true | _ => false end) && Nat.ltb 1 (per_domain r)
  then bad OsdIsItsDomain
  else
    seen ← check_groups (copy_count r) (per_domain r) (together r) [];
    if Nat.ltb (rule_domains r) (length (together r))
    then bad (FewerDomainsThanGroups (rule_domains r) (length (together r)))
    else
      let singles := (copy_count r - length seen)%nat in
      let free := (rule_domains r - length (together r))%nat in
      if Nat.eqb singles 0 && Nat.ltb 0 free then bad (DomainsWithNothing free)
      else if Nat.ltb 0 singles then
        if Nat.eqb free 0 then bad (NoDomainLeft singles)
        else if Nat.ltb singles free then bad (DomainsForCopies (rule_domains r) (copy_count r))
        else if Nat.ltb (per_domain r) (div_ceil_nat singles free)
        then bad (TooManyInOne singles free (div_ceil_nat singles free) (per_domain r))
        else Ok ()
      else Ok ().

(** ** Stand-ins *)
Definition other : Type := nat * string * string.

Definition admits (r : PlacementRule) (position : nat) (domain unit : string) (others : list other) : bool :=
  let here := filter (fun o : other => o.1.1 <> position /\ o.1.2 = domain) others in
  if existsb (fun o => String.eqb o.2 unit) here then false
  else
    match group_of r position with
    | Some g =>
        forallb (fun o => String.eqb o.1.2 domain)
          (filter (fun o : other => o.1.1 <> position /\ group_of r o.1.1 = Some g) others) &&
        forallb (fun o => bool_decide (group_of r o.1.1 = Some g)) here
    | None =>
        forallb (fun o => bool_decide (group_of r o.1.1 = None)) here &&
        Nat.ltb (length here) (per_domain r)
    end.

(** ** Valid rules *)
Definition free_domains (r : PlacementRule) : nat := (rule_domains r - length (together r))%nat.

Record valid (r : PlacementRule) : Prop := {
  valid_copies : copy_count r <> 0%nat;
  valid_per : per_domain r <> 0%nat;
  valid_nonempty : Forall (fun g => g <> []) (together r);
  valid_range : Forall (fun p => (p < copy_count r)%nat) (concat (together r));
  valid_distinct : NoDup (concat (together r));
  valid_size : Forall (fun g => (length g <= per_domain r)%nat) (together r);
  valid_domains : (length (together r) <= rule_domains r)%nat;
  valid_rest : let n := (copy_count r - length (concat (together r)))%nat in
    n = 0%nat /\ free_domains r = 0%nat \/
    (0 < free_domains r <= n)%nat /\ (div_ceil_nat n (free_domains r) <= per_domain r)%nat;
}.

Lemma check_positions_ok copies g : forall seen seen', check_positions copies g seen = Ok seen' ->
  NoDup seen -> NoDup seen' /\ seen' ≡ₚ g ++ seen /\ Forall (fun p => (p < copies)%nat) g.
Proof.
  induction g as [|p g IH]; intros seen seen'; cbn; [by intros [= ->]|].
  destruct (Nat.leb_spec copies p); [done|]. case_bool_decide as Hp; cbn; [done|].
  intros H' Hs. destruct (IH _ _ H') as (Hnd & Hperm & Hall); [by apply NoDup_cons|].
  split_and!; [done| |by constructor]. by rewrite Hperm, <- Permutation_middle.
Qed.

Lemma check_groups_ok copies per gs : forall seen seen', check_groups copies per gs seen = Ok seen' ->
  NoDup seen -> NoDup seen' /\ seen' ≡ₚ concat gs ++ seen /\
  Forall (fun p => (p < copies)%nat) (concat gs) /\ Forall (fun g => g <> []) gs /\
  Forall (fun g => (length g <= per)%nat) gs.
Proof.
  induction gs as [|g gs IH]; intros seen seen'; cbn [check_groups concat]; [by intros [= ->]|].
  case_bool_decide as Hg; [done|].
  destruct (check_positions _ _ _) as [s1| |] eqn:E; cbn [mbind outcome_bind]; try done.
  destruct (Nat.ltb_spec per (length g)); [done|]. intros H' Hs.
  destruct (check_positions_ok _ _ _ _ E Hs) as (Hnd1 & Hp1 & Hr1).
  destruct (IH _ _ H' Hnd1) as (Hnd & Hp & Hr & Hne & Hle).
  split_and!; [done| |by apply Forall_app|by constructor|by constructor].
  rewrite Hp, Hp1, <- app_assoc. by rewrite Permutation_app_swap_app.
Qed.

Lemma validate_valid r : validate r = Ok () -> valid r.
Proof.
  unfold validate. destruct (Nat.eqb_spec (copy_count r) 0); [done|].
  destruct (Nat.eqb_spec (per_domain r) 0); [done|]. destruct (_ && Nat.ltb 1 (per_domain r)); [done|].
  destruct (check_groups _ _ _ _) as [seen| |] eqn:E; cbn [mbind outcome_bind]; try done.
  destruct (check_groups_ok _ _ _ _ _ E (NoDup_nil_2)) as (Hnd & Hp & Hr & Hne & Hle).
  rewrite app_nil_r in Hp. rewrite (Permutation_length Hp).
  destruct (Nat.ltb_spec (rule_domains r) (length (together r))); [done|]. cbn zeta.
  fold (free_domains r). intros Hrest. split; try done; [by rewrite <- Hp|]. cbn zeta.
  destruct (Nat.eqb_spec (copy_count r - length (concat (together r))) 0) as [E0|E0]; cbn [andb] in Hrest.
  - destruct (Nat.ltb_spec 0 (free_domains r)); [done|]. left. lia.
  - destruct (Nat.ltb_spec 0 (copy_count r - length (concat (together r)))); [|lia].
    destruct (Nat.eqb_spec (free_domains r) 0); [done|].
    destruct (Nat.ltb_spec (copy_count r - length (concat (together r))) (free_domains r)); [done|].
    destruct (Nat.ltb_spec (per_domain r) (div_ceil_nat (copy_count r - length (concat (together r))) (free_domains r))); [done|].
    right. lia.
Qed.

(** ** Slots *)
Lemma elem_of_concat {A} (x : A) (ls : list (list A)) : x ∈ concat ls <-> exists l, l ∈ ls /\ x ∈ l.
Proof.
  rewrite list_elem_of_In, in_concat. split; intros (l & H1 & H2); exists l; by rewrite !list_elem_of_In in *.
Qed.

Lemma group_of_none r p : group_of r p = None <-> p ∉ concat (together r).
Proof.
  unfold group_of. rewrite fmap_None, list_find_None, Forall_forall, elem_of_concat. naive_solver.
Qed.

Lemma singles_perm r : valid r -> concat (together r) ++ singles r ≡ₚ seq 0 (copy_count r).
Proof.
  intros Hv. unfold singles.
  etrans; [|apply (filter_app_complement (fun p => p ∈ concat (together r)))]. apply Permutation_app.
  - apply NoDup_Permutation; [apply (valid_distinct r Hv)|apply NoDup_filter, NoDup_seq|].
    intros p. rewrite list_elem_of_filter, elem_of_seq. split; [|by intros [? _]].
    intros Hp. split; [done|]. pose proof (valid_range r Hv) as Hr. rewrite Forall_forall in Hr.
    specialize (Hr p Hp). lia.
  - by rewrite (list_filter_iff _ (fun p => p ∉ concat (together r))) by (intros p; apply group_of_none).
Qed.

Lemma deal_spec free : forall d each extra it, (extra - d <= free)%nat ->
  length it = (free * each + (extra - d))%nat ->
  concat (deal free d each extra it) = it /\ length (deal free d each extra it) = free /\
  Forall (fun s => (each <= length s <= each + if Nat.ltb d extra then 1 else 0)%nat) (deal free d each extra it).
Proof.
  induction free as [|free IH]; intros d each extra it Hx Hlen; cbn [deal].
  { destruct it; [done|cbn in Hlen; lia]. }
  rewrite Nat.mul_succ_l in Hlen. set (n := (each + if Nat.ltb d extra then 1 else 0)%nat).
  assert (Hn : (n <= length it)%nat) by (unfold n; destruct (Nat.ltb_spec d extra); lia).
  destruct (IH (S d) each extra (drop n it)) as (Hc & Hl & Hf);
    [lia|rewrite length_drop; unfold n; destruct (Nat.ltb_spec d extra); lia|].
  split_and!; cbn.
  - by rewrite Hc, take_drop.
  - by rewrite Hl.
  - constructor; [rewrite length_take; unfold n in *; destruct (Nat.ltb d extra); lia|].
    eapply Forall_impl; [exact Hf|]. cbv beta. intros s Hs. unfold n.
    destruct (Nat.ltb_spec d extra), (Nat.ltb_spec (S d) extra); lia.
Qed.

Lemma slots_unfold r : valid r ->
  slots r = together r ++ deal (free_domains r) 0 (length (singles r) / free_domains r)
    (length (singles r) mod free_domains r) (singles r) /\
  length (singles r) = (copy_count r - length (concat (together r)))%nat.
Proof.
  intros Hv. pose proof (Permutation_length (singles_perm r Hv)) as Hl.
  rewrite length_app, length_seq in Hl. split; [|lia]. unfold slots. fold (free_domains r).
  destruct (Nat.eqb_spec (free_domains r) 0) as [E|E]; cbn [orb]; [by rewrite E, app_nil_r|].
  case_bool_decide as Hs; [|done]. rewrite Hs in Hl. cbn in Hl.
  destruct (valid_rest r Hv) as [[_ ?]|[? _]]; lia.
Qed.

Lemma slots_rest r : valid r -> let rest := drop (length (together r)) (slots r) in
  concat rest = singles r /\ length rest = free_domains r /\
  Forall (fun s => s <> [] /\ (length s <= per_domain r)%nat) rest.
Proof.
  intros Hv. destruct (slots_unfold r Hv) as [-> Hn]. cbn zeta. rewrite drop_app_length.
  destruct (valid_rest r Hv) as [[Hz Hf]|[Hf Hd]].
  - rewrite Hf. cbn [deal]. rewrite <- Hn in Hz. apply nil_length_inv in Hz. by rewrite Hz.
  - rewrite <- Hn in *. set (n := length (singles r)) in *. set (f := free_domains r) in *.
    pose proof (Nat.div_mod_eq n f) as Hdm. pose proof (Nat.mod_upper_bound n f ltac:(lia)) as Hm.
    destruct (deal_spec f 0 (n / f) (n mod f) (singles r)) as (Hc & Hl & Hall); [lia|fold n; lia|].
    split_and!; [done|done|]. eapply Forall_impl; [exact Hall|]. cbv beta. intros s Hs.
    assert (1 <= n / f)%nat by (apply Nat.div_le_lower_bound; lia).
    split; [intros ->; cbn in Hs; lia|]. unfold div_ceil_nat in Hd. lia.
Qed.

Lemma slots_spec r : valid r ->
  concat (slots r) ≡ₚ seq 0 (copy_count r) /\ length (slots r) = rule_domains r /\
  Forall (fun s => s <> [] /\ (length s <= per_domain r)%nat) (slots r) /\
  take (length (together r)) (slots r) = together r.
Proof.
  intros Hv. destruct (slots_rest r Hv) as (Hc & Hl & Hf).
  assert (Hs : slots r = together r ++ drop (length (together r)) (slots r)).
  { destruct (slots_unfold r Hv) as [-> _]. by rewrite drop_app_length. }
  pose proof (valid_domains r Hv) as Hd. unfold free_domains in Hl. rewrite Hs. split_and!.
  - rewrite concat_app, Hc. by apply singles_perm.
  - rewrite length_app, Hl. lia.
  - apply Forall_app. split; [|done]. rewrite Forall_forall. intros g Hg.
    pose proof (valid_nonempty r Hv) as Hn. pose proof (valid_size r Hv) as Hz.
    rewrite Forall_forall in Hn, Hz. auto.
  - apply take_app_length.
Qed.

(** A valid rule's slots hold every position once: as many slots as it has
    domains, none empty, none above its limit, and each group a slot of its
    own, before the others. *)
Theorem slots_partition r : validate r = Ok () ->
  concat (slots r) ≡ₚ seq 0 (copy_count r) /\ length (slots r) = rule_domains r /\
  Forall (fun s => s <> [] /\ (length s <= per_domain r)%nat) (slots r) /\
  take (length (together r)) (slots r) = together r.
Proof. intros Hv%validate_valid. by apply slots_spec. Qed.

(** LRC 6+2+2 over racks: two groups of four, two global parities. *)
Definition lrc_rule : PlacementRule := mkRule Rack 10 3 4 [[0; 1; 2; 6]; [3; 4; 5; 7]]%nat.

Lemma slots_partition_witness :
  slots lrc_rule = [[0; 1; 2; 6]; [3; 4; 5; 7]; [8; 9]]%nat /\
  concat (slots lrc_rule) ≡ₚ seq 0 (copy_count lrc_rule).
Proof.
  split; [by vm_compute|]. apply (slots_partition lrc_rule). by vm_compute.
Defined.

End Copyset.
