(* ===== verification/CopysetSpec.v ===== *)
(** * What a placement rule means

    The rule of [Copyset] as a statement about where positions are
    ([keeps]), and the theorems on one member at a time: a stand-in is
    admitted exactly when the rule holds with it ([admits_exact]). *)
From S2P Require Import Prelude Bytes F64 Topology Crush Copyset.
Import Topology Copyset.

Module CopysetSpec.

Definition pos_of (o : other) : nat := o.1.1.
Definition dom_of (o : other) : string := o.1.2.
Definition unit_of (o : other) : string := o.2.

(** The members [l], each with its position, domain and unit, keep the rule:
    no two are on one unit of a domain; a group is in one domain and alone
    there; no domain holds more than the limit. *)
Record keeps (r : PlacementRule) (l : list other) : Prop := {
  keeps_positions : NoDup (pos_of <$> l);
  keeps_units : forall o o', o ∈ l -> o' ∈ l -> pos_of o <> pos_of o' ->
    dom_of o = dom_of o' -> unit_of o <> unit_of o';
  keeps_groups : forall o o' g, o ∈ l -> o' ∈ l -> pos_of o <> pos_of o' ->
    group_of r (pos_of o) = Some g -> (dom_of o = dom_of o' <-> group_of r (pos_of o') = Some g);
  keeps_limit : forall d, (length (filter (fun o => dom_of o = d) l) <= per_domain r)%nat;
}.

Lemma filter_fmap_length {A B} (P : B -> Prop) `{forall x, Decision (P x)} (f : A -> B) l :
  length (filter P (f <$> l)) = length (filter (fun x => P (f x)) l).
Proof. induction l as [|x l IH]; [done|]. rewrite fmap_cons, !filter_cons. case_decide; cbn [length]; lia. Qed.

(** The order of the members doesn't matter, and fewer keep the rule too. *)
Lemma keeps_perm r l l' : l ≡ₚ l' -> keeps r l -> keeps r l'.
Proof.
  intros Hp [H1 H2 H3 H4]. split.
  - by rewrite <- Hp.
  - intros o o'. rewrite <- Hp. apply H2.
  - intros o o' g. rewrite <- Hp. apply H3.
  - intros d. rewrite <- Hp. apply H4.
Qed.

Lemma keeps_sublist r l l' : sublist l l' -> keeps r l' -> keeps r l.
Proof.
  intros Hs [H1 H2 H3 H4].
  assert (forall o, o ∈ l -> o ∈ l') as Hin.
  { intros o Ho. eapply elem_of_submseteq; [exact Ho|]. by apply sublist_submseteq. }
  split; [|by eauto|by eauto|].
  - eapply sublist_NoDup; [exact H1|]. clear -Hs. induction Hs; cbn; by constructor.
  - intros d. etrans; [|apply (H4 d)]. apply sublist_length. clear -Hs.
    induction Hs; cbn; [done| |]; rewrite ?filter_cons; repeat case_decide; (done || by constructor).
Qed.

(** ** Groups *)
Lemma group_of_some r p g : group_of r p = Some g -> exists ps, together r !! g = Some ps /\ p ∈ ps.
Proof.
  unfold group_of. intros ([i ps] & Hf & ->)%fmap_Some. apply list_find_Some in Hf as (Hi & Hp & _). eauto.
Qed.

(** Members at distinct positions of one group are no more than it. *)
Lemma group_limit r g l : valid r -> NoDup (pos_of <$> l) ->
  (forall o, o ∈ l -> group_of r (pos_of o) = Some g) -> l <> [] -> (length l <= per_domain r)%nat.
Proof.
  intros Hv Hnd Hall Hne. destruct l as [|o l]; [done|].
  destruct (group_of_some r (pos_of o) g) as (ps & Hps & _); [apply Hall; by left|].
  assert (length ps <= per_domain r)%nat.
  { pose proof (valid_size r Hv) as Hs. rewrite Forall_forall in Hs.
    apply Hs. by eapply list_elem_of_lookup_2. }
  etrans; [|done]. rewrite <- (length_fmap pos_of (o :: l)).
  apply submseteq_length, NoDup_submseteq; [done|].
  intros p (o' & -> & Ho')%list_elem_of_fmap.
  destruct (group_of_some _ _ _ (Hall o' Ho')) as (ps' & Hps' & Hin). congruence.
Qed.

Section admits.
Context (r : PlacementRule) (position : nat) (domain unit : string) (others : list other).
Hypothesis fresh : position ∉ pos_of <$> others.

Lemma others_not_position o : o ∈ others -> pos_of o <> position.
Proof. intros Ho <-. apply fresh, list_elem_of_fmap. eauto. Qed.

(** [admits] without its filters on the position itself. *)
Lemma admits_iff : admits r position domain unit others = true <->
  (forall o, o ∈ others -> dom_of o = domain -> unit_of o <> unit) /\
  match group_of r position with
  | Some g => forall o, o ∈ others -> (group_of r (pos_of o) = Some g <-> dom_of o = domain)
  | None => (forall o, o ∈ others -> dom_of o = domain -> group_of r (pos_of o) = None) /\
      (length (filter (fun o => dom_of o = domain) others) < per_domain r)%nat
  end.
Proof.
  unfold admits. cbn zeta. assert (Hhere : filter (fun o : other => o.1.1 <> position /\ o.1.2 = domain) others =
    filter (fun o => dom_of o = domain) others).
  { pose proof others_not_position as Hn. clear fresh. induction others as [|o l IH]; [done|].
    rewrite !filter_cons, IH by (intros; apply Hn; by right). unfold dom_of.
    specialize (Hn o ltac:(by left)). unfold pos_of in Hn. repeat case_decide; naive_solver. }
  rewrite Hhere. set (here := filter (fun o => dom_of o = domain) others).
  destruct (existsb (fun o : nat * string * string => String.eqb o.2 unit) here) eqn:Eu.
  - split; [done|]. intros [Hu _]. exfalso. apply existsb_exists in Eu as (o & Ho & E%String.eqb_eq).
    apply list_elem_of_In, list_elem_of_filter in Ho as [Hd Ho]. by apply (Hu o).
  - assert (forall o, o ∈ others -> dom_of o = domain -> unit_of o <> unit) as Hu.
    { intros o Ho Hd E. rewrite <- not_true_iff_false, existsb_exists in Eu. apply Eu. exists o.
      rewrite <- list_elem_of_In. split; [by apply list_elem_of_filter|by apply String.eqb_eq]. }
    destruct (group_of r position) as [g|].
    + rewrite andb_true_iff, !forallb_forall. split.
      * intros [H1 H2]. split; [done|]. intros o Ho. split.
        -- intros Hg. apply String.eqb_eq, H1, list_elem_of_In, list_elem_of_filter.
           split; [|done]. split; [by apply others_not_position|done].
        -- intros Hd. assert (o ∈ here) as Hh%list_elem_of_In%H2 by (by apply list_elem_of_filter).
           by apply bool_decide_eq_true in Hh.
      * intros [_ H']. split; intros o Ho%list_elem_of_In%list_elem_of_filter.
        -- apply String.eqb_eq. destruct Ho as [[_ Hg] Ho]. by apply H'.
        -- apply bool_decide_eq_true. destruct Ho as [Hd Ho]. by apply H'.
    + rewrite andb_true_iff, forallb_forall, Nat.ltb_lt. split.
      * intros [H1 H2]. split_and!; [done| |done]. intros o Ho Hd.
        assert (o ∈ here) as Hh%list_elem_of_In%H1 by (by apply list_elem_of_filter).
        by apply bool_decide_eq_true in Hh.
      * intros (_ & H1 & H2). split; [|done]. intros o Ho%list_elem_of_In%list_elem_of_filter.
        apply bool_decide_eq_true. destruct Ho as [Hd Ho]. by apply H1.
Qed.

Lemma admits_keeps : valid r -> keeps r others -> admits r position domain unit others = true ->
  keeps r ((position, domain, unit) :: others).
Proof.
  intros Hv Hk. rewrite admits_iff. intros [Hu Hg]. split.
  - apply NoDup_cons. split; [done|apply (keeps_positions r _ Hk)].
  - intros o o' [->|Ho]%elem_of_cons [->|Ho']%elem_of_cons Hp Hd; [done| | |by eapply keeps_units];
      unfold pos_of, dom_of, unit_of in *; cbn in *; [intros E; by apply (Hu o')|by apply (Hu o)].
  - intros o o' g [->|Ho]%elem_of_cons [->|Ho']%elem_of_cons Hp Eg; [done| | |by eapply keeps_groups].
    + change (pos_of (position, domain, unit)) with position in *. rewrite Eg in Hg.
      rewrite (Hg o' Ho'). split; done.
    + change (pos_of (position, domain, unit)) with position.
      change (dom_of (position, domain, unit)) with domain.
      destruct (group_of r position) as [g'|]; [rewrite <- (Hg o Ho)|destruct Hg as [Hg _]].
      * split; congruence.
      * split; [|done]. intros Hd. rewrite (Hg o Ho Hd) in Eg. done.
  - intros d. rewrite filter_cons. change (dom_of (position, domain, unit)) with domain.
    case_decide as Hd; [subst d|apply (keeps_limit r _ Hk)].
    destruct (group_of r position) as [g|] eqn:Eg; [|cbn; lia].
    apply (group_limit r g); [done| | |done].
    + apply NoDup_cons. split; [|apply NoDup_fmap_filter, (keeps_positions r _ Hk)].
      intros (o & E & [_ Ho]%list_elem_of_filter)%list_elem_of_fmap. by apply (others_not_position o).
    + intros o [->|[Hd Ho]%list_elem_of_filter]%elem_of_cons; [done|by apply Hg].
Qed.

Lemma keeps_admits : keeps r ((position, domain, unit) :: others) ->
  admits r position domain unit others = true.
Proof.
  intros Hk. rewrite admits_iff. set (n := (position, domain, unit)) in *.
  assert (Hn : n ∈ n :: others) by (by left).
  assert (Ho : forall o, o ∈ others -> o ∈ n :: others /\ pos_of o <> pos_of n /\ pos_of n <> pos_of o).
  { intros o Ho. pose proof (others_not_position o Ho). split; [by right|]. split; [done|by apply not_eq_sym]. }
  split.
  - intros o (Ho1 & Ho2 & _)%Ho Hd. by apply (keeps_units r _ Hk o n).
  - destruct (group_of r position) as [g|] eqn:Eg.
    + intros o (Ho1 & _ & Ho2)%Ho. rewrite <- (keeps_groups r _ Hk n o g) by done. split; done.
    + split.
      * intros o (Ho1 & Ho2 & _)%Ho Hd. destruct (group_of r (pos_of o)) as [g|] eqn:E; [|done].
        exfalso. apply (keeps_groups r _ Hk o n g Ho1 Hn Ho2 E) in Hd.
        change (pos_of n) with position in Hd. congruence.
      * pose proof (keeps_limit r _ Hk domain) as Hl. rewrite filter_cons, decide_True in Hl by done.
        cbn in Hl. lia.
Qed.

(** An OSD of [domain], on [unit], is admitted to a position exactly when
    the other members and it keep the rule, given that the others do. *)
Theorem admits_exact : validate r = Ok () -> keeps r others ->
  admits r position domain unit others = true <-> keeps r ((position, domain, unit) :: others).
Proof.
  intros Hv%validate_valid Hk. split; [by apply admits_keeps|by apply keeps_admits].
Qed.

End admits.

(** Members admitted one after the other, as a test. *)
Fixpoint admitted (r : PlacementRule) (l : list other) : bool :=
  match l with
  | [] => true
  | o :: l => admitted r l && bool_decide (pos_of o ∉ (pos_of <$> l)) && admits r (pos_of o) (dom_of o) (unit_of o) l
  end.

Lemma admitted_keeps r l : validate r = Ok () -> admitted r l = true -> keeps r l.
Proof.
  intros Hv%validate_valid. induction l as [|[[p d] u] l IH]; cbn [admitted].
  - intros _. split; [constructor|set_solver|set_solver|cbn; lia].
  - intros [[Hl Hp%bool_decide_eq_true]%andb_true_iff Ha]%andb_true_iff. by apply admits_keeps; [| |apply IH|].
Qed.

Lemma admits_exact_witness :
  admits lrc_rule 1 "r1" "h2" [(0%nat, "r1", "h1"); (3%nat, "r2", "h3")] = true <->
  keeps lrc_rule [(1%nat, "r1", "h2"); (0%nat, "r1", "h1"); (3%nat, "r2", "h3")].
Proof.
  apply (admits_exact lrc_rule 1 "r1" "h2" [(0%nat, "r1", "h1"); (3%nat, "r2", "h3")]).
  - by apply (bool_decide_unpack _).
  - by vm_compute.
  - split.
    + by apply (bool_decide_unpack _).
    + intros o o'. rewrite !elem_of_cons. intros [->|[->|[]%not_elem_of_nil]] [->|[->|[]%not_elem_of_nil]]; by cbn.
    + intros o o' g. rewrite !elem_of_cons. intros [->|[->|[]%not_elem_of_nil]] [->|[->|[]%not_elem_of_nil]];
        try done; intros _; vm_compute; intros [= <-]; done.
    + intros d. rewrite !filter_cons. repeat case_decide; cbn; lia.
Defined.

End CopysetSpec.
