(* ===== verification/CopysetPool.v ===== *)
(** * The pool of copysets

    crates/placement/src/copyset.rs from [CopysetPool] on: the OSDs of a
    topology by domain and unit, the check that a rule's slots fit, the
    weighted sampling of copysets, and picking one from the pool. A
    [BTreeMap] is a [gmap] walked in key order. *)
From Stdlib Require Import SpecFloat.
From S2P Require Import Prelude Bytes F64 OrdMap Topology Crush Copyset.
Import F64(f64) Topology Crush(UuidText, uuid_text) Copyset.

Module CopysetPool.

(** The [rand] crate: generators, and what it documents of the functions the
    code calls. *)
Class Rng := {
  rng : Type;
  seed_from_u64 : Z -> rng;
  shuffle : forall {A}, list A -> rng -> list A * rng;
  choose_multiple : forall {A}, list A -> nat -> rng -> list A * rng;
  choose : forall {A}, list A -> rng -> option A * rng;
  gen_f64 : rng -> f64 * rng;
  shuffle_perm : forall A (l : list A) g, (shuffle l g).1 ≡ₚ l;
  choose_multiple_sub : forall A (l : list A) n g, (choose_multiple l n g).1 ⊆+ l;
  choose_multiple_length : forall A (l : list A) n g,
    length (choose_multiple l n g).1 = Nat.min n (length l);
  choose_some : forall A (l : list A) g, l <> [] -> exists x, (choose l g).1 = Some x /\ x ∈ l;
  choose_nil : forall A g, (choose (@nil A) g).1 = None;
}.

(** A generator that changes nothing and takes the first. *)
#[refine] Instance first_rng : Rng := {|
  rng := unit;
  seed_from_u64 := fun _ => tt;
  shuffle := fun A l g => (l, g);
  choose_multiple := fun A l n g => (take n l, g);
  choose := fun A l g => (head l, g);
  gen_f64 := fun g => (F64.div (F64.of_Z 1) (F64.of_Z 2), g);
|}.
Proof.
  - done.
  - intros. cbn. apply sublist_submseteq, sublist_take.
  - intros. cbn. apply length_take.
  - intros A [|x l] g Hl; [done|]. exists x. split; [done|by left].
  - done.
Defined.

(** A generator that reverses and takes the first. *)
#[refine] Instance reverse_rng : Rng := {|
  rng := unit;
  seed_from_u64 := fun _ => tt;
  shuffle := fun A l g => (reverse l, g);
  choose_multiple := fun A l n g => (take n l, g);
  choose := fun A l g => (head l, g);
  gen_f64 := fun g => (F64.div (F64.of_Z 1) (F64.of_Z 2), g);
|}.
Proof.
  - intros. apply reverse_Permutation.
  - intros. cbn. apply sublist_submseteq, sublist_take.
  - intros. cbn. apply length_take.
  - intros A [|x l] g Hl; [done|]. exists x. split; [done|by left].
  - done.
Defined.

Record Copyset := new_copyset { osds : list NodeId }.

Definition copyset_size (c : Copyset) : nat := length (osds c).
Definition contains (c : Copyset) (i : NodeId) : bool := bool_decide (i ∈ osds c).

Record CopysetPool := mkPool {
  pool_level : FailureDomain;
  pool_copy_count : nat;
  sets : list Copyset;
}.

(** ** Walks in key order *)
Definition key_le {V} (a b : string * V) : Prop := String.leb a.1 b.1 = true.

#[local] Instance key_le_dec {V} : RelDecision (@key_le V).
Proof. intros a b. unfold key_le. apply _. Defined.

Definition btree_iter {V} (m : gmap string V) : list (string * V) :=
  merge_sort key_le (map_to_list m).

Definition btree_values {V} (m : gmap string V) : list V := (btree_iter m).*2.

(** [sort_unstable_by(|a, b| b.cmp(a))] on numbers. *)
Definition no_less (a b : nat) : Prop := (b <= a)%nat.

#[local] Instance no_less_dec : RelDecision no_less.
Proof. intros a b. unfold no_less. apply _. Defined.

Definition sort_down (l : list nat) : list nat := merge_sort no_less l.

(** [sort_by_key(|slot| Reverse(slot.len()))], stable. *)
Fixpoint insert_longest (x : list nat) (l : list (list nat)) : list (list nat) :=
  match l with
  | [] => [x]
  | y :: l' => if Nat.ltb (length x) (length y) then y :: insert_longest x l' else x :: l
  end.

Definition longest_first (l : list (list nat)) : list (list nat) := foldr insert_longest [] l.

(** OSDs by unit. *)
Abbreviation units := (gmap string (list NodeId)).

Section pool.
Context `{HashOrder} `{UuidText} `{Rng}.

Definition domain_name (node : NodeInfo) (level : FailureDomain) : string :=
  match level with
  | Node | Disk => uuid_text (id node)
  | _ => at_level (failure_domain node) level
  end.

Definition unit_name (node : NodeInfo) (r : PlacementRule) : string :=
  if hosts_distinct r && negb (String.eqb (host (failure_domain node)) "")
  then host (failure_domain node)
  else uuid_text (id node).

Definition add_unit (r : PlacementRule) (out : gmap string units) (n : NodeInfo) : gmap string units :=
  let d := domain_name n (level r) in
  let u := unit_name n r in
  let here := default ∅ (out !! d) in
  <[d := <[u := default [] (here !! u) ++ [id n]]> here]> out.

Definition units_by_domain (t : ClusterTopology) (r : PlacementRule) : gmap string units :=
  foldl (add_unit r) ∅ (active_nodes t).

(** ** Sampling *)
Definition zero : f64 := F64.of_Z 0.
Definition one : f64 := F64.of_Z 1.

Definition weight_of (coverage : gmap NodeId nat) (i : NodeId) : f64 :=
  F64.div one (F64.add one (F64.of_Z (Z.of_nat (default 0%nat (coverage !! i))))).

Fixpoint pick_at (pick : f64) (l : list (NodeId * f64)) : option NodeId :=
  match l with
  | [] => None
  | (i, w) :: l =>
      let pick := F64.sub pick w in
      if F64.leb pick zero then Some i else pick_at pick l
  end.

Definition pick_weighted (candidates : list NodeId) (coverage : gmap NodeId nat) (g : rng) :
    option NodeId * rng :=
  let weights := weight_of coverage <$> candidates in
  let total := foldl F64.add zero weights in
  if F64.leb total zero then (None, g)
  else
    let '(x, g) := gen_f64 g in
    match pick_at (F64.mul x total) (zip candidates weights) with
    | Some i => (Some i, g)
    | None => (head candidates, g)
    end.

(** [Err] is the sampler's [None]. *)
Definition sampled (A : Type) : Type := outcome () A * rng.

(** The members of one slot. *)
Fixpoint pick_members (slot : list nat) (us : list (list NodeId)) (coverage : gmap NodeId nat)
    (out : list (option NodeId)) (g : rng) : sampled (list (option NodeId)) :=
  match slot, us with
  | position :: slot, unit :: us =>
      let '(picked, g) := pick_weighted unit coverage g in
      match picked with
      | None => (Err (), g)
      | Some i =>
          if Nat.ltb position (length out)
          then pick_members slot us coverage (<[position := Some i]> out) g
          else (Panic, g)
      end
  | _, _ => (Ok out, g)
  end.

Definition find_domain (used : list bool) (domains : list units) (n : nat) : option nat :=
  fst <$> list_find (fun p : bool * units => p.1 = false /\ (n <= size p.2)%nat) (zip used domains).

Fixpoint fill_slots (order : list (list nat)) (domains : list units) (used : list bool)
    (coverage : gmap NodeId nat) (out : list (option NodeId)) (g : rng) : sampled (list (option NodeId)) :=
  match order with
  | [] => (Ok out, g)
  | slot :: order =>
      match find_domain used domains (length slot) with
      | None => (Err (), g)
      | Some d =>
          let '(us, g) := choose_multiple (btree_values (default ∅ (domains !! d))) (length slot) g in
          if negb (Nat.eqb (length us) (length slot)) then (Err (), g)
          else
            let '(res, g) := pick_members slot us coverage out g in
            match res with
            | Ok out => fill_slots order domains (<[d := true]> used) coverage out g
            | Err e => (Err e, g)
            | Panic => (Panic, g)
            end
      end
  end.

Definition sample_copyset (groups : gmap string units) (slots : list (list nat)) (copy_count : nat)
    (coverage : gmap NodeId nat) (g : rng) : sampled Copyset :=
  let '(domains, g) := shuffle (btree_values groups) g in
  let order := longest_first slots in
  let used := replicate (length domains) false in
  let '(res, g) := fill_slots order domains used coverage (replicate copy_count None) g in
  (out ← res; match mapM (fun o => o) out with Some l => Ok (new_copyset l) | None => Err () end, g).

(** ** Building the pool *)
Definition key_no_more (a b : bytes) : Prop := OrdMap.key_leb a b = true.

#[local] Instance key_no_more_dec : RelDecision key_no_more.
Proof. intros a b. unfold key_no_more. apply _. Defined.

(** The ids in order, so that one set of OSDs counts once. *)
Definition canon (c : Copyset) : list NodeId := merge_sort key_no_more (osds c).

Definition cover (coverage : gmap NodeId nat) (c : Copyset) : gmap NodeId nat :=
  foldl (fun m i => <[i := S (default 0%nat (m !! i))]> m) coverage (osds c).

Record build := mkBuild {
  b_sets : list Copyset;
  b_coverage : gmap NodeId nat;
  b_seen : list (list NodeId);
  b_rng : rng;
}.

Definition wants_more (target scatter_width : nat) (b : build) : bool :=
  Nat.ltb (length (b_sets b)) target ||
  existsb (fun p => Nat.ltb p.2 scatter_width) (map_to_list (b_coverage b)).

(** One attempt of the loop. *)
Definition attempt (groups : gmap string units) (slots : list (list nat)) (copy_count : nat) (b : build) :
    outcome CopysetError build :=
  let '(res, g) := sample_copyset groups slots copy_count (b_coverage b) (b_rng b) in
  match res with
  | Ok cs =>
      if bool_decide (canon cs ∈ b_seen b) then Ok (mkBuild (b_sets b) (b_coverage b) (b_seen b) g)
      else Ok (mkBuild (b_sets b ++ [cs]) (cover (b_coverage b) cs) (canon cs :: b_seen b) g)
  | Err _ => Ok (mkBuild (b_sets b) (b_coverage b) (b_seen b) g)
  | Panic => Panic
  end.

(** The loop, [budget] attempts at most. *)
Fixpoint attempts (budget : nat) (groups : gmap string units) (slots : list (list nat))
    (copy_count target scatter_width : nat) (b : build) : outcome CopysetError build :=
  match budget with
  | O => Ok b
  | S budget =>
      if wants_more target scatter_width b then
        b ← attempt groups slots copy_count b;
        attempts budget groups slots copy_count target scatter_width b
      else Ok b
  end.

Definition feasible (slots : list (list nat)) (groups : gmap string units) : bool :=
  let need := sort_down (length <$> slots) in
  let have := sort_down (size <$> btree_values groups) in
  negb (existsb (fun p => Nat.ltb p.2 p.1) (zip need have)).

Definition all_osds (groups : gmap string units) : list NodeId :=
  btree_values groups ≫= fun us => btree_values us ≫= fun ids => ids.

Definition target_pool_size (total_osds scatter_width copy_count : nat) : nat :=
  Z.to_nat (Z.max 1 (wmul64 (Z.of_nat total_osds) (Z.of_nat scatter_width) / Z.of_nat copy_count)).

(** [target.saturating_mul(10).max(256)]. *)
Definition attempt_budget (target : nat) : nat :=
  Z.to_nat (Z.max 256 (Z.min u64_max (Z.of_nat target * 10))).

Definition build_with_rule (t : ClusterTopology) (r : PlacementRule) (scatter_width : nat) (seed : Z) :
    outcome CopysetError CopysetPool :=
  validate r;;
  let groups := units_by_domain t r in
  if bool_decide (groups = ∅) then Err EmptyTopology
  else if Nat.ltb (size groups) (rule_domains r)
  then Err (InsufficientGroups (size groups) (rule_domains r))
  else
    let slots := slots r in
    if negb (feasible slots groups)
    then Err (Infeasible (sort_down (length <$> slots)) (sort_down (size <$> btree_values groups)))
    else
      let total_osds := length (all_osds groups) in
      let target := target_pool_size total_osds scatter_width (copy_count r) in
      let coverage := list_to_map ((fun i => (i, 0%nat)) <$> all_osds groups) in
      b ← attempts (attempt_budget target) groups slots (copy_count r) target scatter_width
        (mkBuild [] coverage [] (seed_from_u64 seed));
      Ok (mkPool (level r) (copy_count r) (b_sets b)).

Definition build_pool (t : ClusterTopology) (level : FailureDomain) (copy_count scatter_width : nat)
    (seed : Z) : outcome CopysetError CopysetPool :=
  build_with_rule t (spread level copy_count) scatter_width seed.

(** ** Picking from the pool *)
Definition pick_random (p : CopysetPool) (g : rng) : option Copyset * rng := choose (sets p) g.

Definition epsilon : f64 := F64.div one (F64.of_Z (2 ^ 52)).

(** The cheapest sets so far: [cost] is what the caller answers for each. *)
Definition min_cost_step (cost : Copyset -> f64) (st : f64 * list Copyset) (cs : Copyset) :
    f64 * list Copyset :=
  let '(best, ties) := st in
  let c := cost cs in
  if F64.ltb c best then (c, [cs])
  else if F64.ltb (F64.abs (F64.sub c best)) epsilon then (best, ties ++ [cs])
  else st.

Definition pick_min_cost (p : CopysetPool) (cost : Copyset -> f64) (g : rng) : option Copyset * rng :=
  match sets p with
  | [] => (None, g)
  | _ => choose (foldl (min_cost_step cost) (SpecFloat.S754_infinity false, []) (sets p)).2 g
  end.

End pool.

End CopysetPool.
