(* ===== verification/CopysetFill.v ===== *)
(** * How a copyset is filled

    Lemmas on [CopysetPool]: the OSDs of each unit of a topology, the rows
    that filling a rule's slots gives (a domain for each slot, a unit of it
    for each position), and that rows keep the rule of [CopysetSpec]. *)
From S2P Require Import Prelude Bytes F64 OrdMap Topology TopologySpec Crush Copyset CopysetSpec CopysetPool.
Import F64(f64) Topology Crush(UuidText, uuid_text) Copyset CopysetSpec CopysetPool.

Module CopysetFill.

Section spec.
Context {Ord : HashOrder} {Ut : UuidText} {Rg : Rng}.

(** ** Units *)
Definition unit_at (groups : gmap string units) (d u : string) : option (list NodeId) :=
  us ← groups !! d; us !! u.

(** An entry holds the nodes of its domain and unit. *)
Lemma units_spec r ns d u : unit_at (foldl (add_unit r) ∅ ns) d u =
  let here := filter (fun n => domain_name n (level r) = d /\ unit_name n r = u) ns in
  if decide (here = []) then None else Some (id <$> here).
Proof.
  cbn zeta. induction ns as [|n ns IH] using rev_ind.
  { unfold unit_at. cbn. rewrite lookup_empty. done. }
  rewrite foldl_app, filter_app. cbn [foldl]. rewrite filter_cons, filter_nil.
  set (out := foldl _ _ _) in *. set (here := filter _ ns) in *.
  unfold add_unit, unit_at in *.
  destruct (decide (domain_name n (level r) = d)) as [Hd|Hd];
    [|rewrite lookup_insert_ne by done; rewrite (decide_False (P := _ /\ _)) by tauto; by rewrite app_nil_r].
  rewrite Hd, lookup_insert_eq. cbn [mbind option_bind].
  destruct (decide (unit_name n r = u)) as [Hu|Hu].
  - rewrite Hu, lookup_insert_eq, (decide_True (P := d = d /\ u = u)) by done.
    rewrite (decide_False (P := here ++ [n] = [])) by (by destruct here).
    rewrite fmap_app. f_equal. f_equal.
    destruct (out !! d) as [us|]; cbn in *; [|rewrite lookup_empty; by case_decide as E; [rewrite E|]].
    rewrite IH. by case_decide as E; [rewrite E|].
  - rewrite lookup_insert_ne by done. rewrite (decide_False (P := _ /\ _)) by tauto. rewrite app_nil_r.
    rewrite <- IH. destruct (out !! d) as [us|]; [done|]. cbn. by rewrite lookup_empty.
Qed.

Lemma unit_at_nodes t r d u ids i : unit_at (units_by_domain t r) d u = Some ids -> i ∈ ids ->
  exists n, n ∈ active_nodes t /\ id n = i /\ domain_name n (level r) = d /\ unit_name n r = u.
Proof.
  unfold units_by_domain. rewrite units_spec. cbn zeta. case_decide; [done|]. intros [= <-].
  intros (n & -> & [[Hd Hu] Hn]%list_elem_of_filter)%list_elem_of_fmap. eauto 6.
Qed.

Lemma unit_at_nonempty t r d u ids : unit_at (units_by_domain t r) d u = Some ids -> ids <> [].
Proof.
  unfold units_by_domain. rewrite units_spec. cbn zeta. case_decide as E; [done|]. intros [= <-].
  by intros ?%fmap_nil_inv.
Qed.

(** ** Walks *)
Lemma btree_iter_perm {V} (m : gmap string V) : btree_iter m ≡ₚ map_to_list m.
Proof. apply merge_sort_Permutation. Qed.

Lemma elem_of_btree_iter {V} (m : gmap string V) k v : (k, v) ∈ btree_iter m <-> m !! k = Some v.
Proof. rewrite btree_iter_perm. apply elem_of_map_to_list. Qed.

Lemma NoDup_btree_iter {V} (m : gmap string V) : NoDup (btree_iter m).*1.
Proof. rewrite btree_iter_perm. apply NoDup_fst_map_to_list. Qed.

Lemma length_btree_values {V} (m : gmap string V) : length (btree_values m) = size m.
Proof. unfold btree_values. by rewrite length_fmap, btree_iter_perm, length_map_to_list. Qed.

(** A permutation or a part of a walk's values is one of its entries. *)
Lemma perm_snd {A B} (l : list (A * B)) (vs : list B) : vs ≡ₚ l.*2 -> exists l', l' ≡ₚ l /\ vs = l'.*2.
Proof. intros (l' & -> & Hp)%Permutation_map_inv. by exists l'. Qed.

Lemma submseteq_snd {A B} (l : list (A * B)) (vs : list B) : vs ⊆+ l.*2 -> exists l', l' ⊆+ l /\ vs = l'.*2.
Proof.
  intros (rest & Hp)%submseteq_Permutation. symmetry in Hp. apply perm_snd in Hp as (l' & Hl & E).
  exists (take (length vs) l'). split.
  - etrans; [apply sublist_submseteq, sublist_take|]. by apply Permutation_submseteq.
  - rewrite fmap_take, <- E. by rewrite take_app_length.
Qed.

Lemma NoDup_submseteq_fst {A B} (l l' : list (A * B)) : NoDup l.*1 -> l' ⊆+ l -> NoDup l'.*1.
Proof.
  intros Hl (k & Hk)%submseteq_Permutation. rewrite Hk, fmap_app in Hl. by apply NoDup_app in Hl as (? & _).
Qed.

(** ** One copyset *)
Lemma pick_at_in pick l i : pick_at pick l = Some i -> i ∈ l.*1.
Proof.
  revert pick. induction l as [|[j w] l IH]; intros pick; cbn; [done|].
  case_match; [intros [= ->]; by left|]. intros H'%IH. by right.
Qed.

Lemma pick_weighted_in candidates coverage g i g' :
  pick_weighted candidates coverage g = (Some i, g') -> i ∈ candidates.
Proof.
  unfold pick_weighted. case_match; [done|]. destruct (gen_f64 g) as [x g1].
  destruct (pick_at _ _) as [j|] eqn:E.
  - intros [= -> _]. apply pick_at_in in E. by rewrite fst_zip in E by (by rewrite length_fmap).
  - intros [= E' _]. destruct candidates; [done|]. injection E' as ->. by left.
Qed.

(** A position with the unit and OSD it was given. *)
Definition cell : Type := nat * string * NodeId.
Definition c_pos (c : cell) : nat := c.1.1.
Definition c_unit (c : cell) : string := c.1.2.
Definition c_id (c : cell) : NodeId := c.2.

(** [out] holds the OSDs of [cells]. *)
Definition holds (out : list (option NodeId)) (cells : list cell) : Prop :=
  forall c, c ∈ cells -> out !! c_pos c = Some (Some (c_id c)).

Lemma pick_members_spec slot : forall us coverage out g out' g', length us = length slot -> NoDup slot ->
  pick_members slot us.*2 coverage out g = (Ok out', g') ->
  exists cells, c_pos <$> cells = slot /\ c_unit <$> cells = us.*1 /\
    (forall c, c ∈ cells -> exists ids, (c_unit c, ids) ∈ us /\ c_id c ∈ ids) /\ holds out' cells /\
    (forall p, p ∉ slot -> out' !! p = out !! p) /\ length out' = length out.
Proof.
  induction slot as [|p slot IH]; intros [|[u ids] us] coverage out g out' g' Hlen Hnd; try done.
  { cbn. intros [= -> _]. exists []. split_and!; try done; by intros c ?%not_elem_of_nil. }
  apply NoDup_cons in Hnd as [Hp Hnd]. cbn [pick_members fmap list_fmap snd].
  destruct (pick_weighted ids coverage g) as [[i|] g1] eqn:E; [|done].
  destruct (Nat.ltb_spec p (length out)) as [Hlt|]; [|done]. intros H'.
  destruct (IH us _ _ _ _ _ ltac:(cbn in Hlen; lia) Hnd H') as (cells & H1 & H2 & H3 & H4 & H5 & H6).
  exists ((p, u, i) :: cells). unfold holds in *. split_and!.
  - csimpl. by rewrite H1.
  - csimpl. by rewrite H2.
  - intros c [->|Hc]%elem_of_cons; [exists ids; split; [by left|by eapply pick_weighted_in]|].
    destruct (H3 c Hc) as (ids' & ? & ?). exists ids'. split; [by right|done].
  - intros c [->|Hc]%elem_of_cons; [|by apply H4]. cbn. rewrite H5 by done. by apply list_lookup_insert_eq.
  - intros q Hq. rewrite H5 by set_solver. apply list_lookup_insert_ne. set_solver.
  - by rewrite H6, length_insert.
Qed.

(** A row: a domain and the cells of the slot it was given. *)
Definition row : Type := string * list cell.

Definition row_ok (doms : list (string * units)) (used : list bool) (rw : row) : Prop :=
  exists d us, doms !! d = Some (rw.1, us) /\ used !! d = Some false /\ NoDup (c_unit <$> rw.2) /\
    forall c, c ∈ rw.2 -> exists ids, us !! c_unit c = Some ids /\ c_id c ∈ ids.

Lemma find_domain_some used (doms : list (string * units)) n d : find_domain used doms.*2 n = Some d ->
  exists D us, used !! d = Some false /\ doms !! d = Some (D, us) /\ (n <= size us)%nat.
Proof.
  unfold find_domain. intros ([d' [b us]] & Hf & ->)%fmap_Some.
  apply list_find_Some in Hf as (Hl & [Hb Hn] & _). cbn in Hb, Hn. subst b.
  apply lookup_zip_with_Some in Hl as (b & us' & [= <- <-] & Hu & Hd).
  apply list_lookup_fmap_Some in Hd as ([D us''] & -> & Hd). eauto.
Qed.

(** What filling the slots in [order] gives: a row for each, on domains of
    their own. *)
Record filled (doms : list (string * units)) (used : list bool) (order : list (list nat))
    (out out' : list (option NodeId)) (rows : list row) : Prop := {
  filled_slots : (fun rw : row => c_pos <$> rw.2) <$> rows = order;
  filled_domains : NoDup rows.*1;
  filled_ok : Forall (row_ok doms used) rows;
  filled_holds : forall rw, rw ∈ rows -> holds out' rw.2;
  filled_rest : forall p, p ∉ concat order -> out' !! p = out !! p;
  filled_length : length out' = length out;
}.

Lemma NoDup_fst_lookup {A B} (l : list (A * B)) i j a b b' : NoDup l.*1 ->
  l !! i = Some (a, b) -> l !! j = Some (a, b') -> i = j.
Proof.
  intros Hnd Hi Hj. eapply NoDup_lookup; [exact Hnd| |]; rewrite list_lookup_fmap, ?Hi, ?Hj; done.
Qed.

Lemma fill_slots_spec doms order : NoDup doms.*1 -> forall used coverage out g out' g', NoDup (concat order) ->
  fill_slots order doms.*2 used coverage out g = (Ok out', g') ->
  exists rows, filled doms used order out out' rows.
Proof.
  intros Hdoms. induction order as [|slot order IH]; intros used coverage out g out' g' Hnd; cbn [fill_slots].
  { intros [= <- _]. exists []. split; try done; [constructor|by intros rw ?%not_elem_of_nil]. }
  cbn [concat] in Hnd. apply NoDup_app in Hnd as (Hnds & Hdis & Hndo).
  destruct (find_domain _ _ _) as [d|] eqn:Ed; [|done].
  apply find_domain_some in Ed as (D & us & Hu & Hd & Hsz). rewrite list_lookup_fmap, Hd. cbn [fmap option_fmap option_map from_option snd].
  change (Datatypes.id us) with us.
  destruct (choose_multiple _ _ _) as [vs g1] eqn:Ec.
  pose proof (choose_multiple_sub _ (btree_values us) (length slot) g) as Hsub. rewrite Ec in Hsub. cbn in Hsub.
  destruct (Nat.eqb_spec (length vs) (length slot)) as [Hlen|]; cbn [negb]; [|done].
  apply submseteq_snd in Hsub as (nus & Hnus & ->). rewrite length_fmap in Hlen.
  destruct (pick_members slot _ _ _ _) as [[out1| |] g2] eqn:Ep; [|done|done].
  destruct (pick_members_spec _ _ _ _ _ _ _ Hlen Hnds Ep) as (cells & H1 & H2 & H3 & H4 & H5 & H6).
  intros H'. destruct (IH _ _ _ _ _ _ Hndo H') as (rows & [F1 F2 F3 F4 F5 F6]).
  rewrite Forall_forall in F3. exists ((D, cells) :: rows). split.
  - csimpl. by rewrite H1, F1.
  - csimpl. apply NoDup_cons. split; [|done]. intros ([D' cs] & HD & Hr)%list_elem_of_fmap. cbn in HD. subst D'.
    destruct (F3 _ Hr) as (d' & us' & Hd' & Hu' & _). cbn in Hd'.
    rewrite (NoDup_fst_lookup _ _ _ _ _ _ Hdoms Hd' Hd) in Hu'.
    rewrite list_lookup_insert_eq in Hu' by (by eapply lookup_lt_Some). done.
  - constructor.
    + exists d, us. split_and!; [done|done| |].
      * cbn. rewrite H2. eapply NoDup_submseteq_fst; [apply NoDup_btree_iter|done].
      * intros c Hc. destruct (H3 c Hc) as (ids & Hin & Hi). exists ids. split; [|done].
        apply elem_of_btree_iter. by eapply elem_of_submseteq.
    + rewrite Forall_forall. intros rw Hr. destruct (F3 _ Hr) as (d' & us' & Hd' & Hu' & Hrest).
      exists d', us'. split; [done|]. split; [|done].
      destruct (decide (d = d')) as [->|]; [|by rewrite list_lookup_insert_ne in Hu'].
      by rewrite list_lookup_insert_eq in Hu' by (by eapply lookup_lt_Some).
  - intros rw [->|Hr]%elem_of_cons; [|by apply F4]. intros c Hc. cbn [snd] in Hc. rewrite F5; [by apply H4|].
    intros Hin. apply (Hdis (c_pos c)); [|done]. rewrite <- H1. apply list_elem_of_fmap. eauto.
  - intros p Hp. cbn [concat] in Hp. rewrite F5, H5; set_solver.
  - by rewrite F6, H6.
Qed.

(** ** Rows keep the rule *)
Definition row_slot (rw : row) : list nat := c_pos <$> rw.2.
Definition row_others (rw : row) : list other := (fun c => (c_pos c, rw.1, c_unit c)) <$> rw.2.
Definition rows_others (rows : list row) : list other := rows ≫= row_others.

Lemma concat_index {A} (ls : list (list A)) i j l l' x : NoDup (concat ls) ->
  ls !! i = Some l -> ls !! j = Some l' -> x ∈ l -> x ∈ l' -> i = j.
Proof.
  revert i j. induction ls as [|k ls IH]; intros i j Hnd; [done|]. cbn [concat] in Hnd.
  apply NoDup_app in Hnd as (_ & Hdis & Hnd).
  destruct i as [|i], j as [|j]; cbn; intros Hi Hj Hx Hx'; simplify_eq; try done.
  - exfalso. apply (Hdis x); [done|]. apply elem_of_concat. exists l'. split; [by eapply list_elem_of_lookup_2|done].
  - exfalso. apply (Hdis x); [done|]. apply elem_of_concat. exists l. split; [by eapply list_elem_of_lookup_2|done].
  - f_equal. eauto.
Qed.

Lemma concat_perm {A} (l l' : list (list A)) : l ≡ₚ l' -> concat l ≡ₚ concat l'.
Proof.
  induction 1 as [|x l l' _ IH|x y l|l l' l'' _ IH1 _ IH2]; cbn; [done|by rewrite IH| |by etrans].
  by rewrite Permutation_app_swap_app.
Qed.

Lemma group_of_intro r g ps p : NoDup (concat (together r)) -> together r !! g = Some ps -> p ∈ ps ->
  group_of r p = Some g.
Proof.
  intros Hnd Hg Hp. destruct (group_of r p) as [g'|] eqn:E.
  - apply group_of_some in E as (ps' & Hg' & Hp'). f_equal. by eapply concat_index.
  - apply group_of_none in E. exfalso. apply E, elem_of_concat. exists ps.
    split; [by eapply list_elem_of_lookup_2|done].
Qed.

Lemma elem_of_rows rows o : o ∈ rows_others rows <->
  exists rw c, rw ∈ rows /\ c ∈ rw.2 /\ o = (c_pos c, rw.1, c_unit c).
Proof.
  unfold rows_others, row_others. rewrite list_elem_of_bind. split.
  - intros (rw & (c & -> & Hc)%list_elem_of_fmap & Hr). eauto.
  - intros (rw & c & Hr & Hc & ->). exists rw. split; [|done]. apply list_elem_of_fmap. eauto.
Qed.

Lemma rows_positions rows : pos_of <$> rows_others rows = concat (row_slot <$> rows).
Proof.
  induction rows as [|rw rows IH]; [done|]. unfold rows_others in *. csimpl. rewrite fmap_app, IH. f_equal.
  unfold row_others, row_slot. by rewrite <- list_fmap_compose.
Qed.

Section rows_keep.
Context (r : PlacementRule) (rows : list row).
Hypothesis Hv : valid r.
Hypothesis Hslots : row_slot <$> rows ≡ₚ slots r.
Hypothesis Hdoms : NoDup rows.*1.
Hypothesis Hunits : forall rw, rw ∈ rows -> NoDup (c_unit <$> rw.2).

Lemma rows_nodup : NoDup (concat (row_slot <$> rows)).
Proof. rewrite (concat_perm _ _ Hslots). destruct (slots_spec r Hv) as [-> _]. apply NoDup_seq. Qed.

Lemma row_slot_in rw : rw ∈ rows -> row_slot rw ∈ slots r.
Proof. intros Hr. rewrite <- Hslots. apply list_elem_of_fmap. eauto. Qed.

(** Positions of one slot are in one row. *)
Lemma same_row rw rw' p s : rw ∈ rows -> rw' ∈ rows -> p ∈ row_slot rw -> s ∈ slots r -> p ∈ s ->
  row_slot rw = s /\ (rw = rw' <-> exists q, q ∈ s /\ q ∈ row_slot rw').
Proof.
  intros [i Hi]%list_elem_of_lookup [j Hj]%list_elem_of_lookup Hp Hs Hps.
  pose proof rows_nodup as Hnd.
  rewrite <- Hslots in Hs. apply list_elem_of_lookup in Hs as [k Hk].
  assert (Hi' : (row_slot <$> rows) !! i = Some (row_slot rw)) by (by rewrite list_lookup_fmap, Hi).
  assert (Hj' : (row_slot <$> rows) !! j = Some (row_slot rw')) by (by rewrite list_lookup_fmap, Hj).
  assert (i = k) as <- by (by eapply concat_index). assert (Es : row_slot rw = s) by congruence.
  split; [done|]. split.
  - intros <-. exists p. done.
  - intros (q & Hq & Hq'). rewrite <- Es in Hq.
    assert (i = j) as <- by (by eapply (concat_index _ i j _ _ q Hnd)). congruence.
Qed.

Lemma row_by_name rw rw' : rw ∈ rows -> rw' ∈ rows -> rw.1 = rw'.1 -> rw = rw'.
Proof. by apply NoDup_fmap_elem. Qed.

Lemma together_in g ps : together r !! g = Some ps -> ps ∈ slots r.
Proof.
  intros Hg. destruct (slots_spec r Hv) as (_ & _ & _ & Ht).
  rewrite <- Ht in Hg. apply lookup_take_Some in Hg as [Hg _]. by eapply list_elem_of_lookup_2.
Qed.

Lemma cell_in_slot rw c : c ∈ rw.2 -> c_pos c ∈ row_slot rw.
Proof. intros Hc. apply list_elem_of_fmap. eauto. Qed.

Lemma rows_keep : keeps r (rows_others rows).
Proof.
  split.
  - rewrite rows_positions. apply rows_nodup.
  - intros o o' (rw & c & Hr & Hc & ->)%elem_of_rows (rw' & c' & Hr' & Hc' & ->)%elem_of_rows Hp Hd Hu.
    apply row_by_name in Hd as <-; [|done|done].
    rewrite (NoDup_fmap_elem c_unit rw.2 c c' (Hunits rw Hr) Hc Hc' Hu) in Hp. done.
  - intros o o' g (rw & c & Hr & Hc & ->)%elem_of_rows (rw' & c' & Hr' & Hc' & ->)%elem_of_rows Hp Hg.
    cbn [pos_of dom_of fst snd] in *. apply group_of_some in Hg as (ps & Hps & Hin).
    destruct (same_row rw rw' (c_pos c) ps Hr Hr' (cell_in_slot _ _ Hc) (together_in _ _ Hps) Hin) as [Es Hsame].
    pose proof (valid_distinct r Hv) as Hnd. split.
    + intros Hd. apply row_by_name in Hd as <-; [|done|done].
      apply (group_of_intro r g ps); [done|done|]. rewrite <- Es. by apply cell_in_slot.
    + intros (ps' & Hps' & Hin')%group_of_some. rewrite Hps in Hps'. injection Hps' as <-.
      by rewrite (proj2 Hsame) by (exists (c_pos c'); split; [done|by apply cell_in_slot]).
  - intros d. set (l := filter _ _). destruct l as [|o l'] eqn:El; [cbn; lia|].
    assert (Ho : o ∈ l) by (rewrite El; by left).
    apply list_elem_of_filter in Ho as [Hd (rw & c & Hr & Hc & ->)%elem_of_rows]. cbn [dom_of fst snd] in Hd.
    destruct (slots_spec r Hv) as (_ & _ & Hf & _). rewrite Forall_forall in Hf.
    destruct (Hf _ (row_slot_in rw Hr)) as [_ Hle]. etrans; [|exact Hle]. rewrite <- El, <- (length_fmap pos_of l).
    apply submseteq_length, NoDup_submseteq.
    + apply NoDup_fmap_filter. rewrite rows_positions. apply rows_nodup.
    + intros p (o & -> & [Hd' (rw' & c' & Hr' & Hc' & ->)%elem_of_rows]%list_elem_of_filter)%list_elem_of_fmap.
      cbn [dom_of pos_of fst snd] in *. rewrite (row_by_name rw rw') by congruence. by apply cell_in_slot.
Qed.

End rows_keep.

End spec.

End CopysetFill.
