(* ===== verification/CopysetPoolSpec.v ===== *)
(** * What the pool of copysets promises

    Theorems on [CopysetPool]: a pool is built exactly when the rule's slots
    fit in the topology's domains ([build_exact]); it is not empty, and each
    of its copysets keeps the rule, on active OSDs ([build_keeps_rule]). *)
From S2P Require Import Prelude Bytes F64 OrdMap Topology TopologySpec Crush Copyset CopysetSpec CopysetPool CopysetFill.
Import F64(f64) Topology Crush(UuidText, uuid_text) Copyset CopysetSpec CopysetPool CopysetFill.

Module CopysetPoolSpec.

Section spec.
Context {Ord : HashOrder} {Ut : UuidText} {Rg : Rng}.

(** ** Orders *)
Lemma insert_longest_perm x l : insert_longest x l ≡ₚ x :: l.
Proof.
  induction l as [|y l IH]; cbn [insert_longest]; [done|]. case_match; [|done].
  rewrite IH. apply Permutation_swap.
Qed.

Lemma longest_first_perm l : longest_first l ≡ₚ l.
Proof. induction l as [|x l IH]; [done|]. cbn. by rewrite insert_longest_perm, IH. Qed.

Lemma insert_longest_sorted x l : StronglySorted no_less (length <$> l) ->
  StronglySorted no_less (length <$> insert_longest x l).
Proof.
  induction l as [|y l IH]; cbn [insert_longest]; intros Hs; [by repeat constructor|].
  csimpl in Hs. inversion Hs as [|? ? Hl Hy]; subst.
  destruct (Nat.ltb_spec (length x) (length y)) as [Hlt|Hle]; csimpl; constructor.
  - by apply IH.
  - rewrite insert_longest_perm. csimpl. constructor; [unfold no_less; lia|done].
  - done.
  - constructor; [done|]. eapply Forall_impl; [exact Hy|]. unfold no_less. intros; lia.
Qed.

Lemma longest_first_sorted l : StronglySorted no_less (length <$> longest_first l).
Proof. induction l as [|x l IH]; [constructor|]. by apply insert_longest_sorted. Qed.

#[local] Instance no_less_trans : Transitive no_less.
Proof. unfold no_less. intros a b c. lia. Qed.
#[local] Instance no_less_total : Total no_less.
Proof. unfold no_less. intros a b. lia. Qed.
#[local] Instance no_less_antisymm : AntiSymm (=) no_less.
Proof. unfold no_less. intros a b. lia. Qed.

Lemma sort_down_sorted l : StronglySorted no_less (sort_down l).
Proof. apply StronglySorted_merge_sort; apply _. Qed.

Lemma sort_down_perm l : sort_down l ≡ₚ l.
Proof. apply merge_sort_Permutation. Qed.

Lemma sort_down_longest l : sort_down (length <$> l) = length <$> longest_first l.
Proof.
  apply (StronglySorted_unique no_less); [apply sort_down_sorted|apply longest_first_sorted|].
  by rewrite sort_down_perm, longest_first_perm.
Qed.

(** How many of [l] are at least [n]. *)
Definition count_ge (n : nat) (l : list nat) : nat := length (filter (fun x => (n <= x)%nat) l).

Lemma count_ge_perm n l l' : l ≡ₚ l' -> count_ge n l = count_ge n l'.
Proof. intros Hp. unfold count_ge. by rewrite Hp. Qed.

(** In a list sorted down, more than [j] are at least [n] exactly when the
    element at [j] is. *)
Lemma count_ge_sorted n l j : StronglySorted no_less l ->
  (j < count_ge n l)%nat <-> exists x, l !! j = Some x /\ (n <= x)%nat.
Proof.
  unfold count_ge. revert j. induction l as [|y l IH]; intros j Hs; [cbn; naive_solver lia|].
  inversion Hs as [|? ? Hl Hy]; subst. rewrite filter_cons. case_decide as Hn.
  - destruct j as [|j]; cbn [length lookup list_lookup]; [naive_solver lia|]. rewrite <- IH by done. lia.
  - assert (Hall : forall x, x ∈ y :: l -> (x < n)%nat).
    { intros x [->|Hx]%elem_of_cons; [lia|]. rewrite Forall_forall in Hy. specialize (Hy x Hx). unfold no_less in Hy. lia. }
    assert (filter (fun x => (n <= x)%nat) l = []) as ->.
    { destruct (filter _ l) as [|x k] eqn:E; [done|]. exfalso.
      assert (Hx : x ∈ filter (fun x => (n <= x)%nat) l) by (rewrite E; by left).
      apply list_elem_of_filter in Hx as [Hx1 Hx2]. specialize (Hall x ltac:(by right)). lia. }
    split; [cbn; lia|]. intros (x & Hx & Hnx). apply list_elem_of_lookup_2 in Hx. specialize (Hall x Hx). lia.
Qed.

(** ** A domain for each slot *)
Definition sizes (doms : list units) : list nat := size <$> doms.

Definition used_count (used : list bool) : nat := length (filter (fun b => b = true) used).

Lemma find_domain_none used : forall doms n, length used = length doms ->
  find_domain used doms n = None -> (count_ge n (sizes doms) <= used_count used)%nat.
Proof.
  unfold find_domain, count_ge, sizes, used_count.
  induction used as [|b used IH]; intros [|us doms] n Hlen; try done.
  rewrite fmap_None, list_find_None. cbn [zip zip_with]. intros Hf. inversion Hf as [|? ? Hb Hr]; subst.
  assert (IH' := IH doms n ltac:(cbn in Hlen; lia)).
  rewrite fmap_None, list_find_None in IH'. specialize (IH' Hr).
  csimpl. rewrite !filter_cons. cbn in Hb. repeat case_decide; cbn; try lia.
  exfalso. destruct b; naive_solver.
Qed.

Lemma used_count_insert used d : used !! d = Some false ->
  used_count (<[d := true]> used) = S (used_count used).
Proof.
  unfold used_count. revert d. induction used as [|b used IH]; intros [|d]; try done;
    cbn [lookup list_lookup insert list_insert].
  - intros [= ->]. by rewrite !filter_cons.
  - intros Hd. rewrite !filter_cons. case_decide; cbn [length]; by rewrite IH.
Qed.

(** ** The first sample succeeds *)
Definition fresh_coverage (coverage : gmap NodeId nat) : Prop := forall i, default 0%nat (coverage !! i) = 0%nat.

Lemma fresh_weight coverage i : fresh_coverage coverage -> weight_of coverage i = one.
Proof. intros Hc. unfold weight_of. rewrite Hc. by vm_compute. Qed.

Lemma fresh_sum coverage l : fresh_coverage coverage -> forall acc, F64.at_least 1 acc ->
  F64.at_least 1 (foldl F64.add acc (weight_of coverage <$> l)).
Proof.
  intros Hc. induction l as [|j l IH]; intros acc Ha; [done|]. rewrite fmap_cons, fresh_weight by done.
  apply (IH (F64.add acc one)). apply F64.add_at_least; [lia|done|]. apply F64.at_least_of_Z. lia.
Qed.

Lemma pick_weighted_some candidates coverage g : candidates <> [] -> fresh_coverage coverage ->
  exists i g', pick_weighted candidates coverage g = (Some i, g').
Proof.
  intros Hne Hc. unfold pick_weighted.
  assert (Ht : F64.leb (foldl F64.add zero (weight_of coverage <$> candidates)) zero = false).
  { destruct candidates as [|i l]; [done|]. rewrite fmap_cons, fresh_weight by done.
    apply (F64.at_least_positive 1), (fresh_sum coverage l Hc (F64.add zero one)).
    replace (F64.add zero one) with one by (by vm_compute). apply F64.at_least_of_Z. lia. }
  rewrite Ht. destruct (gen_f64 g) as [x g1]. destruct (pick_at _ _); [eauto|].
  destruct candidates; [done|]. cbn. eauto.
Qed.

Lemma pick_members_some slot : forall us coverage out g, Forall (fun ids => ids <> []) us ->
  fresh_coverage coverage -> Forall (fun p => (p < length out)%nat) slot ->
  exists out' g', pick_members slot us coverage out g = (Ok out', g') /\ length out' = length out.
Proof.
  induction slot as [|p slot IH]; intros us coverage out g Hus Hc Hp; [cbn; eauto|].
  destruct us as [|ids us]; [cbn; eauto|]. inversion Hus; inversion Hp; subst. cbn [pick_members].
  destruct (pick_weighted_some ids coverage g) as (i & g1 & ->); [done|done|].
  destruct (Nat.ltb_spec p (length out)); [|lia].
  destruct (IH us coverage (<[p := Some i]> out) g1) as (out' & g' & -> & Hl); [done|done|by rewrite length_insert|].
  rewrite length_insert in Hl. eauto.
Qed.

Lemma fill_slots_some doms order : (forall us ids, us ∈ doms -> ids ∈ btree_values us -> ids <> []) ->
  forall used coverage out g, length used = length doms -> fresh_coverage coverage ->
  Forall (fun p => (p < length out)%nat) (concat order) ->
  (forall j slot, order !! j = Some slot -> (used_count used + j < count_ge (length slot) (sizes doms))%nat) ->
  exists out' g', fill_slots order doms used coverage out g = (Ok out', g').
Proof.
  intros Hne. induction order as [|slot order IH]; intros used coverage out g Hlen Hc Hp Hcnt; [cbn; eauto|].
  cbn [fill_slots concat] in *. apply Forall_app in Hp as [Hp1 Hp2].
  destruct (find_domain used doms (length slot)) as [d|] eqn:Ed.
  2: { apply find_domain_none in Ed; [|done]. specialize (Hcnt 0%nat slot eq_refl). lia. }
  unfold find_domain in Ed. apply fmap_Some in Ed as ([d' [b us]] & Hf & ->).
  apply list_find_Some in Hf as (Hl & [Hb Hn] & _). cbn in Hb, Hn. subst b. cbn [fst].
  apply lookup_zip_with_Some in Hl as (b & us' & [= <- <-] & Hu & Hd). rewrite Hd. cbn [from_option].
  change (Datatypes.id us) with us.
  destruct (choose_multiple (btree_values us) (length slot) g) as [vs g1] eqn:Ec.
  pose proof (choose_multiple_length _ (btree_values us) (length slot) g) as Hvl.
  pose proof (choose_multiple_sub _ (btree_values us) (length slot) g) as Hsub. rewrite Ec in Hvl, Hsub. cbn in Hvl, Hsub.
  rewrite length_btree_values, Nat.min_l in Hvl by done. rewrite Hvl, Nat.eqb_refl. cbn [negb].
  destruct (pick_members_some slot vs coverage out g1) as (out1 & g2 & -> & Hl1); [|done|done|].
  { apply Forall_forall. intros ids Hi. apply (Hne us); [by eapply list_elem_of_lookup_2|]. by eapply elem_of_submseteq. }
  apply IH; [by rewrite length_insert|done|by rewrite Hl1|].
  intros j s Hs. rewrite used_count_insert by done. specialize (Hcnt (S j) s Hs). lia.
Qed.

(** ** The rows of a sample *)
Record sample_rows (r : PlacementRule) (groups : gmap string units) (cs : Copyset) (rows : list row) : Prop := {
  sr_slots : row_slot <$> rows ≡ₚ slots r;
  sr_domains : NoDup rows.*1;
  sr_units : forall rw, rw ∈ rows -> NoDup (c_unit <$> rw.2);
  sr_cells : forall rw c, rw ∈ rows -> c ∈ rw.2 ->
    osds cs !! c_pos c = Some (c_id c) /\
    exists ids, unit_at groups rw.1 (c_unit c) = Some ids /\ c_id c ∈ ids;
  sr_length : length (osds cs) = copy_count r;
}.

Lemma shuffled_domains (groups : gmap string units) g : exists doms,
  (shuffle (btree_values groups) g).1 = doms.*2 /\ doms ≡ₚ btree_iter groups.
Proof.
  destruct (perm_snd (btree_iter groups) (shuffle (btree_values groups) g).1) as (doms & Hp & E);
    [apply shuffle_perm|]. eauto.
Qed.

Lemma order_slots r : valid r -> concat (longest_first (slots r)) ≡ₚ seq 0 (copy_count r).
Proof. intros Hv. rewrite (concat_perm _ _ (longest_first_perm (slots r))). by apply slots_spec. Qed.

Lemma sample_copyset_rows r groups coverage g cs g' : valid r ->
  sample_copyset groups (slots r) (copy_count r) coverage g = (Ok cs, g') ->
  exists rows, sample_rows r groups cs rows.
Proof.
  intros Hv. unfold sample_copyset. destruct (shuffled_domains groups g) as (doms & Hd & Hp).
  destruct (shuffle _ _) as [ds g1]. cbn in Hd. subst ds.
  destruct (fill_slots _ _ _ _ _ _) as [[out| |] g2] eqn:E; cbn; try done.
  destruct (mapM _ out) as [l|] eqn:Em; [|done]. intros [= <- _].
  assert (Hnames : NoDup doms.*1) by (rewrite Hp; apply NoDup_btree_iter).
  destruct (fill_slots_spec doms _ Hnames _ _ _ _ _ _ ltac:(rewrite order_slots by done; apply NoDup_seq) E)
    as (rows & [F1 F2 F3 F4 F5 F6]).
  apply mapM_Some in Em. rewrite Forall_forall in F3. exists rows. split.
  - unfold row_slot. rewrite F1. apply longest_first_perm.
  - done.
  - intros rw (d & us & _ & _ & Hu & _)%F3. done.
  - intros rw c Hr Hc. split.
    + specialize (F4 rw Hr c Hc). destruct (Forall2_lookup_l _ _ _ _ _ Em F4) as (i & Hi & [= ->]). done.
    + destruct (F3 rw Hr) as (d & us & Hd & _ & _ & Hcell). destruct (Hcell c Hc) as (ids & Hids & Hin).
      exists ids. split; [|done]. unfold unit_at.
      assert (groups !! rw.1 = Some us) as ->; [|done].
      apply elem_of_btree_iter. rewrite <- Hp. by eapply list_elem_of_lookup_2.
  - cbn. apply Forall2_length in Em. rewrite length_replicate in F6. lia.
Qed.

(** ** The first sample succeeds, where the slots fit *)
Lemma feasible_count slots groups j s : feasible slots groups = true -> (length slots <= size groups)%nat ->
  longest_first slots !! j = Some s -> (j < count_ge (length s) (sizes (btree_values groups)))%nat.
Proof.
  unfold feasible. rewrite negb_true_iff, <- not_true_iff_false, existsb_exists, sort_down_longest.
  intros Hf Hlen Hs. set (have := sort_down _) in Hf.
  assert (Hhl : length have = size groups)
    by (unfold have; by rewrite sort_down_perm, length_fmap, length_btree_values).
  assert (j < length slots)%nat by (rewrite <- (longest_first_perm slots); by eapply lookup_lt_Some).
  destruct (lookup_lt_is_Some_2 have j) as [h Hh]; [lia|].
  rewrite <- (count_ge_perm _ _ _ (sort_down_perm (sizes (btree_values groups)))).
  apply count_ge_sorted; [apply sort_down_sorted|]. exists h. split; [exact Hh|].
  destruct (Nat.le_gt_cases (length s) h) as [|Hlt]; [done|]. exfalso. apply Hf.
  exists (length s, h). split; [|by apply Nat.ltb_lt]. apply list_elem_of_In.
  apply (list_elem_of_lookup_2 _ j). rewrite lookup_zip_with, list_lookup_fmap, Hs. cbn. by rewrite Hh.
Qed.

Lemma sizes_perm doms doms' : doms ≡ₚ doms' -> sizes doms ≡ₚ sizes doms'.
Proof. intros Hp. unfold sizes. by rewrite Hp. Qed.

Lemma sample_copyset_some t r coverage g : valid r -> feasible (slots r) (units_by_domain t r) = true ->
  (rule_domains r <= size (units_by_domain t r))%nat -> fresh_coverage coverage ->
  exists cs g', sample_copyset (units_by_domain t r) (slots r) (copy_count r) coverage g = (Ok cs, g').
Proof.
  intros Hv Hf Hn Hc. unfold sample_copyset. set (groups := units_by_domain t r) in *.
  destruct (shuffled_domains groups g) as (doms & Hd & Hp).
  destruct (shuffle _ _) as [ds g1]. cbn in Hd. subst ds.
  assert (Hpv : doms.*2 ≡ₚ btree_values groups) by (unfold btree_values; by rewrite Hp).
  destruct (fill_slots_some doms.*2 (longest_first (slots r))) with
    (used := replicate (length doms.*2) false) (coverage := coverage)
    (out := replicate (copy_count r) (@None NodeId)) (g := g1) as (out & g2 & E).
  - intros us ids Hus Hids. rewrite Hpv in Hus. apply list_elem_of_fmap in Hus as ([D us'] & -> & HD).
    apply list_elem_of_fmap in Hids as ([U ids'] & -> & HU). apply elem_of_btree_iter in HD, HU. cbn in HU.
    apply (unit_at_nonempty t r D U). unfold unit_at. fold groups. by rewrite HD.
  - by rewrite length_replicate.
  - done.
  - rewrite length_replicate. apply Forall_forall. intros p Hin. rewrite order_slots in Hin by done.
    apply elem_of_seq in Hin. lia.
  - intros j s Hs. assert (used_count (replicate (length doms.*2) false) = 0%nat) as ->.
    { unfold used_count. generalize (length doms.*2) as n. by induction n. }
    rewrite (count_ge_perm _ _ _ (sizes_perm _ _ Hpv)). cbn. eapply feasible_count; [done| |done].
    by destruct (slots_spec r Hv) as (_ & -> & _).
  - rewrite E. cbn.
    assert (Hnames : NoDup doms.*1) by (rewrite Hp; apply NoDup_btree_iter).
    destruct (fill_slots_spec doms _ Hnames _ _ _ _ _ _ ltac:(rewrite order_slots by done; apply NoDup_seq) E)
      as (rows & [F1 F2 F3 F4 F5 F6]).
    destruct (mapM _ out) as [l|] eqn:Em; [eauto|exfalso].
    apply mapM_None in Em. apply Exists_exists in Em as (o & [p Hpo]%list_elem_of_lookup & ->).
    assert (Hpc : p ∈ concat (longest_first (slots r))).
    { rewrite order_slots by done. apply elem_of_seq. rewrite length_replicate in F6.
      apply lookup_lt_Some in Hpo. lia. }
    rewrite <- F1 in Hpc. apply elem_of_concat in Hpc as (s & (rw & -> & Hr)%list_elem_of_fmap & Hs).
    apply list_elem_of_fmap in Hs as (c & -> & Hcell). specialize (F4 rw Hr c Hcell). congruence.
Qed.

(** ** Copysets keep the rule *)
Definition where_is (r : PlacementRule) (n : NodeInfo) : string * string :=
  (domain_name n (level r), unit_name n r).

Definition members_others (r : PlacementRule) (ns : list NodeInfo) : list other :=
  imap (fun p n => (p, domain_name n (level r), unit_name n r)) ns.

(** A copyset's members are active nodes, one for each position, that keep
    the rule and are in as many domains as it says. *)
Record keeps_rule (t : ClusterTopology) (r : PlacementRule) (cs : Copyset) (ns : list NodeInfo) : Prop := {
  kr_osds : osds cs = id <$> ns;
  kr_length : length ns = copy_count r;
  kr_active : forall n, n ∈ ns -> n ∈ active_nodes t;
  kr_keeps : keeps r (members_others r ns);
  kr_domains : size (list_to_set ((fun n => domain_name n (level r)) <$> ns) : gset string) = rule_domains r;
}.

Lemma list_choice {A} (P : nat -> A -> Prop) n : (forall p, (p < n)%nat -> exists x, P p x) ->
  exists l, length l = n /\ forall p x, l !! p = Some x -> P p x.
Proof.
  induction n as [|n IH]; intros H; [by exists []|]. destruct IH as (l & Hl & Hp); [intros; apply H; lia|].
  destruct (H n) as [x Hx]; [lia|]. exists (l ++ [x]). split; [rewrite length_app; cbn; lia|].
  intros p y [Hy|[Hlen Hy]]%lookup_app_Some; [by apply Hp|].
  destruct (p - length l)%nat as [|k] eqn:E; [|by destruct k]. injection Hy as <-.
  by replace p with n by lia.
Qed.

Lemma rows_length r rows : valid r -> row_slot <$> rows ≡ₚ slots r -> length (rows_others rows) = copy_count r.
Proof.
  intros Hv Hs. rewrite <- (length_fmap pos_of), rows_positions, (concat_perm _ _ Hs).
  destruct (slots_spec r Hv) as (-> & _). apply length_seq.
Qed.

Lemma members_rows r rows ns : valid r -> row_slot <$> rows ≡ₚ slots r -> length ns = copy_count r ->
  (forall p n, ns !! p = Some n -> (p, domain_name n (level r), unit_name n r) ∈ rows_others rows) ->
  members_others r ns ≡ₚ rows_others rows.
Proof.
  intros Hv Hs Hlen Hin.
  assert (Hpos : pos_of <$> members_others r ns = seq 0 (copy_count r)).
  { unfold members_others. rewrite <- Hlen. apply list_eq. intros p.
    rewrite list_lookup_fmap, list_lookup_imap. destruct (ns !! p) as [n|] eqn:E; cbn.
    - symmetry. apply lookup_seq. split; [done|by eapply lookup_lt_Some].
    - symmetry. apply lookup_seq_ge. by apply lookup_ge_None. }
  assert (Hsub : members_others r ns ⊆+ rows_others rows).
  { apply NoDup_submseteq; [eapply NoDup_fmap_1; rewrite Hpos; apply NoDup_seq|].
    intros o [p Ho]%list_elem_of_lookup. unfold members_others in Ho.
    rewrite list_lookup_imap in Ho. apply fmap_Some in Ho as (n & Hn & ->). by apply Hin. }
  apply submseteq_length_Permutation; [done|].
  unfold members_others. rewrite (rows_length r rows Hv Hs), length_imap. lia.
Qed.

Lemma rows_domains rows : (forall rw, rw ∈ rows -> rw.2 <> []) -> NoDup rows.*1 ->
  size (list_to_set (dom_of <$> rows_others rows) : gset string) = length rows.
Proof.
  intros Hne Hnd. rewrite <- (length_fmap fst rows), <- (size_list_to_set (C := gset string) rows.*1 Hnd).
  f_equal. apply set_eq. intros d. rewrite !elem_of_list_to_set, !list_elem_of_fmap. split.
  - intros (o & -> & (rw & c & Hr & _ & ->)%elem_of_rows). exists rw. done.
  - intros (rw & -> & Hr). destruct rw as [D [|c cs]]; [by specialize (Hne _ Hr)|].
    exists (c_pos c, D, c_unit c). split; [done|]. apply elem_of_rows. exists (D, c :: cs), c. split_and!; [done|by left|done].
Qed.

Lemma rows_keeps_rule t r cs rows : valid r -> sample_rows r (units_by_domain t r) cs rows ->
  exists ns, keeps_rule t r cs ns.
Proof.
  intros Hv [S1 S2 S3 S4 S5].
  assert (Hkeep : keeps r (rows_others rows)) by (by apply rows_keep).
  destruct (list_choice (fun p n => osds cs !! p = Some (id n) /\ n ∈ active_nodes t /\
    (p, domain_name n (level r), unit_name n r) ∈ rows_others rows) (copy_count r)) as (ns & Hlen & Hns).
  { intros p Hp. assert (Hin : p ∈ concat (row_slot <$> rows)).
    { rewrite (concat_perm _ _ S1). destruct (slots_spec r Hv) as (-> & _). apply elem_of_seq. lia. }
    apply elem_of_concat in Hin as (s & (rw & -> & Hr)%list_elem_of_fmap & (c & -> & Hc)%list_elem_of_fmap).
    destruct (S4 rw c Hr Hc) as (Ho & ids & Hids & Hi).
    destruct (unit_at_nodes t r _ _ _ _ Hids Hi) as (n & Hn & Hid & Hd & Hu).
    exists n. rewrite Hd, Hu, Hid. split_and!; [done|done|]. apply elem_of_rows. eauto 6. }
  assert (Hperm : members_others r ns ≡ₚ rows_others rows) by (apply members_rows; [done|done|done|naive_solver]).
  exists ns. split.
  - apply list_eq. intros p. rewrite list_lookup_fmap. destruct (ns !! p) as [n|] eqn:E; cbn; [by apply Hns|].
    apply lookup_ge_None. apply lookup_ge_None in E. lia.
  - done.
  - intros n [p Hp]%list_elem_of_lookup. by apply Hns in Hp as (_ & ? & _).
  - by eapply keeps_perm.
  - replace ((fun n => domain_name n (level r)) <$> ns) with (dom_of <$> members_others r ns).
    2: { unfold members_others. apply list_eq. intros p. rewrite !list_lookup_fmap, list_lookup_imap.
         by destruct (ns !! p). }
    assert (list_to_set (dom_of <$> members_others r ns) = (list_to_set (dom_of <$> rows_others rows) : gset string)) as ->
      by (apply set_eq; intros d; rewrite !elem_of_list_to_set; by rewrite Hperm).
    rewrite rows_domains; [|intros rw Hr|done].
    + rewrite <- (length_fmap row_slot), S1. by apply slots_spec.
    + destruct (slots_spec r Hv) as (_ & _ & Hf & _). rewrite Forall_forall in Hf.
      destruct (Hf (row_slot rw)) as [Hn _]; [rewrite <- S1; apply list_elem_of_fmap; eauto|].
      intros E. apply Hn. unfold row_slot. by rewrite E.
Qed.

(** ** Slots that fit *)
Definition fits (slots : list (list nat)) (groups : gmap string units) : Prop :=
  exists ds, NoDup ds /\
    Forall2 (fun s d => exists us, groups !! d = Some us /\ (length s <= size us)%nat) slots ds.

Lemma fits_count slots groups n : fits slots groups ->
  (count_ge n (length <$> slots) <= count_ge n (sizes (btree_values groups)))%nat.
Proof.
  intros (ds & Hnd & Hf). set (big d := (n <= size (default ∅ (groups !! d)))%nat).
  assert (count_ge n (length <$> slots) <= length (filter big ds))%nat as H1.
  { unfold count_ge. clear Hnd. induction Hf as [|s d slots ds (us & Hd & Hs) _ IH]; [done|].
    assert (Hb : big d <-> (n <= size us)%nat) by (unfold big; by rewrite Hd).
    rewrite fmap_cons, !filter_cons. destruct (decide (n <= length s)%nat), (decide (big d)); cbn [length]; try lia.
    exfalso. rewrite Hb in *. lia. }
  etrans; [exact H1|]. rewrite (count_ge_perm n _ ((fun p : string * units => size p.2) <$> map_to_list groups)).
  2: { unfold sizes, btree_values. rewrite <- list_fmap_compose. by rewrite btree_iter_perm. }
  unfold count_ge. etrans; [|apply Nat.eq_le_incl; symmetry; apply (filter_fmap_length (fun x => (n <= x)%nat))].
  rewrite <- (length_fmap fst (filter _ (map_to_list groups))).
  apply submseteq_length, NoDup_submseteq; [by apply NoDup_filter|].
  intros d [Hb [i Hi]%list_elem_of_lookup]%list_elem_of_filter.
  destruct (Forall2_lookup_r _ _ _ _ _ Hf Hi) as (s & _ & us & Hd & _).
  apply list_elem_of_fmap. exists (d, us). split; [done|]. apply list_elem_of_filter.
  rewrite elem_of_map_to_list. split; [|done]. unfold big in Hb. by rewrite Hd in Hb.
Qed.

Lemma fits_feasible slots groups : fits slots groups ->
  feasible slots groups = true /\ (length slots <= size groups)%nat.
Proof.
  intros Hfit. split.
  - unfold feasible. apply negb_true_iff, not_true_iff_false. rewrite existsb_exists.
    intros ([n h] & [j Hj]%list_elem_of_In%list_elem_of_lookup & Hlt%Nat.ltb_lt). cbn in Hlt.
    apply lookup_zip_with_Some in Hj as (n' & h' & [= <- <-] & Hn & Hh).
    assert (j < count_ge n (sort_down (length <$> slots)))%nat as H1
      by (apply count_ge_sorted; [apply sort_down_sorted|eauto]).
    assert (~ (j < count_ge n (sort_down (sizes (btree_values groups)))))%nat as H2.
    { rewrite count_ge_sorted by apply sort_down_sorted. intros (x & Hx & Hnx).
      unfold sizes in Hx. rewrite Hh in Hx. injection Hx as <-. lia. }
    rewrite (count_ge_perm _ _ _ (sort_down_perm _)) in H1.
    rewrite (count_ge_perm _ _ _ (sort_down_perm _)) in H2. pose proof (fits_count slots groups n Hfit). lia.
  - destruct Hfit as (ds & Hnd & Hf). rewrite (Forall2_length _ _ _ Hf), <- length_map_to_list.
    rewrite <- (length_fmap fst (map_to_list groups)). apply submseteq_length, NoDup_submseteq; [done|].
    intros d [i Hi]%list_elem_of_lookup. destruct (Forall2_lookup_r _ _ _ _ _ Hf Hi) as (s & _ & us & Hd & _).
    apply list_elem_of_fmap. exists (d, us). by rewrite elem_of_map_to_list.
Qed.

Lemma row_fits r groups cs rows rw : valid r -> sample_rows r groups cs rows -> rw ∈ rows ->
  exists us, groups !! rw.1 = Some us /\ (length (row_slot rw) <= size us)%nat.
Proof.
  intros Hv [S1 S2 S3 S4 S5] Hr. unfold row_slot. rewrite length_fmap.
  destruct (slots_spec r Hv) as (_ & _ & Hf & _). rewrite Forall_forall in Hf.
  destruct (Hf (row_slot rw)) as [Hn _]; [rewrite <- S1; apply list_elem_of_fmap; eauto|].
  destruct rw.2 as [|c cs'] eqn:Ec; [by unfold row_slot in Hn; rewrite Ec in Hn|].
  destruct (S4 rw c Hr ltac:(rewrite Ec; by left)) as (_ & ids & Hu & _). unfold unit_at in Hu.
  destruct (groups !! rw.1) as [us|] eqn:Eg; [|done]. exists us. split; [done|].
  rewrite <- Ec, <- (length_fmap c_unit), <- length_map_to_list, <- (length_fmap fst (map_to_list us)).
  apply submseteq_length, NoDup_submseteq; [by apply S3|].
  intros u (c' & -> & Hc')%list_elem_of_fmap. destruct (S4 rw c' Hr Hc') as (_ & ids' & Hu' & _).
  unfold unit_at in Hu'. rewrite Eg in Hu'. apply list_elem_of_fmap. exists (c_unit c', ids').
  by rewrite elem_of_map_to_list.
Qed.

Lemma rows_fit r groups cs rows : valid r -> sample_rows r groups cs rows -> fits (slots r) groups.
Proof.
  intros Hv Hs. assert (Hrows : Forall2 (fun s d => exists us, groups !! d = Some us /\ (length s <= size us)%nat)
    (row_slot <$> rows) rows.*1).
  { apply Forall2_fmap, Forall_Forall2_diag, Forall_forall. intros rw Hr. by eapply row_fits. }
  destruct (Permutation_Forall2 (sr_slots _ _ _ _ Hs) Hrows) as (ds & Hp & Hf). exists ds.
  split; [|done]. rewrite <- Hp. by eapply sr_domains.
Qed.

Lemma fits_iff t r : valid r -> fits (slots r) (units_by_domain t r) <->
  feasible (slots r) (units_by_domain t r) = true /\ (rule_domains r <= size (units_by_domain t r))%nat.
Proof.
  intros Hv. split.
  - intros [Hf Hn]%fits_feasible. split; [done|]. by destruct (slots_spec r Hv) as (_ & <- & _).
  - intros [Hf Hn]. destruct (sample_copyset_some t r ∅ (seed_from_u64 0) Hv Hf Hn) as (cs & g' & E);
      [intros i; by rewrite lookup_empty|].
    destruct (sample_copyset_rows _ _ _ _ _ _ Hv E) as [rows Hs]. by eapply rows_fit.
Qed.

(** ** The loop *)
Lemma pick_members_range slot : forall us coverage out g, Forall (fun p => (p < length out)%nat) slot ->
  match (pick_members slot us coverage out g).1 with
  | Ok out' => length out' = length out
  | Err _ => True
  | Panic => False
  end.
Proof.
  induction slot as [|p slot IH]; intros us coverage out g Hp; [done|].
  destruct us as [|ids us]; [done|]. inversion Hp; subst. cbn [pick_members].
  destruct (pick_weighted ids coverage g) as [[i|] g1]; [|done].
  destruct (Nat.ltb_spec p (length out)); [|lia]. rewrite <- (length_insert out p (Some i)).
  apply IH. by rewrite length_insert.
Qed.

Lemma fill_slots_no_panic order : forall doms used coverage out g,
  Forall (fun p => (p < length out)%nat) (concat order) ->
  (fill_slots order doms used coverage out g).1 <> Panic.
Proof.
  induction order as [|slot order IH]; intros doms used coverage out g Hp; [done|].
  cbn [fill_slots concat] in *. apply Forall_app in Hp as [Hp1 Hp2].
  destruct (find_domain _ _ _) as [d|]; [|done]. destruct (choose_multiple _ _ _) as [vs g1].
  destruct (negb _); [done|]. pose proof (pick_members_range slot vs coverage out g1 Hp1) as Hr.
  destruct (pick_members _ _ _ _ _) as [[out1| |] g2]; cbn in Hr; [|done|done].
  apply IH. by rewrite Hr.
Qed.

Lemma sample_no_panic r groups coverage g : valid r ->
  (sample_copyset groups (slots r) (copy_count r) coverage g).1 <> Panic.
Proof.
  intros Hv. unfold sample_copyset. destruct (shuffle _ _) as [ds g1].
  destruct (fill_slots _ _ _ _ _ _) as [res g2] eqn:E.
  assert (Hnp : res <> Panic).
  { change res with (res, g2).1. rewrite <- E. apply fill_slots_no_panic. rewrite length_replicate.
    apply Forall_forall. intros p Hin. rewrite order_slots in Hin by done. apply elem_of_seq in Hin. lia. }
  cbn. destruct res as [out| |]; cbn; [by destruct (mapM _ out)|done|done].
Qed.

(** What came out of the sampler. *)
Definition sampled_from (r : PlacementRule) (groups : gmap string units) (cs : Copyset) : Prop :=
  exists coverage g g', sample_copyset groups (slots r) (copy_count r) coverage g = (Ok cs, g').

Lemma attempt_ok r groups b : valid r -> exists b', attempt groups (slots r) (copy_count r) b = Ok b' /\
  (b_sets b' = b_sets b \/ exists cs, b_sets b' = b_sets b ++ [cs] /\ sampled_from r groups cs).
Proof.
  intros Hv. unfold attempt. pose proof (sample_no_panic r groups (b_coverage b) (b_rng b) Hv) as Hnp.
  destruct (sample_copyset _ _ _ _ _) as [[cs|e|] g] eqn:E; cbn in Hnp; [|by eauto|done].
  case_bool_decide; [by eauto|]. eexists. split; [done|]. right. exists cs. split; [done|].
  do 3 eexists. exact E.
Qed.

Lemma attempts_ok r groups target sw budget : valid r -> forall b,
  exists b', attempts budget groups (slots r) (copy_count r) target sw b = Ok b' /\
  exists new, b_sets b' = b_sets b ++ new /\ Forall (sampled_from r groups) new.
Proof.
  intros Hv. induction budget as [|budget IH]; intros b; cbn [attempts].
  { exists b. split; [done|]. exists []. by rewrite app_nil_r. }
  destruct (wants_more target sw b); [|exists b; split; [done|]; exists []; by rewrite app_nil_r].
  destruct (attempt_ok r groups b Hv) as (b1 & -> & Hb1). cbn [mbind outcome_bind].
  destruct (IH b1) as (b' & -> & new & Hn & Hf). exists b'. split; [done|].
  destruct Hb1 as [E|(cs & E & Hcs)]; rewrite E in Hn; [by exists new|].
  exists (cs :: new). split; [by rewrite Hn, <- app_assoc|by constructor].
Qed.

Lemma fresh_initial l : fresh_coverage (list_to_map ((fun i => (i, 0%nat)) <$> l)).
Proof.
  intros i. destruct (_ !! i) as [n|] eqn:E; [|done]. cbn. apply elem_of_list_to_map_2 in E.
  apply list_elem_of_fmap in E as (j & [= _ ->] & _). done.
Qed.

(** The pool from the first attempt on: what is sampled first is in it. *)
Lemma pool_built t r sw g target budget cov : valid r ->
  feasible (slots r) (units_by_domain t r) = true -> (rule_domains r <= size (units_by_domain t r))%nat ->
  fresh_coverage cov -> (0 < target)%nat -> (0 < budget)%nat ->
  exists b, attempts budget (units_by_domain t r) (slots r) (copy_count r) target sw (mkBuild [] cov [] g) = Ok b /\
    b_sets b <> [] /\ Forall (sampled_from r (units_by_domain t r)) (b_sets b).
Proof.
  intros Hv Hf Hn Hc Ht Hb. destruct budget as [|budget]; [lia|]. cbn [attempts].
  assert (wants_more target sw (mkBuild [] cov [] g) = true) as ->.
  { unfold wants_more. cbn [b_sets length]. by destruct (Nat.ltb_spec 0 target); [|lia]. }
  unfold attempt. cbn [b_coverage b_rng b_seen b_sets].
  destruct (sample_copyset_some t r cov g Hv Hf Hn Hc) as (cs & g' & E). rewrite E.
  rewrite bool_decide_eq_false_2 by apply not_elem_of_nil. cbn [mbind outcome_bind app].
  edestruct (attempts_ok r (units_by_domain t r) target sw budget Hv) as (b & -> & new & Hs & Hnew).
  exists b. split; [done|]. cbn [b_sets] in Hs. rewrite Hs. split; [done|]. constructor; [|done].
  do 3 eexists. exact E.
Qed.

Lemma rule_domains_pos r : valid r -> (0 < rule_domains r)%nat.
Proof.
  intros Hv. destruct (slots_spec r Hv) as (Hp & <- & _). destruct (slots r); [|cbn; lia].
  cbn in Hp. apply Permutation_nil_l in Hp. pose proof (valid_copies r Hv). destruct (copy_count r); [lia|done].
Qed.

(** Building, once the rule is valid. *)
Lemma build_cases t r sw seed : valid r -> validate r = Ok () ->
  (fits (slots r) (units_by_domain t r) /\ exists p, build_with_rule t r sw seed = Ok p /\
    pool_copy_count p = copy_count r /\ sets p <> [] /\ Forall (sampled_from r (units_by_domain t r)) (sets p)) \/
  (~ fits (slots r) (units_by_domain t r) /\ exists e, build_with_rule t r sw seed = Err e).
Proof.
  intros Hv Eval. rewrite fits_iff by done. unfold build_with_rule. rewrite Eval. cbn [mbind outcome_bind].
  set (groups := units_by_domain t r). pose proof (rule_domains_pos r Hv).
  case_bool_decide as He.
  { right. split; [|by eexists]. rewrite He, map_size_empty. lia. }
  destruct (Nat.ltb_spec (size groups) (rule_domains r)) as [Hn|Hn].
  { right. split; [lia|by eexists]. }
  destruct (feasible (slots r) groups) eqn:Ef; cbn [negb]; [|right; split; [naive_solver|by eexists]].
  left. split; [done|]. set (target := target_pool_size _ _ _).
  assert (0 < target)%nat by (unfold target, target_pool_size; lia).
  destruct (pool_built t r sw (seed_from_u64 seed) target (attempt_budget target)
    (list_to_map ((fun i => (i, 0%nat)) <$> all_osds groups)) Hv Ef Hn) as (b & E & Hne & Hf);
    [apply fresh_initial|done|unfold attempt_budget; lia|].
  fold groups in E. rewrite E. cbn [mbind outcome_bind]. eexists. split; [done|]. done.
Qed.

Lemma validate_no_panic r : validate r <> Panic.
Proof.
  assert (Hp : forall copies g seen, check_positions copies g seen <> Panic).
  { intros copies g. induction g as [|p g IH]; intros seen; [done|]. cbn. case_match; [done|]. apply IH. }
  assert (Hg : forall copies per gs seen, check_groups copies per gs seen <> Panic).
  { intros copies per gs. induction gs as [|g gs IH]; intros seen; [done|]. cbn [check_groups].
    case_bool_decide; [done|]. specialize (Hp copies g seen).
    destruct (check_positions _ _ _); [cbn [mbind outcome_bind]|done|done]. case_match; [done|]. apply IH. }
  unfold validate. do 3 (case_match; [done|]). specialize (Hg (copy_count r) (per_domain r) (together r) []).
  destruct (check_groups _ _ _ _); [cbn [mbind outcome_bind]|done|done]. repeat (case_match; try done).
Qed.

Lemma NoDup_fmap_lookup {A B} (f : A -> B) l :
  (forall i j x y, l !! i = Some x -> l !! j = Some y -> f x = f y -> i = j) -> NoDup (f <$> l).
Proof.
  intros H. apply NoDup_alt. intros i j b Hi Hj.
  apply list_lookup_fmap_Some in Hi as (x & -> & Hx). apply list_lookup_fmap_Some in Hj as (y & Hy & Hj).
  by eapply H.
Qed.

(** C37. A pool is built exactly when the rule is valid and its slots fit: there
    are distinct domains, one for each slot, with as many units as the slot
    has positions. Otherwise an error is returned; building never panics. *)
Theorem build_exact t r sw seed :
  ((exists p, build_with_rule t r sw seed = Ok p) <->
    validate r = Ok () /\ fits (slots r) (units_by_domain t r)) /\
  build_with_rule t r sw seed <> Panic.
Proof.
  destruct (validate r) as [[]|e|] eqn:Eval.
  - destruct (build_cases t r sw seed (validate_valid r Eval) Eval) as [[Hfit (p & -> & _)]|[Hno (e & ->)]];
      (split; [|done]); split; try naive_solver.
  - unfold build_with_rule. rewrite Eval. split; [|done]. split; [by intros [? ?]|by intros [? _]].
  - exfalso. revert Eval. apply validate_no_panic.
Qed.

(** What a pool that is built holds. *)
Lemma pool_sets t r sw seed p : build_with_rule t r sw seed = Ok p ->
  sets p <> [] /\ forall cs, cs ∈ sets p -> exists ns, keeps_rule t r cs ns.
Proof.
  intros Hb. destruct (validate r) as [[]|e|] eqn:Eval;
    [|unfold build_with_rule in Hb; by rewrite Eval in Hb..].
  pose proof (validate_valid r Eval) as Hv.
  destruct (build_cases t r sw seed Hv Eval) as [[_ (p' & Hp & _ & Hne & Hf)]|[_ (e & He)]]; [|congruence].
  rewrite Hb in Hp. injection Hp as <-. split; [done|]. intros cs Hcs. rewrite Forall_forall in Hf.
  destruct (Hf cs Hcs) as (cov & g & g' & E). destruct (sample_copyset_rows _ _ _ _ _ _ Hv E) as [rows Hs].
  by eapply rows_keeps_rule.
Qed.

Lemma keeps_rule_apart t r cs ns : keeps_rule t r cs ns -> NoDup (id <$> active_nodes t) -> NoDup (osds cs).
Proof.
  intros Hk Hids. rewrite (kr_osds _ _ _ _ Hk). apply NoDup_fmap_lookup. intros i j ni nj Hi Hj Hid.
  assert (ni = nj) as <- by (eapply (NoDup_fmap_elem id (active_nodes t)); [done| | |done];
    eapply (kr_active _ _ _ _ Hk), list_elem_of_lookup_2; done).
  destruct (decide (i = j)) as [|Hij]; [done|]. exfalso.
  apply (keeps_units r _ (kr_keeps _ _ _ _ Hk) (i, domain_name ni (level r), unit_name ni r)
    (j, domain_name ni (level r), unit_name ni r)); [| |done|done|done];
    apply list_elem_of_lookup; [exists i|exists j]; unfold members_others; rewrite list_lookup_imap, ?Hi, ?Hj; done.
Qed.

(** C18. A pool that is built has a copyset, and each of its copysets keeps the
    rule: as many members as the rule has positions, active, in as many
    domains as it says, no domain above its limit, each group alone in one
    domain, no two members of a domain on one host; and, if the topology has
    each active OSD once, no OSD at two positions (one that moved is in the
    topology twice and may be drawn twice). *)
Theorem build_keeps_rule t r sw seed p : build_with_rule t r sw seed = Ok p ->
  sets p <> [] /\ forall cs, cs ∈ sets p ->
    (exists ns, keeps_rule t r cs ns) /\ (NoDup (id <$> active_nodes t) -> NoDup (osds cs)).
Proof.
  intros [Hne Hcs]%pool_sets. split; [done|]. intros cs [ns Hk]%Hcs. split; [by exists ns|]. intros Hids. by eapply keeps_rule_apart.
Qed.

End spec.

(** ** Examples *)
Definition plain_text : UuidText := of_bytes.

Definition host_in (i : byte) (rack : string) : NodeInfo :=
  TopologySpec.node_in i rack (of_bytes [i]) Active.

(** Racks of four, four and two hosts. *)
Definition ten_hosts : ClusterTopology := foldr upsert_node new
  [host_in Byte.x61 "r1"; host_in Byte.x62 "r1"; host_in Byte.x63 "r1"; host_in Byte.x64 "r1";
   host_in Byte.x65 "r2"; host_in Byte.x66 "r2"; host_in Byte.x67 "r2"; host_in Byte.x68 "r2";
   host_in Byte.x69 "r3"; host_in Byte.x6a "r3"].

Definition build_on (t : ClusterTopology) (r : PlacementRule) : outcome CopysetError CopysetPool :=
  @build_with_rule entry_order plain_text first_rng t r 1 7.

Definition ten_pool : CopysetPool :=
  Eval vm_compute in match build_on ten_hosts lrc_rule with Ok p => p | _ => mkPool Rack 0 [] end.

Lemma build_keeps_rule_witness : build_on ten_hosts lrc_rule = Ok ten_pool /\ length (sets ten_pool) = 1%nat /\
  sets ten_pool <> [] /\ forall cs, cs ∈ sets ten_pool -> NoDup (osds cs).
Proof.
  assert (E : build_on ten_hosts lrc_rule = Ok ten_pool) by (by vm_compute). split; [exact E|]. split; [done|].
  destruct (@build_keeps_rule entry_order plain_text first_rng ten_hosts lrc_rule 1 7 ten_pool E) as [Hne Hcs].
  split; [exact Hne|]. intros cs Hin. apply (proj2 (Hcs cs Hin)), (bool_decide_unpack _). by vm_compute.
Defined.

(** Two racks, of three hosts and of one: four copies over two racks, three
    at most in one, are refused, though three in the first rack and one in
    the second keep the rule in two domains. *)
Definition uneven : ClusterTopology := foldr upsert_node new
  [host_in Byte.x61 "r1"; host_in Byte.x62 "r1"; host_in Byte.x63 "r1"; host_in Byte.x64 "r2"].
Definition two_of_three : PlacementRule := mkRule Rack 4 2 3 [].

Lemma uneven_refused_though_kept :
  build_on uneven two_of_three = Err (Infeasible [2; 2]%nat [3; 1]%nat) /\
  keeps two_of_three [(0%nat, "r1", "a"); (1%nat, "r1", "b"); (2%nat, "r1", "c"); (3%nat, "r2", "d")].
Proof.
  split; [by vm_compute|]. split.
  - apply (bool_decide_unpack _). by vm_compute.
  - intros o o' Ho Ho'. set_unfold in Ho. set_unfold in Ho'. naive_solver.
  - intros o o' g _ _ _ Hg. done.
  - intros d. do 4 (rewrite filter_cons; case_decide). all: cbn in *; subst; try done; cbn; lia.
Qed.

(** An OSD that moved from one rack to another is in both, and a copyset
    over two racks holds it twice. *)
Definition moved_osd : ClusterTopology :=
  upsert_node (host_in Byte.x61 "r2") (upsert_node (host_in Byte.x61 "r1") new).

Lemma moved_osd_twice : build_on moved_osd (spread Rack 2) =
  Ok (mkPool Rack 2 [new_copyset [[Byte.x61]; [Byte.x61]]]).
Proof. by vm_compute. Qed.

End CopysetPoolSpec.
