(* ===== verification/CopysetShuffle.v ===== *)
(** * Shuffling the members of a placement group

    [PlacementRule::shuffle] of crates/placement/src/copyset.rs: groups of
    one size trade places, members of a group change places inside it, the
    others among themselves. The theorem: members that keep the rule keep it
    shuffled, and are the same members ([shuffle_keeps_rule]). *)
From S2P Require Import Prelude Bytes F64 Topology Crush Copyset CopysetSpec CopysetPool CopysetFill.
Import Topology Copyset CopysetSpec CopysetPool.

Module CopysetShuffle.

(** ** [BTreeMap<usize, Vec<usize>>]: the groups of each size *)
Fixpoint push_len (len i : nat) (m : list (nat * list nat)) : list (nat * list nat) :=
  match m with
  | [] => [(len, [i])]
  | (l, idxs) :: m' =>
      if Nat.ltb len l then (len, [i]) :: m
      else if Nat.eqb len l then (l, idxs ++ [i]) :: m'
      else (l, idxs) :: push_len len i m'
  end.

Definition by_len (gs : list (list nat)) : list (nat * list nat) :=
  foldl (fun m p => push_len (length p.2) p.1 m) [] (imap pair gs).

Section shuffle.
Context `{Rng} {A : Type}.

(** [for (p, m) in ps.iter().zip(ms) { members[*p] = m }]. *)
Fixpoint put_all (ps : list nat) (ms members : list A) : outcome () (list A) :=
  match ps, ms with
  | p :: ps, m :: ms =>
      if Nat.ltb p (length members) then put_all ps ms (<[p := m]> members) else Panic
  | _, _ => Ok members
  end.

(** The group at [from], shuffled, in the places of the group at [to_]. *)
Definition swap_group (gs : list (list nat)) (original : list A) (to_ from : nat) (members : list A) (g : rng) :
    outcome () (list A) * rng :=
  match gs !! from ≫= mapM (fun p => original !! p), gs !! to_ with
  | Some group, Some ps =>
      let '(group, g) := shuffle group g in (put_all ps group members, g)
  | _, _ => (Panic, g)
  end.

Fixpoint swap_groups (gs : list (list nat)) (original : list A) (pairs : list (nat * nat))
    (members : list A) (g : rng) : outcome () (list A) * rng :=
  match pairs with
  | [] => (Ok members, g)
  | (to_, from) :: pairs =>
      let '(res, g) := swap_group gs original to_ from members g in
      match res with
      | Ok members => swap_groups gs original pairs members g
      | Err e => (Err e, g)
      | Panic => (Panic, g)
      end
  end.

Fixpoint swap_sizes (gs : list (list nat)) (original : list A) (classes : list (list nat))
    (members : list A) (g : rng) : outcome () (list A) * rng :=
  match classes with
  | [] => (Ok members, g)
  | idxs :: classes =>
      let '(order, g) := shuffle idxs g in
      let '(res, g) := swap_groups gs original (zip idxs order) members g in
      match res with
      | Ok members => swap_sizes gs original classes members g
      | Err e => (Err e, g)
      | Panic => (Panic, g)
      end
  end.

Definition rule_shuffle (r : PlacementRule) (members : list A) (g : rng) : outcome () (list A) * rng :=
  if bool_decide (together r = []) then
    let '(members, g) := shuffle members g in (Ok members, g)
  else
    let original := members in
    let '(res, g) := swap_sizes (together r) original (by_len (together r)).*2 members g in
    match res with
    | Ok members =>
        let singles := singles r in
        match mapM (fun p => original !! p) singles with
        | Some rest => let '(rest, g) := shuffle rest g in (put_all singles rest members, g)
        | None => (Panic, g)
        end
    | Err e => (Err e, g)
    | Panic => (Panic, g)
    end.

(** ** Writes

    [writes W original m m']: each [(p, q)] of [W] puts at [p] what
    [original] has at [q]; the rest of [m] stays. *)
Record writes (W : list (nat * nat)) (original m m' : list A) : Prop := {
  writes_to : forall p q, (p, q) ∈ W -> m' !! p = original !! q;
  writes_rest : forall p, p ∉ W.*1 -> m' !! p = m !! p;
  writes_length : length m' = length m;
}.

Lemma writes_nil original m : writes [] original m m.
Proof. split; [by intros p q ?%not_elem_of_nil|done|done]. Qed.

Lemma writes_app W1 W2 original m m1 m2 : NoDup (W1 ++ W2).*1 ->
  writes W1 original m m1 -> writes W2 original m1 m2 -> writes (W1 ++ W2) original m m2.
Proof.
  rewrite fmap_app. intros (_ & Hd & _)%NoDup_app [A1 A2 A3] [B1 B2 B3]. split.
  - intros p q [Hp|Hp]%elem_of_app; [|by apply B1]. rewrite B2; [by apply A1|].
    apply Hd. apply list_elem_of_fmap. by exists (p, q).
  - intros p. rewrite fmap_app, elem_of_app. intros Hp. rewrite B2, A2 by tauto. done.
  - lia.
Qed.

(** Places and sources of one length. *)
Lemma put_all_writes ps qs original : forall ms m, length ps = length qs -> NoDup ps ->
  Forall (fun p => (p < length m)%nat) ps -> mapM (fun q => original !! q) qs = Some ms ->
  exists m', put_all ps ms m = Ok m' /\ writes (zip ps qs) original m m'.
Proof.
  revert qs. induction ps as [|p ps IH]; intros [|q qs] ms m Hlen Hnd Hr Hms; try done.
  { exists m. split; [done|apply writes_nil]. }
  apply mapM_Some in Hms. inversion Hms as [|? x ? ms' Hq Hrest]; subst. apply mapM_Some in Hrest.
  apply NoDup_cons in Hnd as [Hp Hnd]. inversion Hr; subst. cbn [put_all].
  destruct (Nat.ltb_spec p (length m)); [|lia].
  destruct (IH qs ms' (<[p := x]> m)) as (m' & Hm' & [W1 W2 W3]);
    [cbn in Hlen; lia|done|by rewrite length_insert|done|].
  rewrite length_insert in W3. exists m'. split; [done|].
  assert (Hfst : (zip ps qs).*1 = ps) by (apply fst_zip; cbn in Hlen; lia). split; [| |done].
  - intros p' q' [[= -> ->]|Hin]%elem_of_cons; [|by apply W1].
    rewrite W2 by (by rewrite Hfst). rewrite Hq. by apply list_lookup_insert_eq.
  - cbn [zip zip_with fmap list_fmap]. csimpl. intros p' Hp'. rewrite not_elem_of_cons in Hp'.
    destruct Hp' as [Hne Hp']. rewrite W2 by done. by apply list_lookup_insert_ne.
Qed.

(** ** Which group goes where

    [moves gs T W]: for each [(to, from)] of [T], [W] writes the positions of
    the group at [to] with those of the group at [from], in some order. *)
Inductive moves (gs : list (list nat)) : list (nat * nat) -> list (nat * nat) -> Prop :=
| moves_nil : moves gs [] []
| moves_cons to_ from T ps fs qs W :
    gs !! to_ = Some ps -> gs !! from = Some fs -> qs ≡ₚ fs -> length ps = length fs ->
    moves gs T W -> moves gs ((to_, from) :: T) (zip ps qs ++ W).

Lemma moves_app gs T1 W1 T2 W2 : moves gs T1 W1 -> moves gs T2 W2 -> moves gs (T1 ++ T2) (W1 ++ W2).
Proof.
  induction 1 as [|to_ from T ps fs qs W H1 H2 H3 H4 _ IH]; [done|]. intros HW. cbn.
  rewrite <- app_assoc. econstructor; eauto.
Qed.

Lemma moves_pair gs T W p q : moves gs T W -> (p, q) ∈ W ->
  exists to_ from ps fs, (to_, from) ∈ T /\ gs !! to_ = Some ps /\ gs !! from = Some fs /\ p ∈ ps /\ q ∈ fs.
Proof.
  induction 1 as [|to_ from T ps fs qs W H1 H2 H3 H4 _ IH]; [by intros ?%not_elem_of_nil|].
  intros [Hz|Hw]%elem_of_app.
  - exists to_, from, ps, fs. split_and!; [by left|done|done|by eapply elem_of_zip_l|].
    rewrite <- H3. by eapply elem_of_zip_r.
  - destruct (IH Hw) as (to' & from' & ps' & fs' & HT & Hrest). exists to', from', ps', fs'.
    split; [by right|done].
Qed.

Lemma moves_fst gs T W : moves gs T W -> W.*1 = concat (default [] <$> ((fun t => gs !! t) <$> T.*1)).
Proof.
  induction 1 as [|to_ from T ps fs qs W H1 H2 H3 H4 _ IH]; [done|]. csimpl.
  rewrite fmap_app, IH, H1, fst_zip by (rewrite H4, H3; lia). done.
Qed.

Lemma moves_snd gs T W : moves gs T W -> W.*2 ≡ₚ concat (default [] <$> ((fun t => gs !! t) <$> T.*2)).
Proof.
  induction 1 as [|to_ from T ps fs qs W H1 H2 H3 H4 _ IH]; [done|]. csimpl.
  rewrite fmap_app, IH, H2, snd_zip by (rewrite H4, H3; lia). by rewrite H3.
Qed.

(** Groups in any order of their indices hold what they all hold. *)
Lemma groups_perm (gs : list (list nat)) ix : ix ≡ₚ seq 0 (length gs) ->
  concat (default [] <$> ((fun t => gs !! t) <$> ix)) ≡ₚ concat gs.
Proof.
  intros Hp. apply CopysetFill.concat_perm. rewrite Hp. 
  assert (default [] <$> ((fun t => gs !! t) <$> seq 0 (length gs)) = gs) as ->; [|done].
  apply list_eq. intros i. rewrite !list_lookup_fmap. destruct (gs !! i) as [x|] eqn:E.
  - rewrite lookup_seq_lt by (by eapply lookup_lt_Some). cbn. by rewrite E.
  - rewrite lookup_seq_ge; [done|]. by apply lookup_ge_None.
Qed.

(** ** The groups by size *)
Lemma push_len_perm len i m : concat (push_len len i m).*2 ≡ₚ i :: concat m.*2.
Proof.
  induction m as [|[l idxs] m IH]; cbn [push_len]; [done|]. repeat case_match; csimpl.
  - done.
  - rewrite <- app_assoc. symmetry. apply Permutation_middle.
  - rewrite IH. symmetry. apply Permutation_middle.
Qed.

Definition sized (gs : list (list nat)) (m : list (nat * list nat)) : Prop :=
  forall l idxs i, (l, idxs) ∈ m -> i ∈ idxs -> exists g, gs !! i = Some g /\ length g = l.

Lemma push_len_sized gs len i m g : sized gs m -> gs !! i = Some g -> length g = len ->
  sized gs (push_len len i m).
Proof.
  intros Hm Hg Hl. induction m as [|[l idxs] m IH]; cbn [push_len].
  { intros l' idxs' i' [= -> ->]%list_elem_of_singleton ->%list_elem_of_singleton. eauto. }
  assert (Hm' : sized gs m) by (intros l' ix' i' Hin; apply Hm; by right).
  destruct (Nat.ltb len l) eqn:E1; [|destruct (Nat.eqb_spec len l) as [->|]].
  - intros l' ix' i' [[= -> ->]|Hin]%elem_of_cons; [intros ->%list_elem_of_singleton; eauto|by apply Hm].
  - intros l' ix' i' [[= -> ->]|Hin]%elem_of_cons; [|by apply Hm'].
    intros [Hi|Hi]%elem_of_app; [apply (Hm l idxs); [by left|done]|apply list_elem_of_singleton in Hi as ->; eauto].
  - intros l' ix' i' [[= -> ->]|Hin]%elem_of_cons; [apply Hm; by left|by apply IH].
Qed.

Lemma by_len_spec gs : concat (by_len gs).*2 ≡ₚ seq 0 (length gs) /\ sized gs (by_len gs).
Proof.
  assert (Hgen : forall gs', gs' `prefix_of` gs -> concat (by_len gs').*2 ≡ₚ seq 0 (length gs') /\ sized gs (by_len gs')).
  { intros gs'. unfold by_len. induction gs' as [|g gs' IH] using rev_ind; intros Hpre.
    { split; [done|]. by intros l ix i ?%not_elem_of_nil. }
    destruct IH as [IH1 IH2]; [etrans; [by apply prefix_app_r|done]|].
    rewrite imap_app, foldl_app. cbn [imap foldl fst snd]. rewrite Nat.add_0_r. split.
    - rewrite push_len_perm, IH1, length_app. cbn [length]. rewrite seq_app. cbn.
      by rewrite <- Permutation_cons_append.
    - eapply push_len_sized; [done| |done]. eapply prefix_lookup_Some; [|done].
      by rewrite lookup_app_r, Nat.sub_diag by lia. }
  by apply Hgen.
Qed.

(** ** The loops *)
Lemma mapM_perm {B C} (f : B -> option C) qs (ms ms' : list C) : mapM f qs = Some ms -> ms' ≡ₚ ms ->
  exists qs', qs' ≡ₚ qs /\ mapM f qs' = Some ms'.
Proof.
  intros Hm%mapM_Some%Forall2_flip Hp. symmetry in Hp.
  destruct (Permutation_Forall2 Hp Hm) as (qs' & Hq & Hf). exists qs'. split; [done|].
  by apply mapM_Some, Forall2_flip.
Qed.

Lemma mapM_range (l : list A) qs : Forall (fun q => (q < length l)%nat) qs ->
  exists ms, mapM (fun q => l !! q) qs = Some ms.
Proof.
  induction 1 as [|q qs Hq _ [ms IH]]; [by eexists|].
  destruct (lookup_lt_is_Some_2 l q Hq) as [x Hx]. exists (x :: ms). cbn. rewrite Hx. cbn. by rewrite IH.
Qed.

Section groups.
Context (gs : list (list nat)) (original : list A).
Hypothesis gs_nodup : NoDup (concat gs).
Hypothesis gs_range : Forall (fun p => (p < length original)%nat) (concat gs).

Lemma groups_nodup ix : NoDup ix -> Forall (fun i => (i < length gs)%nat) ix ->
  NoDup (concat (default [] <$> ((fun t => gs !! t) <$> ix))).
Proof.
  intros Hnd Hr. assert (Hs : ix ⊆+ seq 0 (length gs)).
  { apply NoDup_submseteq; [done|]. intros i Hi. rewrite Forall_forall in Hr.
    apply elem_of_seq. specialize (Hr i Hi). lia. }
  apply submseteq_Permutation in Hs as [k Hk]. symmetry in Hk. pose proof (groups_perm gs _ Hk) as Hp.
  rewrite !fmap_app, concat_app in Hp. rewrite <- Hp in gs_nodup. by apply NoDup_app in gs_nodup as (? & _).
Qed.

Lemma group_range i ps : gs !! i = Some ps -> Forall (fun p => (p < length original)%nat) ps /\ NoDup ps.
Proof.
  intros Hi. split.
  - rewrite Forall_forall in gs_range |- *. intros p Hp. apply gs_range, elem_of_concat.
    exists ps. split; [by eapply list_elem_of_lookup_2|done].
  - pose proof (groups_nodup [i] (NoDup_singleton i)) as Hn. csimpl in Hn. rewrite Hi, app_nil_r in Hn.
    apply Hn. constructor; [by eapply lookup_lt_Some|constructor].
Qed.

Lemma swap_group_writes to_ from ps fs m g : gs !! to_ = Some ps -> gs !! from = Some fs ->
  length ps = length fs -> length m = length original ->
  exists m' g' qs, swap_group gs original to_ from m g = (Ok m', g') /\ qs ≡ₚ fs /\
    writes (zip ps qs) original m m'.
Proof.
  intros Ht Hf Hlen Hm. unfold swap_group. rewrite Ht, Hf. cbn [mbind option_bind].
  destruct (mapM_range original fs) as [group Hg]; [by apply (group_range from)|]. rewrite Hg.
  destruct (shuffle group g) as [group' g'] eqn:Es.
  assert (Hp : group' ≡ₚ group) by (pose proof (shuffle_perm _ group g) as Hp; by rewrite Es in Hp).
  destruct (mapM_perm _ _ _ _ Hg Hp) as (qs & Hq & Hmq).
  destruct (group_range to_ ps Ht) as [Hr Hnd].
  destruct (put_all_writes ps qs original group' m) as (m' & Hm' & Hw);
    [by rewrite Hq|done|by rewrite Hm|done|]. exists m', g', qs. by rewrite Hm'.
Qed.

Definition movable (tf : nat * nat) : Prop :=
  exists ps fs, gs !! tf.1 = Some ps /\ gs !! tf.2 = Some fs /\ length ps = length fs.

Lemma swap_groups_writes T : forall m g, NoDup T.*1 -> Forall movable T -> length m = length original ->
  exists m' g' W, swap_groups gs original T m g = (Ok m', g') /\ moves gs T W /\ writes W original m m'.
Proof.
  induction T as [|[to_ from] T IH]; intros m g Hnd Hmv Hm.
  { exists m, g, []. split_and!; [done|constructor|apply writes_nil]. }
  inversion Hmv as [|? ? (ps & fs & Hps & Hfs & Hl) Hmv']; subst. cbn in Hps, Hfs. cbn [swap_groups].
  destruct (swap_group_writes to_ from ps fs m g Hps Hfs Hl Hm) as (m1 & g1 & qs & -> & Hq & Hw1).
  csimpl in Hnd. pose proof Hnd as Hnd'. apply NoDup_cons in Hnd' as [_ Hnd'].
  destruct (IH m1 g1 Hnd' Hmv') as (m' & g' & W & -> & HW & Hw2); [by rewrite (writes_length _ _ _ _ Hw1)|].
  assert (HWs : moves gs ((to_, from) :: T) (zip ps qs ++ W)) by (econstructor; eauto).
  exists m', g', (zip ps qs ++ W). split_and!; [done|done|].
  eapply writes_app; [|done|done]. rewrite (moves_fst _ _ _ HWs). apply groups_nodup; [done|].
  apply Forall_fmap. eapply Forall_impl; [exact Hmv|]. intros tf (ps' & fs' & H1 & _). by eapply lookup_lt_Some.
Qed.

Lemma zip_movable l idxs order : (forall i, i ∈ idxs -> exists x, gs !! i = Some x /\ length x = l) ->
  order ≡ₚ idxs -> Forall movable (zip idxs order).
Proof.
  intros Hs Hp. apply Forall_forall. intros [i j] Hij.
  destruct (Hs i) as (x & Hx & Hlx); [by eapply elem_of_zip_l|].
  destruct (Hs j) as (y & Hy & Hly); [rewrite <- Hp; by eapply elem_of_zip_r|].
  exists x, y. split_and!; [done|done|congruence].
Qed.

Lemma swap_sizes_writes classes : (forall l idxs i, (l, idxs) ∈ classes -> i ∈ idxs ->
    exists x, gs !! i = Some x /\ length x = l) -> NoDup (concat classes.*2) ->
  forall m g, length m = length original ->
  exists m' g' T W, swap_sizes gs original classes.*2 m g = (Ok m', g') /\ T.*1 = concat classes.*2 /\
    T.*2 ≡ₚ concat classes.*2 /\ Forall movable T /\ moves gs T W /\ writes W original m m'.
Proof.
  induction classes as [|[l idxs] classes IH]; intros Hs Hnd m g Hm; csimpl.
  { exists m, g, [], []. split_and!; try done; [constructor|apply writes_nil]. }
  csimpl in Hnd. apply NoDup_app in Hnd as (Hn1 & Hdis & Hn2).
  destruct (shuffle idxs g) as [order g1] eqn:Es.
  assert (Hp : order ≡ₚ idxs) by (pose proof (shuffle_perm _ idxs g) as Hp; by rewrite Es in Hp).
  assert (Hfst : (zip idxs order).*1 = idxs) by (apply fst_zip; by rewrite Hp).
  assert (Hsnd : (zip idxs order).*2 = order) by (apply snd_zip; by rewrite Hp).
  assert (Hmv : Forall movable (zip idxs order)) by (eapply (zip_movable l); [intros i; apply Hs; by left|done]).
  destruct (swap_groups_writes (zip idxs order) m g1) as (m1 & g2 & W1 & -> & HW1 & Hw1); [by rewrite Hfst|done|done|].
  destruct (IH ltac:(intros l' ix' i Hin; apply Hs; by right) Hn2 m1 g2) as (m' & g' & T & W & -> & HT1 & HT2 & Hmv2 & HW & Hw);
    [by rewrite (writes_length _ _ _ _ Hw1)|].
  assert (Hmoves : moves gs (zip idxs order ++ T) (W1 ++ W)) by (by apply moves_app).
  exists m', g', (zip idxs order ++ T), (W1 ++ W). split_and!; [done| | |by apply Forall_app|done|].
  - by rewrite fmap_app, Hfst, HT1.
  - by rewrite fmap_app, Hsnd, HT2, Hp.
  - eapply writes_app; [|done|done]. rewrite (moves_fst _ _ _ Hmoves). apply groups_nodup.
    + rewrite fmap_app, Hfst, HT1. by apply NoDup_app.
    + apply Forall_fmap, Forall_app. split; (eapply Forall_impl; [eassumption|]);
        intros tf (ps' & fs' & H1 & _); by eapply lookup_lt_Some.
Qed.

End groups.

Lemma omap_id_some (l : list A) : omap (fun o => o) (Some <$> l) = l.
Proof. induction l as [|x l IH]; [done|]. csimpl. by rewrite IH. Qed.

(** ** Members that moved within the rule keep it *)
Section keep.
Context (r : PlacementRule) (loc : A -> string * string).

(** The members with their positions, domains and units. *)
Definition others_of (l : list A) : list other := imap (fun p x => (p, (loc x).1, (loc x).2)) l.

Lemma elem_of_others l o : o ∈ others_of l <-> exists x, l !! pos_of o = Some x /\ (dom_of o, unit_of o) = loc x.
Proof.
  unfold others_of. rewrite list_elem_of_lookup. split.
  - intros [p Hp]. rewrite list_lookup_imap in Hp. apply fmap_Some in Hp as (x & Hx & ->).
    exists x. split; [done|]. unfold dom_of, unit_of. cbn. by destruct (loc x).
  - intros (x & Hx & Hl). exists (pos_of o). rewrite list_lookup_imap, Hx. cbn. rewrite <- Hl.
    unfold pos_of, dom_of, unit_of. by destruct o as [[? ?] ?].
Qed.

Lemma others_count d l : length (filter (fun o => dom_of o = d) (others_of l)) =
  length (filter (fun x => (loc x).1 = d) l).
Proof.
  unfold others_of. induction l as [|x l IH] using rev_ind; [done|].
  rewrite imap_app, !filter_app, !length_app, IH. f_equal. cbn [imap]. rewrite !filter_cons.
  unfold dom_of. cbn [fst snd]. by case_decide.
Qed.

Context (m m' : list A) (W T : list (nat * nat)).
Hypothesis W_moves : forall p q, (p, q) ∈ W -> m' !! p = m !! q.
Hypothesis W_fst : W.*1 ≡ₚ seq 0 (length m).
Hypothesis W_snd : W.*2 ≡ₚ seq 0 (length m).
Hypothesis m'_length : length m' = length m.
Hypothesis T_fst : NoDup T.*1.
Hypothesis T_snd : NoDup T.*2.
Hypothesis W_groups : forall p q, (p, q) ∈ W ->
  group_of r p = None /\ group_of r q = None \/
  exists a b, (a, b) ∈ T /\ group_of r p = Some a /\ group_of r q = Some b.

Lemma lookups_seq (l : list A) : (fun p => l !! p) <$> seq 0 (length l) = Some <$> l.
Proof.
  apply list_eq. intros i. rewrite !list_lookup_fmap. destruct (l !! i) as [x|] eqn:E.
  - rewrite lookup_seq_lt by (by eapply lookup_lt_Some). cbn. by rewrite E.
  - rewrite lookup_seq_ge; [done|]. by apply lookup_ge_None.
Qed.

Lemma moved_perm : m' ≡ₚ m.
Proof.
  assert (Hp : Some <$> m' ≡ₚ Some <$> m).
  { rewrite <- !lookups_seq, m'_length. rewrite <- W_snd at 2. rewrite <- W_fst, <- !list_fmap_compose.
    assert (((fun p => m' !! p) ∘ fst) <$> W = ((fun p => m !! p) ∘ snd) <$> W) as E; [|by rewrite E].
    apply list_fmap_ext. intros i [p q] Hw. cbn. apply W_moves. by eapply list_elem_of_lookup_2. }
  rewrite <- (omap_id_some m'), <- (omap_id_some m). by rewrite Hp.
Qed.

Lemma moved_from o : o ∈ others_of m' -> exists q, (pos_of o, q) ∈ W /\ (q, dom_of o, unit_of o) ∈ others_of m.
Proof.
  intros (x & Hx & Hl)%elem_of_others. assert (Hin : pos_of o ∈ W.*1).
  { rewrite W_fst. apply elem_of_seq. apply lookup_lt_Some in Hx. lia. }
  apply list_elem_of_fmap in Hin as ([p q] & Hp & Hw). cbn in Hp. subst p. exists q. split; [done|].
  apply elem_of_others. exists x. split; [|done]. change (m !! q = Some x). by rewrite <- (W_moves _ _ Hw).
Qed.

Lemma W_inj p p' q : (p, q) ∈ W -> (p', q) ∈ W -> p = p'.
Proof.
  intros Hp Hp'. assert (NoDup W.*2) as Hn by (rewrite W_snd; apply NoDup_seq).
  by injection (NoDup_fmap_elem snd W (p, q) (p', q) Hn Hp Hp' eq_refl).
Qed.

Lemma moved_keeps : keeps r (others_of m) -> keeps r (others_of m').
Proof.
  intros Hk. split.
  - assert (pos_of <$> others_of m' = seq 0 (length m')) as ->; [|apply NoDup_seq].
    unfold others_of. apply list_eq. intros p. rewrite list_lookup_fmap, list_lookup_imap.
    destruct (m' !! p) as [x|] eqn:E; cbn.
    + symmetry. apply lookup_seq. split; [done|by eapply lookup_lt_Some].
    + symmetry. apply lookup_seq_ge. by apply lookup_ge_None.
  - intros o o' (q & Hw & Ho)%moved_from (q' & Hw' & Ho')%moved_from Hp Hd.
    apply (keeps_units r _ Hk _ _ Ho Ho'); [|done]. cbn. intros ->. apply Hp. by eapply W_inj.
  - intros o o' g (q & Hw & Ho)%moved_from (q' & Hw' & Ho')%moved_from Hp Hg.
    assert (q <> q') as Hq by (intros <-; apply Hp; by eapply W_inj).
    destruct (W_groups _ _ Hw) as [[? _]|(a & b & HT & Ha & Hb)]; [congruence|].
    assert (a = g) as -> by congruence.
    rewrite (keeps_groups r _ Hk _ _ b Ho Ho' Hq Hb). cbn [pos_of fst].
    destruct (W_groups _ _ Hw') as [[Hn Hn']|(a' & b' & HT' & Ha' & Hb')]; [rewrite Hn, Hn'; split; congruence|].
    rewrite Ha', Hb'. split; intros [= ->]; f_equal.
    + by injection (NoDup_fmap_elem snd T _ _ T_snd HT' HT eq_refl).
    + by injection (NoDup_fmap_elem fst T _ _ T_fst HT' HT eq_refl).
  - intros d. etrans; [|apply (keeps_limit r _ Hk d)]. apply Nat.eq_le_incl.
    rewrite !others_count. by rewrite moved_perm.
Qed.

End keep.

(** ** The shuffle *)
Lemma shuffled_whole (m : list A) g : exists W, (forall p q, (p, q) ∈ W -> (shuffle m g).1 !! p = m !! q) /\
  W.*1 ≡ₚ seq 0 (length m) /\ W.*2 ≡ₚ seq 0 (length m).
Proof.
  assert (Hm : mapM (fun q => m !! q) (seq 0 (length m)) = Some m).
  { apply mapM_Some, Forall2_lookup. intros i.
    destruct (m !! i) as [x|] eqn:E.
    - rewrite lookup_seq_lt by (by eapply lookup_lt_Some). by constructor.
    - rewrite lookup_seq_ge by (by apply lookup_ge_None). constructor. }
  destruct (mapM_perm _ _ _ _ Hm (shuffle_perm _ m g)) as (qs & Hq & Hms).
  assert (Hlen : length qs = length m) by (rewrite Hq; apply length_seq).
  exists (zip (seq 0 (length m)) qs). split_and!.
  - intros p q [i Hi]%list_elem_of_lookup. apply lookup_zip_with_Some in Hi as (p' & q' & [= <- <-] & Hp & Hq').
    apply lookup_seq in Hp as [-> _]. apply mapM_Some in Hms.
    destruct (Forall2_lookup_l _ _ _ _ _ Hms Hq') as (x & Hx & E). cbn. congruence.
  - rewrite fst_zip; [done|]. rewrite length_seq. lia.
  - rewrite snd_zip; [done|]. rewrite length_seq. lia.
Qed.

(** A rule's shuffle moves whole groups onto groups. *)
Lemma rule_shuffle_moves r (m : list A) g : valid r -> length m = copy_count r ->
  exists m' g' W T, rule_shuffle r m g = (Ok m', g') /\ length m' = length m /\
    (forall p q, (p, q) ∈ W -> m' !! p = m !! q) /\
    W.*1 ≡ₚ seq 0 (length m) /\ W.*2 ≡ₚ seq 0 (length m) /\ NoDup T.*1 /\ NoDup T.*2 /\
    forall p q, (p, q) ∈ W -> group_of r p = None /\ group_of r q = None \/
      exists a b, (a, b) ∈ T /\ group_of r p = Some a /\ group_of r q = Some b.
Proof.
  intros Hv Hm. unfold rule_shuffle. case_bool_decide as Ht.
  { destruct (shuffled_whole m g) as (W & H1 & H2 & H3). pose proof (shuffle_perm _ m g) as Hp.
    destruct (shuffle m g) as [m' g']. exists m', g', W, []. cbn in *.
    split_and!; try done; [by rewrite Hp|constructor|constructor|]. intros p q _. left.
    split; apply group_of_none; rewrite Ht; apply not_elem_of_nil. }
  pose proof (valid_distinct r Hv) as Hnd. pose proof (valid_range r Hv) as Hr. rewrite <- Hm in Hr.
  destruct (by_len_spec (together r)) as [Hbl Hsz].
  destruct (swap_sizes_writes (together r) m Hnd Hr (by_len (together r)) Hsz) with (m := m) (g := g)
    as (m1 & g1 & T & W & -> & HT1 & HT2 & Hmv & HW & Hw); [rewrite Hbl; apply NoDup_seq|done|].
  assert (HsR : Forall (fun p => (p < length m)%nat) (singles r)).
  { apply Forall_forall. unfold singles. intros p [_ Hp]%list_elem_of_filter. apply elem_of_seq in Hp. lia. }
  destruct (mapM_range m (singles r) HsR) as [rest Hrest]. rewrite Hrest.
  destruct (shuffle rest g1) as [rest' g2] eqn:Es.
  assert (Hp : rest' ≡ₚ rest) by (pose proof (shuffle_perm _ rest g1) as Hp; by rewrite Es in Hp).
  destruct (mapM_perm _ _ _ _ Hrest Hp) as (qs & Hq & Hmq).
  assert (Hsn : NoDup (singles r)) by (apply NoDup_filter, NoDup_seq).
  destruct (put_all_writes (singles r) qs m rest' m1) as (m' & -> & Hw');
    [by rewrite Hq|done|by rewrite (writes_length _ _ _ _ Hw)|done|].
  assert (Hz1 : (zip (singles r) qs).*1 = singles r) by (apply fst_zip; by rewrite Hq).
  assert (Hz2 : (zip (singles r) qs).*2 = qs) by (apply snd_zip; by rewrite Hq).
  pose proof (singles_perm r Hv) as Hsp.
  assert (HF1 : (W ++ zip (singles r) qs).*1 ≡ₚ seq 0 (length m)).
  { rewrite fmap_app, Hz1, (moves_fst _ _ _ HW), HT1, Hm, <- Hsp. apply Permutation_app; [|done].
    by apply groups_perm. }
  assert (HF2 : (W ++ zip (singles r) qs).*2 ≡ₚ seq 0 (length m)).
  { rewrite fmap_app, Hz2, (moves_snd _ _ _ HW), Hm, <- Hsp, Hq. apply Permutation_app; [|done].
    apply groups_perm. by rewrite HT2. }
  assert (HWW : writes (W ++ zip (singles r) qs) m m m').
  { eapply writes_app; [rewrite HF1; apply NoDup_seq|done|done]. }
  exists m', g2, (W ++ zip (singles r) qs), T. split_and!; try done.
  - apply (writes_length _ _ _ _ HWW).
  - apply (writes_to _ _ _ _ HWW).
  - rewrite HT1, Hbl. apply NoDup_seq.
  - rewrite HT2, Hbl. apply NoDup_seq.
  - intros p q [Hin|Hin]%elem_of_app.
    + right. destruct (moves_pair _ _ _ _ _ HW Hin) as (a & b & ps & fs & Hab & Ha & Hb & Hpa & Hqb).
      exists a, b. split_and!; [done|by eapply CopysetFill.group_of_intro|by eapply CopysetFill.group_of_intro].
    + left. pose proof (elem_of_zip_l _ _ _ _ Hin) as Hp1. pose proof (elem_of_zip_r _ _ _ _ Hin) as Hq1.
      rewrite Hq in Hq1. apply list_elem_of_filter in Hp1 as [? _], Hq1 as [? _]. done.
Qed.

(** Members that keep the rule keep it shuffled, whatever the generator
    does, and are the same members: only their positions change. *)
Theorem shuffle_keeps_rule r (loc : A -> string * string) m g :
  validate r = Ok () -> length m = copy_count r -> keeps r (others_of loc m) ->
  exists m' g', rule_shuffle r m g = (Ok m', g') /\ m' ≡ₚ m /\ keeps r (others_of loc m').
Proof.
  intros Hv%validate_valid Hm Hk.
  destruct (rule_shuffle_moves r m g Hv Hm) as (m' & g' & W & T & E & Hl & H1 & H2 & H3 & H4 & H5 & H6).
  exists m', g'. split_and!; [done|by eapply moved_perm|by eapply moved_keeps].
Qed.

End shuffle.

(** ** An example: LRC 6+2+2 with a local group in each of two racks *)
Definition lrc_members : list (string * string) :=
  [("r1", "a"); ("r1", "b"); ("r1", "c"); ("r2", "e"); ("r2", "f"); ("r2", "g");
   ("r1", "d"); ("r2", "h"); ("r3", "i"); ("r3", "j")].

Lemma lrc_members_keep : keeps lrc_rule (others_of (fun x => x) lrc_members).
Proof.
  assert (Hg : forall o, o ∈ others_of (fun x => x) lrc_members ->
    group_of lrc_rule (pos_of o) = if String.eqb (dom_of o) "r1" then Some 0%nat
      else if String.eqb (dom_of o) "r2" then Some 1%nat else None).
  { apply Forall_forall, (bool_decide_unpack _). by vm_compute. }
  assert (Hd : forall o, o ∈ others_of (fun x => x) lrc_members -> dom_of o = "r1" \/ dom_of o = "r2" \/ dom_of o = "r3").
  { apply Forall_forall, (bool_decide_unpack _). by vm_compute. }
  assert (Hn : NoDup (snd <$> others_of (fun x => x) lrc_members))
    by (apply (bool_decide_unpack _); by vm_compute).
  split.
  - apply (bool_decide_unpack _). by vm_compute.
  - intros o o' Ho Ho' Hp _ Hu. apply Hp. by rewrite (NoDup_fmap_elem snd _ o o' Hn Ho Ho' Hu).
  - intros o o' g Ho Ho' Hp. rewrite (Hg o Ho), (Hg o' Ho').
    destruct (Hd o Ho) as [E|[E|E]], (Hd o' Ho') as [E'|[E'|E']]; rewrite E, E'; cbn; intros [= <-]; split; congruence.
  - intros d. rewrite others_count. unfold lrc_members. cbn [per_domain lrc_rule].
    destruct (decide (d = "r1")) as [->|]; [vm_compute; lia|].
    destruct (decide (d = "r2")) as [->|]; [vm_compute; lia|].
    destruct (decide (d = "r3")) as [->|]; [vm_compute; lia|].
    repeat (rewrite filter_cons, decide_False by (cbn; congruence)). rewrite filter_nil. cbn. lia.
Qed.

Lemma shuffle_keeps_rule_witness :
  exists m' g', @rule_shuffle reverse_rng _ lrc_rule lrc_members tt = (Ok m', g') /\
    m' ≡ₚ lrc_members /\ keeps lrc_rule (others_of (fun x => x) m').
Proof.
  apply (@shuffle_keeps_rule reverse_rng _ lrc_rule (fun x => x) lrc_members tt);
    [by vm_compute|done|apply lrc_members_keep].
Defined.

End CopysetShuffle.
