(* ===== verification/ErasureBackend.v ===== *)
(** * Erasure coding backends

    [crates/erasure/src]: the schemes that can be chosen ([scheme.rs],
    [backend/isal/mod.rs]), the MDS backend on ISA-L
    ([backend/isal/backend.rs]) and the LRC backend with XOR local parity and
    reed-solomon-simd global parity ([backend/rust_simd.rs], [backend/mod.rs],
    [backend/factory.rs]). The two coding libraries are the classes [Isal] and
    [RsSimd]. A shard is its bytes, a slot of a stripe [None] when the shard
    is missing; a message's text is a value that says what it tells. *)
From S2P Require Import Prelude Bytes.

Module ErasureBackend.

(** ** The libraries *)

(** [erasure_isa_l::ErasureCode] for [k] data and [m] parity shards: [encode]
    writes the parity of the data into buffers, [decode] fills in the erased
    positions of the data and parity buffers. *)
Class Isal := {
  isal_new : nat -> nat -> string + ();
  isal_encode : nat -> nat -> list bytes -> list bytes -> string + (list bytes);
  isal_decode : nat -> nat -> list bytes -> list bytes -> list nat ->
    string + (list bytes * list bytes);
}.

(** [reed_solomon_simd]: an encoder given all original shards yields the
    recovery shards; a decoder given some numbered original and recovery
    shards yields the original shards it restored, by number. *)
Class RsSimd := {
  rs_encode : nat -> nat -> nat -> list bytes -> string + (list bytes);
  rs_decoder_new : nat -> nat -> nat -> string + ();
  rs_decode : nat -> nat -> nat -> list (nat * bytes) -> list (nat * bytes) ->
    string + (gmap nat bytes);
}.

(** ** Schemes *)
Definition MAX_SHARDS : nat := 255.

Definition is_mds (data_shards parity_shards : nat) : bool :=
  if (data_shards =? 0)%nat || (parity_shards =? 0)%nat ||
     (MAX_SHARDS <? data_shards + parity_shards)%nat then false
  else
    let '(fewer, more) := if (data_shards <? parity_shards)%nat
      then (data_shards, parity_shards) else (parity_shards, data_shards) in
    (fewer <=? 3)%nat || ((fewer =? 4)%nat && (more <=? 21)%nat) || ((fewer =? 5)%nat && (more =? 5)%nat).

Inductive SchemeFault :=
| NotACode (k m : nat)
| NoParity (k : nat)
| NotMds (k m : nat)
| LrcNone (k l g : nat)
| LrcUneven (k l g : nat)
| LrcTooMany (k l g : nat)
| BadCopies (n : nat).

Definition check_mds (k m : nat) : outcome SchemeFault () :=
  if (k =? 0)%nat || (MAX_SHARDS <? k + m)%nat then Err (NotACode k m)
  else if (m =? 0)%nat then Err (NoParity k)
  else if negb (is_mds k m) then Err (NotMds k m)
  else Ok ().

(** [usize::is_multiple_of]: only 0 is a multiple of 0. *)
Definition is_multiple_of (a b : nat) : bool :=
  if (b =? 0)%nat then (a =? 0)%nat else (a mod b =? 0)%nat.

Definition check_lrc (k l g : nat) : outcome SchemeFault () :=
  if (k =? 0)%nat || (l =? 0)%nat || (g =? 0)%nat then Err (LrcNone k l g)
  else if negb (is_multiple_of k l) then Err (LrcUneven k l g)
  else if (MAX_SHARDS <? k + l + g)%nat then Err (LrcTooMany k l g)
  else Ok ().

Definition check_replicas (n : nat) : outcome SchemeFault () :=
  if (n =? 0)%nat || (MAX_SHARDS <? n)%nat then Err (BadCopies n) else Ok ().

(** ** Errors *)
Inductive ConfigFault :=
| NoDataShards | NoParityShards | NoLocalParity | UnevenGroups | TooManyShards
| Scheme (f : SchemeFault)
| IsalFailed (e : string)
| Library (e : string)
| WrongDataShards (expected got : nat)
| WrongSlots (expected got : nat)
| WrongSize (shard size expected : nat)
| WrongParityBuffers (expected got : nat)
| NeedsMds
| NoShard (i : nat).

Inductive ErasureError :=
| InvalidConfig (why : ConfigFault)
| EncodingFailed (why : Message)
| DecodingFailed (why : Message)
| InsufficientShards (available required : nat)
| ShardSizeMismatch
| LrcConfigRequired
| Unverified (rebuilt : list nat) (available mismatched tried : nat)
with Message :=
| LibraryError (e : string)
| ErrorText (e : ErasureError)
| ReturnedFew (returned k : nat)
| NotRestored (i : nat)
| NotData (i : nat)
| NotRebuilt (i : nat).

(** A library's [Result], its error turned into ours. *)
Definition lib {E A} (f : string -> E) (r : string + A) : outcome E A :=
  match r with inr a => Ok a | inl e => Err (f e) end.

(** ** Shards *)
Definition zeros (n : nat) : bytes := replicate n Byte.x00.

Definition count_some {A} (l : list (option A)) : nat := length (filter is_Some l).

(** The shard in slot [i], where there is such a slot and it is not empty. *)
Definition shard_at {A} (l : list (option A)) (i : nat) : option A := mjoin (l !! i).

(** The first shard whose size is not the one expected. *)
Definition wrong_size (shards : list bytes) (size : nat) : option (nat * nat) :=
  (fun p => (p.1, length p.2)) <$> list_find (fun s => length s <> size) shards.

(** ** ISA-L *)
Record IsalBackend := mkIsal { isal_k : nat; isal_m : nat }.

Section isal.
Context `{Isal}.

Definition isal_backend_new (data_shards parity_shards : nat) : outcome ErasureError IsalBackend :=
  if (data_shards =? 0)%nat then Err (InvalidConfig NoDataShards)
  else if (parity_shards =? 0)%nat then Err (InvalidConfig NoParityShards)
  else if (255 <? data_shards + parity_shards)%nat then Err (InvalidConfig TooManyShards)
  else
    _ ← lib (fun e => InvalidConfig (IsalFailed e)) (isal_new data_shards parity_shards);
    Ok (mkIsal data_shards parity_shards).

Definition isal_backend_encode (b : IsalBackend) (data_shards : list bytes) (shard_size : nat) :
    outcome ErasureError (list bytes) :=
  if negb (length data_shards =? isal_k b)%nat
  then Err (InvalidConfig (WrongDataShards (isal_k b) (length data_shards)))
  else match wrong_size data_shards shard_size with
  | Some (i, n) => Err (InvalidConfig (WrongSize i n shard_size))
  | None =>
      parity ← lib (fun e => EncodingFailed (LibraryError e))
        (isal_encode (isal_k b) (isal_m b) data_shards (replicate (isal_m b) (zeros shard_size)));
      Ok (data_shards ++ parity)
  end.

Definition check_parity_buffers (parity : list bytes) (m shard_size : nat) : outcome ErasureError () :=
  if negb (length parity =? m)%nat then Err (InvalidConfig (WrongParityBuffers m (length parity)))
  else if existsb (fun p => negb (length p =? shard_size)%nat) parity then Err ShardSizeMismatch
  else Ok ().

Definition encode_parity_into (b : IsalBackend) (data_shards parity : list bytes) (shard_size : nat) :
    outcome ErasureError (list bytes) :=
  _ ← check_parity_buffers parity (isal_m b) shard_size;
  if negb (length data_shards =? isal_k b)%nat ||
     existsb (fun s => negb (length s =? shard_size)%nat) data_shards
  then Err ShardSizeMismatch
  else lib (fun e => EncodingFailed (LibraryError e)) (isal_encode (isal_k b) (isal_m b) data_shards parity).

(** The erased positions: every absent one, listed or not, and those listed. *)
Definition erasures (shards : list (option bytes)) (missing_indices : list nat) : list nat :=
  filter (fun i => shard_at shards i = None \/ i ∈ missing_indices) (seq 0 (length shards)).

Definition isal_backend_decode (b : IsalBackend) (shards : list (option bytes)) (shard_size : nat)
    (missing_indices : list nat) : outcome ErasureError (list bytes) :=
  let k := isal_k b in
  let m := isal_m b in
  if negb (length shards =? k + m)%nat then Err (InvalidConfig (WrongSlots (k + m) (length shards)))
  else if (count_some shards <? k)%nat then Err (InsufficientShards (count_some shards) k)
  else if bool_decide (Forall is_Some (take k shards)) then
    let result := omap (fun s => s) (take k shards) in
    encoded ← isal_backend_encode b result shard_size;
    Ok (result ++ take m (drop k encoded))
  else
    let fill := fun s : option bytes => default (zeros shard_size) s in
    let data := fill <$> take k shards in
    let parity := fill <$> take m (drop k shards) in
    '(data, parity) ← lib (fun e => DecodingFailed (LibraryError e))
      (isal_decode k m data parity (erasures shards missing_indices));
    Ok (data ++ parity).

End isal.

(** ** LRC *)
Record LrcConfig := mkLrc {
  lrc_data : nat;
  lrc_local : nat;
  lrc_global : nat;
  local_group_size : nat;
}.

(** [u8] addition. *)
Definition wadd8 (a b : nat) : nat := (a + b) mod 256.

Definition LrcConfig_new (data_shards local_parity_shards global_parity_shards : nat) : outcome ErasureError LrcConfig :=
  if (local_parity_shards =? 0)%nat then Panic
  else Ok (mkLrc data_shards local_parity_shards global_parity_shards (data_shards / local_parity_shards)).

Definition total_parity (c : LrcConfig) : nat := wadd8 (lrc_local c) (lrc_global c).

Record LrcEncodedData := mkEncoded {
  data_of : list bytes;
  local_of : list bytes;
  global_of : list bytes;
}.

Definition all_shards (e : LrcEncodedData) : list bytes := data_of e ++ local_of e ++ global_of e.

Record LocalGroup := mkLocal {
  group_index : nat;
  data_shard_indices : list nat;
  local_parity_index : nat;
}.

Definition local_group (c : LrcConfig) (shard_index : nat) : option LocalGroup :=
  let k := lrc_data c in
  let group_size := local_group_size c in
  if (k + lrc_local c <=? shard_index)%nat then None
  else
    let group_index := if (shard_index <? k)%nat then (shard_index / group_size)%nat else (shard_index - k)%nat in
    let start := (group_index * group_size)%nat in
    Some (mkLocal group_index (seq start group_size) (k + group_index)).

(** [u8] XOR. *)
Definition xor8 (a b : byte) : byte := byte.of_Z (Z.lxor (bval a) (bval b)).

(** [result[i] ^= byte] for each byte of [slice] within [result]. *)
Fixpoint xor_into (result slice : bytes) : bytes :=
  match result, slice with
  | x :: result, y :: slice => xor8 x y :: xor_into result slice
  | _, _ => result
  end.

Definition xor_slices (slices : list bytes) (shard_size : nat) : bytes :=
  foldl xor_into (zeros shard_size) slices.

Definition decode_local (c : LrcConfig) (shards : list (option bytes)) (shard_size missing_index : nat) :
    outcome ErasureError (option bytes) :=
  match local_group c missing_index with
  | None => Ok None
  | Some group =>
      let others := filter (fun i => i <> missing_index) (data_shard_indices group) in
      let all_available := forallb (fun i => bool_decide (is_Some (shard_at shards i))) others &&
        bool_decide (is_Some (shard_at shards (local_parity_index group))) in
      if all_available then
        let recovered := foldl xor_into (zeros shard_size) (omap (shard_at shards) others) in
        Ok (Some (match shard_at shards (local_parity_index group) with
                  | Some parity => xor_into recovered parity
                  | None => recovered
                  end))
      else Ok None
  end.

(** The shards present in [l], numbered from 0. *)
Definition numbered (l : list (option bytes)) : list (nat * bytes) :=
  omap (fun i => pair i <$> shard_at l i) (seq 0 (length l)).

Section lrc.
Context `{RsSimd}.

Definition lrc_backend_new (c : LrcConfig) : outcome ErasureError LrcConfig :=
  if (lrc_data c =? 0)%nat then Err (InvalidConfig NoDataShards)
  else if (lrc_local c =? 0)%nat then Err (InvalidConfig NoLocalParity)
  else if negb (is_multiple_of (lrc_data c) (lrc_local c)) then Err (InvalidConfig UnevenGroups)
  else Ok c.

Definition encode_lrc (c : LrcConfig) (data_shards : list bytes) (shard_size : nat) :
    outcome ErasureError LrcEncodedData :=
  let k := lrc_data c in
  let group_size := local_group_size c in
  if negb (length data_shards =? k)%nat then Err (InvalidConfig (WrongDataShards k (length data_shards)))
  else match wrong_size data_shards shard_size with
  | Some (i, n) => Err (InvalidConfig (WrongSize i n shard_size))
  | None =>
      local ← mapM (M := outcome ErasureError) (fun group_idx =>
          group_data ← or_panic (slice (group_idx * group_size) group_size data_shards);
          Ok (xor_slices group_data shard_size)) (seq 0 (lrc_local c));
      global ← lib (fun e => EncodingFailed (LibraryError e)) (rs_encode k (lrc_global c) shard_size data_shards);
      Ok (mkEncoded data_shards local global)
  end.

(** The first loop of [decode]: what local groups rebuild, and what is left. *)
Fixpoint recover_locally (c : LrcConfig) (shards : list (option bytes)) (shard_size : nat)
    (indices : list nat) (reconstructed : list bytes) (remaining : list nat) :
    outcome ErasureError (list bytes * list nat) :=
  match indices with
  | [] => Ok (reconstructed, remaining)
  | idx :: indices =>
      r ← decode_local c shards shard_size idx;
      match r with
      | Some recovered => recover_locally c shards shard_size indices (reconstructed ++ [recovered])
          (filter (fun x => x <> idx) remaining)
      | None => recover_locally c shards shard_size indices reconstructed remaining
      end
  end.

(** The last loop: the rest from the global code, which restores data only. *)
Fixpoint restore_rest (k : nat) (restored : gmap nat bytes) (remaining : list nat) (reconstructed : list bytes) :
    outcome ErasureError (list bytes) :=
  match remaining with
  | [] => Ok reconstructed
  | idx :: remaining =>
      if (idx <? k)%nat then
        match restored !! idx with
        | Some s => restore_rest k restored remaining (reconstructed ++ [s])
        | None => Err (DecodingFailed (NotRestored idx))
        end
      else Err (DecodingFailed (NotData idx))
  end.

Definition lrc_decode (c : LrcConfig) (shards : list (option bytes)) (shard_size : nat)
    (missing_indices : list nat) : outcome ErasureError (list bytes) :=
  let k := lrc_data c in
  let l := lrc_local c in
  let g := lrc_global c in
  let total := (k + l + g)%nat in
  if negb (length shards =? total)%nat then Err (InvalidConfig (WrongSlots total (length shards)))
  else
    '(reconstructed, remaining) ← recover_locally c shards shard_size missing_indices [] missing_indices;
    match remaining with
    | [] => Ok reconstructed
    | _ =>
        let originals := take k shards in
        let recovery := take g (drop (k + l) shards) in
        let available := (count_some originals + count_some recovery)%nat in
        if (available <? k)%nat then Err (InsufficientShards available k)
        else
          _ ← lib (fun e => InvalidConfig (Library e)) (rs_decoder_new k g shard_size);
          restored ← lib (fun e => DecodingFailed (LibraryError e))
            (rs_decode k g shard_size (numbered originals) (numbered recovery));
          restore_rest k restored remaining reconstructed
    end.

End lrc.

End ErasureBackend.
