(* ===== verification/Erasure.v ===== *)
(** * The erasure codec

    [crates/erasure/src/codec.rs]: [ErasureCodec] over the backends of
    [ErasureBackend]: creation, the three ways to encode, [decode],
    [decode_verified] with its search over parity shards, and
    [reconstruct_shards]; and the iterator [Combinations] the search walks.
    Timing metrics are left out. A codec's errors are [ErasureError]s; the
    conversion to the common error type is left out. *)
From S2P Require Import Prelude Bytes Crc ErasureBackend.
Import ErasureBackend.

Module Erasure.

(** ** Configuration ([crates/common/src/types.rs]) *)
Inductive ErasureType :=
| Mds
| Lrc (local_parity global_parity : nat).

Record ErasureConfig := mkConfig {
  config_data : nat;
  config_parity : nat;
  ec_type : ErasureType;
}.

Definition config_new (data_shards parity_shards : nat) : ErasureConfig := mkConfig data_shards parity_shards Mds.
Definition config_lrc (data_shards local_parity global_parity : nat) : ErasureConfig :=
  mkConfig data_shards (wadd8 local_parity global_parity) (Lrc local_parity global_parity).
Definition EC_4_2 : ErasureConfig := config_new 4 2.

(** ** Combinations: every choice of [r] of [0..n] *)
Record Combinations := mkComb { comb_n : nat; comb_next_choice : option (list nat) }.

Definition comb_new (n r : nat) : Combinations :=
  mkComb n (if (r <=? n)%nat then Some (seq 0 r) else None).

(** [following[j] = following[j - 1] + 1] for [j] in [js]. *)
Definition pack_behind (js : list nat) (following : list nat) : list nat :=
  foldl (fun f j => <[j := S (f !!! (j - 1)%nat)]> f) following js.

(** The choice after [current]: the rightmost index that can still move
    right moves, and those after it are packed in behind. *)
Definition following (n : nat) (current : list nat) : option (list nat) :=
  let r := length current in
  i ← List.find (fun i => (current !!! i <? n - r + i)%nat) (reverse (seq 0 r));
  Some (pack_behind (seq (S i) (r - S i)) (<[i := S (current !!! i)]> current)).

Definition comb_next (c : Combinations) : option (list nat * Combinations) :=
  current ← comb_next_choice c;
  Some (current, mkComb (comb_n c) (following (comb_n c) current)).

(** ** The codec *)
Inductive CodecBackend :=
| MdsBackend (b : IsalBackend)
| LrcBackend (c : LrcConfig).

Record ErasureCodec := mkCodec { codec_config : ErasureConfig; backend : CodecBackend }.

Definition data_shards (c : ErasureCodec) : nat :=
  match backend c with MdsBackend b => isal_k b | LrcBackend c => lrc_data c end.

Definition parity_shards (c : ErasureCodec) : nat :=
  match backend c with MdsBackend b => isal_m b | LrcBackend c => total_parity c end.

Definition total_shards (c : ErasureCodec) : nat := (data_shards c + parity_shards c)%nat.

Definition is_lrc (c : ErasureCodec) : bool :=
  match backend c with LrcBackend _ => true | MdsBackend _ => false end.

Definition next_multiple_of (a b : nat) : nat :=
  if (a mod b =? 0)%nat then a else (a + (b - a mod b))%nat.

Definition shard_size_for (len k : nat) : nat := Nat.max (next_multiple_of (div_ceil_nat len k) 64) 64.

(** [usize] multiplication. *)
Definition usize_mul (a b : nat) : nat := Z.to_nat (wmul64 (Z.of_nat a) (Z.of_nat b)).

Definition isize_max : Z := 2 ^ 63 - 1.

(** [vec![0u8; n]], which panics past [isize::MAX] bytes. *)
Definition zeroed {E} (n : nat) : outcome E bytes :=
  if Z.of_nat n <=? isize_max then Ok (zeros n) else Panic.

Definition stripe_len (c : ErasureCodec) (data_len : nat) : nat :=
  usize_mul (shard_size_for data_len (data_shards c)) (total_shards c).

(** [chunks_exact]. *)
Definition chunks_exact (n : nat) (l : bytes) : list bytes :=
  (fun i => take n (drop (i * n) l)) <$> seq 0 (length l / n).

Definition join_data (data : list bytes) (original_size : nat) : bytes := take original_size (concat data).

(** Whether every data shard is present. *)
Definition data_present (c : ErasureCodec) (shards : list (option bytes)) : bool :=
  (data_shards c <=? length shards)%nat && bool_decide (Forall is_Some (take (data_shards c) shards)).

Section codec.
Context `{Isal} `{RsSimd} `{Crc32c}.

Definition new (config : ErasureConfig) : outcome ErasureError ErasureCodec :=
  if (config_data config =? 0)%nat then Err (InvalidConfig NoDataShards)
  else if (config_parity config =? 0)%nat then Err (InvalidConfig NoParityShards)
  else match ec_type config with
  | Mds =>
      b ← isal_backend_new (config_data config) (config_parity config);
      Ok (mkCodec config (MdsBackend b))
  | Lrc local_parity global_parity =>
      _ ← map_err (fun f => InvalidConfig (Scheme f)) (check_lrc (config_data config) local_parity global_parity);
      lrc_config ← LrcConfig_new (config_data config) local_parity global_parity;
      b ← lrc_backend_new lrc_config;
      Ok (mkCodec config (LrcBackend b))
  end.

(** *** Encoding *)
Definition encode (c : ErasureCodec) (data : bytes) : outcome ErasureError (list bytes) :=
  let k := data_shards c in
  let shard_size := shard_size_for (length data) k in
  padded ← zeroed (usize_mul shard_size k);
  padded ← or_panic (copy_into 0 data padded);
  data_shards ← mapM (M := outcome ErasureError)
    (fun i => or_panic (slice (i * shard_size) shard_size padded)) (seq 0 k);
  map_err (fun e => EncodingFailed (ErrorText e))
    match backend c with
    | MdsBackend b => isal_backend_encode b data_shards shard_size
    | LrcBackend b => all_shards <$> encode_lrc b data_shards shard_size
    end.

(** [encode_into]: the buffer as it is left, and the shard size. *)
Definition encode_into (c : ErasureCodec) (data stripe : bytes) : outcome ErasureError (bytes * nat) :=
  match backend c with
  | LrcBackend _ => Err (InvalidConfig NeedsMds)
  | MdsBackend b =>
      let k := data_shards c in
      let shard_size := shard_size_for (length data) k in
      let len := usize_mul shard_size (total_shards c) in
      if (length stripe <? len)%nat then Err ShardSizeMismatch
      else
        let used := take len stripe in
        let data_len := usize_mul shard_size k in
        used ← or_panic (copy_into 0 data used);
        if (data_len <? length data)%nat then Panic
        else
          used ← or_panic (copy_into (length data) (zeros (data_len - length data)) used);
          parity ← map_err (fun e => EncodingFailed (ErrorText e))
            (encode_parity_into b (chunks_exact shard_size (take data_len used))
               (chunks_exact shard_size (drop data_len used)) shard_size);
          Ok (take data_len used ++ concat parity ++ drop len stripe, shard_size)
  end.

Definition encode_bytes (c : ErasureCodec) (data : bytes) : outcome ErasureError (list bytes) :=
  if is_lrc c then encode c data
  else
    stripe ← zeroed (stripe_len c (length data));
    '(stripe, shard_size) ← encode_into c data stripe;
    mapM (M := outcome ErasureError) (fun i => or_panic (slice (i * shard_size) shard_size stripe))
      (seq 0 (total_shards c)).

(** Every shard of the stripe whose data shards are [data]. *)
Definition encode_shards (c : ErasureCodec) (data : list bytes) : outcome ErasureError (list bytes) :=
  let shard_size := from_option length 0%nat (head data) in
  match backend c with
  | MdsBackend b => isal_backend_encode b data shard_size
  | LrcBackend b => all_shards <$> encode_lrc b data shard_size
  end.

(** *** Decoding *)

(** [recovered[i].as_deref().or(shards[i])] for every slot. *)
Definition merged (n : nat) (recovered shards : list (option bytes)) : list (option bytes) :=
  (fun i => match shard_at recovered i with Some s => Some s | None => shard_at shards i end) <$> seq 0 n.

(** The data shards their own groups rebuild, one after the other. *)
Definition rebuild_local (b : LrcConfig) (n : nat) (shards : list (option bytes)) (shard_size : nat)
    (missing : list nat) : list (option bytes) :=
  foldl (fun recovered idx =>
      match decode_local b (merged n recovered shards) shard_size idx with
      | Ok (Some shard) => <[idx := Some shard]> recovered
      | _ => recovered
      end) (replicate n None) missing.

Definition rebuild_lrc (b : LrcConfig) (n k : nat) (shards : list (option bytes)) (shard_size : nat)
    (missing_indices : list nat) : outcome ErasureError (list bytes) :=
  let recovered := rebuild_local b n shards shard_size (filter (fun i => i < k)%nat missing_indices) in
  let still := filter (fun i => shard_at shards i = None /\ shard_at recovered i = None) (seq 0 k) in
  recovered ← (if bool_decide (still = []) then Ok recovered
    else
      global ← map_err (fun e => DecodingFailed (ErrorText e))
        (lrc_decode b (merged n recovered shards) shard_size still);
      Ok (foldl (fun r p => <[p.1 := Some p.2]> r) recovered (zip still global)));
  mapM (M := outcome ErasureError) (fun i =>
      match shard_at recovered i with
      | Some s => Ok s
      | None => ok_or (shard_at shards i) (DecodingFailed (NotRebuilt i))
      end) (seq 0 k).

Definition rebuild_data (c : ErasureCodec) (shards : list (option bytes)) : outcome ErasureError (list bytes) :=
  let k := data_shards c in
  if negb (length shards =? total_shards c)%nat
  then Err (InvalidConfig (WrongSlots (total_shards c) (length shards)))
  else if (count_some shards <? k)%nat then Err (InsufficientShards (count_some shards) k)
  else
    shard_size ← ok_or (length <$> head (omap (fun s => s) shards)) (InsufficientShards 0 k);
    if data_present c shards then Ok (omap (fun s => s) (take k shards))
    else
      let missing_indices := filter (fun i => shard_at shards i = None) (seq 0 (length shards)) in
      match backend c with
      | MdsBackend b =>
          decoded ← map_err (fun e => DecodingFailed (ErrorText e)) (isal_backend_decode b shards shard_size missing_indices);
          if (length decoded <? k)%nat then Err (DecodingFailed (ReturnedFew (length decoded) k))
          else Ok (take k decoded)
      | LrcBackend b => rebuild_lrc b (total_shards c) k shards shard_size missing_indices
      end.

Definition decode (c : ErasureCodec) (shards : list (option bytes)) (original_size : nat) :
    outcome ErasureError bytes :=
  if data_present c shards then Ok (join_data (omap (fun s => s) (take (data_shards c) shards)) original_size)
  else data ← rebuild_data c shards; Ok (join_data data original_size).

(** *** Verified decoding *)
Definition MAX_DECODE_ATTEMPTS : nat := 256.

Inductive Check := Verified | Mismatch | Unchecked.

(** Whether the rebuilt shards match the checksums recorded: [None] when one
    does not, else whether one has none. *)
Fixpoint match_recorded (data : list bytes) (recorded : list (option Z)) (rebuilt : list nat) (unrecorded : bool) :
    outcome ErasureError (option bool) :=
  match rebuilt with
  | [] => Ok (Some unrecorded)
  | i :: rebuilt =>
      match shard_at recorded i with
      | Some crc =>
          s ← or_panic (data !! i);
          if crc32c s =? crc then match_recorded data recorded rebuilt unrecorded else Ok None
      | None => match_recorded data recorded rebuilt true
      end
  end.

(** Whether one of the shards [unused] is what the stripe has there. *)
Fixpoint borne_out (shards : list (option bytes)) (stripe : list bytes) (unused : list nat) : outcome ErasureError bool :=
  match unused with
  | [] => Ok false
  | p :: unused =>
      match shard_at shards p with
      | Some s =>
          t ← or_panic (stripe !! p);
          if bool_decide (s = t) then Ok true else borne_out shards stripe unused
      | None => borne_out shards stripe unused
      end
  end.

Definition check_rebuilt (c : ErasureCodec) (shards : list (option bytes)) (data : list bytes)
    (rebuilt chosen : list nat) (recorded : list (option Z)) : outcome ErasureError Check :=
  m ← match_recorded data recorded rebuilt false;
  match m with
  | None => Ok Mismatch
  | Some false => Ok Verified
  | Some true =>
      let unused := filter (fun i => is_Some (shard_at shards i) /\ i ∉ chosen)
        (seq (data_shards c) (total_shards c - data_shards c)) in
      match unused with
      | [] => Ok Unchecked
      | _ =>
          match encode_shards c data with
          | Ok stripe => b ← borne_out shards stripe unused; Ok (if b : bool then Verified else Mismatch)
          | Err _ => Ok Unchecked
          | Panic => Panic
          end
      end
  end.

(** The shards given, of the parity only those chosen. *)
Definition subset_of (c : ErasureCodec) (shards : list (option bytes)) (chosen : list nat) : list (option bytes) :=
  (fun i => if bool_decide ((i < data_shards c)%nat \/ i ∈ chosen) then shard_at shards i else None)
    <$> seq 0 (total_shards c).

Inductive search := Found (data : list bytes) | NotFound (budget mismatched : nat).

(** One choice of parity shards: the data it rebuilds, when it checks out,
    or how many mismatches there are now. *)
Definition try_choice (c : ErasureCodec) (shards : list (option bytes)) (rebuilt parity : list nat)
    (recorded : list (option Z)) (choice : list nat) (budget mismatched : nat) : outcome ErasureError search :=
  chosen ← mapM (M := outcome ErasureError) (fun i => or_panic (parity !! i)) choice;
  match rebuild_data c (subset_of c shards chosen) with
  | Err _ => Ok (NotFound budget mismatched)
  | Panic => Panic
  | Ok data =>
      ch ← check_rebuilt c shards data rebuilt chosen recorded;
      Ok (match ch with
          | Verified => Found data
          | Mismatch => NotFound budget (S mismatched)
          | Unchecked => NotFound budget mismatched
          end)
  end.

(** The inner loop, [budget] decodes before the limit. *)
Fixpoint try_choices (c : ErasureCodec) (shards : list (option bytes)) (rebuilt parity : list nat)
    (recorded : list (option Z)) (budget : nat) (cs : Combinations) (mismatched : nat) : outcome ErasureError search :=
  match comb_next cs with
  | None => Ok (NotFound budget mismatched)
  | Some (choice, cs) =>
      match budget with
      | O => Ok (NotFound O mismatched)
      | S budget =>
          s ← try_choice c shards rebuilt parity recorded choice budget mismatched;
          match s with
          | Found data => Ok (Found data)
          | NotFound _ mismatched => try_choices c shards rebuilt parity recorded budget cs mismatched
          end
      end
  end.

(** The outer loop, over how many parity shards a decode uses. *)
Fixpoint try_used (c : ErasureCodec) (shards : list (option bytes)) (rebuilt parity : list nat)
    (recorded : list (option Z)) (used : list nat) (budget mismatched : nat) : outcome ErasureError search :=
  match used with
  | [] => Ok (NotFound budget mismatched)
  | u :: used =>
      s ← try_choices c shards rebuilt parity recorded budget (comb_new (length parity) u) mismatched;
      match s with
      | Found data => Ok (Found data)
      | NotFound budget mismatched => try_used c shards rebuilt parity recorded used budget mismatched
      end
  end.

Definition decode_verified (c : ErasureCodec) (shards : list (option bytes)) (original_size : nat)
    (recorded : list (option Z)) : outcome ErasureError bytes :=
  let k := data_shards c in
  let n := total_shards c in
  if negb (length shards =? n)%nat then Err (InvalidConfig (WrongSlots n (length shards)))
  else if data_present c shards then Ok (join_data (omap (fun s => s) (take k shards)) original_size)
  else
    let available := count_some shards in
    if (available <? k)%nat then Err (InsufficientShards available k)
    else
      let rebuilt := filter (fun i => shard_at shards i = None) (seq 0 k) in
      let parity := filter (fun i => is_Some (shard_at shards i)) (seq k (n - k)) in
      s ← try_used c shards rebuilt parity recorded
        (seq (length rebuilt) (S (length parity) - length rebuilt)) MAX_DECODE_ATTEMPTS 0;
      match s with
      | Found data => Ok (join_data data original_size)
      | NotFound budget mismatched => Err (Unverified rebuilt available mismatched (MAX_DECODE_ATTEMPTS - budget))
      end.

(** *** Repair *)

(** The shards at [indices], each taken out of the stripe. *)
Fixpoint take_shards (stripe : list bytes) (indices : list nat) : outcome ErasureError (list bytes) :=
  match indices with
  | [] => Ok []
  | i :: indices =>
      s ← ok_or (stripe !! i) (InvalidConfig (NoShard i));
      rest ← take_shards (<[i := []]> stripe) indices;
      Ok (s :: rest)
  end.

Definition reconstruct_shards (c : ErasureCodec) (shards : list (option bytes)) (missing_indices : list nat) :
    outcome ErasureError (list bytes) :=
  let k := data_shards c in
  if (count_some shards <? k)%nat then Err (InsufficientShards (count_some shards) k)
  else
    shard_size ← ok_or (length <$> head (omap (fun s => s) shards)) (InsufficientShards 0 k);
    match backend c with
    | MdsBackend b =>
        decoded ← map_err (fun e => DecodingFailed (ErrorText e)) (isal_backend_decode b shards shard_size missing_indices);
        if (length decoded <? k)%nat then Err (DecodingFailed (ReturnedFew (length decoded) k))
        else
          stripe ← map_err (fun e => EncodingFailed (ErrorText e)) (isal_backend_encode b (take k decoded) shard_size);
          take_shards stripe missing_indices
    | LrcBackend _ =>
        data ← rebuild_data c shards;
        stripe ← encode_shards c data;
        take_shards stripe missing_indices
    end.

End codec.

End Erasure.
