(* ===== verification/CombinationsSpec.v ===== *)
(** * The choices a verified decode walks

    [Combinations] of [codec.rs] against a reference: it yields every choice
    of [r] of [0..n], once, in lexicographic order ([combinations_exact]). *)
From S2P Require Import Prelude Bytes Crc ErasureBackend Erasure.
Import ErasureBackend Erasure.

Module CombinationsSpec.

(** Every choice of [r] elements of [l], in the order of [l]. *)
Fixpoint choose (r : nat) (l : list nat) : list (list nat) :=
  match r, l with
  | O, _ => [[]]
  | S _, [] => []
  | S r', x :: l' => (cons x <$> choose r' l') ++ choose r l'
  end.

(** What an iterator yields until it ends. *)
Inductive yields : Combinations -> list (list nat) -> Prop :=
| yields_end c : comb_next c = None -> yields c []
| yields_next c x c' l : comb_next c = Some (x, c') -> yields c' l -> yields c (x :: l).

(** ** One step *)
Lemma find_map {A B} (f : B -> bool) (g : A -> B) l :
  List.find f (g <$> l) = g <$> List.find (fun x => f (g x)) l.
Proof. induction l as [|x l IH]; [done|]. cbn. destruct (f (g x)); [done|apply IH]. Qed.

Lemma find_snoc {A} (f : A -> bool) l x :
  List.find f (l ++ [x]) = match List.find f l with Some y => Some y | None => if f x then Some x else None end.
Proof. induction l as [|y l IH]; cbn; [done|]. by destruct (f y). Qed.

Lemma find_ext {A} (f g : A -> bool) l : (forall x, x ∈ l -> f x = g x) -> List.find f l = List.find g l.
Proof.
  induction l as [|x l IH]; intros H; [done|]. cbn. rewrite (H x), IH; [done| |by left].
  intros y Hy. apply H. by right.
Qed.

Lemma reverse_seq_S r : reverse (seq 0 (S r)) = (S <$> reverse (seq 0 r)) ++ [0%nat].
Proof. cbn [seq]. rewrite reverse_cons. f_equal. by rewrite <- seq_shift, fmap_reverse. Qed.

Lemma pack_behind_cons js a f : Forall (fun j => 1 <= j)%nat js ->
  pack_behind (S <$> js) (a :: f) = a :: pack_behind js f.
Proof.
  unfold pack_behind. revert f. induction js as [|j js IH]; intros f Hj; [done|].
  apply Forall_cons in Hj as [Hj Hjs]. rewrite fmap_cons. cbn [foldl].
  rewrite <- IH by done. f_equal. cbn [insert list_insert]. do 2 f_equal.
  destruct j as [|j]; [lia|]. cbn. by rewrite Nat.sub_0_r.
Qed.

(** Packed from index 1 on, a list is a run from its first element. *)
Lemma pack_behind_run d p x suf : length suf = d ->
  pack_behind (seq (S (length p)) d) (p ++ x :: suf) = p ++ seq x (S d).
Proof.
  unfold pack_behind. revert p x suf. induction d as [|d IH]; intros p x suf Hl.
  - by destruct suf.
  - destruct suf as [|y suf]; [done|]. cbn [seq foldl]. injection Hl as Hl.
    replace (S (length p)) with (length (p ++ [x])) by (rewrite length_app; cbn; lia).
    replace (p ++ x :: y :: suf) with ((p ++ [x]) ++ y :: suf) by (by rewrite <- app_assoc).
    rewrite insert_app_r_alt, Nat.sub_diag by lia. cbn [insert list_insert].
    rewrite (list_lookup_total_correct _ _ x).
    2:{ rewrite lookup_app_l by (rewrite length_app; cbn; lia).
        rewrite lookup_app_r by (rewrite length_app; cbn; lia). rewrite length_app. cbn.
        by replace (length p + 1 - 1 - length p)%nat with 0%nat by lia. }
    rewrite (IH (p ++ [x]) (S x) suf Hl). by rewrite <- app_assoc.
Qed.

Lemma following_cons n a s : (length s < n)%nat ->
  following n (a :: s) =
    match following n s with
    | Some s' => Some (a :: s')
    | None => if (a <? n - S (length s))%nat then Some (seq (S a) (S (length s))) else None
    end.
Proof.
  intros Hn. unfold following. cbn [length]. rewrite reverse_seq_S, find_snoc, find_map.
  rewrite (find_ext _ (fun i => (s !!! i <? n - length s + i)%nat)).
  2:{ intros i _. cbn. by replace (n - S (length s) + S i)%nat with (n - length s + i)%nat by lia. }
  destruct (List.find _ (reverse (seq 0 (length s)))) as [i|] eqn:Ef; cbn [fmap option_fmap option_map mbind option_bind].
  - f_equal. cbn [insert list_insert Nat.sub]. rewrite <- fmap_S_seq.
    apply pack_behind_cons, Forall_forall. intros j [? ?]%elem_of_seq. lia.
  - change ((a :: s) !!! 0%nat) with a. rewrite Nat.add_0_r.
    destruct (a <? n - S (length s))%nat; [|done]. cbn [mbind option_bind]. f_equal.
    replace (S (length s) - 1)%nat with (length s) by lia. change ((a :: s) !!! 0%nat) with a.
    by apply (pack_behind_run (length s) [] (S a) s).
Qed.

(** ** All steps

    [walk n x l e]: from [x] the steps go through the choices [l], and after
    the last comes [e]. *)
Inductive walk (n : nat) : option (list nat) -> list (list nat) -> option (list nat) -> Prop :=
| walk_nil e : walk n e [] e
| walk_cons x l e : walk n (following n x) l e -> walk n (Some x) (x :: l) e.

Lemma walk_app n x l e l' e' : walk n x l e -> walk n e l' e' -> walk n x (l ++ l') e'.
Proof. induction 1; cbn; [done|]. intros. constructor. auto. Qed.

Lemma walk_prefix n a x l r : walk n x l None -> (forall y, y ∈ l -> length y = r) -> (r < n)%nat -> is_Some x ->
  walk n (cons a <$> x) (cons a <$> l) (if (a <? n - S r)%nat then Some (seq (S a) (S r)) else None).
Proof.
  intros Hw. remember None as e eqn:He. induction Hw as [e|x l e Hw IH]; intros Hl Hr Hx; [by destruct Hx; simplify_eq|].
  assert (length x = r) as Hxr by (apply Hl; by left). rewrite fmap_cons. cbn [fmap option_fmap option_map]. constructor.
  rewrite following_cons by lia. rewrite Hxr. destruct (following n x) as [y|] eqn:Ef.
  - apply IH; [done| |done|eauto]. intros z Hz. apply Hl. by right.
  - inversion Hw; simplify_eq. constructor.
Qed.

Lemma choose_length r l y : y ∈ choose r l -> length y = r.
Proof.
  revert r y. induction l as [|x l IH]; intros [|r] y; cbn.
  - by intros ->%list_elem_of_singleton.
  - by intros ?%not_elem_of_nil.
  - by intros ->%list_elem_of_singleton.
  - intros [(z & -> & Hz)%list_elem_of_fmap|Hy]%elem_of_app; [cbn; f_equal|]; auto.
Qed.

Lemma choose_none r l : (length l < r)%nat -> choose r l = [].
Proof.
  revert r. induction l as [|x l IH]; intros [|r] Hr; cbn in *; try lia; [done|].
  rewrite !IH by lia. done.
Qed.

Lemma walk_choose n m a r : (a + m = n)%nat -> (r <= m)%nat -> walk n (Some (seq a r)) (choose r (seq a m)) None.
Proof.
  revert a r. induction m as [|m IH]; intros a [|r] Hm Hr; try lia.
  - constructor. constructor.
  - constructor. constructor.
  - cbn [seq choose]. eapply walk_app.
    + apply (walk_prefix n a (Some (seq (S a) r)) _ r); [apply IH; lia| |lia|eauto].
      intros y. apply choose_length.
    + destruct (Nat.ltb_spec a (n - S r)).
      * apply IH; lia.
      * rewrite choose_none by (rewrite length_seq; lia). constructor.
Qed.

Lemma walk_yields n x l : walk n x l None -> yields (mkComb n x) l.
Proof.
  remember None as e eqn:He. induction 1 as [e|x l e Hw IH]; subst; [by constructor|].
  econstructor; [done|auto].
Qed.

(** The iterator yields every choice of [r] of [0..n] once, in lexicographic
    order, and ends. *)
Theorem combinations_exact n r : yields (comb_new n r) (choose r (seq 0 n)).
Proof.
  unfold comb_new. destruct (Nat.leb_spec r n).
  - apply walk_yields, walk_choose; lia.
  - rewrite choose_none by (rewrite length_seq; lia). by constructor.
Qed.

(** What is chosen: the sublists of [l] with [r] elements. *)
Lemma elem_of_choose r l y : y ∈ choose r l <-> length y = r /\ sublist y l.
Proof.
  split.
  - intros Hy. split; [by eapply choose_length|]. revert r y Hy.
    induction l as [|x l IH]; intros [|r] y; cbn.
    + by intros ->%list_elem_of_singleton.
    + by intros ?%not_elem_of_nil.
    + intros ->%list_elem_of_singleton. apply sublist_nil_l.
    + intros [(z & -> & Hz)%list_elem_of_fmap|Hy]%elem_of_app; constructor; eauto.
  - intros [<- Hs]. induction Hs as [|x y l Hs IH|x y l Hs IH].
    + by left.
    + apply elem_of_app. left. by apply list_elem_of_fmap_2.
    + destruct y as [|z y]; [by left|]. apply elem_of_app. by right.
Qed.

End CombinationsSpec.
