(* ===== verification/Stripes.v ===== *)
(** * Stripes and their slots

    What the proofs about erasure coding share: slots that hold part of a
    stripe ([agrees]), counting what is missing, cutting data into shards and
    joining it again, and what the coding libraries promise ([IsalMds],
    [RsCode]). *)
From S2P Require Import Prelude Bytes Crc ErasureBackend Erasure.
Import ErasureBackend Erasure.

Module Stripes.

(** Shards of one size. *)
Definition sized (size : nat) (l : list bytes) : Prop := Forall (fun s => length s = size) l.

(** The sizes the codec uses: multiples of 64 bytes. *)
Definition aligned (size : nat) : Prop := (0 < size)%nat /\ (size mod 64 = 0)%nat.

(** Each slot is empty or holds the stripe's shard. *)
Definition agrees (shards : list (option bytes)) (stripe : list bytes) : Prop :=
  Forall2 (fun o s => o = None \/ o = Some s) shards stripe.

(** ** What the libraries promise *)

(** ISA-L as an MDS code of [k] data and [m] parity shards: it writes the
    parity whatever the buffers held, and fills in up to [m] erased positions
    of a stripe, whatever their buffers held. It never changes a shard that
    is not erased. *)
Record IsalMds `{Isal} (k m : nat) : Prop := {
  isal_encodes : forall data bufs size, length data = k -> length bufs = m ->
    sized size data -> sized size bufs -> aligned size ->
    exists parity, isal_encode k m data (replicate m (zeros size)) = inr parity /\
      isal_encode k m data bufs = inr parity /\ length parity = m /\ sized size parity;
  isal_decodes : forall data parity size d p es, length data = k -> sized size data -> aligned size ->
    isal_encode k m data (replicate m (zeros size)) = inr parity ->
    length d = k -> length p = m -> sized size d -> sized size p ->
    NoDup es -> Forall (fun i => i < k + m)%nat es -> (length es <= m)%nat ->
    (forall i, i ∉ es -> (d ++ p) !! i = (data ++ parity) !! i) ->
    exists p', isal_decode k m d p es = inr (data, p');
  isal_keeps : forall d p es d' p', isal_decode k m d p es = inr (d', p') ->
    length d' = length d /\ forall i, i ∉ es -> d' !! i = d !! i;
}.

(** reed-solomon-simd as a code of [k] original and [g] recovery shards: any
    [k] of them restore the originals that are not given. *)
Record RsCode `{RsSimd} (k g : nat) : Prop := {
  rs_encodes : forall data size, length data = k -> sized size data -> aligned size ->
    exists recovery, rs_encode k g size data = inr recovery /\ length recovery = g /\ sized size recovery;
  rs_decodes : forall data recovery size os rs, length data = k -> sized size data -> aligned size ->
    rs_encode k g size data = inr recovery -> agrees os data -> agrees rs recovery ->
    (k <= count_some os + count_some rs)%nat ->
    rs_decoder_new k g size = inr () /\
    exists restored, rs_decode k g size (numbered os) (numbered rs) = inr restored /\
      forall i s, data !! i = Some s -> shard_at os i = None -> restored !! i = Some s;
}.

(** ** Slots *)
Section slots.
Context {A : Type}.
Implicit Types (l : list (option A)).

Definition missing l : list nat := filter (fun i => shard_at l i = None) (seq 0 (length l)).

Lemma shard_at_app_l l k i : (i < length l)%nat -> shard_at (l ++ k) i = shard_at l i.
Proof. intros. unfold shard_at. by rewrite lookup_app_l. Qed.

Lemma shard_at_app_r l k i : (length l <= i)%nat -> shard_at (l ++ k) i = shard_at k (i - length l).
Proof. intros. unfold shard_at. by rewrite lookup_app_r. Qed.

Lemma shard_at_Some l i x : shard_at l i = Some x <-> l !! i = Some (Some x).
Proof. unfold shard_at. destruct (l !! i) as [[]|]; cbn; naive_solver. Qed.

Lemma shard_at_take l n i : (i < n)%nat -> shard_at (take n l) i = shard_at l i.
Proof. intros. unfold shard_at. by rewrite lookup_take_lt. Qed.

Lemma shard_at_ge l i : (length l <= i)%nat -> shard_at l i = None.
Proof. intros. unfold shard_at. by rewrite lookup_ge_None_2. Qed.

Lemma shard_at_lt l i x : shard_at l i = Some x -> (i < length l)%nat.
Proof. intros Hx%shard_at_Some. by eapply lookup_lt_Some. Qed.

Lemma shard_at_none n i : shard_at (replicate n (@None A)) i = None.
Proof. unfold shard_at. destruct (replicate n None !! i) as [o|] eqn:E; [|done]. by apply lookup_replicate in E as [-> _]. Qed.

Lemma shard_at_insert_eq l i o : (i < length l)%nat -> shard_at (<[i := o]> l) i = o.
Proof. intros Hi. unfold shard_at. by rewrite list_lookup_insert_eq. Qed.

Lemma shard_at_insert_ne l i j o : i <> j -> shard_at (<[i := o]> l) j = shard_at l j.
Proof. intros Hij. unfold shard_at. by rewrite list_lookup_insert_ne. Qed.

Lemma elem_of_missing l i : i ∈ missing l <-> (i < length l)%nat /\ shard_at l i = None.
Proof. unfold missing. rewrite list_elem_of_filter, elem_of_seq. split; [intros [? [_ ?]]|intros [? ?]]; split_and?; auto with lia. Qed.

Lemma missing_NoDup l : NoDup (missing l).
Proof. apply NoDup_filter, NoDup_seq. Qed.

Lemma count_some_app l k : count_some (l ++ k) = (count_some l + count_some k)%nat.
Proof. unfold count_some. by rewrite filter_app, length_app. Qed.

Lemma missing_snoc l x : missing (l ++ [x]) = missing l ++ (if x is None then [length l] else []).
Proof.
  unfold missing. rewrite length_app. cbn [length]. rewrite seq_app, filter_app. cbn [seq]. f_equal.
  - apply filter_ext_in. intros i [_ Hi]%elem_of_seq. by rewrite shard_at_app_l by lia.
  - rewrite filter_cons. rewrite shard_at_app_r by lia. rewrite Nat.sub_diag. cbn.
    destruct x; [by rewrite decide_False|by rewrite decide_True].
Qed.

Lemma length_missing l : (length (missing l) + count_some l = length l)%nat.
Proof.
  induction l as [|x l IH] using rev_ind; [done|].
  rewrite missing_snoc, count_some_app, !length_app. destruct x as [a|].
  - change (count_some [Some a]) with 1%nat. cbn [length]. lia.
  - change (count_some [@None A]) with 0%nat. cbn [length]. lia.
Qed.

Definition present l : list nat := filter (fun i => is_Some (shard_at l i)) (seq 0 (length l)).

Lemma length_filter_split (P Q : nat -> Prop) `{forall x, Decision (P x)} `{forall x, Decision (Q x)} (l : list nat) :
  length (filter P l) = (length (filter (fun x => P x /\ Q x) l) + length (filter (fun x => P x /\ ~ Q x) l))%nat.
Proof. induction l as [|x l IH]; [done|]. rewrite !filter_cons. repeat case_decide; cbn [length]; tauto || lia. Qed.

Lemma present_snoc l x : present (l ++ [x]) = present l ++ (if x is None then [] else [length l]).
Proof.
  unfold present. rewrite length_app. cbn [length]. rewrite seq_app, filter_app. cbn [seq]. f_equal.
  - apply filter_ext_in. intros i [_ Hi]%elem_of_seq. by rewrite shard_at_app_l by lia.
  - rewrite filter_cons. rewrite shard_at_app_r by lia. rewrite Nat.sub_diag. cbn.
    destruct x; [by rewrite decide_True by eauto|by rewrite decide_False by (by intros [])].
Qed.

Lemma length_present l : length (present l) = count_some l.
Proof.
  induction l as [|x l IH] using rev_ind; [done|]. rewrite present_snoc, count_some_app, length_app, IH.
  destruct x as [a|]; [done|]. by change (count_some [@None A]) with 0%nat.
Qed.

Lemma Forall_is_Some l : Forall is_Some l <-> missing l = [].
Proof.
  rewrite Forall_lookup. split.
  - intros Hl. apply elem_of_nil_inv. intros i [Hi Hn]%elem_of_missing.
    destruct (lookup_lt_is_Some_2 l i Hi) as [x Hx]. destruct (Hl i x Hx) as [y ->].
    unfold shard_at in Hn. by rewrite Hx in Hn.
  - intros Hm i x Hx. destruct x as [y|]; [eauto|]. exfalso.
    apply (not_elem_of_nil i). rewrite <- Hm. apply elem_of_missing. split; [by eapply lookup_lt_Some|].
    unfold shard_at. by rewrite Hx.
Qed.

(** Slots filled in one after the other. *)
Definition fill_in l (ps : list (nat * A)) : list (option A) := foldl (fun r p => <[p.1 := Some p.2]> r) l ps.

Lemma fill_in_length l ps : length (fill_in l ps) = length l.
Proof. unfold fill_in. revert l. induction ps as [|p ps IH]; intros l; [done|]. cbn. by rewrite IH, length_insert. Qed.

Lemma fill_in_other l ps i : i ∉ ps.*1 -> shard_at (fill_in l ps) i = shard_at l i.
Proof.
  unfold fill_in. revert l. induction ps as [|[j x] ps IH]; intros l Hi; [done|]. cbn in *.
  apply not_elem_of_cons in Hi as [Hij Hi]. rewrite IH by done. by apply shard_at_insert_ne.
Qed.

Lemma fill_in_at l ps i x : NoDup ps.*1 -> (i, x) ∈ ps -> (i < length l)%nat -> shard_at (fill_in l ps) i = Some x.
Proof.
  unfold fill_in. revert l. induction ps as [|[j y] ps IH]; intros l Hnd Hin Hl; [by apply not_elem_of_nil in Hin|].
  cbn in *. apply NoDup_cons in Hnd as [Hj Hnd]. apply elem_of_cons in Hin as [[= <- <-]|Hin].
  - change (shard_at (fill_in (<[i := Some x]> l) ps) i = Some x). rewrite fill_in_other by done.
    by apply shard_at_insert_eq.
  - apply IH; [done|done|]. by rewrite length_insert.
Qed.

(** Slots are decided by [shard_at]. *)
Lemma slots_ext l k : length l = length k -> (forall i, (i < length l)%nat -> shard_at l i = shard_at k i) -> l = k.
Proof.
  intros Hl Hi. apply list_eq_same_length with (length l); [done..|].
  intros i x y Hlt Hx Hy. specialize (Hi i Hlt). unfold shard_at in Hi. by rewrite Hx, Hy in Hi.
Qed.

Lemma count_some_zero l : count_some l = 0%nat <-> forall i, shard_at l i = None.
Proof.
  unfold count_some. split.
  - intros Hn%length_zero_iff_nil i. destruct (shard_at l i) as [x|] eqn:E; [|done].
    apply shard_at_Some in E. exfalso. apply (not_elem_of_nil (Some x)). rewrite <- Hn.
    apply list_elem_of_filter. split; [eauto|]. by eapply list_elem_of_lookup_2.
  - intros Hn. destruct (filter is_Some l) as [|x k] eqn:E; [done|].
    assert (x ∈ filter is_Some l) as [[y ->] [i Hi]%list_elem_of_lookup]%list_elem_of_filter by (rewrite E; by left).
    specialize (Hn i). unfold shard_at in Hn. by rewrite Hi in Hn.
Qed.

End slots.

(** ** Slots of a stripe *)
Lemma agrees_length shards stripe : agrees shards stripe -> length shards = length stripe.
Proof. apply Forall2_length. Qed.

Lemma agrees_lookup shards stripe i x : agrees shards stripe -> shard_at shards i = Some x -> stripe !! i = Some x.
Proof.
  intros Ha Hx%shard_at_Some. destruct (Forall2_lookup_l _ _ _ _ _ Ha Hx) as (s & Hs & Ho). by destruct Ho; simplify_eq.
Qed.

Lemma agrees_intro shards stripe : length shards = length stripe ->
  (forall i x, shard_at shards i = Some x -> stripe !! i = Some x) -> agrees shards stripe.
Proof.
  intros Hl Hi. apply Forall2_same_length_lookup. split; [done|]. intros i o s Ho Hs.
  destruct o as [x|]; [|by left]. right. f_equal.
  assert (stripe !! i = Some x) by (apply Hi; by apply shard_at_Some). congruence.
Qed.

Lemma agrees_app s1 s2 t1 t2 : agrees s1 t1 -> agrees s2 t2 -> agrees (s1 ++ s2) (t1 ++ t2).
Proof. apply Forall2_app. Qed.

Lemma agrees_take n shards stripe : agrees shards stripe -> agrees (take n shards) (take n stripe).
Proof. apply Forall2_take. Qed.

Lemma agrees_drop n shards stripe : agrees shards stripe -> agrees (drop n shards) (drop n stripe).
Proof. apply Forall2_drop. Qed.

(** The slots of a stripe that lost the shards [idxs]. *)
Definition erase (idxs : list nat) (stripe : list bytes) : list (option bytes) :=
  imap (fun i s => if decide (i ∈ idxs) then None else Some s) stripe.

Lemma agrees_erase idxs stripe : agrees (erase idxs stripe) stripe.
Proof.
  apply agrees_intro; [apply length_imap|]. intros i x Hx%shard_at_Some.
  unfold erase in Hx. rewrite list_lookup_imap in Hx. destruct (stripe !! i); [|done]. cbn in Hx.
  case_decide; [done|congruence].
Qed.

(** Full slots hold the whole stripe. *)
Lemma agrees_full shards stripe : agrees shards stripe -> missing shards = [] -> omap (fun s => s) shards = stripe.
Proof.
  intros Ha Hm. apply Forall_is_Some in Hm. induction Ha as [|o s shards stripe Ho Ha IH]; [done|].
  apply Forall_cons in Hm as [[x Hx] Hm]. destruct Ho as [-> | ->]; [done|]. cbn. f_equal. auto.
Qed.

Lemma agrees_first shards stripe size : agrees shards stripe -> sized size stripe -> (0 < count_some shards)%nat ->
  length <$> head (omap (fun s => s) shards) = Some size.
Proof.
  intros Ha. induction Ha as [|o s shards stripe Ho Ha IH]; intros Hs Hc; [cbn in Hc; lia|].
  apply Forall_cons in Hs as [Hs Hss]. destruct Ho as [-> | ->]; [|cbn; congruence].
  cbn. apply IH; [done|]. unfold count_some in *. cbn in Hc. done.
Qed.

(** ** Sizes *)
Lemma sized_zeros size m : sized size (replicate m (zeros size)).
Proof. apply Forall_replicate. apply length_replicate. Qed.

Lemma sized_lookup size l i s : sized size l -> l !! i = Some s -> length s = size.
Proof. intros Hl Hs. by eapply Forall_lookup_1 in Hl. Qed.

Lemma wrong_size_none size l : sized size l -> wrong_size l size = None.
Proof.
  intros Hs. unfold wrong_size. apply fmap_None, list_find_None.
  eapply Forall_impl; [exact Hs|]. intros s Hl. cbn in *. by intros [].
Qed.

Lemma sized_wrong size l : wrong_size l size = None -> sized size l.
Proof.
  unfold wrong_size. intros Hw%fmap_None%list_find_None.
  eapply Forall_impl; [exact Hw|]. intros s Hl. cbn in *. by destruct (decide (length s = size)).
Qed.

Lemma sized_no_other size l : sized size l -> existsb (fun s => negb (length s =? size)%nat) l = false.
Proof.
  induction 1 as [|s l Hs Hl IH]; [done|]. cbn. rewrite IH, Hs, Nat.eqb_refl. done.
Qed.

Lemma sized_app size l k : sized size (l ++ k) <-> sized size l /\ sized size k.
Proof. apply Forall_app. Qed.

Lemma sized_concat size l : sized size l -> length (concat l) = (length l * size)%nat.
Proof. induction 1 as [|s l Hs Hl IH]; [done|]. cbn. rewrite length_app. lia. Qed.

Lemma head_size size l : (0 < length l)%nat -> sized size l -> from_option length 0%nat (head l) = size.
Proof. destruct l; [cbn; lia|]. by intros _ [Hx _]%Forall_cons. Qed.

(** ** Cutting and joining *)
Definition cut (n k : nat) (l : bytes) : list bytes := (fun i => take n (drop (i * n) l)) <$> seq 0 k.

Lemma cut_S n k l : cut n (S k) l = take n l :: cut n k (drop n l).
Proof.
  unfold cut. cbn [seq fmap list_fmap]. rewrite Nat.mul_0_l, drop_0. f_equal.
  rewrite <- seq_shift, <- list_fmap_compose. apply list_fmap_ext. intros _ i _. cbn.
  by rewrite drop_drop.
Qed.

Lemma concat_cut n k l : length l = (k * n)%nat -> concat (cut n k l) = l.
Proof.
  revert l. induction k as [|k IH]; intros l Hl; [by destruct l|].
  rewrite cut_S. cbn [concat]. rewrite IH by (rewrite length_drop; lia). apply take_drop.
Qed.

Lemma length_cut n k l : length (cut n k l) = k.
Proof. unfold cut. by rewrite length_fmap, length_seq. Qed.

Lemma sized_cut n k l : length l = (k * n)%nat -> sized n (cut n k l).
Proof.
  revert l. induction k as [|k IH]; intros l Hl; [constructor|].
  rewrite cut_S. constructor; [rewrite length_take; lia|]. apply IH. rewrite length_drop. lia.
Qed.

Lemma cut_concat n l : sized n l -> cut n (length l) (concat l) = l.
Proof.
  induction 1 as [|s l Hs Hl IH]; [done|]. cbn [length concat]. rewrite cut_S.
  rewrite take_app_length', drop_app_length' by done. by rewrite IH.
Qed.

Lemma cut_app_l n k a b : length a = (k * n)%nat -> cut n k (a ++ b) = cut n k a.
Proof.
  revert a. induction k as [|k IH]; intros a Ha; [done|]. rewrite !cut_S.
  rewrite take_app_le, drop_app_le by lia. by rewrite IH by (rewrite length_drop; lia).
Qed.

Lemma mapM_slices {E} n k l : (k * n <= length l)%nat ->
  mapM (M := outcome E) (fun i => or_panic (slice (i * n) n l)) (seq 0 k) = Ok (cut n k l).
Proof.
  intros Hl. apply mapM_ok. unfold cut. apply Forall2_fmap_r. apply Forall2_same_length_lookup. split; [done|].
  intros i x y Hx Hy. simplify_eq. apply lookup_seq in Hx as [-> Hi].
  by rewrite slice_some by nia.
Qed.

Lemma chunks_exact_cut n k l : (0 < n)%nat -> length l = (k * n)%nat -> chunks_exact n l = cut n k l.
Proof. intros Hn Hl. unfold chunks_exact, cut. by rewrite Hl, Nat.div_mul by lia. Qed.

(** ** Shard sizes *)
Lemma next_multiple_of_spec a b : (0 < b)%nat ->
  (a <= next_multiple_of a b < a + b)%nat /\ (next_multiple_of a b mod b = 0)%nat.
Proof.
  intros Hb. unfold next_multiple_of. pose proof (Nat.mod_upper_bound a b).
  destruct (Nat.eqb_spec (a mod b) 0); [split; lia|]. split; [lia|].
  pose proof (Nat.div_mod a b ltac:(lia)) as Hd.
  replace (a + (b - a mod b))%nat with (b * (a / b + 1))%nat by nia.
  by rewrite Nat.mul_comm, Nat.Div0.mod_mul.
Qed.

Lemma div_ceil_nat_spec a b : (0 < b)%nat -> (a <= div_ceil_nat a b * b < a + b)%nat.
Proof.
  intros Hb. unfold div_ceil_nat. pose proof (Nat.mod_upper_bound a b ltac:(lia)).
  pose proof (Nat.div_mod a b ltac:(lia)). destruct (Nat.ltb_spec 0 (a mod b)); nia.
Qed.

Lemma shard_size_aligned len k : aligned (shard_size_for len k).
Proof.
  unfold aligned, shard_size_for. split; [lia|].
  destruct (next_multiple_of_spec (div_ceil_nat len k) 64 ltac:(lia)) as [_ Hm].
  destruct (Nat.max_spec (next_multiple_of (div_ceil_nat len k) 64) 64) as [[_ ->]|[_ ->]]; done.
Qed.

Lemma shard_size_holds len k : (0 < k)%nat -> (len <= k * shard_size_for len k)%nat.
Proof.
  intros Hk. unfold shard_size_for. pose proof (div_ceil_nat_spec len k Hk).
  destruct (next_multiple_of_spec (div_ceil_nat len k) 64 ltac:(lia)) as [? _]. nia.
Qed.

Lemma usize_mul_small a b : Z.of_nat (a * b) <= isize_max -> usize_mul a b = (a * b)%nat.
Proof. unfold isize_max. intros. unfold usize_mul. rewrite wmul64_small; unfold two64; lia. Qed.

End Stripes.
