(* ===== verification/Xor.v ===== *)
(** * XOR of shards

    [xor8] and [xor_into] of the LRC backend as a commutative group on shards
    of one size: the XOR of a group of shards and of all of them but one
    gives back that one ([xor_gives_back]). *)
From S2P Require Import Prelude Bytes Crc ErasureBackend Erasure Stripes.
Import ErasureBackend Erasure Stripes.

Module Xor.

Lemma bval_range a : 0 <= bval a < 256.
Proof. apply byte.unsigned_range. Qed.

Lemma bval_xor8 a b : bval (xor8 a b) = Z.lxor (bval a) (bval b).
Proof.
  unfold xor8. unfold bval at 1. rewrite byte.unsigned_of_Z. unfold byte.wrap.
  apply Z.mod_small. pose proof (bval_range a). pose proof (bval_range b).
  split; [apply Z.lxor_nonneg; lia|].
  destruct (Z.eq_dec (Z.lxor (bval a) (bval b)) 0) as [->|Hne]; [lia|].
  change 256 with (2 ^ 8). apply Z.log2_lt_pow2; [|].
  - assert (0 <= Z.lxor (bval a) (bval b)) by (apply Z.lxor_nonneg; lia). lia.
  - eapply Z.le_lt_trans; [apply Z.log2_lxor; lia|].
    destruct (Z.eq_dec (bval a) 0) as [->|]; destruct (Z.eq_dec (bval b) 0) as [->|];
      try change (Z.log2 0) with 0; apply Z.max_lub_lt; try lia; apply Z.log2_lt_pow2; lia.
Qed.

Lemma xor8_comm a b : xor8 a b = xor8 b a.
Proof. apply bval_inj. rewrite !bval_xor8. apply Z.lxor_comm. Qed.

Lemma xor8_assoc a b d : xor8 a (xor8 b d) = xor8 (xor8 a b) d.
Proof. apply bval_inj. rewrite !bval_xor8. by rewrite Z.lxor_assoc. Qed.

Lemma xor8_self a b : xor8 a (xor8 a b) = b.
Proof. apply bval_inj. rewrite !bval_xor8. by rewrite <- Z.lxor_assoc, Z.lxor_nilpotent, Z.lxor_0_l. Qed.

Lemma xor8_zero a : xor8 Byte.x00 a = a.
Proof. apply bval_inj. rewrite bval_xor8. apply Z.lxor_0_l. Qed.

Lemma xor_into_length a b : length (xor_into a b) = length a.
Proof. revert b. induction a as [|x a IH]; intros [|y b]; cbn; auto. Qed.

Lemma xor_into_comm a b : length a = length b -> xor_into a b = xor_into b a.
Proof. revert b. induction a as [|x a IH]; intros [|y b] [=]; cbn; [done|]. rewrite xor8_comm, IH; done. Qed.

Lemma xor_into_assoc a b d : length a = length b -> xor_into a (xor_into b d) = xor_into (xor_into a b) d.
Proof.
  revert b d. induction a as [|x a IH]; intros [|y b] [|z d] [=]; cbn; try done.
  rewrite xor8_assoc, IH; done.
Qed.

Lemma xor_into_self a b : length a = length b -> xor_into a (xor_into a b) = b.
Proof. revert b. induction a as [|x a IH]; intros [|y b] [=]; cbn; [done|]. rewrite xor8_self, IH; done. Qed.

Lemma xor_into_zeros a : xor_into (zeros (length a)) a = a.
Proof. induction a as [|x a IH]; [done|]. change (zeros (length (x :: a))) with (Byte.x00 :: zeros (length a)). cbn. by rewrite xor8_zero, IH. Qed.

Lemma foldl_xor_length z l : length (foldl xor_into z l) = length z.
Proof. revert z. induction l as [|x l IH]; intros z; [done|]. cbn. by rewrite IH, xor_into_length. Qed.

Lemma foldl_xor_cons size z x l : length z = size -> length x = size -> sized size l ->
  foldl xor_into (xor_into z x) l = xor_into x (foldl xor_into z l).
Proof.
  intros Hz Hx Hl. revert z Hz. induction Hl as [|y l Hy Hl IH]; intros z Hz; cbn.
  - apply xor_into_comm. congruence.
  - rewrite <- IH by (by rewrite xor_into_length). f_equal.
    rewrite <- !xor_into_assoc by congruence. f_equal. apply xor_into_comm. congruence.
Qed.

Lemma foldl_xor_perm size z l k : length z = size -> sized size l -> l ≡ₚ k ->
  foldl xor_into z l = foldl xor_into z k.
Proof.
  intros Hz Hs Hp. revert z Hz. induction Hp as [|x l k Hp IH|x y l|l k j H1 IH1 H2 IH2]; intros z Hz.
  - done.
  - cbn. apply Forall_cons in Hs as [Hx Hs]. apply IH; [done|by rewrite xor_into_length].
  - cbn. apply Forall_cons in Hs as [Hx [Hy Hs]%Forall_cons]. f_equal.
    rewrite <- !xor_into_assoc by congruence. f_equal. apply xor_into_comm. congruence.
  - rewrite IH1 by done. apply IH2; [|done]. unfold sized in *. by rewrite <- H1.
Qed.

(** The XOR of some shards, with the XOR of those and one more, is that one. *)
Lemma xor_gives_back size x others all : length x = size -> sized size others -> all ≡ₚ x :: others ->
  xor_into (foldl xor_into (zeros size) others) (foldl xor_into (zeros size) all) = x.
Proof.
  intros Hx Ho Hp. rewrite (foldl_xor_perm size (zeros size) all (x :: others));
    [|apply length_replicate|unfold sized; rewrite Hp; by constructor|done].
  cbn [foldl]. rewrite (foldl_xor_cons size) by (done || apply length_replicate).
  rewrite (xor_into_comm x) by (rewrite foldl_xor_length; unfold zeros; by rewrite length_replicate).
  apply xor_into_self. rewrite foldl_xor_length. unfold zeros. by rewrite length_replicate.
Qed.

Lemma xor_slices_length slices size : length (xor_slices slices size) = size.
Proof. unfold xor_slices. rewrite foldl_xor_length. apply length_replicate. Qed.

End Xor.
