(* ===== verification/XorCode.v ===== *)
(** * The code with one parity shard

    A coding library small enough to write out: one parity shard, the XOR of
    the data shards. It keeps what [IsalMds] and [RsCode] promise, so their
    theorems can be applied to it; for one parity shard it is the code ISA-L
    writes too, whose first parity row is all ones. *)
From S2P Require Import Prelude Bytes Crc ErasureBackend Erasure CombinationsSpec Stripes Xor.
Import ErasureBackend Erasure Stripes Xor.

Module XorCode.

(** The XOR of shards, of the size of the first. *)
Definition xor_shards (l : list bytes) : bytes := xor_slices l (from_option length 0%nat (head l)).

Definition xor_isal : Isal := {|
  isal_new _ _ := inr ();
  isal_encode _ _ data _ := inr [xor_shards data];
  isal_decode k _ d p es := inr
    (match es with
     | i :: _ => if (i <? k)%nat then <[i := xor_shards (p ++ delete i d)]> d else d
     | [] => d
     end, p);
|}.

Definition xor_rs : RsSimd := {|
  rs_encode _ _ size data := inr [xor_slices data size];
  rs_decoder_new _ _ _ := inr ();
  rs_decode k _ size os rs := inr (list_to_map
    ((fun i => (i, xor_slices (rs.*2 ++ os.*2) size)) <$> filter (fun i => i ∉ os.*1) (seq 0 k)));
|}.

Lemma xor_shards_sized size l : (0 < length l)%nat -> sized size l -> xor_shards l = xor_slices l size.
Proof. intros. unfold xor_shards. by rewrite head_size with size l. Qed.

(** The parity with all data shards but one gives that one. *)
Lemma xor_restores size data i x : sized size data -> data !! i = Some x ->
  xor_slices (xor_slices data size :: delete i data) size = x.
Proof.
  intros Hs Hx. assert (Hsd : sized size (delete i data)) by (by apply Forall_delete).
  unfold xor_slices at 1. cbn [foldl].
  rewrite (foldl_xor_cons size); [|apply length_replicate|apply xor_slices_length|done].
  rewrite xor_into_comm by (rewrite foldl_xor_length, xor_slices_length; symmetry; apply length_replicate).
  apply (xor_gives_back size); [by eapply (sized_lookup size data)|done|by apply delete_Permutation].
Qed.

Lemma delete_ext {A} (l k : list A) i : length l = length k -> (forall j, j <> i -> l !! j = k !! j) ->
  delete i l = delete i k.
Proof.
  intros Hl Hj. rewrite !delete_take_drop. f_equal; apply list_eq; intros j.
  - destruct (decide (j < i)%nat); [rewrite !lookup_take_lt by done; apply Hj; lia|by rewrite !lookup_take_ge by lia].
  - rewrite !lookup_drop. apply Hj. lia.
Qed.

Lemma xor_isal_mds k : (0 < k)%nat -> IsalMds (H := xor_isal) k 1.
Proof.
  intros Hk. split.
  - intros data bufs size Hl Hb Hs _ _. exists [xor_shards data]. split_and!; [done..|].
    constructor; [|constructor]. rewrite (xor_shards_sized size) by (done || lia). apply xor_slices_length.
  - intros data parity size d p es Hl Hs _ He Hd Hp Hds Hps Hnd Hes Hle Hag.
    cbn in He. injection He as <-. rewrite (xor_shards_sized size) in Hag by (done || lia).
    assert (Hdat : forall j, (j < k)%nat -> j ∉ es -> d !! j = data !! j).
    { intros j Hj Hn. specialize (Hag j Hn). by rewrite !lookup_app_l in Hag by lia. }
    destruct es as [|i [|? ?]]; [| |cbn in Hle; lia]; eexists; cbn [isal_decode xor_isal]; do 2 f_equal.
    + apply list_eq_same_length with k; [done..|]. intros j x y Hj Hx Hy.
      rewrite (Hdat j Hj) in Hx; [congruence|apply not_elem_of_nil].
    + destruct (Nat.ltb_spec i k) as [Hi|Hi].
      * destruct (lookup_lt_is_Some_2 data i) as [x Hx]; [lia|].
        assert (p = [xor_slices data size]) as ->.
        { specialize (Hag k). rewrite !lookup_app_r in Hag by lia. rewrite Hd, Hl, Nat.sub_diag in Hag.
          destruct p as [|q [|? ?]]; [done| |done]. cbn in Hag. f_equal.
          assert (Some q = Some (xor_slices data size)) as [=]; [|done]. apply Hag. rewrite list_elem_of_singleton. lia. }
        assert (delete i d = delete i data) as ->.
        { apply delete_ext; [lia|]. intros j Hj. destruct (decide (j < k)%nat) as [Hlt|Hge].
          - apply Hdat; [done|]. by rewrite list_elem_of_singleton.
          - by rewrite !lookup_ge_None_2 by lia. }
        cbn [app]. rewrite (xor_shards_sized size); [|cbn; lia|].
        2:{ constructor; [apply xor_slices_length|by apply Forall_delete]. }
        rewrite (xor_restores size data i x) by done.
        apply list_eq. intros j. destruct (decide (j = i)) as [->|Hj].
        -- rewrite list_lookup_insert_eq by lia. done.
        -- rewrite list_lookup_insert_ne by done. destruct (decide (j < k)%nat) as [Hlt|Hge].
           ++ apply Hdat; [done|]. by rewrite list_elem_of_singleton.
           ++ by rewrite !lookup_ge_None_2 by lia.
      * apply list_eq_same_length with k; [done..|]. intros j x y Hj Hx Hy.
        rewrite (Hdat j Hj) in Hx; [congruence|]. rewrite list_elem_of_singleton. lia.
  - intros d p es d' p' [= <- <-]. destruct es as [|i es]; [done|]. case_if; [|done].
    rewrite length_insert. split; [done|]. intros j Hj. apply not_elem_of_cons in Hj as [Hj _].
    by rewrite list_lookup_insert_ne.
Qed.

(** ** As reed-solomon-simd *)
Lemma numbered_fst (l : list (option bytes)) : (numbered l).*1 = present l.
Proof.
  unfold numbered, present. induction (seq 0 (length l)) as [|i js IH]; [done|].
  rewrite filter_cons. cbn [omap list_omap]. destruct (shard_at l i) eqn:E; cbn.
  - rewrite decide_True by eauto. by f_equal.
  - by rewrite decide_False by (by intros []).
Qed.

Lemma numbered_snd (l : list (option bytes)) : (numbered l).*2 = omap (fun s => s) l.
Proof.
  unfold numbered. induction l as [|x l IH] using rev_ind; [done|].
  rewrite length_app. cbn [length]. rewrite seq_app, !omap_app, fmap_app. cbn [seq]. f_equal.
  - rewrite <- IH. f_equal. apply list_omap_ext, Forall_Forall2_diag, Forall_forall.
    intros i [_ Hi]%elem_of_seq. by rewrite shard_at_app_l by lia.
  - cbn. rewrite shard_at_app_r by lia. rewrite Nat.sub_diag. by destruct x.
Qed.

(** With one slot empty, what is there is the stripe without its shard. *)
Lemma one_missing os (data : list bytes) i : agrees os data -> missing os = [i] -> omap (fun s => s) os = delete i data.
Proof.
  intros Ha Hm. assert (i ∈ missing os) as [Hi Hn]%elem_of_missing by (rewrite Hm; by left).
  assert (Hfull : forall f : list (option bytes), (forall j, (j < length f)%nat -> is_Some (shard_at f j)) -> missing f = []).
  { intros f Hf. apply elem_of_nil_inv. intros j [Hj Hjn]%elem_of_missing. destruct (Hf j Hj). congruence. }
  assert (Hother : forall j, (j < length os)%nat -> j <> i -> is_Some (shard_at os j)).
  { intros j Hj Hne. apply not_eq_None_Some. intros Hjn. apply Hne, list_elem_of_singleton. rewrite <- Hm.
    by apply elem_of_missing. }
  destruct (lookup_lt_is_Some_2 os i Hi) as [o Ho]. assert (o = None) as ->.
  { destruct o as [x|]; [|done]. apply shard_at_Some in Ho. congruence. }
  rewrite <- (take_drop_middle os i None Ho), omap_app. cbn [omap list_omap]. rewrite delete_take_drop. f_equal.
  - apply agrees_full; [by apply agrees_take|]. apply Hfull. intros j. rewrite length_take. intros Hj.
    rewrite shard_at_take by lia. apply Hother; lia.
  - apply agrees_full; [by apply agrees_drop|]. apply Hfull. intros j. rewrite length_drop. intros Hj.
    unfold shard_at. rewrite lookup_drop. apply (Hother (S i + j)%nat); lia.
Qed.

Lemma xor_rs_code k : (0 < k)%nat -> RsCode (H := xor_rs) k 1.
Proof.
  intros Hk. split.
  - intros data size Hl Hs _. eexists. split_and!; [done..|]. constructor; [apply xor_slices_length|constructor].
  - intros data recovery size os rs Hl Hs _ He Ha Har Hc. cbn in He. injection He as <-. split; [done|].
    eexists. split; [done|]. intros i s Hi Hm.
    pose proof (agrees_length _ _ Ha) as Hlo. pose proof (agrees_length _ _ Har) as Hlr. cbn in Hlr.
    assert (Hik : (i < k)%nat) by (rewrite <- Hl; by eapply lookup_lt_Some).
    assert (i ∈ missing os) as Him by (apply elem_of_missing; split; [lia|done]).
    pose proof (length_missing os) as Hmo. pose proof (length_missing rs) as Hmr.
    assert (0 < length (missing os))%nat by (destruct (missing os); [by apply not_elem_of_nil in Him|cbn; lia]).
    assert (missing os = [i]) as Hone.
    { destruct (missing os) as [|j [|? ?]] eqn:E; cbn in *; [lia| |lia]. apply list_elem_of_singleton in Him as ->. done. }
    rewrite !numbered_snd. rewrite (one_missing os data i) by done.
    rewrite (agrees_full rs [xor_slices data size]) by (done || apply nil_length_inv; lia). cbn [app].
    rewrite (xor_restores size data i s) by done. apply elem_of_list_to_map.
    + rewrite <- list_fmap_compose. rewrite (list_fmap_ext _ (fun j => j)) by done. rewrite list_fmap_id.
      apply NoDup_filter, NoDup_seq.
    + apply list_elem_of_fmap. exists i. split; [done|]. apply list_elem_of_filter. split; [|apply elem_of_seq; lia].
      rewrite numbered_fst. intros [[x Hx] _]%list_elem_of_filter. congruence.
Qed.

End XorCode.
