(* ===== verification/LrcSpec.v ===== *)
(** * Locally repairable codes

    Lemmas on which losses an LRC stripe survives, for [CodecSpec]: a data
    shard is rebuilt by its own group when it is the only one missing there
    and the group's parity is not; the rest need as many global parity shards
    as they are. The LRC backend implements the codec's interface
    ([lrc_codes]). *)
From S2P Require Import Prelude Bytes Crc ErasureBackend Erasure CombinationsSpec Stripes Xor ErasureSpec.
Import ErasureBackend Erasure Stripes Xor ErasureSpec.

Module LrcSpec.

(** A configuration the checks let through. *)
Record lrc_wf (b : LrcConfig) : Prop := {
  wf_data : (0 < lrc_data b)%nat;
  wf_groups : (lrc_data b = lrc_local b * local_group_size b)%nat;
  wf_total : (lrc_data b + lrc_local b + lrc_global b <= 255)%nat;
}.

Section lrc.
Context `{HIsal : Isal} `{HRs : RsSimd} `{HCrc : Crc32c}.
Context (b : LrcConfig) (cfg : ErasureConfig).
Hypothesis Hwf : lrc_wf b.
Let k := lrc_data b.
Let l := lrc_local b.
Let g := lrc_global b.
Let gs := local_group_size b.
Let c := mkCodec cfg (LrcBackend b).

Lemma k_groups : k = (l * gs)%nat.
Proof. apply (wf_groups b Hwf). Qed.

Lemma gs_pos : (0 < gs)%nat.
Proof. pose proof k_groups. assert (0 < k)%nat by apply (wf_data b Hwf). destruct gs; lia. Qed.

Lemma lrc_parity : parity_shards c = (l + g)%nat.
Proof.
  change (parity_shards c) with (wadd8 l g). unfold wadd8. apply Nat.mod_small.
  assert (k + l + g <= 255)%nat by apply (wf_total b Hwf). lia.
Qed.

Lemma lrc_total : total_shards c = (k + l + g)%nat.
Proof. unfold total_shards. rewrite lrc_parity. change (data_shards c) with k. lia. Qed.

(** ** Groups *)
Definition grp (i : nat) : list nat := seq (i / gs * gs) gs.
Definition others (i : nat) : list nat := filter (fun j => j <> i) (grp i).

Lemma elem_of_grp i j : (i < k)%nat -> j ∈ grp i <-> (j < k)%nat /\ (j / gs = i / gs)%nat.
Proof.
  intros Hi. unfold grp. rewrite elem_of_seq. pose proof gs_pos as Hg. pose proof k_groups as Hk.
  pose proof (Nat.div_mod i gs ltac:(lia)). pose proof (Nat.mod_upper_bound i gs ltac:(lia)).
  pose proof (Nat.div_mod j gs ltac:(lia)). pose proof (Nat.mod_upper_bound j gs ltac:(lia)).
  split.
  - intros [Hlo Hhi]. assert (i / gs < l)%nat by (apply Nat.Div0.div_lt_upper_bound; lia).
    assert (j / gs = i / gs)%nat as Hj by nia. split; [nia|done].
  - intros [Hj Hd]. rewrite Hd in *. nia.
Qed.

Lemma self_in_grp i : (i < k)%nat -> i ∈ grp i.
Proof. intros Hi. by apply elem_of_grp. Qed.

Lemma grp_perm i : (i < k)%nat -> grp i ≡ₚ i :: others i.
Proof.
  intros Hi. apply NoDup_Permutation.
  - apply NoDup_seq.
  - constructor; [|apply NoDup_filter, NoDup_seq]. unfold others. by intros [? _]%list_elem_of_filter.
  - intros j. unfold others. rewrite elem_of_cons, list_elem_of_filter. pose proof (self_in_grp i Hi).
    destruct (decide (j = i)); naive_solver.
Qed.

Lemma parity_index i : (i < k)%nat -> (i / gs < l)%nat.
Proof. intros. pose proof gs_pos. pose proof k_groups. apply Nat.Div0.div_lt_upper_bound; lia. Qed.

(** The rest of the group of [i] is there, and its parity. *)
Definition lok (shards : list (option bytes)) (i : nat) : Prop :=
  Forall (fun j => is_Some (shard_at shards j)) (others i) /\ is_Some (shard_at shards (k + i / gs)%nat).

#[local] Instance lok_dec shards i : Decision (lok shards i).
Proof. unfold lok. apply _. Defined.

Lemma decode_local_eq shards size i : (i < k)%nat -> decode_local b shards size i =
  Ok (if decide (lok shards i) then
        (fun p => xor_into (foldl xor_into (zeros size) (omap (shard_at shards) (others i))) p)
          <$> shard_at shards (k + i / gs)%nat
      else None).
Proof.
  intros Hi. unfold decode_local, local_group. fold k l gs.
  rewrite (proj2 (Nat.leb_gt _ _)) by lia. rewrite (proj2 (Nat.ltb_lt _ _)) by lia.
  cbn [data_shard_indices local_parity_index]. fold (grp i). fold (others i).
  assert (forallb (fun j => bool_decide (is_Some (shard_at shards j))) (others i) &&
    bool_decide (is_Some (shard_at shards (k + i / gs)%nat)) = bool_decide (lok shards i)) as ->.
  { apply eq_bool_prop_intro. rewrite andb_True, !bool_decide_spec. unfold lok.
    rewrite forallb_True, !Forall_forall. by setoid_rewrite bool_decide_spec. }
  destruct (decide (lok shards i)) as [Hok|Hno].
  - rewrite bool_decide_eq_true_2 by done. destruct Hok as [_ [p ->]]. done.
  - by rewrite bool_decide_eq_false_2.
Qed.

(** ** The stripe *)
Definition locals (data : list bytes) (size : nat) : list bytes :=
  (fun j => xor_slices (take gs (drop (j * gs) data)) size) <$> seq 0 l.

Lemma locals_length data size : length (locals data size) = l.
Proof. unfold locals. by rewrite length_fmap, length_seq. Qed.

Lemma locals_sized data size : sized size (locals data size).
Proof. apply Forall_fmap, Forall_true. intros j. apply xor_slices_length. Qed.

Lemma local_parities {E} data size : length data = k ->
  mapM (M := outcome E) (fun group_idx =>
      group_data ← or_panic (slice (group_idx * gs) gs data); Ok (xor_slices group_data size)) (seq 0 l)
    = Ok (locals data size).
Proof.
  intros Hl. apply mapM_ok. unfold locals. apply Forall2_fmap_r, Forall2_same_length_lookup. split; [done|].
  intros i x y Hx Hy. rewrite Hx in Hy. injection Hy as <-. apply lookup_seq in Hx as [-> Hi].
  pose proof k_groups. by rewrite slice_some by nia.
Qed.

Lemma take_drop_lookups (data : list bytes) a n : (a + n <= length data)%nat ->
  take n (drop a data) = omap (fun j => data !! j) (seq a n).
Proof.
  revert a. induction n as [|n IH]; intros a Ha; [done|].
  destruct (lookup_lt_is_Some_2 data a) as [x Hx]; [lia|].
  rewrite (drop_S data x a Hx). cbn [take seq omap list_omap]. rewrite Hx. f_equal. apply IH. lia.
Qed.

Lemma group_perm (data : list bytes) i x : length data = k -> (i < k)%nat -> data !! i = Some x ->
  take gs (drop (i / gs * gs) data) ≡ₚ x :: omap (fun j => data !! j) (others i).
Proof.
  intros Hl Hi Hx. pose proof (parity_index i Hi). pose proof k_groups.
  rewrite take_drop_lookups by nia. fold (grp i). rewrite (grp_perm i Hi). cbn. by rewrite Hx.
Qed.

Section stripe.
Context (data global : list bytes) (size : nat).
Hypothesis Hdl : length data = k.
Hypothesis Hds : sized size data.
Let stripe := data ++ locals data size ++ global.

Lemma stripe_data i : (i < k)%nat -> stripe !! i = data !! i.
Proof. intros. unfold stripe. by rewrite lookup_app_l by lia. Qed.

Lemma stripe_local j : (j < l)%nat ->
  stripe !! (k + j)%nat = Some (xor_slices (take gs (drop (j * gs) data)) size).
Proof.
  intros Hj. unfold stripe. rewrite lookup_app_r by lia. replace (k + j - length data)%nat with j by lia.
  rewrite lookup_app_l by (rewrite locals_length; lia). unfold locals. rewrite list_lookup_fmap.
  by rewrite lookup_seq_lt by lia.
Qed.

(** A group gives back its missing shard. *)
Lemma decode_local_genuine shards i : agrees shards stripe -> (i < k)%nat -> lok shards i ->
  exists s, decode_local b shards size i = Ok (Some s) /\ data !! i = Some s.
Proof.
  intros Ha Hi Hok. rewrite decode_local_eq by done. rewrite decide_True by done.
  destruct Hok as [Ho [p Hp]]. rewrite Hp. destruct (lookup_lt_is_Some_2 data i) as [x Hx]; [lia|].
  exists x. split; [|done]. cbn. do 2 f_equal.
  pose proof (agrees_lookup _ _ _ _ Ha Hp) as Hpar. rewrite stripe_local in Hpar by (by apply parity_index).
  injection Hpar as <-. unfold xor_slices.
  assert (omap (shard_at shards) (others i) = omap (fun j => data !! j) (others i)) as ->.
  { apply list_omap_ext, Forall_Forall2_diag, Forall_forall. intros j Hj. rewrite Forall_forall in Ho.
    destruct (Ho j Hj) as [y Hy]. rewrite Hy. symmetry. pose proof (agrees_lookup _ _ _ _ Ha Hy) as Hs.
    apply list_elem_of_filter in Hj as [_ [Hj _]%elem_of_grp]; [|done]. by rewrite stripe_data in Hs. }
  apply (xor_gives_back size).
  - by eapply sized_lookup.
  - apply Forall_forall. intros y (j & _ & Hj)%list_elem_of_omap. by eapply sized_lookup.
  - by apply group_perm.
Qed.

End stripe.

(** ** Local recovery, one shard after the other *)
Section recovery.
Context (shards : list (option bytes)) (size : nat).
Let n := total_shards c.
Hypothesis Hn : length shards = n.

(** What its group makes of shard [i]. *)
Definition dl (sh : list (option bytes)) (i : nat) : option bytes :=
  match decode_local b sh size i with Ok o => o | _ => None end.

Lemma dl_lok sh i : (i < k)%nat -> is_Some (dl sh i) <-> lok sh i.
Proof.
  intros Hi. unfold dl. rewrite decode_local_eq by done. case_decide as Hd.
  - destruct Hd as [Ho [p Hp]]. rewrite Hp. split; [split; eauto|eauto].
  - split; [by intros []|done].
Qed.

Lemma decode_local_dl sh i : (i < k)%nat -> decode_local b sh size i = Ok (dl sh i).
Proof. intros Hi. unfold dl. by rewrite decode_local_eq. Qed.

Lemma dl_ext sh sh' i : (i < k)%nat -> (forall j, j ∈ others i -> shard_at sh j = shard_at sh' j) ->
  shard_at sh (k + i / gs)%nat = shard_at sh' (k + i / gs)%nat -> dl sh i = dl sh' i.
Proof.
  intros Hi Ho Hp. unfold dl. rewrite !decode_local_eq by done. rewrite <- Hp.
  assert (omap (shard_at sh) (others i) = omap (shard_at sh') (others i)) as ->.
  { apply list_omap_ext, Forall_Forall2_diag, Forall_forall. auto. }
  assert (lok sh i <-> lok sh' i) as Hiff.
  { unfold lok. rewrite <- Hp, !Forall_forall. split; intros [Hx ?]; (split; [|done]); intros j Hj;
      [rewrite <- Ho by done|rewrite Ho by done]; by apply Hx. }
  repeat case_decide; tauto || done.
Qed.

Lemma shard_at_merged r sh i : (i < n)%nat ->
  shard_at (merged n r sh) i = match shard_at r i with Some s => Some s | None => shard_at sh i end.
Proof.
  intros Hi. unfold merged, shard_at at 1. rewrite list_lookup_fmap, lookup_seq_lt by lia. done.
Qed.

Lemma merged_length r sh : length (merged n r sh) = n.
Proof. unfold merged. by rewrite length_fmap, length_seq. Qed.

(** Slots filled in only where [dl] rebuilds a missing data shard. *)
Definition recovers (ps : list nat) (r : list (option bytes)) : Prop :=
  length r = n /\ forall i, shard_at r i = if decide (i ∈ ps) then dl shards i else None.

(** A shard missing beside a rebuilt one would have kept its group from
    rebuilding it: what was rebuilt is never in the group of a missing one. *)
Lemma recovers_others ps r i : recovers ps r -> Forall (fun j => j < k)%nat ps -> (i < k)%nat ->
  shard_at shards i = None ->
  (forall j, j ∈ others i -> shard_at r j = None) /\ shard_at r (k + i / gs)%nat = None.
Proof.
  intros [_ Hr] Hps Hi Hmiss. rewrite Forall_forall in Hps. split.
  - intros j Hj. rewrite Hr. case_decide as Hin; [|done].
    apply list_elem_of_filter in Hj as [Hji [Hj Hgrp]%elem_of_grp]; [|done].
    destruct (dl shards j) as [s|] eqn:Ed; [|done]. exfalso.
    destruct (proj1 (dl_lok shards j Hj)) as [Ho _]; [eauto|]. rewrite Forall_forall in Ho.
    destruct (Ho i) as [x Hx]; [|congruence]. apply list_elem_of_filter. split; [congruence|].
    apply elem_of_grp; done.
  - rewrite Hr. case_decide as Hin; [|done]. apply Hps in Hin. lia.
Qed.

Lemma dl_merged ps r i : recovers ps r -> Forall (fun j => j < k)%nat ps -> (i < k)%nat ->
  shard_at shards i = None -> dl (merged n r shards) i = dl shards i.
Proof.
  intros Hr Hps Hi Hmiss. destruct (recovers_others ps r i Hr Hps Hi Hmiss) as [Ho Hp].
  pose proof lrc_total as Ht. fold n in Ht. pose proof (parity_index i Hi).
  apply dl_ext; [done| |].
  - intros j Hj. pose proof (Ho j Hj) as Hoj. apply list_elem_of_filter in Hj as [_ [Hj _]%elem_of_grp]; [|done].
    rewrite shard_at_merged by lia. by rewrite Hoj.
  - rewrite shard_at_merged by lia. by rewrite Hp.
Qed.

Lemma rebuild_local_recovers ps : NoDup ps -> Forall (fun j => j < k /\ shard_at shards j = None)%nat ps ->
  recovers ps (rebuild_local b n shards size ps).
Proof.
  unfold rebuild_local. induction ps as [|i ps IH] using rev_ind; intros Hnd Hps.
  - split; [apply length_replicate|]. intros i. apply shard_at_none.
  - apply NoDup_app in Hnd as (Hnd & Hni & _). apply Forall_app in Hps as [Hps [[Hi Hmiss] _]%Forall_cons].
    specialize (IH Hnd Hps). rewrite foldl_app. cbn [foldl].
    assert (Forall (fun j => j < k)%nat ps) as Hlt by (eapply Forall_impl; [exact Hps|]; by intros ? []).
    rewrite decode_local_dl, (dl_merged ps) by done. destruct IH as [Hlen Hr].
    pose proof lrc_total as Ht. fold n in Ht.
    assert (Hsnoc : forall j, j ∈ ps ++ [i] <-> j ∈ ps \/ j = i) by (intros j; rewrite elem_of_app, list_elem_of_singleton; done).
    destruct (dl shards i) as [s|] eqn:Ed; (split; [rewrite ?length_insert; done|]); intros j.
    + destruct (decide (j = i)) as [->|Hji].
      * rewrite decide_True by (apply Hsnoc; auto). rewrite Ed. apply shard_at_insert_eq. lia.
      * rewrite shard_at_insert_ne by done. rewrite Hr. repeat case_decide; naive_solver.
    + rewrite Hr. destruct (decide (j = i)) as [->|Hji]; repeat case_decide; naive_solver.
Qed.

(** The missing data shards their groups do not rebuild. *)
Definition unrepaired : list nat := filter (fun i => shard_at shards i = None /\ ~ lok shards i) (seq 0 k).

Let R := rebuild_local b n shards size (filter (fun i => i < k)%nat (missing shards)).
Let M := merged n R shards.

Lemma R_recovers : recovers (filter (fun i => i < k)%nat (missing shards)) R.
Proof.
  apply rebuild_local_recovers; [apply NoDup_filter, missing_NoDup|].
  apply Forall_forall. intros i [Hi [_ Hm]%elem_of_missing]%list_elem_of_filter. done.
Qed.

Lemma R_data i : (i < k)%nat -> shard_at R i = if decide (shard_at shards i = None) then dl shards i else None.
Proof.
  intros Hi. destruct R_recovers as [_ ->]. pose proof lrc_total as Ht. fold n in Ht.
  assert (i ∈ filter (fun i => i < k)%nat (missing shards) <-> shard_at shards i = None) as Hiff.
  { rewrite list_elem_of_filter, elem_of_missing. split; [tauto|]. intros. split_and!; lia || done. }
  repeat case_decide; tauto.
Qed.

Lemma R_parity i : (k <= i)%nat -> shard_at R i = None.
Proof.
  intros Hi. destruct R_recovers as [_ ->]. rewrite decide_False; [done|].
  intros [? _]%list_elem_of_filter. lia.
Qed.

Lemma still_unrepaired : filter (fun i => shard_at shards i = None /\ shard_at R i = None) (seq 0 k) = unrepaired.
Proof.
  apply filter_ext_in. intros i [_ Hi]%elem_of_seq. rewrite R_data by lia.
  pose proof (dl_lok shards i ltac:(lia)) as Hd.
  split; intros [Hm Hx]; (split; [done|]); rewrite decide_True in * by done.
  - rewrite <- Hd. rewrite Hx. by intros [].
  - apply eq_None_not_Some. by rewrite Hd.
Qed.

Lemma M_length : length M = n.
Proof. apply merged_length. Qed.

Lemma M_data i : (i < k)%nat -> shard_at M i = match shard_at shards i with Some s => Some s | None => dl shards i end.
Proof.
  intros Hi. pose proof lrc_total as Ht. fold n in Ht. unfold M. rewrite shard_at_merged, R_data by lia.
  case_decide as Hd; [rewrite Hd; by destruct (dl shards i)|by destruct (shard_at shards i)].
Qed.

Lemma M_missing : missing (take k M) = unrepaired.
Proof.
  pose proof lrc_total as Ht. fold n in Ht. unfold missing. rewrite length_take, M_length.
  replace (k `min` n)%nat with k by lia. apply filter_ext_in. intros i [_ Hi]%elem_of_seq.
  rewrite shard_at_take, M_data by lia. pose proof (dl_lok shards i ltac:(lia)) as Hd.
  destruct (shard_at shards i); [naive_solver|]. rewrite eq_None_not_Some, Hd. naive_solver.
Qed.

Lemma M_global : take g (drop (k + l) M) = drop (k + l) shards.
Proof.
  pose proof lrc_total as Ht. fold n in Ht. rewrite take_ge by (rewrite length_drop, M_length; lia).
  apply slots_ext; rewrite !length_drop, M_length; [lia|]. intros i Hi. unfold shard_at.
  rewrite !lookup_drop. change (shard_at M (k + l + i)%nat = shard_at shards (k + l + i)%nat).
  unfold M. rewrite shard_at_merged by lia. by rewrite R_parity by lia.
Qed.

Lemma M_unrepaired_fails : Forall (fun i => decode_local b M size i = Ok None) unrepaired.
Proof.
  apply Forall_forall. intros i [[Hm Hno] [_ Hi]%elem_of_seq]%list_elem_of_filter.
  rewrite decode_local_dl by lia. f_equal. unfold M. erewrite dl_merged; [|apply R_recovers| |lia|done].
  - apply eq_None_not_Some. by rewrite dl_lok by lia.
  - apply Forall_forall. by intros j [? _]%list_elem_of_filter.
Qed.

Lemma recover_locally_none sh idxs rec rem : Forall (fun i => decode_local b sh size i = Ok None) idxs ->
  recover_locally b sh size idxs rec rem = Ok (rec, rem).
Proof. induction 1 as [|i idxs Hi Hx IH]; [done|]. cbn. by rewrite Hi. Qed.

(** What the global code is asked, and when it refuses. *)
Lemma lrc_decode_unrepaired : unrepaired <> [] -> lrc_decode b M size unrepaired =
  if (count_some (drop (k + l) shards) <? length unrepaired)%nat
  then Err (InsufficientShards (k - length unrepaired + count_some (drop (k + l) shards)) k)
  else
    _ ← lib (fun e => InvalidConfig (Library e)) (rs_decoder_new k g size);
    restored ← lib (fun e => DecodingFailed (LibraryError e))
      (rs_decode k g size (numbered (take k M)) (numbered (drop (k + l) shards)));
    restore_rest k restored unrepaired [].
Proof.
  intros Hne. pose proof lrc_total as Ht. fold n in Ht. unfold lrc_decode. fold k l g.
  rewrite M_length, <- Ht, Nat.eqb_refl. cbn [negb].
  rewrite recover_locally_none by apply M_unrepaired_fails. cbn [mbind outcome_bind].
  rewrite M_global. pose proof (length_missing (take k M)) as Hc. rewrite M_missing, length_take in Hc.
  rewrite M_length in Hc. replace (k `min` n)%nat with k in Hc by lia.
  replace (count_some (take k M)) with (k - length unrepaired)%nat by lia.
  destruct unrepaired as [|i rest] eqn:E; [done|]. rewrite <- E in *.
  destruct (Nat.ltb_spec (k - length unrepaired + count_some (drop (k + l) shards)) k);
    destruct (Nat.ltb_spec (count_some (drop (k + l) shards)) (length unrepaired)); done || lia.
Qed.

End recovery.

(** ** Rebuilding a stripe *)
Lemma restore_rest_ok (restored : gmap nat bytes) (f : nat -> bytes) rem rec :
  Forall (fun i => (i < k)%nat /\ restored !! i = Some (f i)) rem ->
  restore_rest k restored rem rec = Ok (rec ++ (f <$> rem)).
Proof.
  intros Hr. revert rec. induction Hr as [|i rem [Hi Hx] Hr IH]; intros rec; cbn [restore_rest].
  - by rewrite app_nil_r.
  - rewrite (proj2 (Nat.ltb_lt _ _)) by done. rewrite Hx, IH, fmap_cons. by rewrite <- app_assoc.
Qed.

Section genuine.
Context (data global : list bytes) (size : nat) (shards : list (option bytes)).
Hypothesis Hdl : length data = k.
Hypothesis Hds : sized size data.
Hypothesis Hgl : length global = g.
Let stripe := data ++ locals data size ++ global.
Let n := total_shards c.
Hypothesis Ha : agrees shards stripe.
Let U := unrepaired shards.
Let R := rebuild_local b n shards size (filter (fun i => i < k)%nat (missing shards)).

Lemma genuine_length : length shards = n.
Proof.
  rewrite (agrees_length _ _ Ha). unfold stripe, n. rewrite lrc_total, !length_app, locals_length. lia.
Qed.

Lemma genuine_data i x : (i < k)%nat -> shard_at shards i = Some x -> data !! i = Some x.
Proof. intros Hi Hx. apply (agrees_lookup _ _ _ _ Ha) in Hx. unfold stripe in Hx. by rewrite lookup_app_l in Hx by lia. Qed.

Lemma genuine_dl i x : (i < k)%nat -> dl size shards i = Some x -> data !! i = Some x.
Proof.
  intros Hi Hx. destruct (decode_local_genuine data global size Hdl Hds shards i Ha Hi) as (s & Hs & Hd).
  - apply (dl_lok size shards i Hi). eauto.
  - rewrite decode_local_dl in Hs by done. congruence.
Qed.

Lemma genuine_M : agrees (take k (merged n R shards)) data.
Proof.
  pose proof lrc_total as Ht. fold n in Ht. apply agrees_intro.
  - rewrite length_take, merged_length. lia.
  - intros i x Hx. pose proof (shard_at_lt _ _ _ Hx) as Hi. rewrite length_take, merged_length in Hi.
    rewrite shard_at_take in Hx by lia. unfold R, n in Hx. rewrite M_data in Hx by (apply genuine_length || lia).
    destruct (shard_at shards i) as [s|] eqn:Es.
    + apply genuine_data; [lia|congruence].
    + apply genuine_dl; [lia|done].
Qed.

(** The data shards, once every missing one is rebuilt. *)
Lemma collect_data r : (forall i, (i < k)%nat ->
    match shard_at r i with Some s => Some s | None => shard_at shards i end = data !! i) ->
  mapM (M := outcome ErasureError) (fun i => match shard_at r i with
      | Some s => Ok s | None => ok_or (shard_at shards i) (DecodingFailed (NotRebuilt i)) end) (seq 0 k) = Ok data.
Proof.
  intros Hr. apply mapM_ok, Forall2_same_length_lookup. rewrite length_seq. split; [done|].
  intros i j x [-> Hi]%lookup_seq Hx. cbn. specialize (Hr i Hi). rewrite Hx in Hr.
  destruct (shard_at r i); [congruence|]. by rewrite Hr.
Qed.

Lemma R_or_shards i : (i < k)%nat -> i ∉ U ->
  match shard_at R i with Some s => Some s | None => shard_at shards i end = data !! i.
Proof.
  intros Hi Hu. unfold R, n. rewrite R_data by (apply genuine_length || done). case_decide as Hm.
  - destruct (dl size shards i) as [s|] eqn:Ed; [symmetry; by apply genuine_dl|]. exfalso. apply Hu.
    apply list_elem_of_filter. split; [|apply elem_of_seq; lia]. split; [done|].
    rewrite <- (dl_lok size) by done. rewrite Ed. by intros [].
  - destruct (shard_at shards i) as [s|] eqn:Es; [|done]. symmetry. by apply genuine_data.
Qed.

Lemma U_lt i : i ∈ U -> (i < k)%nat.
Proof. intros [_ [_ ?]%elem_of_seq]%list_elem_of_filter. lia. Qed.

Hypothesis Hlaw : RsCode k g.
Hypothesis Hal : aligned size.
Hypothesis Hglobal : rs_encode k g size data = inr global.

(** The global code restores the rest, if enough global parity is left. *)
Lemma lrc_decode_genuine : U <> [] -> (length U <= count_some (drop (k + l) shards))%nat ->
  lrc_decode b (merged n R shards) size U = Ok ((fun i => data !!! i) <$> U).
Proof.
  intros Hne Hc. unfold U, n, R. rewrite lrc_decode_unrepaired by (apply genuine_length || done).
  fold U n R. rewrite (proj2 (Nat.ltb_ge _ _)) by done.
  pose proof (length_missing (take k (merged n R shards))) as Hm. pose proof lrc_total as Ht. fold n in Ht.
  rewrite length_take, merged_length in Hm.
  assert (missing (take k (merged n R shards)) = U) as HU by (apply M_missing, genuine_length). rewrite HU in Hm.
  assert (Hdrop : drop (k + l) stripe = global).
  { unfold stripe. rewrite app_assoc. apply drop_app_length'. rewrite length_app, locals_length. lia. }
  destruct (rs_decodes k g Hlaw data global size (take k (merged n R shards)) (drop (k + l) shards))
    as (Hnew & restored & Hdec & Hres); [done..|apply genuine_M| |lia|].
  { rewrite <- Hdrop. by apply agrees_drop. }
  rewrite Hnew, Hdec. cbn [lib mbind outcome_bind]. apply (restore_rest_ok _ (fun i => data !!! i) U []).
  apply Forall_forall. intros i Hi. pose proof (U_lt i Hi). split; [done|].
  destruct (lookup_lt_is_Some_2 data i) as [x Hx]; [lia|]. rewrite (list_lookup_total_correct _ _ x Hx).
  apply Hres; [done|]. rewrite shard_at_take by done.
  assert (i ∈ missing (take k (merged n R shards))) as [_ Hmi]%elem_of_missing.
  { by rewrite HU. }
  by rewrite shard_at_take in Hmi.
Qed.

Lemma rebuild_lrc_genuine : (length U <= count_some (drop (k + l) shards))%nat ->
  rebuild_lrc b n k shards size (missing shards) = Ok data.
Proof.
  intros Hc. unfold rebuild_lrc. fold R. cbn zeta. unfold R, n.
  rewrite still_unrepaired by apply genuine_length. fold U n R. case_bool_decide as HU.
  - cbn [mbind outcome_bind]. apply collect_data. intros i Hi. apply R_or_shards; [done|].
    rewrite HU. apply not_elem_of_nil.
  - rewrite lrc_decode_genuine by done. cbn [map_err mbind outcome_bind].
    change (foldl _ R (zip U ((fun i => data !!! i) <$> U))) with (fill_in R (zip U ((fun i => data !!! i) <$> U))).
    assert (Hfst : (zip U ((fun i => data !!! i) <$> U)).*1 = U) by (apply fst_zip; by rewrite length_fmap).
    apply collect_data. intros i Hi. destruct (decide (i ∈ U)) as [Hin|Hout].
    + destruct (lookup_lt_is_Some_2 data i) as [x Hx]; [lia|].
      rewrite (fill_in_at _ _ i x); [done| | |].
      * rewrite Hfst. apply NoDup_filter, NoDup_seq.
      * apply list_elem_of_lookup in Hin as [p Hp]. apply list_elem_of_lookup. exists p.
        apply lookup_zip_with_Some. exists i, x. split_and!; [done|done|].
        rewrite list_lookup_fmap, Hp. cbn. by rewrite (list_lookup_total_correct _ _ x Hx).
      * destruct (R_recovers shards size genuine_length) as [Hlen _]. fold n R in Hlen. rewrite Hlen.
        pose proof lrc_total as Ht. fold n in Ht. lia.
    + rewrite fill_in_other by (by rewrite Hfst). by apply R_or_shards.
Qed.

Lemma rebuild_lrc_refused : (count_some (drop (k + l) shards) < length U)%nat ->
  exists e, rebuild_lrc b n k shards size (missing shards) = Err e.
Proof.
  intros Hc. unfold rebuild_lrc. fold R. cbn zeta. unfold R, n.
  rewrite still_unrepaired by apply genuine_length. fold U n R.
  case_bool_decide as HU; [rewrite HU in Hc; cbn in Hc; lia|]. unfold U, n, R.
  rewrite lrc_decode_unrepaired by (apply genuine_length || done). fold U n R.
  rewrite (proj2 (Nat.ltb_lt _ _)) by done. cbn. eauto.
Qed.

End genuine.

(** ** The codec *)

(** Enough is left: the shards no group rebuilds are no more than the global
    parity shards. *)
Definition enough (shards : list (option bytes)) : Prop :=
  (length (unrepaired shards) <= count_some (drop (k + l) shards))%nat.

(** Each shard a group rebuilds has its group's parity to stand for it. *)
Lemma repaired_le shards : length shards = total_shards c ->
  (length (filter (fun i => shard_at shards i = None /\ lok shards i) (seq 0 k)) <= count_some (take l (drop k shards)))%nat.
Proof.
  intros Hn. rewrite lrc_total in Hn. rewrite <- length_present.
  rewrite <- (length_fmap (fun i => i / gs)%nat). apply submseteq_length, NoDup_submseteq.
  - apply NoDup_fmap_2_strong; [|apply NoDup_filter, NoDup_seq].
    intros i j [[_ [Ho _]] [_ Hi]%elem_of_seq]%list_elem_of_filter [[Hm _] [_ Hj]%elem_of_seq]%list_elem_of_filter Heq.
    destruct (decide (i = j)) as [|Hij]; [done|]. exfalso.
    rewrite Forall_forall in Ho. destruct (Ho j) as [x Hx]; [|congruence].
    apply list_elem_of_filter. split; [done|]. apply elem_of_grp; [lia|]. split; [lia|done].
  - intros j (i & -> & [[_ [_ [p Hp]]] [_ Hi]%elem_of_seq]%list_elem_of_filter)%list_elem_of_fmap.
    pose proof (parity_index i ltac:(lia)). apply list_elem_of_filter. split.
    + rewrite shard_at_take by done. exists p. apply shard_at_Some in Hp. apply shard_at_Some. by rewrite lookup_drop.
    + apply elem_of_seq. rewrite length_take, length_drop. lia.
Qed.

Lemma enough_k shards : length shards = total_shards c -> enough shards -> (k <= count_some shards)%nat.
Proof.
  intros Hn He. pose proof (repaired_le shards Hn) as Hr. rewrite lrc_total in Hn. unfold enough in He.
  assert (Hsplit : count_some shards = (count_some (take k shards) + count_some (take l (drop k shards)) +
    count_some (drop (k + l) shards))%nat).
  { rewrite <- (take_drop k shards) at 1. rewrite count_some_app.
    rewrite <- (take_drop l (drop k shards)) at 1. rewrite count_some_app, drop_drop. lia. }
  pose proof (length_missing (take k shards)) as Hm. rewrite length_take in Hm. unfold missing in Hm.
  rewrite length_take in Hm. replace (k `min` length shards)%nat with k in Hm by lia.
  rewrite (filter_ext_in _ (fun i => shard_at shards i = None)) in Hm
    by (intros i [_ Hi]%elem_of_seq; rewrite shard_at_take by lia; done).
  rewrite (length_filter_split _ (lok shards)) in Hm. fold (unrepaired shards) in Hm. lia.
Qed.

Lemma unrepaired_present shards : Forall is_Some (take k shards) -> (k <= length shards)%nat -> unrepaired shards = [].
Proof.
  intros Hall Hn. apply elem_of_nil_inv. intros i [[Hm _] [_ Hi]%elem_of_seq]%list_elem_of_filter.
  apply Forall_is_Some in Hall. apply (not_elem_of_nil i). rewrite <- Hall. apply elem_of_missing.
  rewrite length_take, shard_at_take by lia. split; [lia|done].
Qed.

Lemma lrc_encode data size : RsCode k g -> length data = k -> sized size data -> aligned size ->
  exists global, rs_encode k g size data = inr global /\ length global = g /\ sized size global /\
    all_shards <$> encode_lrc b data size = Ok (data ++ locals data size ++ global).
Proof.
  intros Hlaw Hl Hs Hal. destruct (rs_encodes k g Hlaw data size Hl Hs Hal) as (global & He & Hgl & Hgs).
  exists global. split_and!; [done..|]. unfold encode_lrc. fold k l g gs.
  rewrite Hl, Nat.eqb_refl, (wrong_size_none size data Hs). cbn [negb].
  rewrite local_parities by done. cbn [mbind outcome_bind]. by rewrite He.
Qed.

(** The slots of a stripe give back its data exactly when enough is left;
    else decoding fails. *)
Lemma lrc_rebuild data stripe size shards : RsCode k g -> length data = k -> sized size data -> aligned size ->
  all_shards <$> encode_lrc b data size = Ok stripe -> agrees shards stripe ->
  if decide (enough shards) then rebuild_data c shards = Ok data else exists e, rebuild_data c shards = Err e.
Proof.
  intros Hlaw Hl Hs Hal He Ha. destruct (lrc_encode data size Hlaw Hl Hs Hal) as (global & Hg & Hgl & Hgs & He').
  rewrite He in He'. injection He' as ->. pose proof (genuine_length data global size shards Hl Hgl Ha) as Hn.
  unfold rebuild_data. rewrite Hn, Nat.eqb_refl. cbn [negb]. change (data_shards c) with k.
  destruct (Nat.ltb_spec (count_some shards) k).
  { rewrite decide_False; [eauto|]. intros Hen. pose proof (enough_k shards Hn Hen). lia. }
  assert (0 < k)%nat by apply (wf_data b Hwf).
  rewrite (agrees_first shards _ size Ha); [|rewrite !sized_app; split_and!; done || apply locals_sized|lia].
  cbn [ok_or mbind outcome_bind]. unfold data_present. change (data_shards c) with k.
  rewrite (proj2 (Nat.leb_le _ _)) by (rewrite Hn, lrc_total; lia). cbn [andb]. case_bool_decide as Hall.
  - rewrite decide_True.
    + f_equal. apply Forall_is_Some in Hall. erewrite agrees_full; [|by apply agrees_take|done].
      by rewrite take_app_length'.
    + unfold enough. rewrite unrepaired_present; [cbn; lia|done|rewrite Hn, lrc_total; lia].
  - cbn [backend c]. rewrite <- Hn. fold (missing shards). rewrite Hn. case_decide as Hen.
    + by apply (rebuild_lrc_genuine data global size shards).
    + apply (rebuild_lrc_refused data global size shards); [done..|]. unfold enough in Hen. lia.
Qed.

Lemma lrc_keeps shards data : rebuild_data c shards = Ok data ->
  length data = k /\ forall i s, (i < k)%nat -> shard_at shards i = Some s -> data !! i = Some s.
Proof.
  unfold rebuild_data. change (data_shards c) with k.
  destruct (Nat.eqb_spec (length shards) (total_shards c)) as [Hn|]; [|done]. cbn [negb].
  case_if; [done|]. destruct (length <$> head _) as [size|]; [|done]. cbn [ok_or mbind outcome_bind].
  unfold data_present. change (data_shards c) with k. pose proof lrc_total as Ht.
  rewrite (proj2 (Nat.leb_le _ _)) by lia. cbn [andb]. case_bool_decide as Hall.
  - intros [= <-]. by apply all_present; [lia|].
  - cbn [backend c]. fold (missing shards). unfold rebuild_lrc. cbn zeta.
    rewrite still_unrepaired by done.
    set (R := rebuild_local b (total_shards c) shards size (filter (fun i => i < k)%nat (missing shards))).
    intros (r & Hr & Hd)%outcome_bind_ok.
    assert (Hkept : forall i s, (i < k)%nat -> shard_at shards i = Some s -> shard_at r i = None).
    { intros i s Hi Hsh. assert (shard_at R i = None) as HR.
      { unfold R. rewrite R_data by done. rewrite decide_False by congruence. done. }
      revert Hr. case_bool_decide; [by intros [= <-]|].
      intros (global & _ & [= <-])%outcome_bind_ok. change (shard_at (fill_in R (zip (unrepaired shards) global)) i = None).
      rewrite fill_in_other; [done|]. intros ([j x] & -> & (p & Hp)%list_elem_of_lookup)%list_elem_of_fmap.
      apply lookup_zip_with_Some in Hp as (j' & x' & [= <- <-] & Hj & _).
      apply list_elem_of_lookup_2, list_elem_of_filter in Hj as [[Hm _] _]. cbn in Hsh. congruence. }
    apply mapM_ok in Hd. split; [by rewrite <- (Forall2_length _ _ _ Hd), length_seq|]. intros i s Hi Hsh.
    destruct (Forall2_lookup_l _ _ _ i i Hd) as (x & Hx & Hok); [by rewrite lookup_seq_lt|].
    rewrite (Hkept i s Hi Hsh), Hsh in Hok. cbn in Hok. congruence.
Qed.

Lemma lrc_codes : RsCode k g -> Codes c enough.
Proof.
  intros Hlaw. split.
  - apply (wf_data b Hwf).
  - intros data size Hl Hs Hal. destruct (lrc_encode data size Hlaw Hl Hs Hal) as (global & _ & Hgl & Hgs & He).
    exists (locals data size ++ global). split_and!; [done| |].
    + rewrite length_app, locals_length, lrc_parity. lia.
    + apply sized_app. split; [apply locals_sized|done].
  - intros data stripe size shards Hl Hs Hal He Ha Hen.
    pose proof (lrc_rebuild data stripe size shards Hlaw Hl Hs Hal He Ha) as Hr. by rewrite decide_True in Hr.
  - apply lrc_keeps.
Qed.

End lrc.

End LrcSpec.
