(* ===== verification/CodecSpec.v ===== *)
(** * Encoding, decoding and repair

    Theorems on every codec [new] makes, from what the coding libraries
    promise: data comes back from what is left of its stripe
    ([encode_decode]), an LRC stripe from exactly the losses it can survive
    ([lrc_rebuilds_exact]), the ways to encode write one stripe
    ([encode_one_stripe]), repair gives back the shards lost
    ([reconstruct_exact]). *)
From S2P Require Import Prelude Bytes Crc ErasureBackend Erasure CombinationsSpec Stripes Xor XorCode ErasureSpec LrcSpec.
Import ErasureBackend Erasure Stripes XorCode ErasureSpec LrcSpec.

Module CodecSpec.

Section codec.
Context `{HIsal : Isal} `{HRs : RsSimd} `{HCrc : Crc32c}.

(** What the codec's library promises. *)
Definition laws (c : ErasureCodec) : Prop :=
  match backend c with
  | MdsBackend b => IsalMds (isal_k b) (isal_m b)
  | LrcBackend b => RsCode (lrc_data b) (lrc_global b)
  end.

(** The slots a codec decodes: any [k] shards of an MDS stripe; of an LRC
    stripe, as many global parity shards as data shards no group rebuilds. *)
Definition decodable (c : ErasureCodec) (shards : list (option bytes)) : Prop :=
  match backend c with
  | MdsBackend b => (isal_k b <= count_some shards)%nat
  | LrcBackend b => enough b shards
  end.

#[global] Instance decodable_dec c shards : Decision (decodable c shards).
Proof. unfold decodable, enough. destruct (backend c); apply _. Defined.

Lemma check_lrc_wf k l g : check_lrc k l g = Ok () -> lrc_wf (mkLrc k l g (k / l)).
Proof.
  unfold check_lrc. intros Hc. repeat case_if; try done.
  repeat match goal with H : (_ || _) = false |- _ => apply orb_false_iff in H as [? ?] end.
  rewrite Nat.eqb_neq in *. rewrite Nat.ltb_ge in *. unfold MAX_SHARDS in *.
  assert (is_multiple_of k l = true) as Hm by (by destruct (is_multiple_of k l)).
  unfold is_multiple_of in Hm. destruct (Nat.eqb_spec l 0); [lia|]. apply Nat.eqb_eq in Hm.
  pose proof (Nat.div_mod k l ltac:(lia)). split; cbn; lia.
Qed.

Lemma new_cases cfg c : new cfg = Ok c ->
  (exists b, c = mkCodec cfg (MdsBackend b) /\ (0 < isal_k b)%nat) \/
  (exists b, c = mkCodec cfg (LrcBackend b) /\ lrc_wf b).
Proof.
  unfold new. destruct (Nat.eqb_spec (config_data cfg) 0); [done|].
  destruct (Nat.eqb_spec (config_parity cfg) 0); [done|]. destruct (ec_type cfg) as [|l g].
  - unfold isal_backend_new. rewrite (proj2 (Nat.eqb_neq _ _)) by done.
    rewrite (proj2 (Nat.eqb_neq _ _)) by done. case_if; [done|].
    destruct (isal_new _ _); cbn; [done|]. intros [= <-]. left. eexists. split; [done|]. cbn. lia.
  - intros (u & Hc & Hn)%outcome_bind_ok. apply map_err_ok in Hc. destruct u. apply check_lrc_wf in Hc.
    unfold LrcConfig_new in Hn. destruct (l =? 0)%nat; [done|].
    cbn [mbind outcome_bind] in Hn. apply outcome_bind_ok in Hn as (b & Hb & [= <-]).
    unfold lrc_backend_new in Hb. repeat case_if; try done. injection Hb as <-. right. eauto.
Qed.

Lemma new_codes cfg c : new cfg = Ok c -> laws c -> Codes c (decodable c).
Proof.
  intros [(b & -> & Hk)|(b & -> & Hwf)]%new_cases Hlaw.
  - by apply mds_codes.
  - by apply lrc_codes.
Qed.

(** ** Encoding *)

(** The stripe is small enough to be allocated. *)
Definition fits (c : ErasureCodec) (len : nat) : Prop :=
  Z.of_nat (shard_size_for len (data_shards c) * total_shards c) <= isize_max.

(** The data padded with zeros to whole shards, and cut. *)
Definition padded (size k : nat) (data : bytes) : bytes := data ++ zeros (k * size - length data).
Definition cut_data (c : ErasureCodec) (data : bytes) : list bytes :=
  let size := shard_size_for (length data) (data_shards c) in
  cut size (data_shards c) (padded size (data_shards c) data).

Section coded.
Context (c : ErasureCodec) (D : list (option bytes) -> Prop).
Context `{HC : !Codes c D}.
Let k := data_shards c.

Lemma padded_length data : length (padded (shard_size_for (length data) k) k data) = (k * shard_size_for (length data) k)%nat.
Proof.
  unfold padded, zeros. rewrite length_app, length_replicate.
  pose proof (shard_size_holds (length data) k (codes_k (Codes := HC))). lia.
Qed.

Lemma cut_data_spec data :
  length (cut_data c data) = k /\ sized (shard_size_for (length data) k) (cut_data c data) /\
  concat (cut_data c data) = padded (shard_size_for (length data) k) k data.
Proof.
  unfold cut_data. fold k. split_and!; [apply length_cut|apply sized_cut, padded_length|apply concat_cut, padded_length].
Qed.

Lemma encode_spec data : fits c (length data) ->
  exists parity, encode c data = Ok (cut_data c data ++ parity) /\
    backend_encode c (cut_data c data) (shard_size_for (length data) k) = Ok (cut_data c data ++ parity) /\
    length parity = parity_shards c /\ sized (shard_size_for (length data) k) parity.
Proof.
  intros Hf. destruct (cut_data_spec data) as (Hl & Hs & _).
  destruct (codes_encode (Codes := HC) (cut_data c data) (shard_size_for (length data) k) Hl Hs) as (parity & He & Hp & Hps).
  { apply shard_size_aligned. }
  exists parity. split_and!; [|done..]. unfold encode. fold k. set (size := shard_size_for (length data) k) in *.
  unfold fits in Hf. fold k in Hf. fold size in Hf. unfold total_shards in Hf. fold k in Hf.
  assert (size * k <= size * (k + parity_shards c))%nat by nia.
  assert (usize_mul size k = k * size)%nat as -> by (rewrite usize_mul_small; lia).
  unfold zeroed. rewrite (proj2 (Z.leb_le _ _)) by lia. cbn [mbind outcome_bind].
  pose proof (shard_size_holds (length data) k (codes_k (Codes := HC))) as Hh. fold size in Hh.
  rewrite copy_into_some by (unfold zeros; rewrite length_replicate; lia). cbn [or_panic mbind outcome_bind take app].
  assert (data ++ drop (0 + length data) (zeros (k * size)) = padded size k data) as ->.
  { unfold padded, zeros. by rewrite drop_replicate. }
  rewrite take_0. cbn [app]. rewrite mapM_slices by (pose proof (padded_length data) as Hpl; fold size in Hpl; lia). cbn [mbind outcome_bind].
  change (cut size k (padded size k data)) with (cut_data c data). unfold backend_encode in He.
  by rewrite He.
Qed.

Lemma join_cut_data data : join_data (cut_data c data) (length data) = data.
Proof.
  unfold join_data. destruct (cut_data_spec data) as (_ & _ & ->). apply take_app_length.
Qed.

(** What decoding the slots of an encoded stripe gives. *)
Lemma decode_spec data parity shards : 
  backend_encode c (cut_data c data) (shard_size_for (length data) k) = Ok (cut_data c data ++ parity) ->
  agrees shards (cut_data c data ++ parity) -> D shards -> decode c shards (length data) = Ok data.
Proof.
  intros He Ha HD. destruct (cut_data_spec data) as (Hl & Hs & _). unfold decode.
  destruct (data_present c shards) eqn:Ep.
  - f_equal. unfold data_present in Ep. apply andb_true_iff in Ep as [_ Hall%bool_decide_eq_true].
    fold k in Hall. fold k. apply Forall_is_Some in Hall.
    erewrite agrees_full; [|by apply agrees_take|done]. rewrite take_app_length' by done. apply join_cut_data.
  - rewrite (codes_rebuild (Codes := HC) (cut_data c data) _ (shard_size_for (length data) k) shards Hl Hs) by
      (done || apply shard_size_aligned). cbn. by rewrite join_cut_data.
Qed.

End coded.

(** C20. Data encoded by any codec, whose library keeps the laws of its code,
    comes back, whole, from what is left of its stripe, as long as enough is
    left for the code and the stripe's size fits a [usize]. *)
Theorem encode_decode cfg c data : new cfg = Ok c -> laws c -> fits c (length data) ->
  exists stripe, encode c data = Ok stripe /\ length stripe = total_shards c /\
    forall shards, agrees shards stripe -> decodable c shards -> decode c shards (length data) = Ok data.
Proof.
  intros Hnew Hlaw Hf. pose proof (new_codes cfg c Hnew Hlaw) as HC.
  destruct (encode_spec c _ data Hf) as (parity & He & Hb & Hp & _).
  exists (cut_data c data ++ parity). split_and!; [done| |].
  - destruct (cut_data_spec c (decodable c) data) as (Hl & _). rewrite length_app, Hl, Hp. done.
  - intros shards Ha HD. by apply (decode_spec c (decodable c) data parity).
Qed.

(** ** The losses an LRC stripe survives *)
Lemma few_missing_enough b shards : lrc_wf b ->
  length shards = (lrc_data b + lrc_local b + lrc_global b)%nat ->
  (length (missing shards) <= lrc_global b)%nat -> enough b shards.
Proof.
  intros Hwf Hn Hm. unfold enough. set (k := lrc_data b) in *. set (l := lrc_local b) in *.
  assert (Hsplit : count_some shards = (count_some (take k shards) + count_some (take l (drop k shards)) +
    count_some (drop (k + l) shards))%nat).
  { rewrite <- (take_drop k shards) at 1. rewrite count_some_app.
    rewrite <- (take_drop l (drop k shards)) at 1. rewrite count_some_app, drop_drop. lia. }
  pose proof (length_missing shards). pose proof (length_missing (take k shards)) as Hk.
  pose proof (length_missing (take l (drop k shards))) as Hl. rewrite length_take, length_drop in Hl. rewrite length_take in Hk.
  assert (length (unrepaired b shards) <= length (missing (take k shards)))%nat; [|lia].
  apply submseteq_length, NoDup_submseteq; [apply NoDup_filter, NoDup_seq|].
  intros i [[Hi _] [_ Hlt]%elem_of_seq]%list_elem_of_filter. fold k in Hlt. apply elem_of_missing.
  rewrite length_take, shard_at_take by lia. split; [lia|done].
Qed.

(** C21. An LRC stripe gives its data back exactly when its global parity shards
    that are left are as many as the data shards no group can rebuild (those
    missing beside another, or beside their group's parity); else decoding
    fails, it never answers other bytes. Any [g] losses can be survived. *)
Theorem lrc_rebuilds_exact cfg b data : new cfg = Ok (mkCodec cfg (LrcBackend b)) ->
  RsCode (lrc_data b) (lrc_global b) -> let c := mkCodec cfg (LrcBackend b) in fits c (length data) ->
  exists stripe, encode c data = Ok stripe /\ forall shards, agrees shards stripe ->
    (enough b shards -> decode c shards (length data) = Ok data) /\
    (~ enough b shards -> exists e, decode c shards (length data) = Err e) /\
    ((length (missing shards) <= lrc_global b)%nat -> enough b shards).
Proof.
  intros Hnew Hlaw c Hf. pose proof (new_codes cfg c Hnew Hlaw) as HC.
  destruct (new_cases cfg c Hnew) as [(? & [=] & _)|(b' & [= <-] & Hwf)].
  destruct (encode_spec c _ data Hf) as (parity & He & Hb & Hp & _).
  destruct (cut_data_spec c (decodable c) data) as (Hl & Hs & _).
  exists (cut_data c data ++ parity). split; [done|]. intros shards Ha. split_and!.
  - intros Hen. by apply (decode_spec c (decodable c) data parity).
  - intros Hno. unfold decode.
    pose proof (lrc_rebuild b cfg Hwf (cut_data c data) _ _ shards Hlaw Hl Hs (shard_size_aligned _ _) Hb Ha) as Hr.
    rewrite decide_False in Hr by done. destruct (data_present c shards) eqn:Ep.
    + exfalso. apply Hno. unfold data_present in Ep. apply andb_true_iff in Ep as [Hk%Nat.leb_le Hall%bool_decide_eq_true].
      unfold enough. rewrite (unrepaired_present b shards Hall Hk). cbn. lia.
    + destruct Hr as [e He']. change (rebuild_data c shards = Err e) in He'. rewrite He'. cbn. eauto.
  - intros Hm. apply few_missing_enough; [done| |done].
    rewrite (agrees_length _ _ Ha), length_app, Hl, Hp. pose proof (lrc_parity b cfg Hwf) as Hpar.
    fold c in Hpar. rewrite Hpar. cbn. lia.
Qed.

(** ** One stripe, however it is encoded *)
Section mds.
Context (b : IsalBackend) (cfg : ErasureConfig).
Hypothesis Hlaw : IsalMds (isal_k b) (isal_m b).
Hypothesis Hk : (0 < isal_k b)%nat.
Let k := isal_k b.
Let m := isal_m b.
Let c := mkCodec cfg (MdsBackend b).

(** Writing the data and its padding over the start of a buffer. *)
Lemma write_padded size data buf : (length data <= size * k)%nat -> (size * k <= length buf)%nat ->
  (copy_into 0 data buf ≫= fun u => copy_into (length data) (zeros (size * k - length data)) u)
    = Some (padded size k data ++ drop (size * k) buf).
Proof.
  intros Hd Hb. rewrite copy_into_some by lia. cbn [mbind option_bind]. rewrite take_0. cbn [app].
  rewrite copy_into_some by (unfold zeros; rewrite length_app, length_drop, length_replicate; lia).
  f_equal. rewrite take_app_length. unfold padded, zeros. rewrite length_replicate, <- app_assoc.
  do 2 f_equal; [f_equal; lia|]. rewrite drop_app_ge by lia. rewrite drop_drop. f_equal. lia.
Qed.

Lemma encode_into_spec data parity buf : fits c (length data) ->
  encode c data = Ok (cut_data c data ++ parity) ->
  encode_into c data buf =
    if (stripe_len c (length data) <=? length buf)%nat
    then Ok (concat (cut_data c data ++ parity) ++ drop (stripe_len c (length data)) buf, shard_size_for (length data) k)
    else Err ShardSizeMismatch.
Proof.
  intros Hf He. pose proof (mds_codes b cfg Hlaw Hk) as HC. fold c in HC.
  destruct (encode_spec c _ data Hf) as (parity' & He' & Hbe & Hpl & Hps). rewrite He in He'.
  injection He' as Hpp. apply app_inv_head in Hpp as <-. unfold fits in Hf. unfold encode_into, stripe_len. cbn [backend c].
  change (data_shards c) with k in *. change (total_shards c) with (k + m)%nat in *. change (parity_shards c) with m in *.
  set (size := shard_size_for (length data) k) in *. set (n := (size * (k + m))%nat) in *.
  assert (size * k <= n)%nat by (unfold n; nia). pose proof (shard_size_aligned (length data) k) as [Hpos _]. fold size in Hpos.
  assert (usize_mul size (k + m) = n) as -> by (by apply usize_mul_small).
  assert (usize_mul size k = size * k)%nat as -> by (apply usize_mul_small; lia).
  destruct (Nat.leb_spec n (length buf)) as [Hn|Hn]; [|by rewrite (proj2 (Nat.ltb_lt _ _))].
  rewrite (proj2 (Nat.ltb_ge _ _)) by done.
  pose proof (shard_size_holds (length data) k Hk) as Hh. fold size in Hh.
  pose proof (write_padded size data (take n buf)) as Hw. rewrite length_take in Hw.
  specialize (Hw ltac:(lia) ltac:(lia)). destruct (copy_into 0 data (take n buf)) as [u|]; [|done].
  cbn [or_panic mbind outcome_bind option_bind] in *. rewrite (proj2 (Nat.ltb_ge _ _)) by lia. rewrite Hw.
  cbn [or_panic mbind outcome_bind]. pose proof (padded_length c _ data (HC := HC)) as Hpad.
  change (data_shards c) with k in Hpad. fold size in Hpad.
  rewrite take_app_length', drop_app_length' by lia. rewrite (chunks_exact_cut size k) by lia.
  change (cut size k (padded size k data)) with (cut_data c data).
  set (rest := drop (size * k) (take n buf)).
  assert (length rest = m * size)%nat as Hrest by (unfold rest; rewrite length_drop, length_take; unfold n in *; nia).
  rewrite (chunks_exact_cut size m) by done. destruct (cut_data_spec c _ data (HC := HC)) as (Hl & Hs & Hcat).
  change (data_shards c) with k in *. fold size in Hs, Hcat.
  assert (encode_parity_into b (cut_data c data) (cut size m rest) size = Ok parity) as ->.
  { unfold encode_parity_into, check_parity_buffers. rewrite length_cut. fold m k. rewrite Nat.eqb_refl. cbn [negb].
    rewrite (sized_no_other size (cut size m rest)) by (by apply sized_cut). cbn [mbind outcome_bind].
    rewrite Hl, Nat.eqb_refl, (sized_no_other size (cut_data c data) Hs).
    cbn [negb orb]. destruct (isal_encodes k m Hlaw (cut_data c data) (cut size m rest) size) as (p & Hz & Hbuf & _);
      [done|apply length_cut|done|by apply sized_cut|apply shard_size_aligned|].
    rewrite Hbuf. cbn. f_equal. destruct (mds_encode b Hlaw (cut_data c data) size Hl Hs) as (p' & Hz' & Hbe' & _);
      [apply shard_size_aligned|]. change (isal_backend_encode b (cut_data c data) size = Ok (cut_data c data ++ parity)) in Hbe. rewrite Hbe in Hbe'. injection Hbe' as Hpe.
    apply app_inv_head in Hpe as ->. fold k m in Hz'. congruence. }
  cbn [map_err mbind outcome_bind]. rewrite concat_app, Hcat, <- app_assoc. done.
Qed.

End mds.

(** However data is encoded, it is one stripe: [encode_bytes] gives the
    shards of [encode], and [encode_into] writes them one after the other at
    the start of the buffer, whatever it held, and leaves the rest of it; a
    buffer too short and an LRC codec are refused. *)
Theorem encode_one_stripe cfg c data : new cfg = Ok c -> laws c -> fits c (length data) ->
  exists stripe, encode c data = Ok stripe /\ encode_bytes c data = Ok stripe /\
    forall buf, encode_into c data buf =
      if is_lrc c then Err (InvalidConfig NeedsMds)
      else if (stripe_len c (length data) <=? length buf)%nat
      then Ok (concat stripe ++ drop (stripe_len c (length data)) buf, shard_size_for (length data) (data_shards c))
      else Err ShardSizeMismatch.
Proof.
  intros Hnew Hlaw Hf. pose proof (new_codes cfg c Hnew Hlaw) as HC.
  destruct (encode_spec c _ data Hf) as (parity & He & Hb & Hp & Hps).
  destruct (cut_data_spec c _ data (HC := HC)) as (Hl & Hs & _).
  exists (cut_data c data ++ parity). split; [done|].
  destruct (new_cases cfg c Hnew) as [(b & Hc & Hk)|(b & -> & Hwf)]; [|done].
  assert (Hlaw' : IsalMds (isal_k b) (isal_m b)) by (by rewrite Hc in Hlaw).
  assert (Hi : forall buf, encode_into c data buf =
    if (stripe_len c (length data) <=? length buf)%nat
    then Ok (concat (cut_data c data ++ parity) ++ drop (stripe_len c (length data)) buf, shard_size_for (length data) (data_shards c))
    else Err ShardSizeMismatch) by (intros buf; subst c; by apply encode_into_spec).
  assert (is_lrc c = false) as Hm by (by rewrite Hc). rewrite Hm. split; [|done]. unfold encode_bytes. rewrite Hm.
  unfold fits in Hf. unfold stripe_len in *. rewrite usize_mul_small in * by done. unfold zeroed.
  rewrite (proj2 (Z.leb_le _ _)) by done. cbn [mbind outcome_bind]. rewrite Hi. unfold zeros at 1. rewrite length_replicate.
  rewrite (proj2 (Nat.leb_le _ _)) by done. cbn [mbind outcome_bind].
  rewrite drop_ge by (unfold zeros; rewrite length_replicate; lia). rewrite app_nil_r.
  assert (length (cut_data c data ++ parity) = total_shards c) as Hn by (rewrite length_app, Hl, Hp; done).
  assert (sized (shard_size_for (length data) (data_shards c)) (cut_data c data ++ parity)) as Hsz by (by apply sized_app).
  rewrite mapM_slices by (rewrite (sized_concat _ _ Hsz); lia). rewrite <- Hn. by rewrite cut_concat.
Qed.

(** ** Repair *)
Lemma take_shards_ok stripe idxs : NoDup idxs -> Forall (fun i => i < length stripe)%nat idxs ->
  take_shards stripe idxs = Ok ((fun i => stripe !!! i) <$> idxs).
Proof.
  revert stripe. induction idxs as [|i idxs IH]; intros stripe Hnd Hlt; [done|].
  apply NoDup_cons in Hnd as [Hi Hnd]. apply Forall_cons in Hlt as [Hil Hlt]. cbn [take_shards].
  destruct (lookup_lt_is_Some_2 stripe i Hil) as [s Hs]. rewrite Hs. cbn [ok_or mbind outcome_bind].
  rewrite IH; [|done|by rewrite length_insert]. cbn [mbind outcome_bind]. rewrite fmap_cons.
  rewrite (list_lookup_total_correct _ _ s Hs). do 2 f_equal. apply list_fmap_ext. intros p j Hj.
  apply list_elem_of_lookup_2 in Hj. rewrite Forall_forall in Hlt.
  destruct (lookup_lt_is_Some_2 stripe j (Hlt j Hj)) as [t Ht].
  rewrite (list_lookup_total_correct stripe j t Ht). apply list_lookup_total_correct.
  rewrite list_lookup_insert_ne; [done|]. by intros <-.
Qed.

Lemma erasures_lost shards idxs : Forall (fun i => shard_at shards i = None) idxs ->
  erasures shards idxs = missing shards.
Proof. intros Hl. unfold erasures, missing. rewrite Forall_forall in Hl. apply filter_ext_in. naive_solver. Qed.

Lemma mds_redecode b data parity size shards idxs : IsalMds (isal_k b) (isal_m b) -> (0 < isal_k b)%nat -> length data = isal_k b ->
  sized size data -> aligned size ->
  isal_backend_encode b data size = Ok (data ++ parity) -> length parity = isal_m b -> sized size parity ->
  agrees shards (data ++ parity) -> (isal_k b <= count_some shards)%nat ->
  Forall (fun i => shard_at shards i = None) idxs ->
  exists p', isal_backend_decode b shards size idxs = Ok (data ++ p').
Proof.
  intros Hlaw Hk Hl Hs Hal He Hpl Hps Ha Hc Hlost.
  destruct (mds_encode b Hlaw data size Hl Hs Hal) as (p & Hz & He' & _).
  rewrite He in He'. injection He' as Hpp. apply app_inv_head in Hpp as <-.
  destruct (decide (Forall is_Some (take (isal_k b) shards))) as [Hall|Hnot].
  - unfold isal_backend_decode. pose proof (agrees_length _ _ Ha) as Hn. rewrite length_app in Hn.
    rewrite (proj2 (Nat.eqb_eq _ _)) by lia. cbn [negb]. rewrite (proj2 (Nat.ltb_ge _ _)) by lia.
    rewrite bool_decide_eq_true_2 by done. apply Forall_is_Some in Hall.
    erewrite agrees_full; [|by apply agrees_take|done]. rewrite take_app_length' by done. rewrite He. cbn. eauto.
  - destruct (mds_decode b Hlaw Hk data parity size shards) as [p' Hd]; try done. exists p'. rewrite <- Hd.
    unfold isal_backend_decode. by rewrite (erasures_lost shards idxs), erasures_missing.
Qed.

(** C23. Repair gives back the very shards that were lost, data and parity alike,
    from what is left of a stripe that can be decoded, when each is asked for
    once. *)
Theorem reconstruct_exact cfg c data shards idxs : new cfg = Ok c -> laws c -> fits c (length data) ->
  exists stripe, encode c data = Ok stripe /\
    (agrees shards stripe -> decodable c shards -> NoDup idxs ->
     Forall (fun i => (i < total_shards c)%nat /\ shard_at shards i = None) idxs ->
     exists lost, reconstruct_shards c shards idxs = Ok lost /\
       Forall2 (fun i s => stripe !! i = Some s) idxs lost).
Proof.
  intros Hnew Hlaw Hf. pose proof (new_codes cfg c Hnew Hlaw) as HC.
  destruct (encode_spec c _ data Hf) as (parity & He & Hb & Hp & Hps).
  destruct (cut_data_spec c _ data (HC := HC)) as (Hl & Hs & _). set (size := shard_size_for (length data) (data_shards c)) in *.
  pose proof (shard_size_aligned (length data) (data_shards c)) as Hal. fold size in Hal.
  set (dat := cut_data c data) in *. exists (dat ++ parity). split; [done|]. intros Ha HD Hnd Hlost.
  assert (length (dat ++ parity) = total_shards c) as Hn by (rewrite length_app, Hl, Hp; done).
  assert (sized size (dat ++ parity)) as Hsz by (by apply sized_app).
  assert (Htake : take_shards (dat ++ parity) idxs = Ok ((fun i => (dat ++ parity) !!! i) <$> idxs)).
  { apply take_shards_ok; [done|]. eapply Forall_impl; [exact Hlost|]. intros i [? _]. lia. }
  exists ((fun i => (dat ++ parity) !!! i) <$> idxs). split.
  2:{ apply Forall2_fmap_r, Forall_Forall2_diag. eapply Forall_impl; [exact Hlost|]. intros i [Hi _].
      destruct (lookup_lt_is_Some_2 (dat ++ parity) i) as [s Hx]; [lia|].
      rewrite Hx. f_equal. symmetry. by apply list_lookup_total_correct. }
  pose proof (codes_k (Codes := HC)) as Hk.
  assert (data_shards c <= count_some shards)%nat as Hcount.
  { pose proof (codes_rebuild (Codes := HC) dat _ size shards Hl Hs Hal Hb Ha HD) as Hr. unfold rebuild_data in Hr.
    case_if; [done|]. destruct (Nat.ltb_spec (count_some shards) (data_shards c)); [done|lia]. }
  unfold reconstruct_shards. rewrite (proj2 (Nat.ltb_ge _ _)) by done.
  rewrite (agrees_first shards _ size Ha Hsz) by lia. cbn [ok_or mbind outcome_bind].
  destruct (new_cases cfg c Hnew) as [(b & Hc & _)|(b & Hc & _)]; rewrite Hc in *; cbn [backend] in *.
  - destruct (mds_redecode b dat parity size shards idxs) as [p' ->]; try done.
    { eapply Forall_impl; [exact Hlost|]. by intros i []. }
    cbn [map_err mbind outcome_bind]. change (data_shards (mkCodec cfg (MdsBackend b))) with (isal_k b) in *.
    rewrite length_app, (proj2 (Nat.ltb_ge _ _)) by lia. rewrite take_app_length' by lia.
    change (isal_backend_encode b dat size = Ok (dat ++ parity)) in Hb. rewrite Hb. done.
  - rewrite (codes_rebuild (Codes := HC) dat _ size shards Hl Hs Hal Hb Ha HD). cbn [mbind outcome_bind].
    unfold encode_shards. cbn [backend]. assert (from_option length 0%nat (head dat) = size) as ->.
    { apply head_size; [by rewrite Hl|done]. }
    change (all_shards <$> encode_lrc b dat size = Ok (dat ++ parity)) in Hb. rewrite Hb. done.
Qed.

End codec.

(** ** Examples: 2+1, and LRC 4+2+1, over one parity shard *)
Definition ec_2_1 : ErasureCodec := mkCodec (config_new 2 1) (MdsBackend (mkIsal 2 1)).
Definition lrc_4_2_1 : ErasureCodec := mkCodec (config_lrc 4 2 1) (LrcBackend (mkLrc 4 2 1 2)).
Definition greeting : bytes := as_bytes "hello, world".

Definition stripe_of (c : ErasureCodec) (data : bytes) : list bytes :=
  match @encode xor_isal xor_rs c data with Ok s => s | _ => [] end.

Lemma stripe_of_ok c data stripe : @encode xor_isal xor_rs c data = Ok stripe -> stripe = stripe_of c data.
Proof. intros He. unfold stripe_of. by rewrite He. Qed.

Lemma encode_decode_witness :
  exists stripe, @encode xor_isal xor_rs ec_2_1 greeting = Ok stripe /\
    @decode xor_isal xor_rs ec_2_1 (erase [0%nat] stripe) (length greeting) = Ok greeting.
Proof.
  destruct (encode_decode (HIsal := xor_isal) (HRs := xor_rs) (config_new 2 1) ec_2_1 greeting)
    as (stripe & He & _ & Hd); [done|apply (xor_isal_mds 2); lia|by vm_compute|].
  exists stripe. split; [done|]. apply Hd; [apply agrees_erase|].
  rewrite (stripe_of_ok _ _ _ He). apply (bool_decide_unpack _). by vm_compute.
Defined.

(** Two data shards of different groups and one group's parity lost: one
    comes from its group, the other from the global parity. *)
Lemma lrc_rebuilds_exact_witness :
  exists stripe, @encode xor_isal xor_rs lrc_4_2_1 greeting = Ok stripe /\
    @decode xor_isal xor_rs lrc_4_2_1 (erase [0%nat; 2%nat; 5%nat] stripe) (length greeting) = Ok greeting.
Proof.
  destruct (lrc_rebuilds_exact (HIsal := xor_isal) (HRs := xor_rs) (config_lrc 4 2 1) (mkLrc 4 2 1 2) greeting)
    as (stripe & He & Hd); [done|apply (xor_rs_code 4); lia|by vm_compute|].
  exists stripe. split; [done|]. apply Hd; [apply agrees_erase|].
  rewrite (stripe_of_ok _ _ _ He). unfold enough. apply (bool_decide_unpack _). by vm_compute.
Defined.

Lemma encode_one_stripe_witness :
  exists stripe, @encode_bytes xor_isal xor_rs ec_2_1 greeting = Ok stripe /\
    @encode_into xor_isal ec_2_1 greeting (replicate 200 Byte.xff) = Ok (concat stripe ++ replicate 8 Byte.xff, 64%nat).
Proof.
  destruct (encode_one_stripe (HIsal := xor_isal) (HRs := xor_rs) (config_new 2 1) ec_2_1 greeting)
    as (stripe & _ & Hb & Hi); [done|apply (xor_isal_mds 2); lia|by vm_compute|].
  exists stripe. split; [done|]. exact (Hi (replicate 200 Byte.xff)).
Defined.

Lemma reconstruct_exact_witness :
  exists stripe lost, @encode xor_isal xor_rs lrc_4_2_1 greeting = Ok stripe /\
    @reconstruct_shards xor_isal xor_rs lrc_4_2_1 (erase [0%nat; 5%nat; 6%nat] (stripe_of lrc_4_2_1 greeting)) [5%nat; 0%nat] = Ok lost /\
    Forall2 (fun i s => stripe !! i = Some s) [5%nat; 0%nat] lost.
Proof.
  destruct (reconstruct_exact (HIsal := xor_isal) (HRs := xor_rs) (config_lrc 4 2 1) lrc_4_2_1 greeting
      (erase [0%nat; 5%nat; 6%nat] (stripe_of lrc_4_2_1 greeting)) [5%nat; 0%nat])
    as (stripe & He & Hr); [done|apply (xor_rs_code 4); lia|by vm_compute|].
  rewrite <- (stripe_of_ok _ _ _ He) in Hr at 1.
  destruct Hr as (lost & Hl & Hf).
  - apply agrees_erase.
  - apply (bool_decide_unpack _). by vm_compute.
  - apply (bool_decide_unpack _). by vm_compute.
  - apply (bool_decide_unpack _). by vm_compute.
  - by exists stripe, lost.
Defined.

End CodecSpec.
