(* ===== verification/VerifiedDecode.v ===== *)
(** * Verified decoding

    What a client is served by [decode_verified]: only data whose rebuilt
    shards match their recorded checksums, or are borne out by a parity shard
    the decode did not use ([decode_verified_sound]); and, with bad parity
    shards among those given, the data written, as long as enough good ones
    are there and the choices are within the limit
    ([decode_verified_finds]). *)
From S2P Require Import Prelude Bytes Crc ErasureBackend Erasure CombinationsSpec Stripes Xor ErasureSpec LrcSpec CodecSpec XorCode.
Import ErasureBackend Erasure CombinationsSpec Stripes XorCode ErasureSpec LrcSpec CodecSpec.

Module VerifiedDecode.

Section codec.
Context `{HIsal : Isal} `{HRs : RsSimd} `{HCrc : Crc32c}.

(** ** The checks *)
Lemma match_recorded_ok data recorded rebuilt u r : match_recorded data recorded rebuilt u = Ok (Some r) ->
  (forall i crc, i ∈ rebuilt -> shard_at recorded i = Some crc -> exists s, data !! i = Some s /\ crc32c s = crc) /\
  (r = false -> forall i, i ∈ rebuilt -> is_Some (shard_at recorded i)).
Proof.
  revert u. induction rebuilt as [|i rebuilt IH]; intros u Hm; cbn in Hm.
  - split; [by intros i crc ?%not_elem_of_nil|by intros _ i ?%not_elem_of_nil].
  - destruct (shard_at recorded i) as [crc|] eqn:Er.
    + apply outcome_bind_ok in Hm as (s & Hs & Hm). destruct (data !! i) as [s'|] eqn:Hd; [|done].
      injection Hs as ->. destruct (Z.eqb_spec (crc32c s) crc); [|done]. destruct (IH _ Hm) as [H1 H2]. split.
      * intros j crc' [->|Hj]%elem_of_cons Hc; [|by eapply H1]. exists s. split; [done|congruence].
      * intros Hr j [->|Hj]%elem_of_cons; [eauto|by apply H2].
    + destruct (IH _ Hm) as [H1 H2]. split.
      * intros j crc' [->|Hj]%elem_of_cons Hc; [congruence|by eapply H1].
      * intros ->. exfalso. clear -Hm. induction rebuilt as [|j rebuilt IH]; cbn in Hm; [done|].
        destruct (shard_at recorded j); [|auto]. apply outcome_bind_ok in Hm as (s & _ & Hm).
        destruct (crc32c s =? _); [auto|done].
Qed.

Lemma borne_out_true shards stripe unused : borne_out shards stripe unused = Ok true ->
  exists p s, p ∈ unused /\ shard_at shards p = Some s /\ stripe !! p = Some s.
Proof.
  induction unused as [|p unused IH]; cbn; [done|]. destruct (shard_at shards p) as [s|] eqn:Es.
  - intros (t & Ht & Hb)%outcome_bind_ok. destruct (stripe !! p) as [t'|] eqn:Et; [|done]. injection Ht as ->.
    case_bool_decide as Heq; [subst; exists p, t; split_and!; [by left|done..]|].
    destruct (IH Hb) as (q & s' & Hq & ?). exists q, s'. split; [by right|done].
  - intros Hb. destruct (IH Hb) as (q & s' & Hq & ?). exists q, s'. split; [by right|done].
Qed.

(** Data rebuilt from the given data shards and the parity shards [chosen]
    that passes the checks. *)
Record verified (c : ErasureCodec) (shards : list (option bytes)) (recorded : list (option Z)) (chosen : list nat)
    (data : list bytes) : Prop := {
  vf_rebuilt : rebuild_data c (subset_of c shards chosen) = Ok data;
  vf_recorded : forall i crc, (i < data_shards c)%nat -> shard_at shards i = None -> shard_at recorded i = Some crc ->
    exists s, data !! i = Some s /\ crc32c s = crc;
  vf_unrecorded : forall i, (i < data_shards c)%nat -> shard_at shards i = None -> shard_at recorded i = None ->
    exists stripe p s, encode_shards c data = Ok stripe /\ (p ∉ chosen) /\ (data_shards c <= p < total_shards c)%nat /\
      shard_at shards p = Some s /\ stripe !! p = Some s;
}.

Section search.
Context (c : ErasureCodec) (shards : list (option bytes)) (recorded : list (option Z)).
Let k := data_shards c.
Let n := total_shards c.
Let rebuilt := filter (fun i => shard_at shards i = None) (seq 0 k).
Let parity := filter (fun i => is_Some (shard_at shards i)) (seq k (n - k)).

Lemma elem_of_rebuilt i : i ∈ rebuilt <-> (i < k)%nat /\ shard_at shards i = None.
Proof. unfold rebuilt. rewrite list_elem_of_filter, elem_of_seq. intuition lia. Qed.

Lemma check_rebuilt_verified chosen data : check_rebuilt c shards data rebuilt chosen recorded = Ok Verified ->
  rebuild_data c (subset_of c shards chosen) = Ok data -> verified c shards recorded chosen data.
Proof.
  unfold check_rebuilt. intros (m & Hm & Hch)%outcome_bind_ok Hr. destruct m as [[]|]; [| |done].
  - destruct (match_recorded_ok _ _ _ _ _ Hm) as [H1 _]. split; [done| |].
    + intros i crc Hi Hs. apply H1, elem_of_rebuilt. done.
    + intros _ _ _ _. cbn zeta in Hch.
      set (unused := filter (fun i => is_Some (shard_at shards i) /\ i ∉ chosen) _) in Hch.
      destruct unused as [|p0 ps] eqn:Ef; [done|]. rewrite <- Ef in Hch.
      destruct (encode_shards c data) as [stripe| |] eqn:Ee; [|done..].
      apply outcome_bind_ok in Hch as ([] & Hb & Hv); [|done].
      destruct (borne_out_true _ _ _ Hb) as (p & s & Hp & Hs & Ht).
      apply list_elem_of_filter in Hp as [[_ Hnc] [Hlo Hhi]%elem_of_seq].
      exists stripe, p, s. split_and!; lia || done.
  - destruct (match_recorded_ok _ _ _ _ _ Hm) as [H1 H2]. split; [done| |].
    + intros i crc Hi Hs. apply H1, elem_of_rebuilt. done.
    + intros i Hi Hs Hn. destruct (H2 eq_refl i) as [x Hx]; [by apply elem_of_rebuilt|congruence].
Qed.

Lemma try_choice_found choice budget mm data :
  try_choice c shards rebuilt parity recorded choice budget mm = Ok (Found data) ->
  exists chosen, verified c shards recorded chosen data.
Proof.
  unfold try_choice. intros (chosen & _ & Hr)%outcome_bind_ok. exists chosen.
  destruct (rebuild_data c (subset_of c shards chosen)) as [d| |] eqn:Er; [|done..].
  apply outcome_bind_ok in Hr as ([] & Hch & [=]). subst d. by apply check_rebuilt_verified.
Qed.

Lemma try_choices_found budget cs mm data :
  try_choices c shards rebuilt parity recorded budget cs mm = Ok (Found data) ->
  exists chosen, verified c shards recorded chosen data.
Proof.
  revert cs mm. induction budget as [|budget IH]; intros cs mm; cbn [try_choices];
    destruct (comb_next cs) as [[choice cs']|]; try done.
  intros (s & Hs & Hf)%outcome_bind_ok. destruct s as [d|b' mm']; [|by eapply IH].
  injection Hf as ->. by eapply try_choice_found.
Qed.

Lemma try_used_found used budget mm data :
  try_used c shards rebuilt parity recorded used budget mm = Ok (Found data) ->
  exists chosen, verified c shards recorded chosen data.
Proof.
  revert budget mm. induction used as [|u used IH]; intros budget mm; cbn [try_used]; [done|].
  intros (s & Hs & Hf)%outcome_bind_ok. destruct s as [d|b' mm']; [|by eapply IH].
  injection Hf as ->. by eapply try_choices_found.
Qed.

End search.

(** What a verified decode that succeeds went through. *)
Lemma decode_verified_inv cfg c shards size recorded out : new cfg = Ok c -> laws c ->
  decode_verified c shards size recorded = Ok out ->
  exists data, out = take size (concat data) /\ length data = data_shards c /\
    (forall i s, (i < data_shards c)%nat -> shard_at shards i = Some s -> data !! i = Some s) /\
    (Forall is_Some (take (data_shards c) shards) \/ exists chosen, verified c shards recorded chosen data).
Proof.
  intros Hnew Hlaw. pose proof (new_codes cfg c Hnew Hlaw) as HC. unfold decode_verified.
  destruct (Nat.eqb_spec (length shards) (total_shards c)) as [Hn|]; [|done]. cbn [negb].
  assert (data_shards c <= length shards)%nat as Hkn by (rewrite Hn; unfold total_shards; lia).
  destruct (data_present c shards) eqn:Ep.
  - intros [= <-]. unfold data_present in Ep. apply andb_true_iff in Ep as [_ Hall%bool_decide_eq_true].
    destruct (all_present (data_shards c) shards Hkn Hall) as [Hl Hk]. eexists. split_and!; [done|done|done|by left].
  - case_if; [done|]. intros (s & Hs & Hf)%outcome_bind_ok. destruct s as [data|b mm]; [|done]. injection Hf as <-.
    destruct (try_used_found _ _ _ _ _ _ _ Hs) as [chosen Hv]. exists data.
    destruct (codes_keeps (Codes := HC) _ _ (vf_rebuilt _ _ _ _ _ Hv)) as [Hl Hk].
    split_and!; [done|done| |right; eauto]. intros i s Hi Hsh. apply Hk; [done|]. unfold subset_of, shard_at at 1.
    rewrite list_lookup_fmap, lookup_seq_lt by lia. cbn. rewrite bool_decide_eq_true_2 by (by left). done.
Qed.

(** ** The search finds what is there *)
Lemma bind_no_panic {E A B} (m : outcome E A) (f : A -> outcome E B) :
  m <> Panic -> (forall a, m = Ok a -> f a <> Panic) -> (m ≫= f) <> Panic.
Proof. destruct m; cbn; naive_solver. Qed.

Lemma map_err_no_panic {E F A} (f : E -> F) (m : outcome E A) : m <> Panic -> map_err f m <> Panic.
Proof. by destruct m. Qed.

Lemma mapM_no_panic {E A B} (f : A -> outcome E B) l : (forall x, f x <> Panic) -> mapM f l <> Panic.
Proof.
  intros Hf. induction l as [|x l IH]; [done|]. cbn [mapM]. apply bind_no_panic; [apply Hf|].
  intros y _. by apply bind_no_panic.
Qed.

Lemma isal_backend_encode_no_panic b data size : isal_backend_encode b data size <> Panic.
Proof.
  unfold isal_backend_encode. case_if; [done|]. destruct (wrong_size data size) as [[i n]|]; [done|].
  apply bind_no_panic; [apply lib_no_panic|done].
Qed.

Lemma isal_backend_decode_no_panic b shards size idxs : isal_backend_decode b shards size idxs <> Panic.
Proof.
  unfold isal_backend_decode. repeat case_if; try done; apply bind_no_panic; try done;
    [apply isal_backend_encode_no_panic|apply lib_no_panic|by intros []].
Qed.

Lemma decode_local_no_panic b shards size i : decode_local b shards size i <> Panic.
Proof. unfold decode_local. destruct (local_group b i); [|done]. by case_if. Qed.

Lemma recover_locally_no_panic b shards size idxs rec rem : recover_locally b shards size idxs rec rem <> Panic.
Proof.
  revert rec rem. induction idxs as [|i idxs IH]; intros rec rem; [done|]. cbn [recover_locally].
  apply bind_no_panic; [apply decode_local_no_panic|]. intros [r|] _; apply IH.
Qed.

Lemma restore_rest_no_panic k restored rem rec : restore_rest k restored rem rec <> Panic.
Proof.
  revert rec. induction rem as [|i rem IH]; intros rec; [done|]. cbn [restore_rest]. case_if; [|done].
  by destruct (restored !! i).
Qed.

Lemma lrc_decode_no_panic b shards size idxs : lrc_decode b shards size idxs <> Panic.
Proof.
  unfold lrc_decode. case_if; [done|]. apply bind_no_panic; [apply recover_locally_no_panic|].
  intros [rec [|i rem]] _; [done|]. case_if; [done|]. apply bind_no_panic; [apply lib_no_panic|]. intros _ _.
  apply bind_no_panic; [apply lib_no_panic|]. intros restored _. apply restore_rest_no_panic.
Qed.

Lemma rebuild_data_no_panic c shards : rebuild_data c shards <> Panic.
Proof.
  unfold rebuild_data. case_if; [done|]. case_if; [done|]. apply bind_no_panic; [by destruct (length <$> _)|]. intros size _.
  case_if; [done|]. destruct (backend c) as [b|b].
  - apply bind_no_panic; [apply map_err_no_panic, isal_backend_decode_no_panic|]. intros d _. by case_if.
  - unfold rebuild_lrc. apply bind_no_panic.
    + case_if; [done|]. apply bind_no_panic; [apply map_err_no_panic, lrc_decode_no_panic|done].
    + intros r _. apply mapM_no_panic. intros i. destruct (shard_at r i); [done|]. by destruct (shard_at shards i).
Qed.

(** Choices of positions are choices of what is there. *)
Lemma choose_fmap (f : nat -> nat) r (l : list nat) :
  choose r (f <$> l) = (fun x : list nat => f <$> x) <$> choose r l.
Proof.
  revert r. induction l as [|x l IH]; intros [|r]; [done..|]. rewrite fmap_cons. cbn [choose].
  rewrite !IH, fmap_app, <- !list_fmap_compose. done.
Qed.

Lemma fmap_lookups (l : list nat) : (fun i => l !!! i) <$> seq 0 (length l) = l.
Proof.
  apply list_eq. intros i. rewrite list_lookup_fmap. destruct (decide (i < length l)%nat) as [Hi|Hi].
  - rewrite lookup_seq_lt by done. destruct (lookup_lt_is_Some_2 l i Hi) as [x Hx]. rewrite Hx. cbn.
    by rewrite (list_lookup_total_correct _ _ x Hx).
  - rewrite lookup_seq_ge by lia. cbn. symmetry. apply lookup_ge_None_2. lia.
Qed.

Lemma choices_of (l : list nat) r :
  choose r l = (fun x : list nat => (fun i => l !!! i) <$> x) <$> choose r (seq 0 (length l)).
Proof. rewrite <- choose_fmap. by rewrite fmap_lookups. Qed.

Lemma mapM_lookups {E} (l choice : list nat) : Forall (fun i => i < length l)%nat choice ->
  mapM (M := outcome E) (fun i => or_panic (l !! i)) choice = Ok ((fun i => l !!! i) <$> choice).
Proof.
  intros Hch. apply mapM_ok, Forall2_fmap_r, Forall_Forall2_diag. eapply Forall_impl; [exact Hch|]. intros i Hi. cbn in Hi.
  destruct (lookup_lt_is_Some_2 l i Hi) as [x Hx]. rewrite Hx. cbn. by rewrite (list_lookup_total_correct _ _ x Hx).
Qed.

Section finds.
Context (c : ErasureCodec) (D : list (option bytes) -> Prop) (shards : list (option bytes)) (recorded : list (option Z)).
Context `{HC : !Codes c D}.
Let k := data_shards c.
Let n := total_shards c.
Let rebuilt := filter (fun i => shard_at shards i = None) (seq 0 k).
Let parity := filter (fun i => is_Some (shard_at shards i)) (seq k (n - k)).
Hypothesis Hrec : forall i, (i < k)%nat -> is_Some (shard_at recorded i).

(** With a checksum recorded for every shard the check decides. *)
Lemma match_recorded_decides data u : length data = k -> forall js, Forall (fun i => i < k)%nat js ->
  match_recorded data recorded js u =
    if forallb (fun i => match data !! i with Some s => bool_decide (shard_at recorded i = Some (crc32c s)) | None => false end) js
    then Ok (Some u) else Ok None.
Proof.
  intros Hl js. induction 1 as [|i js Hi Hjs IH]; [done|]. cbn [match_recorded forallb].
  destruct (Hrec i Hi) as [crc Hcrc]. rewrite Hcrc. destruct (lookup_lt_is_Some_2 data i) as [s Hs]; [lia|].
  rewrite Hs. cbn [or_panic mbind outcome_bind]. destruct (Z.eqb_spec (crc32c s) crc) as [->|Hne].
  - rewrite bool_decide_eq_true_2 by done. apply IH.
  - rewrite bool_decide_eq_false_2 by congruence. done.
Qed.

Lemma rebuilt_lt : Forall (fun i => i < k)%nat rebuilt.
Proof. apply Forall_forall. intros i [_ [_ ?]%elem_of_seq]%list_elem_of_filter. lia. Qed.

Lemma check_rebuilt_decides data chosen : length data = k ->
  check_rebuilt c shards data rebuilt chosen recorded = Ok Verified \/
  check_rebuilt c shards data rebuilt chosen recorded = Ok Mismatch.
Proof.
  intros Hl. unfold check_rebuilt. rewrite (match_recorded_decides data false Hl rebuilt rebuilt_lt).
  case_if; cbn; auto.
Qed.

Lemma check_rebuilt_good data chosen : length data = k ->
  (forall i s, (i < k)%nat -> data !! i = Some s -> shard_at recorded i = Some (crc32c s)) ->
  check_rebuilt c shards data rebuilt chosen recorded = Ok Verified.
Proof.
  intros Hl Hgood. unfold check_rebuilt. rewrite (match_recorded_decides data false Hl rebuilt rebuilt_lt).
  assert (forallb (fun i => match data !! i with Some s => bool_decide (shard_at recorded i = Some (crc32c s)) | None => false end) rebuilt = true) as ->; [|done].
  apply forallb_forall. intros i Hi%list_elem_of_In. pose proof rebuilt_lt as Hlt. rewrite Forall_forall in Hlt. specialize (Hlt i Hi).
  destruct (lookup_lt_is_Some_2 data i) as [s Hs]; [lia|]. rewrite Hs. apply bool_decide_eq_true. by apply Hgood.
Qed.

(** One try ends: with data found, or without and the budget as it was. *)
Lemma try_choice_ends choice budget mm : Forall (fun i => i < length parity)%nat choice ->
  (exists d, try_choice c shards rebuilt parity recorded choice budget mm = Ok (Found d)) \/
  (exists mm', try_choice c shards rebuilt parity recorded choice budget mm = Ok (NotFound budget mm')).
Proof.
  intros Hch. unfold try_choice.
  rewrite mapM_lookups by done. cbn [mbind outcome_bind]. set (chosen := (fun i => parity !!! i) <$> choice).
  pose proof (rebuild_data_no_panic c (subset_of c shards chosen)) as Hnp.
  destruct (rebuild_data c (subset_of c shards chosen)) as [d|e|] eqn:Er; [|right; eauto|done].
  destruct (codes_keeps (Codes := HC) _ _ Er) as [Hl _].
  destruct (check_rebuilt_decides d chosen Hl) as [-> | ->]; cbn; eauto.
Qed.

(** A choice of good parity shards is found. *)
Lemma try_choice_good choice budget mm dat : Forall (fun i => i < length parity)%nat choice ->
  rebuild_data c (subset_of c shards ((fun i => parity !!! i) <$> choice)) = Ok dat ->
  (forall i s, (i < k)%nat -> dat !! i = Some s -> shard_at recorded i = Some (crc32c s)) ->
  exists d, try_choice c shards rebuilt parity recorded choice budget mm = Ok (Found d).
Proof.
  intros Hch Hr Hgood. unfold try_choice.
  rewrite mapM_lookups by done. cbn [mbind outcome_bind]. rewrite Hr. destruct (codes_keeps (Codes := HC) _ _ Hr) as [Hl _].
  rewrite check_rebuilt_good by done. cbn. eauto.
Qed.

(** A walk over valid choices ends; one good choice among them is found. *)
Lemma try_choices_ends cs l : yields cs l -> Forall (Forall (fun i => i < length parity)%nat) l ->
  forall budget mm, (length l <= budget)%nat ->
  (exists d, try_choices c shards rebuilt parity recorded budget cs mm = Ok (Found d)) \/
  (exists mm', try_choices c shards rebuilt parity recorded budget cs mm = Ok (NotFound (budget - length l) mm') /\
     Forall (fun x => forall b m, ~ exists d, try_choice c shards rebuilt parity recorded x b m = Ok (Found d)) l).
Proof.
  induction 1 as [cs Hn|cs x cs' l Hn Hy IH]; intros Hv budget mm Hb.
  - right. exists mm. split; [|constructor]. rewrite Nat.sub_0_r. destruct budget; cbn [try_choices]; by rewrite Hn.
  - apply Forall_cons in Hv as [Hx Hv]. destruct budget as [|budget]; [cbn in Hb; lia|]. cbn [try_choices length]. rewrite Hn.
    destruct (try_choice_ends x budget mm Hx) as [[d ->]|[mm' Ht]]; [cbn; eauto|]. rewrite Ht. cbn [mbind outcome_bind].
    destruct (IH Hv budget mm') as [Hd|(mm'' & Hm & Hall)]; [cbn in Hb; lia|by left|]. right. exists mm''.
    split; [by rewrite Hm|]. constructor; [|done]. intros b m [d Hd].
    clear -Ht Hd. unfold try_choice in *. destruct (mapM _ x) as [chosen| |]; cbn [mbind outcome_bind] in *; [|done..].
    destruct (rebuild_data c _) as [d'| |]; [|done..].
    destruct (check_rebuilt c shards d' rebuilt chosen recorded) as [[]| |]; cbn in *; done.
Qed.

Lemma choices_valid v : Forall (Forall (fun i => i < length parity)%nat) (choose v (seq 0 (length parity))).
Proof.
  apply Forall_forall. intros x [_ Hs]%elem_of_choose. apply Forall_forall. intros i Hi.
  assert (i ∈ seq 0 (length parity)) as [_ ?]%elem_of_seq; [|lia].
  eapply elem_of_submseteq; [exact Hi|]. by apply sublist_submseteq.
Qed.

(** How many decodes are tried before all choices of [vs] parity shards are. *)
Definition tries (vs : list nat) : nat := sum_list_with (fun v => length (choose v parity)) vs.

Lemma choices_length v : length (choose v (seq 0 (length parity))) = length (choose v parity).
Proof. rewrite (choices_of parity v). by rewrite length_fmap. Qed.

Lemma try_used_good vs u rest choice budget mm :
  choice ∈ choose u (seq 0 (length parity)) -> (tries vs + length (choose u parity) <= budget)%nat ->
  (forall b m, exists d, try_choice c shards rebuilt parity recorded choice b m = Ok (Found d)) ->
  exists d, try_used c shards rebuilt parity recorded (vs ++ u :: rest) budget mm = Ok (Found d).
Proof.
  intros Hc Hb Hgood. revert budget mm Hb. induction vs as [|v vs IH]; intros budget mm Hb; cbn [app try_used].
  - cbn in Hb. destruct (try_choices_ends _ _ (combinations_exact (length parity) u) (choices_valid u) budget mm)
      as [[d ->]|(mm' & _ & Hall)]; [rewrite choices_length; lia|cbn; eauto|].
    exfalso. rewrite Forall_forall in Hall. by destruct (Hall choice Hc 0%nat 0%nat).
  - change (tries (v :: vs)) with (length (choose v parity) + tries vs)%nat in Hb.
    destruct (try_choices_ends _ _ (combinations_exact (length parity) v) (choices_valid v) budget mm)
      as [[d ->]|(mm' & -> & _)]; [rewrite choices_length; lia|cbn; eauto|]. cbn [mbind outcome_bind].
    apply IH. rewrite choices_length. lia.
Qed.

End finds.

(** The parity positions given, and the data positions to rebuild. *)
Definition given_parity (c : ErasureCodec) (shards : list (option bytes)) : list nat :=
  filter (fun i => is_Some (shard_at shards i)) (seq (data_shards c) (total_shards c - data_shards c)).
Definition lost_data (c : ErasureCodec) (shards : list (option bytes)) : list nat :=
  filter (fun i => shard_at shards i = None) (seq 0 (data_shards c)).

Lemma decode_verified_found c D shards size recorded chosen dat : Codes c D ->
  length shards = total_shards c -> (data_shards c <= count_some shards)%nat ->
  (forall i, (i < data_shards c)%nat -> is_Some (shard_at recorded i)) ->
  rebuild_data c (subset_of c shards chosen) = Ok dat ->
  (forall i s, (i < data_shards c)%nat -> dat !! i = Some s -> shard_at recorded i = Some (crc32c s)) ->
  sublist chosen (given_parity c shards) -> (length (lost_data c shards) <= length chosen)%nat ->
  (tries c shards (seq (length (lost_data c shards)) (S (length chosen) - length (lost_data c shards)))
     <= MAX_DECODE_ATTEMPTS)%nat ->
  exists out, decode_verified c shards size recorded = Ok out.
Proof.
  intros HC Hn Hcount Hrec Hr Hgood Hsub Hlen Htries. unfold decode_verified.
  rewrite Hn, Nat.eqb_refl. cbn [negb]. destruct (data_present c shards); [eauto|].
  rewrite (proj2 (Nat.ltb_ge _ _)) by done. fold (lost_data c shards). fold (given_parity c shards).
  set (r := length (lost_data c shards)) in *. set (u := length chosen) in *.
  pose proof (sublist_length _ _ Hsub) as Hu. fold u in Hu.
  assert (seq r (S (length (given_parity c shards)) - r) =
    seq r (u - r) ++ u :: seq (S u) (length (given_parity c shards) - u)) as ->.
  { replace (S (length (given_parity c shards)) - r)%nat with ((u - r) + S (length (given_parity c shards) - u))%nat by lia.
    rewrite seq_app. f_equal. replace (r + (u - r))%nat with u by lia. done. }
  assert (chosen ∈ choose u (given_parity c shards)) as Hin by (by apply elem_of_choose).
  rewrite choices_of in Hin. apply list_elem_of_fmap in Hin as (choice & -> & Hchoice).
  destruct (try_used_good c D shards recorded Hrec (seq r (u - r)) u (seq (S u) (length (given_parity c shards) - u))
    choice MAX_DECODE_ATTEMPTS 0 Hchoice) as [d Hd].
  - replace (S u - r)%nat with ((u - r) + 1)%nat in Htries by lia. rewrite seq_app in Htries. unfold tries in *.
    rewrite sum_list_with_app in Htries. replace (r + (u - r))%nat with u in Htries by lia. cbn in Htries.
    fold (given_parity c shards) in *. lia.
  - intros b m. eapply try_choice_good; [done|done| |exact Hr|done].
    pose proof (choices_valid c shards u) as Hv. rewrite Forall_forall in Hv. by apply Hv.
  - fold (lost_data c shards) in Hd. fold (given_parity c shards) in Hd. rewrite Hd. cbn. eauto.
Qed.

(** ** The shards a choice leaves *)
Section subset.
Context (c : ErasureCodec) (shards : list (option bytes)) (chosen : list nat).
Hypothesis Hn : length shards = total_shards c.
Hypothesis Hsub : sublist chosen (given_parity c shards).

Lemma shard_at_subset i : (i < total_shards c)%nat ->
  shard_at (subset_of c shards chosen) i =
    if bool_decide ((i < data_shards c)%nat \/ i ∈ chosen) then shard_at shards i else None.
Proof. intros Hi. unfold subset_of, shard_at at 1. by rewrite list_lookup_fmap, lookup_seq_lt by lia. Qed.

Lemma subset_length : length (subset_of c shards chosen) = total_shards c.
Proof. unfold subset_of. by rewrite length_fmap, length_seq. Qed.

Lemma subset_given i s : shard_at (subset_of c shards chosen) i = Some s ->
  shard_at shards i = Some s /\ ((i < data_shards c)%nat \/ i ∈ chosen).
Proof.
  intros Hs. pose proof (shard_at_lt _ _ _ Hs) as Hi. rewrite subset_length in Hi.
  rewrite shard_at_subset in Hs by done. by case_bool_decide.
Qed.

(** The choice must make up for the data shards that are lost. *)
Lemma subset_count : (count_some (subset_of c shards chosen) + length (lost_data c shards) <= data_shards c + length chosen)%nat.
Proof.
  set (k := data_shards c). assert (k <= total_shards c)%nat as Hk by (unfold total_shards, k; lia).
  rewrite <- length_present. unfold present. rewrite subset_length.
  replace (total_shards c) with (k + (total_shards c - k))%nat by lia. rewrite seq_app, filter_app, length_app. cbn [plus].
  assert (length (filter (fun i => is_Some (shard_at (subset_of c shards chosen) i)) (seq 0 k)) + length (lost_data c shards) = k)%nat as H1.
  { pose proof (filter_app_complement (fun i => shard_at shards i = None) (seq 0 k)) as Hc%Permutation_length.
    rewrite length_app, length_seq in Hc. unfold lost_data. fold k.
    rewrite (filter_ext_in _ (fun i => ~ shard_at shards i = None)); [lia|].
    intros i [_ Hi]%elem_of_seq. rewrite shard_at_subset by lia. rewrite bool_decide_eq_true_2 by (left; fold k; lia).
    by rewrite not_eq_None_Some. }
  assert (length (filter (fun i => is_Some (shard_at (subset_of c shards chosen) i)) (seq k (total_shards c - k))) <= length chosen)%nat; [|lia].
  apply submseteq_length, NoDup_submseteq; [apply NoDup_filter, NoDup_seq|].
  intros i [[s Hs] [Hi _]%elem_of_seq]%list_elem_of_filter.
  destruct (subset_given i s Hs) as [_ [Hlt|Hin]]; [fold k in Hlt; lia|done].
Qed.

Lemma subset_count_le : (count_some (subset_of c shards chosen) <= count_some shards)%nat.
Proof.
  rewrite <- !length_present. apply submseteq_length, NoDup_submseteq; [apply NoDup_filter, NoDup_seq|].
  intros i [[s Hs] _]%list_elem_of_filter. destruct (subset_given i s Hs) as [Hg _].
  apply list_elem_of_filter. split; [eauto|]. apply elem_of_seq. pose proof (shard_at_lt _ _ _ Hg). lia.
Qed.

End subset.

(** C15. What is served has each given data shard as it was given, and each
    rebuilt one shown to be the one written: it has the checksum recorded for
    it, or, where none is recorded, the stripe encoded again has the bytes of
    a parity shard the decode did not use. *)
Theorem decode_verified_sound cfg c shards size recorded out : new cfg = Ok c -> laws c ->
  decode_verified c shards size recorded = Ok out ->
  exists data, out = take size (concat data) /\ length data = data_shards c /\
    (forall i s, (i < data_shards c)%nat -> shard_at shards i = Some s -> data !! i = Some s) /\
    (Forall is_Some (take (data_shards c) shards) \/ exists chosen, verified c shards recorded chosen data).
Proof. apply decode_verified_inv. Qed.

(** C22. With wrong parity shards among those given (stored wrong under a checksum
    of their own), the data written is still served: the given data shards
    are good, every data shard has its checksum recorded, some of the parity
    shards given are good and determine the data, the choices up to that many
    parity shards are within the limit of decodes, and no choice rebuilds
    other bytes with the checksum of the shard lost. *)
Theorem decode_verified_finds cfg c data : new cfg = Ok c -> laws c -> fits c (length data) ->
  exists stripe, encode c data = Ok stripe /\ forall shards recorded good,
    length shards = total_shards c ->
    (forall i s, (i < data_shards c)%nat -> shard_at shards i = Some s -> stripe !! i = Some s) ->
    (forall i s, (i < data_shards c)%nat -> stripe !! i = Some s -> shard_at recorded i = Some (crc32c s)) ->
    sublist good (given_parity c shards) ->
    (forall p s, p ∈ good -> shard_at shards p = Some s -> stripe !! p = Some s) ->
    decodable c (subset_of c shards good) ->
    (tries c shards (seq (length (lost_data c shards)) (S (length good) - length (lost_data c shards)))
       <= MAX_DECODE_ATTEMPTS)%nat ->
    (forall chosen d i s s', rebuild_data c (subset_of c shards chosen) = Ok d -> (i < data_shards c)%nat ->
       stripe !! i = Some s -> d !! i = Some s' -> crc32c s' = crc32c s -> s' = s) ->
    decode_verified c shards (length data) recorded = Ok data.
Proof.
  intros Hnew Hlaw Hf. pose proof (new_codes cfg c Hnew Hlaw) as HC.
  destruct (encode_spec c _ data Hf) as (parity & He & Hb & Hp & Hps).
  destruct (cut_data_spec c _ data (HC := HC)) as (Hl & Hs & _). set (dat := cut_data c data) in *.
  exists (dat ++ parity). split; [done|]. intros shards recorded good Hn Hdata Hrecd Hsub Hgood HD Htries Hcoll.
  assert (Hstripe : forall i, (i < data_shards c)%nat -> (dat ++ parity) !! i = dat !! i)
    by (intros i Hi; by rewrite lookup_app_l by lia).
  assert (Hrb : rebuild_data c (subset_of c shards good) = Ok dat).
  { eapply (codes_rebuild (Codes := HC)); [done|done|apply shard_size_aligned|exact Hb| |done].
    apply agrees_intro; [rewrite subset_length, length_app, Hl, Hp; done|].
    intros i s Hsh. destruct (subset_given c shards good Hn i s Hsh) as [Hg [Hi|Hi]]; [by apply Hdata|by eapply Hgood]. }
  assert (data_shards c <= count_some (subset_of c shards good))%nat as Hcnt.
  { unfold rebuild_data in Hrb. case_if; [done|]. destruct (Nat.ltb_spec (count_some (subset_of c shards good)) (data_shards c)); [done|lia]. }
  pose proof (subset_count c shards good Hn). pose proof (subset_count_le c shards good Hn).
  destruct (decode_verified_found c (decodable c) shards (length data) recorded good dat) as [out Hout]; [done|done|lia| |done| |done|lia|done|].
  { intros i Hi. destruct (lookup_lt_is_Some_2 dat i) as [s Hx]; [lia|]. rewrite (Hrecd i s); [eauto|done|]. by rewrite Hstripe. }
  { intros i s Hi Hx. apply Hrecd; [done|]. by rewrite Hstripe. }
  rewrite Hout. destruct (decode_verified_inv cfg c shards (length data) recorded out Hnew Hlaw Hout) as (d & -> & Hdl & Hgiven & Hor).
  f_equal. rewrite <- (join_cut_data c (decodable c) data) at 2. fold dat. unfold join_data. do 2 f_equal.
  apply list_eq_same_length with (data_shards c); [done..|]. intros i s' s Hi Hd Hx.
  destruct (shard_at shards i) as [g|] eqn:Eg.
  - rewrite (Hgiven i g Hi Eg) in Hd. pose proof (Hdata i g Hi Eg) as Hg. rewrite Hstripe in Hg by done. congruence.
  - destruct Hor as [Hall|[chosen Hv]].
    + exfalso. apply Forall_is_Some in Hall. apply (not_elem_of_nil i). rewrite <- Hall. apply elem_of_missing.
      rewrite length_take, shard_at_take by done. split; [unfold total_shards in Hn; lia|done].
    + destruct (vf_recorded _ _ _ _ _ Hv i (crc32c s) Hi Eg) as (s'' & Hs'' & Hcrc).
      { apply Hrecd; [done|]. by rewrite Hstripe. }
      assert (s'' = s') as -> by congruence. eapply Hcoll; [apply (vf_rebuilt _ _ _ _ _ Hv)|done|by rewrite Hstripe|done|done].
Qed.

End codec.

(** ** Examples: 2+1 with its first data shard lost *)
Definition lossy : list (option bytes) := erase [0%nat] (stripe_of ec_2_1 greeting).
Definition crcs : list (option Z) := (fun s => Some (castagnoli_value s)) <$> take 2 (stripe_of ec_2_1 greeting).

Lemma decode_verified_sound_witness :
  exists data, greeting = take 12 (concat data) /\ length data = 2%nat /\
    exists chosen, @verified xor_isal xor_rs castagnoli ec_2_1 lossy crcs chosen data.
Proof.
  destruct (decode_verified_sound (HIsal := xor_isal) (HRs := xor_rs) (HCrc := castagnoli)
    (config_new 2 1) ec_2_1 lossy 12 crcs greeting) as (data & Ho & Hl & _ & Hor).
  - done.
  - apply (xor_isal_mds 2). lia.
  - by vm_compute.
  - exists data. split; [done|]. split; [done|]. destruct Hor as [Hall|?]; [|done].
    exfalso. revert Hall. apply (bool_decide_unpack _). by vm_compute.
Defined.

(** What a choice leaves of the example: its one parity shard, or not. *)
Lemma lossy_subset chosen : subset_of ec_2_1 lossy chosen =
  if decide (2%nat ∈ chosen) then lossy else erase [0%nat; 2%nat] (stripe_of ec_2_1 greeting).
Proof.
  unfold subset_of. change (total_shards ec_2_1) with 3%nat. change (data_shards ec_2_1) with 2%nat. cbn [seq fmap list_fmap].
  rewrite (bool_decide_eq_true_2 ((0 < 2)%nat \/ _)) by (left; lia).
  rewrite (bool_decide_eq_true_2 ((1 < 2)%nat \/ _)) by (left; lia). case_decide as Hc.
  - rewrite bool_decide_eq_true_2 by auto. by vm_compute.
  - rewrite bool_decide_eq_false_2 by (intros [|]; [lia|done]). by vm_compute.
Qed.

Lemma decode_verified_finds_witness :
  @decode_verified xor_isal xor_rs castagnoli ec_2_1 lossy (length greeting) crcs = Ok greeting.
Proof.
  destruct (decode_verified_finds (HIsal := xor_isal) (HRs := xor_rs) (HCrc := castagnoli)
    (config_new 2 1) ec_2_1 greeting) as (stripe & He & Hf); [done|apply (xor_isal_mds 2); lia|by vm_compute|].
  pose proof (stripe_of_ok _ _ _ He) as Hs. apply (Hf lossy crcs [2%nat]).
  - by vm_compute.
  - intros i s _ Hi. rewrite Hs. eapply agrees_lookup; [apply agrees_erase|exact Hi].
  - intros i s Hi Hx. rewrite Hs in Hx. apply shard_at_Some. unfold crcs. rewrite list_lookup_fmap, lookup_take_lt by exact Hi.
    by rewrite Hx.
  - assert (given_parity ec_2_1 lossy = [2%nat]) as -> by (by vm_compute). done.
  - intros p s _ Hi. rewrite Hs. eapply agrees_lookup; [apply agrees_erase|exact Hi].
  - apply (bool_decide_unpack _). by vm_compute.
  - apply (bool_decide_unpack _). by vm_compute.
  - intros chosen d i s s' Hr Hi Hx Hd _. rewrite lossy_subset in Hr. rewrite Hs in Hx. revert Hr. case_decide.
    + intros Hr. vm_compute in Hr. injection Hr as <-. vm_compute in Hx, Hi, Hd. destruct i as [|[|i]]; [congruence..|lia].
    + intros Hr. vm_compute in Hr. done.
Defined.

End VerifiedDecode.
