(* ===== verification/MetaState.v ===== *)
(** * Meta's replicated state machine

    [crates/meta-store/src/raft.rs] and [raft_storage.rs]: the commands in
    the Raft log, what each does to the tables, a batch of entries applied in
    one transaction, snapshots as bytes, and the node around them with its
    checkpoints. [crates/meta-store/src/types.rs]: an OSD's record.

    redb is a map of tables that a write transaction replaces as a whole; a
    table of other types than text to bytes is [OtherKind]. Raft's own state
    is kept as JSON, records as protobuf: both are classes. A failing disk is
    not modelled here: an [Err] is what the code refuses by itself. *)
From S2P Require Import Prelude Bytes StdText OrdMap Topology.
Import Topology(OsdAdminState, In, Out, AdminDraining) OrdMap(key_leb).

Module MetaState.

(** ** Commands *)
Inductive CasTable :=
| Buckets | BucketPolicies | IcebergNamespaces | IcebergTables | DeltaShares | DeltaTables | DeltaRecipients
| Config | Pools | Tenants | IamPolicies | Users | Groups | AccessKeys | IcebergWarehouses | PolicyAttachments
| DataFilters | MultipartUploads | ObjectListings | PlacementGroups | UnityCatalogs | UnitySchemas | UnityTables
| UnityFunctions | UnityVolumes | UnityModels | UnityModelVersions
| Named (name : string).

Definition cas_table_name (t : CasTable) : string :=
  match t with
  | Buckets => "buckets" | BucketPolicies => "bucket_policies" | IcebergNamespaces => "iceberg_namespaces"
  | IcebergTables => "iceberg_tables" | DeltaShares => "delta_shares" | DeltaTables => "delta_tables"
  | DeltaRecipients => "delta_recipients" | Config => "config" | Pools => "pools" | Tenants => "tenants"
  | IamPolicies => "iam_policies" | Users => "users" | Groups => "groups" | AccessKeys => "access_keys"
  | IcebergWarehouses => "iceberg_warehouses" | PolicyAttachments => "policy_attachments"
  | DataFilters => "data_filters" | MultipartUploads => "multipart_uploads" | ObjectListings => "object_listings"
  | PlacementGroups => "placement_groups" | UnityCatalogs => "unity_catalogs" | UnitySchemas => "unity_schemas"
  | UnityTables => "unity_tables" | UnityFunctions => "unity_functions" | UnityVolumes => "unity_volumes"
  | UnityModels => "unity_models" | UnityModelVersions => "unity_model_versions"
  | Named n => n
  end.

Record CasOp := mkCas { op_table : CasTable; op_key : string; op_expected : option bytes; op_new : option bytes }.

Inductive MetaCommand :=
| SetConfig (key : string) (value : bytes) (updated_by : string) (updated_at : Z)
| DeleteConfig (key : string)
| SetOsdAdminState (node_id : bytes) (state : OsdAdminState) (requested_by : string)
| MultiCas (ops : list CasOp) (requested_by : string)
| Batch (cmds : list MetaCommand).

(** Why a command is refused. *)
Inductive Refusal :=
| TooManyOps (n : nat)
| NoTableName
| RaftsOwnTable (name : string)
| WrongKind (name : string)
| BadOsdRecord (key : string)
| NestedBatch.

Inductive MetaResponse :=
| RespOk
| ConfigSet (version : Z)
| ConfigDeleted (existed : bool)
| OsdAdminStateSet (changed found : bool)
| MultiCasOk
| MultiCasConflict (failed_indices : list Z)
| RespBatch (rs : list MetaResponse)
| Rejected (why : Refusal).

Inductive ApplyEvent :=
| MultiCasOp (table : CasTable) (key : string) (new_value : option bytes)
| SnapshotInstalled.

Definition MAX_OPS : nat := 256.
Definition RAFT_TABLES : list string := ["raft_logs"; "raft_vote"; "raft_state"].

Definition table_refusal (op : CasOp) : option Refusal :=
  match op_table op with
  | Named name => if String.eqb name "" then Some NoTableName
                  else if bool_decide (name ∈ RAFT_TABLES) then Some (RaftsOwnTable name) else None
  | _ => None
  end.

Definition refusal (cmd : MetaCommand) : option Refusal :=
  match cmd with
  | MultiCas ops _ => if (MAX_OPS <? length ops)%nat then Some (TooManyOps (length ops)) else head (omap table_refusal ops)
  | _ => None
  end.

(** ** OSD records *)
Record OsdNode := mkOsd {
  node_id : bytes;
  address : string;
  disk_ids : list bytes;
  topology : option (string * string * string * string * string);
  disk_capacity_bytes : list Z;
  admin_state : OsdAdminState;
  te_segment : string;
}.

Record OsdNodeRecord := mkOsdRecord {
  rec_node_id : bytes;
  rec_address : string;
  rec_disk_ids : list bytes;
  rec_topology : list string;
  rec_disk_capacity_bytes : list Z;
  rec_admin_state : string;
  rec_te_segment : string;
}.

Definition admin_as_str (s : OsdAdminState) : string :=
  match s with In => "in" | Out => "out" | AdminDraining => "draining" end.

Definition to_ascii_lowercase (s : string) : string :=
  String.string_of_list_ascii (lower <$> String.list_ascii_of_string s).

Definition admin_from_str (s : string) : option OsdAdminState :=
  let s := to_ascii_lowercase s in
  if String.eqb s "in" then Some In else if String.eqb s "out" then Some Out
  else if String.eqb s "draining" then Some AdminDraining else None.

Definition id16 (b : bytes) : option bytes := if (length b =? 16)%nat then Some b else None.

Definition record_of (n : OsdNode) : OsdNodeRecord :=
  mkOsdRecord (node_id n) (address n) (disk_ids n)
    match topology n with Some (r, z, d, k, h) => [r; z; d; k; h] | None => [] end
    (disk_capacity_bytes n) (admin_as_str (admin_state n)) (te_segment n).

Definition of_record (r : OsdNodeRecord) : option OsdNode :=
  topology ← match rec_topology r with
    | [r; z; d; k; h] => Some (Some (r, z, d, k, h)) | [] => Some None | _ => None end;
  id ← id16 (rec_node_id r);
  disks ← mapM id16 (rec_disk_ids r);
  state ← admin_from_str (rec_admin_state r);
  Some (mkOsd id (rec_address r) disks topology (rec_disk_capacity_bytes r) state (rec_te_segment r)).

Definition with_admin_state (s : OsdAdminState) (n : OsdNode) : OsdNode :=
  mkOsd (node_id n) (address n) (disk_ids n) (topology n) (disk_capacity_bytes n) s (te_segment n).

Definition HEX : string := "0123456789abcdef".

Definition hex_char (n : Z) : string :=
  match String.get (Z.to_nat n) HEX with Some c => String c "" | None => "" end.

Definition hex_encode_16 (id : bytes) : string :=
  foldr (fun b out => hex_char (Z.shiftr (bval b) 4) +:+ hex_char (Z.land (bval b) 15) +:+ out) "" id.

Record ConfigEntry := mkEntry {
  entry_key : string; entry_value : bytes; entry_updated_at : Z; entry_updated_by : string; entry_version : Z }.

Class Records := {
  config_encode : ConfigEntry -> bytes;
  osd_encode : OsdNodeRecord -> bytes;
  osd_decode : bytes -> option OsdNodeRecord;
}.

(** ** Raft's state *)
Record LogId := mkLogId { id_term : Z; id_node : Z; id_index : Z }.

Record RaftPersistentState (M : Type) := mkState {
  last_applied : option LogId;
  membership : option LogId * M;
  config_version : Z;
}.
Arguments mkState {M} _ _ _.
Arguments last_applied {M} _.
Arguments membership {M} _.
Arguments config_version {M} _.

(** Memberships and the JSON of the state. *)
Class Persisted (M : Type) := {
  no_members : M;
  state_to_vec : RaftPersistentState M -> bytes;
  state_from_slice : bytes -> option (RaftPersistentState M);
  state_roundtrip : forall s, state_from_slice (state_to_vec s) = Some s;
}.

(** ** Tables *)
Inductive table := Rows (rows : gmap string bytes) | OtherKind.

Abbreviation database := (gmap string table).

Inductive SnapshotFault :=
| Truncated | NotASnapshot | DamagedField (n : Z) | NotText | CarriesRaftTable (name : string) | TrailingBytes.

Inductive StorageError :=
| TableKind (name : string)
| Undecodable (what : string)
| BadSnapshot (f : SnapshotFault).

(** The rows a transaction finds, and the database with the table made. *)
Definition rows_of (db : database) (name : string) : option (gmap string bytes) :=
  match db !! name with Some (Rows m) => Some m | Some OtherKind => None | None => Some ∅ end.

Definition open_table (db : database) (name : string) : outcome StorageError (database * gmap string bytes) :=
  m ← ok_or (rows_of db name) (TableKind name); Ok (<[name := Rows m]> db, m).

Section machine.
Context {M : Type} {Per : Persisted M} {Rec : Records}.

Abbreviation rstate := (RaftPersistentState M).

Definition default_state : rstate := mkState None (None, no_members) 0.

Definition state_row (m : gmap string bytes) : outcome StorageError rstate :=
  match m !! "state" with
  | Some v => ok_or (state_from_slice v) (Undecodable "raft_state")
  | None => Ok default_state
  end.

Definition load_state (db : database) : outcome StorageError rstate :=
  m ← ok_or (rows_of db "raft_state") (TableKind "raft_state"); state_row m.

Definition write_state (db : database) (s : rstate) : outcome StorageError database :=
  '(db, m) ← open_table db "raft_state"; Ok (<["raft_state" := Rows (<["state" := state_to_vec s]> m)]> db).

Definition CONFIG_VERSION : string := "config_version".

(** [u64::from_be_bytes] and [to_be_bytes]. *)
Definition be_bytes (n : Z) : bytes := rev (to_le 8 n).

Definition decode_counter (b : bytes) : outcome StorageError Z :=
  if (length b =? 8)%nat then Ok (from_le (rev b)) else Err (Undecodable "counters").

(** An apply batch's transaction: the tables, Raft's state, the events. *)
Record txn := mkTxn { t_db : database; t_state : rstate; t_events : list ApplyEvent }.

Definition set_version (v : Z) (s : rstate) : rstate := mkState (last_applied s) (membership s) v.

Definition counter_in (m : gmap string bytes) : outcome StorageError Z :=
  match m !! CONFIG_VERSION with Some v => decode_counter v | None => Ok 0 end.

Definition apply_set_config (t : txn) (key : string) (value : bytes) (by_ : string) (at_ : Z) :
    outcome StorageError (txn * MetaResponse) :=
  '(db, counters) ← open_table (t_db t) "counters";
  stored ← counter_in counters;
  let version := wadd64 (Z.max stored (config_version (t_state t))) 1 in
  let db := <["counters" := Rows (<[CONFIG_VERSION := be_bytes version]> counters)]> db in
  let bytes := config_encode (mkEntry key value at_ by_ version) in
  '(db, config) ← open_table db "config";
  Ok (mkTxn (<["config" := Rows (<[key := bytes]> config)]> db) (set_version version (t_state t))
        (t_events t ++ [MultiCasOp Config key (Some bytes)]), ConfigSet version).

Definition apply_delete_config (t : txn) (key : string) : outcome StorageError (txn * MetaResponse) :=
  '(db, config) ← open_table (t_db t) "config";
  Ok (mkTxn (<["config" := Rows (delete key config)]> db) (t_state t) (t_events t ++ [MultiCasOp Config key None]),
      ConfigDeleted (bool_decide (is_Some (config !! key)))).

Definition apply_osd_admin (t : txn) (id : bytes) (new : OsdAdminState) : outcome StorageError (txn * MetaResponse) :=
  let key := hex_encode_16 id in
  '(db, osds) ← open_table (t_db t) "osd_nodes";
  match osds !! key with
  | None => Ok (mkTxn db (t_state t) (t_events t), OsdAdminStateSet false false)
  | Some bytes =>
      match osd_decode bytes ≫= of_record with
      | None => Ok (mkTxn db (t_state t) (t_events t), Rejected (BadOsdRecord key))
      | Some node =>
          if bool_decide (admin_state node <> new) then
            let bytes := osd_encode (record_of (with_admin_state new node)) in
            Ok (mkTxn (<["osd_nodes" := Rows (<[key := bytes]> osds)]> db) (t_state t)
                  (t_events t ++ [MultiCasOp (Named "osd_nodes") key (Some bytes)]), OsdAdminStateSet true true)
          else Ok (mkTxn db (t_state t) (t_events t), OsdAdminStateSet false true)
      end
  end.

(** *** Compare and set *)

(** The first pass: the indices that differ, or the table of another kind.
    Opening a table makes it. *)
Fixpoint cas_check (db : database) (idx : Z) (ops : list CasOp) : database * (string + list Z) :=
  match ops with
  | [] => (db, inr [])
  | op :: ops =>
      let name := cas_table_name (op_table op) in
      match rows_of db name with
      | None => (db, inl name)
      | Some m =>
          let '(db, rest) := cas_check (<[name := Rows m]> db) (idx + 1) ops in
          (db, match rest with
               | inl other => inl other
               | inr failed => inr (if bool_decide (m !! op_key op = op_expected op) then failed else idx :: failed)
               end)
      end
  end.

Definition cas_write (db : database) (op : CasOp) : outcome StorageError database :=
  let name := cas_table_name (op_table op) in
  '(db, m) ← open_table db name;
  Ok (<[name := Rows match op_new op with Some b => <[op_key op := b]> m | None => delete (op_key op) m end]> db).

Fixpoint cas_writes (db : database) (ops : list CasOp) : outcome StorageError database :=
  match ops with
  | [] => Ok db
  | op :: ops => db ← cas_write db op; cas_writes db ops
  end.

Definition cas_event (op : CasOp) : ApplyEvent := MultiCasOp (op_table op) (op_key op) (op_new op).

Definition apply_multi_cas (t : txn) (ops : list CasOp) : outcome StorageError (txn * MetaResponse) :=
  let '(db, checked) := cas_check (t_db t) 0 ops in
  match checked with
  | inl name => Ok (mkTxn db (t_state t) (t_events t), Rejected (WrongKind name))
  | inr [] =>
      db ← cas_writes db ops;
      Ok (mkTxn db (t_state t) (t_events t ++ (cas_event <$> ops)), MultiCasOk)
  | inr failed => Ok (mkTxn db (t_state t) (t_events t), MultiCasConflict failed)
  end.

(** *** A command, an entry, a batch of entries *)

(** A command that is no batch. *)
Definition apply_one (t : txn) (cmd : MetaCommand) : outcome StorageError (txn * MetaResponse) :=
  match refusal cmd with
  | Some why => Ok (t, Rejected why)
  | None =>
      match cmd with
      | SetConfig key value by_ at_ => apply_set_config t key value by_ at_
      | DeleteConfig key => apply_delete_config t key
      | SetOsdAdminState id new _ => apply_osd_admin t id new
      | MultiCas ops _ => apply_multi_cas t ops
      | Batch _ => Ok (t, Rejected NestedBatch)
      end
  end.

Fixpoint apply_each (t : txn) (cmds : list MetaCommand) : outcome StorageError (txn * list MetaResponse) :=
  match cmds with
  | [] => Ok (t, [])
  | cmd :: cmds => '(t, r) ← apply_one t cmd; '(t, rs) ← apply_each t cmds; Ok (t, r :: rs)
  end.

Definition apply_command (t : txn) (cmd : MetaCommand) : outcome StorageError (txn * MetaResponse) :=
  match cmd with
  | Batch cmds => '(t, rs) ← apply_each t cmds; Ok (t, RespBatch rs)
  | _ => apply_one t cmd
  end.

Inductive EntryPayload := Blank | Normal (cmd : MetaCommand) | MembershipChange (mem : M).
Record Entry := mkEntryAt { log_id : LogId; payload : EntryPayload }.

Definition set_applied (id : LogId) (t : txn) : txn :=
  mkTxn (t_db t) (mkState (Some id) (membership (t_state t)) (config_version (t_state t))) (t_events t).

Definition apply_entry (t : txn) (e : Entry) : outcome StorageError (txn * MetaResponse) :=
  '(t, r) ← match payload e with
    | Blank => Ok (t, RespOk)
    | Normal cmd => apply_command t cmd
    | MembershipChange mem =>
        Ok (mkTxn (t_db t) (mkState (last_applied (t_state t)) (Some (log_id e), mem) (config_version (t_state t))) (t_events t), RespOk)
    end;
  Ok (set_applied (log_id e) t, r).

Fixpoint apply_entries (t : txn) (es : list Entry) : outcome StorageError (txn * list MetaResponse) :=
  match es with
  | [] => Ok (t, [])
  | e :: es => '(t, r) ← apply_entry t e; '(t, rs) ← apply_entries t es; Ok (t, r :: rs)
  end.

(** The database once the batch has committed, the answers, and the events
    sent. An error drops the transaction. *)
Definition apply_to_state_machine (db : database) (es : list Entry) :
    outcome StorageError (database * list MetaResponse * list ApplyEvent) :=
  state ← load_state db;
  '(t, replies) ← apply_entries (mkTxn db state []) es;
  db ← write_state (t_db t) (t_state t);
  Ok (db, replies, t_events t).

(** ** Snapshots *)
Definition SNAPSHOT_MAGIC : bytes := as_bytes "OBIO-META-SNAPSHOT-1" ++ [Byte.x0a].
Definition SNAPSHOT_FIELD_LIMIT : Z := 2 ^ 30.

Definition put_u64 (n : Z) : bytes := to_le 8 n.
Definition put_bytes (b : bytes) : bytes := put_u64 (lenZ b) ++ b.

(** Names and keys in redb's order, that of their bytes. *)
Definition name_le (a b : string) : Prop := key_leb (as_bytes a) (as_bytes b) = true.
Definition row_le (a b : string * bytes) : Prop := name_le a.1 b.1.

#[export] Instance name_le_dec a b : Decision (name_le a b).
Proof. unfold name_le. apply _. Defined.
#[export] Instance row_le_dec a b : Decision (row_le a b).
Proof. unfold row_le. apply _. Defined.

Definition sorted_rows (m : gmap string bytes) : list (string * bytes) := merge_sort row_le (map_to_list m).

(** The tables that are state, by name. *)
Definition state_tables (db : database) : list string :=
  merge_sort name_le (filter (fun n => n ∉ RAFT_TABLES) (map_to_list db).*1).

Definition put_row (kv : string * bytes) : bytes := put_bytes (as_bytes kv.1) ++ put_bytes kv.2.

Definition put_table (db : database) (name : string) : outcome StorageError bytes :=
  m ← ok_or (rows_of db name) (TableKind name);
  Ok (put_bytes (as_bytes name) ++ put_u64 (Z.of_nat (size m)) ++ concat (put_row <$> sorted_rows m)).

Definition write_tables (db : database) : outcome StorageError bytes :=
  let names := state_tables db in
  tables ← mapM (put_table db) names;
  Ok (SNAPSHOT_MAGIC ++ put_u64 (lenZ names) ++ concat tables).

Definition write_state_machine (db : database) : outcome StorageError (rstate * bytes) :=
  state ← load_state db; b ← write_tables db; Ok (state, b).

Definition get_u64 (src : bytes) : outcome SnapshotFault (Z * bytes) := ok_or (read_le 8 src) Truncated.

Definition get_bytes (src : bytes) : outcome SnapshotFault (bytes * bytes) :=
  '(n, src) ← get_u64 src;
  if SNAPSHOT_FIELD_LIMIT <? n then Err (DamagedField n) else ok_or (read_exact (Z.to_nat n) src) Truncated.

Definition get_string (src : bytes) : outcome SnapshotFault (string * bytes) :=
  '(b, src) ← get_bytes src; s ← ok_or (from_utf8 b) NotText; Ok (s, src).

(** [n] rows; every row takes bytes, so no more are read than [fuel], the
    bytes there are. *)
Fixpoint get_rows (fuel : nat) (n : Z) (m : gmap string bytes) (src : bytes) : outcome SnapshotFault (gmap string bytes * bytes) :=
  if n <=? 0 then Ok (m, src)
  else match fuel with
  | O => Err Truncated
  | S fuel =>
      '(k, src) ← get_string src;
      '(v, src) ← get_bytes src;
      get_rows fuel (n - 1) (<[k := v]> m) src
  end.

Definition get_table (db : database) (src : bytes) : outcome StorageError (database * bytes) :=
  '(name, src) ← map_err BadSnapshot (get_string src);
  if bool_decide (name ∈ RAFT_TABLES) then Err (BadSnapshot (CarriesRaftTable name))
  else
    '(db, m) ← open_table db name;
    '(n, src) ← map_err BadSnapshot (get_u64 src);
    '(m, src) ← map_err BadSnapshot (get_rows (length src) n m src);
    Ok (<[name := Rows m]> db, src).

Fixpoint get_tables (fuel : nat) (n : Z) (db : database) (src : bytes) : outcome StorageError (database * bytes) :=
  if n <=? 0 then Ok (db, src)
  else match fuel with
  | O => Err (BadSnapshot Truncated)
  | S fuel => '(db, src) ← get_table db src; get_tables fuel (n - 1) db src
  end.

(** What the file says, read into a database without tables of its own. *)
Definition read_snapshot (db : database) (src : bytes) : outcome StorageError database :=
  '(magic, src) ← ok_or (read_exact (length SNAPSHOT_MAGIC) src) (BadSnapshot Truncated);
  if bool_decide (magic <> SNAPSHOT_MAGIC) then Err (BadSnapshot NotASnapshot)
  else
    '(n, src) ← map_err BadSnapshot (get_u64 src);
    '(db, src) ← get_tables (length src) n db src;
    if bool_decide (src <> []) then Err (BadSnapshot TrailingBytes) else Ok db.

Record SnapshotMeta := mkMeta { last_log_id : option LogId; last_membership : option LogId * M }.

Definition raft_only (db : database) : database := filter (fun kv : string * table => kv.1 ∈ RAFT_TABLES) db.

Definition install_state_machine (db : database) (src : bytes) (meta : SnapshotMeta) : outcome StorageError database :=
  db ← read_snapshot (raft_only db) src;
  '(db, rs) ← open_table db "raft_state";
  state ← state_row rs;
  '(db, counters) ← open_table db "counters";
  version ← match counters !! CONFIG_VERSION with
    | Some v => decode_counter v | None => Ok (config_version state) end;
  write_state db (mkState (last_log_id meta) (last_membership meta) version).

(** ** A node *)

(** [durable] is what a crash leaves of the database. *)
Record MetaRaftStorage := mkStorage {
  db : database;
  durable : database;
  dirty : bool;
  committed : option LogId;
}.

Definition checkpoint (s : MetaRaftStorage) : MetaRaftStorage * bool :=
  if dirty s then (mkStorage (db s) (db s) false (committed s), true) else (s, false).

Definition save_committed (c : option LogId) (s : MetaRaftStorage) : MetaRaftStorage :=
  mkStorage (db s) (durable s) (dirty s) c.

Definition storage_apply (es : list Entry) (s : MetaRaftStorage) :
    MetaRaftStorage * outcome StorageError (list MetaResponse * list ApplyEvent) :=
  match apply_to_state_machine (db s) es with
  | Ok (db', replies, events) => (mkStorage db' (durable s) true (committed s), Ok (replies, events))
  | Err e => (s, Err e)
  | Panic => (s, Panic)
  end.

Definition storage_install (src : bytes) (meta : SnapshotMeta) (s : MetaRaftStorage) :
    MetaRaftStorage * outcome StorageError (list ApplyEvent) :=
  match install_state_machine (db s) src meta with
  | Ok db' => (mkStorage db' db' (dirty s) (committed s), Ok [SnapshotInstalled])
  | Err e => (s, Err e)
  | Panic => (s, Panic)
  end.

(** [vote] as JSON. A durable commit makes the ones before it durable. *)
Definition save_vote (vote : bytes) (s : MetaRaftStorage) : outcome StorageError MetaRaftStorage :=
  '(d, m) ← open_table (db s) "raft_vote";
  let d := <["raft_vote" := Rows (<["vote" := vote]> m)]> d in
  Ok (mkStorage d d (dirty s) (committed s)).

Definition read_vote (s : MetaRaftStorage) : outcome StorageError (option bytes) :=
  m ← ok_or (rows_of (db s) "raft_vote") (TableKind "raft_vote"); Ok (m !! "vote").

(** The process ends: what was not flushed is rolled back. *)
Definition crash (s : MetaRaftStorage) : MetaRaftStorage := mkStorage (durable s) (durable s) false None.

End machine.
End MetaState.
