(* ===== verification/MetaStateSpec.v ===== *)
(** * Replicas of the state machine agree

    Two databases agree when their state tables have the same rows; Raft's
    own tables, and whether an empty table was ever made, may differ. Every
    command of [MetaState] does the same to databases that agree, so the
    batches a node applies its log in don't matter ([replicas_agree]); a
    compare-and-set is all or nothing ([multi_cas_exact]). *)
From S2P Require Import Prelude Bytes Topology MetaState.
Import Topology(OsdAdminState, In, Out) MetaState.

Module MetaStateSpec.

(** ** Tables *)
Lemma rows_of_insert d n m t : rows_of (<[n := Rows m]> d) t = if decide (t = n) then Some m else rows_of d t.
Proof.
  unfold rows_of. case_decide as Ht; [subst; by rewrite lookup_insert_eq|by rewrite lookup_insert_ne].
Qed.

(** Databases with the same state, each able to hold Raft's. *)
Record agree (d d' : database) : Prop := {
  agree_rows : forall t, t ∉ RAFT_TABLES -> rows_of d t = rows_of d' t;
  agree_raft : is_Some (rows_of d "raft_state");
  agree_raft' : is_Some (rows_of d' "raft_state");
}.

Lemma agree_refl d : is_Some (rows_of d "raft_state") -> agree d d.
Proof. by split. Qed.

#[global] Instance agree_sym : Symmetric agree.
Proof. intros d d' [H1 H2 H3]. split; [|done..]. intros t Ht. symmetry. by apply H1. Qed.

#[global] Instance agree_trans : Transitive agree.
Proof. intros d d' d'' [H1 H2 H3] [H4 H5 H6]. split; [|done..]. intros t Ht. rewrite H1 by done. by apply H4. Qed.

Lemma raft_state_in : "raft_state" ∈ RAFT_TABLES.
Proof. apply (bool_decide_unpack _). by vm_compute. Qed.

(** The same rows put in both. *)
Lemma agree_put d d' n m : n ∉ RAFT_TABLES -> agree d d' -> agree (<[n := Rows m]> d) (<[n := Rows m]> d').
Proof.
  intros Hn [H1 H2 H3]. assert ("raft_state" <> n) as Hne.
  { intros <-. apply Hn, raft_state_in. }
  split.
  - intros t Ht. rewrite !rows_of_insert. case_decide; [done|]. by apply H1.
  - rewrite rows_of_insert. by rewrite decide_False.
  - rewrite rows_of_insert. by rewrite decide_False.
Qed.

(** Raft's state may change on one side. *)
Lemma agree_raft_put d d' m : agree d d' -> agree d (<["raft_state" := Rows m]> d').
Proof.
  intros [H1 H2 H3]. split; [|done|].
  - intros t Ht. rewrite rows_of_insert, decide_False; [by apply H1|]. intros ->. apply Ht, raft_state_in.
  - rewrite rows_of_insert, decide_True by done. by eexists.
Qed.

(** Opening a table that holds rows makes no difference. *)
Lemma agree_open d n m : n ∉ RAFT_TABLES -> rows_of d n = Some m -> is_Some (rows_of d "raft_state") ->
  agree d (<[n := Rows m]> d).
Proof.
  intros Hn Hm Hr. split; [|done|].
  - intros t Ht. rewrite rows_of_insert. case_decide; [by subst|done].
  - rewrite rows_of_insert. by case_decide; [eexists|].
Qed.

Section machine.
Context {M : Type} {Per : Persisted M} {Rec : Records}.

(** ** Transactions *)

(** The same state; the first has sent [pre] before. *)
Record tx_rel (pre : list ApplyEvent) (t t' : txn (M := M)) : Prop := {
  rel_db : agree (t_db t) (t_db t');
  rel_state : t_state t = t_state t';
  rel_events : t_events t = pre ++ t_events t';
}.

(** The same answers from states that relate; the same error. *)
Definition out_rel {R} (pre : list ApplyEvent) (o o' : outcome StorageError (txn (M := M) * R)) : Prop :=
  match o, o' with
  | Ok (t, r), Ok (t', r') => tx_rel pre t t' /\ r = r'
  | Err e, Err e' => e = e'
  | Panic, Panic => True
  | _, _ => False
  end.

Lemma open_rel d d' n : n ∉ RAFT_TABLES -> agree d d' ->
  (exists e, open_table d n = Err e /\ open_table d' n = Err e) \/
  (exists m, open_table d n = Ok (<[n := Rows m]> d, m) /\ open_table d' n = Ok (<[n := Rows m]> d', m) /\
     agree (<[n := Rows m]> d) (<[n := Rows m]> d')).
Proof.
  intros Hn Ha. unfold open_table. rewrite <- (agree_rows _ _ Ha n Hn). destruct (rows_of d n) as [m|]; cbn; [|eauto].
  right. exists m. split_and!; [done..|]. by apply agree_put.
Qed.

Ltac raft_table := apply (bool_decide_unpack _); by vm_compute.

Lemma set_config_rel pre t t' k v u a : tx_rel pre t t' ->
  out_rel pre (apply_set_config t k v u a) (apply_set_config t' k v u a).
Proof.
  intros [Hd Hs He]. unfold apply_set_config. rewrite Hs.
  destruct (open_rel _ _ "counters" ltac:(raft_table) Hd) as [(e & -> & ->)|(m & -> & -> & H1)]; [done|]. cbn.
  destruct (counter_in m) as [stored| |]; cbn; [|done..].
  set (row := <[CONFIG_VERSION := be_bytes _]> m).
  assert (H2 : agree (<["counters" := Rows row]> (<["counters" := Rows m]> (t_db t)))
    (<["counters" := Rows row]> (<["counters" := Rows m]> (t_db t')))).
  { apply agree_put; [raft_table|done]. }
  destruct (open_rel _ _ "config" ltac:(raft_table) H2) as [(e & -> & ->)|(c & -> & -> & H3)]; [done|]. cbn.
  split; [|done]. split; cbn; [by apply agree_put; [raft_table|]|by rewrite ?Hs|by rewrite He, app_assoc].
Qed.

Lemma delete_config_rel pre t t' k : tx_rel pre t t' -> out_rel pre (apply_delete_config t k) (apply_delete_config t' k).
Proof.
  intros [Hd Hs He]. unfold apply_delete_config.
  destruct (open_rel _ _ "config" ltac:(raft_table) Hd) as [(e & -> & ->)|(m & -> & -> & H1)]; [done|]. cbn.
  split; [|done]. split; cbn; [by apply agree_put; [raft_table|]|done|by rewrite He, app_assoc].
Qed.

Lemma osd_admin_rel pre t t' i s : tx_rel pre t t' -> out_rel pre (apply_osd_admin t i s) (apply_osd_admin t' i s).
Proof.
  intros [Hd Hs He]. unfold apply_osd_admin.
  destruct (open_rel _ _ "osd_nodes" ltac:(raft_table) Hd) as [(e & -> & ->)|(m & -> & -> & H1)]; [done|]. cbn.
  destruct (m !! hex_encode_16 i) as [b|]; [|by split]. destruct (osd_decode b ≫= of_record) as [n|]; [|by split].
  case_bool_decide; [|by split]. split; [|done].
  split; cbn; [by apply agree_put; [raft_table|]|done|by rewrite He, app_assoc].
Qed.

(** ** Compare and set *)
Definition state_op (op : CasOp) : Prop := cas_table_name (op_table op) ∉ RAFT_TABLES.

Lemma cas_check_rel ops : forall d d' i, Forall state_op ops -> agree d d' ->
  (cas_check d i ops).2 = (cas_check d' i ops).2 /\ agree (cas_check d i ops).1 (cas_check d' i ops).1.
Proof.
  induction ops as [|op ops IH]; intros d d' i Hops Ha; [done|]. inv Hops. cbn [cas_check].
  rewrite <- (agree_rows _ _ Ha) by done. destruct (rows_of d _) as [m|]; [|done].
  destruct (IH (<[cas_table_name (op_table op) := Rows m]> d) (<[cas_table_name (op_table op) := Rows m]> d') (i + 1))
    as [E1 E2]; [done|by apply agree_put|].
  destruct (cas_check _ (i + 1) ops) as [e r], (cas_check _ (i + 1) ops) as [e' r']. cbn in *. by subst.
Qed.

Lemma cas_writes_rel ops : forall d d', Forall state_op ops -> agree d d' ->
  match cas_writes d ops, cas_writes d' ops with
  | Ok e, Ok e' => agree e e' | Err x, Err x' => x = x' | Panic, Panic => True | _, _ => False end.
Proof.
  induction ops as [|op ops IH]; intros d d' Hops Ha; [done|]. inv Hops. cbn [cas_writes]. unfold cas_write.
  destruct (open_rel d d' (cas_table_name (op_table op))) as [(e & -> & ->)|(m & -> & -> & Hop)]; [done..|]. cbn.
  apply IH; [done|]. by apply agree_put.
Qed.

Lemma multi_cas_rel pre t t' ops : Forall state_op ops -> tx_rel pre t t' ->
  out_rel pre (apply_multi_cas t ops) (apply_multi_cas t' ops).
Proof.
  intros Hops [Hd Hs He]. unfold apply_multi_cas. destruct (cas_check_rel ops _ _ 0 Hops Hd) as [H2 H1].
  destruct (cas_check (t_db t) 0 ops) as [d r], (cas_check (t_db t') 0 ops) as [d' r']. cbn in *. subst r'.
  destruct r as [n|[|i l]]; [by split| |by split].
  pose proof (cas_writes_rel ops d d' Hops H1) as Hw.
  destruct (cas_writes d ops), (cas_writes d' ops); cbn in *; try done.
  split; [|done]. split; cbn; [done..|by rewrite He, app_assoc].
Qed.

Lemma not_refused ops by_ : refusal (MultiCas ops by_) = None -> Forall state_op ops.
Proof.
  cbn. case_if; [done|]. intros Hn. apply Forall_forall. intros op Hop.
  assert (table_refusal op = None) as Ht.
  { destruct (table_refusal op) as [w|] eqn:E; [|done].
    assert (w ∈ omap table_refusal ops) as Hw by (apply list_elem_of_omap; eauto).
    destruct (omap table_refusal ops); [by apply not_elem_of_nil in Hw|done]. }
  unfold state_op, table_refusal in *. destruct (op_table op); try raft_table.
  cbn. case_if; [done|]. by case_bool_decide.
Qed.

(** ** Commands and entries *)
Lemma apply_one_rel pre t t' cmd : tx_rel pre t t' -> out_rel pre (apply_one t cmd) (apply_one t' cmd).
Proof.
  intros Hr. unfold apply_one. destruct (refusal cmd) eqn:E; [by split|].
  destruct cmd; [by apply set_config_rel|by apply delete_config_rel|by apply osd_admin_rel| |by split].
  apply multi_cas_rel; [|done]. by eapply not_refused.
Qed.

(** Answers in sequence. *)
Lemma bind_rel {R R'} pre (o o' : outcome StorageError (txn (M := M) * R)) (f f' : txn * R -> outcome StorageError (txn * R')) :
  out_rel pre o o' -> (forall t t' r, tx_rel pre t t' -> out_rel pre (f (t, r)) (f' (t', r))) ->
  out_rel pre (o ≫= f) (o' ≫= f').
Proof. destruct o as [[t r]| |], o' as [[t' r']| |]; cbn; try done. intros [Ht ->] Hf. by apply Hf. Qed.

Lemma apply_each_rel cmds : forall pre t t', tx_rel pre t t' -> out_rel pre (apply_each t cmds) (apply_each t' cmds).
Proof.
  induction cmds as [|c cmds IH]; intros pre t t' Hr; [by split|]. cbn [apply_each].
  apply bind_rel; [by apply apply_one_rel|]. intros u u' r Hu. apply bind_rel; [by apply IH|]. intros w w' rs Hw. by split.
Qed.

Lemma apply_command_rel pre t t' cmd : tx_rel pre t t' -> out_rel pre (apply_command t cmd) (apply_command t' cmd).
Proof.
  intros Hr. destruct cmd; try by apply apply_one_rel. cbn [apply_command].
  apply bind_rel; [by apply apply_each_rel|]. intros u u' r Hu. by split.
Qed.

Lemma apply_entry_rel pre t t' (e : Entry (M := M)) : tx_rel pre t t' -> out_rel pre (apply_entry t e) (apply_entry t' e).
Proof.
  intros Hr. unfold apply_entry. apply bind_rel.
  - destruct (payload e); [by split|by apply apply_command_rel|]. destruct Hr as [H1 H2 H3].
    split; [|done]. split; cbn; [done|by rewrite H2|done].
  - intros u u' r [H1 H2 H3]. split; [|done]. split; cbn; [done|by rewrite H2|done].
Qed.

Lemma apply_entries_rel es : forall pre t t', tx_rel pre t t' -> out_rel pre (apply_entries t es) (apply_entries t' es).
Proof.
  induction es as [|e es IH]; intros pre t t' Hr; [by split|]. cbn [apply_entries].
  apply bind_rel; [by apply apply_entry_rel|]. intros u u' r Hu. apply bind_rel; [by apply IH|]. intros w w' rs Hw. by split.
Qed.

(** ** Batches *)
Lemma load_write d s d' : write_state d s = Ok d' -> load_state d' = Ok s /\ (is_Some (rows_of d "raft_state") -> agree d d').
Proof.
  unfold write_state. intros ([e m] & Ho & [= <-])%outcome_bind_ok. unfold open_table in Ho.
  apply outcome_bind_ok in Ho as (m' & Hm & [= <- <-]). split.
  - unfold load_state. rewrite rows_of_insert, decide_True by done. cbn. unfold state_row. rewrite lookup_insert_eq, state_roundtrip. done.
  - intros Hr. rewrite insert_insert_eq. by apply agree_raft_put, agree_refl.
Qed.

Lemma write_total d (s : RaftPersistentState M) : is_Some (rows_of d "raft_state") -> exists d', write_state d s = Ok d'.
Proof. intros [m Hm]. unfold write_state, open_table. rewrite Hm. cbn. eauto. Qed.

Lemma load_raft d (s : RaftPersistentState M) : load_state d = Ok s -> is_Some (rows_of d "raft_state").
Proof. unfold load_state. destruct (rows_of d "raft_state"); [by eexists|done]. Qed.

(** What a batch, or several, come to. *)
Definition result : Type := outcome StorageError (database * list MetaResponse * list ApplyEvent).

Definition fin_rel (o o' : result) : Prop :=
  match o, o' with
  | Ok (d, rs, ev), Ok (d', rs', ev') => agree d d' /\ load_state d = load_state d' /\ rs = rs' /\ ev = ev'
  | Err e, Err e' => e = e'
  | Panic, Panic => True
  | _, _ => False
  end.

#[global] Instance fin_sym : Symmetric fin_rel.
Proof. intros [[[]]| |] [[[]]| |]; cbn; try done. intros (? & ? & ? & ?). by split_and!. Qed.

#[global] Instance fin_trans : Transitive fin_rel.
Proof.
  intros [[[d rs] ev]| |] [[[d' rs'] ev']| |] [[[d'' rs''] ev'']| |]; cbn; try done; [|congruence].
  intros (? & ? & ? & ?) (? & ? & ? & ?). split_and!; [by etrans|congruence..].
Qed.

(** The end of a batch. *)
Lemma commit_rel pre t t' (rs rs' : list MetaResponse) : tx_rel pre t t' -> rs = rs' ->
  exists d d', write_state (t_db t) (t_state t) = Ok d /\ write_state (t_db t') (t_state t') = Ok d' /\
    agree d d' /\ load_state d = load_state d'.
Proof.
  intros [Hd Hs _] _. destruct (write_total (t_db t) (t_state t)) as [d E]; [apply Hd|].
  destruct (write_total (t_db t') (t_state t')) as [d' E']; [apply Hd|]. exists d, d'.
  destruct (load_write _ _ _ E) as [-> A], (load_write _ _ _ E') as [-> A']. split_and!; [done..| |by rewrite Hs].
  trans (t_db t); [symmetry; apply A, Hd|]. trans (t_db t'); [done|apply A', Hd].
Qed.

Lemma machine_rel d d' (es : list (Entry (M := M))) : agree d d' -> load_state d = load_state d' ->
  fin_rel (apply_to_state_machine d es) (apply_to_state_machine d' es).
Proof.
  intros Ha Hl. unfold apply_to_state_machine. rewrite <- Hl. destruct (load_state d) as [s| |]; cbn; [|done..].
  pose proof (apply_entries_rel es [] (mkTxn d s []) (mkTxn d' s []) ltac:(by split)) as Hr.
  destruct (apply_entries (mkTxn d s []) es) as [[t rs]| |], (apply_entries (mkTxn d' s []) es) as [[t' rs']| |]; cbn in *; try done.
  destruct Hr as [Hr ->]. destruct (commit_rel _ _ _ rs' rs' Hr eq_refl) as (e & e' & -> & -> & H1 & H2). cbn.
  split_and!; [done..|]. apply Hr.
Qed.

Lemma apply_entries_app es1 es2 : forall t : txn (M := M), apply_entries t (es1 ++ es2) =
  '(t1, rs1) ← apply_entries t es1; '(t2, rs2) ← apply_entries t1 es2; Ok (t2, rs1 ++ rs2).
Proof.
  induction es1 as [|e es1 IH]; intros t; cbn [app apply_entries].
  - cbn. by destruct (apply_entries t es2) as [[]| |].
  - destruct (apply_entry t e) as [[t1 r]| |]; cbn; [|done..]. rewrite IH.
    destruct (apply_entries t1 es1) as [[t2 rs]| |]; cbn; [|done..].
    by destruct (apply_entries t2 es2) as [[]| |].
Qed.

(** One batch after the other. *)
Definition then_batch (o : result) (es : list (Entry (M := M))) : result :=
  '(d, rs, ev) ← o; '(d', rs', ev') ← apply_to_state_machine d es; Ok (d', rs ++ rs', ev ++ ev').

Lemma machine_app d es1 es2 : fin_rel (apply_to_state_machine d (es1 ++ es2)) (then_batch (apply_to_state_machine d es1) es2).
Proof.
  unfold apply_to_state_machine at 1 2. destruct (load_state d) as [s| |] eqn:El; cbn; [|done..].
  rewrite apply_entries_app. pose proof (load_raft d s El) as Hraft.
  pose proof (apply_entries_rel es1 [] (mkTxn d s []) (mkTxn d s []) ltac:(split; [by apply agree_refl|done..])) as Hr.
  destruct (apply_entries (mkTxn d s []) es1) as [[t1 rs1]| |]; cbn in *; [|done..]. destruct Hr as [[Hself _ _] _].
  destruct (write_total (t_db t1) (t_state t1)) as [d1 E1]; [apply Hself|]. rewrite E1. cbn.
  destruct (load_write _ _ _ E1) as [El1 A1]. unfold apply_to_state_machine. rewrite El1. cbn.
  pose proof (apply_entries_rel es2 (t_events t1) t1 (mkTxn d1 (t_state t1) [])) as Hr2.
  specialize (Hr2 ltac:(split; cbn; [apply A1, Hself|done|by rewrite app_nil_r])).
  destruct (apply_entries t1 es2) as [[t2 rs2]| |], (apply_entries (mkTxn d1 (t_state t1) []) es2) as [[t2' rs2']| |]; cbn in *; try done.
  destruct Hr2 as [Hr2 ->]. destruct (commit_rel _ _ _ rs2' rs2' Hr2 eq_refl) as (e & e' & -> & -> & H1 & H2). cbn.
  split_and!; [done..|]. apply Hr2.
Qed.

Definition run_batches (d : database) (bs : list (list (Entry (M := M)))) : result :=
  foldl then_batch (Ok (d, [], [])) bs.

Lemma then_batch_rel o o' es : fin_rel o o' -> fin_rel (then_batch o es) (then_batch o' es).
Proof.
  destruct o as [[[d rs] ev]| |], o' as [[[d' rs'] ev']| |]; cbn; try done. intros (Ha & Hl & -> & ->).
  pose proof (machine_rel d d' es Ha Hl) as Hm.
  destruct (apply_to_state_machine d es) as [[[]]| |], (apply_to_state_machine d' es) as [[[]]| |]; cbn in *; try done.
  destruct Hm as (? & ? & -> & ->). by split_and!.
Qed.

Lemma run_concat d bs : is_Some (get_ok (load_state d)) ->
  fin_rel (run_batches d bs) (apply_to_state_machine d (concat bs)).
Proof.
  intros Hl. assert (exists s, load_state d = Ok s) as [s El] by (destruct (load_state d); [eauto|by destruct Hl..]).
  pose proof (load_raft d s El) as Hr. induction bs as [|es bs IH] using rev_ind.
  - cbn. unfold apply_to_state_machine. rewrite El. cbn. destruct (write_total d s Hr) as [d' E]. rewrite E. cbn.
    destruct (load_write _ _ _ E) as [El' Ha]. split_and!; [by apply Ha|congruence|done..].
  - unfold run_batches. rewrite foldl_snoc, concat_app. cbn [concat]. rewrite app_nil_r.
    etrans; [apply then_batch_rel, IH|]. symmetry. apply machine_app.
Qed.

(** C12. Replicas agree. Two nodes whose states agree, given the same log,
    end with the same rows in every table of the state machine, the same
    last applied entry, membership and config version, the same answers and
    the same events in order, however each cuts the log into batches; and if
    one of them fails on an entry, so does the other. *)
Theorem replicas_agree d d' bs bs' : agree d d' -> is_Some (get_ok (load_state d)) -> load_state d = load_state d' ->
  concat bs = concat bs' -> fin_rel (run_batches d bs) (run_batches d' bs').
Proof.
  intros Ha Hl He Hc. etrans; [by apply run_concat|]. rewrite Hc.
  etrans; [by apply machine_rel|]. symmetry. apply run_concat. by rewrite <- He.
Qed.

(** ** Compare and set, exactly *)
Definition row (d : database) (t k : string) : option bytes := rows_of d t ≫= (.!! k).

Definition holds (d : database) (op : CasOp) : Prop := row d (cas_table_name (op_table op)) (op_key op) = op_expected op.

#[global] Instance holds_dec d op : Decision (holds d op).
Proof. unfold holds. apply _. Defined.

(** The positions, from [i] on, of the operations that don't hold. *)
Fixpoint mismatches (d : database) (i : Z) (ops : list CasOp) : list Z :=
  match ops with
  | [] => []
  | op :: ops => if decide (holds d op) then mismatches d (i + 1) ops else i :: mismatches d (i + 1) ops
  end.

(** A row once the operations have been written in their order. *)
Definition row_after (ops : list CasOp) (t k : string) (old : option bytes) : option bytes :=
  foldl (fun v op => if decide (cas_table_name (op_table op) = t /\ op_key op = k) then op_new op else v) old ops.

Definition table_ok (d : database) (op : CasOp) : Prop := is_Some (rows_of d (cas_table_name (op_table op))).

Lemma mismatches_ext d d' i ops : (forall t, rows_of d t = rows_of d' t) -> mismatches d i ops = mismatches d' i ops.
Proof.
  intros He. revert i. induction ops as [|op ops IH]; intros i; [done|]. cbn. rewrite IH.
  destruct (decide (holds d op)) as [H|H], (decide (holds d' op)) as [H'|H']; try done; unfold holds, row in *; by rewrite He in H.
Qed.

Lemma rows_of_open d n m : rows_of d n = Some m -> forall t, rows_of (<[n := Rows m]> d) t = rows_of d t.
Proof. intros Hm t. rewrite rows_of_insert. case_decide; [by subst|done]. Qed.

Lemma cas_check_spec ops : forall d i, Forall (table_ok d) ops ->
  exists d', cas_check d i ops = (d', inr (mismatches d i ops)) /\ forall t, rows_of d' t = rows_of d t.
Proof.
  induction ops as [|op ops IH]; intros d i Hok; [by exists d|]. apply Forall_cons in Hok as [[m Hm] Hok]. cbn [cas_check mismatches].
  rewrite Hm. pose proof (rows_of_open d _ m Hm) as He.
  destruct (IH (<[cas_table_name (op_table op) := Rows m]> d) (i + 1)) as (d' & -> & Hd').
  { eapply Forall_impl; [exact Hok|]. intros o. unfold table_ok. by rewrite He. }
  exists d'. rewrite (mismatches_ext _ d) by done. split; [|intros t; by rewrite Hd'].
  assert (Hh : holds d op <-> m !! op_key op = op_expected op) by (unfold holds, row; by rewrite Hm).
  case_decide; case_bool_decide; naive_solver.
Qed.

Lemma row_insert d n m t k : row (<[n := Rows m]> d) t k = if decide (t = n) then m !! k else row d t k.
Proof. unfold row. rewrite rows_of_insert. by case_decide. Qed.

Lemma cas_writes_spec ops : forall d, Forall (table_ok d) ops ->
  exists d', cas_writes d ops = Ok d' /\ forall t k, row d' t k = row_after ops t k (row d t k).
Proof.
  induction ops as [|op ops IH]; intros d Hok; [by exists d|]. apply Forall_cons in Hok as [[m Hm] Hok]. cbn [cas_writes].
  unfold cas_write, open_table. rewrite Hm. cbn. set (n := cas_table_name (op_table op)) in *. rewrite insert_insert_eq.
  set (m' := match op_new op with Some b => _ | None => _ end).
  destruct (IH (<[n := Rows m']> d)) as (d' & -> & Hd').
  { eapply Forall_impl; [exact Hok|]. intros o [x Hx]. unfold table_ok. rewrite rows_of_insert. by case_decide; eexists. }
  exists d'. split; [done|]. intros t k. rewrite Hd', row_insert. unfold row_after. cbn [foldl]. f_equal. fold n.
  assert (Hrow : row d n = fun k => m !! k) by (unfold row; by rewrite Hm).
  destruct (decide (t = n)) as [->|Hne]; [|by rewrite decide_False by naive_solver].
  rewrite Hrow. subst m'. destruct (decide (op_key op = k)) as [<-|Hk].
  - rewrite decide_True by done. by destruct (op_new op); simplify_map_eq.
  - rewrite decide_False by naive_solver. by destruct (op_new op); simplify_map_eq.
Qed.

Lemma mismatches_nil d i ops : mismatches d i ops = [] <-> Forall (holds d) ops.
Proof.
  revert i. induction ops as [|op ops IH]; intros i; [done|]. cbn. rewrite Forall_cons, <- (IH (i + 1)).
  case_decide; naive_solver.
Qed.

Lemma multi_cas_all (t : txn (M := M)) ops : Forall (table_ok (t_db t)) ops -> Forall (holds (t_db t)) ops ->
  exists t', apply_multi_cas t ops = Ok (t', MultiCasOk) /\ t_state t' = t_state t /\
    t_events t' = t_events t ++ (cas_event <$> ops) /\
    forall tb k, row (t_db t') tb k = row_after ops tb k (row (t_db t) tb k).
Proof.
  intros Hok Hall. unfold apply_multi_cas. destruct (cas_check_spec ops (t_db t) 0 Hok) as (d & -> & Hd).
  rewrite (proj2 (mismatches_nil _ 0 _) Hall). destruct (cas_writes_spec ops d) as (d' & -> & Hd').
  { eapply Forall_impl; [exact Hok|]. intros o. unfold table_ok. by rewrite Hd. }
  eexists. cbn. split_and!; [done..|]. intros tb k. cbn. rewrite Hd'. unfold row. by rewrite Hd.
Qed.

Lemma multi_cas_conflict (t : txn (M := M)) ops : Forall (table_ok (t_db t)) ops -> ~ Forall (holds (t_db t)) ops ->
  exists t', apply_multi_cas t ops = Ok (t', MultiCasConflict (mismatches (t_db t) 0 ops)) /\ t_state t' = t_state t /\
    t_events t' = t_events t /\ forall tb k, row (t_db t') tb k = row (t_db t) tb k.
Proof.
  intros Hok Hall. unfold apply_multi_cas. destruct (cas_check_spec ops (t_db t) 0 Hok) as (d & -> & Hd).
  destruct (mismatches (t_db t) 0 ops) as [|i l] eqn:E; [by apply mismatches_nil in E|].
  eexists. split_and!; [done..|]. intros tb k. cbn. unfold row. by rewrite Hd.
Qed.

(** C35. A compare-and-set is all or nothing. If every operation finds the
    value it expects, each row is what the last operation on it writes and
    the others are as they were, and one event per operation is sent, in
    order. If any differs, the answer lists exactly the positions that do,
    no row changes and no event is sent. *)
Theorem multi_cas_exact (t : txn (M := M)) ops : Forall (table_ok (t_db t)) ops ->
  exists t', t_state t' = t_state t /\
    if decide (Forall (holds (t_db t)) ops) then
      apply_multi_cas t ops = Ok (t', MultiCasOk) /\ t_events t' = t_events t ++ (cas_event <$> ops) /\
      forall tb k, row (t_db t') tb k = row_after ops tb k (row (t_db t) tb k)
    else
      apply_multi_cas t ops = Ok (t', MultiCasConflict (mismatches (t_db t) 0 ops)) /\ t_events t' = t_events t /\
      forall tb k, row (t_db t') tb k = row (t_db t) tb k.
Proof.
  intros Hok. case_decide as Hall.
  - destruct (multi_cas_all t ops Hok Hall) as (t' & ? & ? & ?). by exists t'.
  - destruct (multi_cas_conflict t ops Hok Hall) as (t' & ? & ? & ?). by exists t'.
Qed.

End machine.

(** ** Examples *)

(** Bytes for anything countable, a bit in each. *)
Fixpoint bits_of (p : positive) : bytes :=
  match p with xH => [] | xO p => Byte.x00 :: bits_of p | xI p => Byte.x01 :: bits_of p end.

Fixpoint of_bits (b : bytes) : positive :=
  match b with [] => xH | Byte.x00 :: b => xO (of_bits b) | _ :: b => xI (of_bits b) end.

Lemma of_bits_of p : of_bits (bits_of p) = p.
Proof. induction p; cbn; congruence. Qed.

Definition pack {A} `{Countable A} (a : A) : bytes := bits_of (encode a).
Definition unpack {A} `{Countable A} (b : bytes) : option A := decode (of_bits b).

Lemma unpack_pack {A} `{Countable A} (a : A) : unpack (pack a) = Some a.
Proof. unfold unpack, pack. by rewrite of_bits_of, decode_encode. Qed.

Definition id_tuple (i : LogId) : Z * Z * Z := (id_term i, id_node i, id_index i).
Definition tuple_id (t : Z * Z * Z) : LogId := mkLogId t.1.1 t.1.2 t.2.

Definition state_tuple (s : RaftPersistentState ()) : option (Z * Z * Z) * option (Z * Z * Z) * Z :=
  (id_tuple <$> last_applied s, id_tuple <$> (membership s).1, config_version s).
Definition tuple_state (t : option (Z * Z * Z) * option (Z * Z * Z) * Z) : RaftPersistentState () :=
  mkState (tuple_id <$> t.1.1) (tuple_id <$> t.1.2, tt) t.2.

#[refine] Definition plain_state : Persisted () := {|
  no_members := tt;
  state_to_vec s := pack (state_tuple s);
  state_from_slice b := tuple_state <$> unpack b;
|}.
Proof. intros [[[]|] [[[]|] []] v]; rewrite unpack_pack; done. Defined.

(** Records whose bytes are those of the value. *)
Definition plain_records : Records := {| config_encode e := entry_value e; osd_encode _ := []; osd_decode _ := None |}.

Definition entry_at (i : Z) (cmd : MetaCommand) : Entry (M := ()) := mkEntryAt (mkLogId 1 1 i) (Normal cmd).
Definition e1 := entry_at 1 (SetConfig "a" [Byte.x01] "cli" 100).
Definition e2 := entry_at 2 (MultiCas [mkCas Config "a" (Some [Byte.x01]) (Some [Byte.x02])] "cli").

Lemma replicas_agree_witness :
  fin_rel (Per := plain_state) (run_batches (Per := plain_state) (Rec := plain_records) ∅ [[e1]; [e2]])
    (run_batches (Per := plain_state) (Rec := plain_records) ∅ [[e1; e2]]).
Proof.
  apply (replicas_agree (Per := plain_state) (Rec := plain_records) ∅ ∅ [[e1]; [e2]] [[e1; e2]]).
  - apply agree_refl. by eexists.
  - by eexists.
  - done.
  - done.
Defined.

Lemma multi_cas_exact_witness :
  let t := mkTxn (M := ()) {["config" := Rows {["a" := [Byte.x01]]}]} (mkState None (None, tt) 0) [] in
  exists t', apply_multi_cas t [mkCas Config "a" (Some [Byte.x01]) None; mkCas Config "b" (Some []) None] =
    Ok (t', MultiCasConflict [1]).
Proof.
  intros t. destruct (multi_cas_exact t [mkCas Config "a" (Some [Byte.x01]) None; mkCas Config "b" (Some []) None])
    as (t' & _ & Ht).
  - repeat constructor; by eexists.
  - rewrite decide_False in Ht.
    + exists t'. apply Ht.
    + intros H. apply Forall_cons in H as [_ H]. apply Forall_cons in H as [H _]. by vm_compute in H.
Defined.

(** An entry can stop every node for good. A committed
    compare-and-set that puts a counter of other than eight bytes in the
    table of counters is accepted; every configuration change after it then
    fails as a storage error instead of being refused, on every node and at
    every restart. *)
Theorem bad_counter_stops_nodes :
  let poison := entry_at 1 (MultiCas [mkCas (Named "counters") "config_version" None (Some [Byte.x07])] "cli") in
  exists d, apply_to_state_machine (Per := plain_state) (Rec := plain_records) ∅ [poison] = Ok (d, [MultiCasOk],
      [MultiCasOp (Named "counters") "config_version" (Some [Byte.x07])]) /\
    forall i key value by_ at_, apply_to_state_machine (Per := plain_state) (Rec := plain_records) d
      [entry_at i (SetConfig key value by_ at_)] = Err (Undecodable "counters").
Proof. eexists. split; [by vm_compute|]. intros. by vm_compute. Qed.

End MetaStateSpec.
