(* ===== verification/MetaSnapshot.v ===== *)
(** * Snapshots of the state machine

    A snapshot of [MetaState] read back gives the state it was taken from
    ([follower_catches_up]); one cut short anywhere is refused and changes
    nothing ([truncated_snapshot_refused]); a leader whose counter is behind
    its own count is caught up with to another count ([install_loses_version]). *)
From S2P Require Import Prelude Bytes OrdMap Topology MetaState MetaStateSpec.
Import MetaState MetaStateSpec.

Module MetaSnapshot.

(** ** Fields *)
Definition short (b : bytes) : Prop := lenZ b <= SNAPSHOT_FIELD_LIMIT.
Definition text_ok (s : string) : Prop := rust_string s /\ short (as_bytes s).

Lemma get_put_u64 n rest : is_u64 n -> get_u64 (put_u64 n ++ rest) = Ok (n, rest).
Proof. intros Hn. unfold get_u64, put_u64. by rewrite read_u64. Qed.

Lemma get_put_bytes b rest : short b -> get_bytes (put_bytes b ++ rest) = Ok (b, rest).
Proof.
  intros Hb. unfold short, SNAPSHOT_FIELD_LIMIT in Hb. unfold get_bytes, put_bytes. pose proof (lenZ_nonneg b).
  rewrite <- app_assoc, get_put_u64 by (unfold is_u64, two64; lia). cbn.
  destruct (Z.ltb_spec SNAPSHOT_FIELD_LIMIT (lenZ b)) as [H1|_]; [unfold SNAPSHOT_FIELD_LIMIT in H1; lia|].
  unfold lenZ. rewrite Nat2Z.id, read_exact_app. done.
Qed.

Lemma get_put_string s rest : text_ok s -> get_string (put_bytes (as_bytes s) ++ rest) = Ok (s, rest).
Proof. intros [Hs Hb]. unfold get_string. rewrite get_put_bytes by done. cbn. by rewrite from_utf8_of_string. Qed.

Lemma put_bytes_length b : (8 <= length (put_bytes b))%nat.
Proof. unfold put_bytes, put_u64. rewrite length_app, to_le_length. lia. Qed.

(** ** Rows and tables *)
Definition row_ok (kv : string * bytes) : Prop := text_ok kv.1 /\ short kv.2.

Definition insert_rows (m : gmap string bytes) (kvs : list (string * bytes)) : gmap string bytes :=
  foldl (fun m kv => <[kv.1 := kv.2]> m) m kvs.

Lemma get_put_rows kvs : forall fuel m rest, Forall row_ok kvs -> (length kvs <= fuel)%nat ->
  get_rows fuel (Z.of_nat (length kvs)) m (concat (put_row <$> kvs) ++ rest) = Ok (insert_rows m kvs, rest).
Proof.
  induction kvs as [|[k v] kvs IH]; intros fuel m rest Hok Hf.
  - by destruct fuel.
  - apply Forall_cons in Hok as [[Hk Hv] Hok]. destruct fuel as [|fuel]; cbn [length] in *; [lia|].
    cbn [get_rows]. destruct (Z.leb_spec (Z.of_nat (S (length kvs))) 0); [lia|].
    rewrite fmap_cons. cbn [concat]. unfold put_row at 1. cbn [fst snd]. rewrite <- !app_assoc, get_put_string by done. cbn.
    rewrite get_put_bytes by done. cbn. replace (Z.of_nat (S (length kvs)) - 1) with (Z.of_nat (length kvs)) by lia.
    rewrite IH by (done || lia). done.
Qed.

Lemma insert_rows_reverse kvs : insert_rows ∅ kvs = list_to_map (reverse kvs).
Proof.
  induction kvs as [|[k v] kvs IH] using rev_ind; [done|]. unfold insert_rows in *. rewrite foldl_snoc, IH, reverse_snoc. done.
Qed.

Lemma insert_rows_map kvs m : NoDup kvs.*1 -> kvs ≡ₚ map_to_list m -> insert_rows ∅ kvs = m.
Proof.
  intros Hnd Hp. rewrite insert_rows_reverse, <- (list_to_map_to_list m). apply list_to_map_proper.
  - by rewrite reverse_Permutation.
  - by rewrite reverse_Permutation.
Qed.

Lemma sorted_rows_perm m : sorted_rows m ≡ₚ map_to_list m.
Proof. apply merge_sort_Permutation. Qed.

Lemma sorted_rows_keys m : NoDup (sorted_rows m).*1.
Proof. rewrite sorted_rows_perm. apply NoDup_fst_map_to_list. Qed.

Lemma rows_longer kvs : (length kvs <= length (concat (put_row <$> kvs)))%nat.
Proof.
  induction kvs as [|[k v] kvs IH]; [done|]. rewrite fmap_cons. cbn [concat length]. unfold put_row at 1.
  rewrite !length_app. cbn [fst snd]. pose proof (put_bytes_length (as_bytes k)). lia.
Qed.

(** A table a snapshot can carry. *)
Definition table_fits (t : string) (m : gmap string bytes) : Prop :=
  text_ok t /\ Z.of_nat (size m) < two64 /\ forall k v, m !! k = Some v -> row_ok (k, v).

Lemma put_table_ok d t m : rows_of d t = Some m -> put_table d t =
  Ok (put_bytes (as_bytes t) ++ put_u64 (Z.of_nat (size m)) ++ concat (put_row <$> sorted_rows m)).
Proof. intros Hm. unfold put_table. by rewrite Hm. Qed.

Lemma get_put_table d t m rest : t ∉ RAFT_TABLES -> d !! t = None -> table_fits t m ->
  get_table d (put_bytes (as_bytes t) ++ put_u64 (Z.of_nat (size m)) ++ concat (put_row <$> sorted_rows m) ++ rest) =
  Ok (<[t := Rows m]> d, rest).
Proof.
  intros Ht Hn (Hname & Hsz & Hrows). unfold get_table. rewrite get_put_string by done. cbn.
  rewrite bool_decide_false by done. unfold open_table, rows_of. rewrite Hn. cbn.
  rewrite get_put_u64 by (unfold is_u64; lia). cbn.
  assert (Hlen : length (sorted_rows m) = size m) by (rewrite sorted_rows_perm; apply length_map_to_list).
  rewrite <- Hlen, get_put_rows; [cbn| |rewrite length_app; pose proof (rows_longer (sorted_rows m)); lia].
  - rewrite (insert_rows_map _ m (sorted_rows_keys m) (sorted_rows_perm m)). by rewrite insert_insert_eq.
  - apply Forall_forall. intros [k v] Hkv. rewrite sorted_rows_perm in Hkv. by apply Hrows, elem_of_map_to_list.
Qed.

(** The tables, one after the other. *)
Definition table_bytes (src : database) (t : string) : bytes :=
  let m := default ∅ (rows_of src t) in
  put_bytes (as_bytes t) ++ put_u64 (Z.of_nat (size m)) ++ concat (put_row <$> sorted_rows m).

Definition take_tables (src d : database) (ts : list string) : database :=
  foldl (fun d t => <[t := Rows (default ∅ (rows_of src t))]> d) d ts.

Lemma get_put_tables src ts : forall fuel d rest, NoDup ts -> (length ts <= fuel)%nat ->
  Forall (fun t => (t ∉ RAFT_TABLES) /\ d !! t = None /\ table_fits t (default ∅ (rows_of src t))) ts ->
  get_tables fuel (Z.of_nat (length ts)) d (concat (table_bytes src <$> ts) ++ rest) = Ok (take_tables src d ts, rest).
Proof.
  induction ts as [|t ts IH]; intros fuel d rest Hnd Hf Hok; [by destruct fuel|].
  apply NoDup_cons in Hnd as [Ht Hnd]. apply Forall_cons in Hok as [(H1 & H2 & H3) Hok].
  destruct fuel as [|fuel]; cbn [length] in *; [lia|]. cbn [get_tables].
  destruct (Z.leb_spec (Z.of_nat (S (length ts))) 0); [lia|]. rewrite fmap_cons. cbn [concat]. unfold table_bytes at 1.
  rewrite <- !app_assoc, get_put_table by done. cbn. replace (Z.of_nat (S (length ts)) - 1) with (Z.of_nat (length ts)) by lia.
  rewrite IH; [done|done|lia|]. apply Forall_forall. intros t' Ht'. rewrite Forall_forall in Hok.
  destruct (Hok t' Ht') as (G1 & G2 & G3). split_and!; [done| |done]. rewrite lookup_insert_ne; [done|]. by intros ->.
Qed.

(** ** A whole snapshot *)

(** A database whose state a snapshot can carry. *)
Record storable (d : database) : Prop := {
  st_tables : forall t tb, d !! t = Some tb -> t ∉ RAFT_TABLES -> exists m, tb = Rows m /\ table_fits t m;
  st_count : Z.of_nat (size d) < two64;
}.

Lemma elem_of_state_tables d t : t ∈ state_tables d <-> (t ∉ RAFT_TABLES) /\ is_Some (d !! t).
Proof.
  unfold state_tables. rewrite merge_sort_Permutation, list_elem_of_filter. f_equiv. split.
  - intros ([t' tb] & -> & H)%list_elem_of_fmap. apply elem_of_map_to_list in H. by eexists.
  - intros [tb H]. apply list_elem_of_fmap. exists (t, tb). split; [done|]. by apply elem_of_map_to_list.
Qed.

Lemma state_tables_NoDup d : NoDup (state_tables d).
Proof. unfold state_tables. rewrite merge_sort_Permutation. apply NoDup_filter, NoDup_fst_map_to_list. Qed.

Lemma state_tables_length d : (length (state_tables d) <= size d)%nat.
Proof.
  unfold state_tables. rewrite merge_sort_Permutation, <- length_map_to_list, <- (length_fmap fst). apply length_filter.
Qed.

Lemma take_tables_rows src d ts t : rows_of (take_tables src d ts) t =
  if decide (t ∈ ts) then Some (default ∅ (rows_of src t)) else rows_of d t.
Proof.
  unfold take_tables. induction ts as [|u ts IH] using rev_ind.
  - by rewrite decide_False by apply not_elem_of_nil.
  - rewrite foldl_snoc, rows_of_insert, IH. destruct (decide (t = u)) as [->|Hne]; [by rewrite decide_True by set_solver|].
    destruct (decide (t ∈ ts)); [by rewrite decide_True by set_solver|by rewrite decide_False by set_solver].
Qed.

Lemma raft_only_lookup d t : raft_only d !! t = if decide (t ∈ RAFT_TABLES) then d !! t else None.
Proof.
  unfold raft_only. case_decide as Ht.
  - destruct (d !! t) as [tb|] eqn:E.
    + by apply map_lookup_filter_Some.
    + apply map_lookup_filter_None. by left.
  - apply map_lookup_filter_None. right. intros tb _. done.
Qed.

Lemma write_tables_ok d : storable d ->
  write_tables d = Ok (SNAPSHOT_MAGIC ++ put_u64 (lenZ (state_tables d)) ++ concat (table_bytes d <$> state_tables d)).
Proof.
  intros Hs. unfold write_tables.
  assert (Hm : mapM (put_table d) (state_tables d) = Ok (table_bytes d <$> state_tables d)); [|by rewrite Hm].
  apply mapM_ok, Forall2_fmap_r, Forall_Forall2_diag, Forall_forall. intros t [Ht [tb E]]%elem_of_state_tables.
  destruct (st_tables d Hs t tb E Ht) as (m & -> & _).
  assert (Hr : rows_of d t = Some m) by (unfold rows_of; by rewrite E).
  change (put_table d t = Ok (table_bytes d t)). rewrite (put_table_ok d t m Hr). unfold table_bytes. by rewrite Hr.
Qed.

Lemma tables_longer d ts : (length ts <= length (concat (table_bytes d <$> ts)))%nat.
Proof.
  induction ts as [|t ts IH]; [done|]. rewrite fmap_cons. cbn [concat length]. unfold table_bytes at 1.
  rewrite !length_app. pose proof (put_bytes_length (as_bytes t)). lia.
Qed.

(** What is read back, whatever was in the database it is read into. *)
Lemma read_written src f b : storable src -> write_tables src = Ok b ->
  exists d, read_snapshot (raft_only f) b = Ok d /\ forall t, rows_of d t = if decide (t ∈ RAFT_TABLES) then rows_of f t else rows_of src t.
Proof.
  intros Hs Hw. rewrite write_tables_ok in Hw by done. apply (f_equal get_ok), Some_inj in Hw. rewrite <- Hw.
  clear b Hw. unfold read_snapshot.
  rewrite (read_exact_app SNAPSHOT_MAGIC). cbn [ok_or mbind outcome_bind]. rewrite bool_decide_false by (intros H; by apply H).
  pose proof (state_tables_length src). pose proof (st_count src Hs).
  rewrite get_put_u64 by (unfold is_u64, lenZ; lia). cbn [map_err mbind outcome_bind].
  rewrite <- (app_nil_r (concat _)). unfold lenZ. rewrite get_put_tables.
  - cbn. eexists. split; [done|]. intros t. rewrite take_tables_rows.
    destruct (decide (t ∈ RAFT_TABLES)) as [Ht|Ht].
    + rewrite decide_False by (rewrite elem_of_state_tables; naive_solver). unfold rows_of.
      by rewrite raft_only_lookup, decide_True.
    + case_decide as Hin; rewrite elem_of_state_tables in Hin.
      * destruct Hin as [_ [tb E]]. destruct (st_tables src Hs t tb E Ht) as (m & -> & _). unfold rows_of. by rewrite E.
      * unfold rows_of. rewrite raft_only_lookup, decide_False by done. destruct (src !! t) eqn:E; [|done].
        destruct Hin. split; [done|by eexists].
  - apply state_tables_NoDup.
  - rewrite app_nil_r. apply tables_longer.
  - apply Forall_forall. intros t [Ht [tb E]]%elem_of_state_tables. split_and!; [done| |].
    + by rewrite raft_only_lookup, decide_False.
    + destruct (st_tables src Hs t tb E Ht) as (m & -> & Hm). unfold rows_of. by rewrite E.
Qed.

(** ** Cut short *)

(** A reader that doesn't look past what it reads. *)
Definition onward {E A} (p : bytes -> outcome E (A * bytes)) : Prop :=
  forall src x rest more, p src = Ok (x, rest) -> p (src ++ more) = Ok (x, rest ++ more).

Lemma read_exact_onward n src b rest more : read_exact n src = Some (b, rest) -> read_exact n (src ++ more) = Some (b, rest ++ more).
Proof. intros [-> <-]%read_exact_some. rewrite <- app_assoc. apply read_exact_app. Qed.

Lemma get_u64_onward : onward get_u64.
Proof.
  intros src x rest more. unfold get_u64, read_le. rewrite !ok_or_ok. destruct (read_exact 8 src) as [[b r]|] eqn:E; [|done].
  cbn. intros [= <- <-]. by rewrite (read_exact_onward _ _ _ _ more E).
Qed.

Lemma get_bytes_onward : onward get_bytes.
Proof.
  intros src x rest more. unfold get_bytes. intros ([n r] & Hn & Hx)%outcome_bind_ok.
  rewrite (get_u64_onward _ _ _ more Hn). cbn. destruct (_ <? n); [done|]. rewrite ok_or_ok in *. by apply read_exact_onward.
Qed.

Lemma get_string_onward : onward get_string.
Proof.
  intros src x rest more. unfold get_string. intros ([b r] & Hn & (s & Hs & [= <- <-])%outcome_bind_ok)%outcome_bind_ok.
  rewrite (get_bytes_onward _ _ _ more Hn). cbn. by rewrite Hs.
Qed.

Lemma get_rows_onward fuel : forall fuel' n m src m' rest more, (fuel <= fuel')%nat ->
  get_rows fuel n m src = Ok (m', rest) -> get_rows fuel' n m (src ++ more) = Ok (m', rest ++ more).
Proof.
  induction fuel as [|fuel IH]; intros fuel' n m src m' rest more Hf; cbn [get_rows].
  - destruct (n <=? 0) eqn:E; [|done]. intros [= <- <-]. destruct fuel'; cbn [get_rows]; by rewrite E.
  - destruct fuel' as [|fuel']; [lia|]. cbn [get_rows]. destruct (n <=? 0); [congruence|].
    intros ([k r] & Hk & ([v r'] & Hv & Hr)%outcome_bind_ok)%outcome_bind_ok.
    rewrite (get_string_onward _ _ _ more Hk). cbn. rewrite (get_bytes_onward _ _ _ more Hv). cbn. apply IH; [lia|done].
Qed.

Lemma get_table_onward d : onward (get_table d).
Proof.
  intros src x rest more. unfold get_table. intros ([t r] & Ht & H)%outcome_bind_ok. destruct (get_string src) as [[t' r']| |] eqn:Es; try done.
  cbn in Ht. injection Ht as -> ->. rewrite (get_string_onward _ _ _ more Es). cbn. case_bool_decide; [done|].
  apply outcome_bind_ok in H as ([d' m] & Ho & H). rewrite Ho. cbn.
  apply outcome_bind_ok in H as ([n r1] & Hn & H). destruct (get_u64 r) as [[n' r1']| |] eqn:En; try done.
  cbn in Hn. injection Hn as -> ->. rewrite (get_u64_onward _ _ _ more En). cbn.
  apply outcome_bind_ok in H as ([m2 r2] & Hm & [= <- <-]). destruct (get_rows (length r1) n m r1) as [[m3 r3]| |] eqn:Er; try done.
  cbn in Hm. injection Hm as -> ->. rewrite (get_rows_onward (length r1) (length (r1 ++ more)) _ _ _ _ _ more ltac:(rewrite length_app; lia) Er). done.
Qed.

Lemma get_tables_onward fuel : forall fuel' n d src d' rest more, (fuel <= fuel')%nat ->
  get_tables fuel n d src = Ok (d', rest) -> get_tables fuel' n d (src ++ more) = Ok (d', rest ++ more).
Proof.
  induction fuel as [|fuel IH]; intros fuel' n d src d' rest more Hf; cbn [get_tables].
  - destruct (n <=? 0) eqn:E; [|done]. intros [= <- <-]. destruct fuel'; cbn [get_tables]; by rewrite E.
  - destruct fuel' as [|fuel']; [lia|]. cbn [get_tables]. destruct (n <=? 0); [congruence|].
    intros ([d1 r] & Ht & Hr)%outcome_bind_ok. rewrite (get_table_onward _ _ _ _ more Ht). cbn. apply IH; [lia|done].
Qed.

(** Bytes after a whole snapshot are refused. *)
Lemma read_more d b d' more : read_snapshot d b = Ok d' -> more <> [] -> read_snapshot d (b ++ more) = Err (BadSnapshot TrailingBytes).
Proof.
  unfold read_snapshot. intros ([mg r] & Hm & H)%outcome_bind_ok Hmore. rewrite ok_or_ok in Hm.
  rewrite (read_exact_onward _ _ _ _ more Hm). cbn. case_bool_decide; [done|].
  apply outcome_bind_ok in H as ([n r1] & Hn & H). destruct (get_u64 r) as [[n' r1']| |] eqn:En; try done.
  cbn in Hn. injection Hn as -> ->. rewrite (get_u64_onward _ _ _ more En). cbn.
  apply outcome_bind_ok in H as ([d1 r2] & Ht & H). case_bool_decide as Hr; [done|].
  rewrite (get_tables_onward (length r1) (length (r1 ++ more)) _ _ _ _ _ more ltac:(rewrite length_app; lia) Ht). cbn.
  rewrite bool_decide_true; [done|]. intros [_ ?]%app_nil. done.
Qed.

(** ** Catching up *)
Lemma open_ok d n m : rows_of d n = Some m -> open_table d n = Ok (<[n := Rows m]> d, m).
Proof. intros Hm. unfold open_table. by rewrite Hm. Qed.

Section machine.
Context {M : Type} {Per : Persisted M} {Rec : Records}.

Definition counter_row (d : database) : option bytes := row d "counters" CONFIG_VERSION.

(** The count of config entries a follower in state [f] has after it
    installs [d]'s tables: the one in them, or its own. *)
Definition counted (f : RaftPersistentState M) (d : database) : outcome StorageError Z :=
  match counter_row d with Some v => decode_counter v | None => Ok (config_version f) end.

(** C13. A follower that is sent a snapshot catches up. Whatever it held, if
    the count of config entries in the leader's tables can be read (a row of
    eight bytes, or none), the bytes the leader writes install: the state
    tables of the follower have exactly the leader's rows, its last applied
    entry and membership are the leader's, and its count is the one in those
    tables, or its own if there is none. If that is also the count the leader
    keeps beside its log, then from there on both do the same with the rest
    of the log, in whatever batches: the same answers, events and rows. If it
    is not, the two number the next config entry differently
    ([install_loses_version]). *)
Theorem follower_catches_up leader follower l f v :
  storable leader -> load_state leader = Ok l -> load_state follower = Ok f -> counted f leader = Ok v ->
  exists b d, write_state_machine leader = Ok (l, b) /\
    install_state_machine follower b (mkMeta (last_applied l) (membership l)) = Ok d /\
    agree leader d /\ load_state d = Ok (mkState (last_applied l) (membership l) v) /\
    (v = config_version l ->
     forall bs bs', concat bs = concat bs' -> fin_rel (run_batches leader bs) (run_batches d bs')).
Proof.
  intros Hs Hl Hf Hstep. unfold write_state_machine. rewrite Hl. cbn.
  destruct (write_tables leader) as [b| |] eqn:Hw; [|by rewrite write_tables_ok in Hw..]. cbn. exists b.
  destruct (read_written leader follower b Hs Hw) as (d & Hr & Hd). unfold install_state_machine. rewrite Hr. cbn.
  pose proof (load_raft _ _ Hf) as [rs Hrs]. assert (Hrd : rows_of d "raft_state" = Some rs).
  { rewrite Hd, decide_True by apply raft_state_in. done. }
  rewrite (open_ok d _ rs Hrd). cbn. unfold load_state in Hf. rewrite Hrs in Hf. cbn in Hf. rewrite Hf. cbn.
  set (d1 := <["raft_state" := Rows rs]> d).
  assert (Hctr : "counters" ∉ RAFT_TABLES) by (apply (bool_decide_unpack _); by vm_compute).
  assert (Hc : rows_of d1 "counters" = rows_of leader "counters").
  { unfold d1. rewrite rows_of_insert, decide_False by done. by rewrite Hd, decide_False. }
  assert (exists m, rows_of leader "counters" = Some m) as [m Hm].
  { unfold rows_of. destruct (leader !! "counters") as [tb|] eqn:E; [|by eexists].
    destruct (st_tables _ Hs _ _ E Hctr) as (m & -> & _). by eexists. }
  rewrite (open_ok d1 _ m) by congruence. cbn.
  unfold counted, counter_row, row in Hstep. rewrite Hm in Hstep. cbn in Hstep.
  rewrite Hstep. cbn. set (d2 := <["counters" := Rows m]> d1).
  assert (Ha : agree leader d2).
  { split.
    - intros t Ht. unfold d2, d1. rewrite !rows_of_insert. case_decide; [by subst|].
      rewrite decide_False by (intros ->; apply Ht, raft_state_in). by rewrite Hd, decide_False.
    - by eapply load_raft.
    - unfold d2, d1. rewrite !rows_of_insert, decide_False, decide_True by done. by eexists. }
  set (l' := mkState (last_applied l) (membership l) v). destruct (write_total d2 l') as [d3 E3]; [apply Ha|]. destruct (load_write _ _ _ E3) as [El3 A3].
  assert (agree leader d3) by (etrans; [done|]; apply A3, Ha). exists d3. split_and!; [done..|].
  intros -> bs bs' Hb. assert (l' = l) as El by (unfold l'; by destruct l). rewrite El in El3.
  etrans; [apply run_concat; rewrite Hl; by eexists|]. rewrite Hb.
  etrans; [apply (machine_rel _ d3); [done|congruence]|]. symmetry. apply run_concat. rewrite El3. by eexists.
Qed.

(** C36. A snapshot cut short anywhere is refused: the node keeps the state
    it had. *)
Theorem truncated_snapshot_refused leader b n (s : MetaRaftStorage) (meta : SnapshotMeta (M := M)) :
  storable leader -> write_tables leader = Ok b -> (n < length b)%nat ->
  (storage_install (take n b) meta s).1 = s /\ get_ok (storage_install (take n b) meta s).2 = None.
Proof.
  intros Hs Hw Hn. unfold storage_install.
  assert (Hno : forall d, install_state_machine (db s) (take n b) meta <> Ok d).
  { intros d. unfold install_state_machine. intros (d1 & Hr & _)%outcome_bind_ok.
    destruct (read_written leader (db s) b Hs Hw) as (d' & Hr' & _).
    rewrite <- (take_drop n b), (read_more _ _ _ (drop n b) Hr) in Hr'; [done|].
    intros E. apply (f_equal length) in E. rewrite length_drop in E. cbn in E. lia. }
  destruct (install_state_machine (db s) (take n b) meta) as [d| |]; [|done..]. by destruct (Hno d).
Qed.

End machine.

(** ** Examples *)
Definition text_test (s : string) : bool := bool_decide (is_Some (decode_utf8 (as_bytes s))) && (lenZ (as_bytes s) <=? SNAPSHOT_FIELD_LIMIT).
Definition table_test (kv : string * table) : bool :=
  bool_decide (kv.1 ∈ RAFT_TABLES) ||
  match kv.2 with
  | Rows m => text_test kv.1 && (Z.of_nat (size m) <? two64) &&
      forallb (fun r : string * bytes => text_test r.1 && (lenZ r.2 <=? SNAPSHOT_FIELD_LIMIT)) (map_to_list m)
  | OtherKind => false
  end.

Lemma text_test_ok s : text_test s = true -> text_ok s.
Proof. unfold text_test. intros [H1%bool_decide_eq_true H2%Z.leb_le]%andb_true_iff. by split. Qed.

Lemma storable_test d : (Z.of_nat (size d) <? two64) && forallb table_test (map_to_list d) = true -> storable d.
Proof.
  intros [H1%Z.ltb_lt H2]%andb_true_iff. rewrite forallb_forall in H2. split; [|done]. intros t tb Ht Hr.
  specialize (H2 (t, tb)). rewrite <- list_elem_of_In, elem_of_map_to_list in H2. specialize (H2 Ht). unfold table_test in H2.
  cbn in H2. rewrite bool_decide_false in H2 by done. destruct tb as [m|]; [|done]. exists m. split; [done|].
  apply andb_true_iff in H2 as [[H3%text_test_ok H4%Z.ltb_lt]%andb_true_iff H5]. split_and!; [done..|].
  intros k v Hk. rewrite forallb_forall in H5. specialize (H5 (k, v)). rewrite <- list_elem_of_In, elem_of_map_to_list in H5.
  apply H5, andb_true_iff in Hk as [H6%text_test_ok H7%Z.leb_le]. by split.
Qed.

(** The database once the two entries of the example are applied. *)
Definition after (es : list (Entry (M := ()))) : database :=
  match apply_to_state_machine (Per := plain_state) (Rec := plain_records) ∅ es with Ok (d, _, _) => d | _ => ∅ end.
Definition leader_db : database := after [e1; e2].
Definition leader_state : RaftPersistentState () := mkState (Some (mkLogId 1 1 2)) (None, tt) 1.

Lemma follower_catches_up_witness :
  exists b d, write_state_machine (Per := plain_state) leader_db = Ok (leader_state, b) /\
    install_state_machine (Per := plain_state) ∅ b (mkMeta (Some (mkLogId 1 1 2)) (None, tt)) = Ok d /\ agree leader_db d /\
    load_state (Per := plain_state) d = Ok leader_state /\
    forall bs bs', concat bs = concat bs' ->
      fin_rel (Per := plain_state) (run_batches (Per := plain_state) (Rec := plain_records) leader_db bs)
        (run_batches (Per := plain_state) (Rec := plain_records) d bs').
Proof.
  destruct (follower_catches_up (Per := plain_state) (Rec := plain_records) leader_db ∅ leader_state (default_state (Per := plain_state)) 1)
    as (b & d & H1 & H2 & H3 & H4 & H5).
  - apply storable_test. by vm_compute.
  - by vm_compute.
  - by vm_compute.
  - by vm_compute.
  - exists b, d. split; [exact H1|split; [exact H2|split; [exact H3|split; [exact H4|exact (H5 eq_refl)]]]].
Defined.

Lemma truncated_snapshot_refused_witness :
  exists b, write_tables leader_db = Ok b /\
    (storage_install (Per := plain_state) (take 40 b) (mkMeta None (None, tt)) (mkStorage ∅ ∅ false None)).1 = mkStorage ∅ ∅ false None.
Proof.
  destruct (write_tables leader_db) as [b| |] eqn:E; [|by vm_compute in E..]. exists b. split; [done|].
  apply (truncated_snapshot_refused (Per := plain_state) leader_db b 40 (mkStorage ∅ ∅ false None) (mkMeta None (None, tt)));
    [apply storable_test; by vm_compute|done|].
  assert (Hb : match write_tables leader_db with Ok x => (40 <? length x)%nat | _ => false end = true) by (by vm_compute).
  rewrite E in Hb. by apply Nat.ltb_lt in Hb.
Defined.

(** A leader that went back to the previous release and forward again: its
    own count (5) is ahead of the one in its tables (3). *)
Definition ahead : database :=
  {["counters" := Rows {["config_version" := be_bytes 3]};
    "raft_state" := Rows {["state" := @state_to_vec _ plain_state (mkState (Some (mkLogId 1 1 9)) (None, tt) 5)]}]}.

(** A leader whose own count of config entries is ahead of the one in its
    tables, as the code provides for, is not caught up with: the follower
    that installs its snapshot has the same rows, but numbers the next entry
    differently, so the two replicas diverge on it. *)
Theorem install_loses_version :
  let entry := entry_at 10 (SetConfig "a" [Byte.x01] "cli" 100) in
  let apply := apply_to_state_machine (Per := plain_state) (Rec := plain_records) in
  ('(state, snapshot) ← get_ok (write_state_machine (Per := plain_state) ahead);
   follower ← get_ok (install_state_machine (Per := plain_state) ∅ snapshot (mkMeta (last_applied state) (membership state)));
   on_leader ← get_ok (apply ahead [entry]);
   on_follower ← get_ok (apply follower [entry]);
   Some (on_leader.1.2, on_follower.1.2)) = Some ([ConfigSet 6], [ConfigSet 4]).
Proof. by vm_compute. Qed.

End MetaSnapshot.
