(* ===== verification/MetaNode.v ===== *)
(** * A meta node's log and tables across crashes

    The storage of [MetaState] beside its Raft log, as a step relation:
    entries are appended and applied without a flush, checkpoints make the
    tables durable, the log is purged, the process dies and rolls back to
    what was durable. What a crash takes back is always still in the log, and
    applying it again gives the tables of a node that never crashed
    ([node_recovers]). *)
From S2P Require Import Prelude Bytes Topology MetaState MetaStateSpec.
Import MetaState MetaStateSpec.

Module MetaNode.

Section node.
Context {M : Type} {Per : Persisted M} {Rec : Records}.
Abbreviation entry := (Entry (M := M)).

(** The index of the last entry applied to a database; 0 before the first. *)
Definition applied (d : database) : nat :=
  match load_state (Per := Per) d with
  | Ok s => match last_applied s with Some id => Z.to_nat (id_index id) | None => 0%nat end
  | _ => 0%nat
  end.

(** The log from its first entry on, the storage, how far it is purged. *)
Record node := mkNode { log : list entry; store : MetaRaftStorage; purged : nat }.

Inductive step : node -> node -> Prop :=
| Append l s p e : id_index (log_id e) = Z.of_nat (S (length l)) -> step (mkNode l s p) (mkNode (l ++ [e]) s p)
| Apply l s p n s' r : storage_apply (take n (drop (applied (db s)) l)) s = (s', Ok r) -> step (mkNode l s p) (mkNode l s' p)
| Checkpoint l s p : step (mkNode l s p) (mkNode l (checkpoint s).1 p)
| Vote l s p v s' : save_vote v s = Ok s' -> step (mkNode l s p) (mkNode l s' p)
(* [purge_logs_upto]: of entries that were applied, after a checkpoint. *)
| Purge l s p q : (q <= applied (db s))%nat -> step (mkNode l s p) (mkNode l (checkpoint s).1 (Nat.max p q))
| Crash l s p : step (mkNode l s p) (mkNode l (crash s) p).

Variable (d0 : database).
Hypothesis Hstart : is_Some (get_ok (load_state d0)).
Hypothesis Hzero : applied d0 = 0%nat.

Definition fresh : node := mkNode [] (mkStorage d0 d0 false None) 0.

Inductive reachable : node -> Prop :=
| Fresh : reachable fresh
| Then n n' : reachable n -> step n n' -> reachable n'.

(** The same tables and Raft state, or the same error. *)
Definition same_db (o o' : result) : Prop :=
  match o, o' with
  | Ok (d, _, _), Ok (d', _, _) => agree d d' /\ load_state d = load_state d'
  | Err e, Err e' => e = e'
  | Panic, Panic => True
  | _, _ => False
  end.

Lemma fin_same o o' : fin_rel o o' -> same_db o o'.
Proof. destruct o as [[[]]| |], o' as [[[]]| |]; cbn; try done. by intros (? & ? & _). Qed.

Lemma same_trans : Transitive same_db.
Proof.
  intros [[[]]| |] [[[]]| |] [[[]]| |]; cbn; try done; [|congruence]. intros [? ?] [? ?]. split; [by etrans|congruence].
Qed.

(** The database is what the entries make of the first one. *)
Definition replayed (d : database) (es : list entry) : Prop := same_db (Ok (d, [], [])) (apply_to_state_machine d0 es).

Lemma replayed_start : replayed d0 [].
Proof.
  unfold replayed. apply (fin_same _ _ (run_concat d0 [] Hstart)).
Qed.

Lemma replayed_more d es es' : replayed d es -> same_db (apply_to_state_machine d es') (apply_to_state_machine d0 (es ++ es')).
Proof.
  intros Hr. eapply same_trans; [|apply fin_same; symmetry; apply machine_app].
  unfold replayed in Hr. destruct (apply_to_state_machine d0 es) as [[[d1 rs] ev]| |]; [|done..].
  destruct Hr as [Ha Hl]. pose proof (machine_rel d d1 es' Ha Hl) as Hm. cbn.
  destruct (apply_to_state_machine d es') as [[[]]| |], (apply_to_state_machine d1 es') as [[[]]| |]; cbn in *; try done.
  by destruct Hm as (? & ? & _).
Qed.

(** The entry applied last. *)
Lemma apply_entries_last es : forall (t t' : txn (M := M)) rs, apply_entries t es = Ok (t', rs) ->
  last_applied (t_state t') = match last es with Some e => Some (log_id e) | None => last_applied (t_state t) end.
Proof.
  induction es as [|e es IH] using rev_ind; intros t t' rs; [by intros [= <- <-]|].
  rewrite apply_entries_app, last_snoc. intros ([t1 rs1] & H1 & ([t2 rs2] & H2 & [= <- <-])%outcome_bind_ok)%outcome_bind_ok.
  cbn in H2. apply outcome_bind_ok in H2 as ([t3 r] & H3 & [= <- <-]). unfold apply_entry in H3.
  apply outcome_bind_ok in H3 as ([t4 r4] & _ & [= <- <-]). done.
Qed.

Lemma applied_after d es d' rs ev : apply_to_state_machine d es = Ok (d', rs, ev) ->
  applied d' = match last es with Some e => Z.to_nat (id_index (log_id e)) | None => applied d end.
Proof.
  unfold apply_to_state_machine. intros (s & Hs & ([t rs1] & Ht & (d1 & Hw & [= <- <- <-])%outcome_bind_ok)%outcome_bind_ok)%outcome_bind_ok.
  apply apply_entries_last in Ht. cbn in Ht. unfold applied. destruct (load_write _ _ _ Hw) as [-> _]. rewrite Ht, Hs. by destruct (last es).
Qed.

(** ** The invariant *)
Definition indexed (l : list entry) : Prop := forall i e, l !! i = Some e -> id_index (log_id e) = Z.of_nat (S i).

Record ok_db (l : list entry) (d : database) : Prop := {
  ok_replayed : replayed d (take (applied d) l);
  ok_applied : (applied d <= length l)%nat;
}.

Record inv (n : node) : Prop := {
  inv_indexed : indexed (log n);
  inv_db : ok_db (log n) (db (store n));
  inv_durable : ok_db (log n) (durable (store n));
  inv_clean : dirty (store n) = false -> applied (durable (store n)) = applied (db (store n));
  inv_purged : (purged n <= applied (durable (store n)))%nat;
  inv_behind : (applied (durable (store n)) <= applied (db (store n)))%nat;
}.

Lemma ok_db_app l d e : ok_db l d -> ok_db (l ++ [e]) d.
Proof. intros [H1 H2]. split; [by rewrite take_app_le|rewrite length_app; lia]. Qed.

Lemma ok_db_apply l d n d' rs ev : indexed l -> ok_db l d ->
  apply_to_state_machine d (take n (drop (applied d) l)) = Ok (d', rs, ev) -> ok_db l d' /\ (applied d <= applied d')%nat.
Proof.
  intros Hi [H1 H2] Ha. set (es := take n (drop (applied d) l)) in *.
  assert (Hd' : applied d' = (applied d + length es)%nat).
  { rewrite (applied_after _ _ _ _ _ Ha). rewrite last_lookup. destruct (es !! pred (length es)) as [e|] eqn:El.
    - assert (Hlen : (0 < length es)%nat) by (destruct es; [done|cbn; lia]).
      unfold es in El. rewrite lookup_take_lt, lookup_drop in El by (unfold es in Hlen; rewrite length_take in Hlen |- *; lia).
      apply Hi in El. rewrite El. unfold es in *. rewrite length_take, length_drop in *. lia.
    - apply lookup_ge_None in El. destruct es; cbn in *; lia. }
  assert (Hle : (length es <= length l - applied d)%nat) by (unfold es; rewrite length_take, length_drop; lia).
  split; [|lia]. split; [|lia]. unfold replayed. pose proof (replayed_more d _ es H1) as Hm. rewrite Ha in Hm.
  rewrite Hd', <- (take_take_drop l (applied d) (length es)).
  replace (take (length es) (drop (applied d) l)) with es; [done|].
  unfold es. rewrite length_take, length_drop. destruct (Nat.min_spec n (length l - applied d)) as [[_ ->]|[? ->]]; [done|].
  by rewrite !take_ge by (rewrite length_drop; lia).
Qed.

(** A vote changes none of it. *)
Lemma vote_same d v m : rows_of d "raft_vote" = Some m ->
  applied (<["raft_vote" := Rows v]> (<["raft_vote" := Rows m]> d)) = applied d /\
  (is_Some (rows_of d "raft_state") -> agree (<["raft_vote" := Rows v]> (<["raft_vote" := Rows m]> d)) d) /\
  load_state (<["raft_vote" := Rows v]> (<["raft_vote" := Rows m]> d)) = load_state d.
Proof.
  intros Hm. assert (Hl : load_state (<["raft_vote" := Rows v]> (<["raft_vote" := Rows m]> d)) = load_state d).
  { unfold load_state. rewrite !rows_of_insert. by rewrite !decide_False. }
  split_and!; [unfold applied; by rewrite Hl| |done]. intros Hr.
  assert (Hin : "raft_vote" ∈ RAFT_TABLES) by (apply (bool_decide_unpack _); by vm_compute).
  split; [|by rewrite !rows_of_insert, !decide_False|done].
  intros t Ht. rewrite !rows_of_insert, !decide_False; [done|by intros ->..].
Qed.

Lemma ok_db_same l d d' : agree d' d -> load_state d' = load_state d -> ok_db l d -> ok_db l d'.
Proof.
  intros Ha Hl [H1 H2]. assert (E : applied d' = applied d) by (unfold applied; by rewrite Hl). split; rewrite E; [|done].
  unfold replayed in *. eapply same_trans; [|exact H1]. by split.
Qed.

Lemma ok_db_raft l d : ok_db l d -> is_Some (rows_of d "raft_state").
Proof. intros [H1 _]. unfold replayed in H1. destruct (apply_to_state_machine _ _) as [[[]]| |]; [apply H1|done..]. Qed.

Lemma step_inv_keeps n n' : inv n -> step n n' -> inv n'.
Proof.
  intros [I1 I2 I3 I4 I5 I6] Hs. inv Hs; cbn in *.
  - split; cbn; try done; [|by apply ok_db_app..]. intros i e' [Hl|[Hl He]]%lookup_app_Some; [by apply I1|].
    apply list_lookup_singleton_Some in He as [Hz <-]. rewrite H. lia.
  - unfold storage_apply in H. destruct (apply_to_state_machine _ _) as [[[d rs] ev]| |] eqn:E; [|done..].
    injection H as <- <-. destruct (ok_db_apply _ _ _ _ _ _ I1 I2 E) as [G1 G2]. split; cbn; try done. lia.
  - unfold checkpoint. destruct (dirty s) eqn:Ed; cbn; [|by split; cbn; rewrite ?Ed]. split; cbn; try done. lia.
  - unfold save_vote in H. apply outcome_bind_ok in H as ([d m] & Ho & [= <-]).
    unfold open_table in Ho. apply outcome_bind_ok in Ho as (m' & Hm & [= <- <-]). apply ok_or_ok in Hm.
    destruct (vote_same (db s) (<["vote" := v]> m') m' Hm) as (E1 & E2 & E3).
    pose proof (ok_db_same _ _ _ (E2 (ok_db_raft _ _ I2)) E3 I2) as G. split; cbn; try done; lia.
  - unfold checkpoint. destruct (dirty s) eqn:Ed; cbn; split; cbn; rewrite ?Ed; try done; try lia.
  - split; cbn; done.
Qed.

Lemma reachable_inv n : reachable n -> inv n.
Proof.
  induction 1 as [|n n' _ IH Hs]; [|by eapply step_inv_keeps]. pose proof replayed_start as Hr.
  assert (ok_db [] d0) by (split; rewrite Hzero; done). split; cbn; try done. rewrite Hzero. lia.
Qed.

(** C14. From a database with nothing applied, over appends, batches applied,
    checkpoints, votes, purges of applied entries and crashes, a node
    recovers from a crash at any point: of what it rolls back to, every later entry is still in the log, whatever was purged; and applying
    the rest of the log again gives the tables and Raft state of a node that
    applied the whole log once and never crashed, or fails as it does. *)
Theorem node_recovers n : reachable n ->
  (purged n <= applied (db (crash (store n))))%nat /\
  (applied (db (crash (store n))) <= length (log n))%nat /\
  same_db (apply_to_state_machine (db (crash (store n))) (drop (applied (db (crash (store n)))) (log n)))
    (apply_to_state_machine d0 (log n)).
Proof.
  intros [I1 I2 [H1 H2] I4 I5 I6]%reachable_inv. cbn. split_and!; [done..|].
  rewrite <- (take_drop (applied (durable (store n))) (log n)) at 2. by apply replayed_more.
Qed.

End node.

(** Two entries applied and made durable, one more applied, then a crash. *)
Definition e3 := entry_at 3 (DeleteConfig "a").

Definition step_applied (s : MetaRaftStorage) (es : list (Entry (M := ()))) : MetaRaftStorage :=
  (storage_apply (Per := plain_state) (Rec := plain_records) es s).1.

Definition s0 : MetaRaftStorage := mkStorage ∅ ∅ false None.
Definition s1 : MetaRaftStorage := (checkpoint (step_applied s0 [e1; e2])).1.
Definition s2 : MetaRaftStorage := step_applied s1 [e3].

Lemma node_recovers_witness :
  let n := mkNode (M := ()) [e1; e2; e3] s2 0 in
  applied (Per := plain_state) (db s2) = 3%nat /\ applied (Per := plain_state) (db (crash s2)) = 2%nat /\
  same_db (Per := plain_state) (apply_to_state_machine (Per := plain_state) (Rec := plain_records) (db (crash s2)) [e3])
    (apply_to_state_machine (Per := plain_state) (Rec := plain_records) ∅ [e1; e2; e3]).
Proof.
  intros n. split; [by vm_compute|]. split; [by vm_compute|].
  refine (proj2 (proj2 (node_recovers (Per := plain_state) (Rec := plain_records) ∅ _ _ n _))); [by eexists|done|].
  eapply Then; [eapply Then; [eapply Then; [eapply Then; [eapply Then; [eapply Then; [apply Fresh|]|]|]|]|]|].
  - by apply (Append [] s0 0 e1).
  - by apply (Append [e1] s0 0 e2).
  - by apply (Append [e1; e2] s0 0 e3).
  - eapply (Apply _ s0 0 2). by vm_compute.
  - apply Checkpoint.
  - eapply (Apply _ s1 0 1). by vm_compute.
Defined.

End MetaNode.
