(* ===== verification/PgMembers.v ===== *)
(** * Placement groups of meta

    [crates/meta/src/service/pgs.rs]: a pool's protection and placement rule,
    how many placement groups it gets, and how the leader keeps the acting
    sets usable: which member is stood in for, by which OSD, what the record
    of the change is, and the last check before it is committed. Records are
    the protobuf messages' fields the code reads; an [Instant] is a number of
    seconds; logging and metrics are left out. *)
From S2P Require Import Prelude Bytes F64 JumpHash Topology Crush Copyset CopysetPool ErasureBackend MetaState.
Import F64(f64) JumpHash(Xxh64, xxh64, pg_of_key) Topology Crush(UuidText, uuid_text) Copyset CopysetPool ErasureBackend.
Import MetaState(OsdNode, node_id, address, admin_state).

Module PgMembers.

(** ** Records *)
Inductive ErasureType := ErasureMds | ErasureLrc | ErasureReplication.

#[global] Instance ErasureType_eq_dec : EqDecision ErasureType.
Proof. solve_decision. Defined.

Record PoolConfig := mkPoolConfig {
  pool_name : string;
  pool_ec_type : Z;
  ec_k : Z;
  ec_m : Z;
  ec_local_parity : Z;
  ec_global_parity : Z;
  replication_count : Z;
  failure_domain_name : string;
  pg_count : Z;
  spread_domains : Z;
  pool_per_domain : Z;
  lrc_groups_per_domain : bool;
}.

Definition set_ec_m (m : Z) (p : PoolConfig) : PoolConfig :=
  mkPoolConfig (pool_name p) (pool_ec_type p) (ec_k p) m (ec_local_parity p) (ec_global_parity p) (replication_count p)
    (failure_domain_name p) (pg_count p) (spread_domains p) (pool_per_domain p) (lrc_groups_per_domain p).

Record PgFill := mkFill { fill_position : Z; fill_from : bytes; fill_epoch : Z }.

Record PlacementGroup := mkPg {
  pool : string;
  pg_id : Z;
  acting : list bytes;
  epoch : Z;
  updated_at : Z;
  up : list bytes;
  filling : list PgFill;
}.

#[global] Instance PgFill_eq_dec : EqDecision PgFill.
Proof. solve_decision. Defined.
#[global] Instance PlacementGroup_eq_dec : EqDecision PlacementGroup.
Proof. solve_decision. Defined.

(** ** Pools *)
Definition DEFAULT_PG_COUNT : Z := 256.
Definition MAX_PG_COUNT : Z := 4096.

(** [u64::checked_next_power_of_two]. *)
Definition next_power_of_two (n : Z) : option Z :=
  let p := if n <=? 1 then 1 else 2 ^ (Z.log2 (n - 1) + 1) in
  if p <? two64 then Some p else None.

Definition sized_pg_count (osds copies : nat) (per_osd : Z) : Z :=
  let members := Z.min u64_max (Z.of_nat osds * per_osd) in
  let pgs := div_ceil members (Z.of_nat (Nat.max copies 1)) in
  let n := match next_power_of_two pgs with
           | Some p => if p <=? u32_max then p else MAX_PG_COUNT
           | None => MAX_PG_COUNT
           end in
  Z.min MAX_PG_COUNT (Z.max DEFAULT_PG_COUNT n).

Definition fd_level (name : string) : option FailureDomain :=
  if String.eqb name "host" || String.eqb name "" then Some Host
  else if String.eqb name "node" || String.eqb name "osd" then Some Node
  else if String.eqb name "rack" then Some Rack
  else if String.eqb name "datacenter" then Some Datacenter
  else if String.eqb name "zone" then Some Zone
  else if String.eqb name "region" then Some Region
  else if String.eqb name "disk" then Some Disk
  else None.

(** The generated accessors: the value as an enum, and with its default. *)
Definition try_ec_type (n : Z) : option ErasureType :=
  if n =? 0 then Some ErasureMds else if n =? 1 then Some ErasureLrc
  else if n =? 2 then Some ErasureReplication else None.

Definition get_ec_type (p : PoolConfig) : ErasureType := default ErasureMds (try_ec_type (pool_ec_type p)).

(** [u32] addition, and a [u32] as a count. *)
Definition wadd32 (a b : Z) : Z := (a + b) mod 2 ^ 32.

Definition copy_count_of (p : PoolConfig) : nat :=
  match get_ec_type p with
  | ErasureMds => Z.to_nat (wadd32 (ec_k p) (ec_m p))
  | ErasureLrc => Z.to_nat (wadd32 (wadd32 (ec_k p) (ec_local_parity p)) (ec_global_parity p))
  | ErasureReplication => Z.to_nat (replication_count p)
  end.

Definition normalize_scheme (p : PoolConfig) : PoolConfig :=
  if pool_ec_type p =? 1 then set_ec_m (Z.min u32_max (ec_local_parity p + ec_global_parity p)) p else p.

Inductive SchemeError := SchemeRefused (f : SchemeFault) | UnknownType (n : Z).

Definition check_scheme (p : PoolConfig) : outcome SchemeError () :=
  match try_ec_type (pool_ec_type p) with
  | Some ErasureMds => map_err SchemeRefused (check_mds (Z.to_nat (ec_k p)) (Z.to_nat (ec_m p)))
  | Some ErasureLrc => map_err SchemeRefused
      (check_lrc (Z.to_nat (ec_k p)) (Z.to_nat (ec_local_parity p)) (Z.to_nat (ec_global_parity p)))
  | Some ErasureReplication => map_err SchemeRefused (check_replicas (Z.to_nat (replication_count p)))
  | None => Err (UnknownType (pool_ec_type p))
  end.

(** Meta's default protection. *)
Inductive EcConfig :=
| EcMds (k m : Z)
| EcLrc (k l g : Z)
| EcReplication (count : Z).

Definition pool_with_scheme (name : string) (ec : EcConfig) : PoolConfig :=
  let make ty k m l g n := mkPoolConfig name ty k m l g n "" 0 0 0 false in
  match ec with
  | EcMds k m => make 0 k m 0 0 0
  | EcLrc k l g => make 1 k (wadd32 l g) l g 0
  | EcReplication count => make 2 0 0 0 0 count
  end.

Inductive RuleError :=
| UnknownDomain (name : string)
| GroupsNeedLrc
| GroupsUneven (k l : nat)
| BadRule (e : CopysetError).

(** The local groups of an LRC stripe: data in groups of [k / l], then one
    local parity per group. *)
Definition local_groups (k l : nat) : list (list nat) :=
  (fun g => seq (g * (k / l)) (k / l) ++ [(k + g)%nat]) <$> seq 0 l.

Definition rule_of (level : FailureDomain) (copies : nat) (together : list (list nat)) (per spread : Z) : PlacementRule :=
  let per_domain := if per =? 0
    then match length <$> together with [] => 1%nat | lens => foldr Nat.max 0%nat lens end
    else Z.to_nat per in
  (* [usize] subtraction. *)
  let singles := Z.to_nat ((Z.of_nat copies - Z.of_nat (sum_list (length <$> together))) mod two64) in
  let domains := if spread =? 0 then (length together + div_ceil_nat singles per_domain)%nat else Z.to_nat spread in
  mkRule level copies domains per_domain together.

Definition placement_rule (p : PoolConfig) : outcome RuleError PlacementRule :=
  level ← ok_or (fd_level (failure_domain_name p)) (UnknownDomain (failure_domain_name p));
  let copies := copy_count_of p in
  together ← (if lrc_groups_per_domain p then
      if bool_decide (get_ec_type p <> ErasureLrc) then Err GroupsNeedLrc
      else
        let k := Z.to_nat (ec_k p) in
        let l := Z.to_nat (ec_local_parity p) in
        if (l =? 0)%nat || negb (k mod l =? 0)%nat then Err (GroupsUneven k l) else Ok (local_groups k l)
    else Ok []);
  let rule := rule_of level copies together (pool_per_domain p) (spread_domains p) in
  _ ← map_err BadRule (validate rule);
  Ok rule.

Definition max_len (l : list (list nat)) : nat := foldr Nat.max 0%nat (length <$> l).

Definition tolerates_domain_loss (p : PoolConfig) (r : PlacementRule) : bool :=
  let most_in_one := max_len (slots r) in
  match get_ec_type p with
  | ErasureReplication => (most_in_one <? Z.to_nat (replication_count p))%nat
  | ErasureLrc =>
      if bool_decide (together r <> [])
      then forallb (fun g => (length g - 1 <=? Z.to_nat (ec_global_parity p))%nat) (together r)
      else (most_in_one <=? Z.to_nat (ec_m p))%nat
  | ErasureMds => (most_in_one <=? Z.to_nat (ec_m p))%nat
  end.

(** ** Which group a key is in *)
Definition DEFAULT_POOL : string := "default".

(** What of the service's caches these read: each bucket's pool, the pools
    and the placement groups. *)
Record caches := mkCaches {
  buckets : gmap string string;
  pools : gmap string PoolConfig;
  placement_groups : gmap (string * Z) PlacementGroup;
}.

Definition bucket_pool_name (c : caches) (bucket : string) : string :=
  let named := default "" (buckets c !! bucket) in
  if String.eqb named "" then DEFAULT_POOL else named.

Definition key_pg `{Xxh64} (c : caches) (bucket key : string) : option PlacementGroup :=
  let name := bucket_pool_name c bucket in
  n ← pg_count <$> pools c !! name;
  if n =? 0 then None else placement_groups c !! (name, pg_of_key bucket key n).

Definition listing_pg `{Xxh64} (c : caches) (bucket key : string) : Z * string :=
  let name := bucket_pool_name c bucket in
  match pg_count <$> pools c !! name with
  | Some n => if 0 <? n then (pg_of_key bucket key n, name) else (0, "")
  | None => (0, "")
  end.

Definition key_copy_addrs `{Xxh64} (c : caches) (osds : list OsdNode) (bucket key : string) (except : bytes) :
    option (list string * nat) :=
  pg ← key_pg c bucket key;
  Some (filter (fun a => a <> "")
    (omap (fun id => address ∘ snd <$> list_find (fun n => node_id n = id) osds) (filter (fun id => id <> except) (acting pg))),
    length (acting pg)).

Definition holds_node (node : bytes) (pg : PlacementGroup) : bool :=
  bool_decide (node ∈ acting pg) || bool_decide (node ∈ up pg) || bool_decide (node ∈ (fill_from <$> filling pg)).

Definition pgs_holding (c : caches) (node : bytes) : nat :=
  size (filter (fun kv : (string * Z) * PlacementGroup => holds_node node kv.2 = true) (placement_groups c)).

(** ** Acting sets *)
Section members.
Context {Ord : HashOrder} {Ut : UuidText} {Xx : Xxh64}.

Definition widest_feasible_domain (t : ClusterTopology) (copies : nat) : option string :=
  let hosts : gset string := list_to_set ((fun n => host (failure_domain n)) <$> active_nodes t) in
  if (copies <=? size hosts)%nat then Some "host"
  else if (copies <=? length (active_nodes t))%nat then Some "node" else None.

(** What the decisions read: the registered OSDs, the topology, and the
    clock against which the leader's record of when each OSD was first seen
    down is held. *)
Record view := mkView {
  osd_nodes : list OsdNode;
  topology : ClusterTopology;
  now : Z;
}.

Abbreviation downs := (gmap bytes Z).

(** [down_since] with a grace; [None] stands for [Duration::MAX]. *)
Definition acting_usable (v : view) (id : bytes) (down_since : downs) (grace : option Z) : bool :=
  if negb (length id =? 16)%nat then false
  else
    existsb (fun n => bool_decide (node_id n = id) && bool_decide (admin_state n = In) && negb (String.eqb (address n) ""))
      (osd_nodes v) &&
    match down_since !! id with
    | None => true
    | Some since => match grace with Some g => Z.max 0 (now v - since) <? g | None => true end
    end.

Definition set_filling (f : list PgFill) (position : Z) (from : bytes) (epoch : Z) : list PgFill :=
  filter (fun x => fill_position x <> position) f ++ [mkFill position from epoch].

(** [node]: an id of 16 bytes looked up in the topology. *)
Definition node_of (v : view) (id : bytes) : option NodeInfo :=
  if (length id =? 16)%nat then get_node id (topology v) else None.

(** Where the members are, but for the one at [position]. *)
Definition others_at (v : view) (r : PlacementRule) (acting : list bytes) (position : nat) : list other :=
  omap (fun p : nat * bytes =>
      if decide (p.1 = position) then None
      else n ← node_of v p.2; Some (p.1, domain_name n (level r), unit_name n r))
    (imap pair acting).

Definition taken (acting up : list bytes) (position : nat) (id : bytes) : bool :=
  bool_decide (id ∈ acting) ||
  existsb (fun p : nat * bytes => negb (p.1 =? position)%nat && bool_decide (p.2 = id)) (imap pair up).

(** The key candidates are ordered by: a domain the group does not use yet
    first, then a hash of the group, the position and the OSD. *)
Definition spare_key (r : PlacementRule) (pg : PlacementGroup) (position : nat) (others : list other) (n : NodeInfo) : bool * Z :=
  let domain := domain_name n (level r) in
  let shared := existsb (fun o : other => String.eqb o.1.2 domain) others in
  let seed := as_bytes (pool pg) ++ to_le 4 (pg_id pg) ++ to_le 8 (Z.of_nat position) ++ id n in
  (shared, xxh64 seed 0).

Definition key_ltb (a b : bool * Z) : bool :=
  match a.1, b.1 with
  | false, true => true
  | true, false => false
  | _, _ => a.2 <? b.2
  end.

(** [Iterator::min_by]: the first of the smallest. *)
Definition min_by_key {A} (key : A -> bool * Z) (l : list A) : option A :=
  match l with
  | [] => None
  | x :: l => Some (foldl (fun best y => if key_ltb (key y) (key best) then y else best) x l)
  end.

Definition candidates (v : view) (r : PlacementRule) (acting up : list bytes) (position : nat)
    (down_since : downs) (grace : option Z) : list NodeInfo :=
  let others := others_at v r acting position in
  filter (fun n => admits r position (domain_name n (level r)) (unit_name n r) others = true)
    (filter (fun n => acting_usable v (id n) down_since grace = true)
       (filter (fun n => taken acting up position (id n) = false) (active_nodes (topology v)))).

Definition spare (v : view) (r : PlacementRule) (pg : PlacementGroup) (acting up : list bytes) (position : nat)
    (down_since : downs) (grace : option Z) : option NodeInfo :=
  min_by_key (spare_key r pg position (others_at v r acting position)) (candidates v r acting up position down_since grace).

(** The working copies of [stand_in]: acting, up, filling, whether any
    position changed. *)
Record draft := mkDraft { d_acting : list bytes; d_up : list bytes; d_filling : list PgFill; d_any : bool }.

(** One position of the loop. *)
Definition stand_in_at (v : view) (r : PlacementRule) (pg : PlacementGroup) (down_since : downs) (grace : option Z)
    (new_epoch : Z) (d : draft) (position : nat) : draft :=
  match d_acting d !! position with
  | None => d
  | Some member =>
      if acting_usable v member down_since grace then d
      else
        let gone := negb (acting_usable v member ∅ None) in
        match spare v r pg (d_acting d) (d_up d) position down_since grace with
        | None => d
        | Some n =>
            mkDraft (<[position := id n]> (d_acting d))
              (if gone && bool_decide (d_up d !! position = Some member) then <[position := id n]> (d_up d) else d_up d)
              (set_filling (d_filling d) (Z.of_nat position mod 2 ^ 32) member new_epoch)
              true
        end
  end.

Definition stand_in (v : view) (pg : PlacementGroup) (r : PlacementRule) (down_since : downs) (grace : option Z)
    (timestamp : Z) : option PlacementGroup :=
  let new_epoch := wadd64 (epoch pg) 1 in
  let d := foldl (stand_in_at v r pg down_since grace new_epoch) (mkDraft (acting pg) (up pg) (filling pg) false)
    (seq 0 (length (acting pg))) in
  if d_any d then Some (mkPg (pool pg) (pg_id pg) (d_acting d) new_epoch timestamp (d_up d) (d_filling d)) else None.

Definition gone_up_at (v : view) (acting : list bytes) (p : nat) (member : bytes) : bytes :=
  match acting !! p with
  | Some a => if bool_decide (member <> a) && negb (acting_usable v member ∅ None) then a else member
  | None => member
  end.

Definition without_gone_up (v : view) (pg : PlacementGroup) (timestamp : Z) : option PlacementGroup :=
  if negb (length (up pg) =? length (acting pg))%nat then None
  else
    let up' := imap (gone_up_at v (acting pg)) (up pg) in
    if bool_decide (up' <> up pg)
    then Some (mkPg (pool pg) (pg_id pg) (acting pg) (epoch pg) timestamp up' (filling pg)) else None.

(** ** A pass of the leader ([keep_acting_sets]) *)

(** When each OSD was first seen down. *)
Definition note_down (v : view) (down_since : downs) : downs :=
  foldl (fun ds n => if bool_decide (status n = Active) then delete (id n) ds
                     else match ds !! id n with Some _ => ds | None => <[id n := now v]> ds end)
    down_since (all_nodes (topology v)).

Definition all_usable (v : view) (pg : PlacementGroup) (down_since : downs) (grace : option Z) : bool :=
  forallb (fun id => acting_usable v id down_since grace) (acting pg).

(** What becomes of one group, and whether it is undersized. *)
Definition keep_pg (v : view) (r : PlacementRule) (down_since : downs) (grace : option Z) (timestamp : Z)
    (pg : PlacementGroup) : option PlacementGroup * bool :=
  let fixed := without_gone_up v pg timestamp in
  let base := default pg fixed in
  if all_usable v base down_since grace then (fixed, false)
  else match stand_in v base r down_since grace timestamp with
  | Some new => (Some new, negb (all_usable v new down_since grace))
  | None => (fixed, true)
  end.

(** The changes of a pass over the pools with their groups, and how many
    groups are undersized. *)
Definition keep_pool (v : view) (down_since : downs) (grace : option Z) (timestamp : Z)
    (acc : list (PlacementGroup * PlacementGroup) * Z) (p : PoolConfig * list PlacementGroup) :
    list (PlacementGroup * PlacementGroup) * Z :=
  if pg_count p.1 =? 0 then acc
  else match placement_rule p.1 with
  | Ok rule => foldl (fun a pg =>
      let '(new, undersized) := keep_pg v rule down_since grace timestamp pg in
      (a.1 ++ match new with Some n => [(pg, n)] | None => [] end, if undersized : bool then a.2 + 1 else a.2)) acc p.2
  | _ => acc
  end.

Definition keep_acting_sets (v : view) (pools : list (PoolConfig * list PlacementGroup)) (down_since : downs)
    (grace : option Z) (timestamp : Z) : downs * (list (PlacementGroup * PlacementGroup) * Z) :=
  let down_since := note_down v down_since in
  (down_since, foldl (keep_pool v down_since grace timestamp) ([], 0) pools).

End members.

(** ** The last check before a commit *)
Definition count_of (set : list bytes) (id : bytes) : nat := length (filter (fun m => m = id) set).

Definition adds_shared_member (old new : list bytes) : bool :=
  existsb (fun id => (1 <? count_of new id)%nat && (count_of old id <? count_of new id)%nat) new.

End PgMembers.
