(* ===== verification/PgMembersSpec.v ===== *)
(** * Stand-ins keep the rule

    Theorems on the acting sets of [PgMembers]: what a pass may change of a
    placement group, that the members stay apart and within the pool's rule
    ([stand_in_safe]), and that a position is left only when no OSD can take
    it ([stand_in_stuck]). *)
From S2P Require Import Prelude Bytes F64 JumpHash Topology TopologySpec Crush Copyset CopysetSpec CopysetPool.
From S2P Require Import ErasureBackend MetaState PgMembers.
Import F64(f64) JumpHash(Xxh64, xxh64, sum_hash) Topology Crush(UuidText, uuid_text) Copyset CopysetSpec CopysetPool PgMembers.

Module PgMembersSpec.

(** ** Lists *)
Lemma imap_pair_split {A} (l1 l2 : list A) x :
  imap pair (l1 ++ x :: l2) = imap pair l1 ++ (length l1, x) :: imap (fun i => pair (length l1 + S i)%nat) l2.
Proof.
  rewrite imap_app. cbn. rewrite Nat.add_0_r. done.
Qed.

Lemma omap_ext_in {A B} (f g : A -> option B) (l : list A) : (forall x, x ∈ l -> f x = g x) -> omap f l = omap g l.
Proof. intros Hfg. apply list_omap_ext, Forall_Forall2_diag, Forall_forall. exact Hfg. Qed.

Section members.
Context {Ord : HashOrder} {Ut : UuidText} {Xx : Xxh64}.
Variable (v : view) (r : PlacementRule).
Hypothesis (Hvalid : validate r = Ok ()) (Hids : NoDup (id <$> all_nodes (topology v))).

(** Where the members the topology knows are. *)
Definition place (p : nat * bytes) : option other :=
  n ← node_of v p.2; Some (p.1, domain_name n (level r), unit_name n r).

Definition located (acting : list bytes) : list other := omap place (imap pair acting).

(** No OSD at two positions; the members known to the topology keep the
    rule. *)
Record members_apart (acting : list bytes) : Prop := {
  ma_acting : NoDup acting;
  ma_keeps : keeps r (located acting);
}.

(** Nor at two once the group is where [up] says, or on its way there. *)
Record up_apart (acting up : list bytes) : Prop := {
  ua_up : NoDup up;
  ua_cross : forall p q id, acting !! p = Some id -> up !! q = Some id -> p = q;
}.

Lemma others_at_split l1 x l2 :
  others_at v r (l1 ++ x :: l2) (length l1) =
  omap place (imap pair l1) ++ omap place (imap (fun i => pair (length l1 + S i)%nat) l2).
Proof.
  unfold others_at. rewrite imap_pair_split, omap_app. cbn [omap list_omap]. cbn. rewrite decide_True by done.
  f_equal; apply omap_ext_in; intros [i y] (j & z & [= -> ->] & Hj)%elem_of_lookup_imap; cbn; rewrite decide_False; try done.
  - apply lookup_lt_Some in Hj. lia.
  - lia.
Qed.

Lemma located_split l1 x l2 :
  located (l1 ++ x :: l2) ≡ₚ option_list (place (length l1, x)) ++ others_at v r (l1 ++ x :: l2) (length l1).
Proof.
  rewrite others_at_split. unfold located. rewrite imap_pair_split, omap_app. cbn.
  destruct (place (length l1, x)); cbn; [by rewrite Permutation_middle|done].
Qed.

Lemma others_at_fresh acting p : p ∉ (pos_of <$> others_at v r acting p).
Proof.
  intros (o & -> & Ho)%list_elem_of_fmap. unfold others_at in Ho.
  apply list_elem_of_omap in Ho as ([i y] & _ & Hf). cbn in Hf. case_decide; [done|].
  destruct (node_of v y); [|done]. injection Hf as <-. done.
Qed.

Lemma node_known n : n ∈ all_nodes (topology v) -> length (id n) = 16%nat -> node_of v (id n) = Some n.
Proof.
  intros Hn Hl. unfold node_of. rewrite Hl. cbn. unfold get_node.
  apply list_elem_of_lookup in Hn as [i Hi]. rewrite fmap_Some. exists (i, n). split; [|done].
  apply list_find_Some. split_and!; [done..|]. intros j m Hj Hlt Heq.
  assert (j = i); [|lia].
  eapply NoDup_lookup; [exact Hids| |]; rewrite list_lookup_fmap; [rewrite Hj|rewrite Hi]; cbn; by f_equal.
Qed.

(** A member put where the rule admits it. *)
Lemma keeps_put acting p n : (p < length acting)%nat -> n ∈ all_nodes (topology v) -> length (id n) = 16%nat ->
  keeps r (located acting) ->
  admits r p (domain_name n (level r)) (unit_name n r) (others_at v r acting p) = true ->
  keeps r (located (<[p := id n]> acting)).
Proof.
  intros Hp Hn Hl Hk Hadm. destruct (lookup_lt_is_Some_2 acting p Hp) as [x Hx].
  destruct (list_elem_of_split_length _ _ _ Hx) as (l1 & l2 & -> & ->).
  assert (Ei : <[length l1 := id n]> (l1 ++ x :: l2) = l1 ++ id n :: l2).
  { by rewrite insert_app_r_alt, Nat.sub_diag. }
  rewrite Ei.
  assert (Eo : others_at v r (l1 ++ id n :: l2) (length l1) = others_at v r (l1 ++ x :: l2) (length l1)).
  { by rewrite !others_at_split. }
  apply (keeps_perm _ _ _ (symmetry (located_split l1 (id n) l2))).
  enough (keeps r (option_list (place (length l1, id n)) ++ others_at v r (l1 ++ x :: l2) (length l1))) as H
    by (rewrite <- Eo in H; exact H).
  unfold place. cbn. rewrite node_known by done. cbn.
  apply admits_keeps; [apply others_at_fresh|by apply validate_valid| |done].
  eapply keeps_sublist; [|eapply keeps_perm; [apply located_split|exact Hk]]. by apply sublist_inserts_l.
Qed.

(** ** The choice *)
Lemma min_by_key_elem {A} (key : A -> bool * Z) l x : min_by_key key l = Some x -> x ∈ l.
Proof.
  destruct l as [|y l]; [done|]. cbn. intros [= <-].
  revert y. induction l as [|z l IH]; intros y; cbn; [by left|].
  destruct (key_ltb (key z) (key y)).
  - right. apply IH.
  - destruct (proj1 (elem_of_cons _ _ _) (IH y)) as [-> | H]; [by left|by right; right].
Qed.

Lemma min_by_key_none {A} (key : A -> bool * Z) l : min_by_key key l = None <-> l = [].
Proof. by destruct l. Qed.

Section pass.
Variable (ds : gmap bytes Z) (grace : option Z) (pg : PlacementGroup).

Abbreviation usable id := (acting_usable v id ds grace).

Lemma usable_length id : usable id = true -> length id = 16%nat.
Proof. unfold acting_usable. destruct (Nat.eqb_spec (length id) 16); [done|]. done. Qed.

(** What may take the position. *)
Record fit (acting up : list bytes) (p : nat) (n : NodeInfo) : Prop := {
  fit_active : n ∈ active_nodes (topology v);
  fit_usable : usable (id n) = true;
  fit_acting : id n ∉ acting;
  fit_up : forall q, up !! q = Some (id n) -> q = p;
  fit_admits : admits r p (domain_name n (level r)) (unit_name n r) (others_at v r acting p) = true;
}.

Lemma taken_false acting up p i : taken acting up p i = false <-> (i ∉ acting) /\ forall q, up !! q = Some i -> q = p.
Proof.
  unfold taken. rewrite orb_false_iff, bool_decide_eq_false, <- not_true_iff_false, existsb_exists. split.
  - intros [Ha Hu]. split; [done|]. intros q Hq. destruct (decide (q = p)) as [->|Hne]; [done|].
    exfalso. apply Hu. exists (q, i). split.
    + apply list_elem_of_In, elem_of_lookup_imap. eauto.
    + cbn. apply andb_true_iff. split; [by apply negb_true_iff, Nat.eqb_neq|by apply bool_decide_eq_true].
  - intros [Ha Hu]. split; [done|]. intros ([q y] & Hin & Hb). cbn in Hb.
    apply andb_true_iff in Hb as [Hq%negb_true_iff%Nat.eqb_neq ->%bool_decide_eq_true].
    apply list_elem_of_In, elem_of_lookup_imap in Hin as (j & z & [= -> ->] & Hj). naive_solver.
Qed.

Lemma candidates_fit acting up p n : n ∈ candidates v r acting up p ds grace <-> fit acting up p n.
Proof.
  unfold candidates. rewrite !list_elem_of_filter, taken_false. split; [|intros []; naive_solver].
  intros (? & ? & (? & ?) & ?). by split.
Qed.

(** ** The loop *)
Abbreviation step := (stand_in_at v r pg ds grace (wadd64 (epoch pg) 1)).

Definition fills (p : nat) (f : list PgFill) : list PgFill := filter (fun x => fill_position x = Z.of_nat p) f.

(** Position [p] after the loop, against before. *)
Definition kept_or_stood (p : nat) (m : bytes) (d : draft) : Prop :=
  (d_acting d !! p = Some m /\ fills p (d_filling d) = fills p (filling pg) /\ d_up d !! p = up pg !! p) \/
  (usable m = false /\ exists n, n ∈ active_nodes (topology v) /\ usable (id n) = true /\ id n <> m /\
    d_acting d !! p = Some (id n) /\ fills p (d_filling d) = [mkFill (Z.of_nat p) m (wadd64 (epoch pg) 1)] /\
    d_up d !! p = if negb (acting_usable v m ∅ None) && bool_decide (up pg !! p = Some m)
                  then Some (id n) else up pg !! p).

Lemma kept_or_stood_ext p m d d' : d_acting d' !! p = d_acting d !! p ->
  fills p (d_filling d') = fills p (d_filling d) -> d_up d' !! p = d_up d !! p ->
  kept_or_stood p m d -> kept_or_stood p m d'.
Proof.
  unfold kept_or_stood. intros Ha Hf Hu [(? & ? & ?)|(? & n & ? & ? & ? & ? & ? & ?)]; [left|right; split; [done|]; exists n];
    split_and!; (done || (etrans; eassumption)).
Qed.

Record loop_inv (i : nat) (d : draft) : Prop := {
  li_length : length (d_acting d) = length (acting pg);
  li_apart : members_apart (d_acting d);
  li_up : up_apart (acting pg) (up pg) -> up_apart (d_acting d) (d_up d);
  li_rest : forall p m, (i <= p)%nat -> acting pg !! p = Some m ->
    d_acting d !! p = Some m /\ fills p (d_filling d) = fills p (filling pg) /\ d_up d !! p = up pg !! p;
  li_done : forall p m, acting pg !! p = Some m -> kept_or_stood p m d;
  li_any : d_any d = bool_decide (d_acting d <> acting pg);
}.

Lemma fills_set p q m e f : Z.of_nat p < 2 ^ 32 ->
  fills q (set_filling f (Z.of_nat p mod 2 ^ 32) m e) = if decide (q = p) then [mkFill (Z.of_nat p) m e] else fills q f.
Proof.
  intros Hp. rewrite Z.mod_small by lia. unfold fills, set_filling. rewrite filter_app, list_filter_filter. 
  case_decide as Hq.
  - subst q. rewrite filter_cons_True by done. rewrite filter_none; [done|].
    apply Forall_forall. intros x _ [H1 H2]. by apply H2.
  - rewrite filter_cons_False by (cbn; lia). rewrite filter_nil, app_nil_r. apply list_filter_iff. intros x. lia.
Qed.

Lemma NoDup_put (l : list bytes) p x : NoDup l -> (forall q, l !! q = Some x -> q = p) -> NoDup (<[p := x]> l).
Proof.
  intros Hl Hx. destruct (decide (p < length l)%nat) as [Hp|Hp]; [|by rewrite list_insert_ge by lia].
  apply NoDup_alt. intros i j y. destruct (decide (i = p)) as [->|Hi], (decide (j = p)) as [->|Hj]; try done;
    rewrite ?list_lookup_insert_eq, ?list_lookup_insert_ne by done.
  - intros [= <-] Hy. symmetry. by apply Hx.
  - intros Hy [= <-]. by apply Hx.
  - by apply NoDup_lookup.
Qed.

(** A stand-in leaves the members apart. *)
Lemma apart_put acting up p m n : members_apart acting -> acting !! p = Some m -> fit acting up p n ->
  members_apart (<[p := id n]> acting).
Proof.
  intros [H1 H2] Hm Hfit. pose proof (lookup_lt_Some _ _ _ Hm) as Hp. split.
  - apply NoDup_put; [done|]. intros q Hq. destruct (fit_acting _ _ _ _ Hfit). by eapply list_elem_of_lookup_2.
  - apply keeps_put; [done| | |done|apply Hfit].
    + pose proof (fit_active _ _ _ _ Hfit) as Ha. unfold active_nodes in Ha. by apply list_elem_of_filter in Ha as [_ ?].
    + apply usable_length, Hfit.
Qed.

Lemma up_apart_put acting up p m n : up_apart acting up -> acting !! p = Some m -> fit acting up p n ->
  forall up', up' = up \/ up' = <[p := id n]> up -> up_apart (<[p := id n]> acting) up'.
Proof.
  intros [H2 H3] Hm Hfit up' Hup. pose proof (lookup_lt_Some _ _ _ Hm) as Hp.
  pose proof (fit_acting _ _ _ _ Hfit) as Hna. pose proof (fit_up _ _ _ _ Hfit) as Hnu. split.
  - destruct Hup as [-> | ->]; [done|]. by apply NoDup_put.
  - intros i q x. destruct (decide (i = p)) as [->|Hi].
    + rewrite list_lookup_insert_eq by done. intros [= <-]. destruct Hup as [-> | ->]; [intros Hq; symmetry; by apply Hnu|].
      destruct (decide (q = p)) as [->|Hq]; [done|]. rewrite list_lookup_insert_ne by done. intros Hx. symmetry. by apply Hnu.
    + rewrite list_lookup_insert_ne by done. intros Hx. destruct Hup as [-> | ->]; [by apply H3|].
      destruct (decide (q = p)) as [->|Hq]; [|rewrite list_lookup_insert_ne by done; by apply H3].
      destruct (decide (p < length up)%nat) as [Hl|Hl]; [|rewrite list_insert_ge by exact (proj1 (Nat.nlt_ge _ _) Hl); by apply H3].
      rewrite list_lookup_insert_eq by done. intros [= <-]. destruct Hna. by eapply list_elem_of_lookup_2.
Qed.

Lemma step_cases d p m : d_acting d !! p = Some m ->
  (step d p = d /\ (usable m = true \/ forall n, ~ fit (d_acting d) (d_up d) p n)) \/
  (usable m = false /\ exists n, fit (d_acting d) (d_up d) p n /\
    step d p = mkDraft (<[p := id n]> (d_acting d))
      (if negb (acting_usable v m ∅ None) && bool_decide (d_up d !! p = Some m) then <[p := id n]> (d_up d) else d_up d)
      (set_filling (d_filling d) (Z.of_nat p mod 2 ^ 32) m (wadd64 (epoch pg) 1)) true).
Proof.
  intros Hm. unfold stand_in_at. rewrite Hm. destruct (usable m) eqn:Hu; [by auto|].
  unfold spare. destruct (min_by_key _ _) as [n|] eqn:En.
  - right. split; [done|]. exists n. split; [|done]. by apply min_by_key_elem, candidates_fit in En.
  - left. split; [done|]. right. intros n Hn%candidates_fit. apply min_by_key_none in En. rewrite En in Hn.
    by apply not_elem_of_nil in Hn.
Qed.

Lemma step_inv i d : (i < length (acting pg))%nat -> Z.of_nat (length (acting pg)) <= 2 ^ 32 ->
  loop_inv i d -> loop_inv (S i) (step d i).
Proof.
  intros Hi Hlen [L A U R D Y]. destruct (lookup_lt_is_Some_2 _ _ Hi) as [m Hm].
  destruct (R i m (le_n i) Hm) as (Ha & Hf & Hup). pose proof (lookup_lt_Some _ _ _ Ha) as Hia.
  destruct (step_cases d i m Ha) as [[-> _]|(Hu & n & Hn & ->)].
  { split; try done. intros p m' Hp. apply R. lia. }
  assert (Hne : id n <> m).
  { intros E. apply (fit_acting _ _ _ _ Hn). rewrite E. by eapply list_elem_of_lookup_2. }
  assert (Hupi : forall q, q <> i -> (if negb (acting_usable v m ∅ None) && bool_decide (d_up d !! i = Some m)
      then <[i := id n]> (d_up d) else d_up d) !! q = d_up d !! q).
  { intros q Hq. case_match; [|done]. by rewrite list_lookup_insert_ne. }
  split; cbn [d_acting d_up d_filling d_any].
  - by rewrite length_insert.
  - by eapply apart_put.
  - intros H. eapply up_apart_put; [by apply U|done..|]. case_match; auto.
  - intros p m' Hp Hm'. rewrite list_lookup_insert_ne by lia. 
    rewrite fills_set by lia.
    rewrite decide_False, Hupi by lia. apply R; [lia|done].
  - intros p m' Hm'. destruct (decide (p = i)) as [->|Hp].
    + replace m' with m in * by congruence. right. cbn [d_acting d_up d_filling].
      rewrite fills_set, decide_True by (done || lia). split; [done|]. exists n. rewrite list_lookup_insert_eq by exact Hia.
      split_and!; try done; [apply Hn..|]. rewrite <- Hup.
      destruct (negb _); [|done]. cbn [andb]. case_bool_decide as Hb; [|done].
      apply list_lookup_insert_eq. by eapply lookup_lt_Some.
    + apply (kept_or_stood_ext p m' d); [| | |by apply D]; cbn [d_acting d_up d_filling].
      * by rewrite list_lookup_insert_ne.
      * rewrite fills_set by lia. by rewrite decide_False.
      * by apply Hupi.
  - symmetry. apply bool_decide_eq_true. intros E. rewrite <- E, list_lookup_insert_eq in Hm by exact Hia. naive_solver.
Qed.

Definition start : draft := mkDraft (acting pg) (up pg) (filling pg) false.

Lemma loop_from n d i : (i + n <= length (acting pg))%nat -> Z.of_nat (length (acting pg)) <= 2 ^ 32 ->
  loop_inv i d -> loop_inv (i + n) (foldl step d (seq i n)).
Proof.
  revert d i. induction n as [|n IH]; intros d i Hn Hl Hd; cbn [seq foldl]; [by rewrite Nat.add_0_r|].
  rewrite Nat.add_succ_r, <- Nat.add_succ_l. apply IH; [lia|done|]. apply step_inv; [lia|done..].
Qed.

Lemma loop_start : members_apart (acting pg) -> loop_inv 0 start.
Proof.
  intros Ha. split; cbn; try done.
  - intros p m Hp. left. by split_and!.
  - symmetry. apply bool_decide_eq_false. naive_solver.
Qed.

Lemma loop_all : members_apart (acting pg) -> Z.of_nat (length (acting pg)) <= 2 ^ 32 ->
  loop_inv (length (acting pg)) (foldl step start (seq 0 (length (acting pg)))).
Proof. intros Ha Hl. apply (loop_from (length (acting pg)) start 0); [done|done|]. by apply loop_start. Qed.

Lemma step_any d p : d_any d = true -> d_any (step d p) = true.
Proof. intros Hd. unfold stand_in_at. by repeat case_match. Qed.

(** As long as nothing can be done, nothing is. *)
Lemma loop_stuck ps : d_any (foldl step start ps) = false ->
  foldl step start ps = start /\
  forall p m, p ∈ ps -> acting pg !! p = Some m -> usable m = true \/ forall n, ~ fit (acting pg) (up pg) p n.
Proof.
  induction ps as [|p ps IH] using rev_ind; [intros _; split; [done|]; intros ? ? []%elem_of_nil|].
  rewrite foldl_snoc. intros Hany.
  destruct (d_any (foldl step start ps)) eqn:Ed.
  { by rewrite step_any in Hany. }
  destruct (IH eq_refl) as [E Hps]. rewrite E in *.
  assert (Hs : step start p = start /\ forall m, acting pg !! p = Some m -> usable m = true \/ forall n, ~ fit (acting pg) (up pg) p n).
  { destruct (acting pg !! p) as [m|] eqn:Em.
    - destruct (step_cases start p m Em) as [[-> Hc]|(_ & n & _ & Es)]; [naive_solver|]. by rewrite Es in Hany.
    - split; [|done]. unfold stand_in_at. cbn. by rewrite Em. }
  destruct Hs as [Hs Hp]. split; [done|]. intros q m [Hq| ->%list_elem_of_singleton]%elem_of_app; eauto.
Qed.

(** C31. A group is left alone only when it must be: [stand_in] gives nothing
    exactly when every position has a usable member or no OSD fits it, where
    an OSD fits if it is active and usable, holds no position of the group
    (nor another one of its up set), and the rule admits it. *)
Theorem stand_in_stuck timestamp : stand_in v pg r ds grace timestamp = None <->
  forall p m, acting pg !! p = Some m -> usable m = true \/ forall n, ~ fit (acting pg) (up pg) p n.
Proof.
  unfold stand_in. fold start. split.
  - destruct (d_any _) eqn:Ed; [done|]. intros _ p m Hm. apply loop_stuck in Ed as [_ Hps].
    apply (Hps p m); [|done]. apply elem_of_seq. apply lookup_lt_Some in Hm. lia.
  - intros Hall. assert (Hs : forall ps, foldl step start ps = start).
    { induction ps as [|p ps IH] using rev_ind; [done|]. rewrite foldl_snoc, IH.
      destruct (acting pg !! p) as [m|] eqn:Em.
      - destruct (step_cases start p m Em) as [[-> _]|(Hu & n & Hn & _)]; [done|].
        destruct (Hall p m Em) as [?|Hno]; [congruence|]. by destruct (Hno n).
      - unfold stand_in_at. cbn. by rewrite Em. }
    by rewrite Hs.
Qed.

End pass.
End members.

(** C4. A group that gets stand-ins stays sound. In a topology that has each
    OSD once (one that moved to another place is in it twice, and its old
    place may be the one looked up), under a rule that validates, and for at
    most 2^32 positions: if no OSD is at two of its positions and its known
    members keep the pool's rule, the same holds afterwards; and if no OSD is
    at two positions of the set recovery moves it to, or across the two, none
    is afterwards. Its epoch is the next one and its acting set has changed.
    Each position either keeps its member and its fills, or had a member that
    can't take writes and now has another, active and usable, recorded as
    filled from the old member at the new epoch; the up set follows exactly
    where it named a member gone for good. *)
Theorem stand_in_safe {Ord : HashOrder} {Ut : UuidText} {Xx : Xxh64} v r ds grace pg new timestamp :
  NoDup (id <$> all_nodes (topology v)) -> validate r = Ok () -> Z.of_nat (length (acting pg)) <= 2 ^ 32 ->
  members_apart v r (acting pg) -> stand_in v pg r ds grace timestamp = Some new ->
  members_apart v r (acting new) /\ (up_apart (acting pg) (up pg) -> up_apart (acting new) (up new)) /\
  pool new = pool pg /\ pg_id new = pg_id pg /\
  epoch new = wadd64 (epoch pg) 1 /\ length (acting new) = length (acting pg) /\ acting new <> acting pg /\
  forall p m, acting pg !! p = Some m ->
    kept_or_stood v ds grace pg p m (mkDraft (acting new) (up new) (filling new) true).
Proof.
  intros Hids Hvalid Hl Ha. unfold stand_in. fold (start pg).
  destruct (loop_all v r Hvalid Hids ds grace pg Ha Hl) as [L A U _ D Y].
  destruct (foldl _ (start pg) _) as [a u f []]; cbn in *; [|done]. intros [= <-]. cbn.
  symmetry in Y. apply bool_decide_eq_true in Y. by split_and!.
Qed.

(** ** An example: three copies over hosts, the second OSD set out *)
Definition osd_id (b : byte) : bytes := replicate 16 b.

Definition host_node (b : byte) (h : string) : NodeInfo :=
  mkNode (osd_id b) "osd" "10.0.0.1:9200" (new_full "r" "z" "dc" "rack" h) Active [] (F64.of_Z 1) 0.

Definition osd_row (b : byte) (s : OsdAdminState) : MetaState.OsdNode :=
  MetaState.mkOsd (osd_id b) "10.0.0.1:9200" [] None [] s "".

Definition four_hosts : view :=
  mkView [osd_row Byte.x01 In; osd_row Byte.x02 Out; osd_row Byte.x03 In; osd_row Byte.x04 In]
    (foldr upsert_node new [host_node Byte.x01 "h1"; host_node Byte.x02 "h2"; host_node Byte.x03 "h3"; host_node Byte.x04 "h4"])
    1000.

Definition three_members : list bytes := [osd_id Byte.x01; osd_id Byte.x02; osd_id Byte.x03].
Definition pg7 : PlacementGroup := mkPg "default" 7 three_members 4 900 three_members [].
Definition pg7_new : PlacementGroup :=
  let m := [osd_id Byte.x01; osd_id Byte.x04; osd_id Byte.x03] in
  mkPg "default" 7 m 5 1000 m [mkFill 1 (osd_id Byte.x02) 5].
Definition by_host : PlacementRule := spread Host 3.
Definition plain_text : UuidText := of_bytes.

Definition example_stand_in : option PlacementGroup :=
  @stand_in entry_order plain_text sum_hash four_hosts pg7 by_host ∅ (Some 120) 1000.

Lemma stand_in_safe_witness : example_stand_in = Some pg7_new /\
  @members_apart entry_order plain_text four_hosts by_host (acting pg7_new).
Proof.
  assert (E : example_stand_in = Some pg7_new) by (by vm_compute). split; [exact E|].
  refine (proj1 (@stand_in_safe entry_order plain_text sum_hash four_hosts by_host ∅ (Some 120) pg7 pg7_new 1000 _ _ _ _ E)).
  - apply (bool_decide_unpack _). by vm_compute.
  - by vm_compute.
  - by vm_compute.
  - split; [by apply (bool_decide_unpack _); vm_compute|]. apply admitted_keeps; by vm_compute.
Defined.

End PgMembersSpec.
