(* ===== verification/PgCommit.v ===== *)
(** * Committing placement groups

    [commit_pgs] of [crates/meta/src/service/pgs.rs] and the keys of
    [crates/meta-store/src/store.rs], over the state machine of [MetaState]:
    whichever leaders commit whichever changes from views however old, a
    group is only ever what a chain of changes made of it, each kept apart
    from the others by the compare-and-set ([run_goes]). What a pass of
    [PgMembers] proposes raises the epoch if it changes the acting set
    ([pass_goes_forward]). *)
From S2P Require Import Prelude Bytes F64 JumpHash Topology Crush Copyset CopysetSpec CopysetPool MetaState MetaStateSpec PgMembers PgMembersSpec.
Import JumpHash(Xxh64) Topology(HashOrder) Crush(UuidText) Copyset(PlacementRule) MetaState MetaStateSpec.
Import PgMembers(PlacementGroup, mkPg, PgFill, mkFill, pool, pg_id, acting, epoch, updated_at, up, filling,
  adds_shared_member, count_of, keep_pg, view, stand_in, without_gone_up).

Module PgCommit.

(** [{pg_id:010}]: ten digits, as a [u32] has at most. *)
Fixpoint digits (k : nat) (n : Z) : list ascii :=
  match k with O => [] | S k => digits k (n / 10) ++ [ascii_of_N (Z.to_N (48 + n mod 10))] end.

Definition pg_key (pool : string) (pg_id : Z) : string :=
  String.string_of_list_ascii (String.list_ascii_of_string pool ++ ["000"%char] ++ digits 10 pg_id).

(** The protobuf bytes of a group. *)
Class PgBytes := {
  pg_encode : PlacementGroup -> bytes;
  pg_decode : bytes -> option PlacementGroup;
  pg_roundtrip : forall pg, pg_decode (pg_encode pg) = Some pg;
}.

Section commit.
Context {M : Type} {Per : Persisted M} {Rec : Records} {Pb : PgBytes}.

Definition pg_op (c : PlacementGroup * PlacementGroup) : CasOp :=
  mkCas PlacementGroups (pg_key (pool c.2) (pg_id c.2)) (Some (pg_encode c.1)) (Some (pg_encode c.2)).

Inductive CommitError :=
| WouldShare (pg : PlacementGroup)
| ChangedMeanwhile
| UnexpectedResponse (r : MetaResponse).

(** Through Raft: the command, and what its answer means. *)
Definition commit_command (changes : list (PlacementGroup * PlacementGroup)) (why : string) : outcome CommitError MetaCommand :=
  match list_find (fun c : PlacementGroup * PlacementGroup => adds_shared_member (acting c.1) (acting c.2) = true) changes with
  | Some (_, c) => Err (WouldShare c.2)
  | None => Ok (MultiCas (pg_op <$> changes) why)
  end.

Definition commit_answer (r : MetaResponse) : outcome CommitError () :=
  match r with
  | MultiCasOk => Ok ()
  | MultiCasConflict _ => Err ChangedMeanwhile
  | r => Err (UnexpectedResponse r)
  end.

(** The state machine's tables and the answer, once the entry is applied. *)
Definition commit_pgs (t : txn (M := M)) (changes : list (PlacementGroup * PlacementGroup)) (why : string) :
    txn (M := M) * outcome CommitError () :=
  match commit_command changes why with
  | Ok cmd =>
      match apply_command t cmd with
      | Ok (t', r) => (t', commit_answer r)
      | _ => (t, Panic)
      end
  | Err e => (t, Err e)
  | Panic => (t, Panic)
  end.

(** ** Keys *)
Lemma digits_length k n : length (digits k n) = k.
Proof. revert n. induction k as [|k IH]; intros n; [done|]. cbn. rewrite length_app, IH. cbn. lia. Qed.

Lemma digits_inj k : forall n n', 0 <= n < 10 ^ Z.of_nat k -> 0 <= n' < 10 ^ Z.of_nat k -> digits k n = digits k n' -> n = n'.
Proof.
  induction k as [|k IH]; intros n n' Hn Hn' He; [cbn in *; lia|].
  rewrite Nat2Z.inj_succ, Z.pow_succ_r in Hn, Hn' by lia. cbn in He. apply app_inj_2 in He as [H1 H2]; [|done].
  apply IH in H1; [|split; [apply Z.div_pos; lia|apply Z.div_lt_upper_bound; lia]..].
  pose proof (Z.mod_pos_bound n 10 ltac:(lia)). pose proof (Z.mod_pos_bound n' 10 ltac:(lia)).
  assert (n mod 10 = n' mod 10).
  { injection H2 as H2. apply (f_equal N_of_ascii) in H2. rewrite !N_ascii_embedding in H2 by lia. lia. }
  rewrite (Z.div_mod n 10), (Z.div_mod n' 10) by lia. congruence.
Qed.

(** Different groups have different rows, whatever their pools are named. *)
Lemma pg_key_inj p i p' i' : is_u32 i -> is_u32 i' -> pg_key p i = pg_key p' i' -> p = p' /\ i = i'.
Proof.
  intros Hi Hi' He. unfold is_u32 in *. apply (f_equal String.list_ascii_of_string) in He. unfold pg_key in He.
  rewrite !String.list_ascii_of_string_of_list_ascii, !app_assoc in He.
  apply app_inj_2 in He as [H1 H2]; [|by rewrite !digits_length]. apply app_inj_2 in H1 as [H1 _]; [|done].
  split; [|by apply (digits_inj 10); [lia..|]].
  apply (f_equal String.string_of_list_ascii) in H1. by rewrite !String.string_of_list_ascii_of_string in H1.
Qed.

(** ** Changes *)

(** An acting set is changed only with its epoch. *)
Definition forward (old new : PlacementGroup) : Prop :=
  epoch old <= epoch new /\ (epoch old = epoch new -> acting old = acting new).

#[global] Instance forward_preorder : PreOrder forward.
Proof.
  split; [by intros a; split|]. intros a b c [H1 H2] [H4 H5]. split; [lia|]. intros E.
  rewrite H2 by lia. apply H5. lia.
Qed.

(** What changes are to keep, besides members apart: any preorder. *)
Context (R : PlacementGroup -> PlacementGroup -> Prop) {HR : PreOrder R}.

Definition goes (old new : PlacementGroup) : Prop := R old new /\ (NoDup (acting old) -> NoDup (acting new)).

#[global] Instance goes_trans : Transitive goes.
Proof. intros a b c [H1 H2] [H3 H4]. split; [by etrans|by eauto]. Qed.

Lemma goes_refl a : goes a a.
Proof. by split. Qed.

Lemma count_NoDup l : NoDup l <-> forall x, (count_of l x <= 1)%nat.
Proof.
  unfold count_of. induction l as [|y l IH]; [split; [intros _ x; cbn; lia|constructor]|].
  rewrite NoDup_cons, IH. split.
  - intros [Hy Hl] x. rewrite filter_cons. case_decide as Hx; [|apply Hl]. subst. cbn.
    assert (filter (fun m => m = x) l = []) as ->; [|cbn; lia].
    apply filter_none, Forall_forall. by intros z Hz ->.
  - intros Hall. split.
    + intros Hy. specialize (Hall y). rewrite filter_cons_True in Hall by done. cbn in Hall.
      assert (y ∈ filter (fun m => m = y) l) as Hin by (by apply list_elem_of_filter).
      destruct (filter (fun m => m = y) l); [by apply not_elem_of_nil in Hin|cbn in Hall; lia].
    + intros x. specialize (Hall x). rewrite filter_cons in Hall. case_decide; cbn in Hall; lia.
Qed.

(** What the last check lets through. *)
Lemma unshared_apart old new : adds_shared_member old new = false -> NoDup old -> NoDup new.
Proof.
  intros Hs Hold. rewrite count_NoDup in *. intros x. destruct (Nat.leb_spec (count_of new x) 1) as [|Hgt]; [done|].
  exfalso. apply not_true_iff_false in Hs. apply Hs. unfold adds_shared_member. apply existsb_exists. exists x. split.
  - apply list_elem_of_In. unfold count_of in Hgt. destruct (filter (fun m => m = x) new) as [|y l] eqn:E; [cbn in Hgt; lia|].
    assert (y ∈ filter (fun m => m = x) new) as [-> ?]%list_elem_of_filter by (rewrite E; by left). done.
  - specialize (Hold x). apply andb_true_iff. split; apply Nat.ltb_lt; lia.
Qed.

(** ** Commits *)
Definition TABLE : string := "placement_groups".
Definition group_at (d : database) (key : string) : option PlacementGroup := row d TABLE key ≫= pg_decode.
Definition has_table (d : database) : Prop := is_Some (rows_of d TABLE).

Lemma row_after_cases ops t k old : row_after ops t k old = old \/
  exists op, op ∈ ops /\ cas_table_name (op_table op) = t /\ op_key op = k /\ row_after ops t k old = op_new op.
Proof.
  unfold row_after. induction ops as [|op ops IH] using rev_ind; [by left|]. rewrite foldl_snoc. case_decide as Hd.
  - right. exists op. destruct Hd. split_and!; [set_solver|done..].
  - destruct IH as [IH|(o & Ho & H1 & H2 & H3)]; [by left|]. right. exists o. split_and!; [set_solver|done..].
Qed.

(** What a commit does to the groups. *)
Definition groups_rel (d d' : database) : Prop := has_table d' /\
  forall key p, group_at d key = Some p -> exists p', group_at d' key = Some p' /\ goes p p'.

Lemma groups_rel_refl d : has_table d -> groups_rel d d.
Proof. intros Hd. split; [done|]. intros key p Hp. exists p. split; [done|apply goes_refl]. Qed.

Lemma groups_rel_trans d1 d2 d3 : groups_rel d1 d2 -> groups_rel d2 d3 -> groups_rel d1 d3.
Proof.
  intros [_ H12] [H3 H23]. split; [done|]. intros key p Hp. destruct (H12 key p Hp) as (p2 & Hp2 & F2).
  destruct (H23 key p2 Hp2) as (p3 & Hp3 & F3). exists p3. split; [done|by etrans].
Qed.

Lemma groups_rel_rows d d' : has_table d' -> (forall k, row d' TABLE k = row d TABLE k) -> groups_rel d d'.
Proof.
  intros Hd Hr. split; [done|]. intros key p. unfold group_at. rewrite Hr. intros Hp. exists p. split; [done|apply goes_refl].
Qed.

(** Every table stays a table of rows. *)
Lemma cas_writes_tables ops : forall d d' t, cas_writes d ops = Ok d' -> is_Some (rows_of d t) -> is_Some (rows_of d' t).
Proof.
  induction ops as [|op ops IH]; intros d d' t; [by intros [= <-]|]. cbn [cas_writes].
  intros (d1 & H1 & H2)%outcome_bind_ok Ht. eapply IH; [exact H2|]. unfold cas_write, open_table in H1.
  apply outcome_bind_ok in H1 as ([d2 m] & (m' & _ & [= <- <-])%outcome_bind_ok & [= <-]). rewrite !rows_of_insert.
  repeat case_decide; by eauto.
Qed.

Lemma cas_check_tables ops : forall d i t, is_Some (rows_of d t) -> is_Some (rows_of (cas_check d i ops).1 t).
Proof.
  induction ops as [|op ops IH]; intros d i t Ht; [done|]. cbn [cas_check].
  destruct (rows_of d (cas_table_name (op_table op))) as [m|] eqn:E; [|done].
  specialize (IH (<[cas_table_name (op_table op) := Rows m]> d) (i + 1) t).
  destruct (cas_check _ (i + 1) ops). cbn in *. apply IH. rewrite rows_of_insert. case_decide; by eauto.
Qed.

Lemma multi_cas_tables (t t' : txn (M := M)) ops r tb : apply_multi_cas t ops = Ok (t', r) ->
  is_Some (rows_of (t_db t) tb) -> is_Some (rows_of (t_db t') tb).
Proof.
  unfold apply_multi_cas. intros Ha Ht. pose proof (cas_check_tables ops (t_db t) 0 tb Ht) as Hc.
  destruct (cas_check (t_db t) 0 ops) as [d [n|[|i l]]]; [by injection Ha as <- <-| |by injection Ha as <- <-].
  apply outcome_bind_ok in Ha as (d' & Hw & [= <- <-]). by eapply cas_writes_tables.
Qed.

Definition change_ok (c : PlacementGroup * PlacementGroup) : Prop := R c.1 c.2.

Lemma commit_step t changes why : has_table (t_db t) -> Forall change_ok changes ->
  groups_rel (t_db t) (t_db (commit_pgs t changes why).1).
Proof.
  intros Ht Hok. unfold commit_pgs, commit_command. destruct (list_find _ changes) as [[]|] eqn:Ef; [by apply groups_rel_refl|].
  apply list_find_None in Ef. cbn [apply_command]. unfold apply_one. destruct (refusal _); [by apply groups_rel_refl|].
  assert (Htab : Forall (table_ok (t_db t)) (pg_op <$> changes)) by (apply Forall_fmap, Forall_forall; intros c _; exact Ht).
  destruct (decide (Forall (holds (t_db t)) (pg_op <$> changes))) as [Hall|Hall].
  - destruct (multi_cas_all t _ Htab Hall) as (t' & Ha & _ & _ & Hrow). rewrite Ha. cbn. split; [by eapply multi_cas_tables|]. intros key p Hp. unfold group_at in *. rewrite Hrow.
    destruct (row_after_cases (pg_op <$> changes) TABLE key (row (t_db t) TABLE key)) as [->|(op & Hop & _ & Hk & ->)].
    + exists p. split; [done|apply goes_refl].
    + apply list_elem_of_fmap in Hop as (c & -> & Hc). cbn in Hk |- *. rewrite pg_roundtrip.
      rewrite Forall_forall in Hall. specialize (Hall (pg_op c)). unfold holds in Hall. cbn in Hall. rewrite Hk in Hall.
      change "placement_groups" with TABLE in Hall. rewrite Hall in Hp by (by apply list_elem_of_fmap_2). cbn in Hp.
      rewrite pg_roundtrip in Hp. injection Hp as <-. exists c.2. split; [done|]. rewrite Forall_forall in Hok, Ef. split; [by apply Hok|].
      apply unshared_apart. specialize (Ef c Hc). by destruct (adds_shared_member _ _).
  - destruct (multi_cas_conflict t _ Htab Hall) as (t' & Ha & _ & _ & Hrow). rewrite Ha. cbn. apply groups_rel_rows; [by eapply multi_cas_tables|done].
Qed.

(** Commands that are about other tables. *)
Definition elsewhere (cmd : MetaCommand) : Prop :=
  match cmd with
  | MultiCas ops _ => Forall (fun op => cas_table_name (op_table op) <> TABLE) ops
  | Batch _ => False
  | _ => True
  end.

Definition kept (d d' : database) : Prop := rows_of d' TABLE = rows_of d TABLE.

Lemma kept_put d d' n m : n <> TABLE -> kept d d' -> kept d (<[n := Rows m]> d').
Proof. intros Hn Hk. unfold kept. by rewrite rows_of_insert, decide_False. Qed.

Lemma kept_open d n d' m : n <> TABLE -> open_table d n = Ok (d', m) -> kept d d'.
Proof. intros Hn. unfold open_table. intros (m' & _ & [= <- <-])%outcome_bind_ok. by apply kept_put. Qed.

Lemma kept_trans d1 d2 d3 : kept d1 d2 -> kept d2 d3 -> kept d1 d3.
Proof. unfold kept. congruence. Qed.

Lemma kept_groups d d' : kept d d' -> has_table d -> groups_rel d d'.
Proof. intros Hk Hd. apply groups_rel_rows; [unfold has_table; by rewrite Hk|]. intros k. unfold row. by rewrite Hk. Qed.

Lemma cas_check_kept ops : forall d i, Forall (fun op => cas_table_name (op_table op) <> TABLE) ops -> kept d (cas_check d i ops).1.
Proof.
  induction ops as [|op ops IH]; intros d i Hops; [done|]. apply Forall_cons in Hops as [Hn Hops]. cbn [cas_check].
  destruct (rows_of d (cas_table_name (op_table op))) as [m|]; [|done]. specialize (IH (<[cas_table_name (op_table op) := Rows m]> d) (i + 1) Hops).
  destruct (cas_check _ (i + 1) ops). cbn in *. eapply kept_trans; [|exact IH]. by apply kept_put.
Qed.

Lemma cas_writes_kept ops : forall d d', Forall (fun op => cas_table_name (op_table op) <> TABLE) ops -> cas_writes d ops = Ok d' -> kept d d'.
Proof.
  induction ops as [|op ops IH]; intros d d' Hops; [by intros [= <-]|]. apply Forall_cons in Hops as [Hn Hops]. cbn [cas_writes].
  intros (d1 & H1 & H2)%outcome_bind_ok. eapply kept_trans; [|by eapply IH]. unfold cas_write in H1.
  apply outcome_bind_ok in H1 as ([d2 m] & Ho & [= <-]). apply kept_put; [done|by eapply kept_open].
Qed.

(** Commands that are about other tables leave the groups alone. *)
Lemma elsewhere_kept (t t' : txn (M := M)) cmd r : elsewhere cmd -> apply_command t cmd = Ok (t', r) -> kept (t_db t) (t_db t').
Proof.
  intros He. destruct cmd as [k v u a|k|i st u|ops u|cmds]; [..|done]; cbn [apply_command]; unfold apply_one; cbn [refusal].
  - unfold apply_set_config. intros ([d c] & H1 & (n & _ & ([d2 c2] & H2 & [= <- <-])%outcome_bind_ok)%outcome_bind_ok)%outcome_bind_ok.
    cbn. apply kept_put; [done|]. eapply kept_trans; [|eapply (kept_open _ "config"); [done|exact H2]].
    apply kept_put; [done|]. by eapply (kept_open _ "counters").
  - unfold apply_delete_config. intros ([d c] & H1 & [= <- <-])%outcome_bind_ok. cbn. apply kept_put; [done|by eapply (kept_open _ "config")].
  - unfold apply_osd_admin. intros ([d c] & H1 & H2)%outcome_bind_ok. assert (Hd : kept (t_db t) d) by (by eapply (kept_open _ "osd_nodes")).
    repeat case_match; try case_bool_decide; injection H2 as <- <-; cbn; first [exact Hd|by apply kept_put].
  - cbn in He. case_if; [by intros [= <- <-]|]. destruct (head _); [by intros [= <- <-]|]. unfold apply_multi_cas.
    pose proof (cas_check_kept ops (t_db t) 0 He) as Hc. destruct (cas_check (t_db t) 0 ops) as [d [n|[|x l]]]; cbn in Hc;
      [by intros [= <- <-]| |by intros [= <- <-]].
    intros (d' & Hw & [= <- <-])%outcome_bind_ok. cbn. eapply kept_trans; [exact Hc|by eapply cas_writes_kept].
Qed.

(** ** Runs *)

(** What the log brings: commits of groups, and commands about other
    tables. *)
Inductive event := Commits (changes : list (PlacementGroup * PlacementGroup)) (why : string) | Other (cmd : MetaCommand).

Definition event_ok (e : event) : Prop :=
  match e with Commits changes _ => Forall change_ok changes | Other cmd => elsewhere cmd end.

Definition run_event (t : txn (M := M)) (e : event) : txn :=
  match e with
  | Commits changes why => (commit_pgs t changes why).1
  | Other cmd => match apply_command t cmd with Ok (t', _) => t' | _ => t end
  end.

Lemma run_goes t events : has_table (t_db t) -> Forall event_ok events ->
  groups_rel (t_db t) (t_db (foldl run_event t events)).
Proof.
  intros Ht Hev. induction events as [|e events IH] using rev_ind; [by apply groups_rel_refl|].
  apply Forall_app in Hev as [Hev [He _]%Forall_cons]. rewrite foldl_snoc. eapply groups_rel_trans; [by apply IH|].
  destruct (IH Hev) as [Ht' _]. destruct e as [changes why|cmd]; cbn in *; [by apply commit_step|].
  destruct (apply_command _ cmd) as [[t' r]| |] eqn:E; [|by apply groups_rel_refl..].
  apply kept_groups; [by eapply elsewhere_kept|done].
Qed.

End commit.

(** ** What a pass proposes *)
Section pass.
Context {Ord : HashOrder} {Ut : UuidText} {Xx : Xxh64}.

(** Every change a leader's pass makes of a group is one the commits
    above want: the acting set is the same, with the same epoch, or the
    epoch is the next. *)
Theorem pass_goes_forward v r ds grace now pg new : 0 <= epoch pg < u64_max ->
  (keep_pg v r ds grace now pg).1 = Some new -> forward pg new.
Proof.
  intros He. assert (Hw : wadd64 (epoch pg) 1 = epoch pg + 1) by (apply wadd64_small; unfold u64_max, two64 in *; lia).
  assert (Hfix : forall f, without_gone_up v pg now = Some f -> epoch f = epoch pg /\ acting f = acting pg).
  { unfold without_gone_up. intros f. case_if; [done|]. case_bool_decide; [|done]. by intros [= <-]. }
  assert (Hfwd : forall f, without_gone_up v pg now = Some f -> forward pg f).
  { intros f [E1 E2]%Hfix. split; [lia|done]. }
  unfold keep_pg. destruct (without_gone_up v pg now) as [f|] eqn:Ef; cbn [default].
  - destruct (Hfix f eq_refl) as [E1 E2]. destruct (PgMembers.all_usable _ _ _ _); cbn; [by auto|].
    destruct (stand_in v f r ds grace now) as [n|] eqn:Es; cbn; [|by auto]. intros [= <-].
    unfold stand_in in Es. destruct (PgMembers.d_any _); [|done]. injection Es as <-. unfold forward. cbn. rewrite E1. split; lia.
  - destruct (PgMembers.all_usable _ _ _ _); [done|]. cbn.
    destruct (stand_in v pg r ds grace now) as [n|] eqn:Es; cbn; [|done]. intros [= <-].
    unfold stand_in in Es. destruct (PgMembers.d_any _); [|done]. injection Es as <-. unfold forward. cbn. split; lia.
Qed.
End pass.

(** ** Examples *)
Definition fill_tuple (f : PgFill) : Z * bytes * Z := (PgMembers.fill_position f, PgMembers.fill_from f, PgMembers.fill_epoch f).
Definition tuple_fill (t : Z * bytes * Z) : PgFill := mkFill t.1.1 t.1.2 t.2.

Definition pg_tuple (pg : PlacementGroup) : string * Z * list bytes * Z * Z * list bytes * list (Z * bytes * Z) :=
  (pool pg, pg_id pg, acting pg, epoch pg, updated_at pg, up pg, fill_tuple <$> filling pg).
Definition tuple_pg (t : string * Z * list bytes * Z * Z * list bytes * list (Z * bytes * Z)) : PlacementGroup :=
  let '(p, i, a, e, u, up, f) := t in mkPg p i a e u up (tuple_fill <$> f).

#[refine] Definition plain_pgs : PgBytes := {|
  pg_encode pg := pack (pg_tuple pg);
  pg_decode b := tuple_pg <$> unpack b;
|}.
Proof.
  intros [p i a e u up f]. rewrite unpack_pack. cbn. do 2 f_equal. rewrite <- list_fmap_compose.
  induction f as [|[] f IH]; cbn; [done|]. by f_equal.
Defined.

Import PgMembersSpec(pg7, pg7_new, four_hosts, by_host, plain_text).

Definition stored (pg : PlacementGroup) : txn (M := ()) :=
  mkTxn {["placement_groups" := Rows {[pg_key (pool pg) (pg_id pg) := @pg_encode plain_pgs pg]}]} (mkState None (None, tt) 0) [].

Lemma pass_goes_forward_witness :
  (@keep_pg Topology.entry_order plain_text JumpHash.sum_hash four_hosts by_host ∅ (Some 120) 1000 pg7).1 = Some pg7_new /\
  forward pg7 pg7_new.
Proof.
  assert (E : (@keep_pg Topology.entry_order plain_text JumpHash.sum_hash four_hosts by_host ∅ (Some 120) 1000 pg7).1 = Some pg7_new)
    by (by vm_compute).
  assert (H : 0 <= epoch pg7 < u64_max) by (unfold u64_max, two64; cbn; lia).
  split; [exact E|]. exact (@pass_goes_forward _ _ _ _ _ _ _ _ _ _ H E).
Defined.

End PgCommit.
