(* ===== verification/StripeWrite.v ===== *)
(** * Writing a stripe

    [crates/proto/src/stripe.rs], which every writer goes through: the
    scheme of a placement, which OSD each shard goes to, how many must be on
    disk before a write is acknowledged and what the stripe records; from
    [crates/meta/src/service.rs], what each position of a group holds. How a
    shard reaches its OSD is an argument. *)
From S2P Require Import Prelude Bytes ErasureBackend Erasure Topology MetaState PgMembers.
Import PgMembers(ErasureType, ErasureMds, ErasureLrc, ErasureReplication, try_ec_type, wadd32).
Import Erasure(ErasureConfig, config_new, config_lrc).

Module StripeWrite.

Inductive Scheme :=
| Replicas (n : Z)
| Mds (k m : Z)
| Lrc (k l g : Z).

Record NodePlacement := mkPlacement {
  np_node_id : bytes;
  node_address : string;
  np_shard_type : Z;
  np_local_group : Z;
}.

Record GetPlacementResponse := mkPlaced {
  p_ec_type : Z;
  p_ec_k : Z;
  p_ec_m : Z;
  p_ec_local_parity : Z;
  p_ec_global_parity : Z;
  p_replication_count : Z;
  p_nodes : list NodePlacement;
  p_pool : string;
  p_pg_id : Z;
  pg_epoch : Z;
}.

Record BlockLocation := mkBlock { loc_node_id : bytes; loc_disk_id : bytes; loc_offset : Z }.

Record ShardLocation := mkShard {
  position : Z;
  node_id : bytes;
  disk_id : bytes;
  offset : Z;
  shard_type : Z;
  local_group : Z;
  crc32c : option Z;
}.

Record StripeMeta := mkStripe {
  stripe_id : Z;
  s_ec_k : Z;
  s_ec_m : Z;
  s_shards : list ShardLocation;
  s_ec_type : ErasureType;
  s_local_parity : Z;
  s_global_parity : Z;
  s_group_size : Z;
  s_data_size : Z;
  s_object_id : bytes;
}.

(** ** Schemes *)
Definition scheme_of (p : GetPlacementResponse) : Scheme :=
  match try_ec_type (p_ec_type p) with
  | Some ErasureReplication => Replicas (Z.max (p_replication_count p) 1)
  | Some ErasureLrc => Lrc (p_ec_k p) (p_ec_local_parity p) (p_ec_global_parity p)
  | _ => Mds (p_ec_k p) (p_ec_m p)
  end.

Definition width (s : Scheme) : nat :=
  Z.to_nat match s with
    | Replicas n => n
    | Mds k m => wadd32 k m
    | Lrc k l g => wadd32 (wadd32 k l) g
    end.

Definition data_shards (s : Scheme) : nat :=
  Z.to_nat match s with Replicas _ => 1 | Mds k _ => k | Lrc k _ _ => k end.

Definition quorum (s : Scheme) : nat :=
  match s with
  | Replicas n => if n <? 2 then Z.to_nat n else 2%nat
  | Mds k m => if m =? 0 then Z.to_nat k else (Z.to_nat k + 1)%nat
  | Lrc k l _ => Z.to_nat (wadd32 (wadd32 k l) 1)
  end.

Definition shard_code (s : Scheme) : Z * Z :=
  match s with
  | Replicas _ => (1, 0)
  | Mds k m => (k, m)
  | Lrc k l g => (k, wadd32 l g)
  end.

(** [u8::try_from(n).unwrap_or(u8::MAX)]. *)
Definition byte_of (n : Z) : nat := Z.to_nat (Z.min n 255).

Definition erasure (s : Scheme) : option ErasureConfig :=
  match s with
  | Replicas _ => None
  | Mds k m => Some (config_new (byte_of k) (byte_of m))
  | Lrc k l g => Some (config_lrc (byte_of k) (byte_of l) (byte_of g))
  end.

Definition stripe (s : Scheme) (stripe_id data_size : Z) (object_id : bytes) (shards : list ShardLocation) : StripeMeta :=
  match s with
  | Replicas n => mkStripe stripe_id 1 (Z.max 0 (n - 1)) shards ErasureReplication 0 0 0 data_size object_id
  | Mds k m => mkStripe stripe_id k m shards ErasureMds 0 m 0 data_size object_id
  | Lrc k l g => mkStripe stripe_id k (wadd32 l g) shards ErasureLrc l g (if l =? 0 then 0 else k / l) data_size object_id
  end.

(** Pool, group and epoch. *)
Definition fence (p : GetPlacementResponse) : option (string * Z * Z) :=
  if 0 <? pg_epoch p then Some (p_pool p, p_pg_id p, pg_epoch p) else None.

(** ** Where the shards go *)
Fixpoint targets_from (nodes : list NodePlacement) (used : list bytes) (i n : nat) : list (option NodePlacement) :=
  match n with
  | O => []
  | S n =>
      match nodes !! i with
      | Some node =>
          if negb (String.eqb (node_address node) "") && bool_decide (np_node_id node ∉ used)
          then Some node :: targets_from nodes (np_node_id node :: used) (S i) n
          else None :: targets_from nodes used (S i) n
      | None => None :: targets_from nodes used (S i) n
      end
  end.

Definition targets (nodes : list NodePlacement) (width : nat) : list (option NodePlacement) := targets_from nodes [] 0 width.

(** ** The write *)
Record Short (E : Type) := mkShort {
  written : list ShardLocation;
  stored : nat;
  short_quorum : nat;
  short_width : nat;
  failed : list (Z * E);
}.
Arguments mkShort {E} _ _ _ _ _.
Arguments written {E} _.
Arguments stored {E} _.
Arguments failed {E} _.

(** [u32::try_from(i).unwrap_or(u32::MAX)]. *)
Definition position_of (i : nat) : Z := Z.min (Z.of_nat i) u32_max.

Section write.
Context {S E : Type} (send : Z -> NodePlacement -> S -> E + BlockLocation * Z).

(** Each shard that has an OSD, sent; the answers in their order. *)
Definition sends (nodes : list NodePlacement) (width : nat) (shards : list S) :
    list (Z * NodePlacement * (E + BlockLocation * Z)) :=
  omap (fun p : nat * (option NodePlacement * S) =>
      node ← p.2.1; Some (position_of p.1, node, send (position_of p.1) node p.2.2))
    (imap pair (zip (targets nodes width) shards)).

Definition stored_shard (a : Z * NodePlacement * (E + BlockLocation * Z)) : option ShardLocation :=
  match a.2 with
  | inr (l, crc) => Some (mkShard a.1.1 (loc_node_id l) (loc_disk_id l) (loc_offset l)
      (np_shard_type a.1.2) (np_local_group a.1.2) (Some crc))
  | inl _ => None
  end.

Definition failed_shard (a : Z * NodePlacement * (E + BlockLocation * Z)) : option (Z * E) :=
  match a.2 with inl e => Some (a.1.1, e) | inr _ => None end.

Definition by_position (a b : ShardLocation) : Prop := position a <= position b.

#[global] Instance by_position_dec a b : Decision (by_position a b).
Proof. unfold by_position. apply _. Defined.

Definition distinct (l : list ShardLocation) : nat := size (list_to_set (node_id <$> l) : gset bytes).

Definition write (scheme : Scheme) (nodes : list NodePlacement) (shards : list S) :
    outcome (Short E) (list ShardLocation) :=
  let results := sends nodes (width scheme) shards in
  let written := merge_sort by_position (omap stored_shard results) in
  let stored := distinct written in
  if (stored <? quorum scheme)%nat
  then Err (mkShort written stored (quorum scheme) (width scheme) (omap failed_shard results))
  else Ok written.
End write.

(** ** The shards of a stripe, and its bytes again

    [crates/gateway/src/stripe.rs] makes the shards: copies of the data, or
    the code's; [crates/gateway/src/s3/get.rs] reads copies one after the
    other until one is there, and decodes the rest. *)
Section coder.
Context `{HIsal : ErasureBackend.Isal} `{HRs : ErasureBackend.RsSimd}.

Record Coder := mkCoder {
  coder_scheme : Scheme;
  codec : option Erasure.ErasureCodec;
}.

Definition coder_new (s : Scheme) : outcome ErasureBackend.ErasureError Coder :=
  match erasure s with
  | None => Ok (mkCoder s None)
  | Some cfg => c ← Erasure.new cfg; Ok (mkCoder s (Some c))
  end.

Definition coder_shards (c : Coder) (data : bytes) : outcome ErasureBackend.ErasureError (list bytes) :=
  match codec c with
  | None => Ok (replicate (width (coder_scheme c)) data)
  | Some c => Erasure.encode_bytes c data
  end.

(** The first copy that can be read, cut to the stripe's size. *)
Definition read_replicas (copies : list (option bytes)) (size : nat) : option bytes :=
  take size <$> head (omap id copies).
End coder.

(** ** What a position holds *)
Inductive ShardType := ShardData | ShardLocalParity | ShardGlobalParity.

Definition pg_position_shard_type (ty : ErasureType) (position k local_parity : nat) : ShardType :=
  match ty with
  | ErasureLrc => if (position <? k)%nat then ShardData
                  else if (position <? k + local_parity)%nat then ShardLocalParity else ShardGlobalParity
  | ErasureReplication => ShardData
  | ErasureMds => if (position <? k)%nat then ShardData else ShardGlobalParity
  end.

Definition pg_position_local_group (ty : ErasureType) (position k local_parity group_size : nat) : Z :=
  if bool_decide (ty <> ErasureLrc) || (group_size =? 0)%nat then 0
  else if (position <? k)%nat then Z.of_nat (position / group_size) mod 2 ^ 32
  else if (position <? k + local_parity)%nat then Z.of_nat (Nat.min (position - k) (local_parity - 1)) mod 2 ^ 32
  else 0.

End StripeWrite.
