(* ===== verification/Recovery.v ===== *)
(** * Recovery: which groups, on which OSDs, moved where

    The decisions of [crates/meta/src/service/recovery.rs]: the positions a
    group moves at and the change that moves it, the change that ends a fill,
    which groups need recovery, in what order they start and on which OSDs
    each holds a reservation, when a group that got nowhere is tried again,
    and what a shard of a locally repairable stripe is rebuilt from; with
    [usable_address] of [service/peering.rs]. Statics are state passed along.
    The copying itself is left out: it is calls between OSDs. *)
From S2P Require Import Prelude Bytes StdText Topology Crush Copyset MetaState PgMembers StripeWrite.
Import PgMembers MetaState(OsdNode, node_id, address, admin_state).
Import StripeWrite(StripeMeta, s_ec_k, s_ec_type, s_local_parity).

Module Recovery.

(** An address recovery can use: its OSD is in. *)
Definition usable_address (v : view) (id : bytes) : option string :=
  if negb (length id =? 16)%nat then None
  else
    a ← address ∘ snd <$> list_find (fun n => node_id n = id /\ admin_state n = Topology.In) (osd_nodes v);
    if String.eqb a "" then None else Some a.

(** ** Moving a group *)

(** One position of [remap_positions]: the positions so far and the members
    they take. *)
Definition remap_step (v : view) (pg : PlacementGroup) (st : list nat * list bytes) (p : nat) : list nat * list bytes :=
  match up pg !! p, acting pg !! p with
  | Some u, Some a =>
      if bool_decide (u = a) then st
      else if bool_decide (usable_address v u = None) then st
      else if bool_decide (u ∈ acting pg) then st
      else if bool_decide (u ∈ st.2) then st
      else (st.1 ++ [p], st.2 ++ [u])
  | _, _ => st
  end.

Definition remap_positions (v : view) (pg : PlacementGroup) : list nat :=
  if negb (length (up pg) =? length (acting pg))%nat then []
  else (foldl (remap_step v pg) ([], []) (seq 0 (length (up pg)))).1.

(** [commit_remap]'s loop over the positions. *)
Definition take_up (pg : PlacementGroup) (new_epoch : Z) (st : list bytes * list PgFill) (p : nat) : list bytes * list PgFill :=
  match st.1 !! p, up pg !! p with
  | Some from, Some u => (<[p := u]> st.1, set_filling st.2 (Z.of_nat p mod 2 ^ 32) from new_epoch)
  | _, _ => st
  end.

Definition remapped (pg : PlacementGroup) (positions : list nat) (timestamp : Z) : PlacementGroup :=
  let new_epoch := wadd64 (epoch pg) 1 in
  let st := foldl (take_up pg new_epoch) (acting pg, filling pg) positions in
  mkPg (pool pg) (pg_id pg) st.1 new_epoch timestamp (up pg) st.2.

(** What [recover_pg] commits before it plans, if the group is to move. *)
Definition remap (v : view) (pg : PlacementGroup) (timestamp : Z) : option PlacementGroup :=
  match remap_positions v pg with [] => None | ps => Some (remapped pg ps timestamp) end.

(** What [finish_filling] commits: [pg] is the group as it was worked,
    [current] as it is. *)
Definition finish_filling (pg current : PlacementGroup) (timestamp : Z) : option PlacementGroup :=
  if bool_decide (epoch current <> epoch pg) || bool_decide (filling current <> filling pg) then None
  else Some (mkPg (pool current) (pg_id current) (acting current) (epoch current) timestamp (up current) []).

(** The OSDs recovering [pg] reads from or writes to ([BTreeSet]). *)
Definition recovery_osds (v : view) (pg : PlacementGroup) : gset bytes :=
  list_to_set (filter (fun m => is_Some (usable_address v m))
    (acting pg ++ (fill_from <$> filling pg) ++ omap (fun p => up pg !! p) (remap_positions v pg))).

(** ** Reservations *)

(** [reserve] and dropping a [Reservation], on the slots taken on each OSD. *)
Definition reserve (osds : gset bytes) (limit : nat) (slots : gmap bytes nat) : option (list bytes) * gmap bytes nat :=
  if existsb (fun id => (limit <=? default 0 (slots !! id))%nat) (elements osds) then (None, slots)
  else (Some (elements osds), foldl (fun s id => <[id := S (default 0%nat (s !! id))]> s) slots (elements osds)).

Definition release (reservation : list bytes) (slots : gmap bytes nat) : gmap bytes nat :=
  foldl (fun s id =>
    match s !! id with
    | Some n => if (n - 1 =? 0)%nat then delete id s else <[id := (n - 1)%nat]> s
    | None => s
    end) slots reservation.

(** ** Which groups, in which order *)
Definition AGED_SECS : Z := 900.

Definition rank (spare : Z) (degraded at_risk : bool) (since now : Z) : Z * Z * Z :=
  if at_risk then (- 2 ^ 63, 0, since)
  else if (0 <? since) && (AGED_SECS <=? Z.max 0 (now - since)) then (- 2 ^ 63 + 1, 0, since)
  else (spare, if degraded then 0 else 1, since).

(** The fields of a group's recorded state these read. *)
Record PgState := mkPgState {
  st_state : string;
  st_epoch : Z;
  st_objects_degraded : Z;
  st_members_down : Z;
  st_min_spare : Z;
  st_since : Z;
  st_retry_at : Z;
}.

(** [until] as an [Instant], in seconds. *)
Record Backoff := mkBackoff { passes : Z; until : Z; b_epoch : Z; b_members_down : Z }.

Definition BACKOFF_BASE : Z := 2.
Definition BACKOFF_MAX : Z := 300.

Definition backoff_after (n : Z) : Z := Z.min (BACKOFF_BASE * 2 ^ Z.min n 16) BACKOFF_MAX.

Abbreviation backoffs := (gmap (string * Z) Backoff).

Definition no_progress (b : backoffs) (id : string * Z) (epoch members_down instant : Z) : backoffs :=
  let n := match b !! id with Some off => passes off | None => 0 end in
  <[id := mkBackoff (wadd32 n 1) (instant + backoff_after n) epoch members_down]> b.

(** The backoff of [recovery_need]: the records kept, and whether the group
    waits. *)
Definition backed_off (b : backoffs) (pg : PlacementGroup) (state : option PgState) (instant : Z) : backoffs * bool :=
  let id := (pool pg, pg_id pg) in
  match b !! id with
  | None => (b, false)
  | Some off =>
      let down := match state with Some s => st_members_down s | None => b_members_down off end in
      if bool_decide (b_epoch off <> epoch pg) || bool_decide (b_members_down off <> down) then (delete id b, false)
      else (b, instant <? until off)
  end.

Definition state_is (state : option PgState) (names : list string) : bool :=
  match state with Some s => existsb (String.eqb (st_state s)) names | None => false end.

Definition recovery_need (v : view) (b : backoffs) (pg : PlacementGroup) (state : option PgState) (at_risk : bool)
    (now instant : Z) : backoffs * option (Z * Z * Z) :=
  let moving := bool_decide (filling pg <> []) || bool_decide (remap_positions v pg <> []) in
  let '(b, waits) := backed_off b pg state instant in
  (b,
    if waits then None
    else if state_is state ["Down"; "Incomplete"] then None
    else if state_is state ["WaitTooFull"] && match state with Some s => now <? st_retry_at s | None => false end then None
    else
      let resume := state_is state ["Recovering"; "Backfilling"; "WaitTooFull"] in
      let degraded := match state with
        | Some s => (st_epoch s =? epoch pg) && (0 <? st_objects_degraded s) && state_is state ["Degraded"; "Undersized"]
        | None => false end in
      if moving || resume || degraded || at_risk
      then Some (rank (match state with Some s => st_min_spare s | None => 2 ^ 63 - 1 end) degraded at_risk
        (match state with Some s => st_since s | None => 0 end) now)
      else None).

(** The loop of [recovery_round] over the groups due, which are not worked
    already, most urgent first: those started, with what each reserves, and
    those left waiting. *)
Record round := mkRound { started : list (PlacementGroup * list bytes); waiting : list PlacementGroup; slots : gmap bytes nat }.

Definition round_step (v : view) (pools : gmap string PoolConfig) (busy at_once limit : nat) (s : round) (pg : PlacementGroup) : round :=
  if (at_once <=? busy + length (started s))%nat then mkRound (started s) (waiting s ++ [pg]) (slots s)
  else match pools !! pool pg with
  | None => s
  | Some _ =>
      match reserve (recovery_osds v pg) limit (slots s) with
      | (None, sl) => mkRound (started s) (waiting s ++ [pg]) sl
      | (Some r, sl) => mkRound (started s ++ [(pg, r)]) (waiting s) sl
      end
  end.

Definition recovery_round (v : view) (pools : gmap string PoolConfig) (busy at_once limit : nat)
    (due : list PlacementGroup) (slots : gmap bytes nat) : round :=
  if (at_once <=? busy)%nat then mkRound [] due slots
  else foldl (round_step v pools busy at_once limit) (mkRound [] [] slots) due.

(** ** Records of objects with nothing to spare *)
Record Work := mkWork { w_bucket : string; w_key : string; w_version_id : string; w_spare : Z }.

Definition spent_records (records : list (string * Z)) (work : list Work) (in_pg : string -> string -> bool) (planned_at : Z) :
    list string :=
  let short : gset (string * string) := list_to_set ((fun w => (w_bucket w, w_key w)) <$>
    filter (fun w => w_spare w <= 0 /\ w_version_id w = "") work) in
  omap (fun r : string * Z =>
    '(bucket, key) ← split_once "/" r.1;
    if in_pg bucket key && bool_decide ((bucket, key) ∉ short) then Some r.1 else None)
    (filter (fun r : string * Z => r.2 < planned_at) records).

(** ** What is rebuilt from what *)

Definition lrc_local_set (s : StripeMeta) (position : nat) : option (list nat) :=
  let k := Z.to_nat (s_ec_k s) in
  let l := Z.to_nat (s_local_parity s) in
  if bool_decide (s_ec_type s <> ErasureLrc) || (l =? 0)%nat || negb (k mod l =? 0)%nat then None
  else
    let size := (k / l)%nat in
    group ← (if (position <? k)%nat then Some (position / size)%nat
             else if (position <? k + l)%nat then Some (position - k)%nat else None);
    Some (filter (fun p => p <> position) (seq (group * size) size ++ [(k + group)%nat])).

End Recovery.
