(* ===== verification/RecoverySpec.v ===== *)
(** * What recovery promises

    Theorems on [Recovery]: a move puts no OSD at two positions of a group
    and records where each position is filled from, and goes all the way when
    it can ([remap_safe]); it does not ask the pool's rule
    ([remap_breaks_rule]); the slots taken on an OSD are those of the
    reservations held, within the limit ([reservations_exact]); a round
    starts no more groups than it may, and passes one over only for a reason
    ([round_starts_urgent]); recovery and the codec agree on local groups
    ([lrc_groups_agree]). *)
From S2P Require Import Prelude Bytes F64 JumpHash Topology TopologySpec Crush Copyset CopysetSpec CopysetPool.
From S2P Require Import ErasureBackend MetaState PgMembers PgMembersSpec StripeWrite Recovery.
Import Topology Crush(UuidText) Copyset CopysetSpec PgMembers PgMembersSpec Recovery.
Import StripeWrite(StripeMeta, s_ec_k, s_ec_type, s_local_parity).
Import ErasureBackend(lrc_data, lrc_local, local_group, local_group_size, data_shard_indices, local_parity_index).

Module RecoverySpec.

(** ** Moves *)
Section moves.
Variable (v : view) (pg : PlacementGroup).

(** Where the group may move. *)
Record may_move (p : nat) (u : bytes) : Prop := {
  mm_up : up pg !! p = Some u;
  mm_other : exists a, acting pg !! p = Some a /\ u <> a;
  mm_usable : is_Some (usable_address v u);
  mm_free : (u ∉ acting pg);
}.

Lemma remap_step_cases st p :
  (exists u, may_move p u /\ (u ∉ st.2) /\ remap_step v pg st p = (st.1 ++ [p], st.2 ++ [u])) \/
  (remap_step v pg st p = st /\ forall u, may_move p u -> u ∈ st.2).
Proof.
  unfold remap_step. destruct (up pg !! p) as [u|] eqn:Eu; [|right; split; [done|]; intros u [? _ _ _]; congruence].
  destruct (acting pg !! p) as [a|] eqn:Ea; [|right; split; [done|]; intros x [_ (? & ? & _) _ _]; congruence].
  repeat case_bool_decide; try (right; split; [done|]; intros x [Hx (b & Hb & ?) [? Hs] ?]; congruence).
  left. exists u. split_and!; [|done..]. split; [done|by exists a| |done]. by apply not_eq_None_Some.
Qed.

Record remap_inv (n : nat) (st : list nat * list bytes) : Prop := {
  ri_taken : st.2 = omap (fun p => up pg !! p) st.1;
  ri_apart : NoDup st.2;
  ri_nodup : NoDup st.1;
  ri_moves : forall p, p ∈ st.1 -> (p < n)%nat /\ exists u, may_move p u;
  ri_all : forall p u, (p < n)%nat -> may_move p u -> u ∈ st.2;
}.

Lemma remap_inv_step n st : remap_inv n st -> remap_inv (S n) (remap_step v pg st n).
Proof.
  intros [H1 H2 H3 H4 H5]. destruct (remap_step_cases st n) as [(u & Hm & Hu & ->)|[-> Hn]].
  - split; cbn.
    + rewrite omap_app, H1. cbn. by rewrite (mm_up _ _ Hm).
    + apply NoDup_app. split_and!; [done| |apply NoDup_singleton]. by intros x Hx ->%list_elem_of_singleton.
    + apply NoDup_app. split_and!; [done| |apply NoDup_singleton]. intros x Hx ->%list_elem_of_singleton.
      apply H4 in Hx as [? _]. lia.
    + intros p [[? ?]%H4| ->%list_elem_of_singleton]%elem_of_app; [split; [lia|done]|split; [lia|by exists u]].
    + intros p x Hp Hx. apply elem_of_app. destruct (decide (p = n)) as [->|]; [|left; apply (H5 p); [lia|done]].
      right. apply list_elem_of_singleton. destruct Hx, Hm. congruence.
  - split; try done.
    + intros p [? ?]%H4. split; [lia|done].
    + intros p x Hp Hx. destruct (decide (p = n)) as [->|]; [by apply Hn|apply (H5 p); [lia|done]].
Qed.

Lemma remap_inv_all n : remap_inv n (foldl (remap_step v pg) ([], []) (seq 0 n)).
Proof.
  induction n as [|n IH]; [by split; cbn; [done|constructor|constructor|intros ? []%elem_of_nil|lia]|].
  rewrite seq_S, foldl_snoc. by apply remap_inv_step.
Qed.

(** What the positions are: free members, one position each, none left out. *)
Lemma remap_positions_spec : length (up pg) = length (acting pg) ->
  NoDup (remap_positions v pg) /\
  (forall p, p ∈ remap_positions v pg -> exists u, may_move p u) /\
  (forall p q u, p ∈ remap_positions v pg -> q ∈ remap_positions v pg -> may_move p u -> may_move q u -> p = q) /\
  (forall p u, may_move p u -> exists q, q ∈ remap_positions v pg /\ may_move q u).
Proof.
  intros Hl. unfold remap_positions. rewrite Hl, Nat.eqb_refl. cbn [negb].
  destruct (remap_inv_all (length (acting pg))) as [H1 H2 H3 H4 H5].
  destruct (foldl _ _ _) as [ps us]. cbn in *. split_and!; [done| | |].
  - intros p [_ Hp]%H4. done.
  - intros p q u Hp Hq [Hpu _ _ _] [Hqu _ _ _]. rewrite H1 in H2. clear H1 H4 H5.
    induction ps as [|x ps IH]; [by apply not_elem_of_nil in Hp|]. cbn in H2. apply NoDup_cons in H3 as [Hx H3].
    assert (Hno : up pg !! x = Some u -> forall y, y ∈ ps -> up pg !! y = Some u -> False).
    { intros Ex y Hy Ey. rewrite Ex in H2. apply NoDup_cons in H2 as [H2 _]. apply H2, list_elem_of_omap. eauto. }
    apply elem_of_cons in Hp as [->|Hp]; apply elem_of_cons in Hq as [->|Hq]; [done|exfalso; eauto..|].
    apply IH; [|done..]. destruct (up pg !! x); [by apply NoDup_cons in H2 as [_ ?]|done].
  - intros p u Hm. assert (Hu : u ∈ us).
    { eapply H5; [|exact Hm]. destruct (mm_other _ _ Hm) as (a & Ha & _). by eapply lookup_lt_Some. }
    rewrite H1 in Hu. apply list_elem_of_omap in Hu as (q & Hq & Hqu). exists q. split; [done|].
    destruct (H4 q Hq) as [_ [x Hx]]. pose proof (mm_up _ _ Hx). by replace u with x by congruence.
Qed.

(** The loop that moves them. *)
Lemma take_up_all e ps : NoDup ps -> (forall p, p ∈ ps -> exists u, may_move p u) -> Z.of_nat (length (acting pg)) <= 2 ^ 32 ->
  let st := foldl (take_up pg e) (acting pg, filling pg) ps in
  length st.1 = length (acting pg) /\
  forall p a, acting pg !! p = Some a ->
    st.1 !! p = (if decide (p ∈ ps) then up pg !! p else Some a) /\
    fills p st.2 = (if decide (p ∈ ps) then [mkFill (Z.of_nat p) a e] else fills p (filling pg)).
Proof.
  intros Hnd Hps Hlen. induction ps as [|x ps IH] using rev_ind; [done|].
  apply NoDup_app in Hnd as (Hnd & Hx & _). rewrite foldl_snoc.
  destruct IH as [Hl Hp]; [done|intros; apply Hps; set_solver|]. set (st := foldl _ _ ps) in *. cbn zeta.
  destruct (Hps x ltac:(set_solver)) as [u [Hu (a & Ha & _) _ _]]. assert (Hxps : x ∉ ps) by set_solver.
  destruct (Hp x a Ha) as [Hsx _]. rewrite decide_False in Hsx by done.
  pose proof (lookup_lt_Some _ _ _ Ha) as Hlt.
  unfold take_up. rewrite Hsx, Hu. cbn [fst snd]. split; [by rewrite length_insert|]. intros p b Hb.
  rewrite fills_set by lia. destruct (Hp p b Hb) as [H1 H2]. destruct (decide (p = x)) as [->|Hne].
  - rewrite list_lookup_insert_eq, !decide_True by (first [lia|set_solver]). split; [done|]. congruence.
  - rewrite list_lookup_insert_ne by done. assert (Hiff : p ∈ ps ++ [x] <-> p ∈ ps) by set_solver.
    rewrite (decide_ext _ _ _ _ Hiff), (decide_ext _ _ _ _ Hiff). done.
Qed.

Abbreviation positions := (remap_positions v pg).

(** Each position of the group moved, against before. *)
Lemma moved_at timestamp : length (up pg) = length (acting pg) -> Z.of_nat (length (acting pg)) <= 2 ^ 32 ->
  let new := remapped pg positions timestamp in
  length (acting new) = length (acting pg) /\
  forall p a, acting pg !! p = Some a ->
    ((p ∉ positions) /\ acting new !! p = Some a /\ fills p (filling new) = fills p (filling pg)) \/
    (p ∈ positions /\ exists u, may_move p u /\ acting new !! p = Some u /\
      fills p (filling new) = [mkFill (Z.of_nat p) a (wadd64 (epoch pg) 1)]).
Proof.
  intros Hl Hlen. destruct (remap_positions_spec Hl) as (Hnd & Hm & _).
  destruct (take_up_all (wadd64 (epoch pg) 1) positions Hnd Hm Hlen) as [HL HP]. split; [exact HL|].
  intros p a Ha. destruct (HP p a Ha) as [E1 E2]. destruct (decide (p ∈ positions)) as [Hp|Hp]; [right|by left].
  split; [done|]. destruct (Hm p Hp) as [u Hu]. exists u. split_and!; [done| |done].
  cbn. rewrite E1. apply Hu.
Qed.

Section moved.
Context (timestamp : Z) (Hl : length (up pg) = length (acting pg)) (Hlen : Z.of_nat (length (acting pg)) <= 2 ^ 32).
Abbreviation new := (remapped pg positions timestamp).

Lemma moved_origin p x : acting new !! p = Some x -> exists a, acting pg !! p = Some a.
Proof.
  destruct (moved_at timestamp Hl Hlen) as [HL _]. intros Hx%lookup_lt_Some. apply lookup_lt_is_Some. rewrite <- HL. exact Hx.
Qed.

Lemma moved_apart : NoDup (acting pg) -> NoDup (acting new).
Proof.
  intros Ha. destruct (remap_positions_spec Hl) as (_ & _ & Hone & _). destruct (moved_at timestamp Hl Hlen) as [_ HP].
  assert (Hfree : forall p u q, may_move p u -> acting pg !! q = Some u -> False).
  { intros p u q Hm Hq. destruct (mm_free _ _ Hm). by eapply list_elem_of_lookup_2. }
  apply NoDup_alt. intros i j x Hi Hj. destruct (moved_origin _ _ Hi) as [a Hai]. destruct (moved_origin _ _ Hj) as [b Hbj].
  destruct (HP _ _ Hai) as [(_ & Ei & _)|(Hi' & u & Hu & Ei & _)], (HP _ _ Hbj) as [(_ & Ej & _)|(Hj' & w & Hw & Ej & _)].
  - eapply NoDup_lookup; [exact Ha|exact Hai|congruence].
  - exfalso. eapply Hfree; [exact Hw|]. rewrite Hai. congruence.
  - exfalso. eapply Hfree; [exact Hu|]. rewrite Hbj. congruence.
  - eapply (Hone _ _ u); [done..|]. by replace u with w by congruence.
Qed.

Lemma moved_changes : positions <> [] -> acting new <> acting pg.
Proof.
  intros Hne E. destruct (remap_positions_spec Hl) as (_ & Hm & _). destruct (moved_at timestamp Hl Hlen) as [_ HP].
  destruct positions as [|p ps] eqn:Eps; [done|]. destruct (Hm p ltac:(by left)) as [u Hu].
  destruct (mm_other _ _ Hu) as (a & Ha & _). rewrite <- Eps in *.
  destruct (HP p a Ha) as [(Hp & _)|(_ & w & Hw & Hst & _)]; [destruct Hp; rewrite Eps; by left|].
  rewrite E in Hst. destruct (mm_free _ _ Hw). by eapply list_elem_of_lookup_2.
Qed.

Lemma moved_whole : up_apart (acting pg) (up pg) -> (forall u, u ∈ up pg -> is_Some (usable_address v u)) ->
  acting new = up pg.
Proof.
  intros [Hup Hx] Hus. destruct (remap_positions_spec Hl) as (_ & _ & _ & Hall). destruct (moved_at timestamp Hl Hlen) as [HL HP].
  apply list_eq. intros p. destruct (acting pg !! p) as [a|] eqn:Ha.
  2: { apply lookup_ge_None in Ha. rewrite (proj2 (lookup_ge_None (up pg) p)) by lia. apply lookup_ge_None. by rewrite HL. }
  destruct (lookup_lt_is_Some_2 (up pg) p) as [u Hu]; [apply lookup_lt_Some in Ha; lia|]. rewrite Hu.
  destruct (HP p a Ha) as [(Hp & -> & _)|(_ & w & Hw & -> & _)]; [|rewrite <- Hu; symmetry; apply Hw].
  f_equal. destruct (decide (u = a)) as [|Hne]; [done|exfalso]. apply Hp.
  destruct (Hall p u) as (q & Hq & Hqu).
  { split; [done|by exists a|apply Hus; by eapply list_elem_of_lookup_2|]. intros [q Hq]%list_elem_of_lookup.
    pose proof (Hx _ _ _ Hq Hu). congruence. }
  by replace p with q by (eapply NoDup_lookup; [exact Hup|apply Hqu|exact Hu]).
Qed.
End moved.

(** C32. A move of a group towards its up set is sound. No OSD is put at two
    of its positions. Each position keeps its member and its fills, or takes
    its up member, which is in and held no position, recorded as filled from
    the member it replaces at the new epoch, the next one. Something moves,
    and where the two sets have no OSD at different positions and every up
    member is usable, the whole group is where its up set says. *)
Theorem remap_safe new timestamp : Z.of_nat (length (acting pg)) <= 2 ^ 32 -> remap v pg timestamp = Some new ->
  (NoDup (acting pg) -> NoDup (acting new)) /\
  epoch new = wadd64 (epoch pg) 1 /\ up new = up pg /\ length (acting new) = length (acting pg) /\ acting new <> acting pg /\
  (forall p a, acting pg !! p = Some a ->
    (acting new !! p = Some a /\ fills p (filling new) = fills p (filling pg)) \/
    (exists u, may_move p u /\ acting new !! p = Some u /\ fills p (filling new) = [mkFill (Z.of_nat p) a (epoch new)])) /\
  (up_apart (acting pg) (up pg) -> (forall u, u ∈ up pg -> is_Some (usable_address v u)) -> acting new = up pg).
Proof.
  intros Hlen Hr. assert (Hne : positions <> []) by (intros E; unfold remap in Hr; by rewrite E in Hr).
  assert (Hl : length (up pg) = length (acting pg)).
  { unfold remap_positions in Hne. by destruct (Nat.eqb_spec (length (up pg)) (length (acting pg))). }
  assert (new = remapped pg positions timestamp) as ->.
  { unfold remap in Hr. destruct positions; [done|]. by injection Hr as <-. }
  destruct (moved_at timestamp Hl Hlen) as [HL HP]. split_and!; [by apply moved_apart|done|done|exact HL| | |by apply moved_whole].
  - by apply moved_changes.
  - intros p a Ha. destruct (HP p a Ha) as [(_ & H1 & H2)|(_ & u & H1 & H2 & H3)]; [by left|right; by exists u].
Qed.

End moves.

(** ** Reservations *)

(** How many of the reservations held are on an OSD. *)
Definition held (live : list (list bytes)) (id : bytes) : nat := length (filter (fun r => id ∈ r) live).

Definition exact (slots : gmap bytes nat) (live : list (list bytes)) : Prop :=
  Forall NoDup live /\ forall id, slots !! id = match held live id with O => None | S n => Some (S n) end.

Lemma exact_default slots live id : exact slots live -> default 0%nat (slots !! id) = held live id.
Proof. intros [_ ->]. by destruct (held live id). Qed.

Lemma held_app a b id : held (a ++ b) id = (held a id + held b id)%nat.
Proof. unfold held. by rewrite filter_app, length_app. Qed.

Lemma held_one r id : held [r] id = if decide (id ∈ r) then 1%nat else 0%nat.
Proof. unfold held. rewrite filter_cons. by case_decide. Qed.

Lemma take_slots (l : list bytes) : forall (slots : gmap bytes nat) id, NoDup l ->
  foldl (fun s id => <[id := S (default 0%nat (s !! id))]> s) slots l !! id =
  if decide (id ∈ l) then Some (S (default 0%nat (slots !! id))) else slots !! id.
Proof.
  induction l as [|x l IH]; intros slots id Hnd; [done|]. apply NoDup_cons in Hnd as [Hx Hnd]. cbn [foldl]. rewrite IH by done.
  destruct (decide (id = x)) as [->|Hne].
  - rewrite decide_False, decide_True, lookup_insert_eq by (done || by left). done.
  - rewrite lookup_insert_ne by done. assert (Hiff : id ∈ x :: l <-> id ∈ l) by set_solver. by rewrite (decide_ext _ _ _ _ Hiff).
Qed.

Lemma free_slots (l : list bytes) : forall (slots : gmap bytes nat) id, NoDup l -> release l slots !! id =
  if decide (id ∈ l) then match slots !! id with Some (S (S n)) => Some (S n) | _ => None end else slots !! id.
Proof.
  unfold release. induction l as [|x l IH]; intros slots id Hnd; [done|]. apply NoDup_cons in Hnd as [Hx Hnd]. cbn [foldl].
  rewrite IH by done. destruct (decide (id = x)) as [->|Hne].
  - rewrite decide_False, decide_True by (done || by left). destruct (slots !! x) as [[|[|n]]|] eqn:E; cbn;
      rewrite ?lookup_delete_eq, ?lookup_insert_eq; done.
  - assert (Hiff : id ∈ x :: l <-> id ∈ l) by set_solver. rewrite (decide_ext _ _ _ _ Hiff).
    destruct (slots !! x) as [n|]; [|done]. destruct (n - 1 =? 0)%nat; by rewrite ?lookup_delete_ne, ?lookup_insert_ne by done.
Qed.

Lemma reserve_exact osds limit slots live : exact slots live ->
  match reserve osds limit slots with
  | (Some r, s) => exact s (live ++ [r]) /\ r = elements osds /\ forall id, id ∈ osds -> (held live id < limit)%nat
  | (None, s) => s = slots /\ exists id, id ∈ osds /\ (limit <= held live id)%nat
  end.
Proof.
  intros He. unfold reserve. destruct (existsb _ _) eqn:E.
  - split; [done|]. apply existsb_exists in E as (id & Hid%list_elem_of_In & Hle%Nat.leb_le).
    exists id. split; [by apply elem_of_elements|]. by rewrite <- (exact_default _ _ _ He).
  - assert (Hlt : forall id, id ∈ osds -> (held live id < limit)%nat).
    { intros id Hid. rewrite <- (exact_default _ _ _ He). apply Nat.nle_gt. intros Hle. apply not_true_iff_false in E. apply E.
      apply existsb_exists. exists id. split; [by apply list_elem_of_In, elem_of_elements|by apply Nat.leb_le]. }
    split_and!; [|done..]. destruct He as [Hnd Hs]. split; [apply Forall_app; split; [done|by constructor; [apply NoDup_elements|]]|].
    intros id. rewrite take_slots by apply NoDup_elements. rewrite held_app, held_one, Hs.
    case_decide; [by destruct (held live id) as [|n]; cbn; [|rewrite Nat.add_1_r]|by rewrite Nat.add_0_r].
Qed.

Lemma release_exact slots l1 r l2 : exact slots (l1 ++ r :: l2) -> exact (release r slots) (l1 ++ l2).
Proof.
  intros [Hnd Hs]. apply Forall_app in Hnd as [H1 [Hr H2]%Forall_cons]. split; [by apply Forall_app|]. intros id.
  rewrite free_slots, Hs by done. rewrite (cons_middle r l1 l2), !held_app, held_one.
  case_decide; rewrite ?Nat.add_0_l; [|done]. replace (held l1 id + (1 + held l2 id))%nat with (S (held l1 id + held l2 id)) by lia.
  by destruct (held l1 id + held l2 id)%nat.
Qed.

(** Reservations made and dropped in any order. *)
Inductive rop := Reserve (osds : gset bytes) (limit : nat) | Drop (i : nat).

Definition rstep (st : list (list bytes) * gmap bytes nat) (o : rop) : list (list bytes) * gmap bytes nat :=
  match o with
  | Reserve osds limit =>
      match reserve osds limit st.2 with (Some r, s) => (st.1 ++ [r], s) | (None, s) => (st.1, s) end
  | Drop i => match st.1 !! i with Some r => (delete i st.1, release r st.2) | None => st end
  end.

Definition limit_of (o : rop) : nat := match o with Reserve _ limit => limit | Drop _ => 0 end.
Definition most (ops : list rop) : nat := foldr (fun o n => Nat.max (limit_of o) n) 0%nat ops.

Lemma most_snoc ops o : most (ops ++ [o]) = Nat.max (most ops) (limit_of o).
Proof. unfold most. induction ops as [|x ops IH]; cbn; [lia|]. rewrite IH. lia. Qed.

(** The slots taken on each OSD are, at any time, those of the
    reservations held, however they were made and dropped: at most the
    largest limit asked for, none left behind; a reservation is refused
    exactly when one of its OSDs is at the limit. *)
Theorem reservations_exact ops : let st := foldl rstep ([], ∅) ops in
  (forall id, (held st.1 id <= most ops)%nat /\
    st.2 !! id = match held st.1 id with O => None | S n => Some (S n) end) /\
  (forall osds limit, (reserve osds limit st.2).1 = None <-> exists id, id ∈ osds /\ (limit <= held st.1 id)%nat).
Proof.
  assert (Hinv : exact (foldl rstep ([], ∅) ops).2 (foldl rstep ([], ∅) ops).1 /\
    forall id, (held (foldl rstep ([], ∅) ops).1 id <= most ops)%nat).
  { induction ops as [|o ops [IH Hm]] using rev_ind; [split; [by split|done]|]. rewrite foldl_snoc.
    set (st := foldl rstep ([], ∅) ops) in *. setoid_rewrite most_snoc. destruct o as [osds limit|i]; cbn [rstep limit_of].
    - pose proof (reserve_exact osds limit _ _ IH) as Hr. destruct (reserve osds limit st.2) as [[r|] s]; cbn [fst snd].
      + destruct Hr as (He & -> & Hlt). split; [done|]. intros id. rewrite held_app, held_one. specialize (Hm id).
        case_decide as Hd; [|lia]. apply elem_of_elements, Hlt in Hd. lia.
      + destruct Hr as [-> _]. split; [done|]. intros id. specialize (Hm id). lia.
    - destruct (st.1 !! i) as [r|] eqn:Er; [|split; [done|]; intros id; specialize (Hm id); lia].
      destruct (list_elem_of_split_length _ _ _ Er) as (l1 & l2 & E & ->). cbn [fst snd]. rewrite E in *.
      assert (delete (length l1) (l1 ++ r :: l2) = l1 ++ l2) as -> by (by rewrite delete_middle).
      split; [by apply release_exact|]. intros id. specialize (Hm id). rewrite (cons_middle r l1 l2), !held_app in Hm.
      rewrite held_app. lia. }
  destruct Hinv as [He Hm]. split; [split; [done|apply He]|]. intros osds limit.
  pose proof (reserve_exact osds limit _ _ He) as Hr. destruct (reserve _ _ _) as [[r|] s]; cbn.
  - destruct Hr as (_ & _ & Hlt). split; [done|]. intros (id & Hid & Hle). specialize (Hlt id Hid). lia.
  - by destruct Hr as [_ Hex].
Qed.

(** ** A round *)
Lemma round_exact v pools busy at_once limit due slots0 live : exact slots0 live -> (busy <= at_once)%nat ->
  let s := recovery_round v pools busy at_once limit due slots0 in
  (busy + length (started s) <= at_once)%nat /\ exact (slots s) (live ++ (started s).*2) /\
  (forall pg r, (pg, r) ∈ started s -> pg ∈ due /\ r = elements (recovery_osds v pg)).
Proof.
  intros He Hb. unfold recovery_round. destruct (Nat.leb_spec at_once busy).
  { cbn. rewrite app_nil_r. split_and!; [lia|done|by intros ? ? []%elem_of_nil]. }
  induction due as [|pg due IH] using rev_ind; [cbn; rewrite app_nil_r; split_and!; [lia|done|by intros ? ? []%elem_of_nil]|].
  rewrite foldl_snoc. set (s := foldl _ _ due) in *. destruct IH as (H1 & H2 & H3). unfold round_step.
  destruct (Nat.leb_spec at_once (busy + length (started s))); [cbn; set_solver|].
  destruct (pools !! pool pg) as [pc|]; [|set_solver].
  pose proof (reserve_exact (recovery_osds v pg) limit _ _ H2) as Hr. destruct (reserve _ _ _) as [[r|] sl]; cbn.
  - destruct Hr as (H4 & -> & _). rewrite length_app, fmap_app, app_assoc. cbn. split_and!; [lia|done|].
    intros x y [?|[= -> ->]%list_elem_of_singleton]%elem_of_app; set_solver.
  - destruct Hr as [-> _]. set_solver.
Qed.

(** ** Local groups *)

(** Recovery and the codec, which compute it each in its own way, agree on
    what a shard is rebuilt from inside its group. *)
Lemma lrc_groups_agree b s position : s_ec_type s = ErasureLrc -> Z.to_nat (s_ec_k s) = lrc_data b ->
  Z.to_nat (s_local_parity s) = lrc_local b -> (0 < lrc_local b)%nat -> lrc_data b = (lrc_local b * local_group_size b)%nat ->
  lrc_local_set s position = (fun g => filter (fun p => p <> position) (data_shard_indices g ++ [local_parity_index g])) <$> local_group b position.
Proof.
  intros Ht Hk Hl Hpos Hkl. unfold lrc_local_set, local_group. rewrite Ht, Hk, Hl, bool_decide_false by auto.
  assert (Hd : (lrc_data b / lrc_local b)%nat = local_group_size b) by (rewrite Hkl, Nat.mul_comm; apply Nat.div_mul; lia).
  assert (Hm : (lrc_data b mod lrc_local b)%nat = 0%nat) by (rewrite Hkl, Nat.mul_comm; apply Nat.Div0.mod_mul).
  rewrite Hm, Hd. destruct (Nat.eqb_spec (lrc_local b) 0); [lia|]. cbn [orb negb Nat.eqb].
  destruct (Nat.ltb_spec position (lrc_data b)), (Nat.leb_spec (lrc_data b + lrc_local b) position), (Nat.ltb_spec position (lrc_data b + lrc_local b)); try lia; done.
Qed.

(** ** Examples *)
Definition pg8 : PlacementGroup := mkPg "default" 8 three_members 4 900 [osd_id Byte.x01; osd_id Byte.x04; osd_id Byte.x03] [].
Definition pg8_new : PlacementGroup := mkPg "default" 8 (up pg8) 5 1000 (up pg8) [mkFill 1 (osd_id Byte.x02) 5].

Lemma remap_safe_witness : remap four_hosts pg8 1000 = Some pg8_new /\ NoDup (acting pg8_new).
Proof.
  assert (E : remap four_hosts pg8 1000 = Some pg8_new) by (by vm_compute). split; [exact E|].
  apply (remap_safe four_hosts pg8 pg8_new 1000); [by vm_compute|exact E|]. apply (bool_decide_unpack _). by vm_compute.
Defined.

(** Two OSDs in each of three racks; one that a group was to move to has
    been set out. *)
Definition rack_node (b : byte) (rack h : string) : NodeInfo :=
  mkNode (osd_id b) "osd" "10.0.0.1:9200" (new_full "r" "z" "dc" rack h) Active [] (F64.of_Z 1) 0.

Definition three_racks : view :=
  mkView [osd_row Byte.x01 In; osd_row Byte.x02 In; osd_row Byte.x03 In; osd_row Byte.x04 Out; osd_row Byte.x05 In; osd_row Byte.x06 In]
    (foldr upsert_node new
      [rack_node Byte.x01 "a" "h1"; rack_node Byte.x02 "b" "h2"; rack_node Byte.x03 "c" "h3";
       rack_node Byte.x04 "b" "h4"; rack_node Byte.x05 "c" "h5"; rack_node Byte.x06 "a" "h6"]) 1000.

Definition moving : PlacementGroup := mkPg "default" 9 three_members 4 900 [osd_id Byte.x04; osd_id Byte.x05; osd_id Byte.x06] [].
Definition by_rack : PlacementRule := spread Rack 3.
Definition racks_kept (members : list bytes) : Prop := keeps by_rack (@located entry_order PgMembersSpec.plain_text three_racks by_rack members).

(** A move does not ask the pool's rule. A group with its three copies in
    three racks is to move to another set in three racks; where one OSD of it
    has been set out meanwhile, the rest of the move puts two of the three
    copies in one rack. *)
Theorem remap_breaks_rule : racks_kept (acting moving) /\ racks_kept (up moving) /\
  exists new, remap three_racks moving 1000 = Some new /\ ~ racks_kept (acting new).
Proof.
  split; [|split]; [apply admitted_keeps; by vm_compute..|].
  exists (mkPg "default" 9 [osd_id Byte.x01; osd_id Byte.x05; osd_id Byte.x06] 5 1000 (up moving)
    [mkFill 1 (osd_id Byte.x02) 5; mkFill 2 (osd_id Byte.x03) 5]).
  split; [by vm_compute|]. intros Hk. pose proof (keeps_limit _ _ Hk (@CopysetPool.domain_name PgMembersSpec.plain_text (rack_node Byte.x01 "a" "h1") Rack)) as Hl.
  revert Hl. apply Nat.lt_nge, Nat.ltb_lt. by vm_compute.
Qed.

End RecoverySpec.
