(* ===== verification/Balancer.v ===== *)
(** * The balancer of placement groups

    [crates/meta/src/balancer.rs]: which groups have an OSD with more than its
    share, which copyset of the pool each is planned onto, and one tick over
    the pools. A plan is a group and what it becomes; whether its commit goes
    through is an argument, since other tasks commit in between. Counts of
    groups are [nat], loads and thresholds are doubles. *)
From Stdlib Require Import SpecFloat.
From S2P Require Import Prelude Bytes StdText F64 JumpHash Topology Crush Copyset CopysetPool MetaState PgMembers.
Import F64(f64) JumpHash(Xxh64, xxh64) Topology Crush(UuidText) Copyset CopysetPool PgMembers.

Module Balancer.

(** ** Settings *)
Record Tuning := mkTuning {
  sweep : Z;
  overload : f64;
  underload : f64;
  improvement : f64;
  scatter_width : nat;
  per_tick_cap_override : nat;
  paused : bool;
}.

(** [f64::max] of a constant that is a number, [f64::clamp]. *)
Definition fmax (x c : f64) : f64 := if F64.leb c x then x else c.
Definition fclamp (lo hi x : f64) : f64 := if F64.ltb x lo then lo else if F64.ltb hi x then hi else x.

Definition zero : f64 := F64.of_Z 0.
Definition one : f64 := F64.of_Z 1.

(** [Tuning::load]'s bounds on what the settings parse to. *)
Definition load (secs : Z) (over under improve : f64) (width cap : nat) (pause : string) : Tuning :=
  mkTuning (Z.max 5 (Z.min 3600 secs)) (fmax over one) (fclamp zero one under) (fclamp zero one improve)
    (Nat.max width 1) cap (eq_ignore_ascii_case pause "true").

(** ** Counts *)
Definition per_tick_cap (active_osds override_value : nat) : nat :=
  if (0 <? override_value)%nat then override_value else Nat.max (active_osds / 3) 3.

Definition members (pg : PlacementGroup) : list bytes := match up pg with [] => acting pg | _ => up pg end.

(** The ids of 16 bytes, the only ones counted. *)
Definition ids (l : list bytes) : list bytes := filter (fun i => length i = 16%nat) l.

Abbreviation counts := (gmap bytes nat).
Definition count_at (c : counts) (i : bytes) : nat := default 0%nat (c !! i).

Definition pg_osd_counts (pg : PlacementGroup) (c : counts) : list nat := count_at c <$> ids (members pg).

Definition as_f64 (n : nat) : f64 := F64.of_Z (Z.of_nat n).

Definition pg_cost (cs : list nat) (target : f64) : f64 := F64.sub (as_f64 (foldr Nat.max 0%nat cs)) target.

Definition is_candidate (cs : list nat) (target overload_threshold : f64) (has_cold_osd : bool) : bool :=
  existsb (fun c => F64.leb overload_threshold (as_f64 c)) cs ||
  (has_cold_osd && existsb (fun c => F64.ltb target (as_f64 c)) cs).

Definition improves_enough (best_cost current_load factor : f64) : bool := F64.ltb best_cost (F64.mul current_load factor).

Definition fsum (l : list f64) : f64 := foldl F64.add zero l.

(** [*entry(id).or_insert(0) += 1]. *)
Definition bump (c : counts) (i : bytes) : counts := <[i := S (count_at c i)]> c.

(** [get_mut], [saturating_sub(1)]. *)
Definition drop_one (c : counts) (i : bytes) : counts :=
  match c !! i with Some n => <[i := (n - 1)%nat]> c | None => c end.

Definition zero_in (c : counts) (i : bytes) : counts := match c !! i with Some _ => c | None => <[i := 0%nat]> c end.

(** A stable sort, the largest cost first. *)
Fixpoint insert_by (x : f64 * PlacementGroup) (l : list (f64 * PlacementGroup)) : list (f64 * PlacementGroup) :=
  match l with
  | [] => [x]
  | y :: l' => if F64.ltb x.1 y.1 then y :: insert_by x l' else x :: l
  end.
Definition sort_by (l : list (f64 * PlacementGroup)) : list (f64 * PlacementGroup) := foldr insert_by [] l.

Record PoolStats := mkStats { scanned : nat; candidates : nat; committed : nat }.

(** A group, what it is planned to become, and whether that was committed. *)
Record plan := mkPlan { p_old : PlacementGroup; p_new : PlacementGroup; p_done : bool }.

Inductive BalanceError := BadPoolRule (e : RuleError) | NoPool (e : CopysetError).

Definition seed_bytes (seed : Z) : bytes :=
  to_le 8 seed ++ to_le 8 ((seed * 0x9e3779b97f4a7c15) mod 2 ^ 64) ++
  to_le 8 ((seed + 0xbf58476d1ce4e5b9) mod 2 ^ 64) ++ to_le 8 ((seed * 0x94d049bb133111eb) mod 2 ^ 64).

Section balancer.
Context {Ord : HashOrder} {Ut : UuidText} {Xx : Xxh64} {Rg : Rng}.

(** [StdRng::from_seed]; whether a commit goes through; the clock. *)
Variable (from_seed : bytes -> rng) (commit : PlacementGroup -> PlacementGroup -> bool) (now_unix : Z).

Definition topology_seed (t : ClusterTopology) (p : PoolConfig) : Z :=
  ((version t * 1000003) mod 2 ^ 64 + xxh64 (as_bytes (pool_name p)) 0) mod 2 ^ 64.

Definition set_load (c : counts) (l : list bytes) : f64 := fsum ((fun i => as_f64 (count_at c i)) <$> l).

(** What the cost closure of [pick_min_cost] leaves in its cell. *)
Definition best_cost (cost : Copyset -> f64) (l : list Copyset) : f64 :=
  foldl (fun b cs => if F64.ltb (cost cs) b then cost cs else b) (S754_infinity false) l.

Definition planned (pg : PlacementGroup) (cs : Copyset) : PlacementGroup :=
  mkPg (pool pg) (pg_id pg) (acting pg) (epoch pg) now_unix (osds cs) (filling pg).

Record tick := mkTick { t_counts : counts; t_plans : list plan; t_committed : nat }.

(** One candidate of the loop; [seed] is the pool's. *)
Definition consider (tn : Tuning) (cs_pool : CopysetPool) (seed : Z) (cap : nat) (s : tick) (pg : PlacementGroup) : tick :=
  if (cap <=? t_committed s)%nat then s
  else
    let current_load := set_load (t_counts s) (ids (members pg)) in
    let cost cs := set_load (t_counts s) (osds cs) in
    match (pick_min_cost cs_pool cost (from_seed (seed_bytes ((seed + pg_id pg) mod 2 ^ 64)))).1 with
    | None => s
    | Some cs =>
        if improves_enough (best_cost cost (sets cs_pool)) current_load (improvement tn) then
          let new := planned pg cs in
          if commit pg new then
            mkTick (foldl bump (foldl drop_one (t_counts s) (ids (members pg))) (osds cs))
              (t_plans s ++ [mkPlan pg new true]) (S (t_committed s))
          else mkTick (t_counts s) (t_plans s ++ [mkPlan pg new false]) (t_committed s)
        else s
    end.

Definition initial_counts (t : ClusterTopology) (pgs : list PlacementGroup) : counts :=
  foldl zero_in (foldl bump ∅ (pgs ≫= fun pg => ids (members pg))) (id <$> active_nodes t).

(** The candidates, the hottest first. *)
Definition scored (tn : Tuning) (target : f64) (c : counts) (pgs : list PlacementGroup) : list PlacementGroup :=
  let has_cold_osd := F64.ltb zero (underload tn) &&
    existsb (fun n => F64.leb (as_f64 n) (F64.mul target (underload tn))) (map_to_list c).*2 in
  snd <$> sort_by ((fun pg => (pg_cost (pg_osd_counts pg c) target, pg)) <$>
    filter (fun pg => is_candidate (pg_osd_counts pg c) target (F64.mul target (overload tn)) has_cold_osd = true) pgs).

(** [pgs] are the pool's groups by id. *)
Definition evaluate_pool (t : ClusterTopology) (p : PoolConfig) (pgs : list PlacementGroup) (active_osds : nat) (tn : Tuning) :
    outcome BalanceError (PoolStats * list plan) :=
  match pgs with
  | [] => Ok (mkStats 0 0 0, [])
  | _ =>
      let k_plus_m := copy_count_of p in
      if (k_plus_m =? 0)%nat then Ok (mkStats (length pgs) 0 0, [])
      else
        let c := initial_counts t pgs in
        let target := F64.div (as_f64 (length pgs * k_plus_m)) (as_f64 active_osds) in
        rule ← map_err BadPoolRule (placement_rule p);
        let seed := topology_seed t p in
        cs_pool ← map_err NoPool (build_with_rule t rule (scatter_width tn) seed);
        match sets cs_pool with
        | [] => Ok (mkStats (length pgs) 0 0, [])
        | _ =>
            let sc := scored tn target c pgs in
            let cap := per_tick_cap active_osds (per_tick_cap_override tn) in
            let s := foldl (consider tn cs_pool seed cap) (mkTick c [] 0) sc in
            Ok (mkStats (length pgs) (length sc) (t_committed s), t_plans s)
        end
  end.

(** A tick: the plans of every pool that has groups; a pool that fails is
    passed over. *)
Definition sweep_once (leader : bool) (t : ClusterTopology) (pools : list (PoolConfig * list PlacementGroup)) (tn : Tuning) : list plan :=
  if negb leader || paused tn then []
  else
    let active_osds := length (active_nodes t) in
    if (active_osds =? 0)%nat then []
    else pools ≫= fun p =>
      if pg_count p.1 =? 0 then []
      else match evaluate_pool t p.1 p.2 active_osds tn with Ok (_, plans) => plans | _ => [] end.

End balancer.
End Balancer.
