(* ===== verification/BalancerSpec.v ===== *)
(** * What the balancer promises

    Theorems on [Balancer]: what is planned for a group keeps the pool's
    placement rule and changes nothing but where it is to go, for a lower
    load, counted with the plans before it ([balance_sound]); and a group
    with nothing to gain that is moved back and forth ([balance_flips]). *)
From S2P Require Import Prelude Bytes StdText F64 JumpHash Topology Crush Copyset CopysetSpec CopysetPool CopysetFill CopysetPoolSpec.
From S2P Require Import MetaState PgMembers PgMembersSpec Balancer.
Import F64(f64) JumpHash(Xxh64) Topology Crush(UuidText) Copyset CopysetPool CopysetPoolSpec PgMembers Balancer.

Module BalancerSpec.

(** ** Counts *)
Lemma filter_all {A} (P : A -> Prop) `{forall x, Decision (P x)} (l : list A) : Forall P l -> filter P l = l.
Proof. induction 1 as [|x l Hx Hl IH]; [done|]. by rewrite filter_cons_True, IH. Qed.

Lemma count_of_app a b i : count_of (a ++ b) i = (count_of a i + count_of b i)%nat.
Proof. unfold count_of. by rewrite filter_app, length_app. Qed.

Lemma count_of_cons x l i : count_of (x :: l) i = ((if decide (x = i) then 1 else 0) + count_of l i)%nat.
Proof. unfold count_of. rewrite filter_cons. by case_decide. Qed.

Lemma count_at_insert c i n j : count_at (<[i := n]> c) j = if decide (i = j) then n else count_at c j.
Proof. unfold count_at. rewrite lookup_insert. by case_decide. Qed.

Lemma count_bump l : forall c i, count_at (foldl bump c l) i = (count_at c i + count_of l i)%nat.
Proof.
  induction l as [|x l IH]; intros c i; cbn [foldl]; [cbn; lia|]. rewrite IH, count_of_cons. unfold bump.
  rewrite count_at_insert. case_decide as E; [rewrite E|]; lia.
Qed.

Lemma count_drop l : forall c i, count_at (foldl drop_one c l) i = (count_at c i - count_of l i)%nat.
Proof.
  induction l as [|x l IH]; intros c i; cbn [foldl]; [cbn; lia|]. rewrite IH, count_of_cons. unfold drop_one.
  destruct (c !! x) as [n|] eqn:E.
  - rewrite count_at_insert. case_decide as Ei; [|lia]. subst. unfold count_at. rewrite E. cbn. lia.
  - case_decide as Ei; [|lia]. subst. unfold count_at. rewrite E. cbn. lia.
Qed.

Lemma count_zero_in l : forall c i, count_at (foldl zero_in c l) i = count_at c i.
Proof.
  induction l as [|x l IH]; intros c i; cbn [foldl]; [done|]. rewrite IH. unfold zero_in.
  destruct (c !! x) eqn:E; [done|]. rewrite count_at_insert. case_decide as Ei; [|done]. subst. unfold count_at. by rewrite E.
Qed.

(** How many positions of the groups are on an OSD. *)
Definition tally (gs : list PlacementGroup) (i : bytes) : nat := count_of (gs ≫= fun pg => ids (members pg)) i.

(** The groups as they are once plans are committed. *)
Definition replace (q : plan) (g : PlacementGroup) : PlacementGroup := if decide (pg_id g = pg_id (p_old q)) then p_new q else g.
Definition replan (plans : list plan) (gs : list PlacementGroup) : list PlacementGroup :=
  foldl (fun gs q => if p_done q then replace q <$> gs else gs) gs plans.

Lemma tally_cons g gs i : tally (g :: gs) i = (count_of (ids (members g)) i + tally gs i)%nat.
Proof. unfold tally. by rewrite bind_cons, count_of_app. Qed.

Lemma replace_others q (gs : list PlacementGroup) : pg_id (p_old q) ∉ pg_id <$> gs -> replace q <$> gs = gs.
Proof.
  intros Hn. rewrite <- (list_fmap_id gs) at 2. apply list_fmap_ext. intros i g Hg. unfold replace.
  rewrite decide_False; [done|]. intros E. apply Hn. rewrite <- E. apply list_elem_of_fmap_2. by eapply list_elem_of_lookup_2.
Qed.

Lemma tally_replace q (gs : list PlacementGroup) i : NoDup (pg_id <$> gs) -> p_old q ∈ gs ->
  (tally (replace q <$> gs) i + count_of (ids (members (p_old q))) i = tally gs i + count_of (ids (members (p_new q))) i)%nat.
Proof.
  induction gs as [|g gs IH]; intros Hnd Hin; [by apply not_elem_of_nil in Hin|]. apply NoDup_cons in Hnd as [Hg Hnd]. cbn [fmap list_fmap].
  rewrite !tally_cons. destruct (decide (pg_id g = pg_id (p_old q))) as [E|E].
  - assert (g = p_old q) as ->.
    { apply elem_of_cons in Hin as [->|Hin]; [done|]. destruct Hg. rewrite E. by apply list_elem_of_fmap_2. }
    change (list_fmap _ _ (replace q) gs) with (replace q <$> gs). rewrite replace_others by done.
    unfold replace. rewrite decide_True by done. lia.
  - apply elem_of_cons in Hin as [<-|Hin]; [done|]. specialize (IH Hnd Hin).
    change (list_fmap _ _ (replace q) gs) with (replace q <$> gs). unfold replace at 1. rewrite decide_False by done. lia.
Qed.

(** Plans keep the groups' ids. *)
Definition same_id (q : plan) : Prop := pg_id (p_new q) = pg_id (p_old q).

Lemma replan_ids plans : forall gs, Forall same_id plans -> pg_id <$> replan plans gs = pg_id <$> gs.
Proof.
  unfold replan. induction plans as [|q plans IH] using rev_ind; intros gs H; [done|]. apply Forall_app in H as [H [Hq _]%Forall_cons].
  rewrite foldl_snoc. destruct (p_done q); [|by apply IH]. rewrite <- (IH gs H), <- list_fmap_compose. apply list_fmap_ext.
  intros i g _. cbn. unfold replace. by case_decide as E; [rewrite E|].
Qed.

Lemma replan_keeps plans g : forall gs, g ∈ gs -> pg_id g ∉ (pg_id ∘ p_old <$> plans) -> g ∈ replan plans gs.
Proof.
  unfold replan. induction plans as [|q plans IH] using rev_ind; intros gs Hg Hn; [done|]. rewrite foldl_snoc.
  rewrite fmap_app in Hn. assert (Hin : g ∈ foldl (fun gs q => if p_done q then replace q <$> gs else gs) gs plans) by (apply IH; set_solver).
  destruct (p_done q); [|done]. apply list_elem_of_fmap. exists g. split; [|done]. unfold replace. rewrite decide_False; [done|].
  cbn in Hn. set_solver.
Qed.

(** ** Sorting *)
Lemma insert_by_perm x l : insert_by x l ≡ₚ x :: l.
Proof. induction l as [|y l IH]; cbn; [done|]. case_match; [|done]. rewrite IH. apply Permutation_swap. Qed.

Lemma sort_by_perm l : sort_by l ≡ₚ l.
Proof. induction l as [|x l IH]; cbn; [done|]. by rewrite insert_by_perm, IH. Qed.

(** ** Picking *)

(** As good as [best] for [pick_min_cost]: the same cost, or one less than
    [f64::EPSILON] away. *)
Definition as_good (c best : f64) : Prop := c = best \/ F64.ltb (F64.abs (F64.sub c best)) epsilon = true.

Lemma min_cost_ties cost l : let st := foldl (min_cost_step cost) (SpecFloat.S754_infinity false, []) l in
  st.1 = best_cost cost l /\ forall cs, cs ∈ st.2 -> cs ∈ l /\ as_good (cost cs) st.1.
Proof.
  unfold best_cost. induction l as [|x l [IH1 IH2]] using rev_ind; [split; [done|by intros ? []%elem_of_nil]|].
  rewrite !foldl_snoc. destruct (foldl (min_cost_step cost) _ l) as [best ties]. cbn [fst snd] in *. rewrite <- IH1. unfold min_cost_step.
  destruct (F64.ltb (cost x) best) eqn:E; cbn [fst snd].
  - split; [done|]. intros cs ->%list_elem_of_singleton. split; [set_solver|by left].
  - destruct (F64.ltb (F64.abs _) epsilon) eqn:E'; cbn [fst snd]; (split; [done|]).
    + intros cs [?| ->%list_elem_of_singleton]%elem_of_app; [split; [set_solver|by apply IH2]|split; [set_solver|by right]].
    + intros cs Hcs. split; [set_solver|by apply IH2].
Qed.

Section loop.
Context {Ord : HashOrder} {Ut : UuidText} {Xx : Xxh64} {Rg : Rng}.
Variable (from_seed : bytes -> rng) (commit : PlacementGroup -> PlacementGroup -> bool) (now_unix : Z).

Lemma pick_cheapest p cost (g : rng) cs : (pick_min_cost p cost g).1 = Some cs ->
  cs ∈ sets p /\ as_good (cost cs) (best_cost cost (sets p)).
Proof.
  unfold pick_min_cost. destruct (sets p) as [|x l] eqn:E; [done|]. rewrite <- E.
  destruct (min_cost_ties cost (sets p)) as [<- Ht]. destruct (foldl _ _ (sets p)) as [best ties]. cbn in *. intros Hc. apply Ht.
  destruct ties as [|y ties]; [by rewrite choose_nil in Hc|].
  destruct (choose_some _ (y :: ties) g ltac:(done)) as (z & Hz & Hin). congruence.
Qed.

Variable (tn : Tuning) (cs_pool : CopysetPool) (seed : Z) (cap : nat) (pgs : list PlacementGroup).
Hypothesis Hids : NoDup (pg_id <$> pgs).
Hypothesis Hsets : forall cs, cs ∈ sets cs_pool -> osds cs <> [] /\ ids (osds cs) = osds cs.

(** The load of a set of OSDs, by the positions the groups have there. *)
Definition load_on (gs : list PlacementGroup) (l : list bytes) : f64 := fsum ((fun i => as_f64 (tally gs i)) <$> l).

(** What a plan is, the groups being [gs] when it is made. *)
Definition plan_ok (gs : list PlacementGroup) (q : plan) : Prop :=
  p_old q ∈ pgs /\ exists cs best, cs ∈ sets cs_pool /\ p_new q = planned now_unix (p_old q) cs /\
    best = best_cost (fun cs => load_on gs (osds cs)) (sets cs_pool) /\ as_good (load_on gs (osds cs)) best /\
    improves_enough best (load_on gs (ids (members (p_old q)))) (improvement tn) = true.

Record tick_inv (seen : list PlacementGroup) (s : tick) : Prop := {
  ti_counts : forall i, count_at (t_counts s) i = tally (replan (t_plans s) pgs) i;
  ti_seen : p_old <$> t_plans s `sublist_of` seen;
  ti_committed : t_committed s = length (filter (fun q => p_done q = true) (t_plans s));
  ti_cap : (t_committed s <= cap)%nat;
  ti_plans : forall before q after, t_plans s = before ++ q :: after -> plan_ok (replan before pgs) q;
}.

Lemma set_load_tally s seen l : tick_inv seen s -> set_load (t_counts s) l = load_on (replan (t_plans s) pgs) l.
Proof. intros H. unfold set_load, load_on. f_equal. apply list_fmap_ext. intros i x _. cbn. by rewrite (ti_counts _ _ H). Qed.

Lemma best_cost_ext (c c' : Copyset -> f64) l : (forall cs, c cs = c' cs) -> best_cost c l = best_cost c' l.
Proof. intros H. unfold best_cost. generalize (SpecFloat.S754_infinity false). induction l as [|x l IH]; intros b; cbn; [done|]. by rewrite H, IH. Qed.

Lemma plans_snoc (l : list plan) q before x after : l ++ [q] = before ++ x :: after ->
  (before = l /\ x = q) \/ exists rest, l = before ++ x :: rest.
Proof.
  destruct after as [|y after _] using rev_ind.
  - intros [-> [= ->]]%app_inj_tail. by left.
  - rewrite app_comm_cons, app_assoc. intros [-> _]%app_inj_tail. right. by exists after.
Qed.

(** One more plan, not committed or committed. *)
Lemma tick_inv_plan seen s pg cs (ok : bool) : tick_inv seen s -> NoDup (pg_id <$> seen ++ [pg]) -> pg ∈ pgs -> (t_committed s < cap)%nat ->
  cs ∈ sets cs_pool -> as_good (set_load (t_counts s) (osds cs)) (best_cost (fun cs => set_load (t_counts s) (osds cs)) (sets cs_pool)) ->
  improves_enough (best_cost (fun cs => set_load (t_counts s) (osds cs)) (sets cs_pool)) (set_load (t_counts s) (ids (members pg))) (improvement tn) = true ->
  tick_inv (seen ++ [pg])
    (mkTick (if ok then foldl bump (foldl drop_one (t_counts s) (ids (members pg))) (osds cs) else t_counts s)
      (t_plans s ++ [mkPlan pg (planned now_unix pg cs) ok]) (if ok then S (t_committed s) else t_committed s)).
Proof.
  intros H Hnd Hpg Hlt Hcs Hgood Himp. pose proof H as [H1 H2 H3 H4 H5].
  rewrite (set_load_tally s seen (osds cs) H) in Hgood. rewrite (set_load_tally s seen (ids (members pg)) H) in Himp.
  rewrite (best_cost_ext _ (fun cs => load_on (replan (t_plans s) pgs) (osds cs))) in Hgood, Himp
    by (intros; by apply (set_load_tally s seen)).
  assert (Hsame : Forall same_id (t_plans s)).
  { apply Forall_forall. intros q (l1 & l2 & E)%list_elem_of_split. destruct (H5 _ _ _ E) as (_ & c & b & _ & Hn & _).
    unfold same_id. by rewrite Hn. }
  assert (Hnot : pg_id pg ∉ (pg_id ∘ p_old <$> t_plans s)).
  { rewrite list_fmap_compose. intros Hin. rewrite fmap_app in Hnd. apply NoDup_app in Hnd as (_ & Hd & _).
    apply (Hd (pg_id pg)); [|by left]. eapply elem_of_submseteq; [exact Hin|]. by apply fmap_submseteq, sublist_submseteq. }
  pose proof (Hsets cs Hcs) as [Hne Hid].
  assert (Hm : ids (members (planned now_unix pg cs)) = osds cs).
  { unfold members, planned. cbn. by destruct (osds cs). }
  split; cbn [t_counts t_plans t_committed].
  - intros i. unfold replan. rewrite foldl_snoc. fold (replan (t_plans s) pgs). cbn [p_done]. destruct ok; [|apply H1].
    rewrite count_bump, count_drop, H1.
    pose proof (tally_replace (mkPlan pg (planned now_unix pg cs) true) (replan (t_plans s) pgs) i) as Ht. cbn [p_old p_new] in Ht.
    rewrite Hm in Ht. rewrite replan_ids in Ht by done. specialize (Ht Hids (replan_keeps _ _ _ Hpg Hnot)).
    assert (count_of (ids (members pg)) i <= tally (replan (t_plans s) pgs) i)%nat; [|lia].
    destruct (list_elem_of_split _ _ (replan_keeps _ _ _ Hpg Hnot)) as (l1 & l2 & ->). unfold tally. rewrite bind_app, bind_cons, !count_of_app. lia.
  - rewrite fmap_app. by apply sublist_app.
  - rewrite filter_app, length_app, H3. destruct ok; [rewrite filter_cons_True by done|rewrite filter_cons_False by done]; rewrite filter_nil; cbn [length]; lia.
  - destruct ok; lia.
  - intros before q after [[-> ->]|[rest E]]%plans_snoc; [|by eapply H5]. split; [done|]. by eexists cs, _.
Qed.

Lemma tick_inv_seen seen s pg : tick_inv seen s -> tick_inv (seen ++ [pg]) s.
Proof. intros [H1 H2 H3 H4 H5]. split; try done. etrans; [exact H2|]. by apply sublist_inserts_r. Qed.

Lemma consider_inv seen s pg : tick_inv seen s -> NoDup (pg_id <$> seen ++ [pg]) -> pg ∈ pgs ->
  tick_inv (seen ++ [pg]) (consider from_seed commit now_unix tn cs_pool seed cap s pg).
Proof.
  intros H Hnd Hpg. unfold consider. destruct (Nat.leb_spec cap (t_committed s)); [by apply tick_inv_seen|].
  destruct (pick_min_cost _ _ _).1 as [cs|] eqn:Ep; [|by apply tick_inv_seen].
  apply pick_cheapest in Ep as [Hcs Hgood].
  destruct (improves_enough _ _ _) eqn:Ei; [|by apply tick_inv_seen].
  pose proof (fun ok => tick_inv_plan seen s pg cs ok H Hnd Hpg ltac:(lia) Hcs Hgood Ei) as Hp.
  destruct (commit pg _); [apply (Hp true)|apply (Hp false)].
Qed.

Lemma loop_inv c sc : (forall i, count_at c i = tally pgs i) -> NoDup (pg_id <$> sc) -> (forall pg, pg ∈ sc -> pg ∈ pgs) ->
  tick_inv sc (foldl (consider from_seed commit now_unix tn cs_pool seed cap) (mkTick c [] 0) sc).
Proof.
  intros Hc. induction sc as [|pg sc IH] using rev_ind; intros Hnd Hin.
  - split; cbn; try done; [lia|]. intros before q after E. by destruct before.
  - rewrite foldl_snoc. apply consider_inv; [|done|set_solver].
    apply IH; [|set_solver]. rewrite fmap_app in Hnd. by apply NoDup_app in Hnd as [? _].
Qed.

End loop.

(** ** A pool *)
Section pool.
Context {Ord : HashOrder} {Ut : UuidText} {Xx : Xxh64} {Rg : Rng}.
Variable (from_seed : bytes -> rng) (commit : PlacementGroup -> PlacementGroup -> bool) (now_unix : Z).

Lemma initial_exact t pgs i : count_at (initial_counts t pgs) i = tally pgs i.
Proof. unfold initial_counts. rewrite count_zero_in, count_bump. done. Qed.

Lemma scored_perm tn target c pgs : exists P : PlacementGroup -> bool, scored tn target c pgs ≡ₚ filter (fun pg => P pg = true) pgs.
Proof.
  unfold scored. eexists (fun pg => is_candidate (pg_osd_counts pg c) target _ _). rewrite sort_by_perm, <- list_fmap_compose.
  apply Permutation_refl'. etrans; [|apply list_fmap_id]. by apply list_fmap_ext.
Qed.

Lemma rule_valid p r : placement_rule p = Ok r -> valid r.
Proof.
  unfold placement_rule. intros (lv & _ & (tg & _ & ([] & Hv & [= <-])%outcome_bind_ok)%outcome_bind_ok)%outcome_bind_ok.
  apply validate_valid. destruct (validate _) as [[]| |]; done.
Qed.

(** The copysets of a pool's rule: nonempty, of whole ids. *)
Lemma sets_whole t r sw seed cp : valid r -> build_with_rule t r sw seed = Ok cp ->
  Forall (fun n => length (id n) = 16%nat) (active_nodes t) ->
  forall cs, cs ∈ sets cp -> osds cs <> [] /\ ids (osds cs) = osds cs.
Proof.
  intros Hv Hb H16 cs Hcs. destruct (pool_sets _ _ _ _ _ Hb) as [_ Hk]. destruct (Hk cs Hcs) as [ns Hns]. split.
  - intros E. pose proof (kr_length _ _ _ _ Hns) as Hl. pose proof (valid_copies _ Hv).
    rewrite (kr_osds _ _ _ _ Hns) in E. apply fmap_nil_inv in E. subst. cbn in Hl. lia.
  - unfold ids. rewrite (kr_osds _ _ _ _ Hns). apply filter_all, Forall_fmap, Forall_forall. intros n Hn. cbn.
    rewrite Forall_forall in H16. by eapply H16, (kr_active _ _ _ _ Hns).
Qed.

(** C33. What the balancer plans for a pool is sound, if its groups have
    distinct ids and the topology has each active OSD once. At most a tick's moves
    are committed, and no group is planned twice. A plan changes only where
    the group is to go (and when it was changed): its members, epoch and fills
    stay. Where it is to go is a copyset that keeps the pool's rule, on active
    OSDs, none twice; no copyset of the pool has a lower load, and its load is
    below the group's present one by the margin set, each load counting the
    positions every group has on each OSD once the plans committed before are
    carried out. *)
Theorem balance_sound t p pgs active_osds tn stats plans :
  evaluate_pool from_seed commit now_unix t p pgs active_osds tn = Ok (stats, plans) ->
  NoDup (pg_id <$> pgs) -> NoDup (id <$> active_nodes t) -> Forall (fun n => length (id n) = 16%nat) (active_nodes t) ->
  committed stats = length (filter (fun q => p_done q = true) plans) /\
  (committed stats <= per_tick_cap active_osds (per_tick_cap_override tn))%nat /\
  NoDup (pg_id ∘ p_old <$> plans) /\
  forall before q after, plans = before ++ q :: after ->
    p_old q ∈ pgs /\ exists r cp cs ns best, placement_rule p = Ok r /\
    build_with_rule t r (scatter_width tn) (topology_seed t p) = Ok cp /\ cs ∈ sets cp /\
    p_new q = planned now_unix (p_old q) cs /\ NoDup (osds cs) /\ keeps_rule t r cs ns /\
    best = best_cost (fun cs => load_on (replan before pgs) (osds cs)) (sets cp) /\
    as_good (load_on (replan before pgs) (osds cs)) best /\
    improves_enough best (load_on (replan before pgs) (ids (members (p_old q)))) (improvement tn) = true.
Proof.
  intros He Hids Hn H16. unfold evaluate_pool in He. destruct pgs as [|g gs] eqn:Eg; [injection He as <- <-|].
  { cbn. split_and!; [done|lia|constructor|]. by intros []. }
  rewrite <- Eg in *. clear Eg g gs. destruct (copy_count_of p =? 0)%nat.
  { injection He as <- <-. cbn. split_and!; [done|lia|constructor|]. by intros []. }
  apply outcome_bind_ok in He as (r & Hr & (cp & Hb & He)%outcome_bind_ok).
  assert (Hr' : placement_rule p = Ok r) by (by destruct (placement_rule p); [injection Hr as ->|..]).
  assert (Hb' : build_with_rule t r (scatter_width tn) (topology_seed t p) = Ok cp)
    by (by destruct (build_with_rule _ _ _ _); [injection Hb as ->|..]).
  destruct (sets cp) as [|c0 cs0] eqn:Es; [by destruct (pool_sets _ _ _ _ _ Hb')|]. clear Es c0 cs0.
  set (sc := scored _ _ _ _) in He. destruct (scored_perm tn (F64.div (as_f64 (length pgs * copy_count_of p)) (as_f64 active_osds)) (initial_counts t pgs) pgs) as [P Hsc].
  fold sc in Hsc. assert (Hnd : NoDup (pg_id <$> sc)) by (rewrite Hsc; by apply NoDup_fmap_filter).
  assert (Hinv := loop_inv from_seed commit now_unix tn cp (topology_seed t p) (per_tick_cap active_osds (per_tick_cap_override tn)) pgs Hids
    (sets_whole _ _ _ _ _ (rule_valid _ _ Hr') Hb' H16) (initial_counts t pgs) sc (initial_exact t pgs) Hnd).
  destruct Hinv as [_ H2 H3 H4 H5]; [intros pg Hpg; rewrite Hsc in Hpg; by apply list_elem_of_filter in Hpg as [_ ?]|].
  injection He as <- <-. cbn [committed]. split_and!; [done|done| |].
  - rewrite list_fmap_compose. eapply sublist_NoDup; [exact Hnd|]. by apply fmap_sublist.
  - intros before q after E. destruct (H5 _ _ _ E) as (Hq & cs & best & Hcs & Hnew & Hbest & Hgood & Himp). split; [done|].
    destruct (pool_sets _ _ _ _ _ Hb') as [_ Hk]. destruct (Hk cs Hcs) as [ns Hns]. exists r, cp, cs, ns, best.
    split_and!; try done. by eapply keeps_rule_apart.
Qed.

End pool.

(** ** Examples *)

(** A generator that turns lists further each time. *)
Lemma rotate_perm {A} n (l : list A) : rotate n l ≡ₚ l.
Proof. unfold rotate. rewrite Permutation_app_comm. by rewrite take_drop. Qed.

#[refine] Instance turning_rng : Rng := {|
  rng := nat;
  seed_from_u64 := fun _ => 0%nat;
  shuffle := fun A l g => (rotate g l, S g);
  choose_multiple := fun A l n g => (take n (rotate g l), S g);
  choose := fun A l g => (head (rotate g l), S g);
  gen_f64 := fun g => (F64.div (F64.of_Z (Z.of_nat g mod 4)) (F64.of_Z 4), S g);
|}.
Proof.
  - intros. apply rotate_perm.
  - intros. cbn. rewrite <- (rotate_perm g l) at 2. apply sublist_submseteq, sublist_take.
  - intros. cbn. by rewrite length_take, rotate_perm.
  - intros A l g Hl. cbn. pose proof (rotate_perm g l) as Hp. destruct (rotate g l) as [|x r]; [by apply Permutation_nil_l in Hp|].
    exists x. split; [done|]. rewrite <- Hp. by left.
  - intros A g. cbn. unfold rotate. by rewrite drop_nil, take_nil.
Defined.

(** Two copies on four hosts, the default settings, one group. *)
Definition hosts : ClusterTopology := PgMembers.topology PgMembersSpec.four_hosts.
Definition two_copies : PoolConfig := mkPoolConfig "p" 2 0 0 0 0 2 "host" 1 0 0 false.
Definition defaults : Tuning :=
  load 60 (F64.div (F64.of_Z 12) (F64.of_Z 10)) zero (F64.div (F64.of_Z 9) (F64.of_Z 10)) 10 0 "false".
Definition on_first : list bytes := [PgMembersSpec.osd_id Byte.x01; PgMembersSpec.osd_id Byte.x02].
Definition on_last : list bytes := [PgMembersSpec.osd_id Byte.x03; PgMembersSpec.osd_id Byte.x04].
Definition lone (u : list bytes) : PlacementGroup := mkPg "p" 0 on_first 1 100 u [].

Definition evaluate_lone (u : list bytes) : outcome BalanceError (PoolStats * list plan) :=
  @evaluate_pool entry_order PgMembersSpec.plain_text JumpHash.sum_hash turning_rng (fun _ => 0%nat) (fun _ _ => true) 100
    hosts two_copies [lone u] 4 defaults.

Lemma balance_sound_witness :
  evaluate_lone on_first = Ok (mkStats 1 1 1, [mkPlan (lone on_first) (lone on_last) true]) /\ (1 <= per_tick_cap 4 0)%nat.
Proof.
  assert (E : evaluate_lone on_first = Ok (mkStats 1 1 1, [mkPlan (lone on_first) (lone on_last) true])) by (by vm_compute).
  split; [exact E|].
  refine (proj1 (proj2 (@balance_sound entry_order PgMembersSpec.plain_text JumpHash.sum_hash turning_rng (fun _ => 0%nat) (fun _ _ => true) 100
    hosts two_copies [lone on_first] 4 defaults _ _ E _ _ _))).
  - by apply (bool_decide_unpack _); vm_compute.
  - by apply (bool_decide_unpack _); vm_compute.
  - by apply (bool_decide_unpack _); vm_compute.
Defined.

(** The load of a copyset is counted without the group that would come to
    it, the group's present load with it, so the margin does not stop a group
    from being moved back and forth: the one group of a pool, with two of
    four hosts to itself, is planned onto the other two at one tick, and back
    at the next. *)
Theorem balance_flips :
  evaluate_lone on_first = Ok (mkStats 1 1 1, [mkPlan (lone on_first) (lone on_last) true]) /\
  evaluate_lone on_last = Ok (mkStats 1 1 1, [mkPlan (lone on_last) (lone on_first) true]).
Proof. split; by vm_compute. Qed.

End BalancerSpec.
