(* ===== verification/PgLife.v ===== *)
(** * The life of a placement group

    The leader's tasks that change a group, together: standing in for members
    ([PgMembers]), planning where it goes ([Balancer]), moving it there and
    ending its fills ([Recovery]), each through the commits of [PgCommit] and
    the state machine of [MetaState]. Whatever each of them proposes, from
    whatever view, in whatever order, the groups stay sound
    ([tasks_keep_groups]). *)
From S2P Require Import Prelude Bytes F64 JumpHash Topology Crush Copyset CopysetPool MetaState MetaStateSpec.
From S2P Require Import PgMembers PgMembersSpec PgCommit StripeWrite Recovery RecoverySpec Balancer.
Import JumpHash(Xxh64) Topology(HashOrder) Crush(UuidText) Copyset(PlacementRule) MetaState MetaStateSpec PgMembers PgCommit.

Module PgLife.

Section life.
Context {Ord : HashOrder} {Ut : UuidText} {Xx : Xxh64}.

(** What the tasks propose for a group. *)
Inductive proposes : PlacementGroup -> PlacementGroup -> Prop :=
| keeps_acting v r ds grace timestamp pg new :
    (keep_pg v r ds grace timestamp pg).1 = Some new -> proposes pg new
| balances timestamp pg cs : proposes pg (Balancer.planned timestamp pg cs)
| moves v timestamp pg new : Recovery.remap v pg timestamp = Some new -> proposes pg new
| ends_fills worked timestamp pg new : Recovery.finish_filling worked pg timestamp = Some new -> proposes pg new.

(** What a change keeps of a group. *)
Record same_group (old new : PlacementGroup) : Prop := {
  sg_forward : forward old new;
  sg_width : length (acting new) = length (acting old);
  sg_pool : pool new = pool old;
  sg_id : pg_id new = pg_id old;
}.

#[global] Instance same_group_preorder : PreOrder same_group.
Proof.
  split.
  - intros a. by split.
  - intros a b c [H1 H2 H3 H4] [H5 H6 H7 H8]. split; [by etrans|congruence..].
Qed.

Lemma stood_width v r pg ds grace e ps : forall d,
  length (d_acting (foldl (stand_in_at v r pg ds grace e) d ps)) = length (d_acting d).
Proof.
  induction ps as [|p ps IH]; intros d; cbn [foldl]; [done|]. rewrite IH. unfold stand_in_at.
  repeat case_match; try done; apply length_insert.
Qed.

Lemma stood_same v r pg ds grace timestamp new : stand_in v pg r ds grace timestamp = Some new ->
  length (acting new) = length (acting pg) /\ pool new = pool pg /\ pg_id new = pg_id pg.
Proof.
  unfold stand_in. set (d := foldl _ _ _). destruct (d_any d); [|done]. intros [= <-]. cbn. split; [|done]. apply stood_width.
Qed.

Lemma kept_same v r ds grace timestamp pg new : (keep_pg v r ds grace timestamp pg).1 = Some new ->
  length (acting new) = length (acting pg) /\ pool new = pool pg /\ pg_id new = pg_id pg.
Proof.
  unfold keep_pg. assert (Hf : forall f, without_gone_up v pg timestamp = Some f ->
    acting f = acting pg /\ pool f = pool pg /\ pg_id f = pg_id pg).
  { unfold without_gone_up. intros f. case_if; [done|]. case_bool_decide; [|done]. by intros [= <-]. }
  destruct (without_gone_up v pg timestamp) as [f|].
  - change (default pg (Some f)) with f. destruct (Hf f eq_refl) as (E1 & E2 & E3). rewrite <- E1, <- E2, <- E3. destruct (PgMembers.all_usable _ _ _ _); cbn [fst].
    + by intros [= ->].
    + destruct (stand_in v f r ds grace timestamp) as [n|] eqn:Es; cbn; [|by intros [= <-]]. intros [= <-]. by eapply stood_same.
  - change (default pg None) with pg. destruct (PgMembers.all_usable _ _ _ _); [done|].
    destruct (stand_in v pg r ds grace timestamp) as [n|] eqn:Es; cbn; [|done]. intros [= <-]. by eapply stood_same.
Qed.

Lemma remapped_width pg e ps : forall st, length (foldl (Recovery.take_up pg e) st ps).1 = length st.1.
Proof.
  induction ps as [|p ps IH]; intros st; cbn [foldl]; [done|]. rewrite IH. unfold Recovery.take_up.
  repeat case_match; try done; apply length_insert.
Qed.

(** Every proposal changes a group only forward. *)
Lemma proposes_same pg new : 0 <= epoch pg < u64_max -> proposes pg new -> same_group pg new.
Proof.
  intros He. assert (Hw : wadd64 (epoch pg) 1 = epoch pg + 1) by (apply wadd64_small; unfold u64_max, two64 in *; lia).
  destruct 1 as [v r ds grace ts pg new Hk|ts pg cs|v ts pg new Hm|worked ts pg new Hf].
  - destruct (kept_same _ _ _ _ _ _ _ Hk) as (H1 & H2 & H3). split; [by eapply pass_goes_forward|done..].
  - by split.
  - unfold Recovery.remap in Hm. destruct (Recovery.remap_positions v pg) as [|p ps]; [done|]. injection Hm as <-.
    split; [|apply remapped_width|done|done]. unfold forward. cbn. rewrite Hw. split; lia.
  - unfold Recovery.finish_filling in Hf. destruct (_ || _); [done|]. injection Hf as <-. by split.
Qed.

(** What the log brings of groups: commits of proposals. *)
Definition task_event (e : event) : Prop :=
  match e with
  | Commits changes _ => Forall (fun c => 0 <= epoch c.1 < u64_max /\ proposes c.1 c.2) changes
  | Other cmd => elsewhere cmd
  end.

(** C3. A placement group stays sound through its life. Whatever the leader's
    tasks propose (stand-ins, where it is to go, moves, fills ended), each from
    whatever it last saw of the group and of the cluster, at epochs below the
    last of 64 bits, and however their commits and those of earlier leaders
    interleave in the log, with each other and with commands that leave the
    table of groups alone: the group is never lost or taken for another, it
    keeps its number of positions, its epoch never falls, with one epoch it
    has one acting set, and, if no OSD was at two of its positions, none
    comes to be. *)
Theorem tasks_keep_groups {M} {Rec : Records} {Pb : PgBytes} (t : txn (M := M)) events key p :
  has_table (t_db t) -> Forall task_event events -> group_at (t_db t) key = Some p ->
  exists p', group_at (t_db (foldl run_event t events)) key = Some p' /\
    pool p' = pool p /\ pg_id p' = pg_id p /\ length (acting p') = length (acting p) /\
    epoch p <= epoch p' /\ (epoch p = epoch p' -> acting p = acting p') /\ (NoDup (acting p) -> NoDup (acting p')).
Proof.
  intros Ht Hev Hp. destruct (run_goes same_group t events Ht) as [_ Hrel].
  { eapply Forall_impl; [exact Hev|]. intros [changes why|cmd]; [|done]. cbn. intros Hc. eapply Forall_impl; [exact Hc|].
    intros c [He Hpr]. by apply proposes_same. }
  destruct (Hrel key p Hp) as (p' & Hp' & [[[H1 H2] H3 H4 H5] H6]). by exists p'.
Qed.

End life.

(** ** An example: a member stood in for, the fill ended, by a second leader
    from the group as it was *)
Import PgMembersSpec(pg7, pg7_new, four_hosts, by_host, plain_text).

Definition pg7_filled : PlacementGroup := mkPg "default" 7 (acting pg7_new) 5 1100 (up pg7_new) [].

Definition life_events : list event :=
  [Commits [(pg7, pg7_new)] "pg-stand-in"; Commits [(pg7, pg7_new)] "pg-stand-in"; Commits [(pg7_new, pg7_filled)] "pg-filled"].

Lemma tasks_keep_groups_witness :
  exists p', group_at (Pb := plain_pgs) (t_db (foldl (run_event (Rec := plain_records) (Pb := plain_pgs)) (stored pg7) life_events))
    (pg_key "default" 7) = Some p' /\ length (acting p') = 3%nat.
Proof.
  destruct (@tasks_keep_groups Topology.entry_order plain_text JumpHash.sum_hash () plain_records plain_pgs (stored pg7) life_events
    (pg_key "default" 7) pg7) as (p' & Hp & _ & _ & Hl & _).
  - by eexists.
  - assert (H1 : @proposes Topology.entry_order plain_text JumpHash.sum_hash pg7 pg7_new).
    { apply (keeps_acting four_hosts by_host ∅ (Some 120) 1000). by vm_compute. }
    assert (H2 : @proposes Topology.entry_order plain_text JumpHash.sum_hash pg7_new pg7_filled).
    { apply (ends_fills pg7_new 1100). by vm_compute. }
    assert (0 <= epoch pg7 < u64_max /\ 0 <= epoch pg7_new < u64_max) as [? ?] by (unfold u64_max, two64; cbn; lia).
    repeat constructor; cbn [fst snd]; (apply H1 || apply H2 || lia).
  - by vm_compute.
  - exists p'. split; [exact Hp|exact Hl].
Defined.

End PgLife.
