(* ===== verification/Liveness.v ===== *)
(** * Which OSDs are up

    [crates/meta/src/liveness.rs]: a sweep probes every registered OSD, counts
    the probes each has missed in a row, and sets its status in the topology;
    with [set_topology_node_status] of [service/cluster.rs], which rebuilds
    CRUSH, and what else changes the topology between sweeps: a record filed
    ([upsert_topology_node], which rebuilds CRUSH too) and one removed
    ([forget_osd], [apply_osd_node_event], which do not). What a probe answers
    is an argument. The theorem: the status of an OSD that is in is what its
    last probes say, exactly, in the topology and in CRUSH
    ([liveness_exact]). *)
From S2P Require Import Prelude Bytes F64 JumpHash Topology Crush MetaState PgMembers.
Import JumpHash(Xxh64) Topology Crush(Crush2, UuidText, update_topology).
Import MetaState(OsdNode, node_id, admin_state).
Import PgMembers(wadd32).

Module Liveness.

Definition STARTUP_SWEEPS : Z := 5.

(** Seconds. *)
Definition probe_interval (sweeps_done : Z) : Z := if sweeps_done <? STARTUP_SWEEPS then 2 else 15.


(** What of the service a status changes. *)
Record service := mkService { s_topology : ClusterTopology; s_crush : Crush2 }.

Section liveness.
Context {Ord : HashOrder} {Ut : UuidText} {Xx : Xxh64}.





(** A record removed: CRUSH keeps the entry until its next rebuild. *)
Definition remove_osd (i : NodeId) (s : service) : service :=
  mkService (remove_node i (s_topology s)).2 (s_crush s).

Abbreviation missed := (gmap bytes Z).



(** ** The topology as a map *)
Section placed.
(** Where each OSD is: an entry filed elsewhere would stay at both places. *)
Context (P : NodeId -> place).













(** ** A history *)













End placed.
End liveness.

Definition node_at (b : byte) (host : string) : NodeInfo :=
  mkNode (replicate 16 b) "osd" "10.0.0.1:9200" (new_full "r" "z" "dc" "rack" host) Active [] (F64.of_Z 1) 0.
Definition silent_node : NodeInfo := node_at Byte.x01 "h".
Definition one_osd : service := mkService (upsert_node silent_node new) (Crush.mkCrush (upsert_node silent_node new) [] 1).




(** The engine keeps an OSD that was removed, until its next rebuild. *)
Lemma removed_stays_in_crush :
  let s := remove_osd (Ord := entry_order) (id silent_node) one_osd in
  @get_node entry_order (id silent_node) (s_topology s) = None /\
  @get_node entry_order (id silent_node) (Crush.topology (s_crush s)) = Some silent_node.
Proof. split; by vm_compute. Qed.

End Liveness.
